(* ===== verification/_CoqProject ===== *)
-Q . S2P
Prelude.v
Coding.v
Crc32c.v
Comparator.v
DbFormat.v
EnclaveCC.v
Log.v
Random.v
SkipList.v
Logging.v
Status.v
Filename.v
MemTable.v
Arena.v
WriteBatch.v
Sha3.v
Sha1.v
EnclaveMerge.v
Compaction.v
FrontWriter.v
Iterator.v
Merger.v
TwoLevelIterator.v
Block.v
Filter.v
Format.v
TableBuilder.v
Table.v
VersionEdit.v
Cache.v
TableCache.v
Version.v
DbIter.v
VersionBuilder.v
VersionSet.v
CompactionPick.v
ObsoleteFiles.v
Snapshot.v
DbWrite.v
CompactionInstall.v
DbRead.v
CompactionWork.v
Flush.v
CompactMem.v
DbScan.v
DbRecover.v
DbOpen.v
Background.v
