(* ===== verification/Prelude.v ===== *)
(** * LPAD: a verification library

    LPAD is a LevelDB whose compactions and operation histories are checked by an SGX
    enclave.  This library models the store ([App/integration]) and the trusted code
    ([Enclave]) as executable functions and proves what they promise.  Paths below are
    under [src/].

    ** The program

    A database is a log, a memtable and a tree of immutable table files.  A write is a
    batch ([write_batch.cpp]) appended to the log ([log_writer.cpp]) and inserted into the
    memtable ([memtable.cpp]), a skip list of internal keys: user key, sequence number,
    type ([dbformat.cpp]).  A full memtable becomes a table file ([table_builder.cpp]) of
    prefix-compressed blocks ([block_builder.cpp]) with filters ([filter_block.cpp]).  The
    files of the seven levels form a version ([version_set.cpp]); edits of it are logged in
    the manifest, another log, named by the file CURRENT ([filename.cpp]).  A read searches
    the memtable and then the version, level by level, through caches of open tables
    ([table_cache.cpp], [cache.cpp]); a scan merges iterators over all of them ([merger.cpp],
    [two_level_iterator.cpp]) and hides what the snapshot does not see ([db_iter.cpp]).
    Compactions choose files of a level, merge them with those below, drop the hidden entries
    and log the edit ([db_impl.cpp]); the build with [VERIFY], the default, merges in the
    enclave ([merge_sort_1c.cpp]), the other one on the host.  The enclave numbers the operations and checks their order ([cc.cpp]), and
    hashes ([sha1.cpp], [sha3.cpp]) entries into Merkle trees ([front_writer.cpp]).

    ** Files, and what their theorems show

    Bytes and keys.
    - [Prelude]: machine words, byte strings, tactics, hint databases, shared lemmas.
    - [Coding], [Crc32c]: [coding.cpp], [crc32c.cpp].  Encoders and decoders invert each
      other; the table-driven checksum is the bit-serial one.
    - [Comparator], [DbFormat]: [comparator.cpp], [slice.h], [dbformat.cpp].  The class
      [ComparatorOk] is what the comments of [comparator.h] ask; the bytewise and the
      internal comparator obey it.
    - [Logging], [Status], [Random], [Filename]: the files of the same names.

    In memory.
    - [SkipList], [MemTable], [WriteBatch]: [skiplist.h], [memtable.cpp],
      [write_batch.cpp].  The skip list refines a sorted list; a lookup in the memtable
      returns the newest entry the snapshot sees; a batch iterates back to its updates.
    - [Cache], [TableCache]: [cache.cpp], [table_cache.cpp].  The sharded cache keeps the
      promises of the class [CacheOk], against which the table cache is proved.

    Files.
    - [Log]: [log_writer.cpp], [log_reader.cpp].  What is added is read back; a cut file
      reads as a prefix of the records.
    - [Block], [Filter], [Format], [TableBuilder], [Table]: the files that make and read
      tables.  A built table opens and iterates over exactly its entries; lookups pass
      filters and shortened index keys.
    - [Iterator], [Merger], [TwoLevelIterator]: the iterator interface as a class
      [IteratorOk] over the list it ranges over, and the iterators built from others, proved
      from their children's interface.

    Versions.
    - [VersionEdit], [VersionBuilder], [VersionSet]: the edits, their application, and the
      manifest.  Edits round-trip, the builder keeps versions well formed, recovery rebuilds
      the logged state, also when a crash cuts the manifest.
    - [Version], [DbIter]: reads of a version return the newest visible entry; the database
      iterator ranges over exactly the user keys that reads find.
    - [Compaction], [CompactionPick], [CompactionInstall], [CompactionWork]: the drop rule,
      the choice of the inputs, the edits, and the whole run, in both builds.  The inputs
      are closed under overlap; whatever call fails, a run ends, and when it succeeds the
      outputs hold exactly the entries to keep.  Inputs that split no user key change no read
      at a snapshot in use; where a level splits one, moving a file can hide a newer entry.
      The build with [VERIFY] does the same given the same merged entries, without failures
      and with fresh globals; merging by raw bytes the enclave can give others.

    The database ([db_impl.cpp]).
    - [Snapshot], [Arena]: the list of snapshots as a doubly linked list with pointers, the
      memory of memtables ([arena.cpp]): regions handed out are aligned and never overlap.
    - [DbWrite]: the queue of writers, batch groups, making room.  The sections between
      locks are steps of a relation; under every interleaving groups are logged, inserted and
      published once, in order.  The sequence numbers returned inside a group are wrong.
    - [Flush], [CompactMem], [ObsoleteFiles]: [builder.cpp] and the compaction of a memtable
      into a version.  Whatever call fails while the table or the manifest is written, every
      entry stays readable: the memtable is kept until its table is part of the version on
      disk.  No file in use is deleted.
    - [DbRead]: reads through memtables and version with the seek statistics.  A read returns
      the newest entry its snapshot sees.
    - [DbScan]: the iterators of memtables, versions and compactions, and [NewIterator].  A scan
      ranges over what reads find; the inputs of a compaction are merged completely.
    - [DbRecover]: the logs replayed after a crash.  Of a log that ends with OK exactly whole
      batches come back, all of them when it is whole.  A log whose table cannot be written
      loses entries, and a later log hides its error; when tables can be written none does.
    - [DbOpen]: creating, recovering and opening a database.  What is opened after a crash is
      the recovered version with what each log gave back; the options decide what is refused
      and created, and refusals leave the directory alone.
    - [Background]: one turn of the background thread: a memtable, a file moved, a compaction
      installed, by hand or when due, with either build's merge.  Whatever call fails, reads at
      snapshots in use stay the same, provided the inputs chosen split no user key.

    The enclave.
    - [EnclaveCC]: [cc.cpp], [op.h].  A step relation interleaves the handlers of any number
      of threads, called by anyone or by a host that finishes only what it began; invariants
      by rule induction, the exact contents of the history, and the ways the protocol gets
      stuck.
    - [EnclaveMerge]: [merge_sort_1c.cpp] with its OCALLs in [db_impl.cpp].  The merge of
      up to 10 inputs is total and stable, by the first 24 raw key bytes.
    - [Sha1], [Sha3], [FrontWriter]: the hashes against their standards, the Merkle
      insertion as a binary counter.

    ** Conventions

    A w-bit integer is a [Z] with its wrap-around written out ([Prelude]); a string is a
    list of bytes.  State is passed explicitly, errors are values ([Status], a sum or an
    option); [None] of an operation is a failed assertion or undefined behaviour, as the
    header of each file says.  Abstract classes of the sources are classes of operations with
    a class of laws: [Iterator]/[IteratorOk], [Cache]/[CacheOk], [Comparator], filter
    policies, files and the environment.  What lies outside the sources (the operating
    system's files) is only used through such a class, and a concrete instance shows that its
    laws can hold.  Compactions, flushes and recovery write tables through a record of
    operations, [OutputOps] of [CompactionWork], that stands for a [TableBuilder] on a file and
    for opening the result: its laws [OutputOk] let every call fail, [OutputReliable] says that
    none does, and an in-memory instance obeys both.

    ** Fuel

    Loops that do not recurse on data take fuel, and the theorems show that the fuel
    suffices.  The binary searches and the scans of lists get one more than the length.
    [GetOverlappingInputs] restarts at most twice per file and takes at most one step per file
    in between, hence (2n+1)(n+1).  The doubling of the cache's hash table stops within 32
    steps of a 32-bit length.  Skip list searches have one step per node and level.  The log
    reader's fuel is the file's length plus two, as each turn consumes a byte.  The two-level
    iterator's [fuel_] exceeds the number of index entries; the database iterator's [scan_fuel]
    is an argument, assumed larger than the number of entries.  The read sampling of the latter draws at most twice the
    deficit plus one, as the generator never returns two zero periods in a row.  Making room
    for a write takes two passes, as the first either waits or switches the memtable; a
    memtable is iterated with one step per node; replaying a log has the fuel of its reader.

    ** Not modelled

    - The scores of [VersionSet::Finalize], in floating point: which compaction is due is an
      input of the theorems, which hold for every answer.
    - The mutex, condition variables and memory barriers: what runs under the mutex is one
      step, and the skip list is sequential.  A memtable flushed in the middle of a
      compaction, shutdown in the middle of one and statistics are left out.
    - [CompactRange] of the database, which waits for turns of the background thread,
      [GetProperty], [GetApproximateSizes] and [DestroyDB].
    - [env_posix.cpp]: system calls; the environment is a class of operations.
    - The block cache branch of [BlockReader], a choice of the user that only saves reads.
    - [c.cpp], [repair.cpp], [dumpfile.cpp], [db_bench.cpp], [histogram.cpp] and the glue of the
      SGX SDK: wrappers, offline tools, measurements.
    - The earlier merges of the enclave ([merge_sort2.cpp], [merge_sort_eextrac.cpp],
      [zerocpy]), which nothing calls, and the copies of the table code beside them.
    - The calls of the enclave after writes, whose handlers are in [EnclaveCC]. *)
From Stdlib Require Export ZArith Lia Bool Btauto.
From stdpp Require Export base tactics list numbers.

#[local] Open Scope Z_scope.

(** ** Notations for the C++ integer operators *)

Declare Scope word_scope.
Delimit Scope word_scope with word.
Infix ".&" := Z.land (at level 40, left associativity) : word_scope.
Infix ".|" := Z.lor (at level 45, left associativity) : word_scope.
Infix ".^" := Z.lxor (at level 43, left associativity) : word_scope.
Infix ".<<" := Z.shiftl (at level 38, left associativity) : word_scope.
Infix ".>>" := Z.shiftr (at level 38, left associativity) : word_scope.
#[local] Open Scope word_scope.

(** A [std::string] or a [Slice] is the list of its bytes, each a [Z] in
    [0, 256). *)
Abbreviation bytes := (list Z).

Definition is_u (w x : Z) : Prop := 0 <= x < 2 ^ w.
Definition is_byte (b : Z) : Prop := 0 <= b < 256.
Definition bytes_ok (s : bytes) : Prop := Forall is_byte s.

(** Unsigned wrap-around at the widths the sources use. *)
Definition u8 (x : Z) : Z := x mod 2 ^ 8.
Definition u32 (x : Z) : Z := x mod 2 ^ 32.
Definition u64 (x : Z) : Z := x mod 2 ^ 64.

(** The length of a string as the [size_t] the sources compute with. *)
Definition zlen {A} (s : list A) : Z := Z.of_nat (length s).

#[export] Instance is_byte_dec b : Decision (is_byte b).
Proof. unfold is_byte. apply _. Defined.
#[export] Instance bytes_ok_dec s : Decision (bytes_ok s).
Proof. unfold bytes_ok. apply _. Defined.

(** [lia] with the quotients and remainders by constants made explicit. *)
Ltac dlia := Z.to_euclidean_division_equations; lia.

(** A decidable closed proposition, by evaluating its decision procedure. *)
Ltac by_compute := apply (bool_decide_unpack _); vm_compute; exact I.

(** ** Wrap-around lemmas *)

Create HintDb lpad discriminated.
Create Rewrite HintDb lpad.
Create Rewrite HintDb zbits.
Create Rewrite HintDb zlen.

Lemma u8_range x : is_byte (u8 x).
Proof. unfold is_byte, u8. change 256 with (2 ^ 8). apply Z.mod_pos_bound; lia. Qed.
Lemma u32_range x : is_u 32 (u32 x).
Proof. apply Z.mod_pos_bound; lia. Qed.
Lemma u64_range x : is_u 64 (u64 x).
Proof. apply Z.mod_pos_bound; lia. Qed.

Lemma u8_small x : is_byte x → u8 x = x.
Proof. unfold is_byte, u8. intros. apply Z.mod_small. lia. Qed.
Lemma u32_small x : is_u 32 x → u32 x = x.
Proof. apply Z.mod_small. Qed.
Lemma u64_small x : is_u 64 x → u64 x = x.
Proof. apply Z.mod_small. Qed.

#[export] Hint Resolve u8_range u32_range u64_range : lpad.

Lemma bytes_ok_app s t : bytes_ok (s ++ t) ↔ bytes_ok s ∧ bytes_ok t.
Proof. apply Forall_app. Qed.
Lemma bytes_ok_cons b s : bytes_ok (b :: s) ↔ is_byte b ∧ bytes_ok s.
Proof. apply Forall_cons_iff. Qed.
Lemma bytes_ok_nil : bytes_ok [].
Proof. constructor. Qed.
Lemma bytes_ok_take n s : bytes_ok s → bytes_ok (take n s).
Proof. apply Forall_take. Qed.
Lemma bytes_ok_drop n s : bytes_ok s → bytes_ok (drop n s).
Proof. apply Forall_drop. Qed.
#[export] Hint Resolve bytes_ok_nil bytes_ok_take bytes_ok_drop : lpad.

(** ** Bit-level reasoning *)

Lemma testbit_small w x i : 0 <= w → is_u w x → w <= i → Z.testbit x i = false.
Proof.
  intros Hw Hx Hi. rewrite <- (Z.mod_small x (2 ^ w)) by exact Hx.
  apply Z.mod_pow2_bits_high. lia.
Qed.

Lemma is_u_bits w x : 0 <= w → 0 <= x →
  (∀ i, w <= i → Z.testbit x i = false) → is_u w x.
Proof.
  intros Hw Hx Hb. split; [done|].
  destruct (decide (x = 0)) as [->|Hne]; [apply Z.pow_pos_nonneg; lia|].
  apply Z.log2_lt_pow2; [lia|]. apply Z.nle_gt. intros Hle.
  specialize (Hb (Z.log2 x) Hle). rewrite Z.bit_log2 in Hb; [done|lia].
Qed.

Lemma is_u_lxor w x y : 0 <= w → is_u w x → is_u w y → is_u w (x .^ y).
Proof.
  intros Hw Hx Hy. apply is_u_bits; [done| apply Z.lxor_nonneg; unfold is_u in *; lia|].
  intros i Hi. rewrite Z.lxor_spec, !(testbit_small w) by done. done.
Qed.

Lemma is_u_lor w x y : 0 <= w → is_u w x → is_u w y → is_u w (x .| y).
Proof.
  intros Hw Hx Hy. apply is_u_bits; [done| apply Z.lor_nonneg; unfold is_u in *; lia|].
  intros i Hi. rewrite Z.lor_spec, !(testbit_small w) by done. done.
Qed.

Lemma is_u_land_l w x y : 0 <= w → is_u w x → is_u w (x .& y).
Proof.
  intros Hw Hx. apply is_u_bits; [done| apply Z.land_nonneg; unfold is_u in *; lia|].
  intros i Hi. rewrite Z.land_spec, (testbit_small w x) by done. done.
Qed.

Lemma is_u_shiftr w k x : 0 <= k → is_u w x → is_u w (x .>> k).
Proof.
  unfold is_u. intros Hk Hx. rewrite Z.shiftr_div_pow2 by done.
  pose proof (Z.pow_pos_nonneg 2 k ltac:(lia) Hk).
  split; [apply Z.div_pos; lia|].
  apply Z.le_lt_trans with x; [|lia]. apply Z.div_le_upper_bound; nia.
Qed.

Lemma is_u_mono w w' x : 0 <= w <= w' → is_u w x → is_u w' x.
Proof.
  unfold is_u. intros Hw Hx. pose proof (Z.pow_le_mono_r 2 w w'). lia.
Qed.

(** Two's complement composition: an [or] of disjoint fields is their sum. *)
Lemma lor_disjoint_add k a b :
  0 <= k → 0 <= a < 2 ^ k → a .| (b .<< k) = a + b * 2 ^ k.
Proof.
  intros Hk Ha. rewrite <- Z.shiftl_mul_pow2, <- Z.add_lor_land by done.
  enough (a .& (b .<< k) = 0) as -> by lia.
  apply Z.bits_inj'. intros i Hi. rewrite Z.land_spec, Z.bits_0.
  destruct (decide (i < k)).
  - rewrite (Z.shiftl_spec_low b k i) by lia. apply andb_false_r.
  - rewrite (testbit_small k a i) by (unfold is_u; lia). done.
Qed.

Lemma lxor_disjoint_add k a b :
  0 <= k → 0 <= a < 2 ^ k → a .^ (b .<< k) = a + b * 2 ^ k.
Proof.
  intros Hk Ha. rewrite <- lor_disjoint_add by done. apply Z.lxor_lor.
  apply Z.bits_inj'. intros i Hi. rewrite Z.land_spec, Z.bits_0.
  destruct (decide (i < k)).
  - rewrite (Z.shiftl_spec_low b k i) by lia. apply andb_false_r.
  - rewrite (testbit_small k a i) by (unfold is_u; lia). done.
Qed.

(** Masks of low bits. *)
Lemma land_127 x : x .& 127 = x mod 2 ^ 7.
Proof. change 127 with (Z.ones 7). apply Z.land_ones. lia. Qed.
Lemma land_255 x : x .& 255 = x mod 2 ^ 8.
Proof. change 255 with (Z.ones 8). apply Z.land_ones. lia. Qed.

(** [zbits] proves an equation between bit expressions pointwise: every index is
    rewritten to the bits of the variables, and the ranges of the shifts are
    split by [lia]. *)
#[export] Hint Rewrite Z.lxor_spec Z.lor_spec Z.land_spec Z.lnot_spec
  Z.bits_0 xorb_false_l xorb_false_r orb_false_l orb_false_r
  andb_false_l andb_false_r : zbits.

Ltac zbits_shift :=
  match goal with
  | |- context [Z.testbit (Z.shiftr ?a ?k) ?i] =>
      rewrite (Z.shiftr_spec a k i) by lia
  | |- context [Z.testbit (Z.shiftl ?a ?k) ?i] =>
      let H := fresh in
      destruct (decide (i < k)) as [H|H];
      [rewrite (Z.shiftl_spec_low a k i) by lia
      |rewrite (Z.shiftl_spec a k i) by lia]
  | |- context [Z.testbit (?a mod 2 ^ ?k) ?i] =>
      let H := fresh in
      destruct (decide (i < k)) as [H|H];
      [rewrite (Z.mod_pow2_bits_low a k i) by lia
      |rewrite (Z.mod_pow2_bits_high a k i) by lia]
  | Hx : is_u ?w ?x |- context [Z.testbit ?x ?i] =>
      rewrite (testbit_small w x i) by (first [lia | exact Hx])
  end.

Ltac zbits :=
  apply Z.bits_inj'; let i := fresh "i" in let Hi := fresh "Hi" in
  intros i Hi; autorewrite with zbits;
  repeat (zbits_shift; autorewrite with zbits);
  try reflexivity; try (f_equal; lia); try btauto.

(** ** Little-endian integers *)

(** The [n] bytes of [v], least significant first. *)
Fixpoint le_bytes (n : nat) (v : Z) : bytes :=
  match n with
  | O => []
  | S n' => u8 v :: le_bytes n' (v .>> 8)
  end.

(** The integer a byte string denotes, least significant byte first. *)
Fixpoint le_value (s : bytes) : Z :=
  match s with
  | [] => 0
  | b :: s' => b + 256 * le_value s'
  end.

Lemma le_bytes_length n v : length (le_bytes n v) = n.
Proof. revert v. induction n; intros; simpl; auto. Qed.

Lemma le_bytes_ok n v : bytes_ok (le_bytes n v).
Proof. revert v. induction n; intros v; constructor; [apply u8_range|apply IHn]. Qed.
#[export] Hint Resolve le_bytes_ok : lpad.

Lemma le_value_bytes n v : le_value (le_bytes n v) = v mod 2 ^ (8 * Z.of_nat n).
Proof.
  revert v. induction n as [|n IH]; intros v; simpl le_bytes; simpl le_value.
  - by rewrite Z.mod_1_r.
  - rewrite IH, Z.shiftr_div_pow2 by lia. unfold u8.
    replace (8 * Z.of_nat (S n)) with (8 + 8 * Z.of_nat n) by lia.
    rewrite Z.pow_add_r, Z.rem_mul_r by lia. done.
Qed.

Lemma le_value_range s : bytes_ok s → 0 <= le_value s < 2 ^ (8 * zlen s).
Proof.
  unfold zlen. induction 1 as [|b s Hb Hs IH]; [done|].
  unfold is_byte in Hb. simpl length. simpl le_value.
  replace (8 * Z.of_nat (S (length s))) with (8 + 8 * Z.of_nat (length s)) by lia.
  rewrite Z.pow_add_r by lia. lia.
Qed.

Lemma le_bytes_value s : bytes_ok s → le_bytes (length s) (le_value s) = s.
Proof.
  induction 1 as [|b s Hb Hs IH]; [done|]. simpl. unfold is_byte in Hb.
  assert (b + 256 * le_value s = b .| (le_value s .<< 8)) as ->.
  { rewrite lor_disjoint_add by lia. lia. }
  f_equal.
  - rewrite lor_disjoint_add by lia. unfold u8.
    rewrite Z.mod_add by lia. apply Z.mod_small. lia.
  - rewrite lor_disjoint_add, Z.shiftr_div_pow2, Z.div_add by lia.
    rewrite Z.div_small by lia. done.
Qed.

(** ** Lists *)

Lemma zlen_nonneg {A} (l : list A) : 0 <= zlen l.
Proof. unfold zlen. lia. Qed.
Lemma zlen_nil {A} : zlen (A:=A) [] = 0.
Proof. done. Qed.
Lemma zlen_cons {A} (x : A) l : zlen (x :: l) = zlen l + 1.
Proof. unfold zlen. simpl. lia. Qed.
Lemma zlen_app {A} (l k : list A) : zlen (l ++ k) = zlen l + zlen k.
Proof. unfold zlen. rewrite length_app. lia. Qed.
#[export] Hint Rewrite @zlen_nil @zlen_cons @zlen_app : zlen.

Lemma take_length_app {A} (l k : list A) : take (length l) (l ++ k) = l.
Proof. by rewrite take_app_length. Qed.
Lemma drop_length_app {A} (l k : list A) : drop (length l) (l ++ k) = k.
Proof. by rewrite drop_app_length. Qed.
#[export] Hint Rewrite @take_length_app @drop_length_app : lpad.

Lemma filter_length_0 {A} (P : A → Prop) `{!∀ x, Decision (P x)} (l : list A) :
  length (filter P l) = 0%nat ↔ ∀ x, x ∈ l → ¬ P x.
Proof.
  split.
  - intros Hn%nil_length_inv x Hx HP.
    assert (Hf : x ∈ filter P l) by (by apply list_elem_of_filter). rewrite Hn in Hf.
    by apply not_elem_of_nil in Hf.
  - intros Hn. destruct (filter P l) as [|x k] eqn:E; [done|]. exfalso.
    assert (Hx : x ∈ filter P l) by (rewrite E; left).
    apply list_elem_of_filter in Hx as [??]. by eapply Hn.
Qed.
