(* ===== verification/Coding.v ===== *)
(** * Fixed-width, varint and length-prefixed encodings

    Model of [App/integration/coding.h] and [coding.cpp]: the byte encodings every
    persistent structure of the store is made of.  A [char*] window
    [p .. limit) is the list of the bytes in it, a pointer just past a parsed
    value is the list that remains. *)
From S2P Require Import Prelude.

#[local] Open Scope Z_scope.
#[local] Open Scope word_scope.

(** ** Encoders *)

Definition EncodeFixed32 (value : Z) : bytes := le_bytes 4 value.
Definition EncodeFixed64 (value : Z) : bytes := le_bytes 8 value.
Definition PutFixed32 (dst : bytes) (value : Z) : bytes := dst ++ EncodeFixed32 value.
Definition PutFixed64 (dst : bytes) (value : Z) : bytes := dst ++ EncodeFixed64 value.

(** The unrolled encoder; a store through [unsigned char*] truncates to 8 bits. *)
Definition EncodeVarint32 (v : Z) : bytes :=
  let B := 128 in
  if v <? 1 .<< 7 then [u8 v]
  else if v <? 1 .<< 14 then [u8 (v .| B); u8 (v .>> 7)]
  else if v <? 1 .<< 21 then [u8 (v .| B); u8 ((v .>> 7) .| B); u8 (v .>> 14)]
  else if v <? 1 .<< 28 then
    [u8 (v .| B); u8 ((v .>> 7) .| B); u8 ((v .>> 14) .| B); u8 (v .>> 21)]
  else
    [u8 (v .| B); u8 ((v .>> 7) .| B); u8 ((v .>> 14) .| B); u8 ((v .>> 21) .| B);
     u8 (v .>> 28)].

Definition PutVarint32 (dst : bytes) (v : Z) : bytes := dst ++ EncodeVarint32 v.

(** The [while (v >= B)] loop.  [fuel] bounds the iterations; the callers' buffer
    has ten bytes and ten iterations are enough for a 64-bit [v], see
    [EncodeVarint64_canonical]. *)
Fixpoint EncodeVarint64_loop (fuel : nat) (v : Z) : bytes :=
  let B := 128 in
  match fuel with
  | O => []
  | S fuel' =>
      if v >=? B then u8 ((v .& (B - 1)) .| B) :: EncodeVarint64_loop fuel' (v .>> 7)
      else [u8 v]
  end.

Definition EncodeVarint64 (v : Z) : bytes := EncodeVarint64_loop 10 v.
Definition PutVarint64 (dst : bytes) (v : Z) : bytes := dst ++ EncodeVarint64 v.

(** [value.size()] is converted to [uint32_t]. *)
Definition PutLengthPrefixedSlice (dst value : bytes) : bytes :=
  PutVarint32 dst (u32 (zlen value)) ++ value.

Fixpoint VarintLength_loop (fuel : nat) (v len : Z) : Z :=
  match fuel with
  | O => len
  | S fuel' => if v >=? 128 then VarintLength_loop fuel' (v .>> 7) (len + 1) else len
  end.

Definition VarintLength (v : Z) : Z := VarintLength_loop 10 v 1.

(** ** Decoders *)

(** [memcpy] of four (eight) bytes; the caller guarantees they are there. *)
Definition DecodeFixed32 (ptr : bytes) : Z := le_value (take 4 ptr).
Definition DecodeFixed64 (ptr : bytes) : Z := le_value (take 8 ptr).

(** [for (shift = 0; shift <= maxshift && p < limit; shift += 7)] with the
    accumulator kept at its width [w]. *)
Fixpoint GetVarint_loop (w maxshift : Z) (fuel : nat) (shift result : Z) (p : bytes)
  : option (Z * bytes) :=
  match fuel with
  | O => None
  | S fuel' =>
      if shift <=? maxshift then
        match p with
        | [] => None
        | byte :: p' =>
            if negb (byte .& 128 =? 0) then
              GetVarint_loop w maxshift fuel' (shift + 7)
                (result .| (((byte .& 127) .<< shift) mod 2 ^ w)) p'
            else Some (result .| ((byte .<< shift) mod 2 ^ w), p')
        end
      else None
  end.

(** Six (eleven) rounds reach [shift > 28] ([> 63]) whatever the input. *)
Definition GetVarint32PtrFallback (p : bytes) : option (Z * bytes) :=
  GetVarint_loop 32 28 6 0 0 p.

Definition GetVarint32Ptr (p : bytes) : option (Z * bytes) :=
  match p with
  | result :: p' =>
      if result .& 128 =? 0 then Some (result, p') else GetVarint32PtrFallback p
  | [] => GetVarint32PtrFallback p
  end.

Definition GetVarint64Ptr (p : bytes) : option (Z * bytes) :=
  GetVarint_loop 64 63 11 0 0 p.

(** The [bool] returning variants update [*input]: [None] leaves it as it was. *)
Definition GetVarint32 (input : bytes) : option (Z * bytes) := GetVarint32Ptr input.
Definition GetVarint64 (input : bytes) : option (Z * bytes) := GetVarint64Ptr input.

Definition GetLengthPrefixedSlicePtr (p : bytes) : option (bytes * bytes) :=
  match GetVarint32Ptr p with
  | None => None
  | Some (len, p') =>
      if zlen p' <? len then None
      else Some (take (Z.to_nat len) p', drop (Z.to_nat len) p')
  end.

(** Returns the result, if any, and the new [*input]: a varint that parses with
    too few bytes after it still advances the input. *)
Definition GetLengthPrefixedSlice (input : bytes) : option bytes * bytes :=
  match GetVarint32 input with
  | None => (None, input)
  | Some (len, input') =>
      if zlen input' >=? len then
        (Some (take (Z.to_nat len) input'), drop (Z.to_nat len) input')
      else (None, input')
  end.

#[global] Arguments EncodeFixed32 : simpl never.
#[global] Arguments EncodeFixed64 : simpl never.
#[global] Arguments EncodeVarint32 : simpl never.
#[global] Arguments EncodeVarint64 : simpl never.
#[global] Arguments DecodeFixed32 : simpl never.
#[global] Arguments DecodeFixed64 : simpl never.

(** ** Lemmas *)

Lemma EncodeFixed32_length v : length (EncodeFixed32 v) = 4%nat.
Proof. apply le_bytes_length. Qed.
Lemma EncodeFixed64_length v : length (EncodeFixed64 v) = 8%nat.
Proof. apply le_bytes_length. Qed.

Lemma DecodeEncodeFixed32 v rest : DecodeFixed32 (EncodeFixed32 v ++ rest) = u32 v.
Proof.
  unfold DecodeFixed32. rewrite (take_app_length' _ _ 4) by (by rewrite EncodeFixed32_length).
  apply le_value_bytes.
Qed.
Lemma DecodeEncodeFixed64 v rest : DecodeFixed64 (EncodeFixed64 v ++ rest) = u64 v.
Proof.
  unfold DecodeFixed64. rewrite (take_app_length' _ _ 8) by (by rewrite EncodeFixed64_length).
  apply le_value_bytes.
Qed.

Lemma DecodeFixed32_range s : bytes_ok s → is_u 32 (DecodeFixed32 s).
Proof.
  intros H. pose proof (le_value_range (take 4 s) (bytes_ok_take 4 s H)) as R.
  unfold DecodeFixed32, is_u. unfold zlen in R. rewrite length_take in R.
  pose proof (Z.pow_le_mono_r 2 (8 * Z.of_nat (4 `min` length s)) 32). lia.
Qed.
Lemma DecodeFixed64_range s : bytes_ok s → is_u 64 (DecodeFixed64 s).
Proof.
  intros H. pose proof (le_value_range (take 8 s) (bytes_ok_take 8 s H)) as R.
  unfold DecodeFixed64, is_u. unfold zlen in R. rewrite length_take in R.
  pose proof (Z.pow_le_mono_r 2 (8 * Z.of_nat (8 `min` length s)) 64). lia.
Qed.

Lemma EncodeFixed32_ok v : bytes_ok (EncodeFixed32 v).
Proof. apply le_bytes_ok. Qed.
Lemma EncodeFixed64_ok v : bytes_ok (EncodeFixed64 v).
Proof. apply le_bytes_ok. Qed.

(** *** Varints *)

(** A continuation byte carries seven payload bits and the high bit. *)
Lemma cont_byte v : 0 <= v → u8 ((v .& 127) .| 128) = v mod 128 + 128.
Proof.
  intros Hv. rewrite land_127. change 128 with (1 .<< 7) at 1.
  rewrite lor_disjoint_add by (try apply Z.mod_pos_bound; lia).
  rewrite u8_small; [done|]. unfold is_byte.
  pose proof (Z.mod_pos_bound v 128). change (2 ^ 7) with 128. lia.
Qed.

Lemma cont_byte' v : 0 <= v → u8 (v .| 128) = v mod 128 + 128.
Proof.
  intros Hv. rewrite <- cont_byte by done. unfold u8. rewrite land_127. change 128 with (1 .<< 7). zbits.
  all: rewrite ?Z.shiftl_spec_low by lia; try done.
  assert (i = 7) as -> by lia. change (Z.testbit 1 (7 - 7)) with true. btauto.
Qed.

Lemma land_128_high b : 0 <= b < 128 → b .& 128 = 0.
Proof.
  intros Hb. change 128 with (1 .<< 7). apply Z.bits_inj'. intros i Hi.
  rewrite Z.land_spec, Z.bits_0. destruct (decide (i < 7)).
  - rewrite Z.shiftl_spec_low by lia. apply andb_false_r.
  - rewrite (testbit_small 7 b) by (unfold is_u; lia). done.
Qed.

Lemma land_128_cont m : 0 <= m < 128 → (m + 128) .& 128 = 128 ∧ (m + 128) .& 127 = m.
Proof.
  intros Hm. split.
  - assert (m + 128 = m .| (1 .<< 7)) as -> by (rewrite lor_disjoint_add by lia; lia).
    rewrite Z.land_comm, Z.land_lor_distr_r, (Z.land_comm 128 m), land_128_high by done. done.
  - rewrite land_127. replace (m + 128) with (m + 1 * 2 ^ 7) by lia.
    rewrite Z.mod_add by lia. apply Z.mod_small. lia.
Qed.

Lemma EncodeVarint64_loop_cons fuel v : 0 <= v →
  EncodeVarint64_loop (S fuel) v =
    if decide (128 <= v) then (v mod 128 + 128) :: EncodeVarint64_loop fuel (v / 128)
    else [v].
Proof.
  intros Hv. cbn [EncodeVarint64_loop]. rewrite Z.geb_leb.
  case_decide as Hd.
  - rewrite (proj2 (Z.leb_le 128 v)) by lia. change (128 - 1) with 127.
    rewrite cont_byte, Z.shiftr_div_pow2 by lia. done.
  - rewrite (proj2 (Z.leb_gt 128 v)) by lia. rewrite u8_small; [done|]. unfold is_byte. lia.
Qed.

Lemma div_128_lt v f : v < 2 ^ (7 * Z.of_nat (S f)) → v / 128 < 2 ^ (7 * Z.of_nat f).
Proof.
  intros H. apply Z.div_lt_upper_bound; [lia|].
  replace (7 * Z.of_nat (S f)) with (7 + 7 * Z.of_nat f) in H by lia.
  by rewrite Z.pow_add_r in H by lia.
Qed.

(** More fuel than the value has septets changes nothing. *)
Lemma EncodeVarint64_loop_fuel f g v : 0 <= v → v < 2 ^ (7 * Z.of_nat f) →
  (0 < f <= g)%nat → EncodeVarint64_loop g v = EncodeVarint64_loop f v.
Proof.
  revert g v. induction f as [|f IH]; intros g v Hv Hf Hg; [lia|].
  destruct g as [|g]; [lia|]. rewrite !EncodeVarint64_loop_cons by done.
  case_decide; [|done]. f_equal. pose proof (div_128_lt v f Hf).
  assert (0 < v / 128) by (apply Z.div_str_pos; lia).
  apply IH; [lia|done|]. destruct f; simpl in *; lia.
Qed.

(** The decoder undoes the encoder from any position of the accumulator. *)
Lemma GetVarint_loop_encode w ms k f g v acc rest :
  (∀ j, 0 <= j → 7 * j < w → 7 * j <= ms) →
  0 <= k → 7 * k < w → 0 <= acc < 2 ^ (7 * k) →
  0 <= v → v * 2 ^ (7 * k) < 2 ^ w → v < 2 ^ (7 * Z.of_nat f) → (f <= g)%nat → (0 < f)%nat →
  GetVarint_loop w ms g (7 * k) acc (EncodeVarint64_loop f v ++ rest)
  = Some (acc + v * 2 ^ (7 * k), rest).
Proof.
  intros Hms. revert k g v acc.
  induction f as [|f IH]; intros k g v acc Hk Hkw Hacc Hv Hvw Hvf Hfg Hf; [lia|].
  destruct g as [|g]; [lia|].
  rewrite EncodeVarint64_loop_cons by done.
  pose proof (Z.pow_pos_nonneg 2 (7 * k) ltac:(lia) ltac:(lia)) as Hp.
  case_decide as Hd; cbn [app GetVarint_loop];
    rewrite (proj2 (Z.leb_le (7 * k) ms)) by auto.
  - pose proof (Z.mod_pos_bound v 128 ltac:(lia)) as Hm.
    destruct (land_128_cont _ Hm) as [-> ->]. change (negb (128 =? 0)) with true. cbv iota.
    assert (Hkw' : 7 * (k + 1) < w).
    { apply Z.nle_gt. intros Hle.
      assert (2 ^ w <= 2 ^ (7 * k + 7)) by (apply Z.pow_le_mono_r; lia).
      rewrite Z.pow_add_r in H by lia. change (2 ^ 7) with 128 in H. nia. }
    pose proof (Z.div_mod v 128 ltac:(lia)) as Hdm.
    assert (Hpow : 2 ^ (7 * (k + 1)) = 128 * 2 ^ (7 * k)).
    { replace (7 * (k + 1)) with (7 + 7 * k) by lia. rewrite Z.pow_add_r by lia. done. }
    pose proof (div_128_lt v f Hvf).
    assert (0 < v / 128) by (apply Z.div_str_pos; lia).
    assert (0 < f)%nat by (destruct f; simpl in *; lia).
    rewrite (Z.mod_small (_ .<< _)) by (rewrite Z.shiftl_mul_pow2 by lia; nia).
    rewrite lor_disjoint_add by lia.
    replace (7 * k + 7) with (7 * (k + 1)) by lia.
    rewrite IH; [f_equal; f_equal; nia|lia|lia| |lia| |lia|lia|lia]; rewrite Hpow; nia.
  - rewrite land_128_high by lia. change (negb (0 =? 0)) with false. cbv iota.
    rewrite (Z.mod_small (_ .<< _)) by (rewrite Z.shiftl_mul_pow2 by lia; nia).
    rewrite lor_disjoint_add by lia. done.
Qed.

Lemma GetVarint64_Encode v rest : is_u 64 v →
  GetVarint64 (EncodeVarint64 v ++ rest) = Some (v, rest).
Proof.
  unfold is_u. intros Hv. unfold GetVarint64, GetVarint64Ptr, EncodeVarint64.
  pose proof (GetVarint_loop_encode 64 63 0 10 11 v 0 rest) as H.
  change (7 * 0) with 0 in H. rewrite H; [f_equal; f_equal; lia|..]; lia.
Qed.

(** One iteration of the encoder, its exit test decided by the range of [v]. *)
Ltac enc64_byte :=
  rewrite EncodeVarint64_loop_cons by dlia;
  first [rewrite decide_True by dlia | rewrite decide_False by dlia].

(** The unrolled 32-bit encoder computes what the 64-bit loop computes. *)
Lemma EncodeVarint32_64 v : is_u 32 v → EncodeVarint32 v = EncodeVarint64 v.
Proof.
  unfold is_u. intros Hv. unfold EncodeVarint64, EncodeVarint32.
  rewrite !Z.shiftr_div_pow2, !Z.shiftl_1_l by lia.
  rewrite !cont_byte' by dlia.
  change (2 ^ 7) with 128. change (2 ^ 14) with 16384. change (2 ^ 21) with 2097152.
  change (2 ^ 28) with 268435456.
  repeat match goal with |- context [v <? ?b] => destruct (Z.ltb_spec v b) end.
  all: repeat enc64_byte; rewrite u8_small by (unfold is_byte; dlia).
  all: rewrite ?Z.div_div by lia; reflexivity.
Qed.

Lemma EncodeVarint64_loop_ok f v : 0 <= v → bytes_ok (EncodeVarint64_loop f v).
Proof.
  revert v. induction f as [|f IH]; intros v Hv; [constructor|].
  rewrite EncodeVarint64_loop_cons by done. case_decide.
  - constructor; [unfold is_byte; dlia|]. apply IH. dlia.
  - repeat constructor; unfold is_byte; lia.
Qed.

Lemma EncodeVarint64_ok v : is_u 64 v → bytes_ok (EncodeVarint64 v).
Proof. intros [??]. by apply EncodeVarint64_loop_ok. Qed.
Lemma EncodeVarint32_ok v : is_u 32 v → bytes_ok (EncodeVarint32 v).
Proof. intros H. rewrite EncodeVarint32_64 by done. apply EncodeVarint64_loop_ok, H. Qed.

Lemma EncodeVarint64_nonempty v : EncodeVarint64 v ≠ [].
Proof. unfold EncodeVarint64. cbn [EncodeVarint64_loop]. by destruct (v >=? 128). Qed.

(** The inlined one-byte fast path agrees with the general loop. *)
Lemma GetVarint32Ptr_fallback p : bytes_ok p → GetVarint32Ptr p = GetVarint32PtrFallback p.
Proof.
  intros Hp. destruct p as [|b p]; [done|]. apply bytes_ok_cons in Hp as [Hb _].
  unfold GetVarint32Ptr. destruct (b .& 128 =? 0) eqn:E; [|done].
  unfold GetVarint32PtrFallback. cbn [GetVarint_loop]. rewrite E. simpl negb.
  cbv iota. change (0 <=? 28) with true. cbv iota.
  rewrite Z.shiftl_0_r, Z.lor_0_l, Z.mod_small; [done|]. unfold is_byte in Hb. lia.
Qed.

Lemma GetVarint32Fallback_Encode v rest : is_u 32 v →
  GetVarint32PtrFallback (EncodeVarint32 v ++ rest) = Some (v, rest).
Proof.
  intros Hv. rewrite EncodeVarint32_64 by done. unfold is_u in Hv.
  unfold GetVarint32PtrFallback, EncodeVarint64.
  rewrite (EncodeVarint64_loop_fuel 5 10) by lia. pose proof (GetVarint_loop_encode 32 28 0 5 6 v 0 rest) as H.
  change (7 * 0) with 0 in H. rewrite H; [f_equal; f_equal; lia|..]; lia.
Qed.

(** Decoding does not look past the last byte of the encoding, so the range of
    the bytes that follow is irrelevant. *)
Lemma GetVarint32_Encode v rest : is_u 32 v →
  GetVarint32 (EncodeVarint32 v ++ rest) = Some (v, rest).
Proof.
  intros Hv. pose proof (GetVarint32Fallback_Encode v rest Hv) as H.
  pose proof (EncodeVarint32_ok v Hv) as Hok.
  unfold GetVarint32, GetVarint32Ptr.
  destruct (EncodeVarint32 v ++ rest) as [|b p] eqn:E; [done|].
  destruct (b .& 128 =? 0) eqn:Eb; [|done].
  destruct (EncodeVarint32 v) as [|b' p'] eqn:E'.
  { exfalso. rewrite EncodeVarint32_64 in E' by done. by apply EncodeVarint64_nonempty in E'. }
  simplify_eq/=. apply bytes_ok_cons in Hok as [Hb _]. unfold is_byte in Hb.
  unfold GetVarint32PtrFallback in H. cbn [GetVarint_loop] in H. rewrite Eb in H.
  change (0 <=? 28) with true in H. simpl negb in H. cbv iota in H.
  rewrite Z.shiftl_0_r, Z.lor_0_l, Z.mod_small in H by lia. done.
Qed.

Lemma VarintLength_loop_spec f v len : 0 <= v → v < 2 ^ (7 * Z.of_nat f) → (0 < f)%nat →
  VarintLength_loop f v len = len - 1 + zlen (EncodeVarint64_loop f v).
Proof.
  revert v len. induction f as [|f IH]; intros v len Hv Hf Hpos; [lia|].
  cbn [VarintLength_loop]. rewrite EncodeVarint64_loop_cons, Z.geb_leb by done.
  case_decide.
  - rewrite (proj2 (Z.leb_le _ _)) by lia.
    pose proof (div_128_lt v f Hf).
    assert (0 < v / 128) by (apply Z.div_str_pos; lia).
    rewrite Z.shiftr_div_pow2 by lia. change (2 ^ 7) with 128.
    rewrite IH, zlen_cons by (try (destruct f; simpl in *); lia). lia.
  - rewrite (proj2 (Z.leb_gt _ _)) by lia. unfold zlen. simpl. lia.
Qed.

Lemma VarintLength_Encode v : is_u 64 v → VarintLength v = zlen (EncodeVarint64 v).
Proof.
  intros [??]. unfold VarintLength, EncodeVarint64.
  rewrite VarintLength_loop_spec by lia. lia.
Qed.

Lemma EncodeVarint64_loop_length f v : (length (EncodeVarint64_loop f v) <= f)%nat.
Proof.
  revert v. induction f as [|f IH]; intros v; [done|]. cbn [EncodeVarint64_loop].
  destruct (v >=? 128); simpl; [|lia]. specialize (IH (v .>> 7)). lia.
Qed.

(** *** Every successful parse consumes a bounded, non-empty prefix *)

Lemma GetVarint_loop_sound w ms f shift acc p v rest :
  0 <= w → 0 <= shift → is_u w acc →
  GetVarint_loop w ms f shift acc p = Some (v, rest) →
  is_u w v ∧ ∃ pre, p = pre ++ rest ∧ 1 <= zlen pre ∧ shift + 7 * (zlen pre - 1) <= ms.
Proof.
  intros Hw. revert shift acc p. induction f as [|f IH]; intros shift acc p Hs Hacc; [done|].
  cbn [GetVarint_loop]. destruct (Z.leb_spec shift ms); [|done]. destruct p as [|b p]; [done|].
  assert (Hor : ∀ x, is_u w (acc .| (x mod 2 ^ w))).
  { intros x. apply is_u_lor; [done..|]. apply Z.mod_pos_bound. apply Z.pow_pos_nonneg; lia. }
  destruct (negb _); intros Hr.
  - apply IH in Hr as (Hv & pre & -> & Hl & Hm); [|lia|apply Hor].
    split; [done|]. exists (b :: pre). rewrite zlen_cons. split; [done|lia].
  - simplify_eq. split; [apply Hor|]. exists [b]. rewrite zlen_cons, zlen_nil.
    split; [done|lia].
Qed.

Lemma GetVarint32_sound p v rest : bytes_ok p →
  GetVarint32 p = Some (v, rest) →
  is_u 32 v ∧ ∃ pre, p = pre ++ rest ∧ (1 <= length pre <= 5)%nat.
Proof.
  intros Hp H. unfold GetVarint32 in H. rewrite GetVarint32Ptr_fallback in H by done.
  apply GetVarint_loop_sound in H as (Hv & pre & -> & Hl); [|unfold is_u; lia..].
  split; [done|]. exists pre. unfold zlen in Hl. split; [done|lia].
Qed.

Lemma GetVarint64_sound p v rest :
  GetVarint64 p = Some (v, rest) →
  is_u 64 v ∧ ∃ pre, p = pre ++ rest ∧ (1 <= length pre <= 10)%nat.
Proof.
  intros H. apply GetVarint_loop_sound in H as (Hv & pre & -> & Hl); [|unfold is_u; lia..].
  split; [done|]. exists pre. unfold zlen in Hl. split; [done|lia].
Qed.

Lemma GetLengthPrefixedSlice_sound p s rest : bytes_ok p →
  GetLengthPrefixedSlice p = (Some s, rest) →
  ∃ pre, p = pre ++ s ++ rest ∧ (1 <= length pre <= 5)%nat.
Proof.
  intros Hp. unfold GetLengthPrefixedSlice.
  destruct (GetVarint32 p) as [[len p']|] eqn:E; [|done].
  apply GetVarint32_sound in E as (_ & pre & -> & Hl); [|done].
  destruct (_ >=? _); intros H; simplify_eq. exists pre. by rewrite take_drop.
Qed.

(** *** Arrays of fixed 32-bit integers *)

Lemma fixed32_array_length (l : list Z) : length (mjoin (EncodeFixed32 <$> l)) = (4 * length l)%nat.
Proof.
  induction l as [|v l IH]; [done|]. rewrite fmap_cons.
  change (length (EncodeFixed32 v ++ mjoin (EncodeFixed32 <$> l)) = (4 * S (length l))%nat).
  rewrite length_app, EncodeFixed32_length, IH. lia.
Qed.

Lemma fixed32_array_lookup pre (l : list Z) post j v : l !! j = Some v → is_u 32 v →
  DecodeFixed32 (drop (Z.to_nat (zlen pre + Z.of_nat j * 4)) (pre ++ mjoin (EncodeFixed32 <$> l) ++ post)) = v.
Proof.
  intros Hj Hv. assert (E : mjoin (EncodeFixed32 <$> l) =
    mjoin (EncodeFixed32 <$> take j l) ++ EncodeFixed32 v ++ mjoin (EncodeFixed32 <$> drop (S j) l))
    by (rewrite <- (take_drop_middle l j v Hj) at 1; by rewrite fmap_app, join_app).
  rewrite E, <- !app_assoc, app_assoc. replace (Z.to_nat (zlen pre + Z.of_nat j * 4)) with
    (length (pre ++ mjoin (EncodeFixed32 <$> take j l))).
  - rewrite drop_app_length, DecodeEncodeFixed32. by apply u32_small.
  - rewrite length_app, fixed32_array_length, length_take. apply lookup_lt_Some in Hj. unfold zlen. lia.
Qed.

Lemma PutFixed32_array l : ∀ s, foldl PutFixed32 s l = s ++ mjoin (EncodeFixed32 <$> l).
Proof.
  induction l as [|v l IH]; intros s; [by rewrite app_nil_r|]. cbn [foldl]. rewrite IH. unfold PutFixed32.
  by rewrite <- app_assoc.
Qed.

(** *** Length-prefixed strings *)

Lemma GetLengthPrefixedSlice_Put value rest : zlen value < 2 ^ 32 →
  GetLengthPrefixedSlice (PutLengthPrefixedSlice [] value ++ rest) = (Some value, rest).
Proof.
  intros Hl. pose proof (zlen_nonneg value).
  assert (Hu : is_u 32 (zlen value)) by (unfold is_u; lia).
  unfold GetLengthPrefixedSlice, PutLengthPrefixedSlice, PutVarint32. simpl app.
  rewrite u32_small, <- app_assoc, GetVarint32_Encode by done.
  rewrite zlen_app, Z.geb_leb, (proj2 (Z.leb_le _ _)) by (pose proof (zlen_nonneg rest); lia).
  unfold zlen. rewrite Nat2Z.id, take_app_length, drop_app_length. done.
Qed.

Lemma PutLengthPrefixedSlice_app dst value :
  PutLengthPrefixedSlice dst value = dst ++ PutLengthPrefixedSlice [] value.
Proof. unfold PutLengthPrefixedSlice, PutVarint32. simpl. by rewrite app_assoc. Qed.

Lemma PutLengthPrefixedSlice_ok dst value :
  bytes_ok dst → bytes_ok value → bytes_ok (PutLengthPrefixedSlice dst value).
Proof.
  intros. unfold PutLengthPrefixedSlice, PutVarint32. rewrite !bytes_ok_app.
  pose proof (EncodeVarint32_ok _ (u32_range (zlen value))). done.
Qed.

#[export] Hint Resolve EncodeFixed32_ok EncodeFixed64_ok EncodeVarint32_ok
  EncodeVarint64_ok PutLengthPrefixedSlice_ok : lpad.

(** ** Properties *)

(** Varint round trip: for every 32-bit (64-bit) value and whatever bytes
    follow, decoding the encoding gives the value back and stops exactly at the
    first byte after it; the encoding has [VarintLength] bytes, at most five
    (ten), so the callers' stack buffers are never overrun. *)
Theorem varint_roundtrip (v32 v64 : Z) (rest : bytes) :
  is_u 32 v32 → is_u 64 v64 →
  GetVarint32 (PutVarint32 [] v32 ++ rest) = Some (v32, rest) ∧
  GetVarint64 (PutVarint64 [] v64 ++ rest) = Some (v64, rest) ∧
  VarintLength v32 = zlen (EncodeVarint32 v32) ∧
  VarintLength v64 = zlen (EncodeVarint64 v64) ∧
  (length (EncodeVarint32 v32) <= 5)%nat ∧ (length (EncodeVarint64 v64) <= 10)%nat.
Proof.
  intros H32 H64. pose proof (is_u_mono 32 64 v32 ltac:(lia) H32).
  split_and!.
  - by apply GetVarint32_Encode.
  - by apply GetVarint64_Encode.
  - by rewrite EncodeVarint32_64, VarintLength_Encode.
  - by apply VarintLength_Encode.
  - rewrite EncodeVarint32_64 by done. unfold EncodeVarint64, is_u in *.
    rewrite (EncodeVarint64_loop_fuel 5) by lia. apply EncodeVarint64_loop_length.
  - apply EncodeVarint64_loop_length.
Qed.

Lemma varint_roundtrip_witness :
  GetVarint32 (PutVarint32 [] 300 ++ [7]) = Some (300, [7]) ∧
  GetVarint64 (PutVarint64 [] (2 ^ 64 - 1) ++ [7]) = Some (2 ^ 64 - 1, [7]).
Proof.
  destruct (varint_roundtrip 300 (2 ^ 64 - 1) [7]) as (H1 & H2 & _);
    [unfold is_u; lia|unfold is_u; lia|]. by split.
Defined.

(** Decoder equivalences: the unrolled 32-bit encoder writes the same bytes
    as the 64-bit loop, and the inlined one-byte path of [GetVarint32Ptr] returns
    what the out-of-line loop returns on every input. *)
Theorem varint32_fast_paths (v : Z) (p : bytes) :
  is_u 32 v → bytes_ok p →
  EncodeVarint32 v = EncodeVarint64 v ∧ GetVarint32Ptr p = GetVarint32PtrFallback p.
Proof. intros Hv Hp. split; [by apply EncodeVarint32_64 | by apply GetVarint32Ptr_fallback]. Qed.

Lemma varint32_fast_paths_witness :
  EncodeVarint32 100000 = EncodeVarint64 100000 ∧
  GetVarint32Ptr [5; 6] = GetVarint32PtrFallback [5; 6].
Proof. apply varint32_fast_paths; [unfold is_u; lia | by_compute]. Defined.

(** Malformed input is safe: whatever the input bytes, a varint or a
    length-prefixed string is parsed from a non-empty prefix of the input, of at
    most five (ten) bytes before the string itself, the value fits its type, and
    the string returned lies inside the input. *)
Theorem decode_in_bounds (p : bytes) : bytes_ok p →
  (∀ v rest, GetVarint32 p = Some (v, rest) →
     is_u 32 v ∧ ∃ pre, p = pre ++ rest ∧ (1 <= length pre <= 5)%nat) ∧
  (∀ v rest, GetVarint64 p = Some (v, rest) →
     is_u 64 v ∧ ∃ pre, p = pre ++ rest ∧ (1 <= length pre <= 10)%nat) ∧
  (∀ s rest, GetLengthPrefixedSlice p = (Some s, rest) →
     ∃ pre, p = pre ++ s ++ rest ∧ (1 <= length pre <= 5)%nat).
Proof.
  intros Hp. split_and!; intros *.
  - by apply GetVarint32_sound.
  - by apply GetVarint64_sound.
  - by apply GetLengthPrefixedSlice_sound.
Qed.

Lemma decode_in_bounds_witness :
  bytes_ok [255; 255] ∧ GetVarint32 [255; 255] = None ∧
  (∃ pre, [2; 97; 98; 99] = pre ++ [97; 98] ++ [99] ∧ (1 <= length pre <= 5)%nat).
Proof.
  split; [by_compute|]. split; [reflexivity|].
  apply (decode_in_bounds [2; 97; 98; 99]); [|reflexivity].
  by_compute.
Defined.
