(* ===== verification/Comparator.v ===== *)
(** * Slices and comparators

    Model of [App/integration/slice.h] (three-way comparison, prefix test,
    equality), of the abstract class [Comparator] of [comparator.h] as a record of
    operations with a class of laws, and of the bytewise comparator of
    [comparator.cpp], which is shown to obey the laws. *)
From S2P Require Import Prelude.

#[local] Open Scope Z_scope.

(** ** memcmp and Slice *)

(** [memcmp(a, b, n)]: only the sign of the result is specified by C, the model
    returns -1, 0 or 1. Bytes compare as [unsigned char]. *)
Fixpoint memcmp (a b : bytes) (n : nat) {struct n} : Z :=
  match n, a, b with
  | S n', x :: a', y :: b' =>
      if x <? y then -1 else if y <? x then 1 else memcmp a' b' n'
  | _, _, _ => 0
  end.

Definition Slice_compare (a b : bytes) : Z :=
  let min_len := if zlen a <? zlen b then length a else length b in
  let r := memcmp a b min_len in
  if r =? 0 then
    if zlen a <? zlen b then -1 else if zlen a >? zlen b then 1 else r
  else r.

Definition Slice_starts_with (s x : bytes) : bool :=
  (zlen s >=? zlen x) && (memcmp s x (length x) =? 0).

Definition Slice_eqb (x y : bytes) : bool :=
  (zlen x =? zlen y) && (memcmp x y (length x) =? 0).

(** ** The Comparator interface *)

Record Comparator := {
  Compare : bytes → bytes → Z;
  FindShortestSeparator : bytes → bytes → bytes;
  FindShortSuccessor : bytes → bytes;
}.

(** What [comparator.h] asks of an implementation, on the keys satisfying
    [valid]: [Compare] is a three-way total order, the separator lies in
    [start, limit), the successor is at or after its key.  A separator of two
    equal keys leaves the first unchanged. *)
Class ComparatorOk (valid : bytes → Prop) (c : Comparator) : Prop := {
  valid_bytes a : valid a → bytes_ok a;
  Compare_refl a : valid a → Compare c a a = 0;
  Compare_eq a b : valid a → valid b → Compare c a b = 0 → a = b;
  Compare_swap a b : valid a → valid b → Compare c a b < 0 ↔ 0 < Compare c b a;
  Compare_trans x y z : valid x → valid y → valid z →
    Compare c x y < 0 → Compare c y z < 0 → Compare c x z < 0;
  Separator_valid s l : valid s → valid l → valid (FindShortestSeparator c s l);
  Separator_lower s l : valid s → valid l → Compare c s l < 0 →
    Compare c s (FindShortestSeparator c s l) <= 0;
  Separator_upper s l : valid s → valid l → Compare c s l < 0 →
    Compare c (FindShortestSeparator c s l) l < 0;
  Separator_equal s l : valid s → valid l → Compare c s l = 0 →
    FindShortestSeparator c s l = s;
  Successor_valid k : valid k → valid (FindShortSuccessor c k);
  Successor_lower k : valid k → Compare c k (FindShortSuccessor c k) <= 0;
}.

Section ComparatorFacts.
Context {valid : bytes → Prop} {c : Comparator} `{!ComparatorOk valid c}.

Lemma Compare_le_trans x y z : valid x → valid y → valid z →
  Compare c x y <= 0 → Compare c y z <= 0 → Compare c x z <= 0.
Proof.
  intros Hx Hy Hz H1 H2. destruct (decide (Compare c x y = 0)) as [->%Compare_eq|]; [done..|].
  destruct (decide (Compare c y z = 0)) as [<-%Compare_eq|]; [done..|].
  pose proof (Compare_trans x y z Hx Hy Hz). lia.
Qed.

Lemma Compare_lt_le x y z : valid x → valid y → valid z →
  Compare c x y < 0 → Compare c y z <= 0 → Compare c x z < 0.
Proof.
  intros Hx Hy Hz H1 H2.
  destruct (decide (Compare c y z = 0)) as [<-%Compare_eq|]; [done..|].
  apply Compare_trans with y; [done..|lia].
Qed.

Lemma Compare_le_lt x y z : valid x → valid y → valid z →
  Compare c x y <= 0 → Compare c y z < 0 → Compare c x z < 0.
Proof.
  intros Hx Hy Hz H1 H2. destruct (decide (Compare c x y = 0)) as [->%Compare_eq|]; [done..|].
  apply Compare_trans with y; [done..|lia|done].
Qed.

Lemma Compare_nlt x y : valid x → valid y → ¬ Compare c x y < 0 ↔ Compare c y x <= 0.
Proof. intros Hx Hy. rewrite Compare_swap by done. lia. Qed.
End ComparatorFacts.

(** ** The bytewise comparator *)

(** [while (diff_index < min_length && start[diff_index] == limit[diff_index])] *)
Fixpoint common_prefix (a b : bytes) : nat :=
  match a, b with
  | x :: a', y :: b' => if x =? y then S (common_prefix a' b') else O
  | _, _ => O
  end.

Definition Bytewise_FindShortestSeparator (start limit : bytes) : bytes :=
  let min_length := Nat.min (length start) (length limit) in
  let diff_index := common_prefix start limit in
  if (min_length <=? diff_index)%nat then start
  else
    let diff_byte := nth diff_index start 0 in
    if (diff_byte <? 255) && (diff_byte + 1 <? nth diff_index limit 0) then
      take (diff_index + 1) (<[diff_index := diff_byte + 1]> start)
    else start.

(** The [for] loop over the key, [pre] being the bytes already passed. *)
Fixpoint Successor_loop (pre key : bytes) : option bytes :=
  match key with
  | [] => None
  | byte :: key' =>
      if negb (byte =? 255) then Some (pre ++ [byte + 1])
      else Successor_loop (pre ++ [byte]) key'
  end.

Definition Bytewise_FindShortSuccessor (key : bytes) : bytes :=
  match Successor_loop [] key with Some k => k | None => key end.

Definition BytewiseComparator : Comparator := {|
  Compare := Slice_compare;
  FindShortestSeparator := Bytewise_FindShortestSeparator;
  FindShortSuccessor := Bytewise_FindShortSuccessor;
|}.

(** ** Lexicographic order *)

(** The reference order on byte strings. *)
Fixpoint lex (a b : bytes) : Z :=
  match a, b with
  | [], [] => 0
  | [], _ :: _ => -1
  | _ :: _, [] => 1
  | x :: a', y :: b' => if x <? y then -1 else if y <? x then 1 else lex a' b'
  end.

Lemma Slice_compare_lex a b : Slice_compare a b = lex a b.
Proof.
  revert b. induction a as [|x a IH]; intros [|y b]; try done.
  specialize (IH b). unfold Slice_compare in *. rewrite !zlen_cons, !Z.gtb_ltb in *.
  simpl lex. rewrite <- IH. clear IH.
  replace (zlen a + 1 <? zlen b + 1) with (zlen a <? zlen b)
    by (apply eq_true_iff_eq; rewrite !Z.ltb_lt; lia).
  replace (zlen b + 1 <? zlen a + 1) with (zlen b <? zlen a)
    by (apply eq_true_iff_eq; rewrite !Z.ltb_lt; lia).
  destruct (zlen a <? zlen b); cbn [memcmp length];
    (destruct (x <? y); [done|]); by destruct (y <? x).
Qed.

Ltac lex_cases :=
  repeat match goal with
    | H : context [?x <? ?y] |- _ => destruct (Z.ltb_spec x y)
    | |- context [?x <? ?y] => destruct (Z.ltb_spec x y)
    end; try lia.

Lemma lex_refl a : lex a a = 0.
Proof. induction a as [|x a IH]; simpl; [done|]. by rewrite Z.ltb_irrefl. Qed.

Lemma lex_eq a b : lex a b = 0 → a = b.
Proof.
  revert b. induction a as [|x a IH]; intros [|y b]; simpl; try done.
  lex_cases. intros H1%IH. f_equal; [lia|done].
Qed.

Lemma lex_opp a b : lex b a = - lex a b.
Proof.
  revert b. induction a as [|x a IH]; intros [|y b]; simpl; try done.
  lex_cases. apply IH.
Qed.

Lemma lex_trans a b c : lex a b < 0 → lex b c < 0 → lex a c < 0.
Proof.
  revert b c. induction a as [|x a IH]; intros [|y b] [|z c]; simpl; try done.
  lex_cases. apply IH.
Qed.

Lemma lex_app_l p a b : lex (p ++ a) (p ++ b) = lex a b.
Proof. induction p as [|x p IH]; simpl; [done|]. by rewrite Z.ltb_irrefl. Qed.

Lemma lex_prefix p a : lex p (p ++ a) <= 0.
Proof. rewrite <- (app_nil_r p) at 1. rewrite lex_app_l. by destruct a. Qed.

Lemma Slice_eqb_eq x y : Slice_eqb x y = true ↔ x = y.
Proof.
  unfold Slice_eqb. split.
  - intros [Hl Hm]%andb_prop. apply Z.eqb_eq in Hl. apply lex_eq.
    rewrite <- Slice_compare_lex. unfold Slice_compare. rewrite Hl, Z.ltb_irrefl.
    unfold zlen in Hl. replace (length y) with (length x) by lia. rewrite Hm.
    rewrite Z.gtb_ltb, Z.ltb_irrefl. by apply Z.eqb_eq.
  - intros ->. rewrite Z.eqb_refl. simpl. apply Z.eqb_eq.
    induction y as [|b y IH]; simpl; [done|]. by rewrite Z.ltb_irrefl.
Qed.

Lemma memcmp_prefix s x : (length x <= length s)%nat →
  memcmp s x (length x) = 0 ↔ ∃ t, s = x ++ t.
Proof.
  revert s. induction x as [|b x IH]; intros s Hl; simpl.
  - split; [by exists s|done].
  - destruct s as [|c s]; simpl in *; [lia|]. lex_cases.
    + split; [done|]. intros [t ?]. simplify_eq. lia.
    + split; [done|]. intros [t ?]. simplify_eq. lia.
    + assert (c = b) as -> by lia. rewrite IH by lia.
      split; intros [t Ht]; exists t; by simplify_eq/=.
Qed.

Lemma Slice_starts_with_spec s x : Slice_starts_with s x = true ↔ ∃ t, s = x ++ t.
Proof.
  unfold Slice_starts_with, zlen. split.
  - intros [Hl Hm]%andb_prop. apply Z.geb_le in Hl. apply Z.eqb_eq in Hm.
    apply memcmp_prefix; [lia|done].
  - intros [t ->]. rewrite length_app. apply andb_true_intro. split; [apply Z.geb_le; lia|].
    apply Z.eqb_eq, memcmp_prefix; [rewrite length_app; lia|by exists t].
Qed.

(** ** The bytewise comparator obeys the laws *)

Lemma common_prefix_spec a b :
  let k := common_prefix a b in
  (k <= length a)%nat ∧ (k <= length b)%nat ∧ take k a = take k b ∧
  ((k < length a)%nat → (k < length b)%nat → nth k a 0 ≠ nth k b 0).
Proof.
  revert b. induction a as [|x a IH]; intros [|y b]; simpl; try (split_and!; lia || done).
  destruct (Z.eqb_spec x y) as [->|Hne]; simpl.
  - destruct (IH b) as (H1 & H2 & H3 & H4). split_and!; [lia..| |].
    + by f_equal.
    + intros. apply H4; lia.
  - split_and!; try lia; done.
Qed.

(** A string splits at an index into what precedes, the byte and the rest. *)
Lemma split_at (s : bytes) k : (k < length s)%nat →
  s = take k s ++ nth k s 0 :: drop (S k) s.
Proof.
  revert k. induction s as [|x s IH]; intros [|k] Hk; simpl in *; try lia; [done|].
  f_equal. apply IH. lia.
Qed.

Lemma take_bump (s : bytes) k v : (k < length s)%nat →
  take (k + 1) (<[k := v]> s) = take k s ++ [v].
Proof.
  revert k. induction s as [|x s IH]; intros [|k] Hk; simpl in *; try lia; [done|].
  f_equal. apply IH. lia.
Qed.

(** Either nothing changes, or the strings differ at [diff_index] and the result
    is the common prefix followed by the incremented byte. *)
Lemma Bytewise_Separator_cases s l :
  Bytewise_FindShortestSeparator s l = s ∨
  ∃ p x y s' l', s = p ++ x :: s' ∧ l = p ++ y :: l' ∧ x < 255 ∧ x + 1 < y ∧
    Bytewise_FindShortestSeparator s l = p ++ [x + 1].
Proof.
  unfold Bytewise_FindShortestSeparator.
  destruct (common_prefix_spec s l) as (H1 & H2 & H3 & _).
  set (k := common_prefix s l) in *.
  destruct (Nat.leb_spec (length s `min` length l) k); [by left|].
  destruct (_ && _) eqn:E; [|by left]. apply andb_prop in E as [E1 E2].
  apply Z.ltb_lt in E1, E2. right.
  exists (take k s), (nth k s 0), (nth k l 0), (drop (S k) s), (drop (S k) l).
  split_and!; [apply split_at; lia|rewrite H3; apply split_at; lia|done|done|].
  apply take_bump. lia.
Qed.

Lemma Successor_loop_cases pre k :
  (Successor_loop pre k = None ∧ Forall (eq 255) k) ∨
  ∃ p x k', k = p ++ x :: k' ∧ x ≠ 255 ∧ Successor_loop pre k = Some (pre ++ p ++ [x + 1]).
Proof.
  revert pre. induction k as [|x k IH]; intros pre; simpl; [left; done|].
  destruct (Z.eqb_spec x 255) as [->|Hne]; simpl.
  - destruct (IH (pre ++ [255])) as [[-> Hf]|(p & x & k' & -> & Hx & ->)].
    + left. split; [done|]. by constructor.
    + right. exists (255 :: p), x, k'. by rewrite <- app_assoc.
  - right. exists [], x, k. done.
Qed.

Lemma Bytewise_Successor_cases k :
  Bytewise_FindShortSuccessor k = k ∨
  ∃ p x k', k = p ++ x :: k' ∧ x ≠ 255 ∧ Bytewise_FindShortSuccessor k = p ++ [x + 1].
Proof.
  unfold Bytewise_FindShortSuccessor.
  destruct (Successor_loop_cases [] k) as [[-> _]|(p & x & k' & Hk & Hx & ->)]; [by left|].
  right. by exists p, x, k'.
Qed.

Lemma lex_bump p x s : lex (p ++ x :: s) (p ++ [x + 1]) < 0.
Proof. rewrite lex_app_l. simpl. lex_cases. Qed.

#[export] Instance BytewiseComparator_ok : ComparatorOk bytes_ok BytewiseComparator.
Proof.
  split; simpl; intros *; rewrite ?Slice_compare_lex.
  - done.
  - intros _. apply lex_refl.
  - intros _ _. apply lex_eq.
  - intros _ _. rewrite (lex_opp b a). lia.
  - intros _ _ _. apply lex_trans.
  - intros Hs _. destruct (Bytewise_Separator_cases s l) as [->|(p & x & y & s' & l' & -> & _ & Hx & _ & ->)]; [done|].
    apply bytes_ok_app in Hs as [Hp [Hx' _]%bytes_ok_cons]. apply bytes_ok_app. split; [done|].
    constructor; [unfold is_byte in *; lia|constructor].
  - intros _ _ _. destruct (Bytewise_Separator_cases s l) as [->|(p & x & y & s' & l' & -> & _ & _ & _ & ->)].
    + rewrite lex_refl. lia.
    + apply Z.lt_le_incl, lex_bump.
  - intros _ _ Hlt. destruct (Bytewise_Separator_cases s l) as [->|(p & x & y & s' & l' & _ & -> & _ & Hxy & ->)]; [done|].
    rewrite lex_app_l. simpl. lex_cases.
  - intros _ _ Heq%lex_eq. subst l. destruct (Bytewise_Separator_cases s s)
      as [->|(p & x & y & s' & l' & Hs & Hl & _ & Hxy & _)]; [done|].
    exfalso. rewrite Hs in Hl. apply app_inv_head in Hl. simplify_eq. lia.
  - intros Hk. destruct (Bytewise_Successor_cases k) as [->|(p & x & k' & -> & Hx & ->)]; [done|].
    apply bytes_ok_app in Hk as [Hp [Hx' _]%bytes_ok_cons]. apply bytes_ok_app. split; [done|].
    constructor; [unfold is_byte in *; lia|constructor].
  - intros _. destruct (Bytewise_Successor_cases k) as [->|(p & x & k' & -> & _ & ->)].
    + rewrite lex_refl. lia.
    + apply Z.lt_le_incl, lex_bump.
Qed.

(** ** Properties *)

(** The bytewise comparator: [Slice::compare] is the lexicographic order on
    unsigned bytes, equality and the prefix test of [Slice] are the exact ones,
    and the comparator keeps every promise of [comparator.h]: a total order, a
    separator in [start, limit) made of bytes, a successor at or after its key. *)
Theorem bytewise_comparator_correct :
  (∀ a b, Slice_compare a b = lex a b) ∧
  (∀ a b, Slice_eqb a b = true ↔ a = b) ∧
  (∀ s x, Slice_starts_with s x = true ↔ ∃ t, s = x ++ t) ∧
  ComparatorOk bytes_ok BytewiseComparator.
Proof.
  split_and!.
  - apply Slice_compare_lex.
  - apply Slice_eqb_eq.
  - apply Slice_starts_with_spec.
  - apply _.
Qed.
