(* ===== verification/DbFormat.v ===== *)
(** * Internal keys

    Model of [App/integration/dbformat.h] and [dbformat.cpp]: an internal key is a
    user key followed by eight bytes that pack a 56-bit sequence number and a value
    type; internal keys sort by user key, then newest first.  [LookupKey] is the
    key a read at a snapshot searches for. *)
From S2P Require Import Prelude Coding Comparator.

#[local] Open Scope Z_scope.
#[local] Open Scope word_scope.

Inductive ValueType := kTypeDeletion | kTypeValue.
#[export] Instance ValueType_eq_dec : EqDecision ValueType.
Proof. solve_decision. Defined.

Definition ValueType_code (t : ValueType) : Z :=
  match t with kTypeDeletion => 0 | kTypeValue => 1 end.

Definition kValueTypeForSeek : ValueType := kTypeValue.
Definition kMaxSequenceNumber : Z := (1 .<< 56) - 1.

Record ParsedInternalKey := {
  user_key : bytes;
  sequence : Z;
  type : ValueType;
}.

(** [(seq << 8) | t] at 64 bits. *)
Definition PackSequenceAndType (seq : Z) (t : ValueType) : Z :=
  u64 (seq .<< 8) .| ValueType_code t.

Definition AppendInternalKey (result : bytes) (key : ParsedInternalKey) : bytes :=
  PutFixed64 (result ++ user_key key) (PackSequenceAndType (sequence key) (type key)).

Definition InternalKeyEncodingLength (key : ParsedInternalKey) : Z :=
  zlen (user_key key) + 8.

(** Requires [internal_key.size() >= 8], asserted in the source. *)
Definition ExtractUserKey (internal_key : bytes) : bytes :=
  take (length internal_key - 8) internal_key.

(** The trailing eight bytes, [DecodeFixed64(data + size - 8)]. *)
Definition internal_trailer (internal_key : bytes) : Z :=
  DecodeFixed64 (drop (length internal_key - 8) internal_key).

Definition ExtractValueType (internal_key : bytes) : Z :=
  internal_trailer internal_key .& 255.

Definition ParseInternalKey (internal_key : bytes) : option ParsedInternalKey :=
  let n := length internal_key in
  if (n <? 8)%nat then None
  else
    let num := internal_trailer internal_key in
    let c := num .& 255 in
    if c =? 0 then
      Some {| user_key := take (n - 8) internal_key; sequence := num .>> 8; type := kTypeDeletion |}
    else if c =? 1 then
      Some {| user_key := take (n - 8) internal_key; sequence := num .>> 8; type := kTypeValue |}
    else None.

(** The constructor [InternalKey(user_key, s, t)]. *)
Definition InternalKey (ukey : bytes) (s : Z) (t : ValueType) : bytes :=
  AppendInternalKey [] {| user_key := ukey; sequence := s; type := t |}.

(** ** The comparator of internal keys *)

Definition InternalKeyComparator_Compare (user : Comparator) (akey bkey : bytes) : Z :=
  let r := Compare user (ExtractUserKey akey) (ExtractUserKey bkey) in
  if r =? 0 then
    let anum := internal_trailer akey in
    let bnum := internal_trailer bkey in
    if anum >? bnum then -1 else if anum <? bnum then 1 else r
  else r.

Definition InternalKeyComparator_FindShortestSeparator (user : Comparator)
    (start limit : bytes) : bytes :=
  let user_start := ExtractUserKey start in
  let user_limit := ExtractUserKey limit in
  let tmp := FindShortestSeparator user user_start user_limit in
  if (zlen tmp <? zlen user_start) && (Compare user user_start tmp <? 0) then
    PutFixed64 tmp (PackSequenceAndType kMaxSequenceNumber kValueTypeForSeek)
  else start.

Definition InternalKeyComparator_FindShortSuccessor (user : Comparator) (key : bytes) : bytes :=
  let ukey := ExtractUserKey key in
  let tmp := FindShortSuccessor user ukey in
  if (zlen tmp <? zlen ukey) && (Compare user ukey tmp <? 0) then
    PutFixed64 tmp (PackSequenceAndType kMaxSequenceNumber kValueTypeForSeek)
  else key.

Definition InternalKeyComparator (user : Comparator) : Comparator := {|
  Compare := InternalKeyComparator_Compare user;
  FindShortestSeparator := InternalKeyComparator_FindShortestSeparator user;
  FindShortSuccessor := InternalKeyComparator_FindShortSuccessor user;
|}.

(** ** LookupKey *)

(** [start_ .. end_): klength, user key, tag. The [usize + 8] passed to
    [EncodeVarint32] is converted to 32 bits. *)
Record LookupKey := { lk_klength : bytes; lk_kstart : bytes }.

Definition LookupKey_make (ukey : bytes) (s : Z) : LookupKey := {|
  lk_klength := EncodeVarint32 (u32 (zlen ukey + 8));
  lk_kstart := ukey ++ EncodeFixed64 (PackSequenceAndType s kValueTypeForSeek);
|}.

Definition memtable_key (k : LookupKey) : bytes := lk_klength k ++ lk_kstart k.
Definition internal_key (k : LookupKey) : bytes := lk_kstart k.
Definition lookup_user_key (k : LookupKey) : bytes :=
  take (length (lk_kstart k) - 8) (lk_kstart k).

(** ** Lemmas *)

(** A well-formed internal key over the user keys satisfying [valid]. *)
Definition internal_valid (valid : bytes → Prop) (k : bytes) : Prop :=
  bytes_ok k ∧ (8 <= length k)%nat ∧ valid (ExtractUserKey k).

Lemma Pack_sum seq t : 0 <= seq <= kMaxSequenceNumber →
  PackSequenceAndType seq t = seq * 256 + ValueType_code t.
Proof.
  unfold PackSequenceAndType, kMaxSequenceNumber. rewrite Z.shiftl_1_l. intros Hs.
  unfold u64. rewrite Z.mod_small by (rewrite Z.shiftl_mul_pow2 by lia; lia).
  rewrite Z.lor_comm, lor_disjoint_add by (destruct t; simpl; lia). destruct t; simpl; lia.
Qed.

Lemma Pack_range seq t : 0 <= seq <= kMaxSequenceNumber → is_u 64 (PackSequenceAndType seq t).
Proof.
  intros Hs. rewrite Pack_sum by done. unfold kMaxSequenceNumber in Hs.
  rewrite Z.shiftl_1_l in Hs. unfold is_u. destruct t; simpl; lia.
Qed.

(** The packed word is monotone in the sequence number. *)
Lemma Pack_lt s1 t1 s2 t2 :
  0 <= s1 <= kMaxSequenceNumber → 0 <= s2 <= kMaxSequenceNumber → s1 < s2 →
  PackSequenceAndType s1 t1 < PackSequenceAndType s2 t2.
Proof. intros. rewrite !Pack_sum by done. destruct t1, t2; simpl; lia. Qed.

Lemma InternalKey_unfold u s t :
  InternalKey u s t = u ++ EncodeFixed64 (PackSequenceAndType s t).
Proof. done. Qed.

Lemma ExtractUserKey_app u v : ExtractUserKey (u ++ EncodeFixed64 v) = u.
Proof.
  unfold ExtractUserKey. rewrite length_app, EncodeFixed64_length, Nat.add_sub.
  by rewrite take_app_length.
Qed.

Lemma internal_trailer_app u v : internal_trailer (u ++ EncodeFixed64 v) = u64 v.
Proof.
  unfold internal_trailer. rewrite length_app, EncodeFixed64_length, Nat.add_sub.
  rewrite drop_app_length. rewrite <- (app_nil_r (EncodeFixed64 v)). apply DecodeEncodeFixed64.
Qed.

(** An internal key is its user key followed by the encoding of its trailer. *)
Lemma internal_key_split k : bytes_ok k → (8 <= length k)%nat →
  k = ExtractUserKey k ++ EncodeFixed64 (internal_trailer k).
Proof.
  intros Hk Hl. rewrite <- (take_drop (length k - 8) k) at 1. f_equal.
  unfold internal_trailer, DecodeFixed64, EncodeFixed64.
  assert (H8 : length (drop (length k - 8) k) = 8%nat) by (rewrite length_drop; lia).
  rewrite <- H8 at 3. rewrite firstn_all. rewrite <- H8 at 2.
  symmetry. apply le_bytes_value. by apply bytes_ok_drop.
Qed.

Lemma internal_trailer_range k : bytes_ok k → is_u 64 (internal_trailer k).
Proof. intros H. apply DecodeFixed64_range. by apply bytes_ok_drop. Qed.

Lemma internal_valid_app valid u v : bytes_ok u → valid u →
  internal_valid valid (u ++ EncodeFixed64 v).
Proof.
  intros Hu Hv. split_and!.
  - apply bytes_ok_app. auto with lpad.
  - rewrite length_app, EncodeFixed64_length. lia.
  - by rewrite ExtractUserKey_app.
Qed.

Lemma ParseInternalKey_Append k :
  0 <= sequence k <= kMaxSequenceNumber →
  ParseInternalKey (AppendInternalKey [] k) = Some k.
Proof.
  destruct k as [u s t]. unfold AppendInternalKey, PutFixed64. simpl. intros Hs.
  unfold ParseInternalKey. rewrite internal_trailer_app, u64_small by (by apply Pack_range).
  rewrite length_app, EncodeFixed64_length.
  destruct (Nat.ltb_spec (length u + 8) 8); [lia|].
  rewrite Nat.add_sub, take_app_length, land_255, Z.shiftr_div_pow2 by lia.
  rewrite Pack_sum by done. change (2 ^ 8) with 256.
  destruct t; simpl ValueType_code; rewrite Z.add_comm, Z.mod_add, Z.div_add by lia; done.
Qed.

Section InternalComparator.
Context {valid : bytes → Prop} {user : Comparator} `{!ComparatorOk valid user}.

Let icmp := InternalKeyComparator_Compare user.

(** The order on (user key, trailer) pairs behind [Compare]. *)
Lemma icmp_lt a b : internal_valid valid a → internal_valid valid b →
  icmp a b < 0 ↔
  Compare user (ExtractUserKey a) (ExtractUserKey b) < 0 ∨
  (ExtractUserKey a = ExtractUserKey b ∧ internal_trailer b < internal_trailer a).
Proof using All.
  intros (_ & _ & Ha) (_ & _ & Hb). unfold icmp, InternalKeyComparator_Compare.
  destruct (Z.eqb_spec (Compare user (ExtractUserKey a) (ExtractUserKey b)) 0) as [E|E].
  - rewrite E. apply Compare_eq in E; [|done..]. rewrite Z.gtb_ltb.
    destruct (Z.ltb_spec (internal_trailer b) (internal_trailer a)); [intuition lia|].
    destruct (Z.ltb_spec (internal_trailer a) (internal_trailer b)); intuition lia.
  - split; [by left|]. intros [?|[He _]]; [done|]. rewrite He, Compare_refl in E; done.
Qed.

Lemma icmp_gt a b : internal_valid valid a → internal_valid valid b →
  0 < icmp a b ↔
  0 < Compare user (ExtractUserKey a) (ExtractUserKey b) ∨
  (ExtractUserKey a = ExtractUserKey b ∧ internal_trailer a < internal_trailer b).
Proof using All.
  intros (_ & _ & Ha) (_ & _ & Hb). unfold icmp, InternalKeyComparator_Compare.
  destruct (Z.eqb_spec (Compare user (ExtractUserKey a) (ExtractUserKey b)) 0) as [E|E].
  - rewrite E. apply Compare_eq in E; [|done..]. rewrite Z.gtb_ltb.
    destruct (Z.ltb_spec (internal_trailer b) (internal_trailer a)); [intuition lia|].
    destruct (Z.ltb_spec (internal_trailer a) (internal_trailer b)); intuition lia.
  - split; [by left|]. intros [?|[He _]]; [done|]. rewrite He, Compare_refl in E; done.
Qed.

Lemma icmp_swap a b : internal_valid valid a → internal_valid valid b →
  icmp a b < 0 ↔ 0 < icmp b a.
Proof using All.
  intros Ha Hb. rewrite icmp_lt, icmp_gt by done.
  destruct Ha as (_ & _ & Ha), Hb as (_ & _ & Hb). rewrite Compare_swap by done.
  intuition congruence.
Qed.

Lemma icmp_refl a : internal_valid valid a → icmp a a = 0.
Proof using All.
  intros (_ & _ & Ha). unfold icmp, InternalKeyComparator_Compare.
  by rewrite Compare_refl, Z.gtb_ltb, Z.ltb_irrefl.
Qed.

Lemma icmp_eq a b : internal_valid valid a → internal_valid valid b → icmp a b = 0 → a = b.
Proof using All.
  intros Ha Hb He. pose proof (icmp_lt a b Ha Hb) as Hlt. pose proof (icmp_gt a b Ha Hb) as Hgt.
  destruct Ha as (Hao & Hal & Ha), Hb as (Hbo & Hbl & Hb).
  assert (Hu : ExtractUserKey a = ExtractUserKey b) by (apply Compare_eq; [done..|lia]).
  rewrite (internal_key_split a), (internal_key_split b) by done. rewrite Hu.
  do 2 f_equal. destruct (Z.lt_total (internal_trailer a) (internal_trailer b)) as [?|[?|?]];
    [|done|]; exfalso; intuition lia.
Qed.

Lemma icmp_trans a b c : internal_valid valid a → internal_valid valid b →
  internal_valid valid c → icmp a b < 0 → icmp b c < 0 → icmp a c < 0.
Proof using All.
  intros Ha Hb Hc. rewrite !icmp_lt by done.
  destruct Ha as (_ & _ & Ha), Hb as (_ & _ & Hb), Hc as (_ & _ & Hc).
  intros [H1|[H1 H1']] [H2|[H2 H2']].
  - left. by apply (Compare_trans _ (ExtractUserKey b)).
  - left. by rewrite <- H2.
  - left. by rewrite H1.
  - right. split; [congruence|lia].
Qed.

(** A shortened user key with the largest trailer sorts right before every entry
  of that user key. *)
Definition shortened (tmp : bytes) : bytes :=
  PutFixed64 tmp (PackSequenceAndType kMaxSequenceNumber kValueTypeForSeek).

Lemma shortened_valid tmp : valid tmp → internal_valid valid (shortened tmp).
Proof using All. intros H. apply internal_valid_app; [by eapply valid_bytes|done]. Qed.

Lemma shortened_user tmp : ExtractUserKey (shortened tmp) = tmp.
Proof using All. apply ExtractUserKey_app. Qed.

#[export] Instance InternalKeyComparator_ok :
  ComparatorOk (internal_valid valid) (InternalKeyComparator user).
Proof using All.
  split; simpl; intros *; fold icmp.
  - by intros (? & _).
  - apply icmp_refl.
  - apply icmp_eq.
  - apply icmp_swap.
  - apply icmp_trans.
  - intros Hs (_ & _ & Hl). unfold InternalKeyComparator_FindShortestSeparator.
    destruct (_ && _); [|done]. apply shortened_valid.
    apply Separator_valid; [apply Hs|done].
  - intros Hs Hl Hlt. unfold InternalKeyComparator_FindShortestSeparator.
    destruct (_ && _) eqn:E; [|rewrite icmp_refl by done; lia].
    apply andb_prop in E as [_ E]. apply Z.ltb_lt in E. fold (shortened (FindShortestSeparator user (ExtractUserKey s) (ExtractUserKey l))).
    apply Z.lt_le_incl, icmp_lt; [done| |].
    + apply shortened_valid, Separator_valid; [apply Hs|apply Hl].
    + left. by rewrite shortened_user.
  - intros Hs Hl Hlt. unfold InternalKeyComparator_FindShortestSeparator.
    destruct (_ && _) eqn:E; [|done]. apply andb_prop in E as [E _]. apply Z.ltb_lt in E.
    fold (shortened (FindShortestSeparator user (ExtractUserKey s) (ExtractUserKey l))).
    apply icmp_lt in Hlt as [Hlt|[Heq _]]; [| |done..].
    + apply icmp_lt; [apply shortened_valid, Separator_valid; [apply Hs|apply Hl]|done|].
      left. rewrite shortened_user. apply Separator_upper; [apply Hs|apply Hl|done].
    + rewrite Separator_equal in E; [lia|apply Hs|apply Hl|].
      rewrite Heq. apply Compare_refl, Hl.
  - intros Hs Hl Heq%icmp_eq; [|done..]. subst l.
    unfold InternalKeyComparator_FindShortestSeparator.
    rewrite Separator_equal, Z.ltb_irrefl; [done|apply Hs|apply Hs|apply Compare_refl, Hs].
  - intros Hk. unfold InternalKeyComparator_FindShortSuccessor.
    destruct (_ && _); [|done]. apply shortened_valid, Successor_valid, Hk.
  - intros Hk. unfold InternalKeyComparator_FindShortSuccessor.
    destruct (_ && _) eqn:E; [|rewrite icmp_refl by done; lia].
    apply andb_prop in E as [_ E]. apply Z.ltb_lt in E.
    fold (shortened (FindShortSuccessor user (ExtractUserKey k))).
    apply Z.lt_le_incl, icmp_lt; [done|apply shortened_valid, Successor_valid, Hk|].
    left. by rewrite shortened_user.
Qed.

(** Entries of one user key: the one with the larger sequence number first. *)
Lemma icmp_same_user u s1 t1 s2 t2 : valid u →
  0 <= s1 <= kMaxSequenceNumber → 0 <= s2 <= kMaxSequenceNumber → s2 < s1 →
  icmp (InternalKey u s1 t1) (InternalKey u s2 t2) < 0.
Proof using All.
  intros Hu H1 H2 Hlt. rewrite !InternalKey_unfold.
  pose proof (valid_bytes (valid:=valid) (c:=user) u Hu).
  apply icmp_lt; [by apply internal_valid_app..|].
  right. rewrite !ExtractUserKey_app, !internal_trailer_app. split; [done|].
  rewrite !u64_small by (by apply Pack_range). by apply Pack_lt.
Qed.

(** No separator before an entry reaches the other entries of its user key. *)
Lemma internal_separator_same_user s k e : internal_valid valid s → internal_valid valid k → internal_valid valid e →
  ExtractUserKey k = ExtractUserKey e → icmp s k < 0 → icmp s e < 0 →
  icmp (InternalKeyComparator_FindShortestSeparator user s e) k < 0.
Proof using All.
  intros Hs Hk He Hu Hsk Hse. unfold InternalKeyComparator_FindShortestSeparator. destruct (_ && _) eqn:E; [|done].
  apply andb_prop in E as [E _]. apply Z.ltb_lt in E. fold (shortened (FindShortestSeparator user (ExtractUserKey s) (ExtractUserKey e))).
  apply icmp_lt in Hse as [Hlt|[Heq _]]; [| |done..].
  - apply icmp_lt; [apply shortened_valid, Separator_valid; [apply Hs|apply He]|done|].
    left. rewrite shortened_user, Hu. apply Separator_upper; [apply Hs|apply He|done].
  - rewrite Separator_equal in E; [lia|apply Hs|apply He|]. rewrite Heq. apply Compare_refl, He.
Qed.
End InternalComparator.

(** ** Properties *)

(** The internal-key comparator inherits every comparator law from the user
    comparator it wraps: the order is total on well-formed internal keys, and the
    shortened separators and successors written into index blocks stay inside the
    bounds the index relies on, although they replace the sequence number. *)
Theorem internal_comparator_laws (valid : bytes → Prop) (user : Comparator) :
  ComparatorOk valid user →
  ComparatorOk (internal_valid valid) (InternalKeyComparator user).
Proof. intros H. apply _. Qed.

Lemma internal_comparator_laws_witness :
  ComparatorOk (internal_valid bytes_ok) (InternalKeyComparator BytewiseComparator).
Proof. exact (internal_comparator_laws bytes_ok BytewiseComparator BytewiseComparator_ok). Defined.

(** Internal keys round-trip: what [AppendInternalKey] writes,
    [ParseInternalKey] reads back, with the length [InternalKeyEncodingLength]
    announces, and the user key and type accessors agree with it. *)
Theorem internal_key_roundtrip (k : ParsedInternalKey) :
  0 <= sequence k <= kMaxSequenceNumber →
  ParseInternalKey (AppendInternalKey [] k) = Some k ∧
  zlen (AppendInternalKey [] k) = InternalKeyEncodingLength k ∧
  ExtractUserKey (AppendInternalKey [] k) = user_key k ∧
  ExtractValueType (AppendInternalKey [] k) = ValueType_code (type k).
Proof.
  intros Hs. split; [by apply ParseInternalKey_Append|]. destruct k as [u s t]. simpl in *.
  unfold AppendInternalKey, PutFixed64, InternalKeyEncodingLength, ExtractValueType. simpl.
  rewrite ExtractUserKey_app, internal_trailer_app, u64_small by (by apply Pack_range).
  split_and!; [|done|].
  - rewrite zlen_app. unfold zlen. by rewrite EncodeFixed64_length.
  - rewrite Pack_sum, land_255, Z.add_comm by done. change (2 ^ 8) with 256.
    rewrite Z.mod_add by lia. by destruct t.
Qed.

Lemma internal_key_roundtrip_witness :
  ParseInternalKey (AppendInternalKey [] {| user_key := [97]; sequence := 258; type := kTypeValue |})
  = Some {| user_key := [97]; sequence := 258; type := kTypeValue |}.
Proof. apply internal_key_roundtrip. simpl. unfold kMaxSequenceNumber. vm_compute. intuition congruence. Defined.

(** Snapshot lookup: for every user comparator obeying the laws, the internal
    key a read at snapshot [s] seeks sorts after every entry of that user key
    newer than [s] and not after any entry visible at [s]; among the visible ones
    the newest comes first.  A seek therefore lands on the newest visible entry. *)
Theorem lookup_key_position (valid : bytes → Prop) (user : Comparator) (u : bytes) (s s' : Z)
    (t' : ValueType) :
  ComparatorOk valid user → valid u →
  0 <= s <= kMaxSequenceNumber → 0 <= s' <= kMaxSequenceNumber →
  (s < s' → Compare (InternalKeyComparator user) (InternalKey u s' t')
              (internal_key (LookupKey_make u s)) < 0) ∧
  (s' <= s → Compare (InternalKeyComparator user) (internal_key (LookupKey_make u s))
              (InternalKey u s' t') <= 0).
Proof.
  intros Hok Hu Hs Hs'.
  change (internal_key (LookupKey_make u s)) with (InternalKey u s kTypeValue). split.
  - intros Hlt. by apply icmp_same_user.
  - intros Hle. destruct (decide (s' = s)) as [->|].
    + simpl. unfold InternalKeyComparator_Compare. rewrite !InternalKey_unfold.
      rewrite !ExtractUserKey_app, !internal_trailer_app, Compare_refl by done.
      rewrite !u64_small, !Pack_sum by (done || by apply Pack_range).
      destruct t'; simpl ValueType_code; rewrite Z.gtb_ltb; simpl.
      * destruct (Z.ltb_spec (s * 256 + 0) (s * 256 + 1)); lia.
      * rewrite Z.ltb_irrefl. lia.
    + apply Z.lt_le_incl. apply icmp_same_user; try done. lia.
Qed.

Lemma lookup_key_position_witness :
  Compare (InternalKeyComparator BytewiseComparator) (InternalKey [97] 9 kTypeDeletion)
    (internal_key (LookupKey_make [97] 5)) < 0.
Proof.
  apply (lookup_key_position bytes_ok BytewiseComparator [97] 5 9 kTypeDeletion
    BytewiseComparator_ok); [by_compute | vm_compute; intuition congruence.. |].
  reflexivity.
Defined.
