(* ===== verification/EnclaveCC.v ===== *)
(** * The enclave's concurrency control

    Model of [Enclave/op.h] and [Enclave/cc.cpp]: the trusted part of LPAD that
    timestamps every put and get, keeps the operations in flight ([pending_list])
    and the finished puts waiting for their predecessors ([completed_list]), and
    appends contiguous runs of finished puts to the write history.

    Each global counter is read and bumped under its own mutex, and the rest of a
    handler runs under [g_mutex]; [step] interleaves these atomic sections of any
    number of threads, which is the granularity at which the enclave's threads can
    be scheduled. The handlers are public entry points, so two callers are
    considered: [AnyCaller] passes any identifier and sequence number at any time,
    [HostCaller] finishes only operations whose pre-handler has returned, each
    once. The executions are shorter than [2^32] steps: beyond that the 32-bit
    clock and identifiers wrap. *)
From stdpp Require Import gmap.
From S2P Require Import Prelude.

#[local] Open Scope Z_scope.

(** ** Op and HistoryW *)

Record Op := {
  id : Z; key : Z; val : Z; ts_att : Z; ts_rw : Z; start : Z; end_ : Z;
}.

Definition setStart (t : Z) (o : Op) : Op :=
  {| id := id o; key := key o; val := val o; ts_att := ts_att o; ts_rw := ts_rw o;
     start := t; end_ := end_ o |}.
Definition setEnd (t : Z) (o : Op) : Op :=
  {| id := id o; key := key o; val := val o; ts_att := ts_att o; ts_rw := ts_rw o;
     start := start o; end_ := t |}.
(** [setTs] and [setTr] write the same field; [Timestamp] is 32 bits wide. *)
Definition setTs (ts : Z) (o : Op) : Op :=
  {| id := id o; key := key o; val := val o; ts_att := u32 ts; ts_rw := ts_rw o;
     start := start o; end_ := end_ o |}.
Definition setTr (tr : Z) (o : Op) : Op := setTs tr o.
Definition setTw (tw : Z) (o : Op) : Op :=
  {| id := id o; key := key o; val := val o; ts_att := ts_att o; ts_rw := u32 tw;
     start := start o; end_ := end_ o |}.
Definition getStart (o : Op) : Z := start o.
Definition getEnd (o : Op) : Z := end_ o.
Definition getTw (o : Op) : Z := ts_rw o.
Definition getTs (o : Op) : Z := ts_att o.
Definition getTr (o : Op) : Z := ts_att o.

(** [Op(Opid id, Realtime s)] initialises two fields; the others keep whatever the
    memory held, [junk]. *)
Definition Op_make (junk : Op) (i s : Z) : Op :=
  {| id := i; key := key junk; val := val junk; ts_att := ts_att junk; ts_rw := ts_rw junk;
     start := s; end_ := end_ junk |}.

(** [RH] is an empty class. *)
Record HistoryW := { current : Op; rh_list : gmap Z unit }.

Definition HistoryW_init (junk : Op) : HistoryW :=
  {| current := setEnd 0 (setStart 0 (setTs 0 junk)); rh_list := ∅ |}.
Definition latest (h : HistoryW) : Op := current h.
Definition update (op : Op) (h : HistoryW) : HistoryW := {| current := op; rh_list := rh_list h |}.
(** [rh_list.find(tr)->second]: [None] is the dereference of [end()]. *)
Definition findRH (tr : Z) (h : HistoryW) : option unit := rh_list h !! tr.

(** ** The global state *)

Record CC := {
  pending_list : gmap Z Op;
  completed_list : gmap Z Op;
  g_timer : Z;
  g_id : Z;
  history : HistoryW;
  g_mutex : bool;       (** held *)
  errors : nat;         (** lines printed by [bar1("error dected")] *)
}.

Definition CC_init (junk : Op) : CC :=
  {| pending_list := ∅; completed_list := ∅; g_timer := 0; g_id := 0;
     history := HistoryW_init junk; g_mutex := false; errors := 0 |}.

Definition with_timer (t : Z) (s : CC) : CC :=
  {| pending_list := pending_list s; completed_list := completed_list s; g_timer := t;
     g_id := g_id s; history := history s; g_mutex := g_mutex s; errors := errors s |}.
Definition with_id (i : Z) (s : CC) : CC :=
  {| pending_list := pending_list s; completed_list := completed_list s; g_timer := g_timer s;
     g_id := i; history := history s; g_mutex := g_mutex s; errors := errors s |}.
Definition with_pending (p : gmap Z Op) (s : CC) : CC :=
  {| pending_list := p; completed_list := completed_list s; g_timer := g_timer s;
     g_id := g_id s; history := history s; g_mutex := g_mutex s; errors := errors s |}.
Definition with_mutex (b : bool) (s : CC) : CC :=
  {| pending_list := pending_list s; completed_list := completed_list s; g_timer := g_timer s;
     g_id := g_id s; history := history s; g_mutex := b; errors := errors s |}.

(** [std::map::insert] keeps an existing binding. *)
Definition map_insert (k : Z) (v : Op) (m : gmap Z Op) : gmap Z Op :=
  match m !! k with Some _ => m | None => <[k := v]> m end.

(** ** The atomic sections *)

Definition getTime (s : CC) : Z * CC :=
  let local := u32 (g_timer s + 1) in (local, with_timer local s).

Definition allocId (s : CC) : Z * CC :=
  let local := u32 (g_id s + 1) in (local, with_id local s).

(** How a critical section ends: [Done] has released [g_mutex], [Locked] has
    returned while holding it, [Undefined] has dereferenced an end iterator. *)
Inductive outcome := Done (s : CC) | Locked (s : CC) | Undefined.

Definition preget_section (junk : Op) (time i : Z) (s : CC) : outcome :=
  let op := setTr (getTs (latest (history s))) (Op_make junk i time) in
  Done (with_pending (map_insert i op (pending_list s)) s).

Definition preput_section (junk : Op) (time i : Z) (s : CC) : outcome :=
  Done (with_pending (map_insert i (Op_make junk i time) (pending_list s)) s).

(** [for (j = 0; i < pf[i]; j++)]: the test does not mention [j]. [None] is fuel
    exhausted. *)
Fixpoint lpad_inner (fuel : nat) (i pfi : Z) : option unit :=
  match fuel with
  | O => None
  | S fuel' => if i <? pfi then lpad_inner fuel' i pfi else Some tt
  end.

Fixpoint lpad_outer (fuel : nat) (i : Z) (pf : list Z) : option bool :=
  match pf with
  | [] => Some true
  | pfi :: pf' =>
      match lpad_inner fuel i pfi with
      | None => None
      | Some _ => lpad_outer fuel (i + 1) pf'
      end
  end.

(** [pf] is the array cut at [pf_index]. *)
Definition lpad_verify (fuel : nat) (rh : unit) (pf : list Z) : option bool :=
  lpad_outer fuel 0 pf.

Inductive nmt_result := NmtReturns (b : bool) | NmtUndefined | NmtDiverges.

Definition nmt (fuel : nat) (op : Op) (his : HistoryW) (pf : list Z) : nmt_result :=
  if getTw op >? getTr op then NmtReturns true
  else
    match findRH (getTr op) his with
    | None => NmtUndefined
    | Some rh =>
        match lpad_verify fuel rh pf with
        | None => NmtDiverges
        | Some b => NmtReturns b
        end
    end.

(** [None]: the loop of [lpad_verify] did not end within [fuel]. *)
Definition postget_section (fuel : nat) (i tw : Z) (pf : list Z) (s : CC) : option outcome :=
  match pending_list s !! i with
  | None => Some Undefined
  | Some op =>
      let s := with_pending (delete i (pending_list s)) s in
      let op := setTw tw op in
      match nmt fuel op (history s) pf with
      | NmtReturns true => Some (Done s)
      | NmtReturns false => Some (Locked (with_mutex true s))
      | NmtUndefined => Some Undefined
      | NmtDiverges => None
      end
  end.

(** [while (comp.find(cur) != comp.end())]; [cur] is a 32-bit [Timestamp]. *)
Fixpoint truncate_loop (fuel : nat) (cur : Z) (comp : gmap Z Op) (acl : list Op)
  : gmap Z Op * list Op :=
  match fuel with
  | O => (comp, acl)
  | S fuel' =>
      match comp !! cur with
      | None => (comp, acl)
      | Some op => truncate_loop fuel' (u32 (cur + 1)) (delete cur comp) (acl ++ [op])
      end
  end.

(** Each round erases a key, so the size of the map bounds the rounds. *)
Definition truncate (comp : gmap Z Op) (his : HistoryW) : gmap Z Op * list Op :=
  truncate_loop (S (size comp)) (u32 (getTs (latest his) + 1)) comp [].

(** The pairs of [check]: [acl[j].getEnd() <= acl[i].getStart()] for [i < j]. *)
Fixpoint check_loop (acl : list Op) : nat :=
  match acl with
  | [] => O
  | opi :: rest =>
      Nat.add (length (filter (λ opj, getEnd opj <= getStart opi) rest)) (check_loop rest)
  end.

(** Returns the result and the number of lines printed; the [return false] of the
    source is commented out. *)
Definition check (acl : list Op) : bool * nat :=
  if (length acl =? 1)%nat then (true, O) else (true, check_loop acl).

Definition try_merge (his : HistoryW) (acl : list Op) : bool * HistoryW :=
  match acl with
  | [] => (true, his)
  | op0 :: _ =>
      if getEnd op0 <? getStart (latest his) then (false, his)
      else (true, fold_left (λ h op, update op h) acl his)
  end.

Definition postput_section (time i seq : Z) (s : CC) : outcome :=
  match pending_list s !! i with
  | None => Undefined
  | Some op =>
      let op := setTs seq (setEnd time op) in
      let pending := delete i (pending_list s) in
      let completed := map_insert seq op (completed_list s) in
      let '(completed, acl) := truncate completed (history s) in
      let '(ok, n) := check acl in
      let s' his locked :=
        {| pending_list := pending; completed_list := completed; g_timer := g_timer s;
           g_id := g_id s; history := his; g_mutex := locked; errors := errors s + n |} in
      if negb ok then Locked (s' (history s) true)
      else
        let '(merged, his) := try_merge (history s) acl in
        if negb merged then Locked (s' his true) else Done (s' his false)
  end.

(** ** The handlers run alone *)

Definition enclave_preput (junk : Op) (s : CC) : Z * outcome :=
  let '(time, s) := getTime s in
  let '(i, s) := allocId s in
  (i, preput_section junk time i s).

Definition enclave_postput (i seq : Z) (s : CC) : outcome :=
  let '(time, s) := getTime s in postput_section time i seq s.

Definition enclave_preget (junk : Op) (s : CC) : Z * outcome :=
  let '(time, s) := getTime s in
  let '(i, s) := allocId s in
  (i, preget_section junk time i s).

Definition enclave_postget (fuel : nat) (i tw : Z) (pf : list Z) (s : CC) : option outcome :=
  let '(_, s) := getTime s in postget_section fuel i tw pf s.

(** ** Interleaved execution *)

(** A thread inside a handler, by the atomic section it executes next. *)
Inductive Thread :=
| TPrePut | TPrePut1 (time : Z) | TPrePut2 (time i : Z)
| TPostPut (i seq : Z) | TPostPut1 (time i seq : Z)
| TPreGet | TPreGet1 (time : Z) | TPreGet2 (time i : Z)
| TPostGet (i tw : Z) (pf : list Z) | TPostGet1 (i tw : Z) (pf : list Z).

(** The operation a thread is about to register or to finish. *)
Definition pre_id (t : Thread) : option Z :=
  match t with TPrePut2 _ i | TPreGet2 _ i => Some i | _ => None end.
Definition post_id (t : Thread) : option Z :=
  match t with
  | TPostPut i _ | TPostPut1 _ i _ | TPostGet i _ _ | TPostGet1 i _ _ => Some i
  | _ => None
  end.

Abbreviation pool := (gmap nat Thread).

(** Who calls the enclave: anybody, or the host as [db_impl.cpp] is written. *)
Inductive caller := AnyCaller | HostCaller.

(** The operation [i] is registered and nobody else is finishing it. *)
Definition finishable (s : CC) (p : pool) (i : Z) : Prop :=
  is_Some (pending_list s !! i) ∧ ∀ j t, p !! j = Some t → post_id t ≠ Some i.

(** The calls: any handler at any time, with any arguments; the host finishes
    only what it has begun. *)
Inductive spawn (who : caller) (s : CC) (p : pool) : Thread → Prop :=
| spawn_preput : spawn who s p TPrePut
| spawn_preget : spawn who s p TPreGet
| spawn_postput i seq :
    (who = HostCaller → finishable s p i) → spawn who s p (TPostPut i seq)
| spawn_postget i tw pf :
    (who = HostCaller → finishable s p i) → spawn who s p (TPostGet i tw pf).

(** A counter section: it needs only its own, always released, mutex. *)
Definition counter_section (t : Thread) (s : CC) : option (Thread * CC) :=
  match t with
  | TPrePut => let '(time, s) := getTime s in Some (TPrePut1 time, s)
  | TPrePut1 time => let '(i, s) := allocId s in Some (TPrePut2 time i, s)
  | TPreGet => let '(time, s) := getTime s in Some (TPreGet1 time, s)
  | TPreGet1 time => let '(i, s) := allocId s in Some (TPreGet2 time i, s)
  | TPostPut i seq => let '(time, s) := getTime s in Some (TPostPut1 time i seq, s)
  | TPostGet i tw pf => let '(_, s) := getTime s in Some (TPostGet1 i tw pf, s)
  | _ => None
  end.

(** A section under [g_mutex], the last one of its handler. *)
Definition locked_section (junk : Op) (fuel : nat) (t : Thread) (s : CC) : option outcome :=
  match t with
  | TPrePut2 time i => Some (preput_section junk time i s)
  | TPreGet2 time i => Some (preget_section junk time i s)
  | TPostPut1 time i seq => Some (postput_section time i seq s)
  | TPostGet1 i tw pf => postget_section fuel i tw pf s
  | _ => None
  end.

(** What an observer of the finished puts records when a section runs: the
    stamped operation under its sequence number, the first one to use it. *)
Definition observe (t : Thread) (s : CC) (W : gmap Z Op) : gmap Z Op :=
  match t with
  | TPostPut1 time i seq =>
      match pending_list s !! i with
      | Some op => map_insert seq (setTs seq (setEnd time op)) W
      | None => W
      end
  | _ => W
  end.

(** A configuration: the enclave, its threads, and the puts finished so far. A
    section that dereferences a missing entry has no step. *)
Definition config : Type := CC * pool * gmap Z Op.

Inductive step (who : caller) : config → config → Prop :=
| step_spawn s p W j t :
    p !! j = None → spawn who s p t → step who (s, p, W) (s, <[j := t]> p, W)
| step_counter s p W j t t' s' :
    p !! j = Some t → counter_section t s = Some (t', s') →
    step who (s, p, W) (s', <[j := t']> p, W)
| step_section s p W j t junk fuel s' :
    p !! j = Some t → g_mutex s = false →
    (locked_section junk fuel t s = Some (Done s') ∨
     locked_section junk fuel t s = Some (Locked s')) →
    step who (s, p, W) (s', delete j p, observe t s W).

Inductive steps (who : caller) : nat → config → config → Prop :=
| steps_refl c : steps who 0 c c
| steps_step n c c' c'' : steps who n c c' → step who c' c'' → steps who (S n) c c''.

(** The executions of the enclave from its load. *)
Definition runs (who : caller) (n : nat) (junk : Op) (s : CC) (p : pool) (W : gmap Z Op) : Prop :=
  steps who n (CC_init junk, ∅, ∅) (s, p, W).

Section Execution.
Context (who : caller).

(** Extending an execution at its end. *)
Lemma steps_spawn n c s p W j t : steps who n c (s, p, W) → p !! j = None → spawn who s p t →
  steps who (S n) c (s, <[j := t]> p, W).
Proof. intros H ??. eapply steps_step; [exact H|]. by constructor. Qed.
Lemma steps_counter n c s p W j t t' s' : steps who n c (s, p, W) → p !! j = Some t →
  counter_section t s = Some (t', s') → steps who (S n) c (s', <[j := t']> p, W).
Proof. intros H ??. eapply steps_step; [exact H|]. by eapply step_counter. Qed.
Lemma steps_section n c s p W j t junk fuel s' : steps who n c (s, p, W) → p !! j = Some t →
  g_mutex s = false → locked_section junk fuel t s = Some (Done s') →
  steps who (S n) c (s', delete j p, observe t s W).
Proof. intros H ???. eapply steps_step; [exact H|]. eapply step_section; eauto. Qed.
End Execution.

(** ** Lemmas on the sections *)

Lemma map_insert_Some k v m k' v' :
  map_insert k v m !! k' = Some v' → m !! k' = Some v' ∨ (k' = k ∧ v' = v ∧ m !! k = None).
Proof.
  unfold map_insert. destruct (m !! k) eqn:E; [by left|].
  rewrite lookup_insert_Some. intuition.
Qed.

Lemma map_insert_mono k v m k' : is_Some (m !! k') → is_Some (map_insert k v m !! k').
Proof.
  unfold map_insert. destruct (m !! k) eqn:E; [done|]. intros H.
  rewrite lookup_insert_is_Some'. by right.
Qed.

Lemma map_insert_is_Some k v m : is_Some (map_insert k v m !! k).
Proof.
  unfold map_insert. destruct (m !! k) eqn:E; [by rewrite E|].
  rewrite lookup_insert_eq. done.
Qed.

(** The keys [truncate] visits. *)
Definition ts_after (cur : Z) (k : nat) : Z := u32 (cur + Z.of_nat k).

Lemma ts_after_S cur k : ts_after (u32 (cur + 1)) k = ts_after cur (S k).
Proof.
  unfold ts_after, u32. rewrite Zplus_mod_idemp_l. f_equal. lia.
Qed.

(** [truncate] moves the longest run of consecutive timestamps starting at [cur]
    out of the map: [acl] holds their operations in order, the rest of the map is
    untouched, and the next timestamp is absent. *)
Lemma truncate_loop_spec fuel cur comp acl comp' acl' :
  is_u 32 cur → (size comp < fuel)%nat →
  truncate_loop fuel cur comp acl = (comp', acl') →
  ∃ run, acl' = acl ++ run ∧
    (∀ k op, run !! k = Some op → comp !! ts_after cur k = Some op) ∧
    (∀ k, (k < length run)%nat → comp' !! ts_after cur k = None) ∧
    comp' !! ts_after cur (length run) = None ∧
    (∀ x, (∀ k, (k < length run)%nat → x ≠ ts_after cur k) → comp' !! x = comp !! x) ∧
    comp' ⊆ comp.
Proof.
  revert cur comp acl. induction fuel as [|fuel IH]; intros cur comp acl Hc Hf H; [lia|].
  assert (H0 : ts_after cur 0 = cur).
  { unfold ts_after. rewrite Z.add_0_r. by apply u32_small. }
  cbn [truncate_loop] in H. destruct (comp !! cur) as [op|] eqn:E.
  - apply IH in H as (run & -> & Hrun & Hgone & Hnext & Hrest & Hsub); [|apply u32_range|].
    2:{ rewrite map_size_delete_Some by (by rewrite E).
        pose proof (map_size_ne_0_lookup_2 comp cur ltac:(by rewrite E)). lia. }
    exists (op :: run). rewrite <- app_assoc. split_and!; [done| | | | |].
    + intros [|k] op' Hk; simpl in Hk; [injection Hk as <-; by rewrite H0|].
      apply Hrun in Hk. rewrite ts_after_S in Hk. by apply lookup_delete_Some in Hk as [_ ?].
    + intros [|k] Hk; [|rewrite <- ts_after_S; apply Hgone; simpl in Hk; lia].
      rewrite H0. apply (lookup_weaken_None _ (delete cur comp)); [|done].
      apply lookup_delete_eq.
    + simpl. by rewrite <- ts_after_S.
    + intros x Hx. rewrite Hrest.
      * apply lookup_delete_ne. intros <-. apply (Hx 0%nat); [simpl; lia|by rewrite H0].
      * intros k Hk. rewrite ts_after_S. apply Hx. simpl. lia.
    + etrans; [exact Hsub|apply delete_subseteq].
  - simplify_eq. exists []. rewrite app_nil_r. split_and!; [done|done| | |done|done];
      simpl; [lia|by rewrite H0].
Qed.

Lemma truncate_spec comp his comp' acl :
  truncate comp his = (comp', acl) →
  let cur := u32 (getTs (latest his) + 1) in
  (∀ k op, acl !! k = Some op → comp !! ts_after cur k = Some op) ∧
  (∀ k, (k < length acl)%nat → comp' !! ts_after cur k = None) ∧
  comp' !! ts_after cur (length acl) = None ∧
  (∀ x, (∀ k, (k < length acl)%nat → x ≠ ts_after cur k) → comp' !! x = comp !! x) ∧
  comp' ⊆ comp.
Proof.
  intros H. apply truncate_loop_spec in H as (run & -> & H); [done|apply u32_range|lia].
Qed.

Lemma update_all_spec acl h :
  rh_list (fold_left (λ h op, update op h) acl h) = rh_list h ∧
  current (fold_left (λ h op, update op h) acl h) = List.last acl (current h).
Proof.
  induction acl as [|o acl IH] using rev_ind; [done|].
  rewrite fold_left_app, last_last. simpl. split; [apply IH|done].
Qed.

Lemma try_merge_true his acl h' : try_merge his acl = (true, h') →
  rh_list h' = rh_list his ∧ current h' = List.last acl (current his).
Proof.
  destruct acl as [|o acl]; [intros [= <-]; done|]. unfold try_merge.
  destruct (_ <? _); intros [= <-]. apply (update_all_spec (o :: acl)).
Qed.

Lemma try_merge_false his acl h' : try_merge his acl = (false, h') → h' = his.
Proof.
  destruct acl as [|o acl]; [done|]. unfold try_merge. by destruct (_ <? _); intros [= <-].
Qed.

(** The timestamp and interval of what the history points at after a merge. *)
Lemma last_run (P : Op → Prop) acl o :
  P o → (∀ k op, acl !! k = Some op → P op) → P (List.last acl o).
Proof.
  intros Ho Ha. destruct acl as [|o' acl'] using rev_ind; [done|]. rewrite last_last.
  apply (Ha (length acl')). by rewrite lookup_app_r, Nat.sub_diag by lia.
Qed.

(** ** The finished puts and the history *)

Lemma map_insert_lookup k v m x :
  map_insert k v m !! x = if decide (x = k) then Some (default v (m !! k)) else m !! x.
Proof.
  unfold map_insert. destruct (decide (x = k)) as [->|Hne]; destruct (m !! k) eqn:E; try done.
  - by rewrite lookup_insert_eq.
  - by rewrite lookup_insert_ne.
Qed.

Lemma map_insert_keep k v m x y : m !! x = Some y → map_insert k v m !! x = Some y.
Proof.
  intros Hx. rewrite map_insert_lookup. destruct (decide (x = k)) as [->|]; [|done].
  by rewrite Hx.
Qed.

Lemma map_insert_size k v m : (size (map_insert k v m) <= S (size m))%nat.
Proof. unfold map_insert. destruct (m !! k) eqn:E; [lia|]. by rewrite map_size_insert_None. Qed.

(** A map that holds [lo .. hi] has at least that many entries. *)
Lemma range_size (W : gmap Z Op) lo hi :
  (∀ t, lo <= t <= hi → is_Some (W !! t)) → hi - lo + 1 <= Z.of_nat (size W).
Proof.
  intros H. destruct (decide (lo <= hi)) as [Hle|]; [|lia].
  assert (Hsub : list_to_set (seqZ lo (hi - lo + 1)) ⊆ dom W).
  { intros t Ht%elem_of_list_to_set%elem_of_seqZ. apply elem_of_dom, H. lia. }
  apply subseteq_size in Hsub.
  rewrite size_list_to_set, length_seqZ, size_dom in Hsub by apply NoDup_seqZ. lia.
Qed.

(** The abstract reading of [completed_list] and of the last operation [o] of the
    history, against the puts [W] finished so far: the history stands at a
    timestamp all of whose predecessors have finished, at the operation that
    finished there, and every finished put outside [1 .. getTs o] is waiting. *)
Record Covers (W comp : gmap Z Op) (o : Op) : Prop := {
  cov_below t : 1 <= t <= getTs o → is_Some (W !! t);
  cov_latest : 0 < getTs o → W !! getTs o = Some o;
  cov_waiting k : (1 <= k <= getTs o → False) → comp !! k = W !! k;
}.

Lemma Covers_insert W comp o k v :
  Covers W comp o → Covers (map_insert k v W) (map_insert k v comp) o.
Proof.
  intros []. split.
  - intros t Ht. apply map_insert_mono. auto.
  - intros Ht. apply map_insert_keep. auto.
  - intros x Hx. rewrite !map_insert_lookup. destruct (decide (x = k)) as [->|]; [|auto].
    by rewrite cov_waiting0.
Qed.

(** The timestamps of a run do not wrap while fewer than [2^32] puts have finished. *)
Lemma run_no_wrap W comp o (run : list Op) :
  Covers W comp o → is_u 32 (getTs o) → Z.of_nat (size W) < 2 ^ 32 →
  (∀ k op, run !! k = Some op → comp !! ts_after (u32 (getTs o + 1)) k = Some op) →
  ∀ k, (k <= length run)%nat → getTs o + Z.of_nat k < 2 ^ 32 ∧
    ∀ t, getTs o < t <= getTs o + Z.of_nat k → is_Some (W !! t).
Proof.
  intros HC Hu Hsize Hrun. unfold is_u in Hu.
  induction k as [|k IH]; intros Hk; [split; [lia|]; intros; lia|].
  destruct IH as [Hlt Hin]; [lia|].
  destruct (lookup_lt_is_Some_2 run k ltac:(lia)) as [op Hop]. apply Hrun in Hop.
  rewrite ts_after_S in Hop. unfold ts_after in Hop.
  assert (Hall : ∀ t, 1 <= t <= getTs o + Z.of_nat k → is_Some (W !! t)).
  { intros t Ht. destruct (decide (t <= getTs o)); [|apply Hin; lia]. by apply HC; lia. }
  destruct (decide (getTs o + Z.of_nat (S k) = 2 ^ 32)) as [He|Hne].
  - exfalso. rewrite He in Hop. change (u32 (2 ^ 32)) with 0 in Hop.
    rewrite (cov_waiting _ _ _ HC) in Hop by lia.
    assert (Hs : getTs o + Z.of_nat k - 0 + 1 <= Z.of_nat (size W)); [|lia].
    apply range_size. intros t Ht. destruct (decide (t = 0)) as [->|]; [by rewrite Hop|]. apply Hall. lia.
  - split; [lia|]. intros t Ht.
    destruct (decide (t = getTs o + Z.of_nat (S k))) as [->|]; [|apply Hin; lia].
    rewrite u32_small in Hop by (unfold is_u; lia).
    rewrite (cov_waiting _ _ _ HC) in Hop by lia. by rewrite Hop.
Qed.

(** [truncate] takes exactly the finished puts that follow the history without a
    gap: afterwards the next timestamp has not finished. *)
Lemma truncate_covers W comp his comp' acl :
  Covers W comp (latest his) → is_u 32 (getTs (latest his)) → Z.of_nat (size W) < 2 ^ 32 →
  (∀ k op, comp !! k = Some op → getTs op = u32 k) →
  truncate comp his = (comp', acl) →
  getTs (List.last acl (latest his)) = getTs (latest his) + zlen acl ∧
  Covers W comp' (List.last acl (latest his)) ∧
  (getTs (List.last acl (latest his)) + 1 < 2 ^ 32 →
   W !! (getTs (List.last acl (latest his)) + 1) = None).
Proof.
  intros HC Hu Hsize Hts (Hrun & _ & Hnext & Hrest & _)%truncate_spec.
  set (o := latest his) in *. set (T := getTs o) in *.
  pose proof (run_no_wrap W comp o acl HC Hu Hsize Hrun) as Hwrap.
  fold T in Hwrap. pose proof Hu as Hu'. unfold is_u in Hu'.
  assert (Hkey : ∀ k, (k < length acl)%nat →
    ts_after (u32 (T + 1)) k = T + 1 + Z.of_nat k).
  { intros k Hk. rewrite ts_after_S. unfold ts_after.
    destruct (Hwrap (S k)) as [? _]; [lia|]. rewrite u32_small by (unfold is_u; lia). lia. }
  assert (Hlast : getTs (List.last acl o) = T + zlen acl ∧
    (acl ≠ [] → comp !! (T + zlen acl) = Some (List.last acl o))).
  { destruct acl as [|x acl _] using rev_ind; [rewrite zlen_nil; split; [simpl; lia|done]|].
    rewrite last_last. rewrite length_app in *. simpl in *.
    assert (Hx : comp !! (T + zlen (acl ++ [x])) = Some x).
    { rewrite <- (Hrun (length acl) x).
      - rewrite Hkey by lia. f_equal. unfold zlen. rewrite length_app. simpl. lia.
      - by rewrite lookup_app_r, Nat.sub_diag by lia. }
    split; [|done]. rewrite (Hts _ _ Hx), u32_small; [done|].
    destruct (Hwrap (length acl + 1)%nat) as [? _]; [lia|].
    unfold is_u, zlen. rewrite length_app. simpl. lia. }
  destruct Hlast as [Hlast Hop]. rewrite Hlast. split; [done|].
  destruct (Hwrap (length acl) ltac:(lia)) as [Htop Hrange].
  assert (Hout : ∀ x, (1 <= x <= T + zlen acl → False) → comp' !! x = W !! x).
  { intros x Hx. rewrite Hrest.
    - apply (cov_waiting _ _ _ HC). unfold zlen in Hx. lia.
    - intros k Hk ->. apply Hx. rewrite Hkey by done. unfold zlen. lia. }
  split; [split; rewrite Hlast|].
  - intros t Ht. destruct (decide (t <= T)); [by apply HC; fold T; lia|]. apply Hrange.
    unfold zlen in Ht. lia.
  - intros Hpos. destruct (decide (acl = [])) as [->|Hne].
    + rewrite zlen_nil, Z.add_0_r in *. by apply HC.
    + rewrite <- (cov_waiting _ _ _ HC); [by apply Hop|]. fold T. unfold zlen.
      destruct acl; [done|]. simpl. lia.
  - done.
  - intros Hlt. rewrite <- Hout by lia. rewrite <- Hnext, ts_after_S. f_equal.
    unfold ts_after. rewrite u32_small by (unfold is_u, zlen in *; lia). unfold zlen. lia.
Qed.

(** ** The invariant *)

Definition op_interval (who : caller) (hi : Z) (op : Op) : Prop :=
  1 <= start op <= hi ∧ 1 <= end_ op <= hi ∧ (who = HostCaller → start op < end_ op).

Definition thread_ok (who : caller) (s : CC) (t : Thread) : Prop :=
  match t with
  | TPrePut1 time | TPreGet1 time => 1 <= time <= g_timer s
  | TPrePut2 time i | TPreGet2 time i =>
      1 <= time <= g_timer s ∧ 1 <= i <= g_id s ∧ pending_list s !! i = None
  | TPostPut i _ | TPostGet i _ _ | TPostGet1 i _ _ =>
      who = HostCaller → is_Some (pending_list s !! i)
  | TPostPut1 time i _ => 1 <= time <= g_timer s ∧
      (who = HostCaller → ∃ op, pending_list s !! i = Some op ∧ start op < time)
  | TPrePut | TPreGet => True
  end.

Record Inv (who : caller) (n : nat) (s : CC) (p : pool) (W : gmap Z Op) : Prop := {
  inv_timer : 0 <= g_timer s <= Z.of_nat n;
  inv_id : 0 <= g_id s <= Z.of_nat n;
  inv_finished : Z.of_nat (size W) <= Z.of_nat n;
  inv_pending k op : pending_list s !! k = Some op →
    id op = k ∧ 1 <= k <= g_id s ∧ 1 <= start op <= g_timer s;
  inv_completed k op : completed_list s !! k = Some op →
    getTs op = u32 k ∧ op_interval who (g_timer s) op;
  inv_history : is_u 32 (getTs (latest (history s)));
  inv_rh : rh_list (history s) = ∅;
  inv_threads j t : p !! j = Some t → thread_ok who s t;
  inv_pre j1 j2 t1 t2 i : p !! j1 = Some t1 → p !! j2 = Some t2 →
    pre_id t1 = Some i → pre_id t2 = Some i → j1 = j2;
  inv_post : who = HostCaller → ∀ j1 j2 t1 t2 i, p !! j1 = Some t1 → p !! j2 = Some t2 →
    post_id t1 = Some i → post_id t2 = Some i → j1 = j2;
  (** While the mutex is free the history is exactly as far as the finished puts
      allow. *)
  inv_covers : g_mutex s = false →
    Covers W (completed_list s) (latest (history s)) ∧
    (getTs (latest (history s)) + 1 < 2 ^ 32 → W !! (getTs (latest (history s)) + 1) = None);
}.

(** Preservation, section by section; the counters do not wrap within [2^32 - 1]
    steps. *)
Section Preservation.
Context (who : caller) (n : nat) (Hn : Z.of_nat (S n) < 2 ^ 32).

Lemma u32_next x : 0 <= x <= Z.of_nat n → u32 (x + 1) = x + 1.
Proof. intros. apply u32_small. unfold is_u. lia. Qed.

(** Counters passing keep every other thread's obligations. *)
Lemma thread_ok_time s t x :
  g_timer s <= x → thread_ok who s t → thread_ok who (with_timer x s) t.
Proof. intros Hx. destruct t; simpl; try done; intuition lia. Qed.

Lemma thread_ok_id s t x : g_id s <= x → thread_ok who s t → thread_ok who (with_id x s) t.
Proof. intros Hx. destruct t; simpl; try done; intuition lia. Qed.

(** A property of the threads of a pool after one entry changes. *)
Lemma pool_insert (P : Thread → Prop) (p : pool) j t :
  P t → (∀ j' t', p !! j' = Some t' → P t') →
  ∀ j' t', <[j := t]> p !! j' = Some t' → P t'.
Proof. intros Ht Hp j' t' [[_ <-]|[_ ?]]%lookup_insert_Some; eauto. Qed.

(** Uniqueness of the identifiers [f] reads off the threads, after one entry
    changes to one whose identifier nobody else has, and after one is removed. *)
Lemma pool_unique (f : Thread → option Z) (p : pool) j t :
  (∀ j1 j2 t1 t2 i, p !! j1 = Some t1 → p !! j2 = Some t2 →
   f t1 = Some i → f t2 = Some i → j1 = j2) →
  (∀ i j' t', f t = Some i → j' ≠ j → p !! j' = Some t' → f t' ≠ Some i) →
  ∀ j1 j2 t1 t2 i, <[j := t]> p !! j1 = Some t1 → <[j := t]> p !! j2 = Some t2 →
   f t1 = Some i → f t2 = Some i → j1 = j2.
Proof.
  intros Hp Ht j1 j2 t1 t2 i [[<- <-]|[N1 L1]]%lookup_insert_Some
    [[<- <-]|[N2 L2]]%lookup_insert_Some F1 F2; [done| | |eauto].
  - by destruct (Ht i j2 t2).
  - by destruct (Ht i j1 t1).
Qed.

Lemma pool_unique_delete (f : Thread → option Z) (p : pool) j :
  (∀ j1 j2 t1 t2 i, p !! j1 = Some t1 → p !! j2 = Some t2 →
   f t1 = Some i → f t2 = Some i → j1 = j2) →
  ∀ j1 j2 t1 t2 i, delete j p !! j1 = Some t1 → delete j p !! j2 = Some t2 →
   f t1 = Some i → f t2 = Some i → j1 = j2.
Proof. intros Hp j1 j2 t1 t2 i [_ ?]%lookup_delete_Some [_ ?]%lookup_delete_Some. eauto. Qed.

Lemma Inv_spawn s p W j t :
  Inv who n s p W → p !! j = None → spawn who s p t → Inv who (S n) s (<[j := t]> p) W.
Proof using Type.
  clear Hn.
  intros [] Hj Hsp. split; try done; try lia.
  - apply (pool_insert (thread_ok who s)); [|done].
    destruct Hsp as [| |i seq Hf|i tw pf Hf]; simpl; try done; apply Hf.
  - apply pool_unique; [done|]. by destruct Hsp.
  - intros Hw. apply pool_unique; [by apply inv_post0|].
    destruct Hsp as [| |i seq Hf|i tw pf Hf]; simpl; try done;
      intros ? j' t' [= <-] _; by apply Hf.
Qed.

(** A tick of the clock on behalf of thread [j]. *)
Lemma Inv_tick s p W j t t' :
  Inv who n s p W → p !! j = Some t → pre_id t' = None → post_id t' = post_id t →
  thread_ok who (with_timer (g_timer s + 1) s) t' →
  Inv who (S n) (with_timer (u32 (g_timer s + 1)) s) (<[j := t']> p) W.
Proof.
  intros [] Hj Hpre Hpost Hok. rewrite u32_next by done.
  split; simpl; try done; try lia.
  - intros k op Hk. apply inv_pending0 in Hk. lia.
  - intros k op Hk. apply inv_completed0 in Hk as [? (?&?&?)]. split; [done|].
    split_and!; [lia..|done].
  - apply (pool_insert (thread_ok who _)); [done|]. intros j' t'' Hj'.
    apply thread_ok_time; [lia|eauto].
  - apply pool_unique; [done|]. intros i j' t''. by rewrite Hpre.
  - intros Hw. apply pool_unique; [by apply inv_post0|]. intros i j' t'' Hi Hne Hj' Hi'.
    rewrite Hpost in Hi. eauto.
Qed.

(** A new identifier for thread [j]. *)
Lemma Inv_alloc s p W j t t' :
  Inv who n s p W → p !! j = Some t → pre_id t' = Some (g_id s + 1) → post_id t' = None →
  thread_ok who (with_id (g_id s + 1) s) t' →
  Inv who (S n) (with_id (u32 (g_id s + 1)) s) (<[j := t']> p) W.
Proof.
  intros [] Hj Hpre Hpost Hok. rewrite u32_next by done.
  split; simpl; try done; try lia.
  - intros k op Hk. apply inv_pending0 in Hk. lia.
  - apply (pool_insert (thread_ok who _)); [done|]. intros j' t'' Hj'.
    apply thread_ok_id; [lia|eauto].
  - apply pool_unique; [done|]. intros i j' t'' Hi Hne Hj' Hi'.
    rewrite Hpre in Hi. simplify_eq. apply inv_threads0 in Hj'.
    destruct t''; simpl in Hi', Hj'; simplify_eq; lia.
  - intros Hw. apply pool_unique; [by apply inv_post0|]. intros i j' t''. by rewrite Hpost.
Qed.

Lemma fresh_id s p W : Inv who n s p W → pending_list s !! (g_id s + 1) = None.
Proof.
  intros []. destruct (pending_list s !! _) eqn:E; [|done]. apply inv_pending0 in E. lia.
Qed.

Lemma Inv_counter s p W j t t' s' :
  Inv who n s p W → p !! j = Some t → counter_section t s = Some (t', s') →
  Inv who (S n) s' (<[j := t']> p) W.
Proof.
  intros HI Hj Hc. pose proof (inv_threads _ _ _ _ _ HI _ _ Hj) as Hok.
  pose proof (inv_timer _ _ _ _ _ HI). pose proof (inv_id _ _ _ _ _ HI).
  destruct t; simpl in Hc; simplify_eq; unfold getTime, allocId in *; simplify_eq/=.
  1,3,4,6: eapply Inv_tick; try done; simpl; rewrite ?u32_next by done; try lia; try done.
  - split; [lia|]. intros Hw. destruct (Hok Hw) as [op Hop]. exists op. split; [done|].
    apply (inv_pending _ _ _ _ _ HI) in Hop. lia.
  - eapply Inv_alloc; simpl; rewrite ?u32_next by done; try done.
    split; [lia|]. split; [lia|]. by eapply fresh_id.
  - eapply Inv_alloc; simpl; rewrite ?u32_next by done; try done.
    split; [lia|]. split; [lia|]. by eapply fresh_id.
Qed.

(** Registering operation [i], on behalf of the thread [j] that holds it. *)
Lemma Inv_register s p W j t i op :
  Inv who n s p W → p !! j = Some t → pre_id t = Some i →
  id op = i → 1 <= i <= g_id s → 1 <= start op <= g_timer s → pending_list s !! i = None →
  Inv who (S n) (with_pending (map_insert i op (pending_list s)) s) (delete j p) W.
Proof using Type.
  clear Hn.
  intros [] Hj Hpre Hid Hi Hs Hnone. unfold map_insert. rewrite Hnone.
  split; simpl; try done; try lia.
  - intros k op' [[<- <-]|[_ Hk]]%lookup_insert_Some; [done|by apply inv_pending0].
  - intros j' t' [Hne Hj']%lookup_delete_Some. pose proof (inv_threads0 _ _ Hj') as Hok.
    assert (Hpi : pre_id t' ≠ Some i) by (intros Hi'; apply Hne; eauto).
    destruct t'; simpl in Hok, Hpi |- *; try done;
      try (intros Hw; rewrite lookup_insert_is_Some'; right; by apply Hok);
      try (rewrite lookup_insert_ne by congruence; done).
    destruct Hok as [? Hok]. split; [done|]. intros Hw. destruct (Hok Hw) as (op' & Hop' & ?).
    exists op'. split; [|done]. rewrite lookup_insert_ne; congruence.
  - by apply pool_unique_delete.
  - intros Hw. by apply pool_unique_delete, inv_post0.
Qed.

(** Finishing operation [i]: whatever happens to the completed operations and the
    history, the other threads are not concerned. *)
Lemma finish_threads s p W j t i s' :
  Inv who n s p W → p !! j = Some t → post_id t = Some i →
  pending_list s' = delete i (pending_list s) → g_timer s' = g_timer s → g_id s' = g_id s →
  ∀ j' t', delete j p !! j' = Some t' → thread_ok who s' t'.
Proof using Type.
  clear Hn.
  intros [] Hj Hpost Hp Ht Hi j' t' [Hne Hj']%lookup_delete_Some.
  pose proof (inv_threads0 _ _ Hj') as Hok.
  assert (Hpi : who = HostCaller → post_id t' ≠ Some i)
    by (intros Hw Hi'; apply Hne; eauto).
  destruct t'; simpl in Hok, Hpi |- *; rewrite ?Hp, ?Ht, ?Hi; try done.
  all: try (intros Hw; specialize (Hpi Hw); rewrite lookup_delete_ne by congruence; auto; done).
  - destruct Hok as (? & ? & Hok); split_and!; [lia..|]; rewrite lookup_delete_None; by right.
  - destruct Hok as [? Hok]. split; [done|]. intros Hw. specialize (Hpi Hw).
    rewrite lookup_delete_ne by congruence. auto.
  - destruct Hok as (? & ? & Hok); split_and!; [lia..|]; rewrite lookup_delete_None; by right.
Qed.

Lemma postput_completed s p W time i seq op :
  Inv who n s p W → pending_list s !! i = Some op → 1 <= time <= g_timer s →
  (who = HostCaller → start op < time) →
  ∀ k op', map_insert seq (setTs seq (setEnd time op)) (completed_list s) !! k = Some op' →
  getTs op' = u32 k ∧ op_interval who (g_timer s) op'.
Proof using Type.
  clear Hn.
  intros [] Hop Ht Hst k op' [Hk|(-> & -> & _)]%map_insert_Some; [by apply inv_completed0|].
  apply inv_pending0 in Hop. split; [done|]. unfold op_interval. simpl. split_and!; [lia..|done].
Qed.

(** What [postput_section] leaves behind: merged, or blocked by a batch whose first
    operation ended before the last recorded one started. *)
Lemma postput_cases s time i seq :
  match pending_list s !! i with
  | None => postput_section time i seq s = Undefined
  | Some op => ∃ comp' acl s',
      truncate (map_insert seq (setTs seq (setEnd time op)) (completed_list s)) (history s)
        = (comp', acl) ∧
      pending_list s' = delete i (pending_list s) ∧ completed_list s' = comp' ∧
      g_timer s' = g_timer s ∧ g_id s' = g_id s ∧ rh_list (history s') = rh_list (history s) ∧
      ((postput_section time i seq s = Done s' ∧ g_mutex s' = false ∧
        latest (history s') = List.last acl (latest (history s)) ∧
        ∀ o, head acl = Some o → getStart (latest (history s)) <= getEnd o) ∨
       (postput_section time i seq s = Locked s' ∧ g_mutex s' = true ∧
        history s' = history s ∧
        ∃ o, head acl = Some o ∧ getEnd o < getStart (latest (history s))))
  end.
Proof using Type.
  clear Hn.
  unfold postput_section. destruct (pending_list s !! i) as [op|]; [|done].
  destruct (truncate _ _) as [comp' acl] eqn:Et.
  assert (Hchk : ∃ m, check acl = (true, m)) by (unfold check; destruct (_ =? _)%nat; eauto).
  destruct Hchk as [m ->]. simpl. destruct (try_merge (history s) acl) as [[] h'] eqn:Em.
  - pose proof (try_merge_true _ _ _ Em) as [Hrh Hcur].
    exists comp', acl, {| pending_list := delete i (pending_list s); completed_list := comp';
      g_timer := g_timer s; g_id := g_id s; history := h'; g_mutex := false;
      errors := (errors s + m)%nat |}.
    split_and!; [done..|]. left. split_and!; [done..|].
    intros o Ho. destruct acl as [|o' acl]; [done|]. simplify_eq/=.
    by destruct (Z.ltb_spec (getEnd o) (getStart (latest (history s)))).
  - pose proof (try_merge_false _ _ _ Em) as ->.
    exists comp', acl, {| pending_list := delete i (pending_list s); completed_list := comp';
      g_timer := g_timer s; g_id := g_id s; history := history s; g_mutex := true;
      errors := (errors s + m)%nat |}.
    split_and!; [done..|]. right. split_and!; [done..|].
    destruct acl as [|o acl]; [done|]. exists o. split; [done|]. simpl in Em.
    by destruct (Z.ltb_spec (getEnd o) (getStart (latest (history s)))).
Qed.

Lemma Inv_postput s p W j time i seq s' :
  Inv who n s p W → p !! j = Some (TPostPut1 time i seq) → g_mutex s = false →
  (postput_section time i seq s = Done s' ∨ postput_section time i seq s = Locked s') →
  Inv who (S n) s' (delete j p) (observe (TPostPut1 time i seq) s W).
Proof.
  intros HI Hj Hm Hsec. pose proof (postput_cases s time i seq) as Hcase.
  unfold observe. destruct (pending_list s !! i) as [op|] eqn:Hop;
    [|rewrite Hcase in Hsec; by destruct Hsec].
  destruct Hcase as (comp' & acl & s1 & Et & Hp & Hc & Ht & Hi & Hrh & Hh).
  assert (s1 = s') as -> by (destruct Hh as [[? _]|[? _]], Hsec; congruence).
  destruct (inv_threads _ _ _ _ _ HI _ _ Hj) as [Htime Hstart].
  assert (Hst : who = HostCaller → start op < time).
  { intros Hw. destruct (Hstart Hw) as (op' & ? & ?). by simplify_eq. }
  pose proof (postput_completed _ _ _ _ _ seq _ HI Hop Htime Hst) as Hcomp.
  pose proof (finish_threads s p W j _ i s' HI Hj eq_refl Hp Ht Hi) as Hthr.
  destruct (inv_covers _ _ _ _ _ HI Hm) as [HC _].
  pose proof (map_insert_size seq (setTs seq (setEnd time op)) W) as Hsize.
  pose proof (inv_finished _ _ _ _ _ HI) as Hfin. pose proof (inv_history _ _ _ _ _ HI) as Hu.
  pose proof (truncate_covers _ _ _ _ _ (Covers_insert _ _ _ seq (setTs seq (setEnd time op)) HC)
    Hu ltac:(lia) (λ k o H, proj1 (Hcomp k o H)) Et) as (_ & HC' & Hnext).
  apply truncate_spec in Et as (Hrun & _ & _ & _ & Hsub).
  destruct HI. split; rewrite ?Ht, ?Hi, ?Hp, ?Hrh; try lia; try done.
  - intros k o [_ Hk]%lookup_delete_Some. by apply inv_pending0.
  - intros k o Hk. eapply Hcomp, lookup_weaken; [exact Hk|by rewrite Hc].
  - destruct Hh as [(_ & _ & -> & _)|(_ & _ & -> & _)]; [|done].
    apply (last_run (λ o, is_u 32 (getTs o))); [done|]. intros k o Ho.
    apply Hrun, Hcomp in Ho as [-> _]. apply u32_range.
  - by apply pool_unique_delete.
  - intros Hw. by apply pool_unique_delete, inv_post0.
  - intros Hfree. destruct Hh as [(_ & _ & -> & _)|(_ & ? & _)]; [|congruence]. by rewrite Hc.
Qed.

(** Finishing a get: the operation leaves, and nothing else changes. *)
Lemma postget_cases fuel i tw pf s s' :
  (postget_section fuel i tw pf s = Some (Done s') ∨
   postget_section fuel i tw pf s = Some (Locked s')) →
  ∃ b, s' = with_mutex b (with_pending (delete i (pending_list s)) s) ∧
    (b = false → g_mutex s = false).
Proof using Type.
  clear Hn.
  unfold postget_section. destruct (pending_list s !! i) as [op|]; [|by intros [?|?]].
  destruct (nmt _ _ _ _) as [[]| |]; intros [[= <-]|[= <-]].
  - exists (g_mutex s). done.
  - by exists true.
Qed.

Lemma Inv_postget s p W j fuel i tw pf s' :
  Inv who n s p W → p !! j = Some (TPostGet1 i tw pf) →
  (postget_section fuel i tw pf s = Some (Done s') ∨
   postget_section fuel i tw pf s = Some (Locked s')) →
  Inv who (S n) s' (delete j p) W.
Proof using Type.
  clear Hn.
  intros HI Hj (b & -> & Hb)%postget_cases.
  pose proof (finish_threads s p W j _ i
    (with_mutex b (with_pending (delete i (pending_list s)) s)) HI Hj eq_refl
    eq_refl eq_refl eq_refl) as Hthr.
  destruct HI. split; simpl; try lia; try done.
  - intros k o [_ Hk]%lookup_delete_Some. by apply inv_pending0.
  - by apply pool_unique_delete.
  - intros Hw. by apply pool_unique_delete, inv_post0.
  - auto.
Qed.

Lemma Inv_step s p W s' p' W' :
  Inv who n s p W → step who (s, p, W) (s', p', W') → Inv who (S n) s' p' W'.
Proof.
  intros HI Hst. inversion Hst as [? ? ? j t Hj Hsp|? ? ? j t t' ? Hj Hc|
    ? ? ? j t junk fuel ? Hj Hm Hs]; subst.
  - by apply Inv_spawn.
  - by eapply Inv_counter.
  - pose proof (inv_threads _ _ _ _ _ HI _ _ Hj) as Hok.
    destruct t; simpl in Hs; try (by destruct Hs).
    + destruct Hs as [[= <-]|]; [|done]. destruct Hok as (? & ? & ?). by eapply Inv_register.
    + eapply Inv_postput; [done..|]. destruct Hs as [[= ->]|[= ->]]; auto.
    + destruct Hs as [[= <-]|]; [|done]. destruct Hok as (? & ? & ?). by eapply Inv_register.
    + by eapply Inv_postget.
Qed.
End Preservation.

Lemma Inv_init who junk : Inv who 0 (CC_init junk) ∅ ∅.
Proof.
  split; try done; simpl; try (unfold is_u, u32; rewrite ?Z.mod_0_l; lia).
  intros _. split; [|done]. split; simpl; unfold u32; rewrite ?Z.mod_0_l by done; try done; lia.
Qed.

Lemma Inv_steps who n m s p W s' p' W' :
  steps who m (s, p, W) (s', p', W') → Inv who n s p W → Z.of_nat (n + m) < 2 ^ 32 →
  Inv who (n + m) s' p' W'.
Proof.
  remember (s, p, W) as c eqn:E. remember (s', p', W') as c' eqn:E'. intros Hs.
  revert s p W s' p' W' E E'.
  induction Hs as [c|m c [[s1 p1] W1] c2 Hs IH Hst]; intros s p W s' p' W' -> E' HI Hn.
  - simplify_eq. by rewrite Nat.add_0_r.
  - subst c2. rewrite Nat.add_succ_r in *. eapply Inv_step; [done| |done].
    eapply IH; [done..|lia].
Qed.

Lemma Inv_runs who n junk s p W :
  runs who n junk s p W → Z.of_nat n < 2 ^ 32 → Inv who n s p W.
Proof. intros Hs Hn. apply (Inv_steps who 0 n _ _ _ _ _ _ Hs); [apply Inv_init|done]. Qed.

(** ** The remaining behaviours *)

(** Once a section has returned with the mutex held, only counters move. *)
Lemma locked_forever who m s p W s' p' W' :
  steps who m (s, p, W) (s', p', W') → g_mutex s = true →
  g_mutex s' = true ∧ pending_list s' = pending_list s ∧
  completed_list s' = completed_list s ∧ history s' = history s.
Proof.
  remember (s, p, W) as c eqn:E. remember (s', p', W') as c' eqn:E'. intros Hs.
  revert s p W s' p' W' E E'.
  induction Hs as [c|m c [[s1 p1] W1] c2 Hs IH Hst]; intros s p W s' p' W' -> E' Hm;
    [by simplify_eq|]. subst c2.
  destruct (IH s p W s1 p1 W1 eq_refl eq_refl Hm) as (Hm' & Hp & Hc & Hh).
  inversion Hst as [? ? ? j t Hj Hsp|? ? ? j t t' ? Hj Ht|? ? ? j t junk fuel ? Hj Hfree Hsec];
    subst; [done| |congruence].
  destruct t; simpl in Ht; unfold getTime, allocId in Ht; simplify_eq; done.
Qed.

(** An identifier no thread holds any more, at most the last one given out, is
    never registered again. *)
Record Issued (i : Z) (op : Op) (s : CC) (p : pool) : Prop := {
  iss_id : 1 <= i <= g_id s;
  iss_pre j t : p !! j = Some t → pre_id t ≠ Some i;
  iss_op o : pending_list s !! i = Some o → o = op;
}.

Lemma Issued_step who n i op s p W s' p' W' :
  Z.of_nat (S n) < 2 ^ 32 → Inv who n s p W → Issued i op s p →
  step who (s, p, W) (s', p', W') → Issued i op s' p'.
Proof.
  intros Hn HI [Hid Hpre Hop] Hst. pose proof (inv_id _ _ _ _ _ HI) as Hg.
  inversion Hst as [? ? ? j t Hj Hsp|? ? ? j t t' ? Hj Hc|? ? ? j t junk fuel ? Hj Hm Hs]; subst.
  - split; try done. apply (pool_insert (λ t, pre_id t ≠ Some i)); [|done]. by destruct Hsp.
  - destruct t; simpl in Hc; unfold getTime, allocId in Hc; simplify_eq; split; simpl;
      rewrite ?(u32_next n Hn) by done; try done; try lia;
      apply (pool_insert (λ t, pre_id t ≠ Some i)); simpl; try done; intros [= ?]; lia.
  - assert (Hdel : ∀ j' t', delete j p !! j' = Some t' → pre_id t' ≠ Some i)
      by (intros j' t' [_ ?]%lookup_delete_Some; eauto).
    pose proof (Hpre _ _ Hj) as Hne. destruct t; simpl in Hs, Hne; try (by destruct Hs).
    + destruct Hs as [[= <-]|]; [|done]. split; simpl; try done.
      intros o. rewrite map_insert_lookup, decide_False by congruence. auto.
    + pose proof (postput_cases s time i0 seq) as Hcase.
      destruct (pending_list s !! i0); [|rewrite Hcase in Hs; by destruct Hs].
      destruct Hcase as (? & ? & s1 & _ & Hp & _ & _ & Hi & _ & Hh).
      assert (s1 = s') as -> by (destruct Hh as [[? _]|[? _]], Hs; congruence).
      split; rewrite ?Hi, ?Hp; try done. intros o' [_ ?]%lookup_delete_Some. auto.
    + destruct Hs as [[= <-]|]; [|done]. split; simpl; try done.
      intros o. rewrite map_insert_lookup, decide_False by congruence. auto.
    + apply postget_cases in Hs as (b & -> & _). split; simpl; try done.
      intros o [_ ?]%lookup_delete_Some. auto.
Qed.

Lemma Issued_steps who n m i op s p W s' p' W' :
  steps who m (s, p, W) (s', p', W') → Z.of_nat (n + m) < 2 ^ 32 → Inv who n s p W →
  Issued i op s p → Issued i op s' p'.
Proof.
  remember (s, p, W) as c eqn:E. remember (s', p', W') as c' eqn:E'. intros Hs.
  revert s p W s' p' W' E E'.
  induction Hs as [c|m c [[s1 p1] W1] c2 Hs IH Hst]; intros s p W s' p' W' -> E' Hn HI Hi;
    [by simplify_eq|]. subst c2. rewrite Nat.add_succ_r in Hn.
  eapply Issued_step; [exact Hn| |by eapply IH; [..|lia| |]|exact Hst].
  eapply Inv_steps; [exact Hs|done|lia].
Qed.

(** The first operation [truncate] takes, and that it is gone from the map. *)
Lemma truncate_head comp his :
  head (truncate comp his).2 = comp !! u32 (getTs (latest his) + 1) ∧
  (is_Some (head (truncate comp his).2) →
   (truncate comp his).1 !! u32 (getTs (latest his) + 1) = None).
Proof.
  destruct (truncate comp his) as [comp' acl] eqn:Et. simpl.
  apply truncate_spec in Et as (Hrun & Hgone & Hnext & Hrest & _).
  set (cur := u32 (getTs (latest his) + 1)) in *.
  assert (H0 : ts_after cur 0 = cur).
  { unfold ts_after. rewrite Z.add_0_r. apply u32_small, u32_range. }
  destruct acl as [|o acl]; simpl in *.
  - rewrite H0 in Hnext. rewrite Hrest in Hnext by lia. split; [done|]. by intros [??].
  - rewrite <- (Hrun 0%nat o eq_refl), H0. split; [done|]. intros _.
    rewrite <- (Hgone 0%nat), H0; [done|lia].
Qed.

Lemma check_loop_zero acl :
  check_loop acl = 0%nat ↔
  ∀ i j oi oj, (i < j)%nat → acl !! i = Some oi → acl !! j = Some oj → getStart oi < getEnd oj.
Proof.
  induction acl as [|o acl IH]; simpl; [done|].
  rewrite Nat.eq_add_0, IH, filter_length_0. split.
  - intros [Hf Hl] [|i] [|j] oi oj Hij Hi Hj; simpl in *; try lia.
    + simplify_eq. apply Z.nle_gt, Hf. by eapply list_elem_of_lookup_2.
    + eapply Hl; [|done..]. lia.
  - intros H. split.
    + intros x [j Hj]%list_elem_of_lookup_1 Hle.
      specialize (H 0%nat (S j) o x ltac:(lia) eq_refl Hj). lia.
    + intros i j oi oj Hij Hi Hj. apply (H (S i) (S j)); [lia|done..].
Qed.

Lemma lpad_inner_spec fuel i pfi :
  lpad_inner fuel i pfi = if decide (fuel ≠ 0%nat ∧ pfi <= i) then Some tt else None.
Proof.
  induction fuel as [|fuel IH]; cbn [lpad_inner].
  - rewrite decide_False; [done|]. tauto.
  - destruct (Z.ltb_spec i pfi).
    + rewrite IH, !decide_False; [done|lia|lia].
    + rewrite decide_True; [done|]. split; [done|lia].
Qed.

Lemma lpad_outer_spec fuel i pf b :
  lpad_outer (S fuel) i pf = Some b ↔
  b = true ∧ ∀ k x, pf !! k = Some x → x <= i + Z.of_nat k.
Proof.
  revert i. induction pf as [|x pf IH]; intros i; simpl.
  - split; [intros [= <-]; done|]. by intros [-> _].
  - destruct (Z.ltb_spec i x) as [Hlt|Hle].
    + rewrite lpad_inner_spec, decide_False by lia. split; [done|].
      intros [_ H]. specialize (H 0%nat x eq_refl). lia.
    + rewrite IH. split; intros [-> H]; split; try done.
      * intros [|k] y Hk; simpl in Hk; [simplify_eq; lia|]. apply H in Hk. lia.
      * intros k y Hk. apply (H (S k)) in Hk. lia.
Qed.

(** ** Properties *)

(** An operation whose unset fields hold zero, for the witnesses. *)
Definition zero_op : Op :=
  {| id := 0; key := 0; val := 0; ts_att := 0; ts_rw := 0; start := 0; end_ := 0 |}.

(** Advances an execution by a counter section, or by a section under the mutex. *)
Ltac run_counter H j := eapply (steps_counter _ _ _ _ _ _ j) in H; [|reflexivity..].
Ltac run_section H j :=
  eapply (steps_section _ _ _ _ _ _ j _ zero_op 0%nat) in H; [|reflexivity..].
(** Decides that the host may finish an operation, in a concrete pool. *)
Ltac solve_finishable :=
  intros _; split; [by eexists|];
  match goal with |- ∀ j t, ?p !! j = Some t → post_id t ≠ Some ?i =>
    apply (bool_decide_unpack (map_Forall (λ _ t, post_id t ≠ Some i) p)) end;
  vm_compute; exact I.


(** Two puts by the host, finished in the opposite order of their sequence numbers:
    the second waits in [completed_list] until the first arrives. *)
Lemma out_of_order : ∃ s p W, runs HostCaller 13 zero_op s p W ∧
  completed_list s !! 2 = Some (setTs 2 (setEnd 2 (Op_make zero_op 1 1))) ∧
  W !! 2 = Some (setTs 2 (setEnd 2 (Op_make zero_op 1 1))) ∧
  p !! 1%nat = Some (TPostPut1 4 2 1) ∧ g_mutex s = false ∧
  getTs (latest (history s)) = 0.
Proof.
  pose proof (steps_refl HostCaller (CC_init zero_op, ∅, ∅)) as H.
  apply (steps_spawn _ _ _ _ _ _ 0%nat TPrePut) in H; [|reflexivity|apply spawn_preput].
  run_counter H 0%nat. run_counter H 0%nat. run_section H 0%nat.
  apply (steps_spawn _ _ _ _ _ _ 0%nat (TPostPut 1 2)) in H;
    [|reflexivity|apply spawn_postput; solve_finishable].
  run_counter H 0%nat. run_section H 0%nat.
  apply (steps_spawn _ _ _ _ _ _ 1%nat TPrePut) in H; [|reflexivity|apply spawn_preput].
  run_counter H 1%nat. run_counter H 1%nat. run_section H 1%nat.
  apply (steps_spawn _ _ _ _ _ _ 1%nat (TPostPut 2 1)) in H;
    [|reflexivity|apply spawn_postput; solve_finishable].
  run_counter H 1%nat.
  eexists _, _, _. split; [exact H|]. split_and!; reflexivity.
Qed.



(** After [out_of_order], the first put arrives and both are recorded. *)
Lemma caught_up : ∃ s p W, runs HostCaller 14 zero_op s p W ∧ g_mutex s = false ∧
  getTs (latest (history s)) = 2.
Proof.
  pose proof (steps_refl HostCaller (CC_init zero_op, ∅, ∅)) as H.
  apply (steps_spawn _ _ _ _ _ _ 0%nat TPrePut) in H; [|reflexivity|apply spawn_preput].
  run_counter H 0%nat. run_counter H 0%nat. run_section H 0%nat.
  apply (steps_spawn _ _ _ _ _ _ 0%nat (TPostPut 1 2)) in H;
    [|reflexivity|apply spawn_postput; solve_finishable].
  run_counter H 0%nat. run_section H 0%nat.
  apply (steps_spawn _ _ _ _ _ _ 1%nat TPrePut) in H; [|reflexivity|apply spawn_preput].
  run_counter H 1%nat. run_counter H 1%nat. run_section H 1%nat.
  apply (steps_spawn _ _ _ _ _ _ 1%nat (TPostPut 2 1)) in H;
    [|reflexivity|apply spawn_postput; solve_finishable].
  run_counter H 1%nat. run_section H 1%nat.
  eexists _, _, _. split; [exact H|]. split; reflexivity.
Qed.


(** [C32] When a put blocks the enclave: in every state with the mutex free reached
    in fewer than [2^32 - 1] steps, by any caller, [enclave_postput] of a registered
    operation returns with [g_mutex] held exactly when its sequence number is the
    one the history waits for and it ended before the last recorded put started;
    then the put is in neither the history nor [completed_list], and no execution
    of any length changes the pending operations, the completed ones or the history
    again. *)
Theorem cc_rejected_merge_blocks (who : caller) (n : nat) (junk : Op) (s : CC) (p : pool)
    (W : gmap Z Op) (j : nat) (time i seq : Z) :
  runs who n junk s p W → Z.of_nat n < 2 ^ 32 - 1 → g_mutex s = false →
  p !! j = Some (TPostPut1 time i seq) → is_Some (pending_list s !! i) →
  ((∃ s', postput_section time i seq s = Locked s') ↔
   seq = getTs (latest (history s)) + 1 ∧ time < getStart (latest (history s))) ∧
  (∀ s' W' m s'' p'' W'', postput_section time i seq s = Locked s' →
     steps who m (s', delete j p, W') (s'', p'', W'') →
     g_mutex s'' = true ∧ pending_list s'' = delete i (pending_list s) ∧
     history s'' = history s ∧ completed_list s'' = completed_list s' ∧
     completed_list s'' !! seq = None).
Proof.
  intros Hs Hn Hm Hj [op Hop]. pose proof (Inv_runs who n junk s p W Hs ltac:(lia)) as HI.
  destruct (inv_covers _ _ _ _ _ HI Hm) as [HC Hnext].
  pose proof (inv_history _ _ _ _ _ HI) as Hu. unfold is_u in Hu.
  pose proof (range_size W 1 _ (cov_below _ _ _ HC)) as Hsize.
  pose proof (inv_finished _ _ _ _ _ HI) as Hfin.
  set (T := getTs (latest (history s))) in *.
  pose proof (truncate_head (map_insert seq (setTs seq (setEnd time op)) (completed_list s))
    (history s)) as Hhead. fold T in Hhead. rewrite u32_small in Hhead by (unfold is_u; lia).
  rewrite map_insert_lookup, (cov_waiting _ _ _ HC (T + 1)), (Hnext ltac:(lia)) in Hhead
    by (fold T; lia).
  pose proof (postput_cases s time i seq) as Hcase. rewrite Hop in Hcase.
  destruct Hcase as (comp' & acl & s1 & Et & Hp & Hc & _ & _ & _ & Hh).
  rewrite Et in Hhead. simpl in Hhead.
  assert (Hwait : completed_list s !! (T + 1) = None)
    by (rewrite (cov_waiting _ _ _ HC) by (fold T; lia); apply Hnext; lia).
  split.
  - destruct Hh as [(-> & _ & _ & Hmerged)|(-> & _ & _ & o & Ho & Hlt)].
    + split; [by intros [? ?]|]. intros [-> Hlt]. rewrite decide_True, Hwait in Hhead by done.
      specialize (Hmerged _ (proj1 Hhead)). simpl in Hmerged. lia.
    + split; [intros _|eauto]. destruct Hhead as [Hhead _]. rewrite Ho in Hhead.
      destruct (decide (T + 1 = seq)) as [<-|]; [|done]. rewrite Hwait in Hhead.
      simplify_eq/=. done.
  - intros s' W' m s'' p'' W'' Hl Hst.
    destruct Hh as [(E & _)|(E & Hlock & Hhist & o & Ho & _)]; [congruence|].
    assert (s1 = s') as -> by congruence.
    destruct (locked_forever _ _ _ _ _ _ _ _ Hst Hlock) as (-> & -> & -> & ->).
    split_and!; [done..|]. destruct Hhead as [Hhead Hgone]. rewrite Ho in Hhead.
    destruct (decide (T + 1 = seq)) as [<-|]; [|done]. rewrite Hc. by apply Hgone; rewrite Ho.
Qed.

(** A put ends at time 2 but, before its section runs, another one starts at time 3
    and is recorded with the sequence number before it. *)
Lemma overtaken : ∃ s p W, runs HostCaller 13 zero_op s p W ∧ g_mutex s = false ∧
  p !! 0%nat = Some (TPostPut1 2 1 2) ∧ is_Some (pending_list s !! 1) ∧
  getTs (latest (history s)) = 1 ∧ getStart (latest (history s)) = 3.
Proof.
  pose proof (steps_refl HostCaller (CC_init zero_op, ∅, ∅)) as H.
  apply (steps_spawn _ _ _ _ _ _ 0%nat TPrePut) in H; [|reflexivity|apply spawn_preput].
  run_counter H 0%nat. run_counter H 0%nat. run_section H 0%nat.
  apply (steps_spawn _ _ _ _ _ _ 0%nat (TPostPut 1 2)) in H;
    [|reflexivity|apply spawn_postput; solve_finishable].
  run_counter H 0%nat.
  apply (steps_spawn _ _ _ _ _ _ 1%nat TPrePut) in H; [|reflexivity|apply spawn_preput].
  run_counter H 1%nat. run_counter H 1%nat. run_section H 1%nat.
  apply (steps_spawn _ _ _ _ _ _ 1%nat (TPostPut 2 1)) in H;
    [|reflexivity|apply spawn_postput; solve_finishable].
  run_counter H 1%nat. run_section H 1%nat.
  eexists _, _, _. split; [exact H|]. split_and!; try reflexivity. by eexists.
Qed.

Lemma cc_rejected_merge_blocks_witness :
  ∃ s p W s', runs HostCaller 13 zero_op s p W ∧ postput_section 2 1 2 s = Locked s' ∧
    g_mutex s' = true ∧ completed_list s' !! 2 = None.
Proof.
  destruct overtaken as (s & p & W & Hs & Hm & Hj & Hp & HT & Hst).
  destruct (cc_rejected_merge_blocks HostCaller 13 zero_op s p W 0 2 1 2 Hs eq_refl Hm Hj Hp)
    as [[_ Hlock] Hblock].
  destruct Hlock as [s' Hl]; [rewrite HT, Hst; split; reflexivity|].
  destruct (Hblock s' W 0%nat s' _ W Hl (steps_refl _ _)) as (Hmu & _ & _ & _ & Hgone).
  exists s, p, W, s'. split; [exact Hs|]. split; [exact Hl|]. split; [exact Hmu|exact Hgone].
Defined.

(** [C37] Finishing a get: for any caller, a get whose section registers it when the
    history stands at timestamp [getTs (latest (history s0))], and which is still
    registered after any further steps (fewer than [2^32] in all), is accepted and
    forgotten when the write timestamp it presents is newer than that timestamp,
    however the history has moved since; any other read dereferences a missing
    entry of [rh_list], which is never filled, whatever proof it presents. *)
Theorem cc_postget_outcome (who : caller) (n m : nat) (junk junk' : Op) (s0 s1 s : CC)
    (p0 p : pool) (W0 W : gmap Z Op) (j fuel : nat) (time i tw : Z) (pf : list Z) :
  runs who n junk s0 p0 W0 → p0 !! j = Some (TPreGet2 time i) → g_mutex s0 = false →
  locked_section junk' 0 (TPreGet2 time i) s0 = Some (Done s1) →
  steps who m (s1, delete j p0, W0) (s, p, W) → Z.of_nat (S n + m) < 2 ^ 32 →
  is_Some (pending_list s !! i) →
  postget_section fuel i tw pf s =
    Some (if u32 tw >? getTs (latest (history s0))
          then Done (with_pending (delete i (pending_list s)) s) else Undefined).
Proof.
  intros Hs Hj Hm Hget Hst Hn [op Hop].
  pose proof (Inv_runs who n junk s0 p0 W0 Hs ltac:(lia)) as HI0.
  destruct (inv_threads _ _ _ _ _ HI0 _ _ Hj) as (_ & Hid & Hnone).
  assert (HI1 : Inv who (S n) s1 (delete j p0) W0).
  { eapply Inv_step; [lia|exact HI0|].
    change W0 with (observe (TPreGet2 time i) s0 W0) at 2. eapply step_section; eauto. }
  injection Hget as <-.
  assert (op = setTr (getTs (latest (history s0))) (Op_make junk' i time)) as ->.
  { eapply (iss_op i); [|exact Hop]. eapply Issued_steps; [exact Hst|exact Hn|exact HI1|].
    split; simpl; [done| |].
    - intros j' t' [Hne Hj']%lookup_delete_Some Hi.
      apply Hne. exact (inv_pre _ _ _ _ _ HI0 _ _ _ _ _ Hj Hj' eq_refl Hi).
    - intros o. rewrite map_insert_lookup, decide_True, Hnone by done. by intros [= <-]. }
  pose proof (Inv_steps _ _ _ _ _ _ _ _ _ Hst HI1 Hn) as HI.
  unfold postget_section. rewrite Hop. unfold nmt. simpl.
  rewrite (u32_small (getTs (latest (history s0)))) by (apply (inv_history _ _ _ _ _ HI0)).
  destruct (_ >? _); [done|]. unfold findRH. by rewrite (inv_rh _ _ _ _ _ HI), lookup_empty.
Qed.

(** A get registers while the history is at 0; a put is recorded before it ends. *)
Lemma get_overtaken : ∃ s0 p0 W0 s1 s p W,
  runs HostCaller 3 zero_op s0 p0 W0 ∧ p0 !! 0%nat = Some (TPreGet2 1 1) ∧
  g_mutex s0 = false ∧ locked_section zero_op 0 (TPreGet2 1 1) s0 = Some (Done s1) ∧
  steps HostCaller 7 (s1, delete 0%nat p0, W0) (s, p, W) ∧ is_Some (pending_list s !! 1) ∧
  getTs (latest (history s0)) = 0 ∧ getTs (latest (history s)) = 1.
Proof.
  pose proof (steps_refl HostCaller (CC_init zero_op, ∅, ∅)) as H.
  apply (steps_spawn _ _ _ _ _ _ 0%nat TPreGet) in H; [|reflexivity|apply spawn_preget].
  run_counter H 0%nat. run_counter H 0%nat.
  match type of H with steps _ _ _ (?s, ?p, ?W) => set (s0 := s) in H; set (p0 := p) in H end.
  assert (∃ s1, locked_section zero_op 0 (TPreGet2 1 1) s0 = Some (Done s1) ∧
    s1 = with_pending (map_insert 1 (setTr 0 (Op_make zero_op 1 1)) (pending_list s0)) s0)
    as (s1 & Hs1 & E1) by (eexists; split; reflexivity).
  pose proof (steps_refl HostCaller (s1, delete 0%nat p0, ∅)) as H1.
  apply (steps_spawn _ _ _ _ _ _ 1%nat TPrePut) in H1; [|reflexivity|apply spawn_preput].
  subst s1 s0 p0.
  run_counter H1 1%nat. run_counter H1 1%nat. run_section H1 1%nat.
  apply (steps_spawn _ _ _ _ _ _ 1%nat (TPostPut 2 1)) in H1;
    [|reflexivity|apply spawn_postput; solve_finishable].
  run_counter H1 1%nat. run_section H1 1%nat.
  eexists _, _, _, _, _, _, _. split; [exact H|]. split; [reflexivity|]. split; [reflexivity|].
  split; [exact Hs1|]. split; [exact H1|]. split; [by eexists|]. split; reflexivity.
Qed.

Lemma cc_postget_outcome_witness :
  ∃ s0 p0 W0 s1 s p W, steps HostCaller 7 (s1, p0, W0) (s, p, W) ∧
    getTs (latest (history s0)) = 0 ∧ getTs (latest (history s)) = 1 ∧
    postget_section 9 1 1 [13] s = Some (Done (with_pending (delete 1 (pending_list s)) s)).
Proof.
  destruct get_overtaken as (s0 & p0 & W0 & s1 & s & p & W & H0 & Hj & Hm & Hg & Hs & Hp & HT & HT').
  exists s0, (delete 0%nat p0), W0, s1, s, p, W. split; [exact Hs|]. split; [exact HT|].
  split; [exact HT'|].
  rewrite (cc_postget_outcome HostCaller 3 7 zero_op zero_op s0 s1 s p0 p W0 W 0 9 1 1 1 [13]
    H0 Hj Hm Hg Hs eq_refl Hp), HT. reflexivity.
Defined.

(** Real-time checking of a batch: [check] reports nothing exactly when no
    operation of the batch ended before an earlier one (in timestamp order)
    started; but it accepts the batch in every case, so a detected violation is
    only printed. *)
Theorem cc_check_reports (acl : list Op) :
  ((check acl).2 = 0%nat ↔
   ∀ i j oi oj, (i < j)%nat → acl !! i = Some oi → acl !! j = Some oj →
     getStart oi < getEnd oj) ∧
  (check acl).1 = true.
Proof.
  unfold check. destruct (Nat.eqb_spec (length acl) 1) as [Hl|Hl]; simpl; [|by rewrite check_loop_zero].
  split; [|done]. split; [|done]. intros _ i j oi oj Hij Hi Hj.
  apply lookup_lt_Some in Hj. lia.
Qed.

(** [C38] The proof loop: [lpad_verify] returns exactly when no entry of the proof
    array exceeds its own index, and then accepts; otherwise no number of
    iterations is enough, since the inner loop tests the outer variable. *)
Theorem cc_lpad_verify_terminates (rh : unit) (pf : list Z) :
  ((∃ fuel b, lpad_verify fuel rh pf = Some b) ↔ ∀ k x, pf !! k = Some x → x <= Z.of_nat k) ∧
  (∀ fuel b, lpad_verify fuel rh pf = Some b → b = true).
Proof.
  unfold lpad_verify. split.
  - split.
    + intros ([|fuel] & b & Hf).
      * destruct pf; done.
      * by apply lpad_outer_spec in Hf as [_ Hf].
    + intros H. exists 1%nat, true. by apply lpad_outer_spec.
  - intros [|fuel] b Hf; [destruct pf; simpl in Hf; congruence|]. by apply lpad_outer_spec in Hf as [-> _].
Qed.

(** The 32-bit timestamp stops the history: once the last recorded timestamp
    is [2^32 - 1], no put with a positive sequence number is ever taken again,
    although the map of completed puts is keyed by the full 64-bit number. *)
Theorem cc_timestamp_wrap (comp : gmap Z Op) (his : HistoryW) :
  getTs (latest his) = 2 ^ 32 - 1 → (∀ k, is_Some (comp !! k) → 1 <= k) →
  truncate comp his = (comp, []).
Proof.
  intros Hts Hk. unfold truncate. rewrite Hts. change (u32 (2 ^ 32 - 1 + 1)) with 0.
  cbn [truncate_loop]. destruct (comp !! 0) eqn:E; [|done].
  assert (1 <= 0) by (apply Hk; by rewrite E). lia.
Qed.

Lemma cc_timestamp_wrap_witness :
  truncate {[ 2 ^ 32 := setTs (2 ^ 32) zero_op ]}
    {| current := setTs (2 ^ 32 - 1) zero_op; rh_list := ∅ |}
  = ({[ 2 ^ 32 := setTs (2 ^ 32) zero_op ]}, []).
Proof.
  apply cc_timestamp_wrap; [reflexivity|]. intros k Hk.
  apply lookup_singleton_is_Some in Hk. lia.
Defined.
