(* ===== verification/Log.v ===== *)
(** * The write-ahead log

    Model of [App/integration/log_format.h], [log_writer.h], [log_writer.cpp],
    [log_reader.h] and [log_reader.cpp].  A log is a sequence of 32 KiB blocks; a
    record is cut into physical records, none of which crosses a block boundary,
    each with a masked checksum, a 16-bit length and a fragment type.

    The abstract classes [WritableFile] and [SequentialFile] of [env.h] are the
    interfaces [WritableFile] and [SequentialFile] below. *)
From S2P Require Import Prelude Coding Crc32c.

#[local] Open Scope Z_scope.
#[local] Open Scope word_scope.

(** ** Format *)

Inductive RecordType := kZeroType | kFullType | kFirstType | kMiddleType | kLastType.
#[export] Instance RecordType_eq_dec : EqDecision RecordType.
Proof. solve_decision. Defined.

Definition RecordType_code (t : RecordType) : Z :=
  match t with
  | kZeroType => 0 | kFullType => 1 | kFirstType => 2 | kMiddleType => 3 | kLastType => 4
  end.

Definition kMaxRecordType : Z := RecordType_code kLastType.
Definition kBlockSize : Z := 32768.
Definition kHeaderSize : Z := 4 + 2 + 1.

(** ** Files *)

(** [Append] and [Flush] return whether the status is OK. *)
Class WritableFile (F : Type) := {
  Append : F → bytes → bool * F;
  Flush : F → bool * F;
  contents : F → bytes;
}.

(** A file no operation of which fails. *)
Class ReliableFile (F : Type) `{WritableFile F} : Prop := {
  Append_ok f d : ∃ f', Append f d = (true, f') ∧ contents f' = contents f ++ d;
  Flush_ok f : ∃ f', Flush f = (true, f') ∧ contents f' = contents f;
}.

(** A file being read: the bytes not read yet, and whether the device fails. *)
Record SequentialFile := { sf_rest : bytes; sf_error : bool }.

(** [Read(n)] gives up to [n] bytes, fewer only at the end of the file. *)
Definition SequentialFile_Read (n : Z) (f : SequentialFile) : option (bytes * SequentialFile) :=
  if sf_error f then None
  else Some (take (Z.to_nat n) (sf_rest f),
             {| sf_rest := drop (Z.to_nat n) (sf_rest f); sf_error := false |}).

Definition SequentialFile_Skip (n : Z) (f : SequentialFile) : option SequentialFile :=
  if sf_error f then None
  else Some {| sf_rest := drop (Z.to_nat n) (sf_rest f); sf_error := false |}.

(** ** Writer *)

Section Writer.
Context {F : Type} `{WritableFile F}.

Record Writer := { dest_ : F; block_offset_ : Z }.

Definition Writer_make (dest : F) : Writer := {| dest_ := dest; block_offset_ := 0 |}.

(** [type_crc_[t]], computed by the constructor. *)
Definition type_crc_ (t : RecordType) : Z := Value [RecordType_code t].

Definition physical_header (t : RecordType) (p : bytes) : bytes :=
  let n := zlen p in
  let crc := Mask (Extend (type_crc_ t) p) in
  EncodeFixed32 crc ++ [u8 (n .& 255); u8 (n .>> 8); RecordType_code t].

Definition EmitPhysicalRecord (w : Writer) (t : RecordType) (p : bytes) : bool * Writer :=
  let '(ok, f) := Append (dest_ w) (physical_header t p) in
  let '(ok, f) :=
  if ok then
  let '(ok, f) := Append f p in
  if ok then Flush f else (ok, f)
  else (ok, f) in
  (ok, {| dest_ := f; block_offset_ := block_offset_ w + kHeaderSize + zlen p |}).

(** The switch to a new block; the status of the padding is ignored. *)
Definition switch_block (w : Writer) : Writer :=
  let leftover := kBlockSize - block_offset_ w in
  if leftover <? kHeaderSize then
  let f := if leftover >? 0 then (Append (dest_ w) (repeat 0 (Z.to_nat leftover))).2
   else dest_ w in
  {| dest_ := f; block_offset_ := 0 |}
  else w.

Definition fragment_type (begin end_ : bool) : RecordType :=
  match begin, end_ with
  | true, true => kFullType
  | true, false => kFirstType
  | false, true => kLastType
  | false, false => kMiddleType
  end.

(** The [do .. while (s.ok() && left > 0)] loop; a round that does not finish
  the record fills a block, so the length of the record bounds the rounds. *)
Fixpoint AddRecord_loop (fuel : nat) (w : Writer) (begin : bool) (left : bytes) : bool * Writer :=
  match fuel with
  | O => (false, w)
  | S fuel' =>
      let w := switch_block w in
      let avail := kBlockSize - block_offset_ w - kHeaderSize in
      let fragment_length := if zlen left <? avail then zlen left else avail in
      let end_ := zlen left =? fragment_length in
      let '(ok, w) := EmitPhysicalRecord w (fragment_type begin end_)
              (take (Z.to_nat fragment_length) left) in
      let left := drop (Z.to_nat fragment_length) left in
      if ok && (zlen left >? 0) then AddRecord_loop fuel' w false left else (ok, w)
  end.

Definition AddRecord (w : Writer) (slice : bytes) : bool * Writer :=
  AddRecord_loop (S (S (length slice))) w true slice.

(** A log written record by record. *)
Fixpoint AddRecords (w : Writer) (rs : list bytes) : bool * Writer :=
  match rs with
  | [] => (true, w)
  | r :: rs' =>
      let '(ok, w) := AddRecord w r in
      if ok then AddRecords w rs' else (false, w)
  end.
End Writer.
Arguments Writer : clear implicits.

(** ** Reader *)

Definition kEof : Z := kMaxRecordType + 1.
Definition kBadRecord : Z := kMaxRecordType + 2.

Inductive DropReason :=
| IOError | BadLength | ChecksumMismatch | PartialWithoutEnd | MissingStart
| ErrorInMiddle | UnknownType.

Record Reader := {
  file_ : SequentialFile;
  has_reporter_ : bool;
  checksum_ : bool;
  buffer_ : bytes;
  eof_ : bool;
  last_record_offset_ : Z;
  end_of_buffer_offset_ : Z;
  initial_offset_ : Z;
  reports : list (Z * DropReason);   (** what the reporter has been told *)
}.

Definition Reader_make (f : SequentialFile) (reporter checksum : bool) (initial_offset : Z) : Reader :=
  {| file_ := f; has_reporter_ := reporter; checksum_ := checksum; buffer_ := []; eof_ := false;
     last_record_offset_ := 0; end_of_buffer_offset_ := 0; initial_offset_ := initial_offset;
     reports := [] |}.

Definition with_file (f : SequentialFile) (buf : bytes) (eof : bool) (e : Z) (r : Reader) : Reader :=
  {| file_ := f; has_reporter_ := has_reporter_ r; checksum_ := checksum_ r; buffer_ := buf;
     eof_ := eof; last_record_offset_ := last_record_offset_ r; end_of_buffer_offset_ := e;
     initial_offset_ := initial_offset_ r; reports := reports r |}.
Definition with_buffer (buf : bytes) (r : Reader) : Reader :=
  with_file (file_ r) buf (eof_ r) (end_of_buffer_offset_ r) r.
Definition with_last (o : Z) (r : Reader) : Reader :=
  {| file_ := file_ r; has_reporter_ := has_reporter_ r; checksum_ := checksum_ r;
     buffer_ := buffer_ r; eof_ := eof_ r; last_record_offset_ := o;
     end_of_buffer_offset_ := end_of_buffer_offset_ r; initial_offset_ := initial_offset_ r;
     reports := reports r |}.
Definition with_report (x : Z * DropReason) (r : Reader) : Reader :=
  {| file_ := file_ r; has_reporter_ := has_reporter_ r; checksum_ := checksum_ r;
     buffer_ := buffer_ r; eof_ := eof_ r; last_record_offset_ := last_record_offset_ r;
     end_of_buffer_offset_ := end_of_buffer_offset_ r; initial_offset_ := initial_offset_ r;
     reports := reports r ++ [x] |}.

(** The subtraction is that of [uint64_t]. *)
Definition ReportDrop (n : Z) (reason : DropReason) (r : Reader) : Reader :=
  if has_reporter_ r && (u64 (end_of_buffer_offset_ r - zlen (buffer_ r) - n) >=? initial_offset_ r)
  then with_report (n, reason) r else r.
Definition ReportCorruption (n : Z) (reason : DropReason) (r : Reader) : Reader :=
  ReportDrop n reason r.

Definition SkipToInitialBlock (r : Reader) : bool * Reader :=
  let offset_in_block := initial_offset_ r mod kBlockSize in
  let block_start_location := initial_offset_ r - offset_in_block in
  let block_start_location :=
    if offset_in_block >? kBlockSize - 6 then block_start_location + kBlockSize
    else block_start_location in
  let r := with_file (file_ r) (buffer_ r) (eof_ r) block_start_location r in
  if block_start_location >? 0 then
    match SequentialFile_Skip block_start_location (file_ r) with
    | None => (false, ReportDrop block_start_location IOError r)
    | Some f => (true, with_file f (buffer_ r) (eof_ r) (end_of_buffer_offset_ r) r)
    end
  else (true, r).

(** [const unsigned int type = header[6]]: a signed [char] is sign-extended. *)
Definition header_type (b : Z) : Z := if b <? 128 then b else 2 ^ 32 - 256 + b.

(** The part of [ReadPhysicalRecord] after the buffer holds a whole header. *)
Definition ParsePhysicalRecord (r : Reader) : (Z * bytes) * Reader :=
  let header := buffer_ r in
  let a := nth 4 header 0 .& 255 in
  let b := nth 5 header 0 .& 255 in
  let type := header_type (nth 6 header 0) in
  let len := a .| (b .<< 8) in
  if kHeaderSize + len >? zlen (buffer_ r) then
    let drop_size := zlen (buffer_ r) in
    let r := with_buffer [] r in
    if negb (eof_ r) then ((kBadRecord, []), ReportCorruption drop_size BadLength r)
    else ((kEof, []), r)
  else if (type =? RecordType_code kZeroType) && (len =? 0) then
    ((kBadRecord, []), with_buffer [] r)
  else if checksum_ r &&
          negb (Value (take (Z.to_nat (1 + len)) (drop 6 header)) =? Unmask (DecodeFixed32 header)) then
    let drop_size := zlen (buffer_ r) in
    ((kBadRecord, []), ReportCorruption drop_size ChecksumMismatch (with_buffer [] r))
  else
    let r := with_buffer (drop (Z.to_nat (kHeaderSize + len)) (buffer_ r)) r in
    if u64 (end_of_buffer_offset_ r - zlen (buffer_ r) - kHeaderSize - len) <? initial_offset_ r then
      ((kBadRecord, []), r)
    else ((type, take (Z.to_nat len) (drop 7 header)), r).

(** The [while (true)] loop; after one read the buffer holds a header or the end of
    the file is known, so it goes around at most twice. *)
Fixpoint ReadPhysicalRecord_loop (fuel : nat) (r : Reader) : (Z * bytes) * Reader :=
  match fuel with
  | O => ((kEof, []), r)
  | S fuel' =>
      if zlen (buffer_ r) <? kHeaderSize then
        if negb (eof_ r) then
          match SequentialFile_Read kBlockSize (file_ r) with
          | None =>
              let r := with_file (file_ r) [] (eof_ r) (end_of_buffer_offset_ r) r in
              let r := ReportDrop kBlockSize IOError r in
              ((kEof, []), with_file (file_ r) (buffer_ r) true (end_of_buffer_offset_ r) r)
          | Some (buf, f) =>
              let e := end_of_buffer_offset_ r + zlen buf in
              let eof := if zlen buf <? kBlockSize then true else eof_ r in
              ReadPhysicalRecord_loop fuel' (with_file f buf eof e r)
          end
        else ((kEof, []), with_buffer [] r)
      else ParsePhysicalRecord r
  end.

Definition ReadPhysicalRecord (r : Reader) : (Z * bytes) * Reader := ReadPhysicalRecord_loop 3 r.

(** The loop of [ReadRecord]; [scratch] and [prospective] are its locals. The
    result is [None] for [return false]. *)
Fixpoint ReadRecord_loop (fuel : nat) (r : Reader) (in_fragmented_record : bool)
    (scratch : bytes) (prospective : Z) : option bytes * Reader :=
  match fuel with
  | O => (None, r)
  | S fuel' =>
      let physical_record_offset := u64 (end_of_buffer_offset_ r - zlen (buffer_ r)) in
      let '((type, fragment), r) := ReadPhysicalRecord r in
      if type =? RecordType_code kFullType then
        let r := if in_fragmented_record && negb (zlen scratch =? 0)
                 then ReportCorruption (zlen scratch) PartialWithoutEnd r else r in
        (Some fragment, with_last physical_record_offset r)
      else if type =? RecordType_code kFirstType then
        let r := if in_fragmented_record && negb (zlen scratch =? 0)
                 then ReportCorruption (zlen scratch) PartialWithoutEnd r else r in
        ReadRecord_loop fuel' r true fragment physical_record_offset
      else if type =? RecordType_code kMiddleType then
        if negb in_fragmented_record then
          ReadRecord_loop fuel' (ReportCorruption (zlen fragment) MissingStart r)
            in_fragmented_record scratch prospective
        else ReadRecord_loop fuel' r in_fragmented_record (scratch ++ fragment) prospective
      else if type =? RecordType_code kLastType then
        if negb in_fragmented_record then
          ReadRecord_loop fuel' (ReportCorruption (zlen fragment) MissingStart r)
            in_fragmented_record scratch prospective
        else (Some (scratch ++ fragment), with_last prospective r)
      else if type =? kEof then (None, r)
      else if type =? kBadRecord then
        if in_fragmented_record then
          ReadRecord_loop fuel' (ReportCorruption (zlen scratch) ErrorInMiddle r)
            false [] prospective
        else ReadRecord_loop fuel' r in_fragmented_record scratch prospective
      else
        let n := zlen fragment + (if in_fragmented_record then zlen scratch else 0) in
        ReadRecord_loop fuel' (ReportCorruption n UnknownType r) false [] prospective
  end.

(** Every physical record consumes a byte of the buffer or of the file. *)
Definition reader_fuel (r : Reader) : nat :=
  S (length (buffer_ r) + length (sf_rest (file_ r))).

Definition ReadRecord (r : Reader) : option bytes * Reader :=
  let '(ok, r) :=
    if last_record_offset_ r <? initial_offset_ r then SkipToInitialBlock r else (true, r) in
  if ok then ReadRecord_loop (reader_fuel r) r false [] 0 else (None, r).

(** Reading until [ReadRecord] returns false. *)
Fixpoint ReadAll_loop (fuel : nat) (r : Reader) : list bytes * Reader :=
  match fuel with
  | O => ([], r)
  | S fuel' =>
      match ReadRecord r with
      | (None, r') => ([], r')
      | (Some rec, r') => let '(recs, r'') := ReadAll_loop fuel' r' in (rec :: recs, r'')
      end
  end.

Definition ReadAll (r : Reader) : list bytes * Reader := ReadAll_loop (reader_fuel r) r.

(** ** Layout: what a list of fragments looks like on disk *)

Definition phys (t : RecordType) (p : bytes) : bytes := physical_header t p ++ p.
#[global] Arguments phys : simpl never.
#[global] Arguments physical_header : simpl never.

(** Where in its block a physical record starts when the writer stands at [o]. *)
Definition block_start (o : Z) : Z := if kBlockSize - o <? kHeaderSize then 0 else o.
Definition pad (o : Z) : bytes :=
  if kBlockSize - o <? kHeaderSize then repeat 0 (Z.to_nat (kBlockSize - o)) else [].
Definition offset_after (o : Z) (p : bytes) : Z := block_start o + kHeaderSize + zlen p.

Abbreviation fragment := (RecordType * bytes)%type.

Fixpoint layout (o : Z) (frs : list fragment) : bytes :=
  match frs with
  | [] => []
  | (t, p) :: frs' => pad o ++ phys t p ++ layout (offset_after o p) frs'
  end.

Fixpoint layout_end (o : Z) (frs : list fragment) : Z :=
  match frs with [] => o | (_, p) :: frs' => layout_end (offset_after o p) frs' end.

(** Every fragment fits its block. *)
Fixpoint layout_ok (o : Z) (frs : list fragment) : Prop :=
  match frs with
  | [] => 0 <= o <= kBlockSize
  | (t, p) :: frs' =>
      0 <= o <= kBlockSize ∧ t ≠ kZeroType ∧ bytes_ok p ∧ offset_after o p <= kBlockSize ∧
      layout_ok (offset_after o p) frs'
  end.

Lemma kBlockSize_eq : kBlockSize = 32768.
Proof. done. Qed.
Lemma kHeaderSize_eq : kHeaderSize = 7.
Proof. done. Qed.
#[local] Opaque kBlockSize kHeaderSize.
#[local] Arguments Z.to_nat : simpl never.

(** The block geometry for [lia], without unfolding the block size. *)
Ltac log_consts := pose proof kBlockSize_eq; pose proof kHeaderSize_eq.

Lemma RecordType_code_range t : 0 <= RecordType_code t < 5.
Proof. destruct t; simpl; lia. Qed.

Lemma physical_header_length t p : length (physical_header t p) = 7%nat.
Proof. unfold physical_header. by rewrite length_app, EncodeFixed32_length. Qed.

Lemma zlen_phys t p : zlen (phys t p) = 7 + zlen p.
Proof. unfold phys, zlen. rewrite length_app, physical_header_length. lia. Qed.

Lemma zlen_pad o : 0 <= o <= kBlockSize →
  zlen (pad o) = if kBlockSize - o <? kHeaderSize then kBlockSize - o else 0.
Proof.
  intros Ho. unfold pad. destruct (_ <? _); [|done]. unfold zlen. rewrite repeat_length. lia.
Qed.

Lemma layout_app o l k : layout o (l ++ k) = layout o l ++ layout (layout_end o l) k.
Proof.
  revert o. induction l as [|[t p] l IH]; intros o; [done|].
  cbn [layout layout_end app]. by rewrite IH, <- !app_assoc.
Qed.

Lemma layout_ok_app o l k : layout_ok o (l ++ k) ↔ layout_ok o l ∧ layout_ok (layout_end o l) k.
Proof.
  revert o. induction l as [|[t p] l IH]; intros o; simpl.
  - destruct k as [|[t p] k]; simpl; tauto.
  - rewrite IH. tauto.
Qed.

(** ** Reading one physical record *)

(** The reader stands at offset [o] of a block, [data] being what remains of the
    file from there. *)
Record aligned (r : Reader) (o : Z) (data : bytes) : Prop := {
  al_range : 0 <= o <= kBlockSize;
  al_error : sf_error (file_ r) = false;
  al_initial : initial_offset_ r = 0;
  al_last : 0 <= last_record_offset_ r;
  al_buffer : buffer_ r = take (Z.to_nat (kBlockSize - o)) data;
  al_rest : sf_rest (file_ r) = drop (Z.to_nat (kBlockSize - o)) data;
  al_full : eof_ r = false → kBlockSize - o <= zlen data;
  al_eof : eof_ r = true → zlen data <= kBlockSize - o;
}.

Lemma aligned_make f reporter checksum : sf_error f = false →
  aligned (Reader_make f reporter checksum 0) kBlockSize (sf_rest f).
Proof.
  intros Hf. split; simpl; try done.
  rewrite Z.sub_diag. intros _. apply zlen_nonneg.
Qed.

Lemma aligned_refill r o data : aligned r o data → eof_ r = false →
  ∃ f, SequentialFile_Read kBlockSize (file_ r) =
         Some (take (Z.to_nat kBlockSize) (sf_rest (file_ r)), f) ∧
    aligned (with_file f (take (Z.to_nat kBlockSize) (sf_rest (file_ r)))
      (if zlen (take (Z.to_nat kBlockSize) (sf_rest (file_ r))) <? kBlockSize then true else eof_ r)
      (end_of_buffer_offset_ r + zlen (take (Z.to_nat kBlockSize) (sf_rest (file_ r)))) r)
      0 (drop (Z.to_nat (kBlockSize - o)) data).
Proof.
  intros [] He. unfold SequentialFile_Read. rewrite al_error0. eexists. split; [done|].
  rewrite al_rest0. set (d := drop _ data).
  log_consts. split; simpl; rewrite ?Z.sub_0_r; try done; try lia.
  - intros Hf. destruct (Z.ltb_spec (zlen (take (Z.to_nat kBlockSize) d)) kBlockSize) as [|Hge]; [done|].
    unfold zlen in *. rewrite length_take in Hge. lia.
  - intros Hf. rewrite He in Hf.
    destruct (Z.ltb_spec (zlen (take (Z.to_nat kBlockSize) d)) kBlockSize) as [Hlt|]; [|done].
    unfold zlen in *. rewrite length_take in Hlt. lia.
Qed.

Lemma header_fields t p rest : zlen p <= kBlockSize →
  let h := phys t p ++ rest in
  (nth 4 h 0 .& 255) .| ((nth 5 h 0 .& 255) .<< 8) = zlen p ∧
  header_type (nth 6 h 0) = RecordType_code t ∧
  DecodeFixed32 h = Mask (Extend (type_crc_ t) p).
Proof.
  intros Hp. unfold phys, physical_header, EncodeFixed32. rewrite <- !app_assoc.
  pose proof (zlen_nonneg p). log_consts. split_and!.
  - simpl nth. rewrite !land_255, Z.shiftr_div_pow2 by lia. unfold u8.
    rewrite lor_disjoint_add by dlia. dlia.
  - simpl nth. unfold header_type. by destruct t.
  - change (le_bytes 4 ?x) with (EncodeFixed32 x). rewrite DecodeEncodeFixed32.
    apply u32_small, Mask_range.
Qed.

Lemma type_crc_extend t p : bytes_ok p →
  Value (RecordType_code t :: p) = Extend (type_crc_ t) p ∧ is_u 32 (Extend (type_crc_ t) p).
Proof.
  intros Hp. pose proof (RecordType_code_range t).
  assert (Ht : bytes_ok [RecordType_code t]) by (repeat constructor; lia).
  split.
  - unfold Value, type_crc_. change (RecordType_code t :: p) with ([RecordType_code t] ++ p).
    apply Extend_app; [unfold is_u; lia|done|done].
  - apply Extend_range; [|done]. by apply Value_range.
Qed.

(** Dropping a whole record from the buffer. *)
Lemma aligned_advance r o t p data :
  aligned r o (phys t p ++ data) → o + 7 + zlen p <= kBlockSize →
  aligned (with_buffer (take (Z.to_nat (kBlockSize - o - 7 - zlen p)) data) r) (o + 7 + zlen p) data.
Proof.
  intros [] Hfit. pose proof (zlen_nonneg p) as Hpl. pose proof (zlen_phys t p) as Hz.
  log_consts. rewrite zlen_app, Hz in *.
  split; simpl; try done; try lia.
  - f_equal. lia.
  - rewrite al_rest0, drop_app_ge by (unfold zlen in *; lia). f_equal. unfold zlen in *. lia.
  - intros He%al_full0. lia.
  - intros He%al_eof0. lia.
Qed.

(** A whole record in the buffer is delivered, whether or not checksums are on. *)
Lemma Parse_whole r o t p data :
  aligned r o (phys t p ++ data) → o + 7 + zlen p <= kBlockSize → t ≠ kZeroType → bytes_ok p →
  ∃ r', ParsePhysicalRecord r = ((RecordType_code t, p), r') ∧ reports r' = reports r ∧
    aligned r' (o + 7 + zlen p) data.
Proof.
  intros Hal Hfit Ht Hp. pose proof (zlen_nonneg p) as Hpl. pose proof (al_range _ _ _ Hal) as Ho.
  assert (Hbuf : buffer_ r = phys t p ++ take (Z.to_nat (kBlockSize - o - 7 - zlen p)) data).
  { rewrite (al_buffer _ _ _ Hal), take_app_ge.
    - f_equal. f_equal. pose proof (zlen_phys t p) as Hz. unfold zlen in *. lia.
    - pose proof (zlen_phys t p) as Hz. unfold zlen in *. lia. }
  set (buf' := take _ data) in Hbuf.
  destruct (header_fields t p buf') as (Hlen & Htype & Hcrc); [lia|].
  destruct (type_crc_extend t p Hp) as [Hval Hru].
  unfold ParsePhysicalRecord. rewrite Hbuf, Hlen, Htype, Hcrc, zlen_app, zlen_phys.
  pose proof (zlen_nonneg buf'). log_consts.
  rewrite Z.gtb_ltb, (proj2 (Z.ltb_ge _ _)) by lia.
  assert (Hnz : (RecordType_code t =? RecordType_code kZeroType) = false) by (by destruct t).
  rewrite Hnz, andb_false_l. cbv iota.
  assert (Hd : drop 6 (phys t p ++ buf') = RecordType_code t :: p ++ buf').
  { unfold phys, physical_header, EncodeFixed32. simpl. done. }
  rewrite Hd. replace (Z.to_nat (1 + zlen p)) with (S (length p)) by (unfold zlen; lia).
  cbn [take]. rewrite take_app_length, Hval, Unmask_Mask, Z.eqb_refl by done.
  rewrite andb_false_r. simpl initial_offset_. rewrite (al_initial _ _ _ Hal).
  rewrite (proj2 (Z.ltb_ge _ 0)) by (apply u64_range).
  assert (Hd7 : ∀ x, drop 7 (phys t p ++ x) = p ++ x) by done.
  rewrite Hd7. replace (Z.to_nat (zlen p)) with (length p) by (unfold zlen; lia).
  rewrite take_app_length.
  replace (Z.to_nat (kHeaderSize + zlen p)) with (7 + length p)%nat by (unfold zlen; lia).
  rewrite <- drop_drop, Hd7, drop_app_length.
  eexists. split; [done|]. split; [done|]. by apply aligned_advance with t.
Qed.

(** A record cut short by the end of the file is not an error. *)
Lemma Parse_torn r o t p data tail more :
  aligned r o data → o + 7 + zlen p <= kBlockSize → data ++ tail = phys t p ++ more →
  7 <= zlen data < 7 + zlen p →
  ∃ r', ParsePhysicalRecord r = ((kEof, []), r') ∧ reports r' = reports r.
Proof.
  intros Hal Hfit Hdata Hlen. log_consts. pose proof (al_range _ _ _ Hal).
  assert (He : eof_ r = true).
  { destruct (eof_ r) eqn:E; [done|]. apply (al_full _ _ _ Hal) in E. lia. }
  assert (Hbuf : buffer_ r = data).
  { rewrite (al_buffer _ _ _ Hal). apply take_ge. unfold zlen in *. lia. }
  assert (Hnth : ∀ k, (k < 7)%nat → nth k data 0 = nth k (phys t p ++ more) 0).
  { intros k Hk. rewrite <- Hdata. symmetry. apply app_nth1.
    assert (7 <= Z.of_nat (length data)) by apply Hlen. lia. }
  destruct (header_fields t p more) as (Hl & _); [lia|].
  unfold ParsePhysicalRecord. rewrite Hbuf, !Hnth, Hl by lia.
  rewrite Z.gtb_ltb, (proj2 (Z.ltb_lt _ _)) by lia. simpl eof_. rewrite He. simpl. eauto.
Qed.

Lemma ReadPhysicalRecord_once k r : kHeaderSize <= zlen (buffer_ r) →
  ReadPhysicalRecord_loop (S k) r = ParsePhysicalRecord r.
Proof. intros H. cbn [ReadPhysicalRecord_loop]. by rewrite (proj2 (Z.ltb_ge _ _)) by lia. Qed.

Lemma ReadPhysicalRecord_eof k r : zlen (buffer_ r) < kHeaderSize → eof_ r = true →
  ReadPhysicalRecord_loop (S k) r = ((kEof, []), with_buffer [] r).
Proof. intros H He. cbn [ReadPhysicalRecord_loop]. by rewrite (proj2 (Z.ltb_lt _ _)), He by lia. Qed.

(** From a position where a record would fit: the record or the end of the file. *)
Lemma ReadPhysical_in_block k r o t p data tail more :
  aligned r o data → kHeaderSize <= kBlockSize - o → o + 7 + zlen p <= kBlockSize →
  t ≠ kZeroType → bytes_ok p → data ++ tail = phys t p ++ more →
  ∃ res r', ReadPhysicalRecord_loop (S k) r = (res, r') ∧ reports r' = reports r ∧
    ((∃ data', res = (RecordType_code t, p) ∧ data = phys t p ++ data' ∧
        aligned r' (o + 7 + zlen p) data' ∧ more = data' ++ tail) ∨
     (res = (kEof, []) ∧ zlen data < zlen (phys t p))).
Proof.
  intros Hal Hroom Hfit Ht Hp Hdata. log_consts. pose proof (zlen_phys t p) as Hz.
  pose proof (zlen_nonneg p).
  assert (Hbuf : zlen (buffer_ r) = Z.min (kBlockSize - o) (zlen data)).
  { rewrite (al_buffer _ _ _ Hal). unfold zlen. rewrite length_take. lia. }
  destruct (decide (zlen data < kHeaderSize)) as [Hshort|Hlong].
  { assert (eof_ r = true) by (destruct (eof_ r) eqn:E; [done|];
      apply (al_full _ _ _ Hal) in E; lia).
    rewrite ReadPhysicalRecord_eof by (done || lia). eexists _, _. split; [done|].
    split; [done|]. right. split; [done|lia]. }
  rewrite ReadPhysicalRecord_once by lia.
  destruct (decide (zlen data < 7 + zlen p)) as [Htorn|Hwhole].
  { destruct (Parse_torn r o t p data tail more) as (r' & -> & Hr); [done..|lia|].
    eexists _, r'. split; [done|]. split; [done|]. right. split; [done|lia]. }
  assert (∃ data', data = phys t p ++ data' ∧ more = data' ++ tail) as (data' & -> & Hmore).
  { apply app_eq_inv in Hdata as [(k' & -> & ->)|(k' & Hk & ->)]; [by exists k'|].
    exists []. rewrite Hk, zlen_app in Hz. assert (k' = []) as ->.
    { destruct k'; [done|]. rewrite zlen_cons in Hz. pose proof (zlen_nonneg k'). lia. }
    by rewrite app_nil_r in Hk |- *. }
  destruct (Parse_whole r o t p data') as (r' & -> & Hr & Hal'); [done..|].
  eexists _, r'. split; [done|]. split; [done|]. left. by exists data'.
Qed.

(** The same from any position the writer may have left, block trailers included. *)
Lemma ReadPhysical_layout r o t p data tail more :
  aligned r o data → offset_after o p <= kBlockSize → t ≠ kZeroType → bytes_ok p →
  data ++ tail = pad o ++ phys t p ++ more →
  ∃ res r', ReadPhysicalRecord r = (res, r') ∧ reports r' = reports r ∧
    ((∃ data', res = (RecordType_code t, p) ∧ data = pad o ++ phys t p ++ data' ∧
        aligned r' (offset_after o p) data' ∧ more = data' ++ tail) ∨
     (res = (kEof, []) ∧ zlen data < zlen (pad o ++ phys t p))).
Proof.
  intros Hal Hfit Ht Hp Hdata. pose proof (al_range _ _ _ Hal) as Ho. log_consts.
  pose proof (zlen_pad o Ho) as Hpad. pose proof (zlen_phys t p) as Hz. pose proof (zlen_nonneg p).
  unfold offset_after, block_start in *. unfold pad in Hdata, Hpad |- *.
  destruct (Z.ltb_spec (kBlockSize - o) kHeaderSize) as [Hlow|Hroom].
  2:{ replace (o + kHeaderSize + zlen p) with (o + 7 + zlen p) in * by lia. simpl app in *.
      by apply ReadPhysical_in_block. }
  set (z := repeat 0 (Z.to_nat (kBlockSize - o))) in *.
  assert (Hbuf : zlen (buffer_ r) < kHeaderSize).
  { rewrite (al_buffer _ _ _ Hal). unfold zlen. rewrite length_take. lia. }
  destruct (eof_ r) eqn:E.
  { unfold ReadPhysicalRecord. rewrite ReadPhysicalRecord_eof by done.
    pose proof (al_eof _ _ _ Hal E). eexists _, _. split; [done|]. split; [done|].
    right. split; [done|]. rewrite zlen_app. lia. }
  pose proof (al_full _ _ _ Hal E) as Hfull.
  assert (∃ d, data = z ++ d ∧ d ++ tail = phys t p ++ more) as (d & -> & Hd).
  { apply app_eq_inv in Hdata as [(k & -> & Hk)|(k & Hk & Hk')]; [by exists k|].
    rewrite Hk, zlen_app in Hpad. assert (k = []) as ->.
    { destruct k; [done|]. rewrite zlen_cons in Hpad. pose proof (zlen_nonneg k). lia. }
    exists []. rewrite app_nil_r in Hk. rewrite Hk, app_nil_r. done. }
  destruct (aligned_refill r o (z ++ d) Hal E) as (f & Hread & Hal').
  assert (Hdrop : drop (Z.to_nat (kBlockSize - o)) (z ++ d) = d).
  { rewrite drop_app_length'; [done|]. unfold z. by rewrite repeat_length. }
  rewrite Hdrop in Hal'. unfold ReadPhysicalRecord. cbn [ReadPhysicalRecord_loop].
  rewrite (proj2 (Z.ltb_lt _ _)), E by done. cbn [negb]. rewrite Hread.
  destruct (ReadPhysical_in_block 1 _ 0 t p d tail more Hal') as (res & r' & Hr & Hrep & Hcase);
    [lia|lia|done..|].
  eexists res, r'. split; [rewrite E in Hr; exact Hr|]. split; [exact Hrep|].
  destruct Hcase as [(d' & -> & -> & Ha & ->)|[-> Hlt]].
  - left. exists d'. split; [done|]. split; [done|]. split; [|done].
    replace (0 + kHeaderSize + zlen p) with (0 + 7 + zlen p) by lia. done.
  - right. split; [done|]. rewrite !zlen_app. lia.
Qed.

Lemma ReadPhysical_end r o : aligned r o [] →
  ∃ r', ReadPhysicalRecord r = ((kEof, []), r') ∧ reports r' = reports r.
Proof.
  intros Hal. log_consts.
  assert (Hb : buffer_ r = []) by (rewrite (al_buffer _ _ _ Hal); apply take_nil).
  assert (zlen (buffer_ r) < kHeaderSize) by (rewrite Hb, zlen_nil; lia).
  unfold ReadPhysicalRecord. destruct (eof_ r) eqn:E.
  { rewrite ReadPhysicalRecord_eof by done. eauto. }
  destruct (aligned_refill r o [] Hal E) as (f & Hread & _).
  cbn [ReadPhysicalRecord_loop]. rewrite (proj2 (Z.ltb_lt _ _)), E by done. cbn [negb].
  rewrite Hread, (al_rest _ _ _ Hal), drop_nil, take_nil. cbv zeta.
  cbn [buffer_ eof_ with_file]. change (zlen (@nil Z)) with 0.
  rewrite (proj2 (Z.ltb_lt 0 kBlockSize)), (proj2 (Z.ltb_lt 0 kHeaderSize)) by lia. simpl. eauto.
Qed.

(** ** Writing *)

(** The fragments [AddRecord] cuts a record into when the writer stands at [o]. *)
Fixpoint cut (fuel : nat) (o : Z) (begin : bool) (left : bytes) : list fragment :=
  match fuel with
  | O => []
  | S fuel' =>
      let avail := kBlockSize - block_start o - kHeaderSize in
      let n := if zlen left <? avail then zlen left else avail in
      let p := take (Z.to_nat n) left in
      let rest := drop (Z.to_nat n) left in
      (fragment_type begin (zlen left =? n), p) ::
      if zlen rest >? 0 then cut fuel' (offset_after o p) false rest else []
  end.

(** How many rounds are left: one more than the bytes when the block is full to the
    header. *)
Definition rounds (o : Z) (left : bytes) : nat :=
  length left + (if kBlockSize - block_start o - kHeaderSize =? 0 then 1 else 0).

Definition record_cut (o : Z) (r : bytes) : list fragment := cut (S (S (length r))) o true r.

(** The fragments of a whole log. *)
Fixpoint log_cut (o : Z) (rs : list bytes) : list fragment :=
  match rs with
  | [] => []
  | r :: rs' => record_cut o r ++ log_cut (layout_end o (record_cut o r)) rs'
  end.

Lemma block_start_range o : 0 <= o <= kBlockSize →
  0 <= block_start o ∧ kHeaderSize <= kBlockSize - block_start o.
Proof.
  intros Ho. log_consts. unfold block_start.
  destruct (Z.ltb_spec (kBlockSize - o) kHeaderSize); lia.
Qed.

(** A fragment that does not finish its record fills the block. *)
Lemma cut_next o left : 0 <= o <= kBlockSize →
  let avail := kBlockSize - block_start o - kHeaderSize in
  let n := if zlen left <? avail then zlen left else avail in
  0 < zlen (drop (Z.to_nat n) left) →
  offset_after o (take (Z.to_nat n) left) = kBlockSize ∧
  (rounds (offset_after o (take (Z.to_nat n) left)) (drop (Z.to_nat n) left) < rounds o left)%nat.
Proof.
  intros Ho avail n Hpos. destruct (block_start_range o Ho) as [Hb1 Hb2]. log_consts.
  assert (Hn : n = avail ∧ avail < zlen left).
  { unfold n in *. destruct (Z.ltb_spec (zlen left) avail); [|split; [done|]];
      unfold zlen in *; rewrite length_drop in Hpos; lia. }
  destruct Hn as [-> Hlt].
  assert (Ha : offset_after o (take (Z.to_nat avail) left) = kBlockSize).
  { unfold offset_after, zlen. rewrite length_take. unfold zlen, avail in *. lia. }
  split; [done|]. rewrite Ha. unfold rounds, block_start at 1. rewrite Z.sub_diag.
  rewrite (proj2 (Z.ltb_lt 0 kHeaderSize)) by lia. fold avail.
  rewrite (proj2 (Z.eqb_neq (kBlockSize - 0 - kHeaderSize) 0)) by lia.
  rewrite length_drop. unfold zlen in *. destruct (Z.eqb_spec avail 0); lia.
Qed.

Lemma cut_more o (left : bytes) : 0 <= o <= kBlockSize →
  let avail := kBlockSize - block_start o - kHeaderSize in
  let n := if zlen left <? avail then zlen left else avail in
  (zlen (drop (Z.to_nat n) left) >? 0) = true →
  (zlen left =? n) = false ∧
  (rounds (offset_after o (take (Z.to_nat n) left)) (drop (Z.to_nat n) left) < rounds o left)%nat.
Proof.
  intros Ho avail n E. rewrite Z.gtb_ltb in E. apply Z.ltb_lt in E.
  split; [|by apply cut_next]. apply Z.eqb_neq. intros Heq. rewrite <- Heq in E.
  unfold zlen in E. rewrite length_drop in E. lia.
Qed.

Lemma cut_final o (left : bytes) : 0 <= o <= kBlockSize →
  let avail := kBlockSize - block_start o - kHeaderSize in
  let n := if zlen left <? avail then zlen left else avail in
  (zlen (drop (Z.to_nat n) left) >? 0) = false →
  (zlen left =? n) = true ∧ take (Z.to_nat n) left = left.
Proof.
  intros Ho avail n E. rewrite Z.gtb_ltb in E. apply Z.ltb_ge in E.
  destruct (block_start_range o Ho) as [Hb1 Hb2].
  assert (Hn : n <= zlen left ∧ 0 <= n).
  { unfold n, avail. pose proof (zlen_nonneg left).
    destruct (Z.ltb_spec (zlen left) (kBlockSize - block_start o - kHeaderSize)); lia. }
  assert (zlen left = n) as Hl.
  { unfold zlen in *. rewrite length_drop in E. lia. }
  split; [by apply Z.eqb_eq|]. apply take_ge. unfold zlen in Hl. lia.
Qed.

Lemma fragment_type_nonzero b e : fragment_type b e ≠ kZeroType.
Proof. by destruct b, e. Qed.

Lemma cut_ok fuel o begin left : 0 <= o <= kBlockSize → bytes_ok left →
  layout_ok o (cut fuel o begin left).
Proof.
  revert o begin left. induction fuel as [|fuel IH]; intros o begin left Ho Hl; [done|].
  cbn [cut layout_ok]. destruct (block_start_range o Ho) as [Hb1 Hb2]. log_consts.
  set (avail := kBlockSize - block_start o - kHeaderSize).
  set (n := if zlen left <? avail then zlen left else avail).
  assert (Hn : 0 <= n <= avail).
  { unfold n. pose proof (zlen_nonneg left). destruct (Z.ltb_spec (zlen left) avail); lia. }
  assert (Hoa : 0 <= offset_after o (take (Z.to_nat n) left) <= kBlockSize).
  { unfold offset_after, zlen. rewrite length_take. unfold avail in *. lia. }
  split_and!; [lia|lia|apply fragment_type_nonzero|by apply bytes_ok_take|lia|].
  destruct (_ >? 0); [|done]. apply IH; [done|by apply bytes_ok_drop].
Qed.

Lemma record_cut_ok o r : 0 <= o <= kBlockSize → bytes_ok r → layout_ok o (record_cut o r).
Proof. apply cut_ok. Qed.

Lemma layout_end_range o frs : layout_ok o frs → 0 <= layout_end o frs <= kBlockSize.
Proof.
  revert o. induction frs as [|[t p] frs IH]; intros o; simpl; [done|].
  intros (_ & _ & _ & _ & H). by apply IH.
Qed.

Section WriterFacts.
Context {F : Type} `{WritableFile F, !ReliableFile F}.

Lemma switch_block_spec (w : Writer F) : 0 <= block_offset_ w <= kBlockSize →
  contents (dest_ (switch_block w)) = contents (dest_ w) ++ pad (block_offset_ w) ∧
  block_offset_ (switch_block w) = block_start (block_offset_ w).
Proof.
  intros Ho. unfold switch_block, pad, block_start.
  destruct (_ <? _); [|by rewrite app_nil_r]. simpl. rewrite Z.gtb_ltb. split; [|done].
  destruct (Z.ltb_spec 0 (kBlockSize - block_offset_ w)).
  - destruct (Append_ok (dest_ w) (repeat 0 (Z.to_nat (kBlockSize - block_offset_ w))))
      as (f' & -> & Hf). done.
  - replace (kBlockSize - block_offset_ w) with 0 by lia. simpl. by rewrite app_nil_r.
Qed.

Lemma EmitPhysicalRecord_spec (w : Writer F) t p :
  ∃ w', EmitPhysicalRecord w t p = (true, w') ∧
  contents (dest_ w') = contents (dest_ w) ++ phys t p ∧
  block_offset_ w' = block_offset_ w + kHeaderSize + zlen p.
Proof.
  unfold EmitPhysicalRecord.
  destruct (Append_ok (dest_ w) (physical_header t p)) as (f1 & -> & H1).
  destruct (Append_ok f1 p) as (f2 & -> & H2). destruct (Flush_ok f2) as (f3 & -> & H3).
  eexists. split; [done|]. split; [|done]. simpl. rewrite H3, H2, H1, <- app_assoc. done.
Qed.

Lemma AddRecord_loop_spec fuel (w : Writer F) begin left :
  0 <= block_offset_ w <= kBlockSize → (rounds (block_offset_ w) left < fuel)%nat →
  ∃ w', AddRecord_loop fuel w begin left = (true, w') ∧
  contents (dest_ w') = contents (dest_ w) ++ layout (block_offset_ w) (cut fuel (block_offset_ w) begin left) ∧
  block_offset_ w' = layout_end (block_offset_ w) (cut fuel (block_offset_ w) begin left).
Proof.
  revert w begin left. induction fuel as [|fuel IH]; intros w begin left Ho Hf; [lia|].
  cbn [AddRecord_loop cut]. destruct (switch_block_spec w Ho) as [Hc Hs]. rewrite Hs.
  set (avail := kBlockSize - block_start (block_offset_ w) - kHeaderSize).
  set (n := if zlen left <? avail then zlen left else avail).
  destruct (EmitPhysicalRecord_spec (switch_block w)
    (fragment_type begin (zlen left =? n)) (take (Z.to_nat n) left)) as (w1 & -> & Hc1 & Ho1).
  rewrite Hs in Ho1. change (block_offset_ w1 = offset_after (block_offset_ w) (take (Z.to_nat n) left)) in Ho1.
  rewrite Hc, <- app_assoc in Hc1. simpl andb. cbv iota.
  destruct (zlen (drop (Z.to_nat n) left) >? 0) eqn:E.
  - rewrite Z.gtb_ltb in E. apply Z.ltb_lt in E.
    destruct (cut_next (block_offset_ w) left Ho E) as [Ha Hr]. fold avail n in Ha, Hr.
    destruct (IH w1 false (drop (Z.to_nat n) left)) as (w2 & -> & Hc2 & Ho2).
    + rewrite Ho1, Ha. log_consts. lia.
    + rewrite Ho1. lia.
    + exists w2. split; [done|]. cbn [layout layout_end]. rewrite <- Ho1.
      rewrite Hc2, Hc1, <- !app_assoc. done.
  - exists w1. split; [done|]. cbn [layout layout_end]. by rewrite app_nil_r.
Qed.

Lemma AddRecord_spec (w : Writer F) r :
  0 <= block_offset_ w <= kBlockSize →
  ∃ w', AddRecord w r = (true, w') ∧
  contents (dest_ w') = contents (dest_ w) ++ layout (block_offset_ w) (record_cut (block_offset_ w) r) ∧
  block_offset_ w' = layout_end (block_offset_ w) (record_cut (block_offset_ w) r).
Proof.
  intros Ho. apply AddRecord_loop_spec; [done|]. unfold rounds. destruct (_ =? _); lia.
Qed.

Lemma AddRecords_spec (w : Writer F) rs :
  0 <= block_offset_ w <= kBlockSize → Forall bytes_ok rs →
  ∃ w', AddRecords w rs = (true, w') ∧
  contents (dest_ w') = contents (dest_ w) ++ layout (block_offset_ w) (log_cut (block_offset_ w) rs).
Proof.
  intros Ho Hrs. revert w Ho. induction Hrs as [|r rs Hr Hrs IH]; intros w Ho;
    cbn [AddRecords log_cut].
  - exists w. by rewrite app_nil_r.
  - destruct (AddRecord_spec w r Ho) as (w1 & -> & Hc1 & Ho1).
    destruct (IH w1) as (w2 & -> & Hc2).
    { rewrite Ho1. by apply layout_end_range, record_cut_ok. }
    exists w2. split; [done|]. rewrite layout_app, app_assoc, <- Hc1, <- Ho1. exact Hc2.
Qed.
End WriterFacts.

(** What every operation on the file preserves, [AddRecord] preserves. *)
Lemma AddRecord_preserves {F : Type} `{!WritableFile F} (P : F → Prop) (w : Writer F) r :
  (∀ f d, P f → P (Append f d).2) → (∀ f, P f → P (Flush f).2) → P (dest_ w) → P (dest_ (AddRecord w r).2).
Proof.
  intros HA HF. unfold AddRecord. generalize true as begin. revert w. generalize r at 2 as left.
  generalize (S (S (length r))) as fuel. intros fuel. induction fuel as [|fuel IH]; intros left w begin Hw; [done|]. cbn [AddRecord_loop].
  assert (Hs : P (dest_ (switch_block w))) by (unfold switch_block; repeat case_match; simpl; auto).
  set (w1 := switch_block w) in *. clearbody w1. set (t := fragment_type _ _). clearbody t. set (p := take _ left). set (rest := drop _ left). clearbody p rest.
  assert (He : P (dest_ (EmitPhysicalRecord w1 t p).2)).
  { unfold EmitPhysicalRecord. pose proof (HA (dest_ w1) (physical_header t p) Hs) as H1. destruct (Append (dest_ w1) _) as [[] f1]; simpl in *; [|done].
    pose proof (HA f1 p H1) as H2. destruct (Append f1 p) as [[] f2]; simpl in *; [|done]. pose proof (HF f2 H2) as H3. by destruct (Flush f2) as [? f3]. }
  destruct (EmitPhysicalRecord w1 t p) as [ok w2]. simpl in He. destruct (ok && _); [by apply IH|done].
Qed.

Lemma layout_end_app o l k : layout_end o (l ++ k) = layout_end (layout_end o l) k.
Proof. revert o. induction l as [|[t p] l IH]; intros o; simpl; [done|apply IH]. Qed.

Lemma log_cut_snoc o rs r : log_cut o (rs ++ [r]) = log_cut o rs ++ record_cut (layout_end o (log_cut o rs)) r.
Proof.
  revert o. induction rs as [|x rs IH]; intros o; cbn [log_cut app]; [by rewrite app_nil_r|]. by rewrite IH, layout_end_app, <- app_assoc.
Qed.

Lemma log_cut_end o rs : 0 <= o <= kBlockSize → Forall bytes_ok rs → 0 <= layout_end o (log_cut o rs) <= kBlockSize.
Proof.
  intros Ho H. revert o Ho. induction H as [|r rs Hr H IH]; intros o Ho; cbn [log_cut]; [done|]. rewrite layout_end_app.
  apply IH. by apply layout_end_range, record_cut_ok.
Qed.

(** ** Reading records *)

Lemma aligned_last r o data x : 0 <= x → aligned r o data → aligned (with_last x r) o data.
Proof. intros Hx []. by split. Qed.

Lemma aligned_fuel r o data : aligned r o data → reader_fuel r = S (length data).
Proof.
  intros []. unfold reader_fuel. rewrite al_buffer0, al_rest0, <- length_app, take_drop. done.
Qed.

(** Reading the fragments of one record, from inside it ([begin = false]) or from
    its start: the record comes out whole, or the file ends first. *)
Lemma ReadRecord_cut fuel o begin left r data tail more scratch pros g :
  aligned r o data → bytes_ok left → (rounds o left < fuel)%nat → 0 <= pros →
  data ++ tail = layout o (cut fuel o begin left) ++ more →
  (length data < g)%nat →
  ∃ res r', ReadRecord_loop g r (negb begin) scratch pros = (res, r') ∧ reports r' = reports r ∧
    ((∃ data', res = Some ((if begin then [] else scratch) ++ left) ∧
        data = layout o (cut fuel o begin left) ++ data' ∧
        aligned r' (layout_end o (cut fuel o begin left)) data' ∧ more = data' ++ tail) ∨
     (res = None ∧ zlen data < zlen (layout o (cut fuel o begin left)))).
Proof.
  revert o begin left r data scratch pros g.
  induction fuel as [|fuel IH]; intros o begin left r data scratch pros g Hal Hl Hf Hpros Hd Hg; [lia|].
  pose proof (al_range _ _ _ Hal) as Ho. pose proof (cut_ok (S fuel) o begin left Ho Hl) as Hok.
  destruct g as [|g]; [lia|]. cbn [cut layout layout_end layout_ok] in *.
  set (avail := kBlockSize - block_start o - kHeaderSize) in *.
  set (n := if zlen left <? avail then zlen left else avail) in *.
  set (p := take (Z.to_nat n) left) in *. set (t := fragment_type begin (zlen left =? n)) in *.
  set (rest := drop (Z.to_nat n) left) in *.
  set (frs := if zlen rest >? 0 then cut fuel (offset_after o p) false rest else []) in *.
  destruct Hok as (_ & Ht & Hp & Hfit & _).
  rewrite <- !app_assoc in Hd.
  destruct (ReadPhysical_layout r o t p data tail (layout (offset_after o p) frs ++ more))
    as (res & r1 & Hread & Hrep & Hcase); [done..|].
  cbn [ReadRecord_loop]. rewrite Hread.
  destruct Hcase as [(data' & -> & Hdata & Hal1 & Hmore)|[-> Hshort]]; last first.
  { exists None, r1. split; [done|]. split; [done|]. right. split; [done|].
    rewrite zlen_app in Hshort. rewrite !zlen_app. pose proof (zlen_nonneg (layout (offset_after o p) frs)). lia. }
  pose proof (u64_range (end_of_buffer_offset_ r - zlen (buffer_ r))) as Hphys.
  revert Hphys. generalize (u64 (end_of_buffer_offset_ r - zlen (buffer_ r))). intros off Hoff.
  assert (Hg' : (length data' < g)%nat).
  { rewrite Hdata, !length_app in Hg. unfold phys in Hg.
    rewrite length_app, physical_header_length in Hg. lia. }
  destruct (zlen rest >? 0) eqn:E.
  - destruct (cut_more o left Ho E) as [Hend Hr].
    fold avail n p rest in Hend, Hr.
    assert (Et : t = fragment_type begin false) by (unfold t; by rewrite Hend).
    clearbody t. subst t.
    destruct (IH (offset_after o p) false rest r1 data' (if begin then p else scratch ++ p)
      (if begin then off else pros) g) as (res2 & r2 & Hread2 & Hrep2 & Hcase2).
    { done. } { by apply bytes_ok_drop. } { lia. } { destruct begin; [apply Hoff|done]. }
    { symmetry. exact Hmore. } { done. }
    exists res2, r2. split; [destruct begin; exact Hread2|]. split; [congruence|].
    destruct Hcase2 as [(data2 & -> & -> & Hal2 & Hmore2)|[-> Hlt]].
    + left. exists data2. split_and!; [|by rewrite Hdata, <- !app_assoc|done|done].
      f_equal. destruct begin; [by rewrite app_nil_l; unfold p, rest; rewrite take_drop|].
      unfold p, rest. by rewrite <- app_assoc, take_drop.
    + right. split; [done|]. rewrite Hdata, !zlen_app. unfold frs. lia.
  - destruct (cut_final o left Ho E) as [Hend Hpl]. fold avail n p rest in Hend, Hpl.
    assert (Et : t = fragment_type begin true) by (unfold t; by rewrite Hend).
    clearbody t. subst t. destruct begin.
    + exists (Some p), (with_last off r1). split; [done|]. split; [done|]. left. exists data'.
      split_and!; [by rewrite Hpl|by rewrite Hdata, <- !app_assoc| |done].
      apply aligned_last; [apply Hoff|done].
    + exists (Some (scratch ++ p)), (with_last pros r1). split; [done|]. split; [done|].
      left. exists data'.
      split_and!; [by rewrite Hpl|by rewrite Hdata, <- !app_assoc| |done].
      by apply aligned_last.
Qed.

(** One whole record, with the fuel [ReadRecord] gives itself. *)
Lemma ReadRecord_record r o rec data tail more :
  aligned r o data → bytes_ok rec → data ++ tail = layout o (record_cut o rec) ++ more →
  ∃ res r', ReadRecord r = (res, r') ∧ reports r' = reports r ∧
    ((∃ data', res = Some rec ∧ data = layout o (record_cut o rec) ++ data' ∧
        aligned r' (layout_end o (record_cut o rec)) data' ∧ more = data' ++ tail) ∨
     (res = None ∧ zlen data < zlen (layout o (record_cut o rec)))).
Proof.
  intros Hal Hrec Hd. unfold ReadRecord.
  rewrite (al_initial _ _ _ Hal), (proj2 (Z.ltb_ge _ 0)) by apply (al_last _ _ _ Hal).
  rewrite (aligned_fuel r o data Hal).
  apply (ReadRecord_cut _ o true rec r data tail more [] 0 _ Hal Hrec); [|lia|done|lia].
  unfold rounds. destruct (_ =? _); lia.
Qed.

Lemma ReadRecord_end r o : aligned r o [] → ∃ r', ReadRecord r = (None, r') ∧ reports r' = reports r.
Proof.
  intros Hal. unfold ReadRecord.
  rewrite (al_initial _ _ _ Hal), (proj2 (Z.ltb_ge _ 0)) by apply (al_last _ _ _ Hal).
  rewrite (aligned_fuel r o [] Hal). cbn [ReadRecord_loop length].
  destruct (ReadPhysical_end r o Hal) as (r' & -> & Hr). exists r'. split; [reflexivity|done].
Qed.

(** The number of leading records wholly inside the first [n] bytes of a log. *)
Fixpoint complete (o n : Z) (rs : list bytes) : nat :=
  match rs with
  | [] => O
  | r :: rs' =>
      let l := zlen (layout o (record_cut o r)) in
      if l <=? n then S (complete (layout_end o (record_cut o r)) (n - l) rs') else O
  end.

(** A fragment occupies at least its header. *)
Lemma record_cut_nonempty o r : 7 <= zlen (layout o (record_cut o r)).
Proof.
  unfold record_cut. cbn [cut layout]. rewrite !zlen_app, zlen_phys.
  pose proof (zlen_nonneg (pad o)). repeat match goal with
    |- context [zlen ?x] => lazymatch goal with H : 0 <= zlen x |- _ => fail | _ => pose proof (zlen_nonneg x) end end.
  lia.
Qed.

Lemma ReadAll_log fuel r o data tail rs :
  aligned r o data → Forall bytes_ok rs → data ++ tail = layout o (log_cut o rs) →
  (length data < fuel)%nat →
  ∃ r', ReadAll_loop fuel r = (take (complete o (zlen data) rs) rs, r') ∧ reports r' = reports r.
Proof.
  intros Hal Hrs. revert fuel r o data Hal.
  induction Hrs as [|rec rs Hrec Hrs IH]; intros fuel r o data Hal Hd Hf;
    (destruct fuel as [|fuel]; [lia|]); cbn [ReadAll_loop complete log_cut] in *.
  - simpl in Hd. apply app_nil in Hd as [-> _].
    destruct (ReadRecord_end r o Hal) as (r' & -> & Hr). eauto.
  - rewrite layout_app in Hd.
    destruct (ReadRecord_record r o rec data tail _ Hal Hrec Hd) as (res & r1 & -> & Hrep & Hcase).
    pose proof (record_cut_nonempty o rec) as H7.
    destruct Hcase as [(data' & -> & -> & Hal' & Hmore)|[-> Hlt]].
    + destruct (IH fuel r1 _ data' Hal' (eq_sym Hmore)) as (r2 & Hr2 & Hrep2).
      { rewrite length_app in Hf. unfold zlen in H7. lia. }
      rewrite Hr2, zlen_app. exists r2. split; [|congruence].
      rewrite (proj2 (Z.leb_le _ _)) by (pose proof (zlen_nonneg data'); lia).
      replace (zlen (layout o (record_cut o rec)) + zlen data' - zlen (layout o (record_cut o rec)))
        with (zlen data') by lia. done.
    + rewrite (proj2 (Z.leb_gt _ _)) by lia. eauto.
Qed.

Lemma complete_all o rs : complete o (zlen (layout o (log_cut o rs))) rs = length rs.
Proof.
  revert o. induction rs as [|r rs IH]; intros o; cbn [complete log_cut]; [done|].
  rewrite layout_app, zlen_app.
  rewrite (proj2 (Z.leb_le _ _))
    by (pose proof (zlen_nonneg (layout (layout_end o (record_cut o r)) (log_cut (layout_end o (record_cut o r)) rs))); lia).
  simpl length. f_equal. rewrite <- (IH (layout_end o (record_cut o r))). f_equal. lia.
Qed.

Lemma complete_max o m rs k : (k <= length rs)%nat →
  zlen (layout o (log_cut o (take k rs))) <= m → (k <= complete o m rs)%nat.
Proof.
  revert o m k. induction rs as [|r rs IH]; intros o m k Hk Hm; simpl in Hk; [lia|].
  destruct k as [|k]; [lia|]. cbn [take log_cut complete] in *.
  rewrite layout_app, zlen_app in Hm.
  pose proof (zlen_nonneg (layout (layout_end o (record_cut o r))
    (log_cut (layout_end o (record_cut o r)) (take k rs)))).
  rewrite (proj2 (Z.leb_le _ _)) by lia. apply le_n_S, IH; lia.
Qed.

(** ** Termination of the reader on arbitrary input *)

Definition remaining (r : Reader) : nat := length (buffer_ r) + length (sf_rest (file_ r)).

Lemma ReportDrop_remaining n x r : remaining (ReportDrop n x r) = remaining r.
Proof. unfold ReportDrop. by destruct (_ && _). Qed.

Lemma Parse_remaining r : kHeaderSize <= zlen (buffer_ r) →
  (remaining (ParsePhysicalRecord r).2 < remaining r)%nat.
Proof.
  intros Hb. log_consts. unfold zlen in Hb.
  assert (Hdrop : (remaining (with_buffer [] r) < remaining r)%nat) by (unfold remaining; simpl; lia).
  unfold ParsePhysicalRecord. cbv zeta.
  destruct (_ >? _).
  { destruct (negb _); simpl; [|done]. unfold ReportCorruption. by rewrite ReportDrop_remaining. }
  destruct (_ && _); [done|].
  destruct (_ && _); [simpl; unfold ReportCorruption; by rewrite ReportDrop_remaining|].
  set (len := _ .| _). assert (0 <= len).
  { unfold len. apply Z.lor_nonneg. rewrite !land_255. split; [dlia|].
    rewrite Z.shiftl_mul_pow2 by lia. dlia. }
  destruct (_ <? _); simpl; unfold remaining; simpl; rewrite length_drop; lia.
Qed.

(** Two rounds are enough: the result does not depend on further fuel. *)
Lemma ReadPhysicalRecord_fuel k r :
  ReadPhysicalRecord_loop (S (S k)) r = ReadPhysicalRecord r.
Proof.
  log_consts. unfold ReadPhysicalRecord. cbn [ReadPhysicalRecord_loop].
  destruct (zlen (buffer_ r) <? kHeaderSize); [|done]. destruct (eof_ r) eqn:E; [done|]. simpl negb.
  cbv iota. destruct (SequentialFile_Read kBlockSize (file_ r)) as [[buf f]|]; [|done].
  destruct (Z.ltb_spec (zlen buf) kBlockSize); cbn [buffer_ eof_ with_file].
  - by destruct (zlen buf <? kHeaderSize).
  - by rewrite (proj2 (Z.ltb_ge _ _)) by lia.
Qed.

Lemma ReadPhysicalRecord_remaining r :
  (ReadPhysicalRecord r).1.1 = kEof ∨ (remaining (ReadPhysicalRecord r).2 < remaining r)%nat.
Proof.
  log_consts. rewrite <- (ReadPhysicalRecord_fuel 0). cbn [ReadPhysicalRecord_loop].
  destruct (Z.ltb_spec (zlen (buffer_ r)) kHeaderSize); [|right; by apply Parse_remaining].
  destruct (eof_ r); simpl negb; cbv iota; [by left|].
  unfold SequentialFile_Read. destruct (sf_error (file_ r)); [by left|].
  cbn [buffer_ eof_ with_file].
  destruct (Z.ltb_spec (zlen (take (Z.to_nat kBlockSize) (sf_rest (file_ r)))) kHeaderSize) as [Hs|Hs].
  - rewrite (proj2 (Z.ltb_lt _ kBlockSize)) by lia. by left.
  - right. eapply Nat.lt_le_trans; [apply Parse_remaining; exact Hs|].
    unfold remaining. simpl. rewrite length_take, length_drop. lia.
Qed.

Lemma ReadRecord_loop_fuel f1 f2 r b s p :
  (remaining r < f1)%nat → (f1 <= f2)%nat →
  ReadRecord_loop f2 r b s p = ReadRecord_loop f1 r b s p.
Proof.
  revert f2 r b s p. induction f1 as [|f1 IH]; intros f2 r b s p Hr Hf; [lia|].
  destruct f2 as [|f2]; [lia|]. cbn [ReadRecord_loop].
  pose proof (ReadPhysicalRecord_remaining r) as Hrem.
  destruct (ReadPhysicalRecord r) as [[t fr] r1]. simpl in Hrem.
  assert (Hrec : t ≠ kEof → ∀ n x b s p (c : bool),
    ReadRecord_loop f2 (if c then ReportCorruption n x r1 else r1) b s p =
    ReadRecord_loop f1 (if c then ReportCorruption n x r1 else r1) b s p).
  { intros Ht n x b' s' p' c. destruct Hrem as [?|Hrem]; [done|]. apply IH; [|lia].
    destruct c; [unfold ReportCorruption; rewrite ReportDrop_remaining|]; lia. }
  destruct (Z.eqb_spec t (RecordType_code kFullType)); [done|].
  destruct (Z.eqb_spec t (RecordType_code kFirstType)) as [->|].
  { apply (Hrec ltac:(done)). }
  destruct (Z.eqb_spec t (RecordType_code kMiddleType)) as [->|].
  { destruct (negb b); [apply (Hrec ltac:(done) _ _ _ _ _ true)|apply (Hrec ltac:(done) 0 IOError _ _ _ false)]. }
  destruct (Z.eqb_spec t (RecordType_code kLastType)) as [->|].
  { destruct (negb b); [apply (Hrec ltac:(done) _ _ _ _ _ true)|done]. }
  destruct (Z.eqb_spec t kEof); [done|].
  destruct (Z.eqb_spec t kBadRecord) as [->|].
  { destruct b; [apply (Hrec ltac:(done) _ _ _ _ _ true)|apply (Hrec ltac:(done) 0 IOError _ _ _ false)]. }
  apply (Hrec ltac:(done) _ _ _ _ _ true).
Qed.

(** ** The start of a file is the end of a block *)

Lemma block_start_start : block_start kBlockSize = block_start 0.
Proof.
  log_consts. unfold block_start. rewrite Z.sub_diag, Z.sub_0_r.
  by rewrite (proj2 (Z.ltb_lt 0 kHeaderSize)), (proj2 (Z.ltb_ge kBlockSize kHeaderSize)) by lia.
Qed.

Lemma cut_start fuel begin left : cut fuel kBlockSize begin left = cut fuel 0 begin left.
Proof.
  destruct fuel as [|fuel]; [done|]. cbn [cut]. unfold offset_after. by rewrite block_start_start.
Qed.

Lemma layout_start frs : layout kBlockSize frs = layout 0 frs ∧
  (frs ≠ [] → layout_end kBlockSize frs = layout_end 0 frs).
Proof.
  log_consts.
  assert (Hp : pad kBlockSize = pad 0).
  { unfold pad. rewrite Z.sub_diag, Z.sub_0_r.
    by rewrite (proj2 (Z.ltb_lt 0 kHeaderSize)), (proj2 (Z.ltb_ge kBlockSize kHeaderSize)) by lia. }
  destruct frs as [|[t p] frs]; [done|]. cbn [layout layout_end]. unfold offset_after.
  by rewrite block_start_start, Hp.
Qed.

Lemma log_cut_start rs : layout kBlockSize (log_cut kBlockSize rs) = layout 0 (log_cut 0 rs).
Proof.
  rewrite (proj1 (layout_start _)). destruct rs as [|r rs]; [done|]. cbn [log_cut].
  unfold record_cut. rewrite cut_start.
  rewrite (proj2 (layout_start (cut (S (S (length r))) 0 true r))); [done|]. done.
Qed.

(** A reader opened on the first bytes of a log, written from an empty file. *)
Lemma ReadAll_opened data tail rs reporter checksum :
  Forall bytes_ok rs → data ++ tail = layout 0 (log_cut 0 rs) →
  ∃ r', ReadAll (Reader_make {| sf_rest := data; sf_error := false |} reporter checksum 0)
    = (take (complete kBlockSize (zlen data) rs) rs, r') ∧ reports r' = [].
Proof.
  intros Hrs Hd. rewrite <- log_cut_start in Hd.
  pose proof (aligned_make {| sf_rest := data; sf_error := false |} reporter checksum eq_refl) as Hal.
  unfold ReadAll. rewrite (aligned_fuel _ _ _ Hal).
  eapply ReadAll_log; [exact Hal|done|exact Hd|simpl; lia].
Qed.

(** ** An in-memory file, for the witnesses *)

#[export] Instance MemFile : WritableFile bytes := {|
  Append f d := (true, f ++ d); Flush f := (true, f); contents f := f |}.
#[export] Instance MemFile_ok : ReliableFile bytes.
Proof. split; intros; eexists; done. Qed.

(** ** Properties *)

(** [C20] Log round trip: whatever records are appended to an empty reliable file,
    of any sizes and crossing any number of block boundaries, every append
    succeeds and a reader returns exactly those records in order, then the end of
    the file, reporting no corruption, with or without checksum verification. *)
Theorem log_roundtrip (F : Type) (W : WritableFile F) (R : ReliableFile F) (f : F)
    (rs : list bytes) (reporter checksum : bool) :
  contents f = [] → Forall bytes_ok rs →
  ∃ w' r', AddRecords (Writer_make f) rs = (true, w') ∧
    ReadAll (Reader_make {| sf_rest := contents (dest_ w'); sf_error := false |} reporter checksum 0)
      = (rs, r') ∧ reports r' = [].
Proof.
  intros Hf Hrs. destruct (AddRecords_spec (Writer_make f) rs) as (w' & Hw & Hc); [|done|].
  { simpl. log_consts. lia. }
  simpl in Hc. rewrite Hf in Hc. simpl in Hc.
  destruct (ReadAll_opened (contents (dest_ w')) [] rs reporter checksum Hrs) as (r' & Hr & Hrep).
  { by rewrite app_nil_r, Hc. }
  exists w', r'. split; [done|]. split; [|done].
  rewrite Hr, Hc, <- log_cut_start, complete_all, firstn_all. done.
Qed.

Lemma log_roundtrip_witness :
  ∃ w' r', AddRecords (Writer_make (F:=bytes) []) [[1; 2; 3]; []; [255]] = (true, w') ∧
    ReadAll (Reader_make {| sf_rest := contents (dest_ w'); sf_error := false |} true true 0)
      = ([[1; 2; 3]; []; [255]], r') ∧ reports r' = [].
Proof.
  apply (log_roundtrip bytes MemFile MemFile_ok [] [[1; 2; 3]; []; [255]] true true);
    [reflexivity | by_compute].
Defined.

(** [C27] Crash safety of the log: if only the first bytes of a log reached the
    disk, cut at any byte, the reader returns a prefix of the appended records
    that contains every record written completely, then ends, and the torn tail
    is never reported as corruption. *)
Theorem log_crash_prefix (F : Type) (W : WritableFile F) (R : ReliableFile F) (f : F)
    (rs : list bytes) (reporter checksum : bool) (w' : Writer F) (data tail : bytes) :
  contents f = [] → Forall bytes_ok rs →
  AddRecords (Writer_make f) rs = (true, w') → contents (dest_ w') = data ++ tail →
  ∃ n r', ReadAll (Reader_make {| sf_rest := data; sf_error := false |} reporter checksum 0)
      = (take n rs, r') ∧ reports r' = [] ∧
    (∀ k wk, (k <= length rs)%nat → AddRecords (Writer_make f) (take k rs) = (true, wk) →
       zlen (contents (dest_ wk)) <= zlen data → (k <= n)%nat).
Proof.
  intros Hf Hrs Hw Hc. log_consts.
  destruct (AddRecords_spec (Writer_make f) rs) as (w1 & Hw1 & Hc1); [simpl; lia|done|].
  rewrite Hw in Hw1. injection Hw1 as <-. simpl in Hc1. rewrite Hf, app_nil_l, Hc in Hc1.
  destruct (ReadAll_opened data tail rs reporter checksum Hrs Hc1) as (r' & Hr & Hrep).
  exists (complete kBlockSize (zlen data) rs), r'. split; [done|]. split; [done|].
  intros k wk Hk Hwk Hle. apply complete_max; [done|].
  destruct (AddRecords_spec (Writer_make f) (take k rs)) as (w2 & Hw2 & Hc2);
    [simpl; lia|by apply Forall_take|].
  rewrite Hwk in Hw2. injection Hw2 as <-. simpl in Hc2. rewrite Hf, app_nil_l in Hc2.
  by rewrite log_cut_start, <- Hc2.
Qed.

Lemma log_crash_prefix_witness :
  ∃ w' data tail n r', AddRecords (Writer_make (F:=bytes) []) [[1; 2; 3]; [4]] = (true, w') ∧
    contents (dest_ w') = data ++ tail ∧ zlen data = 12 ∧
    ReadAll (Reader_make {| sf_rest := data; sf_error := false |} true true 0)
      = (take n [[1; 2; 3]; [4]], r') ∧ reports r' = [].
Proof.
  destruct (AddRecords_spec (F:=bytes) (Writer_make []) [[1; 2; 3]; [4]]) as (w' & Hw & _);
    [vm_compute; intuition congruence | by_compute |].
  destruct (log_crash_prefix bytes MemFile MemFile_ok [] [[1; 2; 3]; [4]] true true w'
    (take 12 (contents (dest_ w'))) (drop 12 (contents (dest_ w')))) as (n & r' & H1 & H2 & _);
    [reflexivity | by_compute | exact Hw | by rewrite take_drop |].
  exists w', (take 12 (contents (dest_ w'))), (drop 12 (contents (dest_ w'))), n, r'.
  split; [exact Hw|]. split; [by rewrite take_drop|]. split; [|split; [exact H1|exact H2]].
  vm_compute in Hw. injection Hw as <-. reflexivity.
Defined.

(** The reader terminates on every input, corrupt or not: no loop of
    [ReadPhysicalRecord] or [ReadRecord] uses up the rounds it is given, so more
    rounds never change the result. *)
Theorem log_reader_terminates (r : Reader) (k : nat) (b : bool) (s : bytes) (p : Z) :
  ReadPhysicalRecord_loop (3 + k) r = ReadPhysicalRecord r ∧
  ReadRecord_loop (reader_fuel r + k) r b s p = ReadRecord_loop (reader_fuel r) r b s p.
Proof.
  split; [apply (ReadPhysicalRecord_fuel (S k))|].
  apply ReadRecord_loop_fuel; unfold reader_fuel, remaining; lia.
Qed.
