(* ===== verification/Random.v ===== *)
(** * The pseudo-random generator

    Model of [App/integration/random.h], a Lehmer generator that reduces modulo
    the Mersenne prime [2^31 - 1] without dividing. *)
From S2P Require Import Prelude.

#[local] Open Scope Z_scope.
#[local] Open Scope word_scope.

Record Random := { seed_ : Z }.

Definition Random_make (s : Z) : Random :=
  let seed := s .& 0x7fffffff in
  {| seed_ := if (seed =? 0) || (seed =? 2147483647) then 1 else seed |}.

(** The value returned is the new seed. *)
Definition Random_Next (r : Random) : Z * Random :=
  let M := 2147483647 in
  let A := 16807 in
  let product := u64 (seed_ r * A) in
  let seed := u32 ((product .>> 31) + (product .& M)) in
  let seed := if seed >? M then seed - M else seed in
  (seed, {| seed_ := seed |}).

Definition Random_Uniform (n : Z) (r : Random) : Z * Random :=
  let '(x, r) := Random_Next r in (x mod n, r).

Definition Random_OneIn (n : Z) (r : Random) : bool * Random :=
  let '(x, r) := Random_Next r in (x mod n =? 0, r).

Definition Random_Skewed (max_log : Z) (r : Random) : Z * Random :=
  let '(base, r) := Random_Uniform (max_log + 1) r in
  Random_Uniform (1 .<< base) r.

(** ** The seed stays in [1, 2^31 - 2] *)

Definition seed_ok (r : Random) : Prop := 1 <= seed_ r <= 2147483646.

Lemma land_31 x : x .& 2147483647 = x mod 2147483648.
Proof. apply (Z.land_ones x 31). lia. Qed.

Lemma Random_make_ok s : seed_ok (Random_make s).
Proof.
  unfold seed_ok, Random_make. rewrite land_31. pose proof (Z.mod_pos_bound s 2147483648 ltac:(lia)).
  cbn [seed_]. destruct (Z.eqb_spec (s mod 2147483648) 0); cbn [orb]; [lia|].
  destruct (Z.eqb_spec (s mod 2147483648) 2147483647); cbv iota; lia.
Qed.

(** No seed is a multiple of the prime, so neither is its product with 16807. *)
Lemma product_mod_nonzero s : 1 <= s <= 2147483646 → (s * 16807) mod 2147483647 ≠ 0.
Proof.
  intros Hs H. apply Z.mod_divide in H; [|lia]. rewrite Z.mul_comm in H.
  apply Z.gauss in H; [|reflexivity]. destruct H as [q Hq]. nia.
Qed.

(** The shift-and-add reduction is the remainder. *)
Lemma Random_Next_mod r : seed_ok r →
  (Random_Next r).1 = (seed_ r * 16807) mod 2147483647 ∧ seed_ok (Random_Next r).2.
Proof.
  unfold seed_ok, Random_Next. intros Hs. cbn [fst snd seed_].
  pose proof (product_mod_nonzero _ Hs) as Hnz.
  set (P := seed_ r * 16807) in *. assert (0 < P < 2 ^ 46) by (unfold P; lia).
  unfold u64. rewrite (Z.mod_small P) by lia.
  rewrite land_31, Z.shiftr_div_pow2 by lia.
  change (2 ^ 31) with 2147483648. unfold u32. change (2 ^ 32) with 4294967296.
  pose proof (Z.div_mod P 2147483648 ltac:(lia)) as Hdm.
  pose proof (Z.mod_pos_bound P 2147483648 ltac:(lia)) as Hm.
  assert (0 <= P / 2147483648 < 2 ^ 15).
  { split; [apply Z.div_pos; lia|]. apply Z.div_lt_upper_bound; lia. }
  rewrite (Z.mod_small (P / 2147483648 + P mod 2147483648)) by lia.
  set (q := P / 2147483648) in *. set (m := P mod 2147483648) in *.
  assert (HP : P mod 2147483647 = (q + m) mod 2147483647).
  { replace P with (q + m + q * 2147483647) by lia. apply Z.mod_add. lia. }
  rewrite HP in *. destruct (q + m >? 2147483647) eqn:E; rewrite Z.gtb_ltb in E.
  - apply Z.ltb_lt in E.
    assert ((q + m) mod 2147483647 = q + m - 2147483647) as ->; [|lia].
    symmetry. apply (Z.mod_unique_pos _ _ 1); lia.
  - apply Z.ltb_ge in E. destruct (decide (q + m = 2147483647)) as [Heq|].
    + rewrite Heq in Hnz. by rewrite Z.mod_same in Hnz by lia.
    + rewrite Z.mod_small in Hnz |- * by lia. lia.
Qed.

(** ** Properties *)

(** The generator: from a constructed state, [Next] returns the product of the
    seed and 16807 modulo the prime [2^31 - 1], computed without a division, and
    the seed never becomes zero or the prime itself, so the sequence never
    degenerates. *)
Theorem random_next_lehmer (s : Z) (n : nat) :
  let r := Nat.iter n (λ r, (Random_Next r).2) (Random_make s) in
  (Random_Next r).1 = (seed_ r * 16807) mod 2147483647 ∧ 1 <= (Random_Next r).1 <= 2147483646.
Proof.
  intros r. assert (Hr : seed_ok r).
  { unfold r. clear r. induction n as [|n IH]; [apply Random_make_ok|].
    exact (proj2 (Random_Next_mod _ IH)). }
  destruct (Random_Next_mod r Hr) as [-> Hs]. split; [done|].
  unfold seed_ok in Hs. by rewrite <- (proj1 (Random_Next_mod r Hr)).
Qed.
