(* ===== verification/SkipList.v ===== *)
(** * The skip list

    Model of [App/integration/skiplist.h], the ordered set behind a memtable. Nodes
    live in a store and point to each other by index, node 0 being [head_]; the
    store only grows, as the arena does.  The memory barriers are not modelled:
    the theorems are about one thread. *)
From S2P Require Import Prelude Random.
From stdpp Require Import sorting list sets.

#[local] Open Scope Z_scope.

Definition kMaxHeight : nat := 12.

Section SkipList.
Context {K : Type}.

(** [next_] has as many entries as the node has levels. *)
Record Node := { node_key : K; next_ : list (option nat) }.

Record SkipList := {
  compare_ : K → K → Z;
  nodes : list Node;
  max_height_ : nat;
  rnd_ : Random;
}.

Definition head_ : nat := O.

Definition height (s : SkipList) (x : nat) : nat :=
  match nodes s !! x with Some nd => length (next_ nd) | None => O end.

(** [x->Next(level)]. *)
Definition Next (s : SkipList) (x level : nat) : option nat :=
  match nodes s !! x with
  | Some nd => default None (next_ nd !! level)
  | None => None
  end.

(** [x->SetNext(level, y)]. *)
Definition SetNext (x level : nat) (y : option nat) (s : SkipList) : SkipList :=
  {| compare_ := compare_ s;
   nodes := alter (λ nd, {| node_key := node_key nd; next_ := <[level := y]> (next_ nd) |}) x (nodes s);
   max_height_ := max_height_ s; rnd_ := rnd_ s |}.

(** The new node goes to the end of the store; its links are not set yet. *)
Definition NewNode (key : K) (h : nat) (s : SkipList) : nat * SkipList :=
  (length (nodes s),
   {| compare_ := compare_ s; nodes := nodes s ++ [{| node_key := key; next_ := repeat None h |}];
  max_height_ := max_height_ s; rnd_ := rnd_ s |}).

Definition with_max_height (h : nat) (s : SkipList) : SkipList :=
  {| compare_ := compare_ s; nodes := nodes s; max_height_ := h; rnd_ := rnd_ s |}.
Definition with_rnd (r : Random) (s : SkipList) : SkipList :=
  {| compare_ := compare_ s; nodes := nodes s; max_height_ := max_height_ s; rnd_ := r |}.

(** The constructor: a head of full height with no successor. *)
Definition SkipList_make (cmp : K → K → Z) (any : K) : SkipList :=
  {| compare_ := cmp; nodes := [{| node_key := any; next_ := repeat None kMaxHeight |}];
   max_height_ := 1; rnd_ := Random_make 0xdeadbeef |}.

Fixpoint RandomHeight_loop (fuel : nat) (h : nat) (r : Random) : nat * Random :=
  match fuel with
  | O => (h, r)
  | S fuel' =>
      if (h <? kMaxHeight)%nat then
      let '(x, r) := Random_Next r in
      if x mod 4 =? 0 then RandomHeight_loop fuel' (S h) r else (h, r)
      else (h, r)
  end.

Definition RandomHeight (s : SkipList) : nat * SkipList :=
  let '(h, r) := RandomHeight_loop kMaxHeight 1 (rnd_ s) in (h, with_rnd r s).

Definition Equal (s : SkipList) (a b : K) : bool := compare_ s a b =? 0.

(** [n != NULL && compare_(n->key, key) < 0] *)
Definition KeyIsAfterNode (s : SkipList) (key : K) (n : option nat) : bool :=
  match n with
  | None => false
  | Some x => match nodes s !! x with
      | Some nd => compare_ s (node_key nd) key <? 0
      | None => false
      end
  end.

(** The loop of [FindGreaterOrEqual]; [prev] collects [prev[level] = x]. The fuel
  counts the moves right plus the moves down. *)
Fixpoint FindGE_loop (fuel : nat) (s : SkipList) (key : K) (x level : nat)
  (prev : list nat) : option (option nat * list nat) :=
  match fuel with
  | O => None
  | S fuel' =>
      let next := Next s x level in
      if KeyIsAfterNode s key next then
      match next with
      | Some y => FindGE_loop fuel' s key y level prev
      | None => None
      end
      else
      let prev := <[level := x]> prev in
      match level with
      | O => Some (next, prev)
      | S level' => FindGE_loop fuel' s key x level' prev
      end
  end.

(** Every node is passed at most once, and there are at most twelve levels. *)
Definition find_fuel (s : SkipList) : nat := length (nodes s) + kMaxHeight.

Definition FindGreaterOrEqual (s : SkipList) (key : K) : option (option nat * list nat) :=
  FindGE_loop (find_fuel s) s key head_ (max_height_ s - 1) (repeat head_ kMaxHeight).

(** [for (i = GetMaxHeight(); i < height; i++) prev[i] = head_], then the new height. *)
Fixpoint fill_prev (n : nat) (i : nat) (prev : list nat) : list nat :=
  match n with
  | O => prev
  | S n' => fill_prev n' (S i) (<[i := head_]> prev)
  end.

(** [for (i = 0; i < height; i++)]: splice node [x] in, level by level. *)
Fixpoint splice (n i : nat) (x : nat) (prev : list nat) (s : SkipList) : SkipList :=
  match n with
  | O => s
  | S n' =>
      let p := default head_ (prev !! i) in
      let s := SetNext x i (Next s p i) s in
      let s := SetNext p i (Some x) s in
      splice n' (S i) x prev s
  end.

Definition Insert (key : K) (s : SkipList) : option SkipList :=
  match FindGreaterOrEqual s key with
  | None => None
  | Some (_, prev) =>
      let '(h, s) := RandomHeight s in
      let '(prev, s) :=
      if (max_height_ s <? h)%nat
      then (fill_prev (h - max_height_ s) (max_height_ s) prev, with_max_height h s)
      else (prev, s) in
      let '(x, s) := NewNode key h s in
      Some (splice h 0 x prev s)
  end.

Definition Contains (key : K) (s : SkipList) : option bool :=
  match FindGreaterOrEqual s key with
  | None => None
  | Some (None, _) => Some false
  | Some (Some x, _) =>
      Some (match nodes s !! x with Some nd => Equal s key (node_key nd) | None => false end)
  end.

(** [FindLessThan] and [FindLast] go right while the test holds, then down. *)
Fixpoint FindLast_loop (fuel : nat) (s : SkipList) (go : nat → bool) (x level : nat) : option nat :=
  match fuel with
  | O => None
  | S fuel' =>
      match Next s x level with
      | Some y =>
          if go y then FindLast_loop fuel' s go y level
          else match level with
          | O => Some x
          | S level' => FindLast_loop fuel' s go x level'
          end
      | None =>
          match level with
          | O => Some x
          | S level' => FindLast_loop fuel' s go x level'
          end
      end
  end.

Definition FindLessThan (s : SkipList) (key : K) : option nat :=
  FindLast_loop (find_fuel s) s
  (λ y, match nodes s !! y with Some nd => compare_ s (node_key nd) key <? 0 | None => false end)
  head_ (max_height_ s - 1).

Definition FindLast (s : SkipList) : option nat :=
  FindLast_loop (find_fuel s) s (λ _, true) head_ (max_height_ s - 1).

(** ** Iterator: a position is a node, or none *)

Definition not_head (x : nat) : option nat := if (x =? head_)%nat then None else Some x.

Definition Iterator_Next (s : SkipList) (x : nat) : option nat := Next s x 0.
Definition Iterator_Prev (s : SkipList) (x : nat) : option (option nat) :=
  match nodes s !! x with
  | Some nd => not_head <$> FindLessThan s (node_key nd)
  | None => None
  end.
Definition Iterator_Seek (s : SkipList) (target : K) : option (option nat) :=
  fst <$> FindGreaterOrEqual s target.
Definition Iterator_SeekToFirst (s : SkipList) : option nat := Next s head_ 0.
Definition Iterator_SeekToLast (s : SkipList) : option (option nat) := not_head <$> FindLast s.
End SkipList.
Arguments Node : clear implicits.
Arguments SkipList : clear implicits.

(** ** The order the list relies on *)

(** A strict weak order on the keys that are [valid], given by the sign of [cmp]. *)
Class OrderOk {K : Type} (valid : K → Prop) (cmp : K → K → Z) : Prop := {
  order_swap a b : valid a → valid b → cmp a b < 0 ↔ 0 < cmp b a;
  order_trans a b c : valid a → valid b → valid c → cmp a b < 0 → cmp b c < 0 → cmp a c < 0;
  order_cong a b c : valid a → valid b → valid c → cmp a b = 0 → cmp c b < 0 → cmp c a < 0;
}.

Section Invariant.
Context {K : Type} (valid : K → Prop).

Definition key_of (s : SkipList K) (x : nat) : option K := node_key <$> nodes s !! x.

(** The first node of [c] that reaches above level [l]. *)
Fixpoint first_above (s : SkipList K) (l : nat) (c : list nat) : option nat :=
  match c with
  | [] => None
  | y :: c' => if (l <? height s y)%nat then Some y else first_above s l c'
  end.

Definition node_lt (s : SkipList K) (x y : nat) : Prop :=
  ∃ a b, key_of s x = Some a ∧ key_of s y = Some b ∧ compare_ s a b < 0.

(** The nodes of [chain] are linked at level 0 in this order, each level [l] linking
  exactly those of height above [l]. *)
Record Inv (s : SkipList K) (chain : list nat) : Prop := {
  inv_head : height s head_ = kMaxHeight;
  inv_max : (1 <= max_height_ s <= kMaxHeight)%nat;
  inv_node x : x ∈ chain → x ≠ head_ ∧ (1 <= height s x <= max_height_ s)%nat ∧
  ∃ k, key_of s x = Some k ∧ valid k;
  inv_sorted : StronglySorted (node_lt s) chain;
  inv_nodup : NoDup (head_ :: chain);
  inv_length : length (nodes s) = S (length chain);
  inv_link c1 x c2 : head_ :: chain = c1 ++ x :: c2 →
  ∀ l, (l < height s x)%nat → Next s x l = first_above s l c2;
}.

(** The keys the list represents, in order. *)
Definition keys (s : SkipList K) (chain : list nat) : list K := omap (key_of s) chain.

Lemma first_above_app s l c d :
  first_above s l (c ++ d) =
  match first_above s l c with Some y => Some y | None => first_above s l d end.
Proof. induction c as [|y c IH]; simpl; [done|]. by destruct (_ <? _)%nat. Qed.

Lemma first_above_Some s l c y : first_above s l c = Some y →
  ∃ d1 d2, c = d1 ++ y :: d2 ∧ (l < height s y)%nat.
Proof.
  induction c as [|z c IH]; simpl; [done|]. destruct (Nat.ltb_spec l (height s z)).
  - intros [= ->]. by exists [], c.
  - intros (d1 & d2 & -> & Hy)%IH. by exists (z :: d1), d2.
Qed.

Lemma first_above_None s l c : first_above s l c = None ↔
  ∀ y, y ∈ c → (height s y <= l)%nat.
Proof.
  induction c as [|z c IH]; simpl.
  - split; [|done]. intros _ y Hy. by apply not_elem_of_nil in Hy.
  - destruct (Nat.ltb_spec l (height s z)) as [Hz|Hz].
    + split; [done|]. intros H. specialize (H z (list_elem_of_here _ _)). lia.
    + rewrite IH. split; intros H y Hy.
      * apply elem_of_cons in Hy as [->|Hy]; [done|by apply H].
      * apply H. by right.
Qed.

Lemma first_above_ext s s' l c : (∀ y, y ∈ c → height s' y = height s y) →
  first_above s' l c = first_above s l c.
Proof.
  induction c as [|z c IH]; simpl; [done|]. intros H. rewrite H by left.
  destruct (_ <? _)%nat; [done|]. apply IH. intros y Hy. apply H. by right.
Qed.

(** *** Walking right and down *)

(** [A] is the part of the chain the walk passes, [B] the part it stops before. *)
Section Walk.
Context (s : SkipList K) (A B : list nat).
Hypothesis HI : Inv s (A ++ B).

(** The last node of [head_ :: A] that reaches level [l]. *)
Definition prev_at (l p : nat) : Prop :=
  ∃ a1 a2, head_ :: A = a1 ++ p :: a2 ∧ (l < height s p)%nat ∧
  ∀ y, y ∈ a2 → (height s y <= l)%nat.

Lemma tail_in_A a1 x a2 y : head_ :: A = a1 ++ x :: a2 → y ∈ a2 → y ∈ A.
Proof. intros H Hy. destruct a1; simplify_eq/=; set_solver. Qed.

Lemma walk_last a1 x a2 : head_ :: A = a1 ++ x :: a2 →
  (∀ y, y ∈ a2 → (height s y <= 0)%nat) → a2 = [].
Proof using HI.
  intros Hs Hy. destruct a2 as [|y a2]; [done|]. exfalso.
  assert (y ∈ A ++ B) as Hin by (apply elem_of_app; left; eapply tail_in_A; [done|set_solver]).
  apply (inv_node _ _ HI) in Hin as (_ & Hh & _).
  assert (height s y <= 0)%nat by (apply Hy, list_elem_of_here). lia.
Qed.

Lemma first_above_0_B : first_above s 0 B = head B.
Proof using HI.
  destruct B as [|b B']; [done|]. simpl.
  destruct (inv_node _ _ HI b) as (_ & Hh & _); [set_solver|].
  destruct (Nat.ltb_spec 0 (height s b)); [done|lia].
Qed.

Context (go : nat → bool).
Hypothesis HA : ∀ y, y ∈ A → go y = true.
Hypothesis HB : ∀ y, y ∈ B → go y = false.

(** Where [Next] leads from inside the passed part. *)
Lemma walk_next a1 x a2 l : head_ :: A = a1 ++ x :: a2 → (l < height s x)%nat →
  (∃ y d1 d2, Next s x l = Some y ∧ go y = true ∧ a2 = d1 ++ y :: d2 ∧ (l < height s y)%nat) ∨
  (Next s x l = first_above s l B ∧ (∀ y, y ∈ a2 → (height s y <= l)%nat) ∧
   ∀ y, Next s x l = Some y → go y = false).
Proof using HI HA HB.
  intros Hs Hl. assert (Hn : Next s x l = first_above s l (a2 ++ B)).
  { apply (inv_link _ _ HI a1); [|done]. by rewrite app_comm_cons, Hs, <- app_assoc. }
  rewrite first_above_app in Hn. destruct (first_above s l a2) as [y|] eqn:E.
  - apply first_above_Some in E as (d1 & d2 & -> & Hy). left. exists y, d1, d2.
    split; [done|]. split; [|done]. apply HA. eapply tail_in_A; [done|]. set_solver.
  - rewrite first_above_None in E. right. split; [done|]. split; [done|].
    intros y Hy. rewrite Hn in Hy. apply first_above_Some in Hy as (d1 & d2 & -> & _).
    apply HB. set_solver.
Qed.

(** The two search loops stop at the boundary between [A] and [B]. *)
Lemma FindLast_loop_spec n : ∀ fuel a1 x a2 l,
  head_ :: A = a1 ++ x :: a2 → (l < height s x)%nat →
  (length a2 + l <= n)%nat → (n < fuel)%nat →
  FindLast_loop fuel s go x l = Some (List.last A head_).
Proof using HI HA HB.
  induction n as [n IH] using lt_wf_ind. intros fuel a1 x a2 l Hs Hl Hn Hf.
  destruct fuel as [|fuel]; [lia|]. simpl.
  assert (Hdown : (∀ y, y ∈ a2 → (height s y <= l)%nat) →
    match l with O => Some x | S l' => FindLast_loop fuel s go x l' end = Some (List.last A head_)).
  { intros Hy. destruct l as [|l].
    - assert (a2 = []) as -> by (eapply walk_last; eauto). f_equal.
      assert (List.last (head_ :: A) head_ = x) as <- by (rewrite Hs; apply List.last_last).
      by destruct A.
    - eapply (IH (length a2 + l)%nat); eauto; lia. }
  destruct (walk_next _ _ _ _ Hs Hl) as [(y & d1 & d2 & -> & -> & -> & Hy)|(-> & Ha & Hgo)].
  - eapply (IH (length d2 + l)%nat (ltac:(rewrite length_app in Hn; simpl in Hn; lia)) _ (a1 ++ x :: d1));
      [by rewrite Hs, <- app_assoc|done|lia|]. rewrite length_app in Hn; simpl in Hn; lia.
  - destruct (first_above s l B) as [y|] eqn:E; [|by apply Hdown].
    apply first_above_Some in E as (e1 & e2 & HeB & _). rewrite HB by (rewrite HeB; set_solver).
    by apply Hdown.
Qed.
End Walk.

Section Find.
Context (s : SkipList K) (A B : list nat) (key : K).
Hypothesis HI : Inv s (A ++ B).
Hypothesis HA : ∀ y, y ∈ A → KeyIsAfterNode s key (Some y) = true.
Hypothesis HB : ∀ y, y ∈ B → KeyIsAfterNode s key (Some y) = false.

Lemma FindGE_loop_spec n : ∀ fuel a1 x a2 l prev,
  head_ :: A = a1 ++ x :: a2 → (l < height s x)%nat → (l < length prev)%nat →
  (length a2 + l <= n)%nat → (n < fuel)%nat →
  ∃ prev', FindGE_loop fuel s key x l prev = Some (head B, prev') ∧ length prev' = length prev ∧
  (∀ l', (l' <= l)%nat → ∃ p, prev' !! l' = Some p ∧ prev_at s A l' p) ∧
  (∀ l', (l < l')%nat → prev' !! l' = prev !! l').
Proof using HI HA HB.
  induction n as [n IH] using lt_wf_ind. intros fuel a1 x a2 l prev Hs Hl Hp Hn Hf.
  destruct fuel as [|fuel]; [lia|]. cbn [FindGE_loop].
  destruct (walk_next s A B HI (λ y, KeyIsAfterNode s key (Some y)) HA HB _ _ _ _ Hs Hl)
    as [(y & d1 & d2 & -> & Hgo & -> & Hy)|(HN & Ha & Hgo)].
  - cbv beta in Hgo. rewrite Hgo.
    eapply (IH (length d2 + l)%nat (ltac:(rewrite length_app in Hn; simpl in Hn; lia)) _ (a1 ++ x :: d1));
      [by rewrite Hs, <- app_assoc|done|done|lia|]. rewrite length_app in Hn; simpl in Hn; lia.
  - assert (KeyIsAfterNode s key (Next s x l) = false) as ->.
    { destruct (Next s x l) as [y|]; [by apply Hgo|done]. }
    assert (Hprev : prev_at s A l x) by (exists a1, a2; done).
    destruct l as [|l].
    + eexists. split; [rewrite HN; rewrite (first_above_0_B s A B HI); done|].
      split; [apply length_insert|]. split; intros l' Hl'.
      * assert (l' = O) as -> by lia. exists x. split; [|done]. by apply list_lookup_insert_eq.
      * apply list_lookup_insert_ne. lia.
    + destruct (IH (length a2 + l)%nat ltac:(lia) fuel a1 x a2 l (<[S l := x]> prev))
        as (prev' & -> & Hlen & Hle & Hgt); [done|lia|rewrite length_insert; lia|lia|lia|].
      exists prev'. split; [done|]. split; [by rewrite Hlen, length_insert|]. split; intros l' Hl'.
      * destruct (decide (l' = S l)) as [->|]; [|apply Hle; lia].
        exists x. split; [|done]. rewrite Hgt by lia. by apply list_lookup_insert_eq.
      * rewrite Hgt by lia. apply list_lookup_insert_ne. lia.
Qed.
End Find.

(** *** The store *)

Implicit Types s : SkipList K.

Lemma height_SetNext s x l v y : height (SetNext x l v s) y = height s y.
Proof.
  unfold height, SetNext; simpl. destruct (decide (x = y)) as [->|].
  - rewrite list_lookup_alter_eq. destruct (nodes s !! y); simpl; [by rewrite length_insert|done].
  - by rewrite list_lookup_alter_ne.
Qed.

Lemma key_of_SetNext s x l v y : key_of (SetNext x l v s) y = key_of s y.
Proof.
  unfold key_of, SetNext; simpl. destruct (decide (x = y)) as [->|].
  - rewrite list_lookup_alter_eq. by destruct (nodes s !! y).
  - by rewrite list_lookup_alter_ne.
Qed.

Lemma Next_SetNext_eq s x l v : (l < height s x)%nat → Next (SetNext x l v s) x l = v.
Proof.
  unfold height, Next, SetNext; simpl. rewrite list_lookup_alter_eq.
  destruct (nodes s !! x); simpl; [|lia]. intros H. by rewrite list_lookup_insert_eq.
Qed.

Lemma Next_SetNext_ne s x l v y l' : x ≠ y ∨ l ≠ l' →
  Next (SetNext x l v s) y l' = Next s y l'.
Proof.
  intros H. unfold Next, SetNext; simpl. destruct (decide (x = y)) as [->|].
  - rewrite list_lookup_alter_eq. destruct (nodes s !! y) as [nd|]; simpl; [|done].
    rewrite list_lookup_insert_ne; [done|]. by destruct H.
  - by rewrite list_lookup_alter_ne.
Qed.

(** What a run of [splice] leaves alone, and what it writes. *)
Lemma splice_frame n : ∀ i x prev s, let s' := splice n i x prev s in
  compare_ s' = compare_ s ∧ max_height_ s' = max_height_ s ∧
  length (nodes s') = length (nodes s) ∧
  (∀ y, height s' y = height s y) ∧ (∀ y, key_of s' y = key_of s y) ∧
  (∀ y l, (l < i ∨ i + n <= l)%nat → Next s' y l = Next s y l).
Proof.
  induction n as [|n IH]; intros i x prev s; [done|]. cbn [splice]. cbv zeta.
  match goal with |- context [splice n _ _ _ ?s1] =>
    destruct (IH (S i) x prev s1) as (Hc & Hm & Hl & Hh & Hk & Hn) end.
  rewrite Hc, Hm, Hl. split; [done|]. split; [done|].
  split; [simpl; by rewrite !length_alter|].
  split; [intros y; by rewrite Hh, !height_SetNext|].
  split; [intros y; by rewrite Hk, !key_of_SetNext|].
  intros y l Hyl. rewrite Hn by lia. rewrite !Next_SetNext_ne; [done|right; lia|right; lia].
Qed.

Lemma splice_next n : ∀ i x prev s l p,
  (i <= l < i + n)%nat → (l < height s x)%nat → prev !! l = Some p →
  (l < height s p)%nat → p ≠ x →
  let s' := splice n i x prev s in
  Next s' x l = Next s p l ∧ Next s' p l = Some x ∧
  (∀ y, y ≠ x → y ≠ p → Next s' y l = Next s y l).
Proof.
  induction n as [|n IH]; intros i x prev s l p Hi Hx Hp Hhp Hne; [lia|].
  cbn [splice]. cbv zeta. destruct (decide (l = i)) as [->|Hli].
  - rewrite Hp. simpl default.
    match goal with |- context [splice n _ _ _ ?s1] =>
      destruct (splice_frame n (S i) x prev s1) as (_ & _ & _ & _ & _ & Hn) end.
    split; [|split].
    + rewrite Hn by lia. rewrite Next_SetNext_ne by (by left). by apply Next_SetNext_eq.
    + rewrite Hn by lia. apply Next_SetNext_eq. by rewrite height_SetNext.
    + intros y Hyx Hyp. rewrite Hn by lia. by rewrite !Next_SetNext_ne by (by left).
  - match goal with |- context [splice n _ _ _ ?s1] =>
      destruct (IH (S i) x prev s1 l p) as (H1 & H2 & H3); [lia|..] end;
      rewrite ?height_SetNext; try done.
    rewrite H1, H2. split; [by rewrite !Next_SetNext_ne by (right; lia)|]. split; [done|].
    intros y Hyx Hyp. rewrite H3 by done. by rewrite !Next_SetNext_ne by (right; lia).
Qed.

Lemma fill_prev_spec n : ∀ i prev, (i + n <= length prev)%nat →
  length (fill_prev n i prev) = length prev ∧
  (∀ l, (i <= l < i + n)%nat → fill_prev n i prev !! l = Some head_) ∧
  (∀ l, (l < i)%nat → fill_prev n i prev !! l = prev !! l).
Proof.
  induction n as [|n IH]; intros i prev Hi; [by repeat split; intros; try lia|]. cbn [fill_prev].
  destruct (IH (S i) (<[i := head_]> prev)) as (Hlen & Hin & Hout); [rewrite length_insert; lia|].
  rewrite length_insert in Hlen. split; [done|]. split; intros l Hl.
  - destruct (decide (l = i)) as [->|]; [|apply Hin; lia].
    rewrite Hout by lia. apply list_lookup_insert_eq. lia.
  - rewrite Hout by lia. apply list_lookup_insert_ne. lia.
Qed.

Lemma RandomHeight_loop_range n : ∀ h r, (1 <= h <= kMaxHeight)%nat →
  (1 <= (RandomHeight_loop n h r).1 <= kMaxHeight)%nat.
Proof.
  induction n as [|n IH]; intros h r Hh; cbn [RandomHeight_loop]; [done|].
  destruct (Nat.ltb_spec h kMaxHeight); [|done].
  destruct (Random_Next r) as [x r']. destruct (x mod 4 =? 0); [apply IH; lia|done].
Qed.

(** *** Searching *)

Lemma KeyIsAfterNode_key s key y : KeyIsAfterNode s key (Some y) =
  match key_of s y with Some k => compare_ s k key <? 0 | None => false end.
Proof. unfold key_of; simpl. by destruct (nodes s !! y). Qed.

(** The keys before [key] are a prefix of a sorted chain. *)
Lemma sorted_split s chain key : OrderOk valid (compare_ s) → Inv s chain → valid key →
  ∃ A B, chain = A ++ B ∧ (∀ y, y ∈ A → KeyIsAfterNode s key (Some y) = true) ∧
    (∀ y, y ∈ B → KeyIsAfterNode s key (Some y) = false).
Proof.
  intros HO HI Hk. destruct HI as [_ _ Hnode Hsort _ _ _].
  induction chain as [|x c IH]; [by exists [], []; repeat split; intros y ?%not_elem_of_nil|].
  apply StronglySorted_inv in Hsort as [Hsort Hx]. rewrite Forall_forall in Hx.
  destruct (KeyIsAfterNode s key (Some x)) eqn:E.
  - destruct IH as (A & B & -> & HA & HB); [intros y Hy; apply Hnode; by right|done|].
    exists (x :: A), B. split; [done|]. split; [|done].
    intros y [->|Hy]%elem_of_cons; auto.
  - exists [], (x :: c). split; [done|]. split; [by intros y ?%not_elem_of_nil|].
    intros y [->|Hy]%elem_of_cons; [done|]. rewrite KeyIsAfterNode_key in E |- *.
    destruct (Hx y Hy) as (a & b & Ha & Hb & Hab). rewrite Ha in E. rewrite Hb.
    destruct (Hnode x (list_elem_of_here _ _)) as (_ & _ & a' & Ha' & Va).
    destruct (Hnode y) as (_ & _ & b' & Hb' & Vb); [by right|]. simplify_eq.
    rewrite Z.ltb_ge in E |- *. destruct (Z.lt_ge_cases (compare_ s b key) 0); [|done].
    pose proof (order_trans (valid := valid) a b key Va Vb Hk Hab ltac:(done)). lia.
Qed.

Lemma FindGreaterOrEqual_spec s A B key : Inv s (A ++ B) →
  (∀ y, y ∈ A → KeyIsAfterNode s key (Some y) = true) →
  (∀ y, y ∈ B → KeyIsAfterNode s key (Some y) = false) →
  ∃ prev, FindGreaterOrEqual s key = Some (head B, prev) ∧ length prev = kMaxHeight ∧
    ∀ l, (l < max_height_ s)%nat → ∃ p, prev !! l = Some p ∧ prev_at s A l p.
Proof.
  intros HI HA HB. pose proof (inv_max _ _ HI). pose proof (inv_length _ _ HI) as Hlen.
  rewrite length_app in Hlen. unfold FindGreaterOrEqual.
  destruct (FindGE_loop_spec s A B key HI HA HB (length A + (max_height_ s - 1)) (find_fuel s)
    [] head_ A (max_height_ s - 1) (repeat head_ kMaxHeight)) as (prev & -> & Hl & Hle & _).
  - done.
  - rewrite (inv_head _ _ HI). lia.
  - rewrite repeat_length. lia.
  - lia.
  - unfold find_fuel. lia.
  - exists prev. split; [done|]. split; [by rewrite Hl, repeat_length|].
    intros l Hlt. apply Hle. lia.
Qed.

(** *** Inserting a node between [A] and [B] *)

Lemma prev_at_unique s A l p q : prev_at s A l p → prev_at s A l q → p = q.
Proof.
  intros (a1 & a2 & Ha & Hp & Hpa) (b1 & b2 & Hb & Hq & Hqb). rewrite Ha in Hb.
  apply app_eq_inv in Hb as [(k & -> & Hk)|(k & -> & Hk)]; destruct k as [|z k]; simplify_eq/=; try done.
  - specialize (Hqb p ltac:(set_solver)). lia.
  - specialize (Hpa q ltac:(set_solver)). lia.
Qed.

Lemma app_cons_split {X} (P Q c1 c2 : list X) x z : P ++ x :: Q = c1 ++ z :: c2 →
  (∃ a2, P = c1 ++ z :: a2 ∧ c2 = a2 ++ x :: Q) ∨ (z = x ∧ c1 = P ∧ c2 = Q) ∨
  (∃ b1, c1 = P ++ x :: b1 ∧ Q = b1 ++ z :: c2).
Proof.
  intros [(k & -> & Hk)|(k & -> & Hk)]%app_eq_inv; destruct k as [|y k]; simplify_eq/=; eauto.
  - right; left. by rewrite app_nil_r.
  - right; left. by rewrite app_nil_r.
Qed.

Lemma NewNode_frame s key h y : y ≠ length (nodes s) → let s' := (NewNode key h s).2 in
  height s' y = height s y ∧ key_of s' y = key_of s y ∧ ∀ l, Next s' y l = Next s y l.
Proof.
  intros Hy. unfold height, key_of, Next; simpl.
  assert ((nodes s ++ [{| node_key := key; next_ := repeat None h |}]) !! y = nodes s !! y) as ->; [|done].
  destruct (decide (y < length (nodes s))%nat); [by rewrite lookup_app_l|].
  rewrite !lookup_ge_None_2; [done|lia|rewrite length_app; simpl; lia].
Qed.

Lemma Inv_raise s c h r : Inv s c → (max_height_ s <= h <= kMaxHeight)%nat →
  Inv (with_max_height h (with_rnd r s)) c.
Proof.
  intros HI Hh. destruct HI as [? ? Hnode ? ? ? Hlink]. constructor; try done; simpl; [lia|..].
  - intros x Hx. destruct (Hnode x Hx) as (? & ? & ?). split; [done|]. split; [|done].
    unfold height in *; simpl in *. lia.
  - intros c1 x c2 Hc l Hl. rewrite (first_above_ext s) by done. by apply (Hlink c1).
Qed.

(** The state [Insert] leaves, from the one where the maximum height is already set. *)
Section Inserted.
Context (s : SkipList K) (A B : list nat) (key : K) (h : nat) (prev : list nat).
Let x : nat := length (nodes s).
Let s' : SkipList K := splice h 0 x prev (NewNode key h s).2.
Hypothesis HI : Inv s (A ++ B).
Hypothesis Hh : (1 <= h <= max_height_ s)%nat.
Hypothesis Hprev : ∀ l, (l < h)%nat → ∃ p, prev !! l = Some p ∧ prev_at s A l p.

Lemma old_ne y : y ∈ head_ :: A ++ B → y ≠ x.
Proof using HI Hh Hprev key.
  intros Hy ->. assert (is_Some (nodes s !! x)) as Hx%lookup_lt_is_Some_1.
  { apply elem_of_cons in Hy as [->|Hy].
    - pose proof (inv_head _ _ HI) as H. unfold height in H. by destruct (nodes s !! head_).
    - destruct (inv_node _ _ HI x Hy) as (_ & _ & k & H & _). unfold key_of in H.
      by destruct (nodes s !! x). }
  by apply Nat.lt_irrefl in Hx.
Qed.

Lemma inserted_old y : y ∈ head_ :: A ++ B →
  height s' y = height s y ∧ key_of s' y = key_of s y.
Proof using HI Hh Hprev key.
  intros Hy%old_ne. destruct (splice_frame h 0 x prev (NewNode key h s).2) as (_ & _ & _ & H1 & H2 & _).
  destruct (NewNode_frame s key h y Hy) as (H3 & H4 & _). unfold s'. by rewrite H1, H2, H3, H4.
Qed.

Lemma inserted_new : height s' x = h ∧ key_of s' x = Some key.
Proof using HI Hh Hprev key.
  destruct (splice_frame h 0 x prev (NewNode key h s).2) as (_ & _ & _ & H1 & H2 & _).
  unfold s'. rewrite H1, H2. unfold height, key_of, x; simpl.
  rewrite list_lookup_middle by done. simpl. by rewrite repeat_length.
Qed.

(** The links of level [l], by whether the new node reaches it. *)
Lemma inserted_next_high y l : y ∈ head_ :: A ++ B → (h <= l)%nat → Next s' y l = Next s y l.
Proof using HI Hh Hprev key.
  intros Hy%old_ne Hl. destruct (splice_frame h 0 x prev (NewNode key h s).2) as (_ & _ & _ & _ & _ & H).
  unfold s'. rewrite H by (right; done). by apply NewNode_frame.
Qed.

Lemma inserted_next_low l : (l < h)%nat → ∃ p, prev_at s A l p ∧
  Next s' x l = Next s p l ∧ Next s' p l = Some x ∧
  ∀ y, y ∈ head_ :: A ++ B → y ≠ p → Next s' y l = Next s y l.
Proof using HI Hh Hprev key.
  intros Hl. destruct (Hprev l Hl) as (p & Hp & Hpa). exists p. split; [done|].
  destruct Hpa as (a1 & a2 & Ha & Hlp & _).
  assert (Hpx : p ≠ x) by (apply old_ne; rewrite app_comm_cons, Ha; clear; set_solver).
  destruct (NewNode_frame s key h p Hpx) as (HF1 & _ & HF2).
  destruct (splice_next h 0 x prev (NewNode key h s).2 l p) as (H1 & H2 & H3); try done; try lia.
  - unfold height, x; simpl. rewrite list_lookup_middle by done. simpl. by rewrite repeat_length.
  - unfold s'. split; [by rewrite H1, HF2|]. split; [done|].
    intros y Hy%old_ne Hyp. rewrite H3 by done. by apply NewNode_frame.
Qed.

Lemma inserted_first_above l c : (∀ y, y ∈ c → y ∈ head_ :: A ++ B) →
  first_above s' l c = first_above s l c.
Proof using HI Hh Hprev key. intros Hc. apply first_above_ext. intros y Hy. by apply inserted_old, Hc. Qed.

Lemma old_in_A y : y ∈ head_ :: A → y ∈ head_ :: A ++ B.
Proof. rewrite app_comm_cons. intros H. apply elem_of_app. by left. Qed.

Lemma inserted_link_A c1 z a2 l : head_ :: A = c1 ++ z :: a2 → (l < height s z)%nat →
  Next s' z l = first_above s' l (a2 ++ x :: B).
Proof using HI Hh Hprev key.
  intros HAz Hlz.
  assert (Hz : z ∈ head_ :: A) by (rewrite HAz; apply elem_of_app; right; left).
  assert (Hold : Next s z l = first_above s l (a2 ++ B)).
  { apply (inv_link _ _ HI c1); [|done]. by rewrite app_comm_cons, HAz, <- app_assoc. }
  assert (Ha2 : ∀ y, y ∈ a2 → y ∈ head_ :: A ++ B).
  { intros y Hy. apply old_in_A. rewrite HAz. apply elem_of_app; right; by right. }
  rewrite first_above_app, inserted_first_above by done. simpl.
  rewrite inserted_first_above by (intros y Hy; right; apply elem_of_app; by right).
  rewrite first_above_app in Hold. destruct inserted_new as [-> _].
  destruct (Nat.ltb_spec l h) as [Hl|Hl]; [|by rewrite inserted_next_high by auto using old_in_A].
  destruct (inserted_next_low l Hl) as (p & Hpa & _ & HNp & Hne).
  destruct (first_above s l a2) as [y|] eqn:E.
  - rewrite Hne; [done|by apply old_in_A|]. intros ->.
    apply first_above_Some in E as (d1 & d2 & -> & Hy).
    destruct Hpa as (b1 & b2 & Hb & _ & Hb2). rewrite Hb in HAz.
    pose proof (inv_nodup _ _ HI) as Hnd. rewrite app_comm_cons, Hb in Hnd.
    apply NoDup_app in Hnd as [Hnd _].
    apply app_eq_inv in HAz as [(k & -> & Hk)|(k & -> & Hk)]; destruct k as [|w k]; simplify_eq/=.
    + specialize (Hb2 y ltac:(clear; set_solver)). lia.
    + rewrite <- app_assoc in Hnd. apply NoDup_app in Hnd as (_ & _ & Hnd).
      apply NoDup_cons in Hnd as [Hnd _]. clear - Hnd. set_solver.
    + specialize (Hb2 y ltac:(clear; set_solver)). lia.
    + specialize (Hb2 y ltac:(clear; set_solver)). lia.
  - rewrite first_above_None in E. assert (p = z) as <-; [|done].
    eapply prev_at_unique; [done|]. by exists c1, a2.
Qed.

Lemma inserted_link c1 z c2 : head_ :: A ++ x :: B = c1 ++ z :: c2 →
  ∀ l, (l < height s' z)%nat → Next s' z l = first_above s' l c2.
Proof using HI Hh Hprev key.
  rewrite app_comm_cons. intros [(a2 & HAz & ->)|[(-> & -> & ->)|(b1 & -> & HB)]]%app_cons_split l Hl.
  - apply (inserted_link_A c1); [done|].
    rewrite <- (proj1 (inserted_old z (old_in_A z ltac:(rewrite HAz; clear; set_solver)))). done.
  - destruct inserted_new as [Hx _]. rewrite Hx in Hl.
    destruct (inserted_next_low l Hl) as (p & (b1 & b2 & Hb & Hlp & Hb2) & -> & _).
    rewrite inserted_first_above by (intros y Hy; right; apply elem_of_app; by right).
    rewrite (inv_link _ _ HI b1 p (b2 ++ B)); [|by rewrite app_comm_cons, Hb, <- app_assoc|done].
    rewrite first_above_app. by rewrite (proj2 (first_above_None s l b2) Hb2).
  - assert (Hz : z ∈ head_ :: A ++ B) by (rewrite HB; clear; set_solver).
    rewrite (proj1 (inserted_old z Hz)) in Hl.
    rewrite inserted_first_above by (intros y Hy; rewrite HB; clear - Hy; set_solver).
    rewrite <- (inv_link _ _ HI (head_ :: A ++ b1) z c2); [|rewrite HB; simpl; by rewrite <- app_assoc|done].
    destruct (Nat.lt_ge_cases l h) as [Hlh|Hlh]; [|by apply inserted_next_high].
    destruct (inserted_next_low l Hlh) as (p & (d1 & d2 & Hd & _) & _ & _ & ->); [done|done|].
    intros <-. pose proof (inv_nodup _ _ HI) as Hnd. rewrite app_comm_cons in Hnd.
    apply NoDup_app in Hnd as (_ & Hnd & _). apply (Hnd z); [rewrite Hd|rewrite HB]; clear; set_solver.
Qed.

Lemma inserted_compare : compare_ s' = compare_ s.
Proof using HI Hh Hprev key.
  by destruct (splice_frame h 0 x prev (NewNode key h s).2) as (H & _).
Qed.

Lemma node_lt_old y z : y ∈ A ++ B → z ∈ A ++ B → node_lt s y z → node_lt s' y z.
Proof using HI Hh Hprev key.
  intros Hy Hz (a & b & Ha & Hb & Hab). exists a, b.
  rewrite (proj2 (inserted_old y (list_elem_of_further _ _ _ Hy))).
  rewrite (proj2 (inserted_old z (list_elem_of_further _ _ _ Hz))).
  by rewrite inserted_compare.
Qed.

Lemma inserted_keys : keys s' (A ++ x :: B) = keys s A ++ key :: keys s B.
Proof using HI Hh Hprev key.
  assert (Hk : ∀ c, (∀ y, y ∈ c → y ∈ A ++ B) → keys s' c = keys s c).
  { induction c as [|y c IH]; [done|]. intros Hc. simpl.
    rewrite (proj2 (inserted_old y ltac:(right; apply Hc; left))), IH; [done|].
    intros z Hz. apply Hc. by right. }
  unfold keys in *. rewrite omap_app. simpl. rewrite (proj2 inserted_new), !Hk; [done|..];
    intros y Hy; apply elem_of_app; auto.
Qed.

Lemma inserted_inv : valid key →
  (∀ y, y ∈ A → ∃ k, key_of s y = Some k ∧ compare_ s k key < 0) →
  (∀ y, y ∈ B → ∃ k, key_of s y = Some k ∧ compare_ s key k < 0) → Inv s' (A ++ x :: B).
Proof using HI Hh Hprev key.
  intros Hk HA HB. destruct inserted_new as [Hhx Hkx]. pose proof (inv_max _ _ HI).
  destruct (splice_frame h 0 x prev (NewNode key h s).2) as (_ & Hmax & Hlen & _).
  fold s' in Hmax, Hlen. constructor.
  - rewrite (proj1 (inserted_old head_ (list_elem_of_here _ _))). apply (inv_head _ _ HI).
  - by rewrite Hmax.
  - intros y Hy. rewrite Hmax. simpl. destruct (decide (y = x)) as [->|Hne].
    + rewrite Hhx, Hkx. split; [|eauto]. apply not_eq_sym, old_ne. left.
    + assert (Hin : y ∈ A ++ B) by (clear - Hy Hne; set_solver).
      destruct (inserted_old y (list_elem_of_further _ _ _ Hin)) as [-> ->].
      by apply (inv_node _ _ HI).
  - pose proof (inv_sorted _ _ HI) as [HAB [HsA HsB]]%StronglySorted_app.
    assert (Hmono : ∀ c, (∀ y, y ∈ c → y ∈ A ++ B) →
      StronglySorted (node_lt s) c → StronglySorted (node_lt s') c).
    { induction c as [|y c IH]; [constructor|]. intros Hc [Hs Hf]%StronglySorted_inv.
      constructor; [apply IH; [|done]; intros z Hz; apply Hc; by right|].
      rewrite Forall_forall in Hf |- *. intros z Hz.
      apply node_lt_old; [apply Hc; left|apply Hc; by right|by apply Hf]. }
    apply StronglySorted_app_2; [|apply Hmono; [set_solver|done]|].
    + intros y z Hy [->|Hz]%elem_of_cons.
      * destruct (HA y Hy) as (k & Hky & Hlt). exists k, key.
        rewrite inserted_compare, (proj2 (inserted_old y ltac:(clear - Hy; set_solver))). done.
      * apply node_lt_old; [clear - Hy; set_solver|clear - Hz; set_solver|by apply HAB].
    + constructor; [apply Hmono; [set_solver|done]|]. rewrite Forall_forall. intros z Hz.
      destruct (HB z Hz) as (k & Hkz & Hlt). exists key, k.
      rewrite inserted_compare, (proj2 (inserted_old z ltac:(clear - Hz; set_solver))). done.
  - pose proof (inv_nodup _ _ HI) as Hnd. rewrite (Permutation_app_comm A (x :: B)). simpl.
    rewrite (Permutation_app_comm B A). apply NoDup_cons in Hnd as [Hn0 Hnd].
    assert (x ∉ A ++ B) by (intros Hin; by apply (old_ne x); [right|]).
    apply NoDup_cons. split; [|by apply NoDup_cons].
    intros [E|E]%elem_of_cons; [|done]. by apply (old_ne head_); [left|].
  - rewrite Hlen. simpl. rewrite !length_app. simpl. rewrite (inv_length _ _ HI), length_app. lia.
  - apply inserted_link.
Qed.
End Inserted.

(** ** What the list promises: a sorted list of keys *)

Definition represents (s : SkipList K) (l : list K) : Prop :=
  OrderOk valid (compare_ s) ∧ ∃ chain, Inv s chain ∧ keys s chain = l.

Fixpoint insert_sorted (cmp : K → K → Z) (key : K) (l : list K) : list K :=
  match l with
  | [] => [key]
  | k :: l' => if cmp k key <? 0 then k :: insert_sorted cmp key l' else key :: l
  end.

Lemma keys_app s c d : keys s (c ++ d) = keys s c ++ keys s d.
Proof. apply omap_app. Qed.

Lemma elem_of_keys s c k : k ∈ keys s c ↔ ∃ y, y ∈ c ∧ key_of s y = Some k.
Proof. apply list_elem_of_omap. Qed.

Lemma insert_sorted_app cmp key l1 l2 : (∀ k, k ∈ l1 → cmp k key < 0) →
  (∀ k, k ∈ l2 → 0 <= cmp k key) → insert_sorted cmp key (l1 ++ l2) = l1 ++ key :: l2.
Proof.
  intros H1 H2. induction l1 as [|k l1 IH]; simpl.
  - destruct l2 as [|k l2]; simpl; [done|].
    destruct (Z.ltb_spec (cmp k key) 0); [|done]. specialize (H2 k (list_elem_of_here _ _)). lia.
  - destruct (Z.ltb_spec (cmp k key) 0); [|specialize (H1 k (list_elem_of_here _ _)); lia].
    rewrite IH; [done|]. intros k' Hk'. apply H1. by right.
Qed.

(** The split at a key, in terms of the keys themselves. *)
Lemma split_keys s A B key : Inv s (A ++ B) →
  (∀ y, y ∈ A → KeyIsAfterNode s key (Some y) = true) →
  (∀ y, y ∈ B → KeyIsAfterNode s key (Some y) = false) →
  (∀ y, y ∈ A → ∃ k, key_of s y = Some k ∧ valid k ∧ compare_ s k key < 0) ∧
  (∀ y, y ∈ B → ∃ k, key_of s y = Some k ∧ valid k ∧ 0 <= compare_ s k key).
Proof.
  intros HI HA HB. split; intros y Hy.
  - specialize (HA y Hy). destruct (inv_node _ _ HI y) as (_ & _ & k & Hk & Vk); [set_solver|].
    exists k. rewrite KeyIsAfterNode_key, Hk in HA. split; [done|]. split; [done|lia].
  - specialize (HB y Hy). destruct (inv_node _ _ HI y) as (_ & _ & k & Hk & Vk); [set_solver|].
    exists k. rewrite KeyIsAfterNode_key, Hk in HB. split; [done|]; split; [done|lia].
Qed.

Lemma Insert_Inv s A B key : OrderOk valid (compare_ s) → Inv s (A ++ B) → valid key →
  (∀ y, y ∈ A → KeyIsAfterNode s key (Some y) = true) →
  (∀ y, y ∈ B → KeyIsAfterNode s key (Some y) = false) →
  (∀ k, k ∈ keys s B → compare_ s k key ≠ 0) →
  ∃ s', Insert key s = Some s' ∧ compare_ s' = compare_ s ∧
    Inv s' (A ++ length (nodes s) :: B) ∧
    keys s' (A ++ length (nodes s) :: B) = keys s A ++ key :: keys s B.
Proof.
  intros HO HI Vk HA HB Hne. destruct (split_keys s A B key HI HA HB) as [HA' HB'].
  destruct (FindGreaterOrEqual_spec s A B key HI HA HB) as (prev & HF & Hlp & Hprev).
  unfold Insert, RandomHeight. rewrite HF.
  pose proof (RandomHeight_loop_range kMaxHeight 1 (rnd_ s) ltac:(unfold kMaxHeight; lia)) as Hh.
  destruct (RandomHeight_loop kMaxHeight 1 (rnd_ s)) as [h r]. simpl fst in Hh.
  change (max_height_ (with_rnd r s)) with (max_height_ s).
  pose (M := Nat.max (max_height_ s) h). pose (s1 := with_max_height M (with_rnd r s)).
  pose proof (inv_max _ _ HI) as Hmx.
  assert (HI1 : Inv s1 (A ++ B)) by (apply Inv_raise; [done|unfold M; lia]).
  pose (prev1 := if (max_height_ s <? h)%nat
    then fill_prev (h - max_height_ s) (max_height_ s) prev else prev).
  assert (Hprev1 : ∀ l, (l < h)%nat → ∃ p, prev1 !! l = Some p ∧ prev_at s1 A l p).
  { intros l Hl. unfold prev1. destruct (Nat.ltb_spec (max_height_ s) h) as [Hlt|Hge].
    2:{ apply (Hprev l). lia. }
    destruct (fill_prev_spec (h - max_height_ s) (max_height_ s) prev) as (_ & Hin & Hout); [lia|].
    destruct (Nat.lt_ge_cases l (max_height_ s)); [rewrite Hout by lia; by apply (Hprev l)|].
    exists head_. split; [apply Hin; lia|]. exists [], A. split; [done|].
    rewrite (inv_head _ _ HI1). split; [lia|]. intros y Hy.
    destruct (inv_node _ _ HI y) as (_ & Hhy & _); [set_solver|].
    change (height s1 y) with (height s y). lia. }
  exists (splice h 0 (length (nodes s1)) prev1 (NewNode key h s1).2).
  assert (Hh1 : (1 <= h <= max_height_ s1)%nat) by (unfold s1, M; simpl; lia).
  split; [|split; [|split]].
  - unfold prev1, s1, M. destruct (Nat.ltb_spec (max_height_ s) h) as [Hlt|Hge].
    + by rewrite Nat.max_r by lia.
    + rewrite Nat.max_l by lia. done.
  - apply (inserted_compare s1 A B key h prev1 HI1 Hh1 Hprev1).
  - apply (inserted_inv s1 A B key h prev1 HI1 Hh1 Hprev1 Vk).
    + intros y Hy. destruct (HA' y Hy) as (k & Hky & _ & Hlt). by exists k.
    + intros y Hy. destruct (HB' y Hy) as (k & Hky & Vky & Hlt). exists k. split; [done|].
      change (compare_ s1) with (compare_ s). apply (order_swap (valid := valid) key k Vk Vky).
      assert (compare_ s k key ≠ 0) by (apply Hne, elem_of_keys; eauto). lia.
  - apply (inserted_keys s1 A B key h prev1 HI1 Hh1 Hprev1).
Qed.

Lemma Inv_make cmp any : Inv (SkipList_make cmp any) [].
Proof.
  constructor; simpl; unfold kMaxHeight; try done; try lia.
  - by intros x ?%not_elem_of_nil.
  - constructor.
  - repeat constructor. by intros ?%not_elem_of_nil.
  - intros [|? []] x c2 Hc lv Hl; simplify_eq/=. unfold Next; simpl.
    by do 12 (destruct lv as [|lv]; [done|]).
Qed.

(** *** Iterators *)

Lemma Iterator_Next_spec s c1 x c2 : Inv s (c1 ++ x :: c2) → Iterator_Next s x = head c2.
Proof.
  intros HI. unfold Iterator_Next.
  assert (Hall : Inv s ((c1 ++ [x]) ++ c2)) by by rewrite <- app_assoc.
  destruct (inv_node _ _ HI x) as (_ & Hx & _); [set_solver|].
  rewrite (inv_link _ _ HI (head_ :: c1) x c2) by (done || lia).
  by apply (first_above_0_B s (c1 ++ [x]) c2).
Qed.

Lemma Iterator_SeekToFirst_spec s c : Inv s c → Iterator_SeekToFirst s = head c.
Proof.
  intros HI. unfold Iterator_SeekToFirst. pose proof (inv_head _ _ HI).
  rewrite (inv_link _ _ HI [] head_ c) by (done || (unfold kMaxHeight in *; lia)).
  by apply (first_above_0_B s [] c).
Qed.

Lemma FindLast_loop_start s A B go : Inv s (A ++ B) → (∀ y, y ∈ A → go y = true) →
  (∀ y, y ∈ B → go y = false) →
  FindLast_loop (find_fuel s) s go head_ (max_height_ s - 1) = Some (List.last A head_).
Proof.
  intros HI HA HB. pose proof (inv_max _ _ HI). pose proof (inv_length _ _ HI) as Hlen.
  rewrite length_app in Hlen.
  apply (FindLast_loop_spec s A B HI go HA HB (length A + (max_height_ s - 1)) _ [] head_ A).
  - done.
  - rewrite (inv_head _ _ HI). lia.
  - lia.
  - unfold find_fuel. lia.
Qed.

Lemma not_head_last s A B : Inv s (A ++ B) → not_head (List.last A head_) = last A.
Proof.
  intros HI. destruct A as [|y A _] using rev_ind; [done|].
  rewrite List.last_last, last_snoc. unfold not_head. destruct (Nat.eqb_spec y head_); [|done].
  destruct (inv_node _ _ HI y) as (Hy & _); [set_solver|done].
Qed.

Lemma Iterator_SeekToLast_spec s c : Inv s c → Iterator_SeekToLast s = Some (last c).
Proof.
  intros HI. rewrite <- (app_nil_r c) in HI. unfold Iterator_SeekToLast, FindLast.
  rewrite (FindLast_loop_start s c [] (λ _, true) HI); [|done|by intros y ?%not_elem_of_nil].
  simpl. by rewrite (not_head_last s c []).
Qed.

Lemma Iterator_Prev_spec s c1 x c2 : OrderOk valid (compare_ s) → Inv s (c1 ++ x :: c2) →
  Iterator_Prev s x = Some (last c1).
Proof.
  intros HO HI. destruct (inv_node _ _ HI x) as (_ & _ & k & Hk & Vk); [set_solver|].
  pose proof (inv_sorted _ _ HI) as [H1 [_ [_ H2]%StronglySorted_inv]]%StronglySorted_app.
  rewrite Forall_forall in H2.
  unfold Iterator_Prev. pose proof Hk as Hk'. unfold key_of in Hk'.
  destruct (nodes s !! x) as [nd|]; simplify_eq/=. unfold FindLessThan.
  rewrite (FindLast_loop_start s c1 (x :: c2)); [by simpl; rewrite (not_head_last s c1 _ HI)|done|..].
  - intros y Hy. destruct (H1 y x Hy (list_elem_of_here _ _)) as (a & b & Ha & Hb & Hab).
    unfold key_of in Ha. destruct (nodes s !! y); simplify_eq/=. by apply Z.ltb_lt.
  - intros y [->|Hy]%elem_of_cons.
    + unfold key_of in Hk. destruct (nodes s !! x); simplify_eq/=. rewrite Hk. apply Z.ltb_ge.
      pose proof (order_swap (valid := valid) _ _ Vk Vk). lia.
    + destruct (H2 y Hy) as (a & b & Ha & Hb & Hab). simplify_eq.
      destruct (inv_node _ _ HI y) as (_ & _ & b' & Hb' & Vb); [set_solver|]. simplify_eq.
      unfold key_of in Hb. destruct (nodes s !! y); simplify_eq/=. apply Z.ltb_ge.
      pose proof (order_swap (valid := valid) _ _ Vk Vb). lia.
Qed.

(** The keys an iterator yields from a position on, forwards and backwards. *)
Fixpoint scan (fuel : nat) (s : SkipList K) (pos : option nat) : option (list K) :=
  match pos, fuel with
  | None, _ => Some []
  | Some _, O => None
  | Some x, S fuel' => k ← key_of s x; l ← scan fuel' s (Iterator_Next s x); Some (k :: l)
  end.

Fixpoint scan_back (fuel : nat) (s : SkipList K) (pos : option nat) : option (list K) :=
  match pos, fuel with
  | None, _ => Some []
  | Some _, O => None
  | Some x, S fuel' =>
      k ← key_of s x; p ← Iterator_Prev s x; l ← scan_back fuel' s p; Some (k :: l)
  end.

Lemma scan_spec s c1 c2 : Inv s (c1 ++ c2) →
  ∀ fuel, (length c2 <= fuel)%nat → scan fuel s (head c2) = Some (keys s c2).
Proof.
  revert c1. induction c2 as [|x c2 IH]; intros c1 HI fuel Hf; [by destruct fuel|].
  destruct fuel as [|fuel]; simpl in Hf; [lia|]. simpl scan.
  destruct (inv_node _ _ HI x) as (_ & _ & k & Hk & _); [set_solver|].
  rewrite (Iterator_Next_spec s c1 x c2 HI), Hk. simpl.
  rewrite (IH (c1 ++ [x])) by (rewrite <- ?app_assoc; done || lia). simpl. by rewrite Hk.
Qed.

Lemma scan_back_spec s c1 : OrderOk valid (compare_ s) → ∀ c2, Inv s (c1 ++ c2) →
  ∀ fuel, (length c1 <= fuel)%nat → scan_back fuel s (last c1) = Some (reverse (keys s c1)).
Proof.
  intros HO. induction c1 as [|x c1 IH] using rev_ind; intros c2 HI fuel Hf; [by destruct fuel|].
  rewrite length_app in Hf. destruct fuel as [|fuel]; simpl in Hf; [lia|].
  rewrite <- app_assoc in HI. rewrite last_snoc. simpl.
  destruct (inv_node _ _ HI x) as (_ & _ & k & Hk & _); [set_solver|].
  rewrite Hk. simpl. rewrite (Iterator_Prev_spec s c1 x c2 HO HI). simpl.
  rewrite (IH _ HI) by lia. simpl. rewrite keys_app, reverse_app. simpl. by rewrite Hk.
Qed.

(** *** The claims *)

Lemma Contains_spec s c key : OrderOk valid (compare_ s) → Inv s c → valid key →
  Contains key s = Some (existsb (λ k, compare_ s key k =? 0) (keys s c)).
Proof.
  intros HO HI Vk. destruct (sorted_split s c key HO HI Vk) as (A & B & -> & HA & HB).
  destruct (FindGreaterOrEqual_spec s A B key HI HA HB) as (prev & HF & _).
  destruct (split_keys s A B key HI HA HB) as [HA' HB'].
  unfold Contains. rewrite HF, keys_app, existsb_app.
  assert (existsb (λ k, compare_ s key k =? 0) (keys s A) = false) as ->.
  { apply not_true_iff_false. intros (k & Hin & Heq)%existsb_exists.
    apply list_elem_of_In, elem_of_keys in Hin as (y & Hy & Hk).
    destruct (HA' y Hy) as (k' & Hk' & Vk' & Hlt). simplify_eq.
    pose proof (order_swap (valid := valid) k key Vk' Vk). lia. }
  simpl. destruct B as [|b B]; [done|]. simpl.
  destruct (HB' b (list_elem_of_here _ _)) as (kb & Hkb & Vkb & Hge).
  pose proof Hkb as Hb. unfold key_of in Hb. rewrite Hkb.
  destruct (nodes s !! b) as [nd|]; simplify_eq/=. f_equal. unfold Equal.
  destruct (Z.eqb_spec (compare_ s key (node_key nd)) 0) as [E|E]; [done|]. symmetry.
  apply not_true_iff_false. intros (k & Hin & Heq%Z.eqb_eq)%existsb_exists.
  apply list_elem_of_In, elem_of_keys in Hin as (y & Hy & Hk).
  destruct (HB' y ltac:(by right)) as (k' & Hk' & Vk' & Hlt). simplify_eq.
  pose proof (inv_sorted _ _ HI) as [_ [_ [_ H2]%StronglySorted_inv]]%StronglySorted_app.
  rewrite Forall_forall in H2. destruct (H2 y Hy) as (a & b' & Ha & Hb' & Hab). simplify_eq.
  pose proof (order_cong (valid := valid) key _ _ Vk Vk' Vkb Heq Hab). lia.
Qed.

Lemma Seek_spec s c key : OrderOk valid (compare_ s) → Inv s c → valid key →
  ∃ pos, Iterator_Seek s key = Some pos ∧
    pos ≫= key_of s = List.find (λ k, negb (compare_ s k key <? 0)) (keys s c).
Proof.
  intros HO HI Vk. destruct (sorted_split s c key HO HI Vk) as (A & B & -> & HA & HB).
  destruct (FindGreaterOrEqual_spec s A B key HI HA HB) as (prev & HF & _).
  destruct (split_keys s A B key HI HA HB) as [HA' HB'].
  unfold Iterator_Seek. rewrite HF. exists (head B). split; [done|].
  rewrite keys_app. clear HI HF HA HB. induction A as [|y A IH]; simpl.
  - destruct B as [|b B]; [done|]. simpl.
    destruct (HB' b (list_elem_of_here _ _)) as (k & -> & _ & Hge). simpl.
    by rewrite (proj2 (Z.ltb_ge _ _) Hge).
  - destruct (HA' y (list_elem_of_here _ _)) as (k & -> & _ & Hlt). simpl.
    rewrite (proj2 (Z.ltb_lt _ _) Hlt). apply IH. intros z Hz. apply HA'. by right.
Qed.
End Invariant.

Lemma represents_make {K} (valid : K → Prop) cmp any :
  OrderOk valid cmp → represents valid (SkipList_make cmp any) [].
Proof. intros HO. split; [done|]. exists []. split; [apply Inv_make|done]. Qed.

Lemma keys_sorted {K} (valid : K → Prop) s c : Inv valid s c →
  StronglySorted (λ a b, compare_ s a b < 0) (keys s c).
Proof.
  intros [_ _ _ Hs _ _ _]. induction c as [|x c IH]; [constructor|].
  apply StronglySorted_inv in Hs as [Hs Hx]. simpl. destruct (key_of s x) as [k|] eqn:E; [|auto].
  constructor; [auto|]. apply Forall_forall. intros k' (y & Hy & Hk')%elem_of_keys.
  rewrite Forall_forall in Hx. destruct (Hx y Hy) as (a & b & Ha & Hb & Hab). by simplify_eq.
Qed.

Lemma Insert_represents {K} (valid : K → Prop) (s : SkipList K) l key :
  represents valid s l → valid key → (∀ k, k ∈ l → compare_ s k key ≠ 0) →
  ∃ s', Insert key s = Some s' ∧ compare_ s' = compare_ s ∧
    represents valid s' (insert_sorted (compare_ s) key l).
Proof.
  intros [HO (c & HI & <-)] Vk Hne.
  destruct (sorted_split valid s c key HO HI Vk) as (A & B & -> & HA & HB).
  destruct (Insert_Inv valid s A B key HO HI Vk HA HB) as (s' & H1 & H2 & H3 & H4).
  { intros k Hk. apply Hne. rewrite keys_app. apply elem_of_app. by right. }
  exists s'. split; [done|]. split; [done|]. split; [by rewrite H2|].
  eexists. split; [done|]. rewrite H4, keys_app.
  destruct (split_keys valid s A B key HI HA HB) as [HA' HB'].
  symmetry; apply insert_sorted_app; intros k (y & Hy & Hk)%elem_of_keys.
  - destruct (HA' y Hy) as (k' & Hk' & _ & ?). by simplify_eq.
  - destruct (HB' y Hy) as (k' & Hk' & _ & ?). by simplify_eq.
Qed.

(** Seeking in a list that represents [l]; a position found is a node with a key. *)
Lemma Seek_represents {K} (valid : K → Prop) (s : SkipList K) l key :
  represents valid s l → valid key →
  ∃ pos, Iterator_Seek s key = Some pos ∧
    pos ≫= key_of s = List.find (λ k, negb (compare_ s k key <? 0)) l ∧
    (∀ x, pos = Some x → is_Some (key_of s x)) ∧
    StronglySorted (λ a b, compare_ s a b < 0) l.
Proof.
  intros [HO (c & HI & <-)] Vk.
  destruct (Seek_spec valid s c key HO HI Vk) as (pos & Hs & Hf). exists pos.
  split; [done|]. split; [done|]. split; [|by apply (keys_sorted valid)].
  intros x ->. destruct (sorted_split valid s c key HO HI Vk) as (A & B & -> & HA & HB).
  destruct (FindGreaterOrEqual_spec valid s A B key HI HA HB) as (prev & HF & _).
  unfold Iterator_Seek in Hs. rewrite HF in Hs. simpl in Hs. destruct B as [|b B]; simplify_eq/=.
  destruct (inv_node _ _ _ HI x) as (_ & _ & k & -> & _); [set_solver|eauto].
Qed.

(** [C23] [Insert] implements insertion into a sorted list: on a skip list that represents
    the keys [l], and for a key equal to none of them, it always returns (the search
    fuel suffices whatever heights the generator draws), the result is again a well
    linked skip list, and it represents [l] with [key] at its sorted place. *)
Theorem skiplist_insert_refines {K} (valid : K → Prop) (s : SkipList K) (l : list K) (key : K) :
  represents valid s l → valid key → (∀ k, k ∈ l → compare_ s k key ≠ 0) →
  ∃ s', Insert key s = Some s' ∧ compare_ s' = compare_ s ∧
    represents valid s' (insert_sorted (compare_ s) key l).
Proof. apply Insert_represents. Qed.

#[local] Instance Zsub_order : OrderOk (λ _ : Z, True) Z.sub.
Proof. constructor; intros; lia. Qed.

Lemma skiplist_insert_refines_witness :
  ∃ s1 s2, Insert 5 (SkipList_make Z.sub 0) = Some s1 ∧ Insert 3 s1 = Some s2 ∧
    represents (λ _, True) s2 [3; 5].
Proof.
  destruct (skiplist_insert_refines (λ _, True) (SkipList_make Z.sub 0) [] 5) as (s1 & H1 & C1 & R1).
  { apply represents_make, Zsub_order. } { done. } { by intros k ?%not_elem_of_nil. }
  destruct (skiplist_insert_refines (λ _, True) s1 [5] 3) as (s2 & H2 & C2 & R2).
  { done. } { done. } { intros k ->%list_elem_of_singleton. by rewrite C1. }
  exists s1, s2. rewrite C1 in R2. done.
Defined.

(** The read operations of a skip list that represents [l]: [Contains] decides
    membership up to the comparator, [Seek] stops at the first key not below the
    target, iterating with [Next] from [SeekToFirst] yields exactly [l] in strictly
    increasing order, and iterating with [Prev] from [SeekToLast] yields it reversed. *)
Theorem skiplist_reads_sorted_list {K} (valid : K → Prop) (s : SkipList K) (l : list K) (key : K) :
  represents valid s l → valid key →
  Contains key s = Some (existsb (λ k, compare_ s key k =? 0) l) ∧
  (∃ pos, Iterator_Seek s key = Some pos ∧
     pos ≫= key_of s = List.find (λ k, negb (compare_ s k key <? 0)) l) ∧
  StronglySorted (λ a b, compare_ s a b < 0) l ∧
  scan (length (nodes s)) s (Iterator_SeekToFirst s) = Some l ∧
  Iterator_SeekToLast s ≫= scan_back (length (nodes s)) s = Some (reverse l).
Proof.
  intros [HO (c & HI & <-)] Vk. pose proof (inv_length _ _ _ HI).
  split; [by apply (Contains_spec valid)|]. split; [by apply (Seek_spec valid)|].
  split; [by apply (keys_sorted valid)|]. split.
  - rewrite (Iterator_SeekToFirst_spec valid s c HI). apply (scan_spec valid s [] c HI). lia.
  - rewrite (Iterator_SeekToLast_spec valid s c HI). simpl.
    apply (scan_back_spec valid s c HO []); [by rewrite app_nil_r|lia].
Qed.

Lemma skiplist_reads_sorted_list_witness :
  ∃ s, Insert 5 (SkipList_make Z.sub 0) = Some s ∧ Contains 5 s = Some true ∧
    scan (length (nodes s)) s (Iterator_SeekToFirst s) = Some [5].
Proof.
  destruct (Insert_represents (λ _, True) (SkipList_make Z.sub 0) [] 5) as (s1 & H1 & C1 & R1).
  { apply represents_make, Zsub_order. } { done. } { by intros k ?%not_elem_of_nil. }
  destruct (skiplist_reads_sorted_list (λ _, True) s1 [5] 5 R1 I) as (HC & _ & _ & HS & _).
  exists s1. rewrite HC, C1. done.
Defined.
