(* ===== verification/Logging.v ===== *)
(** * Numbers and strings as text

    Model of [App/integration/logging.h] and [logging.cpp], and of the [snprintf]
    formats the program uses: [%llu], [%06llu] and [\x%02x]. *)
From S2P Require Import Prelude.
From stdpp Require Export strings.

#[local] Open Scope Z_scope.

(** The bytes of a string literal. *)
Definition str (s : string) : bytes :=
  (λ a, Z.of_N (Ascii.N_of_ascii a)) <$> String.list_ascii_of_string s.
Arguments str s%_string_scope.

(** [%llu]: at most twenty digits for a 64-bit number. *)
Fixpoint dec_loop (fuel : nat) (n : Z) (acc : bytes) : bytes :=
  match fuel with
  | O => acc
  | S fuel' =>
      let acc := (48 + n mod 10) :: acc in
      if n / 10 =? 0 then acc else dec_loop fuel' (n / 10) acc
  end.
Definition dec (n : Z) : bytes := dec_loop 20 n [].

(** [%0<w>llu] *)
Definition zero_pad (w : nat) (s : bytes) : bytes := repeat 48 (w - length s) ++ s.

Definition hex_digit (n : Z) : Z := if n <? 10 then 48 + n else 87 + n.

Definition AppendNumberTo (s : bytes) (num : Z) : bytes := s ++ dec num.
Definition NumberToString (num : Z) : bytes := AppendNumberTo [] num.

Fixpoint AppendEscapedStringTo (s value : bytes) : bytes :=
  match value with
  | [] => s
  | c :: value' =>
      AppendEscapedStringTo
        (if (32 <=? c) && (c <=? 126) then s ++ [c]
         else s ++ [92; 120; hex_digit (c / 16); hex_digit (c mod 16)]) value'
  end.
Definition EscapeString (value : bytes) : bytes := AppendEscapedStringTo [] value.

Definition kMaxUint64 : Z := 2 ^ 64 - 1.
Definition is_digit (c : Z) : bool := (48 <=? c) && (c <=? 57).

(** The loop of [ConsumeDecimalNumber]: the value and the number of digits, or
    [None] on overflow, with the rest of the input. *)
Fixpoint consume_digits (v : Z) (digits : nat) (s : bytes) : option (Z * nat) * bytes :=
  match s with
  | c :: s' =>
      if is_digit c then
        let delta := c - 48 in
        if (v >? kMaxUint64 / 10) || ((v =? kMaxUint64 / 10) && (delta >? kMaxUint64 mod 10))
        then (None, s)
        else consume_digits (u64 (v * 10 + delta)) (S digits) s'
      else (Some (v, digits), s)
  | [] => (Some (v, digits), s)
  end.

(** The value stored when the result is [true], and the new [*in]. *)
Definition ConsumeDecimalNumber (s : bytes) : option Z * bytes :=
  match consume_digits 0 0 s with
  | (Some (v, digits), rest) => (if (0 <? digits)%nat then Some v else None, rest)
  | (None, rest) => (None, rest)
  end.

(** ** What the digits mean *)

Definition dec_value_from (v : Z) (ds : bytes) : Z := fold_left (λ v d, v * 10 + (d - 48)) ds v.
Definition dec_value : bytes → Z := dec_value_from 0.
Definition all_digits (ds : bytes) : Prop := Forall (λ c, is_digit c = true) ds.

Lemma is_digit_spec c : is_digit c = true ↔ 48 <= c <= 57.
Proof. unfold is_digit. rewrite andb_true_iff, !Z.leb_le. lia. Qed.

Lemma dec_value_from_app v a b : dec_value_from v (a ++ b) = dec_value_from (dec_value_from v a) b.
Proof. apply fold_left_app. Qed.

Lemma dec_value_from_le v ds : 0 <= v → all_digits ds → v <= dec_value_from v ds.
Proof.
  revert v. induction ds as [|d ds IH]; intros v Hv; [simpl; lia|].
  intros [Hd%is_digit_spec Hds]%Forall_cons_iff. cbn [dec_value_from fold_left].
  specialize (IH (v * 10 + (d - 48)) ltac:(lia) Hds). unfold dec_value_from in *. lia.
Qed.

Lemma dec_loop_spec f : ∀ n acc, 0 <= n < 10 ^ Z.of_nat f → (0 < f)%nat →
  ∃ ds, dec_loop f n acc = ds ++ acc ∧ all_digits ds ∧ ds ≠ [] ∧ dec_value ds = n.
Proof.
  induction f as [|f IH]; intros n acc Hn Hf; [lia|]. cbn [dec_loop].
  assert (Hd : is_digit (48 + n mod 10) = true) by (apply is_digit_spec; dlia).
  destruct (Z.eqb_spec (n / 10) 0) as [E|E].
  - exists [48 + n mod 10]. split; [done|]. split; [by repeat constructor|]. split; [done|].
    unfold dec_value, dec_value_from; simpl. dlia.
  - destruct f as [|f]; [exfalso; change (10 ^ Z.of_nat 1) with 10 in Hn; dlia|].
    rewrite Nat2Z.inj_succ, Z.pow_succ_r in Hn by lia.
    destruct (IH (n / 10) ((48 + n mod 10) :: acc)) as (ds & -> & Hds & Hne & Hv); [|lia|].
    { split; [dlia|]. apply Z.div_lt_upper_bound; lia. }
    exists (ds ++ [48 + n mod 10]). rewrite <- app_assoc. split; [done|].
    split; [by apply Forall_app; split; [|repeat constructor]|].
    split; [by destruct ds|]. unfold dec_value. rewrite dec_value_from_app.
    change (dec_value_from 0 ds) with (dec_value ds). rewrite Hv. unfold dec_value_from; simpl. dlia.
Qed.

Lemma dec_spec n : is_u 64 n → all_digits (dec n) ∧ dec n ≠ [] ∧ dec_value (dec n) = n.
Proof.
  intros Hn. destruct (dec_loop_spec 20 n [] ltac:(unfold is_u in Hn; lia) ltac:(lia))
    as (ds & Heq & H). unfold dec. by rewrite Heq, app_nil_r.
Qed.

Lemma zero_pad_digits w ds : all_digits ds → all_digits (zero_pad w ds).
Proof. intros H. apply Forall_app. split; [|done]. by induction (w - length ds)%nat; repeat constructor. Qed.

Lemma zero_pad_value w ds : dec_value (zero_pad w ds) = dec_value ds.
Proof.
  unfold zero_pad, dec_value. rewrite dec_value_from_app. f_equal.
  by induction (w - length ds)%nat as [|k IH]; simpl.
Qed.

(** The overflow test fires exactly when the next value would not fit. *)
Lemma overflow_test v d : 0 <= v → 0 <= d <= 9 →
  ((v >? kMaxUint64 / 10) || ((v =? kMaxUint64 / 10) && (d >? kMaxUint64 mod 10))) = true ↔
  2 ^ 64 <= v * 10 + d.
Proof.
  intros Hv Hd. change (kMaxUint64 / 10) with 1844674407370955161.
  change (kMaxUint64 mod 10) with 5.
  rewrite orb_true_iff, andb_true_iff, !Z.gtb_lt, Z.eqb_eq. lia.
Qed.

Lemma consume_digits_spec ds : ∀ v n rest, 0 <= v → all_digits ds →
  match rest with [] => True | c :: _ => is_digit c = false end →
  (dec_value_from v ds < 2 ^ 64 →
     consume_digits v n (ds ++ rest) = (Some (dec_value_from v ds, (n + length ds)%nat), rest)) ∧
  (2 ^ 64 <= dec_value_from v ds → v < 2 ^ 64 → (consume_digits v n (ds ++ rest)).1 = None).
Proof.
  induction ds as [|d ds IH]; intros v n rest Hv Hds Hr.
  - simpl. split; [|lia]. rewrite Nat.add_0_r. destruct rest as [|c rest]; [done|]. simpl. by rewrite Hr.
  - apply Forall_cons_iff in Hds as [Hd Hds]. pose proof (proj1 (is_digit_spec d) Hd).
    cbn [app consume_digits]. rewrite Hd.
    pose proof (overflow_test v (d - 48) Hv ltac:(lia)) as Hov. unfold kMaxUint64 in *.
    change (dec_value_from v (d :: ds)) with (dec_value_from (v * 10 + (d - 48)) ds).
    destruct (_ || _) eqn:E.
    + pose proof (proj1 Hov eq_refl). split; [|done]. intros Hlt.
      pose proof (dec_value_from_le (v * 10 + (d - 48)) ds ltac:(lia) Hds). lia.
    + assert (v * 10 + (d - 48) < 2 ^ 64) by (apply Z.nle_gt; intros H'%Hov; done).
      rewrite u64_small by (unfold is_u; lia).
      destruct (IH (v * 10 + (d - 48)) (S n) rest) as [IH1 IH2]; [lia|done|done|].
      split; [|intros; by apply IH2]. intros Hlt. rewrite IH1 by done. do 3 f_equal. simpl. lia.
Qed.

(** [ConsumeDecimalNumber] on the longest run of digits. *)
Lemma ConsumeDecimalNumber_spec ds rest : all_digits ds →
  match rest with [] => True | c :: _ => is_digit c = false end →
  (ds ≠ [] → dec_value ds < 2 ^ 64 →
     ConsumeDecimalNumber (ds ++ rest) = (Some (dec_value ds), rest)) ∧
  (ds = [] ∨ 2 ^ 64 <= dec_value ds → (ConsumeDecimalNumber (ds ++ rest)).1 = None).
Proof.
  intros Hds Hr. destruct (consume_digits_spec ds 0 0 rest) as [H1 H2]; [lia|done|done|].
  unfold ConsumeDecimalNumber, dec_value in *. split.
  - intros Hne Hlt. rewrite H1 by done. by destruct ds.
  - intros [->|Hge].
    + simpl. destruct rest as [|c rest]; [done|]. simpl. by rewrite Hr.
    + specialize (H2 Hge ltac:(lia)). destruct (consume_digits 0 0 (ds ++ rest)) as [[] ?]; done.
Qed.

Lemma zero_pad_dec n w : is_u 64 n →
  all_digits (zero_pad w (dec n)) ∧ zero_pad w (dec n) ≠ [] ∧ dec_value (zero_pad w (dec n)) = n.
Proof.
  intros (H1 & H2 & H3)%dec_spec. split; [by apply zero_pad_digits|].
  split; [unfold zero_pad; by destruct (repeat _ _), (dec n)|by rewrite zero_pad_value].
Qed.

Lemma ConsumeDecimalNumber_padded n w rest : is_u 64 n →
  match rest with [] => True | c :: _ => is_digit c = false end →
  ConsumeDecimalNumber (zero_pad w (dec n) ++ rest) = (Some n, rest).
Proof.
  intros Hn Hr. destruct (zero_pad_dec n w Hn) as (H1 & H2 & H3).
  destruct (ConsumeDecimalNumber_spec (zero_pad w (dec n)) rest H1 Hr) as [H _].
  rewrite H, H3; [done..|]. unfold is_u in Hn. lia.
Qed.

(** ** Properties *)

(** Numbers survive printing and parsing: for any 64-bit number, padded with
    zeros to any width and followed by anything that does not start with a digit,
    [ConsumeDecimalNumber] reads back the number and stops at what follows.  On any
    run of digits it returns the value when it fits in 64 bits and fails when the
    run is empty or overflows. *)
Theorem decimal_number_roundtrip (n : Z) (w : nat) (ds rest : bytes) :
  is_u 64 n → all_digits ds →
  match rest with [] => True | c :: _ => is_digit c = false end →
  ConsumeDecimalNumber (zero_pad w (NumberToString n) ++ rest) = (Some n, rest) ∧
  (ds ≠ [] → dec_value ds < 2 ^ 64 →
     ConsumeDecimalNumber (ds ++ rest) = (Some (dec_value ds), rest)) ∧
  (ds = [] ∨ 2 ^ 64 <= dec_value ds → (ConsumeDecimalNumber (ds ++ rest)).1 = None).
Proof.
  intros Hn Hds Hr. split; [by apply ConsumeDecimalNumber_padded|by apply ConsumeDecimalNumber_spec].
Qed.

Lemma decimal_number_roundtrip_witness :
  ConsumeDecimalNumber (zero_pad 6 (NumberToString 42) ++ str ".log") = (Some 42, str ".log").
Proof. apply (decimal_number_roundtrip 42 6 [] (str ".log")); [unfold is_u; lia|constructor|done]. Defined.
