(* ===== verification/Status.v ===== *)
(** * Status values

    Model of [App/integration/status.h] and [status.cpp]: a status is either OK, the
    null pointer, or an array holding a length, a code byte and a message. *)
From S2P Require Import Prelude Coding Logging.

#[local] Open Scope Z_scope.

Inductive Code := kOk | kNotFound | kCorruption | kNotSupported | kInvalidArgument | kIOError.

Definition Code_byte (c : Code) : Z :=
  match c with
  | kOk => 0 | kNotFound => 1 | kCorruption => 2 | kNotSupported => 3
  | kInvalidArgument => 4 | kIOError => 5
  end.

(** [state_]. *)
Definition Status : Type := option bytes.
Definition OK : Status := None.

(** The length is copied byte by byte from a little-endian 32-bit integer. *)
Definition Status_make (code : Code) (msg msg2 : bytes) : Status :=
  let len1 := u32 (zlen msg) in
  let len2 := u32 (zlen msg2) in
  let size := u32 (len1 + (if len2 =? 0 then 0 else 2 + len2)) in
  Some (EncodeFixed32 size ++ [Code_byte code] ++ take (Z.to_nat len1) msg ++
        (if len2 =? 0 then [] else [58; 32] ++ take (Z.to_nat len2) msg2)).

Definition NotFound (msg msg2 : bytes) : Status := Status_make kNotFound msg msg2.
Definition Corruption (msg msg2 : bytes) : Status := Status_make kCorruption msg msg2.
Definition NotSupported (msg msg2 : bytes) : Status := Status_make kNotSupported msg msg2.
Definition InvalidArgument (msg msg2 : bytes) : Status := Status_make kInvalidArgument msg msg2.
Definition IOError (msg msg2 : bytes) : Status := Status_make kIOError msg msg2.

Definition Status_ok (s : Status) : bool := match s with None => true | Some _ => false end.

Definition Status_code (s : Status) : Z :=
  match s with None => 0 | Some st => default 0 (st !! 4%nat) end.
Definition IsNotFound (s : Status) : bool := Status_code s =? Code_byte kNotFound.
Definition IsCorruption (s : Status) : bool := Status_code s =? Code_byte kCorruption.
Definition IsIOError (s : Status) : bool := Status_code s =? Code_byte kIOError.

Definition CopyState (state : bytes) : bytes :=
  take (Z.to_nat (u32 (DecodeFixed32 state + 5))) state.

(** The copy constructor. *)
Definition Status_copy (s : Status) : Status := CopyState <$> s.

Definition code_text (c : Z) : bytes :=
  if c =? 0 then str "OK"
  else if c =? 1 then str "NotFound: "
  else if c =? 2 then str "Corruption: "
  else if c =? 3 then str "Not implemented: "
  else if c =? 4 then str "Invalid argument: "
  else if c =? 5 then str "IO error: "
  else str "Unknown code(" ++ dec c ++ str "): ".

Definition Status_ToString (s : Status) : bytes :=
  match s with
  | None => str "OK"
  | Some st => code_text (Status_code s) ++ take (Z.to_nat (DecodeFixed32 st)) (drop 5 st)
  end.

(** ** The packed representation *)

Definition full_message (msg msg2 : bytes) : bytes :=
  if zlen msg2 =? 0 then msg else msg ++ [58; 32] ++ msg2.

Lemma zlen_full_message msg msg2 :
  zlen (full_message msg msg2) = zlen msg + (if zlen msg2 =? 0 then 0 else 2 + zlen msg2).
Proof.
  unfold full_message. destruct (zlen msg2 =? 0); [lia|]. rewrite !zlen_app.
  change (zlen [58; 32]) with 2. lia.
Qed.

Lemma Status_make_unfold code msg msg2 : zlen msg + zlen msg2 < 2 ^ 32 - 7 →
  Status_make code msg msg2 =
    Some (EncodeFixed32 (zlen (full_message msg msg2)) ++ Code_byte code :: full_message msg msg2).
Proof.
  intros H. pose proof (zlen_nonneg msg). pose proof (zlen_nonneg msg2).
  unfold Status_make. rewrite !(u32_small (zlen _)) by (unfold is_u; lia).
  rewrite zlen_full_message. rewrite u32_small by (unfold is_u; destruct (_ =? 0); lia).
  unfold full_message, zlen. rewrite !Nat2Z.id, !firstn_all.
  destruct (_ =? 0); [by rewrite app_nil_r|done].
Qed.

(** A status holds its code and its joined message; copying it changes nothing. *)
Lemma status_contents code msg msg2 : code ≠ kOk → zlen msg + zlen msg2 < 2 ^ 32 - 7 →
  let s := Status_make code msg msg2 in
  Status_ok s = false ∧ Status_code s = Code_byte code ∧ Status_copy s = s ∧
  Status_ToString s = code_text (Code_byte code) ++ full_message msg msg2.
Proof.
  intros Hc H. cbv zeta. rewrite Status_make_unfold by done.
  pose proof (zlen_nonneg msg). pose proof (zlen_nonneg msg2).
  pose proof (zlen_full_message msg msg2) as Hl. set (m := full_message msg msg2) in *.
  assert (Hm : is_u 32 (zlen m + 5)) by (unfold is_u; destruct (zlen msg2 =? 0); lia).
  assert (Hm' : is_u 32 (zlen m)) by (pose proof (zlen_nonneg m); unfold is_u in *; lia).
  assert (H4 : (EncodeFixed32 (zlen m) ++ Code_byte code :: m) !! 4%nat = Some (Code_byte code)).
  { rewrite lookup_app_r by (rewrite EncodeFixed32_length; lia). by rewrite EncodeFixed32_length. }
  assert (Hcode : Status_code (Some (EncodeFixed32 (zlen m) ++ Code_byte code :: m)) = Code_byte code)
    by (unfold Status_code; by rewrite H4).
  split; [done|]. split; [done|]. split.
  - unfold Status_copy, CopyState. cbn [fmap option_fmap option_map]. rewrite DecodeEncodeFixed32, (u32_small (zlen m)), u32_small by done.
    rewrite take_ge; [done|]. rewrite length_app, EncodeFixed32_length. unfold zlen. simpl. lia.
  - unfold Status_ToString. rewrite Hcode, DecodeEncodeFixed32, u32_small by done.
    rewrite drop_app_ge by (rewrite EncodeFixed32_length; lia). rewrite EncodeFixed32_length. simpl.
    unfold zlen. by rewrite Nat2Z.id, drop_0, firstn_all.
Qed.
