(* ===== verification/Filename.v ===== *)
(** * File names and the CURRENT pointer

    Model of [App/integration/filename.h], [filename.cpp], and of the helper
    [WriteStringToFileSync] of [env.cpp].  The environment is an interface, as [Env]
    is in [env.h]: the operations used and what they promise about the files. *)
From S2P Require Import Prelude Comparator Logging Status.
From stdpp Require Import strings gmap list.

#[local] Open Scope Z_scope.

Inductive FileType :=
| kLogFile | kDBLockFile | kTableFile | kDescriptorFile | kCurrentFile | kTempFile | kInfoLogFile.

Definition MakeFileName (name : bytes) (number : Z) (suffix : bytes) : bytes :=
  name ++ str "/" ++ zero_pad 6 (dec number) ++ str "." ++ suffix.
Definition LogFileName (name : bytes) (number : Z) : bytes := MakeFileName name number (str "log").
Definition TableFileName (name : bytes) (number : Z) : bytes := MakeFileName name number (str "ldb").
Definition SSTTableFileName (name : bytes) (number : Z) : bytes := MakeFileName name number (str "sst").
Definition DescriptorFileName (dbname : bytes) (number : Z) : bytes :=
  dbname ++ str "/MANIFEST-" ++ zero_pad 6 (dec number).
Definition CurrentFileName (dbname : bytes) : bytes := dbname ++ str "/CURRENT".
Definition LockFileName (dbname : bytes) : bytes := dbname ++ str "/LOCK".
Definition TempFileName (dbname : bytes) (number : Z) : bytes := MakeFileName dbname number (str "dbtmp").
Definition InfoLogFileName (dbname : bytes) : bytes := dbname ++ str "/LOG".
Definition OldInfoLogFileName (dbname : bytes) : bytes := dbname ++ str "/LOG.old".

Definition ParseFileName (fname : bytes) : option (Z * FileType) :=
  let rest := fname in
  if Slice_eqb rest (str "CURRENT") then Some (0, kCurrentFile)
  else if Slice_eqb rest (str "LOCK") then Some (0, kDBLockFile)
  else if Slice_eqb rest (str "LOG") || Slice_eqb rest (str "LOG.old") then Some (0, kInfoLogFile)
  else if Slice_starts_with rest (str "MANIFEST-") then
    let rest := drop (length (str "MANIFEST-")) rest in
    match ConsumeDecimalNumber rest with
    | (None, _) => None
    | (Some num, rest) => match rest with [] => Some (num, kDescriptorFile) | _ :: _ => None end
    end
  else
    match ConsumeDecimalNumber rest with
    | (None, _) => None
    | (Some num, suffix) =>
        if Slice_eqb suffix (str ".log") then Some (num, kLogFile)
        else if Slice_eqb suffix (str ".sst") || Slice_eqb suffix (str ".ldb") then Some (num, kTableFile)
        else if Slice_eqb suffix (str ".dbtmp") then Some (num, kTempFile)
        else None
    end.

(** ** The environment *)

(** The calls on an open writable file name the file. *)
Record Env (W : Type) := {
  NewWritableFile : bytes → W → Status * W;
  File_Append : bytes → bytes → W → Status * W;
  File_Sync : bytes → W → Status * W;
  File_Close : bytes → W → Status * W;
  DeleteFile : bytes → W → Status * W;
  RenameFile : bytes → bytes → W → Status * W;
}.
Arguments NewWritableFile {W}. Arguments File_Append {W}. Arguments File_Sync {W}.
Arguments File_Close {W}. Arguments DeleteFile {W}. Arguments RenameFile {W}.

Section SetCurrent.
Context {W : Type} (env : Env W).

Definition DoWriteStringToFile (data fname : bytes) (should_sync : bool) (w : W) : Status * W :=
  let '(s, w) := NewWritableFile env fname w in
  if negb (Status_ok s) then (s, w)
  else
  let '(s, w) := File_Append env fname data w in
  let '(s, w) := if Status_ok s && should_sync then File_Sync env fname w else (s, w) in
  let '(s, w) := if Status_ok s then File_Close env fname w else (s, w) in
  if negb (Status_ok s) then (s, (DeleteFile env fname w).2) else (s, w).

Definition WriteStringToFile (data fname : bytes) (w : W) : Status * W :=
  DoWriteStringToFile data fname false w.

Definition WriteStringToFileSync (data fname : bytes) (w : W) : Status * W :=
  DoWriteStringToFile data fname true w.

Definition SetCurrentFile (dbname : bytes) (descriptor_number : Z) (w : W) : Status * W :=
  let manifest := DescriptorFileName dbname descriptor_number in
  let contents := drop (length dbname + 1) manifest in
  let tmp := TempFileName dbname descriptor_number in
  let '(s, w) := WriteStringToFileSync (contents ++ [10]) tmp w in
  let '(s, w) := if Status_ok s then RenameFile env tmp (CurrentFileName dbname) w else (s, w) in
  if negb (Status_ok s) then (s, (DeleteFile env tmp w).2) else (s, w).
End SetCurrent.

(** What [env.h] promises: a call touches only the file it names; a successful
    [NewWritableFile] leaves an empty file, [Append] extends it, [RenameFile] moves
    the contents, and a rename that fails leaves the target alone. *)
Class EnvOk {W : Type} (env : Env W) (files : W → gmap bytes bytes) : Prop := {
  new_frame f w g : g ≠ f → files (NewWritableFile env f w).2 !! g = files w !! g;
  new_ok f w : Status_ok (NewWritableFile env f w).1 = true →
    files (NewWritableFile env f w).2 !! f = Some [];
  append_frame f d w g : g ≠ f → files (File_Append env f d w).2 !! g = files w !! g;
  append_ok f d w c : Status_ok (File_Append env f d w).1 = true → files w !! f = Some c →
    files (File_Append env f d w).2 !! f = Some (c ++ d);
  sync_files f w : files (File_Sync env f w).2 = files w;
  close_files f w : files (File_Close env f w).2 = files w;
  delete_frame f w g : g ≠ f → files (DeleteFile env f w).2 !! g = files w !! g;
  rename_ok f t w c : Status_ok (RenameFile env f t w).1 = true → files w !! f = Some c →
    files (RenameFile env f t w).2 !! t = Some c;
  rename_fail f t w : Status_ok (RenameFile env f t w).1 = false →
    files (RenameFile env f t w).2 = files w;
  rename_frame f t w g : g ≠ f → g ≠ t → files (RenameFile env f t w).2 !! g = files w !! g;
}.

(** ** Parsing what was printed *)

Lemma Slice_eqb_neq x y : x ≠ y → Slice_eqb x y = false.
Proof. intros H. apply not_true_iff_false. by rewrite Slice_eqb_eq. Qed.

Lemma Slice_eqb_refl x : Slice_eqb x x = true.
Proof. by apply Slice_eqb_eq. Qed.

(** A name that starts with a digit takes the last branch. *)
Lemma ParseFileName_number d rest : is_digit d = true → ParseFileName (d :: rest) =
  match ConsumeDecimalNumber (d :: rest) with
  | (None, _) => None
  | (Some num, suffix) =>
      if Slice_eqb suffix (str ".log") then Some (num, kLogFile)
      else if Slice_eqb suffix (str ".sst") || Slice_eqb suffix (str ".ldb") then Some (num, kTableFile)
      else if Slice_eqb suffix (str ".dbtmp") then Some (num, kTempFile)
      else None
  end.
Proof.
  intros Hd%is_digit_spec. unfold ParseFileName.
  rewrite !Slice_eqb_neq by (intros [= ->]; lia). cbn [orb].
  assert (Slice_starts_with (d :: rest) (str "MANIFEST-") = false) as ->; [|done].
  apply not_true_iff_false. intros (t & [= -> _])%Slice_starts_with_spec. lia.
Qed.

Lemma drop_dir (dbname rest : bytes) : drop (length dbname + 1) (dbname ++ str "/" ++ rest) = rest.
Proof. rewrite drop_app_ge by lia. by rewrite Nat.add_comm, Nat.add_sub. Qed.

Lemma ParseFileName_Make dbname n suffix : is_u 64 n →
  ParseFileName (drop (length dbname + 1) (MakeFileName dbname n suffix)) =
    if Slice_eqb (str "." ++ suffix) (str ".log") then Some (n, kLogFile)
    else if Slice_eqb (str "." ++ suffix) (str ".sst") || Slice_eqb (str "." ++ suffix) (str ".ldb")
         then Some (n, kTableFile)
    else if Slice_eqb (str "." ++ suffix) (str ".dbtmp") then Some (n, kTempFile)
    else None.
Proof.
  intros Hn. unfold MakeFileName. rewrite drop_dir.
  pose proof (ConsumeDecimalNumber_padded n 6 (str "." ++ suffix) Hn eq_refl) as Hc.
  destruct (zero_pad_dec n 6 Hn) as (Hd & Hne & _).
  destruct (zero_pad 6 (dec n)) as [|d ds]; [done|]. apply Forall_cons_iff in Hd as [Hd _].
  cbn [app] in *. rewrite ParseFileName_number by done. by rewrite Hc.
Qed.

(** ** Properties *)

(** Every file name the database generates parses back to its own number and
    type: after removing the directory prefix, log, table (both suffixes), temporary
    and descriptor names yield the number they were made from, whatever its width,
    and the fixed names yield their type. *)
Theorem file_name_roundtrip (dbname : bytes) (n : Z) : is_u 64 n →
  let base (f : bytes) := ParseFileName (drop (length dbname + 1) f) in
  base (LogFileName dbname n) = Some (n, kLogFile) ∧
  base (TableFileName dbname n) = Some (n, kTableFile) ∧
  base (SSTTableFileName dbname n) = Some (n, kTableFile) ∧
  base (TempFileName dbname n) = Some (n, kTempFile) ∧
  base (DescriptorFileName dbname n) = Some (n, kDescriptorFile) ∧
  base (CurrentFileName dbname) = Some (0, kCurrentFile) ∧
  base (LockFileName dbname) = Some (0, kDBLockFile) ∧
  base (InfoLogFileName dbname) = Some (0, kInfoLogFile) ∧
  base (OldInfoLogFileName dbname) = Some (0, kInfoLogFile).
Proof.
  intros Hn base. unfold base, LogFileName, TableFileName, SSTTableFileName, TempFileName.
  rewrite !ParseFileName_Make by done. do 4 (split; [done|]). split.
  - unfold DescriptorFileName.
    change (str "/MANIFEST-") with (str "/" ++ str "MANIFEST-"). rewrite <- app_assoc, drop_dir.
    pose proof (ConsumeDecimalNumber_padded n 6 [] Hn I) as Hc. rewrite app_nil_r in Hc.
    unfold ParseFileName. rewrite !Slice_eqb_neq by (intros [=]). cbn [orb].
    rewrite (proj2 (Slice_starts_with_spec _ (str "MANIFEST-"))) by eauto.
    by rewrite drop_app_length, Hc.
  - unfold CurrentFileName, LockFileName, InfoLogFileName, OldInfoLogFileName.
    change (str "/CURRENT") with (str "/" ++ str "CURRENT").
    change (str "/LOCK") with (str "/" ++ str "LOCK").
    change (str "/LOG") with (str "/" ++ str "LOG").
    change (str "/LOG.old") with (str "/" ++ str "LOG.old"). rewrite !drop_dir. done.
Qed.

Lemma file_name_roundtrip_witness :
  ParseFileName (drop 3 (TableFileName (str "db") 1000007)) = Some (1000007, kTableFile).
Proof. apply (file_name_roundtrip (str "db") 1000007). unfold is_u; lia. Defined.

Section SetCurrentFacts.
Context {W : Type} (env : Env W) (files : W → gmap bytes bytes) `{!EnvOk env files}.

(** Writing a whole file touches only that file, and leaves exactly the data on success. *)
Lemma WriteStringToFileSync_spec data fname w :
  let '(s, w') := WriteStringToFileSync env data fname w in
  (∀ g, g ≠ fname → files w' !! g = files w !! g) ∧
  (Status_ok s = true → files w' !! fname = Some data).
Proof using All.
  unfold WriteStringToFileSync, DoWriteStringToFile.
  pose proof (new_frame (env:=env) (files:=files) fname w) as Fn. pose proof (new_ok (env:=env) (files:=files) fname w) as On.
  destruct (NewWritableFile env fname w) as [s1 w1]. simpl in *.
  destruct (Status_ok s1) eqn:E1; simpl; [|split; [done|by rewrite E1]].
  pose proof (append_frame (env:=env) (files:=files) fname data w1) as Fa.
  pose proof (append_ok (env:=env) (files:=files) fname data w1 []) as Oa.
  destruct (File_Append env fname data w1) as [s2 w2]. simpl in *.
  pose proof (sync_files (env:=env) (files:=files) fname w2) as Hs.
  destruct (Status_ok s2) eqn:E2; simpl.
  - destruct (File_Sync env fname w2) as [s3 w3]. simpl in *.
    pose proof (close_files (env:=env) (files:=files) fname w3) as Hc.
    destruct (Status_ok s3) eqn:E3; simpl.
    + destruct (File_Close env fname w3) as [s4 w4]. simpl in *.
      destruct (Status_ok s4) eqn:E4; simpl.
      * rewrite Hc, Hs. split; [intros g Hg; by rewrite Fa, Fn|intros _; by apply Oa, On].
      * split; [|by rewrite E4]. intros g Hg. by rewrite delete_frame, Hc, Hs, Fa, Fn.
    + rewrite E3. simpl. split; [|by rewrite E3]. intros g Hg. by rewrite delete_frame, Hs, Fa, Fn.
  - rewrite E2. simpl. rewrite E2. simpl. split; [|by rewrite E2]. intros g Hg. by rewrite delete_frame, Fa, Fn.
Qed.
End SetCurrentFacts.

(** Every path through [SetCurrentFile]. *)
Lemma SetCurrentFile_spec {W} (env : Env W) (files : W → gmap bytes bytes)
    (dbname : bytes) (n : Z) (w : W) : EnvOk env files →
  let '(s, w') := SetCurrentFile env dbname n w in
  files w' !! CurrentFileName dbname =
    (if Status_ok s then Some (str "MANIFEST-" ++ zero_pad 6 (dec n) ++ [10])
     else files w !! CurrentFileName dbname) ∧
  (∀ g, g ≠ CurrentFileName dbname → g ≠ TempFileName dbname n → files w' !! g = files w !! g).
Proof.
  intros HE. unfold SetCurrentFile.
  assert (Hne : CurrentFileName dbname ≠ TempFileName dbname n).
  { unfold CurrentFileName, TempFileName, MakeFileName. intros H%app_inv_head.
    apply (f_equal (λ l, last l)) in H. rewrite !last_app in H. simpl in H. discriminate H. }
  assert (Hd : drop (length dbname + 1) (DescriptorFileName dbname n) ++ [10] =
    str "MANIFEST-" ++ zero_pad 6 (dec n) ++ [10]).
  { unfold DescriptorFileName. change (str "/MANIFEST-") with (str "/" ++ str "MANIFEST-").
    by rewrite <- app_assoc, drop_dir, <- app_assoc. }
  rewrite Hd. set (data := str "MANIFEST-" ++ zero_pad 6 (dec n) ++ [10]). set (tmp := TempFileName dbname n) in *.
  set (cur := CurrentFileName dbname) in *.
  pose proof (WriteStringToFileSync_spec env files data tmp w) as Hw.
  destruct (WriteStringToFileSync env data tmp w) as [s1 w1]. destruct Hw as [F1 O1].
  destruct (Status_ok s1) eqn:E1; simpl.
  - pose proof (rename_ok (env:=env) (files:=files) tmp cur w1 data) as O2.
    pose proof (rename_fail (env:=env) (files:=files) tmp cur w1) as X2.
    pose proof (rename_frame (env:=env) (files:=files) tmp cur w1) as F2.
    destruct (RenameFile env tmp cur w1) as [s2 w2]. simpl in *.
    destruct (Status_ok s2) eqn:E2; simpl; rewrite E2.
    + split; [by auto|]. intros g Hg1 Hg2. by rewrite F2, F1.
    + split; [by rewrite delete_frame, X2, F1|]. intros g Hg1 Hg2. by rewrite delete_frame, F2, F1.
  - rewrite E1. simpl. rewrite E1. split; [by rewrite delete_frame, F1|].
    intros g Hg1 Hg2. by rewrite delete_frame, F1.
Qed.

(** Switching the CURRENT pointer is all or nothing: whatever fails on the way,
    [SetCurrentFile] leaves CURRENT either exactly as it was (when it reports an
    error) or holding the new manifest's name and a newline (when it reports
    success), and it never touches any file other than CURRENT and its own
    temporary file. *)
Theorem set_current_file_atomic {W} (env : Env W) (files : W → gmap bytes bytes)
    (dbname : bytes) (n : Z) (w : W) : EnvOk env files →
  let '(s, w') := SetCurrentFile env dbname n w in
  files w' !! CurrentFileName dbname =
    (if Status_ok s then Some (str "MANIFEST-" ++ zero_pad 6 (dec n) ++ [10])
     else files w !! CurrentFileName dbname) ∧
  (∀ g, g ≠ CurrentFileName dbname → g ≠ TempFileName dbname n → files w' !! g = files w !! g).
Proof. apply SetCurrentFile_spec. Qed.

(** A file system that never fails. *)
Definition plain_env : Env (gmap bytes bytes) := {|
  NewWritableFile f w := (OK, <[f := []]> w);
  File_Append f d w := (OK, alter (λ c, c ++ d) f w);
  File_Sync f w := (OK, w);
  File_Close f w := (OK, w);
  DeleteFile f w := (OK, delete f w);
  RenameFile f t w := (OK, match w !! f with Some c => <[t := c]> (delete f w) | None => w end);
|}.

Lemma plain_env_ok : EnvOk plain_env id.
Proof.
  constructor; simpl; unfold id; intros; simplify_map_eq; try done.
  destruct (w !! f); by simplify_map_eq.
Qed.

Lemma set_current_file_atomic_witness :
  (SetCurrentFile plain_env (str "db") 5 ∅).2 !! str "db/CURRENT" = Some (str "MANIFEST-000005" ++ [10]).
Proof. exact (proj1 (set_current_file_atomic plain_env id (str "db") 5 ∅ plain_env_ok)). Defined.
