(* ===== verification/MemTable.v ===== *)
(** * The memtable

    Model of [App/integration/memtable.h] and [memtable.cpp]: a skip list of encoded
    entries ordered by the internal key each one starts with.  A [const char*] into
    an entry is the list of the bytes from there on. *)
From S2P Require Import Prelude Coding Comparator DbFormat Status SkipList.
From stdpp Require Import sorting list sets.

#[local] Open Scope Z_scope.
#[local] Open Scope word_scope.

(** [GetVarint32Ptr(p, p + 5, &len)] on a pointer into a longer buffer: the limit is
    five bytes on, the result points into the buffer. *)
Definition GetVarint32_at (p : bytes) : option (Z * bytes) :=
  match GetVarint32Ptr (take 5 p) with
  | Some (v, rest) => Some (v, drop (length (take 5 p) - length rest) p)
  | None => None
  end.

(** The file's own one-argument [GetLengthPrefixedSlice]; no slice when the varint is
    malformed, where the code would use a null pointer. *)
Definition GetLengthPrefixedSlice_ptr (data : bytes) : option bytes :=
  match GetVarint32_at data with
  | Some (len, p) => Some (take (Z.to_nat len) p)
  | None => None
  end.

Definition KeyComparator (user : Comparator) (aptr bptr : bytes) : Z :=
  match GetLengthPrefixedSlice_ptr aptr, GetLengthPrefixedSlice_ptr bptr with
  | Some a, Some b => InternalKeyComparator_Compare user a b
  | _, _ => 0
  end.

(** The reference count is the only other state. *)
Record MemTable := { mt_user : Comparator; refs_ : Z; table_ : SkipList bytes }.

Definition MemTable_make (user : Comparator) : MemTable :=
  {| mt_user := user; refs_ := 0; table_ := SkipList_make (KeyComparator user) [] |}.

Definition MemTable_Ref (m : MemTable) : MemTable :=
  {| mt_user := mt_user m; refs_ := refs_ m + 1; table_ := table_ m |}.

(** [None] when the table is deleted. *)
Definition MemTable_Unref (m : MemTable) : option MemTable :=
  let refs := refs_ m - 1 in
  if refs <=? 0 then None
  else Some {| mt_user := mt_user m; refs_ := refs; table_ := table_ m |}.

Definition EncodeKey (target : bytes) : bytes := PutVarint32 [] (u32 (zlen target)) ++ target.

(** The buffer [Add] fills. *)
Definition encode_entry (s : Z) (type : ValueType) (key value : bytes) : bytes :=
  EncodeVarint32 (u32 (zlen key + 8)) ++ key ++
  EncodeFixed64 (u64 (s .<< 8) .| ValueType_code type) ++
  EncodeVarint32 (u32 (zlen value)) ++ value.

(** [None] only when the search of the skip list does not end. *)
Definition Add (s : Z) (type : ValueType) (key value : bytes) (m : MemTable) : option MemTable :=
  match SkipList.Insert (encode_entry s type key value) (table_ m) with
  | Some t => Some {| mt_user := mt_user m; refs_ := refs_ m; table_ := t |}
  | None => None
  end.

(** What the out-parameters of a read hold. *)
Record GetOut := { out_value : bytes; out_status : Status; out_seq : Z }.
Definition with_value (v : bytes) (o : GetOut) : GetOut :=
  {| out_value := v; out_status := out_status o; out_seq := out_seq o |}.
Definition with_status (s : Status) (o : GetOut) : GetOut :=
  {| out_value := out_value o; out_status := s; out_seq := out_seq o |}.
Definition with_seq (q : Z) (o : GetOut) : GetOut :=
  {| out_value := out_value o; out_status := out_status o; out_seq := q |}.

(** The part of a read that looks at the entry the seek stopped at; [write_seq] is the
    assignment to [*seq], which only [SUGet] has. *)
Definition read_entry (user : Comparator) (entry ukey : bytes) (write_seq : bool) (o : GetOut) :
    option (bool * GetOut) :=
  match GetVarint32_at entry with
  | None => None
  | Some (key_length, key_ptr) =>
      if Compare user (take (Z.to_nat (u32 (key_length - 8))) key_ptr) ukey =? 0 then
        let tag := DecodeFixed64 (drop (Z.to_nat (key_length - 8)) key_ptr) in
        let o := if write_seq then with_seq (tag .>> 8) o else o in
        if tag .& 255 =? ValueType_code kTypeValue then
          match GetLengthPrefixedSlice_ptr (drop (Z.to_nat key_length) key_ptr) with
          | Some v => Some (true, with_value v o)
          | None => None
          end
        else if tag .& 255 =? ValueType_code kTypeDeletion then
          Some (true, with_status (NotFound [] []) o)
        else Some (false, o)
      else Some (false, o)
  end.

Definition MemTable_read (write_seq : bool) (m : MemTable) (key : LookupKey) (o : GetOut) :
    option (bool * GetOut) :=
  match Iterator_Seek (table_ m) (memtable_key key) with
  | None => None
  | Some None => Some (false, o)
  | Some (Some x) =>
      match key_of (table_ m) x with
      | Some entry => read_entry (mt_user m) entry (lookup_user_key key) write_seq o
      | None => None
      end
  end.

Definition SUGet : MemTable → LookupKey → GetOut → option (bool * GetOut) := MemTable_read true.
Definition Get : MemTable → LookupKey → GetOut → option (bool * GetOut) := MemTable_read false.

(** ** The memtable iterator *)

Definition MemTableIterator_Seek (m : MemTable) (k : bytes) : option (option nat) :=
  Iterator_Seek (table_ m) (EncodeKey k).
Definition MemTableIterator_key (m : MemTable) (x : nat) : option bytes :=
  key_of (table_ m) x ≫= GetLengthPrefixedSlice_ptr.
Definition MemTableIterator_value (m : MemTable) (x : nat) : option bytes :=
  match key_of (table_ m) x with
  | None => None
  | Some entry =>
      match GetVarint32_at entry with
      | Some (len, p) => GetLengthPrefixedSlice_ptr (drop (Z.to_nat len) p)
      | None => None
      end
  end.

(** ** Entries decode *)

Lemma EncodeVarint32_length v : is_u 32 v → (1 <= length (EncodeVarint32 v) <= 5)%nat.
Proof.
  intros Hv. rewrite EncodeVarint32_64 by done. unfold is_u in Hv. split.
  - pose proof (EncodeVarint64_nonempty v). destruct (EncodeVarint64 v); simpl; [done|lia].
  - unfold EncodeVarint64. rewrite (EncodeVarint64_loop_fuel 5 10) by lia. apply EncodeVarint64_loop_length.
Qed.

Lemma GetVarint32_at_Encode v rest : is_u 32 v →
  GetVarint32_at (EncodeVarint32 v ++ rest) = Some (v, rest).
Proof.
  intros Hv. unfold GetVarint32_at. pose proof (EncodeVarint32_length v Hv).
  rewrite take_app_ge by lia. pose proof (GetVarint32_Encode v (take (5 - length (EncodeVarint32 v)) rest) Hv) as H'.
  unfold GetVarint32 in H'. rewrite H'. do 2 f_equal.
  rewrite length_app, Nat.add_sub, drop_app_length. done.
Qed.

Lemma GetLengthPrefixedSlice_ptr_app s rest : zlen s < 2 ^ 32 →
  GetLengthPrefixedSlice_ptr (EncodeVarint32 (zlen s) ++ s ++ rest) = Some s.
Proof.
  intros Hs. pose proof (zlen_nonneg s). unfold GetLengthPrefixedSlice_ptr.
  rewrite GetVarint32_at_Encode by (unfold is_u; lia).
  unfold zlen. by rewrite Nat2Z.id, take_app_length.
Qed.

(** An entry as the caller of [Add] gave it. *)
Record Entry := { e_seq : Z; e_type : ValueType; e_key : bytes; e_value : bytes }.

Definition entry_bytes (e : Entry) : bytes := encode_entry (e_seq e) (e_type e) (e_key e) (e_value e).
Definition entry_ikey (e : Entry) : bytes := InternalKey (e_key e) (e_seq e) (e_type e).

Section Facts.
Context {valid : bytes → Prop} {user : Comparator} `{!ComparatorOk valid user}.

Definition entry_ok (e : Entry) : Prop :=
  0 <= e_seq e <= kMaxSequenceNumber ∧ valid (e_key e) ∧
  zlen (e_key e) + 8 < 2 ^ 32 ∧ zlen (e_value e) < 2 ^ 32.

Lemma zlen_ikey u s t : zlen (InternalKey u s t) = zlen u + 8.
Proof. rewrite InternalKey_unfold, zlen_app. unfold zlen. rewrite EncodeFixed64_length. lia. Qed.

Lemma entry_bytes_unfold e : entry_ok e →
  entry_bytes e = EncodeVarint32 (zlen (entry_ikey e)) ++ entry_ikey e ++
          EncodeVarint32 (zlen (e_value e)) ++ e_value e.
Proof.
  intros (Hs & _ & Hk & Hv). unfold entry_bytes, encode_entry, entry_ikey. rewrite zlen_ikey.
  pose proof (zlen_nonneg (e_key e)). pose proof (zlen_nonneg (e_value e)).
  rewrite !u32_small by (unfold is_u; lia). rewrite InternalKey_unfold, <- !app_assoc. done.
Qed.

(** A well-formed search key or entry: an internal key with its length before it. *)
Definition entry_valid (b : bytes) : Prop :=
  ∃ ik rest, b = EncodeVarint32 (zlen ik) ++ ik ++ rest ∧ zlen ik < 2 ^ 32 ∧ internal_valid valid ik.

Lemma entry_valid_ikey b : entry_valid b → ∃ ik, GetLengthPrefixedSlice_ptr b = Some ik ∧ internal_valid valid ik.
Proof. intros (ik & rest & -> & Hl & Hik). exists ik. by rewrite GetLengthPrefixedSlice_ptr_app. Qed.

#[export] Instance KeyComparator_order : OrderOk entry_valid (KeyComparator user).
Proof using All.
  constructor.
  - intros a b (ia & Ha & Va)%entry_valid_ikey (ib & Hb & Vb)%entry_valid_ikey.
    unfold KeyComparator. rewrite Ha, Hb. by apply (icmp_swap (valid:=valid)).
  - intros a b c (ia & Ha & Va)%entry_valid_ikey (ib & Hb & Vb)%entry_valid_ikey (ic & Hc & Vc)%entry_valid_ikey.
    unfold KeyComparator. rewrite Ha, Hb, Hc. by apply (icmp_trans (valid:=valid)).
  - intros a b c (ia & Ha & Va)%entry_valid_ikey (ib & Hb & Vb)%entry_valid_ikey (ic & Hc & Vc)%entry_valid_ikey.
    unfold KeyComparator. rewrite Ha, Hb, Hc. intros Heq.
    by apply (icmp_eq (valid:=valid)) in Heq as ->.
Qed.

Lemma ikey_valid u s t : valid u → internal_valid valid (InternalKey u s t).
Proof using All.
  intros Hu. rewrite InternalKey_unfold. apply internal_valid_app; [|done].
  by apply (valid_bytes (valid:=valid) (c:=user)).
Qed.

Lemma entry_bytes_valid e : entry_ok e → entry_valid (entry_bytes e).
Proof using All.
  intros He. pose proof He as (_ & Hv & Hk & _). exists (entry_ikey e). eexists.
  split; [by apply entry_bytes_unfold|]. unfold entry_ikey. rewrite zlen_ikey. split; [lia|].
  by apply ikey_valid.
Qed.

Lemma memtable_key_valid u s : valid u → zlen u + 8 < 2 ^ 32 →
  entry_valid (memtable_key (LookupKey_make u s)) ∧
  GetLengthPrefixedSlice_ptr (memtable_key (LookupKey_make u s)) = Some (InternalKey u s kTypeValue).
Proof using All.
  intros Hu Hl. pose proof (zlen_nonneg u).
  assert (Heq : memtable_key (LookupKey_make u s) =
    EncodeVarint32 (zlen (InternalKey u s kTypeValue)) ++ InternalKey u s kTypeValue ++ []).
  { unfold memtable_key, LookupKey_make; simpl. rewrite zlen_ikey, u32_small by (unfold is_u; lia).
    by rewrite app_nil_r. }
  rewrite Heq. split; [|apply GetLengthPrefixedSlice_ptr_app; rewrite zlen_ikey; lia].
  eexists _, _. split; [done|]. rewrite zlen_ikey. split; [lia|]. by apply ikey_valid.
Qed.

Lemma entry_bytes_ikey e : entry_ok e → GetLengthPrefixedSlice_ptr (entry_bytes e) = Some (entry_ikey e).
Proof using All.
  intros He. rewrite entry_bytes_unfold by done. apply GetLengthPrefixedSlice_ptr_app.
  destruct He as (_ & _ & Hk & _). unfold entry_ikey. rewrite zlen_ikey. lia.
Qed.

Lemma KeyComparator_entries e b ik : entry_ok e → GetLengthPrefixedSlice_ptr b = Some ik →
  KeyComparator user (entry_bytes e) b = InternalKeyComparator_Compare user (entry_ikey e) ik.
Proof using All. intros He Hb. unfold KeyComparator. by rewrite entry_bytes_ikey, Hb. Qed.

(** Two entries never compare equal unless key, number and type agree. *)
Lemma entry_ikey_inj e1 e2 : entry_ok e1 → entry_ok e2 →
  InternalKeyComparator_Compare user (entry_ikey e1) (entry_ikey e2) = 0 →
  e_key e1 = e_key e2 ∧ e_seq e1 = e_seq e2.
Proof using All.
  intros (S1 & V1 & _) (S2 & V2 & _) H. unfold entry_ikey in *.
  apply (icmp_eq (valid:=valid)) in H; [|by apply ikey_valid..].
  rewrite !InternalKey_unfold in H. apply app_inj_2 in H as [Hk Ht]; [|by rewrite !EncodeFixed64_length].
  split; [done|]. apply (f_equal DecodeFixed64) in Ht.
  rewrite <- (app_nil_r (EncodeFixed64 (PackSequenceAndType (e_seq e1) _))) in Ht.
  rewrite <- (app_nil_r (EncodeFixed64 (PackSequenceAndType (e_seq e2) _))) in Ht.
  rewrite !DecodeEncodeFixed64, !u64_small, !Pack_sum in Ht by (done || by apply Pack_range).
  destruct (e_type e1), (e_type e2); simpl in Ht; lia.
Qed.

(** ** What a memtable holds *)

(** The memtable holds exactly the entries [E]. *)
Definition MemInv (m : MemTable) (E : list Entry) : Prop :=
  mt_user m = user ∧ Forall entry_ok E ∧ compare_ (table_ m) = KeyComparator user ∧
  ∃ sorted, sorted ≡ₚ E ∧ represents entry_valid (table_ m) (entry_bytes <$> sorted).

Lemma MemInv_make : MemInv (MemTable_make user) [].
Proof using All.
  split; [done|]. split; [constructor|]. split; [done|]. exists []. split; [done|].
  apply represents_make, _.
Qed.

Lemma insert_sorted_map (cmp : bytes → bytes → Z) e l : ∃ l',
  insert_sorted cmp (entry_bytes e) (entry_bytes <$> l) = entry_bytes <$> l' ∧ l' ≡ₚ e :: l.
Proof.
  induction l as [|k l IH]; [by exists [e]|].
  rewrite fmap_cons. cbn [insert_sorted]. destruct (_ <? 0); [|by exists (e :: k :: l)].
  destruct IH as (l' & -> & Hp). exists (k :: l'). split; [done|]. rewrite Hp. apply Permutation_swap.
Qed.

Lemma Add_MemInv m E e : MemInv m E → entry_ok e →
  (∀ e', e' ∈ E → e_key e' = e_key e → e_seq e' ≠ e_seq e) →
  ∃ m', Add (e_seq e) (e_type e) (e_key e) (e_value e) m = Some m' ∧ MemInv m' (e :: E).
Proof using All.
  intros (Hu & HE & Hc & l & Hp & Hr) He Hfresh.
  destruct (Insert_represents entry_valid (table_ m) _ (entry_bytes e) Hr) as (t & HI & Hct & Hrt).
  - by apply entry_bytes_valid.
  - intros k (e' & -> & He')%list_elem_of_fmap. rewrite Hp in He'.
    pose proof (proj1 (Forall_forall _ _) HE e' He') as Hok'. rewrite Hc.
    rewrite (KeyComparator_entries e' _ (entry_ikey e)) by (done || by apply entry_bytes_ikey).
    intros [Hk Hs]%entry_ikey_inj; [|done..]. by apply (Hfresh e').
  - unfold Add. change (encode_entry _ _ _ _) with (entry_bytes e). rewrite HI. eexists. split; [done|].
    split; [done|]. split; [by constructor|]. split; [by simpl; rewrite Hct|].
    destruct (insert_sorted_map (compare_ (table_ m)) e l) as (l' & Hl' & Hp').
    rewrite Hl' in Hrt. exists l'. split; [by rewrite Hp', Hp|done].
Qed.

(** What a read stores when it stops at [e]. *)
Definition outcome (write_seq : bool) (e : Entry) (o : GetOut) : GetOut :=
  let o := if write_seq then with_seq (e_seq e) o else o in
  match e_type e with
  | kTypeValue => with_value (e_value e) o
  | kTypeDeletion => with_status (NotFound [] []) o
  end.

Lemma read_entry_spec e u ws o : entry_ok e → read_entry user (entry_bytes e) u ws o =
  if Compare user (e_key e) u =? 0 then Some (true, outcome ws e o) else Some (false, o).
Proof using All.
  intros He. rewrite entry_bytes_unfold by done. destruct He as (Hs & _ & Hk & Hv).
  pose proof (zlen_nonneg (e_key e)). unfold read_entry, entry_ikey. rewrite !zlen_ikey.
  rewrite GetVarint32_at_Encode by (unfold is_u; lia).
  replace (zlen (e_key e) + 8 - 8) with (zlen (e_key e)) by lia.
  rewrite u32_small by (unfold is_u; lia). rewrite InternalKey_unfold, <- !app_assoc.
  assert (Z.to_nat (zlen (e_key e)) = length (e_key e)) as -> by (unfold zlen; lia).
  rewrite take_app_length. destruct (_ =? 0); [|done].
  rewrite !drop_app_length, !DecodeEncodeFixed64.
  rewrite u64_small, Pack_sum by (done || by apply Pack_range). rewrite land_255.
  assert (drop (Z.to_nat (zlen (e_key e) + 8)) (e_key e ++ EncodeFixed64 (e_seq e * 256 + ValueType_code (e_type e)) ++
    EncodeVarint32 (zlen (e_value e)) ++ e_value e) = EncodeVarint32 (zlen (e_value e)) ++ e_value e ++ []) as ->.
  { rewrite app_nil_r, app_assoc. apply drop_app_length'. rewrite length_app, EncodeFixed64_length. unfold zlen. lia. }
  rewrite GetLengthPrefixedSlice_ptr_app by done. rewrite Z.shiftr_div_pow2 by lia.
  change (2 ^ 8) with 256. unfold outcome.
  destruct (e_type e); cbn [ValueType_code]; rewrite Z.add_comm, Z.mod_add, Z.div_add by lia; done.
Qed.

Lemma lookup_user_key_make u s : lookup_user_key (LookupKey_make u s) = u.
Proof. unfold lookup_user_key; simpl. apply ExtractUserKey_app. Qed.

(** The newest entry for a user key that a snapshot can see. *)
Definition newest (E : list Entry) (u : bytes) (s : Z) (e : Entry) : Prop :=
  e ∈ E ∧ e_key e = u ∧ e_seq e <= s ∧
  ∀ e', e' ∈ E → e_key e' = u → e_seq e' <= s → e_seq e' <= e_seq e.

(** Where an entry lies relative to the key a lookup seeks. *)
Lemma target_order e u s : entry_ok e → valid u → 0 <= s <= kMaxSequenceNumber →
  let c := InternalKeyComparator_Compare user (entry_ikey e) (InternalKey u s kTypeValue) in
  (Compare user (e_key e) u < 0 → c < 0) ∧ (0 < Compare user (e_key e) u → 0 < c) ∧
  (e_key e = u → (c < 0 ↔ s < e_seq e)).
Proof using All.
  intros (Hs & Hv & _) Hu Hs'. unfold entry_ikey. cbv zeta.
  assert (I1 : internal_valid valid (InternalKey (e_key e) (e_seq e) (e_type e))) by by apply ikey_valid.
  assert (I2 : internal_valid valid (InternalKey u s kTypeValue)) by by apply ikey_valid.
  split; [|split].
  - intros H. apply (icmp_lt (valid:=valid)); [done..|]. left. by rewrite !InternalKey_unfold, !ExtractUserKey_app.
  - intros H. apply (icmp_gt (valid:=valid)); [done..|]. left. by rewrite !InternalKey_unfold, !ExtractUserKey_app.
  - intros Hk. rewrite (icmp_lt (valid:=valid)) by done. rewrite !InternalKey_unfold, !ExtractUserKey_app, Hk.
    rewrite Compare_refl, !internal_trailer_app, !u64_small, !Pack_sum by (done || by apply Pack_range).
    destruct (e_type e); simpl ValueType_code; intuition lia.
Qed.

Lemma find_map_split (P : bytes → bool) l :
  (List.find P (entry_bytes <$> l) = None ∧ ∀ e, e ∈ l → P (entry_bytes e) = false) ∨
  (∃ l1 e l2, l = l1 ++ e :: l2 ∧ List.find P (entry_bytes <$> l) = Some (entry_bytes e) ∧
   P (entry_bytes e) = true ∧ ∀ e', e' ∈ l1 → P (entry_bytes e') = false).
Proof.
  induction l as [|e l IH]; [left; split; [done|]; by intros e ?%not_elem_of_nil|].
  rewrite fmap_cons. cbn [List.find]. destruct (P (entry_bytes e)) eqn:E.
  - right. exists [], e, l. do 3 (split; [done|]). by intros e' ?%not_elem_of_nil.
  - destruct IH as [[-> H]|(l1 & e1 & l2 & -> & -> & H1 & H2)].
    + left. split; [done|]. intros e' [->|He']%elem_of_cons; auto.
    + right. exists (e :: l1), e1, l2. do 3 (split; [done|]). intros e' [->|He']%elem_of_cons; auto.
Qed.

(** Sorted entries: later ones with the same user key are not newer. *)
Lemma sorted_after e e' : entry_ok e → entry_ok e' →
  KeyComparator user (entry_bytes e) (entry_bytes e') < 0 →
  Compare user (e_key e) (e_key e') < 0 ∨ (e_key e = e_key e' ∧ e_seq e' <= e_seq e).
Proof using All.
  intros He He'. rewrite (KeyComparator_entries e _ (entry_ikey e')) by (done || by apply entry_bytes_ikey).
  destruct He as (Hs & Hv & _), He' as (Hs' & Hv' & _). unfold entry_ikey.
  rewrite (icmp_lt (valid:=valid)) by (by apply ikey_valid).
  rewrite !InternalKey_unfold, !ExtractUserKey_app, !internal_trailer_app, !u64_small, !Pack_sum
    by (done || by apply Pack_range).
  intros [?|[? ?]]; [by left|right]. split; [done|].
  destruct (e_type e), (e_type e'); simpl in *; lia.
Qed.

(** The first entry not below the sought key is the newest visible one, or there is none. *)
Lemma seek_lands l1 e l2 E u s : l1 ++ e :: l2 ≡ₚ E → Forall entry_ok (l1 ++ e :: l2) →
  StronglySorted (λ a b, KeyComparator user a b < 0) (entry_bytes <$> l1 ++ e :: l2) →
  let below e' := InternalKeyComparator_Compare user (entry_ikey e') (InternalKey u s kTypeValue) < 0 in
  (∀ e', e' ∈ l1 → below e') → ¬ below e → valid u → 0 <= s <= kMaxSequenceNumber →
  if Compare user (e_key e) u =? 0 then newest E u s e
  else ∀ e', e' ∈ E → e_key e' = u → s < e_seq e'.
Proof using All.
  intros Hp HE Hsort below Hl1 Hge Vu Hs. rewrite Forall_forall in HE.
  assert (He : entry_ok e) by (apply HE; set_solver).
  destruct (target_order e u s He Vu Hs) as (T1 & T2 & T3).
  assert (Hafter : ∀ e', e' ∈ l2 → Compare user (e_key e) (e_key e') < 0 ∨
    (e_key e = e_key e' ∧ e_seq e' <= e_seq e)).
  { intros e' He'. apply sorted_after; [done|apply HE; set_solver|].
    rewrite fmap_app, fmap_cons in Hsort.
    apply StronglySorted_app_1_r, StronglySorted_inv in Hsort as [_ Hsort].
    rewrite Forall_forall in Hsort. apply Hsort. apply list_elem_of_fmap. eauto. }
  assert (Hbefore : ∀ e', e' ∈ l1 → e_key e' = u → s < e_seq e').
  { intros e' He' Hke'. apply (target_order e' u s); [apply HE; set_solver|done..|by apply Hl1]. }
  destruct (Z.eqb_spec (Compare user (e_key e) u) 0) as [E0|E0].
  - apply Compare_eq in E0; [|by apply He|done]. split; [rewrite <- Hp; set_solver|]. split; [done|].
    split; [apply Z.nlt_ge; by intros H%T3|]. intros e' He' Hke' Hs'.
    rewrite <- Hp in He'. apply elem_of_app in He' as [He'|[->|He']%elem_of_cons]; [|done|].
    + specialize (Hbefore e' He' Hke'). lia.
    + destruct (Hafter e' He') as [H|[_ H]]; [|done]. rewrite E0, Hke', Compare_refl in H by done. lia.
  - intros e' He' Hke'. rewrite <- Hp in He'.
    apply elem_of_app in He' as [He'|[->|He']%elem_of_cons]; [by apply Hbefore| |].
    + rewrite Hke', Compare_refl in E0; done.
    + exfalso. destruct (Hafter e' He') as [H|[H _]].
      * rewrite Hke' in H. by specialize (T1 H).
      * rewrite H, Hke', Compare_refl in E0; done.
Qed.

Lemma read_spec m E u s ws o : MemInv m E → valid u → zlen u + 8 < 2 ^ 32 →
  0 <= s <= kMaxSequenceNumber →
  (∃ e, newest E u s e ∧ MemTable_read ws m (LookupKey_make u s) o = Some (true, outcome ws e o)) ∨
  ((∀ e, e ∈ E → e_key e = u → s < e_seq e) ∧
   MemTable_read ws m (LookupKey_make u s) o = Some (false, o)).
Proof using All.
  intros (Hu & HE & Hc & l & Hp & HR) Vu Hlu Hs.
  rewrite <- Hp in HE. pose proof HE as HE'. rewrite Forall_forall in HE.
  destruct (memtable_key_valid u s Vu Hlu) as [Vt Ht].
  destruct (Seek_represents entry_valid (table_ m) _ _ HR Vt) as (pos & Hseek & Hpos & Hvalid & Hsort).
  rewrite Hc in Hpos, Hsort. set (key := memtable_key _) in *.
  assert (Hbelow : ∀ e, e ∈ l → KeyComparator user (entry_bytes e) key =
    InternalKeyComparator_Compare user (entry_ikey e) (InternalKey u s kTypeValue)).
  { intros e He. apply KeyComparator_entries; auto. }
  unfold MemTable_read. fold key. rewrite Hseek, lookup_user_key_make.
  destruct (find_map_split (λ k, negb (KeyComparator user k key <? 0)) l)
    as [[HN Hall]|(l1 & e & l2 & -> & HS & Hge & Hl1)].
  - right. rewrite HN in Hpos. split.
    + intros e He Hke. rewrite <- Hp in He. specialize (Hall e He). apply negb_false_iff, Z.ltb_lt in Hall.
      rewrite Hbelow in Hall by done. by apply (target_order e u s (HE e He) Vu Hs).
    + destruct pos as [x|]; [|done]. simpl in Hpos. destruct (Hvalid x eq_refl) as [k Hk]. congruence.
  - rewrite HS in Hpos. destruct pos as [x|]; [|done]. simpl in Hpos. rewrite Hpos, Hu.
    rewrite read_entry_spec by (apply HE; set_solver). apply negb_true_iff, Z.ltb_ge in Hge.
    rewrite Hbelow in Hge by set_solver.
    pose proof (seek_lands l1 e l2 E u s Hp HE' Hsort) as Hland.
    destruct (_ =? 0); [left; exists e; split; [|done]|right; split; [|done]];
      (apply Hland; [|lia|done|done]); intros e' He'; specialize (Hl1 e' He');
      apply negb_false_iff, Z.ltb_lt in Hl1; by rewrite Hbelow in Hl1 by set_solver.
Qed.
End Facts.
Arguments MemInv : clear implicits.
Arguments entry_ok : clear implicits.

(** ** Properties *)

(** Adding an entry: on a memtable that holds the entries [E], for a key and
    sequence number pair not yet in it, [Add] always returns, and the memtable then
    holds exactly that entry and [E].  The encoded buffer decodes: the iterator's
    [key] and [value] at any entry are its internal key and its value. *)
Theorem memtable_add_refines (valid : bytes → Prop) (user : Comparator) (m : MemTable)
    (E : list Entry) (e : Entry) :
  ComparatorOk valid user → MemInv valid user m E → entry_ok valid e →
  (∀ e', e' ∈ E → e_key e' = e_key e → e_seq e' ≠ e_seq e) →
  ∃ m', Add (e_seq e) (e_type e) (e_key e) (e_value e) m = Some m' ∧ MemInv valid user m' (e :: E) ∧
    ∀ x e', key_of (table_ m') x = Some (entry_bytes e') → entry_ok valid e' →
      MemTableIterator_key m' x = Some (entry_ikey e') ∧
      MemTableIterator_value m' x = Some (e_value e').
Proof.
  intros HC HM He Hf. destruct (Add_MemInv m E e HM He Hf) as (m' & HA & HM').
  exists m'. split; [done|]. split; [done|]. intros x e' Hx Hok.
  unfold MemTableIterator_key, MemTableIterator_value. rewrite Hx. simpl.
  split; [by apply entry_bytes_ikey|]. rewrite (entry_bytes_unfold e' Hok).
  destruct Hok as (_ & _ & Hk & Hv). pose proof (zlen_nonneg (e_key e')).
  assert (Hz : zlen (entry_ikey e') = zlen (e_key e') + 8) by apply zlen_ikey.
  rewrite GetVarint32_at_Encode by (unfold is_u; lia).
  rewrite <- (app_nil_r (e_value e')) at 2. unfold zlen at 1. rewrite Nat2Z.id, drop_app_length.
  by apply GetLengthPrefixedSlice_ptr_app.
Qed.

Definition entry_a1 : Entry := {| e_seq := 1; e_type := kTypeValue; e_key := [97]; e_value := [120] |}.

Lemma entry_a1_ok : entry_ok bytes_ok entry_a1.
Proof. split; [vm_compute; intuition congruence|]. split; [by_compute|]. split; vm_compute; congruence. Qed.

Lemma memtable_add_refines_witness :
  ∃ m', Add 1 kTypeValue [97] [120] (MemTable_make BytewiseComparator) = Some m' ∧
    MemInv bytes_ok BytewiseComparator m' [entry_a1].
Proof.
  destruct (memtable_add_refines bytes_ok BytewiseComparator (MemTable_make BytewiseComparator) [] entry_a1)
    as (m' & H1 & H2 & _).
  - apply BytewiseComparator_ok.
  - apply MemInv_make.
  - apply entry_a1_ok.
  - by intros e' ?%not_elem_of_nil.
  - by exists m'.
Defined.

(** Reading at a snapshot: on a memtable that holds the entries [E], a lookup of
    user key [u] at sequence number [s] returns true exactly when [E] has an entry for
    [u] numbered at most [s]; then it stores what the newest such entry says (its
    value, or NotFound for a deletion, and with [SUGet] its sequence number). Otherwise
    it returns false and stores nothing. *)
Theorem memtable_get_newest (valid : bytes → Prop) (user : Comparator) (m : MemTable)
    (E : list Entry) (u : bytes) (s : Z) (o : GetOut) :
  ComparatorOk valid user → MemInv valid user m E → valid u → zlen u + 8 < 2 ^ 32 →
  0 <= s <= kMaxSequenceNumber →
  (∃ e, newest E u s e ∧
     SUGet m (LookupKey_make u s) o = Some (true, outcome true e o) ∧
     ∃ e', newest E u s e' ∧ Get m (LookupKey_make u s) o = Some (true, outcome false e' o)) ∨
  ((∀ e, e ∈ E → e_key e = u → s < e_seq e) ∧
   SUGet m (LookupKey_make u s) o = Some (false, o) ∧
   Get m (LookupKey_make u s) o = Some (false, o)).
Proof.
  intros HC HM Vu Hl Hs.
  destruct (read_spec m E u s true o HM Vu Hl Hs) as [(e & He & H1)|[HN H1]],
    (read_spec m E u s false o HM Vu Hl Hs) as [(e' & He' & H2)|[HN' H2]].
  - left. eauto 6.
  - destruct He as (Hin & Hk & Hle & _). specialize (HN' e Hin Hk). lia.
  - destruct He' as (Hin & Hk & Hle & _). specialize (HN e' Hin Hk). lia.
  - right. done.
Qed.

Lemma memtable_get_newest_witness :
  ∃ m' o, Add 1 kTypeValue [97] [120] (MemTable_make BytewiseComparator) = Some m' ∧
    SUGet m' (LookupKey_make [97] 5) {| out_value := []; out_status := OK; out_seq := 0 |} = Some (true, o) ∧
    out_value o = [120] ∧ out_seq o = 1.
Proof.
  destruct (Add_MemInv (valid:=bytes_ok) (MemTable_make BytewiseComparator) [] entry_a1
    MemInv_make entry_a1_ok) as (m' & H1 & H2); [by intros e' ?%not_elem_of_nil|].
  destruct (memtable_get_newest bytes_ok BytewiseComparator m' [entry_a1] [97] 5
    {| out_value := []; out_status := OK; out_seq := 0 |})
    as [(e & (->%list_elem_of_singleton & _) & HS & _)|[HN _]].
  - apply BytewiseComparator_ok.
  - done.
  - by_compute.
  - vm_compute; congruence.
  - vm_compute; intuition congruence.
  - eexists m', _. split; [done|]. split; [done|]. done.
  - specialize (HN entry_a1 (list_elem_of_here _ _) eq_refl). vm_compute in HN. congruence.
Defined.
