(* ===== verification/Arena.v ===== *)
(** * The arena

    Model of [App/integration/arena.h] and [arena.cpp], and of
    [MemTable::ApproximateMemoryUsage] ([memtable.cpp]).  An address is a block, by its
    index in [blocks_], and an offset; [new char[n]] returns memory aligned to more than a
    pointer, so the alignment of an address is that of its offset.  A block is its size.
    [None] is a failed assertion. *)
From S2P Require Import Prelude Coding Comparator DbFormat SkipList MemTable.
From stdpp Require Import list.

#[local] Open Scope Z_scope.
#[local] Open Scope word_scope.

Definition kBlockSize : Z := 4096.

Record Arena := {
  alloc_ptr_ : option (nat * Z);
  alloc_bytes_remaining_ : Z;
  blocks_ : list Z;
  capacity_ : Z;  (** of the vector [blocks_] *)
  blocks_memory_ : Z;
}.

Definition Arena_make : Arena :=
  {| alloc_ptr_ := None; alloc_bytes_remaining_ := 0; blocks_ := []; capacity_ := 0; blocks_memory_ := 0 |}.

(** [push_back] doubles the capacity of a full vector. *)
Definition grown_capacity (size capacity : Z) : Z :=
  if size <? capacity then capacity else Z.max 1 (2 * capacity).

Definition AllocateNewBlock (block_bytes : Z) (a : Arena) : (nat * Z) * Arena :=
  ((length (blocks_ a), 0),
   {| alloc_ptr_ := alloc_ptr_ a; alloc_bytes_remaining_ := alloc_bytes_remaining_ a;
      blocks_ := blocks_ a ++ [block_bytes]; capacity_ := grown_capacity (zlen (blocks_ a)) (capacity_ a);
      blocks_memory_ := u64 (blocks_memory_ a + block_bytes) |}).

(** [result = alloc_ptr_ + skip; alloc_ptr_ += skip + n; alloc_bytes_remaining_ -= skip + n]. *)
Definition bump (skip n : Z) (p : nat * Z) (a : Arena) : (nat * Z) * Arena :=
  ((p.1, p.2 + skip),
   {| alloc_ptr_ := Some (p.1, p.2 + skip + n); alloc_bytes_remaining_ := alloc_bytes_remaining_ a - (skip + n);
      blocks_ := blocks_ a; capacity_ := capacity_ a; blocks_memory_ := blocks_memory_ a |}).

Definition AllocateFallback (n : Z) (a : Arena) : (nat * Z) * Arena :=
  if n >? kBlockSize / 4 then AllocateNewBlock n a
  else
    let '(p, a) := AllocateNewBlock kBlockSize a in
    bump 0 n p {| alloc_ptr_ := Some p; alloc_bytes_remaining_ := kBlockSize;
                  blocks_ := blocks_ a; capacity_ := capacity_ a; blocks_memory_ := blocks_memory_ a |}.

(** Room is only left after a block was allocated, so [alloc_ptr_] is then not null. *)
Definition Allocate (n : Z) (a : Arena) : option ((nat * Z) * Arena) :=
  if n <=? 0 then None
  else if n <=? alloc_bytes_remaining_ a then p ← alloc_ptr_ a; Some (bump 0 n p a)
  else Some (AllocateFallback n a).

Definition align : Z := 8.
Definition address_mod (p : option (nat * Z)) : Z := match p with Some (_, o) => o .& (align - 1) | None => 0 end.

Definition AllocateAligned (n : Z) (a : Arena) : option ((nat * Z) * Arena) :=
  let current_mod := address_mod (alloc_ptr_ a) in
  let slop := if current_mod =? 0 then 0 else align - current_mod in
  let needed := u64 (n + slop) in
  r ← (if needed <=? alloc_bytes_remaining_ a then p ← alloc_ptr_ a; Some (bump slop n p a) else Some (AllocateFallback n a));
  if address_mod (Some r.1) =? 0 then Some r else None.

Definition MemoryUsage (a : Arena) : Z := u64 (blocks_memory_ a + capacity_ a * 8).

(** ** The arena of a memtable

    Nodes are allocated in the order of the skip list's store: the head in the constructor,
    then for each [Add] the entry and its node. *)

Definition node_bytes (height : nat) : Z := 16 + 8 * (Z.of_nat height - 1).

Fixpoint allocate_nodes (nds : list (Node bytes)) (a : Arena) : option Arena :=
  match nds with
  | [] => Some a
  | nd :: nds =>
      '(_, a) ← Allocate (zlen (node_key nd)) a;
      '(_, a) ← AllocateAligned (node_bytes (length (next_ nd))) a;
      allocate_nodes nds a
  end.

Definition memtable_arena (m : MemTable) : option Arena :=
  match nodes (table_ m) with
  | [] => None
  | head :: nds => '(_, a) ← AllocateAligned (node_bytes (length (next_ head))) Arena_make; allocate_nodes nds a
  end.

Definition ApproximateMemoryUsage (m : MemTable) : option Z := MemoryUsage <$> memtable_arena m.

(** ** What is allocated *)

(** A region: its block, first byte and length. *)
Definition region : Type := nat * Z * Z.
Definition disjoint_regions (r s : region) : Prop :=
  r.1.1 ≠ s.1.1 ∨ r.1.2 + r.2 <= s.1.2 ∨ s.1.2 + s.2 <= r.1.2.
Definition in_block (blocks : list Z) (r : region) : Prop :=
  ∃ size, blocks !! r.1.1 = Some size ∧ 0 <= r.1.2 ∧ r.1.2 + r.2 <= size.

(** A request: whether it must be aligned, and its size. *)
Definition request (al : bool) (n : Z) (a : Arena) : option ((nat * Z) * Arena) :=
  if al then AllocateAligned n a else Allocate n a.

(** The regions handed out for a sequence of requests, in order. *)
Fixpoint allocate_all (rs : list (bool * Z)) (a : Arena) : option (list region * Arena) :=
  match rs with
  | [] => Some ([], a)
  | (al, n) :: rs =>
      '(p, a) ← request al n a;
      '(l, a) ← allocate_all rs a;
      Some ((p, n) :: l, a)
  end.

(** The most memory the requests can take. *)
Definition demand (rs : list (bool * Z)) : Z := foldr (λ r s, Z.max kBlockSize r.2 + s) 0 rs.

Definition total (l : list Z) : Z := foldr Z.add 0 l.

Lemma total_app l k : total (l ++ k) = total l + total k.
Proof. induction l as [|x l IH]; simpl; [done|rewrite IH; lia]. Qed.

(** The arena after handing out [regs]. *)
Record ArenaInv (a : Arena) (regs : list region) : Prop := {
  ai_ptr : match alloc_ptr_ a with
           | None => alloc_bytes_remaining_ a = 0
           | Some (b, o) => 0 <= o ∧ 0 <= alloc_bytes_remaining_ a ∧ blocks_ a !! b = Some (o + alloc_bytes_remaining_ a) ∧
               (∀ r, r ∈ regs → r.1.1 = b → r.1.2 + r.2 <= o)
           end;
  ai_in r : r ∈ regs → in_block (blocks_ a) r ∧ 0 < r.2;
  ai_disjoint i j r s : regs !! i = Some r → regs !! j = Some s → i ≠ j → disjoint_regions r s;
  ai_memory : blocks_memory_ a = total (blocks_ a);
  ai_positive : Forall (Z.lt 0) (blocks_ a);
  ai_capacity : zlen (blocks_ a) <= capacity_ a <= 2 * zlen (blocks_ a);
  ai_used : total (regs.*2) + alloc_bytes_remaining_ a <= total (blocks_ a);
}.

Lemma ArenaInv_make : ArenaInv Arena_make [].
Proof. split; simpl; try done; try lia. by intros r ?%not_elem_of_nil. Qed.

(** Adding one region that meets none of the others keeps the list disjoint. *)
Lemma disjoint_snoc (regs : list region) r :
  (∀ i j r s, regs !! i = Some r → regs !! j = Some s → i ≠ j → disjoint_regions r s) →
  (∀ s, s ∈ regs → disjoint_regions r s) →
  ∀ i j x y, (regs ++ [r]) !! i = Some x → (regs ++ [r]) !! j = Some y → i ≠ j → disjoint_regions x y.
Proof.
  intros Hold Hnew i j x y Hx Hy Hij. unfold disjoint_regions in *.
  apply lookup_app_Some in Hx as [Hx|[Hli Hx]]; apply lookup_app_Some in Hy as [Hy|[Hlj Hy]].
  - by apply (Hold i j).
  - apply list_lookup_singleton_Some in Hy as [? <-]. apply list_elem_of_lookup_2 in Hx. apply Hnew in Hx. naive_solver.
  - apply list_lookup_singleton_Some in Hx as [? <-]. apply list_elem_of_lookup_2 in Hy. by apply Hnew.
  - apply list_lookup_singleton_Some in Hx as [? <-]. apply list_lookup_singleton_Some in Hy as [? <-]. lia.
Qed.

Lemma in_block_app bs cs r : in_block bs r → in_block (bs ++ cs) r.
Proof. intros (s & H & ?). exists s. by rewrite lookup_app_l by (by eapply lookup_lt_Some). Qed.

Lemma in_block_lt bs r : in_block bs r → (r.1.1 < length bs)%nat.
Proof. intros (s & H & _). by eapply lookup_lt_Some. Qed.

Lemma bump_inv skip n b o a regs : ArenaInv a regs → alloc_ptr_ a = Some (b, o) → 0 <= skip → 0 < n →
  skip + n <= alloc_bytes_remaining_ a → ArenaInv (bump skip n (b, o) a).2 (regs ++ [((bump skip n (b, o) a).1, n)]).
Proof.
  intros [Hp Hin Hd Hm Hpos Hc Hu] E Hs Hn Hr. rewrite E in Hp. destruct Hp as (Ho & _ & Hb & Hbelow). split; simpl; try done.
  - split; [lia|]. split; [lia|]. split; [rewrite Hb; f_equal; lia|].
    intros r [Hr'| ->%list_elem_of_singleton]%elem_of_app Hrb; simpl; [specialize (Hbelow r Hr' Hrb); lia|lia].
  - intros r [Hr'| ->%list_elem_of_singleton]%elem_of_app; [by apply Hin|]. split; [|done]. eexists. simpl. split; [done|]. lia.
  - apply disjoint_snoc; [done|]. intros s Hs'. unfold disjoint_regions. simpl. destruct (decide (s.1.1 = b)) as [<-|]; [|left; congruence].
    right. right. specialize (Hbelow s Hs' eq_refl). lia.
  - rewrite fmap_app, total_app. simpl. lia.
Qed.

Lemma capacity_grows size cap : 0 <= size → size <= cap <= 2 * size → size + 1 <= grown_capacity size cap <= 2 * (size + 1).
Proof. unfold grown_capacity. intros. destruct (Z.ltb_spec size cap); lia. Qed.

(** A new block that is handed out whole. *)
Lemma AllocateNewBlock_inv n a regs : ArenaInv a regs → 0 < n → blocks_memory_ a + n < 2 ^ 64 →
  ArenaInv (AllocateNewBlock n a).2 (regs ++ [((AllocateNewBlock n a).1, n)]) ∧ total (blocks_ (AllocateNewBlock n a).2) = total (blocks_ a) + n.
Proof.
  intros [Hp Hin Hd Hm Hpos Hc Hu] Hn Hov. assert (0 <= total (blocks_ a)).
  { clear -Hpos. induction Hpos; simpl; lia. }
  split; [|simpl; rewrite total_app; simpl; lia]. split; simpl.
  - destruct (alloc_ptr_ a) as [[b o]|]; [|done]. destruct Hp as (Ho & Hr & Hb & Hbelow).
    split; [done|]. split; [done|]. split; [by apply lookup_app_l_Some|].
    intros r [Hr'| ->%list_elem_of_singleton]%elem_of_app Hrb; [by apply Hbelow|]. simpl in Hrb. subst b. apply lookup_lt_Some in Hb. lia.
  - intros r [Hr'| ->%list_elem_of_singleton]%elem_of_app.
    + destruct (Hin r Hr'). split; [by apply in_block_app|done].
    + split; [|done]. exists n. simpl. split; [by apply list_lookup_middle|lia].
  - apply disjoint_snoc; [done|]. intros s Hs'. left. simpl. destruct (Hin s Hs') as [Hib _]. apply in_block_lt in Hib. lia.
  - rewrite total_app. simpl. rewrite u64_small by (unfold is_u; lia). lia.
  - apply Forall_app. auto.
  - rewrite zlen_app. change (zlen [n]) with 1. apply capacity_grows; [apply zlen_nonneg|done].
  - rewrite fmap_app, !total_app. simpl. lia.
Qed.

(** The fresh block becomes the current one. *)
Lemma current_block_inv a regs : ArenaInv a regs → blocks_memory_ a + kBlockSize < 2 ^ 64 →
  let a' := (AllocateNewBlock kBlockSize a).2 in
  ArenaInv {| alloc_ptr_ := Some (length (blocks_ a), 0); alloc_bytes_remaining_ := kBlockSize;
              blocks_ := blocks_ a'; capacity_ := capacity_ a'; blocks_memory_ := blocks_memory_ a' |} regs ∧
  total (blocks_ a') = total (blocks_ a) + kBlockSize.
Proof.
  intros Hinv Hov. destruct (AllocateNewBlock_inv kBlockSize a regs Hinv) as [H' Htot]; [unfold kBlockSize; lia|done|].
  destruct Hinv as [Hp Hin Hd Hm Hpos Hc Hu]. destruct H' as [_ _ _ Hm' Hpos' Hc' _]. split; [|done]. split; simpl in *; try done.
  - split; [done|]. split; [unfold kBlockSize; lia|]. split; [by apply list_lookup_middle|].
    intros r Hr Hrb. destruct (Hin r Hr) as [Hib _]. apply in_block_lt in Hib. lia.
  - intros r Hr. destruct (Hin r Hr). split; [by apply in_block_app|done].
  - rewrite total_app in *. simpl in *. destruct (alloc_ptr_ a) as [[b o]|]; lia.
Qed.

Lemma AllocateFallback_inv n a regs : ArenaInv a regs → 0 < n → total (blocks_ a) + Z.max kBlockSize n < 2 ^ 64 →
  let r := AllocateFallback n a in
  ArenaInv r.2 (regs ++ [(r.1, n)]) ∧ total (blocks_ r.2) <= total (blocks_ a) + Z.max kBlockSize n ∧
  zlen (blocks_ r.2) = zlen (blocks_ a) + 1 ∧ r.1.2 = 0.
Proof.
  intros Hinv Hn Hov. pose proof (ai_memory _ _ Hinv) as Hm. unfold AllocateFallback. destruct (Z.gtb_spec n (kBlockSize / 4)) as [Hbig|Hsmall].
  - destruct (AllocateNewBlock_inv n a regs Hinv) as [H1 H2]; [done|lia|]. split; [done|]. split; [rewrite H2; lia|]. split; [simpl; by rewrite zlen_app|done].
  - destruct (current_block_inv a regs Hinv) as [H1 H2]; [lia|]. unfold kBlockSize in Hsmall. change (4096 / 4) with 1024 in Hsmall.
    split; [|split; [|split; [simpl; by rewrite zlen_app|done]]].
    + apply (bump_inv 0 n _ _ _ _ H1 eq_refl); simpl; unfold kBlockSize; lia.
    + change (total (blocks_ (AllocateNewBlock kBlockSize a).2) <= total (blocks_ a) + Z.max kBlockSize n). rewrite H2. lia.
Qed.

Lemma address_mod_spec o : 0 <= o → 0 <= o .& (align - 1) < 8 ∧ (o .& (align - 1) = 0 → o mod 8 = 0) ∧ o .& (align - 1) = o mod 8.
Proof. intros. change (align - 1) with (Z.ones 3). rewrite (Z.land_ones o 3 ltac:(lia)). change (2 ^ 3) with 8. pose proof (Z.mod_pos_bound o 8). lia. Qed.

(** One request: the arena stays well formed, and an aligned one is aligned. *)
Lemma request_inv al n a regs : ArenaInv a regs → 0 < n → total (blocks_ a) + Z.max kBlockSize n < 2 ^ 64 - 8 →
  ∃ p a', request al n a = Some (p, a') ∧ ArenaInv a' (regs ++ [(p, n)]) ∧
    total (blocks_ a') <= total (blocks_ a) + Z.max kBlockSize n ∧ zlen (blocks_ a') <= zlen (blocks_ a) + 1 ∧
    (al = true → p.2 mod 8 = 0).
Proof.
  intros Hinv Hn Hov. assert (Hpos : 0 <= total (blocks_ a)).
  { pose proof (ai_positive _ _ Hinv) as Hp. clear -Hp. induction Hp; simpl; lia. }
  destruct (AllocateFallback_inv n a regs Hinv Hn) as (Hf1 & Hf2 & Hf4 & Hf3); [lia|].
  destruct (AllocateFallback n a) as [pf af] eqn:Ef. simpl in Hf1, Hf2, Hf3, Hf4. pose proof (ai_ptr _ _ Hinv) as Hp.
  destruct al; simpl; unfold AllocateAligned, Allocate; rewrite ?Ef.
  - destruct (alloc_ptr_ a) as [[b o]|] eqn:E.
    + destruct Hp as (Ho & Hr & _). cbn [address_mod]. destruct (address_mod_spec o Ho) as (Hm1 & _ & Hm2). rewrite Hm2 in *.
      set (slop := if o mod 8 =? 0 then 0 else align - o mod 8).
      assert (Hslop : 0 <= slop < 8 ∧ (o + slop) mod 8 = 0).
      { subst slop. unfold align. destruct (Z.eqb_spec (o mod 8) 0) as [H0|]; [rewrite Z.add_0_r; lia|].
        split; [lia|]. replace (o + (8 - o mod 8)) with ((o / 8 + 1) * 8) by (pose proof (Z.div_mod o 8); lia). apply Z.mod_mul. lia. }
      destruct Hslop as [Hsl Hal]. rewrite u64_small by (unfold is_u; unfold kBlockSize in *; lia).
      destruct (Z.leb_spec (n + slop) (alloc_bytes_remaining_ a)); cbn [mbind option_bind].
      * destruct (address_mod_spec (o + slop) ltac:(lia)) as (_ & _ & Hm3). unfold bump at 1. cbn [fst snd address_mod]. rewrite Hm3, Hal.
        cbn [Z.eqb]. eexists _, _. split; [done|]. split; [|split; [simpl; unfold kBlockSize; lia|]; split; [simpl; lia|done]].
        apply (bump_inv slop n b o a regs Hinv E); lia.
      * destruct (address_mod_spec 0 ltac:(lia)) as (_ & _ & Hm3). cbn [fst address_mod]. destruct pf as [pb po]. simpl in Hf3. subst po. rewrite Hm3.
        eexists _, _. split; [reflexivity|]. split; [done|]. split; [done|]. split; [lia|done].
    + rewrite Hp. cbn [address_mod]. rewrite Z.eqb_refl, Z.add_0_r, u64_small by (unfold is_u; unfold kBlockSize in *; lia).
      rewrite (proj2 (Z.leb_gt _ _)) by lia. cbn [mbind option_bind fst address_mod]. destruct pf as [pb po]. simpl in Hf3. subst po.
      eexists _, _. split; [reflexivity|]. split; [done|]. split; [done|]. split; [lia|done].
  - rewrite (proj2 (Z.leb_gt _ _)) by lia. destruct (Z.leb_spec n (alloc_bytes_remaining_ a)).
    + destruct (alloc_ptr_ a) as [[b o]|] eqn:E; [|lia]. cbn [mbind option_bind]. eexists _, _. split; [done|].
      split; [apply (bump_inv 0 n b o a regs Hinv E); lia|]. split; [simpl; unfold kBlockSize; lia|]. split; [simpl; lia|done].
    + eexists _, _. split; [done|]. split; [done|]. split; [done|]. split; [lia|done].
Qed.

Lemma demand_nonneg rs : Forall (λ r, 0 < r.2) rs → 0 <= demand rs.
Proof. induction 1; simpl; unfold kBlockSize; lia. Qed.

Lemma allocate_all_inv rs : ∀ a regs, ArenaInv a regs → Forall (λ r, 0 < r.2) rs →
  total (blocks_ a) + demand rs < 2 ^ 64 - 8 →
  ∃ l a', allocate_all rs a = Some (l, a') ∧ ArenaInv a' (regs ++ l) ∧
    Forall2 (λ (q : bool * Z) (r : region), r.2 = q.2 ∧ (q.1 = true → r.1.2 mod 8 = 0)) rs l ∧
    total (blocks_ a') <= total (blocks_ a) + demand rs ∧ zlen (blocks_ a') <= zlen (blocks_ a) + zlen rs.
Proof.
  induction rs as [|[al n] rs IH]; intros a regs Hinv Hpos Hov.
  - exists [], a. rewrite app_nil_r. simpl. split; [done|]. split; [done|]. split; [constructor|]. unfold zlen; simpl; lia.
  - apply Forall_cons in Hpos as [Hn Hpos]. pose proof (demand_nonneg rs Hpos). simpl in *.
    destruct (request_inv al n a regs Hinv Hn) as (p & a1 & -> & Hinv1 & Ht & Hl & Hal); [lia|].
    destruct (IH a1 _ Hinv1 Hpos) as (l & a2 & E & Hinv2 & Hl2 & Ht2 & Hlen2); [lia|]. simpl. rewrite E.
    exists ((p, n) :: l), a2. split; [done|]. rewrite <- app_assoc in Hinv2. split; [done|]. split; [by constructor|].
    rewrite zlen_cons. lia.
Qed.

(** [C26] An arena serves every sequence of nonempty requests that fits in the address
    space: each region lies inside one of its blocks, no two regions overlap, aligned
    requests are aligned to eight bytes, and [MemoryUsage] counts the blocks and the vector
    of pointers to them exactly, so it is at least the sum of the requests. *)
Theorem arena_regions_sound (rs : list (bool * Z)) (Hpos : Forall (λ r, 0 < r.2) rs) (Hsize : demand rs < 2 ^ 63) :
  ∃ l a, allocate_all rs Arena_make = Some (l, a) ∧
    Forall2 (λ (q : bool * Z) (r : region), r.2 = q.2 ∧ in_block (blocks_ a) r ∧ (q.1 = true → r.1.2 mod 8 = 0)) rs l ∧
    (∀ i j r s, l !! i = Some r → l !! j = Some s → i ≠ j → disjoint_regions r s) ∧
    MemoryUsage a = total (blocks_ a) + 8 * capacity_ a ∧ total rs.*2 <= MemoryUsage a.
Proof.
  destruct (allocate_all_inv rs Arena_make [] ArenaInv_make Hpos) as (l & a & E & Hinv & Hl & Ht & Hlen); [simpl; lia|].
  exists l, a. simpl in *. destruct Hinv as [Hp Hin Hd Hm Hb Hc Hu].
  assert (Hlen' : kBlockSize * zlen rs <= demand rs).
  { clear. induction rs as [|r rs IH]; [done|]. rewrite zlen_cons. simpl. unfold kBlockSize in *. lia. }
  assert (Hsum : total rs.*2 = total l.*2).
  { clear -Hl. induction Hl as [|q r rs l [H _] _ IH]; [done|]. rewrite !fmap_cons. simpl. lia. }
  assert (Hu8 : MemoryUsage a = total (blocks_ a) + 8 * capacity_ a).
  { unfold MemoryUsage. rewrite Hm, u64_small; [lia|]. assert (0 <= total (blocks_ a)) by (clear -Hb; induction Hb; simpl; lia).
    unfold is_u. pose proof (zlen_nonneg (blocks_ a)). unfold kBlockSize in *. change (zlen []) with 0 in Hlen. lia. }
  split; [done|]. split; [|split; [done|split; [done|]]].
  - apply Forall2_same_length_lookup_2; [by eapply Forall2_length|]. intros i q r Hq Hr.
    destruct (Forall2_lookup_lr _ _ _ _ _ _ Hl Hq Hr) as [H1 H2]. split; [done|]. split; [|done]. apply Hin. by eapply list_elem_of_lookup_2.
  - rewrite Hu8, Hsum. pose proof (zlen_nonneg (blocks_ a)). assert (0 <= alloc_bytes_remaining_ a); [|lia].
    destruct (alloc_ptr_ a) as [[b o]|]; lia.
Qed.

Lemma arena_regions_sound_witness :
  ∃ l a, allocate_all [(true, 104); (false, 13); (true, 16); (false, 5000); (false, 4000)] Arena_make = Some (l, a) ∧
    l !! 2%nat = Some (0%nat, 120, 16) ∧ disjoint_regions (0%nat, 120, 16) (0%nat, 104, 13).
Proof.
  destruct (arena_regions_sound [(true, 104); (false, 13); (true, 16); (false, 5000); (false, 4000)]) as (l & a & E & _ & Hd & _);
    [repeat constructor|done|].
  exists l, a. split; [exact E|]. assert (El : l = [(0%nat, 0, 104); (0%nat, 104, 13); (0%nat, 120, 16); (1%nat, 0, 5000); (2%nat, 0, 4000)]).
  { vm_compute in E. by injection E as <- _. }
  subst l. split; [done|]. by apply (Hd 2%nat 1%nat).
Defined.
