(* ===== verification/WriteBatch.v ===== *)
(** * Write batches

    Model of [App/integration/write_batch.h], [write_batch_internal.h] and
    [write_batch.cpp]: a batch is its serialized representation [rep_], a 12-byte
    header (sequence number and count) followed by the records. *)
From S2P Require Import Prelude Coding Comparator DbFormat Logging Status SkipList MemTable.
From stdpp Require Import list.

#[local] Open Scope Z_scope.
#[local] Open Scope word_scope.

Definition kHeader : nat := 12.

Record WriteBatch := { rep_ : bytes }.

(** [rep_.resize(kHeader)] fills with zero bytes. *)
Definition Clear : WriteBatch := {| rep_ := repeat 0 kHeader |}.

(** The conversion of a 32-bit word to [int]. *)
Definition to_int (x : Z) : Z := if x <? 2 ^ 31 then x else x - 2 ^ 32.

Definition Count (b : WriteBatch) : Z := to_int (DecodeFixed32 (drop 8 (rep_ b))).
Definition SetCount (n : Z) (b : WriteBatch) : WriteBatch :=
  {| rep_ := take 8 (rep_ b) ++ EncodeFixed32 (u32 n) ++ drop 12 (rep_ b) |}.
Definition Sequence (b : WriteBatch) : Z := DecodeFixed64 (rep_ b).
Definition SetSequence (seq : Z) (b : WriteBatch) : WriteBatch :=
  {| rep_ := EncodeFixed64 seq ++ drop 8 (rep_ b) |}.

Definition Put (key value : bytes) (b : WriteBatch) : WriteBatch :=
  let b := SetCount (Count b + 1) b in
  let r := rep_ b ++ [ValueType_code kTypeValue] in
  {| rep_ := PutLengthPrefixedSlice (PutLengthPrefixedSlice r key) value |}.

Definition Delete (key : bytes) (b : WriteBatch) : WriteBatch :=
  let b := SetCount (Count b + 1) b in
  let r := rep_ b ++ [ValueType_code kTypeDeletion] in
  {| rep_ := PutLengthPrefixedSlice r key |}.

Definition Contents (b : WriteBatch) : bytes := rep_ b.
Definition ByteSize (b : WriteBatch) : Z := zlen (rep_ b).
Definition SetContents (contents : bytes) : WriteBatch := {| rep_ := contents |}.

Definition Append (src dst : WriteBatch) : WriteBatch :=
  let dst := SetCount (Count dst + Count src) dst in
  {| rep_ := rep_ dst ++ drop kHeader (rep_ src) |}.

(** [WriteBatch::Handler], over the state [S] its methods change. *)
Record Handler (S : Type) := {
  Handler_Put : bytes → bytes → S → S;
  Handler_Delete : bytes → S → S;
}.
Arguments Handler_Put {S}. Arguments Handler_Delete {S}.

(** The loop of [Iterate]: a status to return early or the count of records, and the
    state of the handler. Each pass consumes a tag, so the length is fuel enough. *)
Fixpoint Iterate_loop {S} (h : Handler S) (fuel : nat) (input : bytes) (found : Z) (st : S) :
    option ((Status + Z) * S) :=
  match input with
  | [] => Some (inr found, st)
  | tag :: input =>
      match fuel with
      | O => None
      | Datatypes.S fuel' =>
          let found := found + 1 in
          if tag =? ValueType_code kTypeValue then
            match GetLengthPrefixedSlice input with
            | (Some key, input) =>
                match GetLengthPrefixedSlice input with
                | (Some value, input) => Iterate_loop h fuel' input found (Handler_Put h key value st)
                | (None, _) => Some (inl (Corruption (str "bad WriteBatch Put") []), st)
                end
            | (None, _) => Some (inl (Corruption (str "bad WriteBatch Put") []), st)
            end
          else if tag =? ValueType_code kTypeDeletion then
            match GetLengthPrefixedSlice input with
            | (Some key, input) => Iterate_loop h fuel' input found (Handler_Delete h key st)
            | (None, _) => Some (inl (Corruption (str "bad WriteBatch Delete") []), st)
            end
          else Some (inl (Corruption (str "unknown WriteBatch tag") []), st)
      end
  end.

Definition Iterate {S} (h : Handler S) (b : WriteBatch) (st : S) : option (Status * S) :=
  if (length (rep_ b) <? kHeader)%nat
  then Some (Corruption (str "malformed WriteBatch (too small)") [], st)
  else
    match Iterate_loop h (length (rep_ b)) (drop kHeader (rep_ b)) 0 st with
    | None => None
    | Some (inl s, st) => Some (s, st)
    | Some (inr found, st) =>
        if negb (found =? Count b) then Some (Corruption (str "WriteBatch has wrong count") [], st)
        else Some (OK, st)
    end.

(** [Iterate1] knows only the put records; [kv] is what [*key] and [*value] hold. *)
Fixpoint Iterate1_loop (fuel : nat) (input : bytes) (found : Z) (kv : bytes * bytes) :
    option ((Status + Z) * (bytes * bytes)) :=
  match input with
  | [] => Some (inr found, kv)
  | tag :: input =>
      match fuel with
      | O => None
      | S fuel' =>
          let found := found + 1 in
          if tag =? ValueType_code kTypeValue then
            match GetLengthPrefixedSlice input with
            | (Some key, input) =>
                match GetLengthPrefixedSlice input with
                | (Some value, input) => Iterate1_loop fuel' input found (key, value)
                | (None, _) => Some (inl (Corruption (str "bad WriteBatch Put") []), (key, kv.2))
                end
            | (None, _) => Some (inl (Corruption (str "bad WriteBatch Put") []), kv)
            end
          else Some (inl (Corruption (str "unknown WriteBatch tag") []), kv)
      end
  end.

Definition Iterate1 (b : WriteBatch) (kv : bytes * bytes) : option (Status * (bytes * bytes)) :=
  if (length (rep_ b) <? kHeader)%nat
  then Some (Corruption (str "malformed WriteBatch (too small)") [], kv)
  else
    match Iterate1_loop (length (rep_ b)) (drop kHeader (rep_ b)) 0 kv with
    | None => None
    | Some (inl s, kv) => Some (s, kv)
    | Some (inr found, kv) =>
        if negb (found =? Count b) then Some (Corruption (str "WriteBatch has wrong count") [], kv)
        else Some (OK, kv)
    end.

(** [MemTableInserter]: the next sequence number, and the memtable unless an [Add]
    did not end. *)
Definition MemTableInserter : Handler (Z * option MemTable) := {|
  Handler_Put key value '(seq, mem) :=
    (u64 (seq + 1), mem ≫= MemTable.Add seq kTypeValue key value);
  Handler_Delete key '(seq, mem) :=
    (u64 (seq + 1), mem ≫= MemTable.Add seq kTypeDeletion key []);
|}.

Definition InsertInto (b : WriteBatch) (m : MemTable) : option (Status * (Z * option MemTable)) :=
  Iterate MemTableInserter b (Sequence b, Some m).

(** ** The updates a batch stands for *)

Inductive Update := UPut (key value : bytes) | UDelete (key : bytes).

Definition update_ok (u : Update) : Prop :=
  match u with
  | UPut k v => zlen k < 2 ^ 32 ∧ zlen v < 2 ^ 32
  | UDelete k => zlen k < 2 ^ 32
  end.

Definition apply_update (u : Update) (b : WriteBatch) : WriteBatch :=
  match u with UPut k v => Put k v b | UDelete k => Delete k b end.

Definition handle {S} (h : Handler S) (st : S) (u : Update) : S :=
  match u with UPut k v => Handler_Put h k v st | UDelete k => Handler_Delete h k st end.

Definition update_bytes (u : Update) : bytes :=
  match u with
  | UPut k v => ValueType_code kTypeValue :: PutLengthPrefixedSlice [] k ++ PutLengthPrefixedSlice [] v
  | UDelete k => ValueType_code kTypeDeletion :: PutLengthPrefixedSlice [] k
  end.

(** [b] carries sequence number [seq] and exactly the updates [us]. *)
Definition holds (b : WriteBatch) (seq : Z) (us : list Update) : Prop :=
  rep_ b = EncodeFixed64 seq ++ EncodeFixed32 (Z.of_nat (length us)) ++ mjoin (update_bytes <$> us) ∧
  is_u 64 seq ∧ Z.of_nat (length us) < 2 ^ 31 ∧ Forall update_ok us.

(** ** The header *)

Lemma to_int_small x : 0 <= x < 2 ^ 31 → to_int x = x.
Proof. unfold to_int. intros. destruct (Z.ltb_spec x (2 ^ 31)); lia. Qed.

Lemma drop_8_fixed64 v (rest : bytes) : drop 8 (EncodeFixed64 v ++ rest) = rest.
Proof. by apply drop_app_length'. Qed.
Lemma take_8_fixed64 v (rest : bytes) : take 8 (EncodeFixed64 v ++ rest) = EncodeFixed64 v.
Proof. by apply take_app_length'. Qed.

(** A representation with this header. *)
Definition header (seq n : Z) (body : bytes) : WriteBatch :=
  {| rep_ := EncodeFixed64 seq ++ EncodeFixed32 n ++ body |}.

Lemma batch_header_fields seq n body : is_u 64 seq → 0 <= n < 2 ^ 31 →
  Sequence (header seq n body) = seq ∧ Count (header seq n body) = n ∧
  drop kHeader (rep_ (header seq n body)) = body ∧ (kHeader <= length (rep_ (header seq n body)))%nat.
Proof.
  intros Hs Hn. unfold Sequence, Count, header; cbn [rep_].
  rewrite drop_8_fixed64, DecodeEncodeFixed64, DecodeEncodeFixed32, u64_small by done.
  rewrite u32_small by (unfold is_u; lia). rewrite to_int_small by done. split; [done|]. split; [done|].
  split; [|rewrite !length_app, EncodeFixed64_length, EncodeFixed32_length; unfold kHeader; lia].
  rewrite app_assoc. by apply drop_app_length'.
Qed.

Lemma SetCount_header seq n n' body : is_u 32 n' → SetCount n' (header seq n body) = header seq n' body.
Proof.
  intros Hn. unfold SetCount, header; cbn [rep_]. f_equal. rewrite take_8_fixed64, u32_small by done.
  f_equal.
Qed.

Lemma holds_header b seq us : holds b seq us →
  b = header seq (Z.of_nat (length us)) (mjoin (update_bytes <$> us)).
Proof. intros [H _]. destruct b. unfold header. simpl in H. by rewrite H. Qed.

(** ** Building *)

Lemma holds_Clear : holds Clear 0 [].
Proof. split; [reflexivity|]. split; [unfold is_u; lia|]. split; [simpl; lia|constructor]. Qed.

Lemma holds_SetSequence b seq us seq' : holds b seq us → is_u 64 seq' → holds (SetSequence seq' b) seq' us.
Proof.
  intros (H1 & H2 & H3 & H4) Hs. split; [|done]. simpl. rewrite H1. by rewrite drop_8_fixed64.
Qed.

Lemma holds_apply b seq us u : holds b seq us → update_ok u → Z.of_nat (length us) + 1 < 2 ^ 31 →
  holds (apply_update u b) seq (us ++ [u]).
Proof.
  intros Hb Hu Hl. pose proof Hb as (_ & Hs & _ & Hf). apply holds_header in Hb as ->.
  assert (Hstep : rep_ (apply_update u (header seq (Z.of_nat (length us)) (mjoin (update_bytes <$> us)))) =
    rep_ (header seq (Z.of_nat (length us) + 1) (mjoin (update_bytes <$> us))) ++ update_bytes u).
  { destruct (batch_header_fields seq (Z.of_nat (length us)) (mjoin (update_bytes <$> us)) Hs ltac:(lia)) as (_ & HC & _).
    destruct u as [k v|k]; unfold apply_update, Put, Delete; cbn [rep_]; rewrite HC, SetCount_header by (unfold is_u; lia);
      cbn [update_bytes].
    - rewrite PutLengthPrefixedSlice_app, (PutLengthPrefixedSlice_app _ k), <- !app_assoc. done.
    - by rewrite PutLengthPrefixedSlice_app, <- !app_assoc. }
  split; [|split; [done|]; split; [rewrite length_app; simpl; lia|by apply Forall_app; auto]].
  rewrite Hstep. unfold header; cbn [rep_]. rewrite length_app, fmap_app, join_app, <- !app_assoc. cbn [length fmap list_fmap mjoin list_join].
  rewrite app_nil_r. do 3 f_equal. lia.
Qed.

Lemma holds_Append dst src s1 s2 us vs : holds dst s1 us → holds src s2 vs →
  Z.of_nat (length us + length vs) < 2 ^ 31 → holds (Append src dst) s1 (us ++ vs).
Proof.
  intros Hd Hs Hl. pose proof Hd as (_ & Hs1 & _ & Hf1). pose proof Hs as (_ & Hs2 & _ & Hf2).
  apply holds_header in Hd as ->. apply holds_header in Hs as ->. unfold Append.
  destruct (batch_header_fields s1 (Z.of_nat (length us)) (mjoin (update_bytes <$> us)) Hs1 ltac:(lia)) as (_ & -> & _).
  destruct (batch_header_fields s2 (Z.of_nat (length vs)) (mjoin (update_bytes <$> vs)) Hs2 ltac:(lia)) as (_ & -> & -> & _).
  rewrite SetCount_header by (unfold is_u; lia).
  split; [|split; [done|]; split; [rewrite length_app; lia|by apply Forall_app; auto]].
  unfold header; cbn [rep_]. rewrite length_app, fmap_app, join_app, <- !app_assoc, Nat2Z.inj_add. done.
Qed.

(** ** Reading *)

Lemma Iterate_loop_updates {S} (h : Handler S) us : Forall update_ok us → ∀ fuel found st,
  (length us <= fuel)%nat →
  Iterate_loop h fuel (mjoin (update_bytes <$> us)) found st =
    Some (inr (found + Z.of_nat (length us)), fold_left (handle h) us st).
Proof.
  induction us as [|u us IH]; intros Hok fuel found st Hf.
  - simpl. by rewrite Z.add_0_r; destruct fuel.
  - apply Forall_cons_iff in Hok as [Hu Hok]. destruct fuel as [|fuel]; simpl in Hf; [lia|].
    rewrite fmap_cons. cbn [mjoin list_join]. destruct u as [k v|k]; cbn [update_bytes app Iterate_loop].
    + destruct Hu as [Hk Hv]. cbn [ValueType_code]. rewrite Z.eqb_refl.
      rewrite <- app_assoc, !GetLengthPrefixedSlice_Put by done.
      fold (mjoin (update_bytes <$> us)). rewrite IH by (done || lia).
      cbn [length fold_left handle]. do 3 f_equal. lia.
    + cbn [ValueType_code]. change (0 =? 1) with false. cbv iota. rewrite Z.eqb_refl.
      rewrite !GetLengthPrefixedSlice_Put by done.
      fold (mjoin (update_bytes <$> us)). rewrite IH by (done || lia).
      cbn [length fold_left handle]. do 3 f_equal. lia.
Qed.

Lemma length_updates us : (length us <= length (mjoin (update_bytes <$> us)))%nat.
Proof.
  induction us as [|u us IH]; [done|]. rewrite fmap_cons. change (mjoin (update_bytes u :: (update_bytes <$> us))) with (update_bytes u ++ mjoin (update_bytes <$> us)). rewrite length_app.
  assert (1 <= length (update_bytes u))%nat by (destruct u; simpl; lia). cbn [length]. lia.
Qed.

Lemma Iterate_holds {S} (h : Handler S) b seq us st : holds b seq us →
  Iterate h b st = Some (OK, fold_left (handle h) us st).
Proof.
  intros Hb. pose proof Hb as (_ & Hs & Hl & Hf). apply holds_header in Hb as ->.
  destruct (batch_header_fields seq (Z.of_nat (length us)) (mjoin (update_bytes <$> us)) Hs ltac:(lia)) as (_ & HC & HD & HL).
  unfold Iterate. rewrite (proj2 (Nat.ltb_ge _ _) HL), HD, HC.
  rewrite Iterate_loop_updates; [|done|].
  - by rewrite Z.add_0_l, Z.eqb_refl.
  - unfold header; cbn [rep_]. rewrite !length_app. pose proof (length_updates us). lia.
Qed.

(** Whatever the bytes, the loop ends. *)
Lemma GetLengthPrefixedSlice_shrinks p o rest : bytes_ok p → GetLengthPrefixedSlice p = (o, rest) →
  bytes_ok rest ∧ (length rest <= length p)%nat.
Proof.
  intros Hp H. unfold GetLengthPrefixedSlice in H. destruct (GetVarint32 p) as [[len p']|] eqn:E; simplify_eq; [|done].
  apply GetVarint32_sound in E as (_ & pre & -> & _); [|done]. rewrite length_app.
  apply bytes_ok_app in Hp as [_ Hp]. destruct (_ >=? _); simplify_eq; [|split; [done|lia]].
  rewrite length_drop. split; [auto with lpad|lia].
Qed.

Lemma Iterate_loop_total {S} (h : Handler S) fuel : ∀ input found st, bytes_ok input →
  (length input <= fuel)%nat → is_Some (Iterate_loop h fuel input found st).
Proof.
  induction fuel as [|fuel IH]; intros input found st Hok Hf; destruct input as [|tag input]; simpl in *; eauto; [lia|].
  apply bytes_ok_cons in Hok as [_ Hok].
  destruct (GetLengthPrefixedSlice input) as [[key|] r] eqn:E1;
    [|by destruct (_ =? 1); [eauto|destruct (_ =? 0); eauto]].
  apply GetLengthPrefixedSlice_shrinks in E1 as [Hr Hlr]; [|done].
  destruct (_ =? 1); [|destruct (_ =? 0); [apply IH; [done|lia]|eauto]].
  destruct (GetLengthPrefixedSlice r) as [[v|] r'] eqn:E2; [|eauto].
  apply GetLengthPrefixedSlice_shrinks in E2 as [Hr' Hlr']; [|done]. apply IH; [done|lia].
Qed.

Lemma Iterate1_loop_puts kvs : Forall (λ kv, zlen kv.1 < 2 ^ 32 ∧ zlen kv.2 < 2 ^ 32) kvs →
  ∀ fuel found kv, (length kvs <= fuel)%nat →
  Iterate1_loop fuel (mjoin (update_bytes <$> ((λ kv, UPut kv.1 kv.2) <$> kvs))) found kv =
    Some (inr (found + Z.of_nat (length kvs)), List.last kvs kv).
Proof.
  induction kvs as [|[k v] kvs IH]; intros Hok fuel found kv Hf.
  - simpl. by rewrite Z.add_0_r; destruct fuel.
  - apply Forall_cons_iff in Hok as [[Hk Hv] Hok]. destruct fuel as [|fuel]; simpl in Hf; [lia|].
    rewrite !fmap_cons. cbn [mjoin list_join fst snd update_bytes app Iterate1_loop ValueType_code].
    rewrite Z.eqb_refl, <- app_assoc. simpl in Hk, Hv. rewrite !GetLengthPrefixedSlice_Put by done.
    fold (mjoin (update_bytes <$> ((λ kv, UPut kv.1 kv.2) <$> kvs))). rewrite IH by (done || lia).
    cbn [length]. f_equal. f_equal; [f_equal; lia|]. destruct kvs as [|kv' kvs]; [done|].
    clear. revert kv'. induction kvs as [|? ? IH]; intros kv'; [done|]. apply IH.
Qed.

(** ** Into a memtable *)

Definition update_entry (seq : Z) (u : Update) : Entry :=
  match u with
  | UPut k v => {| e_seq := seq; e_type := kTypeValue; e_key := k; e_value := v |}
  | UDelete k => {| e_seq := seq; e_type := kTypeDeletion; e_key := k; e_value := [] |}
  end.

(** The entries of a batch, newest first: consecutive sequence numbers. *)
Fixpoint batch_entries (seq : Z) (us : list Update) : list Entry :=
  match us with
  | [] => []
  | u :: us' => batch_entries (seq + 1) us' ++ [update_entry seq u]
  end.

Definition update_key (u : Update) : bytes := match u with UPut k _ | UDelete k => k end.

Definition insertable (valid : bytes → Prop) (u : Update) : Prop :=
  valid (update_key u) ∧ zlen (update_key u) + 8 < 2 ^ 32 ∧ update_ok u.

Lemma update_entry_ok valid seq u : 0 <= seq <= kMaxSequenceNumber → insertable valid u →
  entry_ok valid (update_entry seq u).
Proof.
  intros Hs (Hv & Hk & Hu). destruct u; unfold entry_ok; simpl in *; split_and!; try done; try lia; try tauto.
Qed.

Lemma insert_updates (valid : bytes → Prop) user us : ComparatorOk valid user →
  Forall (insertable valid) us → ∀ seq m E, MemInv valid user m E → 0 <= seq →
  seq + Z.of_nat (length us) <= kMaxSequenceNumber + 1 → (∀ e, e ∈ E → e_seq e < seq) →
  ∃ m', fold_left (handle MemTableInserter) us (seq, Some m) =
          (seq + Z.of_nat (length us), Some m') ∧
    MemInv valid user m' (batch_entries seq us ++ E).
Proof.
  intros HC. induction us as [|u us IH]; intros Hus seq m E HM Hs Hlen Hlt.
  - exists m. simpl. by rewrite Z.add_0_r.
  - apply Forall_cons_iff in Hus as [Hu Hus]. cbn [length] in Hlen.
    assert (He : entry_ok valid (update_entry seq u)) by (apply update_entry_ok; [lia|done]).
    destruct (Add_MemInv m E (update_entry seq u) HM He) as (m1 & HA & HM1).
    { intros e' He' _. specialize (Hlt e' He'). destruct u; simpl; lia. }
    destruct (IH Hus (seq + 1) m1 (update_entry seq u :: E) HM1) as (m' & HF & HM'); [lia|lia|..].
    { intros e' [->|He']%elem_of_cons; [destruct u; simpl; lia|]. specialize (Hlt e' He'). lia. }
    exists m'. cbn [batch_entries]. rewrite <- app_assoc. split; [|done]. cbn [fold_left].
    assert (Hstep : handle MemTableInserter (seq, Some m) u = (seq + 1, Some m1)).
    { unfold kMaxSequenceNumber in Hlen. rewrite Z.shiftl_1_l in Hlen.
      destruct u; cbn [handle MemTableInserter Handler_Put Handler_Delete]; cbn in HA |- *; rewrite HA;
      rewrite u64_small by (unfold is_u; lia); done. }
    rewrite Hstep, HF. f_equal. cbn [length]. lia.
Qed.

(** ** Properties *)

(** What [Put], [Delete], [Append] and [SetSequence] serialize, [Iterate] reads
    back: starting from [Clear], any sequence of updates (fewer than 2^31, keys and
    values below 4 GiB), appended to any other batch, is handed to the handler record
    by record in order, with status OK, and the header's count and sequence number
    are right. *)
Theorem write_batch_roundtrip {S} (h : Handler S) (us vs : list Update) (seq : Z) (st : S) :
  Forall update_ok us → Forall update_ok vs → Z.of_nat (length us + length vs) < 2 ^ 31 →
  is_u 64 seq →
  let build us := fold_left (λ b u, apply_update u b) us Clear in
  let b := SetSequence seq (Append (build vs) (build us)) in
  Iterate h b st = Some (OK, fold_left (handle h) (us ++ vs) st) ∧
  Count b = Z.of_nat (length us + length vs) ∧ Sequence b = seq.
Proof.
  intros Hu Hv Hl Hs build b.
  assert (Hbuild : ∀ ws, Forall update_ok ws → Z.of_nat (length ws) < 2 ^ 31 → holds (build ws) 0 ws).
  { induction ws as [|w ws IH] using rev_ind; intros Hw Hlw; [apply holds_Clear|].
    apply Forall_app in Hw as [Hw Hw1]. rewrite length_app in Hlw. simpl in Hlw. unfold build.
    rewrite fold_left_app. simpl. apply holds_apply; [apply IH; [done|lia]|by apply Forall_inv in Hw1|lia]. }
  assert (Hb : holds b seq (us ++ vs)).
  { eapply holds_SetSequence; [|done]. eapply holds_Append; [apply Hbuild|apply Hbuild|]; done || lia. }
  split; [by apply (Iterate_holds h b seq)|]. pose proof Hb as (_ & _ & Hlb & _).
  apply holds_header in Hb as ->. rewrite length_app in *.
  destruct (batch_header_fields seq (Z.of_nat (length us + length vs)) (mjoin (update_bytes <$> us ++ vs)) Hs ltac:(lia))
    as (HS & HC & _). done.
Qed.

Lemma write_batch_roundtrip_witness :
  Iterate {| Handler_Put k v st := st ++ [(k, v)]; Handler_Delete k st := st ++ [(k, [])] |}
    (SetSequence 7 (Append (Delete [99] Clear) (Put [97] [98] Clear))) []
  = Some (OK, [([97], [98]); ([99], [])]).
Proof.
  apply (write_batch_roundtrip
    {| Handler_Put k v st := st ++ [(k, v)]; Handler_Delete k st := st ++ [(k, [])] |}
    [UPut [97] [98]] [UDelete [99]] 7 []).
  - repeat constructor; vm_compute; congruence.
  - repeat constructor; vm_compute; congruence.
  - vm_compute; congruence.
  - unfold is_u; lia.
Defined.

(** Applying a batch to a memtable assigns consecutive sequence numbers: if every
    entry of the memtable is older than the batch's sequence number, [InsertInto]
    reports OK and the memtable afterwards holds its old entries and one entry per
    update, numbered from the batch's sequence number in order. *)
Theorem write_batch_insert_into (valid : bytes → Prop) (user : Comparator) (b : WriteBatch)
    (seq : Z) (us : list Update) (m : MemTable) (E : list Entry) :
  ComparatorOk valid user → holds b seq us → Forall (insertable valid) us →
  MemInv valid user m E → (∀ e, e ∈ E → e_seq e < seq) →
  seq + Z.of_nat (length us) <= kMaxSequenceNumber + 1 →
  ∃ m', InsertInto b m = Some (OK, (seq + Z.of_nat (length us), Some m')) ∧
    MemInv valid user m' (batch_entries seq us ++ E).
Proof.
  intros HC Hb Hus HM Hlt Hmax. pose proof Hb as (_ & Hs & Hlb & _).
  destruct (insert_updates valid user us HC Hus seq m E HM) as (m' & HF & HM');
    [unfold is_u in Hs; lia|done|done|].
  exists m'. split; [|done]. unfold InsertInto. rewrite (Iterate_holds _ b seq us) by done.
  assert (Sequence b = seq) as ->; [|by rewrite HF].
  apply holds_header in Hb as ->. by apply batch_header_fields; [|lia].
Qed.

Lemma write_batch_insert_into_witness :
  ∃ m', InsertInto (SetSequence 1 (Put [97] [120] Clear)) (MemTable_make BytewiseComparator) =
          Some (OK, (2, Some m')) ∧
    MemInv bytes_ok BytewiseComparator m' [entry_a1].
Proof.
  apply (write_batch_insert_into bytes_ok BytewiseComparator (SetSequence 1 (Put [97] [120] Clear)) 1
    [UPut [97] [120]] (MemTable_make BytewiseComparator) []).
  - apply BytewiseComparator_ok.
  - split; [reflexivity|]. split; [unfold is_u; lia|]. split; [done|].
    repeat constructor; vm_compute; congruence.
  - constructor; [|constructor]. split; [by_compute|]. split; [vm_compute; congruence|].
    split; vm_compute; congruence.
  - apply MemInv_make.
  - by intros e ?%not_elem_of_nil.
  - vm_compute; congruence.
Defined.

(** Iterating never hangs, whatever the bytes: [Iterate] ends on every
    representation, and reports corruption when it is shorter than its header.
    [Iterate1], which has no case for deletions, reads a batch of puts (leaving the
    last key and value) but reports corruption on a batch that holds a deletion. *)
Theorem write_batch_iterate_total {S} (h : Handler S) (b : WriteBatch) (st : S)
    (kvs : list (bytes * bytes)) (kv : bytes * bytes) (seq : Z) (k : bytes) : bytes_ok (rep_ b) →
  is_Some (Iterate h b st) ∧
  ((length (rep_ b) < kHeader)%nat →
     Iterate h b st = Some (Corruption (str "malformed WriteBatch (too small)") [], st)) ∧
  (holds b seq ((λ kv, UPut kv.1 kv.2) <$> kvs) → Iterate1 b kv = Some (OK, List.last kvs kv)) ∧
  (holds b seq [UDelete k] → Iterate1 b kv = Some (Corruption (str "unknown WriteBatch tag") [], kv)).
Proof.
  intros Hok. split_and!.
  - unfold Iterate. destruct (_ <? _)%nat; [eauto|].
    destruct (Iterate_loop_total h (length (rep_ b)) (drop kHeader (rep_ b)) 0 st) as [[[s|n] st'] ->];
      [auto with lpad|rewrite length_drop; lia|eauto|destruct (negb _); eauto].
  - intros Hl. unfold Iterate. by rewrite (proj2 (Nat.ltb_lt _ _) Hl).
  - intros Hb. pose proof Hb as (_ & Hs & Hl & Hf). apply holds_header in Hb as ->. rewrite length_fmap in *.
    destruct (batch_header_fields seq (Z.of_nat (length kvs)) (mjoin (update_bytes <$> ((λ kv, UPut kv.1 kv.2) <$> kvs)))
      Hs ltac:(lia)) as (_ & HC & HD & HL).
    unfold Iterate1. rewrite (proj2 (Nat.ltb_ge _ _) HL), HD, HC, Iterate1_loop_puts.
    + by rewrite Z.add_0_l, Z.eqb_refl.
    + rewrite Forall_fmap in Hf. eapply Forall_impl; [exact Hf|]. intros [k' v'] H; exact H.
    + unfold header; cbn [rep_]. rewrite !length_app.
      pose proof (length_updates ((λ kv, UPut kv.1 kv.2) <$> kvs)) as H. rewrite length_fmap in H. lia.
  - intros Hb. pose proof Hb as (_ & Hs & Hl & Hf). apply holds_header in Hb as ->.
    destruct (batch_header_fields seq 1 (mjoin (update_bytes <$> [UDelete k])) Hs ltac:(lia)) as (_ & HC & HD & HL).
    change (Z.of_nat (length [UDelete k])) with 1.
    unfold Iterate1. rewrite (proj2 (Nat.ltb_ge _ _) HL), HD.
    destruct (length (rep_ (header seq 1 (mjoin (update_bytes <$> [UDelete k]))))) eqn:E; [unfold kHeader in HL; lia|].
    reflexivity.
Qed.

Lemma write_batch_iterate_total_witness :
  Iterate1 (Put [97] [98] Clear) ([], []) = Some (OK, ([97], [98])).
Proof.
  apply (write_batch_iterate_total {| Handler_Put _ _ st := st; Handler_Delete _ st := st |}
    (Put [97] [98] Clear) tt [([97], [98])] ([], []) 0 []).
  - by_compute.
  - split; [reflexivity|]. split; [unfold is_u; lia|]. split; [done|].
    repeat constructor; vm_compute; congruence.
Defined.
