(* ===== verification/Sha3.v ===== *)
(** * The enclave's Keccak hash

    Model of [Enclave/sha3.cpp]: the unrolled permutation [KeccakF1600] and the
    sponge with rate 136 around it.  The reference is Keccak as FIPS 202 defines it,
    with rotation offsets and round constants computed from their recurrences.  The
    padding is that of the original Keccak submission, without the suffix bits
    SHA-3 later added. *)
From S2P Require Import Prelude.

#[local] Open Scope Z_scope.
#[local] Open Scope word_scope.

Definition rotlFixed (x y : Z) : Z :=
  if y =? 0 then x else u64 (x .<< y) .| (x .>> (64 - y)).

(** [~x] at 64 bits. *)
Definition not64 (x : Z) : Z := u64 (Z.lnot x).

Definition KeccakF_RoundConstants : list Z := [
  0x0000000000000001; 0x0000000000008082; 0x800000000000808a;
  0x8000000080008000; 0x000000000000808b; 0x0000000080000001;
  0x8000000080008081; 0x8000000000008009; 0x000000000000008a;
  0x0000000000000088; 0x0000000080008009; 0x000000008000000a;
  0x000000008000808b; 0x800000000000008b; 0x8000000000008089;
  0x8000000000008003; 0x8000000000008002; 0x8000000000000080;
  0x000000000000800a; 0x800000008000000a; 0x8000000080008081;
  0x8000000000008080; 0x0000000080000001; 0x8000000080008008].

(** One round from the lanes [A] to the lanes [E], statement by statement. *)
Definition round_AE (rc : Z) (A : list Z) : list Z :=
  match A with
  | [Aba; Abe; Abi; Abo; Abu;
     Aga; Age; Agi; Ago; Agu;
     Aka; Ake; Aki; Ako; Aku;
     Ama; Ame; Ami; Amo; Amu;
     Asa; Ase; Asi; Aso; Asu] =>
  let BCa := Aba .^ Aga .^ Aka .^ Ama .^ Asa in
  let BCe := Abe .^ Age .^ Ake .^ Ame .^ Ase in
  let BCi := Abi .^ Agi .^ Aki .^ Ami .^ Asi in
  let BCo := Abo .^ Ago .^ Ako .^ Amo .^ Aso in
  let BCu := Abu .^ Agu .^ Aku .^ Amu .^ Asu in
  let Da := BCu .^ rotlFixed BCe 1 in
  let De := BCa .^ rotlFixed BCi 1 in
  let Di := BCe .^ rotlFixed BCo 1 in
  let Do := BCi .^ rotlFixed BCu 1 in
  let Du := BCo .^ rotlFixed BCa 1 in
  let Aba := Aba .^ Da in
  let BCa := Aba in
  let Age := Age .^ De in
  let BCe := rotlFixed Age 44 in
  let Aki := Aki .^ Di in
  let BCi := rotlFixed Aki 43 in
  let Amo := Amo .^ Do in
  let BCo := rotlFixed Amo 21 in
  let Asu := Asu .^ Du in
  let BCu := rotlFixed Asu 14 in
  let Eba := BCa .^ (not64 BCe .& BCi) in
  let Eba := Eba .^ rc in
  let Ebe := BCe .^ (not64 BCi .& BCo) in
  let Ebi := BCi .^ (not64 BCo .& BCu) in
  let Ebo := BCo .^ (not64 BCu .& BCa) in
  let Ebu := BCu .^ (not64 BCa .& BCe) in
  let Abo := Abo .^ Do in
  let BCa := rotlFixed Abo 28 in
  let Agu := Agu .^ Du in
  let BCe := rotlFixed Agu 20 in
  let Aka := Aka .^ Da in
  let BCi := rotlFixed Aka 3 in
  let Ame := Ame .^ De in
  let BCo := rotlFixed Ame 45 in
  let Asi := Asi .^ Di in
  let BCu := rotlFixed Asi 61 in
  let Ega := BCa .^ (not64 BCe .& BCi) in
  let Ege := BCe .^ (not64 BCi .& BCo) in
  let Egi := BCi .^ (not64 BCo .& BCu) in
  let Ego := BCo .^ (not64 BCu .& BCa) in
  let Egu := BCu .^ (not64 BCa .& BCe) in
  let Abe := Abe .^ De in
  let BCa := rotlFixed Abe 1 in
  let Agi := Agi .^ Di in
  let BCe := rotlFixed Agi 6 in
  let Ako := Ako .^ Do in
  let BCi := rotlFixed Ako 25 in
  let Amu := Amu .^ Du in
  let BCo := rotlFixed Amu 8 in
  let Asa := Asa .^ Da in
  let BCu := rotlFixed Asa 18 in
  let Eka := BCa .^ (not64 BCe .& BCi) in
  let Eke := BCe .^ (not64 BCi .& BCo) in
  let Eki := BCi .^ (not64 BCo .& BCu) in
  let Eko := BCo .^ (not64 BCu .& BCa) in
  let Eku := BCu .^ (not64 BCa .& BCe) in
  let Abu := Abu .^ Du in
  let BCa := rotlFixed Abu 27 in
  let Aga := Aga .^ Da in
  let BCe := rotlFixed Aga 36 in
  let Ake := Ake .^ De in
  let BCi := rotlFixed Ake 10 in
  let Ami := Ami .^ Di in
  let BCo := rotlFixed Ami 15 in
  let Aso := Aso .^ Do in
  let BCu := rotlFixed Aso 56 in
  let Ema := BCa .^ (not64 BCe .& BCi) in
  let Eme := BCe .^ (not64 BCi .& BCo) in
  let Emi := BCi .^ (not64 BCo .& BCu) in
  let Emo := BCo .^ (not64 BCu .& BCa) in
  let Emu := BCu .^ (not64 BCa .& BCe) in
  let Abi := Abi .^ Di in
  let BCa := rotlFixed Abi 62 in
  let Ago := Ago .^ Do in
  let BCe := rotlFixed Ago 55 in
  let Aku := Aku .^ Du in
  let BCi := rotlFixed Aku 39 in
  let Ama := Ama .^ Da in
  let BCo := rotlFixed Ama 41 in
  let Ase := Ase .^ De in
  let BCu := rotlFixed Ase 2 in
  let Esa := BCa .^ (not64 BCe .& BCi) in
  let Ese := BCe .^ (not64 BCi .& BCo) in
  let Esi := BCi .^ (not64 BCo .& BCu) in
  let Eso := BCo .^ (not64 BCu .& BCa) in
  let Esu := BCu .^ (not64 BCa .& BCe) in
  [Eba; Ebe; Ebi; Ebo; Ebu;
     Ega; Ege; Egi; Ego; Egu;
     Eka; Eke; Eki; Eko; Eku;
     Ema; Eme; Emi; Emo; Emu;
     Esa; Ese; Esi; Eso; Esu]
  | _ => []
  end.

(** The next round, back from [E] to [A]. *)
Definition round_EA (rc : Z) (E : list Z) : list Z :=
  match E with
  | [Eba; Ebe; Ebi; Ebo; Ebu;
     Ega; Ege; Egi; Ego; Egu;
     Eka; Eke; Eki; Eko; Eku;
     Ema; Eme; Emi; Emo; Emu;
     Esa; Ese; Esi; Eso; Esu] =>
  let BCa := Eba .^ Ega .^ Eka .^ Ema .^ Esa in
  let BCe := Ebe .^ Ege .^ Eke .^ Eme .^ Ese in
  let BCi := Ebi .^ Egi .^ Eki .^ Emi .^ Esi in
  let BCo := Ebo .^ Ego .^ Eko .^ Emo .^ Eso in
  let BCu := Ebu .^ Egu .^ Eku .^ Emu .^ Esu in
  let Da := BCu .^ rotlFixed BCe 1 in
  let De := BCa .^ rotlFixed BCi 1 in
  let Di := BCe .^ rotlFixed BCo 1 in
  let Do := BCi .^ rotlFixed BCu 1 in
  let Du := BCo .^ rotlFixed BCa 1 in
  let Eba := Eba .^ Da in
  let BCa := Eba in
  let Ege := Ege .^ De in
  let BCe := rotlFixed Ege 44 in
  let Eki := Eki .^ Di in
  let BCi := rotlFixed Eki 43 in
  let Emo := Emo .^ Do in
  let BCo := rotlFixed Emo 21 in
  let Esu := Esu .^ Du in
  let BCu := rotlFixed Esu 14 in
  let Aba := BCa .^ (not64 BCe .& BCi) in
  let Aba := Aba .^ rc in
  let Abe := BCe .^ (not64 BCi .& BCo) in
  let Abi := BCi .^ (not64 BCo .& BCu) in
  let Abo := BCo .^ (not64 BCu .& BCa) in
  let Abu := BCu .^ (not64 BCa .& BCe) in
  let Ebo := Ebo .^ Do in
  let BCa := rotlFixed Ebo 28 in
  let Egu := Egu .^ Du in
  let BCe := rotlFixed Egu 20 in
  let Eka := Eka .^ Da in
  let BCi := rotlFixed Eka 3 in
  let Eme := Eme .^ De in
  let BCo := rotlFixed Eme 45 in
  let Esi := Esi .^ Di in
  let BCu := rotlFixed Esi 61 in
  let Aga := BCa .^ (not64 BCe .& BCi) in
  let Age := BCe .^ (not64 BCi .& BCo) in
  let Agi := BCi .^ (not64 BCo .& BCu) in
  let Ago := BCo .^ (not64 BCu .& BCa) in
  let Agu := BCu .^ (not64 BCa .& BCe) in
  let Ebe := Ebe .^ De in
  let BCa := rotlFixed Ebe 1 in
  let Egi := Egi .^ Di in
  let BCe := rotlFixed Egi 6 in
  let Eko := Eko .^ Do in
  let BCi := rotlFixed Eko 25 in
  let Emu := Emu .^ Du in
  let BCo := rotlFixed Emu 8 in
  let Esa := Esa .^ Da in
  let BCu := rotlFixed Esa 18 in
  let Aka := BCa .^ (not64 BCe .& BCi) in
  let Ake := BCe .^ (not64 BCi .& BCo) in
  let Aki := BCi .^ (not64 BCo .& BCu) in
  let Ako := BCo .^ (not64 BCu .& BCa) in
  let Aku := BCu .^ (not64 BCa .& BCe) in
  let Ebu := Ebu .^ Du in
  let BCa := rotlFixed Ebu 27 in
  let Ega := Ega .^ Da in
  let BCe := rotlFixed Ega 36 in
  let Eke := Eke .^ De in
  let BCi := rotlFixed Eke 10 in
  let Emi := Emi .^ Di in
  let BCo := rotlFixed Emi 15 in
  let Eso := Eso .^ Do in
  let BCu := rotlFixed Eso 56 in
  let Ama := BCa .^ (not64 BCe .& BCi) in
  let Ame := BCe .^ (not64 BCi .& BCo) in
  let Ami := BCi .^ (not64 BCo .& BCu) in
  let Amo := BCo .^ (not64 BCu .& BCa) in
  let Amu := BCu .^ (not64 BCa .& BCe) in
  let Ebi := Ebi .^ Di in
  let BCa := rotlFixed Ebi 62 in
  let Ego := Ego .^ Do in
  let BCe := rotlFixed Ego 55 in
  let Eku := Eku .^ Du in
  let BCi := rotlFixed Eku 39 in
  let Ema := Ema .^ Da in
  let BCo := rotlFixed Ema 41 in
  let Ese := Ese .^ De in
  let BCu := rotlFixed Ese 2 in
  let Asa := BCa .^ (not64 BCe .& BCi) in
  let Ase := BCe .^ (not64 BCi .& BCo) in
  let Asi := BCi .^ (not64 BCo .& BCu) in
  let Aso := BCo .^ (not64 BCu .& BCa) in
  let Asu := BCu .^ (not64 BCa .& BCe) in
  [Aba; Abe; Abi; Abo; Abu;
     Aga; Age; Agi; Ago; Agu;
     Aka; Ake; Aki; Ako; Aku;
     Ama; Ame; Ami; Amo; Amu;
     Asa; Ase; Asi; Aso; Asu]
  | _ => []
  end.


(** The 25 lanes in the order they are copied from and to [m_state]. *)
Fixpoint load_lanes (n : nat) (state : bytes) : list Z :=
  match n with
  | O => []
  | S n' => le_value (take 8 state) :: load_lanes n' (drop 8 state)
  end.
Definition store_lanes (A : list Z) : bytes := mjoin (le_bytes 8 <$> A).

(** [for (round = 0; round < 24; round += 2)] *)
Fixpoint Keccak_rounds (n : nat) (round : nat) (A : list Z) : list Z :=
  match n with
  | O => A
  | S n' =>
      let E := round_AE (nth round KeccakF_RoundConstants 0) A in
      let A := round_EA (nth (round + 1) KeccakF_RoundConstants 0) E in
      Keccak_rounds n' (round + 2) A
  end.

Definition KeccakF1600 (state : bytes) : bytes :=
  store_lanes (Keccak_rounds 12 0 (load_lanes 25 state)).

(** [xorbuf]: whole 64-bit words first, then the bytes left. *)
Fixpoint xorbuf_words (n : nat) (buf mask : bytes) : bytes :=
  match n with
  | O => []
  | S n' => le_bytes 8 (le_value (take 8 buf) .^ le_value (take 8 mask)) ++
            xorbuf_words n' (drop 8 buf) (drop 8 mask)
  end.
Fixpoint xorbuf_bytes (n : nat) (buf mask : bytes) {struct n} : bytes :=
  match n, buf, mask with
  | S n', b :: buf', m :: mask' => b .^ m :: xorbuf_bytes n' buf' mask'
  | _, _, _ => []
  end.
Definition xorbuf (buf mask : bytes) (count : nat) : bytes :=
  let i := (count / 8)%nat in
  xorbuf_words i buf mask ++
  xorbuf_bytes (count - 8 * i) (drop (8 * i) buf) (drop (8 * i) mask) ++
  drop count buf.

(** The global state. *)
Record Sha3 := { m_state : bytes; m_counter : nat }.

Definition sha3_restart : Sha3 := {| m_state := repeat 0 200; m_counter := 0 |}.

(** [xorbuf(m_state + off, input, count)] *)
Definition xor_state_at (off : nat) (input : bytes) (count : nat) (state : bytes) : bytes :=
  take off state ++ xorbuf (drop off state) input count.

(** Every pass of the loop consumes at least one byte. *)
Fixpoint sha3_update_loop (fuel : nat) (s : Sha3) (input : bytes) : option (Sha3 * bytes) :=
  match fuel with
  | O => None
  | S fuel' =>
      let spaceLeft := (136 - m_counter s)%nat in
      if (spaceLeft <=? length input)%nat then
        let st := KeccakF1600 (xor_state_at (m_counter s) input spaceLeft (m_state s)) in
        sha3_update_loop fuel' {| m_state := st; m_counter := 0 |} (drop spaceLeft input)
      else Some (s, input)
  end.

Definition sha3_update (s : Sha3) (input : bytes) : option Sha3 :=
  match sha3_update_loop (S (length input)) s input with
  | None => None
  | Some (s, input) =>
      Some {| m_state := xor_state_at (m_counter s) input (length input) (m_state s);
              m_counter := m_counter s + length input |}
  end.

(** The digest written to [hash], and the state left.  The copy is of the state, whose 200 bytes
    bound the digest: for a larger [size] the C function reads past it, which is not modelled. *)
Definition sha3_final (s : Sha3) (size : nat) : bytes * Sha3 :=
  let st := alter (λ b, b .^ 1) (m_counter s) (m_state s) in
  let st := alter (λ b, b .^ 0x80) 135%nat st in
  let st := KeccakF1600 st in
  (take size st, sha3_restart).

(** ** Keccak-f[1600] by its definition *)

Definition lane (A : list Z) (x y : nat) : Z := nth (x + 5 * y) A 0.
Definition mk_state (f : nat → nat → Z) : list Z :=
  flat_map (λ y, map (λ x, f x y) (seq 0 5)) (seq 0 5).

Definition theta (A : list Z) : list Z :=
  let C x := lane A x 0 .^ lane A x 1 .^ lane A x 2 .^ lane A x 3 .^ lane A x 4 in
  let D x := C ((x + 4) mod 5)%nat .^ rotlFixed (C ((x + 1) mod 5)%nat) 1 in
  mk_state (λ x y, lane A x y .^ D x).

(** The offset of the lane visited at step [t] is [(t + 1)(t + 2) / 2]. *)
Fixpoint rho_offset_from (n : nat) (t : Z) (x y : nat) (x0 y0 : nat) : Z :=
  match n with
  | O => 0
  | S n' =>
      if (x =? x0)%nat && (y =? y0)%nat then ((t + 1) * (t + 2) / 2) mod 64
      else rho_offset_from n' (t + 1) y ((2 * x + 3 * y) mod 5)%nat x0 y0
  end.
Definition rho_offset (x y : nat) : Z := rho_offset_from 24 0 1 0 x y.

Definition rho (A : list Z) : list Z := mk_state (λ x y, rotlFixed (lane A x y) (rho_offset x y)).
Definition pi (A : list Z) : list Z := mk_state (λ x y, lane A ((x + 3 * y) mod 5)%nat x).
Definition chi (A : list Z) : list Z :=
  mk_state (λ x y, lane A x y .^
    (not64 (lane A ((x + 1) mod 5)%nat y) .& lane A ((x + 2) mod 5)%nat y)).
Definition iota (rc : Z) (A : list Z) : list Z :=
  mk_state (λ x y, if (x =? 0)%nat && (y =? 0)%nat then lane A x y .^ rc else lane A x y).

(** The round constants: bit [2^j - 1] of constant [ir] is output [j + 7 ir] of an LFSR. *)
Definition lfsr_step (r : Z) : Z := let r := 2 * r in if r <? 256 then r else r .^ 0x171.
Definition lfsr_bit (t : nat) : bool := Z.testbit (Nat.iter t lfsr_step 1) 0.
Definition round_constant (ir : nat) : Z :=
  foldr (λ j acc, acc + if lfsr_bit (j + 7 * ir) then 2 ^ (2 ^ Z.of_nat j - 1) else 0) 0 (seq 0 7).

Definition keccak_round (ir : nat) (A : list Z) : list Z :=
  iota (round_constant ir) (chi (pi (rho (theta A)))).
Definition keccak_f (A : list Z) : list Z := foldl (λ A ir, keccak_round ir A) A (seq 0 24).

(** ** The unrolled rounds are the rounds *)

Lemma rotlFixed_0 x : rotlFixed x 0 = x.
Proof. done. Qed.

(** Rotation by its effect on bits. *)
Lemma rotlFixed_bits x n i : is_u 64 x → 0 <= n < 64 → 0 <= i < 64 →
  Z.testbit (rotlFixed x n) i = Z.testbit x ((i - n) mod 64).
Proof.
  intros Hx Hn Hi. unfold rotlFixed. destruct (Z.eqb_spec n 0) as [->|Hn0].
  - by rewrite Z.sub_0_r, Z.mod_small.
  - unfold u64. rewrite Z.lor_spec, Z.mod_pow2_bits_low, Z.shiftl_spec, Z.shiftr_spec by lia.
    destruct (Z.lt_ge_cases i n).
    + rewrite (Z.testbit_neg_r x (i - n)) by lia. simpl. f_equal.
      apply (Z.mod_unique _ _ (-1)); lia.
    + rewrite (testbit_small 64 x (i + (64 - n))) by (done || lia). rewrite orb_false_r. f_equal.
      symmetry. apply Z.mod_small. lia.
Qed.

Lemma list_25 {A} (l : list A) : length l = 25%nat → ∃ a0 a1 a2 a3 a4 a5 a6 a7 a8 a9 a10 a11 a12
  a13 a14 a15 a16 a17 a18 a19 a20 a21 a22 a23 a24,
  l = [a0;a1;a2;a3;a4;a5;a6;a7;a8;a9;a10;a11;a12;a13;a14;a15;a16;a17;a18;a19;a20;a21;a22;a23;a24].
Proof. do 25 (destruct l as [|? l]; [done|]). destruct l; [|done]. intros _. by repeat eexists. Qed.

Ltac compute_round :=
  lazy -[Z.lxor Z.land not64 rotlFixed]; repeat rewrite rotlFixed_0; reflexivity.

Lemma round_AE_spec rc A : length A = 25%nat →
  round_AE rc A = iota rc (chi (pi (rho (theta A)))).
Proof.
  intros (a0&a1&a2&a3&a4&a5&a6&a7&a8&a9&a10&a11&a12&a13&a14&a15&a16&a17&a18&a19&a20&a21&a22&a23&a24&->)%list_25.
  compute_round.
Qed.

Lemma round_EA_spec rc A : length A = 25%nat →
  round_EA rc A = iota rc (chi (pi (rho (theta A)))).
Proof.
  intros (a0&a1&a2&a3&a4&a5&a6&a7&a8&a9&a10&a11&a12&a13&a14&a15&a16&a17&a18&a19&a20&a21&a22&a23&a24&->)%list_25.
  compute_round.
Qed.

Lemma round_constants_lfsr : KeccakF_RoundConstants = map round_constant (seq 0 24).
Proof. vm_compute. reflexivity. Qed.

Lemma mk_state_length f : length (mk_state f) = 25%nat.
Proof. done. Qed.

Lemma keccak_round_length ir A : length (keccak_round ir A) = 25%nat.
Proof. apply mk_state_length. Qed.

Lemma Keccak_rounds_spec n : ∀ r A, (r + 2 * n <= 24)%nat → length A = 25%nat →
  Keccak_rounds n r A = foldl (λ A ir, keccak_round ir A) A (seq r (2 * n)).
Proof.
  induction n as [|n IH]; intros r A Hr HA; [done|]. cbn [Keccak_rounds].
  assert (Hc : ∀ i, (i < 24)%nat → nth i KeccakF_RoundConstants 0 = round_constant i).
  { intros i Hi. rewrite round_constants_lfsr.
    rewrite (nth_indep _ 0 (round_constant 0)) by (rewrite length_map, length_seq; lia).
    by rewrite map_nth, seq_nth. }
  rewrite !Hc by lia. rewrite (round_AE_spec _ A HA).
  change (iota (round_constant r) _) with (keccak_round r A).
  rewrite round_EA_spec by apply keccak_round_length.
  change (iota (round_constant (r + 1)) _) with (keccak_round (r + 1) (keccak_round r A)).
  rewrite IH by (lia || apply keccak_round_length).
  replace (2 * S n)%nat with (S (S (2 * n))) by lia. cbn [seq foldl].
  replace (S r) with (r + 1)%nat by lia. replace (S (r + 1)) with (r + 2)%nat by lia. done.
Qed.

(** The 200 bytes of the state as 25 lanes, and back. *)
Lemma load_lanes_length n st : length (load_lanes n st) = n.
Proof. revert st. induction n; intros; simpl; auto. Qed.

Lemma KeccakF1600_spec st : KeccakF1600 st = store_lanes (keccak_f (load_lanes 25 st)).
Proof. unfold KeccakF1600. by rewrite Keccak_rounds_spec by (lia || apply load_lanes_length). Qed.

Lemma store_lanes_length A : length (store_lanes A) = (8 * length A)%nat.
Proof.
  unfold store_lanes. induction A as [|a A IH]; [done|].
  change (mjoin (le_bytes 8 <$> a :: A)) with (le_bytes 8 a ++ mjoin (le_bytes 8 <$> A)).
  rewrite length_app, IH, le_bytes_length. simpl. lia.
Qed.

Lemma store_lanes_ok A : bytes_ok (store_lanes A).
Proof.
  unfold store_lanes. induction A as [|a A IH]; [constructor|].
  change (mjoin (le_bytes 8 <$> a :: A)) with (le_bytes 8 a ++ mjoin (le_bytes 8 <$> A)).
  apply bytes_ok_app. split; [apply le_bytes_ok|done].
Qed.

Lemma keccak_f_length A : length (keccak_f A) = 25%nat.
Proof. unfold keccak_f. rewrite (seq_app 23 1), foldl_app. apply keccak_round_length. Qed.

Lemma KeccakF1600_length st : length (KeccakF1600 st) = 200%nat.
Proof. by rewrite KeccakF1600_spec, store_lanes_length, keccak_f_length. Qed.
Lemma KeccakF1600_ok st : bytes_ok (KeccakF1600 st).
Proof. rewrite KeccakF1600_spec. apply store_lanes_ok. Qed.

(** ** [xorbuf] by bytes *)

Lemma lxor_is_byte a b : is_byte a → is_byte b → is_byte (a .^ b).
Proof. apply (is_u_lxor 8). lia. Qed.

Lemma le_bytes_lxor a : ∀ b, bytes_ok a → bytes_ok b → length b = length a →
  le_bytes (length a) (le_value a .^ le_value b) = zip_with Z.lxor a b.
Proof.
  induction a as [|x a IH]; intros [|y b] Ha Hb Hl; try done.
  apply bytes_ok_cons in Ha as [Hx Ha], Hb as [Hy Hb]. simplify_eq/=.
  unfold is_byte in *. pose proof (le_value_range a Ha). pose proof (le_value_range b Hb).
  assert (Hs : ∀ c v, 0 <= c < 256 → c + 256 * v = c .^ (v .<< 8))
    by (intros c v Hc; rewrite lxor_disjoint_add by lia; lia).
  assert (Hxy : is_byte (x .^ y)) by (by apply lxor_is_byte). unfold is_byte in Hxy.
  rewrite !Hs by done.
  assert ((x .^ (le_value a .<< 8)) .^ (y .^ (le_value b .<< 8)) =
    (x .^ y) .^ ((le_value a .^ le_value b) .<< 8)) as -> by (rewrite Z.shiftl_lxor; zbits).
  rewrite <- Hs by done. f_equal.
  - unfold u8. change 256 with (2 ^ 8). rewrite Z.mul_comm, Z.mod_add, Z.mod_small by lia. done.
  - rewrite Z.shiftr_div_pow2 by lia. change 256 with (2 ^ 8).
    rewrite Z.mul_comm, Z.div_add, Z.div_small, Z.add_0_l by lia. by apply IH.
Qed.

Lemma xorbuf_words_spec n : ∀ buf mask, bytes_ok buf → bytes_ok mask →
  (8 * n <= length buf)%nat → (8 * n <= length mask)%nat →
  xorbuf_words n buf mask = zip_with Z.lxor (take (8 * n) buf) (take (8 * n) mask).
Proof.
  induction n as [|n IH]; intros buf mask Hb Hm Lb Lm; [done|]. cbn [xorbuf_words].
  rewrite IH by (auto with lpad; rewrite length_drop; lia).
  rewrite <- (take_drop 8 buf) at 3. rewrite <- (take_drop 8 mask) at 3.
  rewrite !take_app_ge by (rewrite length_take; lia). rewrite !length_take, !Nat.min_l by lia.
  replace (8 * S n - 8)%nat with (8 * n)%nat by lia.
  rewrite zip_with_app by (rewrite !length_take; lia). f_equal.
  rewrite <- le_bytes_lxor by (auto with lpad; rewrite !length_take; lia).
  rewrite length_take, Nat.min_l by lia. done.
Qed.

Lemma xorbuf_bytes_spec n : ∀ buf mask,
  xorbuf_bytes n buf mask = zip_with Z.lxor (take n buf) (take n mask).
Proof. induction n as [|n IH]; intros [|b buf] [|m mask]; simpl; try done. by rewrite IH. Qed.

Lemma xorbuf_spec buf mask count : bytes_ok buf → bytes_ok mask →
  (count <= length buf)%nat → (count <= length mask)%nat →
  xorbuf buf mask count = zip_with Z.lxor (take count buf) (take count mask) ++ drop count buf.
Proof.
  intros Hb Hm Lb Lm. unfold xorbuf. cbv zeta. pose proof (Nat.Div0.mul_div_le count 8).
  rewrite xorbuf_words_spec, xorbuf_bytes_spec by (done || lia). rewrite app_assoc. f_equal.
  rewrite <- zip_with_app by (rewrite !length_take; lia).
  rewrite !take_take_drop. f_equal; f_equal; lia.
Qed.

(** ** The sponge by its definition *)

(** The state with the bytes [b] XORed into its front. *)
Definition xor_block (s b : bytes) : bytes := imap (λ i x, x .^ nth i b 0) s.

Definition keccak_bytes (st : bytes) : bytes := store_lanes (keccak_f (load_lanes 25 st)).

(** Absorb the first [k] blocks of [m]. *)
Fixpoint absorb (k : nat) (m s : bytes) : bytes :=
  match k with
  | O => s
  | S k' => absorb k' (drop 136 m) (keccak_bytes (xor_block s (take 136 m)))
  end.

(** The padding that fills the last [n] bytes of a block. *)
Definition pad (n : nat) : bytes :=
  if (n =? 1)%nat then [0x81] else [1] ++ repeat 0 (n - 2) ++ [0x80].

Definition sponge (m : bytes) (size : nat) : bytes :=
  let padded := m ++ pad (136 - length m mod 136) in
  take size (absorb (length padded / 136) padded (repeat 0 200)).

Lemma xor_block_lookup s b i : xor_block s b !! i = (λ x, x .^ nth i b 0) <$> s !! i.
Proof. unfold xor_block. by rewrite list_lookup_imap. Qed.

Lemma xor_block_length s b : length (xor_block s b) = length s.
Proof. apply length_imap. Qed.

Lemma xor_block_nil s : xor_block s [] = s.
Proof.
  apply list_eq. intros i. rewrite xor_block_lookup.
  destruct (s !! i); simpl; [|done]. by destruct i; rewrite Z.lxor_0_r.
Qed.

Lemma nth_byte b i : bytes_ok b → is_byte (nth i b 0).
Proof.
  intros Hb. destruct (nth_in_or_default i b 0) as [Hi| ->]; [|unfold is_byte; lia].
  revert Hb. unfold bytes_ok. rewrite Forall_forall. intros Hb. by apply Hb.
Qed.

Lemma xor_block_ok s b : bytes_ok s → bytes_ok b → bytes_ok (xor_block s b).
Proof.
  intros Hs Hb. unfold bytes_ok, xor_block. rewrite Forall_lookup. intros i x.
  rewrite list_lookup_imap. destruct (s !! i) as [y|] eqn:E; simpl; [|done]. intros [= <-].
  apply lxor_is_byte; [|by apply nth_byte]. revert Hs. unfold bytes_ok. rewrite Forall_lookup. eauto.
Qed.

(** XORing [input] in at an offset. *)
Lemma xor_state_at_block s t input count : bytes_ok s → bytes_ok t → bytes_ok input →
  (length t + count <= length s)%nat → (count <= length input)%nat →
  xor_state_at (length t) input count (xor_block s t) = xor_block s (t ++ take count input).
Proof.
  intros Hs Ht Hi Hl Hc. assert (Hx : bytes_ok (xor_block s t)) by (by apply xor_block_ok).
  unfold xor_state_at. rewrite xorbuf_spec by (auto with lpad; rewrite ?length_drop, ?xor_block_length; lia).
  apply list_eq. intros i. destruct (decide (i < length t)%nat) as [H1|H1].
  - rewrite lookup_app_l by (rewrite length_take, xor_block_length; lia).
    rewrite lookup_take_lt by done. rewrite !xor_block_lookup. by rewrite app_nth1.
  - rewrite lookup_app_r by (rewrite length_take, xor_block_length; lia).
    rewrite length_take, xor_block_length, Nat.min_l by lia.
    assert (Hz : length (zip_with Z.lxor (take count (drop (length t) (xor_block s t))) (take count input)) = count).
    { rewrite length_zip_with, !length_take, length_drop, xor_block_length. lia. }
    assert (Hold : xor_block s t !! i = s !! i).
    { rewrite xor_block_lookup, nth_overflow by lia.
      destruct (s !! i); simpl; [by rewrite Z.lxor_0_r|done]. }
    rewrite (xor_block_lookup s (t ++ _)), app_nth2 by lia.
    destruct (decide (i < length t + count)%nat) as [H2|H2].
    + rewrite lookup_app_l by lia. rewrite lookup_zip_with.
      rewrite !lookup_take_lt, lookup_drop by lia.
      replace (length t + (i - length t))%nat with i by lia. rewrite Hold.
      destruct (lookup_lt_is_Some_2 input (i - length t)) as [x Hx']; [lia|]. rewrite Hx'.
      assert (nth (i - length t) (take count input) 0 = x) as ->.
      { apply nth_lookup_Some. rewrite lookup_take_lt by lia. done. }
      by destruct (s !! i).
    + rewrite lookup_app_r by lia. rewrite Hz, !lookup_drop.
      replace (length t + (count + (i - length t - count)))%nat with i by lia. rewrite Hold.
      rewrite nth_overflow by (rewrite length_take; lia). destruct (s !! i); simpl; [by rewrite Z.lxor_0_r|done].
Qed.

(** ** Streaming *)

Lemma keccak_bytes_length st : length (keccak_bytes st) = 200%nat.
Proof. unfold keccak_bytes. by rewrite store_lanes_length, keccak_f_length. Qed.
Lemma keccak_bytes_ok st : bytes_ok (keccak_bytes st).
Proof. apply store_lanes_ok. Qed.

Lemma absorb_shape k : ∀ m s, length s = 200%nat → bytes_ok s →
  length (absorb k m s) = 200%nat ∧ bytes_ok (absorb k m s).
Proof. induction k as [|k IH]; intros m s Hl Hs; [done|]. apply IH; [apply keccak_bytes_length|apply keccak_bytes_ok]. Qed.

Lemma absorb_snoc k : ∀ m b s, length m = (136 * k)%nat → length b = 136%nat →
  absorb (S k) (m ++ b) s = keccak_bytes (xor_block (absorb k m s) b).
Proof.
  induction k as [|k IH]; intros m b s Hm Hb.
  - assert (m = []) as -> by (by apply nil_length_inv). simpl. by rewrite take_ge by lia.
  - replace (absorb (S (S k)) (m ++ b) s) with
      (absorb (S k) (drop 136 (m ++ b)) (keccak_bytes (xor_block s (take 136 (m ++ b))))) by done.
    rewrite drop_app_le, take_app_le by lia. rewrite IH; [done|rewrite length_drop; lia|done].
Qed.

Lemma absorb_take k : ∀ m r s, length m = (136 * k)%nat → absorb k (m ++ r) s = absorb k m s.
Proof.
  induction k as [|k IH]; intros m r s Hm; [done|]. cbn [absorb].
  rewrite drop_app_le, take_app_le by lia. apply IH. rewrite length_drop. lia.
Qed.

Definition zero_state : bytes := repeat 0 200.
Lemma zero_state_ok : length zero_state = 200%nat ∧ bytes_ok zero_state.
Proof. split; [done|]. by_compute. Qed.

(** The state after absorbing the message [m]: whole blocks and a tail. *)
Definition Absorbed (m : bytes) (st : Sha3) : Prop :=
  ∃ k blocks tail, m = blocks ++ tail ∧ length blocks = (136 * k)%nat ∧ (length tail < 136)%nat ∧
    bytes_ok m ∧ m_counter st = length tail ∧
    m_state st = xor_block (absorb k blocks zero_state) tail.

Lemma Absorbed_restart : Absorbed [] sha3_restart.
Proof. exists O, [], []. simpl. rewrite xor_block_nil. repeat split; try done; [lia|constructor]. Qed.

(** XORing bytes into the state of a partial block. *)
Lemma Absorbed_xor k blocks tail input n : bytes_ok (blocks ++ tail) → bytes_ok input →
  (length tail + n <= 136)%nat → (n <= length input)%nat →
  xor_state_at (length tail) input n (xor_block (absorb k blocks zero_state) tail) =
    xor_block (absorb k blocks zero_state) (tail ++ take n input).
Proof.
  intros [_ Ht]%bytes_ok_app Hi Hl Hn. destruct zero_state_ok as [Z1 Z2].
  destruct (absorb_shape k blocks zero_state Z1 Z2). apply xor_state_at_block; try done. lia.
Qed.

Lemma sha3_update_loop_spec fuel : ∀ m st input, Absorbed m st → bytes_ok input →
  (length input < fuel)%nat → ∃ st' input' pre, input = pre ++ input' ∧
    sha3_update_loop fuel st input = Some (st', input') ∧ Absorbed (m ++ pre) st' ∧
    (m_counter st' + length input' < 136)%nat.
Proof.
  induction fuel as [|fuel IH]; intros m st input HA Hi Hf; [lia|]. cbn [sha3_update_loop].
  pose proof HA as (k & blocks & tail & -> & Hb & Ht & Hok & Hc & Hs). rewrite Hc.
  destruct (Nat.leb_spec (136 - length tail) (length input)) as [Hle|Hgt].
  - set (n := (136 - length tail)%nat) in *. rewrite Hs, Absorbed_xor by (done || lia).
    rewrite KeccakF1600_spec. change (store_lanes _) with
      (keccak_bytes (xor_block (absorb k blocks zero_state) (tail ++ take n input))).
    rewrite <- absorb_snoc by (rewrite ?length_app, ?length_take; lia).
    destruct (IH ((blocks ++ tail) ++ take n input)
      {| m_state := absorb (S k) (blocks ++ tail ++ take n input) zero_state; m_counter := 0 |}
      (drop n input)) as (st' & input' & pre & Hpre & Hrun & HA' & Hlt).
    + exists (S k), (blocks ++ tail ++ take n input), []. rewrite app_nil_r, <- app_assoc.
      split; [done|]. split; [rewrite !length_app, length_take; lia|]. split; [simpl; lia|].
      split; [|split; [done|by rewrite xor_block_nil]].
      rewrite app_assoc. apply bytes_ok_app. split; [done|auto with lpad].
    + auto with lpad.
    + rewrite length_drop. lia.
    + exists st', input', (take n input ++ pre). rewrite Hrun, app_assoc. split; [|done].
      by rewrite <- app_assoc, <- Hpre, take_drop.
  - exists st, input, []. rewrite app_nil_r. split; [done|]. split; [done|]. split; [done|]. lia.
Qed.

Lemma sha3_update_spec m st input : Absorbed m st → bytes_ok input →
  ∃ st', sha3_update st input = Some st' ∧ Absorbed (m ++ input) st'.
Proof.
  intros HA Hi. unfold sha3_update.
  destruct (sha3_update_loop_spec (S (length input)) m st input HA Hi) as (st' & input' & pre & -> & -> & HA' & Hlt); [lia|].
  destruct HA' as (k & blocks & tail & Hm & Hb & Ht & Hok & Hc & Hs).
  apply bytes_ok_app in Hi as [Hpre Hi']. eexists. split; [done|].
  exists k, blocks, (tail ++ input'). cbn [m_counter m_state]. rewrite app_assoc, Hm, <- app_assoc.
  split; [done|]. split; [done|]. rewrite length_app. split; [lia|]. split; [|split; [lia|]].
  - rewrite app_assoc. apply bytes_ok_app. split; [by rewrite <- Hm|done].
  - rewrite Hs, Hc, Absorbed_xor; [by rewrite firstn_all|by rewrite <- Hm|done|lia|lia].
Qed.

(** Padding in place is XORing in the padded block. *)
Lemma pad_in_place s t : length s = 200%nat → (length t < 136)%nat →
  alter (λ b, b .^ 0x80) 135%nat (alter (λ b, b .^ 1) (length t) (xor_block s t)) =
    xor_block s (t ++ pad (136 - length t)).
Proof.
  intros Hs Ht. apply list_eq. intros i. rewrite xor_block_lookup.
  assert (Hp : nth i (t ++ pad (136 - length t)) 0 =
    (nth i t 0 .^ (if decide (i = length t) then 1 else 0)) .^ (if decide (i = 135%nat) then 0x80 else 0)).
  { destruct (decide (i < length t)%nat).
    - rewrite app_nth1 by done. rewrite !decide_False by lia. by rewrite !Z.lxor_0_r.
    - rewrite app_nth2, (nth_overflow t) by lia. rewrite Z.lxor_0_l. unfold pad.
      destruct (Nat.eqb_spec (136 - length t) 1) as [E|E].
      + assert (length t = 135%nat) as -> by lia. destruct (decide (i = 135%nat)) as [->|]; [done|].
        rewrite nth_overflow; [done|simpl; lia].
      + destruct (decide (i = length t)) as [->|].
        * rewrite Nat.sub_diag, decide_False by lia. done.
        * rewrite app_nth2 by (simpl; lia). simpl length.
          destruct (decide (i = 135%nat)) as [->|].
          -- rewrite app_nth2 by (rewrite repeat_length; lia). rewrite repeat_length.
             replace (135 - length t - 1 - (136 - length t - 2))%nat with O by lia. done.
          -- destruct (decide (i < 135)%nat).
             ++ rewrite app_nth1 by (rewrite repeat_length; lia). by rewrite nth_repeat.
             ++ rewrite nth_overflow; [done|rewrite length_app, repeat_length; simpl; lia]. }
  rewrite Hp. destruct (decide (i = 135%nat)) as [->|H1].
  - rewrite list_lookup_alter_eq. destruct (decide (135%nat = length t)) as [Heq|H2].
    + rewrite <- Heq, list_lookup_alter_eq, xor_block_lookup. destruct (s !! _); simpl; [|done]. f_equal. zbits.
    + rewrite list_lookup_alter_ne, xor_block_lookup by done. destruct (s !! _); simpl; [|done]. f_equal. by rewrite !Z.lxor_assoc.
  - rewrite list_lookup_alter_ne by done. rewrite Z.lxor_0_r. destruct (decide (i = length t)) as [->|H2].
    + rewrite list_lookup_alter_eq, xor_block_lookup. destruct (s !! _); simpl; [|done]. f_equal. by rewrite Z.lxor_assoc.
    + rewrite list_lookup_alter_ne, xor_block_lookup by done. by rewrite Z.lxor_0_r.
Qed.

Lemma pad_length n : (1 <= n)%nat → length (pad n) = n.
Proof.
  intros Hn. unfold pad. destruct (Nat.eqb_spec n 1) as [->|]; [done|].
  rewrite !length_app, repeat_length. simpl. lia.
Qed.

Lemma sha3_final_spec m st size : Absorbed m st → sha3_final st size = (sponge m size, sha3_restart).
Proof.
  intros (k & blocks & tail & -> & Hb & Ht & Hok & Hc & Hs). destruct zero_state_ok as [Z1 Z2].
  destruct (absorb_shape k blocks zero_state Z1 Z2) as [L _].
  unfold sha3_final. cbv zeta. rewrite Hc, Hs, pad_in_place, KeccakF1600_spec by done. f_equal.
  unfold sponge. change (repeat 0 200) with zero_state.
  assert (Hmod : (length (blocks ++ tail) mod 136)%nat = length tail).
  { rewrite length_app, Hb, Nat.mul_comm, Nat.add_comm, Nat.Div0.mod_add. by apply Nat.mod_small. }
  rewrite Hmod, <- app_assoc. set (last := tail ++ pad (136 - length tail)).
  assert (Hlast : length last = 136%nat) by (unfold last; rewrite length_app, pad_length; lia).
  assert (length (blocks ++ last) / 136 = S k)%nat as ->.
  { rewrite length_app, Hb, Hlast. replace (136 * k + 136)%nat with (S k * 136)%nat by lia. by apply Nat.div_mul. }
  by rewrite absorb_snoc.
Qed.

(** ** Properties *)

(** The unrolled permutation is Keccak-f[1600]: [KeccakF1600], which merges the
    five step mappings, keeps the lanes in named variables and alternates two copies
    of the round, computes on every 200-byte state the twenty-four rounds of theta,
    rho, pi, chi and iota of the standard; the rotations rotate by bit positions, the
    offsets follow the triangular numbers and the constants the LFSR. *)
Theorem keccak_permutation_correct (st : bytes) (x n i : Z) :
  KeccakF1600 st = store_lanes (keccak_f (load_lanes 25 st)) ∧
  KeccakF_RoundConstants = map round_constant (seq 0 24) ∧
  (is_u 64 x → 0 <= n < 64 → 0 <= i < 64 →
     Z.testbit (rotlFixed x n) i = Z.testbit x ((i - n) mod 64)).
Proof.
  split; [apply KeccakF1600_spec|]. split; [apply round_constants_lfsr|apply rotlFixed_bits].
Qed.

(** [C29] Hashing in pieces is hashing the whole: after [sha3_restart], feeding any
    sequence of byte strings through [sha3_update] and finishing with [sha3_final]
    always returns, the digest is that of the sponge (rate 136, original Keccak
    padding) on their concatenation, and the state is ready for the next message. *)
Theorem sha3_streaming_correct (chunks : list bytes) (size : nat) : Forall bytes_ok chunks →
  ∃ st, foldl (λ s c, s ≫= λ s, sha3_update s c) (Some sha3_restart) chunks = Some st ∧
    sha3_final st size = (sponge (mjoin chunks) size, sha3_restart).
Proof.
  intros Hok. assert (H : ∀ cs m st, Forall bytes_ok cs → Absorbed m st →
    ∃ st', foldl (λ s c, s ≫= λ s, sha3_update s c) (Some st) cs = Some st' ∧ Absorbed (m ++ mjoin cs) st').
  { induction cs as [|c cs IH]; intros m st Hcs HA; [exists st; by rewrite app_nil_r|].
    apply Forall_cons_iff in Hcs as [Hc Hcs]. simpl.
    destruct (sha3_update_spec m st c HA Hc) as (st1 & -> & HA1).
    destruct (IH _ _ Hcs HA1) as (st2 & H2 & HA2). exists st2. split; [done|].
    by rewrite <- app_assoc in HA2. }
  destruct (H chunks [] sha3_restart Hok Absorbed_restart) as (st & Hrun & HA).
  exists st. split; [done|]. by apply sha3_final_spec.
Qed.

(** The Keccak-256 digest of "abc", fed in two pieces. *)
Lemma sha3_streaming_correct_witness :
  ∃ st, (sha3_update sha3_restart [97] ≫= λ s, sha3_update s [98; 99]) = Some st ∧
    take 4 (sha3_final st 32).1 = [0x4e; 0x03; 0x65; 0x7a].
Proof.
  destruct (sha3_streaming_correct [[97]; [98; 99]] 32) as (st & H1 & H2); [repeat constructor; by_compute|].
  exists st. split; [exact H1|]. rewrite H2. vm_compute. reflexivity.
Defined.
