(* ===== verification/Sha1.v ===== *)
(** * The enclave's SHA-1

    Model of [Enclave/sha1.cpp]: the block function with its circular message
    schedule, the buffering of [hash_update], the padding of [hash_final], and [sha1].
    The reference is SHA-1 as FIPS 180 defines it, with an 80-word schedule.  The
    macro variables are 32-bit [unsigned int]s. *)
From S2P Require Import Prelude.

#[local] Open Scope Z_scope.
#[local] Open Scope word_scope.

Definition K_00_19 : Z := 0x5a827999.
Definition K_20_39 : Z := 0x6ed9eba1.
Definition K_40_59 : Z := 0x8f1bbcdc.
Definition K_60_79 : Z := 0xca62c1d6.

Definition F_00_19 (b c d : Z) : Z := ((c .^ d) .& b) .^ d.
Definition F_20_39 (b c d : Z) : Z := b .^ c .^ d.
Definition F_40_59 (b c d : Z) : Z := (b .& c) .| ((b .| c) .& d).
Definition F_60_79 (b c d : Z) : Z := F_20_39 b c d.

Definition ROTATE (a n : Z) : Z := u32 (a .<< n) .| ((a .& 0xffffffff) .>> (32 - n)).

(** Four bytes to a word and back, most significant first. *)
Definition HOST_c2l (c : bytes) : Z :=
  (nth 0 c 0 .<< 24) .| (nth 1 c 0 .<< 16) .| (nth 2 c 0 .<< 8) .| nth 3 c 0.
Definition HOST_l2c (l : Z) : bytes :=
  [(l .>> 24) .& 255; (l .>> 16) .& 255; (l .>> 8) .& 255; l .& 255].

Record Regs := { rA : Z; rB : Z; rC : Z; rD : Z; rE : Z }.

Definition BODY_00_15 (xi : Z) (r : Regs) : Regs :=
  let T := u32 (rE r + K_00_19 + F_00_19 (rB r) (rC r) (rD r)) in
  {| rE := rD r; rD := rC r; rC := ROTATE (rB r) 30; rB := rA r;
     rA := u32 (ROTATE (rA r) 5 + T + xi) |}.

(** [Xupdate]: the new word, stored in [X[ia]]. *)
Definition Xupdate (X : list Z) (ia ib ic id : nat) : Z * list Z :=
  let T := u32 (nth ia X 0 .^ nth ib X 0 .^ nth ic X 0 .^ nth id X 0) in
  let T := ROTATE T 1 in
  (T, <[ia := T]> X).

(** [BODY_16_19], [BODY_20_39] and [BODY_40_59] are one text with their own constant
    and function. *)
Definition BODY_16_59 (K : Z) (F : Z → Z → Z → Z) (ia ib ic id : nat) (s : list Z * Regs) :
    list Z * Regs :=
  let '(X, r) := s in
  let '(T, X) := Xupdate X ia ib ic id in
  let T := u32 (T + u32 (rE r + K + F (rB r) (rC r) (rD r))) in
  (X, {| rE := rD r; rD := rC r; rC := ROTATE (rB r) 30; rB := rA r;
         rA := u32 (ROTATE (rA r) 5 + T) |}).

Definition BODY_60_79 (ia ib ic id : nat) (s : list Z * Regs) : list Z * Regs :=
  let '(X, r) := s in
  let '(_, X) := Xupdate X ia ib ic id in
  let T := u32 (rE r + K_60_79 + F_60_79 (rB r) (rC r) (rD r)) in
  (X, {| rE := rD r; rD := rC r; rC := ROTATE (rB r) 30; rB := rA r;
         rA := u32 (ROTATE (rA r) 5 + T + nth ia X 0) |}).

(** [for (i = a; i < a + n; i++) body] *)
Definition for_loop {S} (a n : nat) (body : nat → S → S) (s : S) : S :=
  foldl (λ s i, body i s) s (seq a n).

Definition ix (i : nat) : nat := Nat.land i 15.

(** One block: the five loops. *)
Definition hash_block (data : bytes) (r : Regs) : Regs :=
  let s := for_loop 0 16 (λ i '(X, r),
      let l := HOST_c2l (drop (4 * i) data) in
      let X := <[i := l]> X in
      (X, BODY_00_15 (nth i X 0) r)) (repeat 0 16, r) in
  let s := for_loop 0 4 (λ i, BODY_16_59 K_00_19 F_00_19 i (i + 2) (i + 8) (ix (i + 13))) s in
  let s := for_loop 4 20 (λ i, BODY_16_59 K_20_39 F_20_39 (ix i) (ix (i + 2)) (ix (i + 8)) (ix (i + 13))) s in
  let s := for_loop 0 20 (λ i, BODY_16_59 K_40_59 F_40_59 (ix (i + 8)) (ix (i + 10)) (ix i) (ix (i + 5))) s in
  let s := for_loop 4 20 (λ i, BODY_60_79 (ix (i + 8)) (ix (i + 10)) (ix i) (ix (i + 5))) s in
  s.2.

Record SHA_CTX := { h : Regs; Nl : Z; Nh : Z; data : bytes; num : nat }.

Definition HASH_CBLOCK : nat := 64.

(** [c->h0 = (c->h0 + A) & 0xffffffff] and so on. *)
Definition add_regs (c r : Regs) : Regs :=
  {| rA := (rA c + rA r) .& 0xffffffff; rB := (rB c + rB r) .& 0xffffffff;
     rC := (rC c + rC r) .& 0xffffffff; rD := (rD c + rD r) .& 0xffffffff;
     rE := (rE c + rE r) .& 0xffffffff |}.

(** [HASH_BLOCK_DATA_ORDER] on [n] blocks starting at [p]. *)
Fixpoint HASH_BLOCK_DATA_ORDER (p : bytes) (n : nat) (hs : Regs) : Regs :=
  match n with
  | O => hs
  | S n' => HASH_BLOCK_DATA_ORDER (drop HASH_CBLOCK p) n' (add_regs hs (hash_block p hs))
  end.

(** [memcpy(p + n, src, |src|)] *)
Definition overwrite (n : nat) (src p : bytes) : bytes := take n p ++ src ++ drop (n + length src) p.

Definition hash_update_buffered (c : SHA_CTX) (d : bytes) : SHA_CTX :=
  let n := (length d / HASH_CBLOCK)%nat in
  let hs := HASH_BLOCK_DATA_ORDER d n (h c) in
  let d := drop (n * HASH_CBLOCK) d in
  if (length d =? 0)%nat then {| h := hs; Nl := Nl c; Nh := Nh c; data := data c; num := num c |}
  else {| h := hs; Nl := Nl c; Nh := Nh c; data := overwrite 0 d (data c); num := length d |}.

Definition hash_update (c : SHA_CTX) (d : bytes) : SHA_CTX :=
  if (length d =? 0)%nat then c
  else
    let len := zlen d in
    let l := u64 (Nl c + u64 (len .<< 3)) .& 0xffffffff in
    let nh := if l <? Nl c then u64 (Nh c + 1) else Nh c in
    let nh := u64 (nh + (len .>> 29)) in
    let n := num c in
    if negb (n =? 0)%nat then
      if (HASH_CBLOCK <=? length d)%nat || (HASH_CBLOCK <=? length d + n)%nat then
        let p := overwrite n (take (HASH_CBLOCK - n) d) (data c) in
        let hs := HASH_BLOCK_DATA_ORDER p 1 (h c) in
        hash_update_buffered
          {| h := hs; Nl := l; Nh := nh; data := repeat 0 HASH_CBLOCK; num := 0 |}
          (drop (HASH_CBLOCK - n) d)
      else {| h := h c; Nl := l; Nh := nh; data := overwrite n d (data c); num := n + length d |}
    else hash_update_buffered {| h := h c; Nl := l; Nh := nh; data := data c; num := num c |} d.

Definition HASH_MAKE_STRING (r : Regs) : bytes :=
  HOST_l2c (rA r) ++ HOST_l2c (rB r) ++ HOST_l2c (rC r) ++ HOST_l2c (rD r) ++ HOST_l2c (rE r).

(** The digest; the context is zeroed and not used again. *)
Definition hash_final (c : SHA_CTX) : bytes :=
  let n := num c in
  let p := overwrite n [0x80] (data c) in
  let n := (n + 1)%nat in
  let '(n, p, hs) :=
    if (HASH_CBLOCK - 8 <? n)%nat then
      let p := overwrite n (repeat 0 (HASH_CBLOCK - n)) p in
      (O, p, HASH_BLOCK_DATA_ORDER p 1 (h c))
    else (n, p, h c) in
  let p := overwrite n (repeat 0 (HASH_CBLOCK - 8 - n)) p in
  let p := overwrite (HASH_CBLOCK - 8) (HOST_l2c (Nh c) ++ HOST_l2c (Nl c)) p in
  HASH_MAKE_STRING (HASH_BLOCK_DATA_ORDER p 1 hs).

Definition SHA_INIT : SHA_CTX := {|
  h := {| rA := 0x67452301; rB := 0xefcdab89; rC := 0x98badcfe; rD := 0x10325476; rE := 0xc3d2e1f0 |};
  Nl := 0; Nh := 0; data := repeat 0 HASH_CBLOCK; num := 0 |}.

(** [message_len] is an [int], so that a message has fewer than [2 ^ 31] bytes. *)
Definition sha1 (message : bytes) : bytes :=
  take 20 (hash_final (hash_update SHA_INIT message)).

(** ** SHA-1 by its definition *)

Definition Ch (x y z : Z) : Z := (x .& y) .^ (Z.lnot x .& z).
Definition Parity (x y z : Z) : Z := x .^ y .^ z.
Definition Maj (x y z : Z) : Z := (x .& y) .^ (x .& z) .^ (y .& z).

Definition f_t (t : nat) : Z → Z → Z → Z :=
  if (t <? 20)%nat then Ch else if (t <? 40)%nat then Parity else if (t <? 60)%nat then Maj else Parity.
Definition K_t (t : nat) : Z :=
  if (t <? 20)%nat then 0x5a827999 else if (t <? 40)%nat then 0x6ed9eba1
  else if (t <? 60)%nat then 0x8f1bbcdc else 0xca62c1d6.

Definition be_value (s : bytes) : Z := foldl (λ acc b, 256 * acc + b) 0 s.

Fixpoint extend (n : nat) (W : list Z) : list Z :=
  match n with
  | O => W
  | S n' =>
      let t := length W in
      extend n' (W ++ [ROTATE (nth (t - 3) W 0 .^ nth (t - 8) W 0 .^
                               nth (t - 14) W 0 .^ nth (t - 16) W 0) 1])
  end.
Definition schedule (block : bytes) : list Z :=
  extend 64 (map (λ i, be_value (take 4 (drop (4 * i) block))) (seq 0 16)).

Definition sha1_round (W : list Z) (r : Regs) (t : nat) : Regs :=
  {| rA := u32 (ROTATE (rA r) 5 + f_t t (rB r) (rC r) (rD r) + rE r + K_t t + nth t W 0);
     rB := rA r; rC := ROTATE (rB r) 30; rD := rC r; rE := rD r |}.
Definition sha1_rounds (block : bytes) (r : Regs) : Regs :=
  foldl (sha1_round (schedule block)) r (seq 0 80).
Definition compress (hs : Regs) (block : bytes) : Regs :=
  let r := sha1_rounds block hs in
  {| rA := u32 (rA hs + rA r); rB := u32 (rB hs + rB r); rC := u32 (rC hs + rC r);
     rD := u32 (rD hs + rD r); rE := u32 (rE hs + rE r) |}.

(** ** The message schedule *)

Lemma extend_length n W : length (extend n W) = (length W + n)%nat.
Proof. revert W. induction n as [|n IH]; intros W; simpl; [lia|]. rewrite IH, length_app. simpl. lia. Qed.

Lemma extend_old n : ∀ W j, (j < length W)%nat → nth j (extend n W) 0 = nth j W 0.
Proof.
  induction n as [|n IH]; intros W j Hj; [done|]. cbn [extend]. rewrite IH by (rewrite length_app; simpl; lia).
  by apply app_nth1.
Qed.

Lemma extend_new n : ∀ W t, (16 <= length W <= t)%nat → (t < length W + n)%nat →
  let V := extend n W in
  nth t V 0 = ROTATE (nth (t - 3) V 0 .^ nth (t - 8) V 0 .^ nth (t - 14) V 0 .^ nth (t - 16) V 0) 1.
Proof.
  induction n as [|n IH]; intros W t HW Ht; [lia|]. cbn [extend]. cbv zeta.
  destruct (decide (t = length W)) as [->|Hne].
  - rewrite !extend_old by (rewrite length_app; simpl; lia).
    rewrite (app_nth2 W _ _ (n := length W)), Nat.sub_diag by lia. rewrite !(app_nth1 W) by lia. done.
  - apply IH; rewrite length_app; simpl; lia.
Qed.

Lemma schedule_rec block t : (16 <= t < 80)%nat → let W := schedule block in
  nth t W 0 = ROTATE (nth (t - 3) W 0 .^ nth (t - 8) W 0 .^ nth (t - 14) W 0 .^ nth (t - 16) W 0) 1.
Proof.
  intros Ht. unfold schedule. set (M := map _ _).
  assert (HM : length M = 16%nat) by (unfold M; by rewrite length_map, length_seq). clearbody M.
  apply (extend_new 64 M t); lia.
Qed.

Lemma schedule_first block t : (t < 16)%nat →
  nth t (schedule block) 0 = be_value (take 4 (drop (4 * t) block)).
Proof.
  intros Ht. unfold schedule. rewrite (extend_old 64) by (rewrite length_map, length_seq; lia).
  rewrite (nth_indep _ 0 (be_value (take 4 (drop (4 * 0) block)))) by (rewrite length_map, length_seq; lia).
  by rewrite (map_nth (λ i, be_value (take 4 (drop (4 * i) block)))), seq_nth.
Qed.

(** ** Words and functions *)

Lemma F_Ch x y z : F_00_19 x y z = Ch x y z.
Proof. unfold F_00_19, Ch. zbits. Qed.
Lemma F_Maj x y z : F_40_59 x y z = Maj x y z.
Proof. unfold F_40_59, Maj. zbits. Qed.

Lemma land_ffffffff x : x .& 0xffffffff = u32 x.
Proof. apply (Z.land_ones x 32). lia. Qed.

Lemma ROTATE_u32 a n : 0 <= n → ROTATE (u32 a) n = ROTATE a n.
Proof.
  intros Hn. unfold ROTATE. rewrite !land_ffffffff. f_equal.
  - unfold u32. rewrite !Z.shiftl_mul_pow2 by done. by rewrite Z.mul_mod_idemp_l by lia.
  - unfold u32. by rewrite Z.mod_mod by lia.
Qed.

Lemma u32_add_l a b : u32 (u32 a + b) = u32 (a + b).
Proof. unfold u32. by rewrite Z.add_mod_idemp_l by lia. Qed.
Lemma u32_add_r a b : u32 (a + u32 b) = u32 (a + b).
Proof. unfold u32. by rewrite Z.add_mod_idemp_r by lia. Qed.

Lemma HOST_c2l_be c : bytes_ok c → (4 <= length c)%nat → HOST_c2l c = be_value (take 4 c).
Proof.
  intros Hc Hl. destruct c as [|z [|z0 [|z1 [|z2 c]]]]; simpl in Hl; try lia.
  repeat (apply bytes_ok_cons in Hc as [? Hc]). unfold is_byte in *.
  unfold HOST_c2l, be_value. cbn [nth take foldl]. rewrite take_0. cbn [foldl].
  rewrite (Z.lor_comm (_ .| _ .| _)), (Z.lor_comm (_ .| _) (_ .<< 8)), (Z.lor_comm (z .<< 24)).
  assert (E1 : (z0 .<< 16) .| (z .<< 24) = (z0 + z * 2 ^ 8) .<< 16).
  { rewrite <- lor_disjoint_add by lia. rewrite Z.shiftl_lor, Z.shiftl_shiftl by lia. done. }
  rewrite E1. assert (E2 : (z1 .<< 8) .| ((z0 + z * 2 ^ 8) .<< 16) = (z1 + (z0 + z * 2 ^ 8) * 2 ^ 8) .<< 8).
  { rewrite <- (lor_disjoint_add 8 z1) by lia. rewrite Z.shiftl_lor, Z.shiftl_shiftl by lia. done. }
  rewrite E2, lor_disjoint_add by lia. lia.
Qed.

(** ** The circular schedule *)

(** [X] holds the last sixteen words before [t], word [j] in slot [j mod 16]. *)
Definition window (W X : list Z) (t : nat) : Prop :=
  length X = 16%nat ∧ ∀ j, (j < t)%nat → (t <= j + 16)%nat → nth (j mod 16) X 0 = nth j W 0.

Lemma nth_insert_eq (X : list Z) i v : (i < length X)%nat → nth i (<[i := v]> X) 0 = v.
Proof. intros Hi. apply nth_lookup_Some. by apply list_lookup_insert_eq. Qed.
Lemma nth_insert_ne (X : list Z) i j v : i ≠ j → nth j (<[i := v]> X) 0 = nth j X 0.
Proof. intros Hi. rewrite !nth_lookup. by rewrite list_lookup_insert_ne. Qed.

Lemma window_step W X t : window W X t → window W (<[(t mod 16)%nat := nth t W 0]> X) (t + 1).
Proof.
  intros [HX Hw]. split; [by rewrite length_insert|]. intros j Hj Hj'.
  pose proof (Nat.mod_upper_bound t 16 ltac:(lia)).
  destruct (decide (j = t)) as [->|Hne]; [by apply nth_insert_eq; lia|].
  rewrite nth_insert_ne; [apply Hw; lia|]. intros Heq.
  pose proof (Nat.div_mod_eq t 16). pose proof (Nat.div_mod_eq j 16). lia.
Qed.

Lemma lxor_rev4 a b c d : a .^ b .^ c .^ d = d .^ c .^ b .^ a.
Proof. zbits. Qed.

Lemma Xupdate_window block X t : let W := schedule block in (16 <= t < 80)%nat → window W X t →
  Xupdate X (t mod 16) ((t + 2) mod 16) ((t + 8) mod 16) ((t + 13) mod 16) =
    (nth t W 0, <[(t mod 16)%nat := nth t W 0]> X).
Proof.
  intros W Ht [HX Hw]. unfold Xupdate. rewrite ROTATE_u32 by lia.
  assert (Hm : ∀ j k, (j < t)%nat → (t <= j + 16)%nat → (k + 16 = j + 32 ∨ k = j + 16 ∨ k = j + 32)%nat →
    nth (k mod 16) X 0 = nth j W 0).
  { intros j k Hj Hj' Hk. rewrite <- (Hw j) by done. f_equal.
    assert (k = (j + 1 * 16) ∨ k = (j + 2 * 16))%nat as [-> | ->] by lia; by rewrite Nat.Div0.mod_add. }
  rewrite (Hm (t - 16)%nat t), (Hm (t - 14)%nat (t + 2)%nat), (Hm (t - 8)%nat (t + 8)%nat),
    (Hm (t - 3)%nat (t + 13)%nat) by lia.
  rewrite lxor_rev4. unfold W. by rewrite <- (schedule_rec block t Ht).
Qed.

(** A round, whatever the order of the additions. *)
Lemma round_add A F E K x : u32 (A + u32 (x + u32 (E + K + F))) = u32 (A + F + E + K + x).
Proof. rewrite u32_add_r, Z.add_assoc, u32_add_r. f_equal. lia. Qed.
Lemma round_add' A F E K x : u32 (A + u32 (E + K + F) + x) = u32 (A + F + E + K + x).
Proof. replace (A + u32 (E + K + F) + x) with ((A + x) + u32 (E + K + F)) by lia. rewrite u32_add_r. f_equal. lia. Qed.

Section Loops.
Context (block : bytes).
Let W : list Z := schedule block.

(** A loop whose pass for [i] does round [i + d]. *)
Lemma for_loop_rounds (body : nat → list Z * Regs → list Z * Regs) d n : ∀ a X r,
  (∀ i X r, (a <= i < a + n)%nat → window W X (i + d) →
   ∃ X', body i (X, r) = (X', sha1_round W r (i + d)) ∧ window W X' (i + d + 1)) →
  window W X (a + d) →
  ∃ X', for_loop a n body (X, r) = (X', foldl (sha1_round W) r (seq (a + d) n)) ∧
  window W X' (a + d + n).
Proof.
  unfold for_loop. induction n as [|n IH]; intros a X r Hb HX.
  - exists X. by rewrite Nat.add_0_r.
  - cbn [seq foldl]. destruct (Hb a X r) as (X1 & -> & HX1); [lia|done|].
    destruct (IH (S a) X1 (sha1_round W r (a + d))) as (X2 & H2 & HX2).
    + intros i X' r' Hi. apply Hb. lia.
    + by replace (S a + d)%nat with (a + d + 1)%nat by lia.
    + exists X2. replace (S (a + d)) with (S a + d)%nat by lia.
      replace (a + d + S n)%nat with (S a + d + n)%nat by lia. done.
Qed.

Lemma body_16_59_round K F ia ib ic id X r t : (16 <= t < 80)%nat → window W X t →
  ia = (t mod 16)%nat → ib = ((t + 2) mod 16)%nat → ic = ((t + 8) mod 16)%nat → id = ((t + 13) mod 16)%nat →
  K = K_t t → (∀ x y z, F x y z = f_t t x y z) →
  ∃ X', BODY_16_59 K F ia ib ic id (X, r) = (X', sha1_round W r t) ∧ window W X' (t + 1).
Proof.
  intros Ht HX -> -> -> -> -> HF. unfold BODY_16_59. rewrite (Xupdate_window block X t Ht HX). fold W.
  eexists. split; [|by apply window_step]. do 2 f_equal. by rewrite round_add, HF.
Qed.

Lemma body_60_79_round ia ib ic id X r t : (60 <= t < 80)%nat → window W X t →
  ia = (t mod 16)%nat → ib = ((t + 2) mod 16)%nat → ic = ((t + 8) mod 16)%nat → id = ((t + 13) mod 16)%nat →
  ∃ X', BODY_60_79 ia ib ic id (X, r) = (X', sha1_round W r t) ∧ window W X' (t + 1).
Proof.
  intros Ht HX -> -> -> ->. unfold BODY_60_79. rewrite (Xupdate_window block X t ltac:(lia) HX). fold W.
  eexists. split; [|by apply window_step]. do 2 f_equal.
  rewrite nth_insert_eq by (rewrite (proj1 HX); apply Nat.mod_upper_bound; lia). rewrite round_add'.
  unfold sha1_round, f_t, K_t. rewrite !(proj2 (Nat.ltb_ge _ _)) by lia. done.
Qed.

Lemma ix_mod i : ix i = (i mod 16)%nat.
Proof. apply (Nat.land_ones i 4). Qed.

Lemma mod16_shift i k : (k mod 16 = 0)%nat → ((i + k) mod 16 = i mod 16)%nat.
Proof. intros Hk. by rewrite Nat.Div0.add_mod, Hk, Nat.add_0_r, Nat.Div0.mod_mod. Qed.

Lemma window_repeat : window W (repeat 0 16) 0.
Proof. split; [done|]. intros j Hj. lia. Qed.

Lemma body_00_15_round i X r : bytes_ok block → (64 <= length block)%nat → (i < 16)%nat →
  window W X i → let l := HOST_c2l (drop (4 * i) block) in
  BODY_00_15 (nth i (<[i := l]> X) 0) r = sha1_round W r i ∧ window W (<[i := l]> X) (i + 1).
Proof.
  intros Hok Hl Hi HX. cbv zeta.
  rewrite HOST_c2l_be by (auto with lpad; rewrite length_drop; lia).
  rewrite <- (schedule_first block i Hi). fold W.
  pose proof (window_step W X i HX) as Hw. rewrite (Nat.mod_small i 16) in Hw by done.
  split; [|done]. rewrite nth_insert_eq by (rewrite (proj1 HX); lia).
  unfold BODY_00_15, sha1_round, f_t, K_t. rewrite !(proj2 (Nat.ltb_lt i 20)) by lia.
  by rewrite round_add', F_Ch.
Qed.

Ltac sha_index := rewrite ?ix_mod; try (rewrite Nat.mod_small by lia; lia || done);
  match goal with
  | |- (?a mod 16)%nat = (?b mod 16)%nat => symmetry; replace b with (a + (b - a))%nat by lia;
      apply mod16_shift; replace (b - a)%nat with O by lia; done
  | |- (?a mod 16)%nat = (?b mod 16)%nat => symmetry; replace b with (a + 16)%nat by lia; by apply mod16_shift
  | |- (?a mod 16)%nat = (?b mod 16)%nat => symmetry; replace b with (a + 32)%nat by lia; by apply mod16_shift
  | |- (?a mod 16)%nat = (?b mod 16)%nat => symmetry; replace b with (a + 48)%nat by lia; by apply mod16_shift
  | |- (?a mod 16)%nat = (?b mod 16)%nat => symmetry; replace b with (a + 64)%nat by lia; by apply mod16_shift
  | |- ?a = (?b mod 16)%nat => replace b with (a + 16)%nat by lia; rewrite mod16_shift by done; by rewrite Nat.mod_small by lia
  | |- ?a = (?b mod 16)%nat => replace b with (a + 32)%nat by lia; rewrite mod16_shift by done; by rewrite Nat.mod_small by lia
  end.

Ltac sha_const := unfold K_t, f_t;
  repeat match goal with |- context [(?a <? ?b)%nat] =>
      first [rewrite (proj2 (Nat.ltb_lt a b)) by lia | rewrite (proj2 (Nat.ltb_ge a b)) by lia] end; try done.

(** The five loops are the eighty rounds. *)
Lemma hash_block_spec r : bytes_ok block → (64 <= length block)%nat →
  hash_block block r = sha1_rounds block r.
Proof.
  intros Hok Hl. unfold hash_block.
  match goal with |- context [for_loop 0 16 ?b _] => destruct (for_loop_rounds b 0 16 0 (repeat 0 16) r) as (X1 & -> & W1) end.
  { intros i X r' Hi HX. rewrite Nat.add_0_r in *. destruct (body_00_15_round i X r' Hok Hl ltac:(lia) HX) as [-> HX']. eauto. }
  { apply window_repeat. }
  match goal with |- context [for_loop 0 4 ?b (X1, ?r1)] => destruct (for_loop_rounds b 16 4 0 X1 r1) as (X2 & -> & W2) end; [|done|].
  { intros i X r' Hi HX. apply body_16_59_round; try (lia || done); [sha_index..|sha_const|].
    intros x y z. rewrite F_Ch. sha_const. }
  match goal with |- context [for_loop 4 20 ?b (X2, ?r1)] => destruct (for_loop_rounds b 16 20 4 X2 r1) as (X3 & -> & W3) end; [|done|].
  { intros i X r' Hi HX. apply body_16_59_round; try (lia || done); [sha_index..|sha_const|].
    intros x y z. sha_const. }
  match goal with |- context [for_loop 0 20 ?b (X3, ?r1)] => destruct (for_loop_rounds b 40 20 0 X3 r1) as (X4 & -> & W4) end; [|done|].
  { intros i X r' Hi HX. apply body_16_59_round; try (lia || done); [sha_index..|sha_const|].
    intros x y z. rewrite F_Maj. sha_const. }
  match goal with |- context [for_loop 4 20 ?b (X4, ?r1)] => destruct (for_loop_rounds b 56 20 4 X4 r1) as (X5 & -> & W5) end; [|done|].
  { intros i X r' Hi HX. apply body_60_79_round; try (lia || done); sha_index. }
  cbn [snd]. unfold sha1_rounds. fold W. rewrite <- !foldl_app. f_equal.
Qed.
End Loops.

(** ** Blocks and padding by their definition *)

(** The chaining value after the first [k] blocks of [m]. *)
Fixpoint digest_blocks (k : nat) (m : bytes) (hs : Regs) : Regs :=
  match k with
  | O => hs
  | S k' => digest_blocks k' (drop 64 m) (compress hs (take 64 m))
  end.

Definition be_bytes (n : nat) (v : Z) : bytes := reverse (le_bytes n v).

(** One bit, zeros, and the length in bits as 64 bits, to a multiple of 64 bytes. *)
Definition sha1_pad (m : bytes) : bytes :=
  m ++ [0x80] ++ repeat 0 ((119 - length m mod 64) mod 64) ++ be_bytes 8 (8 * zlen m).

Definition sha1_digest (m : bytes) : bytes :=
  let r := digest_blocks (length (sha1_pad m) / 64) (sha1_pad m) (h SHA_INIT) in
  be_bytes 4 (rA r) ++ be_bytes 4 (rB r) ++ be_bytes 4 (rC r) ++ be_bytes 4 (rD r) ++ be_bytes 4 (rE r).

Lemma schedule_take p : schedule (take 64 p) = schedule p.
Proof.
  unfold schedule. f_equal. apply map_ext_in. intros i Hi%in_seq. f_equal.
  rewrite !take_drop_commute. rewrite take_take. do 2 f_equal. lia.
Qed.

Lemma add_regs_compress hs p : bytes_ok p → (64 <= length p)%nat →
  add_regs hs (hash_block p hs) = compress hs (take 64 p).
Proof.
  intros Hok Hl. unfold add_regs, compress. rewrite !land_ffffffff, hash_block_spec by done.
  unfold sha1_rounds. by rewrite schedule_take.
Qed.

Lemma HASH_BLOCK_spec n : ∀ p hs, bytes_ok p → (64 * n <= length p)%nat →
  HASH_BLOCK_DATA_ORDER p n hs = digest_blocks n p hs.
Proof.
  induction n as [|n IH]; intros p hs Hok Hl; [done|]. cbn [HASH_BLOCK_DATA_ORDER digest_blocks].
  rewrite add_regs_compress by (done || lia). apply IH; [auto with lpad|].
  unfold HASH_CBLOCK. rewrite length_drop. lia.
Qed.

Lemma digest_blocks_app k1 : ∀ k2 m1 m2 hs, length m1 = (64 * k1)%nat →
  digest_blocks (k1 + k2) (m1 ++ m2) hs = digest_blocks k2 m2 (digest_blocks k1 m1 hs).
Proof.
  induction k1 as [|k1 IH]; intros k2 m1 m2 hs Hl.
  - by assert (m1 = []) as -> by (by apply nil_length_inv).
  - cbn [Nat.add digest_blocks]. rewrite drop_app_le, take_app_le by lia.
    apply IH. rewrite length_drop. lia.
Qed.

Lemma HOST_l2c_be v : HOST_l2c v = be_bytes 4 v.
Proof.
  unfold HOST_l2c, be_bytes. simpl le_bytes. rewrite !Z.shiftr_shiftr by lia. cbn. unfold u8.
  change 255 with (Z.ones 8). by rewrite !Z.land_ones by lia.
Qed.

Lemma be_bytes_8 v : be_bytes 8 v = be_bytes 4 (v .>> 32) ++ be_bytes 4 v.
Proof. unfold be_bytes. by rewrite <- reverse_app. Qed.

Lemma u32_byte v k : 0 <= k <= 24 → (u32 v .>> k) .& 255 = (v .>> k) .& 255.
Proof.
  intros Hk. apply Z.bits_inj'. intros i Hi. rewrite !Z.land_spec, !Z.shiftr_spec by lia.
  destruct (Z.lt_ge_cases i 8); [unfold u32; by rewrite Z.mod_pow2_bits_low by lia|].
  rewrite (testbit_small 8 255) by (lia || (unfold is_u; lia)). by rewrite !andb_false_r.
Qed.

Lemma be_bytes_4_u32 v : be_bytes 4 (u32 v) = be_bytes 4 v.
Proof.
  rewrite <- !HOST_l2c_be. unfold HOST_l2c. rewrite !u32_byte by lia.
  pose proof (u32_byte v 0 ltac:(lia)) as H. rewrite !Z.shiftr_0_r in H. by rewrite H.
Qed.

(** ** Buffering *)

(** The context after the message [m]: whole blocks digested, the rest in the buffer,
    and the length in bits in two words. *)
Definition Hashed (m : bytes) (c : SHA_CTX) : Prop :=
  ∃ k blocks tail, m = blocks ++ tail ∧ length blocks = (64 * k)%nat ∧ (length tail < 64)%nat ∧
    bytes_ok m ∧ zlen m < 2 ^ 61 ∧ num c = length tail ∧ length (data c) = 64%nat ∧ bytes_ok (data c) ∧
    take (length tail) (data c) = tail ∧ h c = digest_blocks k blocks (h SHA_INIT) ∧
    Nl c = u32 (8 * zlen m) ∧ Nh c = 8 * zlen m / 2 ^ 32.

Lemma Hashed_init : Hashed [] SHA_INIT.
Proof.
  exists O, [], []. repeat split; try done; try (simpl; lia); try apply bytes_ok_nil. by_compute.
Qed.

Lemma overwrite_length n src p : (n + length src <= length p)%nat → length (overwrite n src p) = length p.
Proof. intros H. unfold overwrite. rewrite !length_app, length_take, length_drop. lia. Qed.
Lemma overwrite_ok n src p : bytes_ok src → bytes_ok p → bytes_ok (overwrite n src p).
Proof. intros. unfold overwrite. rewrite !bytes_ok_app. auto with lpad. Qed.
Lemma overwrite_take n src p : (n + length src <= length p)%nat →
  take (n + length src) (overwrite n src p) = take n p ++ src.
Proof.
  intros H. unfold overwrite. rewrite app_assoc. apply take_app_length'. rewrite length_app, length_take. lia.
Qed.

(** The 64-bit length kept in two 32-bit words. *)
Lemma length_words a len : 0 <= a → 0 < len → a + len < 2 ^ 61 →
  let l := u64 (u32 (8 * a) + u64 (len .<< 3)) .& 0xffffffff in
  let nh := if l <? u32 (8 * a) then u64 (8 * a / 2 ^ 32 + 1) else 8 * a / 2 ^ 32 in
  l = u32 (8 * (a + len)) ∧ u64 (nh + (len .>> 29)) = 8 * (a + len) / 2 ^ 32.
Proof.
  intros Ha Hl Hs. cbv zeta. rewrite Z.shiftl_mul_pow2, Z.shiftr_div_pow2, land_ffffffff by lia.
  assert (H64 : u64 (u32 (8 * a) + u64 (len * 2 ^ 3)) = u32 (8 * a) + 8 * len).
  { unfold u32. rewrite (u64_small (len * 2 ^ 3)) by (unfold is_u; lia).
    pose proof (Z.mod_pos_bound (8 * a) (2 ^ 32) ltac:(lia)). pose proof (Z.mod_le (8 * a) (2 ^ 32) ltac:(lia) ltac:(lia)).
    rewrite u64_small by (unfold is_u; lia). lia. }
  rewrite H64. assert (E : u32 (u32 (8 * a) + 8 * len) = u32 (8 * (a + len)))
    by (rewrite u32_add_l; f_equal; lia).
  rewrite E. split; [done|].
  assert (Hnh : (if u32 (8 * (a + len)) <? u32 (8 * a) then u64 (8 * a / 2 ^ 32 + 1) else 8 * a / 2 ^ 32) +
    len / 2 ^ 29 = 8 * (a + len) / 2 ^ 32).
  { unfold u32, u64 in *.
    destruct (Z.ltb_spec ((8 * (a + len)) mod 2 ^ 32) ((8 * a) mod 2 ^ 32)); [rewrite (Z.mod_small _ (2 ^ 64)) by dlia|]; dlia. }
  rewrite Hnh. apply u64_small. unfold is_u. dlia.
Qed.

Lemma hash_update_buffered_spec k blocks c d : length blocks = (64 * k)%nat → num c = O →
  h c = digest_blocks k blocks (h SHA_INIT) → length (data c) = 64%nat → bytes_ok (data c) →
  bytes_ok (blocks ++ d) → zlen (blocks ++ d) < 2 ^ 61 →
  Nl c = u32 (8 * zlen (blocks ++ d)) → Nh c = 8 * zlen (blocks ++ d) / 2 ^ 32 →
  Hashed (blocks ++ d) (hash_update_buffered c d).
Proof.
  intros Hb Hn Hh Hd Hdok Hok Hlen HNl HNh. pose proof (proj2 (proj1 (bytes_ok_app _ _) Hok)) as Hokd.
  unfold hash_update_buffered, HASH_CBLOCK. set (n := (length d / 64)%nat).
  pose proof (Nat.div_mod_eq (length d) 64) as Hdm. pose proof (Nat.mod_upper_bound (length d) 64 ltac:(lia)).
  fold n in Hdm. rewrite HASH_BLOCK_spec by (done || lia).
  assert (Hn64 : (n * 64 <= length d)%nat) by lia.
  assert (Hdig : digest_blocks n d (h c) = digest_blocks (k + n) (blocks ++ take (n * 64) d) (h SHA_INIT)).
  { rewrite digest_blocks_app, Hh by done. rewrite <- (take_drop (n * 64) d) at 1.
    rewrite <- (Nat.add_0_r n) at 1. rewrite digest_blocks_app by (rewrite length_take; lia). done. }
  assert (Hshape : ∀ c', h c' = digest_blocks n d (h c) → Nl c' = Nl c → Nh c' = Nh c →
    num c' = length (drop (n * 64) d) → length (data c') = 64%nat → bytes_ok (data c') →
    take (length (drop (n * 64) d)) (data c') = drop (n * 64) d → Hashed (blocks ++ d) c').
  { intros c' E1 E2 E3 E4 E5 E6 E7. exists (k + n)%nat, (blocks ++ take (n * 64) d), (drop (n * 64) d).
    rewrite <- app_assoc, take_drop, length_app, length_take, length_drop, E1, E2, E3.
    rewrite length_drop in E4, E7. split_and!; try done; lia. }
  pose proof (length_drop d (n * 64)) as Hld.
  destruct (Nat.eqb_spec (length (drop (n * 64) d)) 0) as [E|E]; apply Hshape; cbn [h Nl Nh data num]; try done.
  - by rewrite Hn.
  - rewrite E. by rewrite take_0, (nil_length_inv _ E).
  - rewrite overwrite_length; lia.
  - apply overwrite_ok; auto with lpad.
  - rewrite <- (Nat.add_0_l (length (drop (n * 64) d))) at 1. rewrite overwrite_take by lia. done.
Qed.

Lemma hash_update_spec m c d : Hashed m c → bytes_ok d → zlen (m ++ d) < 2 ^ 61 →
  Hashed (m ++ d) (hash_update c d).
Proof.
  intros HH Hd Hlen. unfold hash_update. destruct (Nat.eqb_spec (length d) 0) as [E|E].
  { by rewrite (nil_length_inv _ E), app_nil_r. }
  destruct HH as (k & blocks & tail & -> & Hb & Ht & Hok & Hl & Hn & Hdl & Hdok & Htake & Hh & HNl & HNh).
  assert (Hzd : 0 < zlen d) by (unfold zlen; lia). pose proof (zlen_nonneg (blocks ++ tail)) as Hz0.
  rewrite zlen_app in Hlen.
  destruct (length_words (zlen (blocks ++ tail)) (zlen d) Hz0 Hzd Hlen) as [HL HH].
  rewrite HNl, HNh, Hn. cbv zeta in HL, HH |- *. rewrite HH, HL. rewrite <- zlen_app in *.
  assert (Hokall : bytes_ok ((blocks ++ tail) ++ d)) by (by apply bytes_ok_app).
  destruct (Nat.eqb_spec (length tail) 0) as [E0|E0]; cbn [negb].
  - rewrite (nil_length_inv _ E0), !app_nil_r in *.
    apply (hash_update_buffered_spec k); cbn [h Nl Nh data num]; done.
  - unfold HASH_CBLOCK. destruct (_ || _) eqn:Ecase.
    + assert (Hbig : (64 <= length d + length tail)%nat).
      { apply orb_true_iff in Ecase as [H%Nat.leb_le|H%Nat.leb_le]; lia. }
      set (w := (64 - length tail)%nat).
      assert (Hfull : overwrite (length tail) (take w d) (data c) = tail ++ take w d).
      { unfold overwrite. rewrite Htake, length_take. rewrite drop_ge by (unfold w; lia). by rewrite app_nil_r. }
      rewrite Hfull. assert (Hlw : length (tail ++ take w d) = 64%nat)
        by (rewrite length_app, length_take; unfold w; lia).
      apply bytes_ok_app in Hok as [Hok1 Hok2].
      rewrite HASH_BLOCK_spec by (try apply bytes_ok_app; auto with lpad; lia).
      replace ((blocks ++ tail) ++ d) with ((blocks ++ tail ++ take w d) ++ drop w d) in *
        by (by rewrite <- !app_assoc, take_drop).
      apply (hash_update_buffered_spec (k + 1)); cbn [h Nl Nh data num]; try done.
      * rewrite length_app, Hlw. lia.
      * by rewrite digest_blocks_app, Hh.
      * by_compute.
    + apply orb_false_iff in Ecase as [_ Hsmall%Nat.leb_gt].
      exists k, blocks, (tail ++ d). cbn [h Nl Nh data num]. rewrite app_assoc, length_app.
      split_and!; try done; try lia.
      * rewrite overwrite_length; lia.
      * by apply overwrite_ok.
      * rewrite overwrite_take by lia. by rewrite Htake.
Qed.

(** ** Padding in the buffer *)

Lemma overwrite_after (a r src : bytes) n : length a = n → overwrite n src (a ++ r) = a ++ src ++ drop (length src) r.
Proof.
  intros <-. unfold overwrite. rewrite take_app_length. f_equal. f_equal. rewrite drop_app_ge by lia.
  f_equal. lia.
Qed.

Lemma be_bytes_length n v : length (be_bytes n v) = n.
Proof. unfold be_bytes. by rewrite length_reverse, le_bytes_length. Qed.

Lemma length_field m c : Hashed m c → HOST_l2c (Nh c) ++ HOST_l2c (Nl c) = be_bytes 8 (8 * zlen m).
Proof.
  intros (k & blocks & tail & _ & _ & _ & _ & _ & _ & _ & _ & _ & _ & -> & ->).
  rewrite be_bytes_8, !HOST_l2c_be, be_bytes_4_u32. by rewrite Z.shiftr_div_pow2 by lia.
Qed.

(** The blocks the padding adds to [tail]: one, or two when the length does not fit. *)
Lemma hash_final_blocks tail (data : bytes) hs (L : bytes) : (length tail < 64)%nat → length data = 64%nat →
  bytes_ok tail → bytes_ok L → length L = 8%nat → take (length tail) data = tail →
  let n := length tail in
  let p := overwrite n [0x80] data in
  let '(n, p, hs') :=
    if (HASH_CBLOCK - 8 <? n + 1)%nat then
      let p := overwrite (n + 1) (repeat 0 (HASH_CBLOCK - (n + 1))) p in
      (O, p, HASH_BLOCK_DATA_ORDER p 1 hs)
    else ((n + 1)%nat, p, hs) in
  let p := overwrite n (repeat 0 (HASH_CBLOCK - 8 - n)) p in
  let p := overwrite (HASH_CBLOCK - 8) L p in
  let padding := tail ++ [0x80] ++ repeat 0 ((119 - length tail) mod 64) ++ L in
  ∃ j, length padding = (64 * j)%nat ∧ HASH_BLOCK_DATA_ORDER p 1 hs' = digest_blocks j padding hs.
Proof.
  intros Ht Hd Hok HL HLl Htake. cbv zeta. unfold HASH_CBLOCK.
  assert (Hz : ∀ n, bytes_ok (repeat 0 n)) by (induction n; repeat constructor; (done || lia)).
  rewrite <- (take_drop (length tail) data), Htake.
  rewrite overwrite_after by done. set (rest := drop (length [0x80]) (drop (length tail) data)).
  assert (Hrest : length rest = (63 - length tail)%nat) by (unfold rest; rewrite !length_drop; simpl; lia).
  clearbody rest. destruct (Nat.ltb_spec (64 - 8) (length tail + 1)) as [Hc|Hc].
  - set (B1 := (tail ++ [128]) ++ repeat 0 (64 - (length tail + 1))).
    assert (overwrite (length tail + 1) (repeat 0 (64 - (length tail + 1))) (tail ++ [128] ++ rest) = B1) as ->.
    { rewrite (app_assoc tail), overwrite_after by (rewrite length_app; simpl; lia).
      rewrite drop_ge by (rewrite repeat_length; lia). by rewrite app_nil_r. }
    assert (HB1 : length B1 = 64%nat) by (unfold B1; rewrite !length_app, repeat_length; simpl; lia).
    assert (OB1 : bytes_ok B1) by (unfold B1; rewrite !bytes_ok_app; repeat split; try done; repeat constructor; lia).
    assert (HB2 : overwrite (64 - 8) L (overwrite 0 (repeat 0 (64 - 8 - 0)) B1) = repeat 0 56 ++ L).
    { unfold overwrite at 2. rewrite take_0, app_nil_l. rewrite overwrite_after by done.
      rewrite drop_ge; [by rewrite app_nil_r|rewrite length_drop, repeat_length; lia]. }
    rewrite HB2. exists 2%nat. rewrite (Nat.mod_small (119 - length tail)) by lia.
    replace (119 - length tail)%nat with ((64 - (length tail + 1)) + 56)%nat by lia. rewrite repeat_app.
    replace (tail ++ [128] ++ (repeat 0 (64 - (length tail + 1)) ++ repeat 0 56) ++ L) with (B1 ++ repeat 0 56 ++ L)
      by (unfold B1; by rewrite <- !app_assoc).
    split; [rewrite !length_app, repeat_length; lia|].
    rewrite HASH_BLOCK_spec by (try apply bytes_ok_app; rewrite ?length_app, ?repeat_length; auto; lia).
    rewrite (HASH_BLOCK_spec 1 B1) by (done || lia).
    change 2%nat with (1 + 1)%nat. by rewrite digest_blocks_app.
  - assert (HB : overwrite (64 - 8) L (overwrite (length tail + 1) (repeat 0 (64 - 8 - (length tail + 1)))
      (tail ++ [128] ++ rest)) = tail ++ [128] ++ repeat 0 (55 - length tail) ++ L).
    { rewrite app_assoc, overwrite_after by (rewrite length_app; simpl; lia). rewrite repeat_length, app_assoc.
      rewrite overwrite_after by (rewrite !length_app, repeat_length; simpl; lia).
      rewrite (drop_ge (drop _ rest)) by (rewrite length_drop; lia). rewrite app_nil_r, <- !app_assoc.
      do 3 f_equal. f_equal. lia. }
    rewrite HB. exists 1%nat. replace ((119 - length tail) mod 64)%nat with (55 - length tail)%nat.
    2:{ replace (119 - length tail)%nat with (55 - length tail + 1 * 64)%nat by lia.
        rewrite Nat.Div0.mod_add. symmetry. apply Nat.mod_small. lia. }
    assert (Hlen : length (tail ++ [128] ++ repeat 0 (55 - length tail) ++ L) = 64%nat)
      by (rewrite !length_app, repeat_length; simpl; lia).
    split; [lia|]. apply HASH_BLOCK_spec; [|lia]. rewrite !bytes_ok_app. repeat split; try done. repeat constructor; lia.
Qed.

Lemma hash_final_spec m c : Hashed m c → hash_final c = sha1_digest m.
Proof.
  intros HH. pose proof (length_field m c HH) as HL.
  destruct HH as (k & blocks & tail & -> & Hb & Ht & Hok & Hl & Hn & Hdl & Hdok & Htake & Hh & _).
  apply bytes_ok_app in Hok as [_ Hokt].
  assert (HLok : bytes_ok (be_bytes 8 (8 * zlen (blocks ++ tail)))) by (apply Forall_reverse, le_bytes_ok).
  pose proof (hash_final_blocks tail (data c) (h c) _ Ht Hdl Hokt HLok (be_bytes_length 8 _) Htake) as HF.
  unfold hash_final. rewrite HL, Hn. cbv zeta in HF |- *.
  destruct (if (HASH_CBLOCK - 8 <? length tail + 1)%nat then _ else _) as [[n p] hs'].
  destruct HF as (j & Hj & ->). unfold sha1_digest, sha1_pad.
  assert ((length (blocks ++ tail) mod 64)%nat = length tail) as ->.
  { rewrite length_app, Hb, Nat.add_comm, Nat.mul_comm, Nat.Div0.mod_add. by apply Nat.mod_small. }
  rewrite <- app_assoc. set (padding := tail ++ _) in *. rewrite (length_app blocks), Hb, Hj.
  replace (64 * k + 64 * j)%nat with ((k + j) * 64)%nat by lia. rewrite Nat.div_mul by lia.
  rewrite digest_blocks_app, Hh by done. unfold HASH_MAKE_STRING. by rewrite !HOST_l2c_be.
Qed.

(** ** Properties *)

(** The block function is SHA-1's: on every 64-byte block the five loops, which
    keep the message schedule in a circular buffer of sixteen words indexed modulo 16,
    compute the eighty rounds of the standard over its eighty-word schedule, whatever
    the chaining value. *)
Theorem sha1_block_correct (block : bytes) (r : Regs) : bytes_ok block → length block = 64%nat →
  hash_block block r = sha1_rounds block r ∧
  HASH_BLOCK_DATA_ORDER block 1 r = compress r block.
Proof.
  intros Hok Hl. split; [apply hash_block_spec; [done|lia]|].
  rewrite HASH_BLOCK_spec by (done || lia). simpl. by rewrite take_ge by lia.
Qed.

Lemma sha1_block_correct_witness :
  rA (HASH_BLOCK_DATA_ORDER (repeat 0 64) 1 (h SHA_INIT)) = 2461271269.
Proof.
  rewrite (proj2 (sha1_block_correct (repeat 0 64) (h SHA_INIT) ltac:(by_compute) eq_refl)).
  vm_compute. reflexivity.
Defined.

(** [C30] Hashing in pieces is hashing the whole: feeding any pieces of a message (below
    2^61 bytes in all) to [hash_update] and finishing with [hash_final] gives the SHA-1
    digest of their concatenation, through every path of the buffering, the carry of
    the length into its second word, and both shapes of the padding.  In particular
    [sha1] is SHA-1. *)
Theorem sha1_streaming_correct (chunks : list bytes) (m : bytes) :
  Forall bytes_ok chunks → zlen (mjoin chunks) < 2 ^ 61 → bytes_ok m → zlen m < 2 ^ 61 →
  hash_final (foldl hash_update SHA_INIT chunks) = sha1_digest (mjoin chunks) ∧
  sha1 m = sha1_digest m.
Proof.
  intros Hok Hlen Hm Hml. assert (H : ∀ cs m0 c, Forall bytes_ok cs → zlen (m0 ++ mjoin cs) < 2 ^ 61 → Hashed m0 c →
    Hashed (m0 ++ mjoin cs) (foldl hash_update c cs)).
  { induction cs as [|c1 cs IH]; intros m0 c Hcs Hl HH; [by rewrite app_nil_r|].
    apply Forall_cons_iff in Hcs as [Hc Hcs]. cbn [foldl mjoin list_join] in *.
    rewrite app_assoc in Hl |- *. apply IH; [done|done|]. apply hash_update_spec; [done|done|].
    rewrite zlen_app in Hl. pose proof (zlen_nonneg (mjoin cs)). unfold mjoin in *. lia. }
  split; [apply hash_final_spec; by apply (H chunks [] SHA_INIT Hok Hlen Hashed_init)|].
  unfold sha1. rewrite (hash_final_spec m).
  - apply take_ge. unfold sha1_digest. rewrite !length_app, !be_bytes_length. lia.
  - by apply (hash_update_spec [] SHA_INIT m Hashed_init).
Qed.

(** The digest of "abc". *)
Lemma sha1_streaming_correct_witness :
  take 4 (sha1 [97; 98; 99]) = [0xa9; 0x99; 0x3e; 0x36] ∧
  hash_final (foldl hash_update SHA_INIT [[97]; [98; 99]]) = sha1 [97; 98; 99].
Proof.
  destruct (sha1_streaming_correct [[97]; [98; 99]] [97; 98; 99]) as [H1 H2].
  - repeat constructor; by_compute.
  - vm_compute; congruence.
  - by_compute.
  - vm_compute; congruence.
  - rewrite H1, H2. split; [|reflexivity]. vm_compute. reflexivity.
Defined.
