(* ===== verification/EnclaveMerge.v ===== *)
(** * The enclave's k-way merge

    Model of [Enclave/merge_sort_1c.cpp], the compaction the enclave runs, together
    with the host side of its two OCALLs, [do_reload_1c] and [do_flush_1c] of
    [App/integration/db_impl.cpp].  The shared buffers have a fixed stride, so the
    arrays of a channel are a list of slots: 32 key bytes, 100 value bytes and the two
    sizes.  A slot is overwritten only as far as the new key or value reaches, so old
    bytes stay behind shorter ones.

    What [do_flush_1c] hands to [SU_flush_data] is recorded in order.  The calls of
    [insert] in the merge loop are left out: that function writes only its own local
    variables. *)
From S2P Require Import Prelude Comparator.
From stdpp Require Import sorting list sets.

#[local] Open Scope Z_scope.

Definition INPUT_BUFFER_SIZE : Z := 1024.
Definition OUTPUT_BUFFER_SIZE : Z := 1024.

Record Slot := { key_data : bytes; key_size : Z; value_data : bytes; value_size : Z }.

(** One input: its buffer and what the host's iterator [g_list[channel]] still has. *)
Record Channel := {
  slots : list Slot;
  in_index : Z;
  data_count : Z;
  iter : list (bytes * bytes);
}.

(** The buffers of the channels, of which the arrays hold 10, and of the output. *)
Record Cookie := {
  chans : list Channel;
  outs : list Slot;
  out_index : Z;
  flushed : list (bytes * bytes);
}.

(** Copy the first bytes of [new], at most [cap], over [old]. *)
Definition write_prefix (cap : nat) (new old : bytes) : bytes :=
  take cap new ++ drop (length (take cap new)) old.

Definition fill_slot (kv : bytes * bytes) (s : Slot) : Slot :=
  {| key_size := zlen kv.1; value_size := zlen kv.2;
     key_data := write_prefix 32 kv.1 (key_data s);
     value_data := write_prefix 100 kv.2 (value_data s) |}.

(** [while (iter->Valid() && index < INPUT_BUFFER_SIZE)], with [n] slots left. *)
Fixpoint reload_loop (n index : nat) (ss : list Slot) (it : list (bytes * bytes)) :
    nat * list Slot * list (bytes * bytes) :=
  match n, it with
  | S n', kv :: it' => reload_loop n' (S index) (alter (fill_slot kv) index ss) it'
  | _, _ => (index, ss, it)
  end.

Definition do_reload_1c (ch : Channel) : Channel :=
  let '(index, ss, it) := reload_loop (Z.to_nat INPUT_BUFFER_SIZE) 0 (slots ch) (iter ch) in
  {| slots := ss; in_index := in_index ch; data_count := Z.of_nat index; iter := it |}.

(** [Slice(&out_key[i << 5], out_key_sizes[i])]: the bytes from slot [i] on. *)
Definition flush_record (outs : list Slot) (i : nat) : bytes * bytes :=
  let rest := drop i outs in
  let s := nth i outs {| key_data := []; key_size := 0; value_data := []; value_size := 0 |} in
  (take (Z.to_nat (key_size s)) (mjoin (key_data <$> rest)),
   take (Z.to_nat (value_size s)) (mjoin (value_data <$> rest))).

Definition do_flush_1c (c : Cookie) : Cookie :=
  {| chans := chans c; outs := outs c; out_index := out_index c;
     flushed := flushed c ++ (flush_record (outs c) <$> seq 0 (Z.to_nat (out_index c))) |}.

(** [in_index[channel] = i] *)
Definition set_index (i : Z) (ch : Channel) : Channel :=
  {| slots := slots ch; in_index := i; data_count := data_count ch; iter := iter ch |}.

(** [onec_readKV], on the channel it names: the result and the channel after. *)
Definition onec_readKV (ch : Channel) : bool * Channel :=
  if (in_index ch =? INPUT_BUFFER_SIZE) || (in_index ch =? -1) then
    let ch := set_index (-1) (do_reload_1c ch) in
    if data_count ch =? 0 then (false, ch) else (true, set_index (in_index ch + 1) ch)
  else if in_index ch =? data_count ch then (false, set_index (-1) ch)
  else (true, set_index (in_index ch + 1) ch).

Definition with_chans (cs : list Channel) (c : Cookie) : Cookie :=
  {| chans := cs; outs := outs c; out_index := out_index c; flushed := flushed c |}.
Definition with_out_index (i : Z) (c : Cookie) : Cookie :=
  {| chans := chans c; outs := outs c; out_index := i; flushed := flushed c |}.

Definition current_slot (ch : Channel) : option Slot := slots ch !! Z.to_nat (in_index ch).

Definition onec_writeKV (channel : nat) (c : Cookie) : Cookie :=
  let c := if out_index c =? OUTPUT_BUFFER_SIZE then with_out_index 0 (do_flush_1c c) else c in
  match chans c !! channel ≫= current_slot with
  | Some s =>
      {| chans := chans c; outs := <[Z.to_nat (out_index c) := s]> (outs c);
         out_index := out_index c + 1; flushed := flushed c |}
  | None => c
  end.

Definition onec_compare (a b : Channel) : Z :=
  match current_slot a, current_slot b with
  | Some x, Some y => memcmp (key_data x) (key_data y) 24
  | _, _ => 0
  end.

(** The body of the loop of [onec_findSmallest] for channel [i]. *)
Definition find_step (st : list Channel * option nat) (i : nat) : list Channel * option nat :=
  let '(cs, smallest) := st in
  match cs !! i with
  | None => st
  | Some ch =>
      let '(have, ch) :=
        if (in_index ch =? -1) || (in_index ch =? data_count ch) then onec_readKV ch else (true, ch) in
      let cs := <[i := ch]> cs in
      if negb have then (cs, smallest)
      else
        match smallest with
        | None => (cs, Some i)
        | Some s =>
            match cs !! s with
            | Some chs => if onec_compare ch chs <? 0 then (cs, Some i) else (cs, Some s)
            | None => (cs, Some s)
            end
        end
  end.

Definition onec_findSmallest (n_ways : nat) (c : Cookie) : option nat * Cookie :=
  let '(cs, smallest) := foldl find_step (chans c, None) (seq 0 n_ways) in
  (smallest, with_chans cs c).

(** [onec_readKV(channel)] inside the cookie. *)
Definition read_channel (channel : nat) (c : Cookie) : bool * Cookie :=
  match chans c !! channel with
  | Some ch => let '(r, ch) := onec_readKV ch in (r, with_chans (<[channel := ch]> (chans c)) c)
  | None => (false, c)
  end.

(** The merge loop; every pass but the last writes one record. *)
Fixpoint merge_loop (fuel : nat) (n_ways : nat) (count : Z) (c : Cookie) : option Cookie :=
  if count <=? 0 then Some c
  else
    match fuel with
    | O => None
    | S fuel' =>
        let '(next, c) := onec_findSmallest n_ways c in
        match next with
        | None => Some c
        | Some next =>
            let c := onec_writeKV next c in
            let '(r, c) := read_channel next c in
            merge_loop fuel' n_ways (if r then count else count - 1) c
        end
    end.

Definition onec_EnclCompact (fuel : nat) (file_count : nat) (c : Cookie) : option Cookie :=
  let c := foldl (λ c i, (read_channel i c).2) c (seq 0 file_count) in
  match merge_loop fuel file_count (Z.of_nat file_count) c with
  | Some c => Some (with_out_index 0 (do_flush_1c c))
  | None => None
  end.

(** The fuel: one pass per record of the inputs, and the last. *)
Definition total_records (cs : list Channel) : nat := length (mjoin (iter <$> cs)).

(** ** The merge, abstractly *)

Abbreviation record := (bytes * bytes)%type.

(** The order the merge uses: the first 24 key bytes. *)
Definition cmp24 (a b : record) : Z := lex (take 24 a.1) (take 24 b.1).
Definition le24 (a b : record) : Prop := cmp24 a b <= 0.

Definition pick_step (streams : list (list record)) (smallest : option nat) (i : nat) : option nat :=
  match streams !! i with
  | Some (x :: _) =>
      match smallest with
      | None => Some i
      | Some s =>
          match streams !! s with
          | Some (y :: _) => if cmp24 x y <? 0 then Some i else Some s
          | _ => Some s
          end
      end
  | _ => smallest
  end.

(** The stream with the smallest head, the first one when several are equal. *)
Definition pick (streams : list (list record)) : option nat :=
  foldl (pick_step streams) None (seq 0 (length streams)).

Fixpoint kmerge (fuel : nat) (streams : list (list record)) : list record :=
  match fuel with
  | O => []
  | S fuel' =>
      match pick streams with
      | None => []
      | Some i =>
          match streams !! i with
          | Some (x :: p) => x :: kmerge fuel' (<[i := p]> streams)
          | _ => []
          end
      end
  end.

(** ** Slots and channels *)

(** The sizes the buffers are made for: a key of 24 to 32 bytes, a value of up to 100. *)
Definition rec_ok (r : record) : Prop := (24 <= length r.1 <= 32)%nat ∧ (length r.2 <= 100)%nat.

Definition slot_ok (s : Slot) : Prop := length (key_data s) = 32%nat ∧ length (value_data s) = 100%nat.

Definition holds_rec (s : Slot) (r : record) : Prop :=
  slot_ok s ∧ key_size s = zlen r.1 ∧ value_size s = zlen r.2 ∧
  take (length r.1) (key_data s) = r.1 ∧ take (length r.2) (value_data s) = r.2.

Definition Positioned (ch : Channel) : Prop := 0 <= in_index ch < data_count ch.

(** The channel still has to deliver the records [p]. *)
Definition ChanOk (ch : Channel) (p : list record) : Prop :=
  length (slots ch) = 1024%nat ∧ Forall slot_ok (slots ch) ∧ Forall rec_ok p ∧
  ((in_index ch = -1 ∧ p = iter ch) ∨
   (0 <= in_index ch <= data_count ch ∧ data_count ch <= 1024 ∧ (data_count ch < 1024 → iter ch = []) ∧
    ∃ buf, p = buf ++ iter ch ∧ Z.of_nat (length buf) = data_count ch - in_index ch ∧
      ∀ j kv, buf !! j = Some kv → ∃ s, slots ch !! (Z.to_nat (in_index ch) + j)%nat = Some s ∧ holds_rec s kv)).

Lemma write_prefix_spec cap new old : (length new <= cap)%nat → length old = cap →
  length (write_prefix cap new old) = cap ∧ take (length new) (write_prefix cap new old) = new.
Proof.
  intros Hn Ho. unfold write_prefix. rewrite (take_ge new) by done.
  split; [rewrite length_app, length_drop; lia|by apply take_app_length].
Qed.

Lemma fill_slot_holds kv s : slot_ok s → rec_ok kv → holds_rec (fill_slot kv s) kv.
Proof.
  intros [Hk Hv] [Rk Rv].
  destruct (write_prefix_spec 32 kv.1 (key_data s)) as [K1 K2]; [lia|done|].
  destruct (write_prefix_spec 100 kv.2 (value_data s)) as [V1 V2]; [lia|done|].
  by repeat split.
Qed.

Lemma Forall_alter_slot f i ss : Forall slot_ok ss → (∀ s, slot_ok s → slot_ok (f s)) → Forall slot_ok (alter f i ss).
Proof. intros H Hf. apply Forall_alter; [done|]. intros s _ Hs. by apply Hf. Qed.

Lemma reload_loop_spec n : ∀ index ss it, Forall slot_ok ss → Forall rec_ok it → (index + n <= length ss)%nat →
  ∃ ss', reload_loop n index ss it = ((index + Nat.min n (length it))%nat, ss', drop n it) ∧
    length ss' = length ss ∧ Forall slot_ok ss' ∧
    (∀ j, (j < index)%nat → ss' !! j = ss !! j) ∧
    (∀ j kv, take n it !! j = Some kv → ∃ s, ss' !! (index + j)%nat = Some s ∧ holds_rec s kv).
Proof.
  induction n as [|n IH]; intros index ss it Hss Hit Hl.
  - exists ss. cbn [reload_loop Nat.min take drop]. rewrite drop_0, Nat.add_0_r. by repeat split.
  - destruct it as [|kv it].
    + exists ss. cbn [reload_loop Nat.min length take drop]. rewrite Nat.add_0_r. by repeat split.
    + apply Forall_cons_iff in Hit as [Hkv Hit]. cbn [reload_loop].
      destruct (IH (S index) (alter (fill_slot kv) index ss) it) as (ss' & Hr & Hlen & Hok & Hold & Hnew).
      * apply Forall_alter_slot; [done|]. intros s Hs. by apply fill_slot_holds.
      * done.
      * rewrite length_alter. lia.
      * exists ss'. rewrite Hr. split; [f_equal; f_equal; simpl; lia|].
        split; [by rewrite Hlen, length_alter|]. split; [done|]. split.
        -- intros j Hj. rewrite Hold by lia. apply list_lookup_alter_ne. lia.
        -- intros [|j] kv' Hj; simpl in Hj; simplify_eq.
           ++ destruct (lookup_lt_is_Some_2 ss index) as [s Hs]; [lia|].
              exists (fill_slot kv' s). rewrite Nat.add_0_r, Hold, list_lookup_alter_eq, Hs by lia.
              split; [done|]. apply fill_slot_holds; [|done]. exact (Forall_lookup_1 _ _ _ _ Hss Hs).
           ++ rewrite Nat.add_succ_r. apply (Hnew j kv' Hj).
Qed.

(** Reloading and resetting a channel whose buffer is used up. *)
Lemma reload_ok ch : length (slots ch) = 1024%nat → Forall slot_ok (slots ch) → Forall rec_ok (iter ch) →
  let ch' := do_reload_1c ch in
  data_count ch' = Z.of_nat (Nat.min 1024 (length (iter ch))) ∧ length (slots ch') = 1024%nat ∧
  Forall slot_ok (slots ch') ∧ iter ch' = drop 1024 (iter ch) ∧
  (∀ j kv, take 1024 (iter ch) !! j = Some kv → ∃ s, slots ch' !! j = Some s ∧ holds_rec s kv).
Proof.
  intros Hl Hs Hi. unfold do_reload_1c. change (Z.to_nat INPUT_BUFFER_SIZE) with 1024%nat.
  destruct (reload_loop_spec 1024 0 (slots ch) (iter ch) Hs Hi) as (ss' & -> & H1 & H2 & _ & H3); [lia|].
  cbn [data_count slots iter]. rewrite H1. done.
Qed.

(** Where a reload leaves the channel, for a buffer filled from [q]. *)
Lemma after_reload ch q : length (slots ch) = 1024%nat → Forall slot_ok (slots ch) → Forall rec_ok q →
  data_count ch = Z.of_nat (Nat.min 1024 (length q)) → iter ch = drop 1024 q →
  (∀ j kv, take 1024 q !! j = Some kv → ∃ s, slots ch !! j = Some s ∧ holds_rec s kv) →
  ∃ ch', (let ch := set_index (-1) ch in
      if data_count ch =? 0 then (false, ch) else (true, set_index (in_index ch + 1) ch)) =
    (negb (length q =? 0)%nat, ch') ∧ ChanOk ch' q ∧ (q ≠ [] → Positioned ch').
Proof.
  intros L S' Hq D I' B. cbv zeta. change (data_count (set_index (-1) ch)) with (data_count ch).
  rewrite D. destruct q as [|kv it].
  - eexists. split; [done|]. split; [|done]. split; [done|]. split; [done|]. split; [done|]. left. done.
  - assert (Hc : Z.of_nat (Nat.min 1024 (length (kv :: it))) ≠ 0) by (simpl length; lia).
    rewrite (proj2 (Z.eqb_neq _ _) Hc). eexists. split; [done|].
    split; [|intros _; unfold Positioned; cbn [in_index data_count set_index]; rewrite D; lia].
    split; [done|]. split; [done|]. split; [done|]. right. cbn [data_count in_index slots iter set_index].
    rewrite D, I'. split; [lia|]. split; [lia|]. split; [intros H; apply drop_ge; lia|].
    exists (take 1024 (kv :: it)). rewrite take_drop. split; [done|]. split; [rewrite length_take; lia|done].
Qed.

(** A read on a channel that has nothing in its buffer: either it reports the end, or
    it positions the channel at its next record. *)
Lemma readKV_position ch p : ChanOk ch p → in_index ch = -1 ∨ in_index ch = data_count ch →
  ∃ ch', onec_readKV ch = (negb (length p =? 0)%nat, ch') ∧ ChanOk ch' p ∧ (p ≠ [] → Positioned ch').
Proof.
  intros (Hl & Hs & Hp & Hcase) Hneed. unfold onec_readKV.
  assert (Hreload : p = iter ch → ∃ ch',
    (let ch := set_index (-1) (do_reload_1c ch) in
     if data_count ch =? 0 then (false, ch) else (true, set_index (in_index ch + 1) ch)) =
    (negb (length p =? 0)%nat, ch') ∧ ChanOk ch' p ∧ (p ≠ [] → Positioned ch')).
  { intros Heq. rewrite Heq in Hp. destruct (reload_ok ch Hl Hs Hp) as (D & L & S' & I' & B).
    rewrite Heq. exact (after_reload (do_reload_1c ch) (iter ch) L S' Hp D I' B). }
  destruct Hcase as [[H1 H2]|(Hb & Hc & Hi & buf & Hpb & Hbl & _)].
  - rewrite (proj2 (Z.eqb_eq (in_index ch) (-1)) H1), orb_true_r. by apply Hreload.
  - destruct Hneed as [?|Hneed]; [lia|]. assert (buf = []) as -> by (apply nil_length_inv; lia). simpl app in *.
    destruct (Z.eqb_spec (in_index ch) INPUT_BUFFER_SIZE) as [E|E]; cbn [orb]; [by apply Hreload|].
    destruct (Z.eqb_spec (in_index ch) (-1)) as [?|_]; [lia|]. unfold INPUT_BUFFER_SIZE in E.
    rewrite (proj2 (Z.eqb_eq _ _) Hneed). assert (p = []) as -> by (rewrite Hpb; apply Hi; lia).
    eexists. split; [done|]. split; [|done]. split; [done|]. split; [done|]. split; [constructor|]. by left.
Qed.

(** A read on a positioned channel moves past the current record. *)
Lemma readKV_advance ch kv p : ChanOk ch (kv :: p) → Positioned ch →
  ∃ ch', onec_readKV ch = (true, ch') ∧ ChanOk ch' p.
Proof.
  intros (Hl & Hs & Hp & Hcase) [Hpos1 Hpos2]. apply Forall_cons_iff in Hp as [_ Hp].
  destruct Hcase as [[H1 _]|(Hb & Hc & Hi & buf & Heq & Hbl & Hbuf)]; [lia|].
  destruct buf as [|kv' buf]; simpl in Heq, Hbl; [lia|]. simplify_eq.
  unfold onec_readKV, INPUT_BUFFER_SIZE.
  rewrite (proj2 (Z.eqb_neq (in_index ch) 1024)), (proj2 (Z.eqb_neq (in_index ch) (-1))),
    (proj2 (Z.eqb_neq (in_index ch) (data_count ch))) by lia. cbn [orb].
  eexists. split; [done|]. split; [done|]. split; [done|]. split; [done|]. right.
  cbn [in_index data_count slots iter set_index]. split; [lia|]. split; [done|]. split; [done|].
  exists buf. split; [done|]. split; [lia|]. intros j r Hj.
  destruct (Hbuf (S j) r Hj) as (s & H1 & H2). exists s. split; [|done].
  rewrite <- H1. f_equal. lia.
Qed.

Lemma Positioned_head ch p : ChanOk ch p → Positioned ch →
  ∃ kv p' s, p = kv :: p' ∧ current_slot ch = Some s ∧ holds_rec s kv ∧ rec_ok kv.
Proof.
  intros (Hl & Hs & Hp & Hcase) [Hpos1 Hpos2].
  destruct Hcase as [[H1 _]|(Hb & Hc & Hi & buf & -> & Hbl & Hbuf)]; [lia|].
  destruct buf as [|kv buf]; simpl in Hbl; [lia|]. destruct (Hbuf O kv eq_refl) as (s & H1 & H2).
  exists kv, (buf ++ iter ch), s. rewrite Nat.add_0_r in H1. split; [done|]. split; [done|]. split; [done|].
  by apply Forall_inv in Hp.
Qed.

(** ** Choosing the smallest head *)

Lemma memcmp_lex n : ∀ a b, (n <= length a)%nat → (n <= length b)%nat →
  memcmp a b n = lex (take n a) (take n b).
Proof.
  induction n as [|n IH]; intros [|x a] [|y b] Ha Hb; simpl in *; try done; try lia.
  rewrite IH by lia. done.
Qed.

Lemma holds_rec_prefix s kv : holds_rec s kv → rec_ok kv → take 24 (key_data s) = take 24 kv.1.
Proof.
  intros (_ & _ & _ & Hk & _) [Hl _]. rewrite <- Hk, take_take. f_equal. lia.
Qed.

Lemma onec_compare_spec a b pa pb x y : ChanOk a (x :: pa) → ChanOk b (y :: pb) →
  Positioned a → Positioned b → onec_compare a b = cmp24 x y.
Proof.
  intros Ha Hb Pa Pb.
  destruct (Positioned_head _ _ Ha Pa) as (x' & p1 & s1 & Hx & S1 & H1 & R1).
  destruct (Positioned_head _ _ Hb Pb) as (y' & p2 & s2 & Hy & S2 & H2 & R2). simplify_eq.
  unfold onec_compare. rewrite S1, S2. pose proof H1 as ((K1 & _) & _). pose proof H2 as ((K2 & _) & _).
  rewrite memcmp_lex by lia. unfold cmp24. by rewrite (holds_rec_prefix _ _ H1), (holds_rec_prefix _ _ H2).
Qed.

(** After looking at the channels below [i], those with records are positioned. *)
Definition looked (cs : list Channel) (ps : list (list record)) (i : nat) : Prop :=
  Forall2 ChanOk cs ps ∧
  ∀ j ch p, (j < i)%nat → cs !! j = Some ch → ps !! j = Some p → p ≠ [] → Positioned ch.

Lemma find_step_spec cs ps i smallest : looked cs ps i → (i < length ps)%nat →
  (∀ s, smallest = Some s → (s < i)%nat ∧ ∃ y p, ps !! s = Some (y :: p)) →
  ∃ cs', find_step (cs, smallest) i = (cs', pick_step ps smallest i) ∧ looked cs' ps (S i).
Proof.
  intros [HF Hpos] Hi Hsm. destruct (lookup_lt_is_Some_2 ps i Hi) as [p Hp].
  destruct (Forall2_lookup_r _ _ _ _ _ HF Hp) as (ch & Hch & Hok).
  assert (Hread : ∃ ch', (if (in_index ch =? -1) || (in_index ch =? data_count ch) then onec_readKV ch else (true, ch)) =
    (negb (length p =? 0)%nat, ch') ∧ ChanOk ch' p ∧ (p ≠ [] → Positioned ch')).
  { destruct (_ || _) eqn:E.
    - apply readKV_position; [done|]. apply orb_true_iff in E as [?%Z.eqb_eq|?%Z.eqb_eq]; auto.
    - apply orb_false_iff in E as [E1%Z.eqb_neq E2%Z.eqb_neq].
      assert (HP : Positioned ch).
      { destruct Hok as (_ & _ & _ & [[H _]|(H & _)]); [done|]. unfold Positioned. lia. }
      destruct (Positioned_head _ _ Hok HP) as (kv & p' & s & -> & _). by exists ch. }
  destruct Hread as (ch' & Hr & Hok' & Hpos'). unfold find_step. rewrite Hch, Hr.
  assert (Hlook : looked (<[i := ch']> cs) ps (S i)).
  { split; [rewrite <- (list_insert_id ps i p Hp); by apply Forall2_insert|].
    intros j c q Hj Hc Hq Hne. destruct (decide (j = i)) as [->|Hji].
    - rewrite list_lookup_insert_eq in Hc by (by eapply lookup_lt_Some). simplify_eq. auto.
    - rewrite list_lookup_insert_ne in Hc by done. apply (Hpos j c q); (done || lia). }
  exists (<[i := ch']> cs). split; [|done]. unfold pick_step. rewrite Hp. destruct p as [|x p]; [done|]. cbn [length Nat.eqb negb].
  destruct smallest as [s|]; [|done]. destruct (Hsm s eq_refl) as (Hsi & y & q & Hs). rewrite Hs.
  rewrite list_lookup_insert_ne by lia. destruct (Forall2_lookup_r _ _ _ _ _ HF Hs) as (chs & Hchs & Hoks).
  rewrite Hchs. rewrite (onec_compare_spec ch' chs p q x y) by (done || (by apply Hpos') || (by apply (Hpos s chs (y :: q)))).
  by destruct (_ <? 0).
Qed.

Lemma pick_step_bound ps smallest i : (∀ s, smallest = Some s → (s < i)%nat ∧ ∃ y p, ps !! s = Some (y :: p)) →
  ∀ s, pick_step ps smallest i = Some s → (s < S i)%nat ∧ ∃ y p, ps !! s = Some (y :: p).
Proof.
  intros H s. unfold pick_step. destruct (ps !! i) as [[|x p]|] eqn:E.
  - intros Hs. destruct (H s Hs). split; [lia|done].
  - destruct smallest as [t|]; [|intros [= <-]; eauto]. destruct (H t eq_refl) as (Ht & y & q & Hq). rewrite Hq.
    destruct (_ <? 0); intros [= <-]; eauto. split; [lia|eauto].
  - intros Hs. destruct (H s Hs). split; [lia|done].
Qed.

Lemma findSmallest_spec cs ps : Forall2 ChanOk cs ps →
  ∃ cs', foldl find_step (cs, None) (seq 0 (length ps)) = (cs', pick ps) ∧ looked cs' ps (length ps).
Proof.
  intros HF. unfold pick.
  assert (H : ∀ n i cs smallest, (i + n = length ps)%nat → looked cs ps i →
    (∀ s, smallest = Some s → (s < i)%nat ∧ ∃ y p, ps !! s = Some (y :: p)) →
    ∃ cs', foldl find_step (cs, smallest) (seq i n) = (cs', foldl (pick_step ps) smallest (seq i n)) ∧
      looked cs' ps (length ps)).
  { induction n as [|n IH]; intros i cs0 sm Hn Hl Hs.
    - exists cs0. rewrite Nat.add_0_r in Hn. by subst.
    - cbn [seq foldl]. destruct (find_step_spec cs0 ps i sm Hl ltac:(lia) Hs) as (cs1 & -> & Hl1).
      apply IH; [lia|done|by apply pick_step_bound]. }
  apply (H (length ps) O cs None); [lia| |done]. split; [done|]. intros j ch p Hj. lia.
Qed.

(** ** What [pick] picks *)

Lemma cmp24_opp a b : cmp24 b a = - cmp24 a b.
Proof. apply lex_opp. Qed.

Lemma le24_trans a b c : le24 a b → le24 b c → le24 a c.
Proof.
  unfold le24, cmp24. intros H1 H2.
  destruct (Z.eq_dec (lex (take 24 a.1) (take 24 b.1)) 0) as [->%lex_eq|]; [done|].
  destruct (Z.eq_dec (lex (take 24 b.1) (take 24 c.1)) 0) as [<-%lex_eq|]; [done|].
  pose proof (lex_trans (take 24 a.1) (take 24 b.1) (take 24 c.1)). lia.
Qed.

Lemma lt24_le24 a b c : cmp24 a b < 0 → le24 b c → cmp24 a c < 0.
Proof.
  intros H1 H2. assert (H3 : le24 a c) by (apply (le24_trans _ b); [unfold le24; lia|done]). unfold le24 in H3. destruct (Z.eq_dec (cmp24 a c) 0) as [E|]; [|lia].
  unfold le24, cmp24 in *. apply lex_eq in E. rewrite E in H1. rewrite (lex_opp (take 24 b.1)) in H1. lia.
Qed.

(** The picked stream has a smallest head, and those before it have greater ones. *)
Lemma pick_spec ps :
  match pick ps with
  | None => ∀ i p, ps !! i = Some p → p = []
  | Some s => ∃ x p, ps !! s = Some (x :: p) ∧ ∀ i y q, ps !! i = Some (y :: q) → le24 x y ∧ ((i < s)%nat → cmp24 x y < 0)
  end.
Proof.
  assert (H : ∀ n,
    match foldl (pick_step ps) None (seq 0 n) with
    | None => ∀ i p, (i < n)%nat → ps !! i = Some p → p = []
    | Some s => (s < n)%nat ∧ ∃ x p, ps !! s = Some (x :: p) ∧
        ∀ i y q, (i < n)%nat → ps !! i = Some (y :: q) → le24 x y ∧ ((i < s)%nat → cmp24 x y < 0)
    end).
  { induction n as [|n IH]; [intros i p Hi; lia|]. rewrite seq_S, foldl_app. cbn [foldl Nat.add].
    destruct (foldl (pick_step ps) None (seq 0 n)) as [s|].
    - destruct IH as (Hsn & x & p & Hs & Hmin). unfold pick_step. destruct (ps !! n) as [[|y q]|] eqn:E.
      + split; [lia|]. exists x, p. split; [done|]. intros i z q Hi Hz. destruct (decide (i = n)) as [->|]; [congruence|].
        apply (Hmin i z q); (done || lia).
      + rewrite Hs. destruct (Z.ltb_spec (cmp24 y x) 0) as [Hlt|Hge].
        * split; [lia|]. exists y, q. split; [done|]. intros i z r Hi Hz. destruct (decide (i = n)) as [->|].
          -- simplify_eq. unfold le24, cmp24. rewrite lex_refl. split; [done|lia].
          -- destruct (Hmin i z r) as [Hle _]; [lia|done|]. assert (cmp24 y z < 0) by (by apply (lt24_le24 _ x)). unfold le24. split; [lia|done].
        * split; [lia|]. exists x, p. split; [done|]. intros i z r Hi Hz. destruct (decide (i = n)) as [->|].
          -- simplify_eq. unfold le24. rewrite cmp24_opp. split; lia.
          -- apply (Hmin i z r); (done || lia).
      + split; [lia|]. exists x, p. split; [done|]. intros i z q Hi Hz. destruct (decide (i = n)) as [->|]; [congruence|].
        apply (Hmin i z q); (done || lia).
    - unfold pick_step. destruct (ps !! n) as [[|y q]|] eqn:E.
      + intros i p Hi Hp. destruct (decide (i = n)) as [->|]; [congruence|]. apply (IH i p); (done || lia).
      + split; [lia|]. exists y, q. split; [done|]. intros i z r Hi Hz. destruct (decide (i = n)) as [->|].
        * simplify_eq. unfold le24, cmp24. rewrite lex_refl. split; [done|lia].
        * assert (z :: r = []) by (apply (IH i); (done || lia)). done.
      + intros i p Hi Hp. destruct (decide (i = n)) as [->|]; [congruence|]. apply (IH i p); (done || lia). }
  specialize (H (length ps)). unfold pick. destruct (foldl (pick_step ps) None (seq 0 (length ps))) as [s|].
  - destruct H as (_ & x & p & Hs & Hmin). exists x, p. split; [done|]. intros i y q Hi.
    apply (Hmin i y q); [by eapply lookup_lt_Some|done].
  - intros i p Hi. apply (H i p); [by eapply lookup_lt_Some|done].
Qed.

(** ** The output buffer *)

(** The output buffer holds the records [o], not yet handed over. *)
Definition OutOk (c : Cookie) (o : list record) : Prop :=
  length (outs c) = 1024%nat ∧ Forall slot_ok (outs c) ∧ out_index c = Z.of_nat (length o) ∧
  (length o <= 1024)%nat ∧ Forall rec_ok o ∧
  ∀ j kv, o !! j = Some kv → ∃ s, outs c !! j = Some s ∧ holds_rec s kv.

Lemma take_first_slot (k a rest : bytes) : take (length k) a = k → (length k <= length a)%nat →
  take (Z.to_nat (zlen k)) (a ++ rest) = k.
Proof. intros H Hl. unfold zlen. rewrite Nat2Z.id, take_app_le by done. done. Qed.

Lemma flush_record_spec outs j s kv : outs !! j = Some s → holds_rec s kv → rec_ok kv →
  flush_record outs j = kv.
Proof.
  intros Hj ((L1 & L2) & K & V & T1 & T2) [R1 R2]. unfold flush_record.
  rewrite (nth_lookup_Some _ _ _ _ Hj), (drop_S _ _ _ Hj), K, V.
  change (mjoin (key_data <$> s :: drop (S j) outs)) with (key_data s ++ mjoin (key_data <$> drop (S j) outs)).
  change (mjoin (value_data <$> s :: drop (S j) outs)) with (value_data s ++ mjoin (value_data <$> drop (S j) outs)).
  rewrite !take_first_slot by (done || lia). by destruct kv.
Qed.

Lemma do_flush_spec c o : OutOk c o → flushed (do_flush_1c c) = flushed c ++ o.
Proof.
  intros (_ & _ & Hi & _ & Hok & Ho). cbn [do_flush_1c flushed]. f_equal. rewrite Hi, Nat2Z.id.
  apply list_eq. intros j. rewrite list_lookup_fmap. destruct (o !! j) as [kv|] eqn:E.
  - rewrite lookup_seq_lt by (by eapply lookup_lt_Some). simpl. f_equal.
    destruct (Ho j kv E) as (s & Hs & Hh). apply (flush_record_spec _ _ s); [done|done|].
    by eapply Forall_lookup_1.
  - rewrite lookup_seq_ge by (by apply lookup_ge_None). done.
Qed.

Lemma OutOk_empty c i : length (outs c) = 1024%nat → Forall slot_ok (outs c) → i = 0 → OutOk (with_out_index i c) [].
Proof. intros H1 H2 ->. split; [done|]. split; [done|]. split; [done|]. split; [simpl; lia|]. by split. Qed.

Lemma writeKV_spec c o next ch s kv : OutOk c o → chans c !! next = Some ch → current_slot ch = Some s →
  holds_rec s kv → rec_ok kv → let c' := onec_writeKV next c in
  chans c' = chans c ∧ ∃ o', OutOk c' o' ∧ flushed c' ++ o' = flushed c ++ o ++ [kv].
Proof.
  intros HO Hch Hs Hh Hr. unfold onec_writeKV.
  set (c1 := if out_index c =? OUTPUT_BUFFER_SIZE then with_out_index 0 (do_flush_1c c) else c).
  assert (H1 : ∃ o1, OutOk c1 o1 ∧ (length o1 < 1024)%nat ∧ flushed c1 ++ o1 = flushed c ++ o ∧ chans c1 = chans c).
  { pose proof HO as (L & S' & I' & B & _). unfold c1, OUTPUT_BUFFER_SIZE.
    destruct (Z.eqb_spec (out_index c) 1024) as [E|E].
    - exists []. split; [by apply OutOk_empty|]. split; [simpl; lia|]. split; [|done].
      rewrite app_nil_r. by apply do_flush_spec.
    - exists o. split; [done|]. split; [lia|done]. }
  clearbody c1. destruct H1 as (o1 & (L & S' & I' & B & R & Ho) & Hlt & Hfl & Hcs). rewrite Hcs, Hch. simpl. rewrite Hs.
  cbn [chans]. split; [done|]. exists (o1 ++ [kv]). cbn [flushed]. rewrite app_assoc, Hfl, <- app_assoc. split; [|done].
  pose proof Hh as [Hslot _]. rewrite I', Nat2Z.id.
  split; [cbn [outs]; by rewrite length_insert|]. split; [cbn [outs]; by apply Forall_insert|].
  split; [cbn [out_index]; rewrite length_app; simpl; lia|]. split; [rewrite length_app; simpl; lia|].
  split; [apply Forall_app; split; [done|by constructor; [|constructor]]|]. cbn [outs]. intros j r Hj.
  destruct (decide (j = length o1)) as [->|Hne].
  - rewrite list_lookup_middle in Hj by done. simplify_eq. exists s. split; [|done].
    apply list_lookup_insert_eq. lia.
  - rewrite lookup_app_l in Hj.
    2:{ apply lookup_lt_Some in Hj. rewrite length_app in Hj. simpl in Hj. lia. }
    rewrite list_lookup_insert_ne by done. by apply Ho.
Qed.

(** ** The merge loop *)

Lemma mjoin_insert (ps : list (list record)) i x p : ps !! i = Some (x :: p) →
  mjoin ps ≡ₚ x :: mjoin (<[i := p]> ps).
Proof.
  intros Hi. rewrite <- (take_drop_middle ps i (x :: p) Hi) at 1.
  rewrite insert_take_drop by (by eapply lookup_lt_Some). rewrite !join_app. simpl.
  by rewrite <- Permutation_middle.
Qed.

Lemma merge_loop_spec fuel : ∀ c ps o count, Forall2 ChanOk (chans c) ps → OutOk c o → 0 < count →
  (length (mjoin ps) < fuel)%nat →
  ∃ c' o', merge_loop fuel (length ps) count c = Some c' ∧ OutOk c' o' ∧
    flushed c' ++ o' = flushed c ++ o ++ kmerge fuel ps.
Proof.
  induction fuel as [|fuel IH]; intros c ps o count HF HO Hc Hfuel; [lia|]. cbn [merge_loop kmerge].
  rewrite (proj2 (Z.leb_gt count 0)) by done. unfold onec_findSmallest.
  destruct (findSmallest_spec (chans c) ps HF) as (cs & -> & [HF' Hpos]). pose proof (pick_spec ps) as Hpick.
  destruct (pick ps) as [next|].
  2:{ exists (with_chans cs c), o. rewrite app_nil_r. done. }
  destruct Hpick as (x & p & Hn & _). rewrite Hn.
  destruct (Forall2_lookup_r _ _ _ _ _ HF' Hn) as (ch & Hch & Hok).
  assert (HP : Positioned ch) by (apply (Hpos next ch (x :: p)); [by eapply lookup_lt_Some|done..]).
  destruct (Positioned_head _ _ Hok HP) as (x' & p' & s & Heq & Hs & Hh & Hr). simplify_eq.
  destruct (writeKV_spec (with_chans cs c) o next ch s x' HO Hch Hs Hh Hr) as (Hcs & o1 & HO1 & Hfl).
  unfold read_channel. rewrite Hcs. cbn [chans with_chans]. rewrite Hch.
  destruct (readKV_advance ch x' p' Hok HP) as (ch' & -> & Hok'). cbv zeta.
  destruct (IH (with_chans (<[next := ch']> cs) (onec_writeKV next (with_chans cs c))) (<[next := p']> ps) o1 count)
    as (c' & o' & Hrun & HO' & Hfl'); [|done|done|..].
  - cbn [chans with_chans]. by apply Forall2_insert.
  - pose proof (mjoin_insert ps next x' p' Hn) as Hperm%Permutation_length. simpl in Hperm. lia.
  - rewrite length_insert in Hrun. exists c', o'. split; [done|]. split; [done|].
    rewrite Hfl'. cbn [flushed with_chans]. rewrite app_assoc, Hfl. cbn [flushed with_chans]. by rewrite <- !app_assoc.
Qed.

(** ** The abstract merge *)

Lemma all_empty (ps : list (list record)) : (∀ i p, ps !! i = Some p → p = []) → mjoin ps = [].
Proof.
  induction ps as [|p ps IH]; [done|]. intros H. rewrite (H O p eq_refl). apply IH. intros i q Hq. by apply (H (S i)).
Qed.

Lemma kmerge_perm fuel : ∀ ps, (length (mjoin ps) <= fuel)%nat → kmerge fuel ps ≡ₚ mjoin ps.
Proof.
  induction fuel as [|fuel IH]; intros ps Hf.
  - destruct (mjoin ps) eqn:E; [done|simpl in Hf; lia].
  - cbn [kmerge]. pose proof (pick_spec ps) as Hp. destruct (pick ps) as [i|]; [|by rewrite (all_empty ps Hp)].
    destruct Hp as (x & p & Hi & _). rewrite Hi. pose proof (mjoin_insert ps i x p Hi) as Hperm.
    rewrite Hperm, IH; [done|]. apply Permutation_length in Hperm. simpl in Hperm. lia.
Qed.

Lemma kmerge_sorted fuel : ∀ ps, (length (mjoin ps) <= fuel)%nat → Forall (StronglySorted le24) ps →
  StronglySorted le24 (kmerge fuel ps).
Proof.
  induction fuel as [|fuel IH]; intros ps Hf Hs; [constructor|]. cbn [kmerge].
  pose proof (pick_spec ps) as Hp. destruct (pick ps) as [i|]; [|constructor].
  destruct Hp as (x & p & Hi & Hmin). rewrite Hi.
  pose proof (Forall_lookup_1 _ _ _ _ Hs Hi) as Hxp. apply StronglySorted_inv in Hxp as [Hxp Hx].
  pose proof (mjoin_insert ps i x p Hi) as Hperm. apply Permutation_length in Hperm as Hlen. simpl in Hlen.
  constructor; [apply IH; [lia|by apply Forall_insert]|].
  rewrite kmerge_perm by lia. apply Forall_forall. intros y Hy.
  apply list_elem_of_join in Hy as (q & Hyq & Hq). apply list_elem_of_lookup_1 in Hq as (j & Hj).
  destruct (decide (j = i)) as [->|Hne].
  - rewrite list_lookup_insert_eq in Hj by (by eapply lookup_lt_Some). simplify_eq.
    rewrite Forall_forall in Hx. by apply Hx.
  - rewrite list_lookup_insert_ne in Hj by done. destruct q as [|z q]; [by apply not_elem_of_nil in Hyq|].
    pose proof (proj1 (Hmin j z q Hj)) as Hz. apply elem_of_cons in Hyq as [->|Hyq]; [done|].
    apply (le24_trans _ z); [done|]. pose proof (Forall_lookup_1 _ _ _ _ Hs Hj) as [_ Hzq]%StronglySorted_inv.
    rewrite Forall_forall in Hzq. by apply Hzq.
Qed.

(** The records whose key starts with the bytes [k]. *)
Definition with_prefix (k : bytes) (l : list record) : list record := filter (λ r, take 24 r.1 = k) l.

Lemma with_prefix_none k l x : take 24 x.1 = k → (∀ y, y ∈ l → cmp24 x y < 0) → with_prefix k l = [].
Proof.
  intros Hx Hl. unfold with_prefix. induction l as [|y l IH]; [done|]. rewrite filter_cons_False; [apply IH; intros z Hz; apply Hl; by right|].
  intros Hy. specialize (Hl y ltac:(by left)). unfold cmp24 in Hl. rewrite Hx, Hy, lex_refl in Hl. lia.
Qed.

(** Records with the same first 24 bytes come out in the order of the streams. *)
Lemma kmerge_stable k fuel : ∀ ps, (length (mjoin ps) <= fuel)%nat → Forall (StronglySorted le24) ps → with_prefix k (kmerge fuel ps) = with_prefix k (mjoin ps).
Proof.
  induction fuel as [|fuel IH]; intros ps Hf Hs; [destruct (mjoin ps) eqn:E; [done|simpl in Hf; lia]|]. cbn [kmerge].
  pose proof (pick_spec ps) as Hp. destruct (pick ps) as [i|]; [|by rewrite (all_empty ps Hp)].
  destruct Hp as (x & p & Hi & Hmin). rewrite Hi. pose proof (Forall_lookup_1 _ _ _ _ Hs Hi) as [Hxp _]%StronglySorted_inv.
  pose proof (Permutation_length (mjoin_insert ps i x p Hi)) as Hlen. simpl in Hlen.
  assert (Hins : <[i := p]> ps = take i ps ++ p :: drop (S i) ps) by (apply insert_take_drop; by eapply lookup_lt_Some).
  assert (Hrest : with_prefix k (kmerge fuel (<[i := p]> ps)) = with_prefix k (mjoin (take i ps)) ++ with_prefix k p ++ with_prefix k (mjoin (drop (S i) ps))).
  { rewrite IH by (lia || by apply Forall_insert). rewrite Hins, join_app. change (mjoin (p :: drop (S i) ps)) with (p ++ mjoin (drop (S i) ps)). unfold with_prefix. by rewrite !filter_app. }
  rewrite <- (take_drop_middle ps i (x :: p) Hi) at 2. rewrite join_app. change (mjoin ((x :: p) :: drop (S i) ps)) with ((x :: p) ++ mjoin (drop (S i) ps)).
  unfold with_prefix in *. rewrite !filter_app. destruct (decide (take 24 x.1 = k)) as [Hx|Hx].
  - rewrite !filter_cons_True by done. rewrite Hrest. assert (Hnone : with_prefix k (mjoin (take i ps)) = []); [|unfold with_prefix in Hnone; by rewrite Hnone].
    apply (with_prefix_none k _ x Hx). intros y (q & Hy & [j Hj]%list_elem_of_lookup)%list_elem_of_join. apply lookup_take_Some in Hj as [Hj Hji].
    destruct q as [|z q]; [by apply elem_of_nil in Hy|]. pose proof (proj2 (Hmin j z q Hj) Hji) as Hz. apply elem_of_cons in Hy as [->|Hy]; [done|].
    pose proof (Forall_lookup_1 _ _ _ _ Hs Hj) as [_ Hzq]%StronglySorted_inv. rewrite Forall_forall in Hzq. by apply (lt24_le24 _ z), Hzq.
  - rewrite !filter_cons_False by done. exact Hrest.
Qed.

(** ** The whole compaction *)

(** A channel before the first read: its buffer is allocated, nothing is loaded. *)
Definition fresh_channel (ch : Channel) (stream : list record) : Prop :=
  length (slots ch) = 1024%nat ∧ Forall slot_ok (slots ch) ∧ in_index ch = -1 ∧ iter ch = stream.

Lemma initial_reads n : ∀ i c ps o, (i + n = length ps)%nat → Forall2 ChanOk (chans c) ps → OutOk c o →
  (∀ j ch, (i <= j)%nat → chans c !! j = Some ch → in_index ch = -1) →
  let c' := foldl (λ c i, (read_channel i c).2) c (seq i n) in
  Forall2 ChanOk (chans c') ps ∧ OutOk c' o ∧ flushed c' = flushed c.
Proof.
  induction n as [|n IH]; intros i c ps o Hn HF HO Hidx; [done|]. cbn [seq foldl]. cbv zeta.
  destruct (lookup_lt_is_Some_2 ps i) as [p Hp]; [lia|].
  destruct (Forall2_lookup_r _ _ _ _ _ HF Hp) as (ch & Hch & Hok).
  destruct (readKV_position ch p Hok (or_introl (Hidx i ch (Nat.le_refl i) Hch))) as (ch' & Hr & Hok' & _).
  assert (Hc : (read_channel i c).2 = with_chans (<[i := ch']> (chans c)) c)
    by (unfold read_channel; by rewrite Hch, Hr).
  rewrite Hc. apply (IH (S i) (with_chans (<[i := ch']> (chans c)) c) ps o); [lia| |done|].
  - cbn [chans with_chans]. rewrite <- (list_insert_id ps i p Hp). by apply Forall2_insert.
  - cbn [chans with_chans]. intros j ch0 Hj Hc0. rewrite list_lookup_insert_ne in Hc0 by lia.
    apply (Hidx j); [lia|done].
Qed.

Lemma EnclCompact_spec c streams : Forall2 fresh_channel (chans c) streams →
  Forall (Forall rec_ok) streams → OutOk c [] →
  ∃ c', onec_EnclCompact (S (length (mjoin streams))) (length streams) c = Some c' ∧
    flushed c' = flushed c ++ kmerge (S (length (mjoin streams))) streams ∧ out_index c' = 0.
Proof.
  intros HF Hrec HO. unfold onec_EnclCompact.
  destruct (initial_reads (length streams) O c streams [] eq_refl) as (HF1 & HO1 & Hfl); [..|done| |].
  - apply Forall2_same_length_lookup_2; [by eapply Forall2_length|]. intros i ch st Hch Hst.
    destruct (Forall2_lookup_lr _ _ _ _ _ _ HF Hch Hst) as (H1 & H2 & H3 & H4).
    split; [done|]. split; [done|]. split; [by eapply Forall_lookup_1|]. by left.
  - intros j ch _ Hch. destruct (Forall2_lookup_l _ _ _ _ _ HF Hch) as (st & _ & (_ & _ & H & _)). done.
  - set (c1 := foldl _ c _) in *. clearbody c1. destruct streams as [|st streams].
    + eexists. split; [done|]. cbn [flushed with_out_index]. rewrite (do_flush_spec c1 [] HO1), Hfl. done.
    + destruct (merge_loop_spec (S (length (mjoin (st :: streams)))) c1 (st :: streams) [] (Z.of_nat (length (st :: streams))) HF1 HO1)
        as (c' & o' & -> & HO' & Hfl'); [simpl length; lia|lia|].
      eexists. split; [done|]. cbn [flushed with_out_index out_index]. rewrite (do_flush_spec c' o' HO'), Hfl', Hfl. done.
Qed.

(** ** Properties *)

(** [C21] The enclave's compaction is a stable merge: given up to 10 input channels, as many as the
    shared arrays have, with fresh buffers, whose records fit the fixed slots (keys of 24 to 32
    bytes, values up to 100), [onec_EnclCompact] ends, and what it hands to the host through its
    flushes is a permutation of all input records: none is lost or duplicated at the
    ends of batches of 1024, and stale bytes of reused slots never leak.  If every
    input is sorted by the first 24 key bytes, so is the output, and records that agree on
    these bytes keep the order of the channels and, within one, of its records. *)
Theorem enclave_merge_correct (c : Cookie) (streams : list (list record)) :
  (length streams <= 10)%nat → Forall2 fresh_channel (chans c) streams → Forall (Forall rec_ok) streams → OutOk c [] →
  ∃ c' out, onec_EnclCompact (S (length (mjoin streams))) (length streams) c = Some c' ∧
    flushed c' = flushed c ++ out ∧ out_index c' = 0 ∧ out ≡ₚ mjoin streams ∧
    (Forall (StronglySorted le24) streams → StronglySorted le24 out ∧ ∀ k, with_prefix k out = with_prefix k (mjoin streams)).
Proof.
  intros _ HF Hrec HO. destruct (EnclCompact_spec c streams HF Hrec HO) as (c' & Hrun & Hfl & Hi).
  exists c', (kmerge (S (length (mjoin streams))) streams). split; [done|]. split; [done|]. split; [done|].
  split; [apply kmerge_perm; lia|]. intros Hs. split; [apply kmerge_sorted; [lia|done]|]. intros k. apply kmerge_stable; [lia|done].
Qed.

(** Fresh buffers over two one-record inputs. *)
Definition empty_slot : Slot :=
  {| key_data := repeat 0 32; key_size := 0; value_data := repeat 0 100; value_size := 0 |}.
Definition fresh (st : list record) : Channel :=
  {| slots := repeat empty_slot 1024; in_index := -1; data_count := 0; iter := st |}.
Definition fresh_cookie (streams : list (list record)) : Cookie :=
  {| chans := fresh <$> streams; outs := repeat empty_slot 1024; out_index := 0; flushed := [] |}.

Lemma empty_slots_ok n : Forall slot_ok (repeat empty_slot n).
Proof. induction n; [constructor|]. simpl. constructor; [done|done]. Qed.

Lemma fresh_cookie_ok streams : Forall2 fresh_channel (chans (fresh_cookie streams)) streams ∧ OutOk (fresh_cookie streams) [].
Proof.
  split.
  - cbn [chans fresh_cookie]. induction streams as [|st streams IH]; [constructor|]. rewrite fmap_cons. constructor; [|done].
    split; [apply repeat_length|]. split; [apply empty_slots_ok|done].
  - split; [apply repeat_length|]. split; [apply empty_slots_ok|]. split; [done|]. split; [simpl; lia|]. by split.
Qed.

(** Two channels with a key in common: its records come out in the order of the channels. *)
Lemma enclave_merge_correct_witness :
  let streams := [[(repeat 7 24, [1])]; [(repeat 5 24, [2]); (repeat 7 24, [3])]] in
  ∃ c' out, onec_EnclCompact 4 2 (fresh_cookie streams) = Some c' ∧
    flushed c' = out ∧ out ≡ₚ mjoin streams ∧ StronglySorted le24 out ∧ with_prefix (repeat 7 24) out = [(repeat 7 24, [1]); (repeat 7 24, [3])].
Proof.
  set (streams := [[(repeat 7 24, [1])]; [(repeat 5 24, [2]); (repeat 7 24, [3])]]).
  destruct (enclave_merge_correct (fresh_cookie streams) streams) as (c' & out & Hrun & Hfl & _ & Hp & Hs).
  - simpl. lia.
  - apply fresh_cookie_ok.
  - repeat constructor; simpl; lia.
  - apply fresh_cookie_ok.
  - destruct Hs as [Hs Hk]; [repeat constructor; vm_compute; discriminate|]. exists c', out. split; [exact Hrun|]. split; [exact Hfl|]. split; [exact Hp|]. split; [exact Hs|].
    rewrite Hk. reflexivity.
Defined.
