(* ===== verification/Compaction.v ===== *)
(** * Dropping entries during compaction

    Model of the part of [DBImpl::SU_flush_data] ([App/integration/db_impl.cpp]) that
    decides which merged entries reach the output file: entries hidden by a newer one
    below the oldest snapshot, and deletion markers with nothing underneath.  The
    answers of [IsBaseLevelForKey] are the argument [base].  Opening, filling and
    closing the output files is not modelled. *)
From S2P Require Import Prelude Coding Comparator DbFormat MemTable EnclaveMerge.
From stdpp Require Import sorting list sets.

#[local] Open Scope Z_scope.

(** The three variables carried from key to key. *)
Record DropState := { current_user_key : bytes; has_current_user_key : bool; last_sequence_for_key : Z }.

(** [g_current_user_key], [g_has_current_user_key], [g_last_sequence_for_key]. *)
Definition DropState_init : DropState :=
  {| current_user_key := []; has_current_user_key := false; last_sequence_for_key := kMaxSequenceNumber |}.

(** One call: whether the entry is dropped, and the variables after. *)
Definition drop_step (user : Comparator) (base : bytes → bool) (smallest_snapshot : Z)
    (st : DropState) (key : bytes) : bool * DropState :=
  match ParseInternalKey key with
  | None =>
      (false, {| current_user_key := []; has_current_user_key := false;
                 last_sequence_for_key := kMaxSequenceNumber |})
  | Some ikey =>
      let st :=
        if negb (has_current_user_key st) ||
           negb (Compare user (user_key ikey) (current_user_key st) =? 0)
        then {| current_user_key := user_key ikey; has_current_user_key := true;
                last_sequence_for_key := kMaxSequenceNumber |}
        else st in
      let drop :=
        if last_sequence_for_key st <=? smallest_snapshot then true
        else bool_decide (type ikey = kTypeDeletion) && (sequence ikey <=? smallest_snapshot) &&
             base (user_key ikey) in
      (drop, {| current_user_key := current_user_key st;
                has_current_user_key := has_current_user_key st;
                last_sequence_for_key := sequence ikey |})
  end.

(** The entries of a merged sequence that are written out. *)
Fixpoint drop_filter (user : Comparator) (base : bytes → bool) (smallest_snapshot : Z)
    (st : DropState) (l : list (bytes * bytes)) : list (bytes * bytes) :=
  match l with
  | [] => []
  | kv :: l' =>
      let '(drop, st) := drop_step user base smallest_snapshot st kv.1 in
      let rest := drop_filter user base smallest_snapshot st l' in
      if drop then rest else kv :: rest
  end.

(** ** Reads *)

Definition entry_kv (e : Entry) : bytes * bytes := (entry_ikey e, e_value e).

(** The entry a read of [u] at snapshot [s] finds in a sequence sorted newest first. *)
Definition visible (u : bytes) (s : Z) (l : list Entry) : option Entry :=
  List.find (λ e, bool_decide (e_key e = u) && (e_seq e <=? s)) l.

(** What the read returns: no value for a deletion. *)
Definition value_of (o : option Entry) : option bytes :=
  o ≫= λ e, match e_type e with kTypeValue => Some (e_value e) | kTypeDeletion => None end.

Section Filter.
Context {valid : bytes → Prop} {user : Comparator} `{!ComparatorOk valid user}.
Context (base : bytes → bool) (smallest : Z).

(** The order of a merged sequence: by user key, then newest first. *)
Definition entry_lt (a b : Entry) : Prop :=
  Compare user (e_key a) (e_key b) < 0 ∨ (e_key a = e_key b ∧ e_seq b < e_seq a).

Definition seq_entry_ok (e : Entry) : Prop := 0 <= e_seq e <= kMaxSequenceNumber ∧ valid (e_key e).

(** The step on an entry rather than on its encoding. *)
Definition drop_entry (st : DropState) (e : Entry) : bool * DropState :=
  let in_run := has_current_user_key st && bool_decide (current_user_key st = e_key e) in
  let last := if in_run then last_sequence_for_key st else kMaxSequenceNumber in
  ((last <=? smallest) ||
   (bool_decide (e_type e = kTypeDeletion) && (e_seq e <=? smallest) && base (e_key e)),
   {| current_user_key := e_key e; has_current_user_key := true; last_sequence_for_key := e_seq e |}).

Fixpoint keep (st : DropState) (l : list Entry) : list Entry :=
  match l with
  | [] => []
  | e :: l' =>
      let '(drop, st) := drop_entry st e in if drop then keep st l' else e :: keep st l'
  end.

Definition state_ok (st : DropState) : Prop := has_current_user_key st = true → valid (current_user_key st).

Lemma drop_step_entry st e : state_ok st → seq_entry_ok e →
  drop_step user base smallest st (entry_ikey e) = drop_entry st e.
Proof using All.
  intros Hst [Hs Hv]. unfold drop_step, drop_entry, entry_ikey.
  assert (ParseInternalKey (InternalKey (e_key e) (e_seq e) (e_type e)) =
    Some {| user_key := e_key e; sequence := e_seq e; type := e_type e |}) as ->.
  { by apply (ParseInternalKey_Append {| user_key := e_key e; sequence := e_seq e; type := e_type e |}). }
  cbn [user_key sequence type]. destruct (has_current_user_key st) eqn:Eh; cbn [negb orb andb].
  - assert (Heq : negb (Compare user (e_key e) (current_user_key st) =? 0) =
      negb (bool_decide (current_user_key st = e_key e))).
    { f_equal. apply eq_true_iff_eq. rewrite Z.eqb_eq, bool_decide_eq_true. split.
      - intros Hc. symmetry. apply (Compare_eq (valid:=valid) (c:=user)); auto.
      - intros ->. by apply (Compare_refl (valid:=valid)). }
    rewrite Heq. destruct (decide (current_user_key st = e_key e)) as [E|E].
    + rewrite !bool_decide_eq_true_2 by done. cbn [negb]. rewrite Eh, E. by destruct (_ <=? _).
    + rewrite !bool_decide_eq_false_2 by done. cbn [negb current_user_key has_current_user_key last_sequence_for_key].
      by destruct (_ <=? _).
  - cbn [current_user_key has_current_user_key last_sequence_for_key]. by destruct (_ <=? _).
Qed.

Lemma drop_filter_keep l : ∀ st, state_ok st → Forall seq_entry_ok l →
  drop_filter user base smallest st (entry_kv <$> l) = entry_kv <$> keep st l.
Proof using All.
  induction l as [|e l IH]; intros st Hst Hl; [done|]. apply Forall_cons_iff in Hl as [He Hl].
  rewrite fmap_cons. cbn [drop_filter keep]. change (entry_kv e).1 with (entry_ikey e).
  rewrite drop_step_entry by done. destruct (drop_entry st e) as [d st'] eqn:E.
  assert (Hst' : state_ok st') by (unfold drop_entry in E; simplify_eq; intros _; apply He).
  destruct d; rewrite IH by done; done.
Qed.

Lemma keep_sublist l : ∀ st e, e ∈ keep st l → e ∈ l.
Proof.
  induction l as [|x l IH]; intros st e; [done|]. cbn [keep]. destruct (drop_entry st x) as [[] st'].
  - intros H. right. by eapply IH.
  - intros [->|H]%elem_of_cons; [left|right; by eapply IH].
Qed.

Lemma keep_sub l : ∀ st, keep st l `sublist_of` l.
Proof using Type.
  induction l as [|e l IH]; intros st; cbn [keep]; [constructor|]. destruct (drop_entry st e) as [[] st']; constructor; apply IH.
Qed.

Lemma visible_none u s l : (∀ e, e ∈ l → e_key e ≠ u) → visible u s l = None.
Proof.
  induction l as [|e l IH]; intros H; [done|]. unfold visible. cbn [List.find].
  rewrite bool_decide_eq_false_2 by (apply H; left). cbn [andb]. apply IH. intros e' He'. apply H. by right.
Qed.

(** Once a newer key has come, the old one does not come back. *)
Lemma sorted_no_return u e l : StronglySorted entry_lt (e :: l) → Forall seq_entry_ok (e :: l) → valid u →
  Compare user u (e_key e) < 0 → ∀ e', e' ∈ e :: l → e_key e' ≠ u.
Proof using All.
  intros [_ Hs]%StronglySorted_inv [He Hl]%Forall_cons_iff Vu Hlt e' [->|He']%elem_of_cons Heq.
  - rewrite Heq, (Compare_refl (valid:=valid)) in Hlt by done. lia.
  - rewrite Forall_forall in Hs, Hl. destruct (Hs e' He') as [H|[H _]].
    + rewrite Heq in H. pose proof (Compare_trans (valid:=valid) (c:=user) u (e_key e) u Vu (proj2 He) Vu Hlt H) as H'.
      rewrite (Compare_refl (valid:=valid)) in H' by done. lia.
    + rewrite H, Heq, (Compare_refl (valid:=valid)) in Hlt by done. lia.
Qed.

(** After an entry at or below the oldest snapshot, the rest of its run is dropped. *)
Lemma keep_hidden u l : ∀ st, valid u → StronglySorted entry_lt l → Forall seq_entry_ok l →
  has_current_user_key st = true → current_user_key st = u → last_sequence_for_key st <= smallest →
  (∀ e, e ∈ l → Compare user u (e_key e) < 0 ∨ (e_key e = u ∧ e_seq e < last_sequence_for_key st)) →
  ∀ e, e ∈ keep st l → e_key e ≠ u.
Proof using All.
  induction l as [|x l IH]; intros st Vu Hs Hok Hh Hc Hlast Hrun e He; [by apply not_elem_of_nil in He|].
  destruct (Hrun x (list_elem_of_here _ _)) as [Hlt|[Hx Hseq]].
  { apply (sorted_no_return u x l Hs Hok Vu Hlt e). by eapply keep_sublist. }
  pose proof Hs as [Hs' Hx']%StronglySorted_inv. pose proof Hok as [Hox Hok']%Forall_cons_iff.
  cbn [keep] in He. unfold drop_entry in He. rewrite Hh, Hc, Hx, bool_decide_eq_true_2 in He by done. cbn [andb] in He.
  rewrite (proj2 (Z.leb_le _ _) Hlast) in He. cbn [orb] in He.
  revert e He. apply IH; try done; cbn [last_sequence_for_key]; [lia|].
  intros e He. rewrite Forall_forall in Hx'. destruct (Hx' e He) as [H|[H1 H2]].
  - left. by rewrite <- Hx.
  - right. split; [congruence|done].
Qed.

(** A read finds the same entry, or nothing where it found an obsolete deletion. *)
Lemma keep_reads u s l : ∀ st, valid u → smallest < kMaxSequenceNumber → smallest <= s →
  StronglySorted entry_lt l → Forall seq_entry_ok l →
  (has_current_user_key st = true → current_user_key st = u → smallest < last_sequence_for_key st) →
  visible u s (keep st l) = visible u s l ∨
  (base u = true ∧ visible u s (keep st l) = None ∧ value_of (visible u s l) = None).
Proof using All.
  induction l as [|e l IH]; intros st Vu Hmax Hsn Hs Hok Hst; [by left|].
  pose proof Hs as [Hs' He]%StronglySorted_inv. pose proof Hok as [Hoe Hok']%Forall_cons_iff.
  cbn [keep]. unfold drop_entry. destruct (decide (e_key e = u)) as [Hu|Hu].
  - set (last := if has_current_user_key st && bool_decide (current_user_key st = e_key e)
      then last_sequence_for_key st else kMaxSequenceNumber).
    assert (Hlast : smallest < last).
    { unfold last. destruct (has_current_user_key st) eqn:Eh; cbn [andb]; [|done].
      case_bool_decide as Ec; [|done]. apply Hst; congruence. }
    rewrite (proj2 (Z.leb_gt _ _) Hlast). cbn [orb]. rewrite Hu.
    assert (Hvis : visible u s (e :: l) = if e_seq e <=? s then Some e else visible u s l).
    { unfold visible. cbn [List.find]. rewrite bool_decide_eq_true_2 by done. done. }
    rewrite Hvis. set (st' := {| current_user_key := u; has_current_user_key := true; last_sequence_for_key := e_seq e |}).
    destruct (bool_decide (e_type e = kTypeDeletion) && (e_seq e <=? smallest) && base u) eqn:Ed.
    + apply andb_true_iff in Ed as [[Et%bool_decide_eq_true Es%Z.leb_le]%andb_true_iff Eb].
      rewrite (proj2 (Z.leb_le (e_seq e) s)) by lia.
      rewrite (visible_none u s (keep st' l)).
      * right. split_and!; [done|done|]. simpl. by rewrite Et.
      * apply (keep_hidden u l st'); try done. rewrite Forall_forall in He.
        intros e' He'. destruct (He e' He') as [H|[H1 H2]]; [left; by rewrite <- Hu|right; split; [congruence|done]].
    + assert (Hvis' : visible u s (e :: keep st' l) = if e_seq e <=? s then Some e else visible u s (keep st' l)).
      { unfold visible. cbn [List.find]. rewrite bool_decide_eq_true_2 by done. done. }
      rewrite Hvis'. destruct (Z.leb_spec (e_seq e) s) as [Hle|Hgt]; [by left|].
      apply IH; try done. intros _ _. unfold st'. cbn [last_sequence_for_key]. lia.
  - assert (Hvis : ∀ l', visible u s (e :: l') = visible u s l').
    { intros l'. unfold visible. cbn [List.find]. by rewrite bool_decide_eq_false_2 by done. }
    rewrite Hvis. destruct (_ || _); [|rewrite Hvis]; apply IH; try done; cbn [current_user_key]; congruence.
Qed.
(** What is kept, told entry by entry: [e] is hidden when a newer entry of its key is not above
    [smallest], and a deletion is obsolete when no snapshot and no deeper level needs it. *)
Definition hidden (l : list Entry) (e : Entry) : Prop := ∃ e', e' ∈ l ∧ e_key e' = e_key e ∧ e_seq e < e_seq e' <= smallest.
Definition obsolete (e : Entry) : Prop := e_type e = kTypeDeletion ∧ e_seq e <= smallest ∧ base (e_key e) = true.

(** The variables stand before the first entry of [l]. *)
Definition state_before (st : DropState) (l : list Entry) : Prop :=
  has_current_user_key st = true → valid (current_user_key st) ∧
  ∀ e, e ∈ l → Compare user (current_user_key st) (e_key e) < 0 ∨ (e_key e = current_user_key st ∧ e_seq e < last_sequence_for_key st).
Definition state_hides (st : DropState) (e : Entry) : Prop :=
  has_current_user_key st = true ∧ current_user_key st = e_key e ∧ last_sequence_for_key st <= smallest.

Lemma entry_lt_newer a b : seq_entry_ok b → entry_lt a b → e_key a = e_key b → e_seq b < e_seq a.
Proof using All.
  intros [_ Vb] [Hlt|[_ H]] Hk; [|done]. rewrite Hk, (Compare_refl (valid:=valid)) in Hlt by done. lia.
Qed.

Lemma state_hides_next st x e l : state_before st (x :: l) → Forall seq_entry_ok (x :: l) → Forall (entry_lt x) l → e ∈ l → state_hides st e →
  e_key x = e_key e ∧ e_seq x <= smallest.
Proof using All.
  intros Hb Hok Hx He (Hh & Hc & Hl). destruct (Hb Hh) as [Vc Hb']. rewrite Forall_forall in Hok, Hx.
  destruct (Hb' x (list_elem_of_here _ _)) as [Hlt|[Hk Hs]]; [|split; [congruence|lia]]. exfalso.
  destruct (Hok x (list_elem_of_here _ _)) as [_ Vx]. destruct (Hx e He) as [H|[H _]].
  - rewrite <- Hc in H. pose proof (Compare_trans (valid:=valid) (c:=user) _ _ _ Vc Vx Vc Hlt H) as H'. rewrite (Compare_refl (valid:=valid)) in H' by done. lia.
  - rewrite H, <- Hc, (Compare_refl (valid:=valid)) in Hlt by done. lia.
Qed.

Lemma drop_entry_spec st e : smallest < kMaxSequenceNumber → (drop_entry st e).1 = true ↔ state_hides st e ∨ obsolete e.
Proof using Type.
  intros Hmax. unfold drop_entry, state_hides, obsolete. cbn [fst]. rewrite orb_true_iff, !andb_true_iff, bool_decide_eq_true, !Z.leb_le.
  destruct (has_current_user_key st); cbn [andb]; [case_bool_decide|]; naive_solver lia.
Qed.

Lemma keep_spec l : ∀ st e, smallest < kMaxSequenceNumber → StronglySorted entry_lt l → Forall seq_entry_ok l → state_before st l →
  e ∈ keep st l ↔ e ∈ l ∧ ¬ (state_hides st e ∨ hidden l e) ∧ ¬ obsolete e.
Proof using All.
  induction l as [|x l IH]; intros st e Hmax Hs Hok Hb; [cbn [keep]; rewrite elem_of_nil; tauto|].
  pose proof Hs as [Hs' Hx]%StronglySorted_inv. pose proof Hok as [Hox Hok']%Forall_cons_iff. pose proof (drop_entry_spec st x Hmax) as Hd.
  cbn [keep]. destruct (drop_entry st x) as [dr st'] eqn:Ed. cbn [fst] in Hd.
  assert (Est : st' = {| current_user_key := e_key x; has_current_user_key := true; last_sequence_for_key := e_seq x |}) by (unfold drop_entry in Ed; by injection Ed as _ <-).
  assert (Hb' : state_before st' l).
  { subst st'. intros _. cbn [current_user_key last_sequence_for_key]. split; [apply Hox|]. intros y Hy. rewrite Forall_forall in Hx. destruct (Hx y Hy) as [?|[? ?]]; [by left|by right]. }
  assert (Hnew : ∀ y, y ∈ l → e_key x = e_key y → e_seq y < e_seq x).
  { intros y Hy. rewrite Forall_forall in Hx, Hok'. apply entry_lt_newer; auto. }
  assert (Hself : x ∉ l) by (intros Hin; specialize (Hnew x Hin eq_refl); lia).
  assert (Hrest : e ∈ l → (e ∈ keep st' l ↔ ¬ (state_hides st e ∨ hidden (x :: l) e) ∧ ¬ obsolete e)).
  { intros He. rewrite (IH st' e Hmax Hs' Hok' Hb'). assert (Heq : state_hides st' e ∨ hidden l e ↔ state_hides st e ∨ hidden (x :: l) e); [|tauto].
    subst st'. unfold hidden, state_hides at 1. cbn [current_user_key has_current_user_key last_sequence_for_key]. split.
    - intros [(_ & Hk & Hle)|(y & Hy & Hk & Hq)]; right; [exists x|exists y; split; [by right|done]]. split; [by left|]. split; [done|]. split; [by apply Hnew|done].
    - intros [Hh|(y & [->|Hy]%elem_of_cons & Hk & Hq)].
      + left. split; [done|]. by apply (state_hides_next st x e l).
      + left. split; [done|]. split; [done|lia].
      + right. by exists y. }
  assert (Hfirst : e = x → (dr = false ↔ ¬ (state_hides st e ∨ hidden (x :: l) e) ∧ ¬ obsolete e)).
  { intros ->. rewrite <- not_true_iff_false, Hd. assert (¬ hidden (x :: l) x); [|tauto].
    intros (y & [->|Hy]%elem_of_cons & Hk & Hq); [lia|]. specialize (Hnew y Hy ltac:(done)). lia. }
  rewrite elem_of_cons. destruct dr; [|rewrite elem_of_cons]; split.
  - intros He. assert (Hl : e ∈ l) by (by eapply keep_sublist). split; [by right|]. by apply Hrest.
  - intros [[->|Hl] Hn]; [by apply Hfirst in Hn|by apply Hrest].
  - intros [->|He]; [split; [by left|]; by apply Hfirst|]. assert (Hl : e ∈ l) by (by eapply keep_sublist). split; [by right|]. by apply Hrest.
  - intros [[->|Hl] Hn]; [by left|right; by apply Hrest].
Qed.
End Filter.

(** ** Properties *)

(** Compaction keeps every read that can still happen: on a sequence sorted as the
    internal key comparator sorts it, the entries written out answer every read at a
    snapshot not older than [smallest_snapshot] with the same value or the same
    absence as the input.  For a user key with data in deeper levels, the read even
    finds the very same entry, deletion markers included, so it still hides what is
    below. *)
Theorem compaction_preserves_reads (valid : bytes → Prop) (user : Comparator) (base : bytes → bool)
    (smallest_snapshot : Z) (l : list Entry) :
  ComparatorOk valid user → smallest_snapshot < kMaxSequenceNumber →
  StronglySorted (entry_lt (user:=user)) l → Forall (seq_entry_ok (valid:=valid)) l →
  ∃ kept, drop_filter user base smallest_snapshot DropState_init (entry_kv <$> l) = entry_kv <$> kept ∧
    ∀ u s, valid u → smallest_snapshot <= s →
      (base u = false → visible u s kept = visible u s l) ∧
      value_of (visible u s kept) = value_of (visible u s l).
Proof.
  intros HC Hmax Hs Hok. exists (keep base smallest_snapshot DropState_init l).
  split; [by apply drop_filter_keep|]. intros u s Vu Hsn.
  destruct (keep_reads (valid:=valid) (user:=user) base smallest_snapshot u s l DropState_init) as [->|(-> & -> & ->)]; done.
Qed.

Definition entry_of (k : bytes) (q : Z) (t : ValueType) (v : bytes) : Entry :=
  {| e_seq := q; e_type := t; e_key := k; e_value := v |}.

Lemma compaction_preserves_reads_witness :
  ∃ kept, drop_filter BytewiseComparator (λ _, false) 6 DropState_init
      (entry_kv <$> [entry_of [97] 9 kTypeValue [1]; entry_of [97] 5 kTypeValue [2]; entry_of [97] 3 kTypeValue [3]])
    = entry_kv <$> kept ∧ visible [97] 7 kept = Some (entry_of [97] 5 kTypeValue [2]).
Proof.
  destruct (compaction_preserves_reads bytes_ok BytewiseComparator (λ _, false) 6
    [entry_of [97] 9 kTypeValue [1]; entry_of [97] 5 kTypeValue [2]; entry_of [97] 3 kTypeValue [3]])
    as (kept & H1 & H2).
  - apply BytewiseComparator_ok.
  - reflexivity.
  - repeat constructor; simpl; lia.
  - repeat constructor; vm_compute; congruence.
  - exists kept. split; [exact H1|]. destruct (H2 [97] 7) as [H3 _]; [by_compute|lia|]. rewrite H3 by done. reflexivity.
Defined.

(** The eight bytes of a tag with a small sequence number. *)
Lemma tag_bytes s : 0 <= s < 256 →
  EncodeFixed64 (PackSequenceAndType s kTypeValue) = [1; s; 0; 0; 0; 0; 0; 0].
Proof.
  intros Hs. rewrite Pack_sum by (unfold kMaxSequenceNumber; rewrite Z.shiftl_1_l; lia).
  unfold EncodeFixed64. cbn [le_bytes ValueType_code]. rewrite !Z.shiftr_shiftr, !Z.shiftr_div_pow2 by lia. unfold u8.
  repeat (f_equal; [dlia|]). f_equal. dlia.
Qed.

(** [C39] The enclave's merge does not sort as the database does.  The 24 bytes it compares
    end in the little-endian tag, so of two versions of a 16-byte user key (sequence
    numbers below 256) it emits the older first, although the internal key comparator
    puts the newer first; and the dropping rule, which trusts that order, then throws
    the newer version away: after the compaction a read returns the stale value. *)
Theorem enclave_merge_emits_stale (u v v' : bytes) (s s' : Z) (base : bytes → bool) :
  length u = 16%nat → bytes_ok u → 0 <= s < s' → s' < 256 → (length v <= 100)%nat → (length v' <= 100)%nat →
  let older := entry_of u s kTypeValue v in
  let newer := entry_of u s' kTypeValue v' in
  InternalKeyComparator_Compare BytewiseComparator (entry_ikey newer) (entry_ikey older) < 0 ∧
  ∃ c, onec_EnclCompact 3 2 (fresh_cookie [[entry_kv newer]; [entry_kv older]]) = Some c ∧
    flushed c = [entry_kv older; entry_kv newer] ∧
    drop_filter BytewiseComparator base s' DropState_init (flushed c) = [entry_kv older].
Proof.
  intros Hu Hok Hs Hs' Hv Hv' older newer.
  assert (Hmax : ∀ q, 0 <= q < 256 → 0 <= q <= kMaxSequenceNumber)
    by (intros q Hq; unfold kMaxSequenceNumber; rewrite Z.shiftl_1_l; lia).
  assert (Hord : InternalKeyComparator_Compare BytewiseComparator (entry_ikey newer) (entry_ikey older) < 0).
  { apply (icmp_same_user (valid:=bytes_ok)); try done; try apply Hmax; cbn; lia. }
  split; [done|].
  assert (Hkey : ∀ q x, 0 <= q < 256 → (entry_kv (entry_of u q kTypeValue x)).1 = u ++ [1; q; 0; 0; 0; 0; 0; 0]).
  { intros q x Hq. unfold entry_kv, entry_ikey; cbn [fst e_key e_seq e_type entry_of].
    by rewrite InternalKey_unfold, tag_bytes. }
  assert (Hrec : ∀ q x, 0 <= q < 256 → (length x <= 100)%nat → rec_ok (entry_kv (entry_of u q kTypeValue x))).
  { intros q x Hq Hx. split; [|done]. rewrite Hkey, length_app by done. simpl. lia. }
  destruct (fresh_cookie_ok [[entry_kv newer]; [entry_kv older]]) as [HF HO].
  destruct (EnclCompact_spec (fresh_cookie [[entry_kv newer]; [entry_kv older]]) [[entry_kv newer]; [entry_kv older]])
    as (c & Hrun & Hfl & _); [done| |done|].
  { constructor; [|constructor; [|constructor]]; (constructor; [|constructor]); apply Hrec; (done || lia). }
  assert (Hcmp : cmp24 (entry_kv older) (entry_kv newer) = -1).
  { unfold cmp24, older, newer. rewrite !Hkey by lia.
    rewrite !take_ge by (rewrite length_app, Hu; simpl; lia). rewrite lex_app_l. simpl.
    rewrite (proj2 (Z.ltb_lt s s')) by lia. done. }
  assert (Hk : kmerge 3 [[entry_kv newer]; [entry_kv older]] = [entry_kv older; entry_kv newer]).
  { cbn [kmerge]. unfold pick. cbn [length seq foldl pick_step lookup list_lookup]. rewrite Hcmp. reflexivity. }
  exists c. cbn [length mjoin list_join app] in Hrun, Hfl. split; [done|].
  assert (Hout : flushed c = [entry_kv older; entry_kv newer]) by (rewrite Hfl; exact Hk).
  split; [done|]. rewrite Hout.
  change [entry_kv older; entry_kv newer] with (entry_kv <$> [older; newer]).
  rewrite (drop_filter_keep (valid:=bytes_ok)).
  - unfold keep, drop_entry, older, newer. cbn [has_current_user_key current_user_key last_sequence_for_key DropState_init e_key e_seq e_type entry_of andb].
    rewrite (proj2 (Z.leb_gt kMaxSequenceNumber s')) by (unfold kMaxSequenceNumber; rewrite Z.shiftl_1_l; lia).
    rewrite !bool_decide_eq_false_2 by done. cbn [andb orb]. rewrite bool_decide_eq_true_2 by done.
    rewrite (proj2 (Z.leb_le s s')) by lia. done.
  - done.
  - constructor; [|constructor; [|constructor]]; (split; [apply Hmax; cbn; lia|done]).
Qed.

Lemma enclave_merge_emits_stale_witness :
  ∃ c, onec_EnclCompact 3 2 (fresh_cookie [[entry_kv (entry_of (repeat 97 16) 2 kTypeValue [20])];
                                           [entry_kv (entry_of (repeat 97 16) 1 kTypeValue [10])]]) = Some c ∧
    drop_filter BytewiseComparator (λ _, true) 2 DropState_init (flushed c)
    = [entry_kv (entry_of (repeat 97 16) 1 kTypeValue [10])].
Proof.
  destruct (enclave_merge_emits_stale (repeat 97 16) [10] [20] 1 2 (λ _, true)) as (_ & c & H1 & _ & H2).
  - reflexivity.
  - by_compute.
  - lia.
  - lia.
  - simpl; lia.
  - simpl; lia.
  - exists c. split; [exact H1|exact H2].
Defined.
