(* ===== verification/FrontWriter.v ===== *)
(** * Merkle trees and verification in the enclave

    Model of [Enclave/front_writer.cpp], and of the Merkle insertion that
    [Enclave/merge_sort_eextrac.cpp] repeats with the Keccak hash. The array of a
    hundred subtree pointers is a list of optional digests; [malloc] is assumed to
    succeed.  The hash chain passed by the host is a list of digests. *)
From S2P Require Import Prelude Coding Comparator Sha1 Sha3.
From stdpp Require Import list.

#[local] Open Scope Z_scope.
#[local] Open Scope word_scope.

Definition DIGEST_SIZE : nat := 20.
Definition KEY_SIZE : nat := 16.
Definition SEQ_SIZE : nat := 8.

(** ** Inserting a leaf *)

(** The loop over the levels: a free level takes the carry, an occupied one is merged
    with it and freed. *)
Fixpoint mht_insert (hash : bytes → bytes) (carry : bytes) (tree : list (option bytes)) :
    list (option bytes) :=
  match tree with
  | [] => []
  | None :: tree' => Some carry :: tree'
  | Some digest :: tree' =>
      None :: mht_insert hash (hash (take DIGEST_SIZE digest ++ take DIGEST_SIZE carry)) tree'
  end.

Definition build_merkle (tree : list (option bytes)) (message : bytes) : list (option bytes) :=
  mht_insert sha1 (sha1 message) tree.

(** [sha3_update] and [sha3_final] on the state the last [sha3_final] left. *)
Definition sha3_20 (message : bytes) : bytes :=
  match sha3_update sha3_restart message with
  | Some s => (sha3_final s DIGEST_SIZE).1
  | None => []
  end.

(** [insert] of [merge_sort_eextrac.cpp]. *)
Definition eextrac_insert (tree : list (option bytes)) (message : bytes) : list (option bytes) :=
  mht_insert sha3_20 (sha3_20 message) tree.

(** ** Verification *)

(** The global buffers. *)
Record Front := { buf : bytes; ret : bytes }.

Definition enclave_verify_file (merkle_height : nat) (st : Front) : Front :=
  Nat.iter merkle_height (λ st, {| buf := buf st; ret := sha1 (take (KEY_SIZE + SEQ_SIZE) (buf st)) |}) st.

(** [while (tmp >>= 1) { ++merkle_height; }], for a 32-bit [tmp]. *)
Fixpoint height_loop (fuel : nat) (tmp : Z) (merkle_height : nat) : nat :=
  match fuel with
  | O => merkle_height
  | S fuel' =>
      let tmp := tmp .>> 1 in
      if tmp =? 0 then merkle_height else height_loop fuel' tmp (S merkle_height)
  end.
Definition merkle_height (tmp : Z) : nat := S (height_loop 32 tmp 0).

Definition add_chain (st : Front) : Front := enclave_verify_file (2 * merkle_height 7000) st.
Definition enclave_writer (st : Front) : Front := add_chain st.

Definition enclave_verify (chain : list bytes) (key : bytes) (key_size seqno ismem : Z) (st : Front) : Front :=
  if ismem =? 1 then enclave_verify_file (merkle_height 7000) st
  else if ismem =? 2 then enclave_verify_file (merkle_height 7000) st
  else enclave_verify_file (merkle_height 7000) st.

Definition enclave_verify_sim (st : Front) : Front := enclave_verify_file (merkle_height 700) st.

(** The three copies all go to the front of [buf]; [status] is compared and not used. *)
Definition traverse_step (chain : list bytes) (start : nat) (prev key : bytes) (seq : Z) (st : Front) : Z * Front :=
  let b := overwrite 0 (take 20 prev) (buf st) in
  let b := overwrite 0 (take 16 key) b in
  let b := overwrite 0 (EncodeFixed64 seq) b in
  let r := sha3_20 (take (KEY_SIZE + SEQ_SIZE) b) in
  let status := memcmp r (nth start chain []) 20 in
  (status, {| buf := b; ret := r |}).

Definition timeTraverse (chain : list bytes) (start end_ : nat) (prev key : bytes) (seq : Z) (st : Front) : Z * Front :=
  (1, foldl (λ st i, (traverse_step chain start prev key seq st).2) st (List.seq start (end_ - start))).

(** ** The frontier of a Merkle tree *)

(** One level up: neighbours hashed together, an odd last one left out. *)
Fixpoint pair_up (hash : bytes → bytes) (cs : list bytes) : list bytes :=
  match cs with
  | a :: b :: cs' => hash (take DIGEST_SIZE a ++ take DIGEST_SIZE b) :: pair_up hash cs'
  | _ => []
  end.

(** Level by level, the last digest when their number is odd. *)
Fixpoint frontier (hash : bytes → bytes) (n : nat) (cs : list bytes) : list (option bytes) :=
  match n with
  | O => []
  | S n' => (if Nat.odd (length cs) then last cs else None) :: frontier hash n' (pair_up hash cs)
  end.

Section Frontier.
Context (hash : bytes → bytes).

Lemma pair_ind (P : list bytes → Prop) :
  P [] → (∀ a, P [a]) → (∀ a b cs, P cs → P (a :: b :: cs)) → ∀ cs, P cs.
Proof.
  intros H0 H1 H2. assert (H : ∀ n cs, (length cs <= n)%nat → P cs).
  { induction n as [|n IH]; intros [|a [|b cs]] Hl; simpl in Hl; try done; try lia; auto.
    apply H2, IH. lia. }
  intros cs. by apply (H (length cs)).
Qed.

Lemma pair_up_even cs l c : Nat.even (length cs) = true →
  pair_up hash (cs ++ [l]) = pair_up hash cs ∧
  pair_up hash (cs ++ [l; c]) = pair_up hash cs ++ [hash (take DIGEST_SIZE l ++ take DIGEST_SIZE c)].
Proof.
  induction cs as [|a|a b cs IH] using pair_ind; intros He; [done|done|].
  destruct (IH He) as [H1 H2]. simpl. by rewrite H1, H2.
Qed.

Lemma pair_up_length cs : length (pair_up hash cs) = (length cs / 2)%nat.
Proof.
  induction cs as [|a|a b cs IH] using pair_ind; [done|done|]. cbn [pair_up length]. rewrite IH.
  replace (S (S (length cs))) with (length cs + 1 * 2)%nat by lia. rewrite Nat.div_add by lia. lia.
Qed.

(** Inserting a leaf extends the frontier: the binary counter. *)
Lemma mht_insert_frontier n : ∀ cs c, mht_insert hash c (frontier hash n cs) = frontier hash n (cs ++ [c]).
Proof.
  induction n as [|n IH]; intros cs c; [done|]. cbn [frontier].
  destruct cs as [|l cs' _] using rev_ind; [by cbn|].
  rewrite !length_app. cbn [length]. rewrite Nat.add_1_r, Nat.odd_succ, last_snoc.
  rewrite Nat.add_1_r, Nat.odd_succ, Nat.even_succ, last_snoc, <- Nat.negb_even.
  destruct (Nat.even (length cs')) eqn:E; cbn [mht_insert negb].
  - destruct (pair_up_even cs' l c E) as [-> H2]. rewrite <- app_assoc. cbn [app]. rewrite H2. f_equal. apply IH.
  - f_equal. f_equal. symmetry. refine (proj1 (pair_up_even (cs' ++ [l]) c c _)).
    rewrite length_app. cbn [length]. by rewrite Nat.add_1_r, Nat.even_succ, <- Nat.negb_even, E.
Qed.

Lemma frontier_lookup n : ∀ cs i, (i < n)%nat →
  frontier hash n cs !! i = Some (if Nat.testbit (length cs) i then last (Nat.iter i (pair_up hash) cs) else None).
Proof.
  induction n as [|n IH]; intros cs i Hi; [lia|]. destruct i as [|i]; cbn [frontier].
  - by rewrite Nat.bit0_odd.
  - cbn [lookup list_lookup]. rewrite IH, pair_up_length by lia. rewrite Nat.iter_succ_r.
    by rewrite <- Nat.testbit_div2, Nat.div2_div.
Qed.

Lemma frontier_empty n : frontier hash n [] = repeat None n.
Proof. induction n as [|n IH]; [done|]. cbn. by rewrite IH. Qed.

Lemma inserts_frontier n ms : ∀ cs, foldl (λ t m, mht_insert hash (hash m) t) (frontier hash n cs) ms =
  frontier hash n (cs ++ (hash <$> ms)).
Proof.
  induction ms as [|m ms IH]; intros cs; [by rewrite app_nil_r|]. cbn [foldl].
  rewrite mht_insert_frontier, IH, <- app_assoc. done.
Qed.
End Frontier.

Lemma height_loop_spec f : ∀ tmp h, 0 <= tmp < 2 ^ Z.of_nat f → height_loop f tmp h = (h + Z.to_nat (Z.log2 tmp))%nat.
Proof.
  induction f as [|f IH]; intros tmp h Ht.
  - assert (tmp = 0) as -> by (change (2 ^ Z.of_nat 0) with 1 in Ht; lia). simpl. lia.
  - cbn [height_loop]. cbv zeta. assert (Hlog : Z.log2 (tmp .>> 1) = Z.max 0 (Z.log2 tmp - 1)) 
      by (destruct (decide (tmp = 0)) as [->|]; [done|]; apply Z.log2_shiftr; lia).
    rewrite Nat2Z.inj_succ, Z.pow_succ_r in Ht by lia.
    rewrite Z.shiftr_div_pow2 in * by lia. change (2 ^ 1) with 2 in *.
    destruct (Z.eqb_spec (tmp / 2) 0) as [E|E].
    + assert (tmp = 0 ∨ tmp = 1) as [-> | ->] by dlia; simpl; lia.
    + rewrite IH by dlia. assert (1 <= Z.log2 tmp) by (apply (Z.log2_le_mono 2); dlia). lia.
Qed.

Lemma enclave_verify_file_spec n st : (0 < n)%nat →
  enclave_verify_file n st = {| buf := buf st; ret := sha1 (take (KEY_SIZE + SEQ_SIZE) (buf st)) |}.
Proof.
  intros Hn. destruct n as [|n]; [lia|]. unfold enclave_verify_file. cbn [Nat.iter]. clear Hn.
  assert (H : buf (Nat.iter n (λ st, {| buf := buf st; ret := sha1 (take (KEY_SIZE + SEQ_SIZE) (buf st)) |}) st) = buf st)
    by (induction n as [|n IH]; [done|exact IH]).
  rewrite Nat.iter_succ. by rewrite H.
Qed.

(** ** Properties *)

(** [C31] Merkle insertion is a binary counter: after inserting any messages into an
    empty tree, level [i] is occupied exactly when bit [i] of their number is set, and
    then holds the root over the last complete group of 2^i leaves, each pair of
    neighbours hashed left then right.  This holds for the SHA-1 tree of the front
    writer and the Keccak tree of the merge. *)
Theorem merkle_insert_correct (ms : list bytes) (i : nat) : (i < 100)%nat →
  foldl build_merkle (repeat None 100) ms !! i =
    Some (if Nat.testbit (length ms) i then last (Nat.iter i (pair_up sha1) (sha1 <$> ms)) else None) ∧
  foldl eextrac_insert (repeat None 100) ms !! i =
    Some (if Nat.testbit (length ms) i then last (Nat.iter i (pair_up sha3_20) (sha3_20 <$> ms)) else None).
Proof.
  intros Hi. assert (H : ∀ hash, foldl (λ t m, mht_insert hash (hash m) t) (repeat None 100) ms !! i =
    Some (if Nat.testbit (length ms) i then last (Nat.iter i (pair_up hash) (hash <$> ms)) else None)).
  { intros hash. rewrite <- (frontier_empty hash), (inserts_frontier hash 100 ms []). cbn [app].
    rewrite frontier_lookup by done. by rewrite length_fmap. }
  split; [apply (H sha1)|apply (H sha3_20)].
Qed.

Lemma merkle_insert_correct_witness :
  foldl build_merkle (repeat None 100) [[1]; [2]] !! 1%nat = Some (Some (sha1 (sha1 [1] ++ sha1 [2]))).
Proof.
  rewrite (proj1 (merkle_insert_correct [[1]; [2]] 1 ltac:(lia))). vm_compute. reflexivity.
Defined.

(** The verification entry points compute digests and check nothing: whatever hash
    chain, key, sequence number and location the host passes, [enclave_verify] leaves
    the same state, the digest of the first 24 bytes of the enclave's own buffer, and
    [timeTraverse] returns 1 also when the chain's digest differs from the one it
    computed.  The height loop itself computes the bit length. *)
Theorem enclave_verify_checks_nothing (chain chain' : list bytes) (key key' : bytes)
    (key_size key_size' seqno seqno' ismem ismem' tmp : Z) (start end_ : nat) (prev : bytes) (st : Front) :
  enclave_verify chain key key_size seqno ismem st = enclave_verify chain' key' key_size' seqno' ismem' st ∧
  enclave_verify chain key key_size seqno ismem st =
    {| buf := buf st; ret := sha1 (take 24 (buf st)) |} ∧
  (timeTraverse chain start end_ prev key seqno st).1 = 1 ∧
  (timeTraverse chain start end_ prev key seqno st) = (timeTraverse chain' start end_ prev key seqno st) ∧
  (is_u 31 tmp → merkle_height tmp = S (Z.to_nat (Z.log2 tmp))).
Proof.
  assert (Hv : ∀ c k n q m, enclave_verify c k n q m st = {| buf := buf st; ret := sha1 (take 24 (buf st)) |}).
  { intros c k n q m. unfold enclave_verify. rewrite !enclave_verify_file_spec by (unfold merkle_height; lia).
    by destruct (m =? 1), (m =? 2). }
  split; [by rewrite !Hv|]. split; [apply Hv|]. split; [done|]. split; [done|].
  intros Ht. unfold merkle_height. rewrite height_loop_spec; [done|]. unfold is_u in Ht. lia.
Qed.
