(* ===== verification/Iterator.v ===== *)
(** * The iterator interface

    Model of [App/integration/iterator.h], [iterator.cpp] and [iterator_wrapper.h].  An
    implementation is an instance of [Iterator] on its state type; an operation whose
    precondition (an [assert] of the sources) fails, or that reads outside its memory,
    is [None].  [IteratorOk] states what the comments of [iterator.h] promise, over the
    list of key/value pairs the iterator ranges over; the merging, two-level, block and
    table iterators are proved against it. *)
From S2P Require Import Prelude Coding Comparator Status.
From stdpp Require Import sorting list.

#[local] Open Scope Z_scope.

(** Proves the first premise of [H] as a new goal. *)
Ltac supply H :=
  match type of H with
  | ?A → _ => let HA := fresh in assert (HA : A); [|specialize (H HA); clear HA]
  end.

Class Iterator (S : Type) := {
  Valid : S → bool;
  SeekToFirst : S → option S;
  SeekToLast : S → option S;
  Seek : bytes → S → option S;
  Next : S → option S;
  Prev : S → option S;
  key : S → option bytes;
  value : S → option bytes;
  status : S → Status;
}.
#[export] Hint Mode Iterator ! : typeclass_instances.

(** ** Empty and error iterators *)

Record EmptyIterator := { status_ : Status }.

#[export] Instance EmptyIterator_Iterator : Iterator EmptyIterator := {
  Valid _ := false;
  SeekToFirst s := Some s;
  SeekToLast s := Some s;
  Seek _ s := Some s;
  Next _ := None;
  Prev _ := None;
  key _ := None;
  value _ := None;
  status s := status_ s;
}.

Definition NewEmptyIterator : EmptyIterator := {| status_ := OK |}.
Definition NewErrorIterator (s : Status) : EmptyIterator := {| status_ := s |}.

(** ** Cleanup functions

    The first registration goes into the record of the iterator itself, the later ones
    to the front of the list behind it; the destructor runs them in list order. *)
Record Cleanups (F : Type) := { function : option F; next : list F }.
Arguments function {F}. Arguments next {F}.

Definition Cleanups_init {F} : Cleanups F := {| function := None; next := [] |}.

Definition RegisterCleanup {F} (func : F) (c : Cleanups F) : Cleanups F :=
  match function c with
  | None => {| function := Some func; next := next c |}
  | Some f => {| function := Some f; next := func :: next c |}
  end.

(** The calls the destructor makes. *)
Definition run_cleanups {F} (c : Cleanups F) : list F :=
  match function c with
  | None => []
  | Some f => f :: next c
  end.

(** ** The caching wrapper *)

Record IteratorWrapper (S : Type) := { iter_ : option S; valid_ : bool; key_ : bytes }.
Arguments iter_ {S}. Arguments valid_ {S}. Arguments key_ {S}.

Section Wrapper.
Context {S : Type} `{!Iterator S}.

Definition Wrapper_empty : IteratorWrapper S := {| iter_ := None; valid_ := false; key_ := [] |}.

(** [Update], on the iterator just moved: the cached key is kept when not valid. *)
Definition Update (w : IteratorWrapper S) (s : S) : option (IteratorWrapper S) :=
  if Valid s then k ← key s; Some {| iter_ := Some s; valid_ := true; key_ := k |}
  else Some {| iter_ := Some s; valid_ := false; key_ := key_ w |}.

Definition Wrapper_Set (iter : option S) (w : IteratorWrapper S) : option (IteratorWrapper S) :=
  match iter with
  | None => Some {| iter_ := None; valid_ := false; key_ := key_ w |}
  | Some s => Update w s
  end.

Definition Wrapper_make (iter : S) : option (IteratorWrapper S) := Wrapper_Set (Some iter) Wrapper_empty.

(** A method that moves the iterator and refreshes the cache. *)
Definition Wrapper_move (op : S → option S) (w : IteratorWrapper S) : option (IteratorWrapper S) :=
  s ← iter_ w; s ← op s; Update w s.

#[export] Instance IteratorWrapper_Iterator : Iterator (IteratorWrapper S) := {
  Valid w := valid_ w;
  SeekToFirst w := Wrapper_move SeekToFirst w;
  SeekToLast w := Wrapper_move SeekToLast w;
  Seek k w := Wrapper_move (Seek k) w;
  Next w := Wrapper_move Next w;
  Prev w := Wrapper_move Prev w;
  key w := if valid_ w then Some (key_ w) else None;
  value w := if valid_ w then iter_ w ≫= value else None;
  status w := match iter_ w with Some s => status s | None => OK end;
}.
End Wrapper.

(** ** Positions in a list *)

(** The entry at index [i], or no entry past the end. *)
Definition at_index {A} (l : list A) (i : nat) : option nat := if decide (i < length l)%nat then Some i else None.

(** The entry before index [i]. *)
Definition before (i : nat) : option nat := match i with O => None | S j => Some j end.

(** The length of the longest prefix of entries whose keys satisfy [P]. *)
Fixpoint cut (P : bytes → bool) (l : list (bytes * bytes)) : nat :=
  match l with
  | [] => 0
  | kv :: l' => if P kv.1 then S (cut P l') else 0
  end.

Definition below (c : Comparator) (t k : bytes) : bool := Compare c k t <? 0.
Definition upto (c : Comparator) (t k : bytes) : bool := Compare c k t <=? 0.

(** The first entry whose key is at or past [t]. *)
Definition lower_bound (c : Comparator) (l : list (bytes * bytes)) (t : bytes) : nat := cut (below c t) l.

(** Keys in strictly increasing order. *)
Definition key_lt (c : Comparator) (a b : bytes * bytes) : Prop := Compare c a.1 b.1 < 0.
Definition sorted_kvs (valid : bytes → Prop) (c : Comparator) (l : list (bytes * bytes)) : Prop :=
  Forall (λ kv, valid kv.1) l ∧ StronglySorted (key_lt c) l.

(** ** What an iterator promises

    [R s p] reads: in state [s] the iterator is at position [p] of [l], [None] when it
    is not valid. *)
Class IteratorOk {S} `{!Iterator S} (valid : bytes → Prop) (c : Comparator)
    (l : list (bytes * bytes)) (R : S → option nat → Prop) : Prop := {
  R_bound s i : R s (Some i) → (i < length l)%nat;
  Valid_ok s p : R s p → Valid s = bool_decide (is_Some p);
  key_ok s i kv : R s (Some i) → l !! i = Some kv → key s = Some kv.1;
  value_ok s i kv : R s (Some i) → l !! i = Some kv → value s = Some kv.2;
  status_is_ok s p : R s p → status s = OK;
  SeekToFirst_ok s p : R s p → ∃ s', SeekToFirst s = Some s' ∧ R s' (at_index l 0);
  SeekToLast_ok s p : R s p → ∃ s', SeekToLast s = Some s' ∧ R s' (before (length l));
  Seek_ok t s p : valid t → R s p → ∃ s', Seek t s = Some s' ∧ R s' (at_index l (lower_bound c l t));
  Next_ok s i : R s (Some i) → ∃ s', Next s = Some s' ∧ R s' (at_index l (Datatypes.S i));
  Prev_ok s i : R s (Some i) → ∃ s', Prev s = Some s' ∧ R s' (before i);
}.

(** The largest such relation: in state [s] a correct iterator over [l] is at [p]. *)
Definition positioned {S} `{!Iterator S} (valid : bytes → Prop) (c : Comparator) (l : list (bytes * bytes))
    (s : S) (p : option nat) : Prop := ∃ R, IteratorOk valid c l R ∧ R s p.

(** ** Lemmas on positions *)

Lemma at_index_Some {A} (l : list A) i : (i < length l)%nat → at_index l i = Some i.
Proof. intros H. unfold at_index. by rewrite decide_True by done. Qed.
Lemma at_index_None {A} (l : list A) i : (length l <= i)%nat → at_index l i = None.
Proof. intros H. unfold at_index. by rewrite decide_False by lia. Qed.
Lemma at_index_inv {A} (l : list A) i j : at_index l i = Some j → i = j ∧ (i < length l)%nat.
Proof. unfold at_index. case_decide; [intros [= ->]; auto|done]. Qed.

Lemma cut_le P l : (cut P l <= length l)%nat.
Proof. induction l as [|kv l IH]; simpl; [lia|]. destruct (P kv.1); lia. Qed.

Lemma cut_before P l i kv : (i < cut P l)%nat → l !! i = Some kv → P kv.1 = true.
Proof.
  revert i. induction l as [|x l IH]; intros i Hi Hl; [done|]. simpl in Hi. destruct (P x.1) eqn:E; [|lia].
  destruct i as [|i]; simpl in Hl; [by simplify_eq|]. apply (IH i); [lia|done].
Qed.

Lemma cut_at P l kv : l !! cut P l = Some kv → P kv.1 = false.
Proof.
  induction l as [|x l IH]; intros Hl; [done|]. simpl in Hl. destruct (P x.1) eqn:E; simpl in Hl; [by apply IH|by simplify_eq].
Qed.

Lemma cut_mono P Q l : (∀ kv, kv ∈ l → P kv.1 = true → Q kv.1 = true) → (cut P l <= cut Q l)%nat.
Proof.
  induction l as [|x l IH]; intros H; simpl; [lia|]. destruct (P x.1) eqn:E; [|lia]. rewrite (H x) by (done || by left).
  apply le_n_S, IH. intros kv Hkv. apply H. by right.
Qed.

(** A cut is found by its two sides. *)
Lemma cut_unique P l n : (n <= length l)%nat → (∀ i kv, (i < n)%nat → l !! i = Some kv → P kv.1 = true) →
  (∀ kv, l !! n = Some kv → P kv.1 = false) → cut P l = n.
Proof.
  revert n. induction l as [|x l IH]; intros n Hn Hlt Hat; simpl in Hn |- *; [lia|]. destruct n as [|n].
  - by rewrite (Hat x eq_refl).
  - rewrite (Hlt 0%nat x) by (done || lia). f_equal. apply IH; [lia| |].
    + intros i kv Hi Hl. apply (Hlt (S i)); [lia|done].
    + intros kv Hl. by apply Hat.
Qed.

Lemma cut_ext P Q l : (∀ kv, kv ∈ l → P kv.1 = Q kv.1) → cut P l = cut Q l.
Proof.
  induction l as [|x l IH]; intros H; [done|]. simpl. rewrite (H x) by left.
  rewrite IH; [done|]. intros kv Hkv. apply H. by right.
Qed.

Lemma cut_false l : cut (λ _, false) l = 0%nat.
Proof. by destruct l. Qed.
Lemma cut_true l : cut (λ _, true) l = length l.
Proof. induction l as [|x l IH]; simpl; [done|]. by rewrite IH. Qed.

(** ** Sorted lists *)

Section Sorted.
Context {valid : bytes → Prop} {c : Comparator} `{!ComparatorOk valid c}.

(** A predicate that holds of a prefix of the key order. *)
Definition downward (P : bytes → bool) : Prop :=
  ∀ a b, valid a → valid b → Compare c a b < 0 → P b = true → P a = true.

Lemma below_downward t : valid t → downward (below c t).
Proof.
  unfold below. intros Ht a b Ha Hb Hab. rewrite !Z.ltb_lt. intros Hbt.
  by apply (Compare_trans a b t).
Qed.
Lemma upto_downward t : valid t → downward (upto c t).
Proof.
  unfold upto. intros Ht a b Ha Hb Hab. rewrite !Z.leb_le. intros Hbt.
  apply Z.lt_le_incl. by apply (Compare_lt_le a b t).
Qed.
Lemma false_downward : downward (λ _, false).
Proof. by intros a b. Qed.
Lemma true_downward : downward (λ _, true).
Proof. by intros a b. Qed.

Lemma sorted_valid l i kv : sorted_kvs valid c l → l !! i = Some kv → valid kv.1.
Proof. intros [H _] Hl. exact (Forall_lookup_1 _ _ _ _ H Hl). Qed.

Lemma sorted_elem_valid l kv : sorted_kvs valid c l → kv ∈ l → valid kv.1.
Proof. intros H [i Hi]%list_elem_of_lookup. by apply (sorted_valid l i). Qed.

Lemma sorted_lookup_lt l i j a b : sorted_kvs valid c l → (i < j)%nat →
  l !! i = Some a → l !! j = Some b → Compare c a.1 b.1 < 0.
Proof.
  intros [_ Hs] Hij Ha Hb. revert i j Hij Ha Hb. induction Hs as [|x l Hs IH Hx]; intros i j Hij Ha Hb; [done|].
  destruct j as [|j]; [lia|]. destruct i as [|i]; simpl in Ha, Hb.
  - simplify_eq. exact (Forall_lookup_1 _ _ _ _ Hx Hb).
  - apply (IH i j); [lia|done..].
Qed.

Lemma sorted_lookup_lt_inv l i j a b : sorted_kvs valid c l →
  l !! i = Some a → l !! j = Some b → Compare c a.1 b.1 < 0 → (i < j)%nat.
Proof.
  intros Hs Ha Hb Hlt. pose proof (sorted_valid l i a Hs Ha) as Va. pose proof (sorted_valid l j b Hs Hb) as Vb.
  destruct (Nat.lt_total i j) as [|[<-|Hji]]; [done| |].
  - simplify_eq. rewrite Compare_refl in Hlt by done. lia.
  - pose proof (sorted_lookup_lt l j i b a Hs Hji Hb Ha) as H. apply Compare_swap in H; [lia|done..].
Qed.

Lemma cut_after l P i kv : sorted_kvs valid c l → downward P → (cut P l <= i)%nat → l !! i = Some kv → P kv.1 = false.
Proof.
  intros Hs HP Hi Hl. destruct (decide (i = cut P l)) as [->|Hne]; [by apply (cut_at P l)|].
  destruct (lookup_lt_is_Some_2 l (cut P l)) as [x Hx]; [apply lookup_lt_Some in Hl; lia|].
  destruct (P kv.1) eqn:E; [|done]. exfalso.
  assert (P x.1 = true) as H.
  { apply (HP x.1 kv.1); [by apply (sorted_valid l (cut P l))|by apply (sorted_valid l i)| |done].
    apply (sorted_lookup_lt l (cut P l) i); [done|lia|done..]. }
  by rewrite (cut_at P l x Hx) in H.
Qed.

(** The entry [l !! i] splits the list at [i] and [S i]. *)
Lemma lower_bound_at l i kv : sorted_kvs valid c l → l !! i = Some kv → lower_bound c l kv.1 = i.
Proof.
  intros Hs Hl. pose proof (sorted_valid l i kv Hs Hl) as V. apply cut_unique.
  - apply lookup_lt_Some in Hl. lia.
  - intros j x Hj Hx. apply Z.ltb_lt. apply (sorted_lookup_lt l j i); done.
  - intros x Hx. simplify_eq. unfold below. by rewrite Compare_refl by done.
Qed.

Lemma upto_at l i kv : sorted_kvs valid c l → l !! i = Some kv → cut (upto c kv.1) l = S i.
Proof.
  intros Hs Hl. pose proof (sorted_valid l i kv Hs Hl) as V. pose proof (lookup_lt_Some _ _ _ Hl) as Hi. apply cut_unique.
  - lia.
  - intros j x Hj Hx. apply Z.leb_le. destruct (decide (j = i)) as [->|]; [simplify_eq; by rewrite Compare_refl|].
    apply Z.lt_le_incl, (sorted_lookup_lt l j i); [done|lia|done..].
  - intros x Hx. apply Z.leb_gt. apply Compare_swap; [by eapply sorted_valid|by eapply sorted_valid|].
    apply (sorted_lookup_lt l i (S i)); [done|lia|done..].
Qed.

Lemma sorted_app_inv l k : sorted_kvs valid c (l ++ k) → sorted_kvs valid c l ∧ sorted_kvs valid c k ∧
  ∀ a b, a ∈ l → b ∈ k → Compare c a.1 b.1 < 0.
Proof.
  intros [Hv Hs]. apply Forall_app in Hv as [Hl Hk]. split_and!; [split; [done|]|split; [done|]|].
  - by apply StronglySorted_app_1_l in Hs.
  - by apply StronglySorted_app_1_r in Hs.
  - intros a b Ha Hb. exact (StronglySorted_app_1_elem_of _ _ _ _ _ Hs Ha Hb).
Qed.

Lemma lower_bound_mono l k k' : sorted_kvs valid c l → valid k → valid k' → Compare c k k' <= 0 →
  (lower_bound c l k <= lower_bound c l k')%nat.
Proof using ComparatorOk0.
  intros Hs Hk Hk' Hle. apply cut_mono. unfold below. intros kv Hkv H%Z.ltb_lt. apply Z.ltb_lt.
  apply (Compare_lt_le (valid := valid) _ k); [by apply (sorted_elem_valid l kv Hs)|done..].
Qed.

Lemma sorted_last l a x : sorted_kvs valid c l → last l = Some a → x ∈ l → Compare c x.1 a.1 <= 0.
Proof using ComparatorOk0.
  intros Hs Ha Hx. destruct l as [|a' l _] using rev_ind; [done|]. rewrite last_snoc in Ha. simplify_eq.
  pose proof (sorted_elem_valid _ a Hs) as Va. destruct (sorted_app_inv _ _ Hs) as (_ & _ & Hlt).
  apply elem_of_app in Hx as [Hx|Hx%list_elem_of_singleton].
  - pose proof (Hlt x a Hx ltac:(by left)). lia.
  - subst x. rewrite Compare_refl; [done|]. apply Va. apply elem_of_app. right. by left.
Qed.

Lemma sorted_head l a x : sorted_kvs valid c l → head l = Some a → x ∈ l → Compare c a.1 x.1 <= 0.
Proof using ComparatorOk0.
  intros Hs Ha Hx. destruct l as [|a' l]; [done|]. simplify_eq/=. change (a :: l) with ([a] ++ l) in Hs.
  pose proof (sorted_elem_valid _ a Hs) as Va. destruct (sorted_app_inv _ _ Hs) as (_ & _ & Hlt).
  apply elem_of_cons in Hx as [->|Hx].
  - rewrite Compare_refl; [done|]. apply Va. by left.
  - pose proof (Hlt a x ltac:(by left) Hx). lia.
Qed.
End Sorted.

(** ** Instances *)

#[export] Instance EmptyIterator_ok valid c :
  IteratorOk valid c [] (λ (s : EmptyIterator) p, p = None ∧ status_ s = OK).
Proof. split; try (intros * [??]; by simplify_eq/=); intros; destruct_and?; eauto; naive_solver. Qed.

Section WrapperOk.
Context {S : Type} `{!Iterator S} {valid : bytes → Prop} {c : Comparator} {l : list (bytes * bytes)}
  {R : S → option nat → Prop} `{!IteratorOk valid c l R}.

(** The cache agrees with the iterator. *)
Definition WrapperR (w : IteratorWrapper S) (p : option nat) : Prop :=
  ∃ s, iter_ w = Some s ∧ R s p ∧ valid_ w = Valid s ∧ (Valid s = true → key s = Some (key_ w)).

Lemma Update_ok w s p : R s p → ∃ w', Update w s = Some w' ∧ WrapperR w' p.
Proof using IteratorOk0.
  intros HR. unfold Update. rewrite (Valid_ok s p HR). case_bool_decide as Hp.
  - destruct Hp as [i ->]. destruct (lookup_lt_is_Some_2 l i) as [kv Hkv]; [by eapply R_bound|].
    rewrite (key_ok s i kv HR Hkv). eexists. split; [done|]. exists s. simpl.
    rewrite (Valid_ok s _ HR), bool_decide_eq_true_2 by eauto. split_and!; try done. intros _. by apply (key_ok s i).
  - eexists. split; [done|]. exists s. simpl. rewrite (Valid_ok s _ HR), bool_decide_eq_false_2 by done. done.
Qed.

Lemma Wrapper_make_ok s p : R s p → ∃ w, Wrapper_make s = Some w ∧ WrapperR w p.
Proof using IteratorOk0. apply Update_ok. Qed.

Lemma Wrapper_move_ok op w p q : WrapperR w p → (∀ s, R s p → ∃ s', op s = Some s' ∧ R s' q) →
  ∃ w', Wrapper_move op w = Some w' ∧ WrapperR w' q.
Proof using IteratorOk0.
  intros (s & Hi & HR & Hv & Hk) Hop. unfold Wrapper_move. rewrite Hi. simpl.
  destruct (Hop s HR) as (s' & -> & HR'). simpl. by apply Update_ok.
Qed.

#[export] Instance IteratorWrapper_ok : IteratorOk valid c l WrapperR.
Proof using IteratorOk0.
  split.
  - intros w i (s & _ & HR & _). by eapply R_bound.
  - intros w p (s & _ & HR & Hv & _). simpl. rewrite Hv. by apply Valid_ok.
  - intros w i kv (s & _ & HR & Hv & Hk) Hl. simpl.
    rewrite Hv. assert (HV : Valid s = true) by (rewrite (Valid_ok s _ HR); by apply bool_decide_eq_true_2).
    rewrite HV, <- (Hk HV). by apply (key_ok s i).
  - intros w i kv (s & Hi & HR & Hv & Hk) Hl. simpl. rewrite Hv, (Valid_ok s _ HR), bool_decide_eq_true_2, Hi by done.
    simpl. by apply (value_ok s i).
  - intros w p (s & Hi & HR & _). simpl. rewrite Hi. by eapply status_is_ok.
  - intros w p HR. apply (Wrapper_move_ok _ _ _ _ HR). intros s. apply SeekToFirst_ok.
  - intros w p HR. apply (Wrapper_move_ok _ _ _ _ HR). intros s. apply SeekToLast_ok.
  - intros t w p Ht HR. apply (Wrapper_move_ok _ _ _ _ HR). intros s. by apply Seek_ok.
  - intros w i HR. apply (Wrapper_move_ok _ _ _ _ HR). intros s. apply Next_ok.
  - intros w i HR. apply (Wrapper_move_ok _ _ _ _ HR). intros s. apply Prev_ok.
Qed.
End WrapperOk.
Arguments WrapperR {S _} R _ _ : simpl never.

(** Two implementations behind one pointer. *)
Section Sum.
Context {A B : Type} `{!Iterator A, !Iterator B}.

Definition sum_move (f : A → option A) (g : B → option B) (s : A + B) : option (A + B) :=
  match s with inl a => inl <$> f a | inr b => inr <$> g b end.

#[export] Instance sum_Iterator : Iterator (A + B) := {
  Valid s := match s with inl a => Valid a | inr b => Valid b end;
  SeekToFirst := sum_move SeekToFirst SeekToFirst;
  SeekToLast := sum_move SeekToLast SeekToLast;
  Seek t := sum_move (Seek t) (Seek t);
  Next := sum_move Next Next;
  Prev := sum_move Prev Prev;
  key s := match s with inl a => key a | inr b => key b end;
  value s := match s with inl a => value a | inr b => value b end;
  status s := match s with inl a => status a | inr b => status b end;
}.

Context {valid : bytes → Prop} {c : Comparator} {l : list (bytes * bytes)}.

Lemma sum_move_l (R : A → option nat → Prop) (o : option A) q : (∃ a', o = Some a' ∧ R a' q) →
  ∃ s' : A + B, inl <$> o = Some s' ∧ match s' with inl a' => R a' q | inr _ => False end.
Proof. intros (a' & -> & HR). by exists (inl a'). Qed.
Lemma sum_move_r (R : B → option nat → Prop) (o : option B) q : (∃ b', o = Some b' ∧ R b' q) →
  ∃ s' : A + B, inr <$> o = Some s' ∧ match s' with inl _ => False | inr b' => R b' q end.
Proof. intros (b' & -> & HR). by exists (inr b'). Qed.

Lemma sum_ok_l (R : A → option nat → Prop) : IteratorOk valid c l R →
  IteratorOk valid c l (λ (s : A + B) p, match s with inl a => R a p | inr _ => False end).
Proof.
  intros HO. split; intros; repeat match goal with s : (A + B)%type |- _ => destruct s; [|done] end; simpl in *;
    try apply sum_move_l; eauto using R_bound, Valid_ok, key_ok, value_ok, status_is_ok, SeekToFirst_ok,
    SeekToLast_ok, Seek_ok, Next_ok, Prev_ok.
Qed.

Lemma sum_ok_r (R : B → option nat → Prop) : IteratorOk valid c l R →
  IteratorOk valid c l (λ (s : A + B) p, match s with inl _ => False | inr b => R b p end).
Proof.
  intros HO. split; intros; repeat match goal with s : (A + B)%type |- _ => destruct s; [done|] end; simpl in *;
    try apply sum_move_r; eauto using R_bound, Valid_ok, key_ok, value_ok, status_is_ok, SeekToFirst_ok,
    SeekToLast_ok, Seek_ok, Next_ok, Prev_ok.
Qed.
End Sum.

#[export] Instance positioned_ok {S} `{!Iterator S} valid c l : IteratorOk (S := S) valid c l (positioned valid c l).
Proof.
  assert (lift : ∀ R (o : option S) q, IteratorOk valid c l R → (∃ s', o = Some s' ∧ R s' q) →
    ∃ s', o = Some s' ∧ positioned valid c l s' q) by (intros R o q HO (s' & ? & ?); exists s'; split; [done|by exists R]).
  split; intros; match goal with H : positioned _ _ _ _ _ |- _ => destruct H as (R & HO & HR) end;
    try (eapply lift; [exact HO|]); eauto using R_bound, Valid_ok, key_ok, value_ok, status_is_ok, SeekToFirst_ok,
      SeekToLast_ok, Seek_ok, Next_ok, Prev_ok.
Qed.

(** The promise is about the relation up to equivalence. *)
Lemma IteratorOk_ext {S} `{!Iterator S} valid c l (R R' : S → option nat → Prop) :
  (∀ s p, R s p ↔ R' s p) → IteratorOk valid c l R → IteratorOk valid c l R'.
Proof.
  intros E HO. assert (lift : ∀ (o : option S) q, (∃ s', o = Some s' ∧ R s' q) → ∃ s', o = Some s' ∧ R' s' q)
    by (intros o q (s' & ? & ?); exists s'; split; [done|by apply E]).
  split; intros; repeat match goal with H : R' _ _ |- _ => apply E in H end; try apply lift;
    eauto using R_bound, Valid_ok, key_ok, value_ok, status_is_ok, SeekToFirst_ok,
      SeekToLast_ok, Seek_ok, Next_ok, Prev_ok.
Qed.

(** ** A reference iterator *)

Record ListIterator := { list_cmp : Comparator; list_kvs : list (bytes * bytes); list_pos : option nat }.

Definition list_at (s : ListIterator) (p : option nat) : ListIterator :=
  {| list_cmp := list_cmp s; list_kvs := list_kvs s; list_pos := p |}.

#[export] Instance ListIterator_Iterator : Iterator ListIterator := {
  Valid s := bool_decide (is_Some (list_pos s));
  SeekToFirst s := Some (list_at s (at_index (list_kvs s) 0));
  SeekToLast s := Some (list_at s (before (length (list_kvs s))));
  Seek t s := Some (list_at s (at_index (list_kvs s) (lower_bound (list_cmp s) (list_kvs s) t)));
  Next s := i ← list_pos s; Some (list_at s (at_index (list_kvs s) (S i)));
  Prev s := i ← list_pos s; Some (list_at s (before i));
  key s := i ← list_pos s; fst <$> list_kvs s !! i;
  value s := i ← list_pos s; snd <$> list_kvs s !! i;
  status _ := OK;
}.

Lemma ListIterator_positioned valid c l p : (∀ i, p = Some i → (i < length l)%nat) →
  positioned valid c l {| list_cmp := c; list_kvs := l; list_pos := p |} p.
Proof.
  intros Hp. exists (λ s p, s = {| list_cmp := c; list_kvs := l; list_pos := p |} ∧ ∀ i, p = Some i → (i < length l)%nat).
  split; [|done]. split.
  - intros s i [_ H]. by apply H.
  - by intros s q [-> _].
  - intros s i kv [-> _] Hl. simpl. by rewrite Hl.
  - intros s i kv [-> _] Hl. simpl. by rewrite Hl.
  - done.
  - intros s q [-> _]. eexists. split_and!; [done..|]. intros i [<- H]%at_index_inv. done.
  - intros s q [-> _]. eexists. split_and!; [done..|]. intros i. destruct l; simpl; [done|]. intros [= <-]. lia.
  - intros t s q _ [-> _]. eexists. split_and!; [done..|]. intros i [<- H]%at_index_inv. done.
  - intros s i [-> _]. eexists. split_and!; [done..|]. intros j [<- H]%at_index_inv. done.
  - intros s i [-> H]. eexists. split_and!; [done..|]. intros j. specialize (H i eq_refl).
    destruct i; simpl; [done|]. intros [= <-]. lia.
Qed.

(** Two sorted lists of the same entries are equal. *)
Lemma sorted_kvs_unique `{!ComparatorOk valid c} l k : sorted_kvs valid c l → sorted_kvs valid c k → l ≡ₚ k → l = k.
Proof.
  intros [Hv Hl] [Hv' Hk] Hp. apply (StronglySorted_unique_strong (key_lt c)); [|done..].
  intros a b Ha Hb H1 H2. unfold key_lt in *. rewrite Forall_forall in Hv, Hv'.
  apply Compare_swap in H1; [lia|by apply Hv|by apply Hv'].
Qed.

(** ** Offsets in a concatenation *)

Definition off {A} (ls : list (list A)) (i : nat) : nat := length (mjoin (take i ls)).

Lemma off_S {A} (ls : list (list A)) i l : ls !! i = Some l → off ls (S i) = (off ls i + length l)%nat.
Proof. intros H. unfold off. rewrite (take_S_r _ _ _ H), join_app, length_app. simpl. by rewrite app_nil_r. Qed.

Lemma off_end {A} (ls : list (list A)) : off ls (length ls) = length (mjoin ls).
Proof. unfold off. by rewrite firstn_all. Qed.

Lemma off_mono {A} (ls : list (list A)) i j : (i <= j)%nat → (off ls i <= off ls j)%nat.
Proof.
  intros H. unfold off. replace (take i ls) with (take i (take j ls)) by (rewrite take_take; f_equal; lia).
  rewrite <- (take_drop i (take j ls)) at 2. rewrite join_app, length_app. lia.
Qed.

Lemma mjoin_lookup_off {A} (ls : list (list A)) i l n : ls !! i = Some l → (n < length l)%nat →
  mjoin ls !! (off ls i + n)%nat = l !! n.
Proof.
  intros Hl Hn. assert (E : mjoin ls = mjoin (take i ls) ++ l ++ mjoin (drop (S i) ls))
    by (rewrite <- (take_drop_middle ls i l Hl) at 1; by rewrite join_app).
  rewrite E. unfold off. rewrite lookup_app_r by lia. rewrite Nat.add_comm, Nat.add_sub. by rewrite lookup_app_l.
Qed.

Lemma mjoin_lookup_inv {A} (ls : list (list A)) r x : mjoin ls !! r = Some x →
  ∃ i l n, ls !! i = Some l ∧ l !! n = Some x ∧ r = (off ls i + n)%nat.
Proof.
  revert r. induction ls as [|l ls IH]; intros r Hr; [done|]. simpl in Hr.
  apply lookup_app_Some in Hr as [Hr|[Hle Hr]].
  - by exists 0%nat, l, r.
  - destruct (IH _ Hr) as (i & k & n & Hk & Hn & E). exists (S i), k, n. split_and!; [done..|].
    unfold off in *. simpl. rewrite length_app. lia.
Qed.
