(* ===== verification/Merger.v ===== *)
(** * The merging iterator

    Model of [App/integration/merger.cpp]: an iterator over the union of several
    children, each cached by an [IteratorWrapper].  The children have one state type
    [S]; different implementations are joined by a sum type.  The theorem is stated
    against the iterator interface of its children and establishes the same interface
    for the merge. *)
From S2P Require Import Prelude Coding Comparator Status Iterator.
From stdpp Require Import sorting list.

#[local] Open Scope Z_scope.

Inductive Direction := kForward | kReverse.
#[export] Instance Direction_eq_dec : EqDecision Direction.
Proof. solve_decision. Defined.

Record MergingIterator (S : Type) := {
  comparator_ : Comparator;
  children_ : list (IteratorWrapper S);
  current_ : option nat;  (** the index of the child pointed to *)
  direction_ : Direction;
}.
Arguments comparator_ {S}. Arguments children_ {S}. Arguments current_ {S}. Arguments direction_ {S}.

Section Merging.
Context {S : Type} `{!Iterator S}.

(** [for (int i = 0; i < n_; i++)] over the children. *)
Fixpoint for_children (f : nat → IteratorWrapper S → option (IteratorWrapper S)) (i : nat)
  (cs : list (IteratorWrapper S)) : option (list (IteratorWrapper S)) :=
  match cs with
  | [] => Some []
  | child :: cs' => child ← f i child; rest ← for_children f (Datatypes.S i) cs'; Some (child :: rest)
  end.

Definition MergingIterator_make (cmp : Comparator) (children : list S) : option (MergingIterator S) :=
  cs ← mapM Wrapper_make children;
  Some {| comparator_ := cmp; children_ := cs; current_ := None; direction_ := kForward |}.

Definition smallest_step (c : Comparator) (cs : list (IteratorWrapper S)) (smallest : option nat) (i : nat) : option nat :=
  match cs !! i with
  | Some child =>
      if Valid child then
      match smallest ≫= (cs !!.) with
      | None => Some i
      | Some s => if Compare c (key_ child) (key_ s) <? 0 then Some i else smallest
      end
      else smallest
  | None => smallest
  end.
Definition FindSmallest (c : Comparator) (cs : list (IteratorWrapper S)) : option nat :=
  foldl (smallest_step c cs) None (seq 0 (length cs)).

Definition largest_step (c : Comparator) (cs : list (IteratorWrapper S)) (largest : option nat) (i : nat) : option nat :=
  match cs !! i with
  | Some child =>
      if Valid child then
      match largest ≫= (cs !!.) with
      | None => Some i
      | Some s => if Compare c (key_ child) (key_ s) >? 0 then Some i else largest
      end
      else largest
  | None => largest
  end.
Definition FindLargest (c : Comparator) (cs : list (IteratorWrapper S)) : option nat :=
  foldl (largest_step c cs) None (reverse (seq 0 (length cs))).

Definition moved_forward (m : MergingIterator S) (cs : list (IteratorWrapper S)) : MergingIterator S :=
  {| comparator_ := comparator_ m; children_ := cs; current_ := FindSmallest (comparator_ m) cs; direction_ := kForward |}.
Definition moved_reverse (m : MergingIterator S) (cs : list (IteratorWrapper S)) : MergingIterator S :=
  {| comparator_ := comparator_ m; children_ := cs; current_ := FindLargest (comparator_ m) cs; direction_ := kReverse |}.

Definition Merging_SeekToFirst (m : MergingIterator S) : option (MergingIterator S) :=
  cs ← for_children (λ _, SeekToFirst) 0 (children_ m); Some (moved_forward m cs).
Definition Merging_SeekToLast (m : MergingIterator S) : option (MergingIterator S) :=
  cs ← for_children (λ _, SeekToLast) 0 (children_ m); Some (moved_reverse m cs).
Definition Merging_Seek (target : bytes) (m : MergingIterator S) : option (MergingIterator S) :=
  cs ← for_children (λ _, Seek target) 0 (children_ m); Some (moved_forward m cs).

(** Positions a non-current child after [k] when the direction changes to forward. *)
Definition child_forward (c : Comparator) (cur : nat) (k : bytes) (i : nat) (child : IteratorWrapper S) :
  option (IteratorWrapper S) :=
  if decide (i = cur) then Some child
  else child ← Seek k child;
  if Valid child && (Compare c k (key_ child) =? 0) then Next child else Some child.

(** Positions a non-current child before [k] when the direction changes to reverse. *)
Definition child_reverse (cur : nat) (k : bytes) (i : nat) (child : IteratorWrapper S) :
  option (IteratorWrapper S) :=
  if decide (i = cur) then Some child
  else child ← Seek k child; if Valid child then Prev child else SeekToLast child.

Definition Merging_Next (m : MergingIterator S) : option (MergingIterator S) :=
  j ← current_ m;
  cur ← children_ m !! j;
  cs ← (if decide (direction_ m = kForward) then Some (children_ m)
    else for_children (child_forward (comparator_ m) j (key_ cur)) 0 (children_ m));
  cur ← cs !! j; cur ← Next cur;
  Some (moved_forward m (<[j := cur]> cs)).

Definition Merging_Prev (m : MergingIterator S) : option (MergingIterator S) :=
  j ← current_ m;
  cur ← children_ m !! j;
  cs ← (if decide (direction_ m = kReverse) then Some (children_ m)
    else for_children (child_reverse j (key_ cur)) 0 (children_ m));
  cur ← cs !! j; cur ← Prev cur;
  Some (moved_reverse m (<[j := cur]> cs)).

(** The first status that is not OK. *)
Fixpoint Merging_status (cs : list (IteratorWrapper S)) : Status :=
  match cs with
  | [] => OK
  | child :: cs' => if Status_ok (status child) then
      match cs' with [] => status child | _ => Merging_status cs' end
      else status child
  end.

#[export] Instance MergingIterator_Iterator : Iterator (MergingIterator S) := {
  Valid m := bool_decide (is_Some (current_ m));
  SeekToFirst := Merging_SeekToFirst;
  SeekToLast := Merging_SeekToLast;
  Seek := Merging_Seek;
  Next := Merging_Next;
  Prev := Merging_Prev;
  key m := (j ← current_ m; w ← children_ m !! j; key w);
  value m := (j ← current_ m; w ← children_ m !! j; value w);
  status m := Merging_status (children_ m);
}.

Definition NewMergingIterator (cmp : Comparator) (children : list S) :
  option (EmptyIterator + (S + MergingIterator S)) :=
  match children with
  | [] => Some (inl NewEmptyIterator)
  | [s] => Some (inr (inl s))
  | _ => m ← MergingIterator_make cmp children; Some (inr (inr m))
  end.

(** ** Lemmas on the loops *)

Lemma for_children_spec (Q : nat → IteratorWrapper S → Prop) f i cs :
  (∀ n w, cs !! n = Some w → ∃ w', f (i + n)%nat w = Some w' ∧ Q (i + n)%nat w') →
  ∃ cs', for_children f i cs = Some cs' ∧ length cs' = length cs ∧ ∀ n w, cs' !! n = Some w → Q (i + n)%nat w.
Proof.
  revert i. induction cs as [|w cs IH]; intros i H; [by exists []|]. simpl.
  destruct (H 0%nat w eq_refl) as (w' & Hw & HQ). rewrite Nat.add_0_r in Hw, HQ. rewrite Hw. simpl.
  destruct (IH (Datatypes.S i)) as (cs' & Hcs & Hlen & HQ').
  { intros n x Hx. destruct (H (Datatypes.S n) x Hx) as (x' & ? & ?). exists x'.
    by rewrite Nat.add_succ_r, <- Nat.add_succ_l in *. }
  rewrite Hcs. exists (w' :: cs'). simpl. split_and!; [done|by f_equal|].
  intros [|n] x Hx; simpl in Hx; [simplify_eq; by rewrite Nat.add_0_r|].
  rewrite Nat.add_succ_r, <- Nat.add_succ_l. by apply HQ'.
Qed.

(** [FindSmallest] and [FindLargest] as one scan for the best valid child. *)
Section Best.
Context (c : Comparator) (cs : list (IteratorWrapper S)) (better : bytes → bytes → bool) (le : bytes → bytes → Prop).
Context (V : bytes → Prop) (HV : ∀ i w, cs !! i = Some w → valid_ w = true → V (key_ w)).
Context (le_refl : ∀ a, V a → le a a) (le_trans : ∀ a b d, V a → V b → V d → le a b → le b d → le a d).
Context (better_le : ∀ a b, V a → V b → better a b = true → le a b)
  (nbetter_le : ∀ a b, V a → V b → better a b = false → le b a).

Definition best_step (acc : option nat) (i : nat) : option nat :=
  match cs !! i with
  | Some child =>
      if Valid child then
      match acc ≫= (cs !!.) with
      | None => Some i
      | Some s => if better (key_ child) (key_ s) then Some i else acc
      end
      else acc
  | None => acc
  end.

(** What a scan over the children [idx] has found. *)
Definition best_of (idx : list nat) (acc : option nat) : Prop :=
  match acc with
  | None => ∀ i w, i ∈ idx → cs !! i = Some w → valid_ w = false
  | Some j => ∃ s, cs !! j = Some s ∧ valid_ s = true ∧
      ∀ i w, i ∈ idx → cs !! i = Some w → valid_ w = true → le (key_ s) (key_ w)
  end.

Lemma best_step_of idx acc i : best_of idx acc → best_of (idx ++ [i]) (best_step acc i).
Proof using HV le_refl le_trans better_le nbetter_le.
  intros Hb. unfold best_step. destruct (cs !! i) as [w|] eqn:Hi.
  2:{ destruct acc as [j|]; simpl in *.
    - destruct Hb as (s & Hs & Hv & Hle). exists s. split_and!; [done..|].
      intros i' w [H| ->%list_elem_of_singleton]%elem_of_app Hw; [by eapply Hle|congruence].
    - intros i' w [H| ->%list_elem_of_singleton]%elem_of_app Hw; [by eapply Hb|congruence]. }
  simpl. destruct (valid_ w) eqn:Hv.
  2:{ destruct acc as [j|]; simpl in *.
    - destruct Hb as (s & Hs & Hvs & Hle). exists s. split_and!; [done..|].
      intros i' w' [H| ->%list_elem_of_singleton]%elem_of_app Hw; [by eapply Hle|congruence].
    - intros i' w' [H| ->%list_elem_of_singleton]%elem_of_app Hw; [by eapply Hb|congruence]. }
  pose proof (HV i w Hi Hv) as Vw. destruct acc as [j|]; simpl in *.
  - destruct Hb as (s & Hs & Hvs & Hle). rewrite Hs. pose proof (HV j s Hs Hvs) as Vs.
    destruct (better (key_ w) (key_ s)) eqn:Hbw; [exists w|exists s]; (split_and!; [done..|]);
      intros i' w' [H| ->%list_elem_of_singleton]%elem_of_app Hw Hv'; simplify_eq.
    + eapply (le_trans _ (key_ s)); eauto.
    + by apply le_refl.
    + by eapply Hle.
    + by apply nbetter_le.
  - exists w. split_and!; [done..|]. intros i' w' [H| ->%list_elem_of_singleton]%elem_of_app Hw Hv'; simplify_eq.
    + by rewrite (Hb i' w') in Hv'.
    + by apply le_refl.
Qed.

Lemma best_fold idx' : ∀ idx acc, best_of idx acc → best_of (idx ++ idx') (foldl best_step acc idx').
Proof using HV le_refl le_trans better_le nbetter_le.
  induction idx' as [|i idx' IH]; intros idx acc Hb; [by rewrite app_nil_r|]. simpl.
  replace (idx ++ i :: idx') with ((idx ++ [i]) ++ idx') by (by rewrite <- app_assoc). by apply IH, best_step_of.
Qed.

Lemma best_scan idx : (∀ i, (i < length cs)%nat → i ∈ idx) → best_of (seq 0 (length cs)) (foldl best_step None idx).
Proof using HV le_refl le_trans better_le nbetter_le.
  intros His. pose proof (best_fold idx [] None) as H. simpl in H.
  assert (best_of idx (foldl best_step None idx)) as Hb by (apply H; by intros i w Hi%not_elem_of_nil).
  assert (Hsub : ∀ i, i ∈ seq 0 (length cs) → i ∈ idx) by (intros i Hi%elem_of_seq; apply His; lia).
  revert Hb. unfold best_of. destruct (foldl best_step None idx) as [j|].
  - intros (s & ? & ? & Hle). exists s. split_and!; [done..|]. intros i w Hi. apply Hle. by apply Hsub.
  - intros Hn i w Hi. apply Hn. by apply Hsub.
Qed.
End Best.

(** ** Correctness *)

Context {valid : bytes → Prop} {c : Comparator} `{!ComparatorOk valid c}.
(** The lists of the children, their representation relations, and the merged list. *)
Context (ls : list (list (bytes * bytes))) (R : nat → S → option nat → Prop) (L : list (bytes * bytes)).
Context (Hok : ∀ i l, ls !! i = Some l → IteratorOk valid c l (R i)).
Context (Hls : ∀ i l, ls !! i = Some l → sorted_kvs valid c l).
Context (HL : sorted_kvs valid c L) (Hperm : L ≡ₚ mjoin ls).

(** [Q] of every child and its list. *)
Definition AllW (Q : nat → list (bytes * bytes) → IteratorWrapper S → Prop) (cs : list (IteratorWrapper S)) : Prop :=
  length cs = length ls ∧ ∀ i w l, cs !! i = Some w → ls !! i = Some l → Q i l w.

(** Every child at the position [pos] gives it, or at some position. *)
Definition AllAt (cs : list (IteratorWrapper S)) (pos : nat → list (bytes * bytes) → option nat) : Prop :=
  AllW (λ i l w, WrapperR (R i) w (pos i l)) cs.
Definition AllSomewhere (cs : list (IteratorWrapper S)) : Prop :=
  AllW (λ i l w, ∃ q, WrapperR (R i) w q) cs.

(** The state at index [r] of the merged list: the current child is at that entry, the
    others at the first entry past it, or before it when moving backwards. *)
Definition MergingR (m : MergingIterator S) (p : option nat) : Prop :=
  comparator_ m = c ∧
  match p with
  | None => current_ m = None ∧ AllSomewhere (children_ m)
  | Some r => ∃ kv j n l, L !! r = Some kv ∧ current_ m = Some j ∧ ls !! j = Some l ∧ l !! n = Some kv ∧
      AllAt (children_ m) (λ i l, if decide (i = j) then Some n
        else match direction_ m with
             | kForward => at_index l (cut (below c kv.1) l)
             | kReverse => before (cut (below c kv.1) l)
             end)
  end.

Lemma child_elem i l kv : ls !! i = Some l → kv ∈ l → kv ∈ L.
Proof using Hperm.
  intros Hl Hkv. rewrite Hperm. apply list_elem_of_join. exists l. split; [done|]. by eapply list_elem_of_lookup_2.
Qed.

Lemma elem_child kv : kv ∈ L → ∃ i l n, ls !! i = Some l ∧ l !! n = Some kv.
Proof using Hperm.
  rewrite Hperm. intros (l & Hkv & [i Hi]%list_elem_of_lookup)%list_elem_of_join.
  apply list_elem_of_lookup in Hkv as [n Hn]. by exists i, l, n.
Qed.

Lemma L_key_inj a b : a ∈ L → b ∈ L → Compare c a.1 b.1 = 0 → a = b.
Proof using HL ComparatorOk0.
  intros [i Ha]%list_elem_of_lookup [j Hb]%list_elem_of_lookup Hab.
  destruct (Nat.lt_total i j) as [Hij|[<-|Hij]]; [|congruence|].
  - pose proof (sorted_lookup_lt L i j a b HL Hij Ha Hb). lia.
  - pose proof (sorted_lookup_lt L j i b a HL Hij Hb Ha) as H.
    apply Compare_swap in H; [lia|by eapply sorted_valid|by eapply sorted_valid].
Qed.

Lemma sorted_NoDup l : sorted_kvs valid c l → NoDup l.
Proof using ComparatorOk0.
  intros Hs. apply NoDup_alt. intros i j x Hi Hj. destruct (Nat.lt_total i j) as [Hij|[?|Hij]]; [|done|].
  - pose proof (sorted_lookup_lt l i j x x Hs Hij Hi Hj). rewrite Compare_refl in *; [lia|by eapply sorted_valid].
  - pose proof (sorted_lookup_lt l j i x x Hs Hij Hj Hi). rewrite Compare_refl in *; [lia|by eapply sorted_valid].
Qed.

Lemma mjoin_NoDup_inj {A} (xs : list (list A)) i j x l k : NoDup (mjoin xs) →
  xs !! i = Some l → xs !! j = Some k → x ∈ l → x ∈ k → i = j.
Proof.
  revert i j. induction xs as [|y xs IH]; intros i j Hnd Hi Hj Hx Hx'; [done|]. simpl in Hnd.
  apply NoDup_app in Hnd as (_ & Hdis & Hnd).
  assert (Hin : ∀ n z, xs !! n = Some z → x ∈ z → x ∈ mjoin xs)
    by (intros n z Hz Hxz; apply list_elem_of_join; exists z; split; [done|by eapply list_elem_of_lookup_2]).
  destruct i as [|i], j as [|j]; simpl in Hi, Hj; simplify_eq; [done| | |].
  - exfalso. by apply (Hdis x Hx), (Hin j k).
  - exfalso. by apply (Hdis x Hx'), (Hin i l).
  - f_equal. by apply (IH i j).
Qed.

(** A key occurs in one child only. *)
Lemma child_unique i j l k x y : ls !! i = Some l → ls !! j = Some k → x ∈ l → y ∈ k →
  Compare c x.1 y.1 = 0 → i = j ∧ x = y.
Proof using HL Hperm ComparatorOk0.
  intros Hi Hj Hx Hy Hxy. assert (x = y) as -> by (apply L_key_inj; [exact (child_elem _ _ _ Hi Hx)|exact (child_elem _ _ _ Hj Hy)|done]).
  split; [|done]. apply (mjoin_NoDup_inj ls i j y l k); try done. rewrite <- Hperm. exact (sorted_NoDup L HL).
Qed.

Lemma wrapper_at i l w n : ls !! i = Some l → WrapperR (R i) w (Some n) →
  ∃ kv, l !! n = Some kv ∧ valid_ w = true ∧ key_ w = kv.1.
Proof using Hok.
  intros Hl HR. pose proof (Hok i l Hl) as HO.
  destruct (lookup_lt_is_Some_2 l n) as [kv Hkv]; [exact (R_bound (R := WrapperR (R i)) w n HR)|].
  exists kv. pose proof (Valid_ok (R := WrapperR (R i)) w _ HR) as HV. simpl in HV.
  pose proof (key_ok (R := WrapperR (R i)) w n kv HR Hkv) as HK. simpl in HK. rewrite HV in HK.
  simpl in HK. rewrite HV. by simplify_eq.
Qed.

Lemma wrapper_none i l w : ls !! i = Some l → WrapperR (R i) w None → valid_ w = false.
Proof using Hok. intros Hl HR. pose proof (Hok i l Hl) as HO. exact (Valid_ok (R := WrapperR (R i)) w _ HR). Qed.

Lemma all_child cs pos i w : AllAt cs pos → cs !! i = Some w → ∃ l, ls !! i = Some l ∧ WrapperR (R i) w (pos i l).
Proof.
  intros [Hlen Hall] Hw. destruct (lookup_lt_is_Some_2 ls i) as [l Hl]; [apply lookup_lt_Some in Hw; lia|].
  exists l. split; [done|]. by apply Hall.
Qed.

Lemma all_list cs pos i l : AllAt cs pos → ls !! i = Some l → ∃ w, cs !! i = Some w ∧ WrapperR (R i) w (pos i l).
Proof.
  intros [Hlen Hall] Hl. destruct (lookup_lt_is_Some_2 cs i) as [w Hw]; [apply lookup_lt_Some in Hl; lia|].
  exists w. split; [done|]. by apply Hall.
Qed.

(** The valid children carry keys of their lists. *)
Lemma all_valid_key cs pos i w : AllAt cs pos → cs !! i = Some w → valid_ w = true →
  ∃ l n kv, ls !! i = Some l ∧ pos i l = Some n ∧ l !! n = Some kv ∧ key_ w = kv.1.
Proof using Hok.
  intros Hall Hw Hv. destruct (all_child _ _ _ _ Hall Hw) as (l & Hl & HR). destruct (pos i l) as [n|] eqn:Hp.
  - destruct (wrapper_at i l w n Hl HR) as (kv & Hkv & _ & Hk). by exists l, n, kv.
  - by rewrite (wrapper_none i l w Hl HR) in Hv.
Qed.

Lemma all_key_valid cs pos i w : AllAt cs pos → cs !! i = Some w → valid_ w = true → valid (key_ w).
Proof using Hok Hls.
  intros Hall Hw Hv. destruct (all_valid_key cs pos i w Hall Hw Hv) as (l & n & kv & Hl & _ & Hkv & ->).
  by eapply sorted_valid; [apply (Hls i)|].
Qed.

Lemma FindSmallest_best cs pos : AllAt cs pos →
  best_of cs (λ a b, Compare c a b <= 0) (seq 0 (length cs)) (FindSmallest c cs).
Proof using Hok Hls ComparatorOk0.
  intros Hall. apply (best_scan cs (λ a b, Compare c a b <? 0) _ valid).
  - intros i w. by apply (all_key_valid cs pos).
  - intros a Va. by rewrite Compare_refl.
  - intros a b d Va Vb Vd. by apply Compare_le_trans.
  - intros a b Va Vb ?%Z.ltb_lt. lia.
  - intros a b Va Vb ?%Z.ltb_ge. apply Compare_nlt; [done..|lia].
  - intros i Hi. apply elem_of_seq. lia.
Qed.

Lemma FindLargest_best cs pos : AllAt cs pos →
  best_of cs (λ a b, Compare c b a <= 0) (seq 0 (length cs)) (FindLargest c cs).
Proof using Hok Hls ComparatorOk0.
  intros Hall. apply (best_scan cs (λ a b, Compare c a b >? 0) _ valid).
  - intros i w. by apply (all_key_valid cs pos).
  - intros a Va. by rewrite Compare_refl.
  - intros a b d Va Vb Vd H1 H2. exact (Compare_le_trans d b a Vd Vb Va H2 H1).
  - intros a b Va Vb ?%Z.gtb_lt. apply Z.lt_le_incl, Compare_swap; [done..|lia].
  - intros a b Va Vb H. rewrite Z.gtb_ltb in H. apply Z.ltb_ge in H. lia.
  - intros i Hi. apply elem_of_reverse, elem_of_seq. lia.
Qed.

(** A cut of [L] at an entry cuts every child at that entry's key. *)
Lemma cut_at_key P kv x : downward (valid := valid) (c := c) P → L !! cut P L = Some kv → x ∈ L →
  P x.1 = below c kv.1 x.1.
Proof using HL ComparatorOk0.
  intros HP Hkv [i Hi]%list_elem_of_lookup. apply eq_bool_prop_intro. unfold below.
  rewrite !Is_true_true, Z.ltb_lt. split.
  - intros HPx. destruct (decide (i < cut P L)%nat); [by apply (sorted_lookup_lt L i (cut P L) x kv HL)|].
    rewrite (cut_after L P i x HL HP) in HPx; [done|lia|done].
  - intros Hlt. apply (cut_before P L i); [|done]. by apply (sorted_lookup_lt_inv L i (cut P L) x kv HL).
Qed.

Lemma upto_at_key P n kv x : downward (valid := valid) (c := c) P → cut P L = Datatypes.S n → L !! n = Some kv → x ∈ L →
  P x.1 = upto c kv.1 x.1.
Proof using HL ComparatorOk0.
  intros HP Hc Hkv [i Hi]%list_elem_of_lookup. apply eq_bool_prop_intro. unfold upto.
  rewrite !Is_true_true, Z.leb_le. split.
  - intros HPx. destruct (decide (i < n)%nat); [apply Z.lt_le_incl; by apply (sorted_lookup_lt L i n x kv HL)|].
    destruct (decide (i = n)) as [->|]; [simplify_eq; rewrite Compare_refl by (by eapply sorted_valid); lia|].
    rewrite (cut_after L P i x HL HP) in HPx; [done|lia|done].
  - intros Hle. apply (cut_before P L i); [|done]. rewrite Hc.
    destruct (decide (i <= n)%nat); [lia|]. exfalso.
    pose proof (sorted_lookup_lt L n i kv x HL ltac:(lia) Hkv Hi) as H.
    apply Compare_swap in H; [lia|by eapply sorted_valid|by eapply sorted_valid].
Qed.
(** The best child is best among all entries with the property [Q], when every child
    with such an entry is at its best one. *)
Lemma best_extreme cs pos le Q res :
  (∀ a b d, valid a → valid b → valid d → le a b → le b d → le a d) →
  AllAt cs pos → best_of cs le (seq 0 (length cs)) res →
  (∀ i l n x, ls !! i = Some l → pos i l = Some n → l !! n = Some x → Q x) →
  (∀ i l m x, ls !! i = Some l → l !! m = Some x → Q x → ∃ n y, pos i l = Some n ∧ l !! n = Some y ∧ le y.1 x.1) →
  match res with
  | None => ∀ x, x ∈ L → ¬ Q x
  | Some j => ∃ l n x, ls !! j = Some l ∧ pos j l = Some n ∧ l !! n = Some x ∧ Q x ∧ ∀ y, y ∈ L → Q y → le x.1 y.1
  end.
Proof using Hok Hls Hperm.
  intros le_trans Hall Hb HA HB. destruct res as [j|]; simpl in Hb.
  - destruct Hb as (s & Hs & Hv & Hle).
    destruct (all_valid_key cs _ j s Hall Hs Hv) as (l & n & x & Hl & Hn & Hx & Hk).
    exists l, n, x. split_and!; [done..|by eapply HA|]. intros y Hy HQ.
    destruct (elem_child y Hy) as (i & li & m & Hi & Hm). destruct (HB i li m y Hi Hm HQ) as (n' & z & Hn' & Hz & Hzy).
    destruct (all_list cs _ i li Hall Hi) as (w & Hw & HR). rewrite Hn' in HR.
    destruct (wrapper_at i li w n' Hi HR) as (z' & Hz' & Hvw & Hkw). simplify_eq.
    pose proof (sorted_valid _ _ _ (Hls j l Hl) Hx). pose proof (sorted_valid _ _ _ (Hls i li Hi) Hm).
    pose proof (sorted_valid _ _ _ (Hls i li Hi) Hz).
    apply (le_trans _ z.1); [done..| |done]. rewrite <- Hk, <- Hkw. apply (Hle i w); [|done..].
    apply elem_of_seq. apply lookup_lt_Some in Hw. lia.
  - intros x Hx HQ. destruct (elem_child x Hx) as (i & li & m & Hi & Hm).
    destruct (HB i li m x Hi Hm HQ) as (n' & z & Hn' & Hz & _).
    destruct (all_list cs _ i li Hall Hi) as (w & Hw & HR). rewrite Hn' in HR.
    destruct (wrapper_at i li w n' Hi HR) as (_ & _ & Hvw & _).
    rewrite (Hb i w) in Hvw; [done| |done]. apply elem_of_seq. apply lookup_lt_Some in Hw. lia.
Qed.

(** With every child at the first entry past a cut, the smallest child is at the entry
    of [L] past the cut. *)
Lemma smallest_at cs P : downward (valid := valid) (c := c) P →
  AllAt cs (λ _ l, at_index l (cut P l)) →
  match L !! cut P L with
  | None => FindSmallest c cs = None
  | Some kv => ∃ j l, FindSmallest c cs = Some j ∧ ls !! j = Some l ∧ l !! cut P l = Some kv
  end.
Proof using Hok Hls HL Hperm ComparatorOk0.
  intros HP Hall. pose proof (best_extreme cs _ (λ a b, Compare c a b <= 0) (λ x, P x.1 = false) (FindSmallest c cs)
    ltac:(intros *; apply Compare_le_trans) Hall (FindSmallest_best cs _ Hall)) as Hbest.
  supply Hbest.
  { intros i l n x Hl [<- Hn]%at_index_inv Hx. by eapply cut_at. }
  supply Hbest.
  { intros i l m x Hl Hm HPx.
    assert (cut P l <= m)%nat as Hcm.
    { destruct (decide (m < cut P l)%nat) as [H|]; [|lia]. by rewrite (cut_before P l m x H Hm) in HPx. }
    pose proof (lookup_lt_Some _ _ _ Hm). destruct (lookup_lt_is_Some_2 l (cut P l)) as [y Hy]; [lia|].
    exists (cut P l), y. rewrite at_index_Some by lia. split_and!; [done..|].
    destruct (decide (cut P l = m)) as [E|].
    - rewrite E in Hy. simplify_eq. rewrite Compare_refl; [lia|by eapply sorted_valid; [apply (Hls i l Hl)|]].
    - apply Z.lt_le_incl, (sorted_lookup_lt l (cut P l) m y x (Hls i l Hl)); [lia|done..]. }
  destruct (FindSmallest c cs) as [j|].
  - destruct Hbest as (l & n & x & Hl & [<- Hn]%at_index_inv & Hx & HPx & Hmin).
    assert (x ∈ L) as [r Hr]%list_elem_of_lookup by (apply (child_elem j l); [done|by eapply list_elem_of_lookup_2]).
    assert (cut P L <= r)%nat as Hcr.
    { destruct (decide (r < cut P L)%nat) as [H|]; [|lia]. by rewrite (cut_before P L r x H Hr) in HPx. }
    destruct (lookup_lt_is_Some_2 L (cut P L)) as [kv Hkv]; [apply lookup_lt_Some in Hr; lia|]. rewrite Hkv.
    exists j, l. split_and!; [done..|]. destruct (decide (r = cut P L)) as [->|]; [congruence|]. exfalso.
    pose proof (sorted_lookup_lt L (cut P L) r kv x HL ltac:(lia) Hkv Hr) as H.
    apply Compare_swap in H; [|by eapply sorted_valid..].
    pose proof (Hmin kv ltac:(by eapply list_elem_of_lookup_2) (cut_at P L kv Hkv)). lia.
  - destruct (L !! cut P L) as [kv|] eqn:Hkv; [|done]. exfalso.
    apply (Hbest kv); [by eapply list_elem_of_lookup_2|by apply (cut_at P L)].
Qed.

(** With every child at the last entry before a cut, the largest child is at the entry
    of [L] before the cut. *)
Lemma largest_at cs P : downward (valid := valid) (c := c) P →
  AllAt cs (λ _ l, before (cut P l)) →
  match cut P L with
  | O => FindLargest c cs = None
  | Datatypes.S r => ∃ kv j l n, L !! r = Some kv ∧ FindLargest c cs = Some j ∧ ls !! j = Some l ∧
      cut P l = Datatypes.S n ∧ l !! n = Some kv
  end.
Proof using Hok Hls HL Hperm ComparatorOk0.
  intros HP Hall. pose proof (best_extreme cs _ (λ a b, Compare c b a <= 0) (λ x, P x.1 = true) (FindLargest c cs)
    ltac:(intros a b d Va Vb Vd H1 H2; exact (Compare_le_trans d b a Vd Vb Va H2 H1)) Hall (FindLargest_best cs _ Hall)) as Hbest.
  supply Hbest.
  { intros i l n x Hl Hn Hx. destruct (cut P l) as [|n'] eqn:E; [done|]. simpl in Hn. simplify_eq.
    apply (cut_before P l n); [lia|done]. }
  supply Hbest.
  { intros i l m x Hl Hm HPx. pose proof (lookup_lt_Some _ _ _ Hm).
    destruct (cut P l) as [|n] eqn:E.
    { rewrite (cut_after l P m x (Hls i l Hl) HP) in HPx; [done|lia|done]. }
    pose proof (cut_le P l). destruct (lookup_lt_is_Some_2 l n) as [y Hy]; [lia|].
    assert (m <= n)%nat as Hmn.
    { destruct (decide (cut P l <= m)%nat) as [H'|]; [|lia]. by rewrite (cut_after l P m x (Hls i l Hl) HP H' Hm) in HPx. }
    exists n, y. split_and!; [done..|]. destruct (decide (m = n)) as [->|].
    - simplify_eq. rewrite Compare_refl; [lia|by eapply sorted_valid; [apply (Hls i l Hl)|]].
    - apply Z.lt_le_incl, (sorted_lookup_lt l m n x y (Hls i l Hl)); [lia|done..]. }
  destruct (FindLargest c cs) as [j|].
  - destruct Hbest as (l & n & x & Hl & Hn & Hx & HPx & Hmax).
    assert (x ∈ L) as [q Hq]%list_elem_of_lookup by (apply (child_elem j l); [done|by eapply list_elem_of_lookup_2]).
    assert (q < cut P L)%nat as Hcq.
    { destruct (decide (cut P L <= q)%nat) as [H|]; [|lia]. by rewrite (cut_after L P q x HL HP H Hq) in HPx. }
    destruct (cut P L) as [|r] eqn:E; [lia|]. pose proof (cut_le P L).
    destruct (lookup_lt_is_Some_2 L r) as [kv Hkv]; [lia|]. exists kv, j, l, n.
    destruct (cut P l) as [|n'] eqn:E'; simpl in Hn; simplify_eq. split_and!; [done..|].
    destruct (decide (q = r)) as [->|]; [congruence|]. exfalso.
    pose proof (sorted_lookup_lt L q r x kv HL ltac:(lia) Hq Hkv) as H'.
    apply Compare_swap in H'; [|by eapply sorted_valid..].
    pose proof (Hmax kv ltac:(by eapply list_elem_of_lookup_2) (cut_before P L r kv ltac:(lia) Hkv)). lia.
  - destruct (cut P L) as [|r] eqn:E; [done|]. exfalso. pose proof (cut_le P L).
    destruct (lookup_lt_is_Some_2 L r) as [kv Hkv]; [lia|].
    apply (Hbest kv); [by eapply list_elem_of_lookup_2|]. apply (cut_before P L r); [lia|done].
Qed.

Lemma AllAt_ext cs pos pos' : AllAt cs pos → (∀ i l, ls !! i = Some l → pos i l = pos' i l) → AllAt cs pos'.
Proof. intros [Hlen H] E. split; [done|]. intros i w l Hw Hl. rewrite <- E by done. by apply H. Qed.

Lemma AllAt_somewhere cs pos : AllAt cs pos → AllSomewhere cs.
Proof. intros [Hl H]. split; [done|]. intros i w l Hw Hi. exists (pos i l). by apply H. Qed.

(** Below and up to a key are the same cut in a child that does not hold it. *)
Lemma upto_below i j l l' kv : i ≠ j → ls !! i = Some l → ls !! j = Some l' → kv ∈ l' →
  cut (upto c kv.1) l = cut (below c kv.1) l.
Proof using HL Hperm ComparatorOk0.
  intros Hij Hl Hl' Hkv. apply cut_ext. intros x Hx. unfold upto, below.
  assert (Compare c x.1 kv.1 ≠ 0) as Hne by (intros E; by destruct (child_unique i j l l' x kv Hl Hl' Hx Hkv E)).
  destruct (Z.leb_spec (Compare c x.1 kv.1) 0), (Z.ltb_spec (Compare c x.1 kv.1) 0); (done || lia).
Qed.

Lemma moved_forward_ok m cs P : comparator_ m = c → downward (valid := valid) (c := c) P →
  AllAt cs (λ _ l, at_index l (cut P l)) → MergingR (moved_forward m cs) (at_index L (cut P L)).
Proof using Hok Hls HL Hperm ComparatorOk0.
  intros Hm HP Hall. split; [done|]. simpl. rewrite Hm. pose proof (smallest_at cs P HP Hall) as Hs.
  destruct (L !! cut P L) as [kv|] eqn:Hkv.
  - destruct Hs as (j & l & Hj & Hl & Hc). rewrite at_index_Some by (by eapply lookup_lt_Some).
    exists kv, j, (cut P l), l. split_and!; [done..|]. apply (AllAt_ext _ _ _ Hall). intros i li Hi.
    case_decide as E; [subst i; simplify_eq; apply at_index_Some; by eapply lookup_lt_Some|].
    f_equal. apply cut_ext. intros x Hx. apply cut_at_key; [done..|]. by apply (child_elem i li).
  - rewrite at_index_None by (by apply lookup_ge_None). split; [done|]. by eapply AllAt_somewhere.
Qed.

Lemma moved_reverse_ok m cs P : comparator_ m = c → downward (valid := valid) (c := c) P →
  AllAt cs (λ _ l, before (cut P l)) → MergingR (moved_reverse m cs) (before (cut P L)).
Proof using Hok Hls HL Hperm ComparatorOk0.
  intros Hm HP Hall. split; [done|]. simpl. rewrite Hm. pose proof (largest_at cs P HP Hall) as Hs.
  destruct (cut P L) as [|r] eqn:Hc; [split; [done|by eapply AllAt_somewhere]|].
  destruct Hs as (kv & j & l & n & Hkv & Hj & Hl & Hn & Hln). simpl. exists kv, j, n, l. split_and!; [done..|].
  apply (AllAt_ext _ _ _ Hall). intros i li Hi. case_decide as E; [subst i; simplify_eq; by rewrite Hn|].
  f_equal. rewrite <- (upto_below i j li l kv) by (done || by eapply list_elem_of_lookup_2).
  apply cut_ext. intros x Hx. apply (upto_at_key P r); [done..|]. by apply (child_elem i li).
Qed.

(** Moving every child. *)
Lemma for_all_children f cs Q Q' : AllW Q cs →
  (∀ i l w, ls !! i = Some l → Q i l w → ∃ w', f i w = Some w' ∧ Q' i l w') →
  ∃ cs', for_children f 0 cs = Some cs' ∧ AllW Q' cs'.
Proof.
  intros [Hl Hall] Hf.
  destruct (for_children_spec (λ i w, ∀ l, ls !! i = Some l → Q' i l w) f 0 cs) as (cs' & Hcs & Hlen & H).
  { intros n w Hw. destruct (lookup_lt_is_Some_2 ls n) as [l Hn]; [apply lookup_lt_Some in Hw; lia|].
    destruct (Hf n l w Hn (Hall n w l Hw Hn)) as (w' & ? & ?). exists w'. split; [done|].
    intros l' Hl'. simpl in Hl'. by simplify_eq. }
  exists cs'. split; [done|]. split; [congruence|]. intros i w l Hw Hi. by apply (H i w).
Qed.

Lemma AllAt_insert cs pos j w l q : AllAt cs pos → ls !! j = Some l → WrapperR (R j) w q →
  AllAt (<[j := w]> cs) (λ i l, if decide (i = j) then q else pos i l).
Proof.
  intros [Hlen H] Hl HR. split; [by rewrite length_insert|]. intros i w' l' Hw Hl'.
  apply list_lookup_insert_Some in Hw as [(-> & -> & _)|[Hne Hw]].
  - rewrite decide_True by done. done.
  - rewrite decide_False by done. by apply H.
Qed.

Lemma Merging_status_ok cs : AllSomewhere cs → Merging_status cs = OK.
Proof using Hok.
  intros [Hlen Hall]. assert (H : ∀ w, w ∈ cs → status w = OK).
  { intros w [i Hw]%list_elem_of_lookup. destruct (lookup_lt_is_Some_2 ls i) as [l Hl]; [apply lookup_lt_Some in Hw; lia|].
    destruct (Hall i w l Hw Hl) as [q HR]. pose proof (Hok i l Hl) as HO. exact (status_is_ok (R := WrapperR (R i)) w _ HR). }
  clear Hlen Hall. induction cs as [|w cs IH]; [done|]. cbn [Merging_status]. rewrite (H w) by left. simpl.
  destruct cs as [|w' cs]; [done|]. apply IH. intros x Hx. apply H. by right.
Qed.

Lemma MergingR_all m p : MergingR m p → comparator_ m = c ∧ AllSomewhere (children_ m).
Proof.
  intros [Hc H]. split; [done|]. destruct p as [r|]; [|by destruct H].
  destruct H as (?&?&?&?&?&?&?&?&?). by eapply AllAt_somewhere.
Qed.

(** A seek: all children to a cut, then the smallest or the largest. *)
Lemma Merging_seek_ok m p P f : MergingR m p → downward (valid := valid) (c := c) P →
  (∀ i l w q, ls !! i = Some l → WrapperR (R i) w q → ∃ w', f i w = Some w' ∧ WrapperR (R i) w' (at_index l (cut P l))) →
  ∃ cs, for_children f 0 (children_ m) = Some cs ∧ MergingR (moved_forward m cs) (at_index L (cut P L)).
Proof using Hok Hls HL Hperm ComparatorOk0.
  intros HR HP Hf. destruct (MergingR_all m p HR) as [Hc Hall].
  destruct (for_all_children f (children_ m) _ (λ i l w, WrapperR (R i) w (at_index l (cut P l))) Hall) as (cs & Hcs & Hall').
  { intros i l w Hl [q Hw]. by apply (Hf i l w q). }
  exists cs. split; [done|]. by apply moved_forward_ok.
Qed.

Lemma Merging_Next_ok m r : MergingR m (Some r) → ∃ m', Merging_Next m = Some m' ∧ MergingR m' (at_index L (Datatypes.S r)).
Proof using Hok Hls HL Hperm ComparatorOk0.
  intros [Hc (kv & j & n & l & Hkv & Hj & Hl & Hn & Hall)]. pose proof (Hok j l Hl) as HOj.
  assert (Hkl : kv ∈ l) by (by eapply list_elem_of_lookup_2).
  destruct (all_list _ _ j l Hall Hl) as (w & Hw & HR). rewrite decide_True in HR by done.
  destruct (wrapper_at j l w n Hl HR) as (kv' & ? & Hv & Hk). simplify_eq.
  assert (Hkvv : valid kv.1) by (by eapply sorted_valid).
  unfold Merging_Next. rewrite Hj. simpl. rewrite Hw. simpl. rewrite Hk.
  assert (∃ cs, (if decide (direction_ m = kForward) then Some (children_ m)
      else for_children (child_forward (comparator_ m) j kv.1) 0 (children_ m)) = Some cs ∧
    AllAt cs (λ i l, if decide (i = j) then Some n else at_index l (cut (upto c kv.1) l))) as (cs & -> & Hall').
  { case_decide as Hd.
    - exists (children_ m). split; [done|]. apply (AllAt_ext _ _ _ Hall). intros i li Hi. rewrite Hd.
      case_decide; [done|]. by rewrite (upto_below i j li l).
    - apply (for_all_children _ _ _ _ Hall). intros i li wi Hi HRi. unfold child_forward.
      case_decide as Hij; [by exists wi|]. pose proof (Hok i li Hi) as HOi.
      destruct (Seek_ok (R := WrapperR (R i)) kv.1 wi _ Hkvv HRi) as (wi' & -> & HRi'). simpl.
      unfold lower_bound in HRi'. rewrite <- (upto_below i j li l) in HRi' by done.
      destruct (valid_ wi') eqn:Hvi; simpl; [|by exists wi'].
      destruct (at_index li (cut (upto c kv.1) li)) as [q|] eqn:Hq; [|by rewrite (wrapper_none i li wi' Hi HRi') in Hvi].
      destruct (wrapper_at i li wi' q Hi HRi') as (x & Hx & _ & ->).
      destruct (Z.eqb_spec (Compare (comparator_ m) kv.1 x.1) 0) as [E|]; [|by exists wi']. exfalso.
      rewrite Hc in E. by destruct (child_unique j i l li kv x Hl Hi Hkl ltac:(by eapply list_elem_of_lookup_2) E). }
  simpl. destruct (all_list _ _ j l Hall' Hl) as (w' & Hw' & HR'). rewrite decide_True in HR' by done. rewrite Hw'. simpl.
  destruct (Next_ok (R := WrapperR (R j)) w' n HR') as (w'' & Hnext & HR''). simpl in Hnext. rewrite Hnext. simpl.
  eexists. split; [done|]. rewrite <- (upto_at L r kv HL Hkv).
  apply moved_forward_ok; [done|by apply upto_downward|].
  apply (AllAt_ext _ _ _ (AllAt_insert _ _ j w'' l _ Hall' Hl HR'')). intros i li Hi.
  case_decide as Hij; [|done]. subst i. simplify_eq. by rewrite (upto_at l n kv (Hls j l Hl) Hn).
Qed.

Lemma Merging_Prev_ok m r : MergingR m (Some r) → ∃ m', Merging_Prev m = Some m' ∧ MergingR m' (before r).
Proof using Hok Hls HL Hperm ComparatorOk0.
  intros [Hc (kv & j & n & l & Hkv & Hj & Hl & Hn & Hall)]. pose proof (Hok j l Hl) as HOj.
  destruct (all_list _ _ j l Hall Hl) as (w & Hw & HR). rewrite decide_True in HR by done.
  destruct (wrapper_at j l w n Hl HR) as (kv' & ? & Hv & Hk). simplify_eq.
  assert (Hkvv : valid kv.1) by (by eapply sorted_valid).
  unfold Merging_Prev. rewrite Hj. simpl. rewrite Hw. simpl. rewrite Hk.
  assert (∃ cs, (if decide (direction_ m = kReverse) then Some (children_ m)
      else for_children (child_reverse j kv.1) 0 (children_ m)) = Some cs ∧
    AllAt cs (λ i l, if decide (i = j) then Some n else before (cut (below c kv.1) l))) as (cs & -> & Hall').
  { case_decide as Hd.
    - exists (children_ m). split; [done|]. apply (AllAt_ext _ _ _ Hall). intros i li Hi. by rewrite Hd.
    - apply (for_all_children _ _ _ _ Hall). intros i li wi Hi HRi. unfold child_reverse.
      case_decide as Hij; [by exists wi|]. pose proof (Hok i li Hi) as HOi.
      destruct (Seek_ok (R := WrapperR (R i)) kv.1 wi _ Hkvv HRi) as (wi' & -> & HRi'). simpl.
      unfold lower_bound in HRi'. destruct (decide (cut (below c kv.1) li < length li)%nat) as [Hlt|Hge].
      + rewrite at_index_Some in HRi' by done. destruct (wrapper_at i li wi' _ Hi HRi') as (x & Hx & -> & _).
        exact (Prev_ok (R := WrapperR (R i)) wi' _ HRi').
      + rewrite at_index_None in HRi' by lia. rewrite (wrapper_none i li wi' Hi HRi').
        replace (cut (below c kv.1) li) with (length li) by (pose proof (cut_le (below c kv.1) li); lia).
        exact (SeekToLast_ok (R := WrapperR (R i)) wi' None HRi'). }
  simpl. destruct (all_list _ _ j l Hall' Hl) as (w' & Hw' & HR'). rewrite decide_True in HR' by done. rewrite Hw'. simpl.
  destruct (Prev_ok (R := WrapperR (R j)) w' n HR') as (w'' & Hprev & HR''). simpl in Hprev. rewrite Hprev. simpl.
  eexists. split; [done|]. rewrite <- (lower_bound_at L r kv HL Hkv).
  apply moved_reverse_ok; [done|by apply below_downward|].
  apply (AllAt_ext _ _ _ (AllAt_insert _ _ j w'' l _ Hall' Hl HR'')). intros i li Hi.
  case_decide as Hij; [|done]. subst i. simplify_eq. by rewrite <- (lower_bound_at l n kv (Hls j l Hl) Hn) at 1.
Qed.

Lemma MergingIterator_ok : IteratorOk valid c L MergingR.
Proof using Hok Hls HL Hperm ComparatorOk0.
  split.
  - intros m r [_ (kv & j & n & l & Hkv & _)]. by eapply lookup_lt_Some.
  - intros m [r|] [_ H]; simpl.
    + destruct H as (kv & j & n & l & _ & -> & _). done.
    + destruct H as [-> _]. done.
  - intros m r kv' [_ (kv & j & n & l & Hkv & Hj & Hl & Hn & Hall)] Hr. simplify_eq/=. rewrite Hj. simpl.
    destruct (all_list _ _ j l Hall Hl) as (w & -> & HR). rewrite decide_True in HR by done. simpl.
    destruct (wrapper_at j l w n Hl HR) as (x & ? & -> & ->). by simplify_eq.
  - intros m r kv' [_ (kv & j & n & l & Hkv & Hj & Hl & Hn & Hall)] Hr. simplify_eq/=. rewrite Hj. simpl.
    destruct (all_list _ _ j l Hall Hl) as (w & -> & HR). rewrite decide_True in HR by done.
    pose proof (Hok j l Hl) as HO. exact (value_ok (R := WrapperR (R j)) w n _ HR Hn).
  - intros m p HR. destruct (MergingR_all m p HR) as [_ Hall]. by apply Merging_status_ok.
  - intros m p HR. simpl. unfold Merging_SeekToFirst.
    destruct (Merging_seek_ok m p (λ _, false) (λ _, SeekToFirst) HR (false_downward)) as (cs & -> & HR').
    { intros i l w q Hl Hw. pose proof (Hok i l Hl) as HO. rewrite cut_false.
      exact (SeekToFirst_ok (R := WrapperR (R i)) w q Hw). }
    eexists. split; [done|]. by rewrite cut_false in HR'.
  - intros m p HR. simpl. unfold Merging_SeekToLast. destruct (MergingR_all m p HR) as [Hc Hall].
    destruct (for_all_children (λ _, SeekToLast) (children_ m) _ (λ i l w, WrapperR (R i) w (before (cut (λ _, true) l))) Hall)
      as (cs & -> & Hall').
    { intros i l w Hl [q Hw]. pose proof (Hok i l Hl) as HO. rewrite cut_true.
      exact (SeekToLast_ok (R := WrapperR (R i)) w q Hw). }
    eexists. split; [done|]. rewrite <- (cut_true L). by apply moved_reverse_ok; [|apply true_downward|].
  - intros t m p Ht HR. simpl. unfold Merging_Seek.
    destruct (Merging_seek_ok m p (below c t) (λ _, Seek t) HR (below_downward t Ht)) as (cs & -> & HR'); [|by eexists].
    intros i l w q Hl Hw. pose proof (Hok i l Hl) as HO. exact (Seek_ok (R := WrapperR (R i)) t w q Ht Hw).
  - apply Merging_Next_ok.
  - apply Merging_Prev_ok.
Qed.
End Merging.

(** The constructor caches every child. *)
Lemma MergingIterator_make_ok {S} `{!Iterator S} {valid c} ls L (children : list S) :
  length children = length ls →
  (∀ i s l, children !! i = Some s → ls !! i = Some l → ∃ p, positioned valid c l s p) →
  ∃ m, MergingIterator_make c children = Some m ∧
    MergingR (c := c) ls (λ i s p, ∀ l, ls !! i = Some l → positioned valid c l s p) L m None.
Proof.
  intros Hlen Hch. assert (H : Forall (λ s, is_Some (Wrapper_make s)) children).
  { apply Forall_forall. intros s [i Hi]%list_elem_of_lookup.
    destruct (lookup_lt_is_Some_2 ls i) as [l Hli]; [apply lookup_lt_Some in Hi; lia|].
    destruct (Hch i s l Hi Hli) as [p Hp]. destruct (Wrapper_make_ok s p Hp) as (w & ? & _). by eexists. }
  apply mapM_is_Some in H as [cs Hcs]. unfold MergingIterator_make. rewrite Hcs. eexists. split; [done|].
  apply mapM_Some in Hcs. split; [done|]. split; [done|]. simpl.
  split; [apply Forall2_length in Hcs; simpl; congruence|].
  intros i w l Hi Hli. eapply Forall2_lookup_r in Hcs as (s & Hs & Hw); [|done].
  destruct (Hch i s l Hs Hli) as [p Hp]. destruct (Wrapper_make_ok s p Hp) as (w' & Hw' & HR). rewrite Hw in Hw'. simplify_eq.
  exists p. destruct HR as (s' & ? & HR' & ? & ?). exists s'. split_and!; [done| |done..]. intros l' Hl'. by simplify_eq.
Qed.

(** The relation of a child, read at its list. *)
Lemma child_relation_ok {S} `{!Iterator S} {valid c} (ls : list (list (bytes * bytes))) i l : ls !! i = Some l →
  IteratorOk (S := S) valid c l (λ s p, ∀ l, ls !! i = Some l → positioned valid c l s p).
Proof.
  intros Hl. apply (IteratorOk_ext _ _ _ (positioned valid c l)); [|apply _].
  intros s p. split; [intros H l' Hl'; by simplify_eq|eauto].
Qed.

(** The constructor: no child, the child itself, or a merging iterator. *)
Lemma NewMergingIterator_ok {S} `{!Iterator S} (valid : bytes → Prop) (c : Comparator)
    (ls : list (list (bytes * bytes))) (L : list (bytes * bytes)) (children : list S) :
  ComparatorOk valid c → Forall (sorted_kvs valid c) ls → sorted_kvs valid c L → L ≡ₚ mjoin ls →
  length children = length ls →
  (∀ i s l, children !! i = Some s → ls !! i = Some l → ∃ p, positioned valid c l s p) →
  ∃ it p, NewMergingIterator c children = Some it ∧ positioned valid c L it p ∧
    (length children ≠ 1%nat → p = None).
Proof.
  intros HC Hls HL Hp Hlen Hch. destruct children as [|s [|s' children]].
  - destruct ls; [|done]. apply Permutation_nil_r in Hp as ->. exists (inl NewEmptyIterator), None. split_and!; [done| |done].
    eexists. split; [apply (sum_ok_l _ (EmptyIterator_ok valid c))|]. done.
  - destruct ls as [|l [|]]; [done| |done]. destruct (Hch 0%nat s l eq_refl eq_refl) as [p HR].
    simpl in Hp. rewrite app_nil_r in Hp. apply sorted_kvs_unique in Hp as ->; [|done|by inversion Hls].
    exists (inr (inl s)), p. split_and!; [done| |done]. destruct HR as (R & HO & HR).
    eexists. split; [apply (sum_ok_r _ (sum_ok_l _ HO))|]. done.
  - destruct (MergingIterator_make_ok ls L (s :: s' :: children) Hlen Hch) as (m & Hm & HR).
    exists (inr (inr m)), None. simpl. rewrite Hm. split_and!; [done| |done].
    assert (HO : IteratorOk valid c L (MergingR (c := c) ls (λ i (s : S) p, ∀ l, ls !! i = Some l → positioned valid c l s p) L)).
    { apply MergingIterator_ok; [by apply child_relation_ok| |done..].
      intros i l Hi. exact (Forall_lookup_1 _ _ _ _ Hls Hi). }
    eexists. split; [apply (sum_ok_r _ (sum_ok_r _ HO))|]. done.
Qed.

(** ** Properties *)

(** [C22] A merging iterator over sorted children is an iterator over their sorted union:
    whatever the sequence of [SeekToFirst], [SeekToLast], [Seek], [Next] and [Prev],
    changes of direction included, no assertion fails and the key and value are those
    of the merged list.  The children are only known by the iterator interface; keys
    are distinct across children, as internal keys are. *)
Theorem merging_iterator_correct {S} `{!Iterator S} (valid : bytes → Prop) (c : Comparator)
    (ls : list (list (bytes * bytes))) (L : list (bytes * bytes)) (children : list S) :
  ComparatorOk valid c → Forall (sorted_kvs valid c) ls → sorted_kvs valid c L → L ≡ₚ mjoin ls →
  length children = length ls →
  (∀ i s l, children !! i = Some s → ls !! i = Some l → ∃ p, positioned valid c l s p) →
  ∃ it p, NewMergingIterator c children = Some it ∧ positioned valid c L it p ∧
    (length children ≠ 1%nat → p = None).
Proof. apply NewMergingIterator_ok. Qed.

(** Two lists merged, read forwards and then back. *)
Definition merge_a : list (bytes * bytes) := [([1], [10]); ([4], [40])].
Definition merge_b : list (bytes * bytes) := [([2], [20]); ([3], [30])].
Definition merge_ab : list (bytes * bytes) := [([1], [10]); ([2], [20]); ([3], [30]); ([4], [40])].
Definition list_iter (l : list (bytes * bytes)) : ListIterator :=
  {| list_cmp := BytewiseComparator; list_kvs := l; list_pos := None |}.

Lemma merging_iterator_correct_witness :
  ∃ it p, NewMergingIterator BytewiseComparator [list_iter merge_a; list_iter merge_b] = Some it ∧
    positioned bytes_ok BytewiseComparator merge_ab it p ∧ p = None ∧
    (it ← Seek [3] it; it ← Prev it; it ← Next it; it ← Next it; key it) = Some [4].
Proof.
  destruct (merging_iterator_correct bytes_ok BytewiseComparator [merge_a; merge_b] merge_ab
    [list_iter merge_a; list_iter merge_b]) as (it & p & Hit & HR & Hp).
  - apply _.
  - repeat constructor; by_compute.
  - repeat constructor; by_compute.
  - by_compute.
  - done.
  - intros [|[|i]] s l Hs Hl; simplify_eq/=; exists None; by apply ListIterator_positioned.
  - exists it, p. split_and!; [done..|by apply Hp|]. vm_compute in Hit. injection Hit as <-. vm_compute. reflexivity.
Defined.
