(* ===== verification/TwoLevelIterator.v ===== *)
(** * The two-level iterator

    Model of [App/integration/two_level_iterator.cpp]: an iterator over the
    concatenation of data blocks that an index iterator points to.  [block_function_] is
    the callback that opens an iterator on the block an index value names.  The loops
    that skip empty blocks run at most [fuel_] times; the index has fewer entries. *)
From S2P Require Import Prelude Coding Comparator Status Iterator.
From stdpp Require Import sorting list.

#[local] Open Scope Z_scope.

Record TwoLevelIterator (X D : Type) := {
  block_function_ : bytes → D;
  fuel_ : nat;
  save_status_ : Status;  (** [status_] *)
  index_iter_ : IteratorWrapper X;
  data_iter_ : IteratorWrapper D;
  data_block_handle_ : bytes;
}.
Arguments block_function_ {X D}. Arguments fuel_ {X D}. Arguments save_status_ {X D}.
Arguments index_iter_ {X D}. Arguments data_iter_ {X D}. Arguments data_block_handle_ {X D}.

Section TwoLevel.
Context {X D : Type} `{!Iterator X, !Iterator D}.
Implicit Types t : TwoLevelIterator X D.

Definition with_index (x : IteratorWrapper X) t : TwoLevelIterator X D :=
  {| block_function_ := block_function_ t; fuel_ := fuel_ t; save_status_ := save_status_ t;
   index_iter_ := x; data_iter_ := data_iter_ t; data_block_handle_ := data_block_handle_ t |}.
Definition with_data (d : IteratorWrapper D) t : TwoLevelIterator X D :=
  {| block_function_ := block_function_ t; fuel_ := fuel_ t; save_status_ := save_status_ t;
   index_iter_ := index_iter_ t; data_iter_ := d; data_block_handle_ := data_block_handle_ t |}.
Definition with_handle (h : bytes) t : TwoLevelIterator X D :=
  {| block_function_ := block_function_ t; fuel_ := fuel_ t; save_status_ := save_status_ t;
   index_iter_ := index_iter_ t; data_iter_ := data_iter_ t; data_block_handle_ := h |}.

Definition SaveError (s : Status) t : TwoLevelIterator X D :=
  if Status_ok (save_status_ t) && negb (Status_ok s) then
  {| block_function_ := block_function_ t; fuel_ := fuel_ t; save_status_ := s;
   index_iter_ := index_iter_ t; data_iter_ := data_iter_ t; data_block_handle_ := data_block_handle_ t |}
  else t.

(** [if (data_iter_.iter() != NULL) SaveError(data_iter_.status())] *)
Definition SaveDataError t : TwoLevelIterator X D :=
  match iter_ (data_iter_ t) with Some _ => SaveError (status (data_iter_ t)) t | None => t end.

Definition SetDataIterator (data_iter : option D) t : option (TwoLevelIterator X D) :=
  let t := SaveDataError t in
  d ← Wrapper_Set data_iter (data_iter_ t); Some (with_data d t).

Definition InitDataBlock t : option (TwoLevelIterator X D) :=
  if negb (Valid (index_iter_ t)) then SetDataIterator None t
  else
  handle ← value (index_iter_ t);
  if bool_decide (is_Some (iter_ (data_iter_ t))) && (Slice_compare handle (data_block_handle_ t) =? 0) then Some t
  else SetDataIterator (Some (block_function_ t handle)) (with_handle handle t).

(** [if (data_iter_.iter() != NULL) data_iter_.op()] *)
Definition move_data (op : IteratorWrapper D → option (IteratorWrapper D)) t : option (TwoLevelIterator X D) :=
  match iter_ (data_iter_ t) with
  | None => Some t
  | Some _ => d ← op (data_iter_ t); Some (with_data d t)
  end.

(** [data_iter_.iter() == NULL || !data_iter_.Valid()] *)
Definition data_empty t : bool := negb (bool_decide (is_Some (iter_ (data_iter_ t)))) || negb (Valid (data_iter_ t)).

Fixpoint SkipForward_loop (fuel : nat) t : option (TwoLevelIterator X D) :=
  match fuel with
  | O => None
  | S fuel' =>
      if data_empty t then
      if negb (Valid (index_iter_ t)) then SetDataIterator None t
      else
      x ← Next (index_iter_ t);
      t ← InitDataBlock (with_index x t);
      t ← move_data SeekToFirst t;
      SkipForward_loop fuel' t
      else Some t
  end.
Definition SkipEmptyDataBlocksForward t : option (TwoLevelIterator X D) := SkipForward_loop (fuel_ t) t.

Fixpoint SkipBackward_loop (fuel : nat) t : option (TwoLevelIterator X D) :=
  match fuel with
  | O => None
  | S fuel' =>
      if data_empty t then
      if negb (Valid (index_iter_ t)) then SetDataIterator None t
      else
      x ← Prev (index_iter_ t);
      t ← InitDataBlock (with_index x t);
      t ← move_data SeekToLast t;
      SkipBackward_loop fuel' t
      else Some t
  end.
Definition SkipEmptyDataBlocksBackward t : option (TwoLevelIterator X D) := SkipBackward_loop (fuel_ t) t.

Definition TwoLevel_Seek (target : bytes) t : option (TwoLevelIterator X D) :=
  x ← Seek target (index_iter_ t);
  t ← InitDataBlock (with_index x t);
  t ← move_data (Seek target) t;
  SkipEmptyDataBlocksForward t.
Definition TwoLevel_SeekToFirst t : option (TwoLevelIterator X D) :=
  x ← SeekToFirst (index_iter_ t);
  t ← InitDataBlock (with_index x t);
  t ← move_data SeekToFirst t;
  SkipEmptyDataBlocksForward t.
Definition TwoLevel_SeekToLast t : option (TwoLevelIterator X D) :=
  x ← SeekToLast (index_iter_ t);
  t ← InitDataBlock (with_index x t);
  t ← move_data SeekToLast t;
  SkipEmptyDataBlocksBackward t.

(** [Next] and [Prev] assert [Valid()]. *)
Definition TwoLevel_Next t : option (TwoLevelIterator X D) :=
  if Valid (data_iter_ t) then d ← Next (data_iter_ t); SkipEmptyDataBlocksForward (with_data d t) else None.
Definition TwoLevel_Prev t : option (TwoLevelIterator X D) :=
  if Valid (data_iter_ t) then d ← Prev (data_iter_ t); SkipEmptyDataBlocksBackward (with_data d t) else None.

Definition TwoLevel_status t : Status :=
  if negb (Status_ok (status (index_iter_ t))) then status (index_iter_ t)
  else if bool_decide (is_Some (iter_ (data_iter_ t))) && negb (Status_ok (status (data_iter_ t)))
  then status (data_iter_ t)
  else save_status_ t.

#[export] Instance TwoLevelIterator_Iterator : Iterator (TwoLevelIterator X D) := {
  Valid t := Valid (data_iter_ t);
  SeekToFirst := TwoLevel_SeekToFirst;
  SeekToLast := TwoLevel_SeekToLast;
  Seek := TwoLevel_Seek;
  Next := TwoLevel_Next;
  Prev := TwoLevel_Prev;
  key t := key (data_iter_ t);
  value t := value (data_iter_ t);
  status := TwoLevel_status;
}.

Definition NewTwoLevelIterator (fuel : nat) (index_iter : X) (block_function : bytes → D) : option (TwoLevelIterator X D) :=
  x ← Wrapper_make index_iter;
  Some {| block_function_ := block_function; fuel_ := fuel; save_status_ := OK;
      index_iter_ := x; data_iter_ := Wrapper_empty; data_block_handle_ := [] |}.
End TwoLevel.

(** ** Correctness *)

(** An index over data blocks: [B h] is the content of the block with handle [h]; every
    index key is at or past the keys of its block and before those of the next ones. *)
Record IndexOk (valid : bytes → Prop) (c : Comparator) (il : list (bytes * bytes)) (B : bytes → list (bytes * bytes)) : Prop := {
  index_sorted : sorted_kvs valid c il;
  blocks_sorted : sorted_kvs valid c (mjoin (B ∘ snd <$> il));
  index_upper i kh x : il !! i = Some kh → x ∈ B kh.2 → Compare c x.1 kh.1 <= 0;
  index_lower i j kh kh' x : (i < j)%nat → il !! i = Some kh → il !! j = Some kh' → x ∈ B kh'.2 → Compare c kh.1 x.1 < 0;
}.

Section TwoLevelOk.
Context {X D : Type} `{!Iterator X, !Iterator D}.
Context {valid : bytes → Prop} {c : Comparator} `{!ComparatorOk valid c}.
Context (il : list (bytes * bytes)) (B : bytes → list (bytes * bytes)) (HI : IndexOk valid c il B).
Context (bf : bytes → D) (Hbf : ∀ kh, kh ∈ il → ∃ p, positioned valid c (B kh.2) (bf kh.2) p).
Implicit Types t : TwoLevelIterator X D.

Let ls : list (list (bytes * bytes)) := B ∘ snd <$> il.
Let L : list (bytes * bytes) := mjoin ls.
Let RX : X → option nat → Prop := positioned valid c il.
Let RD (h : bytes) : D → option nat → Prop := positioned valid c (B h).

(** What holds between the steps of an operation: the index at [q], a data iterator, if
  any, on the block of its handle. *)
Definition Loose t (q : option nat) : Prop :=
  block_function_ t = bf ∧ (length il < fuel_ t)%nat ∧ save_status_ t = OK ∧ WrapperR RX (index_iter_ t) q ∧
  (iter_ (data_iter_ t) = None ∧ valid_ (data_iter_ t) = false ∨
   ∃ kh p, kh ∈ il ∧ data_block_handle_ t = kh.2 ∧ WrapperR (RD kh.2) (data_iter_ t) p).

(** The data iterator on the block of index entry [i], at [p]. *)
Definition OnBlock t (i : nat) (p : option nat) : Prop :=
  ∃ kh, il !! i = Some kh ∧ Loose t (Some i) ∧ data_block_handle_ t = kh.2 ∧ WrapperR (RD kh.2) (data_iter_ t) p.
Definition NoBlock t (q : option nat) : Prop := Loose t q ∧ iter_ (data_iter_ t) = None ∧ valid_ (data_iter_ t) = false.

Definition TwoLevelR t (r : option nat) : Prop :=
  match r with
  | None => ∃ q, NoBlock t q
  | Some r => ∃ i n l, ls !! i = Some l ∧ (n < length l)%nat ∧ r = (off ls i + n)%nat ∧ OnBlock t i (Some n)
  end.

Lemma ls_lookup i kh : il !! i = Some kh → ls !! i = Some (B kh.2).
Proof. intros H. unfold ls. by rewrite list_lookup_fmap, H. Qed.

Lemma index_valid w q : WrapperR RX w q → Valid w = bool_decide (is_Some q).
Proof. intros H. exact (Valid_ok (R := WrapperR RX) w q H). Qed.
Lemma data_valid h w p : WrapperR (RD h) w p → Valid w = bool_decide (is_Some p).
Proof. intros H. exact (Valid_ok (R := WrapperR (RD h)) w p H). Qed.

(** Replacing the data iterator records no error. *)
Lemma SaveDataError_id t : iter_ (data_iter_ t) = None ∨ (∃ h p, WrapperR (RD h) (data_iter_ t) p) → SaveDataError t = t.
Proof.
  intros Hd. unfold SaveDataError. destruct (iter_ (data_iter_ t)) eqn:Ei; [|done].
  destruct Hd as [|(h & p & HR)]; [done|]. rewrite (status_is_ok (R := WrapperR (RD h)) _ p HR).
  unfold SaveError. by rewrite andb_false_r.
Qed.

Lemma Loose_data t q : Loose t q → iter_ (data_iter_ t) = None ∨ (∃ h p, WrapperR (RD h) (data_iter_ t) p).
Proof. intros (_ & _ & _ & _ & [[? _]|(kh & p & _ & _ & ?)]); eauto. Qed.

Lemma SetDataIterator_none t q : Loose t q → ∃ t', SetDataIterator None t = Some t' ∧ NoBlock t' q.
Proof.
  intros HL. unfold SetDataIterator. rewrite SaveDataError_id by exact (Loose_data t q HL).
  eexists. split; [done|]. destruct HL as (Hbf' & Hf & Hs & Hx & _). unfold NoBlock, Loose. simpl. split_and!; auto.
Qed.

Lemma SetDataIterator_some t q kh : Loose t q → kh ∈ il →
  ∃ t', SetDataIterator (Some (bf kh.2)) (with_handle kh.2 t) = Some t' ∧ Loose t' q ∧
  data_block_handle_ t' = kh.2 ∧ ∃ p, WrapperR (RD kh.2) (data_iter_ t') p.
Proof using Hbf.
  intros HL Hkh. unfold SetDataIterator. rewrite SaveDataError_id by exact (Loose_data t q HL).
  destruct HL as (Hbf' & Hf & Hs & Hx & _). destruct (Hbf kh Hkh) as [p Hp]. cbn [data_iter_ with_handle Wrapper_Set].
  destruct (Update_ok (R := RD kh.2) (data_iter_ t) (bf kh.2) p Hp) as (w & -> & HR). cbn [mbind option_bind].
  eexists. split; [done|]. unfold Loose. cbn -[WrapperR]. split_and!; eauto. right. by exists kh, p.
Qed.

Lemma InitDataBlock_ok t q : Loose t q → ∃ t', InitDataBlock t = Some t' ∧
  match q with None => NoBlock t' None | Some i => ∃ p, OnBlock t' i p end.
Proof using Hbf HI.
  intros HL. pose proof HL as (Hbf' & Hf & Hs & Hx & Hd). unfold InitDataBlock.
  rewrite (index_valid _ q Hx).
  destruct q as [i|]; cbn [negb]; [rewrite bool_decide_eq_true_2 by eauto|by apply SetDataIterator_none].
  destruct (lookup_lt_is_Some_2 il i) as [kh Hkh]; [exact (R_bound (R := WrapperR RX) _ i Hx)|].
  rewrite (value_ok (R := WrapperR RX) _ i kh Hx Hkh). cbn [mbind option_bind].
  assert (Hel : kh ∈ il) by (by eapply list_elem_of_lookup_2).
  destruct (bool_decide (is_Some (iter_ (data_iter_ t))) && (Slice_compare kh.2 (data_block_handle_ t) =? 0)) eqn:E.
  - apply andb_true_iff in E as [Hi%bool_decide_eq_true Hc%Z.eqb_eq]. rewrite Slice_compare_lex in Hc.
    apply lex_eq in Hc. exists t. split; [done|]. destruct Hd as [[Hn _]|(kh' & p & Hin & Hh & HR)].
    { rewrite Hn in Hi. by destruct Hi. }
    exists p, kh. split_and!; [done..| |]; [congruence|]. by replace kh.2 with kh'.2 by congruence.
  - rewrite Hbf'. destruct (SetDataIterator_some t (Some i) kh HL Hel) as (t' & -> & HL' & Hh & p & HR).
    exists t'. split; [done|]. by exists p, kh.
Qed.

Lemma OnBlock_move t i p (op : IteratorWrapper D → option (IteratorWrapper D)) kh q : il !! i = Some kh → OnBlock t i p →
  (∀ w, WrapperR (RD kh.2) w p → ∃ w', op w = Some w' ∧ WrapperR (RD kh.2) w' q) →
  ∃ t', move_data op t = Some t' ∧ OnBlock t' i q.
Proof.
  intros Hi (kh' & Hi' & HL & Hh & HR) Hop. simplify_eq. unfold move_data. pose proof HR as (s & Es & _). rewrite Es.
  destruct (Hop (data_iter_ t) HR) as (w' & -> & HR'). simpl. eexists. split; [done|].
  exists kh. destruct HL as (? & ? & ? & ? & _). split_and!; [done| |done..]. unfold Loose. simpl. split_and!; try done.
  right. exists kh, q. split_and!; [by eapply list_elem_of_lookup_2|done..].
Qed.

(** Stepping the index and opening the block it points to. *)
Lemma index_step t i x q : Loose t (Some i) → WrapperR RX x q →
  ∃ t', InitDataBlock (with_index x t) = Some t' ∧ match q with None => NoBlock t' None | Some i => ∃ p, OnBlock t' i p end.
Proof using Hbf HI.
  intros (Hbf' & Hf & Hs & Hx & Hd) HR. apply InitDataBlock_ok. unfold Loose. simpl. by split_and!.
Qed.

Lemma move_data_none t q op : NoBlock t q → move_data op t = Some t.
Proof. intros (_ & E & _). unfold move_data. by rewrite E. Qed.

Lemma skip_stop t fuel : NoBlock t None → ∃ t', SkipForward_loop (S fuel) t = Some t' ∧ TwoLevelR t' None.
Proof.
  intros (HL & E & Ev). pose proof HL as (_ & _ & _ & Hx & _). cbn [SkipForward_loop]. unfold data_empty. rewrite E, (index_valid _ _ Hx). simpl. destruct (SetDataIterator_none t None HL) as (t' & -> & HN). eexists. split; [done|]. by exists None.
Qed.
Lemma skip_stop_back t fuel : NoBlock t None → ∃ t', SkipBackward_loop (S fuel) t = Some t' ∧ TwoLevelR t' None.
Proof.
  intros (HL & E & Ev). pose proof HL as (_ & _ & _ & Hx & _). cbn [SkipBackward_loop]. unfold data_empty. rewrite E, (index_valid _ _ Hx). simpl. destruct (SetDataIterator_none t None HL) as (t' & -> & HN). eexists. split; [done|]. by exists None.
Qed.

Lemma data_empty_on t i p : OnBlock t i p → data_empty t = match p with Some _ => false | None => true end.
Proof.
  intros (kh & Hi & HL & Hh & HR). unfold data_empty.
  rewrite (data_valid _ _ _ HR). destruct HR as (s & -> & _). by destruct p.
Qed.

(** From entry [n] of block [i], or its end, to the next entry there is. *)
Lemma SkipForward_ok fuel : ∀ t i l n, (length il - i < fuel)%nat → ls !! i = Some l → (n <= length l)%nat →
  OnBlock t i (at_index l n) → ∃ t', SkipForward_loop fuel t = Some t' ∧ TwoLevelR t' (at_index L (off ls i + n)).
Proof using Hbf HI.
  induction fuel as [|fuel IH]; intros t i l n Hf Hl Hn HB; [lia|]. cbn [SkipForward_loop].
  rewrite (data_empty_on t i _ HB). destruct (decide (n < length l)%nat) as [Hlt|Hge].
  - rewrite at_index_Some in HB |- * by done. simpl. eexists. split; [done|].
    assert (off ls i + n < length L)%nat as HLt.
    { apply lookup_lt_is_Some_1. unfold L. rewrite (mjoin_lookup_off ls i l n) by done. by apply lookup_lt_is_Some_2. }
    rewrite at_index_Some by done. simpl. by exists i, n, l.
  - rewrite at_index_None in HB |- * by lia. assert (n = length l) as -> by lia.
    pose proof HB as (kh & Hi & HL & _). pose proof HL as (_ & _ & _ & Hx & _).
    rewrite (index_valid _ _ Hx).
    destruct (Next_ok (R := WrapperR RX) (index_iter_ t) i Hx) as (x & Hnx & HRx).
    rewrite bool_decide_eq_true_2 by eauto. cbn [negb]. rewrite Hnx. cbn [mbind option_bind].
    rewrite <- (off_S ls i l Hl). destruct (index_step t i x _ HL HRx) as (t1 & -> & H1). cbn [mbind option_bind].
    pose proof (ls_lookup i kh Hi). pose proof (lookup_lt_Some _ _ _ Hi) as Hil.
    destruct (decide (S i < length il)%nat) as [Hlt'|Hge'].
    + rewrite at_index_Some in H1 by done. destruct H1 as [p1 H1].
      destruct (lookup_lt_is_Some_2 il (S i) Hlt') as [kh' Hi'].
      destruct (OnBlock_move t1 (S i) p1 SeekToFirst kh' (at_index (B kh'.2) 0) Hi' H1) as (t2 & -> & H2).
      { intros w Hw. exact (SeekToFirst_ok (R := WrapperR (RD kh'.2)) w p1 Hw). }
      cbn [mbind option_bind]. rewrite <- (Nat.add_0_r (off ls (S i))).
      apply (IH t2 (S i) (B kh'.2) 0%nat); [lia|by apply ls_lookup|lia|done].
    + rewrite at_index_None in H1 by lia. rewrite (move_data_none t1 None) by done. cbn [mbind option_bind].
      rewrite at_index_None.
      2:{ unfold L. rewrite <- off_end. apply off_mono. unfold ls. rewrite length_fmap. lia. }
      destruct fuel as [|fuel]; [lia|]. by apply skip_stop.
Qed.

(** From before entry [n] of block [i] to the previous entry there is. *)
Lemma SkipBackward_ok fuel : ∀ t i l n, (S i < fuel)%nat → ls !! i = Some l → (n <= length l)%nat →
  OnBlock t i (before n) → ∃ t', SkipBackward_loop fuel t = Some t' ∧ TwoLevelR t' (before (off ls i + n)).
Proof using Hbf HI.
  induction fuel as [|fuel IH]; intros t i l n Hf Hl Hn HB; [lia|]. cbn [SkipBackward_loop].
  rewrite (data_empty_on t i _ HB). destruct n as [|n].
  - cbn [before] in HB |- *. rewrite Nat.add_0_r.
    pose proof HB as (kh & Hi & HL & _). pose proof HL as (_ & _ & _ & Hx & _).
    rewrite (index_valid _ _ Hx).
    destruct (Prev_ok (R := WrapperR RX) (index_iter_ t) i Hx) as (x & Hnx & HRx).
    rewrite bool_decide_eq_true_2 by eauto. cbn [negb]. rewrite Hnx. cbn [mbind option_bind].
    destruct (index_step t i x _ HL HRx) as (t1 & -> & H1). cbn [mbind option_bind].
    pose proof (lookup_lt_Some _ _ _ Hi) as Hil. destruct i as [|i]; cbn [before] in H1.
    + rewrite (move_data_none t1 None) by done. cbn [mbind option_bind].
      destruct fuel as [|fuel]; [lia|]. by apply skip_stop_back.
    + destruct H1 as [p1 H1]. destruct (lookup_lt_is_Some_2 il i) as [kh' Hi']; [lia|].
      destruct (OnBlock_move t1 i p1 SeekToLast kh' (before (length (B kh'.2))) Hi' H1) as (t2 & -> & H2).
      { intros w Hw. exact (SeekToLast_ok (R := WrapperR (RD kh'.2)) w p1 Hw). }
      cbn [mbind option_bind]. pose proof (ls_lookup i kh' Hi') as Hl'. rewrite (off_S ls i _ Hl').
      by apply (IH t2 i (B kh'.2)); [lia|done|lia|].
  - cbn [before] in HB. eexists. split; [done|]. rewrite Nat.add_succ_r. cbn [before TwoLevelR].
    by exists i, n, l.
Qed.

(** The entry [n] of block [i] has its place in [L]. *)
Lemma block_entry i kh n x : il !! i = Some kh → B kh.2 !! n = Some x → L !! (off ls i + n)%nat = Some x.
Proof.
  intros Hi Hx. unfold L. rewrite (mjoin_lookup_off ls i (B kh.2) n); [done|by apply ls_lookup|by eapply lookup_lt_Some].
Qed.

Lemma entry_block r x : L !! r = Some x → ∃ i kh n, il !! i = Some kh ∧ B kh.2 !! n = Some x ∧ r = (off ls i + n)%nat.
Proof.
  intros (i & l & n & Hl & Hn & ->)%mjoin_lookup_inv. unfold ls in Hl. rewrite list_lookup_fmap in Hl.
  destruct (il !! i) as [kh|] eqn:Hi; [|done]. simplify_eq/=. by exists i, kh, n.
Qed.

(** The blocks before the one the index points to lie below the target. *)
Lemma earlier_below tg i r x : valid tg → (i <= lower_bound c il tg)%nat → (r < off ls i)%nat → L !! r = Some x → below c tg x.1 = true.
Proof using HI ComparatorOk0.
  intros Ht Hi Hr Hx. destruct (entry_block r x Hx) as (j & kh & n & Hj & Hn & ->).
  assert (j < i)%nat as Hji.
  { destruct (decide (i <= j)%nat) as [H|]; [|lia]. pose proof (off_mono ls i j H). lia. }
  pose proof (cut_before (below c tg) il j kh ltac:(unfold lower_bound in Hi; lia) Hj) as Hk. apply Z.ltb_lt in Hk.
  apply Z.ltb_lt. apply (Compare_le_lt x.1 kh.1 tg); [|exact (sorted_valid il j kh (index_sorted _ _ _ _ HI) Hj)|done| |done].
  - exact (sorted_valid L _ x (blocks_sorted _ _ _ _ HI) Hx).
  - apply (index_upper _ _ _ _ HI j kh x Hj). by eapply list_elem_of_lookup_2.
Qed.

Lemma lower_bound_block tg i kh : valid tg → lower_bound c il tg = i → il !! i = Some kh →
  lower_bound c L tg = (off ls i + lower_bound c (B kh.2) tg)%nat.
Proof using HI ComparatorOk0.
  intros Ht Hi Hkh. pose proof (cut_le (below c tg) (B kh.2)) as Hle. pose proof (ls_lookup i kh Hkh) as Hls.
  apply cut_unique.
  - unfold L. rewrite <- off_end. transitivity (off ls (S i)).
    + rewrite (off_S ls i _ Hls). unfold lower_bound. lia.
    + apply off_mono. unfold ls. rewrite length_fmap. apply lookup_lt_Some in Hkh. lia.
  - intros r x Hr Hx. destruct (decide (r < off ls i)%nat) as [H|H]; [by apply (earlier_below tg i r); [|lia|..]|].
    replace r with (off ls i + (r - off ls i))%nat in Hx by lia.
    assert (r - off ls i < lower_bound c (B kh.2) tg)%nat as Hn by lia.
    unfold L in Hx. rewrite (mjoin_lookup_off ls i (B kh.2)) in Hx; [|done|unfold lower_bound in Hn; lia].
    by apply (cut_before (below c tg) (B kh.2) (r - off ls i)).
  - intros x Hx. destruct (decide (lower_bound c (B kh.2) tg < length (B kh.2))%nat) as [H|H].
    + unfold L in Hx. rewrite (mjoin_lookup_off ls i (B kh.2)) in Hx by done. by apply (cut_at (below c tg) (B kh.2)).
    + destruct (entry_block _ x Hx) as (j & kh' & n & Hj & Hn & E).
      assert (off ls (S i) <= off ls j + n)%nat as Ho.
      { rewrite <- E, (off_S ls i _ Hls). unfold lower_bound in H. unfold lower_bound. lia. }
      assert (i < j)%nat as Hij.
      { destruct (decide (j <= i)%nat) as [H'|]; [|lia]. pose proof (off_mono ls (S j) (S i) ltac:(lia)).
        pose proof (off_S ls j _ (ls_lookup j kh' Hj)). apply lookup_lt_Some in Hn. lia. }
      pose proof (index_lower _ _ _ _ HI i j kh kh' x Hij Hkh Hj ltac:(by eapply list_elem_of_lookup_2)) as Hlt.
      subst i. pose proof (cut_at (below c tg) il kh Hkh) as Hge. apply Z.ltb_ge in Hge. apply Z.ltb_ge.
      pose proof (sorted_valid il _ kh (index_sorted _ _ _ _ HI) Hkh).
      pose proof (sorted_valid L _ x (blocks_sorted _ _ _ _ HI) Hx).
      apply Z.nlt_ge. intros Hxt. pose proof (Compare_trans kh.1 x.1 tg ltac:(done) ltac:(done) Ht Hlt Hxt). lia.
Qed.

Lemma lower_bound_end tg : valid tg → lower_bound c il tg = length il → lower_bound c L tg = length L.
Proof using HI ComparatorOk0.
  intros Ht Hi. apply cut_unique; [done| |].
  - intros r x Hr Hx. apply (earlier_below tg (length il) r); [done|lia| |done].
    replace (length il) with (length ls) by (unfold ls; by rewrite length_fmap). by rewrite off_end.
  - intros x Hx. apply lookup_lt_Some in Hx. lia.
Qed.

Lemma TwoLevelR_loose t r : TwoLevelR t r → ∃ q, Loose t q.
Proof. destruct r as [r|]; [intros (i & n & l & _ & _ & _ & kh & _ & HL & _)|intros (q & HL & _)]; eauto. Qed.

(** A seek forwards: the index to [i], the data iterator to [n i]. *)
Lemma seek_forward_ok t q i op (pos : list (bytes * bytes) → nat) (w : IteratorWrapper X) :
  Loose t q → WrapperR RX w (at_index il i) → (i <= length il)%nat →
  (∀ h w' p, WrapperR (RD h) w' p → ∃ w'', op w' = Some w'' ∧ WrapperR (RD h) w'' (at_index (B h) (pos (B h)))) →
  (∀ l, pos l <= length l)%nat →
  ∃ t', (t ← InitDataBlock (with_index w t); t ← move_data op t; SkipEmptyDataBlocksForward t) = Some t' ∧
  TwoLevelR t' (match il !! i with Some kh => at_index L (off ls i + pos (B kh.2)) | None => None end).
Proof using Hbf HI.
  intros HL Hw Hi Hop Hpos.
  destruct (InitDataBlock_ok (with_index w t) (at_index il i)) as (t1 & -> & H1).
  { destruct HL as (? & ? & ? & ? & ?). unfold Loose. simpl. by split_and!. }
  cbn [mbind option_bind]. destruct (il !! i) as [kh|] eqn:Hkh.
  - rewrite at_index_Some in H1 by (by eapply lookup_lt_Some). destruct H1 as [p1 H1].
    destruct (OnBlock_move t1 i p1 op kh (at_index (B kh.2) (pos (B kh.2))) Hkh H1) as (t2 & -> & H2).
    { intros w' Hw'. by apply (Hop kh.2 w' p1). }
    cbn [mbind option_bind]. apply (SkipForward_ok (fuel_ t2) t2 i (B kh.2)); [|by apply ls_lookup|done|done].
    destruct H2 as (? & _ & (_ & ? & _) & _). lia.
  - apply lookup_ge_None in Hkh. rewrite at_index_None in H1 by done. rewrite (move_data_none t1 None) by done.
    cbn [mbind option_bind]. unfold SkipEmptyDataBlocksForward. destruct (fuel_ t1) eqn:E; [|by apply skip_stop].
    destruct H1 as ((_ & ? & _) & _). lia.
Qed.

Lemma TwoLevelIterator_ok : IteratorOk valid c L TwoLevelR.
Proof using Hbf HI ComparatorOk0.
  split.
  - intros t r (i & n & l & Hl & Hn & -> & _). apply lookup_lt_is_Some_1. unfold L.
    rewrite (mjoin_lookup_off ls i l n) by done. by apply lookup_lt_is_Some_2.
  - intros t [r|] H; simpl.
    + destruct H as (i & n & l & _ & _ & _ & kh & _ & _ & _ & HR). exact (data_valid _ _ _ HR).
    + destruct H as (q & _ & _ & Hv). done.
  - intros t r kv (i & n & l & Hl & Hn & -> & kh & Hi & _ & _ & HR) Hr. pose proof (ls_lookup i kh Hi). simplify_eq.
    unfold L in Hr. rewrite (mjoin_lookup_off ls i (B kh.2) n) in Hr by done. exact (key_ok (R := WrapperR (RD kh.2)) _ n kv HR Hr).
  - intros t r kv (i & n & l & Hl & Hn & -> & kh & Hi & _ & _ & HR) Hr. pose proof (ls_lookup i kh Hi). simplify_eq.
    unfold L in Hr. rewrite (mjoin_lookup_off ls i (B kh.2) n) in Hr by done. exact (value_ok (R := WrapperR (RD kh.2)) _ n kv HR Hr).
  - intros t r H. destruct (TwoLevelR_loose t r H) as (q & _ & _ & Hs & Hx & Hd). cbn [status TwoLevelIterator_Iterator]. unfold TwoLevel_status.
    rewrite (status_is_ok (R := WrapperR RX) _ q Hx). cbn [Status_ok OK negb]. destruct Hd as [[-> _]|(kh & p & _ & _ & HR)]; [done|].
    rewrite (status_is_ok (R := WrapperR (RD kh.2)) _ p HR). by rewrite andb_false_r.
  - intros t r H. destruct (TwoLevelR_loose t r H) as [q HL]. pose proof HL as (_ & _ & _ & Hx & _).
    cbn [SeekToFirst TwoLevelIterator_Iterator]. unfold TwoLevel_SeekToFirst.
    destruct (SeekToFirst_ok (R := WrapperR RX) _ q Hx) as (w & -> & HRw). cbn [mbind option_bind].
    destruct (seek_forward_ok t q 0 SeekToFirst (λ _, 0%nat) w HL HRw) as (t' & Ht' & HR); [lia| |intros; lia|].
    { intros h w' p Hw'. exact (SeekToFirst_ok (R := WrapperR (RD h)) w' p Hw'). }
    exists t'. split; [done|]. destruct (il !! 0%nat) as [kh|] eqn:E; [done|]. apply lookup_ge_None in E.
    rewrite at_index_None; [done|]. unfold L. rewrite <- off_end. unfold ls. rewrite length_fmap. by replace (length il) with 0%nat by lia.
  - intros t r H. destruct (TwoLevelR_loose t r H) as [q HL]. pose proof HL as (Hb & Hf & Hs & Hx & Hd).
    cbn [SeekToLast TwoLevelIterator_Iterator]. unfold TwoLevel_SeekToLast.
    destruct (SeekToLast_ok (R := WrapperR RX) _ q Hx) as (w & -> & HRw). cbn [mbind option_bind].
    destruct (InitDataBlock_ok (with_index w t) (before (length il))) as (t1 & -> & H1); [by unfold Loose|]. cbn [mbind option_bind].
    assert (Hlen : length il = length ls) by (unfold ls; by rewrite length_fmap).
    destruct (length il) as [|i] eqn:E; cbn [before] in H1.
    + rewrite (move_data_none t1 None) by done. cbn [mbind option_bind]. unfold SkipEmptyDataBlocksBackward.
      assert (length L = 0%nat) as -> by (unfold L; by rewrite <- off_end, <- Hlen).
      destruct (fuel_ t1) eqn:Ef; [|by apply skip_stop_back].
      destruct H1 as ((_ & ? & _) & _). lia.
    + destruct H1 as [p1 H1]. destruct (lookup_lt_is_Some_2 il i) as [kh Hi]; [lia|].
      destruct (OnBlock_move t1 i p1 SeekToLast kh (before (length (B kh.2))) Hi H1) as (t2 & -> & H2).
      { intros w' Hw'. exact (SeekToLast_ok (R := WrapperR (RD kh.2)) w' p1 Hw'). }
      cbn [mbind option_bind]. pose proof (ls_lookup i kh Hi) as Hl. unfold L. rewrite <- off_end, <- Hlen, (off_S ls i _ Hl).
      apply (SkipBackward_ok (fuel_ t2) t2 i (B kh.2)); [|done|done|done]. destruct H2 as (? & _ & (_ & ? & _) & _). lia.
  - intros tg t r Ht H. destruct (TwoLevelR_loose t r H) as [q HL]. pose proof HL as (_ & _ & _ & Hx & _).
    cbn [Seek TwoLevelIterator_Iterator]. unfold TwoLevel_Seek.
    destruct (Seek_ok (R := WrapperR RX) tg _ q Ht Hx) as (w & -> & HRw). cbn [mbind option_bind].
    destruct (seek_forward_ok t q (lower_bound c il tg) (Seek tg) (λ l, lower_bound c l tg) w HL HRw) as (t' & Ht' & HR).
    { apply cut_le. }
    { intros h w' p Hw'. exact (Seek_ok (R := WrapperR (RD h)) tg w' p Ht Hw'). }
    { intros l. apply cut_le. }
    exists t'. split; [done|]. destruct (il !! lower_bound c il tg) as [kh|] eqn:Hkh.
    + by rewrite (lower_bound_block tg _ kh Ht eq_refl Hkh).
    + apply lookup_ge_None in Hkh. rewrite lower_bound_end; [|done|pose proof (cut_le (below c tg) il); unfold lower_bound in *; lia].
      by rewrite at_index_None.
  - intros t r (i & n & l & Hl & Hn & -> & kh & Hi & HL & Hh & HR). pose proof (ls_lookup i kh Hi). simplify_eq.
    cbn [Next TwoLevelIterator_Iterator]. unfold TwoLevel_Next. rewrite (data_valid _ _ _ HR), bool_decide_eq_true_2 by eauto.
    destruct (Next_ok (R := WrapperR (RD kh.2)) _ n HR) as (d & Hd & HR'). rewrite Hd. cbn [mbind option_bind].
    rewrite <- Nat.add_succ_r. destruct HL as (? & ? & ? & ? & _).
    apply (SkipForward_ok _ _ i (B kh.2)); [simpl; lia|done|lia|]. exists kh. unfold Loose. simpl. split_and!; try done.
    right. exists kh. eexists. split_and!; [by eapply list_elem_of_lookup_2|done..].
  - intros t r (i & n & l & Hl & Hn & -> & kh & Hi & HL & Hh & HR). pose proof (ls_lookup i kh Hi). simplify_eq.
    cbn [Prev TwoLevelIterator_Iterator]. unfold TwoLevel_Prev. rewrite (data_valid _ _ _ HR), bool_decide_eq_true_2 by eauto.
    destruct (Prev_ok (R := WrapperR (RD kh.2)) _ n HR) as (d & Hd & HR'). rewrite Hd. cbn [mbind option_bind].
    destruct HL as (? & ? & ? & ? & _). pose proof (lookup_lt_Some _ _ _ Hi).
    apply (SkipBackward_ok _ _ i (B kh.2)); [simpl; lia|done|lia|]. exists kh. unfold Loose. simpl. split_and!; try done.
    right. exists kh. eexists. split_and!; [by eapply list_elem_of_lookup_2|done..].
Qed.
End TwoLevelOk.

Lemma NewTwoLevelIterator_ok {X D} `{!Iterator X, !Iterator D} valid c il B (bf : bytes → D) (index : X) fuel :
  ComparatorOk valid c → IndexOk valid c il B → (∃ p, positioned valid c il index p) →
  (∀ kh, kh ∈ il → ∃ p, positioned valid c (B kh.2) (bf kh.2) p) → (length il < fuel)%nat →
  ∃ t, NewTwoLevelIterator fuel index bf = Some t ∧ positioned valid c (mjoin (B ∘ snd <$> il)) t None.
Proof.
  intros HC HI [p Hp] Hbf Hf. unfold NewTwoLevelIterator. destruct (Wrapper_make_ok index p Hp) as (w & -> & HR).
  cbn [mbind option_bind]. eexists. split; [done|]. eexists. split; [by apply (TwoLevelIterator_ok il B HI bf Hbf)|].
  exists p. unfold NoBlock, Loose. simpl. split_and!; auto.
Qed.

(** ** Properties *)

(** A two-level iterator over an index and its blocks is an iterator over the
    concatenation of the blocks, empty blocks included, for every sequence of seeks and
    moves: [Seek] finds the first entry at or past the target although only the index
    entry at or past it is consulted, and the loops that skip empty blocks end. *)
Theorem two_level_iterator_correct {X D} `{!Iterator X, !Iterator D} (valid : bytes → Prop) (c : Comparator)
    (il : list (bytes * bytes)) (B : bytes → list (bytes * bytes)) (bf : bytes → D) (index : X) (fuel : nat) :
  ComparatorOk valid c → IndexOk valid c il B →
  (∃ p, positioned valid c il index p) →
  (∀ kh, kh ∈ il → ∃ p, positioned valid c (B kh.2) (bf kh.2) p) → (length il < fuel)%nat →
  ∃ t, NewTwoLevelIterator fuel index bf = Some t ∧ positioned valid c (mjoin (B ∘ snd <$> il)) t None.
Proof. apply NewTwoLevelIterator_ok. Qed.

(** Three blocks, the middle one empty. *)
Definition two_index : list (bytes * bytes) := [([3], [0]); ([4], [1]); ([9], [2])].
Definition two_block (h : bytes) : list (bytes * bytes) :=
  if decide (h = [0]) then [([1], [10]); ([3], [30])] else if decide (h = [2]) then [([5], [50])] else [].
Definition two_iter (l : list (bytes * bytes)) : ListIterator :=
  {| list_cmp := BytewiseComparator; list_kvs := l; list_pos := None |}.

Lemma two_index_ok : IndexOk bytes_ok BytewiseComparator two_index two_block.
Proof.
  split.
  - repeat constructor; by_compute.
  - repeat constructor; by_compute.
  - intros [|[|[|i]]] kh x Hi Hx; simplify_eq/=; repeat (apply elem_of_cons in Hx as [->|Hx]); try (by apply not_elem_of_nil in Hx);
      vm_compute; intros [=].
  - intros [|[|[|i]]] [|[|[|j]]] kh kh' x Hij Hi Hj Hx; simplify_eq/=; try lia;
      repeat (apply elem_of_cons in Hx as [->|Hx]); try (by apply not_elem_of_nil in Hx); vm_compute; reflexivity.
Qed.

Lemma two_level_iterator_correct_witness :
  ∃ t, NewTwoLevelIterator 4 (two_iter two_index) (two_iter ∘ two_block) = Some t ∧
    positioned bytes_ok BytewiseComparator [([1], [10]); ([3], [30]); ([5], [50])] t None ∧
    (t ← Seek [4] t; t ← Prev t; key t) = Some [3].
Proof.
  destruct (two_level_iterator_correct bytes_ok BytewiseComparator two_index two_block (two_iter ∘ two_block) (two_iter two_index) 4)
    as (t & Ht & HR).
  - apply _.
  - apply two_index_ok.
  - exists None. by apply ListIterator_positioned.
  - intros kh Hk. exists None. by apply ListIterator_positioned.
  - simpl. lia.
  - exists t. split_and!; [done|exact HR|]. vm_compute in Ht. injection Ht as <-. vm_compute. reflexivity.
Defined.
