(* ===== verification/Block.v ===== *)
(** * Prefix-compressed blocks

    Model of [App/integration/block_builder.cpp] and [block.cpp].  A pointer into a block
    is its offset from [data_]; reading outside the block is [None], as is a failed
    assertion.  Offsets and lengths are kept at 32 bits where the sources are. *)
From S2P Require Import Prelude Coding Comparator Logging Status Iterator.
From stdpp Require Import sorting list.

#[local] Open Scope Z_scope.
#[local] Open Scope word_scope.

(** ** The builder *)

Record BlockBuilder := {
  buffer_ : bytes;
  restarts_ : list Z;
  counter_ : Z;
  finished_ : bool;
  last_key_ : bytes;
}.

Definition BlockBuilder_init : BlockBuilder :=
  {| buffer_ := []; restarts_ := [0]; counter_ := 0; finished_ := false; last_key_ := [] |}.

Definition BlockBuilder_Reset (b : BlockBuilder) : BlockBuilder :=
  {| buffer_ := []; restarts_ := [0]; counter_ := 0; finished_ := false; last_key_ := [] |}.

Definition CurrentSizeEstimate (b : BlockBuilder) : Z := zlen (buffer_ b) + zlen (restarts_ b) * 4 + 4.

Definition BlockBuilder_Finish (b : BlockBuilder) : BlockBuilder :=
  let buf := foldl PutFixed32 (buffer_ b) (restarts_ b) in
  {| buffer_ := PutFixed32 buf (u32 (zlen (restarts_ b))); restarts_ := restarts_ b; counter_ := counter_ b;
     finished_ := true; last_key_ := last_key_ b |}.

(** The bytes of one entry. *)
Definition entry_bytes (shared : nat) (key value : bytes) : bytes :=
  PutVarint32 (PutVarint32 (PutVarint32 [] (u32 (Z.of_nat shared))) (u32 (zlen key - Z.of_nat shared))) (u32 (zlen value)) ++
  drop shared key ++ value.

Definition BlockBuilder_Add (interval : Z) (b : BlockBuilder) (key value : bytes) : BlockBuilder :=
  let restart := negb (counter_ b <? interval) in
  let shared := if restart then O else common_prefix (last_key_ b) key in
  {| buffer_ := buffer_ b ++ entry_bytes shared key value;
     restarts_ := if restart then restarts_ b ++ [u32 (zlen (buffer_ b))] else restarts_ b;
     counter_ := (if restart then 0 else counter_ b) + 1;
     finished_ := finished_ b;
     last_key_ := take shared (last_key_ b) ++ drop shared key |}.

Definition BlockBuilder_empty (b : BlockBuilder) : bool := bool_decide (buffer_ b = []).

(** The assertions of [Add] on entry. *)
Definition BlockBuilder_Add_pre (cmp : Comparator) (interval : Z) (b : BlockBuilder) (key : bytes) : bool :=
  negb (finished_ b) && (counter_ b <=? interval) && (BlockBuilder_empty b || (Compare cmp key (last_key_ b) >? 0)).

(** [Add] with its assertions. *)
Definition BlockBuilder_AddChecked (cmp : Comparator) (interval : Z) (b : BlockBuilder) (key value : bytes) : option BlockBuilder :=
  if BlockBuilder_Add_pre cmp interval b key then Some (BlockBuilder_Add interval b key value) else None.

(** ** The block *)

Record Block := { data_ : bytes; size_ : Z; restart_offset_ : Z }.

Definition NumRestarts (data : bytes) (size : Z) : Z := DecodeFixed32 (drop (Z.to_nat (size - 4)) data).

Definition Block_make (contents : bytes) : Block :=
  let size := zlen contents in
  if size <? 4 then {| data_ := contents; size_ := 0; restart_offset_ := 0 |}
  else
    let max_restarts_allowed := (size - 4) / 4 in
    if NumRestarts contents size >? max_restarts_allowed
    then {| data_ := contents; size_ := 0; restart_offset_ := 0 |}
    else {| data_ := contents; size_ := size;
            restart_offset_ := u32 (size - u32 (1 + NumRestarts contents size) * 4) |}.

(** The three lengths, by the fast path or the general one. *)
Definition read_lengths (s : bytes) : option (Z * Z * Z * bytes) :=
  if nth 0 s 0 .| nth 1 s 0 .| nth 2 s 0 <? 128 then Some (nth 0 s 0, nth 1 s 0, nth 2 s 0, drop 3 s)
  else
    '(shared, s) ← GetVarint32Ptr s;
    '(non_shared, s) ← GetVarint32Ptr s;
    '(value_length, s) ← GetVarint32Ptr s;
    Some (shared, non_shared, value_length, s).

(** [DecodeEntry]: the three lengths and the offset of the key delta. *)
Definition DecodeEntry (data : bytes) (p limit : Z) : option (Z * Z * Z * Z) :=
  if limit - p <? 3 then None
  else
    let s := take (Z.to_nat (limit - p)) (drop (Z.to_nat p) data) in
    '(shared, non_shared, value_length, rest) ← read_lengths s;
    if u32 (zlen rest) <? u32 (non_shared + value_length) then None
    else Some (shared, non_shared, value_length, limit - zlen rest).

(** ** The iterator *)

Record BlockIter := {
  b_cmp : Comparator;             (** [comparator_] *)
  b_data : bytes;                 (** [data_] *)
  b_restarts : Z;                 (** [restarts_] *)
  b_num_restarts : Z;             (** [num_restarts_] *)
  b_current : Z;                  (** [current_] *)
  b_restart_index : Z;            (** [restart_index_] *)
  b_key : bytes;                  (** [key_] *)
  b_value : option (Z * Z);       (** [value_]: offset and size; [None] when cleared *)
  b_status : Status;              (** [status_] *)
}.

Definition BlockIter_make (cmp : Comparator) (data : bytes) (restarts num_restarts : Z) : BlockIter :=
  {| b_cmp := cmp; b_data := data; b_restarts := restarts; b_num_restarts := num_restarts; b_current := restarts;
     b_restart_index := num_restarts; b_key := []; b_value := None; b_status := OK |}.

Definition with_cursor (it : BlockIter) (current restart_index : Z) (key : bytes) (value : option (Z * Z)) (s : Status) : BlockIter :=
  {| b_cmp := b_cmp it; b_data := b_data it; b_restarts := b_restarts it; b_num_restarts := b_num_restarts it;
     b_current := current; b_restart_index := restart_index; b_key := key; b_value := value; b_status := s |}.

Definition NextEntryOffset (it : BlockIter) : option Z := '(o, n) ← b_value it; Some (u32 (o + n)).

Definition GetRestartPoint (it : BlockIter) (index : Z) : option Z :=
  if (0 <=? index) && (index <? b_num_restarts it)
  then Some (DecodeFixed32 (drop (Z.to_nat (b_restarts it + index * 4)) (b_data it)))
  else None.

Definition SeekToRestartPoint (it : BlockIter) (index : Z) : option BlockIter :=
  offset ← GetRestartPoint it index;
  Some (with_cursor it (b_current it) index [] (Some (offset, 0)) (b_status it)).

Definition bad_entry : Status := Corruption (str "bad entry in block") [].

Definition CorruptionError (it : BlockIter) : BlockIter :=
  with_cursor it (b_restarts it) (b_num_restarts it) [] None bad_entry.

(** [n] bytes at offset [p]. *)
Definition read_at (data : bytes) (p n : Z) : option bytes :=
  if (0 <=? p) && (p + n <=? zlen data) then Some (take (Z.to_nat n) (drop (Z.to_nat p) data)) else None.

(** [while (restart_index_ + 1 < num_restarts_ && GetRestartPoint(restart_index_ + 1) < current_)] *)
Fixpoint advance_restart (fuel : nat) (it : BlockIter) (current index : Z) : option Z :=
  match fuel with
  | O => Some index
  | S fuel' =>
      if index + 1 <? b_num_restarts it then
        r ← GetRestartPoint it (index + 1);
        if r <? current then advance_restart fuel' it current (index + 1) else Some index
      else Some index
  end.

Definition ParseNextKey (it : BlockIter) : option (bool * BlockIter) :=
  current ← NextEntryOffset it;
  if current >=? b_restarts it then
    Some (false, with_cursor it (b_restarts it) (b_num_restarts it) (b_key it) (b_value it) (b_status it))
  else
    match DecodeEntry (b_data it) current (b_restarts it) with
    | None => Some (false, CorruptionError it)
    | Some (shared, non_shared, value_length, p) =>
        if zlen (b_key it) <? shared then Some (false, CorruptionError it)
        else
          delta ← read_at (b_data it) p non_shared;
          _ ← read_at (b_data it) (p + non_shared) value_length;
          index ← advance_restart (Z.to_nat (b_num_restarts it)) it current (b_restart_index it);
          Some (true, with_cursor it current index (take (Z.to_nat shared) (b_key it) ++ delta)
                        (Some (p + non_shared, value_length)) (b_status it))
    end.

Definition BlockIter_Valid (it : BlockIter) : bool := b_current it <? b_restarts it.

Definition BlockIter_Next (it : BlockIter) : option BlockIter :=
  if BlockIter_Valid it then snd <$> ParseNextKey it else None.

(** [while (GetRestartPoint(restart_index_) >= original)]: the index, or none before it. *)
Fixpoint retreat_restart (fuel : nat) (it : BlockIter) (original index : Z) : option (option Z) :=
  match fuel with
  | O => None
  | S fuel' =>
      r ← GetRestartPoint it index;
      if r >=? original then
        if index =? 0 then Some None else retreat_restart fuel' it original (index - 1)
      else Some (Some index)
  end.

(** [do {} while (ParseNextKey() && NextEntryOffset() < bound)] *)
Fixpoint parse_until (fuel : nat) (bound : Z) (it : BlockIter) : option BlockIter :=
  match fuel with
  | O => None
  | S fuel' =>
      '(ok, it) ← ParseNextKey it;
      if (ok : bool) then
        next ← NextEntryOffset it;
        if next <? bound then parse_until fuel' bound it else Some it
      else Some it
  end.

Definition BlockIter_Prev (it : BlockIter) : option BlockIter :=
  if BlockIter_Valid it then
    let original := b_current it in
    index ← retreat_restart (S (Z.to_nat (b_num_restarts it))) it original (b_restart_index it);
    match index with
    | None => Some (with_cursor it (b_restarts it) (b_num_restarts it) (b_key it) (b_value it) (b_status it))
    | Some index =>
        it ← SeekToRestartPoint it index;
        parse_until (S (length (b_data it))) original it
    end
  else None.

(** The binary search over restart points; [inl] when an entry is corrupt. *)
Fixpoint restart_search (fuel : nat) (it : BlockIter) (target : bytes) (left right : Z) : option (unit + Z) :=
  if left <? right then
    match fuel with
    | O => None
    | S fuel' =>
        let mid := u32 (left + right + 1) / 2 in
        region_offset ← GetRestartPoint it mid;
        match DecodeEntry (b_data it) region_offset (b_restarts it) with
        | None => Some (inl tt)
        | Some (shared, non_shared, _, p) =>
            if negb (shared =? 0) then Some (inl tt)
            else
              mid_key ← read_at (b_data it) p non_shared;
              if Compare (b_cmp it) mid_key target <? 0
              then restart_search fuel' it target mid right
              else restart_search fuel' it target left (mid - 1)
        end
    end
  else Some (inr left).

Fixpoint linear_search (fuel : nat) (target : bytes) (it : BlockIter) : option BlockIter :=
  match fuel with
  | O => None
  | S fuel' =>
      '(ok, it) ← ParseNextKey it;
      if (ok : bool) then
        if Compare (b_cmp it) (b_key it) target >=? 0 then Some it else linear_search fuel' target it
      else Some it
  end.

Definition BlockIter_Seek (target : bytes) (it : BlockIter) : option BlockIter :=
  found ← restart_search (Z.to_nat (b_num_restarts it)) it target 0 (b_num_restarts it - 1);
  match found with
  | inl _ => Some (CorruptionError it)
  | inr index =>
      it ← SeekToRestartPoint it index;
      linear_search (S (length (b_data it))) target it
  end.

Definition BlockIter_SeekToFirst (it : BlockIter) : option BlockIter :=
  it ← SeekToRestartPoint it 0; snd <$> ParseNextKey it.

Definition BlockIter_SeekToLast (it : BlockIter) : option BlockIter :=
  it ← SeekToRestartPoint it (b_num_restarts it - 1);
  parse_until (S (length (b_data it))) (b_restarts it) it.

#[export] Instance BlockIter_Iterator : Iterator BlockIter := {
  Valid := BlockIter_Valid;
  SeekToFirst := BlockIter_SeekToFirst;
  SeekToLast := BlockIter_SeekToLast;
  Seek := BlockIter_Seek;
  Next := BlockIter_Next;
  Prev := BlockIter_Prev;
  key it := if BlockIter_Valid it then Some (b_key it) else None;
  value it := if BlockIter_Valid it then '(o, n) ← b_value it; read_at (b_data it) o n else None;
  status := b_status;
}.

Definition Block_NewIterator (cmp : Comparator) (b : Block) : EmptyIterator + BlockIter :=
  if size_ b <? 4 then inl (NewErrorIterator (Corruption (str "bad block contents") []))
  else
    let num_restarts := NumRestarts (data_ b) (size_ b) in
    if num_restarts =? 0 then inl NewEmptyIterator
    else inr (BlockIter_make cmp (data_ b) (restart_offset_ b) num_restarts).

(** ** The layout of a block *)

(** An entry with the number of key bytes it shares with the one before it. *)
Abbreviation Layout := (list (nat * (bytes * bytes))).
Definition chunk (e : nat * (bytes * bytes)) : bytes := entry_bytes e.1 e.2.1 e.2.2.
Definition body (Ls : Layout) : bytes := mjoin (chunk <$> Ls).
Definition boff (Ls : Layout) (i : nat) : nat := off (chunk <$> Ls) i.
Definition prev_key (Ls : Layout) (i : nat) : bytes :=
  match i with O => [] | S j => match Ls !! j with Some e => e.2.1 | None => [] end end.

(** The bytes of a finished block: the entries, the restart offsets and their number. *)
Definition contents (Ls : Layout) (ris : list nat) : bytes :=
  body Ls ++ mjoin (EncodeFixed32 <$> ((λ r, Z.of_nat (boff Ls r)) <$> ris)) ++ EncodeFixed32 (zlen ris).

Record LayoutOk (Ls : Layout) (ris : list nat) : Prop := {
  layout_shared i e : Ls !! i = Some e →
    (e.1 <= length e.2.1)%nat ∧ (e.1 <= length (prev_key Ls i))%nat ∧ take e.1 (prev_key Ls i) = take e.1 e.2.1;
  layout_first : head ris = Some 0%nat;
  layout_restart r e : r ∈ ris → Ls !! r = Some e → e.1 = 0%nat;
  layout_range j r : ris !! j = Some r → (r < length Ls)%nat ∨ j = 0%nat ∧ r = 0%nat;
}.

Lemma entry_bytes_app sh k v : entry_bytes sh k v =
  EncodeVarint32 (u32 (Z.of_nat sh)) ++ EncodeVarint32 (u32 (zlen k - Z.of_nat sh)) ++ EncodeVarint32 (u32 (zlen v)) ++ drop sh k ++ v.
Proof. unfold entry_bytes, PutVarint32. by rewrite <- !app_assoc. Qed.

(** A one-byte encoding starts below 128, a longer one does not. *)
Lemma varint_head v : is_u 32 v → ∃ b t, EncodeVarint32 v = b :: t ∧ 0 <= b ∧ (b < 128 → b = v ∧ t = []).
Proof.
  intros Hv. rewrite EncodeVarint32_64 by done. unfold EncodeVarint64. unfold is_u in Hv.
  rewrite EncodeVarint64_loop_cons by lia. case_decide; eexists _, _; (split; [done|]); (split; [dlia|]); intros; [dlia|done].
Qed.

Lemma lor_small a b : 0 <= a → 0 <= b → a .| b < 128 → a < 128 ∧ b < 128.
Proof.
  intros Ha Hb H. pose proof (Z.log2_lor a b Ha Hb) as E. pose proof (Z.log2_le_mono (a .| b) 127 ltac:(lia)) as Hm.
  change (Z.log2 127) with 6 in Hm.
  split; apply Z.nle_gt; intros Hle; apply (Z.log2_le_mono 128) in Hle; change (Z.log2 128) with 7 in Hle; lia.
Qed.

Lemma chunk_length e : (3 + (length e.2.1 - e.1) + length e.2.2 <= length (chunk e))%nat.
Proof.
  unfold chunk. rewrite entry_bytes_app, !length_app, length_drop.
  assert (H : ∀ v, is_u 32 v → (1 <= length (EncodeVarint32 v))%nat)
    by (intros v Hv; destruct (varint_head v Hv) as (b & t & -> & _); simpl; lia).
  pose proof (H _ (u32_range (Z.of_nat e.1))). pose proof (H _ (u32_range (zlen e.2.1 - Z.of_nat e.1))).
  pose proof (H _ (u32_range (zlen e.2.2))). lia.
Qed.

Lemma read_lengths_ok a b d rest : is_u 32 a → is_u 32 b → is_u 32 d →
  read_lengths (EncodeVarint32 a ++ EncodeVarint32 b ++ EncodeVarint32 d ++ rest) = Some (a, b, d, rest).
Proof.
  intros Ha Hb Hd. set (s := EncodeVarint32 a ++ EncodeVarint32 b ++ EncodeVarint32 d ++ rest).
  assert (Hslow : ('(shared, s) ← GetVarint32Ptr s; '(non_shared, s) ← GetVarint32Ptr s; '(value_length, s) ← GetVarint32Ptr s;
    Some (shared, non_shared, value_length, s)) = Some (a, b, d, rest)).
  { unfold s. change GetVarint32Ptr with GetVarint32. rewrite GetVarint32_Encode by done. cbn [mbind option_bind].
    rewrite GetVarint32_Encode by done. cbn [mbind option_bind]. by rewrite GetVarint32_Encode. }
  unfold read_lengths. destruct (Z.ltb_spec (nth 0 s 0 .| nth 1 s 0 .| nth 2 s 0) 128) as [Hlt|_]; [|done]. clear Hslow.
  destruct (varint_head a Ha) as (a0 & ta & Ea & Ha0 & Ha1). destruct (varint_head b Hb) as (b0 & tb & Eb & Hb0 & Hb1).
  destruct (varint_head d Hd) as (d0 & td & Ed & Hd0 & Hd1).
  assert (Hnn : ∀ i, (i < 3)%nat → 0 <= nth i s 0).
  { intros i Hi. assert (Hok : bytes_ok (EncodeVarint32 a ++ EncodeVarint32 b ++ EncodeVarint32 d))
      by (rewrite !bytes_ok_app; auto using EncodeVarint32_ok).
    unfold s. rewrite !app_assoc, <- (app_assoc (EncodeVarint32 a)). rewrite app_nth1.
    - rewrite nth_lookup. destruct (_ !! i) as [x|] eqn:Hx; [|done]. pose proof (Forall_lookup_1 _ _ _ _ Hok Hx) as H.
      unfold is_byte in H. simpl. lia.
    - rewrite !length_app, Ea, Eb, Ed. simpl. lia. }
  apply lor_small in Hlt as [Hlt Hd2]; [|apply Z.lor_nonneg; split; apply Hnn; lia|apply Hnn; lia].
  apply lor_small in Hlt as [Ha2 Hb2]; [|apply Hnn; lia|apply Hnn; lia].
  revert Ha2 Hb2 Hd2. unfold s. rewrite Ea. cbn [app nth]. intros Ha2. destruct (Ha1 Ha2) as [-> ->]. cbn [app nth]. rewrite Eb.
  cbn [app nth]. intros Hb2. destruct (Hb1 Hb2) as [-> ->]. cbn [app nth]. rewrite Ed. cbn [app nth]. intros Hd2.
  by destruct (Hd1 Hd2) as [-> ->].
Qed.

Section Layout.
Context (Ls : Layout) (ris : list nat) (HL : LayoutOk Ls ris) (Hsize : zlen (contents Ls ris) < 2 ^ 32).

Lemma boff_S i e : Ls !! i = Some e → boff Ls (S i) = (boff Ls i + length (chunk e))%nat.
Proof. intros H. unfold boff. apply off_S. by rewrite list_lookup_fmap, H. Qed.

Lemma boff_end : boff Ls (length Ls) = length (body Ls).
Proof. unfold boff, body. rewrite <- off_end. by rewrite length_fmap. Qed.

Lemma boff_mono i j : (i <= j)%nat → (boff Ls i <= boff Ls j)%nat.
Proof. apply off_mono. Qed.

Lemma boff_lt i j : (i < j)%nat → (j <= length Ls)%nat → (boff Ls i < boff Ls j)%nat.
Proof.
  intros Hij Hj. destruct (lookup_lt_is_Some_2 Ls i) as [e He]; [lia|].
  pose proof (boff_S i e He). pose proof (boff_mono (S i) j Hij). pose proof (chunk_length e). lia.
Qed.

Lemma boff_lt_inv i j : (i <= length Ls)%nat → (boff Ls i < boff Ls j)%nat → (i < j)%nat.
Proof. intros Hi H. destruct (decide (j <= i)%nat) as [Hle|]; [|lia]. pose proof (boff_mono j i Hle). lia. Qed.

Lemma boff_le_body i : (i <= length Ls)%nat → (boff Ls i <= length (body Ls))%nat.
Proof. intros H. rewrite <- boff_end. by apply boff_mono. Qed.

Lemma body_size : zlen (body Ls) < 2 ^ 32.
Proof using Hsize. pose proof Hsize as H. unfold contents in H. rewrite !zlen_app in H. pose proof (zlen_nonneg (EncodeFixed32 (zlen ris))).
  pose proof (zlen_nonneg (mjoin (EncodeFixed32 <$> ((λ r, Z.of_nat (boff Ls r)) <$> ris)))). lia. Qed.

Lemma boff_small i : (i <= length Ls)%nat → is_u 32 (Z.of_nat (boff Ls i)).
Proof using Hsize. intros H%boff_le_body. pose proof body_size. unfold is_u, zlen in *. lia. Qed.

(** The bytes from entry [i] on. *)
Lemma body_drop i : drop (boff Ls i) (body Ls) = mjoin (chunk <$> drop i Ls).
Proof.
  unfold boff, off, body. rewrite <- fmap_take. rewrite <- (take_drop i Ls) at 2.
  rewrite fmap_app, join_app. by rewrite drop_app_length.
Qed.

Lemma body_entry i e : Ls !! i = Some e → drop (boff Ls i) (body Ls) = chunk e ++ drop (boff Ls (S i)) (body Ls).
Proof. intros He. rewrite !body_drop. by rewrite (drop_S Ls e i He). Qed.

(** What the decoder sees at entry [i]. *)
Lemma window i e : Ls !! i = Some e →
  take (Z.to_nat (zlen (body Ls) - Z.of_nat (boff Ls i))) (drop (Z.to_nat (Z.of_nat (boff Ls i))) (contents Ls ris)) =
  chunk e ++ drop (boff Ls (S i)) (body Ls).
Proof.
  intros He. pose proof (boff_le_body i ltac:(apply lookup_lt_Some in He; lia)) as Hle.
  rewrite Nat2Z.id. unfold contents. rewrite drop_app_le by done.
  replace (Z.to_nat (zlen (body Ls) - Z.of_nat (boff Ls i))) with (length (drop (boff Ls i) (body Ls)))
    by (rewrite length_drop; unfold zlen; lia).
  rewrite take_app_length. by apply body_entry.
Qed.

(** A key is no longer than the bytes written so far. *)
Lemma key_bound i : (i <= length Ls)%nat → (length (prev_key Ls i) <= boff Ls i)%nat.
Proof using HL.
  induction i as [|i IH]; intros Hi; simpl; [lia|]. destruct (lookup_lt_is_Some_2 Ls i) as [e He]; [lia|]. rewrite He.
  destruct (layout_shared _ _ HL i e He) as (H1 & H2 & _). rewrite (boff_S i e He). pose proof (chunk_length e). lia.
Qed.

Lemma entry_sizes i e : Ls !! i = Some e → is_u 32 (Z.of_nat e.1) ∧ is_u 32 (zlen e.2.1 - Z.of_nat e.1) ∧ is_u 32 (zlen e.2.2) ∧
  zlen e.2.1 - Z.of_nat e.1 + zlen e.2.2 < 2 ^ 32 ∧ (e.1 <= length e.2.1)%nat.
Proof using HL Hsize.
  intros He. destruct (layout_shared _ _ HL i e He) as (H1 & H2 & H3). pose proof (chunk_length e) as Hc.
  pose proof (lookup_lt_Some _ _ _ He) as Hi. pose proof (key_bound i ltac:(lia)). pose proof (boff_S i e He) as Hb.
  pose proof (boff_small (S i) ltac:(lia)) as Hs. unfold is_u, zlen in *. lia.
Qed.

(** Decoding entry [i] gives its lengths and the place of its key bytes. *)
Lemma DecodeEntry_ok i e : Ls !! i = Some e →
  ∃ p, DecodeEntry (contents Ls ris) (Z.of_nat (boff Ls i)) (zlen (body Ls)) =
  Some (Z.of_nat e.1, zlen e.2.1 - Z.of_nat e.1, zlen e.2.2, Z.of_nat p) ∧
  drop p (body Ls) = drop e.1 e.2.1 ++ e.2.2 ++ drop (boff Ls (S i)) (body Ls) ∧
  (p + (length e.2.1 - e.1) + length e.2.2 = boff Ls (S i))%nat.
Proof using HL Hsize.
  intros He. destruct (entry_sizes i e He) as (Hs & Hn & Hv & Hsum & Hle). unfold DecodeEntry.
  pose proof (lookup_lt_Some _ _ _ He) as Hi. pose proof (boff_S i e He) as HbS. pose proof (chunk_length e) as Hc.
  pose proof (boff_le_body (S i) Hi) as Hbody. rewrite (proj2 (Z.ltb_ge _ _)) by (unfold zlen; lia).
  rewrite (window i e He). set (tail := drop (boff Ls (S i)) (body Ls)).
  set (rest := drop e.1 e.2.1 ++ e.2.2 ++ tail).
  assert (Ech : chunk e ++ tail = EncodeVarint32 (Z.of_nat e.1) ++ EncodeVarint32 (zlen e.2.1 - Z.of_nat e.1) ++
    EncodeVarint32 (zlen e.2.2) ++ rest).
  { unfold chunk. rewrite entry_bytes_app, !u32_small by done. unfold rest. by rewrite <- !app_assoc. }
  assert (Etl : length tail = (length (body Ls) - boff Ls (S i))%nat) by apply length_drop.
  assert (Erest : length rest = (length e.2.1 - e.1 + length e.2.2 + length tail)%nat)
    by (unfold rest; rewrite !length_app, length_drop; lia).
  exists (length (body Ls) - length rest)%nat. cbv zeta.
  rewrite Ech, read_lengths_ok by done. cbn [mbind option_bind].
  pose proof body_size as Hbs. rewrite !u32_small by (unfold is_u, zlen in *; lia).
  rewrite (proj2 (Z.ltb_ge _ _)) by (unfold zlen; lia). split_and!.
  - do 2 f_equal. unfold zlen. lia.
  - fold tail. assert (Hd : body Ls = take (boff Ls i) (body Ls) ++ (EncodeVarint32 (Z.of_nat e.1) ++
      EncodeVarint32 (zlen e.2.1 - Z.of_nat e.1) ++ EncodeVarint32 (zlen e.2.2)) ++ rest).
    { rewrite <- (take_drop (boff Ls i) (body Ls)) at 1. rewrite (body_entry i e He). fold tail. rewrite Ech. by rewrite <- !app_assoc. }
    rewrite app_assoc in Hd. rewrite Hd at 2. rewrite Hd at 1. rewrite length_app, Nat.add_sub. by rewrite drop_app_length.
  - lia.
Qed.

Lemma contents_length : zlen (contents Ls ris) = zlen (body Ls) + 4 * zlen ris + 4.
Proof. unfold contents, zlen. rewrite !length_app, fixed32_array_length, length_fmap, EncodeFixed32_length. lia. Qed.

(** Restart offset [j], read from the end of the block. *)
Lemma restart_bytes j r : ris !! j = Some r →
  DecodeFixed32 (drop (Z.to_nat (zlen (body Ls) + Z.of_nat j * 4)) (contents Ls ris)) = Z.of_nat (boff Ls r).
Proof using HL Hsize.
  intros Hj. assert (Hr : (r <= length Ls)%nat) by (destruct (layout_range _ _ HL j r Hj); lia).
  unfold contents. apply fixed32_array_lookup; [by rewrite list_lookup_fmap, Hj|by apply boff_small].
Qed.

(** ** Iterator states *)

Context (c : Comparator).
Implicit Types it : BlockIter.

(** The fields that no operation changes. *)
Definition Static it : Prop :=
  b_cmp it = c ∧ b_data it = contents Ls ris ∧ b_restarts it = zlen (body Ls) ∧ b_num_restarts it = zlen ris.

(** The restart index names a restart point at or before entry [i]. *)
Definition RestartAt it (i : nat) : Prop := ∃ j r, b_restart_index it = Z.of_nat j ∧ ris !! j = Some r ∧ (r <= i)%nat.

(** Ready to parse entry [i]. *)
Definition Ready it (i : nat) : Prop :=
  Static it ∧ b_status it = OK ∧ (∃ o n, b_value it = Some (o, n) ∧ o + n = Z.of_nat (boff Ls i)) ∧ (i <= length Ls)%nat ∧
  RestartAt it i ∧ ∀ e, Ls !! i = Some e → (e.1 <= length (b_key it))%nat ∧ take e.1 (b_key it) = take e.1 e.2.1.

(** At entry [i]. *)
Definition At it (i : nat) : Prop :=
  Static it ∧ b_status it = OK ∧ b_current it = Z.of_nat (boff Ls i) ∧ RestartAt it i ∧
  ∃ e o, Ls !! i = Some e ∧ b_key it = e.2.1 ∧ b_value it = Some (o, zlen e.2.2) ∧
  o + zlen e.2.2 = Z.of_nat (boff Ls (S i)) ∧ read_at (contents Ls ris) o (zlen e.2.2) = Some e.2.2.

Definition Invalid it : Prop := Static it ∧ b_status it = OK ∧ b_current it = b_restarts it.

Definition BlockR it (p : option nat) : Prop := match p with None => Invalid it | Some i => At it i end.

Lemma GetRestartPoint_ok it j r : Static it → ris !! j = Some r → GetRestartPoint it (Z.of_nat j) = Some (Z.of_nat (boff Ls r)).
Proof using HL Hsize.
  intros (_ & Hd & Hr & Hn) Hj. unfold GetRestartPoint. pose proof (lookup_lt_Some _ _ _ Hj).
  rewrite Hn, (proj2 (Z.leb_le _ _)), (proj2 (Z.ltb_lt _ _)) by (unfold zlen; lia). simpl. rewrite Hd, Hr. by rewrite (restart_bytes j r).
Qed.

Lemma ris_le j r : ris !! j = Some r → (r <= length Ls)%nat.
Proof using HL. intros Hj. destruct (layout_range _ _ HL j r Hj); lia. Qed.

Lemma advance_restart_ok fuel : ∀ it i j r, Static it → (i <= length Ls)%nat → ris !! j = Some r → (r <= i)%nat →
  ∃ j' r', advance_restart fuel it (Z.of_nat (boff Ls i)) (Z.of_nat j) = Some (Z.of_nat j') ∧ ris !! j' = Some r' ∧ (r' <= i)%nat.
Proof using HL Hsize.
  induction fuel as [|fuel IH]; intros it i j r HS Hi Hj Hr; cbn [advance_restart]; [by exists j, r|].
  destruct (Z.ltb_spec (Z.of_nat j + 1) (b_num_restarts it)) as [Hlt|]; [|by exists j, r].
  destruct (lookup_lt_is_Some_2 ris (S j)) as [r' Hr'].
  { destruct HS as (_ & _ & _ & Hn). rewrite Hn in Hlt. unfold zlen in Hlt. lia. }
  replace (Z.of_nat j + 1) with (Z.of_nat (S j)) by lia. rewrite (GetRestartPoint_ok it (S j) r' HS Hr'). cbn [mbind option_bind].
  destruct (Z.ltb_spec (Z.of_nat (boff Ls r')) (Z.of_nat (boff Ls i))) as [Hb|]; [|by exists j, r].
  apply (IH it i (S j) r'); [done..|]. apply Nat.lt_le_incl, boff_lt_inv; [by eapply ris_le|lia].
Qed.

Lemma read_at_ok a b d : read_at (a ++ b ++ d) (zlen a) (zlen b) = Some b.
Proof.
  unfold read_at. rewrite (proj2 (Z.leb_le 0 _)) by apply zlen_nonneg.
  rewrite (proj2 (Z.leb_le _ _)) by (rewrite !zlen_app; pose proof (zlen_nonneg d); lia). simpl. unfold zlen.
  rewrite !Nat2Z.id, drop_app_length, take_app_length. done.
Qed.

(** Decoding entry [i] and reading its key bytes and value. *)
Lemma entry_reads i e : Ls !! i = Some e →
  ∃ p, DecodeEntry (contents Ls ris) (Z.of_nat (boff Ls i)) (zlen (body Ls)) =
  Some (Z.of_nat e.1, zlen e.2.1 - Z.of_nat e.1, zlen e.2.2, p) ∧
  read_at (contents Ls ris) p (zlen e.2.1 - Z.of_nat e.1) = Some (drop e.1 e.2.1) ∧
  read_at (contents Ls ris) (p + (zlen e.2.1 - Z.of_nat e.1)) (zlen e.2.2) = Some e.2.2 ∧
  p + (zlen e.2.1 - Z.of_nat e.1) + zlen e.2.2 = Z.of_nat (boff Ls (S i)).
Proof using HL Hsize.
  intros He. destruct (DecodeEntry_ok i e He) as (p & Hdec & Hp & Hsum). destruct (entry_sizes i e He) as (_ & _ & _ & _ & Hle).
  pose proof (lookup_lt_Some _ _ _ He) as Hi. pose proof (boff_le_body (S i) Hi) as HbS. exists (Z.of_nat p).
  assert (Hc : contents Ls ris = take p (body Ls) ++ drop e.1 e.2.1 ++ (e.2.2 ++ drop (boff Ls (S i)) (body Ls)) ++ drop (length (body Ls)) (contents Ls ris)).
  { unfold contents at 1. rewrite <- (take_drop p (body Ls)) at 1. rewrite Hp, <- !app_assoc. do 5 f_equal.
    unfold contents. by rewrite drop_app_length. }
  assert (Hpl : Z.of_nat p = zlen (take p (body Ls))) by (unfold zlen; rewrite length_take; lia).
  assert (Hdl : zlen e.2.1 - Z.of_nat e.1 = zlen (drop e.1 e.2.1)) by (unfold zlen; rewrite length_drop; lia).
  split_and!; [done| | |unfold zlen in *; lia].
  - rewrite Hc at 1. rewrite Hpl, Hdl. apply read_at_ok.
  - rewrite Hpl, Hdl, <- zlen_app. rewrite Hc at 1. rewrite app_assoc, <- (app_assoc e.2.2). apply read_at_ok.
Qed.

Lemma ParseNextKey_entry it i : Ready it i → (i < length Ls)%nat → ∃ it', ParseNextKey it = Some (true, it') ∧ At it' i.
Proof using HL Hsize.
  intros (HS & Hst & (o & n & Hv & Hon) & _ & (j & r & Hj & Hr & Hri) & Hkey) Hi.
  destruct (lookup_lt_is_Some_2 Ls i Hi) as [e He]. destruct (Hkey e He) as [Hk1 Hk2].
  pose proof HS as (_ & Hd & Hrs & Hn). unfold ParseNextKey, NextEntryOffset. rewrite Hv. cbn [mbind option_bind].
  rewrite Hon, u32_small by (apply boff_small; lia). rewrite Hd, Hrs.
  pose proof (boff_lt i (length Ls) Hi ltac:(lia)) as Hb. rewrite boff_end in Hb.
  rewrite Z.geb_leb, (proj2 (Z.leb_gt _ _)) by (unfold zlen; lia).
  destruct (entry_reads i e He) as (p & -> & R1 & R2 & Hsum).
  rewrite (proj2 (Z.ltb_ge _ _)) by (unfold zlen; lia).
  rewrite R1. cbn [mbind option_bind]. rewrite R2. cbn [mbind option_bind]. rewrite Hj.
  destruct (advance_restart_ok (Z.to_nat (b_num_restarts it)) it i j r HS ltac:(lia) Hr Hri) as (j' & r' & -> & Hr' & Hri').
  cbn [mbind option_bind]. eexists. split; [done|]. unfold At, Static, RestartAt. simpl. split_and!; try done; [apply HS|by exists j', r'|].
  exists e. eexists. split_and!; [done| |done| |done].
  - rewrite Nat2Z.id, Hk2. apply take_drop.
  - done.
Qed.

Lemma ParseNextKey_end it : Ready it (length Ls) → ∃ it', ParseNextKey it = Some (false, it') ∧ Invalid it'.
Proof using Hsize.
  intros (HS & Hst & (o & n & Hv & Hon) & _). pose proof HS as (_ & Hd & Hrs & Hn).
  unfold ParseNextKey, NextEntryOffset. rewrite Hv. cbn [mbind option_bind]. rewrite Hon, u32_small by (by apply boff_small).
  rewrite boff_end, Hrs, Z.geb_leb, (proj2 (Z.leb_le _ _)) by (unfold zlen; lia).
  eexists. split; [done|]. unfold Invalid, Static. simpl. split_and!; by try apply HS.
Qed.

Lemma At_Ready it i : At it i → Ready it (S i).
Proof using HL.
  intros (HS & Hst & Hc & (j & r & Hj & Hr & Hri) & e & o & He & Hk & Hv & Ho & _). unfold Ready. split_and!; try done.
  - by exists o, (zlen e.2.2).
  - apply lookup_lt_Some in He. lia.
  - exists j, r. split_and!; [done..|lia].
  - intros e' He'. destruct (layout_shared _ _ HL (S i) e' He') as (_ & H2 & H3). simpl in H2, H3. rewrite He in H2, H3. by rewrite Hk.
Qed.

Lemma At_next_offset it i : At it i → NextEntryOffset it = Some (Z.of_nat (boff Ls (S i))).
Proof using Hsize.
  intros (_ & _ & _ & _ & e & o & He & _ & Hv & Ho & _). unfold NextEntryOffset. rewrite Hv. cbn [mbind option_bind].
  rewrite Ho, u32_small; [done|]. apply boff_small. apply lookup_lt_Some in He. lia.
Qed.

Lemma SeekToRestartPoint_ok it j r : Static it → b_status it = OK → ris !! j = Some r →
  ∃ it', SeekToRestartPoint it (Z.of_nat j) = Some it' ∧ Ready it' r ∧ b_data it' = b_data it ∧ b_restarts it' = b_restarts it.
Proof using HL Hsize.
  intros HS Hst Hj. unfold SeekToRestartPoint. rewrite (GetRestartPoint_ok it j r HS Hj). cbn [mbind option_bind].
  eexists. split; [done|]. unfold Ready, Static. simpl. split_and!; try done; try apply HS.
  - eexists _, _. split; [done|lia].
  - by eapply ris_le.
  - by exists j, r.
  - intros e He. rewrite (layout_restart _ _ HL r e (list_elem_of_lookup_2 _ _ _ Hj) He). simpl. split; [lia|done].
Qed.

(** Parsing up to the entry before [e]. *)
Lemma parse_until_ok fuel : ∀ it i e, Ready it i → (i < e)%nat → (e <= length Ls)%nat → (e - i < fuel)%nat →
  ∃ it', parse_until fuel (Z.of_nat (boff Ls e)) it = Some it' ∧ At it' (e - 1).
Proof using HL Hsize.
  induction fuel as [|fuel IH]; intros it i e HR Hie He Hf; [lia|]. cbn [parse_until].
  destruct (ParseNextKey_entry it i HR ltac:(lia)) as (it1 & -> & HA). cbn [mbind option_bind].
  rewrite (At_next_offset it1 i HA). cbn [mbind option_bind].
  destruct (Z.ltb_spec (Z.of_nat (boff Ls (S i))) (Z.of_nat (boff Ls e))) as [Hlt|Hge].
  - assert (S i < e)%nat by (apply boff_lt_inv; lia). apply (IH it1 (S i) e); [by apply At_Ready|lia..].
  - exists it1. split; [done|]. destruct (decide (S i = e)) as [<-|]; [by rewrite Nat.sub_succ, Nat.sub_0_r|].
    pose proof (boff_lt (S i) e). lia.
Qed.

Lemma parse_until_empty fuel it bound : Ready it (length Ls) → (0 < fuel)%nat →
  ∃ it', parse_until fuel bound it = Some it' ∧ Invalid it'.
Proof using Hsize.
  intros HR Hf. destruct fuel as [|fuel]; [lia|]. cbn [parse_until].
  destruct (ParseNextKey_end it HR) as (it1 & -> & HI). cbn [mbind option_bind]. by exists it1.
Qed.

Lemma entries_fit : (length Ls <= length (contents Ls ris))%nat.
Proof.
  assert (H : ∀ n, (n <= length Ls)%nat → (n <= boff Ls n)%nat).
  { induction n as [|n IH]; intros Hn; [lia|]. pose proof (boff_lt n (S n)). lia. }
  pose proof (H (length Ls) ltac:(lia)) as Hb. rewrite boff_end in Hb. unfold contents. rewrite length_app. lia.
Qed.

(** Scanning back to a restart point before entry [i]. *)
Lemma retreat_restart_ok fuel : ∀ it i j r, Static it → (i <= length Ls)%nat → ris !! j = Some r → (j < fuel)%nat →
  ∃ res, retreat_restart fuel it (Z.of_nat (boff Ls i)) (Z.of_nat j) = Some res ∧
  match res with
  | None => i = 0%nat
  | Some jz => ∃ j' r', jz = Z.of_nat j' ∧ ris !! j' = Some r' ∧ (r' < i)%nat
  end.
Proof using HL Hsize.
  induction fuel as [|fuel IH]; intros it i j r HS Hi Hj Hf; [lia|]. cbn [retreat_restart].
  rewrite (GetRestartPoint_ok it j r HS Hj). cbn [mbind option_bind]. rewrite Z.geb_leb.
  destruct (Z.leb_spec (Z.of_nat (boff Ls i)) (Z.of_nat (boff Ls r))) as [Hge|Hlt].
  - destruct (Z.eqb_spec (Z.of_nat j) 0) as [Hj0|Hj0].
    + eexists. split; [done|]. assert (j = 0%nat) as -> by lia. pose proof (layout_first _ _ HL) as Hh.
      rewrite head_lookup in Hh. simplify_eq. destruct i as [|i]; [done|]. pose proof (boff_lt 0 (S i)). lia.
    + destruct (lookup_lt_is_Some_2 ris (j - 1)) as [r' Hr']; [apply lookup_lt_Some in Hj; lia|].
      replace (Z.of_nat j - 1) with (Z.of_nat (j - 1)) by lia. apply (IH it i (j - 1)%nat r'); [done..|lia].
  - eexists. split; [done|]. exists j, r. split_and!; [done..|]. apply boff_lt_inv; [by eapply ris_le|lia].
Qed.

Lemma At_Valid it i : At it i → BlockIter_Valid it = true.
Proof using Hsize.
  intros ((_ & _ & Hr & _) & _ & Hc & _ & e & o & He & _). unfold BlockIter_Valid. rewrite Hr, Hc. apply Z.ltb_lt.
  pose proof (boff_lt i (length Ls) ltac:(by eapply lookup_lt_Some) ltac:(lia)) as H. rewrite boff_end in H. unfold zlen. lia.
Qed.

Lemma Prev_at it i : At it i → ∃ it', BlockIter_Prev it = Some it' ∧ BlockR it' (before i).
Proof using HL Hsize.
  intros HA. pose proof HA as (HS & Hst & Hc & (j & r & Hj & Hr & Hri) & e & o & He & _). unfold BlockIter_Prev.
  rewrite (At_Valid it i HA), Hc, Hj. pose proof (lookup_lt_Some _ _ _ He) as Hi. pose proof (lookup_lt_Some _ _ _ Hr) as Hjl.
  destruct (retreat_restart_ok (S (Z.to_nat (b_num_restarts it))) it i j r HS ltac:(lia) Hr) as (res & -> & Hres).
  { destruct HS as (_ & _ & _ & ->). unfold zlen. lia. }
  cbn [mbind option_bind]. destruct res as [jz|].
  - destruct Hres as (j' & r' & -> & Hr' & Hlt).
    destruct (SeekToRestartPoint_ok it j' r' HS Hst Hr') as (it1 & -> & HR & Hd & _). cbn [mbind option_bind].
    destruct (parse_until_ok (S (length (b_data it1))) it1 r' i HR Hlt ltac:(lia)) as (it2 & -> & HA2).
    { destruct HS as (_ & Hd0 & _). rewrite Hd, Hd0. pose proof entries_fit. lia. }
    exists it2. split; [done|]. destruct i as [|i]; [lia|]. by rewrite Nat.sub_succ, Nat.sub_0_r in HA2.
  - subst i. eexists. split; [done|]. unfold BlockR, Invalid, Static. simpl. split_and!; by try apply HS.
Qed.

(** ** Searching *)

Let kvs : list (bytes * bytes) := Ls.*2.
Context {valid : bytes → Prop} `{!ComparatorOk valid c} (Hsorted : sorted_kvs valid c kvs).

Definition all_below (t : bytes) (i : nat) : Prop := ∀ i' e, (i' < i)%nat → Ls !! i' = Some e → Compare c e.2.1 t < 0.

Lemma kvs_lookup i e : Ls !! i = Some e → kvs !! i = Some e.2.
Proof. intros H. unfold kvs. by rewrite list_lookup_fmap, H. Qed.

Lemma lower_bound_found t i e : all_below t i → Ls !! i = Some e → ¬ Compare c e.2.1 t < 0 → lower_bound c kvs t = i.
Proof.
  intros Hb He Hge. apply cut_unique.
  - unfold kvs. rewrite length_fmap. apply lookup_lt_Some in He. lia.
  - intros i' kv Hi' Hkv. unfold kvs in Hkv. rewrite list_lookup_fmap in Hkv. destruct (Ls !! i') as [e'|] eqn:He'; [|done].
    simplify_eq/=. apply Z.ltb_lt. by apply (Hb i').
  - intros kv Hkv. rewrite (kvs_lookup i e He) in Hkv. simplify_eq. apply Z.ltb_ge. lia.
Qed.

Lemma lower_bound_none t : all_below t (length Ls) → lower_bound c kvs t = length kvs.
Proof.
  intros Hb. apply cut_unique; [done| |intros kv Hkv; apply lookup_lt_Some in Hkv; lia].
  intros i kv Hi Hkv. unfold kvs in Hkv, Hi. rewrite length_fmap in Hi. rewrite list_lookup_fmap in Hkv.
  destruct (Ls !! i) as [e|] eqn:He; [|done]. simplify_eq/=. apply Z.ltb_lt. by apply (Hb i).
Qed.

Lemma linear_search_ok t fuel : ∀ it i, Ready it i → all_below t i → (length Ls - i < fuel)%nat →
  ∃ it', linear_search fuel t it = Some it' ∧ BlockR it' (at_index kvs (lower_bound c kvs t)).
Proof using HL Hsize.
  induction fuel as [|fuel IH]; intros it i HR Hb Hf; [lia|]. cbn [linear_search].
  assert (Hlen : length kvs = length Ls) by (unfold kvs; by rewrite length_fmap).
  destruct (decide (i < length Ls)%nat) as [Hi|Hi].
  - destruct (ParseNextKey_entry it i HR Hi) as (it1 & -> & HA). cbn [mbind option_bind].
    pose proof HA as ((Hc & _) & _ & _ & _ & e & o & He & Hk & _). rewrite Hc, Hk, Z.geb_leb.
    destruct (Z.leb_spec 0 (Compare c e.2.1 t)).
    + exists it1. split; [done|]. rewrite (lower_bound_found t i e Hb He), at_index_Some by lia. done.
    + apply (IH it1 (S i)); [by apply At_Ready| |lia]. intros i' e' Hi' He'.
      destruct (decide (i' = i)) as [->|]; [by simplify_eq|]. apply (Hb i'); [lia|done].
  - pose proof HR as (_ & _ & _ & Hle & _). assert (i = length Ls) as -> by lia.
    destruct (ParseNextKey_end it HR) as (it1 & -> & HI). cbn [mbind option_bind]. exists it1. split; [done|].
    rewrite lower_bound_none, at_index_None by done. done.
Qed.

Lemma below_before t i e : valid t → Ls !! i = Some e → Compare c e.2.1 t < 0 → all_below t i.
Proof using Hsorted ComparatorOk0.
  intros Ht He Hlt i' e' Hi' He'. pose proof (kvs_lookup i e He) as Hk. pose proof (kvs_lookup i' e' He') as Hk'.
  apply (Compare_trans e'.2.1 e.2.1 t); [exact (sorted_valid kvs _ _ Hsorted Hk')|exact (sorted_valid kvs _ _ Hsorted Hk)|done| |done].
  exact (sorted_lookup_lt kvs i' i _ _ Hsorted Hi' Hk' Hk).
Qed.

Lemma restart_search_ok t fuel : ∀ it l h r, valid t → Static it → ris !! l = Some r → all_below t r →
  (h < length ris)%nat → (h - l <= fuel)%nat →
  ∃ j r', restart_search fuel it t (Z.of_nat l) (Z.of_nat h) = Some (inr (Z.of_nat j)) ∧ ris !! j = Some r' ∧ all_below t r'.
Proof using HL Hsize Hsorted ComparatorOk0.
  induction fuel as [|fuel IH]; intros it l h r Ht HS Hl Hb Hh Hf; cbn [restart_search];
    destruct (Z.ltb_spec (Z.of_nat l) (Z.of_nat h)) as [Hlt|]; try lia; try (by exists l, r).
  pose proof HS as (Hc & Hd & Hrs & Hn).
  assert (is_u 32 (Z.of_nat l + Z.of_nat h + 1)) as Hu.
  { pose proof contents_length. unfold is_u. unfold zlen in *. pose proof Hsize. unfold zlen in *. lia. }
  rewrite (u32_small _ Hu). set (m := ((l + h + 1) / 2)%nat).
  assert (Hm : (Z.of_nat l + Z.of_nat h + 1) / 2 = Z.of_nat m) by (unfold m; rewrite Nat2Z.inj_div; f_equal; lia).
  assert (Hmr : (l < m <= h)%nat) by (unfold m; dlia). rewrite Hm.
  destruct (lookup_lt_is_Some_2 ris m) as [rm Hrm]; [lia|]. rewrite (GetRestartPoint_ok it m rm HS Hrm). cbn [mbind option_bind].
  destruct (layout_range _ _ HL m rm Hrm) as [Hrl|[? _]]; [|lia]. destruct (lookup_lt_is_Some_2 Ls rm Hrl) as [e He].
  rewrite Hd, Hrs. destruct (entry_reads rm e He) as (p & -> & R1 & _).
  rewrite (layout_restart _ _ HL rm e (list_elem_of_lookup_2 _ _ _ Hrm) He) in *. cbn [Z.eqb Z.of_nat negb]. rewrite R1. cbn [mbind option_bind].
  rewrite Hc. destruct (Z.ltb_spec (Compare c (drop 0 e.2.1) t) 0) as [Hcmp|Hcmp]; rewrite drop_0 in Hcmp.
  - apply (IH it m h rm); [done..| |lia|lia]. by apply (below_before t rm e).
  - replace (Z.of_nat m - 1) with (Z.of_nat (m - 1)) by lia. apply (IH it l (m - 1)%nat r); [done..|lia|lia].
Qed.

Lemma block_iter_ok : IteratorOk valid c kvs BlockR.
Proof using HL Hsize Hsorted ComparatorOk0.
  assert (Hlen : length kvs = length Ls) by (unfold kvs; by rewrite length_fmap).
  assert (Hfirst : ris !! 0%nat = Some 0%nat) by (rewrite <- head_lookup; apply HL).
  assert (HRS : ∀ it p, BlockR it p → Static it ∧ b_status it = OK) by (intros it [i|]; [intros (?&?&_)|intros (?&?&_)]; done).
  split.
  - intros it i (_ & _ & _ & _ & e & o & He & _). rewrite Hlen. by eapply lookup_lt_Some.
  - intros it [i|] HR; [by apply (At_Valid it i)|]. destruct HR as (_ & _ & E). cbn. unfold BlockIter_Valid. rewrite E. by rewrite Z.ltb_irrefl.
  - intros it i kv HR Hkv. cbn. rewrite (At_Valid it i HR). destruct HR as (_ & _ & _ & _ & e & o & He & Hk & _).
    rewrite (kvs_lookup i e He) in Hkv. simplify_eq. by rewrite Hk.
  - intros it i kv HR Hkv. cbn. rewrite (At_Valid it i HR). destruct HR as ((_ & Hd & _) & _ & _ & _ & e & o & He & Hk & Hv & _ & Hread).
    rewrite (kvs_lookup i e He) in Hkv. simplify_eq. rewrite Hv. cbn. by rewrite Hd.
  - intros it p HR. cbn. by destruct (HRS it p HR).
  - intros it p HR. destruct (HRS it p HR) as [HS Hst]. cbn [SeekToFirst BlockIter_Iterator]. unfold BlockIter_SeekToFirst.
    destruct (SeekToRestartPoint_ok it 0 0 HS Hst Hfirst) as (it1 & Hit1 & HR1 & _). change (Z.of_nat 0) with 0 in Hit1. rewrite Hit1. cbn [mbind option_bind].
    destruct (decide (0 < length Ls)%nat) as [H|H].
    + destruct (ParseNextKey_entry it1 0 HR1 H) as (it2 & -> & HA). exists it2. rewrite at_index_Some by lia. done.
    + replace 0%nat with (length Ls) in HR1 by lia. destruct (ParseNextKey_end it1 HR1) as (it2 & -> & HI). exists it2.
      rewrite at_index_None by lia. done.
  - intros it p HR. destruct (HRS it p HR) as [HS Hst]. cbn [SeekToLast BlockIter_Iterator]. unfold BlockIter_SeekToLast.
    pose proof HS as (_ & Hd & Hr & Hn). pose proof (lookup_lt_Some _ _ _ Hfirst) as Hpos.
    destruct (lookup_lt_is_Some_2 ris (length ris - 1)) as [r Hlast]; [lia|].
    replace (b_num_restarts it - 1) with (Z.of_nat (length ris - 1)) by (rewrite Hn; unfold zlen; lia).
    destruct (SeekToRestartPoint_ok it _ r HS Hst Hlast) as (it1 & -> & HR1 & Hd1 & Hr1). cbn [mbind option_bind].
    rewrite Hr1, Hr. change (zlen (body Ls)) with (Z.of_nat (length (body Ls))). rewrite <- boff_end, Hlen.
    pose proof entries_fit. destruct (layout_range _ _ HL _ r Hlast) as [Hlt|[_ ->]].
    + destruct (parse_until_ok (S (length (b_data it1))) it1 r (length Ls) HR1 Hlt ltac:(lia)) as (it2 & -> & HA); [rewrite Hd1, Hd; lia|].
      exists it2. split; [done|]. destruct (length Ls) as [|n]; [lia|]. by rewrite Nat.sub_succ, Nat.sub_0_r in HA.
    + destruct (decide (0 < length Ls)%nat) as [Hlt|Hge].
      * destruct (parse_until_ok (S (length (b_data it1))) it1 0 (length Ls) HR1 Hlt ltac:(lia)) as (it2 & -> & HA); [rewrite Hd1, Hd; lia|].
        exists it2. split; [done|]. destruct (length Ls) as [|n]; [lia|]. by rewrite Nat.sub_succ, Nat.sub_0_r in HA.
      * replace 0%nat with (length Ls) in HR1 by lia.
        destruct (parse_until_empty (S (length (b_data it1))) it1 (Z.of_nat (boff Ls (length Ls))) HR1 ltac:(lia)) as (it2 & -> & HI).
        exists it2. split; [done|]. by replace (length Ls) with 0%nat by lia.
  - intros t it p Ht HR. destruct (HRS it p HR) as [HS Hst]. cbn [Seek BlockIter_Iterator]. unfold BlockIter_Seek.
    pose proof HS as (_ & Hd & Hr & Hn). pose proof (lookup_lt_Some _ _ _ Hfirst) as Hpos.
    replace (b_num_restarts it - 1) with (Z.of_nat (length ris - 1)) by (rewrite Hn; unfold zlen; lia).
    change 0 with (Z.of_nat 0).
    destruct (restart_search_ok t (Z.to_nat (b_num_restarts it)) it 0 (length ris - 1) 0 Ht HS Hfirst) as (j & r & -> & Hj & Hb);
      [by intros i' e Hi'; lia|lia|rewrite Hn; unfold zlen; lia|]. cbn [mbind option_bind].
    destruct (SeekToRestartPoint_ok it j r HS Hst Hj) as (it1 & -> & HR1 & Hd1 & _). cbn [mbind option_bind].
    apply (linear_search_ok t _ it1 r HR1 Hb). rewrite Hd1, Hd. pose proof entries_fit. lia.
  - intros it i HA. cbn [Next BlockIter_Iterator]. unfold BlockIter_Next. rewrite (At_Valid it i HA). pose proof (At_Ready it i HA) as HR.
    destruct (decide (S i < length Ls)%nat) as [H|H].
    + destruct (ParseNextKey_entry it (S i) HR H) as (it2 & -> & HA2). exists it2. rewrite at_index_Some by lia. done.
    + assert (S i = length Ls) as E by (destruct HR as (_ & _ & _ & ? & _); lia). rewrite E in HR.
      destruct (ParseNextKey_end it HR) as (it2 & -> & HI). exists it2. rewrite at_index_None by lia. done.
  - intros it i HA. by apply Prev_at.
Qed.
End Layout.

(** ** What the builder writes *)

Record BuilderR (interval : Z) (b : BlockBuilder) (Ls : Layout) (ris : list nat) : Prop := {
  built_buffer : buffer_ b = body Ls;
  built_restarts : restarts_ b = (λ r, u32 (Z.of_nat (boff Ls r))) <$> ris;
  built_last : last_key_ b = prev_key Ls (length Ls);
  built_layout : LayoutOk Ls ris;
  built_counter : Ls = [] → counter_ b < interval;
}.

Lemma BuilderR_init interval : 1 <= interval → BuilderR interval BlockBuilder_init [] [0%nat].
Proof.
  intros Hi. split; try done.
  - split; [done|done|done|]. intros [|j] r Hj; simplify_eq/=; auto.
  - intros _. simpl. lia.
Qed.

Lemma boff_app Ls e r : (r <= length Ls)%nat → boff (Ls ++ [e]) r = boff Ls r.
Proof. intros Hr. unfold boff, off. rewrite fmap_app, take_app_le; [done|]. by rewrite length_fmap. Qed.

Lemma prev_key_app Ls e i : (i <= length Ls)%nat → prev_key (Ls ++ [e]) i = prev_key Ls i.
Proof. intros Hi. destruct i as [|i]; [done|]. simpl. by rewrite lookup_app_l by lia. Qed.

Lemma ris_app_range Ls ris j r : LayoutOk Ls ris → ris !! j = Some r → (r <= length Ls)%nat.
Proof. intros HL Hj. destruct (layout_range _ _ HL j r Hj); lia. Qed.

(** Adding an entry keeps the layout, with the restart points [new] appended. *)
Lemma LayoutOk_app Ls ris e new : LayoutOk Ls ris →
  (e.1 <= length e.2.1)%nat → (e.1 <= length (prev_key Ls (length Ls)))%nat → take e.1 (prev_key Ls (length Ls)) = take e.1 e.2.1 →
  (Ls = [] → e.1 = 0%nat) → new = [] ∨ new = [length Ls] ∧ e.1 = 0%nat →
  LayoutOk (Ls ++ [e]) (ris ++ new).
Proof.
  intros HL H1 H2 H3 H0 Hnew. split.
  - intros i e' Hi. apply lookup_app_Some in Hi as [Hi|[Hle Hi]].
    + rewrite prev_key_app by (apply lookup_lt_Some in Hi; lia). by apply (layout_shared _ _ HL).
    + apply list_lookup_singleton_Some in Hi as [Hi ->]. replace i with (length Ls) by lia. by rewrite prev_key_app.
  - pose proof (layout_first _ _ HL). by destruct ris.
  - intros r e' Hr He. apply elem_of_app in Hr as [Hr|Hr].
    + apply list_elem_of_lookup in Hr as [j Hj]. pose proof (ris_app_range _ _ _ _ HL Hj).
      apply lookup_app_Some in He as [He|[Hle He]]; [by apply (layout_restart _ _ HL r); [eapply list_elem_of_lookup_2|]|].
      apply list_lookup_singleton_Some in He as [Hr ->]. destruct (layout_range _ _ HL j r Hj) as [|[_ ->]]; [lia|].
      apply H0. apply nil_length_inv. lia.
    + destruct Hnew as [->|[-> He1]]; [by apply not_elem_of_nil in Hr|]. apply list_elem_of_singleton in Hr as ->.
      rewrite lookup_app_r, Nat.sub_diag in He by done. by simplify_eq/=.
  - intros j r Hj. rewrite length_app. simpl. apply lookup_app_Some in Hj as [Hj|[Hle Hj]].
    + destruct (layout_range _ _ HL j r Hj); lia.
    + left. destruct Hnew as [->|[-> _]]; [done|]. apply list_lookup_singleton_Some in Hj as [_ <-]. lia.
Qed.

Lemma BuilderR_Add interval b Ls ris k v : 1 <= interval → BuilderR interval b Ls ris →
  ∃ sh ris', BuilderR interval (BlockBuilder_Add interval b k v) (Ls ++ [(sh, (k, v))]) ris'.
Proof.
  intros Hint [Hb Hr Hl HL Hc]. set (restart := negb (counter_ b <? interval)).
  set (sh := if restart then O else common_prefix (last_key_ b) k). set (new := if restart then [length Ls] else []).
  assert (Hsh : (sh <= length k)%nat ∧ (sh <= length (last_key_ b))%nat ∧ take sh (last_key_ b) = take sh k).
  { unfold sh. destruct restart; [simpl; split_and!; (done || lia)|]. destruct (common_prefix_spec (last_key_ b) k) as (? & ? & ? & _). done. }
  destruct Hsh as (Hs1 & Hs2 & Hs3). rewrite Hl in Hs2, Hs3. exists sh, (ris ++ new).
  assert (Hbody : body (Ls ++ [(sh, (k, v))]) = body Ls ++ entry_bytes sh k v).
  { unfold body. rewrite fmap_app, join_app. simpl. by rewrite app_nil_r. }
  split; simpl; fold restart; fold sh.
  - by rewrite Hbody, Hb.
  - rewrite Hr, fmap_app.
    assert (E : (λ r, u32 (Z.of_nat (boff Ls r))) <$> ris = (λ r, u32 (Z.of_nat (boff (Ls ++ [(sh, (k, v))]) r))) <$> ris).
    { apply list_fmap_ext. intros i r Hi. rewrite boff_app; [done|]. by eapply ris_app_range. }
    unfold new. destruct restart; [|by rewrite app_nil_r]. rewrite E. f_equal. simpl. rewrite boff_app, boff_end, Hb by done. done.
  - rewrite Hl, Hs3, take_drop, length_app, Nat.add_1_r. simpl. by rewrite lookup_app_r, Nat.sub_diag.
  - apply LayoutOk_app; simpl; try done.
    + intros ->. unfold sh. destruct restart; [done|]. rewrite Hl. done.
    + unfold new, sh. destruct restart; auto.
  - intros E. by apply app_nil in E as [_ ?].
Qed.

Definition build_entries (interval : Z) (kvs : list (bytes * bytes)) : BlockBuilder :=
  foldl (λ b kv, BlockBuilder_Add interval b kv.1 kv.2) BlockBuilder_init kvs.

Lemma build_entries_ok interval kvs : 1 <= interval →
  ∃ Ls ris, BuilderR interval (build_entries interval kvs) Ls ris ∧ Ls.*2 = kvs.
Proof.
  intros Hi. unfold build_entries. induction kvs as [|[k v] kvs IH] using rev_ind.
  - exists [], [0%nat]. split; [by apply BuilderR_init|done].
  - destruct IH as (Ls & ris & HR & HL). rewrite foldl_app. simpl.
    destruct (BuilderR_Add interval _ Ls ris k v Hi HR) as (sh & ris' & HR'). exists (Ls ++ [(sh, (k, v))]), ris'.
    split; [done|]. by rewrite fmap_app, HL.
Qed.

Lemma build_entries_snoc interval kvs kv :
  build_entries interval (kvs ++ [kv]) = BlockBuilder_Add interval (build_entries interval kvs) kv.1 kv.2.
Proof. unfold build_entries. by rewrite foldl_app. Qed.

Lemma build_entries_finished interval kvs : finished_ (build_entries interval kvs) = false.
Proof. induction kvs as [|kv kvs IH] using rev_ind; [done|]. by rewrite build_entries_snoc. Qed.

Lemma build_entries_counter interval kvs : 1 <= interval → counter_ (build_entries interval kvs) <= interval.
Proof.
  intros Hi. induction kvs as [|kv kvs IH] using rev_ind; [simpl; lia|]. rewrite build_entries_snoc. cbn [counter_ BlockBuilder_Add].
  destruct (Z.ltb_spec (counter_ (build_entries interval kvs)) interval); simpl; lia.
Qed.

Lemma build_entries_last interval kvs : 1 <= interval →
  last_key_ (build_entries interval kvs) = default [] (fst <$> last kvs).
Proof.
  intros Hi. destruct (build_entries_ok interval kvs Hi) as (Ls & ris & HR & <-). rewrite (built_last _ _ _ _ HR), fmap_last.
  destruct Ls as [|e Ls _] using rev_ind; [done|]. rewrite length_app, Nat.add_1_r, last_snoc. simpl. by rewrite lookup_app_r, Nat.sub_diag.
Qed.

Lemma build_entries_empty interval kvs : 1 <= interval →
  BlockBuilder_empty (build_entries interval kvs) = bool_decide (kvs = []).
Proof.
  intros Hi. unfold BlockBuilder_empty. apply bool_decide_ext. destruct (build_entries_ok interval kvs Hi) as (Ls & ris & HR & <-).
  rewrite (built_buffer _ _ _ _ HR). destruct Ls as [|e Ls]; [done|]. pose proof (chunk_length e).
  unfold body. simpl. split; [|done]. intros [E _]%app_nil. rewrite E in *. simpl in *. lia.
Qed.

(** The assertions of [Add] hold for entries in order. *)
Lemma AddChecked_ok valid c interval kvs kv : ComparatorOk valid c → 1 <= interval → sorted_kvs valid c (kvs ++ [kv]) →
  BlockBuilder_AddChecked c interval (build_entries interval kvs) kv.1 kv.2 = Some (build_entries interval (kvs ++ [kv])).
Proof.
  intros HC Hi Hs. unfold BlockBuilder_AddChecked, BlockBuilder_Add_pre.
  rewrite build_entries_snoc, build_entries_finished, build_entries_empty by done.
  rewrite (proj2 (Z.leb_le _ _)) by (by apply build_entries_counter). cbn [negb andb].
  destruct kvs as [|a kvs _] using rev_ind; [done|]. rewrite build_entries_last, last_snoc by done. simpl.
  assert (Hlt : Compare c a.1 kv.1 < 0).
  { apply (sorted_lookup_lt _ (length kvs) (S (length kvs)) a kv Hs); [lia| |].
    - rewrite lookup_app_l by (rewrite length_app; simpl; lia). by rewrite lookup_app_r, Nat.sub_diag.
    - rewrite lookup_app_r by (rewrite length_app; simpl; lia). rewrite length_app, Nat.add_1_r, Nat.sub_diag. done. }
  rewrite Z.gtb_ltb, (proj2 (Z.ltb_lt _ _)), orb_true_r; [done|].
  apply (Compare_swap (valid := valid)); [apply (sorted_elem_valid _ a Hs)|apply (sorted_elem_valid _ kv Hs)|done];
    rewrite !elem_of_app, !list_elem_of_singleton; auto.
Qed.

(** The size of the bytes a builder holds. *)
Definition payload (kvs : list (bytes * bytes)) : Z := foldr (λ kv n, zlen kv.1 + zlen kv.2 + 32 + n) 0 kvs.

Lemma payload_app kvs kvs' : payload (kvs ++ kvs') = payload kvs + payload kvs'.
Proof. induction kvs as [|kv kvs IH]; [done|]. simpl. rewrite IH. lia. Qed.

Lemma payload_length kvs : 32 * zlen kvs <= payload kvs.
Proof.
  induction kvs as [|kv kvs IH]; [done|]. rewrite zlen_cons. simpl. pose proof (zlen_nonneg kv.1). pose proof (zlen_nonneg kv.2). lia.
Qed.

Lemma entry_bytes_size sh k v : (sh <= length k)%nat → zlen (entry_bytes sh k v) <= zlen k + zlen v + 15.
Proof.
  intros Hsh. rewrite entry_bytes_app, !zlen_app.
  assert (H : ∀ x, zlen (EncodeVarint32 (u32 x)) <= 5).
  { intros x. rewrite EncodeVarint32_64 by apply u32_range. pose proof (u32_range x) as Hx. unfold is_u in Hx.
    unfold EncodeVarint64. rewrite (EncodeVarint64_loop_fuel 5) by lia. unfold zlen. pose proof (EncodeVarint64_loop_length 5 (u32 x)). lia. }
  pose proof (H (Z.of_nat sh)). pose proof (H (zlen k - Z.of_nat sh)). pose proof (H (zlen v)).
  assert (zlen (drop sh k) <= zlen k) by (unfold zlen; rewrite length_drop; lia). lia.
Qed.

Lemma build_entries_size interval kvs : 1 <= interval →
  zlen (buffer_ (build_entries interval kvs)) + 17 * zlen kvs <= payload kvs ∧
  zlen (restarts_ (build_entries interval kvs)) <= 1 + zlen kvs.
Proof.
  intros Hi. induction kvs as [|kv kvs [IH1 IH2]] using rev_ind; [done|]. rewrite build_entries_snoc, payload_app.
  unfold BlockBuilder_Add. cbn [buffer_ restarts_]. rewrite !zlen_app. set (sh := if negb _ then _ else _).
  assert (Hsh : (sh <= length kv.1)%nat).
  { unfold sh. destruct (negb _); [lia|]. destruct (common_prefix_spec (last_key_ (build_entries interval kvs)) kv.1) as (? & ? & _). lia. }
  pose proof (entry_bytes_size sh kv.1 kv.2 Hsh). simpl payload. change (zlen [kv]) with 1. split; [lia|].
  destruct (negb _); rewrite ?zlen_app; change (zlen [u32 (zlen (buffer_ (build_entries interval kvs)))]) with 1; lia.
Qed.

Lemma Finish_size interval kvs : 1 <= interval →
  zlen (buffer_ (BlockBuilder_Finish (build_entries interval kvs))) <= payload kvs - 13 * zlen kvs + 8.
Proof.
  intros Hi. pose proof (build_entries_size interval kvs Hi) as [H1 H2]. unfold BlockBuilder_Finish, PutFixed32 at 1. cbn [buffer_].
  rewrite PutFixed32_array, !zlen_app. unfold zlen at 2 3. rewrite fixed32_array_length, EncodeFixed32_length. unfold zlen in *. lia.
Qed.

Lemma EncodeFixed32_u32 v : EncodeFixed32 (u32 v) = EncodeFixed32 v.
Proof.
  rewrite <- (le_bytes_value (EncodeFixed32 v)) by apply EncodeFixed32_ok. rewrite EncodeFixed32_length.
  unfold EncodeFixed32. rewrite !le_value_bytes. done.
Qed.

Lemma Finish_contents interval b Ls ris : BuilderR interval b Ls ris → buffer_ (BlockBuilder_Finish b) = contents Ls ris.
Proof.
  intros [Hb Hr _ _ _]. unfold BlockBuilder_Finish, contents. simpl. unfold PutFixed32 at 1.
  rewrite PutFixed32_array, Hr, Hb, <- app_assoc, EncodeFixed32_u32. do 2 f_equal.
  - f_equal. rewrite <- !list_fmap_compose. apply list_fmap_ext. intros i r _. apply EncodeFixed32_u32.
  - unfold zlen. by rewrite length_fmap.
Qed.

Lemma Block_make_contents Ls ris : LayoutOk Ls ris → zlen (contents Ls ris) < 2 ^ 32 →
  ∀ c, Block_NewIterator c (Block_make (contents Ls ris)) = inr (BlockIter_make c (contents Ls ris) (zlen (body Ls)) (zlen ris)).
Proof.
  intros HL Hsize c. pose proof (contents_length Ls ris) as Hlen. pose proof (zlen_nonneg (body Ls)) as Hb. pose proof (zlen_nonneg ris) as Hr.
  assert (Hn : NumRestarts (contents Ls ris) (zlen (contents Ls ris)) = zlen ris).
  { unfold NumRestarts. rewrite Hlen. replace (Z.to_nat (zlen (body Ls) + 4 * zlen ris + 4 - 4)) with
      (length (body Ls ++ mjoin (EncodeFixed32 <$> ((λ r, Z.of_nat (boff Ls r)) <$> ris))))
      by (rewrite length_app, fixed32_array_length, length_fmap; unfold zlen; lia).
    unfold contents. rewrite app_assoc, drop_app_length.
    rewrite <- (app_nil_r (EncodeFixed32 _)), DecodeEncodeFixed32. apply u32_small. unfold is_u. lia. }
  assert (0 < zlen ris). { pose proof (layout_first _ _ HL). destruct ris; [done|]. rewrite zlen_cons. pose proof (zlen_nonneg ris). lia. }
  unfold Block_make. rewrite (proj2 (Z.ltb_ge _ _)) by lia. rewrite Hn, Z.gtb_ltb, (proj2 (Z.ltb_ge _ _)) by (rewrite Hlen; dlia).
  unfold Block_NewIterator. cbn [size_ data_ restart_offset_]. rewrite (proj2 (Z.ltb_ge _ _)) by lia. rewrite Hn.
  rewrite (proj2 (Z.eqb_neq _ _)) by lia. rewrite (u32_small (1 + zlen ris)) by (unfold is_u; lia).
  rewrite u32_small by (unfold is_u; lia). do 2 f_equal. lia.
Qed.

(** A finished block opens as an iterator over its layout. *)
Lemma contents_positioned valid c Ls ris : ComparatorOk valid c → LayoutOk Ls ris → zlen (contents Ls ris) < 2 ^ 32 →
  sorted_kvs valid c (Ls.*2) → positioned valid c (Ls.*2) (Block_NewIterator c (Block_make (contents Ls ris))) None.
Proof.
  intros HC HL Hsize Hs. rewrite (Block_make_contents Ls ris HL Hsize c). eexists. split.
  - apply (sum_ok_r _ (block_iter_ok Ls ris HL Hsize c Hs)).
  - unfold BlockR, Invalid, Static. simpl. done.
Qed.

(** The bytes a builder finishes open as an iterator over the entries added. *)
Lemma build_entries_positioned valid c interval kvs : ComparatorOk valid c → 1 <= interval → sorted_kvs valid c kvs →
  zlen (buffer_ (BlockBuilder_Finish (build_entries interval kvs))) < 2 ^ 32 →
  positioned valid c kvs (Block_NewIterator c (Block_make (buffer_ (BlockBuilder_Finish (build_entries interval kvs))))) None.
Proof.
  intros HC Hi Hs Hsize. destruct (build_entries_ok interval kvs Hi) as (Ls & ris & HR & <-).
  rewrite (Finish_contents interval _ Ls ris HR) in *. apply contents_positioned; [done|apply HR|done|done].
Qed.

Lemma build_entries_count interval kvs : 1 <= interval →
  (length kvs <= length (buffer_ (BlockBuilder_Finish (build_entries interval kvs))))%nat.
Proof.
  intros Hi. destruct (build_entries_ok interval kvs Hi) as (Ls & ris & HR & <-).
  rewrite (Finish_contents interval _ Ls ris HR), length_fmap. apply entries_fit.
Qed.

Lemma entry_bytes_ok sh k v : bytes_ok k → bytes_ok v → bytes_ok (entry_bytes sh k v).
Proof.
  intros Hk Hv. rewrite entry_bytes_app, !bytes_ok_app. split_and!; try done; try (apply EncodeVarint32_ok, u32_range). by apply bytes_ok_drop.
Qed.

Lemma build_entries_bytes interval kvs : Forall (λ kv, bytes_ok kv.1 ∧ bytes_ok kv.2) kvs →
  bytes_ok (buffer_ (BlockBuilder_Finish (build_entries interval kvs))).
Proof.
  intros H. unfold BlockBuilder_Finish, PutFixed32 at 1. cbn [buffer_]. rewrite PutFixed32_array, !bytes_ok_app. split_and!.
  - induction kvs as [|kv kvs IH] using rev_ind; [constructor|]. apply Forall_app in H as [H [[Hk Hv] _]%Forall_cons].
    rewrite build_entries_snoc. cbn [buffer_ BlockBuilder_Add]. rewrite bytes_ok_app. split; [by apply IH|by apply entry_bytes_ok].
  - apply Forall_join. rewrite Forall_fmap. apply Forall_true. intros x. apply EncodeFixed32_ok.
  - apply EncodeFixed32_ok.
Qed.

Lemma read_lengths_sound s a b d rest : bytes_ok s → read_lengths s = Some (a, b, d, rest) →
  0 <= b ∧ 0 <= d ∧ zlen rest <= zlen s.
Proof.
  intros Hs. unfold read_lengths. destruct (_ <? 128).
  - intros [= <- <- <- <-].
    assert (H : ∀ i, 0 <= nth i s 0).
    { intros i. rewrite nth_lookup. destruct (s !! i) as [x|] eqn:Hx; [|done].
      pose proof (Forall_lookup_1 _ _ _ _ Hs Hx) as H. unfold is_byte in H. simpl. lia. }
    split_and!; [apply H..|]. unfold zlen. rewrite length_drop. lia.
  - change GetVarint32Ptr with GetVarint32.
    destruct (GetVarint32 s) as [[a' s1]|] eqn:E1; [|done]. cbn [mbind option_bind].
    apply GetVarint32_sound in E1 as (_ & pre & -> & _); [|done]. apply bytes_ok_app in Hs as [_ Hs].
    destruct (GetVarint32 s1) as [[b' s2]|] eqn:E2; [|done]. cbn [mbind option_bind].
    apply GetVarint32_sound in E2 as (Hb & pre2 & -> & _); [|done]. apply bytes_ok_app in Hs as [_ Hs].
    destruct (GetVarint32 s2) as [[d' s3]|] eqn:E3; [|done]. cbn [mbind option_bind].
    apply GetVarint32_sound in E3 as (Hd & pre3 & -> & _); [|done]. intros [= <- <- <- <-].
    unfold is_u in *. rewrite !zlen_app. pose proof (zlen_nonneg pre). pose proof (zlen_nonneg pre2). pose proof (zlen_nonneg pre3). lia.
Qed.

(** ** Properties *)

(** A block reads back: the bytes the builder finishes, opened as a block, give a
    correct iterator over exactly the entries added, for every restart interval:
    binary search over the restart points, prefix decompression and scanning back all
    land on the right entry, and the builder's size estimate is the exact size. *)
Theorem block_roundtrip (valid : bytes → Prop) (c : Comparator) (interval : Z) (kvs : list (bytes * bytes)) :
  ComparatorOk valid c → 1 <= interval → sorted_kvs valid c kvs →
  zlen (buffer_ (BlockBuilder_Finish (build_entries interval kvs))) < 2 ^ 32 →
  positioned valid c kvs (Block_NewIterator c (Block_make (buffer_ (BlockBuilder_Finish (build_entries interval kvs))))) None ∧
  CurrentSizeEstimate (build_entries interval kvs) = zlen (buffer_ (BlockBuilder_Finish (build_entries interval kvs))).
Proof.
  intros HC Hi Hs Hsize. split; [by apply build_entries_positioned|].
  destruct (build_entries_ok interval kvs Hi) as (Ls & ris & HR & <-). rewrite (Finish_contents interval _ Ls ris HR) in *. unfold CurrentSizeEstimate. rewrite contents_length. destruct HR as [-> -> _ _ _]. unfold zlen. rewrite length_fmap. lia.
Qed.

Definition sample_kvs : list (bytes * bytes) :=
  [([1; 1], [5]); ([1; 2], [6]); ([1; 3], [7]); ([1; 3; 1], [8]); ([2], [9])].
Definition sample_iter : EmptyIterator + BlockIter :=
  Block_NewIterator BytewiseComparator (Block_make (buffer_ (BlockBuilder_Finish (build_entries 2 sample_kvs)))).

Lemma block_roundtrip_witness :
  positioned bytes_ok BytewiseComparator sample_kvs sample_iter None ∧
  (it ← Seek [1; 3] sample_iter; it ← Next it; it ← Prev it; it ← Prev it; k ← key it; v ← value it; Some (k, v)) = Some ([1; 2], [6]).
Proof.
  split; [|vm_compute; reflexivity].
  apply (block_roundtrip bytes_ok BytewiseComparator 2 sample_kvs); [apply _|lia| |vm_compute; reflexivity].
  repeat constructor; by_compute.
Defined.

(** The bounds check of [DecodeEntry] adds the two lengths in 32 bits.  When the sum
    fits, key and value lie inside the block; when it wraps, the check passes for an
    entry that reaches far outside, and parsing reads past the block. *)
Theorem block_decode_bounds :
  (∀ data p limit shared non_shared value_length q,
     bytes_ok data → 0 <= p → limit <= zlen data → limit < 2 ^ 32 →
     DecodeEntry data p limit = Some (shared, non_shared, value_length, q) →
     non_shared + value_length < 2 ^ 32 → p <= q ∧ q + non_shared + value_length <= limit) ∧
  ∃ data, bytes_ok data ∧
    DecodeEntry data 0 8 = Some (0, 2 ^ 32 - 1, 2, 7) ∧ zlen data < 7 + (2 ^ 32 - 1) ∧
    SeekToFirst (Block_NewIterator BytewiseComparator (Block_make data)) = None.
Proof.
  split.
  - intros data p limit sh ns vl q Hok Hp Hlim Hl32 Hdec Hsum. unfold DecodeEntry in Hdec.
    destruct (Z.ltb_spec (limit - p) 3) as [|H3]; [done|].
    set (s := take (Z.to_nat (limit - p)) (drop (Z.to_nat p) data)) in *.
    assert (Hs : zlen s = limit - p) by (unfold s, zlen in *; rewrite length_take, length_drop; lia).
    assert (Hsok : bytes_ok s) by (unfold s; auto with lpad).
    destruct (read_lengths s) as [[[[a b] d] rest]|] eqn:Hr; [|done]. cbn [mbind option_bind] in Hdec.
    assert (Hrest : 0 <= b ∧ 0 <= d ∧ zlen rest <= zlen s).
    { by eapply read_lengths_sound. }
    destruct (Z.ltb_spec (u32 (zlen rest)) (u32 (b + d))) as [|Hle]; [done|]. simplify_eq.
    pose proof (zlen_nonneg rest). rewrite !u32_small in Hle by (unfold is_u; lia). lia.
  - exists ([0; 255; 255; 255; 255; 15; 2; 0] ++ EncodeFixed32 0 ++ EncodeFixed32 1). split_and!; [by_compute|vm_compute; reflexivity..].
Qed.
