(* ===== verification/Filter.v ===== *)
(** * Filters

    Model of [App/integration/hash.cpp], [bloom.cpp], [filter_policy.h],
    [filter_block.cpp], and of [InternalFilterPolicy] in [dbformat.cpp]: the hash
    function, Bloom filters, and the block that stores one filter per two kilobytes of
    table data.  A failed assertion is [None]. *)
From S2P Require Import Prelude Coding DbFormat Logging Iterator.
From stdpp Require Import sorting list.

#[local] Open Scope Z_scope.
#[local] Open Scope word_scope.

(** ** The hash function *)

Definition hash_m : Z := 0xc6a4a793.
Definition hash_r : Z := 24.

(** [while (data + 4 <= limit)] *)
Fixpoint hash_words (fuel : nat) (data : bytes) (h : Z) : bytes * Z :=
  match fuel with
  | O => (data, h)
  | S fuel' =>
      if 4 <=? zlen data then
        let w := DecodeFixed32 data in
        let h := u32 (h + w) in
        let h := u32 (h * hash_m) in
        let h := h .^ (h .>> 16) in
        hash_words fuel' (drop 4 data) h
      else (data, h)
  end.

(** The fall-through switch on the remaining bytes. *)
Definition hash_tail (data : bytes) (h : Z) : Z :=
  let n := length data in
  let h := if decide (n = 3%nat) then u32 (h + (nth 2 data 0 .<< 16)) else h in
  let h := if decide (2 <= n)%nat then u32 (h + (nth 1 data 0 .<< 8)) else h in
  if decide (1 <= n)%nat then
    let h := u32 (h + nth 0 data 0) in
    let h := u32 (h * hash_m) in
    h .^ (h .>> hash_r)
  else h.

Definition Hash (data : bytes) (seed : Z) : Z :=
  let '(rest, h) := hash_words (length data) data (u32 (seed .^ (zlen data * hash_m))) in
  hash_tail rest h.

(** ** Filter policies *)

Record FilterPolicy := {
  Name : bytes;
  CreateFilter : list bytes → bytes → bytes;
  KeyMayMatch : bytes → bytes → bool;
}.

(** What [filter_policy.h] asks: the filter is appended, and a key it was made from
    matches. *)
Class FilterPolicyOk (fits : list bytes → Prop) (p : FilterPolicy) : Prop := {
  filter_name : bytes_ok (Name p);
  filter_appends keys dst : fits keys → ∃ f, CreateFilter p keys dst = dst ++ f ∧ bytes_ok f ∧
    ∀ k, k ∈ keys → KeyMayMatch p k f = true;
}.

(** [InternalFilterPolicy]: the user policy on the user keys. *)
Definition InternalFilterPolicy (user_policy : FilterPolicy) : FilterPolicy := {|
  Name := Name user_policy;
  CreateFilter keys dst := CreateFilter user_policy (ExtractUserKey <$> keys) dst;
  KeyMayMatch key f := KeyMayMatch user_policy (ExtractUserKey key) f;
|}.

(** ** Bloom filters *)

Definition BloomHash (key : bytes) : Z := Hash key 0xbc9f1d34.

Record BloomFilterPolicy := { bits_per_key_ : Z; k_ : Z }.

(** 0.69 is 69/100; the double product truncates to the same integer up to the cap. *)
Definition BloomFilterPolicy_make (bits_per_key : Z) : BloomFilterPolicy :=
  let k := bits_per_key * 69 / 100 in
  let k := if k <? 1 then 1 else k in
  let k := if 30 <? k then 30 else k in
  {| bits_per_key_ := u64 bits_per_key; k_ := k |}.

Definition rotate17 (h : Z) : Z := (h .>> 17) .| u32 (h .<< 15).

(** [array[bitpos/8] |= (1 << (bitpos % 8))] *)
Definition set_bit (array : bytes) (bitpos : Z) : bytes :=
  alter (λ b, b .| (1 .<< (bitpos mod 8))) (Z.to_nat (bitpos / 8)) array.
Definition test_bit (array : bytes) (bitpos : Z) : bool :=
  negb (nth (Z.to_nat (bitpos / 8)) array 0 .& (1 .<< (bitpos mod 8)) =? 0).

Fixpoint set_probes (j : nat) (bits h delta : Z) (array : bytes) : bytes :=
  match j with
  | O => array
  | S j' => set_probes j' bits (u32 (h + delta)) delta (set_bit array (h mod bits))
  end.

Definition add_key (k bits : Z) (array key : bytes) : bytes :=
  let h := BloomHash key in
  set_probes (Z.to_nat k) bits h (rotate17 h) array.

Definition Bloom_CreateFilter (p : BloomFilterPolicy) (keys : list bytes) (dst : bytes) : bytes :=
  let bits := u64 (zlen keys * bits_per_key_ p) in
  let bits := if bits <? 64 then 64 else bits in
  let nbytes := u64 (bits + 7) / 8 in
  let bits := u64 (nbytes * 8) in
  let array := foldl (add_key (k_ p) bits) (repeat 0 (Z.to_nat nbytes)) keys in
  dst ++ array ++ [u8 (k_ p)].

Fixpoint test_probes (j : nat) (bits h delta : Z) (array : bytes) : bool :=
  match j with
  | O => true
  | S j' => if test_bit array (h mod bits) then test_probes j' bits (u32 (h + delta)) delta array else false
  end.

Definition Bloom_KeyMayMatch (key filter : bytes) : bool :=
  let len := zlen filter in
  if len <? 2 then false
  else
    let bits := (len - 1) * 8 in
    let k := nth (Z.to_nat (len - 1)) filter 0 in
    if 30 <? k then true
    else
      let h := BloomHash key in
      test_probes (Z.to_nat k) bits h (rotate17 h) filter.

Definition NewBloomFilterPolicy (bits_per_key : Z) : FilterPolicy :=
  let p := BloomFilterPolicy_make bits_per_key in {|
  Name := str "leveldb.BuiltinBloomFilter2";
  CreateFilter := Bloom_CreateFilter p;
  KeyMayMatch := Bloom_KeyMayMatch;
|}.

(** ** The filter block *)

Definition kFilterBaseLg : Z := 11.
Definition kFilterBase : Z := 1 .<< kFilterBaseLg.

Record FilterBlockBuilder := {
  f_policy : FilterPolicy;      (** [policy_] *)
  f_keys : bytes;               (** [keys_] *)
  f_start : list Z;             (** [start_] *)
  f_result : bytes;             (** [result_] *)
  f_offsets : list Z;           (** [filter_offsets_] *)
}.

Definition FilterBlockBuilder_make (policy : FilterPolicy) : FilterBlockBuilder :=
  {| f_policy := policy; f_keys := []; f_start := []; f_result := []; f_offsets := [] |}.

Definition AddKey (key : bytes) (b : FilterBlockBuilder) : FilterBlockBuilder :=
  {| f_policy := f_policy b; f_keys := f_keys b ++ key; f_start := f_start b ++ [zlen (f_keys b)];
     f_result := f_result b; f_offsets := f_offsets b |}.

(** The slices [start_] cuts the flattened keys into. *)
Fixpoint flat_keys (keys : bytes) (start : list Z) : list bytes :=
  match start with
  | [] => []
  | s :: rest =>
      let e := match rest with [] => zlen keys | s' :: _ => s' end in
      take (Z.to_nat (e - s)) (drop (Z.to_nat s) keys) :: flat_keys keys rest
  end.

Definition GenerateFilter (b : FilterBlockBuilder) : FilterBlockBuilder :=
  let offsets := f_offsets b ++ [u32 (zlen (f_result b))] in
  match f_start b with
  | [] => {| f_policy := f_policy b; f_keys := f_keys b; f_start := []; f_result := f_result b; f_offsets := offsets |}
  | start =>
      {| f_policy := f_policy b; f_keys := []; f_start := [];
         f_result := CreateFilter (f_policy b) (flat_keys (f_keys b) start) (f_result b); f_offsets := offsets |}
  end.

Definition StartBlock (block_offset : Z) (b : FilterBlockBuilder) : option FilterBlockBuilder :=
  let filter_index := block_offset / kFilterBase in
  if zlen (f_offsets b) <=? filter_index
  then Some (Nat.iter (Z.to_nat (filter_index - zlen (f_offsets b))) GenerateFilter b)
  else None.

Definition FilterBlock_Finish (b : FilterBlockBuilder) : bytes :=
  let b := match f_start b with [] => b | _ => GenerateFilter b end in
  let array_offset := u32 (zlen (f_result b)) in
  PutFixed32 (foldl PutFixed32 (f_result b) (f_offsets b)) array_offset ++ [kFilterBaseLg].

Record FilterBlockReader := {
  r_policy : FilterPolicy;  (** [policy_] *)
  r_data : bytes;           (** [data_], from its start *)
  r_offset : Z;             (** [offset_ - data_] *)
  r_num : Z;                (** [num_] *)
  r_base_lg : Z;            (** [base_lg_] *)
}.

Definition FilterBlockReader_make (policy : FilterPolicy) (contents : bytes) : FilterBlockReader :=
  let n := zlen contents in
  if n <? 5 then {| r_policy := policy; r_data := []; r_offset := 0; r_num := 0; r_base_lg := 0 |}
  else
    let base_lg := nth (Z.to_nat (n - 1)) contents 0 in
    let last_word := DecodeFixed32 (drop (Z.to_nat (n - 5)) contents) in
    if n - 5 <? last_word then {| r_policy := policy; r_data := []; r_offset := 0; r_num := 0; r_base_lg := base_lg |}
    else {| r_policy := policy; r_data := contents; r_offset := last_word; r_num := (n - 5 - last_word) / 4; r_base_lg := base_lg |}.

Definition FilterBlock_KeyMayMatch (r : FilterBlockReader) (block_offset : Z) (key : bytes) : bool :=
  let index := block_offset .>> r_base_lg r in
  if index <? r_num r then
    let start := DecodeFixed32 (drop (Z.to_nat (r_offset r + index * 4)) (r_data r)) in
    let limit := DecodeFixed32 (drop (Z.to_nat (r_offset r + index * 4 + 4)) (r_data r)) in
    if (start <=? limit) && (limit <=? r_offset r) then
      KeyMayMatch (r_policy r) key (take (Z.to_nat (limit - start)) (drop (Z.to_nat start) (r_data r)))
    else if start =? limit then false
    else true
  else true.

(** ** Bloom filters have no false negatives *)

Lemma pow_bit_nonzero b i : 0 <= i → (b .& (1 .<< i) =? 0) = negb (Z.testbit b i).
Proof.
  intros Hi. destruct (Z.testbit b i) eqn:E; simpl.
  - apply Z.eqb_neq. intros H. assert (Ht : Z.testbit (b .& (1 .<< i)) i = true).
    { rewrite Z.land_spec, E, Z.shiftl_spec, Z.sub_diag by lia. done. }
    by rewrite H, Z.bits_0 in Ht.
  - apply Z.eqb_eq, Z.bits_inj'. intros j Hj. rewrite Z.land_spec, Z.bits_0, Z.shiftl_1_l, Z.pow2_bits_eqb by lia.
    destruct (decide (j = i)) as [->|]; [by rewrite E|].
    rewrite (proj2 (Z.eqb_neq _ _)) by lia. apply andb_false_r.
Qed.

Lemma test_bit_spec array p : test_bit array p = Z.testbit (nth (Z.to_nat (p / 8)) array 0) (p mod 8).
Proof. unfold test_bit. rewrite pow_bit_nonzero by dlia. apply negb_involutive. Qed.

Lemma nth_alter (f : Z → Z) (l : bytes) i j : (i < length l)%nat →
  nth j (alter f i l) 0 = if decide (i = j) then f (nth j l 0) else nth j l 0.
Proof.
  intros Hi. rewrite !nth_lookup. case_decide as E.
  - subst j. rewrite list_lookup_alter, decide_True by done. destruct (lookup_lt_is_Some_2 l i Hi) as [x ->]. done.
  - by rewrite list_lookup_alter_ne by done.
Qed.

Lemma set_bit_length array p : length (set_bit array p) = length array.
Proof. apply length_alter. Qed.
Lemma set_probes_length j : ∀ bits h delta array, length (set_probes j bits h delta array) = length array.
Proof. induction j as [|j IH]; intros; simpl; [done|]. by rewrite IH, set_bit_length. Qed.
Lemma add_key_length k bits array key : length (add_key k bits array key) = length array.
Proof. apply set_probes_length. Qed.
Lemma add_keys_length k bits keys : ∀ array, length (foldl (add_key k bits) array keys) = length array.
Proof. induction keys as [|key keys IH]; intros array; simpl; [done|]. by rewrite IH, add_key_length. Qed.

Lemma bit_byte i : 0 <= i < 8 → is_byte (1 .<< i).
Proof. intros Hi. rewrite Z.shiftl_1_l. unfold is_byte. change 256 with (2 ^ 8). split; [lia|]. apply Z.pow_lt_mono_r; lia. Qed.

Lemma set_bit_ok array p : bytes_ok array → bytes_ok (set_bit array p).
Proof.
  intros H. unfold set_bit. apply Forall_alter; [done|]. intros x _ Hx.
  pose proof (is_u_lor 8 x (1 .<< (p mod 8))) as Ho. unfold is_u, is_byte in *. change (2 ^ 8) with 256 in Ho.
  apply Ho; [lia|done|]. apply bit_byte. dlia.
Qed.
Lemma set_probes_ok j : ∀ bits h delta array, bytes_ok array → bytes_ok (set_probes j bits h delta array).
Proof. induction j as [|j IH]; intros; simpl; [done|]. by apply IH, set_bit_ok. Qed.
Lemma add_keys_ok k bits keys : ∀ array, bytes_ok array → bytes_ok (foldl (add_key k bits) array keys).
Proof. induction keys as [|key keys IH]; intros array H; simpl; [done|]. by apply IH, set_probes_ok. Qed.

Section Bits.
Context (bits : Z) (Hbits : 0 < bits).

Lemma pos_bound (array : bytes) h : bits = 8 * zlen array → (Z.to_nat (h mod bits / 8) < length array)%nat.
Proof using Hbits. intros E. pose proof (Z.mod_pos_bound h bits Hbits). unfold zlen in E. dlia. Qed.

Lemma set_bit_sets array h : bits = 8 * zlen array → test_bit (set_bit array (h mod bits)) (h mod bits) = true.
Proof using Hbits.
  intros E. rewrite test_bit_spec. unfold set_bit. rewrite nth_alter, decide_True by (done || by apply pos_bound).
  rewrite Z.lor_spec, Z.shiftl_spec, Z.sub_diag by dlia. apply orb_true_r.
Qed.

Lemma set_bit_mono array h p : bits = 8 * zlen array → test_bit array p = true → test_bit (set_bit array (h mod bits)) p = true.
Proof using Hbits.
  intros E. rewrite !test_bit_spec. unfold set_bit. rewrite nth_alter by (by apply pos_bound). case_decide; [|done].
  intros Hp. by rewrite Z.lor_spec, Hp.
Qed.

Lemma set_probes_mono j : ∀ h delta array p, bits = 8 * zlen array → test_bit array p = true →
  test_bit (set_probes j bits h delta array) p = true.
Proof using Hbits.
  induction j as [|j IH]; intros h delta array p E H; simpl; [done|].
  apply IH; [|by apply set_bit_mono]. unfold zlen. by rewrite set_bit_length.
Qed.

Lemma test_bit_app array s h : bits = 8 * zlen array → test_bit (array ++ s) (h mod bits) = test_bit array (h mod bits).
Proof using Hbits. intros E. unfold test_bit. by rewrite app_nth1 by (by apply pos_bound). Qed.

(** Every probe of [filter] that was set is found set. *)
Lemma test_probes_mono j : ∀ h delta a b, bits = 8 * zlen a → bits = 8 * zlen b →
  (∀ p, test_bit a p = true → test_bit b p = true) → test_probes j bits h delta a = true → test_probes j bits h delta b = true.
Proof.
  induction j as [|j IH]; intros h delta a b Ea Eb H Ht; simpl in *; [done|].
  destruct (test_bit a (h mod bits)) eqn:E; [|done]. rewrite (H _ E). by apply (IH _ _ a).
Qed.

Lemma probes_found j : ∀ h delta array, bits = 8 * zlen array → test_probes j bits h delta (set_probes j bits h delta array) = true.
Proof using Hbits.
  induction j as [|j IH]; intros h delta array E; simpl; [done|].
  assert (E' : bits = 8 * zlen (set_bit array (h mod bits))) by (unfold zlen; by rewrite set_bit_length).
  rewrite set_probes_mono; [by apply IH|done|by apply set_bit_sets].
Qed.

Lemma test_probes_app j : ∀ h delta array s, bits = 8 * zlen array →
  test_probes j bits h delta (array ++ s) = test_probes j bits h delta array.
Proof using Hbits. induction j as [|j IH]; intros h delta array s E; simpl; [done|]. by rewrite test_bit_app, IH. Qed.

Lemma add_keys_found k keys : ∀ array key, bits = 8 * zlen array → key ∈ keys →
  test_probes (Z.to_nat k) bits (BloomHash key) (rotate17 (BloomHash key)) (foldl (add_key k bits) array keys) = true.
Proof using Hbits.
  induction keys as [|x keys IH] using rev_ind; intros array key E Hin; [by apply not_elem_of_nil in Hin|].
  rewrite foldl_app. cbn [foldl].
  assert (E' : bits = 8 * zlen (foldl (add_key k bits) array keys)) by (unfold zlen in *; by rewrite add_keys_length).
  apply elem_of_app in Hin as [Hin|Hin%list_elem_of_singleton].
  - apply (test_probes_mono _ _ _ (foldl (add_key k bits) array keys)); [done| | |by apply IH].
    + unfold zlen in *. by rewrite add_key_length.
    + intros p Hp. by apply set_probes_mono.
  - subst key. by apply probes_found.
Qed.
End Bits.

Definition bloom_fits (bits_per_key : Z) (keys : list bytes) : Prop := zlen keys * u64 bits_per_key + 7 < 2 ^ 64.

Lemma NewBloomFilterPolicy_ok bits_per_key : FilterPolicyOk (bloom_fits bits_per_key) (NewBloomFilterPolicy bits_per_key).
Proof.
  split; [by_compute|]. intros keys dst Hfit. unfold bloom_fits in Hfit. cbn [CreateFilter NewBloomFilterPolicy]. unfold Bloom_CreateFilter.
  pose proof (zlen_nonneg keys) as Hk. pose proof (u64_range bits_per_key) as Hu. unfold is_u in Hu.
  set (p := BloomFilterPolicy_make bits_per_key). change (bits_per_key_ p) with (u64 bits_per_key).
  rewrite (u64_small (zlen keys * _)) by (unfold is_u; nia). set (n0 := zlen keys * u64 bits_per_key) in *.
  assert (Hn0 : 0 <= n0) by (unfold n0; nia).
  set (b0 := if n0 <? 64 then 64 else n0).
  assert (Hb0 : 64 <= b0 ∧ b0 + 7 < 2 ^ 64) by (unfold b0; destruct (Z.ltb_spec n0 64); lia).
  rewrite (u64_small (b0 + 7)) by (unfold is_u; lia). set (nb := (b0 + 7) / 8). assert (Hnb : 8 <= nb) by (unfold nb; dlia).
  rewrite (u64_small (nb * 8)) by (unfold is_u, nb; dlia).
  set (array := foldl (add_key (k_ p) (nb * 8)) (repeat 0 (Z.to_nat nb)) keys).
  assert (Hl : zlen array = nb) by (unfold array, zlen; rewrite add_keys_length, repeat_length; lia).
  assert (bytes_ok array) by (apply add_keys_ok, Forall_forall; intros x ->%list_elem_of_In%repeat_spec; unfold is_byte; lia).
  eexists. split; [done|]. split; [rewrite bytes_ok_app, bytes_ok_cons; split_and!; [done|apply u8_range|constructor]|].
  intros key Hin. cbn [KeyMayMatch NewBloomFilterPolicy]. unfold Bloom_KeyMayMatch.
  assert (Hkk : 1 <= k_ p <= 30).
  { unfold p, BloomFilterPolicy_make. cbn [k_]. destruct (Z.ltb_spec (bits_per_key * 69 / 100) 1); [done|].
    destruct (Z.ltb_spec 30 (bits_per_key * 69 / 100)); lia. }
  rewrite zlen_app, Hl, zlen_cons, zlen_nil, (proj2 (Z.ltb_ge _ _)) by lia.
  replace (nb + (0 + 1) - 1) with nb by lia. rewrite app_nth2, <- Hl by (unfold zlen in *; lia).
  replace (Z.to_nat (zlen array) - length array)%nat with 0%nat by (unfold zlen; lia). cbn [nth].
  rewrite u8_small by (unfold is_byte; lia). rewrite (proj2 (Z.ltb_ge _ _)) by lia.
  rewrite test_probes_app by lia. unfold array at 2. rewrite Hl. apply add_keys_found; [lia| |done].
  unfold zlen. rewrite repeat_length. lia.
Qed.

Lemma InternalFilterPolicy_ok fits user : FilterPolicyOk fits user →
  FilterPolicyOk (λ keys, fits (ExtractUserKey <$> keys)) (InternalFilterPolicy user).
Proof.
  intros HO. split; [apply (filter_name (p := user))|]. intros keys dst Hf.
  destruct (filter_appends (p := user) (ExtractUserKey <$> keys) dst Hf) as (f & Hc & Hb & Hm).
  exists f. split_and!; [done|done|]. intros k Hk. apply Hm. by apply list_elem_of_fmap_2.
Qed.

(** ** The filter block answers for the keys it was given *)

(** The offsets of consecutive strings, from [n]. *)
Fixpoint starts (n : Z) (ks : list bytes) : list Z :=
  match ks with
  | [] => []
  | k :: ks' => n :: starts (n + zlen k) ks'
  end.

Lemma zlen_mjoin_snoc ks (k : bytes) : zlen (mjoin (ks ++ [k])) = zlen (mjoin ks) + zlen k.
Proof. rewrite join_app, zlen_app. simpl. by rewrite app_nil_r. Qed.

Lemma starts_app ks : ∀ n k, starts n (ks ++ [k]) = starts n ks ++ [n + zlen (mjoin ks)].
Proof.
  induction ks as [|x ks IH]; intros n k; simpl; [by rewrite zlen_nil, Z.add_0_r|]. rewrite IH, zlen_app. do 3 f_equal. lia.
Qed.

Lemma starts_length ks : ∀ n, length (starts n ks) = length ks.
Proof. induction ks as [|x ks IH]; intros n; simpl; [done|]. by rewrite IH. Qed.

Lemma starts_lookup ks : ∀ n i, (i < length ks)%nat → starts n ks !! i = Some (n + Z.of_nat (off ks i)).
Proof.
  induction ks as [|x ks IH]; intros n i Hi; simpl in Hi; [lia|]. destruct i as [|i]; simpl; [f_equal; unfold off; simpl; lia|].
  rewrite IH by lia. f_equal. unfold off, zlen. simpl. rewrite length_app. lia.
Qed.

Lemma flat_keys_starts ks : ∀ pre, flat_keys (pre ++ mjoin ks) (starts (zlen pre) ks) = ks.
Proof.
  induction ks as [|k ks IH]; intros pre; [done|]. cbn [starts flat_keys]. f_equal.
  - replace (match starts (zlen pre + zlen k) ks with [] => zlen (pre ++ mjoin (k :: ks)) | s' :: _ => s' end) with (zlen pre + zlen k).
    + replace (zlen pre + zlen k - zlen pre) with (zlen k) by lia. unfold zlen. rewrite !Nat2Z.id, drop_app_length. simpl.
      by rewrite take_app_length.
    + destruct ks as [|k' ks]; simpl; [|done]. by rewrite app_nil_r, zlen_app.
  - rewrite <- zlen_app. replace (pre ++ mjoin (k :: ks)) with ((pre ++ k) ++ mjoin ks) by (simpl; by rewrite app_assoc). apply IH.
Qed.

Section FilterBlock.
Context (p : FilterPolicy) (fits : list bytes → Prop) `{!FilterPolicyOk fits p}.

(** [f] is a filter of the keys [ks]. *)
Definition filter_of (ks : list bytes) (f : bytes) : Prop := bytes_ok f ∧ ∀ k, k ∈ ks → KeyMayMatch p k f = true.

(** The filters made so far, each of its keys [dn], and the keys waiting. *)
Definition FilterR (b : FilterBlockBuilder) (dn : list (list bytes)) (pend : list bytes) : Prop :=
  f_policy b = p ∧ f_keys b = mjoin pend ∧ f_start b = starts 0 pend ∧
  ∃ fs, f_result b = mjoin fs ∧ f_offsets b = u32 <$> starts 0 fs ∧
  Forall2 filter_of dn fs.

Lemma FilterR_make : FilterR (FilterBlockBuilder_make p) [] [].
Proof. unfold FilterR. simpl. split_and!; try done. exists []. by split_and!; [..|constructor]. Qed.

Lemma FilterR_AddKey b dn pend k : FilterR b dn pend → FilterR (AddKey k b) dn (pend ++ [k]).
Proof.
  intros (Hp & Hk & Hs & Hfs). unfold FilterR. simpl. split_and!; try done.
  - rewrite Hk, join_app. simpl. by rewrite app_nil_r.
  - by rewrite starts_app, Hs, Hk.
Qed.

Lemma FilterR_offsets b dn pend : FilterR b dn pend → zlen (f_offsets b) = zlen dn.
Proof.
  intros (_ & _ & _ & fs & _ & -> & HF). unfold zlen. rewrite length_fmap, starts_length. f_equal. symmetry. by eapply Forall2_length.
Qed.

Lemma FilterR_Generate b dn pend : fits pend → FilterR b dn pend → FilterR (GenerateFilter b) (dn ++ [pend]) [].
Proof using FilterPolicyOk0.
  intros Hfit (Hp & Hk & Hs & fs & Hr & Ho & HF). unfold GenerateFilter.
  assert (Hoff : f_offsets b ++ [u32 (zlen (f_result b))] = u32 <$> starts 0 fs ++ [0 + zlen (mjoin fs)]).
  { by rewrite Ho, Hr, fmap_app. }
  destruct pend as [|k pend].
  - rewrite Hs. simpl. unfold FilterR. simpl. split_and!; try done. exists (fs ++ [[]]). split_and!.
    + rewrite join_app. simpl. by rewrite !app_nil_r.
    + by rewrite starts_app, Hoff.
    + apply Forall2_app; [done|]. constructor; [|constructor]. split; [constructor|]. by intros k ?%not_elem_of_nil.
  - rewrite Hs. cbn [starts]. pose proof (flat_keys_starts (k :: pend) []) as Hflat. cbn [starts app] in Hflat.
    destruct (filter_appends (p := p) (k :: pend) (f_result b) Hfit) as (f & Hc & Hb & Hm).
    unfold FilterR. cbn [f_policy f_keys f_start f_result f_offsets]. split_and!; try done. exists (fs ++ [f]). split_and!.
    + rewrite Hp, Hk. change (zlen []) with 0 in Hflat. rewrite Hflat, Hc, Hr, join_app. simpl. by rewrite app_nil_r.
    + by rewrite starts_app, Hoff.
    + apply Forall2_app; [done|]. by constructor.
Qed.

(** [n] filters: the waiting keys, then empty ones. *)
Lemma FilterR_iter n : ∀ b dn pend, fits [] → fits pend → FilterR b dn pend →
  ∃ dn' pend', FilterR (Nat.iter n GenerateFilter b) (dn ++ dn') pend' ∧ length dn' = n ∧
  (n = 0%nat → pend' = pend) ∧ (n ≠ 0%nat → pend' = [] ∧ dn' !! 0%nat = Some pend).
Proof using FilterPolicyOk0.
  intros b dn pend Hnil Hfit HR. induction n as [|n IH].
  - exists [], pend. rewrite app_nil_r. simpl. by split_and!.
  - destruct IH as (dn' & pend' & HR' & Hlen & H0 & H1). rewrite Nat.iter_succ.
    assert (Hf' : fits pend') by (destruct (decide (n = 0%nat)); [by rewrite H0|by destruct H1 as [-> _]]).
    exists (dn' ++ [pend']), []. rewrite app_assoc. split_and!; [by apply FilterR_Generate|rewrite length_app; simpl; lia|done|].
    intros _. split; [done|]. destruct (decide (n = 0%nat)) as [->|Hn].
    + apply nil_length_inv in Hlen as ->. simpl. by rewrite H0.
    + destruct H1 as [_ H1]; [done|]. rewrite lookup_app_l by (by eapply lookup_lt_Some). done.
Qed.

(** The calls a table builder makes: each block starts at its offset and adds its keys. *)
Definition add_block (ob : option FilterBlockBuilder) (blk : Z * list bytes) : option FilterBlockBuilder :=
  b ← ob; b ← StartBlock blk.1 b; Some (foldl (λ b k, AddKey k b) b blk.2).
Definition add_blocks (b : FilterBlockBuilder) (blocks : list (Z * list bytes)) : option FilterBlockBuilder :=
  foldl add_block (Some b) blocks.

Definition all_keys (blocks : list (Z * list bytes)) : list bytes := mjoin blocks.*2.

(** Every key is in the filter its block's offset selects, or waits for it. *)
Definition Covered (blocks : list (Z * list bytes)) (dn : list (list bytes)) (pend : list bytes) : Prop :=
  ∀ o ks k, (o, ks) ∈ blocks → k ∈ ks →
  (∃ dks, dn !! Z.to_nat (o / kFilterBase) = Some dks ∧ k ∈ dks) ∨ Z.to_nat (o / kFilterBase) = length dn ∧ k ∈ pend.

Lemma filter_index_nonneg o : 0 <= o → 0 <= o / kFilterBase.
Proof. intros Ho. change kFilterBase with 2048. dlia. Qed.

Lemma FilterR_AddKeys ks : ∀ b dn pend, FilterR b dn pend → FilterR (foldl (λ b k, AddKey k b) b ks) dn (pend ++ ks).
Proof.
  induction ks as [|k ks IH]; intros b dn pend HR; simpl; [by rewrite app_nil_r|].
  replace (pend ++ k :: ks) with ((pend ++ [k]) ++ ks) by (by rewrite <- app_assoc). by apply IH, FilterR_AddKey.
Qed.

Lemma Covered_more blocks dn pend dn' : Covered blocks dn pend → (dn' ≠ [] → dn' !! 0%nat = Some pend) →
  Covered blocks (dn ++ dn') (match dn' with [] => pend | _ => [] end).
Proof.
  intros HC Hd o ks k Hin Hk. destruct (HC o ks k Hin Hk) as [(dks & Hl & Hd')|[Hl Hp]].
  - left. exists dks. split; [|done]. by rewrite lookup_app_l by (by eapply lookup_lt_Some).
  - destruct dn' as [|d dn']; [right; by rewrite app_nil_r|]. left. exists pend. split; [|done].
    rewrite lookup_app_r by lia. rewrite Hl, Nat.sub_diag. by apply Hd.
Qed.

Context (N : nat) (Hfit : ∀ ks, (length ks <= N)%nat → fits ks).

Lemma add_block_ok b blocks dn pend o ks : FilterR b dn pend → Covered blocks dn pend → (length pend <= N)%nat →
  0 <= o → (length dn <= Z.to_nat (o / kFilterBase))%nat →
  ∃ b' dn' pend', add_block (Some b) (o, ks) = Some b' ∧ FilterR b' dn' pend' ∧ Covered (blocks ++ [(o, ks)]) dn' pend' ∧
  length dn' = Z.to_nat (o / kFilterBase) ∧ (length pend' <= length pend + length ks)%nat.
Proof using Hfit FilterPolicyOk0.
  intros HR HC Hpend Ho Hlen. unfold add_block. cbn [mbind option_bind fst snd]. unfold StartBlock.
  pose proof (filter_index_nonneg o Ho).
  rewrite (FilterR_offsets b dn pend HR), (proj2 (Z.leb_le _ _)) by (unfold zlen; lia). cbn [mbind option_bind].
  destruct (FilterR_iter (Z.to_nat (o / kFilterBase - zlen dn)) b dn pend) as (dn' & pend' & HR' & Hn & H0 & H1);
    [apply Hfit; simpl; lia|by apply Hfit|done|].
  assert (Hpe : pend' = match dn' with [] => pend | _ => [] end).
  { destruct dn' as [|d dn'']; [apply H0; simpl in Hn; lia|]. cbn [length] in Hn. by destruct H1 as [-> _]; [lia|]. }
  exists (foldl (λ b k, AddKey k b) (Nat.iter (Z.to_nat (o / kFilterBase - zlen dn)) GenerateFilter b) ks), (dn ++ dn'), (pend' ++ ks).
  assert (Hl : length (dn ++ dn') = Z.to_nat (o / kFilterBase)) by (rewrite length_app, Hn; unfold zlen; lia).
  split_and!; [done|by apply FilterR_AddKeys| |done|].
  - intros o' ks' k [Hin|[= -> ->]%list_elem_of_singleton]%elem_of_app Hk.
    + destruct (Covered_more blocks dn pend dn' HC) with (o := o') (ks := ks') (k := k) as [Hc|[Hc Hp]]; [|done|done|by left|].
      * intros Hne. destruct dn' as [|d dn'']; [done|]. cbn [length] in Hn. by destruct H1 as [_ ?]; [lia|].
      * right. split; [done|]. apply elem_of_app. left. by rewrite Hpe.
    + right. split; [by rewrite Hl|]. apply elem_of_app. by right.
  - rewrite length_app, Hpe. destruct dn'; simpl; lia.
Qed.

Lemma add_blocks_ok blocks : StronglySorted Z.le blocks.*1 → Forall (λ o, 0 <= o) blocks.*1 → (length (all_keys blocks) <= N)%nat →
  ∃ b dn pend, add_blocks (FilterBlockBuilder_make p) blocks = Some b ∧ FilterR b dn pend ∧ Covered blocks dn pend ∧
  (length pend <= length (all_keys blocks))%nat ∧ (∀ o ks, last blocks = Some (o, ks) → length dn = Z.to_nat (o / kFilterBase)) ∧
  (blocks = [] → dn = []).
Proof using Hfit FilterPolicyOk0.
  induction blocks as [|[o ks] blocks IH] using rev_ind; intros Hs Hnn HN.
  - exists (FilterBlockBuilder_make p), [], []. split_and!; try done; [apply FilterR_make|by intros ??? ?%not_elem_of_nil].
  - rewrite fmap_app in Hs, Hnn. unfold all_keys in HN. rewrite fmap_app, join_app, length_app in HN. simpl in HN. rewrite app_nil_r in HN.
    apply Forall_app in Hnn as [Hnn Ho]. apply Forall_cons in Ho as [Ho _]. simpl in Ho.
    pose proof (StronglySorted_app_1_l _ _ _ Hs) as Hs1.
    destruct IH as (b & dn & pend & Hb & HR & HC & Hp & Hlast & Hnil); [done|done|unfold all_keys; lia|].
    assert (Hdn : (length dn <= Z.to_nat (o / kFilterBase))%nat).
    { destruct (last blocks) as [[o' ks']|] eqn:El.
      - rewrite (Hlast o' ks' eq_refl). apply Z2Nat.inj_le; [apply filter_index_nonneg|by apply filter_index_nonneg|].
        + rewrite Forall_forall in Hnn. apply Hnn. apply list_elem_of_fmap. exists (o', ks').
          split; [done|]. by apply last_Some_elem_of.
        + apply Z.div_le_mono; [done|]. apply (StronglySorted_app_1_elem_of _ _ _ _ _ Hs); [|by left].
          apply list_elem_of_fmap. exists (o', ks'). split; [done|]. by apply last_Some_elem_of.
      - apply last_None in El. rewrite (Hnil El). simpl. lia. }
    destruct (add_block_ok b blocks dn pend o ks HR HC ltac:(unfold all_keys in *; lia) Ho Hdn) as (b' & dn' & pend' & Hb' & HR' & HC' & Hl & Hp').
    exists b', dn', pend'. unfold add_blocks in *. rewrite foldl_app, Hb. split_and!; try done.
    + unfold all_keys in *. rewrite fmap_app, join_app, length_app. simpl. rewrite app_nil_r. lia.
    + intros o' ks' Hl'. rewrite last_snoc in Hl'. by simplify_eq.
    + intros E. by apply app_nil in E as [_ ?].
Qed.

(** The bytes of a finished filter block. *)
Definition filter_contents (fs : list bytes) : bytes :=
  mjoin fs ++ mjoin (EncodeFixed32 <$> ((λ i, Z.of_nat (off fs i)) <$> seq 0 (S (length fs)))) ++ [kFilterBaseLg].

Lemma starts_seq fs : starts 0 fs ++ [zlen (mjoin fs)] = (λ i, Z.of_nat (off fs i)) <$> seq 0 (S (length fs)).
Proof.
  apply list_eq. intros i. destruct (decide (i < length fs)%nat) as [Hi|Hi].
  - rewrite lookup_app_l by (by rewrite starts_length). rewrite starts_lookup, list_lookup_fmap, lookup_seq_lt by lia. done.
  - destruct (decide (i = length fs)) as [->|Hne].
    + rewrite lookup_app_r, starts_length, Nat.sub_diag by (by rewrite starts_length).
      rewrite list_lookup_fmap, lookup_seq_lt by lia. simpl. by rewrite off_end.
    + rewrite !lookup_ge_None_2; [done|rewrite length_fmap, length_seq; lia|rewrite length_app, starts_length; simpl; lia].
Qed.

Lemma off_le_total (fs : list bytes) i : (i <= length fs)%nat → Z.of_nat (off fs i) <= zlen (mjoin fs).
Proof. intros Hi. pose proof (off_mono fs i (length fs) Hi). rewrite off_end in *. unfold zlen. lia. Qed.

Lemma u32_offsets fs : zlen (mjoin fs) < 2 ^ 32 → (u32 <$> starts 0 fs) ++ [u32 (zlen (mjoin fs))] = (λ i, Z.of_nat (off fs i)) <$> seq 0 (S (length fs)).
Proof.
  intros H. change [u32 (zlen (mjoin fs))] with (u32 <$> [zlen (mjoin fs)]). rewrite <- fmap_app, starts_seq.
  rewrite <- list_fmap_compose. apply list_fmap_ext. intros i x Hx. apply lookup_seq in Hx as [-> Hx]. simpl. apply u32_small.
  pose proof (off_le_total fs i). unfold is_u. lia.
Qed.

Lemma Finish_filter_contents b dn pend : fits pend → FilterR b dn pend → zlen (FilterBlock_Finish b) < 2 ^ 32 →
  ∃ fs, FilterBlock_Finish b = filter_contents fs ∧
  Forall2 filter_of (match pend with [] => dn | _ => dn ++ [pend] end) fs.
Proof using FilterPolicyOk0.
  intros Hf HR Hsize.
  assert (∃ b', match f_start b with [] => b | _ => GenerateFilter b end = b' ∧
    FilterR b' (match pend with [] => dn | _ => dn ++ [pend] end) []) as (b' & Hb' & HR').
  { pose proof HR as (_ & _ & Hs & _). destruct pend as [|k pend]; rewrite Hs; simpl; eexists; (split; [done|]); [done|].
    by apply FilterR_Generate. }
  unfold FilterBlock_Finish in *. rewrite Hb' in *. destruct HR' as (_ & _ & _ & fs & Hr & Ho & HF). exists fs. split; [|done].
  rewrite Hr, Ho in *. unfold PutFixed32 in *. rewrite PutFixed32_array in *. unfold filter_contents.
  assert (zlen (mjoin fs) < 2 ^ 32).
  { rewrite !zlen_app in Hsize. pose proof (zlen_nonneg (mjoin (EncodeFixed32 <$> (u32 <$> starts 0 fs)))).
    pose proof (zlen_nonneg (EncodeFixed32 (u32 (zlen (mjoin fs))))). pose proof (zlen_nonneg [kFilterBaseLg]). lia. }
  rewrite <- (u32_offsets fs) by done. rewrite fmap_app, join_app, <- !app_assoc. done.
Qed.

Lemma filter_contents_length fs : zlen (filter_contents fs) = zlen (mjoin fs) + 4 * Z.of_nat (length fs) + 5.
Proof.
  unfold filter_contents. rewrite !zlen_app. unfold zlen at 2. rewrite fixed32_array_length, length_fmap, length_seq.
  change (zlen [kFilterBaseLg]) with 1. lia.
Qed.

Lemma filter_offset_at fs j : zlen (filter_contents fs) < 2 ^ 32 → (j <= length fs)%nat →
  DecodeFixed32 (drop (Z.to_nat (zlen (mjoin fs) + Z.of_nat j * 4)) (filter_contents fs)) = Z.of_nat (off fs j).
Proof.
  intros Hs Hj. unfold filter_contents. rewrite filter_contents_length in Hs. apply fixed32_array_lookup.
  - by rewrite list_lookup_fmap, lookup_seq_lt by lia.
  - pose proof (off_le_total fs j Hj). unfold is_u. lia.
Qed.

Lemma filter_reader fs : zlen (filter_contents fs) < 2 ^ 32 →
  FilterBlockReader_make p (filter_contents fs) =
  {| r_policy := p; r_data := filter_contents fs; r_offset := zlen (mjoin fs); r_num := Z.of_nat (length fs); r_base_lg := kFilterBaseLg |}.
Proof.
  intros Hs. pose proof (filter_contents_length fs) as Hl. pose proof (zlen_nonneg (mjoin fs)). unfold FilterBlockReader_make.
  rewrite (proj2 (Z.ltb_ge _ _)) by lia.
  assert (Hw : DecodeFixed32 (drop (Z.to_nat (zlen (filter_contents fs) - 5)) (filter_contents fs)) = zlen (mjoin fs)).
  { replace (zlen (filter_contents fs) - 5) with (zlen (mjoin fs) + Z.of_nat (length fs) * 4) by lia.
    rewrite filter_offset_at by done. rewrite off_end. done. }
  rewrite Hw, (proj2 (Z.ltb_ge _ _)) by lia. f_equal.
  - replace (zlen (filter_contents fs) - 5 - zlen (mjoin fs)) with (Z.of_nat (length fs) * 4) by lia. by rewrite Z.div_mul.
  - unfold filter_contents at 2. rewrite app_assoc, app_nth2.
    + replace (_ - _)%nat with 0%nat; [done|].
      rewrite length_app, fixed32_array_length, length_fmap, length_seq. unfold zlen in *. lia.
    + rewrite length_app, fixed32_array_length, length_fmap, length_seq. unfold zlen in *. lia.
Qed.

(** A key of filter [i] matches at every offset that selects [i]. *)
Lemma filter_match fs i f o k : zlen (filter_contents fs) < 2 ^ 32 → fs !! i = Some f → 0 <= o → Z.to_nat (o / kFilterBase) = i →
  KeyMayMatch p k f = true → FilterBlock_KeyMayMatch (FilterBlockReader_make p (filter_contents fs)) o k = true.
Proof.
  intros Hs Hi Ho Hoi Hk. rewrite filter_reader by done. unfold FilterBlock_KeyMayMatch. cbn [r_policy r_data r_offset r_num r_base_lg].
  pose proof (lookup_lt_Some _ _ _ Hi) as Hl. pose proof (filter_index_nonneg o Ho).
  assert (E : o .>> kFilterBaseLg = Z.of_nat i).
  { rewrite Z.shiftr_div_pow2 by done. change (2 ^ kFilterBaseLg) with kFilterBase. lia. }
  rewrite E, (proj2 (Z.ltb_lt _ _)) by lia. rewrite filter_offset_at by (done || lia).
  replace (zlen (mjoin fs) + Z.of_nat i * 4 + 4) with (zlen (mjoin fs) + Z.of_nat (S i) * 4) by lia.
  rewrite filter_offset_at by (done || lia). rewrite (off_S fs i f Hi).
  pose proof (off_le_total fs (S i) ltac:(lia)) as Hle. rewrite (off_S fs i f Hi) in Hle.
  rewrite (proj2 (Z.leb_le _ _)), (proj2 (Z.leb_le _ _)) by lia. cbn [andb].
  replace (take _ _) with f; [done|]. rewrite Nat2Z.id. unfold filter_contents.
  assert (Em : mjoin fs = mjoin (take i fs) ++ f ++ mjoin (drop (S i) fs)) by (rewrite <- (take_drop_middle fs i f Hi) at 1; by rewrite join_app).
  rewrite Em, <- !app_assoc. unfold off. rewrite drop_app_length.
  replace (Z.to_nat _) with (length f) by lia. by rewrite take_app_length.
Qed.

Lemma filter_contents_ok fs : Forall bytes_ok fs → bytes_ok (filter_contents fs).
Proof.
  intros H. unfold filter_contents. rewrite !bytes_ok_app. split_and!; [by apply Forall_join| |repeat constructor; by_compute].
  apply Forall_join. rewrite Forall_fmap. apply Forall_true. intros x. apply EncodeFixed32_ok.
Qed.

(** Blocks at increasing offsets build a filter block that answers for their keys. *)
Lemma filter_block_answers blocks : StronglySorted Z.le blocks.*1 → Forall (λ o, 0 <= o) blocks.*1 → (length (all_keys blocks) <= N)%nat →
  ∃ b, add_blocks (FilterBlockBuilder_make p) blocks = Some b ∧
  (zlen (FilterBlock_Finish b) < 2 ^ 32 → bytes_ok (FilterBlock_Finish b) ∧ ∀ o ks k, (o, ks) ∈ blocks → k ∈ ks →
     FilterBlock_KeyMayMatch (FilterBlockReader_make p (FilterBlock_Finish b)) o k = true).
Proof using Hfit FilterPolicyOk0.
  intros Hs Hnn HN. destruct (add_blocks_ok blocks Hs Hnn) as (b & dn & pend & Hb & HR & HC & Hp & _); [done|].
  exists b. split; [done|]. intros Hsize.
  destruct (Finish_filter_contents b dn pend ltac:(apply Hfit; lia) HR Hsize) as (fs & Hf & HF). rewrite Hf in *. split.
  { apply filter_contents_ok, Forall_forall. intros f Hin. apply list_elem_of_lookup in Hin as [i Hi].
    eapply Forall2_lookup_r in HF as (ks & _ & Hok & _); done. }
  intros o ks k Hin Hk.
  assert (∃ dks, (match pend with [] => dn | _ => dn ++ [pend] end) !! Z.to_nat (o / kFilterBase) = Some dks ∧ k ∈ dks) as (dks & Hd & Hkd).
  { destruct (HC o ks k Hin Hk) as [(dks & Hd & Hkd)|[Hl Hkp]].
    - exists dks. split; [|done]. destruct pend; [done|]. by rewrite lookup_app_l by (by eapply lookup_lt_Some).
    - exists pend. split; [|done]. destruct pend; [by apply not_elem_of_nil in Hkp|]. by rewrite Hl, lookup_app_r, Nat.sub_diag. }
  eapply Forall2_lookup_l in HF as (f & Hi & _ & Hm); [|done].
  apply (filter_match fs (Z.to_nat (o / kFilterBase)) f); [done|done| |done|by apply Hm].
  rewrite Forall_forall in Hnn. apply Hnn. apply list_elem_of_fmap. by exists (o, ks).
Qed.
End FilterBlock.

(** ** Properties *)

(** Filters have no false negatives, through the Bloom filter, its restriction to user
    keys and the filter block: for blocks at increasing offsets, of any sizes and any
    gaps, the finished filter block answers "may match" for every key of a block at
    that block's offset, with the policy known only by its interface. *)
Theorem filter_block_no_false_negatives (p : FilterPolicy) (fits : list bytes → Prop) (blocks : list (Z * list bytes)) :
  FilterPolicyOk fits p → (∀ ks, (length ks <= length (all_keys blocks))%nat → fits ks) →
  StronglySorted Z.le blocks.*1 → Forall (λ o, 0 <= o) blocks.*1 →
  ∃ b, add_blocks (FilterBlockBuilder_make p) blocks = Some b ∧
    (zlen (FilterBlock_Finish b) < 2 ^ 32 → ∀ o ks k, (o, ks) ∈ blocks → k ∈ ks →
       FilterBlock_KeyMayMatch (FilterBlockReader_make p (FilterBlock_Finish b)) o k = true) ∧
  (∀ bits_per_key, FilterPolicyOk (bloom_fits bits_per_key) (NewBloomFilterPolicy bits_per_key)) ∧
  FilterPolicyOk (λ keys, fits (ExtractUserKey <$> keys)) (InternalFilterPolicy p).
Proof.
  intros HO Hfit Hs Hnn. destruct (filter_block_answers p fits _ Hfit blocks Hs Hnn) as (b & Hb & Hm); [done|].
  exists b. split_and!; [done| |apply NewBloomFilterPolicy_ok|by apply InternalFilterPolicy_ok]. intros Hsize. by apply Hm.
Qed.

Definition sample_blocks : list (Z * list bytes) := [(0, [[1]; [2; 3]]); (100, [[4]]); (5000, [[5; 6; 7; 8; 9]])].

Lemma filter_block_no_false_negatives_witness :
  ∃ b, add_blocks (FilterBlockBuilder_make (NewBloomFilterPolicy 10)) sample_blocks = Some b ∧
    FilterBlock_KeyMayMatch (FilterBlockReader_make (NewBloomFilterPolicy 10) (FilterBlock_Finish b)) 100 [4] = true ∧
    FilterBlock_KeyMayMatch (FilterBlockReader_make (NewBloomFilterPolicy 10) (FilterBlock_Finish b)) 2048 [4] = false.
Proof.
  destruct (filter_block_no_false_negatives (NewBloomFilterPolicy 10) (bloom_fits 10) sample_blocks) as (b & Hb & Hm & _).
  - apply NewBloomFilterPolicy_ok.
  - intros ks Hk. unfold bloom_fits, zlen. change (length (all_keys sample_blocks)) with 4%nat in Hk.
    change (u64 10) with 10. lia.
  - repeat constructor; by_compute.
  - repeat constructor; by_compute.
  - assert (Hs : (match add_blocks (FilterBlockBuilder_make (NewBloomFilterPolicy 10)) sample_blocks with
                  | Some b => zlen (FilterBlock_Finish b) <? 2 ^ 32 | None => false end) = true) by (vm_compute; reflexivity).
    assert (Hn : (match add_blocks (FilterBlockBuilder_make (NewBloomFilterPolicy 10)) sample_blocks with
                  | Some b => FilterBlock_KeyMayMatch (FilterBlockReader_make (NewBloomFilterPolicy 10) (FilterBlock_Finish b)) 2048 [4]
                  | None => true end) = false) by (vm_compute; reflexivity).
    rewrite Hb in Hs, Hn. apply Z.ltb_lt in Hs. exists b. split; [done|]. split; [|done].
    apply (Hm Hs 100 [[4]]); [right; left|left].
Defined.
