(* ===== verification/Format.v ===== *)
(** * Table file format

    Model of [App/integration/format.h] and [format.cpp]: block handles, the footer, and
    reading a block with its checksum.  [port_posix.h] has no Snappy: compressing and
    decompressing always fail. *)
From S2P Require Import Prelude Coding Crc32c Logging Status.

#[local] Open Scope Z_scope.
#[local] Open Scope word_scope.

(** ** Block handles *)

Record BlockHandle := { offset : Z; size : Z }.

(** The constructor sets both fields to all ones. *)
Definition BlockHandle_init : BlockHandle := {| offset := 2 ^ 64 - 1; size := 2 ^ 64 - 1 |}.

Definition BlockHandle_EncodeTo (h : BlockHandle) (dst : bytes) : bytes :=
  PutVarint64 (PutVarint64 dst (offset h)) (size h).

(** The handle and the rest of the input. *)
Definition BlockHandle_DecodeFrom (input : bytes) : Status * option (BlockHandle * bytes) :=
  match GetVarint64 input with
  | None => (Corruption (str "bad block handle") [], None)
  | Some (o, input) =>
      match GetVarint64 input with
      | None => (Corruption (str "bad block handle") [], None)
      | Some (n, input) => (OK, Some ({| offset := o; size := n |}, input))
      end
  end.

Definition kMaxEncodedLength : Z := 10 + 10.

(** ** The footer *)

Record Footer := { metaindex_handle : BlockHandle; index_handle : BlockHandle }.

Definition kTableMagicNumber : Z := 0xdb4775248b80fb57.
Definition kEncodedLength : Z := 2 * kMaxEncodedLength + 8.

(** [std::string::resize]: cut, or pad with zero bytes. *)
Definition resize (n : Z) (s : bytes) : bytes := take (Z.to_nat n) s ++ repeat 0 (Z.to_nat n - length s).

Definition Footer_EncodeTo (f : Footer) (dst : bytes) : bytes :=
  let dst := BlockHandle_EncodeTo (metaindex_handle f) dst in
  let dst := BlockHandle_EncodeTo (index_handle f) dst in
  let dst := resize (2 * kMaxEncodedLength) dst in
  let dst := PutFixed32 dst (kTableMagicNumber .& 0xffffffff) in
  PutFixed32 dst (kTableMagicNumber .>> 32).

Definition Footer_DecodeFrom (input : bytes) : Status * option (Footer * bytes) :=
  let magic_ptr := drop (Z.to_nat (kEncodedLength - 8)) input in
  let magic_lo := DecodeFixed32 magic_ptr in
  let magic_hi := DecodeFixed32 (drop 4 magic_ptr) in
  let magic := (magic_hi .<< 32) .| magic_lo in
  if negb (magic =? kTableMagicNumber) then (Corruption (str "not an sstable (bad magic number)") [], None)
  else
    match BlockHandle_DecodeFrom input with
    | (s, None) => (s, None)
    | (s, Some (metaindex, rest)) =>
        match BlockHandle_DecodeFrom rest with
        | (s, None) => (s, None)
        | (s, Some (index, _)) =>
            (s, Some ({| metaindex_handle := metaindex; index_handle := index |}, drop (Z.to_nat kEncodedLength) input))
        end
    end.

(** ** Reading a block *)

Definition kBlockTrailerSize : Z := 5.

Inductive CompressionType := kNoCompression | kSnappyCompression.
Definition CompressionType_byte (t : CompressionType) : Z :=
  match t with kNoCompression => 0 | kSnappyCompression => 1 end.

(** [port::Snappy_Compress], [Snappy_GetUncompressedLength] and [Snappy_Uncompress]. *)
Definition Snappy_Compress (input : bytes) : option bytes := None.
Definition Snappy_GetUncompressedLength (input : bytes) : option Z := None.
Definition Snappy_Uncompress (input : bytes) : option bytes := None.

(** [RandomAccessFile] of [env.h]: up to [n] bytes from an offset. *)
Record RandomAccessFile := { Read : Z → Z → Status * bytes }.

(** The file holds [data]. *)
Class FileHolds (f : RandomAccessFile) (data : bytes) : Prop := {
  Read_holds o n : 0 <= o → 0 <= n → Read f o n = (OK, take (Z.to_nat n) (drop (Z.to_nat o) data));
}.

(** [WritableFile] of [env.h]; [written] is what the file holds, to state the
    theorems. *)
Class WritableFile (F : Type) := {
  Append : bytes → F → Status * F;
  Flush : F → Status * F;
  written : F → bytes;
}.

(** A file no operation of which fails. *)
Class ReliableFile (F : Type) `{!WritableFile F} : Prop := {
  Append_ok d f : ∃ f', Append d f = (OK, f') ∧ written f' = written f ++ d;
  Flush_ok f : ∃ f', Flush f = (OK, f') ∧ written f' = written f;
}.

Definition ReadBlock (file : RandomAccessFile) (verify_checksums : bool) (handle : BlockHandle) : Status * option bytes :=
  let n := size handle in
  let '(s, contents) := Read file (offset handle) (u64 (n + kBlockTrailerSize)) in
  if negb (Status_ok s) then (s, None)
  else if negb (zlen contents =? u64 (n + kBlockTrailerSize)) then (Corruption (str "truncated block read") [], None)
  else
    let crc := Unmask (DecodeFixed32 (drop (Z.to_nat (n + 1)) contents)) in
    let actual := Value (take (Z.to_nat (n + 1)) contents) in
    if verify_checksums && negb (actual =? crc) then (Corruption (str "block checksum mismatch") [], None)
    else
      let type := nth (Z.to_nat n) contents 0 in
      if type =? CompressionType_byte kNoCompression then (OK, Some (take (Z.to_nat n) contents))
      else if type =? CompressionType_byte kSnappyCompression then
        match Snappy_GetUncompressedLength (take (Z.to_nat n) contents) with
        | None => (Corruption (str "corrupted compressed block contents") [], None)
        | Some ulength =>
            match Snappy_Uncompress (take (Z.to_nat n) contents) with
            | None => (Corruption (str "corrupted compressed block contents") [], None)
            | Some ubuf => (OK, Some ubuf)
            end
        end
      else (Corruption (str "bad block type") [], None).

(** The bytes a block takes in a file: its data, its type and the masked checksum of
    both. *)
Definition stored (data : bytes) (type : CompressionType) : bytes :=
  data ++ [CompressionType_byte type] ++ EncodeFixed32 (Mask (Extend (Value data) [CompressionType_byte type])).

(** ** Lemmas *)

Definition handle_ok (h : BlockHandle) : Prop := is_u 64 (offset h) ∧ is_u 64 (size h).

Lemma BlockHandle_EncodeTo_app h dst : BlockHandle_EncodeTo h dst = dst ++ BlockHandle_EncodeTo h [].
Proof. unfold BlockHandle_EncodeTo, PutVarint64. by rewrite <- app_assoc. Qed.

Lemma BlockHandle_decode h rest : handle_ok h →
  BlockHandle_DecodeFrom (BlockHandle_EncodeTo h [] ++ rest) = (OK, Some (h, rest)).
Proof.
  intros [Ho Hs]. unfold BlockHandle_DecodeFrom, BlockHandle_EncodeTo, PutVarint64. cbn [app].
  rewrite <- app_assoc, GetVarint64_Encode, GetVarint64_Encode by done. by destruct h.
Qed.

Lemma EncodeVarint64_length v : (length (EncodeVarint64 v) <= 10)%nat.
Proof. exact (EncodeVarint64_loop_length 10 v). Qed.

Lemma BlockHandle_length h : (length (BlockHandle_EncodeTo h []) <= 20)%nat.
Proof.
  unfold BlockHandle_EncodeTo, PutVarint64. cbn [app]. rewrite length_app.
  pose proof (EncodeVarint64_length (offset h)). pose proof (EncodeVarint64_length (size h)).
  generalize dependent (EncodeVarint64 (offset h)). generalize dependent (EncodeVarint64 (size h)). lia.
Qed.

(** The two handles and the padding up to forty bytes, then the magic number. *)
Lemma Footer_layout f : ∃ padding,
  let hs := BlockHandle_EncodeTo (metaindex_handle f) [] ++ BlockHandle_EncodeTo (index_handle f) [] ++ padding in
  Footer_EncodeTo f [] = hs ++ EncodeFixed32 (kTableMagicNumber .& 0xffffffff) ++ EncodeFixed32 (kTableMagicNumber .>> 32) ∧
  length hs = 40%nat.
Proof.
  pose proof (BlockHandle_length (metaindex_handle f)). pose proof (BlockHandle_length (index_handle f)).
  set (hs := BlockHandle_EncodeTo (metaindex_handle f) [] ++ BlockHandle_EncodeTo (index_handle f) []).
  assert (Hl : (length hs <= 40)%nat) by (unfold hs; rewrite length_app; lia).
  exists (repeat 0 (40 - length hs)). rewrite !app_assoc. fold hs. split.
  - unfold Footer_EncodeTo, PutFixed32. rewrite (BlockHandle_EncodeTo_app (index_handle f)). fold hs. unfold resize.
    change (Z.to_nat (2 * kMaxEncodedLength)) with 40%nat. by rewrite (take_ge hs), <- !app_assoc by done.
  - rewrite length_app, repeat_length. lia.
Qed.

Lemma Footer_length f : zlen (Footer_EncodeTo f []) = kEncodedLength.
Proof.
  destruct (Footer_layout f) as (pd & -> & Hl). unfold zlen.
  rewrite length_app, Hl, length_app, !EncodeFixed32_length. reflexivity.
Qed.

Lemma Footer_decode f rest : handle_ok (metaindex_handle f) → handle_ok (index_handle f) →
  Footer_DecodeFrom (Footer_EncodeTo f [] ++ rest) = (OK, Some (f, rest)).
Proof.
  intros Hm Hi. unfold Footer_DecodeFrom. pose proof (Footer_length f) as HL. destruct (Footer_layout f) as (pd & E & Hl).
  assert (Hmagic : drop (Z.to_nat (kEncodedLength - 8)) (Footer_EncodeTo f [] ++ rest) =
    EncodeFixed32 (kTableMagicNumber .& 0xffffffff) ++ EncodeFixed32 (kTableMagicNumber .>> 32) ++ rest).
  { change (Z.to_nat (kEncodedLength - 8)) with 40%nat. by rewrite <- Hl, E, <- app_assoc, drop_app_length, <- app_assoc. }
  rewrite Hmagic, DecodeEncodeFixed32.
  rewrite <- (EncodeFixed32_length (kTableMagicNumber .& 0xffffffff)), drop_app_length, DecodeEncodeFixed32.
  change ((u32 (kTableMagicNumber .>> 32) .<< 32) .| u32 (kTableMagicNumber .& 0xffffffff) =? kTableMagicNumber) with true. cbn [negb].
  assert (Hd : drop (Z.to_nat kEncodedLength) (Footer_EncodeTo f [] ++ rest) = rest).
  { rewrite <- HL. unfold zlen. by rewrite Nat2Z.id, drop_app_length. }
  rewrite Hd, E, <- !app_assoc, BlockHandle_decode by done. rewrite BlockHandle_decode by done. by destruct f.
Qed.

(** The number of bytes a stored block takes. *)
Lemma stored_length data t : zlen (stored data t) = zlen data + kBlockTrailerSize.
Proof. unfold stored, zlen. rewrite !length_app, EncodeFixed32_length. unfold kBlockTrailerSize. simpl. lia. Qed.

(** A stored block anywhere in a file reads back, checksum verified or not. *)
Lemma ReadBlock_stored f pre data post verify : FileHolds f (pre ++ stored data kNoCompression ++ post) → bytes_ok data →
  zlen data + kBlockTrailerSize < 2 ^ 64 →
  ReadBlock f verify {| offset := zlen pre; size := zlen data |} = (OK, Some data).
Proof.
  intros HF Hok Hn. unfold ReadBlock. cbn [offset size]. pose proof (zlen_nonneg data). pose proof (zlen_nonneg pre).
  rewrite u64_small by (unfold is_u, kBlockTrailerSize in *; lia).
  rewrite Read_holds by (unfold kBlockTrailerSize; lia).
  assert (Hr : take (Z.to_nat (zlen data + kBlockTrailerSize)) (drop (Z.to_nat (zlen pre)) (pre ++ stored data kNoCompression ++ post)) =
    stored data kNoCompression).
  { rewrite <- (stored_length data kNoCompression). unfold zlen. by rewrite !Nat2Z.id, drop_app_length, take_app_length. }
  rewrite Hr, stored_length, Z.eqb_refl. cbn [Status_ok OK negb]. unfold stored.
  set (ty := [CompressionType_byte kNoCompression]). set (crc := Extend (Value data) ty).
  assert (Hb : bytes_ok ty) by (repeat constructor; unfold is_byte; simpl; lia).
  assert (Hc : is_u 32 crc) by (apply Extend_range; [by apply Value_range|done]).
  replace (Z.to_nat (zlen data + 1)) with (length (data ++ ty)) by (rewrite length_app; unfold zlen; simpl; lia).
  rewrite (app_assoc data), drop_app_length, take_app_length.
  rewrite <- (app_nil_r (EncodeFixed32 (Mask crc))), DecodeEncodeFixed32, (u32_small _ (Mask_range _)), Unmask_Mask by done.
  assert (Hv : Value (data ++ ty) = crc) by (unfold crc, Value; apply Extend_app; [unfold is_u; lia|done|done]).
  rewrite Hv, Z.eqb_refl, andb_false_r, <- app_assoc. unfold zlen. rewrite Nat2Z.id, take_app_length.
  rewrite app_nth2, Nat.sub_diag by lia. reflexivity.
Qed.
