(* ===== verification/TableBuilder.v ===== *)
(** * The table builder

    Model of [App/integration/table_builder.cpp]: a table file is written block by block
    as sorted entries arrive, with an index over the data blocks, a filter block and a
    footer.  A failed assertion is [None]; errors of the file are kept in the status. *)
From stdpp Require Import sorting list.
From S2P Require Import Prelude Coding Crc32c Comparator Logging Status Iterator TwoLevelIterator Block Filter Format.

#[local] Open Scope Z_scope.

(** The fields of [Options] that tables use. *)
Record Options := {
  comparator : Comparator;
  paranoid_checks : bool;
  block_size : Z;
  block_restart_interval : Z;
  compression : CompressionType;
  filter_policy : option FilterPolicy;
}.

Definition with_restart_interval (n : Z) (o : Options) : Options :=
  {| comparator := comparator o; paranoid_checks := paranoid_checks o; block_size := block_size o;
     block_restart_interval := n; compression := compression o; filter_policy := filter_policy o |}.

(** [TableBuilder::Rep]. *)
Record TableBuilder (F : Type) := {
  tb_options : Options;             (** [options] *)
  tb_index_options : Options;       (** [index_block_options] *)
  tb_file : F;                      (** [file] *)
  tb_offset : Z;                    (** [offset] *)
  tb_status : Status;               (** [status] *)
  tb_data_block : BlockBuilder;     (** [data_block] *)
  tb_index_block : BlockBuilder;    (** [index_block] *)
  tb_last_key : bytes;              (** [last_key] *)
  tb_num_entries : Z;               (** [num_entries] *)
  tb_closed : bool;                 (** [closed] *)
  tb_filter_block : option FilterBlockBuilder;  (** [filter_block] *)
  tb_pending_index_entry : bool;    (** [pending_index_entry] *)
  tb_pending_handle : BlockHandle;  (** [pending_handle] *)
}.
Arguments tb_options {F}. Arguments tb_index_options {F}. Arguments tb_file {F}. Arguments tb_offset {F}.
Arguments tb_status {F}. Arguments tb_data_block {F}. Arguments tb_index_block {F}. Arguments tb_last_key {F}.
Arguments tb_num_entries {F}. Arguments tb_closed {F}. Arguments tb_filter_block {F}.
Arguments tb_pending_index_entry {F}. Arguments tb_pending_handle {F}.

Section Builder.
Context {F : Type} `{!WritableFile F}.
Implicit Types r : TableBuilder F.

(** Assignments to fields. *)
Definition set_file (s : Status) (f : F) r : TableBuilder F :=
  {| tb_options := tb_options r; tb_index_options := tb_index_options r; tb_file := f; tb_offset := tb_offset r; tb_status := s;
   tb_data_block := tb_data_block r; tb_index_block := tb_index_block r; tb_last_key := tb_last_key r;
   tb_num_entries := tb_num_entries r; tb_closed := tb_closed r; tb_filter_block := tb_filter_block r;
   tb_pending_index_entry := tb_pending_index_entry r; tb_pending_handle := tb_pending_handle r |}.
Definition set_offset (o : Z) r : TableBuilder F :=
  {| tb_options := tb_options r; tb_index_options := tb_index_options r; tb_file := tb_file r; tb_offset := o; tb_status := tb_status r;
   tb_data_block := tb_data_block r; tb_index_block := tb_index_block r; tb_last_key := tb_last_key r;
   tb_num_entries := tb_num_entries r; tb_closed := tb_closed r; tb_filter_block := tb_filter_block r;
   tb_pending_index_entry := tb_pending_index_entry r; tb_pending_handle := tb_pending_handle r |}.
Definition set_data (b : BlockBuilder) (h : BlockHandle) r : TableBuilder F :=
  {| tb_options := tb_options r; tb_index_options := tb_index_options r; tb_file := tb_file r; tb_offset := tb_offset r; tb_status := tb_status r;
   tb_data_block := b; tb_index_block := tb_index_block r; tb_last_key := tb_last_key r;
   tb_num_entries := tb_num_entries r; tb_closed := tb_closed r; tb_filter_block := tb_filter_block r;
   tb_pending_index_entry := tb_pending_index_entry r; tb_pending_handle := h |}.
Definition set_index (b : BlockBuilder) r : TableBuilder F :=
  {| tb_options := tb_options r; tb_index_options := tb_index_options r; tb_file := tb_file r; tb_offset := tb_offset r; tb_status := tb_status r;
   tb_data_block := tb_data_block r; tb_index_block := b; tb_last_key := tb_last_key r;
   tb_num_entries := tb_num_entries r; tb_closed := tb_closed r; tb_filter_block := tb_filter_block r;
   tb_pending_index_entry := tb_pending_index_entry r; tb_pending_handle := tb_pending_handle r |}.
Definition set_pending (p : bool) r : TableBuilder F :=
  {| tb_options := tb_options r; tb_index_options := tb_index_options r; tb_file := tb_file r; tb_offset := tb_offset r; tb_status := tb_status r;
   tb_data_block := tb_data_block r; tb_index_block := tb_index_block r; tb_last_key := tb_last_key r;
   tb_num_entries := tb_num_entries r; tb_closed := tb_closed r; tb_filter_block := tb_filter_block r;
   tb_pending_index_entry := p; tb_pending_handle := tb_pending_handle r |}.
Definition set_last_key (k : bytes) r : TableBuilder F :=
  {| tb_options := tb_options r; tb_index_options := tb_index_options r; tb_file := tb_file r; tb_offset := tb_offset r; tb_status := tb_status r;
   tb_data_block := tb_data_block r; tb_index_block := tb_index_block r; tb_last_key := k;
   tb_num_entries := tb_num_entries r; tb_closed := tb_closed r; tb_filter_block := tb_filter_block r;
   tb_pending_index_entry := tb_pending_index_entry r; tb_pending_handle := tb_pending_handle r |}.
Definition set_filter (fb : option FilterBlockBuilder) r : TableBuilder F :=
  {| tb_options := tb_options r; tb_index_options := tb_index_options r; tb_file := tb_file r; tb_offset := tb_offset r; tb_status := tb_status r;
   tb_data_block := tb_data_block r; tb_index_block := tb_index_block r; tb_last_key := tb_last_key r;
   tb_num_entries := tb_num_entries r; tb_closed := tb_closed r; tb_filter_block := fb;
   tb_pending_index_entry := tb_pending_index_entry r; tb_pending_handle := tb_pending_handle r |}.
Definition set_num_entries (n : Z) r : TableBuilder F :=
  {| tb_options := tb_options r; tb_index_options := tb_index_options r; tb_file := tb_file r; tb_offset := tb_offset r; tb_status := tb_status r;
   tb_data_block := tb_data_block r; tb_index_block := tb_index_block r; tb_last_key := tb_last_key r;
   tb_num_entries := n; tb_closed := tb_closed r; tb_filter_block := tb_filter_block r;
   tb_pending_index_entry := tb_pending_index_entry r; tb_pending_handle := tb_pending_handle r |}.
Definition set_closed r : TableBuilder F :=
  {| tb_options := tb_options r; tb_index_options := tb_index_options r; tb_file := tb_file r; tb_offset := tb_offset r; tb_status := tb_status r;
   tb_data_block := tb_data_block r; tb_index_block := tb_index_block r; tb_last_key := tb_last_key r;
   tb_num_entries := tb_num_entries r; tb_closed := true; tb_filter_block := tb_filter_block r;
   tb_pending_index_entry := tb_pending_index_entry r; tb_pending_handle := tb_pending_handle r |}.

(** [Rep::Rep]. *)
Definition Rep_make (opt : Options) (f : F) : TableBuilder F :=
  {| tb_options := opt; tb_index_options := with_restart_interval 1 opt; tb_file := f; tb_offset := 0; tb_status := OK;
   tb_data_block := BlockBuilder_init; tb_index_block := BlockBuilder_init; tb_last_key := [];
   tb_num_entries := 0; tb_closed := false; tb_filter_block := FilterBlockBuilder_make <$> filter_policy opt;
   tb_pending_index_entry := false; tb_pending_handle := BlockHandle_init |}.

(** [if (filter_block != NULL) filter_block->StartBlock(offset)] *)
Definition start_filter_block (offset : Z) r : option (TableBuilder F) :=
  match tb_filter_block r with
  | None => Some r
  | Some fb => fb ← StartBlock offset fb; Some (set_filter (Some fb) r)
  end.

Definition TableBuilder_make (opt : Options) (f : F) : option (TableBuilder F) := start_filter_block 0 (Rep_make opt f).

Definition tb_ok r : bool := Status_ok (tb_status r).

(** Whether the comparators are the same object is decided on pointers. *)
Definition ChangeOptions (same_comparator : bool) (opt : Options) r : Status * TableBuilder F :=
  if negb same_comparator then (InvalidArgument (str "changing comparator while building table") [], r)
  else (OK,
  {| tb_options := opt; tb_index_options := with_restart_interval 1 opt; tb_file := tb_file r; tb_offset := tb_offset r; tb_status := tb_status r;
   tb_data_block := tb_data_block r; tb_index_block := tb_index_block r; tb_last_key := tb_last_key r;
   tb_num_entries := tb_num_entries r; tb_closed := tb_closed r; tb_filter_block := tb_filter_block r;
   tb_pending_index_entry := tb_pending_index_entry r; tb_pending_handle := tb_pending_handle r |}).

Definition WriteRawBlock (block_contents : bytes) (type : CompressionType) r : BlockHandle * TableBuilder F :=
  let handle := {| offset := tb_offset r; size := zlen block_contents |} in
  let '(s, f) := Append block_contents (tb_file r) in
  let r := set_file s f r in
  if Status_ok s then
  let trailer := [CompressionType_byte type] ++ EncodeFixed32 (Mask (Extend (Value block_contents) [CompressionType_byte type])) in
  let '(s, f) := Append trailer (tb_file r) in
  let r := set_file s f r in
  (handle, if Status_ok s then set_offset (u64 (tb_offset r + zlen block_contents + kBlockTrailerSize)) r else r)
  else (handle, r).

(** The handle, the block after its [Reset], the builder. *)
Definition WriteBlock (block : BlockBuilder) r : option (BlockHandle * BlockBuilder * TableBuilder F) :=
  if tb_ok r then
  let block := BlockBuilder_Finish block in
  let raw := buffer_ block in
  let '(block_contents, type) :=
    match compression (tb_options r) with
    | kNoCompression => (raw, kNoCompression)
    | kSnappyCompression =>
        match Snappy_Compress raw with
        | Some compressed =>
            if zlen compressed <? zlen raw - zlen raw / 8 then (compressed, kSnappyCompression) else (raw, kNoCompression)
        | None => (raw, kNoCompression)
        end
    end in
  let '(handle, r) := WriteRawBlock block_contents type r in
  Some (handle, BlockBuilder_Reset block, r)
  else None.

Definition TableBuilder_Flush r : option (TableBuilder F) :=
  if tb_closed r then None
  else if negb (tb_ok r) then Some r
  else if BlockBuilder_empty (tb_data_block r) then Some r
  else if tb_pending_index_entry r then None
  else
  '(handle, block, r) ← WriteBlock (tb_data_block r) r;
  let r := set_data block handle r in
  let r := if tb_ok r then let '(s, f) := Flush (tb_file r) in set_file s f (set_pending true r) else r in
  start_filter_block (tb_offset r) r.

(** The index entry of the block just ended, under the current [last_key]. *)
Definition add_index_entry r : option (TableBuilder F) :=
  b ← BlockBuilder_AddChecked (comparator (tb_index_options r)) (block_restart_interval (tb_index_options r)) (tb_index_block r)
      (tb_last_key r) (BlockHandle_EncodeTo (tb_pending_handle r) []);
  Some (set_pending false (set_index b r)).

Definition TableBuilder_Add (key value : bytes) r : option (TableBuilder F) :=
  if tb_closed r then None
  else if negb (tb_ok r) then Some r
  else if (0 <? tb_num_entries r) && negb (Compare (comparator (tb_options r)) key (tb_last_key r) >? 0) then None
  else
  r ← (if tb_pending_index_entry r then
         if BlockBuilder_empty (tb_data_block r)
         then add_index_entry (set_last_key (FindShortestSeparator (comparator (tb_options r)) (tb_last_key r) key) r)
         else None
       else Some r);
  let r := set_filter (AddKey key <$> tb_filter_block r) r in
  let r := set_num_entries (tb_num_entries r + 1) (set_last_key key r) in
  b ← BlockBuilder_AddChecked (comparator (tb_options r)) (block_restart_interval (tb_options r)) (tb_data_block r) key value;
  let r := set_data b (tb_pending_handle r) r in
  if CurrentSizeEstimate (tb_data_block r) >=? block_size (tb_options r) then TableBuilder_Flush r else Some r.

(** ["filter." + policy->Name()] *)
Definition filter_key (p : FilterPolicy) : bytes := str "filter." ++ Name p.

Definition TableBuilder_Finish r : option (Status * TableBuilder F) :=
  r ← TableBuilder_Flush r;
  let r := set_closed r in
  let '(filter_block_handle, r) :=
  match tb_filter_block r with
  | Some fb => if tb_ok r then WriteRawBlock (FilterBlock_Finish fb) kNoCompression r else (BlockHandle_init, r)
  | None => (BlockHandle_init, r)
  end in
  '(metaindex_block_handle, r) ←
  (if tb_ok r then
     meta ← match tb_filter_block r, filter_policy (tb_options r) with
            | Some _, Some p =>
                BlockBuilder_AddChecked (comparator (tb_options r)) (block_restart_interval (tb_options r)) BlockBuilder_init
                  (filter_key p) (BlockHandle_EncodeTo filter_block_handle [])
            | Some _, None => None
            | None, _ => Some BlockBuilder_init
            end;
     '(h, _, r) ← WriteBlock meta r; Some (h, r)
   else Some (BlockHandle_init, r));
  '(index_block_handle, r) ←
  (if tb_ok r then
     r ← (if tb_pending_index_entry r
          then add_index_entry (set_last_key (FindShortSuccessor (comparator (tb_options r)) (tb_last_key r)) r)
          else Some r);
     '(h, b, r) ← WriteBlock (tb_index_block r) r; Some (h, set_index b r)
   else Some (BlockHandle_init, r));
  let r :=
  if tb_ok r then
    let footer_encoding := Footer_EncodeTo {| metaindex_handle := metaindex_block_handle; index_handle := index_block_handle |} [] in
    let '(s, f) := Append footer_encoding (tb_file r) in
    let r := set_file s f r in
    if Status_ok s then set_offset (u64 (tb_offset r + zlen footer_encoding)) r else r
  else r in
  Some (tb_status r, r).

Definition Abandon r : option (TableBuilder F) := if tb_closed r then None else Some (set_closed r).
Definition NumEntries r : Z := tb_num_entries r.
Definition FileSize r : Z := tb_offset r.

(** A table built from a list of entries. *)
Definition AddAll (kvs : list (bytes * bytes)) r : option (TableBuilder F) :=
  foldl (λ o kv, r ← o; TableBuilder_Add kv.1 kv.2 r) (Some r) kvs.
Definition build_table (opt : Options) (f : F) (kvs : list (bytes * bytes)) : option (Status * TableBuilder F) :=
  r ← TableBuilder_make opt f; r ← AddAll kvs r; TableBuilder_Finish r.
End Builder.

(** ** What the builder has written *)

(** What the theorems ask of the options: a comparator that keeps its promises, restart
    intervals of one or more, a filter policy that can take [N] keys. *)
Record OptionsOk (valid : bytes → Prop) (opt : Options) (N : nat) : Prop := {
  opt_comparator : ComparatorOk valid (comparator opt);
  opt_interval : 1 <= block_restart_interval opt;
  opt_filter p : filter_policy opt = Some p → ∃ fits, FilterPolicyOk fits p ∧ ∀ ks, (length ks <= N)%nat → fits ks;
}.

(** The bytes of a finished block. *)
Definition block_data (interval : Z) (kvs : list (bytes * bytes)) : bytes := buffer_ (BlockBuilder_Finish (build_entries interval kvs)).

Section Layout.
Context (opt : Options).
Abbreviation Kvs := (list (bytes * bytes)).

(** A data block in the file, and the data blocks in order. *)
Definition data_bytes (kvs : Kvs) : bytes := stored (block_data (block_restart_interval opt) kvs) kNoCompression.
Definition data_file (bs : list Kvs) : bytes := mjoin (data_bytes <$> bs).

Definition data_handle (bs : list Kvs) (i : nat) : BlockHandle :=
  {| offset := Z.of_nat (off (data_bytes <$> bs) i);
   size := match bs !! i with Some b => zlen (block_data (block_restart_interval opt) b) | None => 0 end |}.

(** The key of block [i] in the index, when [cur] follows the blocks. *)
Definition index_key (bs : list Kvs) (cur : Kvs) (i : nat) : bytes :=
  match last (mjoin (take (S i) bs)), head (mjoin (drop (S i) bs) ++ cur) with
  | Some a, Some b => FindShortestSeparator (comparator opt) a.1 b.1
  | Some a, None => FindShortSuccessor (comparator opt) a.1
  | None, _ => []
  end.
Definition index_entry (bs : list Kvs) (cur : Kvs) (i : nat) : bytes * bytes :=
  (index_key bs cur i, BlockHandle_EncodeTo (data_handle bs i) []).
Definition index_list (bs : list Kvs) (cur : Kvs) (n : nat) : Kvs := index_entry bs cur <$> seq 0 n.

(** The blocks as the filter block sees them: offset and keys. *)
Definition filter_blocks (bs : list Kvs) (cur : Kvs) : list (Z * list bytes) :=
  zip_with (λ o (b : Kvs), (o, b.*1)) (starts 0 (data_bytes <$> bs)) bs ++ [(zlen (data_file bs), cur.*1)].

(** The number of index entries: the last block's waits for the key after it. *)
Definition indexed (bs : list Kvs) (cur : Kvs) : nat := if decide (cur = []) then length bs - 1 else length bs.

Lemma data_file_snoc bs b : data_file (bs ++ [b]) = data_file bs ++ data_bytes b.
Proof. unfold data_file. rewrite fmap_app, join_app. simpl. by rewrite app_nil_r. Qed.

Lemma data_handle_snoc bs b i : (i < length bs)%nat → data_handle (bs ++ [b]) i = data_handle bs i.
Proof.
  intros Hi. unfold data_handle, off. rewrite fmap_app, take_app_le by (rewrite length_fmap; lia). by rewrite lookup_app_l.
Qed.

Lemma data_handle_last bs b : data_handle (bs ++ [b]) (length bs) =
  {| offset := zlen (data_file bs); size := zlen (block_data (block_restart_interval opt) b) |}.
Proof.
  unfold data_handle. rewrite lookup_app_r, Nat.sub_diag by done. simpl. f_equal. unfold off, data_file, zlen.
  rewrite fmap_app, take_app_le by (by rewrite length_fmap). by rewrite take_ge by (by rewrite length_fmap).
Qed.

Lemma data_file_size bs : 1 <= block_restart_interval opt → Forall (λ b, b ≠ []) bs → zlen (data_file bs) <= payload (mjoin bs).
Proof.
  intros Hi. induction bs as [|b bs IH] using rev_ind; intros Hne; [done|]. apply Forall_app in Hne as [Hne [Hb _]%Forall_cons].
  rewrite data_file_snoc, zlen_app, join_app, payload_app. unfold data_bytes at 1. rewrite stored_length. unfold block_data.
  pose proof (Finish_size (block_restart_interval opt) b Hi). specialize (IH Hne). change (mjoin [b]) with (b ++ []). rewrite app_nil_r.
  assert (1 <= zlen b) by (destruct b as [|e b]; [done|]; rewrite zlen_cons; pose proof (zlen_nonneg b); lia).
  unfold kBlockTrailerSize. lia.
Qed.

(** Entries already in the index stay what they are. *)
Lemma index_list_more bs cur kv : cur ≠ [] → index_list bs (cur ++ [kv]) (length bs) = index_list bs cur (length bs).
Proof.
  intros Hc. unfold index_list. apply list_fmap_ext. intros _ i _. unfold index_entry, index_key. rewrite app_assoc.
  destruct (mjoin (drop (S i) bs) ++ cur) eqn:E; [|done]. by apply app_nil in E as [_ ?].
Qed.

Lemma index_list_flush bs cur : cur ≠ [] → index_list (bs ++ [cur]) [] (length bs) = index_list bs cur (length bs).
Proof.
  intros Hc. unfold index_list. apply list_fmap_ext. intros j i Hi. apply lookup_seq in Hi as [-> Hi]. unfold index_entry, index_key.
  rewrite data_handle_snoc by lia. rewrite take_app_le by lia. rewrite drop_app_le, join_app by lia. simpl. by rewrite !app_nil_r.
Qed.

(** The first entry after a block ends it. *)
Lemma index_list_start bs b kv :
  index_list (bs ++ [b]) [kv] (length bs) = index_list (bs ++ [b]) [] (length bs) ∨ mjoin [b] = [].
Proof.
  destruct b as [|e b]; [by right|]. left. unfold index_list. apply list_fmap_ext. intros j i Hi. apply lookup_seq in Hi as [-> Hi].
  unfold index_entry, index_key. rewrite drop_app_le, join_app by lia.
  destruct (mjoin (drop (S (0 + j)) bs)); done.
Qed.

Lemma filter_blocks_flush bs cur :
  filter_blocks (bs ++ [cur]) [] = filter_blocks bs cur ++ [(zlen (data_file (bs ++ [cur])), [])].
Proof.
  unfold filter_blocks. f_equal. rewrite fmap_app. simpl. rewrite starts_app.
  rewrite zip_with_app by (by rewrite starts_length, length_fmap). by rewrite Z.add_0_l.
Qed.
End Layout.

(** ** The index *)

Lemma StronglySorted_seq {A} (R : A → A → Prop) (f : nat → A) n :
  (∀ i j, (i < j < n)%nat → R (f i) (f j)) → StronglySorted R (f <$> seq 0 n).
Proof.
  induction n as [|n IH]; intros H; [constructor|]. rewrite seq_S, fmap_app. apply StronglySorted_app_2; [|apply IH; intros; apply H; lia|repeat constructor].
  intros x y Hx ->%list_elem_of_singleton. apply list_elem_of_fmap in Hx as (i & -> & Hi%elem_of_seq). apply H. lia.
Qed.

Lemma mjoin_split {A} (bs : list (list A)) i : mjoin bs = mjoin (take i bs) ++ mjoin (drop i bs).
Proof. by rewrite <- join_app, take_drop. Qed.

Section Index.
Context {valid : bytes → Prop} (opt : Options) `{!ComparatorOk valid (comparator opt)}.
Context (bs : list (list (bytes * bytes))) (cur : list (bytes * bytes)).
Context (Hne : Forall (λ b, b ≠ []) bs) (Hs : sorted_kvs valid (comparator opt) (mjoin bs ++ cur)).

(** An index key is at or past the blocks before it and before the rest. *)
Lemma index_key_ok i : (i < length bs)%nat →
  valid (index_key opt bs cur i) ∧
  (∀ x, x ∈ mjoin (take (S i) bs) → Compare (comparator opt) x.1 (index_key opt bs cur i) <= 0) ∧
  (∀ x, x ∈ mjoin (drop (S i) bs) ++ cur → Compare (comparator opt) (index_key opt bs cur i) x.1 < 0).
Proof using Hne Hs ComparatorOk0.
  intros Hi. rewrite (mjoin_split bs (S i)), <- app_assoc in Hs. destruct (sorted_app_inv _ _ Hs) as (HA & HB & HAB).
  unfold index_key. set (A := mjoin (take (S i) bs)) in *. set (B := mjoin (drop (S i) bs) ++ cur) in *.
  destruct (last A) as [a|] eqn:Ea.
  2:{ exfalso. apply last_None in Ea. destruct (lookup_lt_is_Some_2 bs i Hi) as [b Hb]. unfold A in Ea.
    rewrite (take_S_r _ _ _ Hb), join_app in Ea. apply app_nil in Ea as [_ Ea]. simpl in Ea. rewrite app_nil_r in Ea.
    exact (Forall_lookup_1 _ _ _ _ Hne Hb Ea). }
  pose proof (last_Some_elem_of _ _ Ea) as Hin. pose proof (sorted_elem_valid _ a HA Hin) as Va.
  pose proof (λ x, sorted_last _ a x HA Ea) as Hup. pose proof (λ x, sorted_elem_valid _ x HA) as VA. pose proof (λ x, sorted_elem_valid _ x HB) as VB.
  destruct (head B) as [b|] eqn:Eb.
  - assert (Hb : b ∈ B) by (by apply head_Some_elem_of). pose proof (HAB a b Hin Hb) as Hab.
    pose proof (Separator_valid a.1 b.1 Va (VB b Hb)). pose proof (Separator_lower a.1 b.1 Va (VB b Hb) Hab).
    pose proof (Separator_upper a.1 b.1 Va (VB b Hb) Hab). split_and!; [done|..].
    + intros x Hx. apply (Compare_le_trans (valid := valid) _ a.1); auto.
    + intros x Hx. apply (Compare_lt_le (valid := valid) _ b.1); auto. by apply (sorted_head _ b x HB Eb).
  - apply head_None in Eb. rewrite Eb. pose proof (Successor_valid a.1 Va). pose proof (Successor_lower a.1 Va).
    split_and!; [done| |by intros x ?%not_elem_of_nil]. intros x Hx. apply (Compare_le_trans (valid := valid) _ a.1); auto.
Qed.

Lemma index_list_sorted n : (n <= length bs)%nat → sorted_kvs valid (comparator opt) (index_list opt bs cur n).
Proof using Hne Hs ComparatorOk0.
  intros Hn. split.
  - apply Forall_fmap, Forall_forall. intros i Hi%elem_of_seq. apply index_key_ok. lia.
  - apply StronglySorted_seq. intros i j Hij. unfold key_lt. cbn [index_entry fst].
    destruct (lookup_lt_is_Some_2 bs j) as [b Hb]; [lia|]. pose proof (Forall_lookup_1 _ _ _ _ Hne Hb) as Hb0.
    destruct b as [|x b]; [done|]. destruct (index_key_ok i) as (Vi & _ & Hlo); [lia|]. destruct (index_key_ok j) as (Vj & Hup & _); [lia|].
    assert (Hx : x ∈ mjoin bs).
    { apply list_elem_of_join. exists (x :: b). split; [by left|]. by eapply list_elem_of_lookup_2. }
    apply (Compare_lt_le (valid := valid) _ x.1); [done| |done| |].
    + apply (sorted_elem_valid _ _ Hs). apply elem_of_app. by left.
    + apply Hlo, elem_of_app. left. apply list_elem_of_join. exists (x :: b). split; [by left|].
      apply (list_elem_of_lookup_2 _ (j - S i)). rewrite lookup_drop. by replace (S i + (j - S i))%nat with j by lia.
    + apply Hup, list_elem_of_join. exists (x :: b). split; [by left|].
      apply (list_elem_of_lookup_2 _ j). by rewrite lookup_take_lt by lia.
Qed.
End Index.

(** ** The builder's invariant *)

Section Built.
Context {F : Type} `{!WritableFile F, !ReliableFile F}.
Context {valid : bytes → Prop} (opt : Options) (N : nat) (HO : OptionsOk valid opt N).
Implicit Types (r : TableBuilder F) (bs : list (list (bytes * bytes))) (cur : list (bytes * bytes)).
#[local] Instance built_comparator : ComparatorOk valid (comparator opt) := opt_comparator _ _ _ HO.

Definition pending bs cur : bool := bool_decide (cur = []) && negb (bool_decide (bs = [])).

(** The builder has written the data blocks [bs] and holds the entries [cur]. *)
Record TableR r bs cur : Prop := {
  tr_options : tb_options r = opt;
  tr_index_options : tb_index_options r = with_restart_interval 1 opt;
  tr_status : tb_status r = OK;
  tr_closed : tb_closed r = false;
  tr_file : written (tb_file r) = data_file opt bs;
  tr_offset : tb_offset r = zlen (data_file opt bs);
  tr_data : tb_data_block r = build_entries (block_restart_interval opt) cur;
  tr_index : tb_index_block r = build_entries 1 (index_list opt bs cur (indexed bs cur));
  tr_num : tb_num_entries r = zlen (mjoin bs ++ cur);
  tr_last : tb_last_key r = default [] (fst <$> last (mjoin bs ++ cur));
  tr_pending : tb_pending_index_entry r = pending bs cur;
  tr_handle : pending bs cur = true → tb_pending_handle r = data_handle opt bs (length bs - 1);
  tr_filter : tb_filter_block r = (p ← filter_policy opt; add_blocks (FilterBlockBuilder_make p) (filter_blocks opt bs cur));
  tr_sorted : sorted_kvs valid (comparator opt) (mjoin bs ++ cur);
  tr_nonempty : Forall (λ b, b ≠ []) bs;
}.

Lemma TableR_ok r bs cur : TableR r bs cur → tb_ok r = true.
Proof. intros H. unfold tb_ok. by rewrite (tr_status _ _ _ H). Qed.

Lemma WriteRawBlock_ok d t r : ∃ f', written f' = written (tb_file r) ++ stored d t ∧
  WriteRawBlock d t r = ({| offset := tb_offset r; size := zlen d |},
  set_offset (u64 (tb_offset r + zlen d + kBlockTrailerSize)) (set_file OK f' r)).
Proof using ReliableFile0.
  unfold WriteRawBlock. destruct (Append_ok d (tb_file r)) as (f1 & -> & H1). cbn [Status_ok OK tb_file set_file].
  match goal with |- context [Append ?tr f1] => destruct (Append_ok tr f1) as (f2 & -> & H2) end. cbn [Status_ok OK].
  exists f2. split; [|done]. by rewrite H2, H1, <- app_assoc.
Qed.

Lemma WriteBlock_ok b r : tb_ok r = true → ∃ f', written f' = written (tb_file r) ++ stored (buffer_ (BlockBuilder_Finish b)) kNoCompression ∧
  WriteBlock b r = Some ({| offset := tb_offset r; size := zlen (buffer_ (BlockBuilder_Finish b)) |}, BlockBuilder_init,
  set_offset (u64 (tb_offset r + zlen (buffer_ (BlockBuilder_Finish b)) + kBlockTrailerSize)) (set_file OK f' r)).
Proof using ReliableFile0.
  intros Hok. unfold WriteBlock. rewrite Hok.
  destruct (WriteRawBlock_ok (buffer_ (BlockBuilder_Finish b)) kNoCompression r) as (f' & Hf & E).
  exists f'. split; [done|]. destruct (compression (tb_options r)); cbn [Snappy_Compress]; by rewrite E.
Qed.

Lemma starts_sorted ks : ∀ n, Forall (λ o, n <= o) (starts n ks) ∧ StronglySorted Z.le (starts n ks).
Proof.
  induction ks as [|k ks IH]; intros n; simpl; [split; constructor|]. destruct (IH (n + zlen k)) as [H1 H2]. pose proof (zlen_nonneg k).
  assert (Forall (λ o, n <= o) (starts (n + zlen k) ks)) by (eapply Forall_impl; [exact H1|]; simpl; lia).
  split; constructor; try done; lia.
Qed.

Lemma filter_blocks_starts bs cur : (filter_blocks opt bs cur).*1 = starts 0 ((data_bytes opt <$> bs) ++ [[]]).
Proof.
  unfold filter_blocks. rewrite fmap_app, starts_app. f_equal.
  assert (H : ∀ n, (zip_with (λ o (b : list (bytes * bytes)), (o, b.*1)) (starts n (data_bytes opt <$> bs)) bs).*1 = starts n (data_bytes opt <$> bs)).
  { induction bs as [|b bs IH]; intros n; simpl; [done|]. by rewrite IH. }
  apply H.
Qed.

Lemma filter_blocks_keys bs cur : all_keys (filter_blocks opt bs cur) = (mjoin bs ++ cur).*1.
Proof.
  unfold all_keys, filter_blocks. rewrite fmap_app, join_app, fmap_app. simpl. rewrite app_nil_r. f_equal.
  assert (H : ∀ n, mjoin ((zip_with (λ o (b : list (bytes * bytes)), (o, b.*1)) (starts n (data_bytes opt <$> bs)) bs).*2) = (mjoin bs).*1).
  { induction bs as [|b bs IH]; intros n; simpl; [done|]. by rewrite IH, fmap_app. }
  apply H.
Qed.

(** The filter block of the blocks exists and answers for their keys. *)
Lemma table_filter bs cur p : filter_policy opt = Some p → (length (mjoin bs ++ cur) <= N)%nat →
  ∃ fb, add_blocks (FilterBlockBuilder_make p) (filter_blocks opt bs cur) = Some fb ∧
  (zlen (FilterBlock_Finish fb) < 2 ^ 32 → bytes_ok (FilterBlock_Finish fb) ∧
   ∀ o ks k, (o, ks) ∈ filter_blocks opt bs cur → k ∈ ks →
     FilterBlock_KeyMayMatch (FilterBlockReader_make p (FilterBlock_Finish fb)) o k = true).
Proof using HO.
  intros Hp HN. destruct (opt_filter _ _ _ HO p Hp) as (fits & HF & Hfit).
  apply (filter_block_answers p fits N Hfit); rewrite ?filter_blocks_starts, ?filter_blocks_keys, ?length_fmap; [apply starts_sorted..|done].
Qed.

(** [StartBlock] opens a block with no keys yet. *)
Lemma add_blocks_start b bl o : add_blocks b (bl ++ [(o, [])]) = (fb ← add_blocks b bl; StartBlock o fb).
Proof.
  unfold add_blocks. rewrite foldl_app. simpl. unfold add_block at 1. destruct (foldl add_block (Some b) bl) as [fb|]; [|done]. simpl.
  by destruct (StartBlock o fb).
Qed.

Lemma start_filter_block_ok r bl o : tb_filter_block r = (p ← filter_policy opt; add_blocks (FilterBlockBuilder_make p) bl) →
  (∀ p, filter_policy opt = Some p → is_Some (add_blocks (FilterBlockBuilder_make p) (bl ++ [(o, [])]))) →
  start_filter_block o r = Some (set_filter (p ← filter_policy opt; add_blocks (FilterBlockBuilder_make p) (bl ++ [(o, [])])) r).
Proof.
  intros Hr Hsome. unfold start_filter_block. destruct (filter_policy opt) as [p|] eqn:Hp; cbn [mbind option_bind] in *.
  - destruct (Hsome p eq_refl) as [fb' E]. rewrite E. rewrite add_blocks_start in E. rewrite Hr.
    destruct (add_blocks (FilterBlockBuilder_make p) bl) as [fb|]; [|done]. cbn [mbind option_bind] in *. by rewrite E.
  - rewrite Hr. destruct r. simpl in Hr. by subst.
Qed.

Lemma TableR_make (f : F) : written f = [] → ∃ r, TableBuilder_make opt f = Some r ∧ TableR r [] [].
Proof using HO.
  intros Hf. unfold TableBuilder_make. rewrite (start_filter_block_ok _ [] 0).
  - eexists. split; [done|]. split; simpl; try done; repeat constructor.
  - cbn [tb_filter_block Rep_make]. by destruct (filter_policy opt).
  - intros p Hp. destruct (table_filter [] [] p Hp) as (fb & Hfb & _); [simpl; lia|]. by exists fb.
Qed.

(** What the sizes of the entries guarantee. *)
Definition fits_table (kvs : list (bytes * bytes)) : Prop := (length kvs <= N)%nat ∧ payload kvs < 2 ^ 64.

Lemma TableR_Flush r bs cur : TableR r bs cur → cur ≠ [] → fits_table (mjoin bs ++ cur) →
  ∃ r', TableBuilder_Flush r = Some r' ∧ TableR r' (bs ++ [cur]) [].
Proof using HO ReliableFile0.
  intros HR Hc [HN Hsize]. unfold TableBuilder_Flush. rewrite (tr_closed _ _ _ HR), (TableR_ok _ _ _ HR). cbn [negb].
  pose proof (opt_interval _ _ _ HO) as Hi. rewrite (tr_data _ _ _ HR), build_entries_empty, bool_decide_eq_false_2 by done.
  rewrite (tr_pending _ _ _ HR). unfold pending. rewrite bool_decide_eq_false_2 by done. cbn [andb].
  destruct (WriteBlock_ok (build_entries (block_restart_interval opt) cur) r (TableR_ok _ _ _ HR)) as (f1 & Hf1 & E1). rewrite E1. clear E1.
  assert (Hbs : mjoin (bs ++ [cur]) = mjoin bs ++ cur) by (rewrite join_app; simpl; by rewrite app_nil_r).
  assert (Hne : Forall (λ b, b ≠ []) (bs ++ [cur])) by (apply Forall_app; split; [apply (tr_nonempty _ _ _ HR)|by apply Forall_singleton]).
  assert (Hoff : u64 (tb_offset r + zlen (buffer_ (BlockBuilder_Finish (build_entries (block_restart_interval opt) cur))) + kBlockTrailerSize) =
    zlen (data_file opt (bs ++ [cur]))).
  { pose proof (data_file_size opt _ Hi Hne) as Hd. rewrite Hbs in Hd. rewrite data_file_snoc, zlen_app in *.
    unfold data_bytes, block_data in *. rewrite stored_length in *. rewrite (tr_offset _ _ _ HR), u64_small; [lia|]. unfold is_u.
    match goal with |- 0 <= ?a + ?b + _ < _ => pose proof (zlen_nonneg (data_file opt bs));
      pose proof (zlen_nonneg (buffer_ (BlockBuilder_Finish (build_entries (block_restart_interval opt) cur)))) end.
    unfold kBlockTrailerSize in *. lia. }
  rewrite Hoff. cbn [mbind option_bind]. unfold tb_ok. cbn [tb_status set_data set_offset set_file Status_ok OK tb_file].
  destruct (Flush_ok f1) as (f2 & -> & Hf2).
  rewrite (start_filter_block_ok _ (filter_blocks opt bs cur)).
  - eexists. split; [done|]. cbn [tb_offset set_file set_pending set_data set_offset]. rewrite <- filter_blocks_flush.
    assert (Hp : pending (bs ++ [cur]) [] = true) by (by destruct bs).
    split; cbn [tb_options tb_index_options tb_status tb_closed tb_file tb_offset tb_data_block tb_index_block tb_num_entries tb_last_key
              tb_pending_index_entry tb_pending_handle tb_filter_block set_filter set_file set_pending set_data set_offset].
    + apply HR.
    + apply HR.
    + done.
    + apply HR.
    + by rewrite Hf2, Hf1, (tr_file _ _ _ HR), data_file_snoc.
    + done.
    + done.
    + rewrite (tr_index _ _ _ HR). f_equal. unfold indexed. rewrite decide_False, decide_True by done.
      rewrite length_app, Nat.add_sub. by rewrite index_list_flush.
    + rewrite app_nil_r, Hbs. apply HR.
    + rewrite app_nil_r, Hbs. apply HR.
    + by rewrite Hp.
    + intros _. by rewrite length_app, Nat.add_sub, data_handle_last, (tr_offset _ _ _ HR).
    + done.
    + rewrite app_nil_r, Hbs. apply HR.
    + done.
  - apply HR.
  - intros p Hp. cbn [tb_offset set_file set_pending set_data set_offset]. rewrite <- filter_blocks_flush.
    destruct (table_filter (bs ++ [cur]) [] p Hp) as (fb & Hfb & _); [by rewrite app_nil_r, Hbs|]. by exists fb.
Qed.

Lemma index_list_snoc bs cur n : index_list opt bs cur (S n) = index_list opt bs cur n ++ [index_entry opt bs cur n].
Proof. unfold index_list. by rewrite seq_S, fmap_app. Qed.

(** The pending index entry, under the key the entries after it allow. *)
Lemma add_index_entry_ok r bs cur' : bs ≠ [] → Forall (λ b, b ≠ []) bs → sorted_kvs valid (comparator opt) (mjoin bs ++ cur') →
  tb_index_options r = with_restart_interval 1 opt → tb_pending_handle r = data_handle opt bs (length bs - 1) →
  tb_index_block r = build_entries 1 (index_list opt bs cur' (length bs - 1)) → tb_last_key r = index_key opt bs cur' (length bs - 1) →
  add_index_entry r = Some (set_pending false (set_index (build_entries 1 (index_list opt bs cur' (length bs))) r)).
Proof using HO.
  intros Hbs Hne Hs Hio Hh Hx Hk. unfold add_index_entry. rewrite Hio, Hh, Hx, Hk.
  destruct (length bs) as [|n] eqn:E; [by apply nil_length_inv in E|]. rewrite Nat.sub_succ, Nat.sub_0_r.
  pose proof (AddChecked_ok valid (comparator opt) 1 (index_list opt bs cur' n) (index_entry opt bs cur' n) _ ltac:(lia)) as HA.
  cbn [index_entry fst snd] in HA. rewrite <- index_list_snoc in HA. unfold with_restart_interval. cbn [comparator block_restart_interval].
  rewrite HA; [done|]. apply index_list_sorted; [apply _|done|done|lia].
Qed.

(** The key of the last block, when the blocks are not empty. *)
Lemma index_key_last bs cur a : Forall (λ b, b ≠ []) bs → bs ≠ [] → default [] (fst <$> last (mjoin bs)) = a →
  index_key opt bs cur (length bs - 1) =
  match head cur with Some b => FindShortestSeparator (comparator opt) a b.1 | None => FindShortSuccessor (comparator opt) a end.
Proof.
  intros Hne Hb <-. unfold index_key. destruct bs as [|b bs _] using rev_ind; [done|].
  rewrite length_app, Nat.add_sub, take_ge, drop_ge by (rewrite length_app; simpl; lia). simpl.
  destruct (last (mjoin (bs ++ [b]))) eqn:El; [done|]. exfalso. apply last_None in El. rewrite join_app in El. apply app_nil in El as [_ El].
  apply Forall_app in Hne as [_ [Hne _]%Forall_cons]. simpl in El. by rewrite app_nil_r in El.
Qed.

(** The index stage of [Add]. *)
Lemma index_stage r bs cur kv : TableR r bs cur → sorted_kvs valid (comparator opt) (mjoin bs ++ cur ++ [kv]) →
  ∃ lk, (if tb_pending_index_entry r then
         if BlockBuilder_empty (tb_data_block r)
         then add_index_entry (set_last_key (FindShortestSeparator (comparator (tb_options r)) (tb_last_key r) kv.1) r)
         else None
       else Some r) =
  Some (set_pending false (set_index (build_entries 1 (index_list opt bs (cur ++ [kv]) (length bs))) (set_last_key lk r))).
Proof using HO.
  intros HR Hs. rewrite (tr_pending _ _ _ HR). unfold pending. pose proof (opt_interval _ _ _ HO).
  assert (Hsame : tb_pending_index_entry r = false → tb_index_block r = build_entries 1 (index_list opt bs (cur ++ [kv]) (length bs)) →
    ∃ lk, Some r = Some (set_pending false (set_index (build_entries 1 (index_list opt bs (cur ++ [kv]) (length bs))) (set_last_key lk r)))).
  { intros Hp Hx. exists (tb_last_key r). f_equal. destruct r. simpl in *. by subst. }
  pose proof (tr_pending _ _ _ HR) as Hpend. pose proof (tr_index _ _ _ HR) as Hidx. unfold pending in Hpend. unfold indexed in Hidx.
  destruct (decide (cur = [])) as [Hc|Hc].
  - rewrite bool_decide_eq_true_2 in * by done. destruct (decide (bs = [])) as [Hb|Hb].
    + rewrite bool_decide_eq_true_2 in * by done. subst bs. by apply Hsame.
    + rewrite (bool_decide_eq_false_2 (bs = [])) in * by done. cbn [andb negb].
      rewrite (tr_data _ _ _ HR), build_entries_empty, bool_decide_eq_true_2, (tr_options _ _ _ HR), (tr_last _ _ _ HR) by done.
      subst cur. pose proof (tr_nonempty _ _ _ HR) as Hne. pose proof (index_key_last bs [kv] _ Hne Hb eq_refl) as Hk. simpl in Hk.
      eexists. rewrite app_nil_r. rewrite (add_index_entry_ok _ bs [kv]); [done|done|done|done|apply HR| |simpl|by rewrite Hk].
      * apply HR. by destruct bs.
      * rewrite Hidx. f_equal. destruct bs as [|b bs _] using rev_ind; [done|]. rewrite length_app, Nat.add_sub.
        destruct (index_list_start opt bs b kv) as [|El]; [done|]. exfalso.
        apply Forall_app in Hne as [_ [Hne _]%Forall_cons]. simpl in El. by rewrite app_nil_r in El.
  - rewrite bool_decide_eq_false_2 in * by done. cbn [andb] in *. apply Hsame; [done|]. by rewrite index_list_more.
Qed.

Lemma filter_blocks_key bs cur kv b :
  add_blocks b (filter_blocks opt bs (cur ++ [kv])) = AddKey kv.1 <$> add_blocks b (filter_blocks opt bs cur).
Proof.
  unfold filter_blocks, add_blocks. rewrite !foldl_app. simpl. unfold add_block at 1 3.
  destruct (foldl add_block (Some b) _) as [fb|]; [|done]. simpl. destruct (StartBlock (zlen (data_file opt bs)) fb); [|done]. simpl.
  by rewrite fmap_app, foldl_app.
Qed.

Lemma TableR_Add r bs cur kv : TableR r bs cur → sorted_kvs valid (comparator opt) (mjoin bs ++ cur ++ [kv]) →
  fits_table (mjoin bs ++ cur ++ [kv]) →
  ∃ r' bs' cur', TableBuilder_Add kv.1 kv.2 r = Some r' ∧ TableR r' bs' cur' ∧ mjoin bs' ++ cur' = mjoin bs ++ cur ++ [kv].
Proof using HO ReliableFile0.
  intros HR Hs Hfit. unfold TableBuilder_Add. rewrite (tr_closed _ _ _ HR), (TableR_ok _ _ _ HR). cbn [negb].
  assert (Hord : (0 <? tb_num_entries r) && negb (Compare (comparator (tb_options r)) kv.1 (tb_last_key r) >? 0) = false).
  { rewrite (tr_num _ _ _ HR), (tr_options _ _ _ HR), (tr_last _ _ _ HR). rewrite app_assoc in Hs.
    destruct (mjoin bs ++ cur) as [|a l _] using rev_ind; [done|]. rewrite last_snoc. cbn [fmap option_fmap option_map default from_option].
    destruct (sorted_app_inv _ _ Hs) as (Hl & Hk & Hlt). specialize (Hlt a kv). apply andb_false_iff. right.
    rewrite Z.gtb_ltb, (proj2 (Z.ltb_lt _ _)); [done|]. apply (Compare_swap (valid := valid)).
    - apply (sorted_elem_valid _ a Hl), elem_of_app. right. by left.
    - apply (sorted_elem_valid _ kv Hk). by left.
    - apply Hlt; [apply elem_of_app; right|]; by left. }
  rewrite Hord. destruct (index_stage r bs cur kv HR Hs) as (lk & ->). cbn [mbind option_bind].
  cbn [tb_filter_block tb_num_entries tb_options tb_data_block tb_pending_handle set_data set_num_entries set_last_key set_filter set_pending set_index].
  rewrite (tr_data _ _ _ HR), (tr_options _ _ _ HR).
  assert (Hsc : sorted_kvs valid (comparator opt) (cur ++ [kv])) by apply (sorted_app_inv _ _ Hs).
  rewrite (AddChecked_ok valid (comparator opt) _ cur kv _ (opt_interval _ _ _ HO) Hsc). cbn [mbind option_bind].
  match goal with |- context [TableBuilder_Flush ?r'] => set (r1 := r') end.
  assert (HR1 : TableR r1 bs (cur ++ [kv])).
  { assert (Hne : cur ++ [kv] ≠ []) by (by intros [_ ?]%app_nil). unfold r1.
    assert (Hp : pending bs (cur ++ [kv]) = false) by (unfold pending; by rewrite bool_decide_eq_false_2).
    split; cbn [tb_options tb_index_options tb_status tb_closed tb_file tb_offset tb_data_block tb_index_block tb_num_entries tb_last_key
              tb_pending_index_entry tb_pending_handle tb_filter_block set_filter set_pending set_data set_index set_last_key set_num_entries].
    - apply HR.
    - apply HR.
    - apply HR.
    - apply HR.
    - apply HR.
    - apply HR.
    - done.
    - unfold indexed. by rewrite decide_False.
    - rewrite (tr_num _ _ _ HR), app_assoc, (zlen_app (mjoin bs ++ cur)). done.
    - by rewrite app_assoc, last_snoc.
    - by rewrite Hp.
    - by rewrite Hp.
    - rewrite (tr_filter _ _ _ HR). destruct (filter_policy opt) as [p|]; [|done]. cbn [mbind option_bind]. by rewrite filter_blocks_key.
    - done.
    - apply HR. }
  destruct (CurrentSizeEstimate _ >=? _).
  - destruct (TableR_Flush r1 bs (cur ++ [kv]) HR1) as (r' & -> & HR'); [by intros [_ ?]%app_nil|done|].
    exists r', (bs ++ [cur ++ [kv]]), []. split_and!; [done|done|]. rewrite join_app. simpl. by rewrite !app_nil_r.
  - exists r1, bs, (cur ++ [kv]). done.
Qed.

Lemma fits_table_prefix l k : fits_table (l ++ k) → fits_table l.
Proof.
  unfold fits_table. rewrite length_app, payload_app. pose proof (payload_length k). pose proof (zlen_nonneg k). lia.
Qed.

Lemma TableR_AddAll kvs : ∀ r bs cur, TableR r bs cur → sorted_kvs valid (comparator opt) (mjoin bs ++ cur ++ kvs) →
  fits_table (mjoin bs ++ cur ++ kvs) →
  ∃ r' bs' cur', AddAll kvs r = Some r' ∧ TableR r' bs' cur' ∧ mjoin bs' ++ cur' = mjoin bs ++ cur ++ kvs.
Proof using HO ReliableFile0.
  induction kvs as [|kv kvs IH]; intros r bs cur HR Hs Hfit.
  - exists r, bs, cur. rewrite app_nil_r. by split_and!.
  - replace (mjoin bs ++ cur ++ kv :: kvs) with ((mjoin bs ++ cur ++ [kv]) ++ kvs) in * by (by rewrite <- !app_assoc).
    destruct (TableR_Add r bs cur kv HR) as (r1 & bs1 & cur1 & E & HR1 & El); [apply (sorted_app_inv _ _ Hs)|by apply fits_table_prefix in Hfit|].
    rewrite <- El, <- app_assoc in *. destruct (IH r1 bs1 cur1 HR1 Hs Hfit) as (r2 & bs2 & cur2 & E2 & HR2 & El2).
    exists r2, bs2, cur2. split_and!; [|done|done]. unfold AddAll in *. simpl. by rewrite E.
Qed.

Lemma TableR_Flush_all r bs cur : TableR r bs cur → fits_table (mjoin bs ++ cur) →
  ∃ r' bs', TableBuilder_Flush r = Some r' ∧ TableR r' bs' [] ∧ mjoin bs' = mjoin bs ++ cur.
Proof using HO ReliableFile0.
  intros HR Hfit. destruct (decide (cur = [])) as [->|Hc].
  - exists r, bs. split_and!; [|done|by rewrite app_nil_r]. unfold TableBuilder_Flush.
    rewrite (tr_closed _ _ _ HR), (TableR_ok _ _ _ HR), (tr_data _ _ _ HR). done.
  - destruct (TableR_Flush r bs cur HR Hc Hfit) as (r' & E & HR'). exists r', (bs ++ [cur]). split_and!; [done|done|].
    rewrite join_app. simpl. by rewrite app_nil_r.
Qed.

(** The rest of the file: filter block, metaindex block, index block, footer. *)
Definition filter_bytes (fdata : option bytes) : bytes := match fdata with Some d => stored d kNoCompression | None => [] end.

Definition meta_entries bs (fdata : option bytes) : list (bytes * bytes) :=
  match filter_policy opt, fdata with
  | Some p, Some d => [(filter_key p, BlockHandle_EncodeTo {| offset := zlen (data_file opt bs); size := zlen d |} [])]
  | _, _ => []
  end.
Definition meta_data bs (fdata : option bytes) : bytes := block_data (block_restart_interval opt) (meta_entries bs fdata).
Definition index_data bs : bytes := block_data 1 (index_list opt bs [] (length bs)).

Definition meta_offset bs (fdata : option bytes) : Z := zlen (data_file opt bs ++ filter_bytes fdata).
Definition index_offset bs (fdata : option bytes) : Z := zlen (data_file opt bs ++ filter_bytes fdata ++ stored (meta_data bs fdata) kNoCompression).

Definition table_footer bs (fdata : option bytes) : Footer :=
  {| metaindex_handle := {| offset := meta_offset bs fdata; size := zlen (meta_data bs fdata) |};
   index_handle := {| offset := index_offset bs fdata; size := zlen (index_data bs) |} |}.

Definition table_bytes bs (fdata : option bytes) : bytes :=
  data_file opt bs ++ filter_bytes fdata ++ stored (meta_data bs fdata) kNoCompression ++ stored (index_data bs) kNoCompression ++
  Footer_EncodeTo (table_footer bs fdata) [].

Definition filter_data bs : option bytes :=
  p ← filter_policy opt; fb ← add_blocks (FilterBlockBuilder_make p) (filter_blocks opt bs []); Some (FilterBlock_Finish fb).

(** An offset that is the length of what is written so far. *)
Lemma offset_advance (o : Z) (pre d total : bytes) : o = zlen pre → zlen total < 2 ^ 64 → zlen (pre ++ stored d kNoCompression) <= zlen total →
  u64 (o + zlen d + kBlockTrailerSize) = zlen (pre ++ stored d kNoCompression).
Proof.
  intros -> Ht Hle. rewrite zlen_app, stored_length in *. rewrite u64_small; [lia|]. unfold is_u, kBlockTrailerSize in *.
  pose proof (zlen_nonneg pre). pose proof (zlen_nonneg d). lia.
Qed.

(** The filter block of [Finish]. *)
Lemma finish_filter r bs : TableR r bs [] → (length (mjoin bs) <= N)%nat → ∃ h r1 f1,
  match tb_filter_block (set_closed r) with
  | Some fb => if tb_ok (set_closed r) then WriteRawBlock (FilterBlock_Finish fb) kNoCompression (set_closed r) else (BlockHandle_init, set_closed r)
  | None => (BlockHandle_init, set_closed r)
  end = (h, r1) ∧ r1 = set_offset (tb_offset r1) (set_file OK f1 (set_closed r)) ∧
  written f1 = data_file opt bs ++ filter_bytes (filter_data bs) ∧
  (zlen (written f1) < 2 ^ 64 → tb_offset r1 = zlen (written f1)) ∧
  (filter_data bs = None ∨ ∃ d, filter_data bs = Some d ∧ h = {| offset := zlen (data_file opt bs); size := zlen d |}).
Proof using HO ReliableFile0.
  intros HR HN. cbn [tb_filter_block set_closed]. unfold filter_data. rewrite (tr_filter _ _ _ HR).
  destruct (filter_policy opt) as [p|] eqn:Hp; cbn [mbind option_bind].
  - destruct (table_filter bs [] p Hp) as (fb & -> & _); [by rewrite app_nil_r|]. cbn [mbind option_bind].
    assert (tb_ok (set_closed r) = true) as -> by apply (TableR_ok _ _ _ HR).
    destruct (WriteRawBlock_ok (FilterBlock_Finish fb) kNoCompression (set_closed r)) as (f1 & Hf & ->).
    eexists _, _, f1. split; [done|]. cbn [tb_file tb_offset set_closed set_offset] in *. rewrite (tr_file _ _ _ HR) in Hf. split_and!; [done|done| |].
    + intros Hlt. rewrite Hf in Hlt |- *. apply (offset_advance _ _ _ (data_file opt bs ++ stored (FilterBlock_Finish fb) kNoCompression)); [apply HR|done|done].
    + right. eexists. split; [done|]. by rewrite (tr_offset _ _ _ HR).
  - exists BlockHandle_init, (set_closed r), (tb_file r). split; [done|]. rewrite (tr_file _ _ _ HR). cbn [filter_bytes]. rewrite app_nil_r. split_and!; [|done| |by left].
    + pose proof (tr_status _ _ _ HR). destruct r. simpl in *. by subst.
    + intros _. apply HR.
Qed.

Lemma AddChecked_first c interval k v : 1 <= interval →
  BlockBuilder_AddChecked c interval BlockBuilder_init k v = Some (build_entries interval [(k, v)]).
Proof. intros Hi. unfold BlockBuilder_AddChecked, BlockBuilder_Add_pre. simpl. by rewrite (proj2 (Z.leb_le _ _)) by lia. Qed.

(** A block written at the end of [pre], in a file that ends up with [total] bytes. *)
Lemma WriteBlock_at b r pre : tb_ok r = true → written (tb_file r) = pre → ∃ f' o',
  WriteBlock b r = Some ({| offset := tb_offset r; size := zlen (buffer_ (BlockBuilder_Finish b)) |}, BlockBuilder_init, set_offset o' (set_file OK f' r)) ∧
  written f' = pre ++ stored (buffer_ (BlockBuilder_Finish b)) kNoCompression ∧
  ((zlen pre < 2 ^ 64 → tb_offset r = zlen pre) → zlen (written f') < 2 ^ 64 → o' = zlen (written f')).
Proof using ReliableFile0.
  intros Hok Hpre. destruct (WriteBlock_ok b r Hok) as (f' & Hf & ->). rewrite Hpre in Hf. eexists f', _. split; [done|]. split; [done|].
  intros Ho Hlt. rewrite Hf in *. apply (offset_advance _ _ _ _ (Ho ltac:(rewrite zlen_app in Hlt; pose proof (zlen_nonneg (stored (buffer_ (BlockBuilder_Finish b)) kNoCompression)); lia)) Hlt). done.
Qed.

(** The index stage of [Finish], on a builder [r2] with the index of [r]. *)
Lemma finish_index r r2 bs : TableR r bs [] → tb_options r2 = tb_options r → tb_index_options r2 = tb_index_options r →
  tb_index_block r2 = tb_index_block r → tb_last_key r2 = tb_last_key r → tb_pending_index_entry r2 = tb_pending_index_entry r →
  tb_pending_handle r2 = tb_pending_handle r →
  ∃ lk, (if tb_pending_index_entry r2
       then add_index_entry (set_last_key (FindShortSuccessor (comparator (tb_options r2)) (tb_last_key r2)) r2)
       else Some r2) =
  Some (set_pending false (set_index (build_entries 1 (index_list opt bs [] (length bs))) (set_last_key lk r2))).
Proof using HO.
  intros HR Ho Hio Hx Hl Hp Hh. rewrite Hp, (tr_pending _ _ _ HR), Ho, Hl, (tr_options _ _ _ HR), (tr_last _ _ _ HR), app_nil_r.
  rewrite (tr_pending _ _ _ HR) in Hp. rewrite (tr_index _ _ _ HR) in Hx. unfold indexed in Hx. rewrite decide_True in Hx by done.
  pose proof (tr_nonempty _ _ _ HR) as Hne. destruct (decide (bs = [])) as [->|Hb].
  - exists (tb_last_key r2). simpl in *. f_equal. destruct r2. simpl in *. by subst.
  - assert (Hpend : pending bs [] = true) by (by destruct bs). rewrite Hpend. eexists.
    pose proof (index_key_last bs [] _ Hne Hb eq_refl) as Hk. simpl in Hk.
    rewrite (add_index_entry_ok _ bs []); [done|done|done|apply HR| | |done|by rewrite Hk]; cbn [tb_index_options tb_pending_handle set_last_key].
    + rewrite Hio. apply HR.
    + rewrite Hh. by apply HR.
Qed.

Lemma Finish_ok r bs cur : TableR r bs cur → fits_table (mjoin bs ++ cur) →
  ∃ r' bs', TableBuilder_Finish r = Some (OK, r') ∧ mjoin bs' = mjoin bs ++ cur ∧ Forall (λ b, b ≠ []) bs' ∧
  tb_num_entries r' = zlen (mjoin bs') ∧
  (zlen (written (tb_file r')) < 2 ^ 64 →
     written (tb_file r') = table_bytes bs' (filter_data bs') ∧ tb_offset r' = zlen (written (tb_file r'))).
Proof using HO ReliableFile0.
  intros HR0 Hfit. destruct (TableR_Flush_all r bs cur HR0 Hfit) as (ra & bs' & E0 & HR & Hbs). unfold TableBuilder_Finish. rewrite E0.
  cbn [mbind option_bind]. destruct (finish_filter ra bs' HR) as (fh & r1 & f1 & -> & Hr1 & Hf1 & Ho1 & Hfh); [rewrite Hbs; apply Hfit|].
  assert (Hok1 : tb_ok r1 = true) by (by rewrite Hr1). rewrite Hok1. pose proof (opt_interval _ _ _ HO) as Hi.
  assert (Hmeta : (match tb_filter_block r1, filter_policy (tb_options r1) with
    | Some _, Some p => BlockBuilder_AddChecked (comparator (tb_options r1)) (block_restart_interval (tb_options r1)) BlockBuilder_init
                  (filter_key p) (BlockHandle_EncodeTo fh [])
    | Some _, None => None
    | None, _ => Some BlockBuilder_init
    end) = Some (build_entries (block_restart_interval opt) (meta_entries bs' (filter_data bs')))).
  { rewrite Hr1. cbn [tb_filter_block tb_options set_offset set_file set_closed]. rewrite (tr_options _ _ _ HR), (tr_filter _ _ _ HR). unfold meta_entries.
    destruct (filter_policy opt) as [p|] eqn:Hp; [|done]. cbn [mbind option_bind].
    destruct (table_filter bs' [] p Hp) as (fb & Hfb & _); [rewrite app_nil_r, Hbs; apply Hfit|]. unfold filter_data in *. rewrite Hp in *. cbn [mbind option_bind] in *.
    rewrite Hfb in *. cbn [mbind option_bind] in *. destruct Hfh as [?|(d & [= <-] & ->)]; [done|]. by apply AddChecked_first. }
  rewrite Hmeta. cbn [mbind option_bind].
  assert (Hw1 : written (tb_file r1) = data_file opt bs' ++ filter_bytes (filter_data bs')) by (rewrite Hr1; exact Hf1).
  destruct (WriteBlock_at (build_entries (block_restart_interval opt) (meta_entries bs' (filter_data bs'))) r1 _ Hok1 Hw1) as (f2 & o2 & -> & Hf2 & Ho2).
  cbn [mbind option_bind]. set (r2 := set_offset o2 (set_file OK f2 r1)). assert (Hok2 : tb_ok r2 = true) by done. rewrite Hok2.
  destruct (finish_index ra r2 bs' HR) as (lk & ->); [by unfold r2; rewrite Hr1..|]. cbn [mbind option_bind].
  set (r3 := set_pending false _). assert (Hok3 : tb_ok r3 = true) by done. assert (Hw3 : written (tb_file r3) = written f2) by done.
  destruct (WriteBlock_at (tb_index_block r3) r3 _ Hok3 Hw3) as (f3 & o3 & -> & Hf3 & Ho3). cbn [mbind option_bind].
  set (r4 := set_index _ _). assert (Hok4 : tb_ok r4 = true) by done. rewrite Hok4.
  match goal with |- context [Footer_EncodeTo ?ft []] => set (footer := ft) end.
  destruct (Append_ok (Footer_EncodeTo footer []) (tb_file r4)) as (f5 & -> & Hf5). cbn [Status_ok OK].
  eexists _, bs'. split; [done|]. split_and!; [done|apply HR| |].
  { cbn [tb_num_entries set_offset set_file r4 set_index r3 set_pending set_last_key r2]. rewrite Hr1. cbn [tb_num_entries set_offset set_file set_closed].
    rewrite (tr_num _ _ _ HR), app_nil_r. done. }
  cbn [tb_file tb_offset set_offset set_file r4 set_index] in *.
  intros Hlt. rewrite Hf5 in *. rewrite zlen_app in Hlt. pose proof (zlen_nonneg (Footer_EncodeTo footer [])) as Hnf.
  assert (H3 : zlen (written f3) < 2 ^ 64) by lia. pose proof H3 as H2. rewrite Hf3, zlen_app in H2.
  match type of H2 with _ + zlen ?s < _ => pose proof (zlen_nonneg s) end.
  assert (H2' : zlen (written f2) < 2 ^ 64) by lia. pose proof H2' as H1. rewrite Hf2, zlen_app in H1.
  match type of H1 with _ + zlen ?s < _ => pose proof (zlen_nonneg s) end.
  assert (H1' : zlen (written f1) < 2 ^ 64) by (rewrite Hf1; lia).
  specialize (Ho1 H1'). specialize (Ho2 ltac:(intros _; by rewrite Ho1, Hf1) H2'). specialize (Ho3 ltac:(done) H3).
  assert (Hft : footer = table_footer bs' (filter_data bs')).
  { unfold footer, table_footer, meta_offset, index_offset. rewrite Ho1, Hf1. cbn [tb_offset r3 set_pending set_index set_last_key r2 set_offset].
    rewrite Ho2, Hf2, <- app_assoc. done. }
  split.
  - rewrite Hf3, Hf2, Hft. unfold table_bytes. by rewrite <- !app_assoc.
  - rewrite Ho3, zlen_app, u64_small; [done|]. unfold is_u. pose proof (zlen_nonneg (written f3)). lia.
Qed.
End Built.

(** Building a table from sorted entries into an empty reliable file. *)
Lemma build_table_ok {F} `{!WritableFile F, !ReliableFile F} valid opt (f : F) kvs :
  OptionsOk valid opt (length kvs) → sorted_kvs valid (comparator opt) kvs → payload kvs < 2 ^ 64 → written f = [] →
  ∃ r bs, build_table opt f kvs = Some (OK, r) ∧ mjoin bs = kvs ∧ Forall (λ b, b ≠ []) bs ∧ NumEntries r = zlen kvs ∧
    (zlen (written (tb_file r)) < 2 ^ 64 →
       written (tb_file r) = table_bytes opt bs (filter_data opt bs) ∧ FileSize r = zlen (written (tb_file r))).
Proof.
  intros HO Hs Hp Hf. unfold build_table. destruct (TableR_make opt _ HO f Hf) as (r0 & -> & HR0). cbn [mbind option_bind].
  destruct (TableR_AddAll opt _ HO kvs r0 [] [] HR0 Hs) as (r1 & bs1 & cur1 & -> & HR1 & E1); [by split|]. cbn [mbind option_bind].
  destruct (Finish_ok opt _ HO r1 bs1 cur1 HR1) as (r2 & bs2 & -> & E2 & Hne & Hn & Hw); [by rewrite E1|].
  assert (mjoin bs2 = kvs) by (by rewrite E2, E1). exists r2, bs2. split_and!; try done. unfold NumEntries. by rewrite Hn, H.
Qed.
