(* ===== verification/Table.v ===== *)
(** * Reading tables

    Model of [App/integration/table.cpp], with no block cache: opening a table file,
    iterating over it and looking a key up.  Operations of iterators that read outside
    their memory are [None]. *)
From stdpp Require Import sorting list.
From S2P Require Import Prelude Coding Crc32c Comparator DbFormat Logging Status Iterator TwoLevelIterator Block Filter Format TableBuilder.

#[local] Open Scope Z_scope.

(** [Table::Rep]. *)
Record Table := {
  t_options : Options;                   (** [options] *)
  t_file : RandomAccessFile;             (** [file] *)
  t_filter : option FilterBlockReader;   (** [filter] *)
  t_metaindex_handle : BlockHandle;      (** [metaindex_handle] *)
  t_index_block : Block;                 (** [index_block] *)
}.

Definition ReadFilter (filter_handle_value : bytes) (t : Table) : Table :=
  match BlockHandle_DecodeFrom filter_handle_value, filter_policy (t_options t) with
  | (_, Some (filter_handle, _)), Some policy =>
      match ReadBlock (t_file t) (paranoid_checks (t_options t)) filter_handle with
      | (_, Some block) =>
          {| t_options := t_options t; t_file := t_file t; t_filter := Some (FilterBlockReader_make policy block);
             t_metaindex_handle := t_metaindex_handle t; t_index_block := t_index_block t |}
      | (_, None) => t
      end
  | _, _ => t
  end.

Definition ReadMeta (footer : Footer) (t : Table) : option Table :=
  match filter_policy (t_options t) with
  | None => Some t
  | Some policy =>
      match ReadBlock (t_file t) (paranoid_checks (t_options t)) (metaindex_handle footer) with
      | (_, None) => Some t
      | (_, Some contents) =>
          let iter := Block_NewIterator BytewiseComparator (Block_make contents) in
          iter ← Seek (filter_key policy) iter;
          if Valid iter then
            k ← key iter;
            if Slice_eqb k (filter_key policy) then v ← value iter; Some (ReadFilter v t) else Some t
          else Some t
      end
  end.

Definition Open (options : Options) (file : RandomAccessFile) (size : Z) : option (Status * option Table) :=
  if size <? kEncodedLength then Some (Corruption (str "file is too short to be an sstable") [], None)
  else
    let '(s, footer_input) := Read file (size - kEncodedLength) kEncodedLength in
    if negb (Status_ok s) then Some (s, None)
    else
      match Footer_DecodeFrom footer_input with
      | (s, None) => Some (s, None)
      | (_, Some (footer, _)) =>
          match ReadBlock file (paranoid_checks options) (index_handle footer) with
          | (s, None) => Some (s, None)
          | (s, Some contents) =>
              t ← ReadMeta footer {| t_options := options; t_file := file; t_filter := None;
                                     t_metaindex_handle := metaindex_handle footer; t_index_block := Block_make contents |};
              Some (s, Some t)
          end
      end.

Definition BlockReader (t : Table) (verify_checksums : bool) (index_value : bytes) : EmptyIterator + BlockIter :=
  match BlockHandle_DecodeFrom index_value with
  | (s, None) => inl (NewErrorIterator s)
  | (_, Some (handle, _)) =>
      match ReadBlock (t_file t) verify_checksums handle with
      | (s, None) => inl (NewErrorIterator s)
      | (_, Some contents) => Block_NewIterator (comparator (t_options t)) (Block_make contents)
      end
  end.

(** An iterator over the index block. *)
Definition index_iterator (t : Table) : EmptyIterator + BlockIter := Block_NewIterator (comparator (t_options t)) (t_index_block t).

Definition Table_NewIterator (t : Table) (verify_checksums : bool) :
    option (TwoLevelIterator (EmptyIterator + BlockIter) (EmptyIterator + BlockIter)) :=
  NewTwoLevelIterator (S (length (data_ (t_index_block t)))) (index_iterator t) (BlockReader t verify_checksums).

(** The filter of the table rules the key out in the block of the index value. *)
Definition filtered_out (t : Table) (handle_value k : bytes) : bool :=
  match t_filter t with
  | None => false
  | Some filter =>
      match BlockHandle_DecodeFrom handle_value with
      | (_, Some (handle, _)) => negb (FilterBlock_KeyMayMatch filter (offset handle) k)
      | (_, None) => false
      end
  end.

(** The status, and the entry passed to [saver], if any. *)
Definition InternalGet (t : Table) (verify_checksums : bool) (k : bytes) : option (Status * option (bytes * bytes)) :=
  iiter ← Seek k (index_iterator t);
  '(s, saved) ←
    (if Valid iiter then
       handle_value ← value iiter;
       if filtered_out t handle_value k then Some (OK, None)
       else
         block_iter ← Seek k (BlockReader t verify_checksums handle_value);
         saved ← (if Valid block_iter then bk ← key block_iter; bv ← value block_iter; Some (Some (bk, bv)) else Some None);
         Some (status block_iter, saved)
     else Some (OK, None));
  Some (if Status_ok s then status iiter else s, saved).

Definition ApproximateOffsetOf (t : Table) (k : bytes) : option Z :=
  index_iter ← Seek k (index_iterator t);
  if Valid index_iter then
    input ← value index_iter;
    match BlockHandle_DecodeFrom input with
    | (_, Some (handle, _)) => Some (offset handle)
    | (_, None) => Some (offset (t_metaindex_handle t))
    end
  else Some (offset (t_metaindex_handle t)).

(** ** Reading back what the builder wrote *)

Section Reading.
Context {valid : bytes → Prop} (opt : Options) `{HC : !ComparatorOk valid (comparator opt)}.
Context (bs : list (list (bytes * bytes))) (file : RandomAccessFile).
Let fd := filter_data opt bs.
Let kvs := mjoin bs.
Let il := index_list opt bs [] (length bs).
Context (Hi : 1 <= block_restart_interval opt) (Hpol : ∀ p, filter_policy opt = Some p → bytes_ok (Name p)).
Context (Hne : Forall (λ b, b ≠ []) bs) (Hs : sorted_kvs valid (comparator opt) kvs) (Hv : Forall (λ kv, bytes_ok kv.2) kvs).
Context (Hfd : ∀ p, filter_policy opt = Some p → ∃ d, fd = Some d ∧ (zlen d < 2 ^ 32 → bytes_ok d ∧ ∀ i b k, bs !! i = Some b → k ∈ b.*1 →
  FilterBlock_KeyMayMatch (FilterBlockReader_make p d) (offset (data_handle opt bs i)) k = true)).
Context (Hsize : zlen (table_bytes opt bs fd) < 2 ^ 32) (Hfile : FileHolds file (table_bytes opt bs fd)).

(** The parts of the file, each after what comes before it. *)
Lemma table_part pre d post verify : table_bytes opt bs fd = pre ++ stored d kNoCompression ++ post → bytes_ok d →
  ReadBlock file verify {| offset := zlen pre; size := zlen d |} = (OK, Some d) ∧ zlen d < 2 ^ 32 ∧ zlen pre < 2 ^ 32.
Proof using Hsize Hfile.
  intros E Hd. rewrite E in Hsize, Hfile. rewrite !zlen_app, stored_length in Hsize. unfold kBlockTrailerSize in *.
  pose proof (zlen_nonneg pre). pose proof (zlen_nonneg post). pose proof (zlen_nonneg d).
  split_and!; [|lia|lia]. by apply (ReadBlock_stored file pre d post); [..|unfold kBlockTrailerSize; lia].
Qed.

Lemma data_part i b : bs !! i = Some b → ∃ post,
  table_bytes opt bs fd = mjoin (data_bytes opt <$> take i bs) ++ data_bytes opt b ++ post.
Proof using.
  intros Hb. unfold table_bytes. set (rest := filter_bytes fd ++ _). exists (mjoin (data_bytes opt <$> drop (S i) bs) ++ rest).
  unfold data_file. rewrite <- (take_drop_middle bs i b Hb) at 1. rewrite fmap_app, join_app. simpl. by rewrite <- !app_assoc.
Qed.

Lemma elem_bytes b kv : b ∈ bs → kv ∈ b → bytes_ok kv.1 ∧ bytes_ok kv.2.
Proof using Hv Hs HC.
  intros Hb Hkv. assert (Hin : kv ∈ kvs) by (apply list_elem_of_join; eauto). split.
  - apply (valid_bytes (valid := valid) (c := comparator opt)). by apply (sorted_elem_valid _ kv Hs).
  - rewrite Forall_forall in Hv. by apply Hv.
Qed.

Lemma data_ok b : b ∈ bs → bytes_ok (block_data (block_restart_interval opt) b).
Proof using Hv Hs HC. intros Hb. apply build_entries_bytes, Forall_forall. intros kv Hkv. by apply (elem_bytes b). Qed.

Lemma data_handle_offset i b : bs !! i = Some b → data_handle opt bs i =
  {| offset := zlen (mjoin (data_bytes opt <$> take i bs)); size := zlen (block_data (block_restart_interval opt) b) |}.
Proof using. intros Hb. unfold data_handle, off. rewrite Hb, fmap_take. done. Qed.

Lemma data_read i b verify : bs !! i = Some b →
  ReadBlock file verify (data_handle opt bs i) = (OK, Some (block_data (block_restart_interval opt) b)) ∧
  zlen (block_data (block_restart_interval opt) b) < 2 ^ 32 ∧ handle_ok (data_handle opt bs i).
Proof using Hv Hs Hsize Hfile HC.
  intros Hb. destruct (data_part i b Hb) as [post E]. rewrite (data_handle_offset i b Hb).
  destruct (table_part _ _ _ verify E) as (HR & H1 & H2); [apply data_ok; by eapply list_elem_of_lookup_2|].
  split_and!; [done|done|]. unfold handle_ok, is_u. cbn [offset size]. pose proof (zlen_nonneg (block_data (block_restart_interval opt) b)).
  pose proof (zlen_nonneg (mjoin (data_bytes opt <$> take i bs))). lia.
Qed.

Lemma handle_bytes_ok h : handle_ok h → bytes_ok (BlockHandle_EncodeTo h []).
Proof using. intros [Ho Hsz]. unfold BlockHandle_EncodeTo, PutVarint64. rewrite !bytes_ok_app. split_and!; [constructor|by apply EncodeVarint64_ok..]. Qed.

Lemma il_lookup i kh : il !! i = Some kh → ∃ b, bs !! i = Some b ∧ kh = (index_key opt bs [] i, BlockHandle_EncodeTo (data_handle opt bs i) []).
Proof using.
  unfold il, index_list. rewrite list_lookup_fmap. intros (j & Hj & ->)%fmap_Some. apply lookup_seq in Hj as [-> Hj].
  destruct (lookup_lt_is_Some_2 bs _ Hj) as [b Hb]. by exists b.
Qed.

Lemma Hs0 : sorted_kvs valid (comparator opt) (mjoin bs ++ []).
Proof using Hs. by rewrite app_nil_r. Qed.

Lemma il_sorted : sorted_kvs valid (comparator opt) il.
Proof using Hs Hne HC. by apply (index_list_sorted opt bs [] Hne Hs0). Qed.

Lemma index_data_ok : bytes_ok (index_data opt bs).
Proof using Hv Hs Hne Hsize Hfile HC.
  apply build_entries_bytes, Forall_forall. intros kh [i Hk]%list_elem_of_lookup. fold il in Hk. split.
  - apply (valid_bytes (valid := valid) (c := comparator opt)). by apply (sorted_valid _ i kh il_sorted).
  - destruct (il_lookup i kh Hk) as (b & Hb & ->). simpl. apply handle_bytes_ok. by destruct (data_read i b true Hb) as (_ & _ & ?).
Qed.

(** The filter block and the metaindex block. *)
Lemma filter_read p verify : filter_policy opt = Some p → ∃ d, fd = Some d ∧
  ReadBlock file verify {| offset := zlen (data_file opt bs); size := zlen d |} = (OK, Some d) ∧
  handle_ok {| offset := zlen (data_file opt bs); size := zlen d |} ∧ zlen d < 2 ^ 32.
Proof using Hsize Hfile Hfd.
  intros Hp. destruct (Hfd p Hp) as (d & Hd & Hok). exists d. split; [done|].
  assert (E : table_bytes opt bs fd = data_file opt bs ++ stored d kNoCompression ++
    stored (meta_data opt bs fd) kNoCompression ++ stored (index_data opt bs) kNoCompression ++ Footer_EncodeTo (table_footer opt bs fd) []).
  { unfold table_bytes. by rewrite Hd. }
  pose proof Hsize as Hz. rewrite E, !zlen_app, stored_length in Hz. unfold kBlockTrailerSize in Hz.
  pose proof (zlen_nonneg (data_file opt bs)). pose proof (zlen_nonneg d).
  repeat match type of Hz with context [zlen (stored ?x ?y)] => pose proof (zlen_nonneg (stored x y)); revert Hz; generalize dependent (zlen (stored x y)); intros ?? Hz end.
  pose proof (zlen_nonneg (Footer_EncodeTo (table_footer opt bs fd) [])).
  destruct (table_part _ _ _ verify E) as (HR & ? & ?); [apply Hok; lia|]. split_and!; [done| |done]. unfold handle_ok, is_u. cbn [offset size]. lia.
Qed.

Lemma filter_key_ok p : filter_policy opt = Some p → bytes_ok (filter_key p).
Proof using Hpol. intros Hp. unfold filter_key. rewrite bytes_ok_app. split; [by_compute|by apply Hpol]. Qed.

Lemma meta_sorted : sorted_kvs bytes_ok BytewiseComparator (meta_entries opt bs fd).
Proof using Hpol Hfd.
  pose proof filter_key_ok as Hk. unfold meta_entries. destruct (filter_policy opt) as [p|]; [|split; constructor].
  generalize fd. intros [d|]; [|split; constructor]. split; [apply Forall_singleton; by apply Hk|repeat constructor].
Qed.

Lemma meta_data_ok : bytes_ok (meta_data opt bs fd).
Proof using Hsize Hpol Hfile Hfd.
  apply build_entries_bytes, Forall_forall. intros kh Hk. split.
  - by apply (sorted_elem_valid _ kh meta_sorted).
  - pose proof (λ p, filter_read p true) as Hr. unfold meta_entries in Hk. destruct (filter_policy opt) as [p|]; [|by apply not_elem_of_nil in Hk].
    destruct (Hr p eq_refl) as (d & Hd & _ & Hh & _). rewrite Hd in Hk. apply list_elem_of_singleton in Hk as ->. by apply handle_bytes_ok.
Qed.

Lemma meta_read verify : ReadBlock file verify (metaindex_handle (table_footer opt bs fd)) = (OK, Some (meta_data opt bs fd)) ∧
  zlen (meta_data opt bs fd) < 2 ^ 32 ∧ handle_ok (metaindex_handle (table_footer opt bs fd)).
Proof using Hsize Hpol Hfile Hfd.
  destruct (table_part (data_file opt bs ++ filter_bytes fd) (meta_data opt bs fd)
    (stored (index_data opt bs) kNoCompression ++ Footer_EncodeTo (table_footer opt bs fd) []) verify) as (HR & H1 & H2);
    [unfold table_bytes; by rewrite <- !app_assoc|apply meta_data_ok|].
  split_and!; [done|done|]. unfold handle_ok, is_u. cbn [metaindex_handle table_footer offset size]. unfold meta_offset.
  pose proof (zlen_nonneg (data_file opt bs ++ filter_bytes fd)). pose proof (zlen_nonneg (meta_data opt bs fd)). lia.
Qed.

Lemma index_read verify : ReadBlock file verify (index_handle (table_footer opt bs fd)) = (OK, Some (index_data opt bs)) ∧
  zlen (index_data opt bs) < 2 ^ 32 ∧ handle_ok (index_handle (table_footer opt bs fd)).
Proof using Hv Hs Hsize Hne Hfile HC.
  destruct (table_part (data_file opt bs ++ filter_bytes fd ++ stored (meta_data opt bs fd) kNoCompression) (index_data opt bs)
    (Footer_EncodeTo (table_footer opt bs fd) []) verify) as (HR & H1 & H2);
    [unfold table_bytes; by rewrite <- !app_assoc|apply index_data_ok|].
  split_and!; [done|done|]. unfold handle_ok, is_u. cbn [index_handle table_footer offset size]. unfold index_offset.
  pose proof (zlen_nonneg (data_file opt bs ++ filter_bytes fd ++ stored (meta_data opt bs fd) kNoCompression)). pose proof (zlen_nonneg (index_data opt bs)). lia.
Qed.

(** The table that opening the file gives. *)
Definition opened_table : Table :=
  {| t_options := opt; t_file := file; t_filter := (p ← filter_policy opt; d ← fd; Some (FilterBlockReader_make p d));
   t_metaindex_handle := metaindex_handle (table_footer opt bs fd); t_index_block := Block_make (index_data opt bs) |}.

Lemma ReadMeta_ok : ReadMeta (table_footer opt bs fd) {| t_options := opt; t_file := file; t_filter := None;
  t_metaindex_handle := metaindex_handle (table_footer opt bs fd); t_index_block := Block_make (index_data opt bs) |} = Some opened_table.
Proof using Hsize Hpol Hi Hfile Hfd.
  unfold ReadMeta, opened_table. cbn [t_options t_file].
  destruct (meta_read (paranoid_checks opt)) as (-> & Hm & _). pose proof meta_sorted as Hms.
  pose proof (build_entries_positioned bytes_ok BytewiseComparator _ _ _ Hi Hms Hm) as Hp0.
  pose proof (λ p, filter_read p (paranoid_checks opt)) as Hr. pose proof filter_key_ok as Hk.
  unfold meta_data, block_data, meta_entries in Hp0 |- *. destruct (filter_policy opt) as [p|] eqn:Hp; [|done]. cbn [mbind option_bind].
  destruct (Hr p eq_refl) as (d & Hd & HR & Hh & _). rewrite Hd in Hp0 |- *. cbn [mbind option_bind].
  set (kv := (filter_key p, _)) in *. set (it := Block_NewIterator _ _) in *.
  destruct (Seek_ok (R := positioned bytes_ok BytewiseComparator [kv]) (filter_key p) it None (Hk p eq_refl) Hp0) as (it1 & -> & HP).
  assert (Hlb : lower_bound BytewiseComparator [kv] (filter_key p) = 0%nat).
  { unfold lower_bound, below. simpl. by rewrite Slice_compare_lex, lex_refl. }
  rewrite Hlb in HP. cbn [mbind option_bind].
  rewrite (Valid_ok (R := positioned bytes_ok BytewiseComparator [kv]) it1 _ HP).
  rewrite (key_ok (l := [kv]) (R := positioned bytes_ok BytewiseComparator [kv]) it1 0 kv HP eq_refl).
  rewrite (value_ok (l := [kv]) (R := positioned bytes_ok BytewiseComparator [kv]) it1 0 kv HP eq_refl). cbn [mbind option_bind].
  rewrite bool_decide_eq_true_2 by eauto. rewrite (proj2 (Slice_eqb_eq _ _) eq_refl). unfold ReadFilter, kv. cbn [fst snd t_options t_file].
  rewrite Hp, <- (app_nil_r (BlockHandle_EncodeTo _ [])), BlockHandle_decode by done. by rewrite HR.
Qed.

Lemma Open_ok : Open opt file (zlen (table_bytes opt bs fd)) = Some (OK, Some opened_table).
Proof using Hv Hs Hsize Hpol Hne Hi Hfile Hfd HC.
  set (front := data_file opt bs ++ filter_bytes fd ++ stored (meta_data opt bs fd) kNoCompression ++ stored (index_data opt bs) kNoCompression).
  assert (E : table_bytes opt bs fd = front ++ Footer_EncodeTo (table_footer opt bs fd) []) by (unfold table_bytes, front; by rewrite <- !app_assoc).
  assert (Hz : zlen (table_bytes opt bs fd) = zlen front + kEncodedLength) by (by rewrite E, zlen_app, Footer_length).
  pose proof (zlen_nonneg front). change kEncodedLength with 48 in *.
  unfold Open. change kEncodedLength with 48. rewrite Hz, (proj2 (Z.ltb_ge _ _)) by lia. replace (zlen front + 48 - 48) with (zlen front) by lia.
  rewrite Read_holds by lia. cbn [Status_ok OK negb]. rewrite E. unfold zlen at 1. rewrite Nat2Z.id, drop_app_length.
  pose proof (Footer_length (table_footer opt bs fd)) as HL. change kEncodedLength with 48 in HL. rewrite take_ge by (unfold zlen in HL; lia).
  destruct meta_read with (verify := true) as (_ & _ & Hmh). destruct index_read with (verify := true) as (_ & _ & Hih).
  rewrite <- (app_nil_r (Footer_EncodeTo _ [])), Footer_decode by done.
  destruct (index_read (paranoid_checks opt)) as (-> & _ & _). by rewrite ReadMeta_ok.
Qed.

(** ** The index over the blocks *)

(** The block an index value names. *)
Definition block_of (h : bytes) : list (bytes * bytes) :=
  match list_find (λ i, BlockHandle_EncodeTo (data_handle opt bs i) [] = h) (seq 0 (length bs)) with
  | Some (_, i) => default [] (bs !! i)
  | None => []
  end.

Lemma data_offsets_lt i j b : bs !! i = Some b → (i < j)%nat → (off (data_bytes opt <$> bs) i < off (data_bytes opt <$> bs) j)%nat.
Proof using.
  intros Hb Hij. pose proof (off_mono (data_bytes opt <$> bs) (S i) j ltac:(lia)) as H.
  rewrite (off_S _ i (data_bytes opt b)) in H by (by rewrite list_lookup_fmap, Hb).
  pose proof (stored_length (block_data (block_restart_interval opt) b) kNoCompression) as Hl. fold (data_bytes opt b) in Hl.
  pose proof (zlen_nonneg (block_data (block_restart_interval opt) b)). unfold zlen, kBlockTrailerSize in *. lia.
Qed.

Lemma handle_inj i j b b' : bs !! i = Some b → bs !! j = Some b' →
  BlockHandle_EncodeTo (data_handle opt bs i) [] = BlockHandle_EncodeTo (data_handle opt bs j) [] → i = j.
Proof using Hv Hs Hsize Hfile HC.
  intros Hb Hb' E. destruct (data_read i b true Hb) as (_ & _ & Hh). destruct (data_read j b' true Hb') as (_ & _ & Hh').
  pose proof (BlockHandle_decode _ [] Hh) as D. rewrite E, BlockHandle_decode in D by done. injection D as E' _.
  destruct (Nat.lt_total i j) as [H|[H|H]]; [|done|].
  - pose proof (data_offsets_lt i j b Hb H). unfold data_handle in E'. lia.
  - pose proof (data_offsets_lt j i b' Hb' H). unfold data_handle in E'. lia.
Qed.

Lemma block_of_handle i b : bs !! i = Some b → block_of (BlockHandle_EncodeTo (data_handle opt bs i) []) = b.
Proof using Hv Hs Hsize Hfile HC.
  intros Hb. unfold block_of. destruct (list_find _ _) as [[n j]|] eqn:E.
  - apply list_find_Some in E as (Hj & E & _). apply lookup_seq in Hj as [-> Hj]. destruct (lookup_lt_is_Some_2 bs _ Hj) as [b' Hb'].
    rewrite Nat.add_0_l in *. by rewrite (handle_inj _ _ _ _ Hb' Hb E), Hb.
  - rewrite list_find_None, Forall_forall in E. exfalso. apply (E i); [|done]. apply elem_of_seq. apply lookup_lt_Some in Hb. lia.
Qed.

Lemma il_block i kh : il !! i = Some kh → ∃ b, bs !! i = Some b ∧ kh.1 = index_key opt bs [] i ∧
  kh.2 = BlockHandle_EncodeTo (data_handle opt bs i) [] ∧ block_of kh.2 = b.
Proof using Hv Hs Hsize Hfile HC.
  intros H. destruct (il_lookup i kh H) as (b & Hb & ->). exists b. split_and!; try done. by apply block_of_handle.
Qed.

Lemma il_length : length il = length bs.
Proof using. unfold il, index_list. by rewrite length_fmap, length_seq. Qed.

Lemma il_blocks : block_of ∘ snd <$> il = bs.
Proof using Hv Hs Hsize Hfile HC.
  apply list_eq. intros i. rewrite list_lookup_fmap. destruct (il !! i) as [kh|] eqn:H.
  - destruct (il_block i kh H) as (b & -> & _ & _ & <-). done.
  - simpl. symmetry. apply lookup_ge_None. apply lookup_ge_None in H. by rewrite <- il_length.
Qed.

Lemma table_IndexOk : IndexOk valid (comparator opt) il block_of.
Proof using Hv Hs Hsize Hne Hfile HC.
  split.
  - apply il_sorted.
  - by rewrite il_blocks.
  - intros i kh x Hkh Hx. destruct (il_block i kh Hkh) as (b & Hb & -> & _ & E). rewrite E in Hx.
    apply (index_key_ok opt bs [] Hne Hs0 i); [by eapply lookup_lt_Some|]. apply list_elem_of_join. exists b. split; [done|].
    apply (list_elem_of_lookup_2 _ i). by rewrite lookup_take_lt by lia.
  - intros i j kh kh' x Hij Hkh Hkh' Hx. destruct (il_block i kh Hkh) as (b & Hb & -> & _). destruct (il_block j kh' Hkh') as (b' & Hb' & _ & _ & E).
    rewrite E in Hx. apply (index_key_ok opt bs [] Hne Hs0 i); [by eapply lookup_lt_Some|]. apply elem_of_app. left. apply list_elem_of_join.
    exists b'. split; [done|]. apply (list_elem_of_lookup_2 _ (j - S i)). rewrite lookup_drop. by replace (S i + (j - S i))%nat with j by lia.
Qed.

Lemma index_iterator_ok : positioned valid (comparator opt) il (index_iterator opened_table) None.
Proof using Hv Hs Hsize Hne Hfile HC.
  apply build_entries_positioned; [done|lia|apply il_sorted|]. by destruct (index_read true) as (_ & ? & _).
Qed.

Lemma block_sorted i b : bs !! i = Some b → sorted_kvs valid (comparator opt) b.
Proof using Hs.
  intros Hb. unfold kvs in Hs. rewrite <- (take_drop_middle bs i b Hb), join_app in Hs. simpl in Hs.
  apply sorted_app_inv in Hs as (_ & H & _). by apply sorted_app_inv in H as (? & _).
Qed.

Lemma BlockReader_ok verify i b : bs !! i = Some b →
  positioned valid (comparator opt) b (BlockReader opened_table verify (BlockHandle_EncodeTo (data_handle opt bs i) [])) None.
Proof using Hv Hs Hsize Hi Hfile HC.
  intros Hb. destruct (data_read i b verify Hb) as (HR & Hz & Hh). unfold BlockReader.
  rewrite <- (app_nil_r (BlockHandle_EncodeTo _ [])), BlockHandle_decode by done. cbn [t_file opened_table]. rewrite HR.
  apply build_entries_positioned; [done|done|by apply (block_sorted i)|done].
Qed.

Lemma Table_NewIterator_ok verify : ∃ it, Table_NewIterator opened_table verify = Some it ∧ positioned valid (comparator opt) kvs it None.
Proof using Hv Hs Hsize Hne Hi Hfile HC.
  unfold kvs. rewrite <- il_blocks. apply NewTwoLevelIterator_ok.
  - done.
  - apply table_IndexOk.
  - exists None. apply index_iterator_ok.
  - intros kh [i Hk]%list_elem_of_lookup. destruct (il_block i kh Hk) as (b & Hb & _ & -> & _). exists None.
    rewrite (block_of_handle i b Hb). by apply BlockReader_ok.
  - cbn [t_index_block opened_table]. pose proof (build_entries_count 1 il ltac:(lia)) as H. unfold index_data, block_data. fold il.
    assert (data_ (Block_make (buffer_ (BlockBuilder_Finish (build_entries 1 il)))) = buffer_ (BlockBuilder_Finish (build_entries 1 il))) as ->.
    { unfold Block_make. destruct (_ <? 4); [done|]. by destruct (_ >? _). }
    lia.
Qed.

(** ** Looking a key up *)

(** What a lookup does: the block the index selects, unless the filter rules it out. *)
Definition looked_up (k : bytes) : option (bytes * bytes) :=
  let i := lower_bound (comparator opt) il k in
  b ← bs !! i;
  if filtered_out opened_table (BlockHandle_EncodeTo (data_handle opt bs i) []) k then None
  else b !! lower_bound (comparator opt) b k.

Lemma InternalGet_ok verify k : valid k → InternalGet opened_table verify k = Some (OK, looked_up k).
Proof using Hv Hs Hsize Hne Hi Hfile HC.
  intros Hk. unfold InternalGet, looked_up.
  destruct (Seek_ok (R := positioned valid (comparator opt) il) k _ None Hk index_iterator_ok) as (it & -> & HP). cbn [mbind option_bind].
  set (i := lower_bound (comparator opt) il k) in *.
  rewrite (Valid_ok (R := positioned valid (comparator opt) il) it _ HP), (status_is_ok (R := positioned valid (comparator opt) il) it _ HP).
  destruct (il !! i) as [kh|] eqn:Hkh.
  - rewrite at_index_Some in HP |- * by (by eapply lookup_lt_Some). rewrite bool_decide_eq_true_2 by eauto.
    rewrite (value_ok (l := il) (R := positioned valid (comparator opt) il) it i kh HP Hkh). cbn [mbind option_bind].
    destruct (il_block i kh Hkh) as (b & Hb & _ & -> & _). rewrite Hb. cbn [mbind option_bind].
    destruct (filtered_out _ _ _); [done|].
    destruct (Seek_ok (R := positioned valid (comparator opt) b) k _ None Hk (BlockReader_ok verify i b Hb)) as (bi & -> & HB). cbn [mbind option_bind].
    rewrite (Valid_ok (R := positioned valid (comparator opt) b) bi _ HB), (status_is_ok (R := positioned valid (comparator opt) b) bi _ HB).
    destruct (b !! lower_bound (comparator opt) b k) as [[ek ev]|] eqn:He.
    + rewrite at_index_Some in HB |- * by (by eapply lookup_lt_Some). rewrite bool_decide_eq_true_2 by eauto.
      rewrite (key_ok (l := b) (R := positioned valid (comparator opt) b) bi _ _ HB He).
      by rewrite (value_ok (l := b) (R := positioned valid (comparator opt) b) bi _ _ HB He).
    + rewrite at_index_None by (by apply lookup_ge_None). done.
  - apply lookup_ge_None in Hkh. rewrite at_index_None by done. rewrite (proj2 (lookup_ge_None bs i)) by (by rewrite <- il_length). done.
Qed.

(** A lookup finds the first entry at or past the key, or nothing. *)
Lemma looked_up_sound k e : valid k → looked_up k = Some e → kvs !! lower_bound (comparator opt) kvs k = Some e.
Proof using Hv Hs Hsize Hne Hfile HC.
  intros Hk. unfold looked_up. set (i := lower_bound (comparator opt) il k). destruct (bs !! i) as [b|] eqn:Hb; [|done]. cbn [mbind option_bind].
  destruct (filtered_out _ _ _); [done|]. intros He. destruct (lookup_lt_is_Some_2 il i) as [kh Hkh]; [rewrite il_length; by eapply lookup_lt_Some|].
  pose proof (lower_bound_block il block_of table_IndexOk k i kh Hk eq_refl Hkh) as E. rewrite il_blocks in E. unfold kvs. rewrite E.
  destruct (il_block i kh Hkh) as (b' & Hb' & _ & _ & ->). simplify_eq. rewrite (mjoin_lookup_off bs i b); [done|done|by eapply lookup_lt_Some].
Qed.

(** The table's filter answers for the keys of its blocks. *)
Lemma filter_answers p i b k : filter_policy opt = Some p → bs !! i = Some b → k ∈ b.*1 →
  ∃ d, fd = Some d ∧ FilterBlock_KeyMayMatch (FilterBlockReader_make p d) (offset (data_handle opt bs i)) k = true.
Proof using Hsize Hfile Hfd.
  intros Hp Hb Hk. destruct (filter_read p true Hp) as (d & Hd & _ & _ & Hz). exists d. split; [done|].
  destruct (Hfd p Hp) as (d' & Hd' & Ha). rewrite Hd in Hd'. injection Hd' as <-. by apply (proj2 (Ha Hz) i b).
Qed.

Lemma FilterBlockReader_policy p d : r_policy (FilterBlockReader_make p d) = p.
Proof using. unfold FilterBlockReader_make. destruct (_ <? 5); [done|]. by destruct (_ - 5 <? _). Qed.

Lemma KeyMayMatch_more r o k k' : (∀ f, KeyMayMatch (r_policy r) k f = true → KeyMayMatch (r_policy r) k' f = true) →
  FilterBlock_KeyMayMatch r o k = true → FilterBlock_KeyMayMatch r o k' = true.
Proof using. intros H. unfold FilterBlock_KeyMayMatch. destruct (_ <? _); [|done]. destruct (_ && _); [|done]. apply H. Qed.

(** The first entry at or past the key is found when separators and filters tell them
  together: no separator before the entry reaches the key, and the filter that knows
  the entry's key may match [k]. *)
Lemma looked_up_complete k e : valid k → kvs !! lower_bound (comparator opt) kvs k = Some e →
  (∀ s, valid s → Compare (comparator opt) s k < 0 → Compare (comparator opt) s e.1 < 0 →
   Compare (comparator opt) (FindShortestSeparator (comparator opt) s e.1) k < 0) →
  (∀ p f, filter_policy opt = Some p → KeyMayMatch p e.1 f = true → KeyMayMatch p k f = true) →
  looked_up k = Some e.
Proof using Hv Hs Hsize Hne Hfile Hfd HC.
  intros Hk He Hsep Hfil. unfold looked_up. set (i := lower_bound (comparator opt) il k).
  destruct (il !! i) as [kh|] eqn:Hkh.
  2:{ exfalso. apply lookup_ge_None in Hkh. pose proof (lower_bound_end il block_of table_IndexOk k Hk) as E. rewrite il_blocks in E.
    unfold kvs in He. rewrite E in He; [by apply lookup_lt_Some, Nat.lt_irrefl in He|]. unfold i in Hkh. pose proof (cut_le (below (comparator opt) k) il). unfold lower_bound in *. lia. }
  destruct (il_block i kh Hkh) as (b & Hb & Hk1 & Hk2 & Hblk). rewrite Hb. cbn [mbind option_bind].
  pose proof (lower_bound_block il block_of table_IndexOk k i kh Hk eq_refl Hkh) as E. rewrite il_blocks in E. unfold kvs in He. rewrite E, Hblk in He.
  destruct (b !! lower_bound (comparator opt) b k) as [e'|] eqn:He'.
  - rewrite (mjoin_lookup_off bs i b) in He by (done || by eapply lookup_lt_Some). rewrite He' in He. injection He as ->.
    assert (Hnot : filtered_out opened_table (BlockHandle_EncodeTo (data_handle opt bs i) []) k = false); [|by rewrite Hnot].
    unfold filtered_out, opened_table. cbn [t_filter].
    destruct (data_read i b true Hb) as (_ & _ & Hh). pose proof (λ p, filter_answers p i b e.1) as Ha. clear Hpol.
    destruct (filter_policy opt) as [p|]; [|done]. cbn [mbind option_bind].
    destruct (Ha p eq_refl Hb) as (d & -> & Hm); [apply list_elem_of_fmap_2; by eapply list_elem_of_lookup_2|]. cbn [mbind option_bind].
    rewrite <- (app_nil_r (BlockHandle_EncodeTo _ [])), BlockHandle_decode by done. apply negb_false_iff.
    apply (KeyMayMatch_more _ _ e.1); [|done].
    intros f. rewrite FilterBlockReader_policy. by apply Hfil.
  - exfalso. apply lookup_ge_None in He'.
    assert (Hlb : lower_bound (comparator opt) b k = length b) by (pose proof (cut_le (below (comparator opt) k) b); unfold lower_bound in *; lia).
    rewrite Hlb, <- (off_S bs i b Hb) in He. unfold off in He.
    rewrite (mjoin_split bs (S i)), lookup_app_r, Nat.sub_diag in He by done.
    destruct b as [|a b _] using rev_ind; [by apply (Forall_lookup_1 _ _ _ _ Hne Hb)|].
    assert (Ha : Compare (comparator opt) a.1 k < 0).
    { apply Z.ltb_lt. apply (cut_before (below (comparator opt) k) (b ++ [a]) (length b) a).
      - unfold lower_bound in Hlb. rewrite Hlb, length_app. simpl. lia.
      - by rewrite lookup_app_r, Nat.sub_diag. }
    assert (Hlast : last (mjoin (take (S i) bs)) = Some a).
    { rewrite (take_S_r _ _ _ Hb), join_app. simpl. by rewrite app_nil_r, app_assoc, last_snoc. }
    assert (Hin : a ∈ mjoin bs) by (rewrite (mjoin_split bs (S i)); apply elem_of_app; left; by apply last_Some_elem_of).
    pose proof (cut_at (below (comparator opt) k) il kh Hkh) as Hge. unfold below in Hge. apply Z.ltb_ge in Hge.
    assert (Hkey : kh.1 = FindShortestSeparator (comparator opt) a.1 e.1).
    { rewrite Hk1. unfold index_key. rewrite Hlast, app_nil_r. rewrite <- head_lookup in He. by rewrite He. }
    rewrite Hkey in Hge. apply Z.le_ngt in Hge. apply Hge, Hsep; [by apply (sorted_elem_valid _ a Hs)|done|].
    pose proof Hs as Hs'. unfold kvs in Hs'. rewrite (mjoin_split bs (S i)) in Hs'. apply sorted_app_inv in Hs' as (_ & _ & Hlt).
    apply Hlt; [by apply last_Some_elem_of|by eapply list_elem_of_lookup_2].
Qed.

(** ** Approximate offsets *)

Definition approximate_offset (k : bytes) : Z :=
  let i := lower_bound (comparator opt) il k in
  if decide (i < length bs)%nat then Z.of_nat (off (data_bytes opt <$> bs) i) else meta_offset opt bs fd.

Lemma ApproximateOffsetOf_ok k : valid k → ApproximateOffsetOf opened_table k = Some (approximate_offset k).
Proof using Hv Hs Hsize Hne Hfile HC.
  intros Hk. unfold ApproximateOffsetOf, approximate_offset.
  destruct (Seek_ok (R := positioned valid (comparator opt) il) k _ None Hk index_iterator_ok) as (it & -> & HP). cbn [mbind option_bind].
  set (i := lower_bound (comparator opt) il k) in *. rewrite (Valid_ok (R := positioned valid (comparator opt) il) it _ HP).
  destruct (il !! i) as [kh|] eqn:Hkh.
  - pose proof (lookup_lt_Some _ _ _ Hkh) as Hlt. rewrite at_index_Some in HP |- * by done. rewrite bool_decide_eq_true_2 by eauto.
    rewrite (value_ok (l := il) (R := positioned valid (comparator opt) il) it i kh HP Hkh). cbn [mbind option_bind].
    rewrite il_length in Hlt. rewrite decide_True by done. destruct (il_block i kh Hkh) as (b & Hb & _ & -> & _).
    destruct (data_read i b true Hb) as (_ & _ & Hh). by rewrite <- (app_nil_r (BlockHandle_EncodeTo _ [])), BlockHandle_decode by done.
  - apply lookup_ge_None in Hkh. rewrite at_index_None by done. rewrite il_length in Hkh. by rewrite decide_False by lia.
Qed.

Lemma approximate_offset_mono k k' : valid k → valid k' → Compare (comparator opt) k k' <= 0 → approximate_offset k <= approximate_offset k'.
Proof using Hs Hne HC.
  intros Hk Hk' Hle. unfold approximate_offset. pose proof (lower_bound_mono il k k' il_sorted Hk Hk' Hle) as Hm.
  unfold meta_offset, data_file. rewrite zlen_app. pose proof (zlen_nonneg (filter_bytes fd)).
  destruct (decide (lower_bound (comparator opt) il k < length bs)%nat), (decide (lower_bound (comparator opt) il k' < length bs)%nat); try lia.
  - pose proof (off_mono (data_bytes opt <$> bs) _ _ Hm). lia.
  - pose proof (off_mono (data_bytes opt <$> bs) (lower_bound (comparator opt) il k) (length (data_bytes opt <$> bs))) as Ho.
    rewrite off_end, length_fmap in Ho. unfold zlen. lia.
Qed.

Lemma approximate_offset_bound k : 0 <= approximate_offset k <= zlen (table_bytes opt bs fd).
Proof using.
  unfold approximate_offset, table_bytes, meta_offset. rewrite (app_assoc (data_file opt bs)).
  match goal with |- _ <= _ <= zlen (_ ++ ?x) => pose proof (zlen_nonneg x); rewrite (zlen_app _ x); generalize dependent (zlen x); intros n Hn end.
  rewrite zlen_app. pose proof (zlen_nonneg (filter_bytes fd)). pose proof (zlen_nonneg (data_file opt bs)).
  case_decide; [|lia]. pose proof (off_mono (data_bytes opt <$> bs) (lower_bound (comparator opt) il k) (length (data_bytes opt <$> bs))) as Ho.
  rewrite off_end, length_fmap in Ho. change (zlen (data_file opt bs)) with (Z.of_nat (length (mjoin (data_bytes opt <$> bs)))) in *. lia.
Qed.
End Reading.

(** ** Tables that were built *)

Lemma filter_blocks_elem opt bs cur i b : bs !! i = Some b → (offset (data_handle opt bs i), b.*1) ∈ filter_blocks opt bs cur.
Proof.
  intros Hb. unfold filter_blocks. apply elem_of_app. left. apply (list_elem_of_lookup_2 _ i). rewrite lookup_zip_with, Hb.
  rewrite starts_lookup by (rewrite length_fmap; by eapply lookup_lt_Some). done.
Qed.

(** The filter the builder wrote, if it has a policy. *)
Lemma built_filter valid opt bs : OptionsOk valid opt (length (mjoin bs)) →
  ∀ p, filter_policy opt = Some p → ∃ d, filter_data opt bs = Some d ∧ (zlen d < 2 ^ 32 → bytes_ok d ∧ ∀ i b k, bs !! i = Some b → k ∈ b.*1 →
    FilterBlock_KeyMayMatch (FilterBlockReader_make p d) (offset (data_handle opt bs i)) k = true).
Proof.
  intros HO p Hp. destruct (table_filter opt _ HO bs [] p Hp) as (fb & Hfb & Ha); [by rewrite app_nil_r|].
  exists (FilterBlock_Finish fb). unfold filter_data. rewrite Hp. cbn [mbind option_bind]. rewrite Hfb. split; [done|].
  intros Hz. destruct (Ha Hz) as [Hok Hm]. split; [done|]. intros i b k Hb. by apply Hm, filter_blocks_elem.
Qed.

Lemma built_policy valid opt n p : OptionsOk valid opt n → filter_policy opt = Some p → bytes_ok (Name p).
Proof. intros HO Hp. destruct (opt_filter _ _ _ HO p Hp) as (fits & HF & _). apply filter_name. Qed.

(** A table file: what a builder writes for the entries [kvs], all sizes in range. *)
Definition table_file (valid : bytes → Prop) (opt : Options) (kvs : list (bytes * bytes)) (data : bytes) : Prop :=
  OptionsOk valid opt (length kvs) ∧ sorted_kvs valid (comparator opt) kvs ∧ Forall (λ kv, bytes_ok kv.2) kvs ∧ payload kvs < 2 ^ 64 ∧
  zlen data < 2 ^ 32 ∧
  ∃ (F : Type) (_ : WritableFile F) (_ : ReliableFile F) (f : F) r, written f = [] ∧ build_table opt f kvs = Some (OK, r) ∧ written (tb_file r) = data.

Lemma table_file_opens valid opt kvs data : table_file valid opt kvs data → ∃ bs, mjoin bs = kvs ∧ Forall (λ b, b ≠ []) bs ∧
  data = table_bytes opt bs (filter_data opt bs).
Proof.
  intros (HO & Hs & Hv & Hp & Hz & F & HW & HR & f & r & Hf & Hb & Hd).
  destruct (build_table_ok valid opt f kvs HO Hs Hp Hf) as (r' & bs & Hb' & E & Hne & _ & Hw). rewrite Hb in Hb'. injection Hb' as <-.
  exists bs. split_and!; [done|done|]. rewrite Hd in Hw. by apply Hw; lia.
Qed.

(** What a table file answers once opened. *)
Lemma table_file_reads valid opt kvs data file : table_file valid opt kvs data → FileHolds file data →
  ∃ bs, mjoin bs = kvs ∧ Forall (λ b, b ≠ []) bs ∧ Open opt file (zlen data) = Some (OK, Some (opened_table opt bs file)) ∧
    (∀ verify, ∃ it, Table_NewIterator (opened_table opt bs file) verify = Some it ∧ positioned valid (comparator opt) kvs it None) ∧
    (∀ verify k, valid k → InternalGet (opened_table opt bs file) verify k = Some (OK, looked_up opt bs file k)) ∧
    (∀ k e, valid k → looked_up opt bs file k = Some e → kvs !! lower_bound (comparator opt) kvs k = Some e) ∧
    (∀ k e, valid k → kvs !! lower_bound (comparator opt) kvs k = Some e →
       (∀ s, valid s → Compare (comparator opt) s k < 0 → Compare (comparator opt) s e.1 < 0 →
          Compare (comparator opt) (FindShortestSeparator (comparator opt) s e.1) k < 0) →
       (∀ p f, filter_policy opt = Some p → KeyMayMatch p e.1 f = true → KeyMayMatch p k f = true) →
       looked_up opt bs file k = Some e) ∧
    (∀ k, valid k → ApproximateOffsetOf (opened_table opt bs file) k = Some (approximate_offset opt bs k)) ∧
    (∀ k k', valid k → valid k' → Compare (comparator opt) k k' <= 0 → approximate_offset opt bs k <= approximate_offset opt bs k') ∧
    (∀ k, 0 <= approximate_offset opt bs k <= zlen data).
Proof.
  intros HT Hfile. destruct (table_file_opens _ _ _ _ HT) as (bs & Hbs & Hne & ->). destruct HT as (HO & Hs & Hv & _ & Hz & _).
  pose proof (opt_comparator _ _ _ HO) as HC. pose proof (opt_interval _ _ _ HO) as Hi. subst kvs.
  pose proof (built_filter _ _ _ HO) as Hfd. pose proof (λ p, built_policy _ _ _ p HO) as Hpol.
  exists bs. split_and!; [done|done|by apply (Open_ok (valid := valid))|by apply (Table_NewIterator_ok (valid := valid))|..].
  - intros verify k. by apply (InternalGet_ok (valid := valid)).
  - intros k e. by apply (looked_up_sound (valid := valid)).
  - intros k e. by apply (looked_up_complete (valid := valid)).
  - intros k. by apply (ApproximateOffsetOf_ok (valid := valid)).
  - intros k k'. by apply (approximate_offset_mono (valid := valid)).
  - intros k. apply approximate_offset_bound.
Qed.

Lemma icmp_user_le user a b : Compare (InternalKeyComparator user) a b <= 0 → Compare user (ExtractUserKey a) (ExtractUserKey b) <= 0.
Proof.
  simpl. unfold InternalKeyComparator_Compare. destruct (Z.eqb_spec (Compare user (ExtractUserKey a) (ExtractUserKey b)) 0); lia.
Qed.

(** What an open table of the internal keys [kvs] answers. *)
Record TableReads (valid : bytes → Prop) (user : Comparator) (kvs : list (bytes * bytes)) (t : Table) : Prop := {
  reads_iterator verify : ∃ it, Table_NewIterator t verify = Some it ∧
    positioned (internal_valid valid) (InternalKeyComparator user) kvs it None;
  reads_snapshot verify u s : valid u → 0 <= s <= kMaxSequenceNumber →
    let k := internal_key (LookupKey_make u s) in
    ∃ res, InternalGet t verify k = Some (OK, res) ∧
      (∀ e, res = Some e → e ∈ kvs ∧ Compare (InternalKeyComparator user) k e.1 <= 0) ∧
      (∀ x, x ∈ kvs → ExtractUserKey x.1 = u → Compare (InternalKeyComparator user) k x.1 <= 0 →
         ∃ e, res = Some e ∧ ExtractUserKey e.1 = u ∧ Compare (InternalKeyComparator user) e.1 x.1 <= 0);
}.

Lemma table_file_TableReads valid user policy opt kvs data file :
  ComparatorOk valid user → comparator opt = InternalKeyComparator user → filter_policy opt = InternalFilterPolicy <$> policy →
  table_file (internal_valid valid) opt kvs data → FileHolds file data →
  ∃ t, Open opt file (zlen data) = Some (OK, Some t) ∧ TableReads valid user kvs t.
Proof.
  intros HC Hcmp Hpol HT Hfile.
  destruct (table_file_reads _ _ _ _ file HT Hfile) as (bs & _ & _ & Ho & Hit & Hg & Hsound & Hcomp & _).
  destruct HT as (HO & Hs & _). pose proof (opt_comparator _ _ _ HO) as HCI.
  eexists. split; [done|]. split; [rewrite <- Hcmp; apply Hit|]. intros verify u s Hu Hseq k.
  assert (Hku : ExtractUserKey k = u) by apply ExtractUserKey_app.
  assert (Hk : internal_valid valid k) by (apply internal_valid_app; [by apply (valid_bytes (valid := valid) (c := user))|done]).
  rewrite <- Hcmp. assert (Hge : ∀ e, kvs !! lower_bound (comparator opt) kvs k = Some e → Compare (comparator opt) k e.1 <= 0).
  { intros e He. pose proof (cut_at (below (comparator opt) k) kvs e He) as H. apply Z.ltb_ge in H.
    apply (Compare_nlt (valid := internal_valid valid)); [by apply (sorted_valid _ _ e Hs He)|done|lia]. }
  eexists. split; [by apply Hg|]. split.
  { intros e He. apply Hsound in He; [|done]. split; [by eapply list_elem_of_lookup_2|by apply Hge]. }
  intros x [j Hj]%list_elem_of_lookup Hxu Hkx.
  assert (Hlb : (lower_bound (comparator opt) kvs k <= j)%nat).
  { apply Nat.nlt_ge. intros Hlt. pose proof (cut_before (below (comparator opt) k) kvs j x Hlt Hj) as H. apply Z.ltb_lt in H.
    apply (Compare_nlt (valid := internal_valid valid)) in Hkx; [done|by apply (sorted_valid _ _ x Hs Hj)|done]. }
  destruct (lookup_lt_is_Some_2 kvs (lower_bound (comparator opt) kvs k)) as [e He]; [apply lookup_lt_Some in Hj; lia|].
  assert (Hex : Compare (comparator opt) e.1 x.1 <= 0).
  { destruct (decide (lower_bound (comparator opt) kvs k = j)) as [E|Hne].
    - rewrite E, Hj in He. simplify_eq. by rewrite Compare_refl by (by apply (sorted_valid _ _ _ Hs Hj)).
    - apply Z.lt_le_incl. apply (sorted_lookup_lt _ (lower_bound (comparator opt) kvs k) j e x Hs); [lia|done|done]. }
  assert (Heu : ExtractUserKey e.1 = u).
  { pose proof (Hge e He) as H1. rewrite Hcmp in H1, Hex. apply icmp_user_le in H1, Hex. rewrite Hku in H1. rewrite Hxu in Hex.
    assert (Ve : valid (ExtractUserKey e.1)) by apply (sorted_valid _ _ e Hs He).
    apply (Compare_nlt (valid := valid)) in H1; [|done..]. apply (Compare_eq (valid := valid) (c := user)); [done|done|lia]. }
  exists e. split_and!; [|done|done]. apply Hcomp; [done|done| |].
  - intros s0 Hs0 H1 H2. rewrite Hcmp in *. apply (internal_separator_same_user (valid := valid)); try done; [by apply (sorted_valid _ _ e Hs He)|by rewrite Hku, Heu].
  - intros p f. rewrite Hpol. destruct policy as [q|]; [|done]. intros [= <-]. simpl. by rewrite Heu, Hku.
Qed.

(** ** Properties *)

(** [C1] A table reads back: sorted entries added to a builder over an empty reliable
    file always build (no assertion of the builder fails), for every block size, restart
    interval, filter policy and comparator that keep their promises; opening the file
    succeeds, and its iterator ranges over exactly the entries added, through the
    footer, the index block, prefix-compressed data blocks and checksums. *)
Theorem table_roundtrip (F : Type) (W : WritableFile F) (R : ReliableFile F) (valid : bytes → Prop) (opt : Options) (f : F)
    (kvs : list (bytes * bytes)) :
  OptionsOk valid opt (length kvs) → sorted_kvs valid (comparator opt) kvs → Forall (λ kv, bytes_ok kv.2) kvs →
  payload kvs < 2 ^ 64 → written f = [] →
  ∃ r, build_table opt f kvs = Some (OK, r) ∧ NumEntries r = zlen kvs ∧
    (zlen (written (tb_file r)) < 2 ^ 32 → FileSize r = zlen (written (tb_file r)) ∧
     ∀ file verify, FileHolds file (written (tb_file r)) →
       ∃ t it, Open opt file (FileSize r) = Some (OK, Some t) ∧ Table_NewIterator t verify = Some it ∧
         positioned valid (comparator opt) kvs it None).
Proof.
  intros HO Hs Hv Hp Hf. destruct (build_table_ok valid opt f kvs HO Hs Hp Hf) as (r & bs & Hb & _ & _ & Hn & Hw).
  exists r. split_and!; [done|done|]. intros Hz. destruct Hw as [_ Hsize]; [lia|]. split; [done|]. intros file verify Hfile.
  destruct (table_file_reads valid opt kvs (written (tb_file r)) file) as (bs' & _ & _ & Ho & Hit & _); [|done|].
  { split_and!; try done. by exists F, W, R, f, r. }
  rewrite Hsize. destruct (Hit verify) as (it & Hi & HP). by exists (opened_table opt bs' file), it.
Qed.

(** Looking a key up in a table never fails, returns an entry only if it is the first
    at or past the key, and always finds a key that is in the table, the filter
    notwithstanding. *)
Theorem table_get_correct (valid : bytes → Prop) (opt : Options) (kvs : list (bytes * bytes)) (data : bytes) (file : RandomAccessFile) :
  table_file valid opt kvs data → FileHolds file data →
  ∃ t, Open opt file (zlen data) = Some (OK, Some t) ∧
    ∀ verify k, valid k → ∃ res, InternalGet t verify k = Some (OK, res) ∧
      (∀ e, res = Some e → kvs !! lower_bound (comparator opt) kvs k = Some e) ∧ (∀ v, (k, v) ∈ kvs → res = Some (k, v)).
Proof.
  intros HT Hfile. destruct (table_file_reads _ _ _ _ file HT Hfile) as (bs & _ & _ & Ho & _ & Hg & Hsound & Hcomp & _).
  eexists. split; [done|]. intros verify k Hk. eexists. split; [by apply Hg|]. split; [intros e; by apply Hsound|].
  destruct HT as (HO & Hs & _). pose proof (opt_comparator _ _ _ HO) as HC.
  intros v [i Hi]%list_elem_of_lookup. apply Hcomp; [done| | |done].
  - pose proof (lower_bound_at kvs i (k, v) Hs Hi) as E. cbn [fst] in E. by rewrite E.
  - intros s Hsv _ Hlt. by apply Separator_upper.
Qed.

(** A lookup at a snapshot in a table of internal keys returns the newest entry of
    the user key that the snapshot sees, whenever there is one, although the index holds
    shortened keys and the filter only knows user keys; and whatever it returns is an
    entry of the table that the snapshot may see. *)
Theorem table_get_snapshot (valid : bytes → Prop) (user : Comparator) (policy : option FilterPolicy) (opt : Options)
    (kvs : list (bytes * bytes)) (data : bytes) (file : RandomAccessFile) (u : bytes) (s : Z) :
  ComparatorOk valid user → comparator opt = InternalKeyComparator user → filter_policy opt = InternalFilterPolicy <$> policy →
  table_file (internal_valid valid) opt kvs data → FileHolds file data → valid u → 0 <= s <= kMaxSequenceNumber →
  let k := internal_key (LookupKey_make u s) in
  ∃ t, Open opt file (zlen data) = Some (OK, Some t) ∧
    ∀ verify, ∃ res, InternalGet t verify k = Some (OK, res) ∧
      (∀ e, res = Some e → e ∈ kvs ∧ Compare (comparator opt) k e.1 <= 0) ∧
      (∀ x, x ∈ kvs → ExtractUserKey x.1 = u → Compare (comparator opt) k x.1 <= 0 →
         ∃ e, res = Some e ∧ ExtractUserKey e.1 = u ∧ Compare (comparator opt) e.1 x.1 <= 0).
Proof.
  intros HC Hcmp Hpol HT Hfile Hu Hseq k.
  destruct (table_file_TableReads valid user policy opt kvs data file) as (t & Ho & Ht); [done..|].
  exists t. split; [done|]. rewrite Hcmp. intros verify. by apply (reads_snapshot _ _ _ _ Ht verify u s).
Qed.

(** Approximate offsets never fail, lie in the file and grow with the key. *)
Theorem table_approximate_offset (valid : bytes → Prop) (opt : Options) (kvs : list (bytes * bytes)) (data : bytes) (file : RandomAccessFile) :
  table_file valid opt kvs data → FileHolds file data →
  ∃ t, Open opt file (zlen data) = Some (OK, Some t) ∧
    ∀ k k', valid k → valid k' → Compare (comparator opt) k k' <= 0 → ∃ o o', ApproximateOffsetOf t k = Some o ∧ ApproximateOffsetOf t k' = Some o' ∧
      0 <= o ∧ o <= o' ∧ o' <= zlen data.
Proof.
  intros HT Hfile. destruct (table_file_reads _ _ _ _ file HT Hfile) as (bs & _ & _ & Ho & _ & _ & _ & _ & Ha & Hm & Hb).
  eexists. split; [done|]. intros k k' Hk Hk' Hle. do 2 eexists. split_and!; [by apply Ha|by apply Ha|apply Hb|by apply Hm|apply Hb].
Qed.

(** ** A table in memory *)

#[export] Instance MemFile : WritableFile bytes := {| Append d f := (OK, f ++ d); Flush f := (OK, f); written f := f |}.
#[export] Instance MemFile_ok : ReliableFile bytes.
Proof. split; intros; eexists; done. Qed.

Definition memory_file (data : bytes) : RandomAccessFile :=
  {| Read o n := (OK, take (Z.to_nat n) (drop (Z.to_nat o) data)) |}.
Lemma memory_file_holds data : FileHolds (memory_file data) data.
Proof. by split. Qed.

(** Blocks of at most two entries, restarts every second entry, Bloom filters. *)
Definition sample_options : Options := {|
  comparator := InternalKeyComparator BytewiseComparator; paranoid_checks := true; block_size := 40; block_restart_interval := 2;
  compression := kSnappyCompression; filter_policy := InternalFilterPolicy <$> Some (NewBloomFilterPolicy 10) |}.
Definition sample_entries : list (bytes * bytes) :=
  [(InternalKey [97; 98] 9 kTypeValue, [1]); (InternalKey [97; 98] 5 kTypeValue, [2]); (InternalKey [97; 99; 100] 7 kTypeDeletion, []);
   (InternalKey [98] 3 kTypeValue, [4; 4])].
Definition sample_file : bytes :=
  match build_table sample_options ([] : bytes) sample_entries with Some (_, r) => tb_file r | None => [] end.

Lemma sample_options_ok : OptionsOk (internal_valid bytes_ok) sample_options (length sample_entries).
Proof.
  split; [apply _|done|]. intros p [= <-]. exists (λ keys, bloom_fits 10 (ExtractUserKey <$> keys)).
  split; [apply InternalFilterPolicy_ok, NewBloomFilterPolicy_ok|]. intros ks Hk. change (length sample_entries) with 4%nat in Hk.
  unfold bloom_fits, zlen. rewrite length_fmap. change (u64 10) with 10. lia.
Qed.

Lemma sample_entries_sorted : sorted_kvs (internal_valid bytes_ok) (comparator sample_options) sample_entries.
Proof.
  split.
  - repeat (apply Forall_cons; split); [..|constructor]; (split; [|split]; [by_compute|vm_compute; lia|by_compute]).
  - repeat constructor; by_compute.
Qed.

Lemma sample_entries_values : Forall (λ kv : bytes * bytes, bytes_ok kv.2) sample_entries.
Proof. by_compute. Qed.

Lemma table_roundtrip_witness :
  ∃ t it, Open sample_options (memory_file sample_file) (zlen sample_file) = Some (OK, Some t) ∧ Table_NewIterator t true = Some it ∧
    positioned (internal_valid bytes_ok) (comparator sample_options) sample_entries it None.
Proof.
  destruct (table_roundtrip bytes MemFile MemFile_ok (internal_valid bytes_ok) sample_options [] sample_entries) as (r & Hb & _ & Hr).
  - apply sample_options_ok.
  - apply sample_entries_sorted.
  - apply sample_entries_values.
  - vm_compute. reflexivity.
  - reflexivity.
  - assert (Hr' : tb_file r = sample_file) by (unfold sample_file; by rewrite Hb).
    change (written (tb_file r)) with (tb_file r) in Hr. rewrite Hr' in Hr. destruct Hr as [-> Hr]; [vm_compute; reflexivity|].
    apply Hr, memory_file_holds.
Defined.

Lemma sample_table_file : table_file (internal_valid bytes_ok) sample_options sample_entries sample_file.
Proof.
  destruct (build_table_ok (internal_valid bytes_ok) sample_options ([] : bytes) sample_entries) as (r & bs & Hb & _).
  - apply sample_options_ok.
  - apply sample_entries_sorted.
  - vm_compute. reflexivity.
  - reflexivity.
  - unfold table_file. split_and!; [apply sample_options_ok|apply sample_entries_sorted|apply sample_entries_values|vm_compute; reflexivity..|].
    exists bytes, MemFile, MemFile_ok, [], r. split_and!; [done|done|]. unfold sample_file. by rewrite Hb.
Qed.

Lemma table_get_correct_witness :
  ∃ t, Open sample_options (memory_file sample_file) (zlen sample_file) = Some (OK, Some t) ∧
    InternalGet t true (InternalKey [98] 3 kTypeValue) = Some (OK, Some (InternalKey [98] 3 kTypeValue, [4; 4])).
Proof.
  destruct (table_get_correct (internal_valid bytes_ok) sample_options sample_entries sample_file (memory_file sample_file))
    as (t & Ho & Hg); [apply sample_table_file|apply memory_file_holds|]. exists t. split; [done|].
  destruct (Hg true (InternalKey [98] 3 kTypeValue)) as (res & -> & _ & Hin); [apply (sorted_valid _ 3 _ sample_entries_sorted eq_refl)|].
  rewrite (Hin [4; 4]); [done|]. by apply (list_elem_of_lookup_2 _ 3).
Defined.

Lemma table_get_snapshot_witness :
  ∃ t, Open sample_options (memory_file sample_file) (zlen sample_file) = Some (OK, Some t) ∧
    ∃ e, InternalGet t true (internal_key (LookupKey_make [97; 98] 6)) = Some (OK, Some e) ∧ ExtractUserKey e.1 = [97; 98].
Proof.
  destruct (table_get_snapshot bytes_ok BytewiseComparator (Some (NewBloomFilterPolicy 10)) sample_options sample_entries sample_file
    (memory_file sample_file) [97; 98] 6) as (t & Ho & Hg);
    [apply _|reflexivity|reflexivity|apply sample_table_file|apply memory_file_holds|by_compute|vm_compute; split; intros [=]|].
  exists t. split; [done|]. destruct (Hg true) as (res & -> & _ & Hx).
  destruct (Hx (InternalKey [97; 98] 5 kTypeValue, [2])) as (e & -> & Hu & _); [by apply (list_elem_of_lookup_2 _ 1)|reflexivity|vm_compute; intros [=]|].
  exists e. exact (conj eq_refl Hu).
Defined.

Lemma table_approximate_offset_witness :
  ∃ t, Open sample_options (memory_file sample_file) (zlen sample_file) = Some (OK, Some t) ∧
    ∃ o o', ApproximateOffsetOf t (InternalKey [97; 98] 9 kTypeValue) = Some o ∧ ApproximateOffsetOf t (InternalKey [98] 3 kTypeValue) = Some o' ∧ o <= o'.
Proof.
  destruct (table_approximate_offset (internal_valid bytes_ok) sample_options sample_entries sample_file (memory_file sample_file))
    as (t & Ho & Ha); [apply sample_table_file|apply memory_file_holds|]. exists t. split; [done|].
  destruct (Ha (InternalKey [97; 98] 9 kTypeValue) (InternalKey [98] 3 kTypeValue)) as (o & o' & H1 & H2 & _ & H3 & _);
    [apply (sorted_valid _ 0 _ sample_entries_sorted eq_refl)|apply (sorted_valid _ 3 _ sample_entries_sorted eq_refl)|vm_compute; intros [=]|].
  exists o, o'. exact (conj H1 (conj H2 H3)).
Defined.
