(* ===== verification/VersionEdit.v ===== *)
(** * Version edits

    Model of [App/integration/version_edit.h] and [version_edit.cpp], the records of the
    manifest, and of the [DebugString] printers of [dbformat.cpp].  A [std::set] of pairs
    is a list kept in increasing order. *)
From stdpp Require Import sorting list.
From S2P Require Import Prelude Coding Logging Status DbFormat.

#[local] Open Scope Z_scope.
#[local] Open Scope word_scope.

(** ** Data *)

Definition kNumLevels : Z := 7.

(** An [InternalKey] is its [rep_]. *)
Record FileMetaData := {
  refs : Z;
  allowed_seeks : Z;
  number : Z;
  file_size : Z;
  smallest : bytes;
  largest : bytes;
}.

Record VersionEdit := {
  comparator_ : bytes;
  log_number_ : Z;
  prev_log_number_ : Z;
  next_file_number_ : Z;
  last_sequence_ : Z;
  has_comparator_ : bool;
  has_log_number_ : bool;
  has_prev_log_number_ : bool;
  has_next_file_number_ : bool;
  has_last_sequence_ : bool;
  compact_pointers_ : list (Z * bytes);
  deleted_files_ : list (Z * Z);
  new_files_ : list (Z * FileMetaData);
}.

(** [Tag]. *)
Definition kComparator : Z := 1.
Definition kLogNumber : Z := 2.
Definition kNextFileNumber : Z := 3.
Definition kLastSequence : Z := 4.
Definition kCompactPointer : Z := 5.
Definition kDeletedFile : Z := 6.
Definition kNewFile : Z := 7.
Definition kPrevLogNumber : Z := 9.

(** ** Building an edit *)

(** [Clear] leaves the compaction pointers alone. *)
Definition Clear (e : VersionEdit) : VersionEdit :=
  {| comparator_ := []; log_number_ := 0; prev_log_number_ := 0; next_file_number_ := 0; last_sequence_ := 0;
     has_comparator_ := false; has_log_number_ := false; has_prev_log_number_ := false; has_next_file_number_ := false;
     has_last_sequence_ := false; compact_pointers_ := compact_pointers_ e; deleted_files_ := []; new_files_ := [] |}.

(** The constructor: an edit with no pointers, cleared. *)
Definition VersionEdit_make : VersionEdit :=
  {| comparator_ := []; log_number_ := 0; prev_log_number_ := 0; next_file_number_ := 0; last_sequence_ := 0;
     has_comparator_ := false; has_log_number_ := false; has_prev_log_number_ := false; has_next_file_number_ := false;
     has_last_sequence_ := false; compact_pointers_ := []; deleted_files_ := []; new_files_ := [] |}.

Definition SetComparatorName (name : bytes) (e : VersionEdit) : VersionEdit :=
  {| comparator_ := name; log_number_ := log_number_ e; prev_log_number_ := prev_log_number_ e; next_file_number_ := next_file_number_ e;
     last_sequence_ := last_sequence_ e; has_comparator_ := true; has_log_number_ := has_log_number_ e;
     has_prev_log_number_ := has_prev_log_number_ e; has_next_file_number_ := has_next_file_number_ e; has_last_sequence_ := has_last_sequence_ e;
     compact_pointers_ := compact_pointers_ e; deleted_files_ := deleted_files_ e; new_files_ := new_files_ e |}.
Definition SetLogNumber (num : Z) (e : VersionEdit) : VersionEdit :=
  {| comparator_ := comparator_ e; log_number_ := num; prev_log_number_ := prev_log_number_ e; next_file_number_ := next_file_number_ e;
     last_sequence_ := last_sequence_ e; has_comparator_ := has_comparator_ e; has_log_number_ := true;
     has_prev_log_number_ := has_prev_log_number_ e; has_next_file_number_ := has_next_file_number_ e; has_last_sequence_ := has_last_sequence_ e;
     compact_pointers_ := compact_pointers_ e; deleted_files_ := deleted_files_ e; new_files_ := new_files_ e |}.
Definition SetPrevLogNumber (num : Z) (e : VersionEdit) : VersionEdit :=
  {| comparator_ := comparator_ e; log_number_ := log_number_ e; prev_log_number_ := num; next_file_number_ := next_file_number_ e;
     last_sequence_ := last_sequence_ e; has_comparator_ := has_comparator_ e; has_log_number_ := has_log_number_ e;
     has_prev_log_number_ := true; has_next_file_number_ := has_next_file_number_ e; has_last_sequence_ := has_last_sequence_ e;
     compact_pointers_ := compact_pointers_ e; deleted_files_ := deleted_files_ e; new_files_ := new_files_ e |}.
Definition SetNextFile (num : Z) (e : VersionEdit) : VersionEdit :=
  {| comparator_ := comparator_ e; log_number_ := log_number_ e; prev_log_number_ := prev_log_number_ e; next_file_number_ := num;
     last_sequence_ := last_sequence_ e; has_comparator_ := has_comparator_ e; has_log_number_ := has_log_number_ e;
     has_prev_log_number_ := has_prev_log_number_ e; has_next_file_number_ := true; has_last_sequence_ := has_last_sequence_ e;
     compact_pointers_ := compact_pointers_ e; deleted_files_ := deleted_files_ e; new_files_ := new_files_ e |}.
Definition SetLastSequence (seq : Z) (e : VersionEdit) : VersionEdit :=
  {| comparator_ := comparator_ e; log_number_ := log_number_ e; prev_log_number_ := prev_log_number_ e; next_file_number_ := next_file_number_ e;
     last_sequence_ := seq; has_comparator_ := has_comparator_ e; has_log_number_ := has_log_number_ e;
     has_prev_log_number_ := has_prev_log_number_ e; has_next_file_number_ := has_next_file_number_ e; has_last_sequence_ := true;
     compact_pointers_ := compact_pointers_ e; deleted_files_ := deleted_files_ e; new_files_ := new_files_ e |}.

(** An edit with other lists. *)
Definition with_lists (cp : list (Z * bytes)) (df : list (Z * Z)) (nf : list (Z * FileMetaData)) (e : VersionEdit) : VersionEdit :=
  {| comparator_ := comparator_ e; log_number_ := log_number_ e; prev_log_number_ := prev_log_number_ e; next_file_number_ := next_file_number_ e;
     last_sequence_ := last_sequence_ e; has_comparator_ := has_comparator_ e; has_log_number_ := has_log_number_ e;
     has_prev_log_number_ := has_prev_log_number_ e; has_next_file_number_ := has_next_file_number_ e; has_last_sequence_ := has_last_sequence_ e;
     compact_pointers_ := cp; deleted_files_ := df; new_files_ := nf |}.

Definition SetCompactPointer (level : Z) (key : bytes) (e : VersionEdit) : VersionEdit :=
  with_lists (compact_pointers_ e ++ [(level, key)]) (deleted_files_ e) (new_files_ e) e.

(** [std::set<std::pair<int, uint64_t>>::insert]. *)
Definition pair_lt (a b : Z * Z) : bool := (a.1 <? b.1) || ((a.1 =? b.1) && (a.2 <? b.2)).
Fixpoint set_insert (x : Z * Z) (s : list (Z * Z)) : list (Z * Z) :=
  match s with
  | [] => [x]
  | y :: s' => if pair_lt x y then x :: s else if pair_lt y x then y :: set_insert x s' else s
  end.

Definition DeleteFile (level file : Z) (e : VersionEdit) : VersionEdit :=
  with_lists (compact_pointers_ e) (set_insert (level, file) (deleted_files_ e)) (new_files_ e) e.

Definition FileMetaData_make (num size : Z) (small large : bytes) : FileMetaData :=
  {| refs := 0; allowed_seeks := 1 .<< 30; number := num; file_size := size; smallest := small; largest := large |}.

Definition AddFile (level file size : Z) (small large : bytes) (e : VersionEdit) : VersionEdit :=
  with_lists (compact_pointers_ e) (deleted_files_ e) (new_files_ e ++ [(level, FileMetaData_make file size small large)]) e.

(** ** The serialized form *)

Definition EncodeTo (e : VersionEdit) (dst : bytes) : bytes :=
  let dst := if has_comparator_ e then PutLengthPrefixedSlice (PutVarint32 dst kComparator) (comparator_ e) else dst in
  let dst := if has_log_number_ e then PutVarint64 (PutVarint32 dst kLogNumber) (log_number_ e) else dst in
  let dst := if has_prev_log_number_ e then PutVarint64 (PutVarint32 dst kPrevLogNumber) (prev_log_number_ e) else dst in
  let dst := if has_next_file_number_ e then PutVarint64 (PutVarint32 dst kNextFileNumber) (next_file_number_ e) else dst in
  let dst := if has_last_sequence_ e then PutVarint64 (PutVarint32 dst kLastSequence) (last_sequence_ e) else dst in
  let dst := foldl (λ dst p, PutLengthPrefixedSlice (PutVarint32 (PutVarint32 dst kCompactPointer) (u32 p.1)) p.2) dst (compact_pointers_ e) in
  let dst := foldl (λ dst p, PutVarint64 (PutVarint32 (PutVarint32 dst kDeletedFile) (u32 p.1)) p.2) dst (deleted_files_ e) in
  foldl (λ dst (p : Z * FileMetaData),
    let f := p.2 in
    let dst := PutVarint32 (PutVarint32 dst kNewFile) (u32 p.1) in
    let dst := PutVarint64 (PutVarint64 dst (number f)) (file_size f) in
    PutLengthPrefixedSlice (PutLengthPrefixedSlice dst (smallest f)) (largest f)) dst (new_files_ e).

Definition GetInternalKey (input : bytes) : option (bytes * bytes) :=
  match GetLengthPrefixedSlice input with
  | (Some s, rest) => Some (s, rest)
  | (None, _) => None
  end.

Definition GetLevel (input : bytes) : option (Z * bytes) :=
  '(v, input) ← GetVarint32 input; if v <? kNumLevels then Some (v, input) else None.

(** One round of the [switch]: the edit and the rest, or the message. *)
Definition decode_field (tag : Z) (input : bytes) (e : VersionEdit) : bytes + (VersionEdit * bytes) :=
  let or_msg (msg : bytes) (o : option (VersionEdit * bytes)) := match o with Some r => inr r | None => inl msg end in
  if tag =? kComparator then
    or_msg (str "comparator name") ('(s, input) ← GetInternalKey input; Some (SetComparatorName s e, input))
  else if tag =? kLogNumber then
    or_msg (str "log number") ('(n, input) ← GetVarint64 input; Some (SetLogNumber n e, input))
  else if tag =? kPrevLogNumber then
    or_msg (str "previous log number") ('(n, input) ← GetVarint64 input; Some (SetPrevLogNumber n e, input))
  else if tag =? kNextFileNumber then
    or_msg (str "next file number") ('(n, input) ← GetVarint64 input; Some (SetNextFile n e, input))
  else if tag =? kLastSequence then
    or_msg (str "last sequence number") ('(n, input) ← GetVarint64 input; Some (SetLastSequence n e, input))
  else if tag =? kCompactPointer then
    or_msg (str "compaction pointer")
      ('(level, input) ← GetLevel input; '(k, input) ← GetInternalKey input; Some (SetCompactPointer level k e, input))
  else if tag =? kDeletedFile then
    or_msg (str "deleted file")
      ('(level, input) ← GetLevel input; '(n, input) ← GetVarint64 input; Some (DeleteFile level n e, input))
  else if tag =? kNewFile then
    or_msg (str "new-file entry")
      ('(level, input) ← GetLevel input; '(n, input) ← GetVarint64 input; '(size, input) ← GetVarint64 input;
       '(small, input) ← GetInternalKey input; '(large, input) ← GetInternalKey input;
       Some (AddFile level n size small large e, input))
  else inl (str "unknown tag").

(** The loop: the message, if any, and the edit.  Every round consumes a byte. *)
Fixpoint decode_loop (fuel : nat) (input : bytes) (e : VersionEdit) : option (option bytes * VersionEdit) :=
  match fuel with
  | O => None
  | S fuel' =>
      match GetVarint32 input with
      | None => Some (match input with [] => None | _ => Some (str "invalid tag") end, e)
      | Some (tag, input) =>
          match decode_field tag input e with
          | inl msg => Some (Some msg, e)
          | inr (e, input) => decode_loop fuel' input e
          end
      end
  end.

Definition DecodeFrom (src : bytes) (e : VersionEdit) : option (Status * VersionEdit) :=
  '(msg, e) ← decode_loop (S (length src)) src (Clear e);
  Some (match msg with Some m => Corruption (str "VersionEdit") m | None => OK end, e).

(** ** Printing *)

Definition ParsedInternalKey_DebugString (k : ParsedInternalKey) : bytes :=
  str "'" ++ EscapeString (user_key k) ++ str "' @ " ++ dec (sequence k) ++ str " : " ++ dec (ValueType_code (type k)).

Definition InternalKey_DebugString (rep : bytes) : bytes :=
  match ParseInternalKey rep with
  | Some parsed => ParsedInternalKey_DebugString parsed
  | None => str "(bad)" ++ EscapeString rep
  end.

Definition newline : bytes := [10].

Definition VersionEdit_DebugString (e : VersionEdit) : bytes :=
  let r := str "VersionEdit {" in
  let r := if has_comparator_ e then r ++ newline ++ str "  Comparator: " ++ comparator_ e else r in
  let r := if has_log_number_ e then AppendNumberTo (r ++ newline ++ str "  LogNumber: ") (log_number_ e) else r in
  let r := if has_prev_log_number_ e then AppendNumberTo (r ++ newline ++ str "  PrevLogNumber: ") (prev_log_number_ e) else r in
  let r := if has_next_file_number_ e then AppendNumberTo (r ++ newline ++ str "  NextFile: ") (next_file_number_ e) else r in
  let r := if has_last_sequence_ e then AppendNumberTo (r ++ newline ++ str "  LastSeq: ") (last_sequence_ e) else r in
  let r := foldl (λ r p, AppendNumberTo (r ++ newline ++ str "  CompactPointer: ") p.1 ++ str " " ++ InternalKey_DebugString p.2) r (compact_pointers_ e) in
  let r := foldl (λ r p, AppendNumberTo (AppendNumberTo (r ++ newline ++ str "  DeleteFile: ") p.1 ++ str " ") p.2) r (deleted_files_ e) in
  let r := foldl (λ r (p : Z * FileMetaData),
    let r := AppendNumberTo (AppendNumberTo (r ++ newline ++ str "  AddFile: ") p.1 ++ str " ") (number p.2) in
    AppendNumberTo (r ++ str " ") (file_size p.2) ++ str " " ++ InternalKey_DebugString (smallest p.2) ++ str " .. " ++
      InternalKey_DebugString (largest p.2)) r (new_files_ e) in
  r ++ newline ++ str "}" ++ newline.

(** ** Well-formed edits *)

Definition level_ok (l : Z) : Prop := 0 <= l < kNumLevels.
Definition name_ok (s : bytes) : Prop := zlen s < 2 ^ 32.
Definition new_file_ok (f : FileMetaData) : Prop :=
  f = FileMetaData_make (number f) (file_size f) (smallest f) (largest f) ∧ is_u 64 (number f) ∧ is_u 64 (file_size f) ∧
  name_ok (smallest f) ∧ name_ok (largest f).

Record EditOk (e : VersionEdit) : Prop := {
  ok_comparator : name_ok (comparator_ e) ∧ (has_comparator_ e = false → comparator_ e = []);
  ok_log : is_u 64 (log_number_ e) ∧ (has_log_number_ e = false → log_number_ e = 0);
  ok_prev_log : is_u 64 (prev_log_number_ e) ∧ (has_prev_log_number_ e = false → prev_log_number_ e = 0);
  ok_next : is_u 64 (next_file_number_ e) ∧ (has_next_file_number_ e = false → next_file_number_ e = 0);
  ok_last : is_u 64 (last_sequence_ e) ∧ (has_last_sequence_ e = false → last_sequence_ e = 0);
  ok_pointers : Forall (λ p, level_ok p.1 ∧ name_ok p.2) (compact_pointers_ e);
  ok_deleted : Forall (λ p, level_ok p.1 ∧ is_u 64 p.2) (deleted_files_ e);
  ok_set : StronglySorted (λ a b, pair_lt a b = true) (deleted_files_ e);
  ok_new : Forall (λ p, level_ok p.1 ∧ new_file_ok p.2) (new_files_ e);
}.

(** The fields of an edit, in the order they are written. *)
Inductive Field :=
  | FComparator (s : bytes) | FLog (n : Z) | FPrevLog (n : Z) | FNext (n : Z) | FLast (n : Z)
  | FPointer (level : Z) (key : bytes) | FDeleted (level n : Z) | FNew (level n size : Z) (small large : bytes).

Definition field_bytes (f : Field) : bytes :=
  match f with
  | FComparator s => PutLengthPrefixedSlice (PutVarint32 [] kComparator) s
  | FLog n => PutVarint64 (PutVarint32 [] kLogNumber) n
  | FPrevLog n => PutVarint64 (PutVarint32 [] kPrevLogNumber) n
  | FNext n => PutVarint64 (PutVarint32 [] kNextFileNumber) n
  | FLast n => PutVarint64 (PutVarint32 [] kLastSequence) n
  | FPointer l k => PutLengthPrefixedSlice (PutVarint32 (PutVarint32 [] kCompactPointer) (u32 l)) k
  | FDeleted l n => PutVarint64 (PutVarint32 (PutVarint32 [] kDeletedFile) (u32 l)) n
  | FNew l n size small large =>
      PutLengthPrefixedSlice (PutLengthPrefixedSlice (PutVarint64 (PutVarint64 (PutVarint32 (PutVarint32 [] kNewFile) (u32 l)) n) size) small) large
  end.

Definition apply_field (e : VersionEdit) (f : Field) : VersionEdit :=
  match f with
  | FComparator s => SetComparatorName s e
  | FLog n => SetLogNumber n e
  | FPrevLog n => SetPrevLogNumber n e
  | FNext n => SetNextFile n e
  | FLast n => SetLastSequence n e
  | FPointer l k => SetCompactPointer l k e
  | FDeleted l n => DeleteFile l n e
  | FNew l n size small large => AddFile l n size small large e
  end.

Definition field_ok (f : Field) : Prop :=
  match f with
  | FComparator s => name_ok s
  | FLog n | FPrevLog n | FNext n | FLast n => is_u 64 n
  | FPointer l k => level_ok l ∧ name_ok k
  | FDeleted l n => level_ok l ∧ is_u 64 n
  | FNew l n size small large => level_ok l ∧ is_u 64 n ∧ is_u 64 size ∧ name_ok small ∧ name_ok large
  end.

Definition fields (e : VersionEdit) : list Field :=
  (if has_comparator_ e then [FComparator (comparator_ e)] else []) ++
  (if has_log_number_ e then [FLog (log_number_ e)] else []) ++
  (if has_prev_log_number_ e then [FPrevLog (prev_log_number_ e)] else []) ++
  (if has_next_file_number_ e then [FNext (next_file_number_ e)] else []) ++
  (if has_last_sequence_ e then [FLast (last_sequence_ e)] else []) ++
  ((λ p, FPointer p.1 p.2) <$> compact_pointers_ e) ++
  ((λ p, FDeleted p.1 p.2) <$> deleted_files_ e) ++
  ((λ p : Z * FileMetaData, FNew p.1 (number p.2) (file_size p.2) (smallest p.2) (largest p.2)) <$> new_files_ e).

Lemma foldl_put {A} (put : bytes → A → bytes) (enc : A → bytes) l : (∀ d x, put d x = d ++ enc x) →
  ∀ dst, foldl put dst l = dst ++ mjoin (enc <$> l).
Proof.
  intros H. induction l as [|x l IH]; intros dst; simpl; [by rewrite app_nil_r|]. by rewrite IH, H, <- app_assoc.
Qed.

(** Rewrites every [Put] to an append. *)
Ltac puts := unfold PutLengthPrefixedSlice, PutVarint32, PutVarint64; rewrite <- ?app_assoc; cbn [app].

Lemma EncodeTo_fields e dst : EncodeTo e dst = dst ++ mjoin (field_bytes <$> fields e).
Proof.
  unfold EncodeTo, fields.
  rewrite (foldl_put _ (λ p : Z * FileMetaData, field_bytes (FNew p.1 (number p.2) (file_size p.2) (smallest p.2) (largest p.2)))).
  2:{ intros d p. cbn [field_bytes]. by puts. }
  rewrite (foldl_put _ (λ p, field_bytes (FDeleted p.1 p.2))).
  2:{ intros d p. cbn [field_bytes]. by puts. }
  rewrite (foldl_put _ (λ p, field_bytes (FPointer p.1 p.2))).
  2:{ intros d p. cbn [field_bytes]. by puts. }
  rewrite !fmap_app, !join_app, <- !list_fmap_compose. rewrite !(app_assoc dst). rewrite !app_assoc.
  do 3 (apply (f_equal2 app); [|done]).
  destruct (has_comparator_ e), (has_log_number_ e), (has_prev_log_number_ e), (has_next_file_number_ e), (has_last_sequence_ e); cbn [fmap list_fmap mjoin list_join field_bytes]; puts; rewrite ?app_nil_r; by rewrite <- ?app_assoc.
Qed.

(** ** Decoding what was encoded *)

Lemma GetInternalKey_Put s rest : name_ok s → GetInternalKey (EncodeVarint32 (u32 (zlen s)) ++ s ++ rest) = Some (s, rest).
Proof.
  intros Hs. unfold GetInternalKey. pose proof (GetLengthPrefixedSlice_Put s rest Hs) as H.
  unfold PutLengthPrefixedSlice, PutVarint32 in H. cbn [app] in H. rewrite <- app_assoc in H. by rewrite H.
Qed.

Lemma GetLevel_Put l rest : level_ok l → GetLevel (EncodeVarint32 (u32 l) ++ rest) = Some (l, rest).
Proof.
  unfold level_ok, kNumLevels. intros Hl. unfold GetLevel. rewrite (u32_small l) by (unfold is_u; lia).
  rewrite GetVarint32_Encode by (unfold is_u; lia). cbn [mbind option_bind]. by rewrite (proj2 (Z.ltb_lt _ _)) by (unfold kNumLevels; lia).
Qed.

Definition field_tag (f : Field) : Z :=
  match f with
  | FComparator _ => kComparator | FLog _ => kLogNumber | FPrevLog _ => kPrevLogNumber | FNext _ => kNextFileNumber | FLast _ => kLastSequence
  | FPointer _ _ => kCompactPointer | FDeleted _ _ => kDeletedFile | FNew _ _ _ _ _ => kNewFile
  end.

(** A field decodes to its effect on the edit. *)
Lemma decode_field_ok f e rest : field_ok f → ∃ input,
  GetVarint32 (field_bytes f ++ rest) = Some (field_tag f, input) ∧ decode_field (field_tag f) input e = inr (apply_field e f, rest).
Proof.
  assert (Htag : ∀ t r, is_u 32 t → GetVarint32 (EncodeVarint32 t ++ r) = Some (t, r)) by (intros; by apply GetVarint32_Encode).
  intros Hf. destruct f; cbn [field_bytes field_tag field_ok] in *; puts; eexists; (split; [apply Htag; by_compute|]);
    unfold decode_field; cbn [Z.eqb]; cbv beta iota delta [kComparator kLogNumber kPrevLogNumber kNextFileNumber kLastSequence kCompactPointer kDeletedFile kNewFile Z.eqb Pos.eqb].
  all: repeat (first [rewrite GetLevel_Put by tauto | rewrite GetVarint64_Encode by tauto | rewrite GetInternalKey_Put by tauto];
    cbn [mbind option_bind]); done.
Qed.

Lemma decode_loop_fields fs : ∀ fuel e, Forall field_ok fs → (length fs < fuel)%nat →
  decode_loop fuel (mjoin (field_bytes <$> fs)) e = Some (None, foldl apply_field e fs).
Proof.
  induction fs as [|f fs IH]; intros fuel e Hok Hf; (destruct fuel as [|fuel]; [simpl in Hf; lia|]); [done|].
  apply Forall_cons in Hok as [Hf0 Hok]. change (mjoin (field_bytes <$> f :: fs)) with (field_bytes f ++ mjoin (field_bytes <$> fs)). cbn [decode_loop].
  destruct (decode_field_ok f e (mjoin (field_bytes <$> fs)) Hf0) as (input & -> & ->). apply IH; [done|simpl in Hf; lia].
Qed.

(** Inserting in order appends. *)
Lemma pair_lt_asym a b : pair_lt a b = true → pair_lt b a = false.
Proof. unfold pair_lt. destruct a as [a1 a2], b as [b1 b2]. simpl. lia. Qed.
Lemma pair_lt_trans a b c : pair_lt a b = true → pair_lt b c = true → pair_lt a c = true.
Proof. unfold pair_lt. destruct a, b, c. simpl. lia. Qed.
Lemma pair_lt_total a b : pair_lt a b = false → pair_lt b a = false → a = b.
Proof. unfold pair_lt. destruct a as [a1 a2], b as [b1 b2]. simpl. intros. f_equal; lia. Qed.

Lemma set_insert_last s x : Forall (λ y, pair_lt y x = true) s → set_insert x s = s ++ [x].
Proof.
  induction s as [|y s IH]; intros Hs; [done|]. apply Forall_cons in Hs as [Hy Hs]. simpl. by rewrite (pair_lt_asym y x Hy), Hy, IH.
Qed.

Lemma set_insert_elem x s y : y ∈ set_insert x s ↔ y = x ∨ y ∈ s.
Proof.
  induction s as [|z s IH]; simpl; [by rewrite list_elem_of_singleton, elem_of_nil; intuition|].
  destruct (pair_lt x z) eqn:E1; [by rewrite elem_of_cons|]. destruct (pair_lt z x) eqn:E2.
  - rewrite !elem_of_cons, IH. tauto.
  - rewrite (pair_lt_total x z E1 E2), elem_of_cons. tauto.
Qed.

Lemma set_insert_sorted x s : StronglySorted (λ a b, pair_lt a b = true) s → StronglySorted (λ a b, pair_lt a b = true) (set_insert x s).
Proof.
  induction 1 as [|y s Hs IH Hy]; simpl; [repeat constructor|]. destruct (pair_lt x y) eqn:E1.
  - constructor; [by constructor|]. constructor; [done|]. eapply Forall_impl; [exact Hy|]. intros z Hz. by apply (pair_lt_trans x y z).
  - destruct (pair_lt y x) eqn:E2; [|by constructor]. constructor; [done|]. rewrite Forall_forall in *.
    intros z [->|Hz]%set_insert_elem; auto.
Qed.

(** The edit the fields of [e] build from a cleared one. *)
Lemma apply_pointers ps : ∀ e, foldl apply_field e ((λ p, FPointer p.1 p.2) <$> ps) =
  with_lists (compact_pointers_ e ++ ps) (deleted_files_ e) (new_files_ e) e.
Proof.
  induction ps as [|[l k] ps IH]; intros e; simpl; [rewrite app_nil_r; by destruct e|]. rewrite IH. simpl. by rewrite <- app_assoc.
Qed.

Lemma apply_deleted ds : ∀ e, StronglySorted (λ a b, pair_lt a b = true) (deleted_files_ e ++ ds) →
  foldl apply_field e ((λ p, FDeleted p.1 p.2) <$> ds) = with_lists (compact_pointers_ e) (deleted_files_ e ++ ds) (new_files_ e) e.
Proof.
  induction ds as [|[l n] ds IH]; intros e Hs; cbn [fmap list_fmap foldl]; [rewrite app_nil_r; by destruct e|].
  assert (Hi : set_insert (l, n) (deleted_files_ e) = deleted_files_ e ++ [(l, n)]).
  { apply set_insert_last, Forall_forall. intros y Hy. apply (StronglySorted_app_1_elem_of _ _ _ _ _ Hs Hy). by left. }
  rewrite IH; cbn [apply_field DeleteFile deleted_files_ with_lists fst snd]; rewrite Hi; rewrite <- app_assoc; done.
Qed.

Lemma apply_new nf : ∀ e, Forall (λ p : Z * FileMetaData, p.2 = FileMetaData_make (number p.2) (file_size p.2) (smallest p.2) (largest p.2)) nf →
  foldl apply_field e ((λ p : Z * FileMetaData, FNew p.1 (number p.2) (file_size p.2) (smallest p.2) (largest p.2)) <$> nf) =
  with_lists (compact_pointers_ e) (deleted_files_ e) (new_files_ e ++ nf) e.
Proof.
  induction nf as [|[l f] nf IH]; intros e Hok; simpl; [rewrite app_nil_r; by destruct e|]. apply Forall_cons in Hok as [Hf Hok]. simpl in Hf.
  rewrite IH by done. simpl. by rewrite <- Hf, <- app_assoc.
Qed.

Lemma apply_fields e e0 : EditOk e → foldl apply_field (Clear e0) (fields e) =
  with_lists (compact_pointers_ e0 ++ compact_pointers_ e) (deleted_files_ e) (new_files_ e) e.
Proof.
  intros [[_ H1] [_ H2] [_ H3] [_ H4] [_ H5] _ _ Hset Hnew]. unfold fields. rewrite !foldl_app, apply_pointers, apply_deleted, apply_new.
  - destruct e as [c l p n s hc hl hp hn hs cp df nf]. cbn in *.
    destruct hc, hl, hp, hn, hs; cbn; rewrite ?H1, ?H2, ?H3, ?H4, ?H5 by done; done.
  - eapply Forall_impl; [exact Hnew|]. intros p (_ & H & _). exact H.
  - destruct (has_comparator_ e), (has_log_number_ e), (has_prev_log_number_ e), (has_next_file_number_ e), (has_last_sequence_ e); exact Hset.
Qed.

Lemma fields_ok e : EditOk e → Forall field_ok (fields e).
Proof.
  intros [[? _] [? _] [? _] [? _] [? _] Hp Hd _ Hn]. unfold fields. rewrite !Forall_app, !Forall_fmap.
  split_and!; try (case_match; [by apply Forall_singleton|by constructor]); [done|done|]. eapply Forall_impl; [exact Hn|]. intros p (? & _ & ?). done.
Qed.

(** ** Decoding anything *)

Lemma apply_field_ok e f : EditOk e → field_ok f → EditOk (apply_field e f).
Proof.
  intros He Hf. pose proof He as [[? ?] [? ?] [? ?] [? ?] [? ?] Hp Hd Hs Hn].
  destruct f; simpl in Hf; split; simpl; try done.
  - apply Forall_app. split; [done|]. by apply Forall_singleton.
  - rewrite Forall_forall in *. intros y [->|Hy]%set_insert_elem; [done|by apply Hd].
  - by apply set_insert_sorted.
  - apply Forall_app. split; [done|]. apply Forall_singleton. unfold new_file_ok. simpl. tauto.
Qed.

Lemma Clear_ok e : EditOk e → EditOk (Clear e).
Proof. intros [_ _ _ _ _ Hp _ _ _]. split; simpl; try done; try (split; [by_compute|done]). constructor. Qed.

(** A suffix that is shorter. *)
Definition rest_of (rest input : bytes) : Prop := ∃ pre, input = pre ++ rest.
Lemma rest_of_trans a b c : rest_of a b → rest_of b c → rest_of a c.
Proof. intros [p ->] [q ->]. exists (q ++ p). by rewrite app_assoc. Qed.
Lemma rest_of_ok rest input : rest_of rest input → bytes_ok input → bytes_ok rest ∧ zlen rest <= zlen input.
Proof. intros [p ->] H. apply bytes_ok_app in H as [_ ?]. rewrite zlen_app. pose proof (zlen_nonneg p). split; [done|lia]. Qed.

Lemma GetVarint64_rest p v rest : GetVarint64 p = Some (v, rest) → is_u 64 v ∧ rest_of rest p.
Proof. intros (? & pre & -> & _)%GetVarint64_sound. split; [done|by exists pre]. Qed.
Lemma GetInternalKey_rest p s rest : bytes_ok p → zlen p < 2 ^ 32 → GetInternalKey p = Some (s, rest) → name_ok s ∧ rest_of rest p.
Proof.
  intros Hp Hz. unfold GetInternalKey. destruct (GetLengthPrefixedSlice p) as [[s'|] r] eqn:E; [|done]. intros [= <- <-].
  apply GetLengthPrefixedSlice_sound in E as (pre & -> & _); [|done]. split; [|exists (pre ++ s'); by rewrite app_assoc].
  unfold name_ok. rewrite !zlen_app in Hz. pose proof (zlen_nonneg pre). pose proof (zlen_nonneg r). lia.
Qed.
Lemma GetLevel_rest p l rest : bytes_ok p → GetLevel p = Some (l, rest) → level_ok l ∧ rest_of rest p.
Proof.
  intros Hp. unfold GetLevel. destruct (GetVarint32 p) as [[v r]|] eqn:E; [|done]. cbn [mbind option_bind].
  destruct (Z.ltb_spec v kNumLevels); [|done]. intros [= <- <-]. apply GetVarint32_sound in E as (Hv & pre & -> & _); [|done].
  unfold is_u in Hv. split; [unfold level_ok; lia|by exists pre].
Qed.

(** Steps through the parsers of a field, keeping what each says. *)
Ltac parse_step :=
  match goal with
  | |- context [GetVarint64 ?p ≫= _] =>
      let E := fresh "E" in destruct (GetVarint64 p) as [[? ?]|] eqn:E; [|done]; apply GetVarint64_rest in E as [? ?]; cbn [mbind option_bind]
  | |- context [GetLevel ?p ≫= _] =>
      let E := fresh "E" in destruct (GetLevel p) as [[? ?]|] eqn:E; [|done]; apply GetLevel_rest in E as [? ?]; [|done]; cbn [mbind option_bind]
  | |- context [GetInternalKey ?p ≫= _] =>
      let E := fresh "E" in destruct (GetInternalKey p) as [[? ?]|] eqn:E; [|done]; apply GetInternalKey_rest in E as [? ?]; [|done|lia]; cbn [mbind option_bind]
  | H : rest_of ?r ?p, Hp : bytes_ok ?p |- _ =>
      lazymatch goal with _ : bytes_ok r |- _ => fail | _ => destruct (rest_of_ok r p H Hp) end
  end.

Lemma decode_field_sound tag input e e' rest : bytes_ok input → zlen input < 2 ^ 32 → decode_field tag input e = inr (e', rest) →
  ∃ f, field_ok f ∧ e' = apply_field e f ∧ rest_of rest input.
Proof.
  intros Hok Hz. unfold decode_field.
  destruct (tag =? kComparator).
  { repeat parse_step. intros [= <- <-]. eexists (FComparator _). split_and!; [done|done|eauto using rest_of_trans]. }
  destruct (tag =? kLogNumber).
  { repeat parse_step. intros [= <- <-]. eexists (FLog _). split_and!; [done|done|eauto using rest_of_trans]. }
  destruct (tag =? kPrevLogNumber).
  { repeat parse_step. intros [= <- <-]. eexists (FPrevLog _). split_and!; [done|done|eauto using rest_of_trans]. }
  destruct (tag =? kNextFileNumber).
  { repeat parse_step. intros [= <- <-]. eexists (FNext _). split_and!; [done|done|eauto using rest_of_trans]. }
  destruct (tag =? kLastSequence).
  { repeat parse_step. intros [= <- <-]. eexists (FLast _). split_and!; [done|done|eauto using rest_of_trans]. }
  destruct (tag =? kCompactPointer).
  { repeat parse_step. intros [= <- <-]. eexists (FPointer _ _). split_and!; [by split|done|eauto using rest_of_trans]. }
  destruct (tag =? kDeletedFile).
  { repeat parse_step. intros [= <- <-]. eexists (FDeleted _ _). split_and!; [by split|done|eauto using rest_of_trans]. }
  destruct (tag =? kNewFile); [|done].
  repeat parse_step. intros [= <- <-]. match goal with |- context [AddFile ?l ?n ?z ?a ?b e] => exists (FNew l n z a b) end.
  split_and!; [by split_and!|done|eauto 6 using rest_of_trans].
Qed.

Lemma decode_loop_sound fuel : ∀ input e, bytes_ok input → zlen input < 2 ^ 32 → (length input < fuel)%nat → EditOk e →
  ∃ msg e', decode_loop fuel input e = Some (msg, e') ∧ EditOk e'.
Proof.
  induction fuel as [|fuel IH]; intros input e Hok Hz Hf He; [lia|]. cbn [decode_loop].
  destruct (GetVarint32 input) as [[tag input1]|] eqn:E; [|by do 2 eexists].
  apply GetVarint32_sound in E as (_ & pre & -> & Hpre); [|done]. apply bytes_ok_app in Hok as [_ Hok1]. rewrite zlen_app in Hz.
  rewrite length_app in Hf. pose proof (zlen_nonneg pre). destruct (decode_field tag input1 e) as [msg|[e' rest]] eqn:E; [by do 2 eexists|].
  apply decode_field_sound in E as (f & Hfo & -> & Hr); [|done|lia]. destruct (rest_of_ok _ _ Hr Hok1).
  apply IH; [done|lia|unfold zlen in *; lia|by apply apply_field_ok].
Qed.

Lemma EncodeVarint32_positive t : is_u 32 t → (1 <= length (EncodeVarint32 t))%nat.
Proof.
  intros Ht. destruct (EncodeVarint32 t) eqn:E; [|simpl; lia]. rewrite EncodeVarint32_64 in E by done. by apply EncodeVarint64_nonempty in E.
Qed.

Lemma field_bytes_tag f : ∃ rest, field_bytes f = EncodeVarint32 (field_tag f) ++ rest.
Proof. destruct f; cbn [field_bytes field_tag]; puts; by eexists. Qed.

Lemma fields_length fs : (length fs <= length (mjoin (field_bytes <$> fs)))%nat.
Proof.
  induction fs as [|f fs IH]; [done|]. change (mjoin (field_bytes <$> f :: fs)) with (field_bytes f ++ mjoin (field_bytes <$> fs)).
  rewrite length_app. destruct (field_bytes_tag f) as [rest ->]. rewrite length_app. cbn [length].
  assert (H : is_u 32 (field_tag f)) by (destruct f; by_compute). pose proof (EncodeVarint32_positive (field_tag f) H). lia.
Qed.

(** ** Properties *)

Lemma DecodeFrom_EncodeTo e e0 : EditOk e →
  DecodeFrom (EncodeTo e []) e0 = Some (OK, with_lists (compact_pointers_ e0 ++ compact_pointers_ e) (deleted_files_ e) (new_files_ e) e).
Proof.
  intros He. unfold DecodeFrom. rewrite EncodeTo_fields. cbn [app]. rewrite decode_loop_fields; [|by apply fields_ok|].
  - cbn [mbind option_bind]. by rewrite apply_fields.
  - pose proof (fields_length (fields e)). lia.
Qed.

Lemma DecodeFrom_make e : EditOk e → DecodeFrom (EncodeTo e []) VersionEdit_make = Some (OK, e).
Proof. intros He. rewrite DecodeFrom_EncodeTo by done. by destruct e. Qed.

(** Manifest records read back: an edit built by the setters, encoded and decoded into
    a fresh edit, gives the same edit.  Decoded into a used edit, the compaction pointers
    of the old edit stay in front, since [Clear] keeps them. *)
Theorem version_edit_roundtrip (e e0 : VersionEdit) :
  EditOk e →
  DecodeFrom (EncodeTo e []) VersionEdit_make = Some (OK, e) ∧
  DecodeFrom (EncodeTo e []) e0 =
    Some (OK, with_lists (compact_pointers_ e0 ++ compact_pointers_ e) (deleted_files_ e) (new_files_ e) e).
Proof. intros He. split; [by apply DecodeFrom_make|by apply DecodeFrom_EncodeTo]. Qed.

Definition sample_edit : VersionEdit :=
  AddFile 2 12 4096 (InternalKey [97] 5 kTypeValue) (InternalKey [98] 3 kTypeDeletion)
    (DeleteFile 1 7 (DeleteFile 1 3 (SetCompactPointer 1 [1; 2; 3] (SetLastSequence 300 (SetLogNumber 9 VersionEdit_make))))).

Lemma sample_edit_ok : EditOk sample_edit.
Proof. split; simpl; unfold new_file_ok, level_ok, name_ok, is_u, kNumLevels; repeat constructor; try done. Qed.

Lemma version_edit_roundtrip_witness : DecodeFrom (EncodeTo sample_edit []) VersionEdit_make = Some (OK, sample_edit).
Proof. apply (version_edit_roundtrip sample_edit VersionEdit_make sample_edit_ok). Defined.

(** [C40] Edits stay well formed: the setters keep numbers in 64 bits, levels below seven and
    the deleted files a sorted set without duplicates, and decoding any bytes into an edit
    ends, with an edit that is well formed even when it reports an error. *)
Theorem version_edit_well_formed :
  EditOk VersionEdit_make ∧
  (∀ e, EditOk e → EditOk (Clear e)) ∧
  (∀ e s, EditOk e → name_ok s → EditOk (SetComparatorName s e)) ∧
  (∀ e n, EditOk e → is_u 64 n → EditOk (SetLogNumber n e) ∧ EditOk (SetPrevLogNumber n e) ∧ EditOk (SetNextFile n e) ∧ EditOk (SetLastSequence n e)) ∧
  (∀ e l k, EditOk e → level_ok l → name_ok k → EditOk (SetCompactPointer l k e)) ∧
  (∀ e l n, EditOk e → level_ok l → is_u 64 n → EditOk (DeleteFile l n e)) ∧
  (∀ e l n size small large, EditOk e → level_ok l → is_u 64 n → is_u 64 size → name_ok small → name_ok large →
     EditOk (AddFile l n size small large e)) ∧
  (∀ e src, EditOk e → bytes_ok src → zlen src < 2 ^ 32 → ∃ s e', DecodeFrom src e = Some (s, e') ∧ EditOk e').
Proof.
  split_and!.
  - apply (Clear_ok VersionEdit_make). split; simpl; try done; try (split; [by_compute|done]); constructor.
  - apply Clear_ok.
  - intros e s He Hs. by apply (apply_field_ok e (FComparator s)).
  - intros e n He Hn. split_and!; [by apply (apply_field_ok e (FLog n))|by apply (apply_field_ok e (FPrevLog n))|
      by apply (apply_field_ok e (FNext n))|by apply (apply_field_ok e (FLast n))].
  - intros e l k He Hl Hk. by apply (apply_field_ok e (FPointer l k)).
  - intros e l n He Hl Hn. by apply (apply_field_ok e (FDeleted l n)).
  - intros e l n size small large He Hl Hn Hs H1 H2. by apply (apply_field_ok e (FNew l n size small large)).
  - intros e src He Hok Hz. unfold DecodeFrom.
    destruct (decode_loop_sound (S (length src)) src (Clear e)) as (msg & e' & -> & He'); [done|done|lia|by apply Clear_ok|].
    cbn [mbind option_bind]. by do 2 eexists.
Qed.
