(* ===== verification/Cache.v ===== *)
(** * The LRU cache

    Model of [App/integration/cache.h] and [cache.cpp].  [Cache] is the abstract class and
    [CacheOk] what its comments promise; [ShardedLRUCache] is shown to keep the promise.

    Each shard keeps its handles in a store of its own: a handle is the hash in the
    entry it points to, with the index of that entry.  The circular list [lru_] is the list
    of the indices from [lru_.next], the oldest entry, on; a bucket of the hash table is the
    list of the indices its [next_hash] pointers link.  [free] removes an entry from the
    store, so using it afterwards is [None], as is a failed assertion.  The calls of the
    deleters are recorded in order. *)
From S2P Require Import Prelude Comparator Filter.
From stdpp Require Import gmap list.

#[local] Open Scope Z_scope.
#[local] Open Scope word_scope.

(** ** The interface *)

Class Cache (C H V : Type) := {
  Cache_Insert : bytes → V → Z → C → option (H * C);
  Cache_Lookup : bytes → C → option (option H * C);
  Cache_Release : H → C → option C;
  Cache_Value : H → C → option V;
  Cache_Erase : bytes → C → option C;
}.
#[export] Hint Mode Cache ! - - : typeclass_instances.

(** [CacheInv c hs M]: the handles not yet released are [hs], with the values they stand
    for, and every mapping a lookup can find is in [M]. *)
Class CacheOk {C H V : Type} `{!Cache C H V} (CacheInv : C → list (H * V) → (bytes → V → Prop) → Prop) : Prop := {
  CacheInv_perm c hs hs' M : hs ≡ₚ hs' → CacheInv c hs M → CacheInv c hs' M;
  CacheInv_weaken c hs (M M' : bytes → V → Prop) : (∀ k v, M k v → M' k v) → CacheInv c hs M → CacheInv c hs M';
  Insert_ok c hs M k v charge : 1 <= charge < 2 ^ 32 → zlen hs < 2 ^ 31 → CacheInv c hs M →
    ∃ h c', Cache_Insert k v charge c = Some (h, c') ∧
      CacheInv c' ((h, v) :: hs) (λ k' v', (k' = k ∧ v' = v) ∨ (k' ≠ k ∧ M k' v'));
  Lookup_ok c hs M k : zlen hs < 2 ^ 31 → CacheInv c hs M →
    ∃ o c', Cache_Lookup k c = Some (o, c') ∧
      match o with
      | None => CacheInv c' hs M
      | Some h => ∃ v, M k v ∧ CacheInv c' ((h, v) :: hs) M
      end;
  Release_ok c hs M h v : CacheInv c ((h, v) :: hs) M → ∃ c', Cache_Release h c = Some c' ∧ CacheInv c' hs M;
  Value_ok c hs M h v : CacheInv c hs M → (h, v) ∈ hs → Cache_Value h c = Some v;
  Erase_ok c hs M k : CacheInv c hs M →
    ∃ c', Cache_Erase k c = Some c' ∧ CacheInv c' hs (λ k' v, k' ≠ k ∧ M k' v);
}.

Section LRU.
Context {V : Type}.

(** ** Entries and the hash table *)

Record LRUHandle := {
  h_value : V;
  h_charge : Z;
  h_refs : Z;
  h_hash : Z;
  h_key : bytes;
}.
Abbreviation heap := (gmap nat LRUHandle).

Record HandleTable := { length_ : Z; elems_ : Z; list_ : list (list nat) }.

(** The chain entry that stops the walk of [FindPointer]. *)
Definition matches (cells : heap) (k : bytes) (hash : Z) (e : nat) : bool :=
  match cells !! e with
  | Some h => (h_hash h =? hash) && Slice_eqb k (h_key h)
  | None => false
  end.

(** The position of the slot in its chain: that of the matching entry, or the end. *)
Fixpoint slot_in (cells : heap) (k : bytes) (hash : Z) (chain : list nat) : nat :=
  match chain with
  | [] => 0
  | e :: chain' => if matches cells k hash e then 0 else S (slot_in cells k hash chain')
  end.

Definition FindPointer (cells : heap) (k : bytes) (hash : Z) (t : HandleTable) : option (nat * nat) :=
  let b := Z.to_nat (hash .& u32 (length_ t - 1)) in
  chain ← list_ t !! b;
  Some (b, slot_in cells k hash chain).

(** What a slot points to. *)
Definition deref (t : HandleTable) (ptr : nat * nat) : option nat := list_ t !! ptr.1 ≫= λ chain, chain !! ptr.2.

Definition Table_Lookup (cells : heap) (k : bytes) (hash : Z) (t : HandleTable) : option (option nat) :=
  ptr ← FindPointer cells k hash t; Some (deref t ptr).

Fixpoint new_length_loop (fuel : nat) (elems new_length : Z) : option Z :=
  match fuel with
  | O => None
  | S fuel => if new_length <? elems then new_length_loop fuel elems (u32 (new_length * 2)) else Some new_length
  end.

(** One step of the rehash: the entry goes to the front of its new chain. *)
Definition rehash_step (cells : heap) (new_length : Z) (st : option (list (list nat) * Z)) (e : nat) :
    option (list (list nat) * Z) :=
  '(new_list, count) ← st;
  h ← cells !! e;
  let b := Z.to_nat (h_hash h .& u32 (new_length - 1)) in
  chain ← new_list !! b;
  Some (<[b := e :: chain]> new_list, count + 1).

Definition Resize (cells : heap) (t : HandleTable) : option HandleTable :=
  new_length ← new_length_loop 32 (elems_ t) 4;
  '(new_list, count) ← foldl (rehash_step cells new_length) (Some (replicate (Z.to_nat new_length) [], 0)) (mjoin (list_ t));
  if elems_ t =? count then Some {| length_ := new_length; elems_ := elems_ t; list_ := new_list |} else None.

Definition HandleTable_make : option HandleTable := Resize ∅ {| length_ := 0; elems_ := 0; list_ := [] |}.

(** The entry replaced, if any. *)
Definition Table_Insert (cells : heap) (e : nat) (t : HandleTable) : option (option nat * HandleTable) :=
  h ← cells !! e;
  ptr ← FindPointer cells (h_key h) (h_hash h) t;
  chain ← list_ t !! ptr.1;
  match chain !! ptr.2 with
  | Some old => Some (Some old, {| length_ := length_ t; elems_ := elems_ t; list_ := <[ptr.1 := <[ptr.2 := e]> chain]> (list_ t) |})
  | None =>
      let t := {| length_ := length_ t; elems_ := u32 (elems_ t + 1); list_ := <[ptr.1 := chain ++ [e]]> (list_ t) |} in
      t ← (if elems_ t >? length_ t then Resize cells t else Some t);
      Some (None, t)
  end.

Definition Table_Remove (cells : heap) (k : bytes) (hash : Z) (t : HandleTable) : option (option nat * HandleTable) :=
  ptr ← FindPointer cells k hash t;
  chain ← list_ t !! ptr.1;
  match chain !! ptr.2 with
  | Some e => Some (Some e, {| length_ := length_ t; elems_ := u32 (elems_ t - 1); list_ := <[ptr.1 := delete ptr.2 chain]> (list_ t) |})
  | None => Some (None, t)
  end.

(** ** One shard *)

Record LRUCache := {
  capacity_ : Z;
  usage_ : Z;
  lru_ : list nat;
  table_ : HandleTable;
  cells_ : heap;
  fresh_ : nat;                      (** the next index [malloc] returns *)
  deleted_ : list (bytes * V);       (** the calls of deleters *)
}.

Definition LRUCache_make (capacity : Z) : option LRUCache :=
  t ← HandleTable_make;
  Some {| capacity_ := capacity; usage_ := 0; lru_ := []; table_ := t; cells_ := ∅; fresh_ := 0; deleted_ := [] |}.

Definition with_lru (l : list nat) (c : LRUCache) : LRUCache :=
  {| capacity_ := capacity_ c; usage_ := usage_ c; lru_ := l; table_ := table_ c; cells_ := cells_ c; fresh_ := fresh_ c; deleted_ := deleted_ c |}.
Definition with_table (t : HandleTable) (c : LRUCache) : LRUCache :=
  {| capacity_ := capacity_ c; usage_ := usage_ c; lru_ := lru_ c; table_ := t; cells_ := cells_ c; fresh_ := fresh_ c; deleted_ := deleted_ c |}.

Definition with_refs (r : Z) (h : LRUHandle) : LRUHandle :=
  {| h_value := h_value h; h_charge := h_charge h; h_refs := r; h_hash := h_hash h; h_key := h_key h |}.

Definition Unref (e : nat) (c : LRUCache) : option LRUCache :=
  h ← cells_ c !! e;
  if h_refs h >? 0 then
    let r := h_refs h - 1 in
    if r <=? 0 then
      Some {| capacity_ := capacity_ c; usage_ := u64 (usage_ c - h_charge h); lru_ := lru_ c; table_ := table_ c;
              cells_ := delete e (cells_ c); fresh_ := fresh_ c; deleted_ := deleted_ c ++ [(h_key h, h_value h)] |}
    else
      Some {| capacity_ := capacity_ c; usage_ := usage_ c; lru_ := lru_ c; table_ := table_ c;
              cells_ := <[e := with_refs r h]> (cells_ c); fresh_ := fresh_ c; deleted_ := deleted_ c |}
  else None.

(** Unlinking an entry that is not in the list would corrupt it. *)
Definition LRU_Remove (e : nat) (c : LRUCache) : option LRUCache :=
  if decide (e ∈ lru_ c) then Some (with_lru (filter (λ x, x ≠ e) (lru_ c)) c) else None.

Definition LRU_Append (e : nat) (c : LRUCache) : LRUCache := with_lru (lru_ c ++ [e]) c.

Definition LRU_Lookup (k : bytes) (hash : Z) (c : LRUCache) : option (option nat * LRUCache) :=
  found ← Table_Lookup (cells_ c) k hash (table_ c);
  match found with
  | None => Some (None, c)
  | Some e =>
      h ← cells_ c !! e;
      let c := {| capacity_ := capacity_ c; usage_ := usage_ c; lru_ := lru_ c; table_ := table_ c;
                  cells_ := <[e := with_refs (u32 (h_refs h + 1)) h]> (cells_ c); fresh_ := fresh_ c; deleted_ := deleted_ c |} in
      c ← LRU_Remove e c;
      Some (Some e, LRU_Append e c)
  end.

Definition LRU_Release (e : nat) (c : LRUCache) : option LRUCache := Unref e c.

(** The entry is out of the hash table; it leaves the list and loses a reference. *)
Definition unlink_entry (e : nat) (c : LRUCache) : option LRUCache := c ← LRU_Remove e c; Unref e c.

Fixpoint evict_loop (fuel : nat) (c : LRUCache) : option LRUCache :=
  match fuel with
  | O => None
  | S fuel =>
      if usage_ c >? capacity_ c then
        match lru_ c with
        | [] => Some c
        | old :: _ =>
            c ← LRU_Remove old c;
            h ← cells_ c !! old;
            '(_, t) ← Table_Remove (cells_ c) (h_key h) (h_hash h) (table_ c);
            c ← Unref old (with_table t c);
            evict_loop fuel c
        end
      else Some c
  end.

Definition LRU_Insert (k : bytes) (hash : Z) (v : V) (charge : Z) (c : LRUCache) : option (nat * LRUCache) :=
  let e := fresh_ c in
  let c := {| capacity_ := capacity_ c; usage_ := usage_ c; lru_ := lru_ c; table_ := table_ c;
              cells_ := <[e := {| h_value := v; h_charge := charge; h_refs := 2; h_hash := hash; h_key := k |}]> (cells_ c);
              fresh_ := S (fresh_ c); deleted_ := deleted_ c |} in
  let c := LRU_Append e c in
  let c := {| capacity_ := capacity_ c; usage_ := u64 (usage_ c + charge); lru_ := lru_ c; table_ := table_ c;
              cells_ := cells_ c; fresh_ := fresh_ c; deleted_ := deleted_ c |} in
  '(old, t) ← Table_Insert (cells_ c) e (table_ c);
  let c := with_table t c in
  c ← match old with Some old => unlink_entry old c | None => Some c end;
  c ← evict_loop (S (length (lru_ c))) c;
  Some (e, c).

Definition LRU_Erase (k : bytes) (hash : Z) (c : LRUCache) : option LRUCache :=
  '(found, t) ← Table_Remove (cells_ c) k hash (table_ c);
  let c := with_table t c in
  match found with Some e => unlink_entry e c | None => Some c end.

(** ** The sharded cache *)

Definition kNumShardBits : Z := 4.
Definition kNumShards : Z := 1 .<< kNumShardBits.

Record ShardedLRUCache := { shard_ : list LRUCache; last_id_ : Z }.

Definition HashSlice (s : bytes) : Z := Hash s 0.
Definition Shard (hash : Z) : Z := hash .>> (32 - kNumShardBits).

(** The index into [shard_]. *)
Definition shard_index (hash : Z) : nat := Z.to_nat (Shard hash).

Definition NewLRUCache (capacity : Z) : option ShardedLRUCache :=
  let per_shard := u64 (capacity + (kNumShards - 1)) / kNumShards in
  c ← LRUCache_make per_shard;
  Some {| shard_ := replicate (Z.to_nat kNumShards) c; last_id_ := 0 |}.

(** Runs an operation on the shard of a hash. *)
Definition on_shard {A} (hash : Z) (op : LRUCache → option (A * LRUCache)) (s : ShardedLRUCache) : option (A * ShardedLRUCache) :=
  let i := shard_index hash in
  c ← shard_ s !! i;
  '(a, c) ← op c;
  Some (a, {| shard_ := <[i := c]> (shard_ s); last_id_ := last_id_ s |}).

Record Handle := { handle_hash : Z; handle_entry : nat }.

Definition Sharded_Insert (k : bytes) (v : V) (charge : Z) (s : ShardedLRUCache) : option (Handle * ShardedLRUCache) :=
  let hash := HashSlice k in
  '(e, s) ← on_shard hash (LRU_Insert k hash v charge) s;
  Some ({| handle_hash := hash; handle_entry := e |}, s).

Definition Sharded_Lookup (k : bytes) (s : ShardedLRUCache) : option (option Handle * ShardedLRUCache) :=
  let hash := HashSlice k in
  '(o, s) ← on_shard hash (LRU_Lookup k hash) s;
  Some (option_map (λ e, {| handle_hash := hash; handle_entry := e |}) o, s).

Definition Sharded_Release (h : Handle) (s : ShardedLRUCache) : option ShardedLRUCache :=
  '(_, s) ← on_shard (handle_hash h) (λ c, c ← LRU_Release (handle_entry h) c; Some (tt, c)) s;
  Some s.

Definition Sharded_Value (h : Handle) (s : ShardedLRUCache) : option V :=
  c ← shard_ s !! shard_index (handle_hash h);
  e ← cells_ c !! handle_entry h;
  Some (h_value e).

Definition Sharded_Erase (k : bytes) (s : ShardedLRUCache) : option ShardedLRUCache :=
  let hash := HashSlice k in
  '(_, s) ← on_shard hash (λ c, c ← LRU_Erase k hash c; Some (tt, c)) s;
  Some s.

#[export] Instance ShardedLRUCache_Cache : Cache ShardedLRUCache Handle V := {
  Cache_Insert := Sharded_Insert;
  Cache_Lookup := Sharded_Lookup;
  Cache_Release := Sharded_Release;
  Cache_Value := Sharded_Value;
  Cache_Erase := Sharded_Erase;
}.

Definition NewId (s : ShardedLRUCache) : Z * ShardedLRUCache :=
  let id := u64 (last_id_ s + 1) in (id, {| shard_ := shard_ s; last_id_ := id |}).

(** ** The hash table as a set of entries *)

(** The chain of a hash, in a table of [n] chains. *)
Definition bucket (n hash : Z) : nat := Z.to_nat (hash .& (n - 1)).

(** [t] holds exactly the entries [ids], each in the chain of its hash, no two with the
    same key. *)
Record TableOk (cells : heap) (t : HandleTable) (ids : list nat) : Prop := {
  tbl_length : ∃ k, 2 <= k <= 31 ∧ length_ t = 2 ^ k ∧ zlen (list_ t) = 2 ^ k;
  tbl_elems : elems_ t = zlen ids;
  tbl_ids : mjoin (list_ t) ≡ₚ ids;
  tbl_nodup : NoDup ids;
  tbl_cells e : e ∈ ids → ∃ h, cells !! e = Some h ∧ h_hash h = HashSlice (h_key h);
  tbl_home b chain e h : list_ t !! b = Some chain → e ∈ chain → cells !! e = Some h → b = bucket (length_ t) (h_hash h);
  tbl_keys e e' h h' : e ∈ ids → e' ∈ ids → cells !! e = Some h → cells !! e' = Some h' → h_key h = h_key h' → e = e';
}.

Lemma mjoin_insert_perm {A} (ls : list (list A)) b chain chain' : ls !! b = Some chain →
  mjoin (<[b := chain']> ls) ++ chain ≡ₚ mjoin ls ++ chain'.
Proof.
  intros H. rewrite <- (take_drop_middle ls b chain H) at 2. rewrite insert_take_drop by (by eapply lookup_lt_Some).
  rewrite !join_app. cbn [mjoin list_join]. solve_Permutation.
Qed.

Lemma mjoin_replicate_nil {A} n : mjoin (replicate n ([] : list A)) = [].
Proof. induction n as [|n IH]; [done|]. exact IH. Qed.

Lemma filter_ne_id (e : nat) (l : list nat) : e ∉ l → filter (λ x, x ≠ e) l = l.
Proof.
  induction l as [|x l IH]; intros He; [done|]. apply not_elem_of_cons in He as [Hx Hl].
  rewrite filter_cons, decide_True by congruence. by rewrite IH.
Qed.
Lemma filter_ne_perm (e : nat) (l : list nat) : NoDup l → e ∈ l → l ≡ₚ e :: filter (λ x, x ≠ e) l.
Proof.
  induction 1 as [|x l Hx Hn IH]; intros He; [by apply not_elem_of_nil in He|]. rewrite filter_cons.
  apply elem_of_cons in He as [->|He].
  - rewrite decide_False by (intros H; by apply H). by rewrite filter_ne_id.
  - rewrite decide_True by (intros ->; done). rewrite (IH He) at 1. apply Permutation_swap.
Qed.

Lemma xor_shift_u32 h n : is_u 32 h → 0 <= n → is_u 32 (h .^ (h .>> n)).
Proof. intros Hh Hn. apply is_u_lxor; [lia|done|by apply is_u_shiftr]. Qed.
Lemma hash_words_u32 fuel : ∀ data h, is_u 32 h → is_u 32 (hash_words fuel data h).2.
Proof.
  induction fuel as [|fuel IH]; intros data h Hh; [done|]. cbn [hash_words].
  destruct (4 <=? zlen data); [|done]. apply IH, xor_shift_u32; [apply u32_range|lia].
Qed.
Lemma hash_tail_u32 data h : is_u 32 h → is_u 32 (hash_tail data h).
Proof.
  intros Hh. unfold hash_tail. repeat case_decide; auto with lpad; apply xor_shift_u32; auto with lpad; unfold hash_r; lia.
Qed.
Lemma HashSlice_u32 k : is_u 32 (HashSlice k).
Proof.
  unfold HashSlice, Hash. pose proof (hash_words_u32 (length k) k (u32 (0 .^ (zlen k * hash_m))) (u32_range _)) as H.
  destruct (hash_words _ _ _) as [rest h]. by apply hash_tail_u32.
Qed.

Lemma bucket_lt n hash : 0 <= n → is_u 32 hash → (bucket (2 ^ n) hash < Z.to_nat (2 ^ n))%nat.
Proof.
  intros Hn Hh. unfold bucket. rewrite Z.sub_1_r, <- Z.ones_equiv, Z.land_ones by lia.
  pose proof (Z.mod_pos_bound hash (2 ^ n)) as H. lia.
Qed.

Lemma slot_in_spec cells k hash chain :
  (slot_in cells k hash chain = length chain ∧ ∀ e, e ∈ chain → matches cells k hash e = false) ∨
  ∃ e, chain !! slot_in cells k hash chain = Some e ∧ matches cells k hash e = true.
Proof.
  induction chain as [|x chain IH]; simpl; [left; split; [done|by intros e ?%not_elem_of_nil]|].
  destruct (matches cells k hash x) eqn:E; [right; by exists x|].
  destruct IH as [[-> H]|(e & He & Hm)]; [left|right; by exists e]. split; [done|].
  intros e [->|He]%elem_of_cons; [done|by apply H].
Qed.

Lemma matches_spec cells k e h : cells !! e = Some h → h_hash h = HashSlice (h_key h) →
  matches cells k (HashSlice k) e = bool_decide (h_key h = k).
Proof.
  intros He Hh. unfold matches. rewrite He, Hh. apply eq_true_iff_eq.
  rewrite andb_true_iff, Z.eqb_eq, Slice_eqb_eq, bool_decide_eq_true. split; [by intros [_ <-]|by intros ->].
Qed.

Section Table.
Context {cells : heap} {t : HandleTable} {ids : list nat} (Ht : TableOk cells t ids).

Lemma tbl_mask : ∃ k, 2 <= k <= 31 ∧ length_ t = 2 ^ k ∧ zlen (list_ t) = 2 ^ k ∧ u32 (length_ t - 1) = length_ t - 1.
Proof using Ht.
  destruct (tbl_length _ _ _ Ht) as (k & Hk & E & E'). exists k. split_and!; [lia|lia|done|done|].
  rewrite E. apply u32_small. unfold is_u.
  pose proof (Z.pow_pos_nonneg 2 k). pose proof (Z.pow_le_mono_r 2 k 31). lia.
Qed.

Lemma tbl_elem b chain e : list_ t !! b = Some chain → e ∈ chain → e ∈ ids.
Proof using Ht.
  intros Hb He. rewrite <- (tbl_ids _ _ _ Ht). apply list_elem_of_join. exists chain.
  split; [done|by eapply list_elem_of_lookup_2].
Qed.

(** The slot found holds the entry of the key; there is none when it is empty. *)
Lemma FindPointer_spec k : ∃ b chain pos, FindPointer cells k (HashSlice k) t = Some (b, pos) ∧
  list_ t !! b = Some chain ∧ b = bucket (length_ t) (HashSlice k) ∧
  ((pos = length chain ∧ ∀ e h, e ∈ ids → cells !! e = Some h → h_key h ≠ k) ∨
   ∃ e h, chain !! pos = Some e ∧ e ∈ ids ∧ cells !! e = Some h ∧ h_key h = k).
Proof using Ht.
  destruct tbl_mask as (n & Hn & En & El & Em). unfold FindPointer. rewrite Em.
  fold (bucket (length_ t) (HashSlice k)). set (b := bucket _ _).
  assert (Hb : (b < length (list_ t))%nat).
  { unfold b. rewrite En. pose proof (bucket_lt n (HashSlice k)) as H. unfold zlen in El. specialize (H ltac:(lia) (HashSlice_u32 k)). lia. }
  destruct (lookup_lt_is_Some_2 _ _ Hb) as [chain Hchain]. rewrite Hchain. cbn [mbind option_bind].
  exists b, chain, (slot_in cells k (HashSlice k) chain). split_and!; [done..|].
  destruct (slot_in_spec cells k (HashSlice k) chain) as [[-> H]|(e & He & Hm)].
  - left. split; [done|]. intros e h He Hh Hk. pose proof He as He'.
    rewrite <- (tbl_ids _ _ _ Ht) in He. apply list_elem_of_join in He as (chain' & Hin & [b' Hb']%list_elem_of_lookup).
    assert (b' = b) as ->.
    { rewrite (tbl_home _ _ _ Ht b' chain' e h Hb' Hin Hh). destruct (tbl_cells _ _ _ Ht e He') as (h' & Hh' & Eh). unfold b. congruence. }
    assert (chain' = chain) as -> by congruence. specialize (H e Hin). destruct (tbl_cells _ _ _ Ht e He') as (h' & Hh' & Eh).
    rewrite (matches_spec _ _ _ h'), bool_decide_eq_false in H by done. congruence.
  - right. pose proof (tbl_elem b chain e Hchain ltac:(by eapply list_elem_of_lookup_2)) as Hin.
    destruct (tbl_cells _ _ _ Ht e Hin) as (h & Hh & Eh). exists e, h.
    rewrite (matches_spec _ _ _ h), bool_decide_eq_true in Hm by done. done.
Qed.

Lemma Table_Lookup_spec k :
  (Table_Lookup cells k (HashSlice k) t = Some None ∧ ∀ e h, e ∈ ids → cells !! e = Some h → h_key h ≠ k) ∨
  ∃ e h, Table_Lookup cells k (HashSlice k) t = Some (Some e) ∧ e ∈ ids ∧ cells !! e = Some h ∧ h_key h = k.
Proof using Ht.
  unfold Table_Lookup, deref. destruct (FindPointer_spec k) as (b & chain & pos & -> & Hb & _ & [[-> H]|(e & h & He & Hin & Hh)]);
    cbn [mbind option_bind fst snd]; rewrite Hb; cbn [mbind option_bind].
  - left. split; [by rewrite lookup_ge_None_2|done].
  - right. exists e, h. by rewrite He.
Qed.

(** Changing one chain. *)
Lemma TableOk_update b chain chain' ids' elems' : list_ t !! b = Some chain →
  (∀ e, e ∈ chain' → e ∈ ids' ∧ (e ∈ chain ∨ ∀ h, cells !! e = Some h → b = bucket (length_ t) (h_hash h))) →
  mjoin (list_ t) ++ chain' ≡ₚ ids' ++ chain → NoDup ids' → elems' = zlen ids' →
  (∀ e, e ∈ ids' → ∃ h, cells !! e = Some h ∧ h_hash h = HashSlice (h_key h)) →
  (∀ e e' h h', e ∈ ids' → e' ∈ ids' → cells !! e = Some h → cells !! e' = Some h' → h_key h = h_key h' → e = e') →
  TableOk cells {| length_ := length_ t; elems_ := elems'; list_ := <[b := chain']> (list_ t) |} ids'.
Proof using Ht.
  intros Hb Hc Hp Hn He Hcells Hkeys. split; simpl; try done.
  - destruct (tbl_length _ _ _ Ht) as (k & ? & ? & ?). exists k. unfold zlen in *. by rewrite length_insert.
  - apply (Permutation_app_inv_r chain). by rewrite (mjoin_insert_perm _ _ _ _ Hb).
  - intros b' c e h Hb' Hin Hh. destruct (decide (b' = b)) as [->|Hne].
    + rewrite list_lookup_insert_eq in Hb' by (by eapply lookup_lt_Some). simplify_eq.
      destruct (Hc e Hin) as [_ [H|H]]; [by apply (tbl_home _ _ _ Ht b chain e h)|by apply H].
    + rewrite list_lookup_insert_ne in Hb' by done. by apply (tbl_home _ _ _ Ht b' c e h).
Qed.

Lemma chain_nodup b chain : list_ t !! b = Some chain → NoDup chain.
Proof using Ht.
  intros Hb. pose proof (tbl_nodup _ _ _ Ht) as Hn. rewrite <- (tbl_ids _ _ _ Ht), <- (take_drop_middle _ _ _ Hb), join_app in Hn.
  cbn [mjoin list_join] in Hn. apply NoDup_app in Hn as (_ & _ & Hn). by apply NoDup_app in Hn as (? & _).
Qed.

(** A chain replaced by one without [e] takes [e] out of the table. *)
Lemma TableOk_remove b chain pos e : list_ t !! b = Some chain → chain !! pos = Some e → zlen ids < 2 ^ 32 →
  TableOk cells {| length_ := length_ t; elems_ := u32 (elems_ t - 1); list_ := <[b := delete pos chain]> (list_ t) |}
    (filter (λ x, x ≠ e) ids).
Proof using Ht.
  intros Hb Hpos Hz. pose proof (delete_Permutation chain pos e Hpos) as HP.
  pose proof (tbl_nodup _ _ _ Ht) as Hn. pose proof (tbl_elem b chain e Hb ltac:(by eapply list_elem_of_lookup_2)) as He.
  pose proof (filter_ne_perm e ids Hn He) as Hf.
  pose proof (chain_nodup b chain Hb) as Hchain.
  apply (TableOk_update b chain); [done| | | | | |].
  - intros x Hx. rewrite HP in Hchain. apply NoDup_cons in Hchain as [Hx' _]. assert (Hxc : x ∈ chain) by (rewrite HP; by right).
    split; [|by left]. apply list_elem_of_filter. split; [by intros ->|by apply (tbl_elem b chain)].
  - rewrite (tbl_ids _ _ _ Ht), Hf at 1. rewrite HP at 2. solve_Permutation.
  - by apply NoDup_filter.
  - rewrite (tbl_elems _ _ _ Ht). apply Permutation_length in Hf. unfold zlen in *. cbn [length] in Hf.
    rewrite u32_small by (unfold is_u; lia). lia.
  - intros x [_ Hx]%list_elem_of_filter. by apply (tbl_cells _ _ _ Ht).
  - intros x x' h h' [_ Hx]%list_elem_of_filter [_ Hx']%list_elem_of_filter. by apply (tbl_keys _ _ _ Ht).
Qed.

Lemma Table_Remove_spec k : zlen ids < 2 ^ 32 →
  (Table_Remove cells k (HashSlice k) t = Some (None, t) ∧ ∀ e h, e ∈ ids → cells !! e = Some h → h_key h ≠ k) ∨
  ∃ e h t', Table_Remove cells k (HashSlice k) t = Some (Some e, t') ∧ e ∈ ids ∧ cells !! e = Some h ∧ h_key h = k ∧
    TableOk cells t' (filter (λ x, x ≠ e) ids).
Proof using Ht.
  intros Hz. unfold Table_Remove. destruct (FindPointer_spec k) as (b & chain & pos & -> & Hb & _ & [[-> H]|(e & h & He & Hin & Hh & Hk)]);
    cbn [mbind option_bind fst snd]; rewrite Hb; cbn [mbind option_bind].
  - left. split; [by rewrite lookup_ge_None_2|done].
  - right. exists e, h. rewrite He. eexists. split_and!; [done..|]. by apply TableOk_remove.
Qed.
End Table.

Lemma new_length_loop_spec elems : elems <= 2 ^ 31 → ∀ fuel k, 2 <= k <= 31 → 31 - k < Z.of_nat fuel →
  ∃ k', 2 <= k' <= 31 ∧ new_length_loop fuel elems (2 ^ k) = Some (2 ^ k').
Proof.
  intros He. induction fuel as [|fuel IH]; intros k Hk Hf; [lia|]. cbn [new_length_loop].
  destruct (Z.ltb_spec (2 ^ k) elems) as [Hlt|Hge]; [|by exists k].
  assert (k < 31) by (destruct (decide (k = 31)); [subst; lia|lia]).
  rewrite u32_small.
  - rewrite Z.mul_comm, <- Z.pow_succ_r by lia. apply IH; lia.
  - unfold is_u. pose proof (Z.pow_pos_nonneg 2 k). pose proof (Z.pow_lt_mono_r 2 k 31). lia.
Qed.

Lemma rehash_spec cells k : 2 <= k <= 31 → ∀ L nl count,
  (∀ e, e ∈ L → ∃ h, cells !! e = Some h ∧ h_hash h = HashSlice (h_key h)) → zlen nl = 2 ^ k →
  (∀ b chain e h, nl !! b = Some chain → e ∈ chain → cells !! e = Some h → b = bucket (2 ^ k) (h_hash h)) →
  ∃ nl', foldl (rehash_step cells (2 ^ k)) (Some (nl, count)) L = Some (nl', count + zlen L) ∧
    mjoin nl' ≡ₚ L ++ mjoin nl ∧ zlen nl' = 2 ^ k ∧
    (∀ b chain e h, nl' !! b = Some chain → e ∈ chain → cells !! e = Some h → b = bucket (2 ^ k) (h_hash h)).
Proof.
  intros Hk. induction L as [|e L IH]; intros nl count Hc Hl Hh.
  { exists nl. rewrite zlen_nil, Z.add_0_r. done. }
  destruct (Hc e) as (h & He & Eh); [by left|]. cbn [foldl]. unfold rehash_step at 2. cbn [mbind option_bind]. rewrite He. cbn [mbind option_bind].
  assert (Hm : u32 (2 ^ k - 1) = 2 ^ k - 1).
  { apply u32_small. unfold is_u. pose proof (Z.pow_pos_nonneg 2 k). pose proof (Z.pow_le_mono_r 2 k 31). lia. }
  rewrite Hm. fold (bucket (2 ^ k) (h_hash h)). set (b := bucket _ _).
  destruct (lookup_lt_is_Some_2 nl b) as [chain Hchain].
  { pose proof (bucket_lt k (h_hash h) ltac:(lia) ltac:(rewrite Eh; apply HashSlice_u32)) as H. unfold zlen in Hl. unfold b. lia. }
  rewrite Hchain. cbn [mbind option_bind].
  destruct (IH (<[b := e :: chain]> nl) (count + 1)) as (nl' & -> & Hp & Hz & Hhome).
  - intros x Hx. apply Hc. by right.
  - unfold zlen in *. by rewrite length_insert.
  - intros b' c x hx Hb' Hx Hcx. destruct (decide (b' = b)) as [->|Hne].
    + rewrite list_lookup_insert_eq in Hb' by (by eapply lookup_lt_Some). simplify_eq.
      apply elem_of_cons in Hx as [->|Hx]; [unfold b; congruence|by apply (Hh b chain x)].
    + rewrite list_lookup_insert_ne in Hb' by done. by apply (Hh b' c x).
  - exists nl'. split; [do 2 f_equal; rewrite zlen_cons; lia|]. split_and!; [|done|done].
    rewrite Hp. apply (Permutation_app_inv_r chain). rewrite <- app_assoc, (mjoin_insert_perm _ _ _ _ Hchain). solve_Permutation.
Qed.

Lemma Resize_spec cells t ids : mjoin (list_ t) ≡ₚ ids → elems_ t = zlen ids → zlen ids <= 2 ^ 31 → NoDup ids →
  (∀ e, e ∈ ids → ∃ h, cells !! e = Some h ∧ h_hash h = HashSlice (h_key h)) →
  (∀ e e' h h', e ∈ ids → e' ∈ ids → cells !! e = Some h → cells !! e' = Some h' → h_key h = h_key h' → e = e') →
  ∃ t', Resize cells t = Some t' ∧ TableOk cells t' ids.
Proof.
  intros Hp He Hz Hn Hc Hk. unfold Resize. rewrite He.
  destruct (new_length_loop_spec (zlen ids) Hz 32 2) as (k & Hk2 & E); [lia|lia|]. change (2 ^ 2) with 4 in E. rewrite E. cbn [mbind option_bind].
  assert (0 < 2 ^ k) by (apply Z.pow_pos_nonneg; lia).
  destruct (rehash_spec cells k Hk2 (mjoin (list_ t)) (replicate (Z.to_nat (2 ^ k)) []) 0) as (nl & -> & Hnl & Hl & Hh).
  - intros e H'. apply Hc. by rewrite <- Hp.
  - unfold zlen. rewrite length_replicate. lia.
  - intros b chain e h [-> _]%lookup_replicate Hin. by apply not_elem_of_nil in Hin.
  - cbn [mbind option_bind].
    assert (Ez : zlen (mjoin (list_ t)) = zlen ids) by (unfold zlen; by rewrite Hp). rewrite Ez, Z.add_0_l, Z.eqb_refl.
    eexists. split; [done|]. split; simpl; try done; [by exists k|]. rewrite Hnl, Hp.
    by rewrite mjoin_replicate_nil, app_nil_r.
Qed.

Section Adding.
Context {cells : heap} {t : HandleTable} {ids : list nat} (Ht : TableOk cells t ids).
Context (e : nat) (h : LRUHandle) (Hne : e ∉ ids) (He : cells !! e = Some h) (Eh : h_hash h = HashSlice (h_key h)).

(** Entries other than those of the key of [e] make room for [e]. *)
Lemma adding_cells ids' : (∀ x, x ∈ ids' → x ∈ ids) →
  ∀ x, x ∈ e :: ids' → ∃ h, cells !! x = Some h ∧ h_hash h = HashSlice (h_key h).
Proof using All. intros Hsub x [->|Hx]%elem_of_cons; [by exists h|by apply (tbl_cells _ _ _ Ht), Hsub]. Qed.

Lemma adding_keys ids' : (∀ x, x ∈ ids' → x ∈ ids) → (∀ x hx, x ∈ ids' → cells !! x = Some hx → h_key hx ≠ h_key h) →
  ∀ x x' hx hx', x ∈ e :: ids' → x' ∈ e :: ids' → cells !! x = Some hx → cells !! x' = Some hx' → h_key hx = h_key hx' → x = x'.
Proof using All.
  intros Hsub H x x' hx hx' [->|Hx]%elem_of_cons [->|Hx']%elem_of_cons H1 H2 H3; [done| | |apply (tbl_keys _ _ _ Ht x x' hx hx'); auto].
  - destruct (H x' hx' Hx' H2). congruence.
  - destruct (H x hx Hx H1). congruence.
Qed.

Lemma TableOk_append b chain : list_ t !! b = Some chain → b = bucket (length_ t) (HashSlice (h_key h)) →
  (∀ x hx, x ∈ ids → cells !! x = Some hx → h_key hx ≠ h_key h) → zlen ids < 2 ^ 31 →
  TableOk cells {| length_ := length_ t; elems_ := u32 (elems_ t + 1); list_ := <[b := chain ++ [e]]> (list_ t) |} (e :: ids).
Proof using All.
  intros Hb Hbucket H Hz. pose proof (zlen_nonneg ids). apply (TableOk_update Ht b chain); [done| | | | | |].
  - intros x [Hx|Hx%list_elem_of_singleton]%elem_of_app.
    + split; [right; by apply (tbl_elem Ht b chain)|by left].
    + subst x. split; [left|right]. intros h' Hh'. assert (h' = h) as -> by congruence. by rewrite Eh.
  - rewrite (tbl_ids _ _ _ Ht). solve_Permutation.
  - apply NoDup_cons. split; [done|apply Ht].
  - rewrite (tbl_elems _ _ _ Ht), zlen_cons, u32_small; unfold is_u; lia.
  - by apply adding_cells.
  - by apply adding_keys.
Qed.

Lemma TableOk_replace b chain pos old ho : list_ t !! b = Some chain → b = bucket (length_ t) (HashSlice (h_key h)) →
  chain !! pos = Some old → old ∈ ids → cells !! old = Some ho → h_key ho = h_key h →
  TableOk cells {| length_ := length_ t; elems_ := elems_ t; list_ := <[b := <[pos := e]> chain]> (list_ t) |}
    (e :: filter (λ x, x ≠ old) ids).
Proof using All.
  intros Hb Hbucket Ho Hin Hoc Hk. pose proof (filter_ne_perm old ids (tbl_nodup _ _ _ Ht) Hin) as Hf.
  pose proof (delete_Permutation chain pos old Ho) as HP.
  assert (HP' : <[pos := e]> chain ≡ₚ e :: delete pos chain).
  { rewrite delete_take_drop, insert_take_drop by (by eapply lookup_lt_Some). by rewrite <- Permutation_middle. }
  assert (Hsub : ∀ x, x ∈ filter (λ x, x ≠ old) ids → x ∈ ids) by (intros x Hx; by apply list_elem_of_filter in Hx as [_ ?]).
  assert (Hclash : ∀ x hx, x ∈ filter (λ x, x ≠ old) ids → cells !! x = Some hx → h_key hx ≠ h_key h).
  { intros x hx [Hxo Hx]%list_elem_of_filter Hcx E. apply Hxo. apply (tbl_keys _ _ _ Ht x old hx ho); [done..|congruence]. }
  apply (TableOk_update Ht b chain); [done| | | | | |].
  - intros x Hx. rewrite HP' in Hx. apply elem_of_cons in Hx as [->|Hx].
    + split; [left|right]. intros h' Hh'. assert (h' = h) as -> by congruence. by rewrite Eh.
    + assert (Hxc : x ∈ chain) by (rewrite HP; by right). split; [right|by left].
      apply list_elem_of_filter. split; [|by apply (tbl_elem Ht b chain)]. intros ->.
      pose proof (chain_nodup Ht b chain Hb) as Hn. rewrite HP in Hn. by apply NoDup_cons in Hn as [? _].
  - rewrite (tbl_ids _ _ _ Ht), HP'. rewrite Hf at 1. rewrite HP at 2. solve_Permutation.
  - apply NoDup_cons. split; [intros Hx; by apply Hne, Hsub|apply NoDup_filter, Ht].
  - rewrite (tbl_elems _ _ _ Ht). apply Permutation_length in Hf. unfold zlen. cbn [length] in *. by rewrite Hf.
  - by apply adding_cells.
  - by apply adding_keys.
Qed.

Lemma Table_Insert_spec : zlen ids < 2 ^ 31 →
  (∃ t', Table_Insert cells e t = Some (None, t') ∧ TableOk cells t' (e :: ids) ∧
     ∀ x hx, x ∈ ids → cells !! x = Some hx → h_key hx ≠ h_key h) ∨
  (∃ t' old ho, Table_Insert cells e t = Some (Some old, t') ∧ old ∈ ids ∧ cells !! old = Some ho ∧ h_key ho = h_key h ∧
     TableOk cells t' (e :: filter (λ x, x ≠ old) ids)).
Proof using All.
  intros Hz. unfold Table_Insert. rewrite He. cbn [mbind option_bind]. rewrite Eh.
  destruct (FindPointer_spec Ht (h_key h)) as (b & chain & pos & -> & Hb & Hbucket & [[-> H]|(old & ho & Ho & Hin & Hoc & Hk)]);
    cbn [mbind option_bind fst snd]; rewrite Hb; cbn [mbind option_bind].
  - left. rewrite lookup_ge_None_2 by done. pose proof (TableOk_append b chain Hb Hbucket H Hz) as Ht1.
    set (t1 := {| length_ := _; elems_ := _; list_ := _ |}) in *.
    assert (∃ t', (if elems_ t1 >? length_ t1 then Resize cells t1 else Some t1) = Some t' ∧ TableOk cells t' (e :: ids)) as (t' & E & Ht').
    { destruct (_ >? _); [|by exists t1]. destruct Ht1. apply Resize_spec; try done. rewrite zlen_cons. lia. }
    rewrite E. by exists t'.
  - right. rewrite Ho. eexists _, old, ho. split; [done|]. split_and!; [done..|]. by apply (TableOk_replace b chain pos old ho).
Qed.
End Adding.

(** ** The invariant of a shard *)

Definition refs_of (cells : heap) (e : nat) : Z := match cells !! e with Some h => h_refs h | None => 0 end.
Definition total (cells : heap) : Z := map_fold (λ _ h acc, h_charge h + acc) 0 cells.
Definition in_list (e : nat) (l : list nat) : Z := if decide (e ∈ l) then 1 else 0.
Definition held (e : nat) (hs : list (nat * V)) : Z := zlen (filter (λ p, p.1 = e) hs).

(** [cells'] has entries of [cells], up to their reference counts. *)
Definition sub_cells (cells' cells : heap) : Prop :=
  ∀ e h', cells' !! e = Some h' → ∃ h, cells !! e = Some h ∧ h_key h' = h_key h ∧ h_value h' = h_value h ∧ h_hash h' = h_hash h.

(** The store: every entry alive has a reference, and [usage_] adds up their charges. *)
Record CellsOk (c : LRUCache) : Prop := {
  cell_charge e h : cells_ c !! e = Some h → 1 <= h_charge h < 2 ^ 32;
  cell_refs e h : cells_ c !! e = Some h → 0 < h_refs h;
  cell_fresh e h : cells_ c !! e = Some h → (e < fresh_ c)%nat;
  cell_hash e h : cells_ c !! e = Some h → h_hash h = HashSlice (h_key h);
  cell_usage : usage_ c = total (cells_ c);
  cell_bound : usage_ c < 2 ^ 64;
  cell_capacity : capacity_ c < 2 ^ 31 - 1;
}.

(** With [ids] in the hash table: the references of an entry are the list's and the
    clients'. *)
Record LRUState (c : LRUCache) (ids : list nat) (hs : list (nat * V)) : Prop := {
  st_cells : CellsOk c;
  st_table : TableOk (cells_ c) (table_ c) ids;
  st_nodup : NoDup (lru_ c);
  st_refs e : refs_of (cells_ c) e = in_list e (lru_ c) + held e hs;
  st_values e v h : (e, v) ∈ hs → cells_ c !! e = Some h → h_value h = v;
}.

(** Between operations the table and the list hold the same entries, and the cache is
    not over its capacity while there is something to evict. *)
Definition LRUInv (c : LRUCache) (hs : list (nat * V)) : Prop :=
  LRUState c (lru_ c) hs ∧ (usage_ c <= capacity_ c ∨ lru_ c = []).

(** The mappings a lookup can find. *)
Definition maps (c : LRUCache) (k : bytes) (v : V) : Prop :=
  ∃ e h, e ∈ lru_ c ∧ cells_ c !! e = Some h ∧ h_key h = k ∧ h_value h = v.

Lemma total_insert cells e h : cells !! e = None → total (<[e := h]> cells) = h_charge h + total cells.
Proof. intros He. unfold total. rewrite map_fold_insert_L; [done| |done]. intros. lia. Qed.

Lemma total_delete cells e h : cells !! e = Some h → total cells = h_charge h + total (delete e cells).
Proof. intros He. rewrite <- (insert_delete_id cells e h He) at 1. apply total_insert, lookup_delete_eq. Qed.

Lemma total_refs cells e h r : cells !! e = Some h → total (<[e := with_refs r h]> cells) = total cells.
Proof.
  intros He. rewrite <- insert_delete_eq. rewrite total_insert by apply lookup_delete_eq. by rewrite (total_delete cells e h).
Qed.

Lemma total_bounds cells : (∀ e h, cells !! e = Some h → 1 <= h_charge h < 2 ^ 32) →
  Z.of_nat (base.size cells) <= total cells <= (2 ^ 32 - 1) * Z.of_nat (base.size cells).
Proof.
  induction cells as [|e h cells He IH] using map_ind; intros H.
  - by rewrite map_size_empty.
  - rewrite total_insert, map_size_insert_None by done. specialize (H e h) as H1. rewrite lookup_insert_eq in H1. specialize (H1 eq_refl).
    assert (IH' : Z.of_nat (base.size cells) <= total cells <= (2 ^ 32 - 1) * Z.of_nat (base.size cells)).
    { apply IH. intros x hx Hx. apply (H x hx). rewrite lookup_insert_ne; [done|]. intros ->. congruence. }
    lia.
Qed.

Lemma refs_of_Some cells e : (∀ h, cells !! e = Some h → 0 < h_refs h) → 0 < refs_of cells e ↔ is_Some (cells !! e).
Proof. unfold refs_of. destruct (cells !! e) as [h|]; intros H; split; intros H1; [done|by apply H|lia|by apply is_Some_None in H1]. Qed.

Lemma sub_cells_refl cells : sub_cells cells cells.
Proof. intros e h He. by exists h. Qed.
Lemma sub_cells_trans a b c : sub_cells a b → sub_cells b c → sub_cells a c.
Proof. intros H1 H2 e h He. destruct (H1 e h He) as (h1 & Hh1 & ? & ? & ?). destruct (H2 e h1 Hh1) as (h2 & Hh2 & ? & ? & ?). exists h2. split_and!; congruence. Qed.

Lemma TableOk_sub cells cells' t ids : TableOk cells t ids → sub_cells cells' cells → (∀ e, e ∈ ids → is_Some (cells' !! e)) →
  TableOk cells' t ids.
Proof.
  intros Ht Hsub Hin. split; [apply Ht..| | |].
  - intros e He. destruct (Hin e He) as [h' Hh']. exists h'. split; [done|]. destruct (Hsub e h' Hh') as (h & Hh & Ek & _ & Eh).
    destruct (tbl_cells _ _ _ Ht e He) as (h0 & Hh0 & E). congruence.
  - intros b chain e h' Hb Hc He. destruct (Hsub e h' He) as (h & Hh & _ & _ & ->). by apply (tbl_home _ _ _ Ht b chain e).
  - intros e e' h h' He He' Hh Hh'. destruct (Hsub e h Hh) as (h1 & Hh1 & -> & _). destruct (Hsub e' h' Hh') as (h2 & Hh2 & -> & _).
    by apply (tbl_keys _ _ _ Ht e e' h1 h2).
Qed.

Definition with_cells (cells : heap) (c : LRUCache) : LRUCache :=
  {| capacity_ := capacity_ c; usage_ := usage_ c; lru_ := lru_ c; table_ := table_ c; cells_ := cells; fresh_ := fresh_ c; deleted_ := deleted_ c |}.

Lemma CellsOk_refs c e h r : CellsOk c → cells_ c !! e = Some h → 0 < r → CellsOk (with_cells (<[e := with_refs r h]> (cells_ c)) c).
Proof.
  intros Hc He Hr.
  split; simpl; [intros x hx Hx; apply lookup_insert_Some in Hx as [[<- <-]|[_ Hx]]; simpl..|rewrite (total_refs _ _ _ _ He); apply Hc|apply Hc|apply Hc].
  - by apply (cell_charge _ Hc e).
  - by apply (cell_charge _ Hc x).
  - done.
  - by apply (cell_refs _ Hc x).
  - by apply (cell_fresh _ Hc e h).
  - by apply (cell_fresh _ Hc x hx).
  - by apply (cell_hash _ Hc e).
  - by apply (cell_hash _ Hc x).
Qed.

Lemma sub_cells_refs cells e h r : cells !! e = Some h → sub_cells (<[e := with_refs r h]> cells) cells.
Proof. intros He x hx Hx. apply lookup_insert_Some in Hx as [[<- <-]|[_ Hx]]; [by exists h|by exists hx]. Qed.

Lemma Unref_spec c e h : CellsOk c → cells_ c !! e = Some h → ∃ c', Unref e c = Some c' ∧ CellsOk c' ∧
  capacity_ c' = capacity_ c ∧ lru_ c' = lru_ c ∧ table_ c' = table_ c ∧ usage_ c' <= usage_ c ∧
  (1 < h_refs h → usage_ c' = usage_ c) ∧ sub_cells (cells_ c') (cells_ c) ∧ ∀ x, refs_of (cells_ c') x = refs_of (cells_ c) x - (if decide (x = e) then 1 else 0).
Proof.
  intros Hc He. unfold Unref. rewrite He. cbn [mbind option_bind]. pose proof (cell_refs _ Hc e h He) as Hr.
  rewrite Z.gtb_ltb. destruct (Z.ltb_spec 0 (h_refs h)); [|lia]. destruct (Z.leb_spec (h_refs h - 1) 0).
  - pose proof (total_delete _ e h He) as Ht. pose proof (cell_charge _ Hc e h He) as Hch.
    pose proof (cell_usage _ Hc) as Hu. pose proof (cell_bound _ Hc) as Hb.
    assert (Hpos : 0 <= total (delete e (cells_ c))).
    { pose proof (total_bounds (delete e (cells_ c))) as H'. destruct H' as [H1 _]; [|lia].
      intros x hx [_ Hx]%lookup_delete_Some. by apply (cell_charge _ Hc x). }
    assert (Eu : u64 (usage_ c - h_charge h) = total (delete e (cells_ c))) by (rewrite u64_small; unfold is_u; lia).
    eexists. split; [done|]. split_and!; simpl; [|done|done|done|lia|lia| |].
    + split; simpl; [intros x hx [_ Hx]%lookup_delete_Some..|done|lia|apply Hc].
      * by apply (cell_charge _ Hc x).
      * by apply (cell_refs _ Hc x).
      * by apply (cell_fresh _ Hc x hx).
      * by apply (cell_hash _ Hc x).
    + intros x hx [_ Hx]%lookup_delete_Some. by exists hx.
    + intros x. unfold refs_of. case_decide as E; [subst x; rewrite lookup_delete_eq, He; lia|].
      rewrite lookup_delete_ne by done. lia.
  - eexists. split; [done|]. split_and!; simpl; [|done|done|done|lia|done| |].
    + apply (CellsOk_refs c e h); [done|done|lia].
    + by apply sub_cells_refs.
    + intros x. unfold refs_of. case_decide as E; [subst x; rewrite lookup_insert_eq, He; simpl; lia|].
      rewrite lookup_insert_ne by done. lia.
Qed.

Lemma held_nonneg e hs : 0 <= held e hs.
Proof. apply zlen_nonneg. Qed.
Lemma held_cons e x v hs : held e ((x, v) :: hs) = (if decide (e = x) then 1 else 0) + held e hs.
Proof. unfold held. rewrite filter_cons. simpl. repeat case_decide; try congruence; rewrite ?zlen_cons; lia. Qed.
Lemma held_elem e v hs : (e, v) ∈ hs → 0 < held e hs.
Proof.
  intros H. unfold held. assert (Hin : (e, v) ∈ filter (λ p : nat * V, p.1 = e) hs) by (by apply list_elem_of_filter).
  destruct (filter _ hs) as [|p l]; [by apply not_elem_of_nil in Hin|]. rewrite zlen_cons. pose proof (zlen_nonneg l). lia.
Qed.

Section State.
Context {c : LRUCache} {ids : list nat} {hs : list (nat * V)} (Hst : LRUState c ids hs).

Lemma st_alive e : is_Some (cells_ c !! e) ↔ e ∈ lru_ c ∨ 0 < held e hs.
Proof using Hst.
  rewrite <- refs_of_Some by (intros h; by apply (cell_refs _ (st_cells _ _ _ Hst))).
  rewrite (st_refs _ _ _ Hst e). unfold in_list. pose proof (held_nonneg e hs). case_decide; split; intros H1; try lia; try tauto.
Qed.

Lemma st_listed e : e ∈ lru_ c → ∃ h, cells_ c !! e = Some h.
Proof using Hst. intros He. apply (proj2 (st_alive e)). by left. Qed.

(** Taking out of the list an entry that is no longer in the table. *)
Lemma unlink_spec e : ids = filter (λ x, x ≠ e) (lru_ c) → e ∈ lru_ c →
  ∃ c', unlink_entry e c = Some c' ∧ LRUState c' (lru_ c') hs ∧ lru_ c' = filter (λ x, x ≠ e) (lru_ c) ∧
    capacity_ c' = capacity_ c ∧ usage_ c' <= usage_ c ∧ (0 < held e hs → usage_ c' = usage_ c) ∧ sub_cells (cells_ c') (cells_ c).
Proof using Hst.
  intros Hids He. destruct (st_listed e He) as [h Hh]. unfold unlink_entry, LRU_Remove. rewrite decide_True by done. cbn [mbind option_bind].
  set (c1 := with_lru _ c).
  assert (Hc1 : CellsOk c1) by (destruct (st_cells _ _ _ Hst); by split).
  destruct (Unref_spec c1 e h Hc1 Hh) as (c' & E & Hc' & Hcap & Hl & Ht & Hu & Hu1 & Hsub & Hrefs).
  assert (Hu' : 0 < held e hs → usage_ c' = usage_ c).
  { intros Hheld. apply Hu1. pose proof (st_refs _ _ _ Hst e) as Hr. unfold refs_of, in_list in Hr. rewrite Hh, decide_True in Hr by done. lia. }
  exists c'. split; [done|]. simpl in Hcap, Hl, Ht, Hu, Hsub, Hrefs. rewrite Hl. split_and!; [|done|done|done|done|done].
  assert (Hr : ∀ x, refs_of (cells_ c') x = in_list x (filter (λ x, x ≠ e) (lru_ c)) + held x hs).
  { intros x. rewrite Hrefs, (st_refs _ _ _ Hst). unfold in_list, c1. simpl.
    destruct (decide (x ∈ filter _ _)) as [Hf|Hf]; rewrite list_elem_of_filter in Hf; destruct (decide (x ∈ lru_ c)), (decide (x = e));
      subst; try tauto; lia. }
  split; [done| | | |].
  - rewrite Ht. apply (TableOk_sub (cells_ c)); [rewrite <- Hids; apply Hst|done|].
    intros x Hx. apply refs_of_Some; [intros hx; by apply (cell_refs _ Hc')|]. rewrite Hr. unfold in_list.
    rewrite decide_True by done. pose proof (held_nonneg x hs). lia.
  - rewrite Hl. apply NoDup_filter, Hst.
  - intros x. by rewrite Hr, Hl.
  - intros x v hx Hx Hc. destruct (Hsub x hx Hc) as (h0 & Hh0 & _ & -> & _). by apply (st_values _ _ _ Hst x v).
Qed.
End State.

(** After unlinking, the mappings of the other keys are left. *)
Lemma unlink_maps c c' e h k v : TableOk (cells_ c) (table_ c) (lru_ c) → e ∈ lru_ c → cells_ c !! e = Some h →
  lru_ c' = filter (λ x, x ≠ e) (lru_ c) → sub_cells (cells_ c') (cells_ c) → maps c' k v → k ≠ h_key h ∧ maps c k v.
Proof.
  intros Ht He Hh Hl Hsub (x & hx & Hx & Hc & Ek & Ev). rewrite Hl in Hx. apply list_elem_of_filter in Hx as [Hne Hx].
  destruct (Hsub x hx Hc) as (h0 & Hh0 & Ek0 & Ev0 & _). split.
  - intros ->. apply Hne. apply (tbl_keys _ _ _ Ht x e h0 h); [done..|congruence].
  - exists x, h0. split_and!; [done|done|congruence|congruence].
Qed.

Lemma with_table_state c t ids ids' hs : LRUState c ids hs → TableOk (cells_ c) t ids' → LRUState (with_table t c) ids' hs.
Proof. intros [[] ? ? ? ?] Ht. split; [by split|done..]. Qed.

Lemma listed_small c hs : LRUState c (lru_ c) hs → zlen (lru_ c) <= usage_ c.
Proof.
  intros Hst. rewrite (cell_usage _ (st_cells _ _ _ Hst)).
  destruct (total_bounds (cells_ c)) as [H _]; [apply (cell_charge _ (st_cells _ _ _ Hst))|].
  enough (length (lru_ c) <= base.size (cells_ c))%nat by (unfold zlen; lia).
  rewrite <- (size_list_to_set (C := gset nat)) by apply Hst. rewrite <- (size_dom (D := gset nat)). apply subseteq_size.
  intros e He%elem_of_list_to_set. apply elem_of_dom, (st_alive Hst). by left.
Qed.

Lemma TableOk_perm cells t ids ids' : ids ≡ₚ ids' → TableOk cells t ids → TableOk cells t ids'.
Proof.
  intros HP [Hl He Hi Hn Hc Hh Hk]. split; try done.
  - rewrite He. unfold zlen. by rewrite HP.
  - by rewrite Hi.
  - by rewrite <- HP.
  - intros e. rewrite <- HP. apply Hc.
  - intros e e' h h'. rewrite <- !HP. apply Hk.
Qed.

(** Removing the key of a listed entry from the table removes that entry. *)
Lemma Table_Remove_listed c ids hs e h : LRUState c ids hs → zlen ids < 2 ^ 32 → e ∈ ids → cells_ c !! e = Some h →
  ∃ t', Table_Remove (cells_ c) (h_key h) (h_hash h) (table_ c) = Some (Some e, t') ∧
    TableOk (cells_ c) t' (filter (λ x, x ≠ e) ids).
Proof.
  intros Hst Hz He Hh. rewrite (cell_hash _ (st_cells _ _ _ Hst) e h Hh).
  destruct (Table_Remove_spec (st_table _ _ _ Hst) (h_key h) Hz) as [[_ H]|(e' & h' & t' & E & He' & Hh' & Ek & Ht')].
  - by destruct (H e h He Hh).
  - assert (e' = e) as -> by (by apply (tbl_keys _ _ _ (st_table _ _ _ Hst) e' e h' h)). by exists t'.
Qed.

Lemma evict_loop_spec hs : ∀ fuel c, LRUState c (lru_ c) hs → zlen (lru_ c) < 2 ^ 32 → (length (lru_ c) < fuel)%nat →
  ∃ c', evict_loop fuel c = Some c' ∧ LRUInv c' hs ∧ capacity_ c' = capacity_ c ∧ sub_cells (cells_ c') (cells_ c) ∧ (∀ k v, maps c' k v → maps c k v) ∧
    ∀ l e, lru_ c = l ++ [e] → 0 < held e hs → usage_ c' <= capacity_ c' → e ∈ lru_ c'.
Proof.
  induction fuel as [|fuel IH]; intros c Hst Hz Hf; [lia|]. cbn [evict_loop].
  rewrite Z.gtb_ltb. destruct (Z.ltb_spec (capacity_ c) (usage_ c)) as [Hover|Hok]; [|exists c; split_and!; [done|split; [done|by left]|done|apply sub_cells_refl|done|intros l e -> _ _; apply elem_of_app; right; by left]].
  destruct (lru_ c) as [|old rest] eqn:El; [exists c; split_and!; [done|split; [by rewrite El|by right]|done|apply sub_cells_refl|done|by intros [|??] ? [=]]|].
  assert (Hin : old ∈ lru_ c) by (rewrite El; by left). rewrite <- El in Hst, Hz. destruct (st_listed Hst old Hin) as [h Hh].
  destruct (Table_Remove_listed _ _ _ _ _ Hst Hz Hin Hh) as (t' & E & Ht').
  destruct (unlink_spec (with_table_state _ _ _ _ _ Hst Ht') old eq_refl Hin) as (c' & Eu & Hst' & Hl & Hcap & _ & Hu & Hsub).
  unfold unlink_entry, LRU_Remove in *. simpl in Eu. rewrite decide_True in Eu |- * by done. cbn [mbind option_bind] in Eu |- *.
  simpl. rewrite Hh. cbn [mbind option_bind]. rewrite E. cbn [mbind option_bind].
  change (with_table t' (with_lru (filter (λ x, x ≠ old) (lru_ c)) c)) with (with_lru (filter (λ x, x ≠ old) (lru_ c)) (with_table t' c)).
  rewrite Eu. cbn [mbind option_bind]. simpl in Hl, Hcap, Hsub.
  assert (Hlen : (S (length (lru_ c')) = length (lru_ c))%nat).
  { rewrite Hl. pose proof (filter_ne_perm old (lru_ c) (st_nodup _ _ _ Hst) Hin) as HP. by rewrite HP at 2. }
  destruct (IH c') as (c'' & E'' & Hinv & Hcap' & Hsub' & Hmaps & Hlast); [done|unfold zlen in *; lia|rewrite El in Hlen; simpl in *; lia|].
  rewrite E''. exists c''. split_and!; [done|done|congruence|by apply (sub_cells_trans _ (cells_ c'))| |].
  - intros k v Hm%Hmaps. by apply (unlink_maps c c' old h k v (st_table _ _ _ Hst) Hin Hh Hl Hsub) in Hm as [_ Hm].
  - intros l e Ele Hheld Hfit. destruct l as [|x l]; injection Ele as -> ->.
    + exfalso. simpl in Hu. specialize (Hu Hheld). assert (En : lru_ c' = []) by (destruct (lru_ c'); [done|rewrite El in Hlen; simpl in Hlen; lia]).
      destruct fuel as [|fuel]; [done|]. cbn [evict_loop] in E''. rewrite En in E''. destruct (_ >? _); simplify_eq; lia.
    + apply (Hlast l e); [|done|done]. rewrite Hl, El, filter_cons, decide_False by (intros H1; by apply H1). apply filter_ne_id.
      pose proof (st_nodup _ _ _ Hst) as Hn. rewrite El in Hn. by apply NoDup_cons in Hn as [? _].
Qed.

Lemma Erase_spec c hs k : LRUInv c hs → zlen (lru_ c) < 2 ^ 32 →
  ∃ c', LRU_Erase k (HashSlice k) c = Some c' ∧ LRUInv c' hs ∧ capacity_ c' = capacity_ c ∧ ∀ k' v, maps c' k' v → k' ≠ k ∧ maps c k' v.
Proof.
  intros [Hst Hfit] Hz. unfold LRU_Erase.
  destruct (Table_Remove_spec (st_table _ _ _ Hst) k Hz) as [[-> H]|(e & h & t' & -> & He & Hh & <- & Ht')]; cbn [mbind option_bind].
  - exists c. replace (with_table (table_ c) c) with c by (by destruct c). split_and!; [done|done|done|].
    intros k' v Hm. split; [|done]. destruct Hm as (e & h & He & Hh & <- & _). by apply (H e h).
  - destruct (unlink_spec (with_table_state _ _ _ _ _ Hst Ht') e eq_refl He) as (c' & -> & Hst' & Hl & Hcap & Hu & _ & Hsub).
    simpl in Hl, Hcap, Hu, Hsub. exists c'. split_and!; [done| |done|].
    + split; [done|]. destruct Hfit as [Hfit|Hnil]; [left; lia|right]. by rewrite Hl, Hnil.
    + intros k' v. by apply (unlink_maps c c' e h k' v (st_table _ _ _ Hst) He Hh Hl Hsub).
Qed.

Lemma Release_spec c hs e v : LRUInv c ((e, v) :: hs) →
  ∃ c', LRU_Release e c = Some c' ∧ LRUInv c' hs ∧ capacity_ c' = capacity_ c ∧ ∀ k v, maps c' k v → maps c k v.
Proof.
  intros [Hst Hfit]. unfold LRU_Release.
  destruct (proj2 (st_alive Hst e)) as [h Hh]; [right; rewrite held_cons, decide_True by done; pose proof (held_nonneg e hs); lia|].
  destruct (Unref_spec c e h (st_cells _ _ _ Hst) Hh) as (c' & -> & Hc' & Hcap & Hl & Ht & Hu & _ & Hsub & Hrefs).
  assert (Hr : ∀ x, refs_of (cells_ c') x = in_list x (lru_ c) + held x hs).
  { intros x. rewrite Hrefs, (st_refs _ _ _ Hst), held_cons. case_decide; lia. }
  exists c'. split_and!; [done| |done|].
  - split; [|rewrite Hl; destruct Hfit; [left; lia|by right]]. split; [done| | | |].
    + rewrite Ht, Hl. apply (TableOk_sub (cells_ c)); [apply Hst|done|]. intros x Hx.
      apply refs_of_Some; [intros hx; by apply (cell_refs _ Hc')|]. rewrite Hr. unfold in_list.
      rewrite decide_True by done. pose proof (held_nonneg x hs). lia.
    + rewrite Hl. apply Hst.
    + intros x. by rewrite Hr, Hl.
    + intros x w hx Hx Hcx. destruct (Hsub x hx Hcx) as (h0 & Hh0 & _ & -> & _). apply (st_values _ _ _ Hst x w); [by right|done].
  - intros k w (x & hx & Hx & Hcx & Ek & Ev). rewrite Hl in Hx. destruct (Hsub x hx Hcx) as (h0 & Hh0 & Ek0 & Ev0 & _).
    exists x, h0. split_and!; [done|done|congruence|congruence].
Qed.

Lemma held_le e hs : held e hs <= zlen hs.
Proof. unfold held, zlen. pose proof (length_filter (λ p : nat * V, p.1 = e) hs). lia. Qed.

Lemma LRUInv_small c hs : LRUInv c hs → zlen (lru_ c) < 2 ^ 31 - 1.
Proof.
  intros [Hst [Hu|Hn]]; [|rewrite Hn; done]. pose proof (listed_small c hs Hst).
  pose proof (cell_capacity _ (st_cells _ _ _ Hst)). lia.
Qed.

Lemma Lookup_spec c hs k : LRUInv c hs → zlen hs < 2 ^ 31 →
  ∃ o c', LRU_Lookup k (HashSlice k) c = Some (o, c') ∧ capacity_ c' = capacity_ c ∧ (∀ k v, maps c' k v → maps c k v) ∧
    match o with None => LRUInv c' hs | Some e => ∃ v, maps c k v ∧ LRUInv c' ((e, v) :: hs) end.
Proof.
  intros [Hst Hfit] Hz. unfold LRU_Lookup.
  destruct (Table_Lookup_spec (st_table _ _ _ Hst) k) as [[-> _]|(e & h & -> & He & Hh & Ek)]; cbn [mbind option_bind].
  { exists None, c. by split_and!. }
  rewrite Hh. cbn [mbind option_bind]. unfold LRU_Remove. simpl. rewrite decide_True by done. cbn [mbind option_bind].
  pose proof (cell_refs _ (st_cells _ _ _ Hst) e h Hh) as Hr. pose proof (st_refs _ _ _ Hst e) as Er.
  pose proof (held_le e hs). unfold refs_of in Er. rewrite Hh in Er.
  assert (Eu : u32 (h_refs h + 1) = h_refs h + 1) by (apply u32_small; unfold is_u, in_list in *; case_decide; lia). rewrite Eu.
  pose proof (filter_ne_perm e (lru_ c) (st_nodup _ _ _ Hst) He) as HP.
  assert (HP' : lru_ c ≡ₚ filter (λ x, x ≠ e) (lru_ c) ++ [e]) by (rewrite HP at 1; solve_Permutation).
  eexists (Some e), _. split; [done|]. split_and!; [done| |].
  - intros k' v (x & hx & Hx & Hcx & <- & <-). simpl in Hx, Hcx. rewrite <- HP' in Hx.
    apply lookup_insert_Some in Hcx as [[<- <-]|[_ Hcx]]; [by exists e, h|by exists x, hx].
  - exists (h_value h). split; [by exists e, h|]. split; [split; simpl|simpl].
    + destruct (CellsOk_refs c e h (h_refs h + 1) (st_cells _ _ _ Hst) Hh ltac:(lia)). by split.
    + apply (TableOk_perm _ _ (lru_ c)); [done|]. apply (TableOk_sub (cells_ c)); [apply Hst|by apply sub_cells_refs|].
      intros x Hx. apply lookup_insert_is_Some. destruct (decide (e = x)); [by left|right]. split; [done|]. by apply (st_listed Hst).
    + rewrite <- HP'. apply Hst.
    + intros x. rewrite held_cons. pose proof (st_refs _ _ _ Hst x) as Hx. unfold refs_of, in_list in *.
      destruct (decide (x ∈ filter _ _ ++ _)) as [Hin|Hin]; rewrite <- HP' in Hin; destruct (decide (x ∈ lru_ c)); try done;
        (destruct (decide (x = e)) as [->|Hne]; [rewrite lookup_insert_eq; simpl; rewrite Hh in Hx; lia|rewrite lookup_insert_ne by done; lia]).
    + intros x v hx [[= -> ->]|Hx]%elem_of_cons Hcx; [by rewrite lookup_insert_eq in Hcx; simplify_eq|].
      apply lookup_insert_Some in Hcx as [[<- <-]|[Hne Hcx]].
      * exact (st_values _ _ _ Hst e v h Hx Hh).
      * by apply (st_values _ _ _ Hst x v).
    + destruct Hfit as [Hfit|Hn]; [by left|]. rewrite Hn in He. by apply not_elem_of_nil in He.
Qed.

Lemma alive_small c hs : LRUInv c hs → Z.of_nat (base.size (cells_ c)) <= zlen (lru_ c) + zlen hs.
Proof.
  intros [Hst _]. rewrite <- (size_dom (D := gset nat)).
  assert (Hsub : dom (cells_ c) ⊆ list_to_set (C := gset nat) (remove_dups (lru_ c ++ hs.*1))).
  { intros e [He|He]%elem_of_dom%(st_alive Hst); apply elem_of_list_to_set, elem_of_remove_dups, elem_of_app; [by left|right].
    unfold held in He. destruct (filter _ hs) as [|p l] eqn:E; [done|].
    assert (Hp : p ∈ filter (λ p, p.1 = e) hs) by (rewrite E; by left). apply list_elem_of_filter in Hp as [<- Hp].
    apply list_elem_of_fmap. by exists p. }
  apply subseteq_size in Hsub. rewrite size_list_to_set in Hsub by apply NoDup_remove_dups.
  assert (Hl : (length (remove_dups (lru_ c ++ hs.*1)) <= length (lru_ c ++ hs.*1))%nat).
  { apply submseteq_length, NoDup_submseteq; [apply NoDup_remove_dups|]. intros e. by rewrite elem_of_remove_dups. }
  rewrite length_app, length_fmap in Hl. unfold zlen. lia.
Qed.

Section Inserting.
Context (c : LRUCache) (hs : list (nat * V)) (k : bytes) (v : V) (charge : Z).
Context (Hinv : LRUInv c hs) (Hcharge : 1 <= charge < 2 ^ 32) (Hz : zlen hs < 2 ^ 31).
Let e := fresh_ c.
Let h := {| h_value := v; h_charge := charge; h_refs := 2; h_hash := HashSlice k; h_key := k |}.
(** The cache with the new entry in the list, not yet in the table. *)
Let c1 := {| capacity_ := capacity_ c; usage_ := u64 (usage_ c + charge); lru_ := lru_ c ++ [e]; table_ := table_ c;
             cells_ := <[e := h]> (cells_ c); fresh_ := S e; deleted_ := deleted_ c |}.

Lemma fresh_dead : cells_ c !! e = None ∧ (e ∉ lru_ c) ∧ held e hs = 0.
Proof using Hinv.
  destruct Hinv as [Hst _].
  assert (H : cells_ c !! e = None).
  { destruct (cells_ c !! e) as [h'|] eqn:E; [|done]. apply (cell_fresh _ (st_cells _ _ _ Hst)) in E. unfold e in E. lia. }
  pose proof (st_alive Hst e) as Ha. rewrite H in Ha. pose proof (held_nonneg e hs). split_and!; [done| |].
  - intros He. by destruct (proj2 Ha (or_introl He)).
  - destruct (decide (held e hs = 0)); [done|]. destruct (proj2 Ha) as [? [=]]. right. lia.
Qed.

Lemma allocate_cells : CellsOk c1.
Proof using Hinv Hcharge Hz.
  destruct fresh_dead as (Hd & _). pose proof (LRUInv_small _ _ Hinv) as Hs. pose proof (alive_small _ _ Hinv) as Ha.
  destruct Hinv as [Hst _]. pose proof (st_cells _ _ _ Hst) as Hc. destruct (total_bounds (cells_ c) (cell_charge _ Hc)) as [Hl Hu].
  assert (Eu : u64 (usage_ c + charge) = total (<[e := h]> (cells_ c)) ∧ total (<[e := h]> (cells_ c)) < 2 ^ 64).
  { rewrite total_insert by done. rewrite (cell_usage _ Hc). simpl. split; [rewrite u64_small; unfold is_u; lia|lia]. }
  destruct Eu as [Eu Eb].
  split; simpl; [intros x hx Hx; apply lookup_insert_Some in Hx as [[<- <-]|[Hne Hx]]; simpl..|done|lia|apply Hc]; try done.
  - by apply (cell_charge _ Hc x).
  - by apply (cell_refs _ Hc x).
  - lia.
  - apply (cell_fresh _ Hc) in Hx. unfold e. lia.
  - by apply (cell_hash _ Hc x).
Qed.

Lemma allocate_state : LRUState c1 (lru_ c) ((e, v) :: hs).
Proof using Hinv Hcharge Hz.
  pose proof allocate_cells as Hc1. destruct fresh_dead as (Hd & Hnl & Hh0). destruct Hinv as [Hst _]. split; [done|..]; simpl.
  - pose proof (st_table _ _ _ Hst) as Ht.
    assert (Hext : ∀ x hx, x ∈ lru_ c → <[e := h]> (cells_ c) !! x = Some hx → cells_ c !! x = Some hx).
    { intros x hx Hx Hcx. apply lookup_insert_Some in Hcx as [[<- <-]|[_ Hcx]]; done. }
    split; [apply Ht..| | |].
    + intros x Hx. destruct (tbl_cells _ _ _ Ht x Hx) as (hx & Hhx & E). exists hx. split; [|done].
      rewrite lookup_insert_ne; [done|]. intros ->. done.
    + intros b chain x hx Hb Hx Hcx. apply (tbl_home _ _ _ Ht b chain x hx Hb Hx), Hext; [|done]. by apply (tbl_elem Ht b chain).
    + intros x x' hx hx' Hx Hx' Hcx Hcx'. apply (tbl_keys _ _ _ Ht x x' hx hx' Hx Hx'); by apply Hext.
  - apply NoDup_app. split_and!; [apply Hst|by intros x Hx ->%list_elem_of_singleton|apply NoDup_singleton].
  - intros x. rewrite held_cons. pose proof (st_refs _ _ _ Hst x) as Hx. unfold refs_of, in_list in *.
    destruct (decide (x ∈ lru_ c ++ [e])) as [Hin|Hin]; rewrite elem_of_app, list_elem_of_singleton in Hin;
      (destruct (decide (x = e)) as [->|Hne]; [rewrite lookup_insert_eq; simpl; try tauto; lia|rewrite lookup_insert_ne by done]);
      destruct (decide (x ∈ lru_ c)); try tauto; lia.
  - intros x w hx [[= -> ->]|Hx]%elem_of_cons Hcx; [by rewrite lookup_insert_eq in Hcx; simplify_eq|].
    apply lookup_insert_Some in Hcx as [[<- <-]|[Hne Hcx]]; [|by apply (st_values _ _ _ Hst x w)].
    apply held_elem in Hx. lia.
Qed.

(** What is found afterwards: the new mapping, and old ones for other keys. *)
Lemma insert_maps c' k' v' : sub_cells (cells_ c') (cells_ c1) →
  (∀ x, x ∈ lru_ c' → x = e ∨ x ∈ lru_ c ∧ ∀ hx, cells_ c !! x = Some hx → h_key hx ≠ k) →
  maps c' k' v' → (k' = k ∧ v' = v) ∨ (k' ≠ k ∧ maps c k' v').
Proof using Hinv.
  intros Hsub Hl (x & hx & Hx & Hcx & <- & <-). destruct (Hsub x hx Hcx) as (h0 & Hh0 & -> & -> & _). simpl in Hh0.
  destruct fresh_dead as (Hd & Hnl & _). apply lookup_insert_Some in Hh0 as [[<- <-]|[Hne Hh0]]; [by left|].
  destruct (Hl x Hx) as [->|[Hx' Hk]]; [done|]. right. split; [by apply Hk|by exists x, h0].
Qed.

Lemma new_key c' x : sub_cells (cells_ c') (cells_ c1) → cells_ c' !! e = Some x → h_key x = k.
Proof using Type. intros Hsub Hx. destruct (Hsub e x Hx) as (h0 & Hh0 & -> & _). simpl in Hh0. rewrite lookup_insert_eq in Hh0. by simplify_eq. Qed.

Lemma Insert_spec : ∃ c', LRU_Insert k (HashSlice k) v charge c = Some (e, c') ∧ capacity_ c' = capacity_ c ∧ LRUInv c' ((e, v) :: hs) ∧
  (∀ k' v', maps c' k' v' → (k' = k ∧ v' = v) ∨ (k' ≠ k ∧ maps c k' v')) ∧ (usage_ c' <= capacity_ c' → e ∈ lru_ c') ∧
  ∀ x, cells_ c' !! e = Some x → h_key x = k.
Proof using Hinv Hcharge Hz.
  pose proof allocate_state as Hst1. destruct fresh_dead as (Hd & Hnl & _). pose proof (LRUInv_small _ _ Hinv) as Hs.
  assert (Hheld : 0 < held e ((e, v) :: hs)) by (rewrite held_cons, decide_True by done; pose proof (held_nonneg e hs); lia).
  assert (EI : LRU_Insert k (HashSlice k) v charge c =
    ('(old, t) ← Table_Insert (cells_ c1) e (table_ c1);
     c2 ← match old with Some old => unlink_entry old (with_table t c1) | None => Some (with_table t c1) end;
     c' ← evict_loop (S (length (lru_ c2))) c2; Some (e, c'))) by reflexivity.
  rewrite EI. clear EI.
  assert (Hold : ∀ x, x ∈ lru_ c → <[e := h]> (cells_ c) !! x = cells_ c !! x).
  { intros x Hx. rewrite lookup_insert_ne; [done|]. by intros <-. }
  destruct (Table_Insert_spec (st_table _ _ _ Hst1) e h Hnl (lookup_insert_eq _ _ _) eq_refl ltac:(lia))
    as [(t' & E & Ht' & Hk)|(t' & old & ho & E & Ho & Hho & Hk & Ht')];
    rewrite E; cbn [mbind option_bind].
  - apply (TableOk_perm _ _ _ (lru_ c ++ [e])) in Ht'; [|solve_Permutation].
    pose proof (with_table_state _ t' _ _ _ Hst1 Ht') as Hst2. set (c2 := with_table t' c1) in *.
    destruct (evict_loop_spec _ (S (length (lru_ c2))) c2 Hst2) as (c' & -> & Hinv' & Hcap & Hsub & Hm & Hlast); [|lia|].
    { simpl. rewrite zlen_app, zlen_cons, zlen_nil. lia. }
    cbn [mbind option_bind]. exists c'. split_and!; [done|done|done| |by apply (Hlast (lru_ c))|intros x; by apply (new_key c')].
    intros k' v' H%Hm. apply (insert_maps c2); [apply sub_cells_refl| |done].
    intros x [Hx|Hx%list_elem_of_singleton]%elem_of_app; [right|by left]. split; [done|]. intros hx Hcx. apply (Hk x hx Hx). simpl. by rewrite Hold.
  - simpl in Hho. rewrite (Hold old Ho) in Hho. destruct Hinv as [Hst _].
    assert (Hoe : old ≠ e) by (by intros ->).
    assert (EF : filter (λ x, x ≠ old) (lru_ c ++ [e]) = filter (λ x, x ≠ old) (lru_ c) ++ [e]).
    { rewrite filter_app, (filter_cons _ e), decide_True by done. done. }
    apply (TableOk_perm _ _ _ (filter (λ x, x ≠ old) (lru_ c ++ [e]))) in Ht'; [|rewrite EF; solve_Permutation].
    pose proof (with_table_state _ t' _ _ _ Hst1 Ht') as Hst2. set (c2 := with_table t' c1) in *.
    destruct (unlink_spec Hst2 old eq_refl ltac:(simpl; apply elem_of_app; by left)) as (c3 & -> & Hst3 & Hl3 & Hcap3 & _ & _ & Hsub3).
    cbn [mbind option_bind].
    destruct (evict_loop_spec _ (S (length (lru_ c3))) c3 Hst3) as (c' & -> & Hinv' & Hcap & Hsub & Hm & Hlast); [|lia|].
    { rewrite Hl3. simpl. rewrite EF, zlen_app, zlen_cons, zlen_nil.
      pose proof (length_filter (λ x, x ≠ old) (lru_ c)). unfold zlen in *. lia. }
    cbn [mbind option_bind]. exists c'. split_and!; [done|by rewrite Hcap, Hcap3|done| |apply (Hlast (filter (λ x, x ≠ old) (lru_ c))); [by rewrite Hl3|done]|
      intros x; apply (new_key c'); by apply (sub_cells_trans _ (cells_ c3))].
    intros k' v' H%Hm. apply (insert_maps c3); [done| |done].
    intros x Hx. rewrite Hl3 in Hx. simpl in Hx. rewrite EF in Hx. apply elem_of_app in Hx as [[Hne Hx]%list_elem_of_filter|Hx%list_elem_of_singleton]; [right|by left].
    split; [done|]. intros hx Hcx Ek. apply Hne. apply (tbl_keys _ _ _ (st_table _ _ _ Hst) x old hx ho); [done..|]. by rewrite Ek, Hk.
Qed.
End Inserting.

(** ** All shards *)

(** The handles into shard [i]. *)
Definition shard_handles (i : nat) (hs : list (Handle * V)) : list (nat * V) :=
  (λ p, (handle_entry p.1, p.2)) <$> filter (λ p, shard_index (handle_hash p.1) = i) hs.

Definition ShardedInv (s : ShardedLRUCache) (hs : list (Handle * V)) (M : bytes → V → Prop) : Prop :=
  zlen (shard_ s) = kNumShards ∧ (∀ p, p ∈ hs → is_u 32 (handle_hash p.1)) ∧
  ∀ i c, shard_ s !! i = Some c → LRUInv c (shard_handles i hs) ∧ ∀ k v, maps c k v → M k v ∧ shard_index (HashSlice k) = i.

Lemma LRUInv_perm c hs hs' : hs ≡ₚ hs' → LRUInv c hs → LRUInv c hs'.
Proof.
  intros HP [[Hc Ht Hn Hr Hv] Hf]. split; [|done]. split; try done.
  - intros e. rewrite Hr. unfold held, zlen. by rewrite HP.
  - intros e v h. rewrite <- HP. apply Hv.
Qed.

Lemma shard_index_lt hash : is_u 32 hash → Z.of_nat (shard_index hash) < kNumShards.
Proof.
  intros Hh. unfold shard_index, Shard, kNumShards, kNumShardBits. unfold is_u in Hh. rewrite Z.shiftr_div_pow2 by lia.
  change (1 .<< 4) with 16. change (32 - 4) with 28. change (2 ^ 28) with 268435456. dlia.
Qed.

Lemma shard_handles_cons i h v hs : shard_handles i ((h, v) :: hs) =
  if decide (shard_index (handle_hash h) = i) then (handle_entry h, v) :: shard_handles i hs else shard_handles i hs.
Proof. unfold shard_handles. rewrite filter_cons. cbn [fst]. case_decide; reflexivity. Qed.

Lemma shard_handles_le i hs : zlen (shard_handles i hs) <= zlen hs.
Proof. unfold shard_handles, zlen. rewrite length_fmap. pose proof (length_filter (λ p : Handle * V, shard_index (handle_hash p.1) = i) hs). lia. Qed.

Lemma shard_get s hs M hash : ShardedInv s hs M → is_u 32 hash →
  ∃ c, shard_ s !! shard_index hash = Some c ∧ LRUInv c (shard_handles (shard_index hash) hs) ∧
    ∀ k v, maps c k v → M k v ∧ shard_index (HashSlice k) = shard_index hash.
Proof.
  intros (Hl & _ & Hs) Hh. destruct (lookup_lt_is_Some_2 (shard_ s) (shard_index hash)) as [c Hc].
  - pose proof (shard_index_lt hash Hh). unfold zlen in Hl. lia.
  - exists c. split; [done|]. by apply Hs.
Qed.

(** Changing one shard. *)
Lemma ShardedInv_update s hs hs' (M M' : bytes → V → Prop) i c' : ShardedInv s hs M →
  (∀ p, p ∈ hs' → is_u 32 (handle_hash p.1)) → (∀ j, j ≠ i → shard_handles j hs' = shard_handles j hs) →
  (∀ k v, M k v → shard_index (HashSlice k) ≠ i → M' k v) → LRUInv c' (shard_handles i hs') →
  (∀ k v, maps c' k v → M' k v ∧ shard_index (HashSlice k) = i) →
  ShardedInv {| shard_ := <[i := c']> (shard_ s); last_id_ := last_id_ s |} hs' M'.
Proof.
  intros (Hl & _ & Hs) Hh Hother HM Hc' Hm. split_and!; [unfold zlen in *; simpl; by rewrite length_insert|done|].
  intros j c Hj. simpl in Hj. destruct (decide (j = i)) as [->|Hne].
  - rewrite list_lookup_insert_eq in Hj; [by simplify_eq|]. apply lookup_lt_Some in Hj. by rewrite length_insert in Hj.
  - rewrite list_lookup_insert_ne in Hj by done. destruct (Hs j c Hj) as [Hc Hmc]. rewrite Hother by done. split; [done|].
    intros k v Hkv. destruct (Hmc k v Hkv) as [HMk Hi]. split; [|done]. apply HM; [done|]. congruence.
Qed.

Lemma cons_other i h v hs j : shard_index (handle_hash h) = i → j ≠ i → shard_handles j ((h, v) :: hs) = shard_handles j hs.
Proof. intros E Hj. rewrite shard_handles_cons, decide_False; congruence. Qed.

#[local] Opaque shard_index HashSlice.

Lemma Sharded_perm s hs hs' M : hs ≡ₚ hs' → ShardedInv s hs M → ShardedInv s hs' M.
Proof.
  intros HP (Hl & Hh & Hs). split_and!; [done|intros p; rewrite <- HP; apply Hh|].
  intros i c Hc. destruct (Hs i c Hc) as [Hi Hm]. split; [|done]. apply (LRUInv_perm c (shard_handles i hs)); [|done].
  unfold shard_handles. by rewrite HP.
Qed.

Lemma Sharded_weaken s hs (M M' : bytes → V → Prop) : (∀ k v, M k v → M' k v) → ShardedInv s hs M → ShardedInv s hs M'.
Proof.
  intros HM (Hl & Hh & Hs). split_and!; [done|done|]. intros i c Hc. destruct (Hs i c Hc) as [Hi Hm].
  split; [done|]. intros k v Hk. destruct (Hm k v Hk). auto.
Qed.

Lemma Sharded_Insert_ok s hs M k v charge : 1 <= charge < 2 ^ 32 → zlen hs < 2 ^ 31 → ShardedInv s hs M →
  ∃ h s', Sharded_Insert k v charge s = Some (h, s') ∧ ShardedInv s' ((h, v) :: hs) (λ k' v', (k' = k ∧ v' = v) ∨ (k' ≠ k ∧ M k' v')).
Proof.
  intros Hch Hz Hinv. destruct (shard_get s hs M _ Hinv (HashSlice_u32 k)) as (c & Hc & Hci & Hm).
  pose proof (shard_handles_le (shard_index (HashSlice k)) hs).
  destruct (Insert_spec c _ k v charge Hci Hch ltac:(lia)) as (c' & E & _ & Hci' & Hm' & _).
  unfold Sharded_Insert, on_shard. rewrite Hc. cbn [mbind option_bind]. rewrite E. cbn [mbind option_bind].
  eexists _, _. split; [done|]. apply (ShardedInv_update s hs _ M); [done|..].
  + intros p [->|Hp]%elem_of_cons; [apply HashSlice_u32|by apply Hinv].
  + intros j Hj. by apply (cons_other (shard_index (HashSlice k))).
  + intros k' v' HM Hne. right. split; [congruence|done].
  + by rewrite shard_handles_cons, decide_True.
  + intros k' v' [[-> ->]|[Hne Hkv]]%Hm'; [by split; [left|]|]. destruct (Hm k' v' Hkv). split; [by right|done].
Qed.

Lemma Sharded_Lookup_ok s hs M k : zlen hs < 2 ^ 31 → ShardedInv s hs M → ∃ o s', Sharded_Lookup k s = Some (o, s') ∧
  match o with None => ShardedInv s' hs M | Some h => ∃ v, M k v ∧ ShardedInv s' ((h, v) :: hs) M end.
Proof.
  intros Hz Hinv. destruct (shard_get s hs M _ Hinv (HashSlice_u32 k)) as (c & Hc & Hci & Hm).
  pose proof (shard_handles_le (shard_index (HashSlice k)) hs).
  destruct (Lookup_spec c _ k Hci ltac:(lia)) as (o & c' & E & _ & Hm' & Ho).
  unfold Sharded_Lookup, on_shard. rewrite Hc. cbn [mbind option_bind]. rewrite E. cbn [mbind option_bind].
  eexists _, _. split; [done|]. destruct o as [e|]; simpl.
  + destruct Ho as (v & Hkv & Hci'). exists v. split; [by apply Hm|].
    apply (ShardedInv_update s hs _ M); [done| | |done| |].
    * intros p [->|Hp]%elem_of_cons; [apply HashSlice_u32|by apply Hinv].
    * intros j Hj. by apply (cons_other (shard_index (HashSlice k))).
    * by rewrite shard_handles_cons, decide_True.
    * intros k' v' Hkv'. by apply Hm, Hm'.
  + apply (ShardedInv_update s hs _ M); [done|apply Hinv|done|done|done|]. intros k' v' Hkv'. by apply Hm, Hm'.
Qed.

Lemma Sharded_Release_ok s hs M h v : ShardedInv s ((h, v) :: hs) M → ∃ s', Sharded_Release h s = Some s' ∧ ShardedInv s' hs M.
Proof.
  intros Hinv. assert (Hh : is_u 32 (handle_hash h)) by (apply (proj1 (proj2 Hinv) (h, v)); by left).
  destruct (shard_get s _ M _ Hinv Hh) as (c & Hc & Hci & Hm). rewrite shard_handles_cons, decide_True in Hci by done.
  destruct (Release_spec c _ _ v Hci) as (c' & E & Hci' & _ & Hm').
  unfold Sharded_Release, on_shard. rewrite Hc. cbn [mbind option_bind]. rewrite E. cbn [mbind option_bind].
  eexists. split; [done|]. apply (ShardedInv_update s ((h, v) :: hs) _ M); [done| | |done|done|].
  + intros p Hp. apply (proj1 (proj2 Hinv)). by right.
  + intros j Hj. symmetry. by apply (cons_other (shard_index (handle_hash h))).
  + intros k' v' Hkv'. by apply Hm, Hm'.
Qed.

Lemma Sharded_Value_ok s hs M h v : ShardedInv s hs M → (h, v) ∈ hs → Sharded_Value h s = Some v.
Proof.
  intros Hinv Hin. assert (Hh : is_u 32 (handle_hash h)) by (by apply (proj1 (proj2 Hinv) (h, v))).
  destruct (shard_get s _ M _ Hinv Hh) as (c & Hc & [Hst _] & _).
  assert (Hin' : (handle_entry h, v) ∈ shard_handles (shard_index (handle_hash h)) hs).
  { apply list_elem_of_fmap. exists (h, v). split; [done|]. by apply list_elem_of_filter. }
  destruct (proj2 (st_alive Hst (handle_entry h))) as [x Hx]; [right; by apply (held_elem _ v)|].
  unfold Sharded_Value. rewrite Hc. cbn [mbind option_bind]. rewrite Hx. cbn [mbind option_bind].
  f_equal. by apply (st_values _ _ _ Hst (handle_entry h)).
Qed.

Lemma Sharded_Erase_ok s hs M k : ShardedInv s hs M → ∃ s', Sharded_Erase k s = Some s' ∧ ShardedInv s' hs (λ k' v, k' ≠ k ∧ M k' v).
Proof.
  intros Hinv. destruct (shard_get s hs M _ Hinv (HashSlice_u32 k)) as (c & Hc & Hci & Hm).
  pose proof (LRUInv_small _ _ Hci).
  destruct (Erase_spec c _ k Hci ltac:(lia)) as (c' & E & Hci' & _ & Hm').
  unfold Sharded_Erase, on_shard. rewrite Hc. cbn [mbind option_bind]. rewrite E. cbn [mbind option_bind].
  eexists. split; [done|]. apply (ShardedInv_update s hs _ M); [done|apply Hinv|done| |done|].
  + intros k' v' HM Hne. split; [congruence|done].
  + intros k' v' [Hne Hkv]%Hm'. destruct (Hm k' v' Hkv). done.
Qed.

(** An entry that fits is found right after its insertion. *)
Lemma Lookup_hit c hs k e h : LRUInv c hs → e ∈ lru_ c → cells_ c !! e = Some h → h_key h = k →
  ∃ c', LRU_Lookup k (HashSlice k) c = Some (Some e, c').
Proof.
  intros [Hst _] He Hh Ek. unfold LRU_Lookup.
  destruct (Table_Lookup_spec (st_table _ _ _ Hst) k) as [[_ H]|(e' & h' & -> & He' & Hh' & Ek')]; [by destruct (H e h He Hh)|].
  assert (e' = e) as -> by (apply (tbl_keys _ _ _ (st_table _ _ _ Hst) e' e h' h); congruence || done).
  cbn [mbind option_bind]. rewrite Hh. cbn [mbind option_bind]. unfold LRU_Remove. simpl. rewrite decide_True by done. by eexists.
Qed.

Lemma Sharded_hit s hs M k v charge h s' : 1 <= charge < 2 ^ 32 → zlen hs < 2 ^ 31 → ShardedInv s hs M →
  Sharded_Insert k v charge s = Some (h, s') → ∃ c, shard_ s' !! shard_index (HashSlice k) = Some c ∧
    (usage_ c <= capacity_ c → ∃ s'', Sharded_Lookup k s' = Some (Some h, s'')).
Proof.
  intros Hch Hz Hinv. destruct (shard_get s hs M _ Hinv (HashSlice_u32 k)) as (c & Hc & Hci & Hm).
  pose proof (shard_handles_le (shard_index (HashSlice k)) hs).
  destruct (Insert_spec c _ k v charge Hci Hch ltac:(lia)) as (c' & E & _ & Hci' & _ & Hin & Hkey).
  unfold Sharded_Insert, Sharded_Lookup, on_shard. rewrite Hc. cbn [mbind option_bind]. rewrite E. cbn [mbind option_bind].
  intros [= <- <-]. cbn [shard_]. exists c'. rewrite list_lookup_insert_eq by (by eapply lookup_lt_Some).
  split; [done|]. intros Hfit. cbn [mbind option_bind]. specialize (Hin Hfit).
  destruct (st_listed (proj1 Hci') _ Hin) as [x Hx].
  destruct (Lookup_hit c' _ k _ x Hci' Hin Hx (Hkey x Hx)) as [c'' ->]. by eexists.
Qed.

#[export] Instance ShardedLRUCache_ok : CacheOk ShardedInv.
Proof.
  split; [apply Sharded_perm|apply Sharded_weaken|apply Sharded_Insert_ok|apply Sharded_Lookup_ok|apply Sharded_Release_ok|
    apply Sharded_Value_ok|apply Sharded_Erase_ok].
Qed.

Lemma LRUCache_make_ok capacity : capacity < 2 ^ 31 - 1 → ∃ c, LRUCache_make capacity = Some c ∧ LRUInv c [] ∧ (∀ k v, ¬ maps c k v).
Proof.
  intros Hcap. unfold LRUCache_make, HandleTable_make.
  destruct (Resize_spec ∅ {| length_ := 0; elems_ := 0; list_ := [] |} []) as (t & -> & Ht);
    [done|done|done|constructor|by intros e ?%not_elem_of_nil|by intros e e' h h' ?%not_elem_of_nil|].
  cbn [mbind option_bind]. eexists. split; [done|]. split; [split; [split; simpl|by right]|].
  - split; simpl; try done; intros e h; by rewrite lookup_empty.
  - done.
  - constructor.
  - intros e. unfold refs_of. by rewrite lookup_empty.
  - by intros e v h ?%not_elem_of_nil.
  - intros k v (e & h & He & _). by apply not_elem_of_nil in He.
Qed.

Lemma NewLRUCache_ok capacity : 0 <= capacity <= 2 ^ 34 → ∃ s, NewLRUCache capacity = Some s ∧ ShardedInv s [] (λ _ _, False).
Proof.
  intros Hcap. unfold NewLRUCache. change kNumShards with 16.
  destruct (LRUCache_make_ok (u64 (capacity + (16 - 1)) / 16)) as (c & -> & Hc & Hm).
  { rewrite u64_small by (unfold is_u; lia). dlia. }
  cbn [mbind option_bind]. eexists. split; [done|]. split_and!; [done|by intros p ?%not_elem_of_nil|].
  intros i c' [-> _]%lookup_replicate. split; [done|]. intros k v Hk. by apply Hm in Hk.
Qed.
End LRU.

(** ** Properties *)

(** [C24] The LRU cache keeps the promises of the cache interface: an insertion replaces the
    mapping of its key and no other, a lookup finds only the value last inserted for its key
    and not erased since, a handle gives its value until it is released, and no operation
    uses an entry after it was freed, however lookups, evictions, erasures and releases
    interleave.  Between operations the usage is the sum of the charges of the live entries
    and exceeds the capacity of a shard only when nothing is left to evict; an entry that
    fits is found right after its insertion. *)
Theorem lru_cache_correct (V : Type) :
  CacheOk (V := V) ShardedInv ∧
  (∀ capacity, 0 <= capacity <= 2 ^ 34 → ∃ s : ShardedLRUCache (V := V), NewLRUCache capacity = Some s ∧ ShardedInv s [] (λ _ _, False)) ∧
  (∀ (s : ShardedLRUCache (V := V)) hs M k v charge h s', ShardedInv s hs M → 1 <= charge < 2 ^ 32 → zlen hs < 2 ^ 31 →
     Cache_Insert k v charge s = Some (h, s') → ∃ c, shard_ s' !! shard_index (HashSlice k) = Some c ∧
       (usage_ c <= capacity_ c → ∃ s'', Cache_Lookup k s' = Some (Some h, s''))) ∧
  (∀ (s : ShardedLRUCache (V := V)) (hs : list (Handle * V)) (M : bytes → V → Prop) c, ShardedInv s hs M → c ∈ shard_ s →
     usage_ c = total (cells_ c) ∧ (usage_ c <= capacity_ c ∨ lru_ c = [])).
Proof.
  split; [apply _|]. split; [apply NewLRUCache_ok|]. split; [intros * Hinv Hch Hz; by apply (Sharded_hit s hs M)|]. intros s hs M c (_ & _ & Hs) [i Hi]%list_elem_of_lookup.
  destruct (Hs i c Hi) as [[Hst Hfit] _]. split; [apply (cell_usage _ (st_cells _ _ _ Hst))|done].
Qed.
