(* ===== verification/TableCache.v ===== *)
(** * The table cache

    Model of [App/integration/table_cache.h] and [table_cache.cpp], built with [VERIFY]: open
    tables are kept in a [Cache] under their file number.  The cache is used through its
    interface, and opening files is the argument [NewRandomAccessFile] of the environment.
    [None] is a failed assertion, an access outside an array, or an operation the table
    rejects. *)
From stdpp Require Import sorting list.
From S2P Require Import Prelude Coding Comparator DbFormat Logging Status Filename Iterator TwoLevelIterator Block Filter Format TableBuilder Table Cache.

#[local] Open Scope Z_scope.
#[local] Open Scope word_scope.

Record TableAndFile := { tf_file : RandomAccessFile; tf_table : Table }.

(** The proof array and the number of entries filled so far. *)
Record Proofs := { pf : list Z; pf_index : Z }.

(** [while (x >>= 1) { ++h; }] *)
Fixpoint count_shifts (fuel : nat) (x h : Z) : Z :=
  match fuel with
  | O => h
  | S fuel => let x := x .>> 1 in if x =? 0 then h else count_shifts fuel x (h + 1)
  end.

Definition merkle_height (num_of_files file_size : Z) : Z :=
  let num_records := u64 (file_size / (2 .<< 20) * 7000) in
  let h := count_shifts 64 (u64 num_of_files) 0 in
  let h := h + 1 in
  let h := count_shifts 64 num_records h in
  h + 1.

(** [pf[*pf_index] = h; *pf_index = *pf_index + 1] *)
Definition push_proof (h : Z) (p : Proofs) : option Proofs :=
  if (0 <=? pf_index p) && (pf_index p <? zlen (pf p))
  then Some {| pf := <[Z.to_nat (pf_index p) := h]> (pf p); pf_index := pf_index p + 1 |}
  else None.

Abbreviation TableIterator := (TwoLevelIterator (EmptyIterator + BlockIter) (EmptyIterator + BlockIter)).

Section TableCache.
Context {C H : Type} `{!Cache C H TableAndFile}.

Record TableCache := {
  NewRandomAccessFile : bytes → Status * option RandomAccessFile;   (** of [env_] *)
  tc_dbname : bytes;
  tc_options : Options;
  cache_ : C;
}.

Definition with_cache (c : C) (t : TableCache) : TableCache :=
  {| NewRandomAccessFile := NewRandomAccessFile t; tc_dbname := tc_dbname t; tc_options := tc_options t; cache_ := c |}.

(** The file of a table: under its name, or else under its old name. *)
Definition open_file (file_number : Z) (t : TableCache) : Status * option RandomAccessFile :=
  let fname := TableFileName (tc_dbname t) file_number in
  let '(s, file) := NewRandomAccessFile t fname in
  if negb (Status_ok s) then
    let old_fname := SSTTableFileName (tc_dbname t) file_number in
    let '(s', file') := NewRandomAccessFile t old_fname in
    if Status_ok s' then (OK, file') else (s, file')
  else (s, file).

Definition FindTable (file_number file_size : Z) (t : TableCache) : option (Status * option H * TableCache) :=
  let key := EncodeFixed64 file_number in
  '(handle, c) ← Cache_Lookup key (cache_ t);
  let t := with_cache c t in
  match handle with
  | Some handle => Some (OK, Some handle, t)
  | None =>
      match open_file file_number t with
      | (s, file) =>
          if negb (Status_ok s) then Some (s, None, t)
          else
            file ← file;
            '(s, table) ← Open (tc_options t) file file_size;
            if negb (Status_ok s) then Some (s, None, t)
            else
              table ← table;
              '(handle, c) ← Cache_Insert key {| tf_file := file; tf_table := table |} 1 (cache_ t);
              Some (s, Some handle, with_cache c t)
      end
  end.

(** The iterator, the table under it, and the handle its cleanup function releases. *)
Definition TableCache_NewIterator (verify : bool) (file_number file_size : Z) (t : TableCache) :
    option ((EmptyIterator + TableIterator) * option Table * option H * TableCache) :=
  '(s, handle, t) ← FindTable file_number file_size t;
  if negb (Status_ok s) then Some (inl (NewErrorIterator s), None, None, t)
  else
    handle ← handle;
    tf ← Cache_Value handle (cache_ t);
    result ← Table_NewIterator (tf_table tf) verify;
    Some (inr result, Some (tf_table tf), Some handle, t).

(** The cleanup function of an iterator. *)
Definition UnrefEntry (handle : H) (t : TableCache) : option TableCache :=
  c ← Cache_Release handle (cache_ t); Some (with_cache c t).

(** The status, and the entry passed to [saver], if any. *)
Definition TableCache_Get (verify : bool) (file_number file_size : Z) (k : bytes) (t : TableCache) :
    option (Status * option (bytes * bytes) * TableCache) :=
  '(s, handle, t) ← FindTable file_number file_size t;
  if Status_ok s then
    handle ← handle;
    tf ← Cache_Value handle (cache_ t);
    '(s, saved) ← InternalGet (tf_table tf) verify k;
    c ← Cache_Release handle (cache_ t);
    Some (s, saved, with_cache c t)
  else Some (s, None, t).

Definition TableCache_SUGet (verify : bool) (num_of_files file_number file_size : Z) (k : bytes) (p : Proofs) (t : TableCache) :
    option (Status * option (bytes * bytes) * Proofs * TableCache) :=
  '(s, handle, t) ← FindTable file_number file_size t;
  if Status_ok s then
    handle ← handle;
    tf ← Cache_Value handle (cache_ t);
    '(s, saved) ← InternalGet (tf_table tf) verify k;
    c ← Cache_Release handle (cache_ t);
    p ← push_proof (merkle_height num_of_files file_size) p;
    Some (s, saved, p, with_cache c t)
  else Some (s, None, p, t).

Definition Evict (file_number : Z) (t : TableCache) : option TableCache :=
  c ← Cache_Erase (EncodeFixed64 file_number) (cache_ t); Some (with_cache c t).

(** ** What the table cache promises *)

Section Promise.
Context (CacheInv : C → list (H * TableAndFile) → (bytes → TableAndFile → Prop) → Prop) `{HCO : !CacheOk CacheInv}.
Context (valid : bytes → Prop) (user : Comparator) (policy : option FilterPolicy) `{HU : !ComparatorOk valid user}.

(** The files on disk: the size and the entries of the table files by number. *)
Abbreviation Files := (Z → option (Z * list (bytes * bytes))).

(** The table file of number [n] opens and was built from the entries [kvs]. *)
Definition FileOnDisk (t : TableCache) (n sz : Z) (kvs : list (bytes * bytes)) : Prop :=
  ∃ file data, open_file n t = (OK, Some file) ∧ FileHolds file data ∧ sz = zlen data ∧
    table_file (internal_valid valid) (tc_options t) kvs data.

Definition mapping_ok (files : Files) (k : bytes) (tf : TableAndFile) : Prop :=
  ∀ n sz kvs, is_u 64 n → k = EncodeFixed64 n → files n = Some (sz, kvs) → TableReads valid user kvs (tf_table tf).

(** Every cached table is the one of its file number. *)
Definition TCInv (files : Files) (t : TableCache) (hs : list (H * TableAndFile)) : Prop :=
  comparator (tc_options t) = InternalKeyComparator user ∧ filter_policy (tc_options t) = InternalFilterPolicy <$> policy ∧
  (∀ n sz kvs, files n = Some (sz, kvs) → is_u 64 n ∧ FileOnDisk t n sz kvs) ∧ CacheInv (cache_ t) hs (mapping_ok files).

Context (files : Files).

Lemma TCInv_cache t hs hs' c : TCInv files t hs → CacheInv c hs' (mapping_ok files) → TCInv files (with_cache c t) hs'.
Proof. intros (H1 & H2 & H3 & _) Hc. by split_and!. Qed.

Lemma EncodeFixed64_inj n m : is_u 64 n → is_u 64 m → EncodeFixed64 n = EncodeFixed64 m → n = m.
Proof.
  intros Hn Hm E. rewrite <- (u64_small n Hn), <- (u64_small m Hm).
  rewrite <- (DecodeEncodeFixed64 n []), <- (DecodeEncodeFixed64 m []). by rewrite E.
Qed.

Lemma FindTable_ok t hs n sz kvs : TCInv files t hs → zlen hs < 2 ^ 31 → files n = Some (sz, kvs) →
  ∃ h tf t', FindTable n sz t = Some (OK, Some h, t') ∧ TCInv files t' ((h, tf) :: hs) ∧ TableReads valid user kvs (tf_table tf).
Proof using HCO HU.
  intros Ht Hz Hf. pose proof Ht as (Hcmp & Hpol & Hdisk & Hc). destruct (Hdisk n sz kvs Hf) as [Hn (file & data & Ho & Hfile & -> & HT)].
  unfold FindTable. destruct (Lookup_ok _ _ _ (EncodeFixed64 n) Hz Hc) as (o & c & -> & Hco). cbn [mbind option_bind].
  destruct o as [h|].
  - destruct Hco as (tf & HM & Hc'). exists h, tf, (with_cache c t). split_and!; [done|by apply (TCInv_cache t hs)|].
    by apply (HM n (zlen data) kvs).
  - change (open_file n (with_cache c t)) with (open_file n t). rewrite Ho. cbn [Status_ok OK negb mbind option_bind].
    destruct (table_file_TableReads valid user policy (tc_options t) kvs data file) as (table & Hopen & Htr); [done..|].
    cbn [tc_options with_cache]. rewrite Hopen. cbn [mbind option_bind Status_ok OK negb cache_ with_cache].
    destruct (Insert_ok c hs (mapping_ok files) (EncodeFixed64 n) {| tf_file := file; tf_table := table |} 1 ltac:(lia) Hz Hco) as (h & c' & -> & Hc').
    cbn [mbind option_bind]. exists h, {| tf_file := file; tf_table := table |}, (with_cache c' t). split; [done|]. split; [|done].
    apply (TCInv_cache t hs); [done|]. refine (CacheInv_weaken _ _ _ _ _ Hc').
    intros k tf [[-> ->]|[_ HM]]; [|done]. intros n' sz' kvs' Hn' E Hf'. apply EncodeFixed64_inj in E as <-; [|done..]. by simplify_eq.
Qed.

(** The answer of a table to a read of [u] at snapshot [s]. *)
Definition table_answer (kvs : list (bytes * bytes)) (u : bytes) (s : Z) (res : option (bytes * bytes)) : Prop :=
  let k := internal_key (LookupKey_make u s) in
  (∀ e, res = Some e → e ∈ kvs ∧ Compare (InternalKeyComparator user) k e.1 <= 0) ∧
  (∀ x, x ∈ kvs → ExtractUserKey x.1 = u → Compare (InternalKeyComparator user) k x.1 <= 0 →
     ∃ e, res = Some e ∧ ExtractUserKey e.1 = u ∧ Compare (InternalKeyComparator user) e.1 x.1 <= 0).

Lemma cache_reads t hs n sz kvs verify u s : TCInv files t hs → zlen hs < 2 ^ 31 → files n = Some (sz, kvs) → valid u →
  0 <= s <= kMaxSequenceNumber → ∃ h tf t' c res, FindTable n sz t = Some (OK, Some h, t') ∧ Cache_Value h (cache_ t') = Some tf ∧
    InternalGet (tf_table tf) verify (internal_key (LookupKey_make u s)) = Some (OK, res) ∧ table_answer kvs u s res ∧
    Cache_Release h (cache_ t') = Some c ∧ TCInv files (with_cache c t') hs.
Proof using HCO HU.
  intros Ht Hz Hf Hu Hs. destruct (FindTable_ok t hs n sz kvs Ht Hz Hf) as (h & tf & t' & E & Ht' & Htr).
  destruct (reads_snapshot _ _ _ _ Htr verify u s Hu Hs) as (res & Hget & Hans). pose proof Ht' as (_ & _ & _ & Hc).
  destruct (Release_ok _ _ _ _ _ Hc) as (c & Hrel & Hc'). exists h, tf, t', c, res. split_and!; try done; [|by apply Hans..|].
  - apply (Value_ok _ _ _ _ _ Hc). by left.
  - by apply (TCInv_cache t' ((h, tf) :: hs)).
Qed.

Lemma TableCache_Get_ok t hs n sz kvs verify u s : TCInv files t hs → zlen hs < 2 ^ 31 → files n = Some (sz, kvs) → valid u →
  0 <= s <= kMaxSequenceNumber → ∃ res t', TableCache_Get verify n sz (internal_key (LookupKey_make u s)) t = Some (OK, res, t') ∧
    TCInv files t' hs ∧ table_answer kvs u s res.
Proof using HCO HU.
  intros Ht Hz Hf Hu Hs. destruct (cache_reads t hs n sz kvs verify u s Ht Hz Hf Hu Hs) as (h & tf & t' & c & res & E & Hv & Hg & Ha & Hr & Ht').
  unfold TableCache_Get. rewrite E. cbn [mbind option_bind Status_ok OK]. rewrite Hv. cbn [mbind option_bind]. rewrite Hg.
  cbn [mbind option_bind]. rewrite Hr. cbn [mbind option_bind]. by exists res, (with_cache c t').
Qed.

(** Room for one more proof entry. *)
Definition room (p : Proofs) : Prop := 0 <= pf_index p < zlen (pf p).

Lemma push_proof_ok h p : room p → push_proof h p = Some {| pf := <[Z.to_nat (pf_index p) := h]> (pf p); pf_index := pf_index p + 1 |}.
Proof using Type. unfold room, push_proof. intros Hp. destruct (Z.leb_spec 0 (pf_index p)), (Z.ltb_spec (pf_index p) (zlen (pf p))); simpl; done || lia. Qed.

Lemma TableCache_SUGet_ok t hs n sz kvs verify nfiles p u s : TCInv files t hs → zlen hs < 2 ^ 31 → files n = Some (sz, kvs) → valid u →
  0 <= s <= kMaxSequenceNumber → room p → ∃ res p' t',
    TableCache_SUGet verify nfiles n sz (internal_key (LookupKey_make u s)) p t = Some (OK, res, p', t') ∧
    TCInv files t' hs ∧ table_answer kvs u s res ∧ push_proof (merkle_height nfiles sz) p = Some p'.
Proof using HCO HU.
  intros Ht Hz Hf Hu Hs Hp. destruct (cache_reads t hs n sz kvs verify u s Ht Hz Hf Hu Hs) as (h & tf & t' & c & res & E & Hv & Hg & Ha & Hr & Ht').
  unfold TableCache_SUGet. rewrite E. cbn [mbind option_bind Status_ok OK]. rewrite Hv. cbn [mbind option_bind]. rewrite Hg.
  cbn [mbind option_bind]. rewrite Hr. cbn [mbind option_bind]. rewrite push_proof_ok by done. cbn [mbind option_bind].
  by eexists res, _, (with_cache c t').
Qed.

Lemma TableCache_NewIterator_ok t hs n sz kvs verify : TCInv files t hs → zlen hs < 2 ^ 31 → files n = Some (sz, kvs) →
  ∃ it table h tf t', TableCache_NewIterator verify n sz t = Some (inr it, Some table, Some h, t') ∧ TCInv files t' ((h, tf) :: hs) ∧
    positioned (internal_valid valid) (InternalKeyComparator user) kvs it None.
Proof using HCO HU.
  intros Ht Hz Hf. destruct (FindTable_ok t hs n sz kvs Ht Hz Hf) as (h & tf & t' & E & Ht' & Htr).
  destruct (reads_iterator _ _ _ _ Htr verify) as (it & Hit & Hpos). pose proof Ht' as (_ & _ & _ & Hc).
  exists it, (tf_table tf), h, tf, t'. split_and!; [|done|done]. unfold TableCache_NewIterator. rewrite E. cbn [mbind option_bind Status_ok OK negb].
  rewrite (Value_ok _ _ _ h tf Hc) by (by left). cbn [mbind option_bind]. by rewrite Hit.
Qed.

Lemma UnrefEntry_ok t hs h tf : TCInv files t ((h, tf) :: hs) → ∃ t', UnrefEntry h t = Some t' ∧ TCInv files t' hs.
Proof using HCO.
  intros Ht. pose proof Ht as (_ & _ & _ & Hc). destruct (Release_ok _ _ _ _ _ Hc) as (c & E & Hc').
  unfold UnrefEntry. rewrite E. eexists. split; [done|]. by apply (TCInv_cache t ((h, tf) :: hs)).
Qed.

Lemma Evict_ok t hs n : TCInv files t hs → ∃ t', Evict n t = Some t' ∧ TCInv files t' hs.
Proof using HCO.
  intros Ht. pose proof Ht as (_ & _ & _ & Hc). destruct (Erase_ok _ _ _ (EncodeFixed64 n) Hc) as (c & E & Hc').
  unfold Evict. rewrite E. eexists. split; [done|]. apply (TCInv_cache t hs); [done|].
  refine (CacheInv_weaken _ _ _ _ _ Hc'). by intros k v [_ ?].
Qed.
End Promise.
End TableCache.
