(* ===== verification/Version.v ===== *)
(** * Versions

    Model of the part of [App/integration/version_set.cpp] that reads a version, the table
    files of the seven levels: searching a level, listing the files that overlap a range, and
    looking up a key.  A vector of files is the list of what its pointers lead to; the
    reference counts and the seek counter of a file, which several versions share, are not
    modelled.  [None] is a failed assertion or undefined behaviour. *)
From stdpp Require Import sorting list.
From S2P Require Import Prelude Coding Comparator DbFormat Logging Status Iterator TwoLevelIterator Block Filter Format TableBuilder Table Cache TableCache MemTable Compaction VersionEdit.

#[local] Open Scope Z_scope.
#[local] Open Scope word_scope.

Definition kTargetFileSize : Z := 2 * 1048576.
Definition kMaxGrandParentOverlapBytes : Z := 10 * kTargetFileSize.
Definition kMaxMemCompactLevel : Z := 2.

(** An [int64_t], which the sizes of the files of a level do not overflow. *)
Definition TotalFileSize (files : list FileMetaData) : Z := foldl (λ sum f, sum + file_size f) 0 files.

(** ** Searching a level *)

Section Files.
Context (user : Comparator).
Abbreviation icmp := (InternalKeyComparator user).

Fixpoint FindFile_loop (fuel : nat) (files : list FileMetaData) (key : bytes) (l r : Z) : option Z :=
  match fuel with
  | O => None
  | S fuel =>
      if l <? r then
        let mid := u32 (l + r) / 2 in
        f ← files !! Z.to_nat mid;
        if Compare icmp (largest f) key <? 0 then FindFile_loop fuel files key (u32 (mid + 1)) r
        else FindFile_loop fuel files key l mid
      else Some r
  end.

Definition FindFile (files : list FileMetaData) (key : bytes) : option Z :=
  FindFile_loop (S (length files)) files key 0 (u32 (zlen files)).

(** A null user key is [None]. *)
Definition AfterFile (user_key : option bytes) (f : FileMetaData) : bool :=
  match user_key with
  | Some k => 0 <? Compare user k (ExtractUserKey (largest f))
  | None => false
  end.

Definition BeforeFile (user_key : option bytes) (f : FileMetaData) : bool :=
  match user_key with
  | Some k => Compare user k (ExtractUserKey (smallest f)) <? 0
  | None => false
  end.

Fixpoint any_overlap (files : list FileMetaData) (smallest_user_key largest_user_key : option bytes) : bool :=
  match files with
  | [] => false
  | f :: files =>
      if AfterFile smallest_user_key f || BeforeFile largest_user_key f then any_overlap files smallest_user_key largest_user_key
      else true
  end.

Definition SomeFileOverlapsRange (disjoint_sorted_files : bool) (files : list FileMetaData)
    (smallest_user_key largest_user_key : option bytes) : option bool :=
  if negb disjoint_sorted_files then Some (any_overlap files smallest_user_key largest_user_key)
  else
    index ← (match smallest_user_key with
             | Some k => FindFile files (InternalKey k kMaxSequenceNumber kValueTypeForSeek)
             | None => Some 0
             end);
    if zlen files <=? index then Some false
    else f ← files !! Z.to_nat index; Some (negb (BeforeFile largest_user_key f)).

(** ** The files of a level as an iterator *)

Record LevelFileNumIterator := { flist_ : list FileMetaData; index_ : Z }.

Definition LevelFileNumIterator_make (flist : list FileMetaData) : LevelFileNumIterator :=
  {| flist_ := flist; index_ := u32 (zlen flist) |}.

Definition level_at (i : Z) (s : LevelFileNumIterator) : LevelFileNumIterator := {| flist_ := flist_ s; index_ := i |}.
Definition level_valid (s : LevelFileNumIterator) : bool := index_ s <? zlen (flist_ s).
Definition level_Seek (target : bytes) (s : LevelFileNumIterator) : option LevelFileNumIterator :=
  i ← FindFile (flist_ s) target; Some (level_at i s).
Definition level_SeekToLast (s : LevelFileNumIterator) : option LevelFileNumIterator :=
  Some (level_at (match flist_ s with [] => 0 | _ => u32 (zlen (flist_ s) - 1) end) s).
Definition level_Next (s : LevelFileNumIterator) : option LevelFileNumIterator :=
  if level_valid s then Some (level_at (u32 (index_ s + 1)) s) else None.
Definition level_Prev (s : LevelFileNumIterator) : option LevelFileNumIterator :=
  if level_valid s then
    Some (if index_ s =? 0 then level_at (u32 (zlen (flist_ s))) s else level_at (index_ s - 1) s)
  else None.
Definition level_key (s : LevelFileNumIterator) : option bytes :=
  if level_valid s then f ← flist_ s !! Z.to_nat (index_ s); Some (largest f) else None.
Definition level_value (s : LevelFileNumIterator) : option bytes :=
  if level_valid s then
    f ← flist_ s !! Z.to_nat (index_ s); Some (EncodeFixed64 (number f) ++ EncodeFixed64 (file_size f))
  else None.

#[export] Instance LevelFileNumIterator_Iterator : Iterator LevelFileNumIterator := {
  Valid := level_valid;
  SeekToFirst s := Some (level_at 0 s);
  SeekToLast := level_SeekToLast;
  Seek := level_Seek;
  Next := level_Next;
  Prev := level_Prev;
  key := level_key;
  value := level_value;
  status _ := OK;
}.
End Files.

(** ** Versions *)

Record Version := { files_ : list (list FileMetaData) }.

Definition level_files (v : Version) (level : Z) : list FileMetaData := default [] (files_ v !! Z.to_nat level).

Section Version.
Context (user : Comparator).
Abbreviation icmp := (InternalKeyComparator user).

Definition OverlapInLevel (v : Version) (level : Z) (smallest_user_key largest_user_key : option bytes) : option bool :=
  SomeFileOverlapsRange user (0 <? level) (level_files v level) smallest_user_key largest_user_key.

(** [begin != NULL && user_cmp->Compare(k, user_begin) < 0] and its mirror image. *)
Definition below_begin (k : bytes) (user_begin : option bytes) : bool :=
  match user_begin with Some b => Compare user k b <? 0 | None => false end.
Definition above_end (k : bytes) (user_end : option bytes) : bool :=
  match user_end with Some e => 0 <? Compare user k e | None => false end.

(** The loop from index [i] on; it starts over when a level-0 file widens the range. *)
Fixpoint overlapping_loop (fuel : nat) (level0 : bool) (files : list FileMetaData) (i : nat)
    (user_begin user_end : option bytes) (inputs : list FileMetaData) : option (list FileMetaData) :=
  match fuel with
  | O => None
  | S fuel =>
      match files !! i with
      | None => Some inputs
      | Some f =>
          let i := S i in
          let file_start := ExtractUserKey (smallest f) in
          let file_limit := ExtractUserKey (largest f) in
          if below_begin file_limit user_begin then overlapping_loop fuel level0 files i user_begin user_end inputs
          else if above_end file_start user_end then overlapping_loop fuel level0 files i user_begin user_end inputs
          else
            let inputs := inputs ++ [f] in
            if level0 then
              if below_begin file_start user_begin then overlapping_loop fuel level0 files 0 (Some file_start) user_end []
              else if above_end file_limit user_end then overlapping_loop fuel level0 files 0 user_begin (Some file_limit) []
              else overlapping_loop fuel level0 files i user_begin user_end inputs
            else overlapping_loop fuel level0 files i user_begin user_end inputs
      end
  end.

(** Each of the two ends moves at most once per file, so [2n + 1] passes are enough. *)
Definition overlapping_fuel (files : list FileMetaData) : nat := (2 * length files + 1) * S (length files).

Definition GetOverlappingInputs (v : Version) (level : Z) (begin end_ : option bytes) : option (list FileMetaData) :=
  if (0 <=? level) && (level <? kNumLevels) then
    let files := level_files v level in
    overlapping_loop (overlapping_fuel files) (level =? 0) files 0 (ExtractUserKey <$> begin) (ExtractUserKey <$> end_) []
  else None.

Fixpoint pick_level_loop (fuel : nat) (v : Version) (level : Z) (smallest_user_key largest_user_key : bytes) : option Z :=
  match fuel with
  | O => None
  | S fuel =>
      if level <? kMaxMemCompactLevel then
        overlap ← OverlapInLevel v (level + 1) (Some smallest_user_key) (Some largest_user_key);
        if overlap : bool then Some level
        else
          stop ← (if level + 2 <? kNumLevels then
                    overlaps ← GetOverlappingInputs v (level + 2) (Some (InternalKey smallest_user_key kMaxSequenceNumber kValueTypeForSeek))
                                 (Some (InternalKey largest_user_key 0 kTypeDeletion));
                    Some (kMaxGrandParentOverlapBytes <? TotalFileSize overlaps)
                  else Some false);
          if stop : bool then Some level
          else pick_level_loop fuel v (level + 1) smallest_user_key largest_user_key
      else Some level
  end.

Definition PickLevelForMemTableOutput (v : Version) (smallest_user_key largest_user_key : bytes) : option Z :=
  overlap ← OverlapInLevel v 0 (Some smallest_user_key) (Some largest_user_key);
  if overlap : bool then Some 0 else pick_level_loop 3 v 0 smallest_user_key largest_user_key.

(** ** Looking up a key *)

(** The files of a level that may hold the key, in the order they are searched. *)
Definition NewestFirst (a b : FileMetaData) : Prop := number b <= number a.
#[export] Instance NewestFirst_dec : RelDecision NewestFirst.
Proof. intros a b. unfold NewestFirst. apply _. Defined.

Definition covers (user_key : bytes) (f : FileMetaData) : bool :=
  (0 <=? Compare user user_key (ExtractUserKey (smallest f))) && (Compare user user_key (ExtractUserKey (largest f)) <=? 0).

Definition files_to_search (v : Version) (level : Z) (user_key ikey : bytes) : option (list FileMetaData) :=
  let files := level_files v level in
  match files with
  | [] => Some []
  | _ =>
      if level =? 0 then Some (merge_sort NewestFirst (List.filter (covers user_key) files))
      else
        index ← FindFile user files ikey;
        if zlen files <=? index then Some []
        else
          f ← files !! Z.to_nat index;
          if Compare user user_key (ExtractUserKey (smallest f)) <? 0 then Some [] else Some [f]
  end.

(** The callback of [ForEachOverlapping] returns whether to go on. *)
Fixpoint visit_files {A} (func : Z → FileMetaData → A → bool * A) (level : Z) (files : list FileMetaData) (arg : A) : bool * A :=
  match files with
  | [] => (true, arg)
  | f :: files => let '(go, arg) := func level f arg in if go then visit_files func level files arg else (false, arg)
  end.

Fixpoint visit_levels {A} (fuel : nat) (v : Version) (level : Z) (user_key ikey : bytes)
    (func : Z → FileMetaData → A → bool * A) (arg : A) : option A :=
  match fuel with
  | O => Some arg
  | S fuel =>
      files ← files_to_search v level user_key ikey;
      let '(go, arg) := visit_files func level files arg in
      if go : bool then visit_levels fuel v (level + 1) user_key ikey func arg else Some arg
  end.

Definition ForEachOverlapping {A} (v : Version) (user_key internal_key : bytes) (func : Z → FileMetaData → A → bool * A) (arg : A) : option A :=
  visit_levels (Z.to_nat kNumLevels) v 0 user_key internal_key func arg.

Inductive SaverState := kSaverNotFound | kFound | kDeleted | kCorrupt.

(** [seq] is the value [s->seq] points to; [None] when the pointer was never set. *)
Record Saver := { state : SaverState; saved_value : bytes; saved_seq : option Z }.

Definition SaveValue (user_key ikey v : bytes) (s : Saver) : option Saver :=
  match ParseInternalKey ikey with
  | None => Some {| state := kCorrupt; saved_value := saved_value s; saved_seq := saved_seq s |}
  | Some parsed_key =>
      if Compare user (DbFormat.user_key parsed_key) user_key =? 0 then
        match type parsed_key with
        | kTypeValue =>
            _ ← saved_seq s;
            Some {| state := kFound; saved_value := v; saved_seq := Some (sequence parsed_key) |}
        | kTypeDeletion => Some {| state := kDeleted; saved_value := saved_value s; saved_seq := saved_seq s |}
        end
      else Some s
  end.

(** [GetStats]: the file to charge for a second seek. *)
Record GetStats := { seek_file : option FileMetaData; seek_file_level : Z }.
Definition GetStats_init : GetStats := {| seek_file := None; seek_file_level := -1 |}.

(** [last_file_read] with its level, and the statistics. *)
Record SeekState := { last_file_read : option FileMetaData; last_file_read_level : Z; stats_ : GetStats }.
Definition SeekState_init : SeekState := {| last_file_read := None; last_file_read_level := -1; stats_ := GetStats_init |}.

(** Before reading [f]: charge the first file once a second one is read. *)
Definition charge_seek (f : FileMetaData) (level : Z) (st : SeekState) : SeekState :=
  {| last_file_read := Some f; last_file_read_level := level;
     stats_ := match last_file_read st, seek_file (stats_ st) with
               | Some last, None => {| seek_file := Some last; seek_file_level := last_file_read_level st |}
               | _, _ => stats_ st
               end |}.

(** What the callback left, for the entry passed to it, if any. *)
Definition run_saver (user_key : bytes) (saved : option (bytes * bytes)) (s : Saver) : option Saver :=
  match saved with Some (k, v) => SaveValue user_key k v s | None => Some s end.

(** The [switch] on the state: the status to return, or [None] to go on. *)
Definition after_saver (user_key : bytes) (s : SaverState) : option Status :=
  match s with
  | kSaverNotFound => None
  | kFound => Some OK
  | kDeleted => Some (NotFound [] [])
  | kCorrupt => Some (Corruption (str "corrupted key for ") user_key)
  end.

Section Get.
Context {C H : Type} `{!Cache C H TableAndFile}.
Abbreviation TC := (TableCache (C := C)).

(** What [SUGet] writes: the value, the sequence number, the seek statistics, the proof array
    and the table cache. *)
Record GetState := { g_value : bytes; g_seq : Z; g_seek : SeekState; g_proofs : Proofs; g_cache : TC }.

Fixpoint search_files (verify : bool) (num_files level : Z) (user_key ikey : bytes) (files : list FileMetaData) (g : GetState) :
    option (option Status * GetState) :=
  match files with
  | [] => Some (None, g)
  | f :: files =>
      let seek := charge_seek f level (g_seek g) in
      '(s, saved, p, tc) ← TableCache_SUGet verify num_files (number f) (file_size f) ikey (g_proofs g) (g_cache g);
      saver ← run_saver user_key saved {| state := kSaverNotFound; saved_value := g_value g; saved_seq := Some (g_seq g) |};
      let g := {| g_value := saved_value saver; g_seq := default (g_seq g) (saved_seq saver); g_seek := seek; g_proofs := p; g_cache := tc |} in
      if negb (Status_ok s) then Some (Some s, g)
      else
        match after_saver user_key (state saver) with
        | Some s => Some (Some s, g)
        | None => search_files verify num_files level user_key ikey files g
        end
  end.

Fixpoint search_levels (fuel : nat) (verify : bool) (v : Version) (level : Z) (user_key ikey : bytes) (g : GetState) :
    option (option Status * GetState) :=
  match fuel with
  | O => Some (None, g)
  | S fuel =>
      files ← files_to_search v level user_key ikey;
      '(o, g) ← search_files verify (zlen (level_files v level)) level user_key ikey files g;
      match o with
      | Some s => Some (Some s, g)
      | None => search_levels fuel verify v (level + 1) user_key ikey g
      end
  end.

Definition Version_SUGet (verify : bool) (v : Version) (k : LookupKey) (value : bytes) (seq : Z) (p : Proofs) (tc : TC) :
    option (Status * GetState) :=
  '(o, g) ← search_levels (Z.to_nat kNumLevels) verify v 0 (lookup_user_key k) (internal_key k)
              {| g_value := value; g_seq := seq; g_seek := SeekState_init; g_proofs := p; g_cache := tc |};
  Some (default (NotFound [] []) o, g).

(** [Get] shares one saver between all files and never sets its [seq]; [None] as the saver
    stands for its uninitialised state. *)
Record GetState0 := { g0_value : bytes; g0_saver : option SaverState; g0_seek : SeekState; g0_cache : TC }.

Fixpoint get_files (verify : bool) (level : Z) (user_key ikey : bytes) (files : list FileMetaData) (g : GetState0) :
    option (option (Status * bool) * GetState0) :=
  match files with
  | [] => Some (None, g)
  | f :: files =>
      let seek := charge_seek f level (g0_seek g) in
      '(s, saved, tc) ← TableCache_Get verify (number f) (file_size f) ikey (g0_cache g);
      saver ← run_saver user_key saved {| state := kSaverNotFound; saved_value := g0_value g; saved_seq := None |};
      let g := {| g0_value := saved_value saver; g0_saver := Some (state saver); g0_seek := seek; g0_cache := tc |} in
      if negb (Status_ok s) then Some (Some (s, true), g)
      else
        match after_saver user_key (state saver) with
        | Some s => Some (Some (s, false), g)
        | None => get_files verify level user_key ikey files g
        end
  end.

Fixpoint get_levels (fuel : nat) (verify : bool) (v : Version) (level : Z) (user_key ikey : bytes) (g : GetState0) :
    option (option (Status * bool) * GetState0) :=
  match fuel with
  | O => Some (None, g)
  | S fuel =>
      files ← files_to_search v level user_key ikey;
      '(o, g) ← get_files verify level user_key ikey files g;
      match o with
      | Some s => Some (Some s, g)
      | None => get_levels fuel verify v (level + 1) user_key ikey g
      end
  end.

(** A status with [true] is returned on the spot; the others go through the label [ret],
    which reads the state of the saver. *)
Definition Version_Get (verify : bool) (v : Version) (k : LookupKey) (value : bytes) (tc : TC) : option (Status * GetState0) :=
  '(o, g) ← get_levels (Z.to_nat kNumLevels) verify v 0 (lookup_user_key k) (internal_key k)
              {| g0_value := value; g0_saver := None; g0_seek := SeekState_init; g0_cache := tc |};
  match o with
  | Some (s, true) => Some (s, g)
  | _ =>
      saver ← g0_saver g;
      let s := match o with Some (s, _) => s | None => OK end in
      Some (match saver with kSaverNotFound => NotFound [] [] | _ => s end, g)
  end.
End Get.
End Version.

(** ** Searching sorted files *)

(** The entries [LevelFileNumIterator] ranges over. *)
Definition file_kv (f : FileMetaData) : bytes * bytes := (largest f, EncodeFixed64 (number f) ++ EncodeFixed64 (file_size f)).
Definition level_kvs (files : list FileMetaData) : list (bytes * bytes) := file_kv <$> files.

Section Sorted.
Context {valid : bytes → Prop} {user : Comparator} `{HU : !ComparatorOk valid user}.
Abbreviation icmp := (InternalKeyComparator user).
Abbreviation ivalid := (internal_valid valid).

(** A file with well-formed ends: internal keys that parse, in order. *)
Record FileOk (f : FileMetaData) : Prop := {
  smallest_valid : ivalid (smallest f);
  largest_valid : ivalid (largest f);
  smallest_parses : is_Some (ParseInternalKey (smallest f));
  largest_parses : is_Some (ParseInternalKey (largest f));
  ends_ordered : Compare icmp (smallest f) (largest f) <= 0;
}.

(** Disjoint files in increasing order. *)
Record LevelOk (files : list FileMetaData) : Prop := {
  level_file_ok : Forall FileOk files;
  level_disjoint : StronglySorted (λ a b, Compare icmp (largest a) (smallest b) < 0) files;
  level_size : zlen files < 2 ^ 31;
}.

Lemma level_kvs_sorted files : LevelOk files → sorted_kvs ivalid icmp (level_kvs files).
Proof using HU.
  intros [Hf Hs _]. split.
  - apply Forall_fmap. apply (Forall_impl _ _ _ Hf). by intros f [].
  - induction Hs as [|f files Hs IH Hlt]; [constructor|]. apply Forall_cons_iff in Hf as [Hf Hfs]. constructor; [by apply IH|].
    apply Forall_fmap. rewrite Forall_forall in Hlt, Hfs |- *. intros g Hg. unfold key_lt. cbn [fst file_kv].
    destruct (Hfs g Hg). apply (Compare_lt_le (valid := ivalid) _ (smallest g)); [by destruct Hf|done|done|by apply Hlt|done].
Qed.

Lemma FindFile_loop_spec files t : sorted_kvs ivalid icmp (level_kvs files) → ivalid t → zlen files < 2 ^ 31 →
  ∀ fuel l r, 0 <= l <= r → r <= zlen files → r - l < Z.of_nat fuel →
  l <= Z.of_nat (lower_bound icmp (level_kvs files) t) <= r →
  FindFile_loop user fuel files t l r = Some (Z.of_nat (lower_bound icmp (level_kvs files) t)).
Proof using HU.
  intros Hs Ht Hz. induction fuel as [|fuel IH]; intros l r Hl Hr Hf Hb; [lia|]. cbn [FindFile_loop].
  destruct (Z.ltb_spec l r); [|f_equal; lia]. rewrite (u32_small (l + r)) by (unfold is_u; lia).
  set (mid := (l + r) / 2). assert (Hmid : l <= mid < r) by (unfold mid; dlia).
  destruct (lookup_lt_is_Some_2 files (Z.to_nat mid)) as [f Hfl]; [unfold zlen in *; lia|]. rewrite Hfl. cbn [mbind option_bind].
  assert (Hk : level_kvs files !! Z.to_nat mid = Some (file_kv f)) by (unfold level_kvs; by rewrite list_lookup_fmap, Hfl).
  destruct (Z.ltb_spec (Compare icmp (largest f) t) 0) as [Hlt|Hge].
  - rewrite u32_small by (unfold is_u; lia). apply IH; try lia.
    enough (¬ (lower_bound icmp (level_kvs files) t <= Z.to_nat mid)%nat) by lia. intros Hle.
    pose proof (cut_after _ (below icmp t) _ _ Hs (below_downward t Ht) Hle Hk) as Hb'. apply Z.ltb_ge in Hb'. cbn [fst file_kv] in Hb'. lia.
  - apply IH; try lia. enough (¬ (Z.to_nat mid < lower_bound icmp (level_kvs files) t)%nat) by lia. intros Hlt.
    pose proof (cut_before (below icmp t) _ _ _ Hlt Hk) as Hb'. apply Z.ltb_lt in Hb'. cbn [fst file_kv] in Hb'. lia.
Qed.

(** [FindFile] returns the first file whose largest key is at or past the key. *)
Lemma FindFile_spec files t : LevelOk files → ivalid t → FindFile user files t = Some (Z.of_nat (lower_bound icmp (level_kvs files) t)).
Proof using HU.
  intros HL Ht. pose proof (level_size _ HL) as Hz. pose proof (zlen_nonneg files).
  unfold FindFile. rewrite u32_small by (unfold is_u; lia). apply FindFile_loop_spec; [by apply level_kvs_sorted|done|done|lia|lia|unfold zlen; lia|].
  pose proof (cut_le (below icmp t) (level_kvs files)) as Hc. unfold level_kvs in Hc at 2. rewrite length_fmap in Hc. unfold lower_bound, zlen. lia.
Qed.
End Sorted.

(** ** The files of a level as an iterator *)

Section LevelIterator.
Context {valid : bytes → Prop} {user : Comparator} `{HU : !ComparatorOk valid user}.
Context (files : list FileMetaData) (HL : LevelOk (valid := valid) (user := user) files).
#[local] Existing Instance LevelFileNumIterator_Iterator.

(** The iterator is at file [p], or past the last file. *)
Definition LevelR (s : LevelFileNumIterator) (p : option nat) : Prop :=
  flist_ s = files ∧ index_ s = Z.of_nat (default (length files) p) ∧ ∀ i, p = Some i → (i < length files)%nat.

Lemma LevelR_at s i : flist_ s = files → (i <= length files)%nat → LevelR (level_at (Z.of_nat i) s) (at_index (level_kvs files) i).
Proof using Type.
  intros Hf Hi. unfold at_index, level_kvs. rewrite length_fmap. case_decide; (split_and!; [done|simpl; f_equal; lia|]).
  - intros j [= ->]. done.
  - done.
Qed.

Lemma level_valid_ok s p : LevelR s p → level_valid s = bool_decide (is_Some p).
Proof using Type.
  intros (Hf & Hi & Hb). unfold level_valid. rewrite Hf, Hi. unfold zlen. destruct p as [i|]; simpl.
  - specialize (Hb i eq_refl). destruct (Z.ltb_spec (Z.of_nat i) (Z.of_nat (length files))); [done|lia].
  - by rewrite Z.ltb_irrefl.
Qed.

Lemma LevelFileNumIterator_ok : IteratorOk (S := LevelFileNumIterator) (Iterator0 := LevelFileNumIterator_Iterator user) (internal_valid valid) (InternalKeyComparator user) (level_kvs files) LevelR.
Proof using HU HL.
  assert (Hlen : length (level_kvs files) = length files) by apply length_fmap.
  pose proof (level_size _ HL) as Hz. unfold zlen in Hz.
  split; simpl.
  - intros s i (_ & _ & Hb). rewrite Hlen. by apply Hb.
  - apply level_valid_ok.
  - intros s i kv HR Hl. unfold level_key. rewrite (level_valid_ok s (Some i) HR). destruct HR as (Hf & Hi & _). simpl. rewrite Hf, Hi. simpl.
    rewrite Nat2Z.id. unfold level_kvs in Hl. rewrite list_lookup_fmap in Hl. destruct (files !! i); [|done]. simpl in *. by simplify_eq.
  - intros s i kv HR Hl. unfold level_value. rewrite (level_valid_ok s (Some i) HR). destruct HR as (Hf & Hi & _). simpl. rewrite Hf, Hi. simpl.
    rewrite Nat2Z.id. unfold level_kvs in Hl. rewrite list_lookup_fmap in Hl. destruct (files !! i); [|done]. simpl in *. by simplify_eq.
  - done.
  - intros s p (Hf & _). eexists. split; [done|]. by apply (LevelR_at s 0); [|lia].
  - intros s p (Hf & _). eexists. split; [done|]. rewrite Hlen. unfold LevelR, level_at, zlen. cbn [flist_ index_].
    rewrite <- Hf in Hz |- *. destruct (flist_ s) as [|f fs]; (split_and!; [done| |]); simpl in *; [done|done| |intros i [= <-]; lia].
    rewrite u32_small by (unfold is_u; lia). lia.
  - intros t s p Ht (Hf & _). unfold level_Seek. rewrite Hf, (FindFile_spec files t HL Ht). cbn [mbind option_bind]. eexists. split; [done|].
    apply LevelR_at; [done|]. rewrite <- Hlen. apply cut_le.
  - intros s i HR. unfold level_Next. rewrite (level_valid_ok s (Some i) HR). destruct HR as (Hf & Hi & Hb). specialize (Hb i eq_refl). simpl in *.
    eexists. split; [done|]. rewrite Hi, u32_small by (unfold is_u; lia). replace (Z.of_nat i + 1) with (Z.of_nat (S i)) by lia. by apply LevelR_at.
  - intros s i HR. unfold level_Prev. rewrite (level_valid_ok s (Some i) HR). destruct HR as (Hf & Hi & Hb). specialize (Hb i eq_refl). simpl in *.
    eexists. split; [done|]. rewrite Hi. destruct i as [|i]; simpl.
    + split_and!; [done|simpl; rewrite Hf; unfold zlen; rewrite u32_small by (unfold is_u; lia); done|done].
    + split_and!; [done|simpl; lia|]. intros j [= <-]. lia.
Qed.
End LevelIterator.

(** ** Entries of a table at a snapshot *)

Section Entries.
Context {valid : bytes → Prop} {user : Comparator} `{HU : !ComparatorOk valid user}.
Abbreviation icmp := (InternalKeyComparator user).
Abbreviation ivalid := (internal_valid valid).

Lemma entry_ikey_valid e : entry_ok valid e → ivalid (entry_ikey e).
Proof using HU.
  intros (_ & Hv & _). apply internal_valid_app; [|done]. by apply (valid_bytes (valid := valid) (c := user)).
Qed.

Lemma entry_ikey_user e : ExtractUserKey (entry_ikey e) = e_key e.
Proof using Type. apply ExtractUserKey_app. Qed.

Lemma entry_ikey_parses e : entry_ok valid e →
  ParseInternalKey (entry_ikey e) = Some {| user_key := e_key e; sequence := e_seq e; type := e_type e |}.
Proof using Type. intros (Hs & _). exact (ParseInternalKey_Append {| user_key := e_key e; sequence := e_seq e; type := e_type e |} Hs). Qed.

Section Snapshot.
Context (u : bytes) (s : Z) (Hu : valid u) (Hs : 0 <= s <= kMaxSequenceNumber).
Let ikey := internal_key (LookupKey_make u s).

Lemma ikey_ivalid : ivalid ikey.
Proof using HU Hu. apply internal_valid_app; [by apply (valid_bytes (valid := valid) (c := user))|done]. Qed.
Lemma ikey_user : ExtractUserKey ikey = u.
Proof using Type. apply ExtractUserKey_app. Qed.

(** The snapshot sees an entry of [u] exactly when the entry is not before the key. *)
Lemma sees_entry e : entry_ok valid e → e_key e = u → Compare icmp ikey (entry_ikey e) <= 0 ↔ e_seq e <= s.
Proof using HU Hu Hs.
  intros He Hk. destruct (target_order (valid := valid) (user := user) e u s He Hu Hs) as (_ & _ & H3). specialize (H3 Hk).
  rewrite <- (Compare_nlt (valid := ivalid) (c := icmp)) by (by apply entry_ikey_valid || apply ikey_ivalid).
  change (Compare icmp (entry_ikey e) ikey) with (InternalKeyComparator_Compare user (entry_ikey e) (InternalKey u s kTypeValue)). lia.
Qed.

(** Among entries of one user key, the order is by sequence number, newest first. *)
Lemma entry_order e e' : entry_ok valid e → entry_ok valid e' → e_key e = e_key e' →
  Compare icmp (entry_ikey e) (entry_ikey e') <= 0 → e_seq e' <= e_seq e.
Proof using HU.
  intros He He' Hk Hle. apply Z.nlt_ge. intros Hlt.
  pose proof (icmp_same_user (valid := valid) (user := user) (e_key e) (e_seq e') (e_type e') (e_seq e) (e_type e)) as Hgt.
  specialize (Hgt ltac:(apply He) ltac:(apply He') ltac:(apply He) Hlt). rewrite Hk in Hgt at 1. fold (entry_ikey e') (entry_ikey e) in Hgt.
  apply (Compare_nlt (valid := ivalid) (c := icmp)) in Hle; [done|by apply entry_ikey_valid..].
Qed.

Lemma visible_Some es e : visible u s es = Some e → e ∈ es ∧ e_key e = u ∧ e_seq e <= s.
Proof using Type.
  intros [Hin Hp]%List.find_some. apply andb_true_iff in Hp as [Hk%bool_decide_eq_true Hq%Z.leb_le]. split; [by apply list_elem_of_In|done].
Qed.
Lemma visible_None es e : visible u s es = None → e ∈ es → e_key e = u → s < e_seq e.
Proof using Type.
  intros HN He Hk. apply list_elem_of_In in He. pose proof (List.find_none _ _ HN e He) as Hp.
  cbv beta in Hp. rewrite bool_decide_eq_true_2 in Hp by done. by apply Z.leb_gt in Hp.
Qed.

(** In a sorted table the first visible entry is the least one in key order. *)
Lemma visible_first es e e' : sorted_kvs ivalid icmp (entry_kv <$> es) → visible u s es = Some e →
  e' ∈ es → e_key e' = u → e_seq e' <= s → Compare icmp (entry_ikey e) (entry_ikey e') <= 0.
Proof using HU.
  intros Hsort Hv He' Hk' Hq'. induction es as [|x es IH]; [done|].
  rewrite fmap_cons in Hsort. change (entry_kv x :: (entry_kv <$> es)) with ([entry_kv x] ++ (entry_kv <$> es)) in Hsort.
  destruct (sorted_app_inv _ _ Hsort) as ([Vx _] & Hsort' & Hlt). unfold visible in Hv. cbn [List.find] in Hv.
  destruct (bool_decide (e_key x = u) && (e_seq x <=? s)) eqn:E.
  - injection Hv as ->. apply elem_of_cons in He' as [->|He'].
    + rewrite (Compare_refl (valid := ivalid)); [done|]. by apply Forall_cons_iff in Vx as [? _].
    + apply Z.lt_le_incl, (Hlt (entry_kv e) (entry_kv e')); [by left|]. by apply list_elem_of_fmap_2.
  - apply IH; [done|done|]. apply elem_of_cons in He' as [->|He']; [|done]. rewrite bool_decide_eq_true_2 in E by done. apply Z.leb_gt in E. lia.
Qed.

Lemma visible_newest es e : sorted_kvs ivalid icmp (entry_kv <$> es) → Forall (entry_ok valid) es → visible u s es = Some e → newest es u s e.
Proof using HU.
  intros Hsort Hok Hv. destruct (visible_Some es e Hv) as (Hin & Hk & Hq). split_and!; [done|done|done|].
  intros e' He' Hk' Hq'. rewrite Forall_forall in Hok. apply entry_order; [by apply Hok..|congruence|by apply (visible_first es)].
Qed.

(** What the callback makes of the answer of a table. *)
Definition saver_of (o : option Entry) (sv : Saver) : Saver :=
  match o with
  | None => sv
  | Some e =>
      match e_type e with
      | kTypeValue => {| state := kFound; saved_value := e_value e; saved_seq := Some (e_seq e) |}
      | kTypeDeletion => {| state := kDeleted; saved_value := saved_value sv; saved_seq := saved_seq sv |}
      end
  end.

Lemma SaveValue_entry e sv : entry_ok valid e → is_Some (saved_seq sv) →
  SaveValue user u (entry_ikey e) (e_value e) sv = Some (if bool_decide (e_key e = u) then saver_of (Some e) sv else sv).
Proof using HU Hu.
  intros He [q Hq]. unfold SaveValue. rewrite entry_ikey_parses by done. cbn [DbFormat.user_key type sequence].
  case_bool_decide as Hk.
  - rewrite Hk, (Compare_refl (valid := valid)) by done. cbn [Z.eqb]. unfold saver_of. rewrite Hq. by destruct (e_type e).
  - destruct (Z.eqb_spec (Compare user (e_key e) u) 0) as [E|E]; [|done]. apply (Compare_eq (valid := valid)) in E; [done|apply He|done].
Qed.

Lemma entry_kv_inj e e' : entry_ok valid e → entry_ok valid e' → entry_kv e = entry_kv e' → e = e'.
Proof using Type.
  intros He He' [= E Ev]. pose proof (entry_ikey_parses e He) as P1. pose proof (entry_ikey_parses e' He') as P2.
  rewrite E, P2 in P1. destruct e, e'; simpl in *. by simplify_eq.
Qed.

Lemma run_saver_spec es res sv : sorted_kvs ivalid icmp (entry_kv <$> es) → Forall (entry_ok valid) es →
  table_answer user (entry_kv <$> es) u s res → is_Some (saved_seq sv) →
  run_saver user u res sv = Some (saver_of (visible u s es) sv).
Proof using HU Hu Hs.
  intros Hsort Hok [Ha1 Ha2] Hq. fold ikey in Ha1, Ha2.
  assert (Hres : ∀ kv, res = Some kv → ∃ e, e ∈ es ∧ kv = entry_kv e ∧ entry_ok valid e ∧ (e_key e = u → e_seq e <= s)).
  { intros kv Hkv. destruct (Ha1 kv Hkv) as [(e & -> & Hin)%list_elem_of_fmap Hle]. rewrite Forall_forall in Hok.
    exists e. split_and!; [done|done|by apply Hok|]. intros Hk. by apply sees_entry; [apply Hok| |]. }
  destruct (visible u s es) as [e|] eqn:Hv.
  - destruct (visible_Some es e Hv) as (Hin & Hk & Hle). pose proof (proj1 (Forall_forall _ _) Hok e Hin) as He.
    destruct (Ha2 (entry_kv e)) as (kv & -> & Hkv & Hcmp); [by apply list_elem_of_fmap_2|exact (eq_trans (entry_ikey_user e) Hk)|by apply sees_entry|].
    destruct (Hres kv eq_refl) as (e' & Hin' & -> & He' & Hle'). cbn [fst entry_kv] in *. rewrite entry_ikey_user in Hkv.
    pose proof (visible_first es e e' Hsort Hv Hin' Hkv (Hle' Hkv)) as Hcmp'.
    assert (E : entry_ikey e = entry_ikey e').
    { apply (Compare_eq (valid := ivalid) (c := icmp)); [by apply entry_ikey_valid..|].
      apply (Compare_nlt (valid := ivalid) (c := icmp)) in Hcmp; [lia|by apply entry_ikey_valid..]. }
    assert (e' = e) as ->.
    { apply list_elem_of_lookup in Hin as [i Hi], Hin' as [j Hj].
      assert (Hi' : (entry_kv <$> es) !! i = Some (entry_kv e)) by (by rewrite list_lookup_fmap, Hi).
      assert (Hj' : (entry_kv <$> es) !! j = Some (entry_kv e')) by (by rewrite list_lookup_fmap, Hj).
      pose proof (lower_bound_at _ _ _ Hsort Hi') as E1. pose proof (lower_bound_at _ _ _ Hsort Hj') as E2.
      cbn [fst entry_kv] in E1, E2. rewrite E, E2 in E1. congruence. }
    unfold run_saver, entry_kv. rewrite SaveValue_entry by done. by rewrite bool_decide_eq_true_2.
  - destruct res as [kv|]; [|done]. destruct (Hres kv eq_refl) as (e' & Hin' & -> & He' & Hle').
    unfold run_saver, entry_kv. rewrite SaveValue_entry by done. rewrite bool_decide_eq_false_2; [done|].
    intros Hk. pose proof (visible_None es e' Hv Hin' Hk). specialize (Hle' Hk). lia.
Qed.
End Snapshot.
End Entries.

(** ** Well-formed versions *)

Lemma StronglySorted_lookup_lt {A} (R : A → A → Prop) (l : list A) i j a b : StronglySorted R l → (i < j)%nat →
  l !! i = Some a → l !! j = Some b → R a b.
Proof.
  intros Hs. revert i j. induction Hs as [|x l Hs IH Hx]; intros i j Hij Ha Hb; [done|].
  destruct j as [|j]; [lia|]. destruct i as [|i]; simpl in Ha, Hb; [simplify_eq; exact (Forall_lookup_1 _ _ _ _ Hx Hb)|].
  apply (IH i j); [lia|done..].
Qed.

Lemma NoDup_List_filter {A} (p : A → bool) (l : list A) : NoDup l → NoDup (List.filter p l).
Proof.
  induction 1 as [|x l Hx Hn IH]; [constructor|]. cbn [List.filter]. destruct (p x); [|done]. constructor; [|done].
  intros Hin. apply Hx. rewrite list_elem_of_In, List.filter_In in Hin. apply list_elem_of_In, Hin.
Qed.

Lemma NoDup_fmap_elem {A B} (f : A → B) (l : list A) x y : NoDup (f <$> l) → x ∈ l → y ∈ l → f x = f y → x = y.
Proof.
  intros Hn [i Hi]%list_elem_of_lookup [j Hj]%list_elem_of_lookup E.
  assert (i = j) as ->; [|congruence]. apply (NoDup_lookup _ i j (f x) Hn); rewrite list_lookup_fmap; [by rewrite Hi|by rewrite Hj, E].
Qed.

Section Lookup.
Context {valid : bytes → Prop} {user : Comparator} `{HU : !ComparatorOk valid user}.
Abbreviation icmp := (InternalKeyComparator user).
Abbreviation ivalid := (internal_valid valid).

(** The size and the entries of the table files by number. *)
Context (tables : Z → option (Z * list Entry)).

Definition entries_of (f : FileMetaData) : list Entry := match tables (number f) with Some (_, es) => es | None => [] end.

Definition table_sorted (es : list Entry) : Prop := sorted_kvs ivalid icmp (entry_kv <$> es) ∧ Forall (entry_ok valid) es.

(** The metadata of a file describes its table. *)
Record Describes (f : FileMetaData) : Prop := {
  d_table : ∃ es, tables (number f) = Some (file_size f, es);
  d_sorted : table_sorted (entries_of f);
  d_smallest : ∃ e, head (entries_of f) = Some e ∧ smallest f = entry_ikey e;
  d_largest : ∃ e, last (entries_of f) = Some e ∧ largest f = entry_ikey e;
}.

(** Files below level 0 are disjoint and sorted; where a user key has entries in two files,
    those of the file searched first are newer. *)
Record VersionOk (v : Version) : Prop := {
  v_levels : length (files_ v) = Z.to_nat kNumLevels;
  v_size l : zlen (level_files v l) < 2 ^ 31;
  v_describes l f : f ∈ level_files v l → Describes f;
  v_disjoint l : 0 < l → StronglySorted (λ a b, Compare icmp (largest a) (smallest b) < 0) (level_files v l);
  v_numbers : NoDup (number <$> level_files v 0);
  v_newer l l' f f' e e' : 0 <= l → l < l' ∨ (l = 0 ∧ l' = 0 ∧ number f' < number f) →
    f ∈ level_files v l → f' ∈ level_files v l' → e ∈ entries_of f → e' ∈ entries_of f' → e_key e = e_key e' → e_seq e' < e_seq e;
}.

Lemma table_bounds f e : Describes f → e ∈ entries_of f →
  Compare icmp (smallest f) (entry_ikey e) <= 0 ∧ Compare icmp (entry_ikey e) (largest f) <= 0.
Proof using HU.
  intros [_ [Hs Hok] (e0 & H0 & ->) (e1 & H1 & ->)] He. assert (He' : entry_kv e ∈ entry_kv <$> entries_of f) by (by apply list_elem_of_fmap_2).
  split.
  - apply (sorted_head _ (entry_kv e0) (entry_kv e) Hs); [|done]. destruct (entries_of f); [done|]. by simplify_eq/=.
  - apply (sorted_last _ (entry_kv e1) (entry_kv e) Hs); [|done]. rewrite fmap_last. by rewrite H1.
Qed.

Lemma describes_ends f : Describes f → ∃ e0 e1, e0 ∈ entries_of f ∧ e1 ∈ entries_of f ∧ smallest f = entry_ikey e0 ∧ largest f = entry_ikey e1 ∧
  entry_ok valid e0 ∧ entry_ok valid e1.
Proof using Type.
  intros [_ [_ Hok] (e0 & H0 & E0) (e1 & H1 & E1)]. rewrite Forall_forall in Hok. exists e0, e1.
  assert (e0 ∈ entries_of f) by (destruct (entries_of f); simplify_eq/=; by left).
  assert (e1 ∈ entries_of f) by (by apply last_Some_elem_of). split_and!; auto.
Qed.

Lemma describes_FileOk f : Describes f → FileOk (valid := valid) (user := user) f.
Proof using HU.
  intros Hd. destruct (describes_ends f Hd) as (e0 & e1 & Hi0 & Hi1 & E0 & E1 & Ho0 & Ho1).
  destruct (table_bounds f e1 Hd Hi1) as [Hb _]. rewrite <- E1 in Hb.
  split; [rewrite E0; by apply (entry_ikey_valid (user := user))|rewrite E1; by apply (entry_ikey_valid (user := user))|
    rewrite E0, (entry_ikey_parses (valid := valid)) by done; done|rewrite E1, (entry_ikey_parses (valid := valid)) by done; done|done].
Qed.

Lemma version_LevelOk v l : VersionOk v → 0 < l → LevelOk (valid := valid) (user := user) (level_files v l).
Proof using HU.
  intros Hv Hl. split; [|by apply Hv|by apply Hv]. apply Forall_forall. intros f Hf. by apply describes_FileOk, (v_describes _ Hv l).
Qed.

(** ** Newest entries of a level *)

Section Snapshot.
Context (u : bytes) (s : Z) (Hu : valid u) (Hs : 0 <= s <= kMaxSequenceNumber).
Let ikey := internal_key (LookupKey_make u s).

Lemma visible_app l l' : visible u s (l ++ l') = match visible u s l with Some e => Some e | None => visible u s l' end.
Proof using Type. unfold visible. induction l as [|e l IH]; [done|]. simpl. by destruct (bool_decide _ && _). Qed.

(** [e] is an entry of [u] in one of the files that the snapshot sees. *)
Definition seen (files : list FileMetaData) (e : Entry) : Prop := ∃ f, f ∈ files ∧ e ∈ entries_of f ∧ e_key e = u ∧ e_seq e <= s.

(** [o] is the newest entry seen, if any. *)
Definition newest_of (P : Entry → Prop) (o : option Entry) : Prop :=
  match o with
  | Some e => P e ∧ ∀ e', P e' → e_seq e' <= e_seq e
  | None => ∀ e', ¬ P e'
  end.

Lemma user_le f e : Describes f → e ∈ entries_of f → valid (ExtractUserKey (smallest f)) ∧ valid (ExtractUserKey (largest f)) ∧ valid (e_key e) ∧
  Compare user (ExtractUserKey (smallest f)) (e_key e) <= 0 ∧ Compare user (e_key e) (ExtractUserKey (largest f)) <= 0.
Proof using HU.
  intros Hd He. destruct (table_bounds f e Hd He) as [H1 H2]. destruct (describes_FileOk f Hd) as [(_ & _ & V1) (_ & _ & V2) _ _ _].
  destruct (d_sorted _ Hd) as [_ Hok]. rewrite Forall_forall in Hok. destruct (Hok e He) as (_ & Ve & _).
  apply icmp_user_le in H1, H2. rewrite entry_ikey_user in H1, H2. done.
Qed.

Lemma covers_entry f e : Describes f → e ∈ entries_of f → e_key e = u → covers user u f = true.
Proof using HU Hu.
  intros Hd He Hk. destruct (user_le f e Hd He) as (V1 & V2 & _ & H1 & H2). rewrite Hk in H1, H2. unfold covers.
  apply andb_true_iff. rewrite !Z.leb_le. split; [|done]. apply (Compare_nlt (valid := valid)) in H1; [lia|done..].
Qed.

Lemma level0_newest v fs : VersionOk v → StronglySorted NewestFirst fs → NoDup fs → (∀ f, f ∈ fs → f ∈ level_files v 0) →
  newest_of (seen fs) (visible u s (mjoin (entries_of <$> fs))).
Proof using HU.
  intros Hv. induction 1 as [|f fs Hss IH Hf]; intros Hn Hsub; [by intros e (f & ?%not_elem_of_nil & _)|].
  apply NoDup_cons in Hn as [Hnf Hn]. assert (Hff : f ∈ level_files v 0) by (apply Hsub; by left).
  specialize (IH Hn (λ g Hg, Hsub g (list_elem_of_further _ _ _ Hg))). rewrite fmap_cons. cbn [mjoin list_join]. rewrite visible_app.
  destruct (d_sorted _ (v_describes _ Hv 0 f Hff)) as [Hsort Hok].
  destruct (visible u s (entries_of f)) as [e|] eqn:E.
  - destruct (visible_newest (valid := valid) u s _ e Hsort Hok E) as (Hin & Hk & Hq & Hmax). split; [exists f; split_and!; try done; by left|].
    intros e' (f' & Hf' & Hin' & Hk' & Hq'). apply elem_of_cons in Hf' as [->|Hf']; [by apply Hmax|]. apply Z.lt_le_incl.
    apply (v_newer _ Hv 0 0 f f'); [done| |done|apply Hsub; by right|done|done|congruence]. right. split_and!; [done|done|].
    rewrite Forall_forall in Hf. specialize (Hf f' Hf'). unfold NewestFirst in Hf.
    enough (number f' ≠ number f) by lia. intros Eq. apply Hnf.
    assert (f' = f) as ->; [|done]. pose proof (v_numbers _ Hv) as Hnum.
    apply (NoDup_fmap_elem number (level_files v 0)); [done|apply Hsub; by right|done|done].
  - destruct (visible u s (mjoin (entries_of <$> fs))) as [e|] eqn:E'.
    + destruct IH as [(f' & Hf' & H') Hmax]. split; [exists f'; split; [by right|done]|].
      intros e' (g & Hg & Hin' & Hk' & Hq'). apply elem_of_cons in Hg as [->|Hg]; [|by apply Hmax; exists g].
      pose proof (visible_None u s _ e' E Hin' Hk'). lia.
    + intros e' (g & Hg & Hin' & Hk' & Hq'). apply elem_of_cons in Hg as [->|Hg]; [|by apply (IH e'); exists g].
      pose proof (visible_None u s _ e' E Hin' Hk'). lia.
Qed.

Section Level.
Context (v : Version) (l : Z) (Hv : VersionOk v) (Hl : 0 < l).
Let files := level_files v l.
Let i := lower_bound icmp (level_kvs files) ikey.

Lemma ikey_ok : ivalid ikey.
Proof using HU Hu. by apply (ikey_ivalid (user := user)). Qed.

Lemma seen_key f e : f ∈ files → e ∈ entries_of f → e_key e = u → e_seq e <= s → Describes f ∧ entry_ok valid e ∧
  Compare icmp ikey (entry_ikey e) <= 0.
Proof using HU Hu Hs Hv.
  intros Hf He Hk Hq. pose proof (v_describes _ Hv l f Hf) as Hd. destruct (d_sorted _ Hd) as [_ Hok]. rewrite Forall_forall in Hok.
  split_and!; [done|by apply Hok|]. apply sees_entry; auto.
Qed.

(** Files with something to see are at or past the one found. *)
Lemma seen_index j f e : files !! j = Some f → e ∈ entries_of f → e_key e = u → e_seq e <= s → (i <= j)%nat.
Proof using HU Hu Hs Hv Hl.
  intros Hj He Hk Hq. destruct (seen_key f e) as (Hd & Hok & Hle); [by eapply list_elem_of_lookup_2|done..|].
  destruct (table_bounds f e Hd He) as [_ H2]. apply Nat.nlt_ge. intros Hlt.
  assert (Hk' : level_kvs files !! j = Some (file_kv f)) by (unfold level_kvs; by rewrite list_lookup_fmap, Hj).
  pose proof (cut_before (below icmp ikey) _ j _ Hlt Hk') as Hb. apply Z.ltb_lt in Hb. cbn [fst file_kv] in Hb.
  assert (Vl : ivalid (largest f)) by apply (describes_FileOk f Hd).
  apply (Compare_nlt (valid := ivalid) (c := icmp)) in Hb; [done|done|apply ikey_ok|].
  apply (Compare_le_trans (valid := ivalid) _ (entry_ikey e)); [apply ikey_ok|by apply (entry_ikey_valid (user := user))|done|done|done].
Qed.

(** An entry of an earlier file comes before one of a later file. *)
Lemma files_ordered j k f g e e' : (j < k)%nat → files !! j = Some f → files !! k = Some g → e ∈ entries_of f → e' ∈ entries_of g →
  Compare icmp (entry_ikey e) (entry_ikey e') < 0 ∧ Compare icmp (largest f) (entry_ikey e') < 0.
Proof using HU Hv Hl.
  intros Hjk Hj Hk He He'. pose proof (v_describes _ Hv l f ltac:(by eapply list_elem_of_lookup_2)) as Hd.
  pose proof (v_describes _ Hv l g ltac:(by eapply list_elem_of_lookup_2)) as Hd'.
  destruct (table_bounds f e Hd He) as [_ H1]. destruct (table_bounds g e' Hd' He') as [H2 _].
  pose proof (v_disjoint _ Hv l Hl) as Hss. fold files in Hss. pose proof (StronglySorted_lookup_lt _ _ _ _ _ _ Hss Hjk Hj Hk) as Hlt. cbv beta in Hlt.
  destruct (describes_FileOk f Hd) as [_ Vf _ _ _]. destruct (describes_FileOk g Hd') as [Vg _ _ _ _].
  destruct (d_sorted _ Hd) as [_ Ho]. destruct (d_sorted _ Hd') as [_ Ho']. rewrite Forall_forall in Ho, Ho'.
  pose proof (entry_ikey_valid (user := user) e (Ho e He)) as Ve. pose proof (entry_ikey_valid (user := user) e' (Ho' e' He')) as Ve'.
  assert (Hmid : Compare icmp (largest f) (entry_ikey e') < 0) by (by apply (Compare_lt_le (valid := ivalid) _ (smallest g))).
  split; [|done]. by apply (Compare_le_lt (valid := ivalid) _ (largest f)).
Qed.

(** The file found, when the key is not before it, answers for the level. *)
Lemma level_file_newest f : files !! i = Some f → newest_of (seen files) (visible u s (entries_of f)).
Proof using HU Hu Hs Hv Hl.
  intros Hf. pose proof (v_describes _ Hv l f ltac:(by eapply list_elem_of_lookup_2)) as Hd.
  destruct (describes_ends f Hd) as (e0 & e1 & Hi0 & Hi1 & E0 & E1 & Ho0 & Ho1). destruct (d_sorted _ Hd) as [Hsort Hok].
  assert (Hother : ∀ e', seen files e' → e' ∈ entries_of f ∨ ∀ e, e ∈ entries_of f →
    Compare icmp (entry_ikey e) (entry_ikey e') < 0 ∧ entry_ok valid e').
  { intros e' (g & [j Hj]%list_elem_of_lookup & He' & Hk' & Hq'). pose proof (seen_index j g e' Hj He' Hk' Hq').
    destruct (decide (j = i)) as [->|Hne]; [left; congruence|right]. intros e He.
    split; [by apply (files_ordered i j f g e e'); [lia|..]|]. destruct (seen_key g e') as (_ & ? & _); try done. by eapply list_elem_of_lookup_2. }
  destruct (visible u s (entries_of f)) as [e|] eqn:E.
  - destruct (visible_newest (valid := valid) u s _ e Hsort Hok E) as (Hin & Hk & Hq & Hmax).
    split; [exists f; split_and!; try done; by eapply list_elem_of_lookup_2|].
    intros e' He'. pose proof He' as (_ & _ & _ & Hk' & Hq'). destruct (Hother e' He') as [H1|H1]; [by apply Hmax|].
    destruct (H1 e Hin) as [Hlt Ho']. rewrite Forall_forall in Hok. apply (entry_order (user := user) (valid := valid)); [by apply Hok|done|congruence|lia].
  - intros e' He'. pose proof He' as (_ & _ & _ & Hk' & Hq'). destruct (Hother e' He') as [H1|H1].
    + pose proof (visible_None u s _ e' E H1 Hk'). lia.
    + destruct (H1 e1 Hi1) as [Hlt Ho'].
      assert (Hk1 : level_kvs files !! i = Some (file_kv f)) by (unfold level_kvs; by rewrite list_lookup_fmap, Hf).
      pose proof (cut_at (below icmp ikey) _ _ Hk1) as Hb. apply Z.ltb_ge in Hb. cbn [fst file_kv] in Hb. rewrite E1 in Hb.
      pose proof (entry_ikey_valid (user := user) e1 Ho1) as V1.
      assert (Hle : Compare icmp ikey (entry_ikey e1) <= 0) by (apply (Compare_nlt (valid := ivalid)); [done|apply ikey_ok|lia]).
      assert (Hk2 : e_key e1 = u).
      { pose proof (icmp_user_le _ _ _ Hle) as L1. pose proof (icmp_user_le user (entry_ikey e1) (entry_ikey e') ltac:(lia)) as L2.
        unfold ikey in L1. rewrite ikey_user, entry_ikey_user in L1. rewrite !entry_ikey_user, Hk' in L2.
        apply (Compare_nlt (valid := valid)) in L1; [|apply Ho1|done]. apply (Compare_eq (valid := valid) (c := user)); [apply Ho1|done|lia]. }
      apply sees_entry in Hle; [|done..]. pose proof (visible_None u s _ e1 E Hi1 Hk2). lia.
Qed.

Lemma level_file_after f : files !! i = Some f → Compare user u (ExtractUserKey (smallest f)) < 0 → ∀ e, ¬ seen files e.
Proof using HU Hu Hs Hv Hl.
  intros Hf Hlt e (g & [j Hj]%list_elem_of_lookup & He & Hk & Hq). pose proof (seen_index j g e Hj He Hk Hq) as Hij.
  pose proof (v_describes _ Hv l f ltac:(by eapply list_elem_of_lookup_2)) as Hd.
  destruct (describes_ends f Hd) as (e0 & e1 & Hi0 & Hi1 & E0 & E1 & Ho0 & Ho1).
  assert (Hle : Compare user (ExtractUserKey (smallest f)) u <= 0).
  { destruct (decide (j = i)) as [->|Hne].
    - assert (g = f) as -> by congruence. destruct (user_le f e Hd He) as (_ & _ & _ & H1 & _). by rewrite Hk in H1.
    - destruct (files_ordered i j f g e0 e) as [H1 _]; [lia|done..|]. rewrite <- E0 in H1.
      pose proof (icmp_user_le user (smallest f) (entry_ikey e) ltac:(lia)) as H2. by rewrite entry_ikey_user, Hk in H2. }
  apply (Compare_nlt (valid := valid)) in Hle; [done|done|by apply (user_le f e0 Hd Hi0)].
Qed.

Lemma level_search : ∃ fs, files_to_search user v l u ikey = Some fs ∧ (∀ f, f ∈ fs → f ∈ files) ∧ zlen fs <= 1 ∧
  newest_of (seen files) (visible u s (mjoin (entries_of <$> fs))).
Proof using HU Hu Hs Hv Hl.
  pose proof (version_LevelOk v l Hv Hl) as HL. unfold files_to_search. fold files.
  destruct (decide (files = [])) as [E|Hne].
  { rewrite E. exists []. split_and!; [done|done|done|]. intros e (f & ?%not_elem_of_nil & _). done. }
  assert (Hm : ∀ A (a b : A), match files with [] => a | _ => b end = b) by (by destruct files). rewrite Hm. clear Hm.
  destruct (Z.eqb_spec l 0); [lia|]. fold files in HL. rewrite (FindFile_spec files ikey HL ikey_ok). fold i. cbn [mbind option_bind].
  destruct (Z.leb_spec (zlen files) (Z.of_nat i)) as [Hge|Hlt].
  - exists []. split_and!; [done|by intros f ?%not_elem_of_nil|done|]. intros e (f & [j Hj]%list_elem_of_lookup & He & Hk & Hq).
    pose proof (seen_index j f e Hj He Hk Hq). apply lookup_lt_Some in Hj. unfold zlen in Hge. lia.
  - rewrite Nat2Z.id. destruct (lookup_lt_is_Some_2 files i) as [f Hf]; [unfold zlen in Hlt; lia|]. rewrite Hf. cbn [mbind option_bind].
    destruct (Z.ltb_spec (Compare user u (ExtractUserKey (smallest f))) 0) as [Hu'|Hu'].
    + exists []. split_and!; [done|by intros g ?%not_elem_of_nil|done|]. exact (level_file_after f Hf Hu').
    + exists [f]. split_and!; [done|by intros g ->%list_elem_of_singleton; eapply list_elem_of_lookup_2|done|].
      cbn [fmap list_fmap mjoin list_join]. rewrite app_nil_r. by apply level_file_newest.
Qed.
End Level.

Lemma level0_search v : VersionOk v → ∃ fs, files_to_search user v 0 u ikey = Some fs ∧ (∀ f, f ∈ fs → f ∈ level_files v 0) ∧
  zlen fs <= zlen (level_files v 0) ∧ newest_of (seen (level_files v 0)) (visible u s (mjoin (entries_of <$> fs))).
Proof using HU Hu Hs.
  intros Hv. set (fs := merge_sort NewestFirst (List.filter (covers user u) (level_files v 0))).
  assert (HP : fs ≡ₚ List.filter (covers user u) (level_files v 0)) by apply merge_sort_Permutation.
  assert (Hin : ∀ f, f ∈ fs ↔ f ∈ level_files v 0 ∧ covers user u f = true).
  { intros f. rewrite HP, list_elem_of_In, List.filter_In, <- list_elem_of_In. done. }
  assert (Hsub : ∀ f, f ∈ fs → f ∈ level_files v 0) by (intros f; rewrite Hin; tauto).
  exists fs. split_and!; [|done| |].
  - unfold files_to_search. destruct (level_files v 0) eqn:E; [|done]. unfold fs. by rewrite ?E.
  - unfold zlen. rewrite HP. pose proof (List.filter_length_le (covers user u) (level_files v 0)). lia.
  - assert (Hnew : newest_of (seen fs) (visible u s (mjoin (entries_of <$> fs)))).
    { apply (level0_newest v); [done| | |done].
      - unfold fs. apply StronglySorted_merge_sort; [|intros a b]; unfold NewestFirst; [intros a b c|]; lia.
      - rewrite HP. apply NoDup_List_filter, (NoDup_fmap_1 number), (v_numbers _ Hv). }
    assert (Hseen : ∀ e, seen (level_files v 0) e → seen fs e).
    { intros e (f & Hf & He & Hk & Hq). exists f. split_and!; try done. apply Hin. split; [done|].
      apply (covers_entry f e); [by apply (v_describes _ Hv 0)|done|done]. }
    destruct (visible u s (mjoin (entries_of <$> fs))) as [e|].
    + destruct Hnew as [(f & Hf & H') Hmax]. split; [exists f; split; [by apply Hsub|done]|]. intros e' He'. by apply Hmax, Hseen.
    + intros e' He'. by apply (Hnew e'), Hseen.
Qed.

(** ** The search *)

Definition status_of (e : Entry) : Status := match e_type e with kTypeValue => OK | kTypeDeletion => NotFound [] [] end.

(** The value and sequence number written for the entry found. *)
Definition written_for (o : option Entry) (value : bytes) (seq : Z) : bytes * Z :=
  match o with
  | Some e => match e_type e with kTypeValue => (e_value e, e_seq e) | kTypeDeletion => (value, seq) end
  | None => (value, seq)
  end.

Section Search.
Context {C H : Type} `{!Cache C H TableAndFile} (CacheInv : C → list (H * TableAndFile) → (bytes → TableAndFile → Prop) → Prop) `{HCO : !CacheOk CacheInv}.
Context (policy : option FilterPolicy) (hs : list (H * TableAndFile)) (Hhs : zlen hs < 2 ^ 31) (verify : bool).

Definition disk (n : Z) : option (Z * list (bytes * bytes)) := 
  match tables n with Some (sz, es) => Some (sz, entry_kv <$> es) | None => None end.
Abbreviation TCOk := (TCInv CacheInv valid user policy disk).

(** What the search leaves of the state, having read at most [n] files. *)
Definition leaves (g g' : GetState (C := C)) (o : option Entry) (n : Z) : Prop :=
  TCOk (g_cache g') hs ∧ (g_value g', g_seq g') = written_for o (g_value g) (g_seq g) ∧
  zlen (pf (g_proofs g')) = zlen (pf (g_proofs g)) ∧ pf_index (g_proofs g) <= pf_index (g_proofs g') <= pf_index (g_proofs g) + n.

(** Room for the proofs of [n] files. *)
Definition room_for (g : GetState (C := C)) (n : Z) : Prop :=
  0 <= pf_index (g_proofs g) ∧ pf_index (g_proofs g) + n <= zlen (pf (g_proofs g)).

Lemma search_files_spec nf level fs : ∀ g, (∀ f, f ∈ fs → Describes f) → TCOk (g_cache g) hs → room_for g (zlen fs) →
  ∃ g', search_files user verify nf level u ikey fs g = Some (status_of <$> visible u s (mjoin (entries_of <$> fs)), g') ∧
    leaves g g' (visible u s (mjoin (entries_of <$> fs))) (zlen fs).
Proof using HU Hu Hs HCO Hhs.
  induction fs as [|f fs IH]; intros g Hd Ht [Hp1 Hp2].
  { exists g. split; [done|]. split_and!; [done|done|done|lia|rewrite zlen_nil; lia]. }
  destruct (Hd f) as [[es Htab] [Hsort Hok] _ _]; [by left|]. rewrite zlen_cons in Hp2. pose proof (zlen_nonneg fs) as Hfs.
  assert (Ees : entries_of f = es) by (unfold entries_of; by rewrite Htab). rewrite Ees in Hsort, Hok.
  assert (Hdisk : disk (number f) = Some (file_size f, entry_kv <$> es)) by (unfold disk; by rewrite Htab).
  destruct (TableCache_SUGet_ok CacheInv valid user policy disk (g_cache g) hs (number f) (file_size f) (entry_kv <$> es) verify nf (g_proofs g) u s)
    as (res & p' & t' & E & Ht' & Hans & Hp); [done|done|done|done|done|unfold room; lia|].
  rewrite push_proof_ok in Hp by (unfold room; lia). injection Hp as <-.
  cbn [search_files]. unfold ikey. rewrite E. cbn [mbind option_bind].
  rewrite (run_saver_spec (valid := valid) u s Hu Hs es res) by (done || by eexists). cbn [mbind option_bind Status_ok OK negb].
  rewrite fmap_cons. cbn [mjoin list_join]. rewrite visible_app, Ees.
  destruct (visible u s es) as [e|]; [|].
  - unfold saver_of. cbn [fmap option_fmap option_map]. unfold status_of at 1. unfold leaves, written_for.
    destruct (e_type e); simpl; eexists; (split; [done|]); simpl; rewrite zlen_cons; unfold zlen; rewrite length_insert; split_and!; done || lia.
  - cbn [saver_of state after_saver saved_value saved_seq default].
    destruct (IH {| g_value := g_value g; g_seq := g_seq g; g_seek := charge_seek f level (g_seek g);
                    g_proofs := {| pf := <[Z.to_nat (pf_index (g_proofs g)) := merkle_height nf (file_size f)]> (pf (g_proofs g)); pf_index := pf_index (g_proofs g) + 1 |};
                    g_cache := t' |}) as (g' & E' & H1 & H2 & H3 & H4).
    + intros f' Hf'. apply Hd. by right.
    + done.
    + split; simpl; [lia|]. unfold zlen in *. rewrite length_insert. lia.
    + exists g'. split; [exact E'|]. simpl in H2, H3, H4. rewrite zlen_cons. split_and!; [done|done| |lia|lia].
      rewrite H3. unfold zlen. by rewrite length_insert.
Qed.

(** An entry of [u] seen in a level from [level] on. *)
Definition seen_from (v : Version) (level : Z) (e : Entry) : Prop := ∃ l, level <= l < kNumLevels ∧ seen (level_files v l) e.

(** The proofs the search from [level] on may take. *)
Definition reads_from (v : Version) (level : Z) : Z := (if level =? 0 then zlen (level_files v 0) else 0) + (kNumLevels - level).

Lemma any_level_search v level : VersionOk v → 0 <= level → ∃ fs, files_to_search user v level u ikey = Some fs ∧
  (∀ f, f ∈ fs → f ∈ level_files v level) ∧ zlen fs + (kNumLevels - (level + 1)) <= reads_from v level ∧
  newest_of (seen (level_files v level)) (visible u s (mjoin (entries_of <$> fs))).
Proof using HU Hu Hs.
  intros Hv Hl. unfold reads_from. destruct (Z.eqb_spec level 0) as [->|Hne].
  - destruct (level0_search v Hv) as (fs & E & Hsub & Hz & Hn). exists fs. split_and!; [done|done|lia|done].
  - destruct (level_search v level Hv ltac:(lia)) as (fs & E & Hsub & Hz & Hn). exists fs. split_and!; [done|done|lia|done].
Qed.

(** The newest entry of a level is newer than all below; an empty level leaves the search
    to those. *)
Lemma newest_level v level o1 : VersionOk v → 0 <= level < kNumLevels → newest_of (seen (level_files v level)) o1 →
  match o1 with
  | Some e => newest_of (seen_from v level) (Some e)
  | None => ∀ o, newest_of (seen_from v (level + 1)) o → newest_of (seen_from v level) o
  end.
Proof using Type.
  intros Hv Hl Hn. destruct o1 as [e|].
  - destruct Hn as [(f & Hf & He & Hk & Hq) Hmax]. split; [exists level; split; [lia|by exists f]|].
    intros e' (l & Hl' & Hseen). destruct (decide (l = level)) as [->|Hne]; [by apply Hmax|].
    destruct Hseen as (f' & Hf' & He' & Hk' & Hq'). apply Z.lt_le_incl.
    apply (v_newer _ Hv level l f f'); [lia|left; lia|done|done|done|done|congruence].
  - assert (Hdown : ∀ e', seen_from v level e' → seen_from v (level + 1) e').
    { intros e' (l & Hl' & Hseen). destruct (decide (l = level)) as [->|Hne]; [by destruct (Hn e')|]. exists l. split; [lia|done]. }
    intros [e|]; [intros [(l & Hl' & Hseen) Hmax]|intros Hno].
    + split; [exists l; split; [lia|done]|]. intros e' He'. by apply Hmax, Hdown.
    + intros e' He'. by apply (Hno e'), Hdown.
Qed.

Lemma search_levels_spec v fuel : ∀ level g, VersionOk v → 0 <= level → level + Z.of_nat fuel = kNumLevels → TCOk (g_cache g) hs →
  room_for g (reads_from v level) →
  ∃ o g', search_levels user fuel verify v level u ikey g = Some (status_of <$> o, g') ∧ newest_of (seen_from v level) o ∧
    leaves g g' o (reads_from v level).
Proof using HU Hu Hs HCO Hhs.
  induction fuel as [|fuel IH]; intros level g Hv Hl Hf Ht [Hp1 Hp2].
  { exists None, g. split; [done|]. split; [by intros e (l & ? & _); lia|]. unfold leaves, reads_from in *. split_and!; [done|done|done|lia|].
    destruct (level =? 0); pose proof (zlen_nonneg (level_files v 0)); lia. }
  destruct (any_level_search v level Hv Hl) as (fs & E & Hsub & Hz & Hn). pose proof (zlen_nonneg fs).
  destruct (search_files_spec (zlen (level_files v level)) level fs g) as (g1 & E1 & H1 & H2 & H3 & H4).
  { intros f Hff. by apply (v_describes _ Hv level), Hsub. } { done. } { split; unfold kNumLevels in *; lia. }
  pose proof (newest_level v level _ Hv ltac:(lia) Hn) as Hnl. cbn [search_levels]. rewrite E. cbn [mbind option_bind]. rewrite E1. cbn [mbind option_bind].
  destruct (visible u s (mjoin (entries_of <$> fs))) as [e|].
  - exists (Some e), g1. split; [done|]. split; [exact Hnl|]. unfold leaves. split_and!; [done|done|done|lia|unfold kNumLevels in *; lia].
  - cbn [fmap option_fmap option_map]. assert (Hr : reads_from v (level + 1) = kNumLevels - (level + 1)).
    { unfold reads_from. destruct (Z.eqb_spec (level + 1) 0); lia. }
    destruct (IH (level + 1) g1) as (o & g' & E' & Hn' & L1 & L2 & L3 & L4); [done|lia|lia|done|split; lia|].
    exists o, g'. split; [done|]. split; [by apply Hnl|]. injection H2 as Ev Eq. rewrite Ev, Eq in L2. unfold leaves. split_and!; [done|done|lia|lia|lia].
Qed.

(** ** [Get], whose saver has no place for the sequence number *)

Lemma run_saver_unset res value : run_saver user u res {| state := kSaverNotFound; saved_value := value; saved_seq := None |} =
  (sv ← run_saver user u res {| state := kSaverNotFound; saved_value := value; saved_seq := Some 0 |};
   match state sv with
   | kFound => None
   | st => Some {| state := st; saved_value := saved_value sv; saved_seq := None |}
   end).
Proof using Type.
  destruct res as [[k v]|]; [|done]. unfold run_saver, SaveValue.
  destruct (ParseInternalKey k) as [p|]; [|done]. destruct (Compare user (DbFormat.user_key p) u =? 0); [|done]. by destruct (type p).
Qed.

Lemma run_saver_get es res value : table_sorted es → table_answer user (entry_kv <$> es) u s res →
  run_saver user u res {| state := kSaverNotFound; saved_value := value; saved_seq := None |} =
  match visible u s es with
  | Some e => match e_type e with
              | kTypeValue => None
              | kTypeDeletion => Some {| state := kDeleted; saved_value := value; saved_seq := None |}
              end
  | None => Some {| state := kSaverNotFound; saved_value := value; saved_seq := None |}
  end.
Proof using HU Hu Hs.
  intros [Hsort Hok] Ha. rewrite run_saver_unset.
  rewrite (run_saver_spec (valid := valid) u s Hu Hs es res) by (done || by eexists). cbn [mbind option_bind]. unfold saver_of.
  destruct (visible u s es) as [e|]; [destruct (e_type e)|]; done.
Qed.

(** What [Get] returns at its label, from the entry it stopped at. *)
Definition get_result (o : option Entry) (r : option (option (Status * bool) * GetState0 (C := C))) : Prop :=
  match o with
  | Some e => match e_type e with
              | kTypeValue => r = None
              | kTypeDeletion => ∃ g, r = Some (Some (NotFound [] [], false), g) ∧ g0_saver g = Some kDeleted
              end
  | None => ∃ g, r = Some (None, g) ∧ TCOk (g0_cache g) hs ∧ g0_saver g ∈ [None; Some kSaverNotFound]
  end.

Lemma get_files_spec level fs : ∀ g, (∀ f, f ∈ fs → Describes f) → TCOk (g0_cache g) hs → g0_saver g ∈ [None; Some kSaverNotFound] →
  get_result (visible u s (mjoin (entries_of <$> fs))) (get_files user verify level u ikey fs g).
Proof using HU Hu Hs HCO Hhs.
  induction fs as [|f fs IH]; intros g Hd Ht Hsv; [by exists g|].
  destruct (Hd f) as [[es Htab] Hsort _ _]; [by left|].
  assert (Ees : entries_of f = es) by (unfold entries_of; by rewrite Htab). rewrite Ees in Hsort.
  assert (Hdisk : disk (number f) = Some (file_size f, entry_kv <$> es)) by (unfold disk; by rewrite Htab).
  destruct (TableCache_Get_ok CacheInv valid user policy disk (g0_cache g) hs (number f) (file_size f) (entry_kv <$> es) verify u s)
    as (res & t' & E & Ht' & Hans); [done..|].
  cbn [get_files]. unfold ikey. rewrite E. cbn [mbind option_bind]. rewrite (run_saver_get es res) by done.
  rewrite fmap_cons. cbn [mjoin list_join]. rewrite visible_app, Ees.
  destruct (visible u s es) as [e|].
  - unfold get_result. destruct (e_type e); [|done]. cbn. by eexists.
  - cbn [mbind option_bind Status_ok OK negb state after_saver saved_value]. apply IH; [|done|by right; left].
    intros f' Hf'. apply Hd. by right.
Qed.

Lemma get_levels_spec v fuel : ∀ level g, VersionOk v → 0 <= level → level + Z.of_nat fuel = kNumLevels → TCOk (g0_cache g) hs →
  g0_saver g ∈ [None; Some kSaverNotFound] →
  ∃ o, newest_of (seen_from v level) o ∧ get_result o (get_levels user fuel verify v level u ikey g).
Proof using HU Hu Hs HCO Hhs.
  induction fuel as [|fuel IH]; intros level g Hv Hl Hf Ht Hsv.
  { exists None. split; [by intros e (l & ? & _); lia|by exists g]. }
  destruct (any_level_search v level Hv Hl) as (fs & E & Hsub & _ & Hn).
  pose proof (get_files_spec level fs g (λ f Hff, v_describes _ Hv level f (Hsub f Hff)) Ht Hsv) as Hr.
  pose proof (newest_level v level _ Hv ltac:(lia) Hn) as Hnl. cbn [get_levels]. rewrite E. cbn [mbind option_bind].
  destruct (visible u s (mjoin (entries_of <$> fs))) as [e|].
  - exists (Some e). split; [exact Hnl|]. unfold get_result in *. destruct (e_type e).
    + destruct Hr as (g' & -> & Hg'). cbn. by eexists.
    + by rewrite Hr.
  - destruct Hr as (g' & -> & Ht' & Hsv'). cbn [mbind option_bind].
    destruct (IH (level + 1) g') as (o & Ho & Hr); [done|lia|lia|done|done|]. exists o. split; [by apply Hnl|done].
Qed.
End Search.
End Snapshot.
End Lookup.

(** ** Files that overlap a range *)

Section Overlap.
Context {valid : bytes → Prop} {user : Comparator} `{HU : !ComparatorOk valid user}.
Abbreviation icmp := (InternalKeyComparator user).
Abbreviation ivalid := (internal_valid valid).
Abbreviation FileOk := (FileOk (valid := valid) (user := user)).
Abbreviation LevelOk := (LevelOk (valid := valid) (user := user)).

(** A bound of a range of user keys, [None] for an open end. *)
Definition bound_ok (b : option bytes) : Prop := match b with Some k => valid k | None => True end.

Lemma parsed_trailer k : bytes_ok k → is_Some (ParseInternalKey k) → internal_trailer k <= PackSequenceAndType kMaxSequenceNumber kValueTypeForSeek.
Proof using Type.
  intros Hk [p Hp]. pose proof (internal_trailer_range k Hk) as Hr. unfold is_u in Hr. unfold ParseInternalKey in Hp. rewrite land_255 in Hp.
  rewrite Pack_sum by (unfold kMaxSequenceNumber; rewrite Z.shiftl_1_l; lia). unfold kMaxSequenceNumber, kValueTypeForSeek. rewrite Z.shiftl_1_l.
  change (ValueType_code kTypeValue) with 1. destruct (_ <? _)%nat; [done|]. change (2 ^ 8) with 256 in Hp.
  destruct (Z.eqb_spec (internal_trailer k mod 256) 0); [dlia|]. destruct (Z.eqb_spec (internal_trailer k mod 256) 1); [dlia|done].
Qed.

(** The earliest internal key of a user key separates the files before it. *)
Lemma after_file k f : FileOk f → valid k →
  AfterFile user (Some k) f = (Compare icmp (largest f) (InternalKey k kMaxSequenceNumber kValueTypeForSeek) <? 0).
Proof using HU.
  intros [_ Vl _ Pl _] Hk. apply eq_true_iff_eq. cbn [AfterFile]. rewrite !Z.ltb_lt.
  assert (Vk : ivalid (InternalKey k kMaxSequenceNumber kValueTypeForSeek)).
  { apply internal_valid_app; [by apply (valid_bytes (valid := valid) (c := user))|done]. }
  rewrite (icmp_lt (valid := valid) (user := user) _ _ Vl Vk). rewrite InternalKey_unfold, ExtractUserKey_app, internal_trailer_app.
  rewrite u64_small by (apply Pack_range; unfold kMaxSequenceNumber; rewrite Z.shiftl_1_l; lia).
  pose proof (parsed_trailer (largest f) ltac:(apply Vl) Pl). destruct Vl as (_ & _ & Vl). rewrite (Compare_swap (valid := valid)) by done. lia.
Qed.

Lemma any_overlap_spec files lo hi : any_overlap user files lo hi = true ↔
  ∃ f, f ∈ files ∧ AfterFile user lo f = false ∧ BeforeFile user hi f = false.
Proof using Type.
  induction files as [|f files IH]; cbn [any_overlap]; [split; [done|by intros (f & ?%not_elem_of_nil & _)]|].
  destruct (AfterFile user lo f || BeforeFile user hi f) eqn:E.
  - rewrite IH. split; intros (g & Hg & H1 & H2); exists g; (split; [|done]); [by right|].
    apply elem_of_cons in Hg as [->|Hg]; [by rewrite H1, H2 in E|done].
  - apply orb_false_iff in E. split; [intros _; exists f; by split; [left|]|done].
Qed.

Lemma smallest_mono files i j f g : LevelOk files → (i <= j)%nat → files !! i = Some f → files !! j = Some g →
  Compare user (ExtractUserKey (smallest f)) (ExtractUserKey (smallest g)) <= 0.
Proof using HU.
  intros [Hf Hs _] Hij Hi Hj. destruct (decide (i = j)) as [->|Hne].
  - assert (g = f) as -> by congruence. rewrite (Compare_refl (valid := valid)); [done|]. by apply (Forall_lookup_1 _ _ _ _ Hf Hi).
  - destruct (Forall_lookup_1 _ _ _ _ Hf Hi) as [Vs Vl _ _ Hle]. destruct (Forall_lookup_1 _ _ _ _ Hf Hj) as [Vg _ _ _ _].
    pose proof (StronglySorted_lookup_lt _ _ i j f g Hs ltac:(lia) Hi Hj) as Hlt. cbv beta in Hlt.
    apply icmp_user_le, Z.lt_le_incl. by apply (Compare_le_lt (valid := ivalid) _ (largest f)).
Qed.

Lemma before_mono files i j f g hi : LevelOk files → bound_ok hi → (i <= j)%nat → files !! i = Some f → files !! j = Some g →
  BeforeFile user hi f = true → BeforeFile user hi g = true.
Proof using HU.
  intros HL Hhi Hij Hi Hj. destruct hi as [k|]; [|done]. cbn [BeforeFile]. rewrite !Z.ltb_lt. intros Hlt.
  destruct HL as [Hf Hs Hz]. apply (Compare_lt_le (valid := valid) _ (ExtractUserKey (smallest f))); [done|..|done|by apply (smallest_mono files i j)].
  - by apply (Forall_lookup_1 _ _ _ _ Hf Hi).
  - by apply (Forall_lookup_1 _ _ _ _ Hf Hj).
Qed.

(** The index the search starts from: exactly the files before it end before the range. *)
Lemma overlap_index files lo : LevelOk files → bound_ok lo →
  ∃ i, match lo with Some k => FindFile user files (InternalKey k kMaxSequenceNumber kValueTypeForSeek) | None => Some 0 end = Some (Z.of_nat i) ∧
    ∀ j f, files !! j = Some f → AfterFile user lo f = bool_decide (j < i)%nat.
Proof using HU.
  intros HL Hlo. destruct lo as [k|]; [|exists 0%nat; split; [done|]; intros j f _; by rewrite bool_decide_eq_false_2 by lia].
  set (t := InternalKey k kMaxSequenceNumber kValueTypeForSeek).
  assert (Vt : ivalid t) by (apply internal_valid_app; [by apply (valid_bytes (valid := valid) (c := user))|done]).
  exists (lower_bound icmp (level_kvs files) t). split; [by apply FindFile_spec|]. intros j f Hj.
  rewrite after_file; [|by apply (Forall_lookup_1 _ _ _ _ (level_file_ok _ HL) Hj)|done]. fold t.
  assert (Hk : level_kvs files !! j = Some (file_kv f)) by (unfold level_kvs; by rewrite list_lookup_fmap, Hj).
  case_bool_decide as Hlt.
  - exact (cut_before (below icmp t) _ j _ Hlt Hk).
  - exact (cut_after _ (below icmp t) j _ (level_kvs_sorted files HL) (below_downward t Vt) ltac:(unfold lower_bound in Hlt; lia) Hk).
Qed.

(** With the files disjoint and sorted, the binary search finds what the scan finds. *)
Lemma overlap_search files lo hi : LevelOk files → bound_ok lo → bound_ok hi →
  SomeFileOverlapsRange user true files lo hi = Some (any_overlap user files lo hi).
Proof using HU.
  intros HL Hlo Hhi. unfold SomeFileOverlapsRange. cbn [negb]. destruct (overlap_index files lo HL Hlo) as (i & -> & Hi). cbn [mbind option_bind].
  destruct (Z.leb_spec (zlen files) (Z.of_nat i)) as [Hge|Hlt].
  - f_equal. symmetry. apply not_true_iff_false. rewrite any_overlap_spec. intros (f & [j Hj]%list_elem_of_lookup & H1 & _).
    rewrite (Hi j f Hj), bool_decide_eq_false in H1. apply lookup_lt_Some in Hj. unfold zlen in Hge. lia.
  - rewrite Nat2Z.id. destruct (lookup_lt_is_Some_2 files i) as [f Hf]; [unfold zlen in Hlt; lia|]. rewrite Hf. cbn [mbind option_bind]. f_equal.
    apply eq_true_iff_eq. rewrite any_overlap_spec, negb_true_iff. split.
    + intros Hb. exists f. split_and!; [by eapply list_elem_of_lookup_2| |done]. by rewrite (Hi i f Hf), bool_decide_eq_false_2 by lia.
    + intros (g & [j Hj]%list_elem_of_lookup & H1 & H2). rewrite (Hi j g Hj), bool_decide_eq_false in H1.
      apply not_true_iff_false. intros Hb. rewrite (before_mono files i j f g hi HL Hhi ltac:(lia) Hf Hj Hb) in H2. done.
Qed.

(** ** The inputs of a compaction *)

Abbreviation file_start f := (ExtractUserKey (smallest f)).
Abbreviation file_limit f := (ExtractUserKey (largest f)).

(** The file shares user keys with the range. *)
Definition in_range (b e : option bytes) (f : FileMetaData) : bool := negb (below_begin user (file_limit f) b) && negb (above_end user (file_start f) e).

(** The range contains the file. *)
Definition contains (b e : option bytes) (f : FileMetaData) : bool := negb (below_begin user (file_start f) b) && negb (above_end user (file_limit f) e).

Lemma overlapping_loop_plain files b e : ∀ fuel i inputs, (length files - i < fuel)%nat →
  overlapping_loop user fuel false files i b e inputs = Some (inputs ++ List.filter (in_range b e) (drop i files)).
Proof using Type.
  induction fuel as [|fuel IH]; intros i inputs Hf; [lia|]. cbn [overlapping_loop].
  destruct (files !! i) as [f|] eqn:E; [|rewrite drop_ge by (by apply lookup_ge_None); by rewrite app_nil_r].
  apply lookup_lt_Some in E as Hi. rewrite (drop_S files f i E). cbn [List.filter]. unfold in_range at 1.
  destruct (below_begin user (file_limit f) b); cbn [negb andb]; [apply IH; lia|].
  destruct (above_end user (file_start f) e); cbn [negb andb]; [apply IH; lia|].
  rewrite IH by lia. by rewrite <- app_assoc.
Qed.

(** The range from [B] to [E] contains the one from [b] to [e]. *)
Definition le_begin (B b : option bytes) : Prop := match b with Some x => below_begin user x B = false | None => B = None end.
Definition le_end (e E : option bytes) : Prop := match e with Some x => above_end user x E = false | None => E = None end.
Definition within (b e B E : option bytes) : Prop := le_begin B b ∧ le_end e E.

(** Every file that meets the range lies in it. *)
Definition closed (files : list FileMetaData) (B E : option bytes) : Prop :=
  ∀ f, f ∈ files → in_range B E f = true → contains B E f = true.

Lemma below_begin_trans x y B : valid x → valid y → bound_ok B → Compare user y x <= 0 → below_begin user x B = true → below_begin user y B = true.
Proof using HU.
  intros Hx Hy HB Hle. destruct B as [z|]; [|done]. cbn [below_begin]. rewrite !Z.ltb_lt. intros Hlt. by apply (Compare_le_lt (valid := valid) _ x).
Qed.
Lemma above_end_trans x y E : valid x → valid y → bound_ok E → Compare user x y <= 0 → above_end user x E = true → above_end user y E = true.
Proof using HU.
  intros Hx Hy HE Hle. destruct E as [z|]; [|done]. cbn [above_end]. rewrite !Z.ltb_lt, <- !(Compare_swap (valid := valid)) by done.
  intros Hlt. by apply (Compare_lt_le (valid := valid) _ x).
Qed.

Lemma below_le_begin x B b : valid x → bound_ok B → bound_ok b → le_begin B b → below_begin user x B = true → below_begin user x b = true.
Proof using HU.
  intros Hx HB Hb Hle Hlt. destruct b as [y|]; [|by rewrite Hle in Hlt]. cbn [below_begin]. apply Z.ltb_lt. apply Z.nle_gt. intros Hge.
  assert (Hyx : Compare user y x <= 0) by (apply (Compare_nlt (valid := valid)); [done|done|lia]).
  change (below_begin user y B = false) in Hle. rewrite (below_begin_trans x y B) in Hle by done. done.
Qed.
Lemma above_le_end x e E : valid x → bound_ok E → bound_ok e → le_end e E → above_end user x E = true → above_end user x e = true.
Proof using HU.
  intros Hx HE He Hle Hlt. destruct e as [y|]; [|by rewrite Hle in Hlt]. cbn [above_end]. apply Z.ltb_lt. apply Z.nle_gt. intros Hge.
  change (above_end user y E = false) in Hle. rewrite (above_end_trans x y E) in Hle by done. done.
Qed.

Lemma in_range_mono b e B E f : FileOk f → bound_ok b → bound_ok e → bound_ok B → bound_ok E → within b e B E → in_range b e f = true → in_range B E f = true.
Proof using HU.
  intros [(_ & _ & V1) (_ & _ & V2) _ _ _] Hb He HB HE [H1 H2]. unfold in_range. rewrite !andb_true_iff, !negb_true_iff. intros [F1 F2]. split.
  - apply not_true_iff_false. intros Ht. rewrite (below_le_begin _ B b) in F1 by done. done.
  - apply not_true_iff_false. intros Ht. rewrite (above_le_end _ e E) in F2 by done. done.
Qed.

Lemma le_begin_refl b : bound_ok b → le_begin b b.
Proof using HU. destruct b as [x|]; [|done]. intros Hx. simpl. by rewrite (Compare_refl (valid := valid)). Qed.
Lemma le_end_refl e : bound_ok e → le_end e e.
Proof using HU. destruct e as [x|]; [|done]. intros Hx. simpl. by rewrite (Compare_refl (valid := valid)). Qed.

Lemma le_begin_trans a b c : bound_ok a → bound_ok b → bound_ok c → le_begin a b → le_begin b c → le_begin a c.
Proof using HU.
  intros Ha Hb Hc H1 H2. destruct c as [z|]; [|by rewrite H2 in H1]. cbn [le_begin] in *. apply not_true_iff_false. intros Ht.
  rewrite (below_le_begin z a b) in H2 by done. done.
Qed.
Lemma le_end_trans a b c : bound_ok a → bound_ok b → bound_ok c → le_end a b → le_end b c → le_end a c.
Proof using HU.
  intros Ha Hb Hc H1 H2. destruct a as [z|]; [|by rewrite H1 in H2]. cbn [le_end] in *. apply not_true_iff_false. intros Ht.
  rewrite (above_le_end z b c) in H1 by done. done.
Qed.

(** The files that can still move an end of the range. *)
Definition before_count (files : list FileMetaData) (b : option bytes) : nat := length (List.filter (λ f, below_begin user (file_start f) b) files).
Definition after_count (files : list FileMetaData) (e : option bytes) : nat := length (List.filter (λ f, above_end user (file_limit f) e) files).

Lemma filter_lt {A} (p q : A → bool) (l : list A) x : x ∈ l → p x = false → q x = true → (∀ y, y ∈ l → p y = true → q y = true) →
  (length (List.filter p l) < length (List.filter q l))%nat.
Proof using Type.
  assert (Hle : ∀ l : list A, (∀ y, y ∈ l → p y = true → q y = true) → (length (List.filter p l) <= length (List.filter q l))%nat).
  { induction l0 as [|y l0 IH]; intros Hpq; [done|]. cbn [List.filter]. pose proof (Hpq y ltac:(by left)) as Hy.
    specialize (IH (λ z Hz, Hpq z (list_elem_of_further _ _ _ Hz))). destruct (p y); [rewrite Hy by done; simpl; lia|destruct (q y); simpl; lia]. }
  intros Hx Hp Hq Hpq. induction l as [|y l IH]; [by apply not_elem_of_nil in Hx|]. cbn [List.filter].
  pose proof (Hpq y ltac:(by left)) as Hy. pose proof (λ z Hz, Hpq z (list_elem_of_further _ _ _ Hz)) as Hl.
  apply elem_of_cons in Hx as [->|Hx].
  - rewrite Hp, Hq. simpl. specialize (Hle l Hl). lia.
  - specialize (IH Hx Hl). destruct (p y); [rewrite Hy by done; simpl; lia|destruct (q y); simpl; lia].
Qed.

Lemma before_count_lt files f b : Forall FileOk files → f ∈ files → bound_ok b → below_begin user (file_start f) b = true →
  (before_count files (Some (file_start f)) < before_count files b)%nat.
Proof using HU.
  intros Hf Hin Hb Hlt. rewrite Forall_forall in Hf. destruct (Hf f Hin) as [(_ & _ & Vf) _ _ _ _]. apply (filter_lt _ _ _ f); [done| |done|].
  - simpl. by rewrite (Compare_refl (valid := valid)).
  - intros g Hg Hgf. apply Z.ltb_lt in Hgf. destruct (Hf g Hg) as [(_ & _ & Vg) _ _ _ _]. apply (below_begin_trans (file_start f)); [done..|lia|done].
Qed.
Lemma after_count_lt files f e : Forall FileOk files → f ∈ files → bound_ok e → above_end user (file_limit f) e = true →
  (after_count files (Some (file_limit f)) < after_count files e)%nat.
Proof using HU.
  intros Hf Hin He Hlt. rewrite Forall_forall in Hf. destruct (Hf f Hin) as [_ (_ & _ & Vf) _ _ _]. apply (filter_lt _ _ _ f); [done| |done|].
  - simpl. by rewrite (Compare_refl (valid := valid)).
  - intros g Hg Hgf. apply Z.ltb_lt in Hgf. destruct (Hf g Hg) as [_ (_ & _ & Vg) _ _ _]. apply (above_end_trans (file_limit f)); [done..| |done].
    apply Z.lt_le_incl, (Compare_swap (valid := valid)); done.
Qed.

(** [r] is the list of the files that meet the least closed range around [b .. e]. *)
Definition closure_of (files : list FileMetaData) (b e : option bytes) (r : list FileMetaData) : Prop :=
  ∃ b' e', r = List.filter (in_range b' e') files ∧ bound_ok b' ∧ bound_ok e' ∧ within b e b' e' ∧ closed files b' e' ∧
    ∀ B E, bound_ok B → bound_ok E → within b e B E → closed files B E → within b' e' B E.

Lemma closure_widen files b e b1 e1 r : bound_ok b → bound_ok e → bound_ok b1 → bound_ok e1 → within b e b1 e1 →
  (∀ B E, bound_ok B → bound_ok E → within b e B E → closed files B E → within b1 e1 B E) →
  closure_of files b1 e1 r → closure_of files b e r.
Proof using HU.
  intros Hb He Hb1 He1 [W1 W2] Hleast (b' & e' & -> & Hb' & He' & [W1' W2'] & Hcl & Hmin). exists b', e'. split_and!; try done.
  - split; [by apply (le_begin_trans _ b1)|by apply (le_end_trans _ e1)].
  - intros B E HB HE HW HC. apply Hmin; [done|done|by apply Hleast|done].
Qed.

Section Loop.
Context (files : list FileMetaData) (Hfiles : Forall FileOk files).
Let n := length files.

(** A file that sticks out of the range sticks out of no closed range around it. *)
Lemma range_least f b e B E : f ∈ files → bound_ok b → bound_ok e → bound_ok B → bound_ok E → in_range b e f = true →
  within b e B E → closed files B E → le_begin B (Some (file_start f)) ∧ le_end (Some (file_limit f)) E.
Proof using HU Hfiles.
  intros Hf Hb He HB HE Hr HW HC. rewrite Forall_forall in Hfiles.
  pose proof (HC f Hf (in_range_mono b e B E f (Hfiles f Hf) Hb He HB HE HW Hr)) as Hc.
  unfold contains in Hc. rewrite andb_true_iff, !negb_true_iff in Hc. done.
Qed.

Lemma overlapping_loop_level0 : ∀ fuel i b e inputs, bound_ok b → bound_ok e → (i <= n)%nat →
  inputs = List.filter (in_range b e) (take i files) → Forall (λ f, contains b e f = true) inputs →
  ((before_count files b + after_count files e) * S n + (n - i) < fuel)%nat →
  ∃ r, overlapping_loop user fuel true files i b e inputs = Some r ∧ closure_of files b e r.
Proof using HU Hfiles.
  induction fuel as [|fuel IH]; intros i b e inputs Hb He Hi Hin Hc Hf; [lia|]. cbn [overlapping_loop].
  destruct (files !! i) as [f|] eqn:Ef.
  2:{ apply lookup_ge_None in Ef. exists inputs. split; [done|]. exists b, e. rewrite take_ge in Hin by done. rewrite Hin in Hc |- *. split_and!; try done.
      - split; [by apply le_begin_refl|by apply le_end_refl].
      - intros f Hff Hr. rewrite Forall_forall in Hc. apply Hc. apply list_elem_of_In, List.filter_In. by rewrite <- list_elem_of_In. }
  pose proof (list_elem_of_lookup_2 _ _ _ Ef) as Hff. pose proof (lookup_lt_Some _ _ _ Ef) as Hlt. fold n in Hlt.
  pose proof (proj1 (Forall_forall _ _) Hfiles f Hff) as Hfok.
  assert (Vs : valid (file_start f)) by apply (smallest_valid _ Hfok). assert (Vl : valid (file_limit f)) by apply (largest_valid _ Hfok).
  assert (Hskip : in_range b e f = false → ∃ r, overlapping_loop user fuel true files (S i) b e inputs = Some r ∧ closure_of files b e r).
  { intros Hr. apply IH; [done|done|lia| |done|lia]. rewrite (take_S_r _ _ f Ef), List.filter_app. cbn [List.filter]. by rewrite Hr, app_nil_r. }
  destruct (below_begin user (file_limit f) b) eqn:E1; [apply Hskip; unfold in_range; by rewrite E1|].
  destruct (above_end user (file_start f) e) eqn:E2; [apply Hskip; unfold in_range; by rewrite E1, E2|]. clear Hskip.
  assert (Hr : in_range b e f = true) by (unfold in_range; by rewrite E1, E2).
  destruct (below_begin user (file_start f) b) eqn:E3; [|destruct (above_end user (file_limit f) e) eqn:E4].
  - pose proof (before_count_lt files f b Hfiles Hff Hb E3).
    destruct (IH 0%nat (Some (file_start f)) e []) as (r & -> & Hcl); [done|done|lia|done|done|nia|]. exists r. split; [done|].
    apply (closure_widen files b e (Some (file_start f)) e); try done.
    + split; [|by apply le_end_refl]. destruct b as [x|]; [|done]. simpl. apply Z.ltb_ge. simpl in E3. apply Z.ltb_lt in E3.
      apply (Compare_swap (valid := valid)) in E3; [lia|done|done].
    + intros B E HB HE HW HC. split; [by apply (range_least f b e B E)|apply HW].
  - pose proof (after_count_lt files f e Hfiles Hff He E4).
    destruct (IH 0%nat b (Some (file_limit f)) []) as (r & -> & Hcl); [done|done|lia|done|done|nia|]. exists r. split; [done|].
    apply (closure_widen files b e b (Some (file_limit f))); try done.
    + split; [by apply le_begin_refl|]. destruct e as [x|]; [|done]. simpl. apply Z.ltb_ge. simpl in E4. apply Z.ltb_lt in E4.
      apply (Compare_swap (valid := valid)) in E4; [lia|done|done].
    + intros B E HB HE HW HC. split; [apply HW|by apply (range_least f b e B E)].
  - apply IH; [done|done|lia| | |lia].
    + rewrite (take_S_r _ _ f Ef), List.filter_app. cbn [List.filter]. by rewrite Hr, Hin.
    + apply Forall_app. split; [done|]. apply Forall_singleton. unfold contains. by rewrite E3, E4.
Qed.

Lemma overlapping_fuel_ok b e : ((before_count files b + after_count files e) * S n + (n - 0) < overlapping_fuel files)%nat.
Proof using Type.
  unfold overlapping_fuel, before_count, after_count.
  pose proof (List.filter_length_le (λ f, below_begin user (file_start f) b) files).
  pose proof (List.filter_length_le (λ f, above_end user (file_limit f) e) files). unfold n. nia.
Qed.
End Loop.

(** ** Where a memtable may be written *)

Definition no_overlap (v : Version) (l : Z) (lo hi : bytes) : Prop :=
  ∀ f, f ∈ level_files v l → AfterFile user (Some lo) f = true ∨ BeforeFile user (Some hi) f = true.

Lemma OverlapInLevel_spec v l lo hi : (0 < l → LevelOk (level_files v l)) → valid lo → valid hi →
  ∃ b, OverlapInLevel user v l (Some lo) (Some hi) = Some b ∧ (b = false → no_overlap v l lo hi).
Proof using HU.
  intros HL Hlo Hhi. exists (any_overlap user (level_files v l) (Some lo) (Some hi)). split.
  - unfold OverlapInLevel. destruct (Z.ltb_spec 0 l); [|done]. apply overlap_search; auto.
  - intros Hb f Hf. destruct (AfterFile user (Some lo) f) eqn:E1; [by left|]. destruct (BeforeFile user (Some hi) f) eqn:E2; [by right|].
    apply not_true_iff_false in Hb. destruct Hb. apply any_overlap_spec. by exists f.
Qed.

(** The level-0 search with its fuel. *)
Lemma GetOverlappingInputs_level0 v b e : Forall FileOk (level_files v 0) → bound_ok (ExtractUserKey <$> b) → bound_ok (ExtractUserKey <$> e) →
  ∃ r, GetOverlappingInputs user v 0 b e = Some r ∧ closure_of (level_files v 0) (ExtractUserKey <$> b) (ExtractUserKey <$> e) r ∧
    ∀ f g, f ∈ r → g ∈ level_files v 0 → Compare user (file_start f) (file_limit g) <= 0 → Compare user (file_start g) (file_limit f) <= 0 → g ∈ r.
Proof using HU.
  intros Hf Hb He.
  destruct (overlapping_loop_level0 (level_files v 0) Hf (overlapping_fuel (level_files v 0)) 0 (ExtractUserKey <$> b) (ExtractUserKey <$> e) [])
    as (r & E & Hr); [done|done|lia|done|done|apply overlapping_fuel_ok|].
  exists r. split; [exact E|]. split; [done|]. destruct Hr as (b' & e' & -> & Vb & Ve & _ & Hcl & _).
  intros f g [Hfin Hfr]%list_elem_of_In%List.filter_In Hg H1 H2. apply list_elem_of_In in Hfin. apply list_elem_of_In, List.filter_In.
  split; [by apply list_elem_of_In|]. pose proof (Hcl f Hfin Hfr) as Hc. unfold contains, in_range in *.
  rewrite andb_true_iff, !negb_true_iff in Hc |- *. destruct Hc as [C1 C2]. rewrite Forall_forall in Hf.
  destruct (Hf f Hfin) as [(_ & _ & V1) (_ & _ & V2) _ _ _], (Hf g Hg) as [(_ & _ & V3) (_ & _ & V4) _ _ _].
  split; apply not_true_iff_false; intros Ht.
  - rewrite (below_begin_trans (ExtractUserKey (largest g))) in C1; done.
  - rewrite (above_end_trans (ExtractUserKey (smallest g))) in C2; done.
Qed.

Lemma GetOverlappingInputs_deep v l b e : 0 < l < kNumLevels →
  GetOverlappingInputs user v l b e = Some (List.filter (in_range (ExtractUserKey <$> b) (ExtractUserKey <$> e)) (level_files v l)).
Proof using Type.
  intros Hl. unfold GetOverlappingInputs. destruct (Z.leb_spec 0 l), (Z.ltb_spec l kNumLevels); try lia. cbn [andb].
  destruct (Z.eqb_spec l 0); [lia|]. rewrite overlapping_loop_plain; [by rewrite drop_0|]. unfold overlapping_fuel. nia.
Qed.

Lemma pick_level_loop_spec v lo hi : (∀ l, 0 < l → LevelOk (level_files v l)) → valid lo → valid hi →
  ∀ fuel level, 0 <= level <= kMaxMemCompactLevel → kMaxMemCompactLevel - level < Z.of_nat fuel →
  (∀ l, 0 <= l <= level → no_overlap v l lo hi) →
  ∃ L, pick_level_loop user fuel v level lo hi = Some L ∧ level <= L <= kMaxMemCompactLevel ∧ ∀ l, 0 <= l <= L → no_overlap v l lo hi.
Proof using HU.
  intros HL Hlo Hhi. unfold kMaxMemCompactLevel. induction fuel as [|fuel IH]; intros level Hl Hf Hno; [lia|]. cbn [pick_level_loop].
  unfold kMaxMemCompactLevel. destruct (Z.ltb_spec level 2) as [Hlt|]; [|exists level; by split_and!; [|lia..|]].
  destruct (OverlapInLevel_spec v (level + 1) lo hi) as (b & -> & Hb); [auto|done|done|]. cbn [mbind option_bind].
  destruct b; [exists level; by split_and!; [|lia..|]|]. specialize (Hb eq_refl).
  assert (∃ stop, (if level + 2 <? kNumLevels then
      overlaps ← GetOverlappingInputs user v (level + 2) (Some (InternalKey lo kMaxSequenceNumber kValueTypeForSeek)) (Some (InternalKey hi 0 kTypeDeletion));
      Some (kMaxGrandParentOverlapBytes <? TotalFileSize overlaps) else Some false) = Some stop) as [stop ->].
  { destruct (Z.ltb_spec (level + 2) kNumLevels); [|by eexists]. rewrite GetOverlappingInputs_deep by lia. by eexists. }
  cbn [mbind option_bind]. destruct stop; [exists level; by split_and!; [|lia..|]|].
  destruct (IH (level + 1)) as (L & -> & HL' & Hno'); [lia|lia| |exists L; by split_and!; [|lia..|]].
  intros l Hl'. destruct (decide (l = level + 1)) as [->|]; [done|apply Hno; lia].
Qed.
End Overlap.

(** ** Properties *)

Lemma lookup_user u s : lookup_user_key (LookupKey_make u s) = u.
Proof. apply ExtractUserKey_app. Qed.

(** Every path through [SUGet]. *)
Lemma Version_SUGet_spec {C H : Type} `{!Cache C H TableAndFile} (CacheInv : C → list (H * TableAndFile) → (bytes → TableAndFile → Prop) → Prop)
    (valid : bytes → Prop) (user : Comparator) (policy : option FilterPolicy) (tables : Z → option (Z * list Entry)) (v : Version)
    (tc : TableCache (C := C)) (hs : list (H * TableAndFile)) (verify : bool) (u value : bytes) (s seq : Z) (p : Proofs) :
  CacheOk CacheInv → ComparatorOk valid user → VersionOk (valid := valid) (user := user) tables v →
  TCInv CacheInv valid user policy (disk tables) tc hs → zlen hs < 2 ^ 31 → valid u → 0 <= s <= kMaxSequenceNumber →
  0 <= pf_index p → pf_index p + zlen (level_files v 0) + kNumLevels <= zlen (pf p) →
  ∃ o g, newest_of (seen_from tables u s v 0) o ∧
    Version_SUGet user verify v (LookupKey_make u s) value seq p tc = Some (default (NotFound [] []) (status_of <$> o), g) ∧
    (g_value g, g_seq g) = written_for o value seq ∧ TCInv CacheInv valid user policy (disk tables) (g_cache g) hs ∧
    pf_index p <= pf_index (g_proofs g) <= pf_index p + zlen (level_files v 0) + kNumLevels.
Proof.
  intros HCO HU Hv Ht Hhs Hu Hs Hp1 Hp2. set (g0 := {| g_value := value; g_seq := seq; g_seek := SeekState_init; g_proofs := p; g_cache := tc |}).
  destruct (search_levels_spec tables u s Hu Hs CacheInv policy hs Hhs verify v 7 0 g0) as (o & g & E & Hn & Ht' & Hw & _ & Hpf); [done|lia|done|done| |].
  { split; simpl; [lia|]. unfold reads_from. simpl. unfold kNumLevels in *. lia. }
  exists o, g. split; [done|]. split; [|split_and!; [done|done|apply Hpf|unfold reads_from in Hpf; simpl in Hpf; unfold kNumLevels in *; lia]].
  unfold Version_SUGet. rewrite lookup_user. change (Z.to_nat kNumLevels) with 7%nat. fold g0. rewrite E. done.
Qed.

(** A lookup in a version returns the newest entry of the user key that the snapshot
    sees in any table of any level, and says so: its value and sequence number, or NotFound
    for a deletion; when there is none, NotFound, with nothing written.  The levels are
    searched down only as far as needed, level 0 newest file first, the others by binary
    search, each table through the table cache, whose handles are all given back; one proof
    entry is appended per table read. *)
Theorem version_get_newest {C H : Type} `{!Cache C H TableAndFile} (CacheInv : C → list (H * TableAndFile) → (bytes → TableAndFile → Prop) → Prop)
    (valid : bytes → Prop) (user : Comparator) (policy : option FilterPolicy) (tables : Z → option (Z * list Entry)) (v : Version)
    (tc : TableCache (C := C)) (hs : list (H * TableAndFile)) (verify : bool) (u value : bytes) (s seq : Z) (p : Proofs) :
  CacheOk CacheInv → ComparatorOk valid user → VersionOk (valid := valid) (user := user) tables v →
  TCInv CacheInv valid user policy (disk tables) tc hs → zlen hs < 2 ^ 31 → valid u → 0 <= s <= kMaxSequenceNumber →
  0 <= pf_index p → pf_index p + zlen (level_files v 0) + kNumLevels <= zlen (pf p) →
  ∃ o g, newest_of (seen_from tables u s v 0) o ∧
    Version_SUGet user verify v (LookupKey_make u s) value seq p tc = Some (default (NotFound [] []) (status_of <$> o), g) ∧
    (g_value g, g_seq g) = written_for o value seq ∧ TCInv CacheInv valid user policy (disk tables) (g_cache g) hs ∧
    pf_index p <= pf_index (g_proofs g) <= pf_index p + zlen (level_files v 0) + kNumLevels.
Proof. apply Version_SUGet_spec. Qed.

(** [C33] The older [Version::Get] is broken: its saver has no place for the sequence number,
    so whenever the newest entry the snapshot sees is a value, reading it has undefined
    behaviour; and in a version without files it returns by an uninitialised state.  Only
    deletions are reported properly. *)
Theorem version_get_undefined {C H : Type} `{!Cache C H TableAndFile} (CacheInv : C → list (H * TableAndFile) → (bytes → TableAndFile → Prop) → Prop)
    (valid : bytes → Prop) (user : Comparator) (policy : option FilterPolicy) (tables : Z → option (Z * list Entry)) (v : Version)
    (tc : TableCache (C := C)) (hs : list (H * TableAndFile)) (verify : bool) (u value : bytes) (s : Z) :
  CacheOk CacheInv → ComparatorOk valid user → VersionOk (valid := valid) (user := user) tables v →
  TCInv CacheInv valid user policy (disk tables) tc hs → zlen hs < 2 ^ 31 → valid u → 0 <= s <= kMaxSequenceNumber →
  ∃ o, newest_of (seen_from tables u s v 0) o ∧
    match o with
    | Some e => match e_type e with
                | kTypeValue => Version_Get user verify v (LookupKey_make u s) value tc = None
                | kTypeDeletion => ∃ g, Version_Get user verify v (LookupKey_make u s) value tc = Some (NotFound [] [], g)
                end
    | None => ((∀ l, level_files v l = []) → Version_Get user verify v (LookupKey_make u s) value tc = None)
    end.
Proof.
  intros HCO HU Hv Ht Hhs Hu Hs. set (g0 := {| g0_value := value; g0_saver := None; g0_seek := SeekState_init; g0_cache := tc |}).
  destruct (get_levels_spec tables u s Hu Hs CacheInv policy hs Hhs verify v 7 0 g0) as (o & Hn & Hr); [done|lia|done|done|by left|].
  exists o. split; [done|]. unfold Version_Get. rewrite lookup_user. change (Z.to_nat kNumLevels) with 7%nat. fold g0.
  destruct o as [e|]; cbn [get_result] in Hr; [destruct (e_type e)|].
  - destruct Hr as (g & -> & Hg). cbn [mbind option_bind]. rewrite Hg. cbn [mbind option_bind]. by eexists.
  - by rewrite Hr.
  - intros Hempty. assert (∀ l, files_to_search user v l u (internal_key (LookupKey_make u s)) = Some []) as Hf.
    { intros l. unfold files_to_search. by rewrite Hempty. }
    cbn [get_levels]. do 7 (rewrite Hf; cbn [mbind option_bind get_files]). done.
Qed.

(** On disjoint sorted files the binary search of [SomeFileOverlapsRange] answers as the
    scan over all files does, for every range with open or closed ends, empty or not: true
    exactly when some file has user keys in the range. *)
Theorem some_file_overlaps_correct (valid : bytes → Prop) (user : Comparator) (files : list FileMetaData) (lo hi : option bytes) :
  ComparatorOk valid user → LevelOk (valid := valid) (user := user) files → bound_ok (valid := valid) lo → bound_ok (valid := valid) hi →
  ∃ b, SomeFileOverlapsRange user true files lo hi = Some b ∧ SomeFileOverlapsRange user false files lo hi = Some b ∧
    (b = true ↔ ∃ f, f ∈ files ∧ AfterFile user lo f = false ∧ BeforeFile user hi f = false).
Proof.
  intros HU HL Hlo Hhi. exists (any_overlap user files lo hi). split; [by apply (overlap_search (valid := valid))|]. split; [done|apply any_overlap_spec].
Qed.

(** [C35] The inputs of a compaction: at level 0 the search for overlapping files, which starts
    over each time the range grows, ends; it returns the files that meet the least range that
    contains the one asked for and cuts through no file, so that no file left behind shares
    keys with one that was chosen.  At the other levels it returns the files that meet the
    range. *)
Theorem overlapping_inputs_closed (valid : bytes → Prop) (user : Comparator) (v : Version) (begin end_ : option bytes) :
  ComparatorOk valid user → Forall (FileOk (valid := valid) (user := user)) (level_files v 0) →
  bound_ok (valid := valid) (ExtractUserKey <$> begin) → bound_ok (valid := valid) (ExtractUserKey <$> end_) →
  (∃ r, GetOverlappingInputs user v 0 begin end_ = Some r ∧
     closure_of (valid := valid) (user := user) (level_files v 0) (ExtractUserKey <$> begin) (ExtractUserKey <$> end_) r ∧
     ∀ f g, f ∈ r → g ∈ level_files v 0 →
       Compare user (ExtractUserKey (smallest f)) (ExtractUserKey (largest g)) <= 0 →
       Compare user (ExtractUserKey (smallest g)) (ExtractUserKey (largest f)) <= 0 → g ∈ r) ∧
  (∀ l, 0 < l < kNumLevels → GetOverlappingInputs user v l begin end_ =
     Some (List.filter (in_range (user := user) (ExtractUserKey <$> begin) (ExtractUserKey <$> end_)) (level_files v l))).
Proof.
  intros HU Hf Hb He. split; [by apply GetOverlappingInputs_level0|intros l Hl; by apply GetOverlappingInputs_deep].
Qed.

(** The level chosen for the table of a memtable is one of the first three, and when it
    is not level 0, no file in it or in a level above shares user keys with the memtable, so
    that newer entries stay above older ones. *)
Theorem memtable_level_sound (valid : bytes → Prop) (user : Comparator) (v : Version) (lo hi : bytes) :
  ComparatorOk valid user → (∀ l, 0 < l → LevelOk (valid := valid) (user := user) (level_files v l)) → valid lo → valid hi →
  ∃ L, PickLevelForMemTableOutput user v lo hi = Some L ∧ 0 <= L <= kMaxMemCompactLevel ∧
    (0 < L → ∀ l f, 0 <= l <= L → f ∈ level_files v l → AfterFile user (Some lo) f = true ∨ BeforeFile user (Some hi) f = true).
Proof.
  intros HU HL Hlo Hhi. unfold PickLevelForMemTableOutput.
  destruct (OverlapInLevel_spec (valid := valid) v 0 lo hi) as (b & -> & Hb); [done|done|done|]. cbn [mbind option_bind].
  destruct b; [exists 0; unfold kMaxMemCompactLevel; split_and!; [done|lia..]|].
  destruct (pick_level_loop_spec (valid := valid) v lo hi HL Hlo Hhi 3 0) as (L & -> & HL' & Hno); [unfold kMaxMemCompactLevel; lia..| |].
  - intros l Hl. assert (l = 0) as -> by lia. by apply Hb.
  - exists L. split_and!; [done|lia|lia|]. intros _ l f Hl. by apply Hno.
Qed.

(** ** Samples *)

Definition sample_table : list Entry :=
  [entry_of [97; 98] 9 kTypeValue [1]; entry_of [97; 98] 5 kTypeValue [2]; entry_of [97; 99; 100] 7 kTypeDeletion []; entry_of [98] 3 kTypeValue [4; 4]].
Definition sample_tables (n : Z) : option (Z * list Entry) := if n =? 5 then Some (zlen sample_file, sample_table) else None.
Definition sample_meta : FileMetaData :=
  {| refs := 1; allowed_seeks := 100; number := 5; file_size := zlen sample_file;
     smallest := InternalKey [97; 98] 9 kTypeValue; largest := InternalKey [98] 3 kTypeValue |}.
Definition sample_version : Version := {| files_ := [[]; [sample_meta]; []; []; []; []; []] |}.
Definition sample_cache (c : ShardedLRUCache (V := TableAndFile)) : TableCache (C := ShardedLRUCache) :=
  {| NewRandomAccessFile _ := (OK, Some (memory_file sample_file)); tc_dbname := []; tc_options := sample_options; cache_ := c |}.
Definition sample_proofs : Proofs := {| pf := replicate 20 0; pf_index := 0 |}.

#[local] Opaque sample_file.

Lemma sample_level l f : f ∈ level_files sample_version l → l = 1 ∧ f = sample_meta.
Proof.
  unfold level_files, sample_version. cbn [files_]. destruct (Z.to_nat l) as [|[|n]] eqn:E; simpl.
  - by intros ?%not_elem_of_nil.
  - intros ->%list_elem_of_singleton. split; [lia|done].
  - do 5 (destruct n as [|n]; simpl; [by intros ?%not_elem_of_nil|]). destruct n; by intros ?%not_elem_of_nil.
Qed.

Lemma sample_version_ok : VersionOk (valid := bytes_ok) (user := BytewiseComparator) sample_tables sample_version.
Proof.
  assert (Hd : Describes (valid := bytes_ok) (user := BytewiseComparator) sample_tables sample_meta).
  { split; [by eexists| |by eexists|by eexists]. split; [exact sample_entries_sorted|].
    repeat constructor; try (vm_compute; congruence); by_compute. }
  split.
  - done.
  - intros l. unfold level_files, sample_version. cbn [files_]. destruct (Z.to_nat l) as [|[|n]]; [done..|].
    do 5 (destruct n as [|n]; [done|]). by destruct n.
  - intros l f [_ ->]%sample_level. done.
  - intros l Hl. unfold level_files, sample_version. cbn [files_]. destruct (Z.to_nat l) as [|[|n]]; [constructor|repeat constructor|].
    do 5 (destruct n as [|n]; [constructor|]). destruct n; constructor.
  - constructor.
  - intros l l' f f' e e' Hl Hlt [-> ->]%sample_level [-> ->]%sample_level. lia.
Qed.

Lemma sample_cache_ok c : ShardedInv c [] (λ _ _, False) →
  TCInv ShardedInv bytes_ok BytewiseComparator (Some (NewBloomFilterPolicy 10)) (disk sample_tables) (sample_cache c) [].
Proof.
  intros Hc. split_and!; [done|done| |].
  - intros n sz kvs. unfold disk, sample_tables. destruct (Z.eqb_spec n 5) as [->|]; [|done]. intros E.
    assert (sz = zlen sample_file) as -> by exact (eq_sym (f_equal (from_option fst 0) E)).
    assert (kvs = entry_kv <$> sample_table) as -> by exact (eq_sym (f_equal (from_option snd []) E)).
    clear E. split; [unfold is_u; lia|]. exists (memory_file sample_file), sample_file. split_and!; [reflexivity|apply memory_file_holds|reflexivity|].
    exact sample_table_file.
  - by apply (CacheInv_weaken (CacheInv := ShardedInv) c [] (λ _ _, False)).
Qed.

Lemma sample_newest o : newest_of (seen_from sample_tables [97; 98] 6 sample_version 0) o → o = Some (entry_of [97; 98] 5 kTypeValue [2]).
Proof.
  assert (Hseen : seen_from sample_tables [97; 98] 6 sample_version 0 (entry_of [97; 98] 5 kTypeValue [2])).
  { exists 1. split; [done|]. exists sample_meta. split_and!; [by left|right; by left|done|done]. }
  destruct o as [e|]; [|intros H; by destruct (H _ Hseen)]. intros [(l & _ & f & [_ ->]%sample_level & He & Hk & Hq) _]. f_equal.
  change (entries_of sample_tables sample_meta) with sample_table in He.
  unfold sample_table in He. rewrite !elem_of_cons in He. destruct He as [->|[->|[->|[->|He%not_elem_of_nil]]]]; done.
Qed.

Lemma version_get_newest_witness : ∃ c g, NewLRUCache 100 = Some c ∧
  Version_SUGet BytewiseComparator true sample_version (LookupKey_make [97; 98] 6) [] 0 sample_proofs (sample_cache c) = Some (OK, g) ∧
  g_value g = [2] ∧ g_seq g = 5.
Proof.
  destruct (NewLRUCache_ok (V := TableAndFile) 100) as (c & Ec & Hc); [lia|]. exists c.
  destruct (version_get_newest ShardedInv bytes_ok BytewiseComparator (Some (NewBloomFilterPolicy 10)) sample_tables sample_version (sample_cache c) []
    true [97; 98] [] 6 0 sample_proofs) as (o & g & Hn & E & Hw & _);
    [apply _|apply _|apply sample_version_ok|by apply sample_cache_ok|done|by_compute|vm_compute; split; intros [=]|done|vm_compute; intros [=]|].
  apply sample_newest in Hn as ->. exists g. injection Hw as Hw1 Hw2. exact (conj Ec (conj E (conj Hw1 Hw2))).
Defined.

Lemma version_get_undefined_witness : ∃ c, NewLRUCache 100 = Some c ∧
  Version_Get BytewiseComparator true sample_version (LookupKey_make [97; 98] 6) [] (sample_cache c) = None.
Proof.
  destruct (NewLRUCache_ok (V := TableAndFile) 100) as (c & Ec & Hc); [lia|]. exists c.
  destruct (version_get_undefined ShardedInv bytes_ok BytewiseComparator (Some (NewBloomFilterPolicy 10)) sample_tables sample_version (sample_cache c) []
    true [97; 98] [] 6) as (o & Hn & E);
    [apply _|apply _|apply sample_version_ok|by apply sample_cache_ok|done|by_compute|vm_compute; split; intros [=]|].
  apply sample_newest in Hn as ->. exact (conj Ec E).
Defined.

(** A file with user keys from [a] to [b]. *)
Definition sample_range (n a b : Z) : FileMetaData :=
  {| refs := 1; allowed_seeks := 100; number := n; file_size := 4096; smallest := InternalKey [a] 9 kTypeValue; largest := InternalKey [b] 3 kTypeDeletion |}.

(** Level 0: three files, the first two overlapping.  Levels 1 and 2: disjoint files. *)
Definition sample_levels : Version :=
  {| files_ := [[sample_range 7 100 110; sample_range 8 105 120; sample_range 9 60 70]; [sample_range 3 80 85; sample_range 4 90 95];
                [sample_range 2 40 50]; []; []; []; []] |}.

#[local] Instance is_Some_parse_dec (k : bytes) : Decision (is_Some (ParseInternalKey k)).
Proof. destruct (ParseInternalKey k); [left; by eexists|right; by intros [? [=]]]. Defined.

Lemma sample_range_ok n a b : is_byte a → is_byte b →
  is_Some (ParseInternalKey (InternalKey [a] 9 kTypeValue)) → is_Some (ParseInternalKey (InternalKey [b] 3 kTypeDeletion)) →
  Compare (InternalKeyComparator BytewiseComparator) (InternalKey [a] 9 kTypeValue) (InternalKey [b] 3 kTypeDeletion) <= 0 →
  FileOk (valid := bytes_ok) (user := BytewiseComparator) (sample_range n a b).
Proof.
  intros Ha Hb Pa Pb Hle.
  split; [apply internal_valid_app..|done|done|done]; apply Forall_singleton; done.
Qed.

Ltac sample_files_ok :=
  repeat first [apply List.Forall_nil |
    apply List.Forall_cons; [apply sample_range_ok; [by_compute|by_compute|by_compute|by_compute|vm_compute; discriminate]|]].

Lemma sample_levels_ok l : 0 < l → LevelOk (valid := bytes_ok) (user := BytewiseComparator) (level_files sample_levels l).
Proof.
  intros Hl. unfold level_files, sample_levels. cbn [files_]. destruct (Z.to_nat l) as [|[|[|n]]] eqn:E; [lia|..]; simpl.
  - split; [|repeat constructor; vm_compute; reflexivity|done]. sample_files_ok.
  - split; [|repeat constructor|done]. sample_files_ok.
  - do 4 (destruct n as [|n]; [by repeat constructor|]). destruct n; by repeat constructor.
Qed.

Lemma some_file_overlaps_correct_witness :
  SomeFileOverlapsRange BytewiseComparator true (level_files sample_levels 1) (Some [86]) (Some [91]) = Some true.
Proof.
  destruct (some_file_overlaps_correct bytes_ok BytewiseComparator (level_files sample_levels 1) (Some [86]) (Some [91])) as (b & E & _ & Hb);
    [apply _|by apply sample_levels_ok|by_compute|by_compute|]. rewrite E. f_equal. apply Hb.
  exists (sample_range 4 90 95). split_and!; [right; by left|vm_compute; reflexivity..].
Defined.

Lemma overlapping_inputs_closed_witness : ∃ r,
  GetOverlappingInputs BytewiseComparator sample_levels 0 (Some (InternalKey [106] 5 kTypeValue)) (Some (InternalKey [107] 5 kTypeValue)) = Some r ∧
  (sample_range 8 105 120 ∈ r → sample_range 7 100 110 ∈ r).
Proof.
  destruct (overlapping_inputs_closed bytes_ok BytewiseComparator sample_levels (Some (InternalKey [106] 5 kTypeValue)) (Some (InternalKey [107] 5 kTypeValue)))
    as [(r & E & _ & Hr) _]; [apply _|sample_files_ok|by_compute|by_compute|].
  exists r. split; [exact E|]. intros Hin. apply (Hr _ _ Hin); [by left|vm_compute; discriminate..].
Defined.

Lemma memtable_level_sound_witness : ∃ L, PickLevelForMemTableOutput BytewiseComparator sample_levels [51] [55] = Some L ∧ 0 <= L <= 2.
Proof.
  destruct (memtable_level_sound bytes_ok BytewiseComparator sample_levels [51] [55]) as (L & E & HL & _);
    [apply _|apply sample_levels_ok|by_compute|by_compute|]. exists L. exact (conj E HL).
Defined.
