(* ===== verification/DbIter.v ===== *)
(** * The database iterator

    Model of [App/integration/db_iter.cpp]: an iterator over user keys, made from an
    iterator over internal keys by hiding the entries newer than the snapshot, the
    entries hidden by newer ones and the deletions.  The calls of [RecordReadSample] on
    the database are recorded in order.  The capacity of [saved_value_] is not modelled.
    The loops over the internal iterator run at most [scan_fuel] times, which is enough when
    it has fewer entries. *)
From S2P Require Import Prelude Coding Comparator DbFormat Random Logging Status MemTable Compaction Iterator.
From stdpp Require Import sorting list.

#[local] Open Scope Z_scope.

(** [config::kReadBytesPeriod] *)
Definition kReadBytesPeriod : Z := 1048576.

Inductive Direction := kForward | kReverse.
#[export] Instance Direction_eq_dec : EqDecision Direction.
Proof. solve_decision. Defined.

Record DBIter (S : Type) := {
  scan_fuel : nat;
  read_samples : list bytes;  (** the samples given to [db_] *)
  internal_iter : S;  (** [iter_] *)
  sequence_ : Z;
  db_status : Status;  (** [status_] *)
  saved_key_ : bytes;
  saved_value_ : bytes;
  direction_ : Direction;
  db_valid : bool;  (** [valid_] *)
  rnd_ : Random;
  bytes_counter_ : Z;
}.
Arguments scan_fuel {S}. Arguments read_samples {S}. Arguments internal_iter {S}. Arguments sequence_ {S}.
Arguments db_status {S}. Arguments saved_key_ {S}. Arguments saved_value_ {S}. Arguments direction_ {S}.
Arguments db_valid {S}. Arguments rnd_ {S}. Arguments bytes_counter_ {S}.

(** A gap between two samples, [kReadBytesPeriod] on average. *)
Definition RandomPeriod (r : Random) : Z * Random := Random_Uniform (2 * kReadBytesPeriod) r.

(** The loop of [ParseKey] that records samples; a draw may be zero, but not two in a row. *)
Fixpoint sample_loop (fuel : nat) (k : bytes) (counter : Z) (r : Random) (samples : list bytes) : option (Z * Random * list bytes) :=
  if 0 <=? counter then Some (counter, r, samples)
  else
    match fuel with
    | O => None
    | S fuel => let '(p, r) := RandomPeriod r in sample_loop fuel k (counter + p) r (samples ++ [k])
    end.

Definition sample_fuel (counter : Z) : nat := 2 * Z.to_nat (- counter) + 1.

Section Operations.
Context {S : Type} `{!Iterator S} (user_comparator_ : Comparator).
Implicit Types d : DBIter S.

Definition with_iter (s : S) d : DBIter S :=
  {| scan_fuel := scan_fuel d; read_samples := read_samples d; internal_iter := s; sequence_ := sequence_ d;
     db_status := db_status d; saved_key_ := saved_key_ d; saved_value_ := saved_value_ d; direction_ := direction_ d;
     db_valid := db_valid d; rnd_ := rnd_ d; bytes_counter_ := bytes_counter_ d |}.
Definition with_saved (k v : bytes) d : DBIter S :=
  {| scan_fuel := scan_fuel d; read_samples := read_samples d; internal_iter := internal_iter d; sequence_ := sequence_ d;
     db_status := db_status d; saved_key_ := k; saved_value_ := v; direction_ := direction_ d;
     db_valid := db_valid d; rnd_ := rnd_ d; bytes_counter_ := bytes_counter_ d |}.
Definition with_direction (x : Direction) d : DBIter S :=
  {| scan_fuel := scan_fuel d; read_samples := read_samples d; internal_iter := internal_iter d; sequence_ := sequence_ d;
     db_status := db_status d; saved_key_ := saved_key_ d; saved_value_ := saved_value_ d; direction_ := x;
     db_valid := db_valid d; rnd_ := rnd_ d; bytes_counter_ := bytes_counter_ d |}.
Definition with_valid (v : bool) d : DBIter S :=
  {| scan_fuel := scan_fuel d; read_samples := read_samples d; internal_iter := internal_iter d; sequence_ := sequence_ d;
     db_status := db_status d; saved_key_ := saved_key_ d; saved_value_ := saved_value_ d; direction_ := direction_ d;
     db_valid := v; rnd_ := rnd_ d; bytes_counter_ := bytes_counter_ d |}.
Definition with_db_status (s : Status) d : DBIter S :=
  {| scan_fuel := scan_fuel d; read_samples := read_samples d; internal_iter := internal_iter d; sequence_ := sequence_ d;
     db_status := s; saved_key_ := saved_key_ d; saved_value_ := saved_value_ d; direction_ := direction_ d;
     db_valid := db_valid d; rnd_ := rnd_ d; bytes_counter_ := bytes_counter_ d |}.
Definition with_sampling (x : Z * Random * list bytes) d : DBIter S :=
  {| scan_fuel := scan_fuel d; read_samples := x.2; internal_iter := internal_iter d; sequence_ := sequence_ d;
     db_status := db_status d; saved_key_ := saved_key_ d; saved_value_ := saved_value_ d; direction_ := direction_ d;
     db_valid := db_valid d; rnd_ := x.1.2; bytes_counter_ := x.1.1 |}.

Definition SaveKey (k : bytes) d : DBIter S := with_saved k (saved_value_ d) d.
Definition ClearSavedKey d : DBIter S := with_saved [] (saved_value_ d) d.
Definition ClearSavedValue d : DBIter S := with_saved (saved_key_ d) [] d.

Definition NewDBIterator (fuel : nat) (iter : S) (s seed : Z) : DBIter S :=
  let '(counter, r) := RandomPeriod (Random_make seed) in
  {| scan_fuel := fuel; read_samples := []; internal_iter := iter; sequence_ := s; db_status := OK; saved_key_ := []; saved_value_ := [];
     direction_ := kForward; db_valid := false; rnd_ := r; bytes_counter_ := counter |}.

Definition ParseKey d : option (option ParsedInternalKey * DBIter S) :=
  k ← key (internal_iter d);
  v ← value (internal_iter d);
  let counter := bytes_counter_ d - (zlen k + zlen v) in
  x ← sample_loop (sample_fuel counter) k counter (rnd_ d) (read_samples d);
  let d := with_sampling x d in
  match ParseInternalKey k with
  | None => Some (None, with_db_status (Corruption (str "corrupted internal key in DBIter") []) d)
  | Some ikey => Some (Some ikey, d)
  end.

(** The entry parsed, when the snapshot sees it: [ParseKey(&ikey) && ikey.sequence <= sequence_]. *)
Definition ParseVisible d : option (option ParsedInternalKey * DBIter S) :=
  '(o, d) ← ParseKey d;
  Some (match o with Some ikey => if sequence ikey <=? sequence_ d then Some ikey else None | None => None end, d).

(** [skip] always points to [saved_key_]. *)
Fixpoint find_next (fuel : nat) (skipping : bool) d : option (DBIter S) :=
  match fuel with
  | O => None
  | Datatypes.S fuel =>
      '(o, d) ← ParseVisible d;
      let go skipping d :=
        s ← Next (internal_iter d);
        let d := with_iter s d in
        if Valid s then find_next fuel skipping d else Some (with_valid false (ClearSavedKey d)) in
      match o with
      | None => go skipping d
      | Some ikey =>
          match type ikey with
          | kTypeDeletion => go true (SaveKey (user_key ikey) d)
          | kTypeValue =>
              if skipping && (Compare user_comparator_ (user_key ikey) (saved_key_ d) <=? 0) then go skipping d
              else Some (ClearSavedKey (with_valid true d))
          end
      end
  end.

Definition FindNextUserEntry (skipping : bool) d : option (DBIter S) :=
  if Valid (internal_iter d) && bool_decide (direction_ d = kForward) then find_next (scan_fuel d) skipping d else None.

Definition DBIter_Next d : option (DBIter S) :=
  if negb (db_valid d) then None
  else
    match direction_ d with
    | kReverse =>
        let d := with_direction kForward d in
        s ← (if negb (Valid (internal_iter d)) then SeekToFirst (internal_iter d) else Next (internal_iter d));
        let d := with_iter s d in
        if negb (Valid s) then Some (ClearSavedKey (with_valid false d)) else FindNextUserEntry true d
    | kForward =>
        k ← key (internal_iter d);
        FindNextUserEntry true (SaveKey (ExtractUserKey k) d)
    end.

(** The loop of [FindPrevUserEntry], on a valid internal iterator; the type it leaves. *)
Fixpoint find_prev (fuel : nat) (value_type : ValueType) d : option (ValueType * DBIter S) :=
  match fuel with
  | O => None
  | Datatypes.S fuel =>
      '(o, d) ← ParseVisible d;
      let go value_type d :=
        s ← Prev (internal_iter d);
        let d := with_iter s d in
        if Valid s then find_prev fuel value_type d else Some (value_type, d) in
      match o with
      | None => go value_type d
      | Some ikey =>
          if negb (bool_decide (value_type = kTypeDeletion)) &&
             (Compare user_comparator_ (user_key ikey) (saved_key_ d) <? 0) then Some (value_type, d)
          else
            match type ikey with
            | kTypeDeletion => go kTypeDeletion (ClearSavedValue (ClearSavedKey d))
            | kTypeValue =>
                raw_value ← value (internal_iter d);
                k ← key (internal_iter d);
                go kTypeValue (with_saved (ExtractUserKey k) raw_value d)
            end
      end
  end.

Definition FindPrevUserEntry d : option (DBIter S) :=
  if negb (bool_decide (direction_ d = kReverse)) then None
  else
    '(value_type, d) ← (if Valid (internal_iter d) then find_prev (scan_fuel d) kTypeDeletion d else Some (kTypeDeletion, d));
    match value_type with
    | kTypeDeletion => Some (with_direction kForward (ClearSavedValue (ClearSavedKey (with_valid false d))))
    | kTypeValue => Some (with_valid true d)
    end.

(** Back to the first entry of a smaller user key; [false] when there is none. *)
Fixpoint step_back (fuel : nat) (saved : bytes) (s : S) : option (bool * S) :=
  match fuel with
  | O => None
  | Datatypes.S fuel =>
      s ← Prev s;
      if negb (Valid s) then Some (false, s)
      else
        k ← key s;
        if Compare user_comparator_ (ExtractUserKey k) saved <? 0 then Some (true, s) else step_back fuel saved s
  end.

Definition DBIter_Prev d : option (DBIter S) :=
  if negb (db_valid d) then None
  else
    match direction_ d with
    | kForward =>
        if negb (Valid (internal_iter d)) then None
        else
          k ← key (internal_iter d);
          let d := SaveKey (ExtractUserKey k) d in
          '(found, s) ← step_back (scan_fuel d) (saved_key_ d) (internal_iter d);
          let d := with_iter s d in
          if found : bool then FindPrevUserEntry (with_direction kReverse d)
          else Some (ClearSavedValue (ClearSavedKey (with_valid false d)))
    | kReverse => FindPrevUserEntry d
    end.

Definition DBIter_Seek (target : bytes) d : option (DBIter S) :=
  let d := ClearSavedValue (with_direction kForward d) in
  let d := SaveKey (AppendInternalKey [] {| user_key := target; sequence := sequence_ d; type := kValueTypeForSeek |}) d in
  s ← Seek (saved_key_ d) (internal_iter d);
  let d := with_iter s d in
  if Valid s then FindNextUserEntry false d else Some (with_valid false d).

Definition DBIter_SeekToFirst d : option (DBIter S) :=
  let d := ClearSavedValue (with_direction kForward d) in
  s ← SeekToFirst (internal_iter d);
  let d := with_iter s d in
  if Valid s then FindNextUserEntry false d else Some (with_valid false d).

Definition DBIter_SeekToLast d : option (DBIter S) :=
  let d := ClearSavedValue (with_direction kReverse d) in
  s ← SeekToLast (internal_iter d);
  FindPrevUserEntry (with_iter s d).

Definition DBIter_key d : option bytes :=
  if negb (db_valid d) then None
  else match direction_ d with kForward => ExtractUserKey <$> key (internal_iter d) | kReverse => Some (saved_key_ d) end.
Definition DBIter_value d : option bytes :=
  if negb (db_valid d) then None
  else match direction_ d with kForward => value (internal_iter d) | kReverse => Some (saved_value_ d) end.
Definition DBIter_status d : Status := if Status_ok (db_status d) then status (internal_iter d) else db_status d.

(** The iterator of the database. *)
Definition DBIter_Iterator : Iterator (DBIter S) := {|
  Valid := db_valid;
  SeekToFirst := DBIter_SeekToFirst;
  SeekToLast := DBIter_SeekToLast;
  Seek := DBIter_Seek;
  Next := DBIter_Next;
  Prev := DBIter_Prev;
  key := DBIter_key;
  value := DBIter_value;
  status := DBIter_status;
|}.
End Operations.

(** ** The sampling loop *)

(** After a draw of zero the next one is not zero. *)
Lemma zero_then_nonzero r : seed_ok r → (Random_Next r).1 mod 2097152 = 0 → (Random_Next (Random_Next r).2).1 mod 2097152 ≠ 0.
Proof.
  intros Hr H0. destruct (Random_Next_mod r Hr) as [_ Hs]. destruct (Random_Next_mod _ Hs) as [-> _].
  change (seed_ (Random_Next r).2) with ((Random_Next r).1). unfold seed_ok in Hs. change (seed_ (Random_Next r).2) with ((Random_Next r).1) in Hs.
  apply Z.mod_divide in H0 as [m Hm]; [|lia]. rewrite Hm in Hs |- *. assert (Hrange : 1 <= m < 1024) by lia. clear - Hrange.
  assert (Hall : forallb (λ m : nat, negb (((Z.of_nat m * 2097152) * 16807) mod 2147483647 mod 2097152 =? 0)) (seq 1 1023) = true) by (vm_compute; reflexivity).
  rewrite forallb_forall in Hall. specialize (Hall (Z.to_nat m)). rewrite in_seq, Z2Nat.id in Hall by lia.
  specialize (Hall ltac:(lia)). apply negb_true_iff, Z.eqb_neq in Hall. done.
Qed.

Lemma RandomPeriod_ok r : seed_ok r → seed_ok (RandomPeriod r).2 ∧ 0 <= (RandomPeriod r).1 < 2097152.
Proof.
  intros Hr. unfold RandomPeriod, Random_Uniform. pose proof (Random_Next_mod r Hr) as [_ H]. destruct (Random_Next r) as [x r'] eqn:E.
  split; [done|]. cbn [fst]. apply Z.mod_pos_bound. done.
Qed.

(** Each pair of draws makes progress. *)
Lemma two_periods r : seed_ok r → 1 <= (RandomPeriod r).1 + (RandomPeriod (RandomPeriod r).2).1.
Proof.
  intros Hr. pose proof (RandomPeriod_ok r Hr) as [Hr2 H1]. pose proof (RandomPeriod_ok _ Hr2) as [_ H2].
  assert (¬ ((RandomPeriod r).1 = 0 ∧ (RandomPeriod (RandomPeriod r).2).1 = 0)); [|lia]. intros [E1 E2].
  apply (zero_then_nonzero r Hr).
  - revert E1. unfold RandomPeriod, Random_Uniform. by destruct (Random_Next r).
  - revert E2. unfold RandomPeriod, Random_Uniform. destruct (Random_Next r) as [x r']. cbn [fst snd]. by destruct (Random_Next r').
Qed.

(** The loop ends, and the counter is then at or above zero. *)
Lemma sample_loop_ok k samples counter r : seed_ok r →
  ∃ c' r' s', sample_loop (sample_fuel counter) k counter r samples = Some (c', r', s') ∧ 0 <= c' ∧ seed_ok r'.
Proof.
  assert (Hloop : ∀ n fuel counter r samples, seed_ok r → - counter <= Z.of_nat n → (2 * n + 1 <= fuel)%nat →
    ∃ c' r' s', sample_loop fuel k counter r samples = Some (c', r', s') ∧ 0 <= c' ∧ seed_ok r').
  { clear. induction n as [|n IH]; intros fuel counter r samples Hr Hc Hf.
    - destruct fuel as [|fuel]; [lia|]. cbn [sample_loop]. rewrite (proj2 (Z.leb_le 0 counter)) by lia. eexists _, _, _. split_and!; [done|lia|done].
    - do 2 (destruct fuel as [|fuel]; [lia|]). cbn [sample_loop]. destruct (Z.leb_spec 0 counter); [by eauto 10|].
      pose proof (two_periods r Hr) as Hp. destruct (RandomPeriod_ok r Hr) as [Hr1 H1]. destruct (RandomPeriod_ok _ Hr1) as [Hr2 H2].
      destruct (RandomPeriod r) as [p1 r1] eqn:E1. cbn [fst snd] in *. destruct (RandomPeriod r1) as [p2 r2] eqn:E2. cbn [fst snd] in *.
      destruct (Z.leb_spec 0 (counter + p1)); [by eauto 10|]. apply IH; [done|lia|lia]. }
  intros Hr. apply (Hloop (Z.to_nat (- counter))); [done|lia|unfold sample_fuel; lia].
Qed.

(** ** What a snapshot sees *)

Section View.
Context (E : list Entry) (s : Z).

(** Entry [i] is there and not newer than the snapshot. *)
Definition sees (i : nat) (e : Entry) : Prop := E !! i = Some e ∧ e_seq e <= s.

(** Entry [i] is a value, and the first the snapshot sees of its user key. *)
Definition yields (i : nat) : bool :=
  match E !! i with
  | None => false
  | Some e => (e_seq e <=? s) && bool_decide (e_type e = kTypeValue) &&
      negb (existsb (λ e', bool_decide (e_key e' = e_key e) && (e_seq e' <=? s)) (take i E))
  end.

Definition user_kv (i : nat) : bytes * bytes := match E !! i with Some e => (e_key e, e_value e) | None => ([], []) end.

(** The user keys with the values the snapshot sees. *)
Definition db_view : list (bytes * bytes) := user_kv <$> List.filter yields (seq 0 (length E)).

(** How many entries of the view come before entry [a]. *)
Definition rank (a : nat) : nat := length (List.filter yields (seq 0 a)).

Lemma yields_spec i : yields i = true ↔
  ∃ e, sees i e ∧ e_type e = kTypeValue ∧ ∀ c e', (c < i)%nat → sees c e' → e_key e' ≠ e_key e.
Proof.
  unfold yields, sees. destruct (E !! i) as [e|] eqn:He; [|naive_solver].
  rewrite !andb_true_iff, Z.leb_le, bool_decide_eq_true, negb_true_iff, <- not_true_iff_false, existsb_exists. split.
  - intros [[Hs Ht] Hn]. exists e. split_and!; [done..|]. intros c e' Hc [He' Hs'] Hk. apply Hn. exists e'.
    rewrite bool_decide_eq_true_2 by done. split; [|by apply Z.leb_le].
    apply list_elem_of_In, list_elem_of_lookup. exists c. by rewrite lookup_take_lt.
  - intros (e0 & [[= <-] Hs] & Ht & Hn). split_and!; [done..|]. intros (e' & Hin & [Hk%bool_decide_eq_true Hs'%Z.leb_le]%andb_true_iff).
    apply list_elem_of_In, list_elem_of_lookup in Hin as [c Hc]. apply lookup_take_Some in Hc as [Hc Hlt]. by apply (Hn c e').
Qed.

Lemma yields_sees i : yields i = true → ∃ e, sees i e ∧ e_type e = kTypeValue.
Proof. intros (e & ? & ? & _)%yields_spec. eauto. Qed.

Lemma rank_S i : rank (S i) = (rank i + if yields i then 1 else 0)%nat.
Proof.
  unfold rank. rewrite seq_S, List.filter_app, length_app. simpl. by destruct (yields i).
Qed.

Lemma rank_same a b : (a <= b)%nat → (∀ i, (a <= i < b)%nat → yields i = false) → rank a = rank b.
Proof.
  intros Hab. induction Hab as [|b Hab IH]; intros Hn; [done|]. rewrite rank_S, (Hn b) by lia. rewrite IH; [lia|]. intros; apply Hn; lia.
Qed.

Lemma rank_mono a b : (a <= b)%nat → (rank a <= rank b)%nat.
Proof. induction 1 as [|b Hab IH]; [done|]. rewrite rank_S. lia. Qed.

Lemma db_view_length : length db_view = rank (length E).
Proof. unfold db_view. by rewrite length_fmap. Qed.

Lemma filter_rank i n : yields i = true → (i < n)%nat → List.filter yields (seq 0 n) !! rank i = Some i.
Proof.
  intros Hi. induction n as [|n IH]; intros Hn; [lia|]. rewrite seq_S, List.filter_app. destruct (decide (i = n)) as [->|].
  - rewrite lookup_app_r by done. unfold rank. rewrite Nat.sub_diag. simpl. by rewrite Hi.
  - rewrite lookup_app_l; [apply IH; lia|]. pose proof (rank_mono (S i) n ltac:(lia)) as H. rewrite rank_S, Hi in H.
    unfold rank in *. lia.
Qed.

Lemma db_view_rank i e : yields i = true → E !! i = Some e → db_view !! rank i = Some (e_key e, e_value e).
Proof.
  intros Hi He. unfold db_view. rewrite list_lookup_fmap, filter_rank by (done || by eapply lookup_lt_Some).
  simpl. unfold user_kv. by rewrite He.
Qed.

Lemma rank_lt i : yields i = true → (rank i < length db_view)%nat.
Proof. intros Hi. destruct (yields_sees i Hi) as (e & [He _] & _). eapply lookup_lt_Some, db_view_rank; eauto. Qed.

Lemma db_view_inv j kv : db_view !! j = Some kv → ∃ i e, yields i = true ∧ rank i = j ∧ E !! i = Some e ∧ kv = (e_key e, e_value e).
Proof.
  unfold db_view. rewrite list_lookup_fmap, fmap_Some. intros (i & Hi & ->).
  assert (Hin : In i (List.filter yields (seq 0 (length E)))) by (apply list_elem_of_In, list_elem_of_lookup; eauto).
  apply filter_In in Hin as [Hin Hy]. apply in_seq in Hin. destruct (yields_sees i Hy) as (e & [He _] & _).
  exists i, e. split_and!; [done| |done|unfold user_kv; by rewrite He].
  pose proof (filter_rank i (length E) Hy ltac:(lia)) as Hi'.
  assert (Hnd : NoDup (List.filter yields (seq 0 (length E)))) by (apply NoDup_ListNoDup, List.NoDup_filter, seq_NoDup).
  by apply (NoDup_lookup _ _ _ _ Hnd Hi').
Qed.

(** Seeking the first entry of the view at or after [a]. *)
Lemma at_rank_found a i : (a <= i)%nat → yields i = true → (∀ b, (a <= b < i)%nat → yields b = false) → at_index db_view (rank a) = Some (rank i).
Proof. intros Ha Hi Hn. rewrite (rank_same a i) by done. by apply at_index_Some, rank_lt. Qed.
Lemma at_rank_none a : (a <= length E)%nat → (∀ b, (a <= b)%nat → yields b = false) → at_index db_view (rank a) = None.
Proof. intros Ha Hn. apply at_index_None. rewrite db_view_length, (rank_same a (length E)) by (done || intros; apply Hn; lia). done. Qed.

(** The last entry of the view before [m]. *)
Lemma before_rank_found m i : (i < m)%nat → yields i = true → (∀ b, (i < b < m)%nat → yields b = false) → before (rank m) = Some (rank i).
Proof. intros Hm Hi Hn. rewrite <- (rank_same (S i) m), rank_S, Hi by (done || intros; apply Hn; lia). by rewrite Nat.add_comm. Qed.
Lemma before_rank_none m : (∀ b, (b < m)%nat → yields b = false) → before (rank m) = None.
Proof. intros Hn. by rewrite <- (rank_same 0 m) by (lia || intros; apply Hn; lia). Qed.
End View.

(** ** Correctness *)

Section DBIterOk.
Context {S : Type} `{!Iterator S} {valid : bytes → Prop} {user : Comparator} `{!ComparatorOk valid user}.
Context (E : list Entry) (s : Z) (R : S → option nat → Prop).
Abbreviation ivalid := (internal_valid valid).
Abbreviation icmp := (InternalKeyComparator user).
Context (Hs : 0 <= s <= kMaxSequenceNumber) (HE : Forall (entry_ok valid) E).
Context (Hsorted : sorted_kvs ivalid icmp (entry_kv <$> E)).
(** Targets of the internal iterator, and user keys that may be looked up. *)
Context {tvalid uvalid : bytes → Prop} (Huv : ∀ t, uvalid t → valid t) (Htv : ∀ t, uvalid t → tvalid (InternalKey t s kTypeValue)).
Context `{!IteratorOk tvalid icmp (entry_kv <$> E) R}.
Implicit Types d : DBIter S.

Lemma entry_valid_at i e : E !! i = Some e → valid (e_key e).
Proof using HE. intros He. by apply (Forall_lookup_1 _ _ _ _ HE) in He as (_ & ? & _). Qed.

Lemma key_mono i j e e' : (i <= j)%nat → E !! i = Some e → E !! j = Some e' → Compare user (e_key e) (e_key e') <= 0.
Proof using ComparatorOk0 HE Hsorted.
  intros Hij He He'. pose proof (entry_valid_at i e He) as V. pose proof (entry_valid_at j e' He') as V'.
  destruct (decide (i = j)) as [->|]; [simplify_eq; by rewrite Compare_refl|].
  pose proof (sorted_lookup_lt _ i j (entry_kv e) (entry_kv e') Hsorted ltac:(lia)) as Hlt. rewrite !list_lookup_fmap, He, He' in Hlt.
  specialize (Hlt eq_refl eq_refl). apply (icmp_lt (valid := valid)) in Hlt; [|by apply (ikey_valid (valid := valid) (user := user))..].
  unfold entry_kv, entry_ikey in Hlt. cbn [fst] in Hlt. rewrite !InternalKey_unfold, !ExtractUserKey_app in Hlt.
  destruct Hlt as [?|[-> _]]; [lia|by rewrite Compare_refl].
Qed.

Lemma key_same i j e e' : (i <= j)%nat → E !! i = Some e → E !! j = Some e' → Compare user (e_key e') (e_key e) <= 0 → e_key e = e_key e'.
Proof using ComparatorOk0 HE Hsorted.
  intros Hij He He' Hle. pose proof (key_mono i j e e' Hij He He'). pose proof (entry_valid_at i e He) as V. pose proof (entry_valid_at j e' He') as V'.
  apply (Compare_eq (valid := valid) (c := user)); [done..|]. pose proof (Compare_nlt (c := user) (e_key e) (e_key e') V V') as Hnlt. lia.
Qed.

(** What every state keeps. *)
Definition Common d : Prop :=
  (length E < scan_fuel d)%nat ∧ sequence_ d = s ∧ db_status d = OK ∧ seed_ok (rnd_ d).

(** The position of the internal iterator in each direction: at the entry that is yielded, or
    before it with nothing the snapshot sees in between. *)
Definition PlacedAt d (i : nat) (e : Entry) : Prop :=
  match direction_ d with
  | kForward => R (internal_iter d) (Some i)
  | kReverse => saved_key_ d = e_key e ∧ saved_value_ d = e_value e ∧
      ∃ q, (q <= i)%nat ∧ R (internal_iter d) (before q) ∧ ∀ b e', (q <= b < i)%nat → ¬ sees E s b e'
  end.

Definition DBIterR d (p : option nat) : Prop :=
  Common d ∧
  match p with
  | None => db_valid d = false ∧ ∃ q, R (internal_iter d) q
  | Some j => db_valid d = true ∧ ∃ i e, yields E s i = true ∧ rank E s i = j ∧ E !! i = Some e ∧ PlacedAt d i e
  end.

Lemma entry_at i : (i < length E)%nat → ∃ e, E !! i = Some e.
Proof. apply lookup_lt_is_Some_2. Qed.

Lemma R_entry it i : R it (Some i) → ∃ e, E !! i = Some e.
Proof using IteratorOk0. intros HR. apply entry_at. pose proof (R_bound it i HR) as H. by rewrite length_fmap in H. Qed.

Lemma R_key it i e : R it (Some i) → E !! i = Some e → key it = Some (entry_ikey e) ∧ value it = Some (e_value e).
Proof using IteratorOk0.
  intros HR He. assert (Hl : (entry_kv <$> E) !! i = Some (entry_kv e)) by (by rewrite list_lookup_fmap, He).
  by rewrite (key_ok (l := entry_kv <$> E) (R := R) it i _ HR Hl), (value_ok (l := entry_kv <$> E) (R := R) it i _ HR Hl).
Qed.

Lemma user_of_ikey e : ExtractUserKey (entry_ikey e) = e_key e.
Proof. unfold entry_ikey. rewrite InternalKey_unfold. apply ExtractUserKey_app. Qed.

Lemma valid_at it i : R it (Some i) → Valid it = true.
Proof using IteratorOk0. intros HR. rewrite (Valid_ok it _ HR). by apply bool_decide_eq_true_2. Qed.
Lemma valid_none it : R it None → Valid it = false.
Proof using IteratorOk0. intros HR. rewrite (Valid_ok it _ HR). apply bool_decide_eq_false_2. by intros [? [=]]. Qed.

Lemma ParseVisible_ok d i e : Common d → R (internal_iter d) (Some i) → E !! i = Some e →
  ∃ x, seed_ok x.1.2 ∧ ParseVisible d =
    Some (if e_seq e <=? s then Some {| user_key := e_key e; sequence := e_seq e; type := e_type e |} else None, with_sampling x d).
Proof using HE IteratorOk0.
  intros (Hf & Hseq & _ & Hr) HR He. destruct (R_key _ _ _ HR He) as [Hk Hv]. unfold ParseVisible, ParseKey. rewrite Hk, Hv. cbn [mbind option_bind].
  destruct (sample_loop_ok (entry_ikey e) (read_samples d) (bytes_counter_ d - (zlen (entry_ikey e) + zlen (e_value e))) (rnd_ d) Hr)
    as (c' & r' & s' & -> & _ & Hr'). exists (c', r', s'). split; [done|]. cbn [mbind option_bind].
  apply (Forall_lookup_1 _ _ _ _ HE) in He as (Hseq' & _). unfold entry_ikey.
  assert (ParseInternalKey (InternalKey (e_key e) (e_seq e) (e_type e)) =
    Some {| user_key := e_key e; sequence := e_seq e; type := e_type e |}) as ->.
  { by apply (ParseInternalKey_Append {| user_key := e_key e; sequence := e_seq e; type := e_type e |}). }
  cbn [mbind option_bind sequence sequence_ with_sampling]. by rewrite Hseq.
Qed.

Lemma Common_sampling x d : Common d → seed_ok x.1.2 → Common (with_sampling x d).
Proof. intros (H1 & H2 & H3 & _) Hx. exact (conj H1 (conj H2 (conj H3 Hx))). Qed.

(** ** Forward *)

(** When the scan is at [a], what [skipping] and [skip] hide is what the snapshot saw before. *)
Definition Hides (a : nat) (skipping : bool) (skip : bytes) : Prop :=
  (∀ b e, (a <= b)%nat → sees E s b e → skipping = true → Compare user (e_key e) skip <= 0 → yields E s b = false) ∧
  (∀ b e c e', (c < a <= b)%nat → sees E s b e → sees E s c e' → e_key e' = e_key e → skipping = true ∧ Compare user (e_key e) skip <= 0).

Lemma Hides_invisible a skipping skip e : E !! a = Some e → ¬ e_seq e <= s → Hides a skipping skip → Hides (Datatypes.S a) skipping skip.
Proof.
  intros He Hn [H1 H2]. split.
  - intros b e0 Hb. apply H1. lia.
  - intros b e0 c e' Hc Hb Hc'. destruct (decide (c = a)) as [->|]; [destruct Hc'; by simplify_eq|]. apply (H2 b e0 c e'); [lia|done..].
Qed.

Lemma Hides_hidden a skip e : sees E s a e → Compare user (e_key e) skip <= 0 → Hides a true skip → Hides (Datatypes.S a) true skip.
Proof.
  intros [He Hse] Hle [H1 H2]. split.
  - intros b e0 Hb. apply H1. lia.
  - intros b e0 c e' Hc Hb Hc' Hk. destruct (decide (c = a)) as [->|].
    + destruct Hc'. simplify_eq. by rewrite <- Hk.
    + apply (H2 b e0 c e'); [lia|done..].
Qed.

Lemma Hides_after a e : sees E s a e → Hides (Datatypes.S a) true (e_key e).
Proof using ComparatorOk0 HE Hsorted.
  intros [He Hse]. split.
  - intros b e0 Hb [Hb1 Hb2] _ Hle. apply not_true_iff_false. rewrite yields_spec. intros (e1 & [He1 _] & _ & Hn).
    simplify_eq. apply (Hn a e); [lia|done|]. apply (key_same a b); [lia|done..].
  - intros b e0 c e' Hc [Hb _] [Hc' _] Hk. split; [done|].
    rewrite <- Hk. apply (key_mono c a); [lia|done..].
Qed.

Lemma Hides_first a : (∀ b e c e', (c < a <= b)%nat → sees E s b e → sees E s c e' → e_key e' ≠ e_key e) → ∀ skip, Hides a false skip.
Proof. intros H skip. split; [done|]. intros b e c e' Hc Hb Hc' Hk. by destruct (H b e c e'). Qed.

Lemma yields_invisible i e : E !! i = Some e → ¬ e_seq e <= s → yields E s i = false.
Proof. intros He Hn. apply not_true_iff_false. rewrite yields_spec. intros (e' & [He' ?] & _). by simplify_eq. Qed.
Lemma yields_deletion i e : E !! i = Some e → e_type e = kTypeDeletion → yields E s i = false.
Proof. intros He Hn. apply not_true_iff_false. rewrite yields_spec. intros (e' & [He' ?] & Ht & _). simplify_eq. by rewrite Hn in Ht. Qed.
Lemma yields_past i : (length E <= i)%nat → yields E s i = false.
Proof. intros Hi. apply not_true_iff_false. rewrite yields_spec. intros (e' & [He' ?] & _). apply lookup_lt_Some in He'. lia. Qed.

(** One step of the scan past entry [a]. *)
Lemma next_step fuel a skipping d p : Common d → R (internal_iter d) (Some a) →
  (∀ it, (Datatypes.S a < length E)%nat → R it (Some (Datatypes.S a)) →
    ∃ d', find_next user fuel skipping (with_iter it d) = Some d' ∧ DBIterR d' p) →
  ((length E <= Datatypes.S a)%nat → p = None) →
  ∃ d', (s0 ← Next (internal_iter d);
         if Valid s0 then find_next user fuel skipping (with_iter s0 d) else Some (with_valid false (ClearSavedKey (with_iter s0 d)))) = Some d' ∧
    DBIterR d' p.
Proof using IteratorOk0.
  intros Hc HR Hgo Hend. destruct (Next_ok _ _ HR) as (it & -> & HR'). cbn [mbind option_bind].
  destruct (decide (Datatypes.S a < length E)%nat) as [Hlt|Hge].
  - rewrite at_index_Some in HR' by (by rewrite length_fmap). rewrite (valid_at _ _ HR'). by apply Hgo.
  - rewrite at_index_None in HR' by (rewrite length_fmap; lia). rewrite (valid_none _ HR'). eexists. split; [done|].
    rewrite Hend by lia. split; [done|]. split; [done|]. by exists None.
Qed.

Lemma at_rank_end a : (length E <= a)%nat → at_index (db_view E s) (rank E s a) = None.
Proof.
  intros Ha. rewrite <- (rank_same E s (length E) a) by (done || intros; apply yields_past; lia).
  apply at_rank_none; [done|]. intros; by apply yields_past.
Qed.

Lemma find_next_ok n : ∀ fuel a skipping d, (length E - a = n)%nat → (n < fuel)%nat → Common d → R (internal_iter d) (Some a) →
  direction_ d = kForward → Hides a skipping (saved_key_ d) →
  ∃ d', find_next user fuel skipping d = Some d' ∧ DBIterR d' (at_index (db_view E s) (rank E s a)).
Proof using All.
  induction n as [|n IH]; intros fuel a skipping d Hn Hf Hc HR Hd HH.
  { destruct (R_entry _ _ HR) as [e He]. apply lookup_lt_Some in He. lia. }
  destruct fuel as [|fuel]; [lia|]. destruct (R_entry _ _ HR) as [e He]. pose proof (lookup_lt_Some _ _ _ He) as Ha.
  cbn [find_next]. destruct (ParseVisible_ok d a e Hc HR He) as (x & Hx & ->). cbn [mbind option_bind].
  pose proof (Common_sampling x d Hc Hx) as Hc'.
  assert (Hgo : ∀ skipping' d0, Common d0 → R (internal_iter d0) (Some a) → direction_ d0 = kForward → yields E s a = false →
    Hides (Datatypes.S a) skipping' (saved_key_ d0) →
    ∃ d', (s0 ← Next (internal_iter d0);
           if Valid s0 then find_next user fuel skipping' (with_iter s0 d0) else Some (with_valid false (ClearSavedKey (with_iter s0 d0)))) = Some d' ∧
      DBIterR d' (at_index (db_view E s) (rank E s a))).
  { intros skipping' d0 Hc0 HR0 Hd0 Hy HH0. rewrite (rank_same E s a (Datatypes.S a)) by (lia || intros i Hi; by assert (i = a) as -> by lia).
    apply (next_step fuel a); [done|done| |apply at_rank_end]. intros it Hlt HR'. by apply IH; [lia|lia|..]. }
  destruct (Z.leb_spec (e_seq e) s) as [Hse|Hse].
  - cbn [type user_key]. destruct (e_type e) eqn:Ht.
    + apply Hgo; [done|done|done|by eapply yields_deletion|]. cbn [SaveKey with_saved saved_key_]. by apply Hides_after.
    + destruct (skipping && _) eqn:Hsk.
      * apply andb_true_iff in Hsk as [-> Hle%Z.leb_le]. cbn [with_sampling saved_key_] in Hle.
        apply Hgo; [done|done|done| |by apply (Hides_hidden a _ e)]. by apply (proj1 HH a e).
      * eexists. split; [done|]. assert (Hy : yields E s a = true).
        { apply yields_spec. exists e. split_and!; [done|done|]. intros c e' Hlt Hse' Hk.
          destruct (proj2 HH a e c e') as [-> Hle]; [lia|done..|]. cbn [andb] in Hsk. apply Z.leb_gt in Hsk. cbn [with_sampling saved_key_] in Hsk. lia. }
        rewrite at_index_Some by (by apply rank_lt). split; [done|]. split; [done|]. exists a, e. split_and!; [done..|].
        unfold PlacedAt. cbn [direction_ with_valid ClearSavedKey with_saved with_sampling]. by rewrite Hd.
  - apply Hgo; [done|done|done|eapply yields_invisible; [done|lia]|]. eapply Hides_invisible; [done|lia|done].
Qed.

(** Skipping the entry [i] now yielded, from a position with nothing visible before it. *)
Lemma find_next_past i e n : ∀ fuel q d, (q + n = i)%nat → (length E - q < fuel)%nat → Common d → R (internal_iter d) (Some q) →
  direction_ d = kForward → yields E s i = true → E !! i = Some e → saved_key_ d = e_key e → (∀ b e', (q <= b < i)%nat → ¬ sees E s b e') →
  ∃ d', find_next user fuel true d = Some d' ∧ DBIterR d' (at_index (db_view E s) (rank E s (Datatypes.S i))).
Proof using All.
  induction n as [|n IH]; intros fuel q d Hq Hf Hc HR Hd Hy He Hk Hnone; (destruct fuel as [|fuel]; [lia|]); cbn [find_next].
  - rewrite Nat.add_0_r in Hq. subst q. destruct (ParseVisible_ok d i e Hc HR He) as (x & Hx & ->). cbn [mbind option_bind].
    destruct (yields_sees E s i Hy) as (e' & Hse & Ht). destruct (Hse) as [He' Hle]. simplify_eq. rewrite (proj2 (Z.leb_le _ _) Hle). cbn [type user_key].
    rewrite Ht. cbn [andb with_sampling saved_key_]. rewrite Hk, Compare_refl by (by eapply entry_valid_at). cbn [Z.leb].
    pose proof (Common_sampling x d Hc Hx) as Hc'. apply (next_step fuel i); [done|done| |apply at_rank_end].
    intros it Hlt HR'. eapply find_next_ok; [done|lia|done|done|done|]. cbn [with_iter with_sampling saved_key_]. rewrite Hk. by apply Hides_after.
  - destruct (R_entry _ _ HR) as [e0 He0]. destruct (ParseVisible_ok d q e0 Hc HR He0) as (x & Hx & ->). cbn [mbind option_bind].
    pose proof (lookup_lt_Some _ _ _ He) as Hi. destruct (Z.leb_spec (e_seq e0) s) as [Hle|Hgt]; [by destruct (Hnone q e0 ltac:(lia))|].
    pose proof (Common_sampling x d Hc Hx) as Hc'. apply (next_step fuel q); [done|done| |lia].
    intros it Hlt HR'. apply (IH fuel (Datatypes.S q)); [lia|lia|done..|]. intros b e' Hb. apply Hnone. lia.
Qed.

(** ** Backward *)

(** When [n] entries are left, what the scan has found from there up to [m]. *)
Definition Behind (n m : nat) (value_type : ValueType) (k v : bytes) : Prop :=
  match value_type with
  | kTypeDeletion => ∀ b, (n <= b < m)%nat → yields E s b = false
  | kTypeValue => ∃ i e, (n <= i < m)%nat ∧ sees E s i e ∧ e_type e = kTypeValue ∧ k = e_key e ∧ v = e_value e ∧
      (∀ b e', (n <= b < i)%nat → ¬ sees E s b e') ∧ ∀ b, (i < b < m)%nat → yields E s b = false
  end.

Lemma Behind_invisible a m vt k v e : E !! a = Some e → ¬ e_seq e <= s → Behind (Datatypes.S a) m vt k v → Behind a m vt k v.
Proof.
  intros He Hn. destruct vt; simpl.
  - intros H b Hb. destruct (decide (b = a)) as [->|]; [by apply (yields_invisible a e)|]. apply H. lia.
  - intros (i & e' & Hi & H1 & H2 & H3 & H4 & H5 & H6). exists i, e'. split_and!; [lia|lia|done..| |done].
    intros b e0 Hb [Hb1 Hb2]. destruct (decide (b = a)) as [->|]; [by simplify_eq|]. by apply (H5 b e0 ltac:(lia)).
Qed.

Lemma Behind_hidden a m vt k v e : sees E s a e → (vt = kTypeValue → ¬ Compare user (e_key e) k < 0) →
  Behind (Datatypes.S a) m vt k v → ∀ b, (a < b < m)%nat → yields E s b = false.
Proof using ComparatorOk0 HE Hsorted.
  intros Hse Hk H b Hb. destruct vt; simpl in H; [apply H; lia|]. destruct H as (i & e' & Hi & [He' Hse'] & Ht & -> & Hv & H5 & H6).
  destruct (Nat.lt_total b i) as [Hlt|[->|Hgt]]; [| |apply H6; lia]; apply not_true_iff_false; rewrite yields_spec; intros (e0 & He0 & _ & Hn).
  - by apply (H5 b e0 ltac:(lia)).
  - destruct He0 as [He0 _]. simplify_eq. apply (Hn a e ltac:(lia) Hse). destruct Hse as [He _]. apply (key_same a i); [lia|done|done|].
    specialize (Hk eq_refl). apply (Compare_nlt (valid := valid)) in Hk; [done|by eapply entry_valid_at..].
Qed.

Lemma Behind_yields a m k v e : sees E s a e → Compare user (e_key e) k < 0 → Behind (Datatypes.S a) m kTypeValue k v →
  ∃ i e', (a < i < m)%nat ∧ yields E s i = true ∧ E !! i = Some e' ∧ k = e_key e' ∧ v = e_value e' ∧
    (∀ b e', (a < b < i)%nat → ¬ sees E s b e') ∧ ∀ b, (i < b < m)%nat → yields E s b = false.
Proof using ComparatorOk0 HE Hsorted.
  intros [He Hse] Hlt (i & e' & Hi & Hse' & Ht & -> & -> & H5 & H6). exists i, e'. destruct (Hse') as [He' _]. split_and!; [lia|lia| |done..].
  apply yields_spec. exists e'. split_and!; [done..|]. intros c e0 Hc [He0 Hse0] Hk.
  destruct (decide (c <= a)%nat) as [Hca|Hca]; [|by apply (H5 c e0 ltac:(lia))].
  pose proof (key_mono c a e0 e Hca He0 He) as Hle. rewrite Hk in Hle.
  pose proof (Compare_nlt (valid := valid) (c := user) (e_key e) (e_key e') ltac:(by eapply entry_valid_at) ltac:(by eapply entry_valid_at)). lia.
Qed.

(** What [FindPrevUserEntry] finds below [m]. *)
Definition FoundBelow (m : nat) (value_type : ValueType) d : Prop :=
  Common d ∧ direction_ d = kReverse ∧
  match value_type with
  | kTypeDeletion => (∀ b, (b < m)%nat → yields E s b = false) ∧ ∃ q, R (internal_iter d) q
  | kTypeValue => ∃ i e, (i < m)%nat ∧ yields E s i = true ∧ E !! i = Some e ∧ PlacedAt d i e ∧ ∀ b, (i < b < m)%nat → yields E s b = false
  end.

Lemma Behind_end m vt d : Common d → direction_ d = kReverse → R (internal_iter d) None →
  Behind 0 m vt (saved_key_ d) (saved_value_ d) → FoundBelow m vt d.
Proof.
  intros Hc Hd HR HB. split; [done|]. split; [done|]. destruct vt; simpl in HB.
  - split; [|eauto]. intros b Hb. apply HB. lia.
  - destruct HB as (i & e & Hi & Hse & Ht & Hk & Hv & H5 & H6). exists i, e. destruct (Hse) as [He _].
    split_and!; [lia| |done| |intros; apply H6; lia].
    + apply yields_spec. exists e. split_and!; [done..|]. intros c e' Hc' Hse' _. by apply (H5 c e' ltac:(lia)).
    + unfold PlacedAt. rewrite Hd. split_and!; [done..|]. exists 0%nat. split_and!; [lia|done|]. intros b e' Hb. apply H5. lia.
Qed.

Lemma find_prev_ok a : ∀ fuel m vt d, (a < fuel)%nat → (a < m)%nat → Common d → R (internal_iter d) (Some a) →
  direction_ d = kReverse → Behind (Datatypes.S a) m vt (saved_key_ d) (saved_value_ d) →
  ∃ vt' d', find_prev user fuel vt d = Some (vt', d') ∧ FoundBelow m vt' d'.
Proof using All.
  induction a as [a IH] using lt_wf_ind; intros fuel m vt d Hf Hm Hc HR Hd HB.
  destruct fuel as [|fuel]; [lia|]. destruct (R_entry _ _ HR) as [e He].
  cbn [find_prev]. destruct (ParseVisible_ok d a e Hc HR He) as (x & Hx & ->). cbn [mbind option_bind].
  pose proof (Common_sampling x d Hc Hx) as Hc'.
  assert (Hgo : ∀ vt' d0, Common d0 → R (internal_iter d0) (Some a) → direction_ d0 = kReverse →
    Behind a m vt' (saved_key_ d0) (saved_value_ d0) →
    ∃ vt'' d', (s0 ← Prev (internal_iter d0);
           if Valid s0 then find_prev user fuel vt' (with_iter s0 d0) else Some (vt', with_iter s0 d0)) = Some (vt'', d') ∧ FoundBelow m vt'' d').
  { clear d x Hx Hc Hc' HR Hd HB. intros vt' d Hc HR Hd HB. destruct (Prev_ok _ _ HR) as (it & -> & HR').
    cbn [mbind option_bind]. destruct a as [|a]; simpl before in HR'.
    - rewrite (valid_none _ HR'). eexists _, _. split; [done|]. by apply Behind_end.
    - rewrite (valid_at _ _ HR'). apply (IH a ltac:(lia) fuel m); [lia|lia|done..]. }
  destruct (Z.leb_spec (e_seq e) s) as [Hse|Hse]; [|apply Hgo; [done..|]; eapply Behind_invisible; [done|lia|done]].
  assert (Hsees : sees E s a e) by done. cbn [type user_key]. destruct (negb _ && _) eqn:Hstop.
  - apply andb_true_iff in Hstop as [Hvt%negb_true_iff%bool_decide_eq_false Hlt%Z.ltb_lt]. destruct vt; [done|].
    eexists _, _. split; [done|]. split; [done|]. split; [done|].
    destruct (Behind_yields a m _ _ e Hsees Hlt HB) as (i & e' & Hi & Hy & He' & Hk & Hv & H5 & H6). exists i, e'. split_and!; [lia|done|done| |done].
    unfold PlacedAt. cbn [direction_ with_sampling saved_key_ saved_value_ internal_iter]. rewrite Hd. split_and!; [done..|].
    exists (Datatypes.S a). split_and!; [lia|done|]. intros b e0 Hb. apply H5. lia.
  - assert (Hhid : ∀ b, (a < b < m)%nat → yields E s b = false).
    { apply (Behind_hidden a m vt (saved_key_ d) (saved_value_ d) e Hsees); [|done]. intros ->. cbn [negb bool_decide andb] in Hstop.
      apply andb_false_iff in Hstop as [Hstop|Hstop%Z.ltb_ge]; [by rewrite bool_decide_eq_false_2 in Hstop|]. cbn [saved_key_ with_sampling] in Hstop. lia. }
    destruct (e_type e) eqn:Ht.
    + apply Hgo; [done..|]. intros b Hb. destruct (decide (b = a)) as [->|]; [by eapply yields_deletion|]. apply Hhid. lia.
    + cbn [internal_iter with_sampling]. destruct (R_key _ _ _ HR He) as [-> ->]. cbn [mbind option_bind]. apply Hgo; [done..|].
      cbn [Behind saved_key_ saved_value_ with_saved]. exists a, e. split_and!; [lia|lia|done|done|by rewrite user_of_ikey|done| |done]. intros; lia.
Qed.

(** From a position with [n] entries before it and none yielded from there to [m]. *)
Lemma FindPrevUserEntry_ok n m d : Common d → (n <= m)%nat → R (internal_iter d) (before n) → direction_ d = kReverse →
  (∀ b, (n <= b < m)%nat → yields E s b = false) →
  ∃ d', FindPrevUserEntry user d = Some d' ∧ DBIterR d' (before (rank E s m)).
Proof using All.
  intros Hc Hnm HR Hd Hn. unfold FindPrevUserEntry. rewrite bool_decide_eq_true_2 by done. cbn [negb].
  assert (Hfind : ∃ vt d', (if Valid (internal_iter d) then find_prev user (scan_fuel d) kTypeDeletion d else Some (kTypeDeletion, d)) = Some (vt, d') ∧
    FoundBelow m vt d').
  { destruct n as [|a]; simpl before in HR.
    - rewrite (valid_none _ HR). eexists _, _. split; [done|]. by apply Behind_end.
    - rewrite (valid_at _ _ HR). destruct (R_entry _ _ HR) as [e He]. apply lookup_lt_Some in He. destruct Hc as [Hf Hc'].
      apply (find_prev_ok a); [lia|lia|done|done|done|]. done. }
  destruct Hfind as (vt & d' & -> & Hc' & Hd' & HF). cbn [mbind option_bind]. destruct vt.
  - eexists. split; [done|]. destruct HF as [Hb Hq]. rewrite (before_rank_none E s m) by done. by split.
  - eexists. split; [done|]. destruct HF as (i & e & Hi & Hy & He & HP & Hb). rewrite (before_rank_found E s m i) by done.
    split; [done|]. split; [done|]. by exists i, e.
Qed.

(** Stepping back over the entries of the same user key. *)
Lemma step_back_ok i e : E !! i = Some e → ∀ a fuel it, (a < fuel)%nat → (a <= i)%nat → R it (Some a) →
  (∀ b eb, (a <= b < i)%nat → E !! b = Some eb → ¬ Compare user (e_key eb) (e_key e) < 0) →
  ∃ found it' n, step_back user fuel (e_key e) it = Some (found, it') ∧ R it' (before n) ∧ (n <= i)%nat ∧ found = bool_decide (0 < n)%nat ∧
    ∀ b eb, (n <= b < i)%nat → E !! b = Some eb → ¬ Compare user (e_key eb) (e_key e) < 0.
Proof using IteratorOk0.
  intros He a. induction a as [|a IH]; intros fuel it Hf Ha HR Hge; (destruct fuel as [|fuel]; [lia|]); cbn [step_back];
    destruct (Prev_ok _ _ HR) as (it' & -> & HR'); simpl before in HR'; cbn [mbind option_bind].
  - rewrite (valid_none _ HR'). cbn [negb]. exists false, it', 0%nat. split_and!; [done|done|lia|done|]. intros b eb Hb. apply Hge. lia.
  - rewrite (valid_at _ _ HR'). cbn [negb]. destruct (R_entry _ _ HR') as [ea Hea]. destruct (R_key _ _ _ HR' Hea) as [-> _].
    cbn [mbind option_bind]. rewrite user_of_ikey. destruct (Z.ltb_spec (Compare user (e_key ea) (e_key e)) 0) as [Hlt|Hnlt].
    + exists true, it', (Datatypes.S a). split_and!; [done|done|lia|done|]. intros b eb Hb. apply Hge. lia.
    + apply IH; [lia|lia|done|]. intros b eb Hb Heb. destruct (decide (b = a)) as [->|]; [simplify_eq; lia|]. apply (Hge b eb); [lia|done].
Qed.

Lemma same_key_not_yields i e b eb : yields E s i = true → E !! i = Some e → (b < i)%nat → E !! b = Some eb →
  ¬ Compare user (e_key eb) (e_key e) < 0 → yields E s b = false.
Proof using ComparatorOk0 HE Hsorted.
  intros Hy He Hb Heb Hnlt. apply not_true_iff_false. intros Hyb. apply yields_sees in Hyb as (e' & Hse & _). destruct (Hse) as [He' _]. simplify_eq.
  apply yields_spec in Hy as (e' & [He' _] & _ & Hn). simplify_eq. apply (Hn b eb Hb Hse). apply (key_same b i); [lia|done..|].
  apply (Compare_nlt (valid := valid)); [by eapply entry_valid_at..|done].
Qed.

(** The place the internal key of a lookup falls into. *)
Lemma lower_bound_seen t b e : valid t → sees E s b e →
  (b < lower_bound icmp (entry_kv <$> E) (InternalKey t s kTypeValue))%nat ↔ Compare user (e_key e) t < 0.
Proof using ComparatorOk0 HE Hs Hsorted.
  intros Ht [He Hse]. pose proof (Forall_lookup_1 _ _ _ _ HE He) as Hok. pose proof (entry_valid_at b e He) as V.
  destruct (target_order (valid := valid) e t s Hok Ht Hs) as (T1 & T2 & T3).
  assert (Hl : (entry_kv <$> E) !! b = Some (entry_kv e)) by (by rewrite list_lookup_fmap, He). split.
  - intros Hlt. pose proof (cut_before _ _ _ _ Hlt Hl) as Hb. apply Z.ltb_lt in Hb. cbn [entry_kv fst] in Hb.
    destruct (Z.lt_trichotomy (Compare user (e_key e) t) 0) as [?|[H0|H0]]; [done| |].
    + apply (Compare_eq (valid := valid)) in H0; [|done..]. apply T3 in H0. cbn [InternalKeyComparator Compare] in Hb. lia.
    + apply T2 in H0. cbn [InternalKeyComparator Compare] in Hb. lia.
  - intros Hlt%T1. destruct (decide (b < lower_bound icmp (entry_kv <$> E) (InternalKey t s kTypeValue))%nat) as [|Hge]; [done|].
    assert (Ht' : ivalid (InternalKey t s kTypeValue)) by (by apply (ikey_valid (valid := valid) (user := user))).
    pose proof (cut_after _ _ b (entry_kv e) Hsorted (below_downward _ Ht') ltac:(unfold lower_bound in Hge; lia) Hl) as Hf.
    apply Z.ltb_ge in Hf. cbn [entry_kv fst InternalKeyComparator Compare] in Hf. lia.
Qed.

Lemma lower_bound_view t : valid t →
  lower_bound user (db_view E s) t = rank E s (lower_bound icmp (entry_kv <$> E) (InternalKey t s kTypeValue)).
Proof using ComparatorOk0 HE Hs Hsorted.
  intros Ht. set (a := lower_bound icmp _ _). assert (Ha : (a <= length E)%nat) by (unfold a, lower_bound; rewrite cut_le, length_fmap; done).
  apply cut_unique.
  - rewrite db_view_length. by apply rank_mono.
  - intros j kv Hj (i & e & Hy & <- & He & ->)%db_view_inv. apply Z.ltb_lt. simpl.
    destruct (yields_sees E s i Hy) as (e' & Hse & _). destruct (Hse) as [He' _]. simplify_eq. apply (lower_bound_seen t i e); [done|done|].
    fold a. destruct (decide (i < a)%nat); [done|]. pose proof (rank_mono E s a i ltac:(lia)). lia.
  - intros kv (i & e & Hy & Hi & He & ->)%db_view_inv. apply Z.ltb_ge. simpl.
    destruct (yields_sees E s i Hy) as (e' & Hse & _). destruct (Hse) as [He' _]. simplify_eq.
    destruct (decide (i < a)%nat) as [Hlt|Hge].
    + pose proof (rank_mono E s (Datatypes.S i) a Hlt) as H. rewrite rank_S, Hy in H. lia.
    + pose proof (lower_bound_seen t i e Ht Hse) as Hiff. fold a in Hiff. lia.
Qed.

Lemma db_view_sorted : sorted_kvs valid user (db_view E s).
Proof using ComparatorOk0 HE Hsorted.
  split.
  - apply Forall_lookup. intros j kv (i & e & _ & _ & He & ->)%db_view_inv. by apply (entry_valid_at i).
  - unfold db_view. assert (Hsub : ∀ b n, StronglySorted (key_lt user) (user_kv E <$> List.filter (yields E s) (seq b n))); [|apply Hsub].
    intros b n. revert b. induction n as [|n IH]; intros b; [constructor|]. simpl. destruct (yields E s b) eqn:Hb; [|apply IH]. simpl. constructor; [apply IH|].
    apply Forall_forall. intros kv (i & -> & Hi%list_elem_of_In%filter_In)%list_elem_of_fmap. destruct Hi as [Hi%in_seq Hy]. unfold key_lt, user_kv.
    destruct (yields_sees E s b Hb) as (e & Hse & _). destruct (Hse) as [He _]. rewrite He.
    apply yields_spec in Hy as (e' & [He' _] & _ & Hn). rewrite He'. simpl. pose proof (key_mono b i e e' ltac:(lia) He He').
    assert (Compare user (e_key e) (e_key e') ≠ 0); [|lia]. intros H0. apply (Hn b e ltac:(lia) Hse).
    by apply (Compare_eq (valid := valid) (c := user)); [by eapply entry_valid_at..|].
Qed.

(** ** The iterator interface *)

Lemma FindNextUserEntry_ok a skipping d : Common d → R (internal_iter d) (Some a) → direction_ d = kForward → Hides a skipping (saved_key_ d) →
  ∃ d', FindNextUserEntry user skipping d = Some d' ∧ DBIterR d' (at_index (db_view E s) (rank E s a)).
Proof using All.
  intros Hc HR Hd HH. unfold FindNextUserEntry. rewrite (valid_at _ _ HR), bool_decide_eq_true_2 by done. cbn [andb].
  eapply find_next_ok; [done| |done..]. destruct Hc as [Hf _]. lia.
Qed.

Lemma DBIter_Next_ok d j : DBIterR d (Some j) → ∃ d', DBIter_Next user d = Some d' ∧ DBIterR d' (at_index (db_view E s) (Datatypes.S j)).
Proof using All.
  intros (Hc & Hv & i & e & Hy & <- & He & HP). assert (Hrank : Datatypes.S (rank E s i) = rank E s (Datatypes.S i)) by (rewrite rank_S, Hy; lia).
  rewrite Hrank. unfold DBIter_Next. rewrite Hv. cbn [negb]. unfold PlacedAt in HP. pose proof (lookup_lt_Some _ _ _ He) as Hi.
  pose proof (proj1 Hc) as Hf. destruct (direction_ d) eqn:Hd.
  - destruct (R_key _ _ _ HP He) as [-> _]. cbn [mbind option_bind]. rewrite user_of_ikey. unfold FindNextUserEntry.
    cbn [SaveKey with_saved internal_iter direction_ scan_fuel]. rewrite (valid_at _ _ HP), Hd. cbn [andb].
    apply (find_next_past i e 0 _ i); [lia|lia|done|done|done|done|done|done|lia].
  - destruct HP as (Hk & _ & q & Hq & HR & Hnone). cbn [with_direction internal_iter].
    assert (Hmove : ∃ it, (if negb (Valid (internal_iter d)) then SeekToFirst (internal_iter d) else Next (internal_iter d)) = Some it ∧ R it (Some q)).
    { destruct q as [|q]; simpl before in HR.
      - rewrite (valid_none _ HR). cbn [negb]. destruct (SeekToFirst_ok _ _ HR) as (it & ? & HR'). rewrite at_index_Some in HR' by (rewrite length_fmap; lia). eauto.
      - rewrite (valid_at _ _ HR). cbn [negb]. destruct (Next_ok _ _ HR) as (it & ? & HR'). rewrite at_index_Some in HR' by (rewrite length_fmap; lia). eauto. }
    destruct Hmove as (it & -> & HR'). cbn [mbind option_bind]. rewrite (valid_at _ _ HR'). cbn [negb]. unfold FindNextUserEntry.
    cbn [with_iter with_direction internal_iter direction_ scan_fuel]. rewrite (valid_at _ _ HR'). cbn [andb bool_decide].
    rewrite bool_decide_eq_true_2 by done.
    apply (find_next_past i e (i - q) _ q); [lia|lia|done|done|done|done|done|done|done].
Qed.

Lemma DBIter_Prev_ok d j : DBIterR d (Some j) → ∃ d', DBIter_Prev user d = Some d' ∧ DBIterR d' (before j).
Proof using All.
  intros (Hc & Hv & i & e & Hy & <- & He & HP). unfold DBIter_Prev. rewrite Hv. cbn [negb]. unfold PlacedAt in HP. destruct (direction_ d) eqn:Hd.
  - rewrite (valid_at _ _ HP). cbn [negb]. destruct (R_key _ _ _ HP He) as [-> _]. cbn [mbind option_bind]. rewrite user_of_ikey.
    cbn [SaveKey with_saved internal_iter scan_fuel saved_key_]. pose proof (lookup_lt_Some _ _ _ He) as Hi.
    destruct (step_back_ok i e He i (scan_fuel d) (internal_iter d)) as (found & it & n & -> & HR & Hn & -> & Hge);
      [destruct Hc; lia|lia|done|lia|]. cbn [mbind option_bind].
    assert (Hnone : ∀ b, (n <= b < i)%nat → yields E s b = false).
    { intros b Hb. destruct (entry_at b ltac:(lia)) as [eb Heb]. apply (same_key_not_yields i e b eb); [done|done|lia|done|]. by apply (Hge b). }
    case_bool_decide as Hpos.
    + apply (FindPrevUserEntry_ok n i); done.
    + eexists. split; [done|]. rewrite (before_rank_none E s i) by (intros b Hb; apply Hnone; lia). split; [done|]. split; [done|]. by exists (before n).
  - destruct HP as (_ & _ & q & Hq & HR & Hnone). apply (FindPrevUserEntry_ok q i); [done..|].
    intros b Hb. apply not_true_iff_false. intros (e' & Hse & _)%yields_sees. by apply (Hnone b e' Hb).
Qed.

(** A seek that leaves the internal iterator at [a]. *)
Lemma seek_ok a it d : Common d → direction_ d = kForward → (a <= length E)%nat → R it (at_index (entry_kv <$> E) a) → Hides a false (saved_key_ d) →
  ∃ d', (if Valid it then FindNextUserEntry user false (with_iter it d) else Some (with_valid false (with_iter it d))) = Some d' ∧
    DBIterR d' (at_index (db_view E s) (rank E s a)).
Proof using All.
  intros Hc Hd Ha HR HH. destruct (decide (a < length E)%nat) as [Hlt|Hge].
  - rewrite at_index_Some in HR by (by rewrite length_fmap). rewrite (valid_at _ _ HR). by apply FindNextUserEntry_ok.
  - rewrite at_index_None in HR by (rewrite length_fmap; lia). rewrite (valid_none _ HR). eexists. split; [done|].
    rewrite at_rank_end by lia. split; [done|]. split; [done|]. by exists None.
Qed.

Lemma DBIterR_internal d p : DBIterR d p → Common d ∧ ∃ q, R (internal_iter d) q.
Proof using Type.
  intros [Hc Hp]. split; [done|]. destruct p; [|by destruct Hp]. destruct Hp as (_ & i & e & _ & _ & _ & HP). unfold PlacedAt in HP.
  destruct (direction_ d); [by eexists|]. destruct HP as (_ & _ & q & _ & HR & _). by eexists.
Qed.

Lemma DBIter_Seek_ok t d p : uvalid t → DBIterR d p →
  ∃ d', DBIter_Seek user t d = Some d' ∧ DBIterR d' (at_index (db_view E s) (lower_bound user (db_view E s) t)).
Proof using All.
  intros Hu [Hc [q HR]]%DBIterR_internal. pose proof (Huv t Hu) as Ht. unfold DBIter_Seek. cbn [SaveKey ClearSavedValue with_direction with_saved internal_iter saved_key_ sequence_].
  rewrite (proj1 (proj2 Hc)). fold (InternalKey t s kValueTypeForSeek). change kValueTypeForSeek with kTypeValue.
  destruct (Seek_ok (InternalKey t s kTypeValue) _ _ (Htv t Hu) HR) as (it & -> & HR').
  cbn [mbind option_bind]. rewrite lower_bound_view by done. set (a := lower_bound icmp _ _) in *.
  apply (seek_ok a it); [done|done|unfold a, lower_bound; by rewrite cut_le, length_fmap|done|].
  apply Hides_first. intros b e c e' Hbc Hb Hcs Hk. pose proof (lower_bound_seen t b e Ht Hb) as H1. pose proof (lower_bound_seen t c e' Ht Hcs) as H2.
  fold a in H1, H2. rewrite Hk in H2. lia.
Qed.

Lemma DBIter_SeekToFirst_ok d p : DBIterR d p → ∃ d', DBIter_SeekToFirst user d = Some d' ∧ DBIterR d' (at_index (db_view E s) 0).
Proof using All.
  intros [Hc [q HR]]%DBIterR_internal. unfold DBIter_SeekToFirst. cbn [ClearSavedValue with_direction with_saved internal_iter].
  destruct (SeekToFirst_ok _ _ HR) as (it & -> & HR'). cbn [mbind option_bind]. apply (seek_ok 0 it); [done|done|lia|done|].
  apply Hides_first. lia.
Qed.

Lemma DBIter_SeekToLast_ok d p : DBIterR d p → ∃ d', DBIter_SeekToLast user d = Some d' ∧ DBIterR d' (before (length (db_view E s))).
Proof using All.
  intros [Hc [q HR]]%DBIterR_internal. unfold DBIter_SeekToLast. cbn [ClearSavedValue with_direction with_saved internal_iter].
  destruct (SeekToLast_ok _ _ HR) as (it & -> & HR'). cbn [mbind option_bind]. rewrite length_fmap in HR'. rewrite db_view_length.
  apply (FindPrevUserEntry_ok (length E) (length E)); [done|done|done|done|lia].
Qed.

Lemma DBIter_kv_ok d j kv : DBIterR d (Some j) → db_view E s !! j = Some kv → DBIter_key d = Some kv.1 ∧ DBIter_value d = Some kv.2.
Proof using IteratorOk0.
  intros (Hc & Hv & i & e & Hy & <- & He & HP) Hkv. rewrite (db_view_rank E s i e Hy He) in Hkv. injection Hkv as <-.
  unfold DBIter_key, DBIter_value, PlacedAt in *. rewrite Hv. cbn [negb fst snd]. destruct (direction_ d).
  - destruct (R_key _ _ _ HP He) as [-> ->]. simpl. by rewrite user_of_ikey.
  - by destruct HP as (-> & -> & _).
Qed.

Lemma DBIter_ok : IteratorOk (Iterator0 := DBIter_Iterator user) uvalid user (db_view E s) DBIterR.
Proof using All.
  split; cbn [Valid SeekToFirst SeekToLast Seek Next Prev key value status DBIter_Iterator].
  - intros d j (_ & _ & i & e & Hy & <- & _). by apply rank_lt.
  - intros d [j|] (_ & Hv & _); rewrite Hv; [by rewrite bool_decide_eq_true_2|rewrite bool_decide_eq_false_2; [done|by intros [? [=]]]].
  - intros d j kv HR Hkv. apply (DBIter_kv_ok d j kv HR Hkv).
  - intros d j kv HR Hkv. apply (DBIter_kv_ok d j kv HR Hkv).
  - intros d p [(_ & _ & Hst & _) [q HR]]%DBIterR_internal. unfold DBIter_status. rewrite Hst. cbn [Status_ok OK].
    exact (status_is_ok _ _ HR).
  - apply DBIter_SeekToFirst_ok.
  - apply DBIter_SeekToLast_ok.
  - apply DBIter_Seek_ok.
  - apply DBIter_Next_ok.
  - apply DBIter_Prev_ok.
Qed.

Lemma NewDBIterator_ok fuel it q seed : R it q → (length E < fuel)%nat → DBIterR (NewDBIterator fuel it s seed) None.
Proof using Type.
  intros HR Hf. unfold NewDBIterator. destruct (RandomPeriod_ok (Random_make seed) (Random_make_ok seed)) as [Hr _].
  destruct (RandomPeriod (Random_make seed)) as [c r]. split; [|by split; [|exists q]]. exact (conj Hf (conj eq_refl (conj eq_refl Hr))).
Qed.
End DBIterOk.

(** ** What the view is *)

Lemma find_Some_iff {A} (f : A → bool) (l : list A) x :
  List.find f l = Some x ↔ ∃ i, l !! i = Some x ∧ f x = true ∧ ∀ c y, (c < i)%nat → l !! c = Some y → f y = false.
Proof.
  induction l as [|a l IH]; simpl; [split; [done|by intros (i & H & _)]|]. destruct (f a) eqn:Ha.
  - split.
    + intros [= <-]. exists 0%nat. split_and!; [done..|]. intros; lia.
    + intros ([|i] & Hi & Hx & Hn); [by simplify_eq/=|]. by rewrite (Hn 0%nat a) in Ha by (lia || done).
  - rewrite IH. split.
    + intros (i & Hi & Hx & Hn). exists (S i). split_and!; [done..|]. intros [|c] y Hc Hy; simplify_eq/=; [done|]. apply (Hn c); [lia|done].
    + intros ([|i] & Hi & Hx & Hn); simplify_eq/=; [congruence|]. exists i. split_and!; [done..|]. intros c y Hc Hy. apply (Hn (S c)); [lia|done].
Qed.

(** The view lists the keys a read at the snapshot finds, with their values. *)
Lemma db_view_visible E s u v : (u, v) ∈ db_view E s ↔ value_of (visible u s E) = Some v.
Proof.
  rewrite list_elem_of_lookup. split.
  - intros [j (i & e & Hy & _ & He & [= -> ->])%db_view_inv]. apply yields_spec in Hy as (e' & [He' Hse] & Ht & Hn). rewrite He in He'. injection He' as <-.
    assert (visible (e_key e) s E = Some e) as ->; [|simpl; by rewrite Ht]. apply find_Some_iff. exists i. split_and!; [done| |].
    + by rewrite bool_decide_eq_true_2, (proj2 (Z.leb_le _ _) Hse).
    + intros c y Hc Hy'. apply andb_false_iff. destruct (Z.leb_spec (e_seq y) s); [left|by right]. apply bool_decide_eq_false_2. by apply (Hn c y).
  - destruct (visible u s E) as [e|] eqn:Hvis; [|done]. simpl. destruct (e_type e) eqn:Ht; [done|]. intros [= <-].
    apply find_Some_iff in Hvis as (i & He & [<-%bool_decide_eq_true Hse%Z.leb_le]%andb_true_iff & Hn). exists (rank E s i).
    apply db_view_rank; [|done]. apply yields_spec. exists e. split; [done|]. split; [done|]. intros c e' Hc [He' Hse'] Hk.
    specialize (Hn c e' Hc He'). by rewrite bool_decide_eq_true_2, (proj2 (Z.leb_le _ _) Hse') in Hn.
Qed.

(** ** Properties *)

(** [C6] An iterator of the database at a snapshot implements the iterator interface, in both
    directions and across changes of direction: over any sorted internal iterator it ranges
    over exactly the user keys for which a read at the snapshot finds a value, in order, with
    those values; hidden versions, deletions and newer writes are skipped.  Every operation
    returns: the scans end, and so does the loop that draws the next sampling distance. *)
Theorem db_iterator_correct {S : Type} `{!Iterator S} (valid : bytes → Prop) (user : Comparator) (E : list Entry) (s seed : Z) (it : S)
    (q : option nat) (fuel : nat) :
  ComparatorOk valid user → 0 <= s <= kMaxSequenceNumber → Forall (entry_ok valid) E →
  sorted_kvs (internal_valid valid) (InternalKeyComparator user) (entry_kv <$> E) →
  positioned (internal_valid valid) (InternalKeyComparator user) (entry_kv <$> E) it q → (length E < fuel)%nat →
  ∃ view, sorted_kvs valid user view ∧ (∀ u v, (u, v) ∈ view ↔ value_of (visible u s E) = Some v) ∧
    positioned (Iterator0 := DBIter_Iterator user) valid user view (NewDBIterator fuel it s seed) None.
Proof.
  intros HU Hs HE Hsorted (R & HO & HR) Hf. exists (db_view E s). split_and!; [by apply db_view_sorted|apply db_view_visible|].
  exists (DBIterR E s R). split; [refine (DBIter_ok (valid := valid) E s R Hs HE Hsorted (λ t Ht, Ht) _); intros t Ht; by apply (ikey_valid (valid := valid) (user := user))|]. by apply (NewDBIterator_ok E s R fuel it q).
Qed.

(** Two keys; the first was overwritten, the second deleted and written again. *)
Definition sample_entries : list Entry :=
  [entry_of [97] 5 kTypeValue [1]; entry_of [97] 2 kTypeValue [2]; entry_of [98] 6 kTypeValue [3]; entry_of [98] 4 kTypeDeletion []; entry_of [98] 1 kTypeValue [4];
   entry_of [99] 3 kTypeValue [5]].

Definition sample_internal : ListIterator :=
  {| list_cmp := InternalKeyComparator BytewiseComparator; list_kvs := entry_kv <$> sample_entries; list_pos := None |}.

#[local] Instance internal_valid_dec k : Decision (internal_valid bytes_ok k).
Proof. unfold internal_valid. apply _. Defined.

#[local] Instance key_lt_dec c a b : Decision (key_lt c a b).
Proof. unfold key_lt. apply _. Defined.

Lemma db_iterator_correct_witness : ∃ view,
  sorted_kvs bytes_ok BytewiseComparator view ∧ (∀ u v, (u, v) ∈ view ↔ value_of (visible u 5 sample_entries) = Some v) ∧
  positioned (Iterator0 := DBIter_Iterator BytewiseComparator) bytes_ok BytewiseComparator view (NewDBIterator 10 sample_internal 5 1) None ∧
  (d ← DBIter_SeekToLast BytewiseComparator (NewDBIterator 10 sample_internal 5 1); d ← DBIter_Prev BytewiseComparator d; DBIter_value d) = Some [1].
Proof.
  destruct (db_iterator_correct bytes_ok BytewiseComparator sample_entries 5 1 sample_internal None 10) as (view & H1 & H2 & H3).
  - apply _.
  - by_compute.
  - by_compute.
  - split; [by_compute|]. repeat (constructor; [|by_compute]). constructor.
  - apply ListIterator_positioned; done.
  - by_compute.
  - exists view. refine (conj H1 (conj H2 (conj H3 _))). vm_compute. reflexivity.
Defined.
