(* ===== verification/VersionBuilder.v ===== *)
(** * Building versions

    Model of [VersionSet::Builder] ([App/integration/version_set.cpp]), which applies edits
    to a base version and saves the result.  As in [Version], a vector of files is the
    list of what its pointers lead to, and reference counts are not followed.  The
    [std::set] of added files is a list sorted by [BySmallestKey].  [None] is a failed
    assertion, the [abort] of the overlap check, or a level outside the arrays. *)
From S2P Require Import Prelude Coding Comparator DbFormat Status VersionEdit Version.
From stdpp Require Import sorting list gmap.

#[local] Open Scope Z_scope.

(** [int] from an unsigned number. *)
Definition s32 (x : Z) : Z := let y := u32 x in if y <? 2 ^ 31 then y else y - 2 ^ 32.

Record LevelState := { deleted_files : gset Z; added_files : list FileMetaData }.
Definition LevelState_init : LevelState := {| deleted_files := ∅; added_files := [] |}.

Record Builder := { base_ : Version; levels_ : list LevelState }.

Definition Builder_make (base : Version) : Builder := {| base_ := base; levels_ := replicate (Z.to_nat kNumLevels) LevelState_init |}.

Section Builder.
Context (user : Comparator).
Abbreviation icmp := (InternalKeyComparator user).

Definition BySmallestKey (f1 f2 : FileMetaData) : bool :=
  let r := Compare icmp (smallest f1) (smallest f2) in
  if negb (r =? 0) then r <? 0 else number f1 <? number f2.

(** [std::set::insert]: an element equivalent to one of the set is not inserted. *)
Fixpoint FileSet_insert (f : FileMetaData) (s : list FileMetaData) : list FileMetaData :=
  match s with
  | [] => [f]
  | g :: s' => if BySmallestKey f g then f :: s else if BySmallestKey g f then g :: FileSet_insert f s' else s
  end.

(** ** Applying an edit *)

(** The copy [Apply] makes of the metadata of a new file. *)
Definition new_meta (f : FileMetaData) : FileMetaData :=
  let allowed := s32 (file_size f / 16384) in
  {| refs := 1; allowed_seeks := if allowed <? 100 then 100 else allowed; number := number f; file_size := file_size f;
     smallest := smallest f; largest := largest f |}.

(** [array[level] = f(array[level])]. *)
Definition update_at {A} (level : Z) (f : A → A) (l : list A) : option (list A) :=
  if (0 <=? level) && (level <? zlen l) then Some (alter f (Z.to_nat level) l) else None.

Definition delete_number (n : Z) (s : LevelState) : LevelState :=
  {| deleted_files := {[n]} ∪ deleted_files s; added_files := added_files s |}.
Definition add_file (f : FileMetaData) (s : LevelState) : LevelState :=
  let f := new_meta f in
  {| deleted_files := deleted_files s ∖ {[number f]}; added_files := FileSet_insert f (added_files s) |}.

(** A loop over pairs of a level and what to do at it. *)
Fixpoint update_all {A B} (f : B → A → A) (ops : list (Z * B)) (l : list A) : option (list A) :=
  match ops with
  | [] => Some l
  | (level, x) :: ops => l ← update_at level (f x) l; update_all f ops l
  end.

(** [Apply] also sets the compaction pointers of the version set. *)
Definition Apply (edit : VersionEdit) (compact_pointer : list bytes) (b : Builder) : option (list bytes * Builder) :=
  compact_pointer ← update_all (λ k _, k) (compact_pointers_ edit) compact_pointer;
  levels ← update_all delete_number (deleted_files_ edit) (levels_ b);
  levels ← update_all add_file (new_files_ edit) levels;
  Some (compact_pointer, {| base_ := base_ b; levels_ := levels |}).

(** ** Saving *)

Definition MaybeAddFile (level : Z) (deleted : gset Z) (f : FileMetaData) (files : list FileMetaData) : option (list FileMetaData) :=
  if bool_decide (number f ∈ deleted) then Some files
  else
    match last files with
    | Some l => if (0 <? level) && negb (Compare icmp (largest l) (smallest f) <? 0) then None else Some (files ++ [f])
    | None => Some (files ++ [f])
    end.

Fixpoint MaybeAddFiles (level : Z) (deleted : gset Z) (fs files : list FileMetaData) : option (list FileMetaData) :=
  match fs with
  | [] => Some files
  | f :: fs => files ← MaybeAddFile level deleted f files; MaybeAddFiles level deleted fs files
  end.

(** [std::upper_bound] on a sorted range: the elements not after [x], and the others. *)
Fixpoint upper_bound (x : FileMetaData) (l : list FileMetaData) : list FileMetaData * list FileMetaData :=
  match l with
  | [] => ([], [])
  | y :: l' => if BySmallestKey x y then ([], l) else let '(a, b) := upper_bound x l' in (y :: a, b)
  end.

Fixpoint merge_added (level : Z) (deleted : gset Z) (added base files : list FileMetaData) : option (list FileMetaData) :=
  match added with
  | [] => MaybeAddFiles level deleted base files
  | a :: added =>
      let '(smaller, base) := upper_bound a base in
      files ← MaybeAddFiles level deleted smaller files;
      files ← MaybeAddFile level deleted a files;
      merge_added level deleted added base files
  end.

(** The check that is compiled in unless [NDEBUG] is defined. *)
Fixpoint no_overlap (files : list FileMetaData) : bool :=
  match files with
  | f :: ((g :: _) as files') => (Compare icmp (largest f) (smallest g) <? 0) && no_overlap files'
  | _ => true
  end.

Definition save_level (level : Z) (base : list FileMetaData) (s : LevelState) : option (list FileMetaData) :=
  files ← merge_added level (deleted_files s) (added_files s) base [];
  if (0 <? level) && negb (no_overlap files) then None else Some files.

Fixpoint save_levels (level : Z) (v : Version) (levels : list LevelState) : option (list (list FileMetaData)) :=
  match levels with
  | [] => Some []
  | s :: levels =>
      files ← save_level level (level_files v level) s;
      rest ← save_levels (level + 1) v levels;
      Some (files :: rest)
  end.

Definition SaveTo (b : Builder) : option Version := files ← save_levels 0 (base_ b) (levels_ b); Some {| files_ := files |}.

(** A sequence of edits applied to one builder. *)
Fixpoint ApplyAll (edits : list VersionEdit) (compact_pointer : list bytes) (b : Builder) : option (list bytes * Builder) :=
  match edits with
  | [] => Some (compact_pointer, b)
  | e :: edits => '(compact_pointer, b) ← Apply e compact_pointer b; ApplyAll edits compact_pointer b
  end.
End Builder.

(** ** What a sequence of edits means *)

(** The files an edit adds to a level, and the numbers it deletes there. *)
Definition added_at (l : Z) (e : VersionEdit) : list FileMetaData :=
  new_meta ∘ snd <$> List.filter (λ p, p.1 =? l) (new_files_ e).
Definition deleted_at (l : Z) (e : VersionEdit) (n : Z) : bool := bool_decide ((l, n) ∈ deleted_files_ e).

(** A level after an edit: without the deleted files, with the new ones. *)
Definition edit_level (l : Z) (files : list FileMetaData) (e : VersionEdit) : list FileMetaData :=
  List.filter (λ f, negb (deleted_at l e (number f))) files ++ added_at l e.
Definition edit_levels (l : Z) (files : list FileMetaData) (es : list VersionEdit) : list FileMetaData := foldl (edit_level l) files es.

Definition pointer_at (es : list VersionEdit) (l : Z) (k : bytes) : bytes :=
  foldl (λ k e, foldl (λ k p, if p.1 =? l then p.2 else k) k (compact_pointers_ e)) k es.

(** ** Correctness *)

Section BuilderOk.
Context {valid : bytes → Prop} {user : Comparator} `{HU : !ComparatorOk valid user}.
Abbreviation icmp := (InternalKeyComparator user).
Abbreviation ivalid := (internal_valid valid).
Abbreviation before := (λ f g, BySmallestKey user f g = true).
Abbreviation key_valid := (λ f : FileMetaData, ivalid (smallest f)).

(** Two files that are neither before the other have the same number. *)
Lemma before_total f g : key_valid f → key_valid g → number f ≠ number g → ¬ before f g → before g f.
Proof using HU.
  intros Vf Vg Hn. unfold BySmallestKey. destruct (Z.eqb_spec (Compare icmp (smallest f) (smallest g)) 0) as [E|E]; cbn [negb].
  - apply (Compare_eq (valid := ivalid)) in E; [|done..]. rewrite E, Compare_refl by done. cbn. rewrite !Z.ltb_lt. lia.
  - pose proof (Compare_swap (valid := ivalid) (c := icmp) (smallest g) (smallest f) Vg Vf) as Hsw.
    intros Hlt. rewrite Z.ltb_lt in Hlt. destruct (Z.eqb_spec (Compare icmp (smallest g) (smallest f)) 0) as [E'|E']; cbn [negb]; [|apply Z.ltb_lt; lia].
    apply (Compare_eq (valid := ivalid)) in E'; [|done..]. rewrite E', Compare_refl in E by done. lia.
Qed.

Lemma before_le f g : key_valid f → key_valid g → before f g → Compare icmp (smallest f) (smallest g) <= 0.
Proof. unfold BySmallestKey. destruct (Z.eqb_spec (Compare icmp (smallest f) (smallest g)) 0) as [E|E]; cbn [negb]; rewrite ?Z.ltb_lt; lia. Qed.

Lemma before_trans f g h : key_valid f → key_valid g → key_valid h → before f g → before g h → before f h.
Proof using HU.
  intros Vf Vg Vh. unfold BySmallestKey. pose proof (Compare_trans (valid := ivalid) (c := icmp) (smallest f) (smallest g) (smallest h) Vf Vg Vh) as Ht.
  destruct (Z.eqb_spec (Compare icmp (smallest f) (smallest g)) 0) as [E|E]; cbn [negb].
  - apply (Compare_eq (valid := ivalid)) in E; [|done..]. rewrite E. destruct (_ =? 0); cbn [negb]; rewrite ?Z.ltb_lt; lia.
  - destruct (Z.eqb_spec (Compare icmp (smallest g) (smallest h)) 0) as [E'|E']; cbn [negb].
    + apply (Compare_eq (valid := ivalid)) in E'; [|done..]. rewrite <- E'. intros H1 _. destruct (Z.eqb_spec (Compare icmp (smallest f) (smallest g)) 0); [lia|done].
    + rewrite !Z.ltb_lt. intros H1 H2. specialize (Ht H1 H2). destruct (Z.eqb_spec (Compare icmp (smallest f) (smallest h)) 0); cbn [negb]; lia.
Qed.

Lemma before_asym f g : key_valid f → key_valid g → before f g → before g f → False.
Proof using HU.
  intros Vf Vg H1 H2. pose proof (before_trans f g f Vf Vg Vf H1 H2) as H. unfold BySmallestKey in H. rewrite Compare_refl in H by done. cbn in H. lia.
Qed.

(** Lists of files with well-formed keys, sorted as a set is. *)
Definition FilesSorted (l : list FileMetaData) : Prop := Forall key_valid l ∧ StronglySorted before l.

Lemma FilesSorted_unique l k : FilesSorted l → FilesSorted k → l ≡ₚ k → l = k.
Proof using HU.
  intros [Vl Sl] [Vk Sk] Hp. apply (StronglySorted_unique_strong before); [|done..]. intros x y Hx Hy H1 H2. exfalso.
  rewrite Forall_forall in Vl, Vk. by apply (before_asym x y); [apply Vl|apply Vk|..].
Qed.

Lemma FilesSorted_filter P l : FilesSorted l → FilesSorted (List.filter P l).
Proof.
  intros [V S]. split.
  - apply Forall_forall. intros x Hx%list_elem_of_In. apply filter_In in Hx as [Hx _]. rewrite Forall_forall in V. by apply V, list_elem_of_In.
  - induction S as [|x l S IH Hx]; simpl; [constructor|]. apply Forall_cons in V as [_ V]. destruct (P x); [|by apply IH]. constructor; [by apply IH|].
    apply Forall_forall. intros y Hy%list_elem_of_In. apply filter_In in Hy as [Hy _]. rewrite Forall_forall in Hx. by apply Hx, list_elem_of_In.
Qed.

Lemma FileSet_insert_ok f l : FilesSorted l → key_valid f → number f ∉ number <$> l →
  FilesSorted (FileSet_insert user f l) ∧ FileSet_insert user f l ≡ₚ f :: l.
Proof using HU.
  intros [V S] Vf Hn. induction S as [|g l S IH Hg]; simpl.
  { split; [|done]. split; [by apply Forall_singleton|repeat constructor]. }
  apply Forall_cons in V as [Vg V]. rewrite fmap_cons, not_elem_of_cons in Hn. destruct Hn as [Hne Hn]. specialize (IH V Hn) as [[V' S'] Hp].
  destruct (BySmallestKey user f g) eqn:E1.
  - split; [|done]. split; [by rewrite !Forall_cons|]. constructor; [by constructor|]. constructor; [done|].
    apply Forall_forall. intros h Hh. rewrite Forall_forall in Hg, V. apply (before_trans f g h); auto.
  - rewrite (before_total f g) by (done || by rewrite E1). split; [|by rewrite Hp; constructor]. split; [by constructor|]. constructor; [done|].
    rewrite Hp. constructor; [|done]. apply before_total; [done..|by rewrite E1].
Qed.

(** Merging the added files into the base. *)
Fixpoint merged (added base : list FileMetaData) : list FileMetaData :=
  match added with
  | [] => base
  | a :: added => let '(smaller, rest) := upper_bound user a base in smaller ++ a :: merged added rest
  end.

Lemma upper_bound_app x l : l = (upper_bound user x l).1 ++ (upper_bound user x l).2.
Proof. induction l as [|y l IH]; [done|]. simpl. destruct (BySmallestKey user x y); [done|]. destruct (upper_bound user x l). simpl in *. by rewrite IH. Qed.

Lemma upper_bound_smaller x l : Forall (λ y, ¬ before x y) (upper_bound user x l).1.
Proof.
  induction l as [|y l IH]; [constructor|]. simpl. destruct (BySmallestKey user x y) eqn:E; [constructor|]. destruct (upper_bound user x l).
  constructor; [by rewrite E|done].
Qed.

Lemma upper_bound_larger x l : FilesSorted l → key_valid x → Forall (before x) (upper_bound user x l).2.
Proof using HU.
  intros [V S] Vx. induction S as [|y l S IH Hy]; [constructor|]. apply Forall_cons in V as [Vy V]. simpl.
  destruct (BySmallestKey user x y) eqn:E; [|specialize (IH V); by destruct (upper_bound user x l)]. constructor; [done|].
  apply Forall_forall. intros z Hz. rewrite Forall_forall in Hy, V. apply (before_trans x y z); auto.
Qed.

Lemma merged_perm added : ∀ base, merged added base ≡ₚ base ++ added.
Proof.
  induction added as [|a added IH]; intros base; simpl; [by rewrite app_nil_r|].
  pose proof (upper_bound_app a base) as Hb. destruct (upper_bound user a base) as [smaller rest]. simpl in Hb. rewrite Hb at 1.
  rewrite IH, <- app_assoc. f_equiv. by rewrite Permutation_middle.
Qed.

Lemma StronglySorted_app_2 {A} (R : A → A → Prop) l k :
  StronglySorted R l → StronglySorted R k → (∀ x y, x ∈ l → y ∈ k → R x y) → StronglySorted R (l ++ k).
Proof.
  intros Hl Hk Hr. induction Hl as [|x l Hl IH Hx]; [done|]. simpl. constructor.
  - apply IH. intros y z Hy. apply Hr. by right.
  - apply Forall_app. split; [done|]. apply Forall_forall. intros y Hy. apply Hr; [left|done].
Qed.

Lemma merged_sorted added : ∀ base, FilesSorted added → FilesSorted base → NoDup (number <$> base ++ added) → FilesSorted (merged added base).
Proof using HU.
  induction added as [|a added IH]; intros base [Va Sa] Hb Hnd; [done|]. simpl. apply Forall_cons in Va as [Vx Va]. apply StronglySorted_inv in Sa as [Sa Hx].
  pose proof (upper_bound_app a base) as E. pose proof (upper_bound_smaller a base) as Hsm. pose proof (upper_bound_larger a base Hb Vx) as Hlg.
  destruct (upper_bound user a base) as [smaller rest]. simpl in E, Hsm, Hlg. subst base. destruct Hb as [Vb Sb].
  apply Forall_app in Vb as [Vs Vr]. rewrite <- app_assoc, !fmap_app in Hnd. simpl in Hnd.
  rewrite Forall_forall in Vs, Vr, Va, Hx, Hsm, Hlg.
  apply NoDup_app in Hnd as (_ & Hns & Hnd'). assert (Hrest : FilesSorted (merged added rest)).
  { apply IH; [by split; [apply Forall_forall|]|split; [by apply Forall_forall|by apply StronglySorted_app_1_r in Sb]|].
    rewrite fmap_app. apply NoDup_app in Hnd' as (? & Hn1 & [? ?]%NoDup_cons). apply NoDup_app. split_and!; [done| |done].
    intros n Hn Hn'. apply (Hn1 n Hn). by right. }
  assert (Hmem : ∀ y, y ∈ merged added rest → y ∈ rest ∨ y ∈ added) by (intros y; rewrite merged_perm; apply elem_of_app).
  assert (Hafter : ∀ y, y ∈ merged added rest → before a y) by (intros y [Hy|Hy]%Hmem; auto).
  assert (Hsmall : ∀ x, x ∈ smaller → before x a).
  { intros x Hxs. apply before_total; [done|by apply Vs| |by apply Hsm]. intros En. apply (Hns (number x)); [by apply list_elem_of_fmap_2|].
    rewrite <- En. apply elem_of_app. right. left. }
  destruct Hrest as [Vm Sm]. split.
  - apply Forall_app. split; [by apply Forall_forall|]. by apply Forall_cons.
  - apply StronglySorted_app_2; [by apply StronglySorted_app_1_l in Sb| |].
    + constructor; [done|]. by apply Forall_forall.
    + intros x y Hxs [->|Hy]%elem_of_cons; [by apply Hsmall|]. apply (before_trans x a y); [by apply Vs|done| |by apply Hsmall|by apply Hafter].
      rewrite Forall_forall in Vm. by apply Vm.
Qed.

(** ** Saving a level *)

Abbreviation disjoint_files := (StronglySorted (λ f g : FileMetaData, Compare icmp (largest f) (smallest g) < 0)).
Definition ChainOk (level : Z) (l : list FileMetaData) : Prop := 0 < level → disjoint_files l.
Definition kept (D : gset Z) (l : list FileMetaData) : list FileMetaData := List.filter (λ f, negb (bool_decide (number f ∈ D))) l.
#[local] Arguments kept : simpl never.

Lemma MaybeAddFile_ok level D f files rest : ChainOk level (files ++ kept D (f :: rest)) →
  ∃ files', MaybeAddFile user level D f files = Some files' ∧ files ++ kept D (f :: rest) = files' ++ kept D rest.
Proof.
  intros Hc. unfold MaybeAddFile, kept in *. simpl in *. destruct (bool_decide (number f ∈ D)); simpl in *; [by exists files|].
  exists (files ++ [f]). rewrite <- app_assoc. split; [|done]. destruct (last files) as [g|] eqn:Hl; [|done].
  destruct (Z.ltb_spec 0 level) as [Hlev|]; [|done]. specialize (Hc Hlev). apply last_Some in Hl as [fs ->]. rewrite <- app_assoc in Hc.
  apply StronglySorted_app_1_r in Hc. simpl in Hc. apply StronglySorted_inv in Hc as [_ [Hc _]%Forall_cons]. cbn [andb].
  by rewrite (proj2 (Z.ltb_lt _ _) Hc).
Qed.

Lemma MaybeAddFiles_ok level D fs : ∀ files rest, ChainOk level (files ++ kept D (fs ++ rest)) →
  ∃ files', MaybeAddFiles user level D fs files = Some files' ∧ files ++ kept D (fs ++ rest) = files' ++ kept D rest.
Proof.
  induction fs as [|f fs IH]; intros files rest Hc; simpl; [by exists files|].
  destruct (MaybeAddFile_ok level D f files (fs ++ rest) Hc) as (files1 & -> & E). cbn [mbind option_bind].
  rewrite E. apply IH. by rewrite <- E.
Qed.

Lemma merge_added_ok level D added : ∀ base files, ChainOk level (files ++ kept D (merged added base)) →
  merge_added user level D added base files = Some (files ++ kept D (merged added base)).
Proof.
  induction added as [|a added IH]; intros base files Hc; simpl in *.
  - rewrite <- (app_nil_r base) in Hc. destruct (MaybeAddFiles_ok level D base files [] Hc) as (files' & -> & E). by rewrite app_nil_r in E; rewrite E; simpl; rewrite app_nil_r.
  - destruct (upper_bound user a base) as [smaller rest]. destruct (MaybeAddFiles_ok level D smaller files _ Hc) as (files1 & -> & E1).
    cbn [mbind option_bind]. rewrite E1 in Hc |- *. destruct (MaybeAddFile_ok level D a files1 _ Hc) as (files2 & -> & E2). cbn [mbind option_bind].
    rewrite E2 in Hc |- *. by apply IH.
Qed.

Lemma no_overlap_ok l : disjoint_files l → no_overlap user l = true.
Proof.
  induction 1 as [|f l Hl IH Hf]; [done|]. destruct l as [|g l]; [done|]. apply Forall_cons in Hf as [Hf _].
  change (no_overlap user (f :: g :: l)) with ((Compare icmp (largest f) (smallest g) <? 0) && no_overlap user (g :: l)).
  by rewrite IH, (proj2 (Z.ltb_lt _ _) Hf).
Qed.

(** Files that do not overlap, in the order of their smallest keys. *)
Definition Apart (l : list FileMetaData) : Prop :=
  Forall (FileOk (valid := valid) (user := user)) l ∧
  ∀ f g, f ∈ l → g ∈ l → number f ≠ number g → Compare icmp (largest f) (smallest g) < 0 ∨ Compare icmp (largest g) (smallest f) < 0.

Lemma sorted_apart l : FilesSorted l → NoDup (number <$> l) → Apart l → disjoint_files l.
Proof using HU.
  intros [V S] Hnd [Hok Hap]. induction S as [|f l S IH Hf]; [constructor|]. apply Forall_cons in V as [Vf V]. apply Forall_cons in Hok as [Hof Hok].
  rewrite fmap_cons in Hnd. apply NoDup_cons in Hnd as [Hn Hnd]. constructor.
  - apply IH; [done..|]. intros g h Hg Hh. apply Hap; by right.
  - apply Forall_forall. intros g Hg. rewrite Forall_forall in Hf, V, Hok. destruct (Hap f g) as [|Hlt]; [left|by right| |done|].
    { intros En. apply Hn. rewrite En. by apply list_elem_of_fmap_2. }
    exfalso. pose proof (before_le f g Vf (V g Hg) (Hf g Hg)) as Hle. destruct (Hok g Hg) as [Vs Vl _ _ He].
    pose proof (Compare_le_lt (valid := ivalid) (c := icmp) (smallest g) (largest g) (smallest f) Vs Vl Vf He Hlt) as Hlt'.
    apply (Compare_swap (valid := ivalid)) in Hlt'; [lia|done..].
Qed.

(** What one level saves. *)
Lemma save_level_ok level base st :
  FilesSorted base → FilesSorted (added_files st) → NoDup (number <$> base ++ added_files st) →
  (0 < level → Apart (kept (deleted_files st) (base ++ added_files st))) →
  ∃ files, save_level user level base st = Some files ∧ FilesSorted files ∧ files ≡ₚ kept (deleted_files st) (base ++ added_files st) ∧ ChainOk level files.
Proof using HU.
  intros Hb Ha Hnd Hap. set (D := deleted_files st) in *. pose proof (merged_sorted _ _ Ha Hb Hnd) as Hm. pose proof (merged_perm (added_files st) base) as Hp.
  assert (Hk : kept D (merged (added_files st) base) ≡ₚ kept D (base ++ added_files st)).
  { unfold kept. clear - Hp. induction Hp; simpl; repeat case_match; by econstructor. }
  assert (Hs : FilesSorted (kept D (merged (added_files st) base))) by (by apply FilesSorted_filter).
  assert (Hc : ChainOk level (kept D (merged (added_files st) base))).
  { intros Hl. apply sorted_apart; [done| |].
    - rewrite Hk. clear - Hnd. unfold kept. induction (base ++ added_files st) as [|f l IH]; simpl in *; [constructor|]. apply NoDup_cons in Hnd as [Hn Hnd].
      destruct (negb _); [|by apply IH]. simpl. apply NoDup_cons. split; [|by apply IH]. intros (g & Eg & Hg%list_elem_of_In)%list_elem_of_fmap.
      apply filter_In in Hg as [Hg _]. apply Hn. rewrite Eg. by apply list_elem_of_fmap_2, list_elem_of_In.
    - destruct (Hap Hl) as [H1 H2]. split; [by rewrite Hk|]. intros f g Hf Hg. apply H2; by rewrite <- Hk. }
  exists (kept D (merged (added_files st) base)). split_and!; [|done..]. unfold save_level. fold D.
  rewrite merge_added_ok by done. cbn [mbind option_bind app]. destruct (Z.ltb_spec 0 level) as [Hl|]; [|done]. by rewrite no_overlap_ok by (by apply Hc).
Qed.

(** ** Applying edits *)

(** The operations of a loop that concern level [l]. *)
Definition ops_at {A B} (f : B → A → A) (l : Z) (ops : list (Z * B)) (x : A) : A := foldl (λ x p, if p.1 =? l then f p.2 x else x) x ops.

Lemma update_all_ok {A B} (f : B → A → A) ops : ∀ xs, zlen xs = kNumLevels → Forall (λ p, level_ok p.1) ops →
  ∃ xs', update_all f ops xs = Some xs' ∧ zlen xs' = kNumLevels ∧ ∀ l, level_ok l → xs' !! Z.to_nat l = ops_at f l ops <$> xs !! Z.to_nat l.
Proof.
  unfold level_ok. induction ops as [|[level b] ops IH]; intros xs Hlen Hops.
  - exists xs. split_and!; [done..|]. intros l _. by rewrite option_fmap_id.
  - apply Forall_cons in Hops as [Hlev Hops]. simpl in Hlev. cbn [update_all]. unfold update_at.
    replace ((0 <=? level) && (level <? zlen xs)) with true by lia. cbn [mbind option_bind].
    destruct (IH (alter (f b) (Z.to_nat level) xs)) as (xs' & E & Hlen' & Hat); [unfold zlen in *; by rewrite length_alter|done|].
    exists xs'. split_and!; [done..|]. intros l Hl. rewrite Hat by done. unfold ops_at at 2. cbn [foldl fst snd].
    destruct (Z.eqb_spec level l) as [->|Hne].
    + rewrite list_lookup_alter_eq. by destruct (xs !! Z.to_nat l).
    + rewrite list_lookup_alter_ne by lia. by destruct (xs !! Z.to_nat l).
Qed.

(** What a level state stands for: the files the base and the edits leave. *)
Record Stands (base : list FileMetaData) (st : LevelState) (added now : list FileMetaData) : Prop := {
  st_sorted : FilesSorted (added_files st);
  st_added : added_files st ≡ₚ added;
  st_now : now ≡ₚ kept (deleted_files st) (base ++ added_files st);
}.

Lemma kept_union n D l : kept ({[n]} ∪ D) l = List.filter (λ f, negb (number f =? n)) (kept D l).
Proof.
  unfold kept. induction l as [|f l IH]; [done|]. simpl. destruct (Z.eqb_spec (number f) n) as [E|E].
  - rewrite bool_decide_eq_true_2 by set_solver. cbn [negb]. rewrite IH. destruct (bool_decide (number f ∈ D)); cbn [negb]; [done|].
    simpl. by rewrite (proj2 (Z.eqb_eq _ _) E).
  - rewrite (bool_decide_ext (number f ∈ {[n]} ∪ D) (number f ∈ D)) by set_solver. destruct (bool_decide (number f ∈ D)); cbn [negb]; [done|].
    simpl. rewrite (proj2 (Z.eqb_neq _ _) E). cbn [negb]. by rewrite IH.
Qed.

Lemma filter_perm {A} (P : A → bool) l k : l ≡ₚ k → List.filter P l ≡ₚ List.filter P k.
Proof. induction 1; simpl; repeat case_match; by econstructor. Qed.

Lemma delete_Stands base st added now n : Stands base st added now →
  Stands base (delete_number n st) added (List.filter (λ f, negb (number f =? n)) now).
Proof. intros [H1 H2 H3]. split; [done..|]. cbn [delete_number deleted_files added_files]. rewrite kept_union. by apply filter_perm. Qed.

Lemma kept_minus D n l : (n ∉ number <$> l) → kept (D ∖ {[n]}) l = kept D l.
Proof.
  intros Hn. unfold kept. induction l as [|f l IH]; [done|]. rewrite fmap_cons, not_elem_of_cons in Hn. destruct Hn as [Hne Hn]. simpl.
  rewrite IH by done. by rewrite (bool_decide_ext (number f ∈ D ∖ {[n]}) (number f ∈ D)) by set_solver.
Qed.

Lemma kept_app D l k : kept D (l ++ k) = kept D l ++ kept D k.
Proof. apply List.filter_app. Qed.

Lemma kept_cons D f l : kept D (f :: l) = if bool_decide (number f ∈ D) then kept D l else f :: kept D l.
Proof. unfold kept. simpl. by destruct (bool_decide _). Qed.

Lemma add_Stands base st added now f : Stands base st added now → key_valid f → number f ∉ number <$> base ++ added →
  Stands base (add_file user f st) (added ++ [new_meta f]) (now ++ [new_meta f]).
Proof using HU.
  intros [H1 H2 H3] Vf Hn. rewrite <- H2, fmap_app, not_elem_of_app in Hn. destruct Hn as [Hnb Hna].
  destruct (FileSet_insert_ok (new_meta f) (added_files st) H1 Vf Hna) as [Hs Hp].
  split; cbn [add_file added_files deleted_files]; [done|by rewrite Hp, H2, Permutation_app_comm|].
  assert (Hk : kept (deleted_files st ∖ {[number (new_meta f)]}) (FileSet_insert user (new_meta f) (added_files st)) ≡ₚ
    new_meta f :: kept (deleted_files st) (added_files st)).
  { transitivity (kept (deleted_files st ∖ {[number f]}) (new_meta f :: added_files st)); [by apply filter_perm|].
    rewrite kept_cons, bool_decide_eq_false_2 by set_solver. by rewrite kept_minus. }
  rewrite kept_app, Hk, kept_minus by done. rewrite H3, kept_app, <- app_assoc. f_equiv.
  by rewrite Permutation_app_comm.
Qed.

Lemma filter_all {A} (P : A → bool) l : (∀ x, P x = true) → List.filter P l = l.
Proof. intros HP. induction l as [|x l IH]; [done|]. simpl. by rewrite HP, IH. Qed.

Lemma deletions_Stands base l ds : ∀ st added now, Stands base st added now →
  Stands base (ops_at delete_number l ds st) added (List.filter (λ f, negb (bool_decide ((l, number f) ∈ ds))) now).
Proof.
  induction ds as [|[level n] ds IH]; intros st added now Hst.
  - cbn [ops_at foldl]. rewrite filter_all; [done|]. intros f. by rewrite bool_decide_eq_false_2 by (by apply not_elem_of_nil).
  - unfold ops_at. cbn [foldl fst snd]. destruct (Z.eqb_spec level l) as [->|Hne].
    + specialize (IH _ _ _ (delete_Stands _ _ _ _ n Hst)). replace (List.filter _ now) with
        (List.filter (λ f, negb (bool_decide ((l, number f) ∈ ds))) (List.filter (λ f, negb (number f =? n)) now)); [done|].
      clear. induction now as [|f now IH]; [done|]. simpl. destruct (Z.eqb_spec (number f) n) as [->|Hn]; cbn [negb].
      * rewrite (bool_decide_eq_true_2 ((l, n) ∈ (l, n) :: ds)) by left. cbn [negb]. done.
      * simpl. rewrite IH. rewrite (bool_decide_ext ((l, number f) ∈ (l, n) :: ds) ((l, number f) ∈ ds)); [done|].
        rewrite elem_of_cons. split; [intros [[=]|]; [done|done]|by right].
    + specialize (IH _ _ _ Hst). replace (List.filter _ now) with (List.filter (λ f, negb (bool_decide ((l, number f) ∈ ds))) now); [done|].
      apply List.filter_ext. intros f. f_equal. apply bool_decide_ext. rewrite elem_of_cons. split; [by right|intros [[=]|]; [done|done]].
Qed.

Lemma additions_Stands base l fs : ∀ st added now, Stands base st added now → Forall (λ p : Z * FileMetaData, key_valid p.2) fs →
  NoDup (number <$> base ++ added ++ (new_meta ∘ snd <$> List.filter (λ p, p.1 =? l) fs)) →
  Stands base (ops_at (add_file user) l fs st) (added ++ (new_meta ∘ snd <$> List.filter (λ p, p.1 =? l) fs))
    (now ++ (new_meta ∘ snd <$> List.filter (λ p, p.1 =? l) fs)).
Proof using HU.
  induction fs as [|[level f] fs IH]; intros st added now Hst Hv Hnd; [by rewrite !app_nil_r|]. apply Forall_cons in Hv as [Vf Hv].
  unfold ops_at. cbn [foldl fst snd List.filter] in *. destruct (Z.eqb_spec level l) as [->|Hne]; [|by apply IH].
  rewrite fmap_cons in Hnd |- *. change ((new_meta ∘ snd) (l, f)) with (new_meta f) in *. set (ns := new_meta ∘ snd <$> _) in *.
  specialize (IH (add_file user f st) (added ++ [new_meta f]) (now ++ [new_meta f])). rewrite <- !app_assoc in IH. apply IH; [|done..].
  apply add_Stands; [done..|]. rewrite app_assoc, fmap_app in Hnd. apply NoDup_app in Hnd as (_ & Hnd & _). intros Hin. apply (Hnd _ Hin). left.
Qed.

(** All the files a sequence of edits adds to a level. *)
Definition all_added (l : Z) (es : list VersionEdit) : list FileMetaData := mjoin (added_at l <$> es).

Lemma all_added_app l es es' : all_added l (es ++ es') = all_added l es ++ all_added l es'.
Proof. unfold all_added. by rewrite fmap_app, join_app. Qed.

(** The builder after a sequence of edits. *)
Record BuilderInv (b : Builder) (base : Version) (es : list VersionEdit) : Prop := {
  bi_base : base_ b = base;
  bi_levels : zlen (levels_ b) = kNumLevels;
  bi_stands l : level_ok l → ∃ st, levels_ b !! Z.to_nat l = Some st ∧
    Stands (level_files base l) st (all_added l es) (edit_levels l (level_files base l) es);
}.

Definition NumbersFresh (base : Version) (es : list VersionEdit) : Prop :=
  ∀ l, level_ok l → NoDup (number <$> level_files base l ++ all_added l es).
Lemma NumbersFresh_prefix base es es' : NumbersFresh base (es ++ es') → NumbersFresh base es.
Proof.
  intros H l Hl. specialize (H l Hl). rewrite all_added_app, app_assoc, fmap_app in H. by apply NoDup_app in H as [? _].
Qed.

Definition KeysValid (es : list VersionEdit) : Prop := Forall (λ e, Forall (λ p : Z * FileMetaData, key_valid p.2) (new_files_ e)) es.

Lemma Builder_make_inv base : BuilderInv (Builder_make base) base [].
Proof.
  split; [done|done|]. intros l Hl. exists LevelState_init. split.
  - cbn [Builder_make levels_]. apply lookup_replicate_2. unfold level_ok, kNumLevels in *. lia.
  - split; [split; constructor|done|]. cbn [LevelState_init added_files deleted_files]. rewrite app_nil_r. unfold edit_levels. cbn [foldl].
    unfold kept. rewrite filter_all; [done|]. intros f. by rewrite bool_decide_eq_false_2 by set_solver.
Qed.

Lemma Apply_ok e cp b base es : BuilderInv b base es → EditOk e → zlen cp = kNumLevels →
  NumbersFresh base (es ++ [e]) → Forall (λ p : Z * FileMetaData, key_valid p.2) (new_files_ e) →
  ∃ cp' b', Apply user e cp b = Some (cp', b') ∧ BuilderInv b' base (es ++ [e]) ∧ zlen cp' = kNumLevels ∧
    ∀ l, level_ok l → cp' !! Z.to_nat l = pointer_at [e] l <$> cp !! Z.to_nat l.
Proof using HU.
  intros [Hb Hl Hst] He Hcp Hfresh Hv. unfold Apply.
  destruct (update_all_ok (λ k _ : bytes, k) (compact_pointers_ e) cp Hcp) as (cp' & -> & Hcp' & Hpt).
  { eapply Forall_impl; [apply (ok_pointers _ He)|]. by intros p [? _]. }
  destruct (update_all_ok delete_number (deleted_files_ e) (levels_ b) Hl) as (ls1 & Hls1 & Hlen1 & Hat1).
  { eapply Forall_impl; [apply (ok_deleted _ He)|]. by intros p [? _]. }
  destruct (update_all_ok (add_file user) (new_files_ e) ls1 Hlen1) as (ls2 & Hls2 & Hlen2 & Hat2).
  { eapply Forall_impl; [apply (ok_new _ He)|]. by intros p [? _]. }
  cbn [mbind option_bind]. rewrite Hls1. cbn [mbind option_bind]. rewrite Hls2. cbn [mbind option_bind].
  eexists _, _. split; [done|]. split_and!; [|done|intros l Hlev; by rewrite Hpt].
  split; cbn [base_ levels_]; [done|done|]. intros l Hlev. destruct (Hst l Hlev) as (st & Hlook & HS).
  eexists. split; [by rewrite Hat2, Hat1, Hlook by done|].
  unfold edit_levels. rewrite foldl_app. cbn [foldl]. specialize (Hfresh l Hlev). rewrite all_added_app in Hfresh |- *.
  change (all_added l [e]) with (added_at l e ++ []) in *. rewrite app_nil_r in Hfresh |- *. unfold edit_level.
  apply additions_Stands; [|done|done]. by apply deletions_Stands.
Qed.

Lemma ApplyAll_ok es : ∀ cp b base es0, BuilderInv b base es0 → Forall EditOk es → zlen cp = kNumLevels →
  NumbersFresh base (es0 ++ es) → KeysValid es →
  ∃ cp' b', ApplyAll user es cp b = Some (cp', b') ∧ BuilderInv b' base (es0 ++ es) ∧ zlen cp' = kNumLevels ∧
    ∀ l, level_ok l → cp' !! Z.to_nat l = pointer_at es l <$> cp !! Z.to_nat l.
Proof using HU.
  induction es as [|e es IH]; intros cp b base es0 Hb He Hcp Hfresh Hv; cbn [ApplyAll].
  - rewrite app_nil_r. exists cp, b. split_and!; [done..|]. intros l _. by destruct (cp !! Z.to_nat l).
  - apply Forall_cons in He as [He Hes]. apply Forall_cons in Hv as [Hve Hv]. destruct (Apply_ok e cp b base es0 Hb He Hcp) as (cp1 & b1 & -> & Hb1 & Hcp1 & Hp1).
    { apply (NumbersFresh_prefix base _ es). by rewrite <- app_assoc. }
    { done. }
    cbn [mbind option_bind]. destruct (IH cp1 b1 base (es0 ++ [e]) Hb1 Hes Hcp1) as (cp2 & b2 & E & Hb2 & Hcp2 & Hp2); [by rewrite <- app_assoc|done|].
    exists cp2, b2. rewrite <- app_assoc in Hb2. split_and!; [done..|]. intros l Hl. rewrite Hp2, Hp1 by done. by destruct (cp !! Z.to_nat l).
Qed.

(** ** The saved version *)

Lemma save_levels_ok v (P : Z → list FileMetaData → Prop) levels : ∀ start,
  (∀ i st, levels !! i = Some st → ∃ files, save_level user (start + Z.of_nat i) (level_files v (start + Z.of_nat i)) st = Some files ∧ P (start + Z.of_nat i) files) →
  ∃ fs, save_levels user start v levels = Some fs ∧ length fs = length levels ∧ ∀ i files, fs !! i = Some files → P (start + Z.of_nat i) files.
Proof.
  induction levels as [|st levels IH]; intros start H; simpl; [by exists []|].
  destruct (H 0%nat st eq_refl) as (files & E & HP). rewrite Z.add_0_r in E, HP. rewrite E. cbn [mbind option_bind].
  destruct (IH (start + 1)) as (fs & -> & Hlen & HPs).
  { intros i st' Hi. destruct (H (S i) st' Hi) as (files' & E' & HP'). replace (start + 1 + Z.of_nat i) with (start + Z.of_nat (S i)) by lia. eauto. }
  cbn [mbind option_bind]. exists (files :: fs). split_and!; [done|by simpl; rewrite Hlen|]. intros [|i] files' Hi; simpl in Hi.
  - injection Hi as <-. by rewrite Z.add_0_r.
  - replace (start + Z.of_nat (S i)) with (start + 1 + Z.of_nat i) by lia. by apply HPs.
Qed.

(** A version whose levels are sorted as [SaveTo] leaves them. *)
Record VersionSorted (v : Version) : Prop := {
  vs_levels : zlen (files_ v) = kNumLevels;
  vs_sorted l : level_ok l → FilesSorted (level_files v l);
}.

Lemma SaveTo_ok b base es : BuilderInv b base es → VersionSorted base → NumbersFresh base es →
  (∀ l, 0 < l < kNumLevels → Apart (edit_levels l (level_files base l) es)) →
  ∃ v, SaveTo user b = Some v ∧ VersionSorted v ∧
    ∀ l, level_ok l → level_files v l ≡ₚ edit_levels l (level_files base l) es ∧ ChainOk l (level_files v l).
Proof using HU.
  intros [<- Hlen Hst] [Hbl Hbs] Hfresh Hap. unfold SaveTo.
  set (P l files := FilesSorted files ∧ files ≡ₚ edit_levels l (level_files (base_ b) l) es ∧ ChainOk l files).
  destruct (save_levels_ok (base_ b) P (levels_ b) 0) as (fs & -> & Hlf & HP).
  { intros i st Hi. pose proof (lookup_lt_Some _ _ _ Hi) as Hlt. rewrite Z.add_0_l.
    assert (Hlev : level_ok (Z.of_nat i)) by (unfold level_ok, zlen in *; lia). destruct (Hst _ Hlev) as (st' & Hlook & [S1 S2 S3]).
    rewrite Nat2Z.id, Hi in Hlook. injection Hlook as <-. destruct (save_level_ok (Z.of_nat i) (level_files (base_ b) (Z.of_nat i)) st) as (files & E & H1 & H2 & H3).
    - by apply Hbs.
    - done.
    - rewrite S2. by apply Hfresh.
    - intros Hpos. destruct (Hap (Z.of_nat i)) as [A1 A2]; [unfold level_ok in Hlev; lia|]. split; [by rewrite <- S3|].
      intros f g Hf Hg. apply A2; by rewrite S3.
    - exists files. split; [done|]. split; [done|]. split; [by rewrite H2|done]. }
  cbn [mbind option_bind]. eexists. split; [done|].
  assert (Hat : ∀ l, level_ok l → P l (level_files {| files_ := fs |} l)).
  { intros l Hl. unfold level_files. cbn [files_]. destruct (lookup_lt_is_Some_2 fs (Z.to_nat l)) as [files Hf]; [unfold level_ok, zlen in *; lia|].
    rewrite Hf. cbn [default from_option]. specialize (HP _ _ Hf). rewrite Z.add_0_l, Z2Nat.id in HP by (unfold level_ok in Hl; lia). done. }
  split; [split|].
  - unfold zlen in *. cbn [files_]. by rewrite Hlf.
  - intros l Hl. by destruct (Hat l Hl).
  - intros l Hl. by destruct (Hat l Hl) as (_ & ? & ?).
Qed.
End BuilderOk.

(** ** Properties *)

(** [C17] The builder: for any sequence of well-formed edits whose files have fresh numbers and
    whose result does not overlap below level 0, applying the edits to one builder and saving
    never fails an assertion, and each level of the saved version holds exactly the files the
    edits leave one after the other (base files and added files not deleted later), in the
    order of their smallest keys, pairwise disjoint below level 0. *)
Theorem version_builder_correct (valid : bytes → Prop) (user : Comparator) (base : Version) (es : list VersionEdit) (cp : list bytes) :
  ComparatorOk valid user → VersionSorted (valid := valid) (user := user) base → Forall EditOk es → KeysValid (valid := valid) es →
  zlen cp = kNumLevels → NumbersFresh base es →
  (∀ l, 0 < l < kNumLevels → Apart (valid := valid) (user := user) (edit_levels l (level_files base l) es)) →
  ∃ cp' b v, ApplyAll user es cp (Builder_make base) = Some (cp', b) ∧ SaveTo user b = Some v ∧ VersionSorted (valid := valid) (user := user) v ∧
    (∀ l, level_ok l → level_files v l ≡ₚ edit_levels l (level_files base l) es ∧
       (0 < l → StronglySorted (λ f g, Compare (InternalKeyComparator user) (largest f) (smallest g) < 0) (level_files v l))) ∧
    (∀ l, level_ok l → cp' !! Z.to_nat l = pointer_at es l <$> cp !! Z.to_nat l).
Proof.
  intros HU Hb He Hk Hcp Hf Hap. destruct (ApplyAll_ok es cp (Builder_make base) base []) as (cp' & b & E & Hbi & _ & Hp); [apply Builder_make_inv|done..|].
  destruct (SaveTo_ok b base es Hbi Hb Hf Hap) as (v & Ev & Hv & Hlv). by exists cp', b, v.
Qed.

(** A base with two files in level 1; the first is replaced, then one is added to level 0. *)
Definition sample_base : Version := {| files_ := [[]; [sample_range 3 80 85; sample_range 4 90 95]; []; []; []; []; []] |}.
Definition sample_edits : list VersionEdit :=
  [AddFile 1 6 4096 (InternalKey [70] 9 kTypeValue) (InternalKey [75] 3 kTypeDeletion) (DeleteFile 1 3 VersionEdit_make);
   AddFile 0 7 4096 (InternalKey [60] 9 kTypeValue) (InternalKey [99] 3 kTypeDeletion) (SetCompactPointer 1 (InternalKey [75] 3 kTypeValue) VersionEdit_make)].

Lemma version_builder_correct_witness : ∃ cp' b v,
  ApplyAll BytewiseComparator sample_edits (replicate 7 []) (Builder_make sample_base) = Some (cp', b) ∧ SaveTo BytewiseComparator b = Some v ∧
  number <$> level_files v 1 = [6; 4] ∧ number <$> level_files v 0 = [7].
Proof.
  destruct (version_builder_correct bytes_ok BytewiseComparator sample_base sample_edits (replicate 7 [])) as (cp' & b & v & E & Ev & _).
  - apply _.
  - split; [done|]. intros l Hl. unfold level_ok, kNumLevels in Hl. assert (l = 1 ∨ level_files sample_base l = []) as [->| ->].
    { assert (l ∈ [0; 1; 2; 3; 4; 5; 6]) as H by (rewrite !elem_of_cons; lia). repeat (apply elem_of_cons in H as [->|H]; [by auto|]). by apply elem_of_nil in H. }
    + split; [repeat constructor; by_compute|]. repeat constructor.
    + split; constructor.
  - repeat constructor; by_compute.
  - repeat constructor; by_compute.
  - done.
  - intros l Hl. unfold level_ok, kNumLevels in Hl.
    assert (l ∈ [0; 1; 2; 3; 4; 5; 6]) as H by (rewrite !elem_of_cons; lia). repeat (apply elem_of_cons in H as [->|H]; [by_compute|]). by apply elem_of_nil in H.
  - intros l Hl. assert (Hcase : l = 1 ∨ edit_levels l (level_files sample_base l) sample_edits = []).
    { assert (l ∈ [1; 2; 3; 4; 5; 6]) as H by (unfold kNumLevels in Hl; rewrite !elem_of_cons; lia).
      repeat (apply elem_of_cons in H as [->|H]; [by auto|]). by apply elem_of_nil in H. }
    destruct Hcase as [->| ->]; [|split; [constructor|by intros ? ? ?%elem_of_nil]].
    assert (edit_levels 1 (level_files sample_base 1) sample_edits = [sample_range 4 90 95; sample_range 6 70 75]) as -> by (vm_compute; reflexivity).
    split; [sample_files_ok|]. intros f g [->|[->|[]%elem_of_nil]%elem_of_cons]%elem_of_cons [->|[->|[]%elem_of_nil]%elem_of_cons]%elem_of_cons Hn; try done;
      [right|left]; by_compute.
  - exists cp', b, v. vm_compute in E. injection E as <- <-. vm_compute in Ev. injection Ev as <-. done.
Defined.
