(* ===== verification/VersionSet.v ===== *)
(** * The version set and its manifest

    Model of [VersionSet] ([App/integration/version_set.h], [version_set.cpp]) and of
    [ReadFileToString] ([env.cpp]): the live versions, the counters, writing each edit to
    the manifest with [LogAndApply], and rebuilding the state with [Recover].

    Files are named in the environment, as in [Filename]; the log writer of the manifest is
    its offset in the current block, [None] while no manifest is open.  [LogAndApply] releases
    the mutex while it writes, but by its contract no other thread changes the manifest then.
    [Finalize] computes compaction scores in floating point and is not modelled.  [None] is a
    failed assertion or a level out of range; the status of a write is only whether it is OK,
    as in [Log]. *)
From S2P Require Import Prelude Coding Comparator DbFormat Logging Log Status Filename VersionEdit Version VersionBuilder.
From stdpp Require Import sorting list gmap.

#[local] Open Scope Z_scope.

(** ** Live versions *)

(** The circular list of versions with their reference counts, by address. *)
Record VersionList := { live_ : gmap nat (Version * Z); current_id : nat; next_id : nat }.

Definition current (vl : VersionList) : option Version := fst <$> live_ vl !! current_id vl.

Definition Version_Ref (id : nat) (vl : VersionList) : option VersionList :=
  '(v, refs) ← live_ vl !! id; Some {| live_ := <[id := (v, refs + 1)]> (live_ vl); current_id := current_id vl; next_id := next_id vl |}.

(** The destructor takes the version off the list. *)
Definition Version_Unref (id : nat) (vl : VersionList) : option VersionList :=
  '(v, refs) ← live_ vl !! id;
  if refs <? 1 then None
  else Some {| live_ := if refs - 1 =? 0 then delete id (live_ vl) else <[id := (v, refs - 1)]> (live_ vl);
               current_id := current_id vl; next_id := next_id vl |}.

Definition AppendVersion (v : Version) (vl : VersionList) : option VersionList :=
  vl ← Version_Unref (current_id vl) vl;
  Some {| live_ := <[next_id vl := (v, 1)]> (live_ vl); current_id := next_id vl; next_id := S (next_id vl) |}.

Definition version_numbers (v : Version) : gset Z := list_to_set (mjoin (fmap number <$> files_ v)).
Definition AddLiveFiles (vl : VersionList) (live : gset Z) : gset Z :=
  map_fold (λ _ (p : Version * Z) live, version_numbers p.1 ∪ live) live (live_ vl).

(** A version without files. *)
Definition Version_empty : Version := {| files_ := replicate (Z.to_nat kNumLevels) [] |}.

(** ** The environment *)

Record ManifestEnv (W : Type) := {
  base_env : Env W;
  File_Flush : bytes → W → Status * W;
  NewSequentialFile : bytes → W → Status * SequentialFile;
  read_error : Status;  (** what a failing read returns *)
}.
Arguments base_env {W}. Arguments File_Flush {W}. Arguments NewSequentialFile {W}. Arguments read_error {W}.

(** ** State *)

Record VersionSet := {
  vs_next_file_number : Z;
  vs_manifest_file_number : Z;
  vs_last_sequence : Z;
  vs_log_number : Z;
  vs_prev_log_number : Z;
  descriptor_log_ : option Z;
  versions_ : VersionList;
  compact_pointer_ : list bytes;
}.

Definition VersionSet_make : VersionSet :=
  {| vs_next_file_number := 2; vs_manifest_file_number := 0; vs_last_sequence := 0; vs_log_number := 0; vs_prev_log_number := 0;
     descriptor_log_ := None; versions_ := {| live_ := {[0%nat := (Version_empty, 1)]}; current_id := 0; next_id := 1 |};
     compact_pointer_ := replicate (Z.to_nat kNumLevels) [] |}.

Definition NewFileNumber (vs : VersionSet) : Z * VersionSet :=
  (vs_next_file_number vs,
   {| vs_next_file_number := u64 (vs_next_file_number vs + 1); vs_manifest_file_number := vs_manifest_file_number vs; vs_last_sequence := vs_last_sequence vs;
      vs_log_number := vs_log_number vs; vs_prev_log_number := vs_prev_log_number vs; descriptor_log_ := descriptor_log_ vs;
      versions_ := versions_ vs; compact_pointer_ := compact_pointer_ vs |}).

Definition with_next_file (n : Z) (vs : VersionSet) : VersionSet :=
  {| vs_next_file_number := n; vs_manifest_file_number := vs_manifest_file_number vs; vs_last_sequence := vs_last_sequence vs;
     vs_log_number := vs_log_number vs; vs_prev_log_number := vs_prev_log_number vs; descriptor_log_ := descriptor_log_ vs;
     versions_ := versions_ vs; compact_pointer_ := compact_pointer_ vs |}.

Definition ReuseFileNumber (file_number : Z) (vs : VersionSet) : VersionSet :=
  if vs_next_file_number vs =? u64 (file_number + 1) then with_next_file file_number vs else vs.

Definition MarkFileNumberUsed (n : Z) (vs : VersionSet) : VersionSet :=
  if vs_next_file_number vs <=? n then with_next_file (u64 (n + 1)) vs else vs.

Definition VersionSet_SetLastSequence (s : Z) (vs : VersionSet) : option VersionSet :=
  if s <? vs_last_sequence vs then None
  else Some {| vs_next_file_number := vs_next_file_number vs; vs_manifest_file_number := vs_manifest_file_number vs; vs_last_sequence := s;
               vs_log_number := vs_log_number vs; vs_prev_log_number := vs_prev_log_number vs; descriptor_log_ := descriptor_log_ vs;
               versions_ := versions_ vs; compact_pointer_ := compact_pointer_ vs |}.

(** What [LogAndApply] changes before it writes: the pointers, and the manifest log. *)
Definition with_manifest (log : option Z) (cp : list bytes) (vs : VersionSet) : VersionSet :=
  {| vs_next_file_number := vs_next_file_number vs; vs_manifest_file_number := vs_manifest_file_number vs; vs_last_sequence := vs_last_sequence vs;
     vs_log_number := vs_log_number vs; vs_prev_log_number := vs_prev_log_number vs; descriptor_log_ := log;
     versions_ := versions_ vs; compact_pointer_ := cp |}.

(** Installing a version with the log numbers of its edit. *)
Definition install (vl : VersionList) (edit : VersionEdit) (vs : VersionSet) : VersionSet :=
  {| vs_next_file_number := vs_next_file_number vs; vs_manifest_file_number := vs_manifest_file_number vs; vs_last_sequence := vs_last_sequence vs;
     vs_log_number := log_number_ edit; vs_prev_log_number := prev_log_number_ edit; descriptor_log_ := descriptor_log_ vs;
     versions_ := vl; compact_pointer_ := compact_pointer_ vs |}.

Section VersionSet.
Context {W : Type} (env : ManifestEnv W) (files : W → gmap bytes bytes) (user : Comparator) (comparator_name dbname_ : bytes).

(** ** Writing the manifest *)

(** The manifest as the destination of a log writer; [contents] is for the proofs only. *)
Definition descriptor_file (name : bytes) : WritableFile W := {|
  Append w d := let '(s, w) := File_Append (base_env env) name d w in (Status_ok s, w);
  Flush w := let '(s, w) := File_Flush env name w in (Status_ok s, w);
  contents w := default [] (files w !! name);
|}.

Definition add_record (name : bytes) (record : bytes) (offset : Z) (w : W) : bool * Z * W :=
  let '(ok, wr) := @AddRecord W (descriptor_file name) {| dest_ := w; block_offset_ := offset |} record in
  (ok, block_offset_ wr, dest_ wr).

(** [WriteSnapshot]: the edit that describes the whole current version. *)
Fixpoint pointer_edits (level : Z) (cp : list bytes) (e : VersionEdit) : VersionEdit :=
  match cp with
  | [] => e
  | k :: cp => pointer_edits (level + 1) cp (match k with [] => e | _ => SetCompactPointer level k e end)
  end.
Fixpoint file_edits (level : Z) (fss : list (list FileMetaData)) (e : VersionEdit) : VersionEdit :=
  match fss with
  | [] => e
  | fs :: fss => file_edits (level + 1) fss (foldl (λ e f, AddFile level (number f) (file_size f) (smallest f) (largest f) e) e fs)
  end.
Definition snapshot_edit (v : Version) (cp : list bytes) : VersionEdit :=
  file_edits 0 (files_ v) (pointer_edits 0 cp (SetComparatorName comparator_name VersionEdit_make)).
Definition WriteSnapshot (name : bytes) (v : Version) (cp : list bytes) (offset : Z) (w : W) : bool * Z * W :=
  add_record name (EncodeTo (snapshot_edit v cp) []) offset w.

(** The fields [LogAndApply] fills in. *)
Definition fill_edit (edit : VersionEdit) (vs : VersionSet) : option VersionEdit :=
  edit ← (if has_log_number_ edit then
            if (vs_log_number vs <=? log_number_ edit) && (log_number_ edit <? vs_next_file_number vs) then Some edit else None
          else Some (SetLogNumber (vs_log_number vs) edit));
  let edit := if has_prev_log_number_ edit then edit else SetPrevLogNumber (vs_prev_log_number vs) edit in
  Some (SetLastSequence (vs_last_sequence vs) (SetNextFile (vs_next_file_number vs) edit)).

Definition LogAndApply (edit : VersionEdit) (vs : VersionSet) (w : W) : option (bool * VersionEdit * VersionSet * W) :=
  edit ← fill_edit edit vs;
  base ← current (versions_ vs);
  '(cp, b) ← Apply user edit (compact_pointer_ vs) (Builder_make base);
  v ← SaveTo user b;
  let name := DescriptorFileName dbname_ (vs_manifest_file_number vs) in
  let fresh := negb (bool_decide (is_Some (descriptor_log_ vs))) in
  let '(ok, log, w) :=
    match descriptor_log_ vs with
    | Some o => (true, Some o, w)
    | None =>
        let '(s, w) := NewWritableFile (base_env env) name w in
        if Status_ok s then let '(ok, o, w) := WriteSnapshot name base cp 0 w in (ok, Some o, w) else (false, None, w)
    end in
  let '(ok, log, w) :=
    match log with
    | Some o =>
        if ok : bool then
          let '(ok, o, w) := add_record name (EncodeTo edit []) o w in
          if ok : bool then let '(s, w) := File_Sync (base_env env) name w in (Status_ok s, Some o, w) else (false, Some o, w)
        else (ok, log, w)
    | None => (ok, log, w)
    end in
  let '(ok, w) := if (ok : bool) && fresh then let '(s, w) := SetCurrentFile (base_env env) dbname_ (vs_manifest_file_number vs) w in (Status_ok s, w) else (ok, w) in
  let vs := with_manifest log cp vs in
  if ok : bool then
    vl ← AppendVersion v (versions_ vs);
    Some (true, edit, install vl edit vs, w)
  else if fresh then Some (false, edit, with_manifest None cp vs, (Filename.DeleteFile (base_env env) name w).2)
  else Some (false, edit, vs, w).

(** ** Reading it back *)

Fixpoint read_fragments (fuel : nat) (f : SequentialFile) (data : bytes) : option (Status * bytes) :=
  match fuel with
  | O => None
  | S fuel =>
      match SequentialFile_Read 8192 f with
      | None => Some (read_error env, data)
      | Some (fragment, f) => match fragment with [] => Some (OK, data) | _ => read_fragments fuel f (data ++ fragment) end
      end
  end.
Definition ReadFileToString (fname : bytes) (w : W) : option (Status * bytes) :=
  let '(s, f) := NewSequentialFile env fname w in
  if negb (Status_ok s) then Some (s, []) else read_fragments (S (length (sf_rest f))) f [].

(** The status a reporter is given; the numbers at the end of some messages are left out. *)
Definition reason_status (r : DropReason) : Status :=
  match r with
  | Log.IOError => read_error env
  | BadLength => Corruption (str "bad record length") []
  | ChecksumMismatch => Corruption (str "checksum mismatch") []
  | PartialWithoutEnd => Corruption (str "partial record without end") []
  | MissingStart => Corruption (str "missing start of fragmented record") []
  | ErrorInMiddle => Corruption (str "error in middle of record") []
  | UnknownType => Corruption (str "unknown record type") []
  end.

(** [LogReporter]: the first report, unless the status is already an error. *)
Definition reported (s : Status) (r : Reader) : Status :=
  if Status_ok s then match reports r with [] => s | (_, reason) :: _ => reason_status reason end else s.

Record RecoverState := {
  r_log_number : option Z;
  r_prev_log_number : option Z;
  r_next_file : option Z;
  r_last_sequence : option Z;
  r_builder : Builder;
  r_pointers : list bytes;
}.

Definition note (has : bool) (x : Z) (old : option Z) : option Z := if has then Some x else old.

(** One record of the manifest. *)
Definition recover_record (record : bytes) (st : RecoverState) : option (Status * RecoverState) :=
  '(s, edit) ← DecodeFrom record VersionEdit_make;
  let s := if Status_ok s && has_comparator_ edit && negb (bool_decide (comparator_ edit = comparator_name))
           then InvalidArgument (comparator_ edit ++ str " does not match existing comparator ") comparator_name else s in
  '(cp, b) ← (if Status_ok s then Apply user edit (r_pointers st) (r_builder st) else Some (r_pointers st, r_builder st));
  Some (s, {| r_log_number := note (has_log_number_ edit) (log_number_ edit) (r_log_number st);
              r_prev_log_number := note (has_prev_log_number_ edit) (prev_log_number_ edit) (r_prev_log_number st);
              r_next_file := note (has_next_file_number_ edit) (next_file_number_ edit) (r_next_file st);
              r_last_sequence := note (has_last_sequence_ edit) (last_sequence_ edit) (r_last_sequence st);
              r_builder := b; r_pointers := cp |}).

Fixpoint recover_loop (fuel : nat) (s : Status) (r : Reader) (st : RecoverState) : option (Status * RecoverState) :=
  match fuel with
  | O => None
  | S fuel =>
      match ReadRecord r with
      | (None, r) => Some (reported s r, st)
      | (Some record, r) =>
          let s := reported s r in
          if Status_ok s then '(s, st) ← recover_record record st; recover_loop fuel s r st else Some (s, st)
      end
  end.

(** The end of [Recover]. *)
Definition finish_recovery (s : Status) (st : RecoverState) (vs : VersionSet) : option (Status * VersionSet) :=
  let vs := with_manifest (descriptor_log_ vs) (r_pointers st) vs in
  if negb (Status_ok s) then Some (s, vs)
  else
    let s := match r_next_file st, r_log_number st, r_last_sequence st with
             | None, _, _ => Corruption (str "no meta-nextfile entry in descriptor") []
             | _, None, _ => Corruption (str "no meta-lognumber entry in descriptor") []
             | _, _, None => Corruption (str "no last-sequence-number entry in descriptor") []
             | _, _, _ => OK
             end in
    let prev_log_number := default 0 (r_prev_log_number st) in
    let log_number := default 0 (r_log_number st) in
    let next_file := default 0 (r_next_file st) in
    let vs := MarkFileNumberUsed log_number (MarkFileNumberUsed prev_log_number vs) in
    if negb (Status_ok s) then Some (s, vs)
    else
      v ← SaveTo user (r_builder st);
      vl ← AppendVersion v (versions_ vs);
      Some (OK, {| vs_next_file_number := u64 (next_file + 1); vs_manifest_file_number := next_file;
                   vs_last_sequence := default 0 (r_last_sequence st); vs_log_number := log_number; vs_prev_log_number := prev_log_number;
                   descriptor_log_ := descriptor_log_ vs; versions_ := vl; compact_pointer_ := compact_pointer_ vs |}).

Definition Recover (vs : VersionSet) (w : W) : option (Status * VersionSet) :=
  '(s, cur) ← ReadFileToString (CurrentFileName dbname_) w;
  if negb (Status_ok s) then Some (s, vs)
  else if negb (bool_decide (last cur = Some 10)) then Some (Corruption (str "CURRENT file does not end with newline") [], vs)
  else
    let '(s, f) := NewSequentialFile env (dbname_ ++ str "/" ++ take (length cur - 1) cur) w in
    if negb (Status_ok s) then Some (s, vs)
    else
      base ← current (versions_ vs);
      '(s, st) ← recover_loop (S (S (length (sf_rest f)))) OK (Reader_make f true true 0)
        {| r_log_number := None; r_prev_log_number := None; r_next_file := None; r_last_sequence := None;
           r_builder := Builder_make base; r_pointers := compact_pointer_ vs |};
      finish_recovery s st vs.
End VersionSet.

(** ** Environments that do not fail *)

(** Every operation succeeds, [Append] extends the file, and opening a file reads what was
    written to it. *)
Class ManifestEnvOk {W : Type} (env : ManifestEnv W) (files : W → gmap bytes bytes) : Prop := {
  me_env :: EnvOk (base_env env) files;
  me_new f w : Status_ok (NewWritableFile (base_env env) f w).1 = true;
  me_append f d w : Status_ok (File_Append (base_env env) f d w).1 = true ∧
    files (File_Append (base_env env) f d w).2 !! f = Some (default [] (files w !! f) ++ d);
  me_flush f w : Status_ok (File_Flush env f w).1 = true ∧ files (File_Flush env f w).2 = files w;
  me_sync f w : Status_ok (File_Sync (base_env env) f w).1 = true;
  me_close f w : Status_ok (File_Close (base_env env) f w).1 = true;
  me_rename f t w : Status_ok (RenameFile (base_env env) f t w).1 = true;
  me_read f w c : files w !! f = Some c → NewSequentialFile env f w = (OK, {| sf_rest := c; sf_error := false |});
}.

Section EnvFacts.
Context {W : Type} (env : ManifestEnv W) (files : W → gmap bytes bytes) `{!ManifestEnvOk env files}.
Context (dbname : bytes).

Lemma descriptor_reliable name : @ReliableFile W (descriptor_file env files name).
Proof using ManifestEnvOk0.
  split; simpl.
  - intros w d. destruct (me_append (env := env) (files := files) name d w) as [H1 H2].
    destruct (File_Append (base_env env) name d w) as [s w']. simpl in *. rewrite H1. exists w'. by rewrite H2.
  - intros w. destruct (me_flush (env := env) (files := files) name w) as [H1 H2].
    destruct (File_Flush env name w) as [s w']. simpl in *. rewrite H1. exists w'. by rewrite H2.
Qed.

(** Adding a record appends its layout to the manifest and touches no other file. *)
Lemma add_record_ok name r o w c : files w !! name = Some c → 0 <= o <= kBlockSize →
  ∃ w', add_record env files name r o w = (true, layout_end o (record_cut o r), w') ∧
    files w' !! name = Some (c ++ layout o (record_cut o r)) ∧ ∀ g, g ≠ name → files w' !! g = files w !! g.
Proof using ManifestEnvOk0.
  intros Hc Ho. unfold add_record. pose proof (descriptor_reliable name) as HR.
  destruct (@AddRecord_spec W (descriptor_file env files name) HR {| dest_ := w; block_offset_ := o |} r Ho) as (w' & E & Hcont & Hoff).
  pose proof (@AddRecord_preserves W (descriptor_file env files name)
    (λ x, is_Some (files x !! name) ∧ ∀ g, g ≠ name → files x !! g = files w !! g) {| dest_ := w; block_offset_ := o |} r) as Hpres.
  rewrite E in Hpres |- *. simpl in *. exists (dest_ w'). rewrite Hoff. split; [done|].
  destruct Hpres as [[c' Hc'] Hfr]; [| |by rewrite Hc|].
  - intros f d [_ Hf]. pose proof (append_frame (env := base_env env) (files := files) name d f) as Hfr.
    destruct (me_append (env := env) (files := files) name d f) as [_ H2].
    destruct (File_Append (base_env env) name d f) as [s f']. simpl in *. split; [by rewrite H2|]. intros g Hg. by rewrite Hfr, Hf.
  - intros f [Hsome Hf]. destruct (me_flush (env := env) (files := files) name f) as [_ H2].
    destruct (File_Flush env name f) as [s f']. simpl in *. by rewrite H2.
  - split; [|done]. rewrite Hc', Hc in Hcont. simpl in Hcont. by rewrite Hc', Hcont.
Qed.

Lemma SetCurrentFile_ok n w : Status_ok (SetCurrentFile (base_env env) dbname n w).1 = true.
Proof using ManifestEnvOk0.
  assert (Hwrite : ∀ d f w, Status_ok (WriteStringToFileSync (base_env env) d f w).1 = true).
  { intros d f w0. unfold WriteStringToFileSync, DoWriteStringToFile. pose proof (me_new (env := env) (files := files) f w0) as H1.
    destruct (NewWritableFile (base_env env) f w0) as [s1 w1]. simpl in H1. rewrite H1. cbn [negb].
    destruct (me_append (env := env) (files := files) f d w1) as [H2 _]. destruct (File_Append (base_env env) f d w1) as [s2 w2]. simpl in H2. rewrite H2. cbn [andb].
    pose proof (me_sync (env := env) (files := files) f w2) as H3. destruct (File_Sync (base_env env) f w2) as [s3 w3]. simpl in H3. rewrite H3.
    pose proof (me_close (env := env) (files := files) f w3) as H4. destruct (File_Close (base_env env) f w3) as [s4 w4]. simpl in H4. by rewrite H4. }
  unfold SetCurrentFile. set (d := drop _ _). set (f := TempFileName dbname n). specialize (Hwrite (d ++ [10]) f w).
  destruct (WriteStringToFileSync (base_env env) (d ++ [10]) f w) as [s1 w1]. simpl in Hwrite. rewrite Hwrite.
  pose proof (me_rename (env := env) (files := files) f (CurrentFileName dbname) w1) as H2.
  destruct (RenameFile (base_env env) f (CurrentFileName dbname) w1) as [s2 w2]. simpl in H2. by rewrite H2.
Qed.

(** The manifest is neither CURRENT nor the temporary file. *)
Lemma manifest_names n m : is_u 64 m → DescriptorFileName dbname n ≠ CurrentFileName dbname ∧ DescriptorFileName dbname n ≠ TempFileName dbname m.
Proof.
  intros Hm. unfold DescriptorFileName, CurrentFileName, TempFileName, MakeFileName. split; intros H%app_inv_head; [discriminate H|].
  destruct (zero_pad_dec m 6 Hm) as (Hd & Hne & _). destruct (zero_pad 6 (dec m)) as [|c l]; [done|]. apply Forall_cons in Hd as [Hc _].
  injection H as H _. subst c. revert Hc. vm_compute. intuition congruence.
Qed.

Lemma read_fragments_ok c : ∀ fuel data, (length c < fuel)%nat →
  read_fragments env fuel {| sf_rest := c; sf_error := false |} data = Some (OK, data ++ c).
Proof.
  induction c as [c IH] using (induction_ltof1 _ (@length Z)). unfold ltof in IH. intros [|fuel] data Hf; [lia|]. cbn [read_fragments].
  unfold SequentialFile_Read. cbn [sf_error sf_rest]. destruct (take (Z.to_nat 8192) c) as [|b l] eqn:E.
  - destruct c as [|x c]; [by rewrite app_nil_r|]. rewrite Z2Nat.inj_pos in E. destruct (Pos.to_nat 8192) eqn:En; [lia|]. done.
  - rewrite IH.
    + by rewrite <- app_assoc, <- E, take_drop.
    + rewrite length_drop. destruct c; [by rewrite take_nil in E|]. simpl length. lia.
    + rewrite length_drop. destruct c; [by rewrite take_nil in E|]. simpl length in *. lia.
Qed.

Lemma ReadFileToString_ok f w c : files w !! f = Some c → ReadFileToString env f w = Some (OK, c).
Proof using ManifestEnvOk0.
  intros Hc. unfold ReadFileToString. rewrite (me_read (env := env) (files := files) f w c Hc). cbn [Status_ok OK negb sf_rest].
  apply read_fragments_ok. lia.
Qed.
End EnvFacts.

(** ** The edit of a snapshot *)

Section Snapshot.
Context (comparator_name : bytes).

Fixpoint pointers_of (level : Z) (cp : list bytes) : list (Z * bytes) :=
  match cp with
  | [] => []
  | k :: cp => match k with [] => pointers_of (level + 1) cp | _ => (level, k) :: pointers_of (level + 1) cp end
  end.
Definition remade (f : FileMetaData) : FileMetaData := FileMetaData_make (number f) (file_size f) (smallest f) (largest f).
Fixpoint files_of (level : Z) (fss : list (list FileMetaData)) : list (Z * FileMetaData) :=
  match fss with
  | [] => []
  | fs :: fss => ((λ f, (level, remade f)) <$> fs) ++ files_of (level + 1) fss
  end.

Lemma pointer_edits_eq cp : ∀ level e, pointer_edits level cp e = with_lists (compact_pointers_ e ++ pointers_of level cp) (deleted_files_ e) (new_files_ e) e.
Proof.
  induction cp as [|k cp IH]; intros level e; simpl; [rewrite app_nil_r; by destruct e|]. rewrite IH. destruct k; [done|].
  cbn [SetCompactPointer with_lists compact_pointers_ deleted_files_ new_files_]. by rewrite <- app_assoc.
Qed.

Lemma file_edits_eq fss : ∀ level e, file_edits level fss e = with_lists (compact_pointers_ e) (deleted_files_ e) (new_files_ e ++ files_of level fss) e.
Proof.
  induction fss as [|fs fss IH]; intros level e; simpl; [rewrite app_nil_r; by destruct e|]. rewrite IH.
  assert (Hf : ∀ e, foldl (λ e f, AddFile level (number f) (file_size f) (smallest f) (largest f) e) e fs =
    with_lists (compact_pointers_ e) (deleted_files_ e) (new_files_ e ++ ((λ f, (level, remade f)) <$> fs)) e).
  { clear. induction fs as [|f fs IH]; intros e; simpl; [rewrite app_nil_r; by destruct e|]. rewrite IH.
    cbn [AddFile with_lists compact_pointers_ deleted_files_ new_files_]. by rewrite <- app_assoc. }
  rewrite Hf. cbn [with_lists compact_pointers_ deleted_files_ new_files_]. by rewrite <- app_assoc.
Qed.

Lemma snapshot_edit_eq v cp : snapshot_edit comparator_name v cp =
  with_lists (pointers_of 0 cp) [] (files_of 0 (files_ v)) (SetComparatorName comparator_name VersionEdit_make).
Proof. unfold snapshot_edit. by rewrite file_edits_eq, pointer_edits_eq. Qed.

Lemma filter_level level l fs : List.filter (λ p : Z * FileMetaData, p.1 =? l) ((λ f, (level, remade f)) <$> fs) =
  if level =? l then (λ f, (level, remade f)) <$> fs else [].
Proof. induction fs as [|f fs IH]; cbn [fmap list_fmap List.filter fst]; [by destruct (_ =? _)|]. rewrite IH. by destruct (level =? l). Qed.

Lemma files_of_at fss l : ∀ level, level <= l →
  snd <$> List.filter (λ p, p.1 =? l) (files_of level fss) = remade <$> default [] (fss !! Z.to_nat (l - level)).
Proof.
  induction fss as [|fs fss IH]; intros level Hl; simpl; [done|]. rewrite List.filter_app, fmap_app.
  destruct (Z.eqb_spec level l) as [->|Hne].
  - rewrite Z.sub_diag. simpl. assert (List.filter (λ p : Z * FileMetaData, p.1 =? l) (files_of (l + 1) fss) = []) as ->.
    { assert (Hnone : ∀ level, l < level → List.filter (λ p : Z * FileMetaData, p.1 =? l) (files_of level fss) = []); [|apply Hnone; lia].
      clear. induction fss as [|fs fss IH]; intros level Hl; simpl; [done|]. rewrite List.filter_app, IH, app_nil_r by lia.
      by rewrite filter_level, (proj2 (Z.eqb_neq level l)) by lia. }
    rewrite app_nil_r, filter_level, Z.eqb_refl. by rewrite <- list_fmap_compose.
  - replace (Z.to_nat (l - level)) with (S (Z.to_nat (l - (level + 1)))) by lia. simpl. rewrite <- IH by lia.
    by rewrite filter_level, (proj2 (Z.eqb_neq level l)) by done.
Qed.

Lemma pointers_of_at cp l k : ∀ level, level <= l →
  foldl (λ k (p : Z * bytes), if p.1 =? l then p.2 else k) k (pointers_of level cp) =
    match cp !! Z.to_nat (l - level) with Some (b :: k') => b :: k' | _ => k end.
Proof.
  revert k. induction cp as [|x cp IH]; intros k level Hl; simpl; [done|]. destruct (Z.eqb_spec level l) as [->|Hne].
  - rewrite Z.sub_diag. simpl. assert (Hnone : ∀ level k, l < level → foldl (λ k (p : Z * bytes), if p.1 =? l then p.2 else k) k (pointers_of level cp) = k).
    { clear. induction cp as [|x cp IH]; intros level k Hl; simpl; [done|]. destruct x; simpl; rewrite ?(proj2 (Z.eqb_neq level l)) by lia; apply IH; lia. }
    destruct x as [|b x]; simpl; rewrite ?Z.eqb_refl, Hnone by lia; done.
  - replace (Z.to_nat (l - level)) with (S (Z.to_nat (l - (level + 1)))) by lia. simpl. destruct x as [|b x]; simpl.
    + apply IH. lia.
    + rewrite (proj2 (Z.eqb_neq level l)) by done. apply IH. lia.
Qed.

(** The snapshot stands for the version it was made from. *)
Lemma snapshot_level v cp l : level_ok l → (∀ f, f ∈ level_files v l → new_meta f = f) →
  added_at l (snapshot_edit comparator_name v cp) = level_files v l ∧
  edit_level l [] (snapshot_edit comparator_name v cp) = level_files v l.
Proof.
  intros Hl Hf. assert (H : added_at l (snapshot_edit comparator_name v cp) = level_files v l); [|by split].
  rewrite snapshot_edit_eq. unfold added_at. cbn [with_lists new_files_]. rewrite list_fmap_compose, (files_of_at _ l 0) by (unfold level_ok in Hl; lia).
  rewrite Z.sub_0_r. fold (level_files v l). rewrite <- list_fmap_compose. transitivity (id <$> level_files v l); [|by rewrite list_fmap_id].
  apply list_fmap_ext. intros i f Hi. cbn. unfold remade. change (new_meta f = f). apply Hf. by eapply list_elem_of_lookup_2.
Qed.

Lemma snapshot_pointer v cp l k : level_ok l → cp !! Z.to_nat l = Some k → pointer_at [snapshot_edit comparator_name v cp] l [] = k.
Proof.
  intros Hl Hk. rewrite snapshot_edit_eq. unfold pointer_at. cbn [foldl with_lists compact_pointers_].
  rewrite (pointers_of_at cp l [] 0) by (unfold level_ok in Hl; lia). rewrite Z.sub_0_r, Hk. by destruct k.
Qed.
End Snapshot.

(** ** Edits as bytes *)

Lemma mjoin_bytes_ok (l : list bytes) : Forall bytes_ok l → bytes_ok (mjoin l).
Proof. induction 1 as [|x l Hx Hl IH]; simpl; [constructor|]. by apply Forall_app. Qed.

Section Edits.
Context (valid : bytes → Prop) (comparator_name : bytes).
Abbreviation ivalid := (internal_valid valid).

(** The strings of an edit: internal keys, and the name of the comparator in use. *)
Record EditKeys (e : VersionEdit) : Prop := {
  ek_new : Forall (λ p : Z * FileMetaData, ivalid (smallest p.2) ∧ ivalid (largest p.2)) (new_files_ e);
  ek_pointers : Forall (λ p, ivalid p.2) (compact_pointers_ e);
  ek_name : has_comparator_ e = true → comparator_ e = comparator_name;
}.

Context (Hname : bytes_ok comparator_name ∧ name_ok comparator_name).

Definition field_string_ok (f : Field) : Prop :=
  match f with
  | FComparator s => bytes_ok s
  | FPointer _ k => bytes_ok k
  | FNew _ _ _ small large => bytes_ok small ∧ bytes_ok large
  | _ => True
  end.

Lemma field_bytes_ok f : field_ok f → field_string_ok f → bytes_ok (field_bytes f).
Proof.
  assert (H32 : ∀ x, bytes_ok (EncodeVarint32 (u32 x))) by (intros x; apply EncodeVarint32_ok, u32_range).
  assert (Htag : ∀ t, is_u 32 t → bytes_ok (PutVarint32 [] t)) by (intros t Ht; unfold PutVarint32; simpl; by apply EncodeVarint32_ok).
  assert (Hput : ∀ d s, bytes_ok d → bytes_ok s → bytes_ok (PutLengthPrefixedSlice d s)).
  { intros d s Hd Hs. unfold PutLengthPrefixedSlice, PutVarint32. rewrite !bytes_ok_app. auto. }
  assert (H64 : ∀ d n, bytes_ok d → is_u 64 n → bytes_ok (PutVarint64 d n)).
  { intros d n Hd Hn. unfold PutVarint64. rewrite bytes_ok_app. split; [done|by apply EncodeVarint64_ok]. }
  assert (Hlev : ∀ t l, is_u 32 t → bytes_ok (PutVarint32 (PutVarint32 [] t) (u32 l))).
  { intros t l Ht. unfold PutVarint32 at 1. rewrite bytes_ok_app. auto. }
  assert (Htags : Forall (is_u 32) [kComparator; kLogNumber; kNextFileNumber; kLastSequence; kCompactPointer; kDeletedFile; kNewFile; kPrevLogNumber])
    by (repeat constructor; vm_compute; intuition congruence).
  rewrite !Forall_cons in Htags. destruct Htags as (T1 & T2 & T3 & T4 & T5 & T6 & T7 & T9 & _).
  destruct f; cbn [field_bytes field_ok field_string_ok]; intros Hf Hs.
  1: by apply Hput; [apply Htag|].
  1-4: by apply H64; [apply Htag|].
  - apply Hput; [apply Hlev; exact T5|exact Hs].
  - apply H64; [apply Hlev; exact T6|exact (proj2 Hf)].
  - destruct Hf as (_ & Hn & Hsz & _), Hs as [Hs1 Hs2]. apply Hput; [apply Hput; [|exact Hs1]|exact Hs2]. apply H64; [|exact Hsz].
    apply H64; [apply Hlev; exact T7|exact Hn].
Qed.

Lemma EncodeTo_bytes e : EditOk e → EditKeys e → bytes_ok (EncodeTo e []).
Proof using Hname.
  intros He [K1 K2 K3]. rewrite EncodeTo_fields. simpl. apply mjoin_bytes_ok, Forall_fmap.
  assert (Hstr : Forall field_string_ok (fields e)).
  { unfold fields. rewrite !Forall_app. split_and!.
    - destruct (has_comparator_ e); [|constructor]. apply Forall_singleton. cbn [field_string_ok]. rewrite K3 by done. apply Hname.
    - case_match; repeat constructor.
    - case_match; repeat constructor.
    - case_match; repeat constructor.
    - case_match; repeat constructor.
    - apply Forall_fmap. eapply Forall_impl; [exact K2|]. by intros p [? _].
    - apply Forall_fmap, Forall_forall. done.
    - apply Forall_fmap. eapply Forall_impl; [exact K1|]. by intros p [[? _] [? _]]. }
  pose proof (fields_ok e He) as Hok. rewrite Forall_forall in Hstr, Hok |- *. intros f Hf. apply field_bytes_ok; auto.
Qed.

Lemma EditOk_make : EditOk VersionEdit_make.
Proof. apply (Clear_ok VersionEdit_make). split; simpl; try done; try (split; [by_compute|done]); constructor. Qed.

Lemma with_lists_ok e cp nf : EditOk e → Forall (λ p, level_ok p.1 ∧ name_ok p.2) cp → Forall (λ p, level_ok p.1 ∧ new_file_ok p.2) nf →
  EditOk (with_lists cp [] nf e).
Proof. intros [H1 H2 H3 H4 H5 _ _ _ _] Hcp Hnf. split; cbn [with_lists deleted_files_]; [exact H1|exact H2|exact H3|exact H4|exact H5|exact Hcp|constructor|constructor|exact Hnf]. Qed.

(** A file whose metadata an edit can carry. *)
Record FileFits (f : FileMetaData) : Prop := {
  ff_meta : new_meta f = f;
  ff_number : is_u 64 (number f);
  ff_size : is_u 64 (file_size f);
  ff_smallest : ivalid (smallest f) ∧ name_ok (smallest f);
  ff_largest : ivalid (largest f) ∧ name_ok (largest f);
}.
Definition VersionFits (v : Version) : Prop := zlen (files_ v) = kNumLevels ∧ ∀ l f, level_ok l → f ∈ level_files v l → FileFits f.
Definition PointersFit (cp : list bytes) : Prop := zlen cp = kNumLevels ∧ Forall (λ k, k = [] ∨ (ivalid k ∧ name_ok k)) cp.

Lemma pointers_of_ok cp : ∀ level, 0 <= level → level + zlen cp <= kNumLevels → Forall (λ k, k = [] ∨ (ivalid k ∧ name_ok k)) cp →
  Forall (λ p, level_ok p.1 ∧ ivalid p.2 ∧ name_ok p.2) (pointers_of level cp).
Proof.
  induction cp as [|k cp IH]; intros level H0 Hlen Hcp; simpl; [constructor|]. rewrite zlen_cons in Hlen. apply Forall_cons in Hcp as [Hk Hcp].
  pose proof (zlen_nonneg cp). destruct k as [|b k]; [by apply IH; [lia|lia|]|]. constructor; [|by apply IH; [lia|lia|]]. simpl.
  split; [unfold level_ok; lia|]. by destruct Hk.
Qed.

Lemma files_of_ok fss : ∀ level, 0 <= level → level + zlen fss <= kNumLevels → (∀ fs f, fs ∈ fss → f ∈ fs → FileFits f) →
  Forall (λ p : Z * FileMetaData, level_ok p.1 ∧ new_file_ok p.2 ∧ ivalid (smallest p.2) ∧ ivalid (largest p.2)) (files_of level fss).
Proof.
  induction fss as [|fs fss IH]; intros level H0 Hlen Hfs; simpl; [constructor|]. rewrite zlen_cons in Hlen. pose proof (zlen_nonneg fss).
  apply Forall_app. split; [|apply IH; [lia|lia|]; intros gs f Hgs; apply Hfs; by right].
  apply Forall_fmap, Forall_forall. intros f Hf. destruct (Hfs fs f ltac:(left) Hf) as [_ H1 H2 [H3 H3'] [H4 H4']]. simpl. split; [unfold level_ok; lia|].
  by split.
Qed.

Lemma snapshot_edit_ok v cp : VersionFits v → PointersFit cp →
  EditOk (snapshot_edit comparator_name v cp) ∧ EditKeys (snapshot_edit comparator_name v cp).
Proof using Hname.
  intros [Hv Hf] [Hc Hcp]. rewrite snapshot_edit_eq.
  assert (Hp : Forall (λ p, level_ok p.1 ∧ ivalid p.2 ∧ name_ok p.2) (pointers_of 0 cp)) by (apply pointers_of_ok; [lia|lia|done]).
  assert (Hn : Forall (λ p : Z * FileMetaData, level_ok p.1 ∧ new_file_ok p.2 ∧ ivalid (smallest p.2) ∧ ivalid (largest p.2)) (files_of 0 (files_ v))).
  { apply files_of_ok; [lia|lia|]. intros fs f [i Hi]%list_elem_of_lookup Hfs. pose proof (lookup_lt_Some _ _ _ Hi). apply (Hf (Z.of_nat i) f).
    - unfold level_ok, zlen in *. lia.
    - unfold level_files. by rewrite Nat2Z.id, Hi. }
  split.
  - apply with_lists_ok; [apply (apply_field_ok _ (FComparator comparator_name)); [apply EditOk_make|apply Hname]| |].
    + eapply Forall_impl; [exact Hp|]. by intros p (? & _ & ?).
    + eapply Forall_impl; [exact Hn|]. by intros p (? & ? & _).
  - split; cbn [with_lists new_files_ compact_pointers_ comparator_ SetComparatorName].
    + eapply Forall_impl; [exact Hn|]. by intros p (_ & _ & ?).
    + eapply Forall_impl; [exact Hp|]. by intros p (_ & ? & _).
    + done.
Qed.
End Edits.

(** ** What the manifest holds *)

Lemma submseteq_NoDup {A} (l k : list A) : l ⊆+ k → NoDup k → NoDup l.
Proof. intros [r ->]%submseteq_Permutation. by intros [? _]%NoDup_app. Qed.

Lemma edit_levels_snoc l b es e : edit_levels l b (es ++ [e]) = edit_level l (edit_levels l b es) e.
Proof. unfold edit_levels. by rewrite foldl_app. Qed.

Lemma edit_level_perm l F F' e : F ≡ₚ F' → edit_level l F e ≡ₚ edit_level l F' e.
Proof. intros H. unfold edit_level. f_equiv. by apply filter_perm. Qed.

(** The files left are among those of the base and those added. *)
Lemma edit_levels_sub l b es : edit_levels l b es ⊆+ b ++ all_added l es.
Proof.
  induction es as [|e es IH] using rev_ind; [by rewrite app_nil_r|]. rewrite edit_levels_snoc, all_added_app, app_assoc. unfold edit_level.
  apply submseteq_app; [|change (all_added l [e]) with (added_at l e ++ []); by rewrite app_nil_r]. etransitivity; [|exact IH].
  clear IH. induction (edit_levels l b es) as [|f F IHF]; simpl; [done|]. destruct (negb _); [by apply submseteq_skip|by apply submseteq_cons].
Qed.

Lemma pointer_at_app es es' l k : pointer_at (es ++ es') l k = pointer_at es' l (pointer_at es l k).
Proof. unfold pointer_at. by rewrite foldl_app. Qed.

(** Setting the same pointers twice is setting them once. *)
Lemma pointer_at_idem e l k : pointer_at [e] l (pointer_at [e] l k) = pointer_at [e] l k.
Proof.
  unfold pointer_at. cbn [foldl]. induction (compact_pointers_ e) as [|p ps IH] using rev_ind; [done|]. rewrite !foldl_app. cbn [foldl].
  destruct (p.1 =? l); [done|]. done.
Qed.

Section Manifest.
Context {W : Type} (env : ManifestEnv W) (files : W → gmap bytes bytes) `{HEnv : !ManifestEnvOk env files}.
Context {valid : bytes → Prop} {user : Comparator} `{HU : !ComparatorOk valid user} (comparator_name dbname : bytes).
Context (Hname : bytes_ok comparator_name ∧ name_ok comparator_name).
Abbreviation ivalid := (internal_valid valid).
Abbreviation VersionSorted := (VersionSorted (valid := valid) (user := user)).
Abbreviation Apart := (Apart (valid := valid) (user := user)).
Abbreviation EditKeys := (EditKeys valid comparator_name).
Abbreviation snapshot := (snapshot_edit comparator_name).
Abbreviation manifest vs := (DescriptorFileName dbname (vs_manifest_file_number vs)).
Abbreviation records es := ((λ e, EncodeTo e []) <$> es).

(** The version set after the edits [es] on top of the version [base]. *)
Record SetInv (base : Version) (es : list VersionEdit) (vs : VersionSet) : Prop := {
  si_base : VersionSorted base ∧ VersionFits valid base;
  si_edits : Forall EditOk es ∧ Forall EditKeys es;
  si_fresh : NumbersFresh base es;
  si_current : ∃ v r, live_ (versions_ vs) !! current_id (versions_ vs) = Some (v, r) ∧ 1 <= r ∧ VersionSorted v ∧
    ∀ l, level_ok l → level_files v l ≡ₚ edit_levels l (level_files base l) es;
  si_numbers : is_u 64 (vs_next_file_number vs) ∧ is_u 64 (vs_last_sequence vs) ∧ is_u 64 (vs_log_number vs) ∧ is_u 64 (vs_prev_log_number vs) ∧
    is_u 64 (vs_manifest_file_number vs);
  si_pointers : PointersFit valid (compact_pointer_ vs);
}.

(** The last edit carries the numbers the version set had when it was written. *)
Record Stamped (vs : VersionSet) (e : VersionEdit) : Prop := {
  sp_has : has_log_number_ e = true ∧ has_prev_log_number_ e = true ∧ has_next_file_number_ e = true ∧ has_last_sequence_ e = true;
  sp_log : log_number_ e = vs_log_number vs;
  sp_prev : prev_log_number_ e = vs_prev_log_number vs;
  sp_next : next_file_number_ e <= vs_next_file_number vs;
  sp_last : last_sequence_ e <= vs_last_sequence vs;
}.

(** The manifest file: a snapshot of [base], and the edits since. *)
Record ManifestInv (base : Version) (cp0 : list bytes) (es : list VersionEdit) (vs : VersionSet) (w : W) : Prop := {
  mi_pointers0 : PointersFit valid cp0;
  mi_log : descriptor_log_ vs = Some (layout_end 0 (log_cut 0 (records (snapshot base cp0 :: es))));
  mi_file : files w !! manifest vs = Some (layout 0 (log_cut 0 (records (snapshot base cp0 :: es))));
  mi_current : files w !! CurrentFileName dbname = Some (str "MANIFEST-" ++ zero_pad 6 (dec (vs_manifest_file_number vs)) ++ [10]);
  mi_pointers l : level_ok l → compact_pointer_ vs !! Z.to_nat l = Some (pointer_at (snapshot base cp0 :: es) l []);
  mi_last : ∃ e, last es = Some e ∧ Stamped vs e;
}.

(** What a caller of [LogAndApply] must provide. *)
Record EditFits (base : Version) (es : list VersionEdit) (e : VersionEdit) : Prop := {
  ef_ok : EditOk e;
  ef_keys : EditKeys e;
  ef_fresh : NumbersFresh base (es ++ [e]);
  ef_apart l : 0 < l < kNumLevels → Apart (edit_levels l (level_files base l) (es ++ [e]));
}.
Definition LogFits (vs : VersionSet) (e : VersionEdit) : Prop :=
  has_log_number_ e = true → vs_log_number vs <= log_number_ e < vs_next_file_number vs.

(** Two edits with the same lists. *)
Definition same_lists (e e' : VersionEdit) : Prop :=
  compact_pointers_ e = compact_pointers_ e' ∧ deleted_files_ e = deleted_files_ e' ∧ new_files_ e = new_files_ e'.

Lemma same_lists_level l F e e' : same_lists e e' → added_at l e = added_at l e' ∧ edit_level l F e = edit_level l F e'.
Proof. intros (_ & H2 & H3). unfold edit_level, added_at, deleted_at. by rewrite H2, H3. Qed.

Lemma fill_edit_ok base es vs e : SetInv base es vs → EditFits base es e → LogFits vs e →
  ∃ e', fill_edit e vs = Some e' ∧ same_lists e e' ∧ EditFits base es e' ∧
    (has_log_number_ e' = true ∧ has_prev_log_number_ e' = true ∧ has_next_file_number_ e' = true ∧ has_last_sequence_ e' = true) ∧
    next_file_number_ e' = vs_next_file_number vs ∧ last_sequence_ e' = vs_last_sequence vs.
Proof.
  intros HS [H1 [K1 K2 K3] H3 H4] H5. destruct (si_numbers _ _ _ HS) as (N1 & N2 & N3 & N4 & _). unfold fill_edit.
  assert (Hfill : ∃ e1, (if has_log_number_ e then
      if (vs_log_number vs <=? log_number_ e) && (log_number_ e <? vs_next_file_number vs) then Some e else None
    else Some (SetLogNumber (vs_log_number vs) e)) = Some e1 ∧ same_lists e e1 ∧ EditOk e1 ∧ has_log_number_ e1 = true ∧
    has_prev_log_number_ e1 = has_prev_log_number_ e ∧ comparator_ e1 = comparator_ e ∧ has_comparator_ e1 = has_comparator_ e ∧
    (has_log_number_ e = true → log_number_ e1 = log_number_ e)).
  { destruct (has_log_number_ e) eqn:E.
    - specialize (H5 E). replace ((vs_log_number vs <=? log_number_ e) && (log_number_ e <? vs_next_file_number vs)) with true by lia.
      exists e. by split_and!.
    - eexists. split; [done|]. split_and!; try done. by apply (apply_field_ok _ (FLog _)). }
  destruct Hfill as (e1 & -> & Hsame & Hok1 & Hl1 & Hp1 & Hc1 & Hc2 & Hlog). cbn [mbind option_bind].
  set (e2 := if has_prev_log_number_ e1 then e1 else SetPrevLogNumber (vs_prev_log_number vs) e1).
  assert (H2 : EditOk e2 ∧ same_lists e e2 ∧ has_log_number_ e2 = true ∧ has_prev_log_number_ e2 = true ∧ comparator_ e2 = comparator_ e ∧
    has_comparator_ e2 = has_comparator_ e ∧ log_number_ e2 = log_number_ e1).
  { unfold e2. destruct (has_prev_log_number_ e1) eqn:E; split_and!; try done. by apply (apply_field_ok _ (FPrevLog _)). }
  destruct H2 as (Hok2 & Hsame2 & Hl2 & Hp2 & Hc3 & Hc4 & Hlog2). clearbody e2. eexists. split; [done|]. split; [exact Hsame2|].
  split; [|by split_and!]. split.
  - apply (apply_field_ok _ (FLast _)); [|done]. by apply (apply_field_ok _ (FNext _)).
  - destruct Hsame2 as (S1 & S2 & S3). split; cbn [SetLastSequence SetNextFile new_files_ compact_pointers_ has_comparator_ comparator_].
    + by rewrite <- S3.
    + by rewrite <- S1.
    + by rewrite Hc3, Hc4.
  - intros l Hl. specialize (H3 l Hl). rewrite all_added_app in H3 |- *. change (all_added l [?x]) with (added_at l x ++ []) in *.
    by rewrite <- (proj1 (same_lists_level l [] e (SetLastSequence (vs_last_sequence vs) (SetNextFile (vs_next_file_number vs) e2)) Hsame2)).
  - intros l Hl. specialize (H4 l Hl). rewrite edit_levels_snoc in H4 |- *.
    by rewrite <- (proj2 (same_lists_level l _ e (SetLastSequence (vs_last_sequence vs) (SetNextFile (vs_next_file_number vs) e2)) Hsame2)).
Qed.

Lemma pointer_at_P (P : bytes → Prop) e l k : P k → Forall (λ p, P p.2) (compact_pointers_ e) → P (pointer_at [e] l k).
Proof.
  intros Hk H. unfold pointer_at. cbn [foldl]. revert k Hk. induction H as [|p ps Hp H IH]; intros k Hk; cbn [foldl]; [done|].
  apply IH. by destruct (p.1 =? l).
Qed.

(** The new version and the new pointers. *)
Lemma build_ok base es vs e : SetInv base es vs → EditFits base es e →
  ∃ v r cp b v', live_ (versions_ vs) !! current_id (versions_ vs) = Some (v, r) ∧ 1 <= r ∧
    Apply user e (compact_pointer_ vs) (Builder_make v) = Some (cp, b) ∧ SaveTo user b = Some v' ∧ VersionSorted v' ∧
    (∀ l, level_ok l → level_files v' l ≡ₚ edit_levels l (level_files base l) (es ++ [e])) ∧ PointersFit valid cp ∧
    ∀ l, level_ok l → cp !! Z.to_nat l = pointer_at [e] l <$> compact_pointer_ vs !! Z.to_nat l.
Proof using HU.
  intros [Hb He Hfr (v & r & Hlive & Hr & Hvs & Hlv) Hnum [Hcp Hpt]] [E1 [K1 K2 K3] E3 E4].
  assert (Hfresh : NumbersFresh v [e]).
  { intros l Hl. specialize (E3 l Hl). rewrite all_added_app, app_assoc in E3. change (all_added l [e]) with (added_at l e ++ []) in *. rewrite app_nil_r in *.
    rewrite (Hlv l Hl). rewrite fmap_app in E3 |- *. eapply submseteq_NoDup; [|exact E3]. apply submseteq_app; [|done]. apply fmap_submseteq, edit_levels_sub. }
  destruct (Apply_ok (valid := valid) (user := user) e (compact_pointer_ vs) (Builder_make v) v []) as (cp & b & EA & Hbi & Hcp' & Hp');
    [apply Builder_make_inv|done|done|done|by eapply Forall_impl; [exact K1|intros p [? _]]|].
  destruct (SaveTo_ok b v [e] Hbi Hvs Hfresh) as (v' & EV & Hs' & Hl').
  { intros l Hl. specialize (E4 l Hl). rewrite edit_levels_snoc in E4. cbn [edit_levels foldl].
    assert (Hp : edit_level l (level_files v l) e ≡ₚ edit_level l (edit_levels l (level_files base l) es) e).
    { apply edit_level_perm, Hlv. unfold level_ok. lia. }
    destruct E4 as [A1 A2]. split; [by rewrite Hp|]. intros f g Hf Hg. apply A2; by rewrite <- Hp. }
  exists v, r, cp, b, v'. split_and!; [done..| | |done].
  - intros l Hl. rewrite (proj1 (Hl' l Hl)), edit_levels_snoc. cbn [edit_levels foldl]. by apply edit_level_perm, Hlv.
  - split; [done|]. apply Forall_lookup. intros i k Hi. pose proof (lookup_lt_Some _ _ _ Hi) as Hlt.
    assert (Hlev : level_ok (Z.of_nat i)) by (unfold level_ok, zlen in *; lia). specialize (Hp' _ Hlev). rewrite Nat2Z.id, Hi in Hp'.
    destruct (compact_pointer_ vs !! i) as [k0|] eqn:Hk0; [|done]. injection Hp' as ->.
    apply (pointer_at_P (λ k, k = [] ∨ (ivalid k ∧ name_ok k))); [by apply (Forall_lookup_1 _ _ _ _ Hpt Hk0)|].
    apply Forall_forall. intros p Hp. right. rewrite Forall_forall in K2. split; [by apply K2|].
    pose proof (ok_pointers _ E1) as Hop. rewrite Forall_forall in Hop. by apply Hop.
Qed.

(** Installing the new version. *)
Lemma install_ok base es vs e v r v' log cp : SetInv base es vs → EditFits base es e → live_ (versions_ vs) !! current_id (versions_ vs) = Some (v, r) →
  1 <= r → VersionSorted v' → (∀ l, level_ok l → level_files v' l ≡ₚ edit_levels l (level_files base l) (es ++ [e])) → PointersFit valid cp →
  ∃ vl, AppendVersion v' (versions_ (with_manifest log cp vs)) = Some vl ∧ SetInv base (es ++ [e]) (install vl e (with_manifest log cp vs)) ∧
    current vl = Some v'.
Proof using Type.
  intros [Hb [He1 He2] Hfr _ (N1 & N2 & N3 & N4 & N5) _] [E1 E2 E3 E4] Hlive Hr Hs Hl Hcp. unfold AppendVersion, Version_Unref. cbn [with_manifest versions_].
  rewrite Hlive. cbn [mbind option_bind]. replace (r <? 1) with false by lia. cbn [mbind option_bind live_ current_id next_id].
  eexists. split; [done|]. unfold current. cbn [live_ current_id]. rewrite lookup_insert_eq. split; [|done]. split; [done| |done| | |done].
  - split; apply Forall_app; split; [done|by apply Forall_singleton|done|by apply Forall_singleton].
  - cbn [install versions_ live_ current_id]. exists v', 1. rewrite lookup_insert_eq. by split_and!.
  - cbn [install with_manifest vs_next_file_number vs_last_sequence vs_log_number vs_prev_log_number vs_manifest_file_number].
    split_and!; [done|done|apply E1|apply E1|done].
Qed.

Lemma records_ok base cp0 es : VersionFits valid base → PointersFit valid cp0 → Forall EditOk es → Forall EditKeys es →
  Forall bytes_ok (records (snapshot base cp0 :: es)).
Proof using Hname.
  intros Hb Hcp He Hk. destruct (snapshot_edit_ok valid comparator_name Hname base cp0 Hb Hcp) as [S1 S2].
  apply Forall_fmap. constructor; [by apply (EncodeTo_bytes valid comparator_name)|]. rewrite Forall_forall in He, Hk |- *.
  intros e Hin. apply (EncodeTo_bytes valid comparator_name); auto.
Qed.

Lemma LogAndApply_open base cp0 es vs w e : SetInv base es vs → ManifestInv base cp0 es vs w → EditFits base es e → LogFits vs e →
  ∃ e' vs' w', LogAndApply env files user comparator_name dbname e vs w = Some (true, e', vs', w') ∧ same_lists e e' ∧
    SetInv base (es ++ [e']) vs' ∧ ManifestInv base cp0 (es ++ [e']) vs' w' ∧ vs_manifest_file_number vs' = vs_manifest_file_number vs.
Proof using All.
  intros HS HM HE HL. destruct (fill_edit_ok base es vs e HS HE HL) as (e' & Ef & Hsame & HE' & Hhas & Hnext & Hlast).
  destruct (build_ok base es vs e' HS HE') as (v & r & cp & b & v' & Hlive & Hr & EA & ES & Hs' & Hl' & Hcp & Hpt).
  pose proof HS as [[_ Hfits] [He1 He2] _ _ (_ & _ & _ & _ & N5) _]. pose proof HM as [M1 M2 M3 M4 M5 _].
  pose proof (records_ok base cp0 es Hfits M1 He1 He2) as Hrec. set (rs := records (snapshot base cp0 :: es)) in *.
  assert (H0 : 0 <= 0 <= kBlockSize) by (unfold kBlockSize; lia). pose proof (log_cut_end 0 rs H0 Hrec) as Hoff.
  destruct (add_record_ok env files (manifest vs) (EncodeTo e' []) (layout_end 0 (log_cut 0 rs)) w _ M3 Hoff) as (w1 & EW & Hf1 & Hfr1).
  unfold LogAndApply. rewrite Ef. cbn [mbind option_bind]. unfold current. rewrite Hlive. cbn [fmap option_fmap option_map fst mbind option_bind].
  rewrite EA. cbn [mbind option_bind]. rewrite ES. cbn [mbind option_bind]. rewrite M2, EW. cbn [is_Some_dec].
  rewrite (bool_decide_eq_true_2 (is_Some (Some _))) by done. cbn [negb].
  pose proof (me_sync (env := env) (files := files) (manifest vs) w1) as Hsync. pose proof (sync_files (env := base_env env) (files := files) (manifest vs) w1) as Hsf.
  destruct (File_Sync (base_env env) (manifest vs) w1) as [s2 w2]. simpl in Hsync, Hsf. rewrite Hsync. cbn [andb].
  set (o' := layout_end _ (record_cut _ _)) in *.
  destruct (install_ok base es vs e' v r v' (Some o') cp HS HE' Hlive Hr Hs' Hl' Hcp) as (vl & -> & HS' & Hcur). cbn [mbind option_bind].
  exists e', (install vl e' (with_manifest (Some o') cp vs)), w2. split; [done|]. split; [done|]. split; [done|].
  assert (Hrs : records (snapshot base cp0 :: es ++ [e']) = rs ++ [EncodeTo e' []]) by (unfold rs; by rewrite app_comm_cons, fmap_app).
  split; [|done]. split; cbn [install with_manifest descriptor_log_ vs_manifest_file_number compact_pointer_]; rewrite ?Hrs, ?log_cut_snoc, ?layout_end_app, ?layout_app.
  - done.
  - done.
  - by rewrite Hsf, Hf1.
  - rewrite Hsf, Hfr1; [done|]. destruct (manifest_names dbname (vs_manifest_file_number vs) _ N5) as [Hne _]. by intros ?%eq_sym.
  - intros l Hl. rewrite Hpt, M5 by done. cbn [fmap option_fmap option_map]. by rewrite app_comm_cons, pointer_at_app.
  - exists e'. rewrite last_snoc. split; [done|]. split; cbn [install with_manifest vs_log_number vs_prev_log_number vs_next_file_number vs_last_sequence]; [done|done|done|lia|lia].
Qed.

Lemma LogAndApply_closed base vs w e : SetInv base [] vs → descriptor_log_ vs = None → current (versions_ vs) = Some base → EditFits base [] e → LogFits vs e →
  ∃ e' vs' w' cp0, LogAndApply env files user comparator_name dbname e vs w = Some (true, e', vs', w') ∧ same_lists e e' ∧
    SetInv base [e'] vs' ∧ ManifestInv base cp0 [e'] vs' w' ∧
    ∀ l, level_ok l → compact_pointer_ vs' !! Z.to_nat l = pointer_at [e'] l <$> compact_pointer_ vs !! Z.to_nat l.
Proof using All.
  intros HS Hclosed Hbase HE HL. destruct (fill_edit_ok base [] vs e HS HE HL) as (e' & Ef & Hsame & HE' & Hhas & Hnext & Hlast).
  destruct (build_ok base [] vs e' HS HE') as (v & r & cp & b & v' & Hlive & Hr & EA & ES & Hs' & Hl' & Hcp & Hpt).
  pose proof HS as [[_ Hfits] _ _ _ (_ & _ & _ & _ & N5) _].
  assert (v = base) as -> by (unfold current in Hbase; rewrite Hlive in Hbase; by injection Hbase).
  assert (H0 : 0 <= 0 <= kBlockSize) by (unfold kBlockSize; lia). pose proof (records_ok base cp [] Hfits Hcp (List.Forall_nil _) (List.Forall_nil _)) as Hrec.
  set (snap := EncodeTo (snapshot base cp) []) in *. apply Forall_cons in Hrec as [Hsnap _]. destruct (manifest_names dbname (vs_manifest_file_number vs) _ N5) as [Hne Hne'].
  unfold LogAndApply. rewrite Ef. cbn [mbind option_bind]. rewrite Hbase. cbn [mbind option_bind]. rewrite EA. cbn [mbind option_bind]. rewrite ES. cbn [mbind option_bind].
  rewrite Hclosed. rewrite (bool_decide_eq_false_2 (is_Some None)) by (by intros [? [=]]). cbn [negb].
  pose proof (me_new (env := env) (files := files) (manifest vs) w) as Hnew. pose proof (new_ok (env := base_env env) (files := files) (manifest vs) w) as Hn1.
  pose proof (new_frame (env := base_env env) (files := files) (manifest vs) w) as Hn2. destruct (NewWritableFile (base_env env) (manifest vs) w) as [s0 w0]. cbn [fst snd] in Hnew, Hn1, Hn2. rewrite Hnew.
  destruct (add_record_ok env files (manifest vs) snap 0 w0 [] (Hn1 Hnew) H0) as (w1 & EW1 & Hf1 & Hfr1). unfold WriteSnapshot. fold snap. rewrite EW1.
  assert (Ho1 : 0 <= layout_end 0 (record_cut 0 snap) <= kBlockSize) by (by apply layout_end_range, record_cut_ok).
  destruct (add_record_ok env files (manifest vs) (EncodeTo e' []) _ w1 _ Hf1 Ho1) as (w2 & EW2 & Hf2 & Hfr2). rewrite EW2.
  pose proof (me_sync (env := env) (files := files) (manifest vs) w2) as Hsync. pose proof (sync_files (env := base_env env) (files := files) (manifest vs) w2) as Hsf.
  destruct (File_Sync (base_env env) (manifest vs) w2) as [s3 w3]. simpl in Hsync, Hsf. rewrite Hsync. cbn [andb].
  pose proof (SetCurrentFile_ok env files dbname (vs_manifest_file_number vs) w3) as Hc. pose proof (SetCurrentFile_spec (base_env env) files dbname (vs_manifest_file_number vs) w3 me_env) as Hcs.
  destruct (SetCurrentFile (base_env env) dbname (vs_manifest_file_number vs) w3) as [s4 w4]. simpl in Hc. rewrite Hc in Hcs |- *. destruct Hcs as [Hcur4 Hfr4].
  set (o' := layout_end _ (record_cut _ (EncodeTo e' []))) in *.
  destruct (install_ok base [] vs e' base r v' (Some o') cp HS HE' Hlive Hr Hs' Hl' Hcp) as (vl & -> & HS' & Hcur). cbn [mbind option_bind].
  exists e', (install vl e' (with_manifest (Some o') cp vs)), w4, cp. split; [done|]. split; [done|]. split; [done|].
  assert (Hcut : log_cut 0 [snap; EncodeTo e' []] = record_cut 0 snap ++ record_cut (layout_end 0 (record_cut 0 snap)) (EncodeTo e' [])).
  { cbn [log_cut]. by rewrite app_nil_r. }
  split; [|exact Hpt]. split; cbn [install with_manifest descriptor_log_ vs_manifest_file_number compact_pointer_ fmap list_fmap]; fold snap; rewrite ?Hcut, ?layout_end_app, ?layout_app.
  - done.
  - done.
  - rewrite Hfr4, Hsf, Hf2 by done. done.
  - done.
  - intros l Hl. destruct (lookup_lt_is_Some_2 cp (Z.to_nat l)) as [k Hk]; [destruct Hcp as [Hlen _]; unfold level_ok, zlen in *; lia|].
    change [snapshot base cp; e'] with ([snapshot base cp] ++ [e']). rewrite pointer_at_app, (snapshot_pointer comparator_name base cp l k) by done.
    rewrite Hk. f_equal. rewrite Hpt in Hk by done. destruct (compact_pointer_ vs !! Z.to_nat l); [|done]. cbn [fmap option_fmap option_map] in Hk. apply (inj Some) in Hk. by rewrite <- Hk, pointer_at_idem.
  - exists e'. split; [done|]. split; cbn [install with_manifest vs_log_number vs_prev_log_number vs_next_file_number vs_last_sequence]; [done|done|done|lia|lia].
Qed.

(** ** Recovery *)

Definition noted (es : list VersionEdit) (st : RecoverState) (b : Builder) (cp : list bytes) : RecoverState :=
  {| r_log_number := foldl (λ o e, note (has_log_number_ e) (log_number_ e) o) (r_log_number st) es;
     r_prev_log_number := foldl (λ o e, note (has_prev_log_number_ e) (prev_log_number_ e) o) (r_prev_log_number st) es;
     r_next_file := foldl (λ o e, note (has_next_file_number_ e) (next_file_number_ e) o) (r_next_file st) es;
     r_last_sequence := foldl (λ o e, note (has_last_sequence_ e) (last_sequence_ e) o) (r_last_sequence st) es;
     r_builder := b; r_pointers := cp |}.

Lemma recover_record_ok e cp b st : EditOk e → EditKeys e → Apply user e (r_pointers st) (r_builder st) = Some (cp, b) →
  recover_record user comparator_name (EncodeTo e []) st = Some (OK, noted [e] st b cp).
Proof.
  intros He [_ _ Hk] HA. unfold recover_record. rewrite DecodeFrom_make by done. cbn [mbind option_bind Status_ok OK andb].
  assert (has_comparator_ e && negb (bool_decide (comparator_ e = comparator_name)) = false) as ->.
  { destruct (has_comparator_ e); [|done]. by rewrite bool_decide_eq_true_2 by auto. }
  cbn [Status_ok]. rewrite HA. done.
Qed.

Lemma noted_nil st : noted [] st (r_builder st) (r_pointers st) = st.
Proof. by destruct st. Qed.

(** Reading a manifest that may be cut short: the records read are the edits that are there
    in full. *)
Lemma recover_loop_ok es : ∀ fuel r o data tail st cp b, aligned r o data → reports r = [] → Forall EditOk es → Forall EditKeys es → Forall bytes_ok (records es) →
  data ++ tail = layout o (log_cut o (records es)) → (length data < fuel)%nat → ApplyAll user es (r_pointers st) (r_builder st) = Some (cp, b) →
  ∃ k cp' b', (k ≤ length es)%nat ∧ ApplyAll user (take k es) (r_pointers st) (r_builder st) = Some (cp', b') ∧
    recover_loop env user comparator_name fuel OK r st = Some (OK, noted (take k es) st b' cp') ∧
    ((k < length es)%nat → zlen data < zlen (layout o (log_cut o (records (take (Datatypes.S k) es))))).
Proof using Type.
  induction es as [|e es IH]; intros fuel r o data tail st cp b Hal Hrep He Hk Hrec Hd Hf HA; (destruct fuel as [|fuel]; [lia|]); cbn [recover_loop].
  - cbn [fmap list_fmap log_cut layout] in Hd. apply app_eq_nil in Hd as [-> ->]. destruct (ReadRecord_end r o Hal) as (r' & -> & Hr). unfold reported. cbn [Status_ok OK].
    rewrite Hr, Hrep. exists 0%nat, (r_pointers st), (r_builder st). cbn [take length]. rewrite noted_nil. split_and!; [done..|lia].
  - apply Forall_cons in He as [He Hes]. apply Forall_cons in Hk as [Hk Hks]. cbn [fmap list_fmap] in Hrec. apply Forall_cons in Hrec as [Hrec Hrecs].
    cbn [fmap list_fmap log_cut] in Hd. rewrite layout_app in Hd. cbn [ApplyAll] in HA.
    destruct (Apply user e (r_pointers st) (r_builder st)) as [[cp1 b1]|] eqn:EA; [|done]. cbn [mbind option_bind] in HA.
    destruct (ReadRecord_record r o (EncodeTo e []) data tail _ Hal Hrec Hd) as (res & r1 & -> & Hr1 & Hcase).
    pose proof (record_cut_nonempty o (EncodeTo e [])) as H7. unfold reported. cbn [Status_ok OK]. rewrite Hr1, Hrep.
    destruct Hcase as [(data' & -> & Hdata & Hal' & Hmore)|[-> Hlt]].
    + cbn [Status_ok OK]. rewrite (recover_record_ok e cp1 b1 st He Hk EA). cbn [mbind option_bind].
      destruct (IH fuel r1 _ data' tail (noted [e] st b1 cp1) cp b Hal') as (k & cp' & b' & Hle & HA' & E & Hlt); [by rewrite Hr1|done..| |done|].
      { rewrite Hdata, length_app in Hf. unfold zlen in H7. lia. }
      exists (Datatypes.S k), cp', b'. cbn [take length ApplyAll]. rewrite EA. cbn [mbind option_bind]. split_and!; [lia|exact HA'|exact E|].
      intros Hk'. cbn [fmap list_fmap log_cut]. rewrite layout_app, Hdata, !zlen_app. apply Z.add_lt_mono_l, Hlt. lia.
    + exists 0%nat, (r_pointers st), (r_builder st). cbn [take length]. rewrite noted_nil. split_and!; [lia|done..|].
      intros _. cbn [fmap list_fmap log_cut]. by rewrite app_nil_r.
Qed.

Lemma noted_last {B} (f : VersionEdit → bool) (g : VersionEdit → B) es e o : last es = Some e → f e = true →
  foldl (λ o e, if f e then Some (g e) else o) o es = Some (g e).
Proof. intros [es' ->]%last_Some Hf. rewrite foldl_app. cbn [foldl]. by rewrite Hf. Qed.

(** The state after recovering from the edits [es], the last of them [e]; [sp] are the
    compaction pointers before the first. *)
Record RecoveredAt (base : Version) (sp : list bytes) (es : list VersionEdit) (e : VersionEdit) (vs' : VersionSet) : Prop := {
  ra_files : ∃ v', current (versions_ vs') = Some v' ∧ VersionSorted v' ∧ ∀ l, level_ok l → level_files v' l ≡ₚ edit_levels l (level_files base l) es;
  ra_pointers : ∀ l, level_ok l → compact_pointer_ vs' !! Z.to_nat l = pointer_at es l <$> sp !! Z.to_nat l;
  ra_log : vs_log_number vs' = log_number_ e ∧ vs_prev_log_number vs' = prev_log_number_ e;
  ra_numbers : vs_manifest_file_number vs' = next_file_number_ e ∧ vs_next_file_number vs' = u64 (next_file_number_ e + 1);
  ra_sequence : vs_last_sequence vs' = last_sequence_ e;
}.

Definition has_numbers (e : VersionEdit) : Prop :=
  has_log_number_ e = true ∧ has_prev_log_number_ e = true ∧ has_next_file_number_ e = true ∧ has_last_sequence_ e = true.

(** The edits written so far, each of which left a well-formed version. *)
Record History (base : Version) (sp cp0 : list bytes) (es : list VersionEdit) : Prop := {
  hi_base : VersionSorted base ∧ VersionFits valid base;
  hi_edits : Forall EditOk es ∧ Forall EditKeys es;
  hi_fresh : NumbersFresh base es;
  hi_has : Forall has_numbers es;
  hi_apart k l : (0 < k)%nat → 0 < l < kNumLevels → Apart (edit_levels l (level_files base l) (take k es));
  hi_cp0 : PointersFit valid cp0;
  hi_pointers k l : (0 < k)%nat → level_ok l → Some (pointer_at (snapshot base cp0 :: take k es) l []) = pointer_at (take k es) l <$> sp !! Z.to_nat l;
}.

Lemma log_prefix (a b : list VersionEdit) : ∀ o, ∃ c, layout o (log_cut o (records (a ++ b))) = layout o (log_cut o (records a)) ++ c.
Proof using Type.
  induction a as [|e a IH]; intros o; cbn [app fmap list_fmap log_cut]; [by eexists|]. destruct (IH (layout_end o (record_cut o (EncodeTo e [])))) as [c E].
  exists c. by rewrite !layout_app, E, app_assoc.
Qed.

Lemma log_prefix_le es i j : (i ≤ j)%nat → zlen (layout 0 (log_cut 0 (records (take i es)))) <= zlen (layout 0 (log_cut 0 (records (take j es)))).
Proof using Type.
  intros Hij. rewrite <- (take_drop i (take j es)), take_take, Nat.min_l by done.
  destruct (log_prefix (take i es) (drop i (take j es)) 0) as [c ->]. rewrite zlen_app. pose proof (zlen_nonneg c). lia.
Qed.

Lemma level_files_empty l : level_ok l → level_files Version_empty l = [].
Proof.
  intros Hl. unfold level_files, Version_empty. cbn [files_]. destruct (replicate (Z.to_nat kNumLevels) [] !! Z.to_nat l) eqn:E; [|done].
  by apply lookup_replicate in E as [-> _].
Qed.

Lemma snapshot_levels base cp es l : VersionFits valid base → level_ok l →
  all_added l (snapshot base cp :: es) = level_files base l ++ all_added l es ∧
  edit_levels l [] (snapshot base cp :: es) = edit_levels l (level_files base l) es.
Proof.
  intros [_ Hf] Hl. destruct (snapshot_level comparator_name base cp l Hl) as [H1 H2]; [intros f Hin; by apply (Hf l f Hl)|].
  unfold all_added, edit_levels. cbn [fmap list_fmap mjoin list_join foldl]. by rewrite H1, H2.
Qed.

Lemma start_append v : ∃ vl, AppendVersion v (versions_ VersionSet_make) = Some vl ∧ current vl = Some v.
Proof.
  unfold AppendVersion, Version_Unref. cbn [VersionSet_make versions_ live_ current_id next_id]. rewrite lookup_singleton_eq. cbn [mbind option_bind].
  eexists. split; [done|]. unfold current. cbn [live_ current_id]. by rewrite lookup_insert_eq.
Qed.

Lemma start_current : current (versions_ VersionSet_make) = Some Version_empty.
Proof. unfold current. cbn [VersionSet_make versions_ live_ current_id]. by rewrite lookup_singleton_eq. Qed.

(** What recovery knows before the first record. *)
Definition recover_start : RecoverState :=
  {| r_log_number := None; r_prev_log_number := None; r_next_file := None; r_last_sequence := None;
     r_builder := Builder_make Version_empty; r_pointers := compact_pointer_ VersionSet_make |}.

Lemma finish_recovery_ok st v log prev next seq : SaveTo user (r_builder st) = Some v →
  r_log_number st = Some log → r_prev_log_number st = Some prev → r_next_file st = Some next → r_last_sequence st = Some seq →
  ∃ vl, current vl = Some v ∧ finish_recovery user OK st VersionSet_make =
    Some (OK, {| vs_next_file_number := u64 (next + 1); vs_manifest_file_number := next; vs_last_sequence := seq; vs_log_number := log;
                 vs_prev_log_number := prev; descriptor_log_ := None; versions_ := vl; compact_pointer_ := r_pointers st |}).
Proof using Type.
  intros ES H1 H2 H3 H4. destruct (start_append v) as (vl & EV & Hvl). exists vl. split; [done|].
  assert (Hver : ∀ n x, versions_ (MarkFileNumberUsed n x) = versions_ x ∧ compact_pointer_ (MarkFileNumberUsed n x) = compact_pointer_ x ∧
    descriptor_log_ (MarkFileNumberUsed n x) = descriptor_log_ x).
  { intros n x. unfold MarkFileNumberUsed. by case_match. }
  unfold finish_recovery. rewrite H1, H2, H3, H4, ES. cbn [Status_ok OK negb default from_option mbind option_bind id].
  destruct (Hver log (MarkFileNumberUsed prev (with_manifest (descriptor_log_ VersionSet_make) (r_pointers st) VersionSet_make))) as (-> & -> & ->).
  destruct (Hver prev (with_manifest (descriptor_log_ VersionSet_make) (r_pointers st) VersionSet_make)) as (-> & -> & ->).
  cbn [with_manifest versions_ compact_pointer_ descriptor_log_]. rewrite EV. reflexivity.
Qed.

Lemma current_contents n : let cur := str "MANIFEST-" ++ zero_pad 6 (dec n) ++ [10] in
  last cur = Some 10 ∧ dbname ++ str "/" ++ take (length cur - 1) cur = DescriptorFileName dbname n.
Proof using Type.
  cbv zeta. rewrite app_assoc. split; [by rewrite last_snoc|]. rewrite length_app, Nat.add_sub, take_app_length.
  assert (Hs : str "/" ++ str "MANIFEST-" = str "/MANIFEST-") by reflexivity. unfold DescriptorFileName. rewrite <- Hs.
  generalize (str "/"), (str "MANIFEST-"), (zero_pad 6 (dec n)). intros s t u. by rewrite <- app_assoc.
Qed.

Lemma Recover_eq n f st w : files w !! CurrentFileName dbname = Some (str "MANIFEST-" ++ zero_pad 6 (dec n) ++ [10]) →
  NewSequentialFile env (DescriptorFileName dbname n) w = (OK, f) →
  st = {| r_log_number := None; r_prev_log_number := None; r_next_file := None; r_last_sequence := None;
          r_builder := Builder_make Version_empty; r_pointers := compact_pointer_ VersionSet_make |} →
  Recover env user comparator_name dbname VersionSet_make w =
    '(s, st) ← recover_loop env user comparator_name (Datatypes.S (Datatypes.S (length (sf_rest f)))) OK (Reader_make f true true 0) st;
    finish_recovery user s st VersionSet_make.
Proof using All.
  intros Hc Hd ->. destruct (current_contents n) as [Hl Hn]. unfold Recover. rewrite (ReadFileToString_ok env files _ w _ Hc).
  set (cur := str "MANIFEST-" ++ _) in *. clearbody cur. cbn [mbind option_bind Status_ok OK negb]. rewrite Hl.
  rewrite bool_decide_eq_true_2 by reflexivity. cbn [negb]. rewrite Hn, Hd. cbn [Status_ok OK negb]. rewrite start_current. reflexivity.
Qed.

Lemma History_take base sp cp0 es k : History base sp cp0 es → (0 < k)%nat → History base sp cp0 (take k es).
Proof using Type.
  intros [H1 [H2 H2'] H3 H4 H5 H6 H7] Hk. split; [done|split; by apply Forall_take| |by apply Forall_take| |done|].
  - intros l Hl. specialize (H3 l Hl). rewrite <- (take_drop k es), all_added_app, app_assoc, fmap_app in H3. by apply NoDup_app in H3 as [? _].
  - intros j l Hj Hl. rewrite take_take. apply H5; [lia|done].
  - intros j l Hj Hl. rewrite take_take. apply H7; [lia|done].
Qed.

(** The version recovery builds from the snapshot and the edits. *)
Lemma rebuild_ok base sp cp0 es : History base sp cp0 es → es ≠ [] →
  ∃ cp b v', ApplyAll user (snapshot base cp0 :: es) (compact_pointer_ VersionSet_make) (Builder_make Version_empty) = Some (cp, b) ∧
    SaveTo user b = Some v' ∧ VersionSorted v' ∧ (∀ l, level_ok l → level_files v' l ≡ₚ edit_levels l (level_files base l) es) ∧
    ∀ l, level_ok l → cp !! Z.to_nat l = pointer_at es l <$> sp !! Z.to_nat l.
Proof using All.
  intros [[Hbs Hfits] [He1 He2] Hfr Hhas Hap Hcp0 Hpt] Hne. set (all := snapshot base cp0 :: es) in *.
  destruct (snapshot_edit_ok valid comparator_name Hname base cp0 Hfits Hcp0) as [Sok Skeys].
  assert (Hok : Forall EditOk all) by (by constructor). assert (Hkeys : Forall EditKeys all) by (by constructor).
  assert (Hfresh : NumbersFresh Version_empty all).
  { intros l Hl. rewrite level_files_empty by done. unfold all. rewrite (proj1 (snapshot_levels base cp0 es l Hfits Hl)). by apply Hfr. }
  assert (Hempty : VersionSorted Version_empty).
  { split; [done|]. intros l Hl. rewrite level_files_empty by done. split; constructor. }
  assert (Hlen : (0 < length es)%nat) by (destruct es; [done|simpl; lia]).
  destruct (ApplyAll_ok (valid := valid) (user := user) all (compact_pointer_ VersionSet_make) (Builder_make Version_empty) Version_empty []) as (cp & b & EA & Hbi & Hcp' & Hp');
    [apply Builder_make_inv|done|done|done| |].
  { eapply Forall_impl; [exact Hkeys|]. intros x [K _ _]. eapply Forall_impl; [exact K|]. by intros p [? _]. }
  destruct (SaveTo_ok b Version_empty all Hbi Hempty Hfresh) as (v' & ES & Hs' & Hl').
  { intros l Hl. rewrite level_files_empty by (unfold level_ok; lia). unfold all.
    rewrite (proj2 (snapshot_levels base cp0 es l Hfits ltac:(unfold level_ok; lia))). specialize (Hap (length es) l Hlen Hl). by rewrite firstn_all in Hap. }
  exists cp, b, v'. split_and!; [done..| |].
  - intros l Hl. rewrite (proj1 (Hl' l Hl)), level_files_empty by done. unfold all. by rewrite (proj2 (snapshot_levels base cp0 es l Hfits Hl)).
  - intros l Hl. specialize (Hpt (length es) l Hlen Hl). rewrite firstn_all in Hpt. rewrite <- Hpt, Hp' by done. cbn [VersionSet_make compact_pointer_].
    rewrite lookup_replicate_2 by (unfold level_ok, kNumLevels in *; lia). done.
Qed.

(** Recovery from a manifest cut after at least [k0] edits. *)
Lemma Recover_prefix base sp cp0 es k0 n data tail w : History base sp cp0 es → (0 < k0 ≤ length es)%nat →
  files w !! CurrentFileName dbname = Some (str "MANIFEST-" ++ zero_pad 6 (dec n) ++ [10]) → files w !! DescriptorFileName dbname n = Some data →
  data ++ tail = layout 0 (log_cut 0 (records (snapshot base cp0 :: es))) →
  zlen (layout 0 (log_cut 0 (records (snapshot base cp0 :: take k0 es)))) <= zlen data →
  ∃ k vs' e, (k0 ≤ k ≤ length es)%nat ∧ last (take k es) = Some e ∧ Recover env user comparator_name dbname VersionSet_make w = Some (OK, vs') ∧
    RecoveredAt base sp (take k es) e vs' ∧ (tail = [] → k = length es).
Proof using All.
  intros HH Hk0 Hcur Hfile Hdata Hlen. pose proof HH as [[Hbs Hfits] [He1 He2] Hfr Hhas Hap Hcp0 Hpt]. set (all := snapshot base cp0 :: es) in *.
  destruct (snapshot_edit_ok valid comparator_name Hname base cp0 Hfits Hcp0) as [Sok Skeys].
  assert (Hok : Forall EditOk all) by (by constructor). assert (Hkeys : Forall EditKeys all) by (by constructor).
  pose proof (records_ok base cp0 es Hfits Hcp0 He1 He2) as Hrec. fold all in Hrec.
  destruct (rebuild_ok base sp cp0 es HH) as (cp & b & _ & EA & _); [intros ->; simpl in *; lia|].
  destruct (recover_loop_ok all (Datatypes.S (Datatypes.S (length data))) (Reader_make {| sf_rest := data; sf_error := false |} true true 0) kBlockSize data tail recover_start cp b)
    as (k & cp' & b' & Hle & EA' & EL & Hcut); [by apply (aligned_make {| sf_rest := data; sf_error := false |})|done|done|done|done|by rewrite log_cut_start|lia|exact EA|].
  assert (Hk : (k0 < k)%nat).
  { destruct (decide (k0 < k)%nat) as [|Hn]; [done|]. exfalso. specialize (Hcut ltac:(unfold all; simpl; lia)). rewrite log_cut_start in Hcut.
    pose proof (log_prefix_le all (Datatypes.S k) (Datatypes.S k0) ltac:(lia)) as Hmono. change (take (Datatypes.S k0) all) with (snapshot base cp0 :: take k0 es) in Hmono. lia. }
  destruct k as [|k]; [lia|]. change (take (Datatypes.S k) all) with (snapshot base cp0 :: take k es) in EA', EL.
  change (length all) with (Datatypes.S (length es)) in Hle, Hcut.
  assert (Hne : take k es ≠ []) by (intros E%(f_equal length); rewrite length_take in E; simpl in E; lia).
  destruct (rebuild_ok base sp cp0 (take k es)) as (cp1 & b1 & v' & EA1 & ES & Hs' & Hl' & Hp'); [by apply History_take; [|lia]|done|].
  assert ((cp1, b1) = (cp', b')) as [= -> ->] by (apply (inj Some); exact (eq_trans (eq_sym EA1) EA')).
  destruct (proj2 (last_is_Some (take k es)) Hne) as [e He].
  assert (Hlast : last (snapshot base cp0 :: take k es) = Some e) by (destruct (take k es); [done|exact He]).
  assert (P : has_numbers e).
  { rewrite Forall_forall in Hhas. apply Hhas. apply last_Some_elem_of in He. by apply elem_of_take in He as (i & Hi & _); apply list_elem_of_lookup_2 in Hi. }
  destruct P as (P1 & P2 & P3 & P4).
  destruct (finish_recovery_ok (noted (snapshot base cp0 :: take k es) recover_start b' cp') v' (log_number_ e) (prev_log_number_ e) (next_file_number_ e) (last_sequence_ e)) as (vl & Hvl & EF);
    [exact ES|by apply noted_last..|].
  exists k. eexists _, e. split; [lia|]. split; [done|]. split; [|split].
  - rewrite (Recover_eq _ _ recover_start w Hcur (me_read (env := env) (files := files) _ w _ Hfile)) by reflexivity. cbn [sf_rest]. rewrite EL. cbn [mbind option_bind]. exact EF.
  - split; cbn [versions_ compact_pointer_ vs_log_number vs_prev_log_number vs_manifest_file_number vs_next_file_number vs_last_sequence noted r_pointers]; [|done..].
    by exists v'.
  - intros ->. rewrite app_nil_r in Hdata. destruct (decide (k = length es)) as [|Hn]; [done|]. exfalso. specialize (Hcut ltac:(lia)).
    rewrite log_cut_start, Hdata in Hcut. pose proof (log_prefix_le all (Datatypes.S (Datatypes.S k)) (length all) ltac:(unfold all; simpl; lia)) as Hmono.
    rewrite firstn_all in Hmono. lia.
Qed.

(** ** Executions *)

Abbreviation state := (VersionSet * W * list VersionEdit)%type.

(** The database at work: it logs edits, takes and marks file numbers, advances the sequence
    number, and writes files other than the manifest and the pointer to it.  The last part of
    the state lists the edits written. *)
Inductive Step (base : Version) : state → state → Prop :=
| step_edit vs w es e e' vs' w' : EditFits base es e → LogFits vs e →
    LogAndApply env files user comparator_name dbname e vs w = Some (true, e', vs', w') → Step base (vs, w, es) (vs', w', es ++ [e'])
| step_number vs w es : vs_next_file_number vs + 1 < 2 ^ 64 → Step base (vs, w, es) ((NewFileNumber vs).2, w, es)
| step_mark n vs w es : 0 <= n → n + 1 < 2 ^ 64 → Step base (vs, w, es) (MarkFileNumberUsed n vs, w, es)
| step_sequence s vs vs' w es : is_u 64 s → VersionSet_SetLastSequence s vs = Some vs' → Step base (vs, w, es) (vs', w, es)
| step_world vs w w' es : files w' !! manifest vs = files w !! manifest vs →
    files w' !! CurrentFileName dbname = files w !! CurrentFileName dbname → Step base (vs, w, es) (vs, w', es).

(** A version set about to start a manifest: after [Recover], or for a new database. *)
Record Start (base : Version) (vs : VersionSet) : Prop := {
  st_set : SetInv base [] vs;
  st_closed : descriptor_log_ vs = None;
  st_current : current (versions_ vs) = Some base;
}.

(** Before and after the first edit. *)
Record Unwritten (base : Version) (sp : list bytes) (s : state) : Prop := {
  un_start : Start base s.1.1;
  un_edits : s.2 = [];
  un_pointers : compact_pointer_ s.1.1 = sp;
}.
Record Written (base : Version) (sp cp0 : list bytes) (s : state) : Prop := {
  wr_set : SetInv base s.2 s.1.1;
  wr_manifest : ManifestInv base cp0 s.2 s.1.1 s.1.2;
  wr_history : History base sp cp0 s.2;
}.

(** Changing the counters upwards keeps both. *)
Lemma SetInv_counters base es vs next seq : SetInv base es vs → is_u 64 next → is_u 64 seq →
  SetInv base es {| vs_next_file_number := next; vs_manifest_file_number := vs_manifest_file_number vs; vs_last_sequence := seq;
                    vs_log_number := vs_log_number vs; vs_prev_log_number := vs_prev_log_number vs; descriptor_log_ := descriptor_log_ vs;
                    versions_ := versions_ vs; compact_pointer_ := compact_pointer_ vs |}.
Proof using Type. intros [H1 H2 H3 H4 (N1 & N2 & N3 & N4 & N5) H6] ? ?. by split. Qed.

Lemma counters_ok base sp cp0 vs w es next seq : vs_next_file_number vs <= next → vs_last_sequence vs <= seq → is_u 64 next → is_u 64 seq →
  let vs' := {| vs_next_file_number := next; vs_manifest_file_number := vs_manifest_file_number vs; vs_last_sequence := seq;
                vs_log_number := vs_log_number vs; vs_prev_log_number := vs_prev_log_number vs; descriptor_log_ := descriptor_log_ vs;
                versions_ := versions_ vs; compact_pointer_ := compact_pointer_ vs |} in
  (Unwritten base sp (vs, w, es) → Unwritten base sp (vs', w, es)) ∧ (Written base sp cp0 (vs, w, es) → Written base sp cp0 (vs', w, es)).
Proof using Type.
  intros Hn Hs Hn' Hs'. split.
  - intros [[H1 H2 H3] H4 H5]. split; [split|done|done]; [|done|done]. by apply SetInv_counters.
  - intros [H1 [M1 M2 M3 M4 M5 (e & Hl & [S0 S1 S2 S3 S4])] H3]. split; [by apply SetInv_counters| |done]. split; [done..|].
    exists e. split; [done|]. cbn [fst snd] in *. split; cbn [vs_log_number vs_prev_log_number vs_next_file_number vs_last_sequence]; [done|done|done|lia|lia].
Qed.

Lemma EditFits_apart base es e e' l : EditFits base es e → same_lists e e' → 0 < l < kNumLevels → Apart (edit_levels l (level_files base l) (es ++ [e'])).
Proof using Type.
  intros [_ _ _ HA] Hs Hl. specialize (HA l Hl). rewrite edit_levels_snoc in HA |- *. by rewrite <- (proj2 (same_lists_level l _ e e' Hs)).
Qed.

Lemma History_snoc base sp cp0 es e : History base sp cp0 es → es ≠ [] → EditOk e → EditKeys e → NumbersFresh base (es ++ [e]) → has_numbers e →
  (∀ l, 0 < l < kNumLevels → Apart (edit_levels l (level_files base l) (es ++ [e]))) → History base sp cp0 (es ++ [e]).
Proof using Type.
  intros [H1 [H2 H2'] H3 H4 H5 H6 H7] Hne He Hk Hf Hh Ha. assert (Hlen : (0 < length es)%nat) by (destruct es; [done|simpl; lia]).
  assert (Hcase : ∀ k, (k ≤ length es)%nat ∧ take k (es ++ [e]) = take k es ∨ take k (es ++ [e]) = es ++ [e]).
  { intros k. destruct (decide (k ≤ length es)%nat) as [Hle|Hgt].
    - left. split; [done|]. rewrite take_app. replace (k - length es)%nat with 0%nat by lia. cbn [take]. by rewrite app_nil_r.
    - right. apply take_ge. rewrite length_app. simpl. lia. }
  split; [done|split; apply Forall_app; split; [done|by apply Forall_singleton|done|by apply Forall_singleton]|done| | |done|].
  - apply Forall_app. split; [done|by apply Forall_singleton].
  - intros k l Hk0 Hl. destruct (Hcase k) as [[_ ->]| ->]; [by apply H5|by apply Ha].
  - intros k l Hk0 Hl. destruct (Hcase k) as [[_ ->]| ->]; [by apply H7|]. rewrite app_comm_cons.
    specialize (H7 (length es) l Hlen Hl). rewrite firstn_all in H7. destruct (sp !! Z.to_nat l) as [k0|]; [|done].
    cbn [fmap option_fmap option_map] in H7 |- *. apply (inj Some) in H7. by rewrite !pointer_at_app, H7.
Qed.

Lemma History_first base sp cp0 e vs w : SetInv base [e] vs → ManifestInv base cp0 [e] vs w →
  (∀ l, 0 < l < kNumLevels → Apart (edit_levels l (level_files base l) [e])) →
  (∀ l, level_ok l → compact_pointer_ vs !! Z.to_nat l = pointer_at [e] l <$> sp !! Z.to_nat l) → History base sp cp0 [e].
Proof using Type.
  intros [H1 H2 H3 _ _ _] [M1 M2 M3 M4 M5 (x & [= <-] & [S1 _ _ _ _])] Ha Hp.
  assert (Ht : ∀ k, (0 < k)%nat → take k [e] = [e]) by (intros k Hk; apply take_ge; simpl; lia).
  split; [done|done|done|by apply Forall_singleton| |done|].
  - intros k l Hk Hl. rewrite Ht by done. by apply Ha.
  - intros k l Hk Hl. rewrite Ht by done. by rewrite <- M5, Hp.
Qed.

(** A step of a version set that has written its first edit. *)
Lemma Step_written base sp cp0 s s' : Step base s s' → Written base sp cp0 s →
  Written base sp cp0 s' ∧ s.2 `prefix_of` s'.2 ∧ vs_manifest_file_number s'.1.1 = vs_manifest_file_number s.1.1.
Proof using All.
  intros [vs w es e e' vs' w' HE HL E|vs w es Hn|n vs w es Hn Hn'|q vs vs' w es Hq E|vs w w' es Hm Hc] HW; cbn [fst snd].
  - destruct HW as [H1 H2 H3]. destruct (LogAndApply_open base cp0 es vs w e H1 H2 HE HL) as (e1 & vs1 & w1 & E1 & Hsame & HS & HM & Hnum).
    rewrite E in E1. injection E1 as <- <- <-. split; [|split; [by eexists|done]]. split; [done|done|]. cbn [fst snd] in *.
    destruct HM as [_ _ _ _ _ (x & Hx & [Hh _ _ _ _])]. rewrite last_snoc in Hx. injection Hx as <-.
    destruct HS as [_ [Ho Hk] Hf _ _ _]. apply Forall_app in Ho as [_ [Ho _]%Forall_cons]. apply Forall_app in Hk as [_ [Hk _]%Forall_cons].
    assert (Hne : es ≠ []) by (destruct H2 as [_ _ _ _ _ (x & Hx & _)]; by intros ->).
    apply History_snoc; [done|done|done|done|done|done|]. intros l Hl. by apply (EditFits_apart base es e).
  - split; [|done]. destruct (si_numbers _ _ _ (wr_set _ _ _ _ HW)) as (N1 & N2 & _). cbn [fst snd] in *.
    unfold NewFileNumber. cbn [snd]. rewrite u64_small by (unfold is_u in *; lia).
    by apply (counters_ok base sp cp0 vs w es (vs_next_file_number vs + 1) (vs_last_sequence vs)); [lia|lia|unfold is_u in *; lia|done|].
  - unfold MarkFileNumberUsed. case_match; [|done]. split; [|done]. destruct (si_numbers _ _ _ (wr_set _ _ _ _ HW)) as (N1 & N2 & _). cbn [fst snd] in *.
    unfold with_next_file. rewrite u64_small by (unfold is_u in *; lia).
    by apply (counters_ok base sp cp0 vs w es (n + 1) (vs_last_sequence vs)); [lia|lia|unfold is_u in *; lia|done|].
  - unfold VersionSet_SetLastSequence in E. destruct (q <? vs_last_sequence vs) eqn:Eq; [done|]. injection E as <-. split; [|done].
    destruct (si_numbers _ _ _ (wr_set _ _ _ _ HW)) as (N1 & N2 & _). cbn [fst snd] in *.
    by apply (counters_ok base sp cp0 vs w es (vs_next_file_number vs) q); [lia|lia|done|done|].
  - split; [|done]. destruct HW as [H1 [M1 M2 M3 M4 M5 M6] H3]. split; [done| |done]. cbn [fst snd] in *. split; [done|done|by rewrite Hm|by rewrite Hc|done|done].
Qed.

Lemma Step_unwritten base sp s s' : Step base s s' → Unwritten base sp s → Unwritten base sp s' ∨ ∃ cp0, Written base sp cp0 s'.
Proof using All.
  intros [vs w es e e' vs' w' HE HL E|vs w es Hn|n vs w es Hn Hn'|q vs vs' w es Hq E|vs w w' es Hm Hc] HW.
  - right. destruct HW as [[H1 H2 H3] Hes Hp]. cbn [fst snd] in *. subst es.
    destruct (LogAndApply_closed base vs w e H1 H2 H3 HE HL) as (e1 & vs1 & w1 & cp0 & E1 & Hsame & HS & HM & Hpt).
    rewrite E in E1. injection E1 as <- <- <-. exists cp0. split; [done|done|]. cbn [fst snd app].
    apply (History_first base sp cp0 e' vs' w' HS HM); [by intros l Hl; apply (EditFits_apart base [] e)|]. by rewrite <- Hp.
  - left. destruct (si_numbers _ _ _ (st_set _ _ (un_start _ _ _ HW))) as (N1 & N2 & _). cbn [fst snd] in *.
    unfold NewFileNumber. cbn [snd]. rewrite u64_small by (unfold is_u in *; lia).
    by apply (counters_ok base sp [] vs w es (vs_next_file_number vs + 1) (vs_last_sequence vs)); [lia|lia|unfold is_u in *; lia|done|].
  - left. unfold MarkFileNumberUsed. case_match; [|done]. destruct (si_numbers _ _ _ (st_set _ _ (un_start _ _ _ HW))) as (N1 & N2 & _). cbn [fst snd] in *.
    unfold with_next_file. rewrite u64_small by (unfold is_u in *; lia).
    by apply (counters_ok base sp [] vs w es (n + 1) (vs_last_sequence vs)); [lia|lia|unfold is_u in *; lia|done|].
  - left. unfold VersionSet_SetLastSequence in E. destruct (q <? vs_last_sequence vs) eqn:Eq; [done|]. injection E as <-.
    destruct (si_numbers _ _ _ (st_set _ _ (un_start _ _ _ HW))) as (N1 & N2 & _). cbn [fst snd] in *.
    by apply (counters_ok base sp [] vs w es (vs_next_file_number vs) q); [lia|lia|done|done|].
  - left. by destruct HW.
Qed.

Lemma Steps_written base sp cp0 s s' : rtc (Step base) s s' → Written base sp cp0 s →
  Written base sp cp0 s' ∧ s.2 `prefix_of` s'.2 ∧ vs_manifest_file_number s'.1.1 = vs_manifest_file_number s.1.1.
Proof using All.
  induction 1 as [s|s s1 s' H1 _ IH]; intros HW; [done|]. destruct (Step_written base sp cp0 s s1 H1 HW) as (HW1 & Hp1 & Hn1).
  destruct (IH HW1) as (HW' & Hp' & Hn'). split; [done|]. split; [by etransitivity|by rewrite Hn'].
Qed.

Lemma Steps_reach base sp s s' : rtc (Step base) s s' → Unwritten base sp s → Unwritten base sp s' ∨ ∃ cp0, Written base sp cp0 s'.
Proof using All.
  induction 1 as [s|s s1 s' H1 H2 IH]; intros HU0; [by left|]. destruct (Step_unwritten base sp s s1 H1 HU0) as [HU1|[cp0 HW]]; [by apply IH|].
  right. exists cp0. by apply (Steps_written base sp cp0 s1).
Qed.

(** The state after recovery, compared with the one that wrote the manifest. *)
Record Recovered (vs vs' : VersionSet) (e : VersionEdit) : Prop := {
  rc_files : ∃ v v', current (versions_ vs) = Some v ∧ current (versions_ vs') = Some v' ∧ ∀ l, level_ok l → level_files v' l = level_files v l;
  rc_pointers : ∀ l, level_ok l → compact_pointer_ vs' !! Z.to_nat l = compact_pointer_ vs !! Z.to_nat l;
  rc_log : vs_log_number vs' = vs_log_number vs ∧ vs_prev_log_number vs' = vs_prev_log_number vs;
  rc_numbers : vs_manifest_file_number vs' = next_file_number_ e ∧ vs_next_file_number vs' = u64 (next_file_number_ e + 1);
  rc_sequence : vs_last_sequence vs' = last_sequence_ e ∧ last_sequence_ e <= vs_last_sequence vs;
}.

Lemma Written_progress base sp cp0 vs w es e : Written base sp cp0 (vs, w, es) → EditFits base es e → LogFits vs e →
  ∃ e' vs' w', LogAndApply env files user comparator_name dbname e vs w = Some (true, e', vs', w') ∧ same_lists e e'.
Proof using All.
  intros [H1 H2 _] HE HL. destruct (LogAndApply_open base cp0 es vs w e H1 H2 HE HL) as (e' & vs' & w' & ? & ? & _). by exists e', vs', w'.
Qed.

Lemma Unwritten_progress base sp vs w es e : Unwritten base sp (vs, w, es) → EditFits base es e → LogFits vs e →
  ∃ e' vs' w', LogAndApply env files user comparator_name dbname e vs w = Some (true, e', vs', w') ∧ same_lists e e'.
Proof using All.
  intros [[H1 H2 H3] Hes _] HE HL. cbn [fst snd] in *. subst es.
  destruct (LogAndApply_closed base vs w e H1 H2 H3 HE HL) as (e' & vs' & w' & ? & ? & ? & _). by exists e', vs', w'.
Qed.

Lemma Written_recovers base sp cp0 vs w es : Written base sp cp0 (vs, w, es) →
  ∃ vs' e, last es = Some e ∧ Recover env user comparator_name dbname VersionSet_make w = Some (OK, vs') ∧ Recovered vs vs' e.
Proof using All.
  intros [H1 [M1 M2 M3 M4 M5 (e & Hl & [S0 S1 S2 S3 S4])] H3]. cbn [fst snd] in *.
  assert (Hlen : (0 < length es)%nat) by (destruct es; [done|simpl; lia]).
  destruct (Recover_prefix base sp cp0 es (length es) (vs_manifest_file_number vs) _ [] w H3 ltac:(lia) M4 M3) as (k & vs' & x & Hk & Hx & E & [R1 R2 R3 R4 R5] & _);
    [by rewrite app_nil_r|by rewrite firstn_all|]. assert (k = length es) as -> by lia. rewrite firstn_all in *. rewrite Hl in Hx. injection Hx as <-.
  exists vs', e. split; [done|]. split; [done|]. destruct H1 as [_ _ _ (v & r & Hlive & Hr & Hvs & Hlv) _ _]. destruct R1 as (v' & Hv' & Hs' & Hl'). split.
  - exists v, v'. split; [unfold current; by rewrite Hlive|]. split; [done|]. intros l Hlev.
    apply (FilesSorted_unique (valid := valid) (user := user)); [by apply Hs'|by apply Hvs|]. by rewrite Hl', Hlv.
  - intros l Hlev. rewrite R2, M5 by done. destruct H3 as [_ _ _ _ _ _ H7]. specialize (H7 (length es) l Hlen Hlev). by rewrite firstn_all in H7.
  - by rewrite <- S1, <- S2.
  - done.
  - done.
Qed.
End Manifest.

(** ** Properties *)

(** [C15] The manifest: from a version set about to start a manifest, through any sequence of
    logged edits, file-number and sequence-number updates and writes to other files, in an
    environment whose operations succeed, [LogAndApply] never fails an assertion and reports
    success on every well-formed edit, and once an edit is logged, recovering a fresh version
    set from the files gives OK and the same files in every level, the same compaction
    pointers and log numbers, and the numbers of the last edit. *)
Theorem manifest_recovers {W : Type} (env : ManifestEnv W) (files : W → gmap bytes bytes) (valid : bytes → Prop) (user : Comparator)
    (comparator_name dbname : bytes) (base : Version) (vs0 vs : VersionSet) (w0 w : W) (es : list VersionEdit) :
  ManifestEnvOk env files → ComparatorOk valid user → bytes_ok comparator_name ∧ name_ok comparator_name →
  Start (valid := valid) (user := user) comparator_name base vs0 →
  rtc (Step env files (valid := valid) (user := user) comparator_name dbname base) (vs0, w0, []) (vs, w, es) →
  (∀ e, EditFits (valid := valid) (user := user) comparator_name base es e → LogFits vs e →
     ∃ e' vs' w', LogAndApply env files user comparator_name dbname e vs w = Some (true, e', vs', w') ∧ same_lists e e') ∧
  (es ≠ [] → ∃ vs' e, last es = Some e ∧ Recover env user comparator_name dbname VersionSet_make w = Some (OK, vs') ∧ Recovered vs vs' e).
Proof.
  intros HE HU Hname HS Hsteps. assert (Hun : Unwritten (valid := valid) (user := user) comparator_name base (compact_pointer_ vs0) (vs0, w0, [])) by done.
  destruct (Steps_reach env files comparator_name dbname Hname base _ _ _ Hsteps Hun) as [Hu|[cp0 HW]].
  - split; [intros e; by eapply Unwritten_progress|]. by destruct Hu as [_ Hnil _].
  - split; [intros e; by eapply Written_progress|]. intros _. by eapply Written_recovers.
Qed.

(** [C16] A crash while later edits are being logged: if the manifest that survives holds at
    least what it held at some earlier moment (every logged edit is synced), and is cut at any
    byte of what was written since, recovery still succeeds, and rebuilds exactly the state
    after the edits that survive in full, no earlier than that moment. *)
Theorem manifest_crash_safe {W : Type} (env : ManifestEnv W) (files : W → gmap bytes bytes) (valid : bytes → Prop) (user : Comparator)
    (comparator_name dbname : bytes) (base : Version) (vs0 vs1 vs2 : VersionSet) (w0 w1 w2 w : W) (es1 es2 : list VersionEdit) (synced data written : bytes) :
  ManifestEnvOk env files → ComparatorOk valid user → bytes_ok comparator_name ∧ name_ok comparator_name →
  Start (valid := valid) (user := user) comparator_name base vs0 →
  rtc (Step env files (valid := valid) (user := user) comparator_name dbname base) (vs0, w0, []) (vs1, w1, es1) → es1 ≠ [] →
  rtc (Step env files (valid := valid) (user := user) comparator_name dbname base) (vs1, w1, es1) (vs2, w2, es2) →
  files w1 !! DescriptorFileName dbname (vs_manifest_file_number vs1) = Some synced →
  files w2 !! DescriptorFileName dbname (vs_manifest_file_number vs2) = Some written →
  files w !! CurrentFileName dbname = files w2 !! CurrentFileName dbname →
  files w !! DescriptorFileName dbname (vs_manifest_file_number vs2) = Some data →
  synced `prefix_of` data → data `prefix_of` written →
  ∃ k vs' e, (length es1 ≤ k ≤ length es2)%nat ∧ last (take k es2) = Some e ∧ Recover env user comparator_name dbname VersionSet_make w = Some (OK, vs') ∧
    RecoveredAt (valid := valid) (user := user) base (compact_pointer_ vs0) (take k es2) e vs' ∧ (data = written → k = length es2).
Proof.
  intros HE HU Hname HS Hsteps Hne Hsteps2 Hf1 Hf2 Hcur Hdata [t1 ->] [t2 ->].
  assert (Hun : Unwritten (valid := valid) (user := user) comparator_name base (compact_pointer_ vs0) (vs0, w0, [])) by done.
  destruct (Steps_reach env files comparator_name dbname Hname base _ _ _ Hsteps Hun) as [[_ Hnil _]|[cp0 HW1]]; [done|].
  destruct (Steps_written env files comparator_name dbname Hname base _ cp0 _ _ Hsteps2 HW1) as (HW2 & [es' Hes] & Hnum).
  destruct HW1 as [_ [_ _ M1 _ _ _] _], HW2 as [_ [_ _ M2 M2' _ _] H3]. cbn [fst snd] in *. subst es2.
  rewrite Hf1 in M1. apply (inj Some) in M1. rewrite Hf2 in M2. apply (inj Some) in M2.
  destruct (Recover_prefix env files comparator_name dbname Hname base (compact_pointer_ vs0) cp0 (es1 ++ es') (length es1) (vs_manifest_file_number vs2) (synced ++ t1) t2 w H3) as (k & vs' & e & Hk & Hl & E & R & Hall);
    [destruct es1; [done|]; rewrite length_app; simpl; lia|by rewrite Hcur|exact Hdata|exact M2| |].
  { rewrite take_app_length, <- M1, zlen_app. pose proof (zlen_nonneg t1). lia. }
  exists k, vs', e. split_and!; [lia|lia|done..|]. intros Hd. apply Hall. apply (f_equal length) in Hd. rewrite !length_app in Hd. destruct t2; [done|]. simpl in Hd. lia.
Qed.

(** A file system that never fails. *)
Definition sample_env : ManifestEnv (gmap bytes bytes) := {|
  base_env := {|
    NewWritableFile f w := (OK, <[f := []]> w);
    File_Append f d w := (OK, <[f := default [] (w !! f) ++ d]> w);
    File_Sync f w := (OK, w);
    File_Close f w := (OK, w);
    Filename.DeleteFile f w := (OK, delete f w);
    RenameFile f t w := (OK, match w !! f with Some c => <[t := c]> (delete f w) | None => w end);
  |};
  File_Flush f w := (OK, w);
  NewSequentialFile f w := match w !! f with Some c => (OK, {| sf_rest := c; sf_error := false |}) | None => (NotFound f [], {| sf_rest := []; sf_error := false |}) end;
  read_error := IOError [] [];
|}.

#[local] Instance sample_env_ok : ManifestEnvOk sample_env id.
Proof.
  constructor; [constructor|..]; cbn [sample_env base_env NewWritableFile File_Append File_Sync File_Close Filename.DeleteFile RenameFile File_Flush NewSequentialFile fst snd]; unfold id; try done.
  - intros. by rewrite lookup_insert_ne.
  - intros. by rewrite lookup_insert_eq.
  - intros. by rewrite lookup_insert_ne.
  - intros f d w c _ Hc. by rewrite lookup_insert_eq, Hc.
  - intros. by rewrite lookup_delete_ne.
  - intros f t w c _ ->. by rewrite lookup_insert_eq.
  - intros f t w g Hf Ht. destruct (w !! f); [|done]. by rewrite lookup_insert_ne, lookup_delete_ne.
  - intros. by rewrite lookup_insert_eq.
  - by intros f w c ->.
Qed.

(** A new database whose manifest is file 3, and two edits: a table in level 0, and one in
    level 2. *)
Definition sample_name : bytes := str "leveldb.BytewiseComparator".
Definition sample_set : VersionSet := {|
  vs_next_file_number := 4; vs_manifest_file_number := 3; vs_last_sequence := 7; vs_log_number := 2; vs_prev_log_number := 0; descriptor_log_ := None;
  versions_ := versions_ VersionSet_make; compact_pointer_ := compact_pointer_ VersionSet_make |}.
Definition sample_edit1 : VersionEdit := AddFile 0 3 4096 (InternalKey [60] 9 kTypeValue) (InternalKey [99] 3 kTypeDeletion) VersionEdit_make.
Definition sample_edit2 : VersionEdit :=
  AddFile 2 4 4096 (InternalKey [70] 9 kTypeValue) (InternalKey [75] 3 kTypeDeletion) (SetCompactPointer 1 (InternalKey [75] 3 kTypeValue) (DeleteFile 0 3 VersionEdit_make)).
Definition sample_log (e : VersionEdit) (vs : VersionSet) (w : gmap bytes bytes) : VersionEdit * VersionSet * gmap bytes bytes :=
  match LogAndApply sample_env id BytewiseComparator sample_name (str "db") e vs w with Some (_, e', vs', w') => (e', vs', w') | None => (e, vs, w) end.
Definition sample_state1 := sample_log sample_edit1 sample_set ∅.
Definition sample_state2 := sample_log sample_edit2 sample_state1.1.2 sample_state1.2.

Lemma sample_name_ok : bytes_ok sample_name ∧ name_ok sample_name.
Proof. split; by_compute. Qed.

Lemma level_cases (P : Z → Prop) : Forall P [0; 1; 2; 3; 4; 5; 6] → ∀ l, level_ok l → P l.
Proof. rewrite Forall_forall. intros H l Hl. apply H. unfold level_ok, kNumLevels in Hl. rewrite !elem_of_cons. lia. Qed.

(** Levels below 0 with at most one file. *)
Lemma single_apart (P : Z → list FileMetaData) :
  Forall (λ l, P l = [] ∨ ∃ f, P l = [f] ∧ FileOk (valid := bytes_ok) (user := BytewiseComparator) f) [1; 2; 3; 4; 5; 6] →
  ∀ l, 0 < l < kNumLevels → Apart (valid := bytes_ok) (user := BytewiseComparator) (P l).
Proof.
  rewrite Forall_forall. intros H l Hl. destruct (H l) as [->|(f & -> & Hf)].
  - unfold kNumLevels in Hl. rewrite !elem_of_cons. lia.
  - split; [constructor|by intros ? ? ?%elem_of_nil].
  - split; [by apply Forall_singleton|]. by intros ? ? ->%list_elem_of_singleton ->%list_elem_of_singleton.
Qed.

Lemma sample_start : Start (valid := bytes_ok) (user := BytewiseComparator) sample_name Version_empty sample_set.
Proof.
  split; [|done|vm_compute; reflexivity]. split.
  - split; [split; [done|]|split; [done|]]; intros l; [|intros f]; intros Hl; rewrite level_files_empty by done; [split; constructor|by intros ?%elem_of_nil].
  - by split.
  - intros l Hl. rewrite level_files_empty by done. constructor.
  - exists Version_empty, 1. split; [vm_compute; reflexivity|]. split; [lia|]. split; [|done].
    split; [done|]. intros l Hl. rewrite level_files_empty by done. split; constructor.
  - split_and!; by_compute.
  - split; [done|]. apply Forall_forall. intros k [-> _]%elem_of_replicate. by left.
Qed.

Lemma sample_fits1 : EditFits (valid := bytes_ok) (user := BytewiseComparator) sample_name Version_empty [] sample_edit1.
Proof.
  split.
  - repeat constructor; by_compute.
  - repeat constructor; by_compute.
  - intros l Hl. rewrite level_files_empty by done. revert l Hl. apply level_cases. repeat constructor; by_compute.
  - apply (single_apart (λ l, edit_levels l (level_files Version_empty l) ([] ++ [sample_edit1]))). repeat constructor; left; vm_compute; reflexivity.
Qed.

Lemma sample_fits2 : EditFits (valid := bytes_ok) (user := BytewiseComparator) sample_name Version_empty [sample_state1.1.1] sample_edit2.
Proof.
  split.
  - repeat constructor; by_compute.
  - repeat constructor; by_compute.
  - intros l Hl. rewrite level_files_empty by done. revert l Hl. apply level_cases. repeat constructor; by_compute.
  - apply (single_apart (λ l, edit_levels l (level_files Version_empty l) ([sample_state1.1.1] ++ [sample_edit2]))).
    apply Forall_cons. split; [left; vm_compute; reflexivity|]. apply Forall_cons. split; [|repeat constructor; left; vm_compute; reflexivity].
    right. exists (sample_range 4 70 75). split; [vm_compute; reflexivity|]. apply sample_range_ok; [by_compute|by_compute|by_compute|by_compute|vm_compute; discriminate].
Qed.

Lemma sample_steps :
  rtc (Step sample_env id (valid := bytes_ok) (user := BytewiseComparator) sample_name (str "db") Version_empty) (sample_set, ∅, []) (sample_state1.1.2, sample_state1.2, [sample_state1.1.1]) ∧
  rtc (Step sample_env id (valid := bytes_ok) (user := BytewiseComparator) sample_name (str "db") Version_empty) (sample_state1.1.2, sample_state1.2, [sample_state1.1.1])
    (sample_state2.1.2, sample_state2.2, [sample_state1.1.1; sample_state2.1.1]).
Proof.
  split; apply rtc_once.
  - apply (step_edit _ _ _ _ _ sample_set ∅ [] sample_edit1); [apply sample_fits1|done|vm_compute; reflexivity].
  - apply (step_edit _ _ _ _ _ _ _ [sample_state1.1.1] sample_edit2); [apply sample_fits2|done|vm_compute; reflexivity].
Qed.

Lemma manifest_recovers_witness : ∃ vs' e,
  Recover sample_env BytewiseComparator sample_name (str "db") VersionSet_make sample_state2.2 = Some (OK, vs') ∧ Recovered sample_state2.1.2 vs' e.
Proof.
  destruct (proj2 (manifest_recovers sample_env id bytes_ok BytewiseComparator sample_name (str "db") Version_empty sample_set sample_state2.1.2 ∅ sample_state2.2
    [sample_state1.1.1; sample_state2.1.1] sample_env_ok _ sample_name_ok sample_start (transitivity (proj1 sample_steps) (proj2 sample_steps)))) as (vs' & e & _ & H); [done|].
  by exists vs', e.
Defined.

(** The second record loses its last byte: the state after the first edit. *)
Definition sample_file (w : gmap bytes bytes) : bytes := default [] (w !! str "db/MANIFEST-000003").
Definition sample_cut : bytes := take (length (sample_file sample_state2.2) - 1) (sample_file sample_state2.2).
Definition sample_crash : gmap bytes bytes := <[str "db/MANIFEST-000003" := sample_cut]> sample_state2.2.

Lemma manifest_crash_safe_witness : ∃ k vs' e, (1 ≤ k ≤ 2)%nat ∧
  Recover sample_env BytewiseComparator sample_name (str "db") VersionSet_make sample_crash = Some (OK, vs') ∧
  RecoveredAt (valid := bytes_ok) (user := BytewiseComparator) Version_empty (compact_pointer_ sample_set) (take k [sample_state1.1.1; sample_state2.1.1]) e vs'.
Proof.
  destruct (manifest_crash_safe sample_env id bytes_ok BytewiseComparator sample_name (str "db") Version_empty sample_set sample_state1.1.2 sample_state2.1.2
    ∅ sample_state1.2 sample_state2.2 sample_crash [sample_state1.1.1] [sample_state1.1.1; sample_state2.1.1] (sample_file sample_state1.2) sample_cut (sample_file sample_state2.2))
    as (k & vs' & e & Hk & _ & E & R & _).
  - apply sample_env_ok.
  - apply _.
  - apply sample_name_ok.
  - apply sample_start.
  - apply sample_steps.
  - done.
  - apply sample_steps.
  - vm_compute. reflexivity.
  - vm_compute. reflexivity.
  - vm_compute. reflexivity.
  - vm_compute. reflexivity.
  - by_compute.
  - by_compute.
  - exact (ex_intro _ k (ex_intro _ vs' (ex_intro _ e (conj Hk (conj E R))))).
Defined.
