(* ===== verification/CompactionPick.v ===== *)
(** * Choosing compactions

    Model of the class [Compaction] and of the parts of [VersionSet] that choose what to compact
    ([App/integration/version_set.cpp]): the ranges of the inputs, [PickCompaction],
    [CompactRange], [SetupOtherInputs], and the questions asked while compacting
    ([IsBaseLevelForKey], [ShouldStopBefore], [IsTrivialMove]).

    [Finalize] computes its scores in floating point; its results, and the file that seeks have
    marked, are the record [Hints].  A compaction keeps the address of its input version.
    [None] is a failed assertion or an access out of range. *)
From S2P Require Import Prelude Coding Comparator DbFormat Logging Log Status Filename MemTable Compaction Table VersionEdit Version VersionBuilder VersionSet.
From stdpp Require Import sorting list gmap.

#[local] Open Scope Z_scope.

Definition kExpandedCompactionByteSizeLimit : Z := 25 * kTargetFileSize.
Definition MaxFileSizeForLevel (level : Z) : Z := kTargetFileSize.

(** What [Finalize] and [UpdateStats] leave in a version: whether the score is at least 1, the
    level it belongs to, and the file to compact because of seeks with its level. *)
Record Hints := { size_compaction : bool; compaction_level_ : Z; file_to_compact_ : option (FileMetaData * Z) }.

Definition NeedsCompaction (h : Hints) : bool := size_compaction h || bool_decide (is_Some (file_to_compact_ h)).

Record Compaction := {
  level_ : Z;
  max_output_file_size_ : Z;
  input_version_ : option nat;
  edit_ : VersionEdit;
  inputs0 : list FileMetaData;
  inputs1 : list FileMetaData;
  grandparents_ : list FileMetaData;
  grandparent_index_ : nat;
  seen_key_ : bool;
  overlapped_bytes_ : Z;
  level_ptrs_ : list nat;
}.

Definition Compaction_make (level : Z) : Compaction :=
  {| level_ := level; max_output_file_size_ := MaxFileSizeForLevel level; input_version_ := None; edit_ := VersionEdit_make;
     inputs0 := []; inputs1 := []; grandparents_ := []; grandparent_index_ := 0; seen_key_ := false; overlapped_bytes_ := 0;
     level_ptrs_ := replicate (Z.to_nat kNumLevels) 0%nat |}.

Definition with_inputs (version : option nat) (edit : VersionEdit) (i0 i1 grandparents : list FileMetaData) (c : Compaction) : Compaction :=
  {| level_ := level_ c; max_output_file_size_ := max_output_file_size_ c; input_version_ := version; edit_ := edit;
     inputs0 := i0; inputs1 := i1; grandparents_ := grandparents; grandparent_index_ := grandparent_index_ c; seen_key_ := seen_key_ c;
     overlapped_bytes_ := overlapped_bytes_ c; level_ptrs_ := level_ptrs_ c |}.

Section Pick.
Context (user : Comparator).
Abbreviation icmp := (InternalKeyComparator user).

(** ** Ranges *)

Fixpoint range_loop (smallest0 largest0 : bytes) (inputs : list FileMetaData) : bytes * bytes :=
  match inputs with
  | [] => (smallest0, largest0)
  | f :: inputs =>
      range_loop (if Compare icmp (smallest f) smallest0 <? 0 then smallest f else smallest0)
        (if 0 <? Compare icmp (largest f) largest0 then largest f else largest0) inputs
  end.
Definition GetRange (inputs : list FileMetaData) : option (bytes * bytes) :=
  match inputs with [] => None | f :: inputs => Some (range_loop (smallest f) (largest f) inputs) end.
Definition GetRange2 (i1 i2 : list FileMetaData) : option (bytes * bytes) := GetRange (i1 ++ i2).

(** ** The inputs of a compaction *)

(** The last part of [SetupOtherInputs]: the grandparents and the pointer for the next
    compaction. *)
Definition finish_setup (v : Version) (c : Compaction) (i0 i1 : list FileMetaData) (largest : bytes) (all_start all_limit : bytes)
    (cp : list bytes) : option (Compaction * list bytes) :=
  grandparents ← (if level_ c + 2 <? kNumLevels then GetOverlappingInputs user v (level_ c + 2) (Some all_start) (Some all_limit) else Some (grandparents_ c));
  cp ← update_at (level_ c) (λ _, largest) cp;
  Some (with_inputs (input_version_ c) (SetCompactPointer (level_ c) largest (edit_ c)) i0 i1 grandparents c, cp).

Definition SetupOtherInputs (v : Version) (c : Compaction) (cp : list bytes) : option (Compaction * list bytes) :=
  let level := level_ c in
  let i0 := inputs0 c in
  '(smallest, largest) ← GetRange i0;
  i1 ← GetOverlappingInputs user v (level + 1) (Some smallest) (Some largest);
  '(all_start, all_limit) ← GetRange2 i0 i1;
  match i1 with
  | [] => finish_setup v c i0 i1 largest all_start all_limit cp
  | _ :: _ =>
      expanded0 ← GetOverlappingInputs user v level (Some all_start) (Some all_limit);
      if (zlen i0 <? zlen expanded0) && (TotalFileSize i1 + TotalFileSize expanded0 <? kExpandedCompactionByteSizeLimit) then
        '(new_start, new_limit) ← GetRange expanded0;
        expanded1 ← GetOverlappingInputs user v (level + 1) (Some new_start) (Some new_limit);
        if zlen expanded1 =? zlen i1 then
          '(all_start, all_limit) ← GetRange2 expanded0 expanded1;
          finish_setup v c expanded0 expanded1 new_limit all_start all_limit cp
        else finish_setup v c i0 i1 largest all_start all_limit cp
      else finish_setup v c i0 i1 largest all_start all_limit cp
  end.

(** The first file after the pointer of the level, or the first of the level. *)
Definition first_after (pointer : bytes) (files : list FileMetaData) : option FileMetaData :=
  match List.find (λ f, match pointer with [] => true | _ => 0 <? Compare icmp (largest f) pointer end) files with
  | Some f => Some f
  | None => head files
  end.

(** The level and the file [PickCompaction] starts from; the outer [None] is a failure. *)
Definition pick_start (h : Hints) (v : Version) (cp : list bytes) : option (option (Z * FileMetaData)) :=
  if size_compaction h then
    let level := compaction_level_ h in
    if (0 <=? level) && (level + 1 <? kNumLevels) then
      pointer ← cp !! Z.to_nat level;
      f ← first_after pointer (level_files v level);
      Some (Some (level, f))
    else None
  else match file_to_compact_ h with Some (f, level) => Some (Some (level, f)) | None => Some None end.

(** The version set takes a reference for the compaction, and notes the new pointers. *)
Definition with_reference (cp : list bytes) (vs : VersionSet) : option VersionSet :=
  vl ← Version_Ref (current_id (versions_ vs)) (versions_ vs);
  Some {| vs_next_file_number := vs_next_file_number vs; vs_manifest_file_number := vs_manifest_file_number vs; vs_last_sequence := vs_last_sequence vs;
          vs_log_number := vs_log_number vs; vs_prev_log_number := vs_prev_log_number vs; descriptor_log_ := descriptor_log_ vs;
          versions_ := vl; compact_pointer_ := cp |}.

Definition PickCompaction (h : Hints) (vs : VersionSet) : option (option Compaction * VersionSet) :=
  v ← current (versions_ vs);
  start ← pick_start h v (compact_pointer_ vs);
  match start with
  | None => Some (None, vs)
  | Some (level, f) =>
      i0 ← (if level =? 0 then
              '(smallest, largest) ← GetRange [f];
              i0 ← GetOverlappingInputs user v 0 (Some smallest) (Some largest);
              match i0 with [] => None | _ => Some i0 end
            else Some [f]);
      '(c, cp) ← SetupOtherInputs v (with_inputs (Some (current_id (versions_ vs))) VersionEdit_make i0 [] [] (Compaction_make level)) (compact_pointer_ vs);
      vs ← with_reference cp vs;
      Some (Some c, vs)
  end.

(** The inputs up to the one that reaches the limit. *)
Fixpoint limit_inputs (limit total : Z) (inputs : list FileMetaData) : list FileMetaData :=
  match inputs with
  | [] => []
  | f :: inputs => let total := u64 (total + file_size f) in if limit <=? total then [f] else f :: limit_inputs limit total inputs
  end.

Definition CompactRange (level : Z) (begin end_ : option bytes) (vs : VersionSet) : option (option Compaction * VersionSet) :=
  v ← current (versions_ vs);
  inputs ← GetOverlappingInputs user v level begin end_;
  match inputs with
  | [] => Some (None, vs)
  | _ :: _ =>
      let inputs := if 0 <? level then limit_inputs (MaxFileSizeForLevel level) 0 inputs else inputs in
      '(c, cp) ← SetupOtherInputs v (with_inputs (Some (current_id (versions_ vs))) VersionEdit_make inputs [] [] (Compaction_make level)) (compact_pointer_ vs);
      vs ← with_reference cp vs;
      Some (Some c, vs)
  end.

(** ** Questions asked while compacting *)

Definition IsTrivialMove (c : Compaction) : bool :=
  (zlen (inputs0 c) =? 1) && (zlen (inputs1 c) =? 0) && (TotalFileSize (grandparents_ c) <=? kMaxGrandParentOverlapBytes).

Definition AddInputDeletions (c : Compaction) (edit : VersionEdit) : VersionEdit :=
  foldl (λ e f, DeleteFile (level_ c + 1) (number f) e) (foldl (λ e f, DeleteFile (level_ c) (number f) e) edit (inputs0 c)) (inputs1 c).

(** The loop over one level: whether the key is in a file's range, and the index after. *)
Fixpoint base_level_loop (user_key : bytes) (files : list FileMetaData) (ptr : nat) : bool * nat :=
  match files with
  | [] => (false, ptr)
  | f :: files =>
      if Compare user user_key (ExtractUserKey (largest f)) <=? 0 then (0 <=? Compare user user_key (ExtractUserKey (smallest f)), ptr)
      else base_level_loop user_key files (S ptr)
  end.
Fixpoint base_levels_loop (user_key : bytes) (levels : list (list FileMetaData)) (ptrs : list nat) : bool * list nat :=
  match levels, ptrs with
  | files :: levels, ptr :: ptrs =>
      let '(inside, ptr) := base_level_loop user_key (drop ptr files) ptr in
      if inside then (false, ptr :: ptrs) else let '(b, ptrs) := base_levels_loop user_key levels ptrs in (b, ptr :: ptrs)
  | _, _ => (true, ptrs)
  end.
Definition with_ptrs (ptrs : list nat) (c : Compaction) : Compaction :=
  {| level_ := level_ c; max_output_file_size_ := max_output_file_size_ c; input_version_ := input_version_ c; edit_ := edit_ c;
     inputs0 := inputs0 c; inputs1 := inputs1 c; grandparents_ := grandparents_ c; grandparent_index_ := grandparent_index_ c; seen_key_ := seen_key_ c;
     overlapped_bytes_ := overlapped_bytes_ c; level_ptrs_ := ptrs |}.
Definition IsBaseLevelForKey (v : Version) (user_key : bytes) (c : Compaction) : bool * Compaction :=
  let n := Z.to_nat (level_ c + 2) in
  let '(b, ptrs) := base_levels_loop user_key (drop n (files_ v)) (drop n (level_ptrs_ c)) in
  (b, with_ptrs (take n (level_ptrs_ c) ++ ptrs) c).

(** The grandparents passed: index and overlapped bytes after. *)
Fixpoint grandparent_loop (internal_key : bytes) (seen : bool) (files : list FileMetaData) (index : nat) (overlapped : Z) : nat * Z :=
  match files with
  | [] => (index, overlapped)
  | f :: files =>
      if 0 <? Compare icmp internal_key (largest f)
      then grandparent_loop internal_key seen files (S index) (if seen then overlapped + file_size f else overlapped)
      else (index, overlapped)
  end.
Definition ShouldStopBefore (internal_key : bytes) (c : Compaction) : bool * Compaction :=
  let '(index, overlapped) := grandparent_loop internal_key (seen_key_ c) (drop (grandparent_index_ c) (grandparents_ c)) (grandparent_index_ c) (overlapped_bytes_ c) in
  let stop := kMaxGrandParentOverlapBytes <? overlapped in
  (stop, {| level_ := level_ c; max_output_file_size_ := max_output_file_size_ c; input_version_ := input_version_ c; edit_ := edit_ c;
            inputs0 := inputs0 c; inputs1 := inputs1 c; grandparents_ := grandparents_ c; grandparent_index_ := index; seen_key_ := true;
            overlapped_bytes_ := if stop then 0 else overlapped; level_ptrs_ := level_ptrs_ c |}).

(** The destructor and [ReleaseInputs] give the reference back. *)
Definition ReleaseInputs (c : Compaction) (vl : VersionList) : option (Compaction * VersionList) :=
  match input_version_ c with
  | None => Some (c, vl)
  | Some id => vl ← Version_Unref id vl; Some (with_inputs None (edit_ c) (inputs0 c) (inputs1 c) (grandparents_ c) c, vl)
  end.
End Pick.

(** Levels out of range are empty, or level 0. *)
Lemma clip_level (w : Version) l : zlen (files_ w) = kNumLevels → level_files w l = [] ∨ ∃ l0, level_ok l0 ∧ level_files w l = level_files w l0 ∧ (0 <= l → l0 = l).
Proof.
  intros Hlen. destruct (decide (l < 0)) as [Hneg|Hpos].
  - right. exists 0. split; [unfold level_ok, kNumLevels; lia|]. split; [|lia]. unfold level_files. by destruct l.
  - destruct (decide (l < kNumLevels)) as [Hlt|Hge]; [right; exists l; split; [unfold level_ok; lia|done]|]. left. unfold level_files.
    rewrite lookup_ge_None_2; [done|]. unfold zlen in Hlen. lia.
Qed.

Lemma sublist_List_filter {A} (p : A → bool) (l : list A) : List.filter p l `sublist_of` l.
Proof. induction l as [|x l IH]; simpl; [constructor|]. destruct (p x); by constructor. Qed.

Section PickOk.
Context {valid : bytes → Prop} {user : Comparator} `{HU : !ComparatorOk valid user}.
Abbreviation icmp := (InternalKeyComparator user).
Abbreviation ivalid := (internal_valid valid).
Abbreviation FileOk := (FileOk (valid := valid) (user := user)).
Abbreviation file_start f := (ExtractUserKey (smallest f)).
Abbreviation file_limit f := (ExtractUserKey (largest f)).
Abbreviation in_user_range lo hi := (in_range (user := user) (Some (ExtractUserKey lo)) (Some (ExtractUserKey hi))).

(** ** Ranges *)

(** [lo .. hi] is the least range around the files. *)
Record RangeOf (files : list FileMetaData) (lo hi : bytes) : Prop := {
  ro_lo : ∃ f, f ∈ files ∧ lo = smallest f;
  ro_hi : ∃ f, f ∈ files ∧ hi = largest f;
  ro_covers f : f ∈ files → Compare icmp lo (smallest f) <= 0 ∧ Compare icmp (largest f) hi <= 0;
}.

Lemma range_loop_ok inputs : ∀ seen s0 l0, Forall FileOk (seen ++ inputs) → RangeOf seen s0 l0 →
  RangeOf (seen ++ inputs) (range_loop user s0 l0 inputs).1 (range_loop user s0 l0 inputs).2.
Proof using HU.
  induction inputs as [|f inputs IH]; intros seen s0 l0 Hok [(f0 & Hf0 & E0) (f1 & Hf1 & E1) Hc]; cbn [range_loop]; [by rewrite app_nil_r; split; [exists f0|exists f1|]|].
  rewrite (app_assoc seen [f] inputs : seen ++ f :: inputs = _) in Hok |- *. apply IH; [done|].
  rewrite Forall_forall in Hok. assert (V : ∀ g, g ∈ seen ++ [f] → FileOk g) by (intros g Hg; apply Hok; set_solver).
  destruct (V f ltac:(set_solver)) as [Vs Vl _ _ _]. destruct (V f0 ltac:(set_solver)) as [Vs0 _ _ _ _]. destruct (V f1 ltac:(set_solver)) as [_ Vl1 _ _ _].
  rewrite <- E0 in Vs0. rewrite <- E1 in Vl1. split.
  - destruct (Z.ltb_spec (Compare icmp (smallest f) s0) 0); [exists f|exists f0]; set_solver.
  - destruct (Z.ltb_spec 0 (Compare icmp (largest f) l0)); [exists f|exists f1]; set_solver.
  - intros g Hg. destruct (V g Hg) as [Vgs Vgl _ _ _]. apply elem_of_app in Hg as [Hg| ->%list_elem_of_singleton].
    + destruct (Hc g Hg) as [C1 C2]. split.
      * destruct (Z.ltb_spec (Compare icmp (smallest f) s0) 0); [|done]. apply (Compare_le_trans (valid := ivalid) _ s0); [done..|lia|done].
      * destruct (Z.ltb_spec 0 (Compare icmp (largest f) l0)) as [H|]; [|done]. apply (Compare_le_trans (valid := ivalid) _ l0); [done..|].
        apply Z.lt_le_incl, (Compare_swap (valid := ivalid)); [done..|lia].
    + split.
      * destruct (Z.ltb_spec (Compare icmp (smallest f) s0) 0) as [|H]; [by rewrite (Compare_refl (valid := ivalid))|]. apply (Compare_nlt (valid := ivalid)); [done..|lia].
      * destruct (Z.ltb_spec 0 (Compare icmp (largest f) l0)) as [H|H]; [by rewrite (Compare_refl (valid := ivalid))|lia].
Qed.

Lemma GetRange_ok inputs : Forall FileOk inputs → inputs ≠ [] → ∃ lo hi, GetRange user inputs = Some (lo, hi) ∧ RangeOf inputs lo hi ∧ ivalid lo ∧ ivalid hi.
Proof using HU.
  intros Hok Hne. destruct inputs as [|f inputs]; [done|]. cbn [GetRange]. pose proof (range_loop_ok inputs [f] (smallest f) (largest f) Hok) as Hr.
  destruct (range_loop user (smallest f) (largest f) inputs) as [lo hi]. cbn [fst snd app] in Hr. exists lo, hi. split; [done|].
  destruct (Forall_inv Hok) as [V1 V2 _ _ _]. assert (HR : RangeOf (f :: inputs) lo hi).
  { apply Hr. split; [exists f; set_solver|exists f; set_solver|]. intros g ->%list_elem_of_singleton. by rewrite !(Compare_refl (valid := ivalid)). }
  split; [done|]. destruct HR as [(g & Hg & ->) (h & Hh & ->) _]. rewrite Forall_forall in Hok. by destruct (Hok g Hg), (Hok h Hh).
Qed.

(** Every file of a range meets it. *)
Lemma RangeOf_in files lo hi f : Forall FileOk files → RangeOf files lo hi → ivalid lo → ivalid hi → f ∈ files → in_user_range lo hi f = true.
Proof using HU.
  intros Hok [_ _ Hc] Vlo Vhi Hf. rewrite Forall_forall in Hok. destruct (Hok f Hf) as [(B1 & L1 & V1) (B2 & L2 & V2) _ _ Hord]. destruct (Hc f Hf) as [C1 C2].
  destruct Vlo as (_ & _ & Vlo), Vhi as (_ & _ & Vhi). apply icmp_user_le in C1, C2, Hord. unfold in_range, below_begin, above_end.
  rewrite andb_true_iff, !negb_true_iff, !Z.ltb_ge. split.
  - assert (H : Compare user (ExtractUserKey lo) (file_limit f) <= 0) by (by apply (Compare_le_trans (valid := valid) _ (file_start f))).
    apply (Compare_nlt (valid := valid)) in H; [lia|done..].
  - by apply (Compare_le_trans (valid := valid) _ (file_limit f)).
Qed.

(** ** Inputs *)

(** Two files share user keys, as far as their ends tell. *)
Definition user_overlap (f g : FileMetaData) : Prop := Compare user (file_start f) (file_limit g) <= 0 ∧ Compare user (file_start g) (file_limit f) <= 0.
Definition closed0 (v : Version) (inputs : list FileMetaData) : Prop := ∀ f g, f ∈ inputs → g ∈ level_files v 0 → user_overlap f g → g ∈ inputs.

(** What a compaction chosen in the version [v] promises: files of its level, none of the
    others of level 0 sharing keys with them; all files of the next level that meet their
    range; and all files of the one after that meet the range of both. *)
Record Chosen (v : Version) (c : Compaction) : Prop := {
  ch_level : 0 <= level_ c < kNumLevels - 1;
  ch_inputs0 : inputs0 c ≠ [] ∧ inputs0 c `sublist_of` level_files v (level_ c);
  ch_closed0 : level_ c = 0 → closed0 v (inputs0 c);
  ch_inputs1 : ∃ lo hi, GetRange user (inputs0 c) = Some (lo, hi) ∧ inputs1 c = List.filter (in_user_range lo hi) (level_files v (level_ c + 1)) ∧
    edit_ c = SetCompactPointer (level_ c) hi VersionEdit_make;
  ch_grandparents : level_ c + 2 < kNumLevels → ∃ lo hi, GetRange2 user (inputs0 c) (inputs1 c) = Some (lo, hi) ∧
    grandparents_ c = List.filter (in_user_range lo hi) (level_files v (level_ c + 2));
  ch_fresh : level_ptrs_ c = replicate (Z.to_nat kNumLevels) 0%nat ∧ grandparent_index_ c = 0%nat ∧ seen_key_ c = false ∧ overlapped_bytes_ c = 0;
}.

Definition FilesOk (v : Version) : Prop := ∀ l, Forall FileOk (level_files v l).

Lemma sublist_ok v l inputs : FilesOk v → inputs `sublist_of` level_files v l → Forall FileOk inputs.
Proof using Type. intros Hv Hs. apply Forall_forall. intros f Hf. specialize (Hv l). rewrite Forall_forall in Hv. apply Hv. by apply (elem_of_sublist inputs). Qed.

(** Searching any level for files that meet a range. *)
Lemma overlapping_ok v l lo hi : FilesOk v → 0 <= l < kNumLevels → ivalid lo → ivalid hi →
  ∃ r, GetOverlappingInputs user v l (Some lo) (Some hi) = Some r ∧ r `sublist_of` level_files v l ∧ (l = 0 → closed0 v r) ∧
    (0 < l → r = List.filter (in_user_range lo hi) (level_files v l)) ∧ ∀ f, f ∈ level_files v l → in_user_range lo hi f = true → f ∈ r.
Proof using HU.
  intros Hv Hl (_ & _ & Vlo) (_ & _ & Vhi). destruct (decide (l = 0)) as [->|Hne].
  - destruct (GetOverlappingInputs_level0 v (Some lo) (Some hi) (Hv 0) Vlo Vhi) as (r & E & (b & e & -> & Vb & Ve & Hw & Hcl & _) & Hc).
    eexists. split; [exact E|]. split; [apply sublist_List_filter|]. split; [intros _ f g Hf Hg [H1 H2]; by apply (Hc f g)|]. split; [lia|].
    intros f Hf Hin. apply list_elem_of_In, List.filter_In. split; [by apply list_elem_of_In|]. specialize (Hv 0). rewrite Forall_forall in Hv.
    apply (in_range_mono (valid := valid) (Some (ExtractUserKey lo)) (Some (ExtractUserKey hi))); auto.
  - rewrite GetOverlappingInputs_deep by lia. eexists. split; [done|]. split; [apply sublist_List_filter|]. split; [lia|]. split; [done|].
    intros f Hf Hin. apply list_elem_of_In, List.filter_In. split; [by apply list_elem_of_In|done].
Qed.

(** The compaction object before [SetupOtherInputs]. *)
Record Begun (v : Version) (c : Compaction) : Prop := {
  be_level : 0 <= level_ c < kNumLevels - 1;
  be_inputs0 : inputs0 c ≠ [] ∧ inputs0 c `sublist_of` level_files v (level_ c);
  be_closed0 : level_ c = 0 → closed0 v (inputs0 c);
  be_edit : edit_ c = VersionEdit_make;
  be_fresh : level_ptrs_ c = replicate (Z.to_nat kNumLevels) 0%nat ∧ grandparent_index_ c = 0%nat ∧ seen_key_ c = false ∧ overlapped_bytes_ c = 0;
}.

Lemma finish_setup_ok v c cp i0 i1 lo hi all_start all_limit : FilesOk v → Begun v c → zlen cp = kNumLevels →
  i0 ≠ [] ∧ i0 `sublist_of` level_files v (level_ c) → (level_ c = 0 → closed0 v i0) → GetRange user i0 = Some (lo, hi) →
  i1 = List.filter (in_user_range lo hi) (level_files v (level_ c + 1)) → GetRange2 user i0 i1 = Some (all_start, all_limit) →
  ∃ c', finish_setup user v c i0 i1 hi all_start all_limit cp = Some (c', <[Z.to_nat (level_ c) := hi]> cp) ∧ Chosen v c' ∧
    level_ c' = level_ c ∧ input_version_ c' = input_version_ c ∧ inputs0 c' = i0.
Proof using HU.
  intros Hv [B1 B2 B3 B4 B5] Hcp Hi0 Hc0 Hr Hi1 Hr2. pose proof Hi0 as [Hne0 Hsub0]. unfold finish_setup.
  assert (Hup : update_at (level_ c) (λ _, hi) cp = Some (<[Z.to_nat (level_ c) := hi]> cp)).
  { unfold update_at. replace ((0 <=? level_ c) && (level_ c <? zlen cp)) with true by lia. f_equal.
    destruct (lookup_lt_is_Some_2 cp (Z.to_nat (level_ c))) as [x Hx]; [unfold zlen, kNumLevels in *; lia|]. apply list_eq. intros i.
    destruct (decide (i = Z.to_nat (level_ c))) as [->|]; [|by rewrite list_lookup_alter_ne, list_lookup_insert_ne].
    rewrite list_lookup_alter_eq, list_lookup_insert_eq, Hx by (by apply lookup_lt_Some in Hx). done. }
  rewrite Hup. destruct (Z.ltb_spec (level_ c + 2) kNumLevels) as [Hlt|Hge].
  - destruct (GetRange_ok (i0 ++ i1)) as (a & z & E & _ & Va & Vz).
    { apply Forall_app. split; [by apply (sublist_ok v (level_ c))|]. subst i1. by apply (sublist_ok v (level_ c + 1)), sublist_List_filter. }
    { by destruct i0. }
    unfold GetRange2 in Hr2. rewrite Hr2 in E. injection E as <- <-.
    destruct (overlapping_ok v (level_ c + 2) all_start all_limit Hv ltac:(lia) Va Vz) as (r & -> & _ & _ & Hdeep & _). cbn [mbind option_bind].
    eexists. split; [done|]. split; [|done]. split; cbn [with_inputs level_ inputs0 inputs1 grandparents_ edit_ level_ptrs_ grandparent_index_ seen_key_ overlapped_bytes_]; try done.
    + exists lo, hi. by rewrite B4.
    + intros _. exists all_start, all_limit. split; [done|]. apply Hdeep. lia.
  - cbn [mbind option_bind]. eexists. split; [done|]. split; [|done].
    split; cbn [with_inputs level_ inputs0 inputs1 grandparents_ edit_ level_ptrs_ grandparent_index_ seen_key_ overlapped_bytes_]; try done.
    + exists lo, hi. by rewrite B4.
    + lia.
Qed.

Lemma SetupOtherInputs_ok v c cp : FilesOk v → Begun v c → zlen cp = kNumLevels →
  ∃ c' hi, SetupOtherInputs user v c cp = Some (c', <[Z.to_nat (level_ c) := hi]> cp) ∧ Chosen v c' ∧
    level_ c' = level_ c ∧ input_version_ c' = input_version_ c ∧ ∀ f, f ∈ inputs0 c → f ∈ inputs0 c'.
Proof using HU.
  intros Hv HB Hcp. pose proof HB as [B1 [B2 B2'] B3 B4 B5]. unfold SetupOtherInputs.
  pose proof (sublist_ok v _ _ Hv B2') as Hok0. destruct (GetRange_ok (inputs0 c) Hok0 B2) as (lo & hi & Er & HR & Vlo & Vhi). rewrite Er. cbn [mbind option_bind].
  destruct (overlapping_ok v (level_ c + 1) lo hi Hv ltac:(lia) Vlo Vhi) as (i1 & E1 & Hs1 & _ & Hd1 & _). rewrite E1. cbn [mbind option_bind]. specialize (Hd1 ltac:(lia)).
  assert (Hok1 : Forall FileOk (inputs0 c ++ i1)) by (apply Forall_app; split; [done|by apply (sublist_ok v (level_ c + 1))]).
  destruct (GetRange_ok (inputs0 c ++ i1) Hok1) as (a & z & E2 & HRa & Va & Vz); [by destruct (inputs0 c)|].
  change (GetRange user (inputs0 c ++ i1)) with (GetRange2 user (inputs0 c) i1) in E2. rewrite E2. cbn [mbind option_bind].
  assert (Hplain : ∃ c' hi', finish_setup user v c (inputs0 c) i1 hi a z cp = Some (c', <[Z.to_nat (level_ c) := hi']> cp) ∧ Chosen v c' ∧
    level_ c' = level_ c ∧ input_version_ c' = input_version_ c ∧ ∀ f, f ∈ inputs0 c → f ∈ inputs0 c').
  { destruct (finish_setup_ok v c cp (inputs0 c) i1 lo hi a z) as (c' & E & Hc & Hl & Hi & H0); [done..|]. exists c', hi. split_and!; try done. intros f. by rewrite H0. }
  destruct i1 as [|f1 i1'] eqn:Ei1; [done|]. rewrite <- Ei1 in *.
  destruct (overlapping_ok v (level_ c) a z Hv ltac:(lia) Va Vz) as (x0 & Ex0 & Hsx & Hcx & _ & Hinx). rewrite Ex0. cbn [mbind option_bind].
  destruct ((zlen (inputs0 c) <? zlen x0) && _) eqn:Egrow; [|done]. apply andb_true_iff in Egrow as [Egrow%Z.ltb_lt _].
  assert (Hxne : x0 ≠ []) by (intros ->; unfold zlen in Egrow; simpl in Egrow; lia).
  destruct (GetRange_ok x0 (sublist_ok v _ _ Hv Hsx) Hxne) as (lo' & hi' & Er' & HR' & Vlo' & Vhi'). rewrite Er'. cbn [mbind option_bind].
  destruct (overlapping_ok v (level_ c + 1) lo' hi' Hv ltac:(lia) Vlo' Vhi') as (x1 & Ex1 & Hsx1 & _ & Hdx1 & _). rewrite Ex1. cbn [mbind option_bind]. specialize (Hdx1 ltac:(lia)).
  destruct (zlen x1 =? zlen i1); [|done].
  destruct (GetRange_ok (x0 ++ x1)) as (a' & z' & E2' & _); [apply Forall_app; split; [by apply (sublist_ok v (level_ c))|by apply (sublist_ok v (level_ c + 1))]|by destruct x0|].
  change (GetRange user (x0 ++ x1)) with (GetRange2 user x0 x1) in E2'. rewrite E2'. cbn [mbind option_bind].
  destruct (finish_setup_ok v c cp x0 x1 lo' hi' a' z') as (c' & E & Hc & Hl & Hi & H0); [done..|]. exists c', hi'. split_and!; try done. intros f Hf. rewrite H0.
  apply Hinx; [by apply (elem_of_sublist (inputs0 c))|]. apply (RangeOf_in (inputs0 c ++ i1)); try done. apply elem_of_app. by left.
Qed.

Lemma overlapping_any v l b e : FilesOk v → 0 <= l < kNumLevels → bound_ok (valid := valid) (ExtractUserKey <$> b) → bound_ok (valid := valid) (ExtractUserKey <$> e) →
  ∃ r, GetOverlappingInputs user v l b e = Some r ∧ r `sublist_of` level_files v l ∧ (l = 0 → closed0 v r).
Proof using HU.
  intros Hv Hl Vb Ve. destruct (decide (l = 0)) as [->|Hne].
  - destruct (GetOverlappingInputs_level0 v b e (Hv 0) Vb Ve) as (r & E & (b' & e' & -> & _) & Hc).
    eexists. split; [exact E|]. split; [apply sublist_List_filter|]. intros _ f g Hf Hg [H1 H2]. by apply (Hc f g).
  - rewrite GetOverlappingInputs_deep by lia. eexists. split; [done|]. split; [apply sublist_List_filter|lia].
Qed.

Lemma limit_inputs_ok limit inputs : ∀ total, inputs ≠ [] → limit_inputs limit total inputs ≠ [] ∧ limit_inputs limit total inputs `sublist_of` inputs.
Proof using Type.
  assert (Hsub : ∀ inputs total, limit_inputs limit total inputs `sublist_of` inputs).
  { clear inputs. induction inputs as [|f inputs IH]; intros total; cbn [limit_inputs]; [constructor|]. destruct (_ <=? _); constructor; [apply sublist_nil_l|apply IH]. }
  intros total Hne. split; [|apply Hsub]. destruct inputs; [done|]. cbn [limit_inputs]. by destruct (_ <=? _).
Qed.

(** Starting a compaction from files of a level. *)
Lemma start_ok v vs level i0 : FilesOk v → current (versions_ vs) = Some v → zlen (compact_pointer_ vs) = kNumLevels → 0 <= level < kNumLevels - 1 →
  i0 ≠ [] → i0 `sublist_of` level_files v level → (level = 0 → closed0 v i0) →
  ∃ c cp vs', SetupOtherInputs user v (with_inputs (Some (current_id (versions_ vs))) VersionEdit_make i0 [] [] (Compaction_make level)) (compact_pointer_ vs) = Some (c, cp) ∧
    with_reference cp vs = Some vs' ∧ Chosen v c ∧ level_ c = level ∧ (∀ f, f ∈ i0 → f ∈ inputs0 c) ∧ current (versions_ vs') = Some v ∧
    zlen (compact_pointer_ vs') = kNumLevels.
Proof using HU.
  intros Hv Hcur Hcp Hl Hne Hsub Hc0. set (c0 := with_inputs _ _ _ _ _ _).
  assert (HB : Begun v c0) by (by split).
  destruct (SetupOtherInputs_ok v c0 (compact_pointer_ vs) Hv HB Hcp) as (c & hi & E & Hc & Hlev & _ & Hin). exists c. eexists.
  unfold with_reference, Version_Ref. unfold current in Hcur. destruct (live_ (versions_ vs) !! current_id (versions_ vs)) as [[v0 r]|] eqn:El; [|done].
  injection Hcur as ->. cbn [mbind option_bind]. eexists. split; [exact E|]. split; [done|]. split; [done|]. split; [done|]. split; [done|].
  cbn [versions_ compact_pointer_]. split; [unfold current; cbn [live_ current_id]; by rewrite lookup_insert_eq|]. unfold zlen in *. by rewrite length_insert.
Qed.

(** What [Finalize] and [UpdateStats] maintain. *)
Record HintsOk (v : Version) (h : Hints) : Prop := {
  ho_size : size_compaction h = true → 0 <= compaction_level_ h < kNumLevels - 1 ∧ level_files v (compaction_level_ h) ≠ [];
  ho_seek f l : file_to_compact_ h = Some (f, l) → 0 <= l < kNumLevels - 1 ∧ f ∈ level_files v l;
}.

Lemma first_after_ok pointer files : files ≠ [] → ∃ f, first_after user pointer files = Some f ∧ f ∈ files.
Proof using Type.
  intros Hne. unfold first_after. destruct (List.find _ files) as [f|] eqn:E.
  - apply List.find_some in E as [E _]. exists f. split; [done|by apply list_elem_of_In].
  - destruct files as [|f files]; [done|]. exists f. split; [done|by left].
Qed.

Lemma pick_start_ok h v cp : HintsOk v h → zlen cp = kNumLevels →
  ∃ start, pick_start user h v cp = Some start ∧
    match start with Some (l, f) => 0 <= l < kNumLevels - 1 ∧ f ∈ level_files v l | None => NeedsCompaction h = false end.
Proof using Type.
  intros [H1 H2] Hcp. unfold pick_start, NeedsCompaction. destruct (size_compaction h).
  - destruct (H1 eq_refl) as [Hl Hne]. replace ((0 <=? compaction_level_ h) && (compaction_level_ h + 1 <? kNumLevels)) with true by lia.
    destruct (lookup_lt_is_Some_2 cp (Z.to_nat (compaction_level_ h))) as [p Hp]; [unfold zlen, kNumLevels in *; lia|]. rewrite Hp. cbn [mbind option_bind].
    destruct (first_after_ok p _ Hne) as (f & -> & Hf). cbn [mbind option_bind]. by eexists.
  - destruct (file_to_compact_ h) as [[f l]|]; eexists; (split; [done|]); [by apply H2|]. by rewrite bool_decide_eq_false_2 by (by intros [? [=]]).
Qed.

Lemma PickCompaction_ok h v vs : FilesOk v → HintsOk v h → current (versions_ vs) = Some v → zlen (compact_pointer_ vs) = kNumLevels →
  ∃ oc vs', PickCompaction user h vs = Some (oc, vs') ∧ current (versions_ vs') = Some v ∧ zlen (compact_pointer_ vs') = kNumLevels ∧
    match oc with Some c => Chosen v c ∧ NeedsCompaction h = true | None => NeedsCompaction h = false end.
Proof using HU.
  intros Hv Hh Hcur Hcp. unfold PickCompaction. rewrite Hcur. cbn [mbind option_bind].
  destruct (pick_start_ok h v (compact_pointer_ vs) Hh Hcp) as (start & E & Hs). rewrite E. cbn [mbind option_bind].
  destruct start as [[l f]|]; [|by eexists None, vs]. destruct Hs as [Hl Hf].
  assert (Hneed : NeedsCompaction h = true).
  { unfold NeedsCompaction. unfold pick_start in E. destruct (size_compaction h); [done|]. destruct (file_to_compact_ h); [by rewrite bool_decide_eq_true_2|done]. }
  assert (Hi0 : ∃ i0, (if l =? 0 then '(smallest, largest) ← GetRange user [f]; i0 ← GetOverlappingInputs user v 0 (Some smallest) (Some largest); match i0 with [] => None | _ => Some i0 end
      else Some [f]) = Some i0 ∧ i0 ≠ [] ∧ i0 `sublist_of` level_files v l ∧ (l = 0 → closed0 v i0)).
  { destruct (Z.eqb_spec l 0) as [->|Hne]; [|exists [f]; split_and!; [done|done|by apply singleton_sublist_l|lia]]. cbn [GetRange range_loop mbind option_bind].
    pose proof (Hv 0) as H0. rewrite Forall_forall in H0. destruct (H0 f Hf) as [V1 V2 _ _ Hord].
    destruct (overlapping_ok v 0 (smallest f) (largest f) Hv ltac:(unfold kNumLevels; lia) V1 V2) as (r & -> & Hs & Hc & _ & Hin). cbn [mbind option_bind].
    assert (f ∈ r).
    { apply Hin; [done|]. apply (RangeOf_in [f]); try done; [apply Forall_singleton; auto| |by left].
      split; [exists f; set_solver|exists f; set_solver|]. intros g ->%list_elem_of_singleton. by rewrite !(Compare_refl (valid := ivalid)). }
    exists r. destruct r; [by apply elem_of_nil in H|]. by split_and!; auto. }
  destruct Hi0 as (i0 & -> & Hne & Hsub & Hc0). cbn [mbind option_bind].
  destruct (start_ok v vs l i0 Hv Hcur Hcp Hl Hne Hsub Hc0) as (c & cp & vs' & -> & HW & Hc & _ & _ & Hcur' & Hcp'). cbn [mbind option_bind]. rewrite HW.
  by exists (Some c), vs'.
Qed.

Lemma CompactRange_ok v vs l b e : FilesOk v → current (versions_ vs) = Some v → zlen (compact_pointer_ vs) = kNumLevels → 0 <= l < kNumLevels - 1 →
  bound_ok (valid := valid) (ExtractUserKey <$> b) → bound_ok (valid := valid) (ExtractUserKey <$> e) →
  ∃ oc vs', CompactRange user l b e vs = Some (oc, vs') ∧ current (versions_ vs') = Some v ∧ zlen (compact_pointer_ vs') = kNumLevels ∧
    match oc with Some c => Chosen v c ∧ level_ c = l | None => GetOverlappingInputs user v l b e = Some [] end.
Proof using HU.
  intros Hv Hcur Hcp Hl Vb Ve. unfold CompactRange. rewrite Hcur. cbn [mbind option_bind].
  destruct (overlapping_any v l b e Hv ltac:(lia) Vb Ve) as (r & E & Hs & Hc). rewrite E. cbn [mbind option_bind].
  destruct r as [|f r]; [by eexists None, vs|].
  set (i0 := if 0 <? l then limit_inputs (MaxFileSizeForLevel l) 0 (f :: r) else f :: r).
  assert (Hi0 : i0 ≠ [] ∧ i0 `sublist_of` level_files v l ∧ (l = 0 → closed0 v i0)).
  { unfold i0. destruct (Z.ltb_spec 0 l); [|by split_and!].
    destruct (limit_inputs_ok (MaxFileSizeForLevel l) (f :: r) 0) as [H1 H2]; [done|]. split; [done|]. split; [by etransitivity|lia]. }
  destruct Hi0 as (H1 & H2 & H3).
  destruct (start_ok v vs l i0 Hv Hcur Hcp Hl H1 H2 H3) as (c & cp & vs' & -> & HW & Hch & Hlev & _ & Hcur' & Hcp'). cbn [mbind option_bind]. rewrite HW.
  by exists (Some c), vs'.
Qed.

(** ** The base level of a key *)

(** No file two or more levels below [level] has the key in its range. *)
Definition base_of (v : Version) (level : Z) (u : bytes) : bool := negb (existsb (covers user u) (mjoin (drop (Z.to_nat (level + 2)) (files_ v)))).

Abbreviation LevelOk := (LevelOk (valid := valid) (user := user)).

(** The files the indices have passed end before the key. *)
Definition passed (u : bytes) (files : list FileMetaData) : Prop := Forall (λ f, Compare user (file_limit f) u < 0) files.
Definition PtrsOk (u : bytes) : list (list FileMetaData) → list nat → Prop := Forall2 (λ files ptr, passed u (take ptr files)).

Lemma PtrsOk_mono u u' levels ptrs : Forall (Forall FileOk) levels → valid u → valid u' → Compare user u u' <= 0 → PtrsOk u levels ptrs → PtrsOk u' levels ptrs.
Proof using HU.
  intros Hok Vu Vu' Hle H. induction H as [|files ptr levels ptrs Hp H IH]; [constructor|]. apply Forall_cons in Hok as [Hf Hok]. constructor; [|by apply IH].
  apply Forall_forall. intros f Hin. unfold passed in Hp. rewrite Forall_forall in Hf, Hp. specialize (Hp f Hin). apply (Compare_lt_le (valid := valid) _ u); [|done..].
  apply elem_of_take in Hin as (i & Hi%list_elem_of_lookup_2 & _). by destruct (Hf f Hi) as [_ (_ & _ & V) _ _ _].
Qed.

Lemma passed_covers u files : Forall FileOk files → valid u → passed u files → existsb (covers user u) files = false.
Proof using HU.
  intros Hok Vu H. induction H as [|f files Hf H IH]; [done|]. apply Forall_cons in Hok as [[_ (_ & _ & V) _ _ _] Hok]. simpl. rewrite IH by done.
  unfold covers. apply (Compare_swap (valid := valid)) in Hf; [|done..]. replace (Compare user u (file_limit f) <=? 0) with false by lia. by rewrite andb_false_r.
Qed.

(** Files after the key do not contain it. *)
Lemma before_covers u f files : Forall FileOk (f :: files) → valid u → StronglySorted (λ a b, Compare icmp (largest a) (smallest b) < 0) (f :: files) →
  Compare user u (file_start f) < 0 → existsb (covers user u) files = false.
Proof using HU.
  intros Hok Vu [_ Hs]%StronglySorted_inv Hlt. apply Forall_cons in Hok as [[(_ & _ & V1) (_ & _ & V2) _ _ Ho] Hok]. apply icmp_user_le in Ho.
  apply not_true_iff_false. intros (g & Hg%list_elem_of_In & Hc)%List.existsb_exists. rewrite Forall_forall in Hok, Hs. destruct (Hok g Hg) as [(_ & _ & V3) _ _ _ _].
  pose proof (Hs g Hg) as Hlt'%Z.lt_le_incl%icmp_user_le. unfold covers in Hc. apply andb_true_iff in Hc as [Hc%Z.leb_le _].
  assert (Compare user u (file_start g) < 0); [|lia]. apply (Compare_lt_le (valid := valid) _ (file_start f)); [done..|].
  by apply (Compare_le_trans (valid := valid) _ (file_limit f)).
Qed.

Lemma base_level_loop_ok u files : ∀ ptr, Forall FileOk files → StronglySorted (λ a b, Compare icmp (largest a) (smallest b) < 0) files → valid u →
  ∃ k, base_level_loop user u files ptr = (existsb (covers user u) files, (ptr + k)%nat) ∧ passed u (take k files).
Proof using HU.
  induction files as [|f files IH]; intros ptr Hok Hs Vu; cbn [base_level_loop]; [exists 0%nat; rewrite Nat.add_0_r; split; [done|constructor]|].
  destruct (Forall_inv Hok) as [(_ & _ & V1) (_ & _ & V2) _ _ Ho]. cbn [existsb]. unfold covers at 1.
  destruct (Z.leb_spec (Compare user u (file_limit f)) 0) as [Hle|Hgt].
  - exists 0%nat. rewrite Nat.add_0_r, andb_true_r. split; [|constructor]. f_equal.
    destruct (Z.leb_spec 0 (Compare user u (file_start f))) as [|Hlt]; [done|]. by rewrite (before_covers u f files).
  - rewrite andb_false_r. cbn [orb]. apply StronglySorted_inv in Hs as [Hs _]. destruct (IH (S ptr) (Forall_inv_tail Hok) Hs Vu) as (k & -> & Hp).
    exists (S k). split; [f_equal; lia|]. constructor; [|done]. apply (Compare_swap (valid := valid)); [done..|lia].
Qed.

Lemma base_levels_loop_ok u levels ptrs : Forall LevelOk levels → valid u → PtrsOk u levels ptrs →
  ∃ ptrs', base_levels_loop user u levels ptrs = (negb (existsb (covers user u) (mjoin levels)), ptrs') ∧ PtrsOk u levels ptrs'.
Proof using HU.
  intros Hok Vu H. induction H as [|files ptr levels ptrs Hp H IH]; [exists []; split; [done|constructor]|]. apply Forall_cons in Hok as [[Hf Hd Hz] Hok].
  cbn [base_levels_loop mjoin list_join]. rewrite <- (take_drop ptr files) in Hf, Hd. apply Forall_app in Hf as [Hf1 Hf2].
  destruct (base_level_loop_ok u (drop ptr files) ptr Hf2) as (k & -> & Hk); [|done|].
  { clear -Hd. induction (take ptr files) as [|x l IH]; [done|]. apply IH. by apply StronglySorted_inv in Hd as [? _]. }
  assert (Hall : existsb (covers user u) files = existsb (covers user u) (drop ptr files)).
  { rewrite <- (take_drop ptr files) at 1. by rewrite existsb_app, (passed_covers u (take ptr files)). }
  assert (Hnew : passed u (take (ptr + k) files)) by (rewrite <- take_take_drop; by apply Forall_app).
  rewrite existsb_app, Hall. destruct (existsb (covers user u) (drop ptr files)); cbn [orb negb].
  - eexists. split; [done|]. by constructor.
  - destruct (IH Hok) as (ptrs' & -> & Hp'). eexists. split; [done|]. by constructor.
Qed.

(** The indices of a compaction, for keys from [u] on. *)
Definition BasePtrs (v : Version) (u : bytes) (c : Compaction) : Prop :=
  length (level_ptrs_ c) = Z.to_nat kNumLevels ∧ PtrsOk u (drop (Z.to_nat (level_ c + 2)) (files_ v)) (drop (Z.to_nat (level_ c + 2)) (level_ptrs_ c)).

(** All but the indices is kept. *)
Definition same_plan (c c' : Compaction) : Prop := level_ c' = level_ c ∧ inputs0 c' = inputs0 c ∧ inputs1 c' = inputs1 c ∧ edit_ c' = edit_ c.

Lemma IsBaseLevelForKey_ok v u c : (∀ l, 0 < l → LevelOk (level_files v l)) → 0 <= level_ c → valid u → BasePtrs v u c →
  ∃ c', IsBaseLevelForKey user v u c = (base_of v (level_ c) u, c') ∧ BasePtrs v u c' ∧ same_plan c c'.
Proof using HU.
  intros Hv Hl Vu [Hlen Hp]. unfold IsBaseLevelForKey, base_of. set (n := Z.to_nat (level_ c + 2)) in *.
  assert (Hok : Forall LevelOk (drop n (files_ v))).
  { apply Forall_lookup. intros i files Hi. rewrite lookup_drop in Hi. specialize (Hv (Z.of_nat (n + i)) ltac:(unfold n; lia)). unfold level_files in Hv. by rewrite Nat2Z.id, Hi in Hv. }
  destruct (base_levels_loop_ok u _ _ Hok Vu Hp) as (ptrs & -> & Hp'). eexists. split; [done|]. split; [|done]. unfold BasePtrs. cbn [with_ptrs level_ptrs_ level_]. fold n.
  pose proof (Forall2_length _ _ _ Hp) as L1. pose proof (Forall2_length _ _ _ Hp') as L2. rewrite !length_drop in *.
  destruct (decide (n <= length (level_ptrs_ c))%nat) as [Hle|Hgt].
  - split; [rewrite length_app, length_take; lia|]. rewrite drop_app_length'; [done|]. rewrite length_take. lia.
  - assert (ptrs = []) as -> by (apply length_zero_iff_nil; lia). rewrite app_nil_r, take_ge by lia. done.
Qed.

Lemma BasePtrs_mono v u u' c : (∀ l, 0 < l → LevelOk (level_files v l)) → 0 <= level_ c → valid u → valid u' → Compare user u u' <= 0 → BasePtrs v u c → BasePtrs v u' c.
Proof using HU.
  intros Hv Hl Vu Vu' Hle [Hlen Hp]. split; [done|]. apply (PtrsOk_mono u); try done. apply Forall_lookup. intros i files Hi. rewrite lookup_drop in Hi.
  specialize (Hv (Z.of_nat (Z.to_nat (level_ c + 2) + i)) ltac:(lia)). unfold level_files in Hv. rewrite Nat2Z.id, Hi in Hv. apply Hv.
Qed.

Lemma Chosen_ptrs v u c : Chosen v c → length (files_ v) = Z.to_nat kNumLevels → BasePtrs v u c.
Proof using Type.
  intros Hc Hlen. unfold BasePtrs. destruct (ch_fresh _ _ Hc) as [-> _]. split; [by rewrite length_replicate|]. unfold PtrsOk. rewrite drop_replicate.
  apply Forall2_same_length_lookup_2; [by rewrite length_drop, length_replicate, Hlen|]. intros i files ptr Hf [-> _]%lookup_replicate. constructor.
Qed.
End PickOk.

(** ** The inputs, told file by file *)

(** [g] lies in the span of [files]: it does not end before all of them nor begin after all of them. *)
Definition in_span (user : Comparator) (files : list FileMetaData) (g : FileMetaData) : Prop :=
  (∃ f, f ∈ files ∧ Compare user (ExtractUserKey (smallest f)) (ExtractUserKey (largest g)) <= 0) ∧
  (∃ f, f ∈ files ∧ Compare user (ExtractUserKey (smallest g)) (ExtractUserKey (largest f)) <= 0).

(** What a compaction chosen in [v] takes: files of its level, none of the others of level 0
    sharing keys with them; exactly the files of the next level in their span; exactly the files
    of the one after in the span of both; and the pointer of its level is set to their end. *)
Record InputsSound (user : Comparator) (v : Version) (c : Compaction) : Prop := {
  in_level : 0 <= level_ c < kNumLevels - 1;
  in_inputs0 : inputs0 c ≠ [] ∧ inputs0 c `sublist_of` level_files v (level_ c);
  in_closed0 f g : level_ c = 0 → f ∈ inputs0 c → g ∈ level_files v 0 → user_overlap (user := user) f g → g ∈ inputs0 c;
  in_inputs1 : inputs1 c `sublist_of` level_files v (level_ c + 1) ∧
    ∀ g, g ∈ level_files v (level_ c + 1) → g ∈ inputs1 c ↔ in_span user (inputs0 c) g;
  in_grandparents : level_ c + 2 < kNumLevels → grandparents_ c `sublist_of` level_files v (level_ c + 2) ∧
    ∀ g, g ∈ level_files v (level_ c + 2) → g ∈ grandparents_ c ↔ in_span user (inputs0 c ++ inputs1 c) g;
  in_pointer : ∃ f, f ∈ inputs0 c ∧ edit_ c = SetCompactPointer (level_ c) (largest f) VersionEdit_make ∧
    ∀ g, g ∈ inputs0 c → Compare (InternalKeyComparator user) (largest g) (largest f) <= 0;
  in_fresh : level_ptrs_ c = replicate (Z.to_nat kNumLevels) 0%nat ∧ grandparent_index_ c = 0%nat ∧ seen_key_ c = false ∧ overlapped_bytes_ c = 0;
}.

Section Span.
Context {valid : bytes → Prop} {user : Comparator} `{HU : !ComparatorOk valid user}.
Abbreviation FileOk := (FileOk (valid := valid) (user := user)).
Abbreviation FilesOk := (FilesOk (valid := valid) (user := user)).

Lemma range_span files lo hi g : Forall FileOk files → RangeOf (user := user) files lo hi → FileOk g →
  in_range (user := user) (Some (ExtractUserKey lo)) (Some (ExtractUserKey hi)) g = true ↔ in_span user files g.
Proof using HU.
  intros Hok [(f0 & Hf0 & ->) (f1 & Hf1 & ->) Hc] [(_ & _ & V1) (_ & _ & V2) _ _ _]. rewrite Forall_forall in Hok.
  destruct (Hok f0 Hf0) as [(_ & _ & V0) _ _ _ _], (Hok f1 Hf1) as [_ (_ & _ & V3) _ _ _].
  unfold in_range, below_begin, above_end, in_span. rewrite andb_true_iff, !negb_true_iff, !Z.ltb_ge. split.
  - intros [H1 H2]. split; [exists f0; split; [done|]; apply (Compare_nlt (valid := valid)); [done..|lia]|exists f1; split; [done|]; lia].
  - intros [(f & Hf & H1) (f' & Hf' & H2)]. destruct (Hok f Hf) as [(B1 & L1 & W1) (B2 & L2 & W2) _ _ _], (Hok f' Hf') as [(B3 & L3 & W3) (B4 & L4 & W4) _ _ _].
    destruct (Hc f Hf) as [C1 _], (Hc f' Hf') as [_ C2]. apply icmp_user_le in C1, C2. split.
    + assert (H : Compare user (ExtractUserKey (smallest f0)) (ExtractUserKey (largest g)) <= 0) by (by apply (Compare_le_trans (valid := valid) _ (ExtractUserKey (smallest f)))).
      apply (Compare_nlt (valid := valid)) in H; [lia|done..].
    + assert (Compare user (ExtractUserKey (smallest g)) (ExtractUserKey (largest f1)) <= 0); [|lia]. by apply (Compare_le_trans (valid := valid) _ (ExtractUserKey (largest f'))).
Qed.

Lemma filter_span files lo hi v l : FilesOk v → Forall FileOk files → RangeOf (user := user) files lo hi →
  let fs := List.filter (in_range (user := user) (Some (ExtractUserKey lo)) (Some (ExtractUserKey hi))) (level_files v l) in
  fs `sublist_of` level_files v l ∧ ∀ g, g ∈ level_files v l → g ∈ fs ↔ in_span user files g.
Proof using HU.
  intros Hv Hok HR. cbv zeta. split; [apply sublist_List_filter|]. intros g Hg. pose proof (Hv l) as Hl. rewrite Forall_forall in Hl.
  rewrite <- (range_span files lo hi g Hok HR (Hl g Hg)), list_elem_of_In, List.filter_In, <- list_elem_of_In. tauto.
Qed.

Lemma Chosen_sound v c : FilesOk v → Chosen (user := user) v c → InputsSound user v c.
Proof using HU.
  intros Hv [C1 [C2 C2'] C3 (lo & hi & Er & E1 & Ee) C5 C6].
  pose proof (sublist_ok v _ _ Hv C2') as Hok0. destruct (GetRange_ok (inputs0 c) Hok0 C2) as (lo' & hi' & Er' & HR & _). rewrite Er in Er'. injection Er' as <- <-.
  destruct (filter_span (inputs0 c) lo hi v (level_ c + 1) Hv Hok0 HR) as [S1 S2]. rewrite <- E1 in S1, S2.
  split; [done|done| |done| | |done].
  - intros f g Hl. by apply C3.
  - intros Hl. destruct (C5 Hl) as (lo2 & hi2 & Er2 & ->). assert (Hok2 : Forall FileOk (inputs0 c ++ inputs1 c)) by (apply Forall_app; split; [done|by apply (sublist_ok v (level_ c + 1))]).
    destruct (GetRange_ok (inputs0 c ++ inputs1 c) Hok2) as (a & z & Er3 & HR2 & _); [by destruct (inputs0 c)|]. unfold GetRange2 in Er2. rewrite Er2 in Er3. injection Er3 as <- <-. by apply filter_span.
  - destruct HR as [_ (f & Hf & ->) Hc]. exists f. split; [done|]. split; [done|]. intros g Hg. by apply Hc.
Qed.
End Span.

(** ** Properties *)

(** [C18] Choosing a compaction never fails: in a version with well-formed files, [PickCompaction]
    returns a compaction exactly when one is due, and [CompactRange] one unless no file meets
    the range.  Its inputs are files of its level, at level 0 with every other file whose user
    keys overlap those of one of them; exactly the files of the next level that lie in the span
    of their user keys, so every file there that overlaps an input; the grandparents are those in the span of both; the
    compaction pointer moves to the largest key of the inputs; and the input version stays current. *)
Theorem compaction_inputs_sound (valid : bytes → Prop) (user : Comparator) (h : Hints) (v : Version) (vs : VersionSet) :
  ComparatorOk valid user → FilesOk (valid := valid) (user := user) v → HintsOk v h → current (versions_ vs) = Some v → zlen (compact_pointer_ vs) = kNumLevels →
  (∃ oc vs', PickCompaction user h vs = Some (oc, vs') ∧ current (versions_ vs') = Some v ∧
     match oc with Some c => InputsSound user v c ∧ NeedsCompaction h = true | None => NeedsCompaction h = false end) ∧
  (∀ l b e, 0 <= l < kNumLevels - 1 → bound_ok (valid := valid) (ExtractUserKey <$> b) → bound_ok (valid := valid) (ExtractUserKey <$> e) →
     ∃ oc vs', CompactRange user l b e vs = Some (oc, vs') ∧ current (versions_ vs') = Some v ∧
       match oc with Some c => InputsSound user v c ∧ level_ c = l | None => GetOverlappingInputs user v l b e = Some [] end).
Proof.
  intros HU Hv Hh Hcur Hcp. split.
  - destruct (PickCompaction_ok h v vs Hv Hh Hcur Hcp) as (oc & vs' & E & H1 & _ & H2). exists oc, vs'. split; [done|]. split; [done|]. destruct oc as [c|]; [|done]. split; [|apply H2]. by apply Chosen_sound, H2.
  - intros l b e Hl Hb He. destruct (CompactRange_ok v vs l b e Hv Hcur Hcp Hl Hb He) as (oc & vs' & E & H1 & _ & H2). exists oc, vs'. split; [done|]. split; [done|]. destruct oc as [c|]; [|done].
    destruct H2 as [H2 H3]. split; [by apply Chosen_sound|done].
Qed.

(** The levels of [Version]: two overlapping files of level 0 are compacted together. *)
Definition sample_pick_set : VersionSet := {|
  vs_next_file_number := 10; vs_manifest_file_number := 2; vs_last_sequence := 9; vs_log_number := 6; vs_prev_log_number := 0; descriptor_log_ := None;
  versions_ := {| live_ := {[0%nat := (sample_levels, 1)]}; current_id := 0; next_id := 1 |}; compact_pointer_ := compact_pointer_ VersionSet_make |}.

Lemma compaction_inputs_sound_witness : ∃ c vs', PickCompaction BytewiseComparator {| size_compaction := true; compaction_level_ := 0; file_to_compact_ := None |} sample_pick_set = Some (Some c, vs') ∧
  number <$> inputs0 c = [7; 8].
Proof.
  destruct (proj1 (compaction_inputs_sound bytes_ok BytewiseComparator {| size_compaction := true; compaction_level_ := 0; file_to_compact_ := None |} sample_levels sample_pick_set
    ltac:(apply _) ltac:(intros l; destruct (clip_level sample_levels l) as [->|(l0 & Hl0 & -> & _)]; [done|constructor|]; revert l0 Hl0; apply level_cases; repeat (apply List.Forall_cons; [sample_files_ok|]); constructor)
    ltac:(split; [intros _; split; [by_compute|done]|done]) ltac:(vm_compute; reflexivity) ltac:(done))) as (oc & vs' & E & _ & Hc).
  destruct oc as [c|]; [|discriminate Hc]. exists c, vs'. split; [exact E|]. vm_compute in E. injection E as <- _. reflexivity.
Defined.
