(* ===== verification/ObsoleteFiles.v ===== *)
(** * Deleting obsolete files

    Model of [DBImpl::DeleteObsoleteFiles] ([App/integration/db_impl.cpp]): every file of the
    database directory whose name parses is kept or deleted by its type and number.  The
    directory listing is [GetChildren], [Evict] is [TableCache::Evict]; both are given. *)
From S2P Require Import Prelude Coding Comparator DbFormat Logging Status Filename VersionEdit Version VersionSet.
From stdpp Require Import list gmap.

#[local] Open Scope Z_scope.

Section Obsolete.
Context {W : Type} (env : Env W) (GetChildren : W → list bytes) (Evict : Z → W → W) (dbname_ : bytes).

Definition in_dir (filename : bytes) : bytes := dbname_ ++ str "/" ++ filename.

(** The switch on the type of a file. *)
Definition keep_file (live : gset Z) (vs : VersionSet) (number : Z) (type : FileType) : bool :=
  match type with
  | kLogFile => (vs_log_number vs <=? number) || (number =? vs_prev_log_number vs)
  | kDescriptorFile => vs_manifest_file_number vs <=? number
  | kTableFile => bool_decide (number ∈ live)
  | kTempFile => bool_decide (number ∈ live)
  | kCurrentFile | kDBLockFile | kInfoLogFile => true
  end.

Fixpoint delete_loop (live : gset Z) (vs : VersionSet) (filenames : list bytes) (w : W) : W :=
  match filenames with
  | [] => w
  | filename :: filenames =>
      let w :=
        match ParseFileName filename with
        | Some (number, type) =>
            if keep_file live vs number type then w
            else
              let w := match type with kTableFile => Evict number w | _ => w end in
              (Filename.DeleteFile env (in_dir filename) w).2
        | None => w
        end in
      delete_loop live vs filenames w
  end.

Definition DeleteObsoleteFiles (bg_error : Status) (pending_outputs : gset Z) (vs : VersionSet) (w : W) : W :=
  if negb (Status_ok bg_error) then w
  else delete_loop (AddLiveFiles (versions_ vs) pending_outputs) vs (GetChildren w) w.
End Obsolete.

(** ** What is kept *)

(** A name the loop leaves alone: it does not parse, or its file is needed. *)
Definition kept_name (live : gset Z) (vs : VersionSet) (filename : bytes) : bool :=
  match ParseFileName filename with Some (number, type) => keep_file live vs number type | None => true end.

Section ObsoleteOk.
Context {W : Type} (env : Env W) (GetChildren : W → list bytes) (Evict : Z → W → W) (dbname : bytes).
Abbreviation delete_loop := (delete_loop env Evict dbname).
Abbreviation in_dir := (in_dir dbname).

#[export] Instance in_dir_inj : Inj (=) (=) in_dir.
Proof using Type. intros a b H. unfold ObsoleteFiles.in_dir in H. by apply app_inv_head, app_inv_head in H. Qed.

(** What holds of the world stays, when no deletion of an obsolete file breaks it. *)
Lemma delete_loop_frame (P : W → Prop) live vs names :
  (∀ n w, P w → P (Evict n w)) → (∀ f w, kept_name live vs f = false → P w → P (Filename.DeleteFile env (in_dir f) w).2) → ∀ w, P w → P (delete_loop live vs names w).
Proof using Type.
  intros He Hd. induction names as [|f names IH]; intros w Hw; [done|]. cbn [ObsoleteFiles.delete_loop]. apply IH. unfold kept_name in Hd. specialize (Hd f).
  destruct (ParseFileName f) as [[n t]|]; [|done]. destruct (keep_file live vs n t); [done|]. apply Hd; [done|]. destruct t; auto.
Qed.

Context {files : W → gmap bytes bytes} `{HE : !EnvOk env files} (Hevict : ∀ n w, files (Evict n w) = files w).

Lemma delete_loop_keeps live vs names f w : kept_name live vs f = true → files (delete_loop live vs names w) !! in_dir f = files w !! in_dir f.
Proof using HE Hevict.
  intros Hk. apply (delete_loop_frame (λ w', files w' !! in_dir f = files w !! in_dir f)); [intros n w' <-; by rewrite Hevict| |done].
  intros g w' Hg <-. apply (delete_frame (env := env) (files := files)). intros ->%(inj in_dir). congruence.
Qed.

Lemma delete_loop_drops (Hdel : ∀ f w, files (Filename.DeleteFile env f w).2 !! f = None) live vs names f w : f ∈ names → kept_name live vs f = false →
  files (delete_loop live vs names w) !! in_dir f = None.
Proof using HE Hevict.
  intros Hf Hk. revert w. induction names as [|g names IH]; intros w; [by apply elem_of_nil in Hf|]. cbn [ObsoleteFiles.delete_loop].
  destruct (decide (g = f)) as [->|Hne]; [|apply IH; by apply elem_of_cons in Hf as [->|Hf]].
  apply (delete_loop_frame (λ w, files w !! in_dir f = None)); [intros n w' <-; by rewrite Hevict| |].
  - intros h w' _ Hw. destruct (decide (h = f)) as [->|Hh]; [apply Hdel|]. rewrite <- Hw. apply (delete_frame (env := env) (files := files)). by intros ->%(inj in_dir).
  - unfold kept_name in Hk. destruct (ParseFileName f) as [[n t]|]; [|done]. rewrite Hk. apply Hdel.
Qed.
End ObsoleteOk.

Lemma AddLiveFiles_elem vl live n : n ∈ AddLiveFiles vl live ↔ n ∈ live ∨ ∃ id v r l f, live_ vl !! id = Some (v, r) ∧ l ∈ files_ v ∧ f ∈ l ∧ n = number f.
Proof.
  unfold AddLiveFiles. revert n. apply (map_fold_weak_ind (λ L m, ∀ n, n ∈ L ↔ n ∈ live ∨ ∃ id v r l f, m !! id = Some (v, r) ∧ l ∈ files_ v ∧ f ∈ l ∧ n = number f)).
  - intros n. split; [by left|]. intros [?|(? & ? & ? & ? & ? & H & _)]; [done|]. by rewrite lookup_empty in H.
  - intros i [v r] m L Hi IH n. rewrite elem_of_union, IH. unfold version_numbers. rewrite elem_of_list_to_set, list_elem_of_join. split.
    + intros [(ns & Hn & (l & -> & Hl)%list_elem_of_fmap)|[?|(id & v' & r' & l & f & H1 & H2)]]; [|by left|].
      * apply list_elem_of_fmap in Hn as (f & -> & Hf). right. exists i, v, r, l, f. by rewrite lookup_insert_eq.
      * right. exists id, v', r', l, f. rewrite lookup_insert_ne by congruence. done.
    + intros [?|(id & v' & r' & l & f & H1 & H2 & H3 & ->)]; [by right; left|]. destruct (decide (id = i)) as [->|Hne].
      * rewrite lookup_insert_eq in H1. injection H1 as <- <-. left. exists (number <$> l). split; by apply list_elem_of_fmap_2.
      * rewrite lookup_insert_ne in H1 by done. right; right. by exists id, v', r', l, f.
Qed.

Definition base_name (dbname f : bytes) : bytes := drop (length dbname + 1) f.

Lemma in_dir_base dbname rest : in_dir dbname (base_name dbname (dbname ++ str "/" ++ rest)) = dbname ++ str "/" ++ rest.
Proof. unfold in_dir, base_name. by rewrite drop_dir. Qed.

(** The names of the database lie in its directory and parse. *)
Definition named (dbname f : bytes) (n : Z) (t : FileType) : Prop := in_dir dbname (base_name dbname f) = f ∧ ParseFileName (base_name dbname f) = Some (n, t).

Lemma names_ok dbname n : is_u 64 n →
  (named dbname (LogFileName dbname n) n kLogFile ∧ named dbname (DescriptorFileName dbname n) n kDescriptorFile) ∧
  (named dbname (TableFileName dbname n) n kTableFile ∧ named dbname (SSTTableFileName dbname n) n kTableFile ∧ named dbname (TempFileName dbname n) n kTempFile) ∧
  named dbname (CurrentFileName dbname) 0 kCurrentFile ∧ named dbname (LockFileName dbname) 0 kDBLockFile ∧
  named dbname (InfoLogFileName dbname) 0 kInfoLogFile ∧ named dbname (OldInfoLogFileName dbname) 0 kInfoLogFile.
Proof.
  intros Hn. destruct (file_name_roundtrip dbname n Hn) as (H1 & H2 & H3 & H4 & H5 & H6 & H7 & H8 & H9).
  split_and!; (split; [apply in_dir_base|done]).
Qed.

(** A file listed in a live version, or protected while it is written. *)
Definition needed (vs : VersionSet) (pending : gset Z) (n : Z) : Prop :=
  n ∈ pending ∨ ∃ id v r l f, live_ (versions_ vs) !! id = Some (v, r) ∧ l ∈ files_ v ∧ f ∈ l ∧ n = number f.

(** ** Properties *)

(** [C14] Deleting obsolete files keeps what is needed and removes the rest: after a background
    error nothing is deleted; otherwise the tables (under either suffix) of every live version and
    of every pending output, the logs from the current log number on and the previous log, the
    manifest in use and any newer one, and the CURRENT, LOCK and LOG files keep their contents,
    as does every file whose name the database does not use; and where deletions succeed, every
    other table, log and manifest in the listing is gone. *)
Theorem obsolete_files_safe {W : Type} (env : Env W) (files : W → gmap bytes bytes) (GetChildren : W → list bytes) (Evict : Z → W → W) (dbname : bytes)
    (bg_error : Status) (pending : gset Z) (vs : VersionSet) (w : W) :
  EnvOk env files → (∀ n w, files (Evict n w) = files w) →
  let w' := DeleteObsoleteFiles env GetChildren Evict dbname bg_error pending vs w in
  let same f := files w' !! f = files w !! f in
  let gone f := base_name dbname f ∈ GetChildren w → files w' !! f = None in
  (Status_ok bg_error = false → w' = w) ∧
  (∀ n, is_u 64 n → needed vs pending n → same (TableFileName dbname n) ∧ same (SSTTableFileName dbname n) ∧ same (TempFileName dbname n)) ∧
  (∀ n, is_u 64 n → vs_log_number vs <= n ∨ n = vs_prev_log_number vs → same (LogFileName dbname n)) ∧
  (∀ n, is_u 64 n → vs_manifest_file_number vs <= n → same (DescriptorFileName dbname n)) ∧
  (same (CurrentFileName dbname) ∧ same (LockFileName dbname) ∧ same (InfoLogFileName dbname) ∧ same (OldInfoLogFileName dbname)) ∧
  (∀ f, ParseFileName f = None → same (in_dir dbname f)) ∧
  ((∀ f w, files (Filename.DeleteFile env f w).2 !! f = None) → Status_ok bg_error = true → ∀ n, is_u 64 n →
    (¬ needed vs pending n → gone (TableFileName dbname n) ∧ gone (SSTTableFileName dbname n) ∧ gone (TempFileName dbname n)) ∧
    (n < vs_log_number vs → n ≠ vs_prev_log_number vs → gone (LogFileName dbname n)) ∧
    (n < vs_manifest_file_number vs → gone (DescriptorFileName dbname n))).
Proof.
  intros HE Hev w' same gone. set (live := AddLiveFiles (versions_ vs) pending).
  assert (Hsame : ∀ f, kept_name live vs f = true → same (in_dir dbname f)).
  { intros f Hf. unfold same, w', DeleteObsoleteFiles. destruct (Status_ok bg_error); [|done]. by apply (delete_loop_keeps env Evict dbname (files := files)). }
  assert (Hkeep : ∀ f k t, named dbname f k t → keep_file live vs k t = true → same f).
  { intros f k t [Hf Hp] Hk. rewrite <- Hf. apply Hsame. unfold kept_name. by rewrite Hp. }
  assert (Hgone : (∀ f w, files (Filename.DeleteFile env f w).2 !! f = None) → Status_ok bg_error = true → ∀ f k t, named dbname f k t → keep_file live vs k t = false → gone f).
  { intros Hdel Hbg f k t [Hf Hp] Hk Hch. rewrite <- Hf. unfold w', DeleteObsoleteFiles. rewrite Hbg.
    apply (delete_loop_drops env Evict dbname (files := files)); [done|done|done|]. unfold kept_name. by rewrite Hp. }
  assert (Hlive : ∀ n, n ∈ live ↔ needed vs pending n) by (intros n; apply AddLiveFiles_elem).
  destruct (names_ok dbname 0 ltac:(unfold is_u; lia)) as (_ & _ & F1 & F2 & F3 & F4).
  split_and!; [| | | |by apply (Hkeep _ _ _ F1)|by apply (Hkeep _ _ _ F2)|by apply (Hkeep _ _ _ F3)|by apply (Hkeep _ _ _ F4)| |].
  - intros Hbg. unfold w', DeleteObsoleteFiles. by rewrite Hbg.
  - intros n Hn Hneed. destruct (names_ok dbname n Hn) as (_ & (N1 & N2 & N3) & _). apply Hlive in Hneed.
    split_and!; [apply (Hkeep _ _ _ N1)|apply (Hkeep _ _ _ N2)|apply (Hkeep _ _ _ N3)]; by apply bool_decide_eq_true_2.
  - intros n Hn Hl. destruct (names_ok dbname n Hn) as ((N1 & _) & _). eapply Hkeep; [done|]. cbn [keep_file]. lia.
  - intros n Hn Hl. destruct (names_ok dbname n Hn) as ((_ & N1) & _). eapply Hkeep; [done|]. cbn [keep_file]. lia.
  - intros f Hf. apply Hsame. unfold kept_name. by rewrite Hf.
  - intros Hdel Hbg n Hn. destruct (names_ok dbname n Hn) as ((N1 & N2) & (N3 & N4 & N5) & _). split_and!.
    + intros Hneed. rewrite <- Hlive in Hneed. split_and!; [apply (Hgone Hdel Hbg _ _ _ N3)|apply (Hgone Hdel Hbg _ _ _ N4)|apply (Hgone Hdel Hbg _ _ _ N5)]; by apply bool_decide_eq_false_2.
    + intros H1 H2. eapply Hgone; [done|done|exact N1|]. cbn [keep_file]. lia.
    + intros H1. eapply Hgone; [done|done|exact N2|]. cbn [keep_file]. lia.
Qed.

Definition sample_dir : gmap bytes bytes := {[ TableFileName (str "db") 3 := [1]; TableFileName (str "db") 5 := [2]; CurrentFileName (str "db") := [3] ]}.
Definition sample_children (w : gmap bytes bytes) : list bytes := base_name (str "db") <$> (map_to_list w).*1.

Lemma obsolete_files_safe_witness :
  let w' := DeleteObsoleteFiles plain_env sample_children (λ _ w, w) (str "db") OK {[5]} VersionSet_make sample_dir in
  w' !! TableFileName (str "db") 5 = Some [2] ∧ w' !! CurrentFileName (str "db") = Some [3] ∧ w' !! TableFileName (str "db") 3 = None.
Proof.
  destruct (obsolete_files_safe plain_env id sample_children (λ _ w, w) (str "db") OK {[5]} VersionSet_make sample_dir) as (_ & H1 & _ & _ & (H2 & _) & _ & H3).
  - apply plain_env_ok.
  - done.
  - split_and!.
    + destruct (H1 5) as [H _]; [by_compute|by left; apply elem_of_singleton|exact H].
    + exact H2.
    + destruct (H3 ltac:(intros f w; apply lookup_delete_eq) eq_refl 3) as [H _]; [by_compute|]. destruct H as [H _]; [|exact (H ltac:(by_compute))].
      intros [?%elem_of_singleton|(id & v & r & l & f & Hid & Hl & Hf & _)]; [done|]. cbn in Hid. apply lookup_singleton_Some in Hid as [<- [= <- <-]].
      apply elem_of_replicate in Hl as [-> _]. by apply elem_of_nil in Hf.
Defined.
