(* ===== verification/Snapshot.v ===== *)
(** * Snapshots

    Model of [App/integration/snapshot.h]: the circular doubly linked list of the snapshots in
    use, and of the functions of [db_impl.cpp] that take, release and consult them.  Nodes live
    in a store by address; address 0 is the dummy head [list_].  Following a pointer to freed
    memory, or a failed assertion, is [None]. *)
From S2P Require Import Prelude DbFormat.
From stdpp Require Import sorting list gmap.

#[local] Open Scope Z_scope.

Record SnapshotImpl := { number_ : Z; prev_ : nat; next_ : nat }.

(** [sl_next] is the address the next [new] returns. *)
Record SnapshotList := { sl_nodes : gmap nat SnapshotImpl; sl_next : nat }.

Definition list_ : nat := 0.
Arguments list_ : simpl never.

Definition SnapshotList_make : SnapshotList :=
  {| sl_nodes := {[list_ := {| number_ := 0; prev_ := list_; next_ := list_ |}]}; sl_next := 1 |}.

Definition empty (l : SnapshotList) : option bool :=
  h ← sl_nodes l !! list_; Some (bool_decide (next_ h = list_)).
Definition oldest (l : SnapshotList) : option nat :=
  h ← sl_nodes l !! list_; if bool_decide (next_ h = list_) then None else Some (next_ h).
Definition newest (l : SnapshotList) : option nat :=
  h ← sl_nodes l !! list_; if bool_decide (next_ h = list_) then None else Some (prev_ h).

(** [p->next_ = x] and [p->prev_ = x]. *)
Definition set_next (p x : nat) (m : gmap nat SnapshotImpl) : option (gmap nat SnapshotImpl) :=
  nd ← m !! p; Some (<[p := {| number_ := number_ nd; prev_ := prev_ nd; next_ := x |}]> m).
Definition set_prev (p x : nat) (m : gmap nat SnapshotImpl) : option (gmap nat SnapshotImpl) :=
  nd ← m !! p; Some (<[p := {| number_ := number_ nd; prev_ := x; next_ := next_ nd |}]> m).

Definition New (seq : Z) (l : SnapshotList) : option (nat * SnapshotList) :=
  let s := sl_next l in
  h ← sl_nodes l !! list_;
  let m := <[s := {| number_ := seq; prev_ := prev_ h; next_ := list_ |}]> (sl_nodes l) in
  m ← set_next (prev_ h) s m;
  m ← set_prev list_ s m;
  Some (s, {| sl_nodes := m; sl_next := S s |}).

(** The assertion that [s] is of this list is that it is one of its nodes. *)
Definition Delete (s : nat) (l : SnapshotList) : option SnapshotList :=
  nd ← sl_nodes l !! s;
  m ← set_next (prev_ nd) (next_ nd) (sl_nodes l);
  nd ← m !! s;
  m ← set_prev (next_ nd) (prev_ nd) m;
  Some {| sl_nodes := delete s m; sl_next := sl_next l |}.

(** [DBImpl::GetSnapshot] and [ReleaseSnapshot], and the oldest sequence number that a
    compaction must keep visible. *)
Definition GetSnapshot (last_sequence : Z) (l : SnapshotList) : option (nat * SnapshotList) := New last_sequence l.
Definition ReleaseSnapshot (s : nat) (l : SnapshotList) : option SnapshotList := Delete s l.
Definition smallest_snapshot (last_sequence : Z) (l : SnapshotList) : option Z :=
  e ← empty l;
  if e : bool then Some last_sequence else o ← oldest l; number_ <$> sl_nodes l !! o.

(** ** The list it represents *)

Definition nx (m : gmap nat SnapshotImpl) (a : nat) : option nat := next_ <$> m !! a.
Definition pv (m : gmap nat SnapshotImpl) (a : nat) : option nat := prev_ <$> m !! a.

(** Neighbours in [L] point to each other. *)
Fixpoint links (m : gmap nat SnapshotImpl) (L : list nat) : Prop :=
  match L with
  | u :: ((v :: _) as L') => nx m u = Some v ∧ pv m v = Some u ∧ links m L'
  | _ => True
  end.

(** The snapshots [xs], address and number, from the oldest on. *)
Record represents (l : SnapshotList) (xs : list (nat * Z)) : Prop := {
  rp_links : links (sl_nodes l) (list_ :: xs.*1 ++ [list_]);
  rp_numbers a q : (a, q) ∈ xs → number_ <$> sl_nodes l !! a = Some q;
  rp_nodup : NoDup (list_ :: xs.*1);
  rp_dom a : is_Some (sl_nodes l !! a) ↔ a ∈ list_ :: xs.*1;
  rp_fresh a : a ∈ list_ :: xs.*1 → (a < sl_next l)%nat;
}.

Lemma links_app m A u B : links m (A ++ u :: B) ↔ links m (A ++ [u]) ∧ links m (u :: B).
Proof.
  induction A as [|a A IH]; simpl; [destruct B; naive_solver|].
  destruct A as [|b A]; simpl in *; [naive_solver|]. rewrite IH. naive_solver.
Qed.

Lemma links_frame m m' L : (∀ A u v B, L = A ++ u :: v :: B → nx m' u = nx m u ∧ pv m' v = pv m v) → links m L → links m' L.
Proof.
  induction L as [|u L IH]; [done|]. destruct L as [|v L]; [done|]. intros Hf (H1 & H2 & H3).
  destruct (Hf [] u v L eq_refl) as [E1 E2]. split; [by rewrite E1|]. split; [by rewrite E2|].
  apply IH; [|done]. intros A u' v' B HL. apply (Hf (u :: A) u' v' B). by rewrite HL.
Qed.

(** A list without repetitions, apart from its two ends. *)
Lemma ring_position (as_ : list nat) A u v B : NoDup (list_ :: as_) → list_ :: as_ ++ [list_] = A ++ u :: v :: B →
  u ∉ A ∧ v ∉ B ∧ (u ∈ v :: B → u = list_) ∧ (v ∈ A → v = list_).
Proof.
  intros Hnd HL. assert (Hu : ∃ C, list_ :: as_ = A ++ u :: C ∧ v :: B = C ++ [list_]).
  { destruct (exists_last (l := v :: B) ltac:(done)) as (C & z & EC). exists C.
    replace (A ++ u :: v :: B) with ((A ++ u :: C) ++ [z]) in HL by (rewrite EC, <- app_assoc; done).
    change (list_ :: as_ ++ [list_]) with ((list_ :: as_) ++ [list_]) in HL. apply app_inj_tail in HL as [-> <-]. done. }
  destruct Hu as (C & E1 & E2). rewrite E1 in Hnd. apply NoDup_app in Hnd as (_ & Hd & Hnd). apply NoDup_cons in Hnd as [HuC HC].
  split; [intros H; apply (Hd u H); left|]. split; [|split].
  - intros HvB. destruct C as [|c C]; simpl in E2; simplify_eq; [by apply not_elem_of_nil in HvB|].
    apply elem_of_app in HvB as [HvB| ->%list_elem_of_singleton]; [apply NoDup_cons in HC as [? _]; done|].
    destruct A as [|a A]; simpl in E1; simplify_eq; [apply HuC; left|]. apply (Hd list_); [left|right; left].
  - intros Hin. rewrite E2 in Hin. apply elem_of_app in Hin as [?|?%list_elem_of_singleton]; [done|done].
  - intros Hin. destruct C as [|c C]; simpl in E2; simplify_eq; [done|]. exfalso. apply (Hd c Hin). right. left.
Qed.

Lemma links_nx m A u v B : links m (A ++ u :: v :: B) → nx m u = Some v ∧ pv m v = Some u.
Proof. intros H. apply links_app in H as [_ H]. simpl in H. naive_solver. Qed.

Lemma set_next_Some p x m : is_Some (m !! p) → ∃ m', set_next p x m = Some m' ∧
  (∀ a, nx m' a = if decide (a = p) then Some x else nx m a) ∧ (∀ a, pv m' a = pv m a) ∧
  (∀ a, number_ <$> m' !! a = number_ <$> m !! a) ∧ (∀ a, is_Some (m' !! a) ↔ is_Some (m !! a)).
Proof.
  intros [nd E]. unfold set_next. rewrite E. simpl. eexists. split; [done|]. unfold nx, pv.
  split_and!; intros a; destruct (decide (a = p)) as [->|]; rewrite ?lookup_insert_eq, ?lookup_insert_ne, ?E by done; try done; naive_solver.
Qed.

Lemma set_prev_Some p x m : is_Some (m !! p) → ∃ m', set_prev p x m = Some m' ∧
  (∀ a, nx m' a = nx m a) ∧ (∀ a, pv m' a = if decide (a = p) then Some x else pv m a) ∧
  (∀ a, number_ <$> m' !! a = number_ <$> m !! a) ∧ (∀ a, is_Some (m' !! a) ↔ is_Some (m !! a)).
Proof.
  intros [nd E]. unfold set_prev. rewrite E. simpl. eexists. split; [done|]. unfold nx, pv.
  split_and!; intros a; destruct (decide (a = p)) as [->|]; rewrite ?lookup_insert_eq, ?lookup_insert_ne, ?E by done; try done; naive_solver.
Qed.

Lemma represents_empty : represents SnapshotList_make [].
Proof.
  split; simpl; [done| | | |].
  - by intros a q ?%not_elem_of_nil.
  - apply NoDup_singleton.
  - intros a. destruct (decide (a = list_)) as [->|Hne]; [rewrite lookup_singleton_eq; split; [left|done]|].
    rewrite lookup_singleton_ne by done. split; [by intros [? ?]|]. by intros ?%list_elem_of_singleton.
  - intros a ->%list_elem_of_singleton. unfold list_. lia.
Qed.

(** The last node before the head. *)
Lemma ring_last (as_ : list nat) : ∃ A p, list_ :: as_ = A ++ [p] ∧ list_ :: as_ ++ [list_] = A ++ [p; list_].
Proof.
  destruct (exists_last (l := list_ :: as_) ltac:(done)) as (A & p & E). exists A, p. split; [done|].
  change (list_ :: as_ ++ [list_]) with ((list_ :: as_) ++ [list_]). rewrite E, <- app_assoc. done.
Qed.

(** Neighbours on the way to the last node: neither is the end they could be. *)
Lemma ring_inner (as_ : list nat) A' u v B A p : NoDup (list_ :: as_) → list_ :: as_ = A' ++ u :: v :: B → list_ :: as_ = A ++ [p] →
  u ∈ list_ :: as_ ∧ v ∈ list_ :: as_ ∧ u ≠ p ∧ v ≠ list_.
Proof.
  intros Hnd EA E1. split; [rewrite EA; apply elem_of_app; right; left|]. split; [rewrite EA; apply elem_of_app; right; right; left|].
  rewrite EA in Hnd. pose proof Hnd as (_ & Hd & Hnd')%NoDup_app. split.
  - intros ->. apply NoDup_cons in Hnd' as [Hnd' _]. apply Hnd'. rewrite E1 in EA. assert (Hlast : last (A' ++ p :: v :: B) = Some p) by (rewrite <- EA; by apply last_snoc).
    rewrite last_app_cons in Hlast. rewrite last_cons_cons in Hlast. by apply last_Some_elem_of in Hlast.
  - intros ->. destruct A' as [|a A']; simplify_eq/=; [apply NoDup_cons in Hnd' as [Hnd' _]; apply Hnd'; left|].
    apply (Hd list_); [left|right; left].
Qed.

Lemma New_represents l xs q : represents l xs →
  ∃ l', New q l = Some (sl_next l, l') ∧ represents l' (xs ++ [(sl_next l, q)]).
Proof.
  intros [Hl Hn Hnd Hdom Hf]. destruct (ring_last xs.*1) as (A & p & E1 & E2). pose proof Hl as Hl'. rewrite E2 in Hl'.
  destruct (links_nx _ A p list_ [] Hl') as [_ Hpv]. unfold pv in Hpv. apply fmap_Some in Hpv as (h & Hh & Hp).
  unfold New. rewrite Hh. cbn [mbind option_bind]. set (s := sl_next l) in *. set (m0 := <[s := _]> (sl_nodes l)).
  assert (Hs : s ∉ list_ :: xs.*1) by (intros Hin; apply Hf in Hin; lia).
  assert (Hnone : sl_nodes l !! s = None) by (apply eq_None_not_Some; by rewrite Hdom).
  assert (Hpin : p ∈ list_ :: xs.*1) by (rewrite E1; apply elem_of_app; right; left).
  assert (Hps : p ≠ s) by congruence. assert (Hls : list_ ≠ s) by (intros <-; apply Hs; left).
  destruct (set_next_Some p s m0) as (m1 & Em1 & Hnx1 & Hpv1 & Hnum1 & Hd1).
  { unfold m0. rewrite lookup_insert_ne by done. by apply Hdom. }
  rewrite <- Hp, Em1. cbn [mbind option_bind]. destruct (set_prev_Some list_ s m1) as (m2 & Em2 & Hnx2 & Hpv2 & Hnum2 & Hd2).
  { apply Hd1. unfold m0. rewrite lookup_insert_ne by done. by rewrite Hh. }
  rewrite Em2. cbn [mbind option_bind]. eexists. split; [done|].
  assert (Hm0 : ∀ a, a ≠ s → nx m0 a = nx (sl_nodes l) a ∧ pv m0 a = pv (sl_nodes l) a ∧ m0 !! a = sl_nodes l !! a).
  { intros a Ha. unfold nx, pv, m0. by rewrite !lookup_insert_ne by done. }
  assert (Hnew : nx m0 s = Some list_ ∧ pv m0 s = Some p ∧ number_ <$> m0 !! s = Some q).
  { unfold nx, pv, m0. by rewrite lookup_insert_eq, <- Hp. }
  assert (Hall : ∀ a, a ∈ list_ :: (xs ++ [(s, q)]).*1 ↔ a ∈ list_ :: xs.*1 ∨ a = s).
  { intros a. rewrite fmap_app. change (list_ :: xs.*1 ++ [(s, q)].*1) with ((list_ :: xs.*1) ++ [s]). rewrite elem_of_app, list_elem_of_singleton. done. }
  split; cbn [sl_nodes sl_next].
  - rewrite fmap_app. cbn [fmap list_fmap fst]. change (list_ :: (xs.*1 ++ [s]) ++ [list_]) with (((list_ :: xs.*1) ++ [s]) ++ [list_]).
    rewrite E1, <- !app_assoc. cbn [app]. apply links_app. split.
    + apply links_app in Hl' as [Hl' _]. revert Hl'. apply links_frame. intros A' u v B EA. rewrite <- E1 in EA.
      destruct (ring_inner xs.*1 A' u v B A p Hnd EA E1) as (Hu & Hv & Hup & Hvl).
      assert (u ≠ s) by congruence. assert (v ≠ s) by congruence.
      rewrite Hnx2, Hnx1, Hpv2, Hpv1. rewrite !decide_False by done. split; by apply Hm0.
    + simpl. rewrite !Hnx2, !Hnx1, !Hpv2, !Hpv1. rewrite (decide_True (P := p = p)), (decide_False (P := s = list_)), (decide_False (P := s = p)), (decide_True (P := list_ = list_)) by done.
      destruct Hnew as (-> & -> & _). done.
  - intros a q' [Hin|[= -> ->]%list_elem_of_singleton]%elem_of_app; rewrite Hnum2, Hnum1; [|by destruct Hnew as (_ & _ & ->)].
    assert (a ≠ s). { intros ->. apply Hs. right. by apply (list_elem_of_fmap_2 fst) in Hin. }
    destruct (Hm0 a) as (_ & _ & ->); [done|]. by apply Hn.
  - rewrite fmap_app. change (list_ :: xs.*1 ++ [(s, q)].*1) with ((list_ :: xs.*1) ++ [s]). apply NoDup_app.
    split; [done|]. split; [by intros a Ha ->%list_elem_of_singleton|apply NoDup_singleton].
  - intros a. rewrite Hall, Hd2, Hd1. unfold m0. destruct (decide (a = s)) as [->|]; [rewrite lookup_insert_eq; naive_solver|].
    rewrite lookup_insert_ne by done. rewrite Hdom. naive_solver.
  - intros a [Ha%Hf| ->]%Hall; lia.
Qed.

(** A node with its neighbours on the ring. *)
Lemma ring_around (xs : list (nat * Z)) s q ys :
  ∃ A p n B, list_ :: (xs ++ (s, q) :: ys).*1 ++ [list_] = A ++ p :: s :: n :: B ∧ list_ :: (xs ++ ys).*1 ++ [list_] = A ++ p :: n :: B ∧
    A ++ [p] = list_ :: xs.*1 ∧ n :: B = ys.*1 ++ [list_].
Proof.
  destruct (exists_last (l := list_ :: xs.*1) ltac:(done)) as (A & p & E). destruct (ys.*1 ++ [list_]) as [|n B] eqn:E2; [by destruct (ys.*1)|].
  exists A, p, n, B. rewrite !fmap_app, fmap_cons. cbn [fst]. rewrite <- !app_assoc. cbn [app].
  change (list_ :: xs.*1 ++ s :: ys.*1 ++ [list_]) with ((list_ :: xs.*1) ++ s :: ys.*1 ++ [list_]).
  change (list_ :: xs.*1 ++ ys.*1 ++ [list_]) with ((list_ :: xs.*1) ++ ys.*1 ++ [list_]). rewrite E, E2, <- !app_assoc. done.
Qed.

(** Addresses before, at and after a node are different. *)
Lemma ring_apart (xs : list (nat * Z)) s q ys : NoDup (list_ :: (xs ++ (s, q) :: ys).*1) →
  s ≠ list_ ∧ s ∉ xs.*1 ∧ s ∉ ys.*1 ∧ list_ ∉ xs.*1 ∧ list_ ∉ ys.*1 ∧ NoDup (xs.*1) ∧ NoDup (ys.*1) ∧ (∀ a, a ∈ xs.*1 → a ∈ ys.*1 → False).
Proof.
  rewrite fmap_app, fmap_cons. cbn [fst]. intros [Hl (H1 & H2 & [H3 H4]%NoDup_cons)%NoDup_app]%NoDup_cons.
  rewrite elem_of_app, elem_of_cons in Hl. split_and!; try done; try naive_solver.
  - intros Hs. apply (H2 s Hs). left.
  - intros a Ha Hb. apply (H2 a Ha). by right.
Qed.

(** Neighbours after a node. *)
Lemma ring_tail (as_ : list nat) A u v C n B : NoDup as_ → list_ ∉ as_ → n :: B = as_ ++ [list_] → n :: B = A ++ u :: v :: C →
  u ∈ as_ ∧ v ∈ as_ ++ [list_] ∧ v ≠ n.
Proof.
  intros Hnd Hl EB EC. rewrite EB in EC. assert (Hv : v ∈ as_ ++ [list_]) by (rewrite EC; apply elem_of_app; right; right; left).
  assert (Hnd' : NoDup (as_ ++ [list_])) by (apply NoDup_app; split; [done|]; split; [by intros a Ha ->%list_elem_of_singleton|apply NoDup_singleton]).
  split; [|split; [done|]].
  - destruct (exists_last (l := v :: C) ltac:(done)) as (D & z & ED). replace (A ++ u :: v :: C) with ((A ++ u :: D) ++ [z]) in EC by (rewrite ED, <- app_assoc; done).
    apply app_inj_tail in EC as [-> _]. apply elem_of_app. right. left.
  - intros ->. rewrite <- EB in EC, Hnd'. apply NoDup_cons in Hnd' as [Hn _]. apply Hn.
    destruct A as [|a A]; simplify_eq/=; [left|apply elem_of_app; right; right; left].
Qed.

Lemma Delete_represents l xs s q ys : represents l (xs ++ (s, q) :: ys) →
  ∃ l', Delete s l = Some l' ∧ represents l' (xs ++ ys).
Proof.
  intros [Hl Hn Hnd Hdom Hf]. destruct (ring_around xs s q ys) as (A & p & n & B & E1 & E2 & EA & EB).
  destruct (ring_apart xs s q ys Hnd) as (Hsl & Hsx & Hsy & Hlx & Hly & Hdx & Hdy & Hxy).
  rewrite E1 in Hl. destruct (links_nx _ _ _ _ _ Hl) as [_ Hps].
  assert (Hl2 : links (sl_nodes l) ((A ++ [p]) ++ s :: n :: B)) by (by rewrite <- app_assoc). destruct (links_nx _ _ _ _ _ Hl2) as [Hsn _].
  unfold nx, pv in Hps, Hsn. apply fmap_Some in Hps as (nd & Hnd1 & ->). rewrite Hnd1 in Hsn. injection Hsn as <-.
  set (p := prev_ nd) in *. set (n := next_ nd) in *.
  assert (Hall : ∀ a, a ∈ list_ :: (xs ++ (s, q) :: ys).*1 ↔ a = s ∨ a ∈ list_ :: (xs ++ ys).*1).
  { intros a. rewrite !fmap_app, fmap_cons, !elem_of_cons, !elem_of_app, elem_of_cons. cbn [fst]. naive_solver. }
  assert (Hp : p ∈ list_ :: xs.*1) by (rewrite <- EA; apply elem_of_app; right; left).
  assert (Hnin : n ∈ ys.*1 ++ [list_]) by (rewrite <- EB; left).
  assert (Hsx' : ∀ u, u ∈ list_ :: xs.*1 → u ≠ s) by (intros u Hu ->; apply elem_of_cons in Hu as [?|?]; by auto).
  assert (Hsy' : ∀ u, u ∈ ys.*1 ++ [list_] → u ≠ s) by (intros u Hu ->; apply elem_of_app in Hu as [?|?%list_elem_of_singleton]; by auto).
  assert (Hxn : ∀ v, v ∈ xs.*1 → v ≠ n) by (intros v Hv ->; apply elem_of_app in Hnin as [?|?%list_elem_of_singleton]; [by apply (Hxy n)|congruence]).
  assert (Hyp : ∀ v, v ∈ ys.*1 → v ≠ p) by (intros v Hv ->; apply elem_of_cons in Hp as [?|?]; [congruence|by apply (Hxy p)]).
  pose proof (Hsx' p Hp) as Hps. pose proof (Hsy' n Hnin) as Hns.
  unfold Delete. rewrite Hnd1. cbn [mbind option_bind]. destruct (set_next_Some p n (sl_nodes l)) as (m1 & Em1 & Hnx1 & Hpv1 & Hnum1 & Hd1).
  { apply Hdom, Hall. right. rewrite fmap_app, elem_of_cons, elem_of_app. rewrite elem_of_cons in Hp. naive_solver. }
  fold p n. rewrite Em1. cbn [mbind option_bind].
  assert (Hs1 : ∃ nd1, m1 !! s = Some nd1 ∧ next_ nd1 = n ∧ prev_ nd1 = p).
  { specialize (Hnx1 s). specialize (Hpv1 s). unfold nx, pv in *. rewrite Hnd1 in *. rewrite decide_False in Hnx1 by done.
    apply fmap_Some in Hnx1 as (nd1 & E & H1). rewrite E in Hpv1. exists nd1. split; [done|]. split; [done|]. by injection Hpv1. }
  destruct Hs1 as (nd1 & Es1 & Hnx' & Hpv'). rewrite Es1. cbn [mbind option_bind]. rewrite Hnx', Hpv'.
  destruct (set_prev_Some n p m1) as (m2 & Em2 & Hnx2 & Hpv2 & Hnum2 & Hd2).
  { apply Hd1, Hdom, Hall. right. rewrite fmap_app, elem_of_cons, elem_of_app. rewrite elem_of_app, list_elem_of_singleton in Hnin. naive_solver. }
  rewrite Em2. cbn [mbind option_bind]. eexists. split; [done|].
  assert (Hdel : ∀ a, a ≠ s → nx (delete s m2) a = nx m2 a ∧ pv (delete s m2) a = pv m2 a ∧ delete s m2 !! a = m2 !! a).
  { intros a Ha. unfold nx, pv. by rewrite lookup_delete_ne. }
  assert (Hframe : ∀ u v, u ≠ s → v ≠ s → u ≠ p → v ≠ n → nx (delete s m2) u = nx (sl_nodes l) u ∧ pv (delete s m2) v = pv (sl_nodes l) v).
  { intros u v Hu Hv Hup Hvn. destruct (Hdel u Hu) as (-> & _ & _). destruct (Hdel v Hv) as (_ & -> & _).
    rewrite Hnx2, Hnx1, Hpv2, Hpv1. by rewrite !decide_False by done. }
  split; cbn [sl_nodes sl_next].
  - rewrite E2. apply links_app in Hl as [HlA _].
    assert (HlB : links (sl_nodes l) ((A ++ [p; s]) ++ n :: B)) by (by rewrite <- app_assoc; rewrite <- app_assoc in Hl2).
    apply links_app in HlB as [_ HlB]. apply links_app. split; [|split; [|split]].
    + revert HlA. apply links_frame. intros A' u v C EC. rewrite EA in EC.
      destruct (ring_inner xs.*1 A' u v C A p) as (Hu & Hv & Hup & Hvl); [by apply NoDup_cons|done|by rewrite EA|].
      apply Hframe; [by apply Hsx'|by apply Hsx'|done|]. apply elem_of_cons in Hv as [?|?]; [done|by apply Hxn].
    + destruct (Hdel p Hps) as (-> & _ & _). by rewrite Hnx2, Hnx1, decide_True.
    + destruct (Hdel n Hns) as (_ & -> & _). by rewrite Hpv2, decide_True.
    + revert HlB. apply links_frame. intros A' u v C EC.
      destruct (ring_tail ys.*1 A' u v C n B) as (Hu & Hv & Hvn); [done|done|done|by rewrite <- EC|].
      apply Hframe; [|by apply Hsy'|by apply Hyp|done]. apply Hsy', elem_of_app. by left.
  - intros a q' Hin. assert (a ≠ s).
    { intros ->. apply (list_elem_of_fmap_2 fst) in Hin. rewrite fmap_app, elem_of_app in Hin. simpl in Hin. naive_solver. }
    destruct (Hdel a) as (_ & _ & ->); [done|]. rewrite Hnum2, Hnum1. apply Hn. rewrite elem_of_app, elem_of_cons in *. naive_solver.
  - rewrite fmap_app. apply NoDup_cons. rewrite elem_of_app. split; [naive_solver|]. apply NoDup_app. eauto.
  - intros a. destruct (decide (a = s)) as [->|Ha].
    + rewrite lookup_delete_eq. split; [by intros [? ?]|]. rewrite fmap_app, elem_of_cons, elem_of_app. naive_solver.
    + destruct (Hdel a) as (_ & _ & ->); [done|]. rewrite Hd2, Hd1, Hdom, Hall. naive_solver.
  - intros a Ha. apply Hf, Hall. by right.
Qed.

(** ** Histories *)

(** The snapshots held after some writes, snapshots taken and snapshots released: the sequence
    number of the last write, the held snapshots and the list. *)
Inductive history : Z → list (nat * Z) → SnapshotList → Prop :=
| history_make : history 0 [] SnapshotList_make
| history_write last last' held l : history last held l → last <= last' → history last' held l
| history_get last held l a l' : history last held l → GetSnapshot last l = Some (a, l') → history last (held ++ [(a, last)]) l'
| history_release last xs s q ys l l' : history last (xs ++ (s, q) :: ys) l → ReleaseSnapshot s l = Some l' → history last (xs ++ ys) l'.

Lemma history_represents last held l : history last held l →
  represents l held ∧ Forall (λ x, x.2 <= last) held ∧ StronglySorted Z.le held.*2.
Proof.
  induction 1 as [|last last' held l _ (H1 & H2 & H3) Hle|last held l a l' _ (H1 & H2 & H3) E|last xs s q ys l l' _ (H1 & H2 & H3) E].
  - split; [apply represents_empty|]. split; constructor.
  - split; [done|]. split; [|done]. eapply Forall_impl; [exact H2|]. simpl. intros; lia.
  - destruct (New_represents l held last H1) as (l1 & E1 & Hr). unfold GetSnapshot in E. rewrite E1 in E. injection E as <- <-.
    split; [done|]. split; [apply Forall_app; split; [done|]; constructor; [simpl; lia|constructor]|]. rewrite fmap_app. apply StronglySorted_app_2; [|done|repeat constructor].
    intros x y Hx Hy. apply list_elem_of_fmap in Hx as ([b z] & -> & Hx). apply list_elem_of_singleton in Hy as ->. by apply (proj1 (Forall_forall _ _) H2 (b, z)).
  - destruct (Delete_represents l xs s q ys H1) as (l1 & E1 & Hr). unfold ReleaseSnapshot in E. rewrite E1 in E. injection E as <-.
    split; [done|]. apply Forall_app in H2 as [H2 [_ H4]%Forall_cons]. split; [by apply Forall_app|]. rewrite fmap_app, fmap_cons in *. cbn [snd] in *.
    apply StronglySorted_app in H3 as (H5 & H6 & H7). apply StronglySorted_app_2; [|done|by apply StronglySorted_inv in H7 as [? _]].
    intros x y Hx Hy. apply H5; [done|by right].
Qed.

Lemma empty_spec l xs : represents l xs → empty l = Some (bool_decide (xs = [])) ∧ oldest l = fst <$> head xs.
Proof.
  intros [Hl Hn Hnd Hdom Hf]. unfold empty, oldest. assert (Hh : nx (sl_nodes l) list_ = Some (default list_ (fst <$> head xs))).
  { destruct xs as [|[a q] xs]; cbn [fmap list_fmap app head fst] in *; [|by destruct Hl as [? _]]. by destruct Hl as [? _]. }
  unfold nx in Hh. apply fmap_Some in Hh as (h & -> & Hh). cbn [mbind option_bind]. rewrite <- Hh. destruct xs as [|[a q] xs]; [done|].
  cbn [head fmap option_fmap option_map default fst]. assert (a ≠ list_).
  { intros ->. rewrite fmap_cons in Hnd. apply NoDup_cons in Hnd as [Hnd _]. apply Hnd. left. }
  by rewrite !bool_decide_eq_false_2 by done.
Qed.

(** [C25] Through any history of writes, snapshots taken and snapshots released, the linked
    list holds exactly the snapshots in use, no operation touches freed memory, and
    [smallest_snapshot], which compactions must not drop entries above, is the least number
    held, or the last sequence number when no snapshot is. *)
Theorem snapshot_list_correct (last : Z) (held : list (nat * Z)) (l : SnapshotList) (H : history last held l) :
  represents l held ∧
  (∃ a l', GetSnapshot last l = Some (a, l') ∧ a ∉ held.*1) ∧
  (∀ s q, (s, q) ∈ held → is_Some (ReleaseSnapshot s l)) ∧
  ∃ m, smallest_snapshot last l = Some m ∧ m <= last ∧ (∀ s q, (s, q) ∈ held → m <= q) ∧
    (if bool_decide (held = []) then m = last else ∃ s, (s, m) ∈ held).
Proof.
  destruct (history_represents last held l H) as (Hr & Hle & Hs). split; [done|]. split; [|split].
  - destruct (New_represents l held last Hr) as (l' & E & Hr'). exists (sl_next l), l'. split; [done|].
    intros Hin. destruct Hr as [_ _ _ _ Hf]. specialize (Hf (sl_next l) ltac:(by right)). lia.
  - intros s q Hin. apply list_elem_of_split in Hin as (xs & ys & ->). destruct (Delete_represents l xs s q ys Hr) as (l' & E & _). by exists l'.
  - destruct (empty_spec l held Hr) as [E1 E2]. unfold smallest_snapshot. rewrite E1, E2. cbn [mbind option_bind].
    destruct held as [|[a q] held]; [exists last; split; [done|]; split; [lia|]; split; [by intros s q ?%not_elem_of_nil|done]|].
    rewrite bool_decide_eq_false_2 by done. cbn [head fmap option_fmap option_map mbind option_bind fst].
    exists q. split; [apply (rp_numbers _ _ Hr); left|]. apply Forall_cons in Hle as [Hq Hle]. split; [done|]. split; [|exists a; left].
    intros s q' [[= -> ->]|Hin]%elem_of_cons; [lia|]. cbn [fmap list_fmap snd] in Hs. apply StronglySorted_inv in Hs as [_ Hs].
    rewrite Forall_forall in Hs. apply Hs. by apply (list_elem_of_fmap_2 snd) in Hin.
Qed.

Lemma snapshot_list_correct_witness :
  ∃ l, history 9 [(2%nat, 7)] l ∧ smallest_snapshot 9 l = Some 7 ∧ represents l [(2%nat, 7)].
Proof.
  destruct (New_represents SnapshotList_make [] 5 represents_empty) as (l1 & E1 & R1). cbn [sl_next SnapshotList_make app] in *.
  destruct (New_represents l1 _ 7 R1) as (l2 & E2 & R2). assert (sl_next l1 = 2%nat) as Hn by (vm_compute in E1; injection E1 as <-; done).
  rewrite Hn in *. destruct (Delete_represents l2 [] 1%nat 5 [(2%nat, 7)] R2) as (l3 & E3 & R3). exists l3.
  assert (H : history 9 [(2%nat, 7)] l3).
  { apply (history_write 7); [|lia]. apply (history_release 7 [] 1%nat 5 [(2%nat, 7)] l2 l3); [|exact E3].
    apply (history_get 7 [(1%nat, 5)] l1); [|exact E2]. apply (history_write 5); [|lia].
    apply (history_get 5 [] SnapshotList_make); [|exact E1]. apply (history_write 0); [constructor|lia]. }
  split; [exact H|]. destruct (snapshot_list_correct 9 _ l3 H) as (Hr & _ & _ & m & Em & _ & _ & (s & Hs)).
  split; [|exact Hr]. apply list_elem_of_singleton in Hs. injection Hs as -> ->. exact Em.
Defined.
