(* ===== verification/DbWrite.v ===== *)
(** * The write path of the database

    Model of the writing half of [DBImpl] ([App/integration/db_impl.h], [db_impl.cpp]): the queue of
    writers, [BuildBatchGroup], [MakeRoomForWrite], and [Write] and [SUWrite] as the sections
    they run under the mutex or while it is free.  [step] interleaves the sections of any number
    of threads with the background thread.

    A [Writer] lives on the stack of its thread and is addressed by the thread; so does the
    batch its [batch] points to.  The log is a file of the environment and the offset of its writer in the
    current block, as in [VersionSet].  The status of a failed [AddRecord] is the argument
    [log_error].  [None] is a failed assertion. *)
From S2P Require Import Prelude Coding Comparator DbFormat SkipList MemTable Logging Log Status Filename WriteBatch VersionEdit Version VersionSet CompactionPick Arena.
From stdpp Require Import list gmap.

#[local] Open Scope Z_scope.

Definition kL0_SlowdownWritesTrigger : Z := 8.
Definition kL0_StopWritesTrigger : Z := 12.

(** [seq] is not set by the constructor. *)
Record Writer := { w_status : Status; w_batch : option WriteBatch; w_sync : bool; w_done : bool; w_seq : option Z }.

(** The fields of [DBImpl] the write path uses.  [scheduled] counts the calls of
    [Env::Schedule]. *)
Record DBImpl := {
  writers_ : list nat;
  on_stack : gmap nat Writer;
  tmp_batch_ : WriteBatch;
  mem_ : MemTable;
  imm_ : option MemTable;
  logfile_number_ : Z;
  log_ : Z;
  db_versions_ : VersionSet;
  bg_error_ : Status;
  shutting_down_ : bool;
  bg_compaction_scheduled_ : bool;
  manual_compaction_ : bool;
  scheduled : nat;
}.

Definition with_queue (q : list nat) (st : gmap nat Writer) (tmp : WriteBatch) (d : DBImpl) : DBImpl :=
  {| writers_ := q; on_stack := st; tmp_batch_ := tmp; mem_ := mem_ d; imm_ := imm_ d; logfile_number_ := logfile_number_ d; log_ := log_ d;
     db_versions_ := db_versions_ d; bg_error_ := bg_error_ d; shutting_down_ := shutting_down_ d;
     bg_compaction_scheduled_ := bg_compaction_scheduled_ d; manual_compaction_ := manual_compaction_ d; scheduled := scheduled d |}.
Definition with_log (offset : Z) (d : DBImpl) : DBImpl :=
  {| writers_ := writers_ d; on_stack := on_stack d; tmp_batch_ := tmp_batch_ d; mem_ := mem_ d; imm_ := imm_ d; logfile_number_ := logfile_number_ d; log_ := offset;
     db_versions_ := db_versions_ d; bg_error_ := bg_error_ d; shutting_down_ := shutting_down_ d;
     bg_compaction_scheduled_ := bg_compaction_scheduled_ d; manual_compaction_ := manual_compaction_ d; scheduled := scheduled d |}.
Definition with_mem (m : MemTable) (d : DBImpl) : DBImpl :=
  {| writers_ := writers_ d; on_stack := on_stack d; tmp_batch_ := tmp_batch_ d; mem_ := m; imm_ := imm_ d; logfile_number_ := logfile_number_ d; log_ := log_ d;
     db_versions_ := db_versions_ d; bg_error_ := bg_error_ d; shutting_down_ := shutting_down_ d;
     bg_compaction_scheduled_ := bg_compaction_scheduled_ d; manual_compaction_ := manual_compaction_ d; scheduled := scheduled d |}.
Definition with_versions (vs : VersionSet) (d : DBImpl) : DBImpl :=
  {| writers_ := writers_ d; on_stack := on_stack d; tmp_batch_ := tmp_batch_ d; mem_ := mem_ d; imm_ := imm_ d; logfile_number_ := logfile_number_ d; log_ := log_ d;
     db_versions_ := vs; bg_error_ := bg_error_ d; shutting_down_ := shutting_down_ d;
     bg_compaction_scheduled_ := bg_compaction_scheduled_ d; manual_compaction_ := manual_compaction_ d; scheduled := scheduled d |}.

(** ** Background errors and scheduling *)

Definition RecordBackgroundError (s : Status) (d : DBImpl) : DBImpl :=
  if Status_ok (bg_error_ d) then
    {| writers_ := writers_ d; on_stack := on_stack d; tmp_batch_ := tmp_batch_ d; mem_ := mem_ d; imm_ := imm_ d; logfile_number_ := logfile_number_ d; log_ := log_ d;
       db_versions_ := db_versions_ d; bg_error_ := s; shutting_down_ := shutting_down_ d;
       bg_compaction_scheduled_ := bg_compaction_scheduled_ d; manual_compaction_ := manual_compaction_ d; scheduled := scheduled d |}
  else d.

Definition MaybeScheduleCompaction (h : Hints) (d : DBImpl) : DBImpl :=
  if bg_compaction_scheduled_ d then d
  else if shutting_down_ d then d
  else if negb (Status_ok (bg_error_ d)) then d
  else if negb (bool_decide (is_Some (imm_ d))) && negb (manual_compaction_ d) && negb (NeedsCompaction h) then d
  else {| writers_ := writers_ d; on_stack := on_stack d; tmp_batch_ := tmp_batch_ d; mem_ := mem_ d; imm_ := imm_ d; logfile_number_ := logfile_number_ d; log_ := log_ d;
          db_versions_ := db_versions_ d; bg_error_ := bg_error_ d; shutting_down_ := shutting_down_ d;
          bg_compaction_scheduled_ := true; manual_compaction_ := manual_compaction_ d; scheduled := S (scheduled d) |}.

Definition NumLevelFiles (level : Z) (vs : VersionSet) : option Z :=
  if (level <? 0) || (kNumLevels <=? level) then None
  else v ← current (versions_ vs); Some (zlen (level_files v level)).

(** ** Grouping batches *)

Definition set_writer_seq (seq : Z) (wr : Writer) : Writer :=
  {| w_status := w_status wr; w_batch := w_batch wr; w_sync := w_sync wr; w_done := w_done wr; w_seq := Some seq |}.

(** The loop of [BuildBatchGroup] over the writers after the first.  [result] is [tmp_batch_] once
    the batches are being joined there. *)
Fixpoint group_loop (first : Writer) (first_batch : WriteBatch) (sequence max_size : Z) (rest : list nat) (size : Z) (i : Z)
    (last_writer : nat) (result : option WriteBatch) (tmp : WriteBatch) (st : gmap nat Writer) : option (nat * option WriteBatch * gmap nat Writer) :=
  match rest with
  | [] => Some (last_writer, result, st)
  | t :: rest =>
      w ← st !! t;
      if w_sync w && negb (w_sync first) then Some (last_writer, result, st)
      else
        let go size result := group_loop first first_batch sequence max_size rest size (i + 1) t result tmp (<[t := set_writer_seq (u64 (sequence + i)) w]> st) in
        match w_batch w with
        | None => go size result
        | Some b =>
            let size := u64 (size + ByteSize b) in
            if size >? max_size then Some (last_writer, result, st)
            else
              result ← (match result with
                        | Some r => Some r
                        | None => if Count tmp =? 0 then Some (WriteBatch.Append first_batch tmp) else None
                        end);
              go size (Some (WriteBatch.Append b result))
        end
  end.

(** The last writer of the group, and [tmp_batch_] when it holds the updates; otherwise they are the
    first writer's own batch. *)
Definition BuildBatchGroup (sequence : Z) (d : DBImpl) : option (nat * option WriteBatch * DBImpl) :=
  match writers_ d with
  | [] => None
  | t :: rest =>
      first ← on_stack d !! t;
      b ← w_batch first;
      let size := ByteSize b in
      let max_size := if size <=? Z.shiftl 128 10 then size + Z.shiftl 128 10 else Z.shiftl 1 20 in
      '(last_writer, result, st) ← group_loop first b sequence max_size rest size 1 t None (tmp_batch_ d) (on_stack d);
      Some (last_writer, result, with_queue (writers_ d) st (default (tmp_batch_ d) result) d)
  end.

Section Write.
Context {W : Type} (env : ManifestEnv W) (files : W → gmap bytes bytes) (user : Comparator) (dbname_ : bytes).
Context (write_buffer_size : Z) (log_error : Status).

(** ** Making room *)

(** How a pass through [MakeRoomForWrite] ends: it returns, sleeps a millisecond, or waits to be
    signalled; the last two free the mutex. *)
Inductive Room := RoomDone (s : Status) | RoomSleep | RoomWait.

(** The switch to a new memtable and log. *)
Definition switch_memtable (h : Hints) (d : DBImpl) (w : W) : option (Status * DBImpl * W) :=
  if negb (vs_prev_log_number (db_versions_ d) =? 0) then None
  else
    let '(new_log_number, vs) := NewFileNumber (db_versions_ d) in
    let '(s, w) := NewWritableFile (base_env env) (LogFileName dbname_ new_log_number) w in
    if negb (Status_ok s) then Some (s, with_versions (ReuseFileNumber new_log_number vs) d, w)
    else
      let d := {| writers_ := writers_ d; on_stack := on_stack d; tmp_batch_ := tmp_batch_ d;
                  mem_ := MemTable_Ref (MemTable_make user); imm_ := Some (mem_ d); logfile_number_ := new_log_number; log_ := 0;
                  db_versions_ := vs; bg_error_ := bg_error_ d; shutting_down_ := shutting_down_ d;
                  bg_compaction_scheduled_ := bg_compaction_scheduled_ d; manual_compaction_ := manual_compaction_ d; scheduled := scheduled d |} in
      Some (OK, MaybeScheduleCompaction h d, w).

(** The [while (true)] loop; the result has [force] and [allow_delay] as the pass left them.  After a
    switch the next pass finds [imm_] set, so two passes end or free the mutex. *)
Fixpoint make_room (fuel : nat) (h : Hints) (force allow_delay : bool) (d : DBImpl) (w : W) : option (Room * (bool * bool) * DBImpl * W) :=
  match fuel with
  | O => None
  | S fuel =>
      if negb (Status_ok (bg_error_ d)) then Some (RoomDone (bg_error_ d), (force, allow_delay), d, w)
      else
        n ← NumLevelFiles 0 (db_versions_ d);
        if allow_delay && (kL0_SlowdownWritesTrigger <=? n) then Some (RoomSleep, (force, false), d, w)
        else
          room ← (if force : bool then Some false else usage ← ApproximateMemoryUsage (mem_ d); Some (usage <=? write_buffer_size));
          if room : bool then Some (RoomDone OK, (force, allow_delay), d, w)
          else if bool_decide (is_Some (imm_ d)) then Some (RoomWait, (force, allow_delay), d, w)
          else if kL0_StopWritesTrigger <=? n then Some (RoomWait, (force, allow_delay), d, w)
          else
            '(s, d, w) ← switch_memtable h d w;
            if negb (Status_ok s) then Some (RoomDone s, (force, allow_delay), d, w)
            else make_room fuel h false allow_delay d w
  end.

Definition MakeRoomForWrite (h : Hints) (force allow_delay : bool) (d : DBImpl) (w : W) : option (Room * (bool * bool) * DBImpl * W) :=
  match writers_ d with [] => None | _ => make_room 2 h force allow_delay d w end.

(** ** The sections of a write *)

(** [updates]: [tmp_batch_] or the writer's own batch. *)
Definition updates (me : nat) (tmp : bool) (d : DBImpl) : option WriteBatch :=
  if tmp then Some (tmp_batch_ d) else wr ← on_stack d !! me; w_batch wr.

Definition set_updates (me : nat) (tmp : bool) (b : WriteBatch) (d : DBImpl) : DBImpl :=
  if tmp then with_queue (writers_ d) (on_stack d) b d
  else with_queue (writers_ d) (alter (λ wr, {| w_status := w_status wr; w_batch := Some b; w_sync := w_sync wr; w_done := w_done wr; w_seq := w_seq wr |}) me (on_stack d)) (tmp_batch_ d) d.

(** Joining the queue. *)
Definition enqueue (me : nat) (batch : option WriteBatch) (sync : bool) (d : DBImpl) : DBImpl :=
  with_queue (writers_ d ++ [me]) (<[me := {| w_status := OK; w_batch := batch; w_sync := sync; w_done := false; w_seq := None |}]> (on_stack d)) (tmp_batch_ d) d.

(** Forming the group, under the mutex: the last writer, whether the updates are in [tmp_batch_], and
    the sequence number after them. *)
Definition form_group (me : nat) (d : DBImpl) : option (nat * bool * Z * DBImpl) :=
  let last_sequence := vs_last_sequence (db_versions_ d) in
  '(last_writer, result, d) ← BuildBatchGroup last_sequence d;
  let tmp := bool_decide (is_Some result) in
  b ← updates me tmp d;
  let b := SetSequence (u64 (last_sequence + 1)) b in
  Some (last_writer, tmp, u64 (last_sequence + Count b), set_updates me tmp b d).

(** Logging and inserting, with the mutex free: the status, and whether the sync failed.  The memtable
    is [None] only when [InsertInto] is stuck. *)
Definition log_and_insert (me : nat) (tmp sync : bool) (d : DBImpl) (w : W) : option (Status * bool * DBImpl * W) :=
  b ← updates me tmp d;
  let '(ok, offset, w) := add_record env files (LogFileName dbname_ (logfile_number_ d)) (Contents b) (log_ d) w in
  let d := with_log offset d in
  let '(status, sync_error, w) :=
    if (ok : bool) && sync then let '(s, w) := File_Sync (base_env env) (LogFileName dbname_ (logfile_number_ d)) w in (s, negb (Status_ok s), w)
    else (if ok then OK else log_error, false, w) in
  if Status_ok status then
    '(s, (_, m)) ← InsertInto b (mem_ d);
    m ← m;
    Some (s, sync_error, with_mem m d, w)
  else Some (status, sync_error, d, w).

(** Publishing the new sequence number. *)
Definition publish (tmp : bool) (status : Status) (sync_error : bool) (last_sequence : Z) (d : DBImpl) : option DBImpl :=
  let d := if sync_error then RecordBackgroundError status d else d in
  let d := if tmp then with_queue (writers_ d) (on_stack d) WriteBatch.Clear d else d in
  vs ← VersionSet_SetLastSequence last_sequence (db_versions_ d);
  Some (with_versions vs d).

(** The loop that takes the group off the queue. *)
Fixpoint pop_group (me last_writer : nat) (status : Status) (q : list nat) (st : gmap nat Writer) : option (list nat * gmap nat Writer) :=
  match q with
  | [] => None
  | ready :: q =>
      let st := if (ready =? me)%nat then st
                else alter (λ wr, {| w_status := status; w_batch := w_batch wr; w_sync := w_sync wr; w_done := true; w_seq := w_seq wr |}) ready st in
      if (ready =? last_writer)%nat then Some (q, st) else pop_group me last_writer status q st
  end.

Definition leave (me last_writer : nat) (status : Status) (d : DBImpl) : option DBImpl :=
  '(q, st) ← pop_group me last_writer status (writers_ d) (on_stack d); Some (with_queue q st (tmp_batch_ d) d).

(** ** Threads *)

(** Where a call of [Write] or [SUWrite] is.  A call that returns has its status and what [SUWrite]
    stored in [*seq]. *)
Inductive Pc :=
| Queued
| MakingRoom (force allow_delay : bool)
| Logging (last_writer : nat) (tmp : bool) (last_sequence : Z)
| Logged (last_writer : nat) (tmp : bool) (last_sequence : Z) (status : Status) (sync_error : bool)
| Returned (status : Status) (seq : option Z).

(** After [MakeRoomForWrite] returned. *)
Definition after_room (me : nat) (status : Status) (d : DBImpl) : option (Pc * DBImpl) :=
  wr ← on_stack d !! me;
  if Status_ok status && bool_decide (is_Some (w_batch wr)) then
    '(last_writer, tmp, last_sequence, d) ← form_group me d;
    Some (Logging last_writer tmp last_sequence, d)
  else d ← leave me me status d; Some (Returned status None, d).

Definition run_room (h : Hints) (me : nat) (force allow_delay : bool) (d : DBImpl) (w : W) : option (Pc * DBImpl * W) :=
  '(r, (force, allow_delay), d, w) ← MakeRoomForWrite h force allow_delay d w;
  match r with
  | RoomDone s => '(pc, d) ← after_room me s d; Some (pc, d, w)
  | RoomSleep | RoomWait => Some (MakingRoom force allow_delay, d, w)
  end.

(** What a thread does when it gets the mutex, or goes on without it: [None] when it must wait. *)
Definition run (h : Hints) (me : nat) (pc : Pc) (d : DBImpl) (w : W) : option (Pc * DBImpl * W) :=
  wr ← on_stack d !! me;
  match pc with
  | Queued =>
      if w_done wr then Some (Returned (w_status wr) (w_seq wr), d, w)
      else if bool_decide (head (writers_ d) = Some me) then
        let force := negb (bool_decide (is_Some (w_batch wr))) in run_room h me force (negb force) d w
      else None
  | MakingRoom force allow_delay => run_room h me force allow_delay d w
  | Logging last_writer tmp last_sequence =>
      '(status, sync_error, d, w) ← log_and_insert me tmp (w_sync wr) d w;
      Some (Logged last_writer tmp last_sequence status sync_error, d, w)
  | Logged last_writer tmp last_sequence status sync_error =>
      d ← publish tmp status sync_error last_sequence d;
      d ← leave me last_writer status d;
      Some (Returned status (Some last_sequence), d, w)
  | Returned _ _ => None
  end.

(** What the background thread may change while no writer holds the mutex: it takes [imm_] away once it
    is in a table, records errors, installs versions and takes file numbers; the queue, the memtable, the
    log and the last sequence number stay. *)
Record background (d : DBImpl) (w : W) (d' : DBImpl) (w' : W) : Prop := {
  bg_queue : writers_ d' = writers_ d ∧ on_stack d' = on_stack d ∧ tmp_batch_ d' = tmp_batch_ d;
  bg_memtable : mem_ d' = mem_ d;
  bg_imm : imm_ d' = imm_ d ∨ imm_ d' = None;
  bg_log : logfile_number_ d' = logfile_number_ d ∧ log_ d' = log_ d;
  bg_log_file : files w' !! LogFileName dbname_ (logfile_number_ d) = files w !! LogFileName dbname_ (logfile_number_ d);
  bg_sequence : vs_last_sequence (db_versions_ d') = vs_last_sequence (db_versions_ d);
  bg_numbers : vs_next_file_number (db_versions_ d) <= vs_next_file_number (db_versions_ d');
}.

(** A configuration; [g_calls] records the calls in the order they joined the queue, with their batches,
    and [g_committed] the writers of the groups published, in order. *)
Record Config := {
  c_db : DBImpl;
  c_world : W;
  c_threads : gmap nat Pc;
  g_calls : list (nat * option WriteBatch);
  g_committed : list nat;
}.

(** The writers a finishing leader takes off the queue. *)
Fixpoint group_of (last_writer : nat) (q : list nat) : list nat :=
  match q with
  | [] => []
  | t :: q => t :: if (t =? last_writer)%nat then [] else group_of last_writer q
  end.

Definition committed_by (pc : Pc) (d : DBImpl) : list nat :=
  match pc with
  | Logged last_writer _ _ status _ => if Status_ok status then group_of last_writer (writers_ d) else []
  | _ => []
  end.

Inductive step : Config → Config → Prop :=
| step_call c me batch sync :
    c_threads c !! me = None →
    step c {| c_db := enqueue me batch sync (c_db c); c_world := c_world c; c_threads := <[me := Queued]> (c_threads c);
              g_calls := g_calls c ++ [(me, batch)]; g_committed := g_committed c |}
| step_run c me h pc pc' d' w' :
    c_threads c !! me = Some pc → run h me pc (c_db c) (c_world c) = Some (pc', d', w') →
    step c {| c_db := d'; c_world := w'; c_threads := <[me := pc']> (c_threads c);
              g_calls := g_calls c; g_committed := g_committed c ++ committed_by pc (c_db c) |}
| step_background c d' w' :
    background (c_db c) (c_world c) d' w' →
    step c {| c_db := d'; c_world := w'; c_threads := c_threads c; g_calls := g_calls c; g_committed := g_committed c |}.
End Write.

(** ** Facts about batches *)

(** The updates a batch hands to a handler. *)
Definition collector : Handler (list Update) := {| Handler_Put k v l := l ++ [UPut k v]; Handler_Delete k l := l ++ [UDelete k] |}.
Definition batch_updates (b : WriteBatch) : list Update := default [] (snd <$> Iterate collector b []).

Lemma collect_all us : ∀ acc, fold_left (handle collector) us acc = acc ++ us.
Proof. induction us as [|u us IH]; intros acc; simpl; [by rewrite app_nil_r|]. rewrite IH. by destruct u; simpl; rewrite <- app_assoc. Qed.

Lemma holds_updates b seq us : holds b seq us → batch_updates b = us.
Proof. intros H. unfold batch_updates. rewrite (Iterate_holds collector b seq us) by done. simpl. by rewrite collect_all. Qed.

Lemma holds_Count b seq us : holds b seq us → Count b = Z.of_nat (length us) ∧ Sequence b = seq.
Proof.
  intros H. pose proof H as (_ & Hs & Hl & _). apply holds_header in H as ->.
  destruct (batch_header_fields seq (Z.of_nat (length us)) (mjoin (update_bytes <$> us)) Hs) as (? & ? & _); [lia|done].
Qed.

Lemma holds_size b seq us : holds b seq us → Z.of_nat (length us) + 12 <= ByteSize b.
Proof.
  intros H. apply holds_header in H as ->. unfold ByteSize, header, zlen. cbn [rep_]. rewrite !length_app, EncodeFixed64_length, EncodeFixed32_length.
  pose proof (length_updates us). lia.
Qed.

(** ** Grouping *)

(** [wr] may differ from the writer it was only in [seq]. *)
Definition same_writer (o o' : option Writer) : Prop :=
  match o, o' with
  | Some a, Some b => w_status a = w_status b ∧ w_batch a = w_batch b ∧ w_sync a = w_sync b ∧ w_done a = w_done b
  | None, None => True
  | _, _ => False
  end.

#[local] Instance same_writer_refl : Reflexive same_writer.
Proof. by intros [wr|]. Qed.
#[local] Instance same_writer_trans : Transitive same_writer.
Proof. intros [a|] [b|] [c|]; simpl; intuition congruence. Qed.

(** A batch that the calls of [Put], [Delete] and the like can have made. *)
Definition batch_ok (b : WriteBatch) : Prop := (∃ seq, holds b seq (batch_updates b)) ∧ ByteSize b < 2 ^ 63.

Definition writer_updates (o : option WriteBatch) : list Update := match o with Some b => batch_updates b | None => [] end.

Definition last_of (lw : nat) (taken : list nat) : nat := foldl (λ _ t, t) lw taken.

(** What the loop has joined so far. *)
Definition joined (result : option WriteBatch) (first us : list Update) : Prop :=
  match result with Some r => holds r 0 us | None => us = first end.

Lemma group_loop_ok first fb sequence max_size tmp (us : nat → list Update) rest :
  holds tmp 0 [] → batch_ok fb → max_size <= 2 ^ 30 → NoDup rest → ∀ size i lw result st acc,
  (∀ t, t ∈ rest → ∃ wr, st !! t = Some wr ∧ writer_updates (w_batch wr) = us t ∧ ∀ b, w_batch wr = Some b → batch_ok b) →
  joined result (batch_updates fb) acc → Z.of_nat (length acc) <= size < 2 ^ 63 →
  ∃ taken left lw' result' st', group_loop first fb sequence max_size rest size i lw result tmp st = Some (lw', result', st') ∧
    rest = taken ++ left ∧ lw' = last_of lw taken ∧ joined result' (batch_updates fb) (acc ++ mjoin (us <$> taken)) ∧
    (∀ t, same_writer (st !! t) (st' !! t)) ∧ (∀ t, t ∉ rest → st' !! t = st !! t) ∧
    ∀ k t, taken !! k = Some t → st' !! t ≫= w_seq = Some (u64 (sequence + i + Z.of_nat k)).
Proof.
  intros Htmp Hfb Hmax. induction rest as [|t rest IH]; intros Hnd size i lw result st acc Hst Hj Hsize.
  - exists [], [], lw, result, st. simpl. rewrite app_nil_r. done.
  - apply NoDup_cons in Hnd as [Ht Hnd]. cbn [group_loop]. destruct (Hst t ltac:(left)) as (wr & E & Hus & Hb). rewrite E. cbn [mbind option_bind].
    assert (Hstop : ∃ taken left lw' result' st', Some (lw, result, st) = Some (lw', result', st') ∧ t :: rest = taken ++ left ∧
      lw' = last_of lw taken ∧ joined result' (batch_updates fb) (acc ++ mjoin (us <$> taken)) ∧ (∀ t, same_writer (st !! t) (st' !! t)) ∧
      (∀ u, u ∉ t :: rest → st' !! u = st !! u) ∧ ∀ k u, taken !! k = Some u → st' !! u ≫= w_seq = Some (u64 (sequence + i + Z.of_nat k))).
    { exists [], (t :: rest), lw, result, st. simpl. rewrite app_nil_r. done. }
    destruct (w_sync wr && negb (w_sync first)); [exact Hstop|].
    set (st1 := <[t := _]> st).
    assert (Hst1 : ∀ u, same_writer (st !! u) (st1 !! u)).
    { intros u. unfold st1. destruct (decide (u = t)) as [->|]; [by rewrite E, lookup_insert_eq|by rewrite lookup_insert_ne]. }
    assert (Hgo : ∀ size result acc', joined result (batch_updates fb) acc' → acc' = acc ++ us t → Z.of_nat (length acc') <= size < 2 ^ 63 →
      ∃ taken left lw' result' st', group_loop first fb sequence max_size rest size (i + 1) t result tmp st1 = Some (lw', result', st') ∧
        t :: rest = taken ++ left ∧ lw' = last_of lw taken ∧ joined result' (batch_updates fb) (acc ++ mjoin (us <$> taken)) ∧ (∀ t, same_writer (st !! t) (st' !! t)) ∧
        (∀ u, u ∉ t :: rest → st' !! u = st !! u) ∧ ∀ k u, taken !! k = Some u → st' !! u ≫= w_seq = Some (u64 (sequence + i + Z.of_nat k))).
    { intros size' result1 acc' Hj' -> Hs'. destruct (IH Hnd size' (i + 1) t result1 st1 (acc ++ us t)) as (tk & lf & lw' & r' & st' & E' & -> & -> & Hj2 & Hst2 & Hout & Hseq); [|done|done|].
      - intros u Hu. destruct (Hst u ltac:(by right)) as (wr' & E' & H'). exists wr'. unfold st1. rewrite lookup_insert_ne by (intros ->; done). done.
      - exists (t :: tk), lf. eexists _, r', st'. split; [exact E'|]. split; [done|]. split; [done|].
        rewrite fmap_cons. cbn [mjoin list_join]. fold (mjoin (us <$> tk)). rewrite app_assoc. split; [done|]. split; [intros u; by trans (st1 !! u)|]. split.
        { intros u [Hu1 Hu2]%not_elem_of_cons. rewrite Hout by done. unfold st1. by rewrite lookup_insert_ne. }
        intros [|k] u Hk; [injection Hk as <-; rewrite Hout by done; unfold st1; rewrite lookup_insert_eq; simpl; by rewrite Z.add_0_r|].
        rewrite (Hseq k u Hk). do 2 f_equal. lia. }
    destruct (w_batch wr) as [b|] eqn:Eb.
    + destruct (Hb b eq_refl) as [(q & Hq) Hbs]. simpl in Hus. pose proof (holds_size _ _ _ Hq) as Hbsize. rewrite Hus in *.
      rewrite u64_small by (unfold is_u; lia). destruct (Z.gtb_spec (size + ByteSize b) max_size) as [|Hle]; [exact Hstop|].
      assert (Hlen : Z.of_nat (length acc + length (us t)) < 2 ^ 31) by lia.
      destruct result as [r|]; cbn [mbind option_bind].
      * eapply (Hgo _ (Some (WriteBatch.Append b r)) (acc ++ us t)); [|done|rewrite length_app; lia]. simpl. eapply holds_Append; [exact Hj|exact Hq|lia].
      * simpl in Hj. subst acc. destruct (holds_Count _ _ _ Htmp) as [-> _]. cbn [length Z.of_nat Z.eqb]. cbv iota. cbn [mbind option_bind].
        eapply (Hgo _ (Some (WriteBatch.Append b (WriteBatch.Append fb tmp))) (batch_updates fb ++ us t)); [|done|rewrite length_app; lia]. simpl.
        eapply holds_Append; [|exact Hq|lia]. destruct Hfb as [(q' & Hq') _]. change (batch_updates fb) with ([] ++ batch_updates fb).
        eapply holds_Append; [exact Htmp|exact Hq'|simpl; lia].
    + simpl in Hus. eapply (Hgo size result (acc ++ us t)); [|done|]; rewrite <- Hus, app_nil_r; done.
Qed.

Lemma group_of_prefix t taken left : NoDup (t :: taken ++ left) → group_of (last_of t taken) (t :: taken ++ left) = t :: taken.
Proof.
  revert t. induction taken as [|u taken IH]; intros t Hnd; cbn [group_of last_of foldl app].
  - by rewrite Nat.eqb_refl.
  - apply NoDup_cons in Hnd as [Ht Hnd]. fold (last_of u taken). assert (Hne : t ≠ last_of u taken).
    { intros ->. apply Ht. clear. revert u. induction taken as [|x taken IH]; intros u; [left|]. right. apply (IH x). }
    apply Nat.eqb_neq in Hne as ->. f_equal. by apply IH.
Qed.

(** Taking a group off the queue: the others are marked done, nobody else changes. *)
Lemma pop_group_ok me status taken : ∀ t left st, NoDup (t :: taken ++ left) → (t = me ∨ me ∉ t :: taken) →
  ∃ st', pop_group me (last_of t taken) status (t :: taken ++ left) st = Some (left, st') ∧
    (∀ u, u ∉ t :: taken ∨ u = me → st' !! u = st !! u) ∧
    (∀ u wr, u ∈ t :: taken → u ≠ me → st !! u = Some wr → ∃ wr', st' !! u = Some wr' ∧ w_done wr' = true ∧ w_status wr' = status).
Proof.
  induction taken as [|x taken IH]; intros t left st Hnd Hme; cbn [pop_group last_of foldl app].
  - rewrite Nat.eqb_refl. destruct (Nat.eqb_spec t me) as [->|Hne].
    + exists st. split; [done|]. split; [done|]. intros u wr ->%list_elem_of_singleton Hu. done.
    + eexists. split; [done|]. split.
      * intros u [Hu| ->]; [rewrite lookup_alter_ne; [done|intros ->; apply Hu; left]|by rewrite lookup_alter_ne].
      * intros u wr ->%list_elem_of_singleton _ E. rewrite lookup_alter_eq, E. by eexists.
  - apply NoDup_cons in Hnd as [Ht Hnd]. fold (last_of x taken).
    assert (Hne : t ≠ last_of x taken).
    { intros ->. apply Ht. clear. revert x. induction taken as [|y taken IH]; intros x; [left|]. right. apply (IH y). }
    rewrite (proj2 (Nat.eqb_neq t (last_of x taken)) Hne). set (st1 := if (t =? me)%nat then st else _).
    assert (Hx : x = me ∨ me ∉ x :: taken).
    { destruct Hme as [->|Hme]; [right; intros Hin; apply Ht; change (x :: taken ++ left) with ((x :: taken) ++ left); apply elem_of_app; by left|].
      right. intros Hin. apply Hme. by right. }
    destruct (IH x left st1 Hnd Hx) as (st' & E & Hsame & Hdone). exists st'. split; [exact E|].
    assert (Ht' : t ∉ x :: taken) by (intros Hin; apply Ht; change (x :: taken ++ left) with ((x :: taken) ++ left); apply elem_of_app; by left).
    split.
    + intros u Hu. rewrite Hsame by (destruct Hu as [Hu| ->]; [left; intros ?; apply Hu; by right|by right]). unfold st1.
      destruct (Nat.eqb_spec t me) as [|Hn]; [done|]. rewrite lookup_alter_ne; [done|]. intros ->. destruct Hu as [Hu| ->]; [apply Hu; left|done].
    + intros u wr [->|Hu]%elem_of_cons Hum Eu.
      * rewrite Hsame by (by left). unfold st1. rewrite (proj2 (Nat.eqb_neq t me) Hum), lookup_alter_eq, Eu. by eexists.
      * assert (t ≠ u) by congruence. apply (Hdone u wr Hu Hum). unfold st1. destruct (t =? me)%nat; [done|]. by rewrite lookup_alter_ne.
Qed.

(** ** Entries of a log *)

Lemma batch_entries_app us vs : ∀ seq, batch_entries seq (us ++ vs) = batch_entries (seq + Z.of_nat (length us)) vs ++ batch_entries seq us.
Proof.
  induction us as [|u us IH]; intros seq; cbn [app batch_entries length]; [by rewrite Z.add_0_r, app_nil_r|].
  rewrite IH, <- app_assoc. do 2 f_equal. lia.
Qed.

Lemma batch_entries_seq us : ∀ seq e, e ∈ batch_entries seq us → seq <= e_seq e < seq + Z.of_nat (length us).
Proof.
  induction us as [|u us IH]; intros seq e; cbn [batch_entries length]; [by intros ?%not_elem_of_nil|].
  intros [He%IH| ->%list_elem_of_singleton]%elem_of_app; [lia|]. destruct u; simpl; lia.
Qed.

(** The records of a log hold the updates [us], numbered from [seq] on. *)
Fixpoint records_hold (seq : Z) (rs : list bytes) (us : list Update) : Prop :=
  match rs with
  | [] => us = []
  | r :: rs => ∃ us1 us2, us = us1 ++ us2 ∧ holds (SetContents r) seq us1 ∧ records_hold (seq + Z.of_nat (length us1)) rs us2
  end.

Lemma records_hold_snoc rs r us1 us2 : ∀ seq, records_hold seq rs us1 → holds (SetContents r) (seq + Z.of_nat (length us1)) us2 →
  records_hold seq (rs ++ [r]) (us1 ++ us2).
Proof.
  revert us1. induction rs as [|r0 rs IH]; intros us1 seq; simpl.
  - intros -> H. exists us2, []. rewrite Z.add_0_r in H. by rewrite app_nil_r.
  - intros (a & b & -> & H1 & H2) H. exists a, (b ++ us2). rewrite <- app_assoc. split; [done|]. split; [done|]. apply IH; [done|].
    rewrite length_app in H. by rewrite <- Z.add_assoc, <- Nat2Z.inj_add.
Qed.

Section Invariant.
Context {W : Type} (env : ManifestEnv W) (files : W → gmap bytes bytes) `{!ManifestEnvOk env files}.
Context {valid : bytes → Prop} (user : Comparator) `{!ComparatorOk valid user} (dbname_ : bytes).
Context (write_buffer_size : Z) (log_error : Status).

#[local] Abbreviation step := (step env files user dbname_ write_buffer_size log_error).
#[local] Abbreviation run := (run env files user dbname_ write_buffer_size log_error).

(** An update that can be logged and inserted. *)
Definition writable (u : Update) : Prop := insertable valid u ∧ bytes_ok (update_bytes u).

Lemma holds_bytes b seq us : holds b seq us → Forall writable us → bytes_ok (rep_ b).
Proof using Type.
  intros (-> & _) Hw. rewrite !bytes_ok_app. split; [apply EncodeFixed64_ok|]. split; [apply EncodeFixed32_ok|].
  induction Hw as [|u us [_ Hu] _ IH]; [constructor|]. rewrite fmap_cons. apply bytes_ok_app. done.
Qed.

(** The memtable and the log hold the updates [us], numbered from [seq] on. *)
Definition MemLog (d : DBImpl) (w : W) (seq : Z) (us : list Update) : Prop :=
  MemInv valid user (mem_ d) (batch_entries seq us) ∧
  ∃ rs, files w !! LogFileName dbname_ (logfile_number_ d) = Some (layout 0 (log_cut 0 rs)) ∧
    log_ d = layout_end 0 (log_cut 0 rs) ∧ Forall bytes_ok rs ∧ records_hold seq rs us.

(** ** Making room keeps the queue, and the memtable with its log or starts new ones *)

Record room_frame (d : DBImpl) (w : W) (d' : DBImpl) (w' : W) : Prop := {
  rf_queue : writers_ d' = writers_ d ∧ on_stack d' = on_stack d ∧ tmp_batch_ d' = tmp_batch_ d;
  rf_sequence : vs_last_sequence (db_versions_ d') = vs_last_sequence (db_versions_ d);
  rf_data : (∀ seq us, MemLog d w seq us → MemLog d' w' seq us) ∨ (∀ seq, MemLog d' w' seq []);
}.

Lemma room_frame_refl d w : room_frame d w d w.
Proof. split; auto. Qed.

Lemma MaybeSchedule_same h d : writers_ (MaybeScheduleCompaction h d) = writers_ d ∧ on_stack (MaybeScheduleCompaction h d) = on_stack d ∧
  tmp_batch_ (MaybeScheduleCompaction h d) = tmp_batch_ d ∧ mem_ (MaybeScheduleCompaction h d) = mem_ d ∧
  logfile_number_ (MaybeScheduleCompaction h d) = logfile_number_ d ∧ log_ (MaybeScheduleCompaction h d) = log_ d ∧
  db_versions_ (MaybeScheduleCompaction h d) = db_versions_ d.
Proof. unfold MaybeScheduleCompaction. repeat case_match; done. Qed.

Lemma switch_memtable_frame h d w s d' w' : switch_memtable env user dbname_ h d w = Some (s, d', w') →
  writers_ d' = writers_ d ∧ on_stack d' = on_stack d ∧ tmp_batch_ d' = tmp_batch_ d ∧
  vs_last_sequence (db_versions_ d') = vs_last_sequence (db_versions_ d) ∧ ∀ seq, MemLog d' w' seq [].
Proof using All.
  unfold switch_memtable. destruct (negb _); [done|]. cbn [NewFileNumber]. set (name := LogFileName dbname_ _).
  pose proof (me_new (env := env) (files := files) name w) as Hok. pose proof (new_ok (env := base_env env) (files := files) name w) as Hfile.
  destruct (NewWritableFile (base_env env) name w) as [s1 w1] eqn:E. simpl in Hok, Hfile. rewrite Hok. cbn [negb]. intros [= <- <- <-].
  match goal with |- context [MaybeScheduleCompaction h ?d1] => destruct (MaybeSchedule_same h d1) as (H1 & H2 & H3 & H4 & H5 & H6 & H7) end.
  rewrite H1, H2, H3, H7. split; [done|]. split; [done|]. split; [done|]. split; [done|]. intros seq. unfold MemLog. rewrite H4, H5, H6. cbn [mem_ logfile_number_ log_].
  split; [apply MemInv_make|]. exists []. fold name. rewrite Hfile by done. done.
Qed.

Lemma make_room_frame fuel h : ∀ force allow d w r fa d' w',
  make_room env user dbname_ write_buffer_size fuel h force allow d w = Some (r, fa, d', w') → room_frame d w d' w'.
Proof using All.
  induction fuel as [|fuel IH]; intros force allow d w r fa d' w'; cbn [make_room]; [done|].
  destruct (negb (Status_ok (bg_error_ d))); [intros [= _ _ <- <-]; apply room_frame_refl|].
  destruct (NumLevelFiles 0 (db_versions_ d)) as [n|]; cbn [mbind option_bind]; [|done].
  destruct (allow && _); [intros [= _ _ <- <-]; apply room_frame_refl|].
  destruct (if force then _ else _) as [room|]; cbn [mbind option_bind]; [|done].
  destruct room; [intros [= _ _ <- <-]; apply room_frame_refl|].
  destruct (bool_decide (is_Some (imm_ d))); [intros [= _ _ <- <-]; apply room_frame_refl|].
  destruct (_ <=? n); [intros [= _ _ <- <-]; apply room_frame_refl|].
  destruct (switch_memtable _ _ _ _ _ _) as [[[s d1] w1]|] eqn:E; cbn [mbind option_bind]; [|done].
  apply switch_memtable_frame in E as (H1 & H2 & H3 & H4 & H5).
  destruct (negb (Status_ok s)); [intros [= _ _ <- <-]; split; [done|done|by right]|].
  intros [(G1 & G2 & G3) G4 G5]%IH. split; [by rewrite G1, G2, G3|by rewrite G4|]. right. intros seq. destruct G5 as [G5|G5]; [by apply G5, H5|by apply G5].
Qed.

(** ** Forming a group *)

(** A writer waiting in the queue whose call had the updates [us]. *)
Definition waiting (d : DBImpl) (us : list Update) (t : nat) : Prop :=
  ∃ wr, on_stack d !! t = Some wr ∧ w_done wr = false ∧ writer_updates (w_batch wr) = us ∧ ∀ b, w_batch wr = Some b → batch_ok b.

(** The leader [me] has formed a group of itself and [taken], whose updates take the sequence numbers up
    to [n]. *)
Definition leading (us : nat → list Update) (me lw : nat) (tmp : bool) (n : Z) (d : DBImpl) (taken left : list nat) : Prop :=
  let gus := us me ++ mjoin (us <$> taken) in
  let last := vs_last_sequence (db_versions_ d) in
  writers_ d = me :: taken ++ left ∧ lw = last_of me taken ∧ n = last + Z.of_nat (length gus) ∧
  (∃ b, updates me tmp d = Some b ∧ holds b (last + 1) gus) ∧ (tmp = false → holds (tmp_batch_ d) 0 []).

Lemma holds_SetSequence_ok b seq : batch_ok b → is_u 64 seq → batch_ok (SetSequence seq b) ∧ batch_updates (SetSequence seq b) = batch_updates b ∧ holds (SetSequence seq b) seq (batch_updates b).
Proof.
  intros [(q & H) Hs] Hq. pose proof (holds_SetSequence _ _ _ seq H Hq) as H'. split; [|split; [by eapply holds_updates|done]].
  split; [exists seq; by rewrite (holds_updates _ _ _ H')|].
  pose proof H as (Hr & _). pose proof H' as (Hr' & _). unfold ByteSize, zlen in *. rewrite Hr in Hs. rewrite Hr'. rewrite !length_app, !EncodeFixed64_length in *. lia.
Qed.

Lemma same_writer_waiting d d' us t : same_writer (on_stack d !! t) (on_stack d' !! t) → waiting d us t → waiting d' us t.
Proof. intros H (wr & E & H1 & H2 & H3). rewrite E in H. destruct (on_stack d' !! t) as [wr'|] eqn:E'; [|done]. destruct H as (_ & Hb & _ & Hd). exists wr'. rewrite <- Hb, <- Hd. done. Qed.

Lemma same_writer_batch o o' : same_writer o o' → is_Some (o' ≫= w_batch) ↔ is_Some (o ≫= w_batch).
Proof. destruct o as [a|], o' as [b|]; simpl; [|done..]. intros (_ & -> & _). done. Qed.

Lemma form_group_ok us me rest d : writers_ d = me :: rest → NoDup (me :: rest) → (∀ t, t ∈ me :: rest → waiting d (us t) t) →
  (∃ wr, on_stack d !! me = Some wr ∧ is_Some (w_batch wr)) → holds (tmp_batch_ d) 0 [] →
  0 <= vs_last_sequence (db_versions_ d) → vs_last_sequence (db_versions_ d) + Z.of_nat (length (mjoin (us <$> me :: rest))) <= kMaxSequenceNumber →
  ∃ lw tmp n d' taken left, form_group me d = Some (lw, tmp, n, d') ∧ leading us me lw tmp n d' taken left ∧
    (∀ k t, taken !! k = Some t → on_stack d' !! t ≫= w_seq = Some (u64 (vs_last_sequence (db_versions_ d) + 1 + Z.of_nat k))) ∧
    writers_ d' = writers_ d ∧ (∀ t, t ∈ me :: rest → waiting d' (us t) t) ∧ (∀ t, t ∉ me :: rest → same_writer (on_stack d !! t) (on_stack d' !! t)) ∧
    (∀ t, is_Some (on_stack d' !! t ≫= w_batch) ↔ is_Some (on_stack d !! t ≫= w_batch)) ∧
    db_versions_ d' = db_versions_ d ∧ mem_ d' = mem_ d ∧ logfile_number_ d' = logfile_number_ d ∧ log_ d' = log_ d.
Proof using Type.
  intros Hq Hnd Hw (wr & Ewr & [b Eb]) Htmp Hlast Hmax. unfold form_group, BuildBatchGroup. rewrite Hq, Ewr. cbn [mbind option_bind]. rewrite Eb. cbn [mbind option_bind].
  pose proof Hnd as [Hme Hndr]%NoDup_cons.
  destruct (Hw me ltac:(left)) as (wr' & E' & _ & Hub & Hbok). rewrite Ewr in E'. injection E' as <-. rewrite Eb in Hub. simpl in Hub. specialize (Hbok b Eb).
  assert (Hm : kMaxSequenceNumber < 2 ^ 63) by done.
  set (max_size := if _ <=? _ then _ else _).
  destruct (group_loop_ok wr b (vs_last_sequence (db_versions_ d)) max_size (tmp_batch_ d) us rest Htmp Hbok) with
    (size := ByteSize b) (i := 1) (lw := me) (result := @None WriteBatch) (st := on_stack d) (acc := us me)
    as (taken & left & lw & result & st' & -> & Hrest & -> & Hj & Hst & _ & Hseq).
  - subst max_size. change (Z.shiftl 128 10) with 131072. change (Z.shiftl 1 20) with 1048576. destruct (Z.leb_spec (ByteSize b) 131072); lia.
  - done.
  - intros t Ht. destruct (Hw t ltac:(by right)) as (wt & Et & _ & Hu & Hb). eauto.
  - simpl. by rewrite <- Hub.
  - rewrite <- Hub. destruct Hbok as [(q & Hbok) ?]. pose proof (holds_size _ _ _ Hbok). lia.
  - cbn [mbind option_bind]. assert (Hgus : Z.of_nat (length (us me ++ mjoin (us <$> taken))) <= Z.of_nat (length (mjoin (us <$> me :: rest)))).
    { rewrite Hrest, fmap_cons, fmap_app. cbn [mjoin list_join]. fold (mjoin ((us <$> taken) ++ (us <$> left))). rewrite join_app, !length_app. lia. }
    set (last := vs_last_sequence (db_versions_ d)) in *. assert (Hu : is_u 64 (last + 1)) by (unfold is_u; lia).
    destruct result as [r|]; cbn [default id is_Some bool_decide] in *.
    + simpl in Hj. rewrite bool_decide_eq_true_2 by eauto. cbn [updates mbind option_bind tmp_batch_ with_queue]. rewrite (u64_small _ Hu).
      pose proof (holds_SetSequence _ _ _ (last + 1) Hj Hu) as Hh. destruct (holds_Count _ _ _ Hh) as [-> _]. rewrite u64_small by (unfold is_u; lia).
      eexists _, _, _, _, taken, left. split; [done|]. cbn [set_updates]. split; [|split; [|cbn; split; [done|]; split; [|split; [|split; [|done]]]]].
      * unfold leading. cbn. split; [by rewrite Hrest|]. split; [done|]. split; [done|]. split; [eexists; split; [done|exact Hh]|done].
      * exact Hseq.
      * intros t Ht. eapply same_writer_waiting; [|by apply Hw]. apply Hst.
      * intros t _. apply Hst.
      * intros t. by apply same_writer_batch.
    + simpl in Hj. rewrite bool_decide_eq_false_2 by (by intros [? ?]). cbn [updates mbind option_bind on_stack with_queue].
      pose proof (Hst me) as Hsame. rewrite Ewr in Hsame. destruct (st' !! me) as [wr1|] eqn:E1; [|done]. destruct Hsame as (_ & Hb1 & _ & Hd1). cbn [mbind option_bind]. rewrite <- Hb1, Eb.
      cbn [mbind option_bind]. rewrite (u64_small _ Hu). destruct (holds_SetSequence_ok b (last + 1) Hbok Hu) as (Hok' & Hup' & Hh). destruct (holds_Count _ _ _ Hh) as [-> _].
      rewrite <- Hj, u64_small by (unfold is_u; lia).
      eexists _, _, _, _, taken, left. split; [done|]. cbn [set_updates]. split; [|split; [|cbn; split; [done|]; split; [|split; [|split; [|done]]]]].
      * unfold leading. cbn. split; [by rewrite Hrest|]. split; [done|]. split; [done|]. rewrite lookup_alter_eq, E1. cbn. split; [|done].
        eexists. split; [done|]. by rewrite Hj.
      * intros k t Hk. cbn. rewrite lookup_alter_ne; [by apply Hseq|]. intros <-. apply Hme. rewrite Hrest. apply elem_of_app. left. by eapply list_elem_of_lookup_2.
      * intros t Ht. destruct (decide (t = me)) as [->|Hne].
        -- eexists. cbn. rewrite lookup_alter_eq, E1. split; [done|]. cbn. split; [destruct (Hw me ltac:(left)) as (w2 & E2 & H2 & _); rewrite Ewr in E2; injection E2 as <-; by rewrite <- Hd1|].
           split; [by rewrite Hup', Hub|]. intros b' [= <-]. done.
        -- eapply same_writer_waiting; [|by apply Hw]. cbn. by rewrite lookup_alter_ne.
      * intros t Ht. rewrite lookup_alter_ne by (intros ->; apply Ht; left). apply Hst.
      * intros t. destruct (decide (t = me)) as [->|Hne]; [|rewrite lookup_alter_ne by done; by apply same_writer_batch].
        rewrite lookup_alter_eq, E1, Ewr. cbn. rewrite Eb. split; eauto.
Qed.

(** ** Logging, publishing and leaving *)

Lemma log_and_insert_ok us me lw tmp n d w taken left sync seq since : leading us me lw tmp n d taken left →
  MemLog d w seq since → 0 <= seq → seq + Z.of_nat (length since) = vs_last_sequence (db_versions_ d) + 1 → n <= kMaxSequenceNumber →
  Forall writable (us me ++ mjoin (us <$> taken)) →
  ∃ d' w', log_and_insert env files dbname_ log_error me tmp sync d w = Some (OK, false, d', w') ∧
    MemLog d' w' seq (since ++ us me ++ mjoin (us <$> taken)) ∧ leading us me lw tmp n d' taken left ∧
    writers_ d' = writers_ d ∧ on_stack d' = on_stack d ∧ tmp_batch_ d' = tmp_batch_ d ∧ db_versions_ d' = db_versions_ d.
Proof using All.
  intros Hlead (Hmem & rs & Hfile & Hoff & Hrs & Hrec) Hseq Hnext Hmax Hins. pose proof Hlead as (_ & _ & Hn & (b & Eb & Hb) & _).
  set (gus := us me ++ mjoin (us <$> taken)) in *. unfold log_and_insert. rewrite Eb. cbn [mbind option_bind].
  assert (Hrange : 0 <= log_ d <= Log.kBlockSize) by (rewrite Hoff; apply log_cut_end; [rewrite kBlockSize_eq; lia|done]).
  destruct (add_record_ok env files (LogFileName dbname_ (logfile_number_ d)) (Contents b) (log_ d) w _ Hfile Hrange) as (w1 & E1 & Hf1 & _). rewrite E1.
  set (w2 := if sync then (File_Sync (base_env env) (LogFileName dbname_ (logfile_number_ d)) w1).2 else w1).
  assert (Hw2 : files w2 = files w1) by (unfold w2; destruct sync; [apply (sync_files (env := base_env env) (files := files))|done]).
  assert (Esync : (if true && sync then let '(s, w) := File_Sync (base_env env) (LogFileName dbname_ (logfile_number_ (with_log (layout_end (log_ d) (record_cut (log_ d) (Contents b))) d))) w1 in (s, negb (Status_ok s), w)
    else (OK, false, w1)) = ((if sync then (File_Sync (base_env env) (LogFileName dbname_ (logfile_number_ d)) w1).1 else OK), false, w2)).
  { destruct sync; [|done]. cbn [andb logfile_number_ with_log]. pose proof (me_sync (env := env) (files := files) (LogFileName dbname_ (logfile_number_ d)) w1) as Hs. unfold w2.
    destruct (File_Sync (base_env env) _ w1) as [s w']. simpl in *. by rewrite Hs. }
  rewrite Esync. clear Esync. assert (Hok : Status_ok (if sync then (File_Sync (base_env env) (LogFileName dbname_ (logfile_number_ d)) w1).1 else OK) = true)
    by (destruct sync; [apply (me_sync (env := env) (files := files))|done]). rewrite Hok.
  destruct (write_batch_insert_into valid user b _ gus (mem_ d) (batch_entries seq since) _ Hb (Forall_impl _ _ _ Hins (λ u, @proj1 _ _)) Hmem) as (m' & E & Hm').
  { intros e He%batch_entries_seq. lia. }
  { lia. }
  cbn [mem_ with_log]. rewrite E. cbn [mbind option_bind]. eexists _, w2. split; [done|]. split; [|split; [|done]].
  - unfold MemLog. cbn. split; [by rewrite batch_entries_app, Hnext|]. exists (rs ++ [Contents b]). rewrite Hw2, Hf1, log_cut_snoc, layout_app, layout_end_app, <- Hoff.
    split; [done|]. split; [done|]. split.
    + apply Forall_app. split; [done|]. constructor; [by eapply holds_bytes|constructor].
    + apply records_hold_snoc; [done|]. rewrite Hnext. by destruct b.
  - unfold leading in *. cbn. done.
Qed.

Lemma publish_ok us me lw tmp n d taken left : leading us me lw tmp n d taken left →
  ∃ d', publish tmp OK false n d = Some d' ∧ vs_last_sequence (db_versions_ d') = n ∧ holds (tmp_batch_ d') 0 [] ∧
    writers_ d' = writers_ d ∧ on_stack d' = on_stack d ∧ mem_ d' = mem_ d ∧ logfile_number_ d' = logfile_number_ d ∧ log_ d' = log_ d.
Proof using Type.
  intros (_ & _ & Hn & _ & Htmp). unfold publish, VersionSet_SetLastSequence.
  assert (Hle : (n <? vs_last_sequence (db_versions_ (if tmp then with_queue (writers_ d) (on_stack d) WriteBatch.Clear d else d))) = false)
    by (apply Z.ltb_ge; destruct tmp; cbn; lia).
  cbv zeta. rewrite Hle. cbn [mbind option_bind]. eexists. split; [done|]. cbn. split; [done|]. destruct tmp; cbn; [split; [apply holds_Clear|done]|split; [by apply Htmp|done]].
Qed.

(** ** The invariant *)

Definition call_updates (calls : list (nat * option WriteBatch)) (t : nat) : list Update :=
  writer_updates (default None ((list_to_map calls : gmap nat _) !! t)).

(** The updates of the groups published, in order. *)
Definition committed_updates (c : Config (W := W)) : list Update := mjoin (call_updates (g_calls c) <$> g_committed c).

(** Every call has a well-formed batch, and the sequence numbers suffice. *)
Record CallsOk (s0 : Z) (calls : list (nat * option WriteBatch)) : Prop := {
  co_batches t b : (t, Some b) ∈ calls → batch_ok b ∧ Forall writable (batch_updates b);
  co_total : s0 + Z.of_nat (length (mjoin (call_updates calls <$> calls.*1))) <= kMaxSequenceNumber;
}.

(** How a call that left the queue ended. *)
Definition ended (c : Config (W := W)) (t : nat) : Prop :=
  ∃ s, ((∃ q, c_threads c !! t = Some (Returned s q)) ∨
        (c_threads c !! t = Some Queued ∧ ∃ wr, on_stack (c_db c) !! t = Some wr ∧ w_done wr = true ∧ w_status wr = s)) ∧
    (t ∈ g_committed c → Status_ok s = true) ∧
    (∀ b, (t, Some b) ∈ g_calls c → Status_ok s = true → t ∈ g_committed c).

(** What the leader is doing, and the updates it has logged that are not published yet. *)
Inductive phase (us : nat → list Update) (c : Config (W := W)) : list Update → Prop :=
| phase_idle :
    (∀ t, head (writers_ (c_db c)) = Some t → c_threads c !! t = Some Queued ∨ ∃ f a, c_threads c !! t = Some (MakingRoom f a)) →
    holds (tmp_batch_ (c_db c)) 0 [] → phase us c []
| phase_logging me lw tmp n taken left :
    leading us me lw tmp n (c_db c) taken left → c_threads c !! me = Some (Logging lw tmp n) → phase us c []
| phase_logged me lw tmp n taken left :
    leading us me lw tmp n (c_db c) taken left → c_threads c !! me = Some (Logged lw tmp n OK false) → phase us c (us me ++ mjoin (us <$> taken)).

Record Inv (s0 : Z) (c : Config (W := W)) : Prop := {
  i_nodup : NoDup (g_calls c).*1;
  i_dom t : is_Some (c_threads c !! t) ↔ t ∈ (g_calls c).*1;
  i_queue : ∃ gone, (g_calls c).*1 = gone ++ writers_ (c_db c) ∧ g_committed c `sublist_of` gone ∧ ∀ t, t ∈ gone → ended c t;
  i_waiting t : t ∈ writers_ (c_db c) → waiting (c_db c) (call_updates (g_calls c) t) t;
  i_batch t b : t ∈ writers_ (c_db c) → (t, b) ∈ g_calls c → is_Some (on_stack (c_db c) !! t ≫= w_batch) ↔ is_Some b;
  i_tail t : t ∈ tail (writers_ (c_db c)) → c_threads c !! t = Some Queued;
  i_start : 0 <= s0;
  i_seq : vs_last_sequence (db_versions_ (c_db c)) = s0 + Z.of_nat (length (committed_updates c));
  i_data : ∃ pending before since, phase (call_updates (g_calls c)) c pending ∧ committed_updates c = before ++ since ∧
    MemLog (c_db c) (c_world c) (s0 + Z.of_nat (length before) + 1) (since ++ pending);
}.

Definition Start (s0 : Z) (c : Config (W := W)) : Prop :=
  0 <= s0 ∧ writers_ (c_db c) = [] ∧ c_threads c = ∅ ∧ g_calls c = [] ∧ g_committed c = [] ∧ tmp_batch_ (c_db c) = WriteBatch.Clear ∧
  vs_last_sequence (db_versions_ (c_db c)) = s0 ∧ MemLog (c_db c) (c_world c) (s0 + 1) [].

Lemma Start_Inv s0 c : Start s0 c → Inv s0 c.
Proof using Type.
  intros (H0 & Hq & Ht & Hc & Hg & Htmp & Hs & Hm). split; rewrite ?Hq, ?Ht, ?Hc, ?Hg; try done.
  - constructor.
  - intros t. rewrite lookup_empty. split; [by intros [? ?]|by intros ?%not_elem_of_nil].
  - exists []. split; [done|]. split; [done|]. by intros t ?%not_elem_of_nil.
  - by intros t ?%not_elem_of_nil.
  - by intros t b ?%not_elem_of_nil.
  - by intros t ?%not_elem_of_nil.
  - unfold committed_updates. rewrite Hg. simpl. lia.
  - exists [], [], []. split; [|split; [|by rewrite Z.add_0_r]].
    + apply phase_idle; [by rewrite Hq|rewrite Htmp; apply holds_Clear].
    + unfold committed_updates. by rewrite Hg.
Qed.

(** ** Keeping it *)

Lemma call_updates_snoc calls me b t : me ∉ calls.*1 → call_updates (calls ++ [(me, b)]) t =
  if decide (t = me) then writer_updates b else call_updates calls t.
Proof.
  intros Hme. unfold call_updates. rewrite list_to_map_app. destruct (decide (t = me)) as [->|Hne].
  - rewrite lookup_union_r; [|by apply not_elem_of_list_to_map_1]. cbn. by rewrite lookup_insert_eq.
  - destruct ((list_to_map calls : gmap nat (option WriteBatch)) !! t) as [x|] eqn:E.
    + by rewrite (lookup_union_Some_l _ _ _ _ E).
    + rewrite lookup_union_r by done. cbn. by rewrite lookup_insert_ne, lookup_empty.
Qed.

Lemma call_updates_old calls me b (l : list nat) : (∀ t, t ∈ l → t ∈ calls.*1) →
  call_updates (calls ++ [(me, b)]) <$> l = call_updates calls <$> l.
Proof.
  intros Hl. apply list_fmap_ext. intros i t Ht. apply list_elem_of_lookup_2, Hl in Ht. unfold call_updates. rewrite list_to_map_app.
  destruct ((list_to_map calls : gmap nat (option WriteBatch)) !! t) as [x|] eqn:E; [by rewrite (lookup_union_Some_l _ _ _ _ E)|].
  by apply not_elem_of_list_to_map_2 in E.
Qed.

Lemma CallsOk_prefix s0 calls me b : CallsOk s0 (calls ++ [(me, b)]) → CallsOk s0 calls.
Proof using Type.
  intros [H1 H2]. split; [intros t b' Hin; apply (H1 t b'), elem_of_app; by left|].
  rewrite fmap_app, fmap_app, join_app, length_app, call_updates_old in H2 by done. lia.
Qed.

Lemma updates_cons (us : nat → list Update) t l : mjoin (us <$> t :: l) = us t ++ mjoin (us <$> l).
Proof. done. Qed.

Lemma sublist_updates (us : nat → list Update) l k : l `sublist_of` k → (length (mjoin (us <$> l)) <= length (mjoin (us <$> k)))%nat.
Proof. induction 1 as [|x l k _ IH|x l k _ IH]; [done| |]; rewrite ?(updates_cons us), ?length_app; lia. Qed.

(** The sequence numbers suffice for everybody in the queue. *)
Lemma queue_bound s0 c : Inv s0 c → CallsOk s0 (g_calls c) →
  vs_last_sequence (db_versions_ (c_db c)) + Z.of_nat (length (mjoin (call_updates (g_calls c) <$> writers_ (c_db c)))) <= kMaxSequenceNumber.
Proof using Type.
  intros HI [_ Ht]. destruct (i_queue _ _ HI) as (gone & E & Hsub & _). rewrite (i_seq _ _ HI). rewrite E, fmap_app, join_app, length_app in Ht.
  pose proof (sublist_updates (call_updates (g_calls c)) _ _ Hsub). unfold committed_updates. lia.
Qed.

(** Only the first writer of the queue is past waiting. *)
Lemma leader_head s0 c t pc : Inv s0 c → c_threads c !! t = Some pc → pc ≠ Queued → (∀ s q, pc ≠ Returned s q) → ∃ rest, writers_ (c_db c) = t :: rest.
Proof using Type.
  intros HI E Hq Hr. assert (Hin : t ∈ (g_calls c).*1) by (apply (i_dom _ _ HI); eauto). destruct (i_queue _ _ HI) as (gone & Eg & _ & Hend). rewrite Eg in Hin.
  apply elem_of_app in Hin as [Hin|Hin]; [destruct (Hend t Hin) as (s & [(q & H)|(H & _)] & _); rewrite E in H; injection H; intros; exfalso; naive_solver|].
  pose proof (i_tail _ _ HI t) as Htl. destruct (writers_ (c_db c)) as [|x rest]; [by apply not_elem_of_nil in Hin|].
  apply elem_of_cons in Hin as [->|Hin]; [by eexists|]. specialize (Htl Hin). congruence.
Qed.

Lemma queue_facts s0 c me rest : Inv s0 c → writers_ (c_db c) = me :: rest →
  NoDup (me :: rest) ∧ (∀ t, t ∈ me :: rest → waiting (c_db c) (call_updates (g_calls c) t) t) ∧ me ∈ (g_calls c).*1 ∧
  ∀ gone, (g_calls c).*1 = gone ++ writers_ (c_db c) → ∀ t, t ∈ gone → t ∉ me :: rest.
Proof using Type.
  intros HI Eq. pose proof (i_nodup _ _ HI) as Hnd. destruct (i_queue _ _ HI) as (gone & Eg & _). pose proof Hnd as Hnd'. rewrite Eg, Eq in Hnd'.
  apply NoDup_app in Hnd' as (_ & _ & Hq). split; [done|]. split; [intros t Ht; apply (i_waiting _ _ HI); by rewrite Eq|]. split.
  - rewrite Eg, Eq. apply elem_of_app. right. left.
  - intros gone' Eg' t Ht. rewrite Eg', Eq in Hnd. apply NoDup_app in Hnd as (_ & Hd & _). by apply Hd.
Qed.

(** A step of the leader that keeps the queue and publishes nothing. *)
Lemma Inv_keep s0 c me rest pc' d' w' : Inv s0 c → writers_ (c_db c) = me :: rest → writers_ d' = me :: rest →
  (∀ t, t ∈ me :: rest → waiting d' (call_updates (g_calls c) t) t) → (∀ t, t ∉ me :: rest → same_writer (on_stack (c_db c) !! t) (on_stack d' !! t)) →
  (∀ t, is_Some (on_stack d' !! t ≫= w_batch) ↔ is_Some (on_stack (c_db c) !! t ≫= w_batch)) →
  vs_last_sequence (db_versions_ d') = vs_last_sequence (db_versions_ (c_db c)) →
  let c' := {| c_db := d'; c_world := w'; c_threads := <[me := pc']> (c_threads c); g_calls := g_calls c; g_committed := g_committed c |} in
  (∃ pending before since, phase (call_updates (g_calls c)) c' pending ∧ committed_updates c = before ++ since ∧
    MemLog d' w' (s0 + Z.of_nat (length before) + 1) (since ++ pending)) → Inv s0 c'.
Proof using Type.
  intros HI Eq Eq' Hw Hsame Hb Hs c' Hdata. destruct (queue_facts s0 c me rest HI Eq) as (Hnd & _ & Hme & Hgone).
  split; cbn [c' c_db c_world c_threads g_calls g_committed]; rewrite ?Eq'; try done.
  - apply (i_nodup _ _ HI).
  - intros t. destruct (decide (t = me)) as [->|]; [rewrite lookup_insert_eq; naive_solver|]. rewrite lookup_insert_ne by done. apply (i_dom _ _ HI).
  - destruct (i_queue _ _ HI) as (gone & Eg & Hsub & Hend). exists gone. rewrite <- Eq. split; [done|]. split; [done|]. intros t Ht.
    pose proof (Hgone gone Eg t Ht) as Hnt. assert (t ≠ me) by (intros ->; apply Hnt; left). destruct (Hend t Ht) as (s & Hc & H1 & H2).
    exists s. split; [|done]. cbn [c' c_threads c_db]. rewrite lookup_insert_ne by done. destruct Hc as [Hc|(Hc & wr & E & Hd & Hst)]; [by left|]. right. split; [done|].
    specialize (Hsame t Hnt). rewrite E in Hsame. destruct (on_stack d' !! t) as [wr'|]; [|done]. destruct Hsame as (Hs1 & _ & _ & Hs2). exists wr'. by rewrite <- Hs1, <- Hs2.
  - intros t b Ht Hin. rewrite Hb. apply (i_batch _ _ HI); [by rewrite Eq|done].
  - intros t Ht. pose proof (i_tail _ _ HI t) as Htl. rewrite Eq in Htl. rewrite lookup_insert_ne; [by apply Htl|]. intros <-. by apply NoDup_cons in Hnd as [? _].
  - apply (i_start _ _ HI).
  - rewrite Hs. apply (i_seq _ _ HI).
Qed.

(** The leader takes its group off the queue. *)
Lemma Inv_pop s0 c me taken left s q d' w' extra : Inv s0 c → writers_ (c_db c) = me :: taken ++ left → writers_ d' = left →
  (∀ u, u ∉ taken → on_stack d' !! u = on_stack (c_db c) !! u) →
  (∀ u, u ∈ taken → ∃ wr, on_stack d' !! u = Some wr ∧ w_done wr = true ∧ w_status wr = s) →
  (extra = me :: taken ∧ Status_ok s = true ∨ extra = [] ∧ taken = [] ∧ (Status_ok s = true → ∀ b, (me, Some b) ∉ g_calls c)) →
  let c' := {| c_db := d'; c_world := w'; c_threads := <[me := Returned s q]> (c_threads c); g_calls := g_calls c; g_committed := g_committed c ++ extra |} in
  vs_last_sequence (db_versions_ d') = s0 + Z.of_nat (length (committed_updates c')) → holds (tmp_batch_ d') 0 [] →
  (∃ before since, committed_updates c' = before ++ since ∧ MemLog d' w' (s0 + Z.of_nat (length before) + 1) since) → Inv s0 c'.
Proof using Type.
  intros HI Eq Eq' Hsame Hdone Hex c' Hs Htmp (before & since & Hcu & Hml).
  destruct (queue_facts s0 c me (taken ++ left) HI Eq) as (Hnd & Hw & Hme & Hgone). pose proof Hnd as [Hme' (Hndt & Hd & Hndl)%NoDup_app]%NoDup_cons.
  assert (Hleft : ∀ t, t ∈ left → t ≠ me ∧ t ∉ taken).
  { intros t Ht. split; [intros ->; apply Hme', elem_of_app; by right|]. intros Ht'. by apply (Hd t). }
  split; cbn [c' c_db c_world c_threads g_calls g_committed]; rewrite ?Eq'; try done.
  - apply (i_nodup _ _ HI).
  - intros t. destruct (decide (t = me)) as [->|]; [rewrite lookup_insert_eq; naive_solver|]. rewrite lookup_insert_ne by done. apply (i_dom _ _ HI).
  - destruct (i_queue _ _ HI) as (gone & Eg & Hsub & Hend). exists (gone ++ me :: taken). split; [by rewrite Eg, Eq, <- app_assoc|]. split.
    { apply sublist_app; [done|]. destruct Hex as [[-> _]|[-> _]]; [done|apply sublist_nil_l]. }
    intros t [Ht|Ht]%elem_of_app.
    + pose proof (Hgone gone Eg t Ht) as Hnt. assert (t ≠ me) by (intros ->; apply Hnt; left). assert (t ∉ taken) by (intros ?; apply Hnt; right; apply elem_of_app; by left).
      assert (Hnex : t ∉ extra) by (destruct Hex as [[-> _]|[-> _]]; [intros [?|?]%elem_of_cons; done|apply not_elem_of_nil]).
      destruct (Hend t Ht) as (s1 & Hc & H1 & H2). exists s1. cbn [c' c_threads c_db g_committed g_calls]. rewrite lookup_insert_ne, Hsame by done. split; [done|]. split.
      * intros [?|?]%elem_of_app; [by apply H1|done].
      * intros b Hb Hok. apply elem_of_app. left. by eapply H2.
    + exists s. cbn [c' c_threads c_db g_committed g_calls]. split; [|split].
      * destruct (decide (t = me)) as [->|Hne]; [left; rewrite lookup_insert_eq; by eexists|]. right. apply elem_of_cons in Ht as [?|Ht]; [done|].
        rewrite lookup_insert_ne by done. split; [|by apply Hdone]. apply (i_tail _ _ HI). rewrite Eq. simpl. apply elem_of_app. by left.
      * intros [Hc|Hc]%elem_of_app; [|destruct Hex as [[-> Hok]|[-> _]]; [done|by apply not_elem_of_nil in Hc]].
        exfalso. eapply Hgone; [exact Eg|eapply elem_of_sublist; [exact Hc|exact Hsub]|]. change (me :: taken ++ left) with ((me :: taken) ++ left). apply elem_of_app. by left.
      * intros b Hb Hok. apply elem_of_app. right. destruct Hex as [[-> _]|(-> & -> & Hnb)]; [done|]. apply list_elem_of_singleton in Ht as ->. by apply (Hnb Hok) in Hb.
  - intros t Ht. destruct (Hleft t Ht) as [Hne Hnt]. destruct (Hw t) as (wr & E & H'); [right; apply elem_of_app; by right|]. exists wr. rewrite Hsame by done. done.
  - intros t b Ht Hin. destruct (Hleft t Ht) as [Hne Hnt]. rewrite Hsame by done. apply (i_batch _ _ HI); [|done]. rewrite Eq. right. apply elem_of_app. by right.
  - intros t Ht. destruct left as [|x left]; [by apply not_elem_of_nil in Ht|]. simpl in Ht. destruct (Hleft t ltac:(by right)) as [Hne Hnt]. rewrite lookup_insert_ne by done.
    apply (i_tail _ _ HI). rewrite Eq. simpl. apply elem_of_app. right. by right.
  - apply (i_start _ _ HI).
  - exists [], before, since. rewrite app_nil_r. split; [|done]. apply phase_idle; cbn [c' c_db c_threads]; [|done]. rewrite Eq'. intros t Ht. left.
    destruct left as [|x left]; [done|]. injection Ht as ->. destruct (Hleft t ltac:(left)) as [Hne Hnt]. rewrite lookup_insert_ne by done.
    apply (i_tail _ _ HI). rewrite Eq. simpl. apply elem_of_app. right. left.
Qed.

(** A leader stays one when others join the queue behind its group. *)
Lemma leading_more us us' me lw tmp n d d' taken left more : leading us me lw tmp n d taken left →
  (∀ t, t ∈ me :: taken → us' t = us t) → writers_ d' = writers_ d ++ more → on_stack d' !! me = on_stack d !! me → tmp_batch_ d' = tmp_batch_ d →
  vs_last_sequence (db_versions_ d') = vs_last_sequence (db_versions_ d) →
  leading us' me lw tmp n d' taken (left ++ more) ∧ us' me ++ mjoin (us' <$> taken) = us me ++ mjoin (us <$> taken).
Proof using Type.
  intros (H1 & H2 & H3 & (b & Eb & Hb) & H5) Hus Hq Hst Ht Hs.
  assert (Hgus : us' me ++ mjoin (us' <$> taken) = us me ++ mjoin (us <$> taken)).
  { rewrite Hus by left. do 2 f_equal. apply list_fmap_ext. intros i t Hi. apply Hus. right. by eapply list_elem_of_lookup_2. }
  split; [|done]. unfold leading. rewrite Hgus, Hs, Ht, Hq, H1. split; [cbn [app]; by rewrite <- app_assoc|]. split; [done|]. split; [done|]. split; [|done].
  exists b. split; [|done]. rewrite <- Eb. unfold updates. by rewrite Ht, Hst.
Qed.

Lemma MemLog_same d w d' w' seq us : mem_ d' = mem_ d → logfile_number_ d' = logfile_number_ d → log_ d' = log_ d →
  files w' !! LogFileName dbname_ (logfile_number_ d) = files w !! LogFileName dbname_ (logfile_number_ d) → MemLog d w seq us → MemLog d' w' seq us.
Proof using Type. intros H1 H2 H3 H4. unfold MemLog. by rewrite H1, H2, H3, H4. Qed.

Lemma Inv_call s0 c me batch sync : Inv s0 c → c_threads c !! me = None → CallsOk s0 (g_calls c ++ [(me, batch)]) →
  Inv s0 {| c_db := enqueue me batch sync (c_db c); c_world := c_world c; c_threads := <[me := Queued]> (c_threads c);
            g_calls := g_calls c ++ [(me, batch)]; g_committed := g_committed c |}.
Proof using Type.
  intros HI Hfree Hok. set (calls := g_calls c). assert (Hme : me ∉ calls.*1) by (intros [? H]%(i_dom _ _ HI); congruence).
  destruct (i_queue _ _ HI) as (gone & Eg & Hsub & Hend). fold calls in Eg.
  assert (Hq : ∀ t, t ∈ writers_ (c_db c) → t ∈ calls.*1 ∧ t ≠ me).
  { intros t Ht. assert (t ∈ calls.*1) by (rewrite Eg; apply elem_of_app; by right). split; [done|]. intros ->. done. }
  assert (Hus : ∀ t, t ≠ me → call_updates (calls ++ [(me, batch)]) t = call_updates calls t) by (intros t Ht; by rewrite call_updates_snoc, decide_False).
  assert (Hcu : mjoin (call_updates (calls ++ [(me, batch)]) <$> g_committed c) = committed_updates c).
  { unfold committed_updates. fold calls. rewrite call_updates_old; [done|]. intros t Ht. rewrite Eg. apply elem_of_app. left. by eapply elem_of_sublist. }
  set (c' := {| c_db := _; c_world := _; c_threads := _; g_calls := _; g_committed := _ |}).
  assert (Hcu' : committed_updates c' = committed_updates c) by exact Hcu.
  split; cbn [c' c_db c_world c_threads g_calls g_committed enqueue with_queue writers_ on_stack db_versions_].
  - rewrite fmap_app. apply NoDup_app. split; [apply (i_nodup _ _ HI)|]. split; [intros t Ht ->%list_elem_of_singleton; done|apply NoDup_singleton].
  - intros t. rewrite fmap_app, elem_of_app. change ([(me, batch)].*1) with [me]. rewrite list_elem_of_singleton. destruct (decide (t = me)) as [->|]; [rewrite lookup_insert_eq; naive_solver|].
    rewrite lookup_insert_ne by done. rewrite (i_dom _ _ HI). fold calls. cbn. naive_solver.
  - exists gone. split; [by rewrite fmap_app, Eg, <- app_assoc|]. split; [done|]. intros t Ht.
    assert (t ≠ me) by (intros ->; apply Hme; rewrite Eg; apply elem_of_app; by left). destruct (Hend t Ht) as (s & Hc & H1 & H2).
    exists s. cbn [c' c_threads c_db g_committed g_calls enqueue with_queue on_stack]. rewrite !lookup_insert_ne by done. split; [done|]. split; [done|].
    intros b [Hb|[= ? _]%list_elem_of_singleton]%elem_of_app; [by eapply H2|done].
  - intros t [Ht| ->%list_elem_of_singleton]%elem_of_app.
    + destruct (Hq t Ht) as [_ Hne]. rewrite Hus by done. destruct (i_waiting _ _ HI t Ht) as (wr & E & H'). exists wr. cbn. by rewrite lookup_insert_ne.
    + rewrite call_updates_snoc, decide_True by done. eexists. cbn. rewrite lookup_insert_eq. split; [done|]. cbn. split; [done|]. split; [done|].
      intros b ->. apply (co_batches _ _ Hok me b), elem_of_app. right. left.
  - intros t b [Ht| ->%list_elem_of_singleton]%elem_of_app Hin.
    + destruct (Hq t Ht) as [_ Hne]. rewrite lookup_insert_ne by done. apply elem_of_app in Hin as [Hin|[= ? _]%list_elem_of_singleton]; [|done]. by apply (i_batch _ _ HI).
    + rewrite lookup_insert_eq. cbn. apply elem_of_app in Hin as [Hin|[= ->]%list_elem_of_singleton]; [|done]. apply (list_elem_of_fmap_2 fst) in Hin. done.
  - intros t Ht. destruct (writers_ (c_db c)) as [|x rest] eqn:Eq; [by apply not_elem_of_nil in Ht|]. simpl in Ht.
    apply elem_of_app in Ht as [Ht| ->%list_elem_of_singleton]; [|by rewrite lookup_insert_eq]. destruct (Hq t ltac:(by right)) as [_ Hne].
    rewrite lookup_insert_ne by done. apply (i_tail _ _ HI). by rewrite Eq.
  - apply (i_start _ _ HI).
  - rewrite Hcu'. apply (i_seq _ _ HI).
  - destruct (i_data _ _ HI) as (pending & before & since & Hph & Hsplit & Hml). exists pending, before, since. rewrite Hcu'. split; [|split; [done|]; revert Hml; by apply MemLog_same].
    fold calls in Hph. destruct Hph as [Hhead Htmp|ld lw tmp n taken left Hl Hpc|ld lw tmp n taken left Hl Hpc].
    + apply phase_idle; cbn [c' c_db c_threads enqueue with_queue writers_ tmp_batch_]; [|done]. intros t Ht. destruct (writers_ (c_db c)) as [|x rest] eqn:Eq.
      * injection Ht as ->. left. by rewrite lookup_insert_eq.
      * injection Ht as ->. destruct (Hq t ltac:(left)) as [_ Hne]. rewrite lookup_insert_ne by done. by apply Hhead.
    + pose proof Hl as (Ew & _). destruct (Hq ld) as [_ Hne]; [rewrite Ew; left|].
      destruct (leading_more _ (call_updates (calls ++ [(me, batch)])) _ _ _ _ _ (enqueue me batch sync (c_db c)) _ _ [me] Hl) as [Hl' _]; [|done|cbn; by rewrite lookup_insert_ne|done|done|].
      * intros t Ht. apply Hus. apply (Hq t). rewrite Ew. change (ld :: taken ++ left) with ((ld :: taken) ++ left). apply elem_of_app. by left.
      * eapply phase_logging; [exact Hl'|]. cbn. by rewrite lookup_insert_ne.
    + pose proof Hl as (Ew & _). destruct (Hq ld) as [_ Hne]; [rewrite Ew; left|].
      destruct (leading_more _ (call_updates (calls ++ [(me, batch)])) _ _ _ _ _ (enqueue me batch sync (c_db c)) _ _ [me] Hl) as [Hl' <-]; [|done|cbn; by rewrite lookup_insert_ne|done|done|].
      * intros t Ht. apply Hus. apply (Hq t). rewrite Ew. change (ld :: taken ++ left) with ((ld :: taken) ++ left). apply elem_of_app. by left.
      * eapply phase_logged; [exact Hl'|]. cbn. by rewrite lookup_insert_ne.
Qed.

Lemma Inv_background s0 c d' w' : Inv s0 c → background files dbname_ (c_db c) (c_world c) d' w' →
  Inv s0 {| c_db := d'; c_world := w'; c_threads := c_threads c; g_calls := g_calls c; g_committed := g_committed c |}.
Proof using Type.
  intros HI [(Hq & Hst & Htmp) Hm _ (Hl1 & Hl2) Hf Hs _]. set (c' := {| c_db := d'; c_world := _; c_threads := _; g_calls := _; g_committed := _ |}).
  split; cbn [c' c_db c_world c_threads g_calls g_committed]; rewrite ?Hq.
  - apply (i_nodup _ _ HI).
  - apply (i_dom _ _ HI).
  - destruct (i_queue _ _ HI) as (gone & Eg & Hsub & Hend). exists gone. split; [done|]. split; [done|]. intros t Ht. destruct (Hend t Ht) as (s & H). exists s. cbn. by rewrite Hst.
  - intros t Ht. unfold waiting. rewrite Hst. by apply (i_waiting _ _ HI).
  - rewrite Hst. apply (i_batch _ _ HI).
  - apply (i_tail _ _ HI).
  - apply (i_start _ _ HI).
  - rewrite Hs. apply (i_seq _ _ HI).
  - destruct (i_data _ _ HI) as (pending & before & since & Hph & Hsplit & Hml). exists pending, before, since. split; [|split; [done|]; revert Hml; by apply MemLog_same].
    destruct Hph as [Hhead Ht|ld lw tmp n taken left Hl Hpc|ld lw tmp n taken left Hl Hpc].
    + apply phase_idle; cbn [c' c_db c_threads]; [by rewrite Hq|by rewrite Htmp].
    + eapply phase_logging; [|exact Hpc]. unfold leading, updates in *. cbn. by rewrite Hq, Htmp, Hs, Hst.
    + eapply phase_logged; [|exact Hpc]. unfold leading, updates in *. cbn. by rewrite Hq, Htmp, Hs, Hst.
Qed.

(** The leader before it has formed a group. *)
Lemma phase_before us c pending me rest pc : phase us c pending → writers_ (c_db c) = me :: rest → c_threads c !! me = Some pc →
  pc = Queued ∨ (∃ f a, pc = MakingRoom f a) → pending = [] ∧ holds (tmp_batch_ (c_db c)) 0 [].
Proof using Type.
  intros [Hh Ht|ld lw tmp n taken left (Hl & _) E|ld lw tmp n taken left (Hl & _) E] Hq Epc Hpc; [done| |];
    rewrite Hl in Hq; injection Hq as -> _; rewrite E in Epc; naive_solver.
Qed.

Lemma Inv_room s0 c h me rest force allow pc pc' d' w' : Inv s0 c → CallsOk s0 (g_calls c) → writers_ (c_db c) = me :: rest →
  c_threads c !! me = Some pc → pc = Queued ∨ (∃ f a, pc = MakingRoom f a) →
  run_room env user dbname_ write_buffer_size h me force allow (c_db c) (c_world c) = Some (pc', d', w') →
  Inv s0 {| c_db := d'; c_world := w'; c_threads := <[me := pc']> (c_threads c); g_calls := g_calls c; g_committed := g_committed c ++ committed_by pc (c_db c) |}.
Proof using All.
  intros HI Hok Eq Epc Hpc. assert (committed_by pc (c_db c) = []) as -> by (destruct Hpc as [->|(? & ? & ->)]; done). rewrite app_nil_r.
  destruct (queue_facts s0 c me rest HI Eq) as (Hnd & Hw & Hme & Hgone). pose proof (queue_bound s0 c HI Hok) as Hmax. rewrite Eq in Hmax.
  assert (Hlast : 0 <= vs_last_sequence (db_versions_ (c_db c))) by (pose proof (i_start _ _ HI); rewrite (i_seq _ _ HI); lia).
  destruct (i_data _ _ HI) as (pending & before & since & Hph & Hsplit & Hml).
  destruct (phase_before _ _ _ _ _ _ Hph Eq Epc Hpc) as [-> Htmp]. rewrite app_nil_r in Hml.
  unfold run_room, MakeRoomForWrite. rewrite Eq. destruct (make_room _ _ _ _ _ _ _ _ _ _) as [[[[r [f a]] d1] w1]|] eqn:Er; cbn [mbind option_bind]; [|done].
  apply make_room_frame in Er as [(Hq1 & Hst1 & Ht1) Hs1 Hdata1].
  assert (Hdata : ∃ before since, committed_updates c = before ++ since ∧ MemLog d1 w1 (s0 + Z.of_nat (length before) + 1) since).
  { destruct Hdata1 as [Hd|Hd]; [exists before, since; split; [done|by apply Hd]|]. exists (committed_updates c), []. split; [by rewrite app_nil_r|]. apply Hd. }
  clear Hml Hsplit before since Hph. destruct Hdata as (before & since & Hsplit & Hml).
  assert (Hwait1 : ∀ t, t ∈ me :: rest → waiting d1 (call_updates (g_calls c) t) t) by (intros t Ht; unfold waiting; rewrite Hst1; by apply Hw).
  assert (Hkeep : ∀ f a, Inv s0 {| c_db := d1; c_world := w1; c_threads := <[me := MakingRoom f a]> (c_threads c); g_calls := g_calls c; g_committed := g_committed c |}).
  { intros f' a'. eapply Inv_keep; [exact HI|exact Eq|by rewrite Hq1|exact Hwait1|intros; by rewrite Hst1|intros; by rewrite Hst1|done|].
    exists [], before, since. rewrite app_nil_r. split; [|done]. apply phase_idle; cbn [c_db c_threads]; [|by rewrite Ht1].
    rewrite Hq1, Eq. intros t [= <-]. right. rewrite lookup_insert_eq. eauto. }
  destruct r as [s| |]; [|intros [= <- <- <-]; apply Hkeep..].
  unfold after_room. destruct (Hwait1 me ltac:(left)) as (wr & Ewr & Hdone & _ & _). rewrite Ewr. cbn [mbind option_bind].
  destruct (Status_ok s && bool_decide (is_Some (w_batch wr))) eqn:Eb.
  - apply andb_true_iff in Eb as [_ Eb]. apply bool_decide_eq_true_1 in Eb.
    destruct (form_group_ok (call_updates (g_calls c)) me rest d1) as (lw & tmp & n & d2 & taken & left & -> & Hl & _ & Hq2 & Hw2 & Hsame & Hsb & Hv2 & Hm2 & Hlf2 & Hlo2);
      [by rewrite Hq1|done|done|by eauto|by rewrite Ht1|by rewrite Hs1|by rewrite Hs1|].
    cbn [mbind option_bind]. intros [= <- <- <-].
    eapply Inv_keep; [exact HI|exact Eq|by rewrite Hq2, Hq1|exact Hw2|intros t Ht; rewrite <- Hst1; by apply Hsame|intros t; rewrite Hsb; by rewrite Hst1|by rewrite Hv2|].
    exists [], before, since. rewrite app_nil_r. split; [|split; [done|]; revert Hml; by apply MemLog_same].
    eapply phase_logging; [exact Hl|]. cbn. by rewrite lookup_insert_eq.
  - unfold leave. destruct (pop_group_ok me s [] me rest (on_stack d1) Hnd ltac:(by left)) as (st' & Epop & Hsame & _). rewrite Hq1, Eq.
    cbn [last_of foldl app] in Epop. rewrite Epop. cbn [mbind option_bind]. intros [= <- <- <-]. rewrite <- (app_nil_r (g_committed c)).
    assert (Hst' : ∀ u, st' !! u = on_stack (c_db c) !! u).
    { intros u. rewrite <- Hst1. destruct (decide (u = me)) as [->|]; [apply Hsame; by right|]. apply Hsame. left. intros [?|?%not_elem_of_nil]%elem_of_cons; done. }
    eapply (Inv_pop s0 c me [] rest); [exact HI|exact Eq|done|intros u _; apply Hst'|by intros u ?%not_elem_of_nil| | | |].
    + right. split; [done|]. split; [done|]. intros Hs b Hin. rewrite Hs in Eb. cbn in Eb. apply bool_decide_eq_false_1 in Eb. apply Eb.
      pose proof (proj2 (i_batch _ _ HI me (Some b) ltac:(rewrite Eq; left) Hin) ltac:(eauto)) as Hb. by rewrite <- Hst1, Ewr in Hb.
    + cbn. rewrite Hs1, (i_seq _ _ HI). unfold committed_updates. cbn. by rewrite app_nil_r.
    + cbn. by rewrite Ht1.
    + exists before, since. unfold committed_updates. cbn. rewrite app_nil_r. split; [done|]. revert Hml. by apply MemLog_same.
Qed.

(** The group the leader has formed. *)
Lemma phase_leading us c pending me pc : phase us c pending → ∀ rest, writers_ (c_db c) = me :: rest → c_threads c !! me = Some pc →
  match pc with
  | Logging lw tmp n => pending = [] ∧ ∃ taken left, leading us me lw tmp n (c_db c) taken left
  | Logged lw tmp n s e => s = OK ∧ e = false ∧ ∃ taken left, pending = us me ++ mjoin (us <$> taken) ∧ leading us me lw tmp n (c_db c) taken left
  | _ => True
  end.
Proof using Type.
  intros [Hh Ht|ld lw tmp n taken left Hl E|ld lw tmp n taken left Hl E] rest Hq Epc.
  - destruct (Hh me) as [H|(f & a & H)]; [by rewrite Hq|..]; rewrite H in Epc; by injection Epc as <-.
  - pose proof Hl as (Hl1 & _). rewrite Hl1 in Hq. injection Hq as -> _. rewrite E in Epc. injection Epc as <-. eauto.
  - pose proof Hl as (Hl1 & _). rewrite Hl1 in Hq. injection Hq as -> _. rewrite E in Epc. injection Epc as <-. eauto 10.
Qed.

Lemma group_bound us me lw tmp n d taken left : leading us me lw tmp n d taken left →
  vs_last_sequence (db_versions_ d) + Z.of_nat (length (mjoin (us <$> writers_ d))) <= kMaxSequenceNumber → n <= kMaxSequenceNumber.
Proof using Type.
  intros (Hq & _ & -> & _) Hm. rewrite Hq, updates_cons, fmap_app, join_app, !length_app in Hm. rewrite length_app. lia.
Qed.

Lemma queue_writable s0 (c : Config (W := W)) t : CallsOk s0 (g_calls c) → Forall writable (call_updates (g_calls c) t).
Proof using Type.
  intros [Hb _]. unfold call_updates. destruct (list_to_map (g_calls c) !! t) as [[b|]|] eqn:E; [|constructor..].
  apply elem_of_list_to_map_2 in E. by apply (Hb t b).
Qed.

Lemma group_writable s0 (c : Config (W := W)) me taken : CallsOk s0 (g_calls c) → Forall writable (call_updates (g_calls c) me ++ mjoin (call_updates (g_calls c) <$> taken)).
Proof using Type.
  intros Hok. apply Forall_app. split; [by eapply queue_writable|]. induction taken as [|t taken IH]; [constructor|]. rewrite updates_cons. apply Forall_app. split; [by eapply queue_writable|done].
Qed.

Lemma Inv_log s0 c h me lw tmp n : Inv s0 c → CallsOk s0 (g_calls c) → c_threads c !! me = Some (Logging lw tmp n) →
  ∃ d' w', run h me (Logging lw tmp n) (c_db c) (c_world c) = Some (Logged lw tmp n OK false, d', w') ∧
    Inv s0 {| c_db := d'; c_world := w'; c_threads := <[me := Logged lw tmp n OK false]> (c_threads c); g_calls := g_calls c; g_committed := g_committed c |}.
Proof using All.
  intros HI Hok Epc. destruct (leader_head s0 c me _ HI Epc) as [rest Eq]; [done|done|].
  destruct (i_data _ _ HI) as (pending & before & since & Hph & Hsplit & Hml). destruct (phase_leading _ _ _ _ _ Hph rest Eq Epc) as (-> & taken & left & Hl).
  rewrite app_nil_r in Hml. destruct (queue_facts s0 c me rest HI Eq) as (_ & Hw & _). destruct (Hw me ltac:(left)) as (wr & Ewr & _).
  destruct (log_and_insert_ok (call_updates (g_calls c)) me lw tmp n (c_db c) (c_world c) taken left (w_sync wr) (s0 + Z.of_nat (length before) + 1) since)
    as (d' & w' & E & Hml' & Hl' & Hq' & Hst' & Ht' & Hv'); [done|done| | | |by eapply group_writable|].
  - pose proof (i_start _ _ HI). lia.
  - rewrite (i_seq _ _ HI), Hsplit, length_app. lia.
  - eapply group_bound; [exact Hl|by eapply queue_bound].
  - exists d', w'. unfold DbWrite.run. rewrite Ewr. cbn [mbind option_bind]. rewrite E. split; [done|].
    eapply Inv_keep; [exact HI|exact Eq|by rewrite Hq'|intros t Ht; unfold waiting; rewrite Hst'; by apply Hw|intros; by rewrite Hst'|intros; by rewrite Hst'|by rewrite Hv'|].
    eexists _, before, since. split; [|split; [done|exact Hml']]. eapply phase_logged; [exact Hl'|]. cbn. by rewrite lookup_insert_eq.
Qed.

Lemma Inv_publish s0 c h me lw tmp n s e : Inv s0 c → c_threads c !! me = Some (Logged lw tmp n s e) →
  ∃ d', run h me (Logged lw tmp n s e) (c_db c) (c_world c) = Some (Returned s (Some n), d', c_world c) ∧
    Inv s0 {| c_db := d'; c_world := c_world c; c_threads := <[me := Returned s (Some n)]> (c_threads c); g_calls := g_calls c;
              g_committed := g_committed c ++ committed_by (Logged lw tmp n s e) (c_db c) |}.
Proof using Type.
  intros HI Epc. destruct (leader_head s0 c me _ HI Epc) as [rest Eq]; [done|done|].
  destruct (i_data _ _ HI) as (pending & before & since & Hph & Hsplit & Hml). destruct (phase_leading _ _ _ _ _ Hph rest Eq Epc) as (-> & -> & taken & left & -> & Hl).
  destruct (queue_facts s0 c me rest HI Eq) as (Hnd & Hw & _). destruct (Hw me ltac:(left)) as (wr & Ewr & _). pose proof Hl as (Hq & -> & Hn & _).
  assert (Hrest : rest = taken ++ left) by (rewrite Eq in Hq; by injection Hq). subst rest.
  destruct (publish_ok _ _ _ _ _ _ _ _ Hl) as (d1 & E1 & Hs1 & Ht1 & Hq1 & Hst1 & Hm1 & Hlf1 & Hlo1).
  destruct (pop_group_ok me OK taken me left (on_stack d1) Hnd ltac:(by left)) as (st' & Epop & Hsame & Hdone).
  exists (with_queue left st' (tmp_batch_ d1) d1). unfold DbWrite.run. rewrite Ewr. cbn [mbind option_bind]. rewrite E1. cbn [mbind option_bind]. unfold leave.
  rewrite Hq1, Eq, Epop. split; [done|]. cbn [committed_by]. rewrite Eq, group_of_prefix by done.
  assert (Hcu : ∀ x, mjoin (call_updates (g_calls c) <$> g_committed c ++ me :: x) = committed_updates c ++ call_updates (g_calls c) me ++ mjoin (call_updates (g_calls c) <$> x)).
  { intros x. by rewrite fmap_app, join_app. }
  apply NoDup_cons in Hnd as [Hme Hnd].
  eapply (Inv_pop s0 c me taken left); [exact HI|exact Eq|done| | |by left| |done|].
  - intros u Hu. cbn. rewrite <- Hst1. apply Hsame. destruct (decide (u = me)) as [->|]; [by right|]. left. intros [?|?]%elem_of_cons; done.
  - intros u Hu. cbn. assert (u ≠ me) by (intros ->; apply Hme, elem_of_app; by left).
    destruct (Hw u) as (wu & Eu & _); [right; apply elem_of_app; by left|]. apply (Hdone u wu); [by right|done|by rewrite Hst1].
  - cbn. rewrite Hs1, Hn, (i_seq _ _ HI). unfold committed_updates. cbn. rewrite Hcu, !length_app. unfold committed_updates. lia.
  - exists before, (since ++ call_updates (g_calls c) me ++ mjoin (call_updates (g_calls c) <$> taken)). unfold committed_updates. cbn. rewrite Hcu, Hsplit, <- app_assoc.
    split; [done|]. revert Hml. by apply MemLog_same.
Qed.

(** A writer whose group is done returns. *)
Lemma Inv_return s0 c me wr : Inv s0 c → c_threads c !! me = Some Queued → on_stack (c_db c) !! me = Some wr → w_done wr = true →
  Inv s0 {| c_db := c_db c; c_world := c_world c; c_threads := <[me := Returned (w_status wr) (w_seq wr)]> (c_threads c); g_calls := g_calls c; g_committed := g_committed c |}.
Proof using Type.
  intros HI Epc Ewr Ed. assert (Hme : me ∉ writers_ (c_db c)).
  { intros Hin. destruct (i_waiting _ _ HI me Hin) as (wr' & E & Hd & _). congruence. }
  set (c' := {| c_db := c_db c; c_world := _; c_threads := _; g_calls := _; g_committed := _ |}).
  assert (Hth : ∀ t, t ≠ me → c_threads c' !! t = c_threads c !! t) by (intros t Ht; cbn; by rewrite lookup_insert_ne).
  split; cbn [c' c_db c_world g_calls g_committed].
  - apply (i_nodup _ _ HI).
  - intros t. destruct (decide (t = me)) as [->|Hne]; [|rewrite (Hth t Hne); apply (i_dom _ _ HI)].
    cbn. rewrite lookup_insert_eq. rewrite <- (i_dom _ _ HI), Epc. split; eauto.
  - destruct (i_queue _ _ HI) as (gone & Eg & Hsub & Hend). exists gone. split; [done|]. split; [done|]. intros t Ht. destruct (Hend t Ht) as (s & Hc & H').
    exists s. split; [|done]. destruct (decide (t = me)) as [->|Hne]; [|by rewrite (Hth t Hne)]. left.
    destruct Hc as [(q & Hq)|(_ & wr' & E & _ & <-)]; [congruence|]. cbn. rewrite lookup_insert_eq. rewrite Ewr in E. injection E as <-. eauto.
  - apply (i_waiting _ _ HI).
  - apply (i_batch _ _ HI).
  - intros t Ht. rewrite Hth; [by apply (i_tail _ _ HI)|]. intros ->. apply Hme. destruct (writers_ (c_db c)); [done|by right].
  - apply (i_start _ _ HI).
  - apply (i_seq _ _ HI).
  - destruct (i_data _ _ HI) as (pending & before & since & Hph & Hsplit & Hml). exists pending, before, since. split; [|done].
    destruct Hph as [Hhead Ht|ld lw tmp n taken left Hl Hpc|ld lw tmp n taken left Hl Hpc].
    + apply phase_idle; [|done]. intros t Hh. rewrite Hth; [by apply Hhead|]. intros ->. apply Hme. cbn in Hh. destruct (writers_ (c_db c)); [done|]. injection Hh as ->. left.
    + eapply phase_logging; [exact Hl|]. rewrite Hth; [done|]. congruence.
    + eapply phase_logged; [exact Hl|]. rewrite Hth; [done|]. congruence.
Qed.

Lemma Inv_queue_step s0 c c' : Inv s0 c → CallsOk s0 (g_calls c') → step c c' → Inv s0 c'.
Proof using All.
  intros HI Hok Hs. revert HI Hok. destruct Hs as [c0 me batch sync Hfree|c0 me h pc pc' d' w' Epc E|c0 d' w' Hbg]; intros HI Hok; cbn [g_calls] in Hok.
  - by apply Inv_call.
  - destruct pc as [|f a|lw tmp n|lw tmp n s e|s q].
    + unfold DbWrite.run in E. destruct (on_stack (c_db c0) !! me) as [wr|] eqn:Ewr; cbn [mbind option_bind] in E; [|done].
      destruct (w_done wr) eqn:Ed.
      * injection E as <- <- <-. cbn [committed_by]. rewrite app_nil_r. by eapply Inv_return.
      * case_bool_decide as Hhead; [|done]. destruct (writers_ (c_db c0)) as [|x rest] eqn:Eq; [done|]. injection Hhead as ->.
        eapply Inv_room; [exact HI|exact Hok|exact Eq|exact Epc|by left|exact E].
    + destruct (leader_head s0 c0 me _ HI Epc) as [rest Eq]; [done|done|]. unfold DbWrite.run in E.
      destruct (on_stack (c_db c0) !! me) as [wr|]; cbn [mbind option_bind] in E; [|done]. eapply Inv_room; [exact HI|exact Hok|exact Eq|exact Epc|by right; eauto|exact E].
    + destruct (Inv_log s0 c0 h me lw tmp n HI Hok Epc) as (d1 & w1 & E1 & HI1). rewrite E1 in E. injection E as <- <- <-. cbn [committed_by]. by rewrite app_nil_r.
    + destruct (Inv_publish s0 c0 h me lw tmp n s e HI Epc) as (d1 & E1 & HI1). rewrite E1 in E. by injection E as <- <- <-.
    + unfold DbWrite.run in E. by destruct (on_stack (c_db c0) !! me).
  - by apply Inv_background.
Qed.

Lemma reachable_Inv s0 c c' : Start s0 c → rtc step c c' → CallsOk s0 (g_calls c') → Inv s0 c'.
Proof using All.
  intros Hst Hr. revert c' Hr. apply (rtc_ind_r (λ c', CallsOk s0 (g_calls c') → Inv s0 c')); [by intros _; apply Start_Inv|].
  intros c1 c2 Hr Hstep IH Hok.
  assert (Hok1 : CallsOk s0 (g_calls c1)); [|by eapply Inv_queue_step; [apply IH|exact Hok|exact Hstep]].
  clear IH Hr. destruct Hstep; cbn [g_calls] in Hok; [by eapply CallsOk_prefix|done|done].
Qed.
End Invariant.

(** ** Properties *)

(** [C3] Under every interleaving of any number of writers with the background thread, on an
    environment that does not fail, the write queue is linearizable: groups are published in the order
    their writers joined the queue, each writer's batch once; a call returns OK exactly when its batch
    is published; the last sequence number counts the updates published; the current memtable and its
    log both hold exactly the updates since the last switch of memtables, numbered consecutively, and
    possibly those of one group about to be published; and a leader that has formed its group always
    gets through logging, inserting and publishing without a failed assertion. *)
Theorem write_queue_linearizes {W : Type} (env : ManifestEnv W) (files : W → gmap bytes bytes) (valid : bytes → Prop) (user : Comparator)
    (dbname : bytes) (write_buffer_size : Z) (log_error : Status) (s0 : Z) (c c' : Config) (h : Hints)
    (HE : ManifestEnvOk env files) (HC : ComparatorOk valid user) (HS : Start files (valid := valid) user dbname s0 c)
    (HR : rtc (step env files user dbname write_buffer_size log_error) c c') (HK : CallsOk (valid := valid) s0 (g_calls c')) :
  g_committed c' `sublist_of` (g_calls c').*1 ∧
  (∀ t b s q, (t, Some b) ∈ g_calls c' → c_threads c' !! t = Some (Returned s q) → Status_ok s = true ↔ t ∈ g_committed c') ∧
  vs_last_sequence (db_versions_ (c_db c')) = s0 + Z.of_nat (length (committed_updates c')) ∧
  (∃ before since pending, committed_updates c' = before ++ since ∧
    MemLog files (valid := valid) user dbname (c_db c') (c_world c') (s0 + Z.of_nat (length before) + 1) (since ++ pending)) ∧
  (∀ t lw tmp n, c_threads c' !! t = Some (Logging lw tmp n) ∨ (∃ s e, c_threads c' !! t = Some (Logged lw tmp n s e)) →
    ∃ pc, c_threads c' !! t = Some pc ∧ is_Some (run env files user dbname write_buffer_size log_error h t pc (c_db c') (c_world c'))).
Proof.
  pose proof (reachable_Inv env files user dbname write_buffer_size log_error s0 c c' HS HR HK) as HI.
  destruct (i_queue _ _ _ _ _ HI) as (gone & Eg & Hsub & Hend). split; [rewrite Eg; by apply sublist_inserts_r|]. split; [|split; [apply (i_seq _ _ _ _ _ HI)|split]].
  - intros t b s q Hb Et. assert (Hg : t ∈ gone).
    { assert (Hin : t ∈ (g_calls c').*1) by (by apply (list_elem_of_fmap_2 fst) in Hb). rewrite Eg in Hin. apply elem_of_app in Hin as [?|Hin]; [done|exfalso].
      destruct (i_data _ _ _ _ _ HI) as (pending & _ & _ & Hph & _). pose proof (i_tail _ _ _ _ _ HI t) as Htl.
      destruct (writers_ (c_db c')) as [|x rest] eqn:Eq; [by apply not_elem_of_nil in Hin|]. apply elem_of_cons in Hin as [->|Hin]; [|by rewrite Htl in Et].
      destruct Hph as [Hh _|ld lw tmp n taken left (Hl & _) E|ld lw tmp n taken left (Hl & _) E].
      - rewrite Eq in Hh. destruct (Hh x eq_refl) as [H|(f & a & H)]; congruence.
      - rewrite Eq in Hl. injection Hl as -> _. congruence.
      - rewrite Eq in Hl. injection Hl as -> _. congruence. }
    destruct (Hend t Hg) as (s' & [(q' & E')|(E' & _)] & H1 & H2); [|congruence]. rewrite E' in Et. injection Et as -> ->. split; [by eapply H2|done].
  - destruct (i_data _ _ _ _ _ HI) as (pending & before & since & _ & Hs & Hm). by exists before, since, pending.
  - intros t lw tmp n [E|(s & e & E)].
    + destruct (Inv_log env files user dbname write_buffer_size log_error s0 c' h t lw tmp n HI HK E) as (d' & w' & Er & _). eauto.
    + destruct (Inv_publish env files user dbname write_buffer_size log_error s0 c' h t lw tmp n s e HI E) as (d' & Er & _). eauto.
Qed.

(** Two writers join the queue, and the first logs both batches. *)
Definition sample_db : DBImpl :=
  {| writers_ := []; on_stack := ∅; tmp_batch_ := WriteBatch.Clear; mem_ := MemTable_Ref (MemTable_make BytewiseComparator); imm_ := None;
     logfile_number_ := 4; log_ := 0; db_versions_ := VersionSet_make; bg_error_ := OK; shutting_down_ := false;
     bg_compaction_scheduled_ := false; manual_compaction_ := false; scheduled := 0 |}.
Definition sample_hints : Hints := {| size_compaction := false; compaction_level_ := 0; file_to_compact_ := None |}.
Definition sample_batch (k : Z) : WriteBatch := WriteBatch.Put [k] [120] WriteBatch.Clear.
Definition sample_start_config : Config (W := gmap bytes bytes) :=
  {| c_db := sample_db; c_world := {[LogFileName (str "db") 4 := []]}; c_threads := ∅; g_calls := []; g_committed := [] |}.
Definition sample_call (me : nat) (k : Z) (c : Config (W := gmap bytes bytes)) : Config :=
  {| c_db := enqueue me (Some (sample_batch k)) true (c_db c); c_world := c_world c; c_threads := <[me := Queued]> (c_threads c);
     g_calls := g_calls c ++ [(me, Some (sample_batch k))]; g_committed := g_committed c |}.
Definition sample_write_run (me : nat) (c : Config (W := gmap bytes bytes)) : Config :=
  match c_threads c !! me ≫= λ pc, run sample_env id BytewiseComparator (str "db") 65536 (IOError [] []) sample_hints me pc (c_db c) (c_world c) with
  | Some (pc', d', w') => {| c_db := d'; c_world := w'; c_threads := <[me := pc']> (c_threads c); g_calls := g_calls c;
                             g_committed := g_committed c ++ match c_threads c !! me with Some pc => committed_by pc (c_db c) | None => [] end |}
  | None => c
  end.
Definition sample_grouped : Config := Nat.iter 3 (sample_write_run 1) (sample_call 2 98 (sample_call 1 97 sample_start_config)).
Definition sample_final : Config := sample_write_run 2 sample_grouped.

Lemma sample_write_steps me c : rtc (step sample_env id BytewiseComparator (str "db") 65536 (IOError [] [])) c (sample_write_run me c).
Proof.
  unfold sample_write_run. destruct (c_threads c !! me) as [pc|] eqn:E; cbn [mbind option_bind]; [|done].
  destruct (run _ _ _ _ _ _ _ _ _ _ _) as [[[pc' d'] w']|] eqn:Er; [|done]. apply rtc_once. by eapply step_run.
Qed.

Lemma sample_final_steps : rtc (step sample_env id BytewiseComparator (str "db") 65536 (IOError [] [])) sample_start_config sample_final.
Proof.
  eapply rtc_l; [apply (step_call _ _ _ _ _ _ sample_start_config 1%nat (Some (sample_batch 97)) true); done|].
  eapply rtc_l; [apply (step_call _ _ _ _ _ _ (sample_call 1 97 sample_start_config) 2%nat (Some (sample_batch 98)) true); done|].
  unfold sample_final, sample_grouped. cbn [Nat.iter nat_rect]. do 3 (etrans; [|apply sample_write_steps]). apply sample_write_steps.
Qed.

Lemma sample_batch_ok k : is_byte k → batch_ok (sample_batch k) ∧ Forall (writable (valid := bytes_ok)) (batch_updates (sample_batch k)).
Proof.
  intros Hk. assert (Hu : update_ok (UPut [k] [120])) by (split; vm_compute; reflexivity).
  pose proof (holds_apply _ _ _ (UPut [k] [120]) holds_Clear Hu ltac:(vm_compute; reflexivity)) as H. cbn [app apply_update] in H. fold (sample_batch k) in H.
  rewrite (holds_updates _ _ _ H). split; [split; [exists 0; by rewrite (holds_updates _ _ _ H)|]|].
  - unfold sample_batch, ByteSize. vm_compute. reflexivity.
  - constructor; [|constructor]. assert (Hb : bytes_ok [k]) by (apply bytes_ok_cons; split; [done|apply bytes_ok_nil]).
    split; [split; [done|]; split; [vm_compute; reflexivity|done]|]. cbn [update_bytes]. apply bytes_ok_cons. split; [by_compute|].
    apply bytes_ok_app. split; [apply (PutLengthPrefixedSlice_ok [] [k]); [apply bytes_ok_nil|done]|by_compute].
Qed.

Lemma write_queue_linearizes_witness :
  g_committed sample_final = [1%nat; 2%nat] ∧ vs_last_sequence (db_versions_ (c_db sample_final)) = 2 ∧
  ∃ before since pending, committed_updates sample_final = before ++ since ∧
    MemLog id (valid := bytes_ok) BytewiseComparator (str "db") (c_db sample_final) (c_world sample_final) (0 + Z.of_nat (length before) + 1) (since ++ pending).
Proof.
  destruct (write_queue_linearizes sample_env id bytes_ok BytewiseComparator (str "db") 65536 (IOError [] []) 0 sample_start_config sample_final sample_hints) as (_ & _ & _ & Hd & _).
  - apply sample_env_ok.
  - apply BytewiseComparator_ok.
  - split; [done|]. do 6 (split; [done|]). split; [apply MemInv_make|]. exists []. done.
  - apply sample_final_steps.
  - split.
    + intros t b [[= -> ->]|[[= -> ->]|[]%not_elem_of_nil]%elem_of_cons]%elem_of_cons; apply sample_batch_ok; by_compute.
    + vm_compute. discriminate.
  - split; [vm_compute; reflexivity|]. split; [vm_compute; reflexivity|exact Hd].
Defined.

(** [C36] The numbers [SUWrite] hands back are not those of the caller's updates when batches are
    grouped.  In a group of calls with one update each, the updates take consecutive numbers in the
    order of the queue; but the leader is given the number of the last one, and every follower the
    number of the update before its own. *)
Theorem group_sequence_misreported (us : nat → list Update) (me : nat) (rest : list nat) (d : DBImpl)
    (Hq : writers_ d = me :: rest) (Hnd : NoDup (me :: rest)) (Hw : ∀ t, t ∈ me :: rest → waiting d (us t) t)
    (Hb : ∃ wr, on_stack d !! me = Some wr ∧ is_Some (w_batch wr)) (Htmp : holds (tmp_batch_ d) 0 [])
    (Hlast : 0 <= vs_last_sequence (db_versions_ d))
    (Hmax : vs_last_sequence (db_versions_ d) + Z.of_nat (length (mjoin (us <$> me :: rest))) <= kMaxSequenceNumber)
    (Hone : ∀ t, t ∈ me :: rest → length (us t) = 1%nat) :
  let own k := vs_last_sequence (db_versions_ d) + 1 + Z.of_nat k in
  ∃ lw tmp n d' taken b, form_group me d = Some (lw, tmp, n, d') ∧ group_of lw (writers_ d) = me :: taken ∧
    updates me tmp d' = Some b ∧ holds b (own 0%nat) (mjoin (us <$> me :: taken)) ∧
    n = own (length taken) ∧ ∀ k t, taken !! k = Some t → on_stack d' !! t ≫= w_seq = Some (own (S k) - 1).
Proof.
  intros own. destruct (form_group_ok us me rest d Hq Hnd Hw Hb Htmp Hlast Hmax) as (lw & tmp & n & d' & taken & left & E & Hl & Hseq & Hq' & _ & _ & _ & Hv & _).
  destruct Hl as (Hq1 & -> & Hn & (b & Eb & Hbh) & _). rewrite Hq' in Hq1. rewrite Hv in Hn, Hbh.
  assert (Hrest : rest = taken ++ left) by (rewrite Hq in Hq1; by injection Hq1).
  assert (Hlen : ∀ l, (∀ t, t ∈ l → t ∈ me :: rest) → length (mjoin (us <$> l)) = length l).
  { induction l as [|t l IH]; intros Hsub; [done|]. rewrite updates_cons, length_app, IH, Hone; [done|apply Hsub; left|intros u Hu; apply Hsub; by right]. }
  assert (Htk : length (mjoin (us <$> me :: taken)) = S (length taken)).
  { apply (Hlen (me :: taken)). intros t [->|Ht]%elem_of_cons; [left|]. right. rewrite Hrest. apply elem_of_app. by left. }
  exists (last_of me taken), tmp, n, d', taken, b. split; [done|]. split; [rewrite Hq, Hrest; apply group_of_prefix; by rewrite <- Hrest|]. split; [done|].
  split; [by unfold own; rewrite Z.add_0_r|]. split; [rewrite updates_cons in Htk; rewrite Hn, Htk; unfold own; lia|].
  intros k t Hk. rewrite (Hseq k t Hk). f_equal. unfold own. rewrite u64_small; [lia|]. apply lookup_lt_Some in Hk.
  assert (Hall : length (mjoin (us <$> me :: rest)) = S (length rest)) by (by apply (Hlen (me :: rest))). rewrite Hall, Hrest, length_app in Hmax.
  assert (kMaxSequenceNumber < 2 ^ 63) by done. unfold is_u. lia.
Qed.

Lemma group_sequence_misreported_witness :
  c_threads sample_final !! 1%nat = Some (Returned OK (Some 2)) ∧ c_threads sample_final !! 2%nat = Some (Returned OK (Some 1)) ∧
  ∃ lw tmp n d' taken b, form_group 1 (c_db (sample_call 2 98 (sample_call 1 97 sample_start_config))) = Some (lw, tmp, n, d') ∧
    updates 1 tmp d' = Some b ∧ holds b 1 (mjoin ((λ t, if (t =? 1)%nat then [UPut [97] [120]] else [UPut [98] [120]]) <$> 1%nat :: taken)) ∧ n = 1 + Z.of_nat (length taken).
Proof.
  split; [vm_compute; reflexivity|]. split; [vm_compute; reflexivity|].
  destruct (group_sequence_misreported (λ t, if (t =? 1)%nat then [UPut [97] [120]] else [UPut [98] [120]]) 1 [2%nat]
    (c_db (sample_call 2 98 (sample_call 1 97 sample_start_config)))) as (lw & tmp & n & d' & taken & b & E & _ & Eb & Hb & Hn & _).
  - done.
  - by_compute.
  - assert (Hu : ∀ k, is_byte k → batch_updates (sample_batch k) = [UPut [k] [120]] ∧ batch_ok (sample_batch k)).
    { intros k Hk. split; [|by apply sample_batch_ok]. vm_compute. reflexivity. }
    intros t [->|[->|[]%not_elem_of_nil]%elem_of_cons]%elem_of_cons; eexists; (split; [vm_compute; reflexivity|]); (split; [done|]); (split; [vm_compute; reflexivity|]);
      intros b [= <-]; [apply (Hu 97)|apply (Hu 98)]; by_compute.
  - eexists. split; [vm_compute; reflexivity|]. by eexists.
  - apply holds_Clear.
  - done.
  - vm_compute. discriminate.
  - intros t _. simpl. by destruct (t =? 1)%nat.
  - exists lw, tmp, n, d', taken, b. split; [exact E|]. split; [exact Eb|]. split; [exact Hb|exact Hn].
Defined.
