(* ===== verification/CompactionInstall.v ===== *)
(** * Installing the results of a compaction

    Model of the end of a compaction in [App/integration/db_impl.cpp]: the edit that
    [InstallCompactionResults] logs, and the one of a trivial move in [BackgroundCompaction].
    The theorems are about the version the builder makes of that edit: it is well formed, and
    reads at snapshots still in use find in it what they found before.

    The version that is current when the edit is logged is taken to be the one the inputs were
    chosen in: a memtable written out in between is not modelled. *)
From S2P Require Import Prelude Coding Comparator DbFormat Logging Log Status Filename MemTable Compaction Table VersionEdit Version VersionBuilder VersionSet CompactionPick.
From stdpp Require Import sorting list gmap.

#[local] Open Scope Z_scope.

#[export] Instance FileMetaData_eq_dec : EqDecision FileMetaData.
Proof. solve_decision. Defined.

(** [CompactionState::Output]. *)
Record Output := { out_number : Z; out_file_size : Z; out_smallest : bytes; out_largest : bytes }.

Definition InstallCompactionResults_edit (c : Compaction) (outputs : list Output) : VersionEdit :=
  foldl (λ e o, AddFile (level_ c + 1) (out_number o) (out_file_size o) (out_smallest o) (out_largest o) e) (AddInputDeletions c (edit_ c)) outputs.

(** The edit of a trivial move; [None] when there is no first input. *)
Definition trivial_move_edit (c : Compaction) : option VersionEdit :=
  f ← head (inputs0 c);
  Some (AddFile (level_ c + 1) (number f) (file_size f) (smallest f) (largest f) (DeleteFile (level_ c) (number f) (edit_ c))).

(** ** What the edit does to each level *)

Definition out_meta (o : Output) : FileMetaData := new_meta (FileMetaData_make (out_number o) (out_file_size o) (out_smallest o) (out_largest o)).
Definition inputs_at (c : Compaction) (l : Z) : list FileMetaData := if l =? level_ c then inputs0 c else if l =? level_ c + 1 then inputs1 c else [].
Definition outs_at (c : Compaction) (outs : list Output) (l : Z) : list FileMetaData := if l =? level_ c + 1 then out_meta <$> outs else [].
Definition left_at (c : Compaction) (l : Z) (files : list FileMetaData) : list FileMetaData :=
  List.filter (λ f, negb (bool_decide (number f ∈ number <$> inputs_at c l))) files.

Lemma deletions_elem level files e x : x ∈ deleted_files_ (foldl (λ e f, DeleteFile level (number f) e) e files) ↔
  x ∈ deleted_files_ e ∨ (x.1 = level ∧ x.2 ∈ number <$> files).
Proof.
  revert e. induction files as [|f files IH]; intros e; cbn [foldl fmap list_fmap]; [rewrite elem_of_nil; tauto|].
  rewrite IH. cbn [DeleteFile with_lists deleted_files_]. rewrite set_insert_elem, elem_of_cons. destruct x as [l n]. cbn [fst snd]. split.
  - intros [[[= -> ->]|H]|[H1 H2]]; auto.
  - intros [H|[-> [->|H]]]; auto.
Qed.

Lemma deletions_keep level files e : let e' := foldl (λ e f, DeleteFile level (number f) e) e files in
  new_files_ e' = new_files_ e ∧ compact_pointers_ e' = compact_pointers_ e.
Proof. cbv zeta. revert e. induction files as [|f files IH]; intros e; [done|]. cbn [foldl]. destruct (IH (DeleteFile level (number f) e)) as [-> ->]. done. Qed.

Lemma additions_keep level outs e : let e' := foldl (λ e o, AddFile level (out_number o) (out_file_size o) (out_smallest o) (out_largest o) e) e outs in
  deleted_files_ e' = deleted_files_ e ∧ compact_pointers_ e' = compact_pointers_ e ∧
  new_files_ e' = new_files_ e ++ ((λ o, (level, FileMetaData_make (out_number o) (out_file_size o) (out_smallest o) (out_largest o))) <$> outs).
Proof.
  cbv zeta. revert e. induction outs as [|o outs IH]; intros e; cbn [foldl fmap list_fmap]; [by rewrite app_nil_r|].
  destruct (IH (AddFile level (out_number o) (out_file_size o) (out_smallest o) (out_largest o) e)) as (-> & -> & ->).
  cbn [AddFile with_lists deleted_files_ compact_pointers_ new_files_]. by rewrite <- app_assoc.
Qed.

Lemma install_level c outs l F : new_files_ (edit_ c) = [] → deleted_files_ (edit_ c) = [] →
  edit_level l F (InstallCompactionResults_edit c outs) = left_at c l F ++ outs_at c outs l.
Proof.
  intros Hn Hd. unfold edit_level, left_at, outs_at, added_at, deleted_at, InstallCompactionResults_edit.
  destruct (additions_keep (level_ c + 1) outs (AddInputDeletions c (edit_ c))) as (-> & _ & ->). unfold AddInputDeletions.
  rewrite (proj1 (deletions_keep (level_ c + 1) (inputs1 c) _)), (proj1 (deletions_keep (level_ c) (inputs0 c) _)), Hn. cbn [app]. f_equal.
  - apply List.filter_ext. intros f. f_equal. apply bool_decide_ext. rewrite !deletions_elem, Hd, elem_of_nil. cbn [fst snd]. unfold inputs_at.
    destruct (Z.eqb_spec l (level_ c)) as [->|H1]; [|destruct (Z.eqb_spec l (level_ c + 1)) as [->|H2]]; cbn [fmap list_fmap]; rewrite ?elem_of_nil; split; intros H; try naive_solver lia.
  - destruct (Z.eqb_spec l (level_ c + 1)) as [->|Hne]; induction outs as [|o outs IH]; cbn [fmap list_fmap List.filter fst]; try done.
    + rewrite Z.eqb_refl. cbn [fmap list_fmap]. by rewrite <- IH.
    + destruct (Z.eqb_spec (level_ c + 1) l); [congruence|]. exact IH.
Qed.

Lemma left_elem c l F f : NoDup (number <$> F) → inputs_at c l `sublist_of` F → f ∈ left_at c l F ↔ f ∈ F ∧ f ∉ inputs_at c l.
Proof.
  intros Hnd Hsub. unfold left_at. rewrite list_elem_of_In, List.filter_In, <- list_elem_of_In, negb_true_iff, bool_decide_eq_false. split; intros [Hf Hn]; (split; [done|]); intros Hin.
  - apply Hn. by apply list_elem_of_fmap_2.
  - apply list_elem_of_fmap in Hin as (g & Hg & Hin). apply Hn. rewrite (NoDup_fmap_elem number F f g); try done. by apply (elem_of_sublist (inputs_at c l)).
Qed.

Lemma sorted_either {A} (R : A → A → Prop) (l : list A) x y : StronglySorted R l → x ∈ l → y ∈ l → x ≠ y → R x y ∨ R y x.
Proof.
  induction 1 as [|a l Hs IH Ha]; intros Hx Hy Hne; [by apply elem_of_nil in Hx|]. rewrite Forall_forall in Ha.
  apply elem_of_cons in Hx as [->|Hx]; apply elem_of_cons in Hy as [->|Hy]; auto. done.
Qed.

Section Install.
Context {valid : bytes → Prop} {user : Comparator} `{HU : !ComparatorOk valid user}.
Abbreviation icmp := (InternalKeyComparator user).
Abbreviation ivalid := (internal_valid valid).
Abbreviation file_start f := (ExtractUserKey (smallest f)).
Abbreviation file_limit f := (ExtractUserKey (largest f)).
Abbreviation VersionOk := (VersionOk (valid := valid) (user := user)).
Abbreviation Describes := (Describes (valid := valid) (user := user)).
Abbreviation Chosen := (Chosen (user := user)).
Abbreviation in_user_range lo hi := (in_range (user := user) (Some (ExtractUserKey lo)) (Some (ExtractUserKey hi))).

Context (tables tables' : Z → option (Z * list Entry)) (v : Version) (c : Compaction) (outs : list Output) (merged kept : list Entry) (smallest_snapshot : Z).
Abbreviation level := (level_ c).
Abbreviation left l := (left_at c l (level_files v l)).

(** No entry of the inputs shares its user key with an entry that stays in the same level. *)
Definition NoSplit (l : Z) : Prop := ∀ f g e e', f ∈ inputs_at c l → g ∈ left l → e ∈ entries_of tables f → e' ∈ entries_of tables g → e_key e ≠ e_key e'.

(** The inputs do not split a user key: no file left in the levels they are taken from has an
    entry of a user key that one of them has. *)
Definition KeysTogether : Prop := (0 < level → NoSplit level) ∧ NoSplit (level + 1).

(** A compaction that has run: [merged] are the entries of its inputs, [kept] those it wrote,
    cut into the files [outs]; [tables'] holds the new tables as well. *)
Record CompactionDone : Prop := {
  cd_version : VersionOk tables v;
  cd_sorted : VersionSorted (valid := valid) (user := user) v;
  cd_chosen : Chosen v c;
  cd_numbers l : level_ok l → NoDup (number <$> level_files v l ++ outs_at c outs l);
  cd_same l f : f ∈ level_files v l → tables' (number f) = tables (number f);
  cd_distinct l l' f f' e e' : f ∈ level_files v l → f' ∈ level_files v l' → e ∈ entries_of tables f → e' ∈ entries_of tables f' →
    e_key e = e_key e' → e_seq e = e_seq e' → e = e';
  cd_merged : StronglySorted (entry_lt (user := user)) merged;
  cd_inputs e : e ∈ merged ↔ ∃ f, f ∈ inputs0 c ++ inputs1 c ∧ e ∈ entries_of tables f;
  cd_kept : kept `sublist_of` merged;
  cd_reads u s : valid u → smallest_snapshot <= s → visible u s kept = visible u s merged ∨
    (base_of (user := user) v level u = true ∧ visible u s kept = None ∧ value_of (visible u s merged) = None);
  cd_outs : Forall (λ o, Describes tables' (out_meta o)) outs;
  cd_written : mjoin ((λ o, entries_of tables' (out_meta o)) <$> outs) = kept;
  cd_edit : EditOk (InstallCompactionResults_edit c outs);
  cd_room : zlen (level_files v (level + 1)) + zlen outs < 2 ^ 31;
}.

Context (HD : CompactionDone).

Lemma level_bounds : 0 <= level ∧ level + 1 < kNumLevels.
Proof using HD. destruct (ch_level _ _ (cd_chosen HD)). lia. Qed.

Lemma edit_fresh : new_files_ (edit_ c) = [] ∧ deleted_files_ (edit_ c) = [].
Proof using HD. destruct (ch_inputs1 _ _ (cd_chosen HD)) as (lo & hi & _ & _ & ->). done. Qed.

Lemma inputs_sub l : inputs_at c l `sublist_of` level_files v l.
Proof using HD.
  unfold inputs_at. destruct (Z.eqb_spec l level) as [->|]; [apply (ch_inputs0 _ _ (cd_chosen HD))|].
  destruct (Z.eqb_spec l (level + 1)) as [->|]; [|apply sublist_nil_l]. destruct (ch_inputs1 _ _ (cd_chosen HD)) as (lo & hi & _ & -> & _). apply sublist_List_filter.
Qed.

Lemma left_files l f : level_ok l → f ∈ left l ↔ f ∈ level_files v l ∧ f ∉ inputs_at c l.
Proof using HD. intros Hl. apply left_elem; [|apply inputs_sub]. pose proof (cd_numbers HD l Hl) as Hn. rewrite fmap_app in Hn. by apply NoDup_app in Hn as [? _]. Qed.

Lemma describes l f : f ∈ level_files v l → Describes tables f.
Proof using HD. apply (v_describes _ _ (cd_version HD)). Qed.

Lemma same_entries l f : f ∈ level_files v l → entries_of tables' f = entries_of tables f.
Proof using HD. intros Hf. unfold entries_of. by rewrite (cd_same HD l f Hf). Qed.

Lemma describes' l f : f ∈ level_files v l → Describes tables' f.
Proof using HD.
  intros Hf. destruct (describes l f Hf) as [D1 D2 D3 D4]. split; rewrite ?(same_entries l f Hf); try done. by rewrite (cd_same HD l f Hf).
Qed.

(** Where a merged entry comes from. *)
Lemma merged_from e : e ∈ merged → ∃ l f, (l = level ∨ l = level + 1) ∧ f ∈ inputs_at c l ∧ f ∈ level_files v l ∧ e ∈ entries_of tables f.
Proof using HD.
  intros (f & Hf & He)%(cd_inputs HD). apply elem_of_app in Hf as [Hf|Hf].
  - exists level, f. assert (Hi : f ∈ inputs_at c level) by (unfold inputs_at; by rewrite Z.eqb_refl). split_and!; [by left|done| |done]. by apply (elem_of_sublist (inputs_at c level)), inputs_sub.
  - exists (level + 1), f. assert (Hi : f ∈ inputs_at c (level + 1)) by (unfold inputs_at; destruct (Z.eqb_spec (level + 1) level); [lia|]; by rewrite Z.eqb_refl).
    split_and!; [by right|done| |done]. by apply (elem_of_sublist (inputs_at c (level + 1))), inputs_sub.
Qed.

Lemma merged_of l f e : f ∈ inputs_at c l → e ∈ entries_of tables f → e ∈ merged.
Proof using HD.
  intros Hf He. apply (cd_inputs HD). exists f. split; [|done]. unfold inputs_at in Hf. apply elem_of_app.
  destruct (l =? level); [by left|]. destruct (l =? level + 1); [by right|by apply elem_of_nil in Hf].
Qed.

Lemma out_entry o e : o ∈ outs → e ∈ entries_of tables' (out_meta o) → e ∈ kept ∧ e ∈ merged.
Proof using HD.
  intros Ho He. assert (Hk : e ∈ kept).
  { rewrite <- (cd_written HD). apply list_elem_of_join. exists (entries_of tables' (out_meta o)). split; [done|]. by apply (list_elem_of_fmap_2 (λ o, entries_of tables' (out_meta o))). }
  split; [done|]. by apply (elem_of_sublist kept), (cd_kept HD).
Qed.

Lemma kept_out e : e ∈ kept → ∃ o, o ∈ outs ∧ e ∈ entries_of tables' (out_meta o).
Proof using HD.
  rewrite <- (cd_written HD). intros (es & He & Hes)%list_elem_of_join. apply list_elem_of_fmap in Hes as (o & -> & Ho). by exists o.
Qed.

Lemma entry_valid_of l f e : f ∈ level_files v l → e ∈ entries_of tables f → entry_ok valid e.
Proof using HD. intros Hf He. destruct (d_sorted _ _ (describes l f Hf)) as [_ Hok]. rewrite Forall_forall in Hok. by apply Hok. Qed.

(** ** User keys of the inputs *)

Lemma range_facts : ∃ lo hi, RangeOf (user := user) (inputs0 c) lo hi ∧ ivalid lo ∧ ivalid hi ∧ inputs1 c = List.filter (in_user_range lo hi) (level_files v (level + 1)).
Proof using HD HU.
  destruct (ch_inputs1 _ _ (cd_chosen HD)) as (lo & hi & E & E1 & _). destruct (ch_inputs0 _ _ (cd_chosen HD)) as [Hne Hsub].
  destruct (GetRange_ok (valid := valid) (user := user) (inputs0 c)) as (lo' & hi' & E' & HR & Vlo & Vhi); [|done|].
  { apply Forall_forall. intros f Hf. apply (describes_FileOk tables), (describes level). by apply (elem_of_sublist (inputs0 c)). }
  rewrite E in E'. injection E' as <- <-. by exists lo, hi.
Qed.

(** A file of the level is in user-key order with its entries. *)
Lemma user_bounds l f e : f ∈ level_files v l → e ∈ entries_of tables f → valid (file_start f) ∧ valid (file_limit f) ∧ valid (e_key e) ∧
  Compare user (file_start f) (e_key e) <= 0 ∧ Compare user (e_key e) (file_limit f) <= 0.
Proof using HD HU. intros Hf He. apply (user_le tables); [by apply (describes l)|done]. Qed.

(** Two files with a common user key overlap. *)
Lemma shared_overlap l l' f g e e' : f ∈ level_files v l → g ∈ level_files v l' → e ∈ entries_of tables f → e' ∈ entries_of tables g → e_key e = e_key e' →
  user_overlap (user := user) f g.
Proof using HD HU.
  intros Hf Hg He He' Hk. destruct (user_bounds l f e Hf He) as (V1 & V2 & V3 & H1 & H2), (user_bounds l' g e' Hg He') as (V4 & V5 & V6 & H3 & H4).
  rewrite <- Hk in H3, H4. split; by apply (Compare_le_trans (valid := valid) _ (e_key e)).
Qed.

Lemma nosplit l : KeysTogether → l = level ∨ l = level + 1 → NoSplit l.
Proof using HD HU.
  intros HK [->| ->]; [|apply HK]. destruct (decide (0 < level)) as [Hpos|Hz]; [by apply HK|]. destruct level_bounds as [Hb1 Hb2].
  assert (Hl : level = 0) by lia. intros f g e e' Hf Hg He He' Hk. apply left_files in Hg as [Hg Hn]; [|unfold level_ok; lia]. apply Hn.
  assert (Hfl : f ∈ level_files v level) by (by apply (elem_of_sublist (inputs_at c level)), inputs_sub).
  unfold inputs_at in *. rewrite Z.eqb_refl in *. apply (ch_closed0 _ _ (cd_chosen HD) Hl f g Hf); [by rewrite <- Hl|]. by apply (shared_overlap level level f g e e').
Qed.

(** An entry of the next level with a user key of the inputs is in the inputs. *)
Lemma next_level_taken f g e e' : f ∈ inputs0 c → g ∈ level_files v (level + 1) → e ∈ entries_of tables f → e' ∈ entries_of tables g → e_key e = e_key e' → g ∈ inputs1 c.
Proof using HD HU.
  intros Hf Hg He He' Hk. destruct range_facts as (lo & hi & [_ _ Hc] & (_ & _ & Vlo) & (_ & _ & Vhi) & ->). apply list_elem_of_In, List.filter_In. split; [by apply list_elem_of_In|].
  assert (Hfl : f ∈ level_files v level) by (apply (elem_of_sublist (inputs0 c)); [done|apply (ch_inputs0 _ _ (cd_chosen HD))]).
  destruct (user_bounds level f e Hfl He) as (V1 & V2 & V3 & H1 & H2), (user_bounds (level + 1) g e' Hg He') as (V4 & V5 & V6 & H3 & H4). rewrite <- Hk in H3, H4.
  destruct (Hc f Hf) as [C1%icmp_user_le C2%icmp_user_le]. unfold in_range, below_begin, above_end. rewrite andb_true_iff, !negb_true_iff, !Z.ltb_ge. split.
  - assert (H : Compare user (ExtractUserKey lo) (file_limit g) <= 0).
    { apply (Compare_le_trans (valid := valid) _ (file_start f)); [done..|]. by apply (Compare_le_trans (valid := valid) _ (e_key e)). }
    apply (Compare_nlt (valid := valid)) in H; [lia|done..].
  - apply (Compare_le_trans (valid := valid) _ (e_key e)); [done..|]. by apply (Compare_le_trans (valid := valid) _ (file_limit f)).
Qed.

(** ** The next level stays disjoint *)

Lemma user_lt_icmp a b : Compare user (ExtractUserKey a) (ExtractUserKey b) < 0 → Compare icmp a b < 0.
Proof using Type. intros H. simpl. unfold InternalKeyComparator_Compare. destruct (Z.eqb_spec (Compare user (ExtractUserKey a) (ExtractUserKey b)) 0); lia. Qed.

Lemma entry_lt_icmp e e' : entry_ok valid e → entry_ok valid e' → entry_lt (user := user) e e' → Compare icmp (entry_ikey e) (entry_ikey e') < 0.
Proof using HU.
  intros He He' [H|[Hk Hq]].
  - apply user_lt_icmp. by rewrite !entry_ikey_user.
  - unfold entry_ikey. rewrite <- Hk. apply (icmp_same_user (valid := valid)); [apply He|apply He|apply He'|done].
Qed.

(** A file left in the next level is before or after every merged entry. *)
Lemma left_apart g : g ∈ left (level + 1) →
  (∀ e, e ∈ merged → Compare icmp (largest g) (entry_ikey e) < 0) ∨ (∀ e, e ∈ merged → Compare icmp (entry_ikey e) (smallest g) < 0).
Proof using HD HU.
  intros Hg. destruct level_bounds as [Hb1 Hb2]. apply left_files in Hg as [Hg Hn]; [|unfold level_ok; lia].
  destruct range_facts as (lo & hi & [_ _ Hc] & (_ & _ & Vlo) & (_ & _ & Vhi) & E1).
  pose proof (describes_FileOk tables g (describes _ _ Hg)) as [IV1 IV2 _ _ Ho]. pose proof IV1 as (_ & _ & V1). pose proof IV2 as (_ & _ & V2).
  assert (Hin : inputs_at c (level + 1) = inputs1 c) by (unfold inputs_at; destruct (Z.eqb_spec (level + 1) level); [lia|]; by rewrite Z.eqb_refl).
  assert (Hrange : in_user_range lo hi g = false).
  { apply not_true_iff_false. intros Ht. apply Hn. rewrite Hin, E1. apply list_elem_of_In, List.filter_In. split; [by apply list_elem_of_In|done]. }
  pose proof (v_disjoint _ _ (cd_version HD) (level + 1) ltac:(lia)) as Hd.
  unfold in_range, below_begin, above_end in Hrange. apply andb_false_iff in Hrange as [H|H]; apply negb_false_iff, Z.ltb_lt in H.
  - left. intros e (l & f & Hl & Hf & Hfl & He)%merged_from. destruct (user_bounds l f e Hfl He) as (V3 & V4 & V5 & H3 & H4). destruct Hl as [->| ->].
    + unfold inputs_at in Hf. rewrite Z.eqb_refl in Hf. destruct (Hc f Hf) as [C1%icmp_user_le _]. apply user_lt_icmp. rewrite entry_ikey_user.
      apply (Compare_lt_le (valid := valid) _ (ExtractUserKey lo)); [done..|]. by apply (Compare_le_trans (valid := valid) _ (file_start f)).
    + assert (Hne : g ≠ f) by (intros ->; by apply Hn). destruct (table_bounds tables f e (describes _ _ Hfl) He) as [T1 T2].
      pose proof (describes_FileOk tables f (describes _ _ Hfl)) as [IV3 IV4 _ _ _]. assert (IVe : ivalid (entry_ikey e)) by (apply (entry_ikey_valid (user := user)); by apply (entry_valid_of (level + 1) f)).
      destruct (sorted_either _ _ g f Hd Hg Hfl Hne) as [Hlt|Hlt]; [by apply (Compare_lt_le (valid := ivalid) _ (smallest f))|]. exfalso.
      rewrite Hin, E1 in Hf. apply list_elem_of_In, List.filter_In in Hf as [_ Hf]. unfold in_range, below_begin in Hf. apply andb_true_iff in Hf as [Hf%negb_true_iff%Z.ltb_ge _].
      apply Z.lt_le_incl, icmp_user_le in Hlt. apply icmp_user_le in Ho. assert (Compare user (file_limit f) (ExtractUserKey lo) < 0); [|lia].
      apply (Compare_le_lt (valid := valid) _ (file_limit g)); [done..| |done]. by apply (Compare_le_trans (valid := valid) _ (file_start g)).
  - right. intros e (l & f & Hl & Hf & Hfl & He)%merged_from. destruct (user_bounds l f e Hfl He) as (V3 & V4 & V5 & H3 & H4).
    apply (Compare_swap (valid := valid)) in H; [|done..]. destruct Hl as [->| ->].
    + unfold inputs_at in Hf. rewrite Z.eqb_refl in Hf. destruct (Hc f Hf) as [_ C2%icmp_user_le]. apply user_lt_icmp. rewrite entry_ikey_user.
      apply (Compare_le_lt (valid := valid) _ (ExtractUserKey hi)); [done..| |done]. by apply (Compare_le_trans (valid := valid) _ (file_limit f)).
    + assert (Hne : g ≠ f) by (intros ->; by apply Hn). destruct (table_bounds tables f e (describes _ _ Hfl) He) as [T1 T2].
      pose proof (describes_FileOk tables f (describes _ _ Hfl)) as [IV3 IV4 _ _ _]. assert (IVe : ivalid (entry_ikey e)) by (apply (entry_ikey_valid (user := user)); by apply (entry_valid_of (level + 1) f)).
      destruct (sorted_either _ _ g f Hd Hg Hfl Hne) as [Hlt|Hlt]; [|by apply (Compare_le_lt (valid := ivalid) _ (largest f))]. exfalso.
      rewrite Hin, E1 in Hf. apply list_elem_of_In, List.filter_In in Hf as [_ Hf]. unfold in_range, above_end in Hf. apply andb_true_iff in Hf as [_ Hf%negb_true_iff%Z.ltb_ge].
      apply Z.lt_le_incl, icmp_user_le in Hlt. apply icmp_user_le in Ho. assert (Compare user (ExtractUserKey hi) (file_start f) < 0) as Hx.
      { apply (Compare_lt_le (valid := valid) _ (file_start g)); [done..|]. by apply (Compare_le_trans (valid := valid) _ (file_limit g)). }
      apply (Compare_swap (valid := valid)) in Hx; [lia|done..].
Qed.

Lemma StronglySorted_sublist_of {A} (R : A → A → Prop) (l k : list A) : l `sublist_of` k → StronglySorted R k → StronglySorted R l.
Proof using Type.
  induction 1 as [|x l k Hs IH|x l k Hs IH]; intros Hk; [constructor| |]; apply StronglySorted_inv in Hk as [Hk Hx]; [|by apply IH].
  constructor; [by apply IH|]. rewrite Forall_forall in Hx |- *. intros y Hy. apply Hx. by apply (elem_of_sublist l).
Qed.

Lemma kept_valid e : e ∈ kept → entry_ok valid e ∧ e ∈ merged.
Proof using HD.
  intros He. assert (Hm : e ∈ merged) by (by apply (elem_of_sublist kept), (cd_kept HD)). split; [|done].
  destruct (merged_from e Hm) as (l & f & _ & _ & Hfl & Hef). by apply (entry_valid_of l f).
Qed.

Lemma outs_sorted : StronglySorted (λ f g, Compare icmp (largest f) (smallest g) < 0) (out_meta <$> outs).
Proof using HD HU.
  pose proof (StronglySorted_sublist_of _ _ _ (cd_kept HD) (cd_merged HD)) as Hs. pose proof kept_valid as Hk. rewrite <- (cd_written HD) in Hs, Hk.
  pose proof (cd_outs HD) as Hd. clear -Hs Hk Hd HU. induction outs as [|o os IH]; [constructor|]. cbn [fmap list_fmap mjoin list_join] in *. apply Forall_cons in Hd as [Ho Hd].
  constructor.
  - apply IH; [|by intros e He; apply Hk, elem_of_app; right|done].
    clear -Hs. induction (entries_of tables' (out_meta o)) as [|x l IHl]; [done|]. apply IHl. by apply StronglySorted_inv in Hs as [? _].
  - apply Forall_fmap, Forall_forall. intros o' Ho'. rewrite Forall_forall in Hd. specialize (Hd o' Ho'). cbn [compose].
    destruct (describes_ends tables' _ Ho) as (_ & e1 & _ & H1 & _ & E1 & _ & O1), (describes_ends tables' _ Hd) as (e0 & _ & H0 & _ & E0 & _ & O0 & _).
    rewrite E1, E0. apply entry_lt_icmp; [done|done|]. apply (StronglySorted_app_1_elem_of _ _ _ _ _ Hs H1). apply list_elem_of_join. eexists. split; [exact H0|].
    by apply (list_elem_of_fmap_2 (λ o, entries_of tables' (out_meta o))).
Qed.

Lemma outs_at_eq l : outs_at c outs l = if l =? level + 1 then out_meta <$> outs else [].
Proof using Type. done. Qed.

Lemma install_apart l : 0 < l < kNumLevels → Apart (valid := valid) (user := user) (edit_levels l (level_files v l) [InstallCompactionResults_edit c outs]).
Proof using HD HU.
  intros Hl. cbn [edit_levels foldl]. rewrite install_level by apply edit_fresh. assert (Hlev : level_ok l) by (unfold level_ok; lia).
  pose proof (v_disjoint _ _ (cd_version HD) l ltac:(lia)) as Hd. pose proof (cd_outs HD) as Ho. rewrite Forall_forall in Ho. split.
  - apply Forall_app. split; apply Forall_forall; intros f Hf.
    + apply left_files in Hf as [Hf _]; [|done]. by apply (describes_FileOk tables), (describes l).
    + unfold outs_at in Hf. destruct (l =? level + 1); [|by apply elem_of_nil in Hf]. apply list_elem_of_fmap in Hf as (o & -> & Hf). by apply (describes_FileOk tables'), Ho.
  - assert (Hmix : ∀ g o, g ∈ left l → o ∈ outs_at c outs l → Compare icmp (largest g) (smallest o) < 0 ∨ Compare icmp (largest o) (smallest g) < 0).
    { intros g o Hg Hout. unfold outs_at in Hout. destruct (Z.eqb_spec l (level + 1)) as [->|]; [|by apply elem_of_nil in Hout]. apply list_elem_of_fmap in Hout as (x & -> & Hx).
      destruct (describes_ends tables' _ (Ho x Hx)) as (e0 & e1 & H0 & H1 & -> & -> & _). destruct (left_apart g Hg) as [H|H]; [left|right]; apply H; by apply (out_entry x). }
    intros f g Hf Hg Hn. apply elem_of_app in Hf as [Hf|Hf]; apply elem_of_app in Hg as [Hg|Hg].
    + apply left_files in Hf as [Hf _], Hg as [Hg _]; [|done..]. apply (sorted_either _ (level_files v l) f g Hd Hf Hg). by intros ->.
    + by apply Hmix.
    + destruct (Hmix g f Hg Hf); auto.
    + rewrite outs_at_eq in Hf, Hg. destruct (l =? level + 1); [|by apply elem_of_nil in Hf]. apply (sorted_either _ _ f g outs_sorted Hf Hg). by intros ->.
Qed.

(** ** The new version *)

Lemma install_version cp : zlen cp = kNumLevels →
  ∃ cp' b v', Apply user (InstallCompactionResults_edit c outs) cp (Builder_make v) = Some (cp', b) ∧ SaveTo user b = Some v' ∧
    VersionSorted (valid := valid) (user := user) v' ∧
    ∀ l, level_ok l → level_files v' l ≡ₚ left l ++ outs_at c outs l ∧ ChainOk (user := user) l (level_files v' l).
Proof using HD HU.
  intros Hcp. set (e := InstallCompactionResults_edit c outs). destruct edit_fresh as [En Ed].
  assert (Hadd : ∀ l, added_at l e = outs_at c outs l).
  { intros l. pose proof (install_level c outs l [] En Ed) as H. unfold edit_level, left_at in H. exact H. }
  assert (Hfresh : NumbersFresh v [e]).
  { intros l Hl. change (all_added l [e]) with (added_at l e ++ []). rewrite app_nil_r, Hadd. by apply (cd_numbers HD). }
  assert (Hkeys : Forall (λ p : Z * FileMetaData, internal_valid valid (smallest p.2)) (new_files_ e)).
  { unfold e, InstallCompactionResults_edit. destruct (additions_keep (level + 1) outs (AddInputDeletions c (edit_ c))) as (_ & _ & ->).
    unfold AddInputDeletions. rewrite (proj1 (deletions_keep (level + 1) (inputs1 c) _)), (proj1 (deletions_keep level (inputs0 c) _)), En. cbn [app].
    apply Forall_fmap. eapply Forall_impl; [apply (cd_outs HD)|]. intros o Ho. cbn [compose snd]. by destruct (describes_FileOk tables' _ Ho) as [V _ _ _ _]. }
  destruct (Apply_ok (valid := valid) (user := user) e cp (Builder_make v) v []) as (cp' & b & EA & HB & _); [apply Builder_make_inv|apply (cd_edit HD)|done|done|exact Hkeys|].
  destruct (SaveTo_ok b v [e] HB (cd_sorted HD) Hfresh) as (v' & EV & Hs & Hl'); [intros l Hl; by apply install_apart|].
  exists cp', b, v'. split_and!; try done. intros l Hl. destruct (Hl' l Hl) as [Hp Hc]. split; [|done]. rewrite Hp. cbn [edit_levels foldl]. unfold e. by rewrite install_level.
Qed.

Section After.
Context (HK : KeysTogether) (v' : Version) (Hsorted : VersionSorted (valid := valid) (user := user) v').
Context (Hlevels : ∀ l, level_ok l → level_files v' l ≡ₚ left l ++ outs_at c outs l ∧ ChainOk (user := user) l (level_files v' l)).

(** A file of the new version is an old one that was left, or an output. *)
Lemma file_after l f : f ∈ level_files v' l → 0 <= l →
  (level_ok l ∧ f ∈ left l ∧ f ∈ level_files v l) ∨ (l = level + 1 ∧ ∃ o, o ∈ outs ∧ f = out_meta o).
Proof using HD Hsorted Hlevels.
  intros Hf Hl. destruct (clip_level v' l) as [E|(l0 & Hl0 & E & Heq)]; [apply Hsorted|rewrite E in Hf; by apply elem_of_nil in Hf|]. rewrite E in Hf. rewrite (Heq Hl) in *.
  rewrite (proj1 (Hlevels l Hl0)) in Hf. apply elem_of_app in Hf as [Hf|Hf].
  - left. split; [done|]. split; [done|]. by apply left_files in Hf as [? _].
  - right. rewrite outs_at_eq in Hf. destruct (Z.eqb_spec l (level + 1)); [|by apply elem_of_nil in Hf]. split; [done|]. apply list_elem_of_fmap in Hf as (o & -> & Ho). by exists o.
Qed.

Lemma after_left l f : level_ok l → f ∈ left l → f ∈ level_files v' l.
Proof using Hlevels. intros Hl Hf. rewrite (proj1 (Hlevels l Hl)). apply elem_of_app. by left. Qed.

Lemma after_out o : o ∈ outs → out_meta o ∈ level_files v' (level + 1).
Proof using HD Hlevels.
  intros Ho. destruct level_bounds. rewrite (proj1 (Hlevels (level + 1) ltac:(unfold level_ok; lia))). apply elem_of_app. right. rewrite outs_at_eq, Z.eqb_refl. by apply list_elem_of_fmap_2.
Qed.

(** An entry of the new version was in the old one: in the same level, or in an input. *)
Lemma after_entry l f e : f ∈ level_files v' l → 0 <= l → e ∈ entries_of tables' f →
  (level_ok l ∧ f ∈ left l ∧ f ∈ level_files v l ∧ e ∈ entries_of tables f) ∨
  (l = level + 1 ∧ e ∈ kept ∧ ∃ l0 f0, (l0 = level ∨ l0 = level + 1) ∧ f0 ∈ inputs_at c l0 ∧ f0 ∈ level_files v l0 ∧ e ∈ entries_of tables f0).
Proof using HD Hsorted Hlevels.
  intros Hf Hl He. destruct (file_after l f Hf Hl) as [(Hlev & Hle & Hfl)|(-> & o & Ho & ->)].
  - left. rewrite (same_entries l f Hfl) in He. done.
  - right. destruct (out_entry o e Ho He) as [Hk Hm]. split; [done|]. split; [done|]. by apply merged_from.
Qed.

Lemma after_version : VersionOk tables' v'.
Proof using HD HU HK Hsorted Hlevels.
  pose proof (cd_version HD) as Hv. destruct level_bounds as [Hb1 Hb2]. pose proof Hsorted as [Hlen _]. split.
  - unfold zlen in Hlen. rewrite <- Hlen. by rewrite Nat2Z.id.
  - intros l. destruct (clip_level v' l Hlen) as [->|(l0 & Hl0 & -> & _)]; [done|]. unfold zlen. rewrite (proj1 (Hlevels l0 Hl0)), length_app.
    pose proof (v_size _ _ Hv l0) as Hz. pose proof (cd_room HD) as Hr. unfold zlen in *.
    assert (Hle : (length (left l0) <= length (level_files v l0))%nat) by apply List.filter_length_le.
    rewrite outs_at_eq. destruct (Z.eqb_spec l0 (level + 1)) as [->|]; [rewrite length_fmap; lia|]. simpl. lia.
  - intros l f Hf. destruct (clip_level v' l Hlen) as [E|(l0 & Hl0 & E & _)]; rewrite E in Hf; [by apply elem_of_nil in Hf|].
    destruct (file_after l0 f Hf) as [(_ & _ & Hfl)|(_ & o & Ho & ->)]; [unfold level_ok in Hl0; lia|by apply (describes' l0)|].
    pose proof (cd_outs HD) as Hd. rewrite Forall_forall in Hd. by apply Hd.
  - intros l Hl. destruct (clip_level v' l Hlen) as [->|(l0 & Hl0 & _ & Heq)]; [constructor|]. rewrite (Heq ltac:(lia)) in Hl0. by apply (proj2 (Hlevels l Hl0)).
  - rewrite (proj1 (Hlevels 0 ltac:(unfold level_ok, kNumLevels; lia))), outs_at_eq. destruct (Z.eqb_spec 0 (level + 1)); [lia|]. rewrite app_nil_r.
    pose proof (v_numbers _ _ Hv) as Hn. eapply sublist_NoDup; [exact Hn|]. apply fmap_sublist, sublist_List_filter.
  - intros l l' f f' e e' Hl Hll Hf Hf' He He' Hk. assert (Hl' : 0 <= l') by lia.
    destruct (after_entry l f e Hf Hl He) as [(L1 & L2 & L3 & L4)|(L1 & _ & l0 & f0 & L2 & L2' & L3 & L4)],
      (after_entry l' f' e' Hf' Hl' He') as [(R1 & R2 & R3 & R4)|(R1 & _ & l1 & f1 & R2 & R2' & R3 & R4)].
    + by apply (v_newer _ _ Hv l l' f f').
    + destruct R2 as [->| ->].
      * destruct (decide (l = level)) as [->|Hne]; [by destruct (nosplit level HK ltac:(by left) f1 f e' e)|].
        apply (v_newer _ _ Hv l level f f1); [done|left; lia|done..].
      * apply (v_newer _ _ Hv l (level + 1) f f1); [done|left; lia|done..].
    + apply (v_newer _ _ Hv l0 l' f0 f'); [lia|left; lia|done..].
    + lia.
Qed.

(** ** Reads *)

Lemma visible_sorted u s l m e : valid u → StronglySorted (entry_lt (user := user)) l → visible u s l = Some m → e ∈ l → e_key e = u → e_seq e <= s →
  m = e ∨ e_seq e < e_seq m.
Proof using HU.
  intros Vu. induction 1 as [|x l Hs IH Hx]; intros Hm He Hk Hq; [done|]. unfold visible in Hm. cbn [List.find] in Hm. rewrite Forall_forall in Hx.
  destruct (bool_decide (e_key x = u) && (e_seq x <=? s)) eqn:Eb.
  - injection Hm as <-. apply elem_of_cons in He as [->|He]; [by left|]. right. apply andb_true_iff in Eb as [Eb%bool_decide_eq_true _].
    destruct (Hx e He) as [Hlt|[_ Hlt]]; [|done]. rewrite Eb, Hk, (Compare_refl (valid := valid)) in Hlt by done. lia.
  - apply elem_of_cons in He as [->|He]; [|by apply IH]. rewrite bool_decide_eq_true_2 in Eb by done. cbn [andb] in Eb. lia.
Qed.

Context (u : bytes) (s : Z) (Vu : valid u) (Hsnap : smallest_snapshot <= s).
Abbreviation seen_before := (seen_from tables u s v 0).
Abbreviation seen_after := (seen_from tables' u s v' 0).

Lemma seen_back e : seen_after e → seen_before e.
Proof using HD Hsorted Hlevels.
  intros (l & Hl & f & Hf & He & Hk & Hq). destruct (after_entry l f e Hf ltac:(lia) He) as [(_ & _ & Hfl & He')|(_ & _ & l0 & f0 & Hl0 & _ & Hf0 & He')].
  - exists l. split; [done|]. by exists f.
  - destruct level_bounds. exists l0. split; [lia|]. by exists f0.
Qed.

(** An entry of the key that is still there is still the newest. *)
Lemma still_newest e o' : newest_of seen_before (Some e) → seen_after e → newest_of seen_after o' → o' = Some e.
Proof using HD Hsorted Hlevels.
  intros [Hs Hmax] Ha Hn. destruct o' as [e'|]; [|by destruct (Hn e)]. destruct Hn as [Hs' Hmax']. f_equal.
  pose proof (Hmax e' (seen_back e' Hs')). pose proof (Hmax' e Ha). destruct (seen_back e' Hs') as (l' & _ & f' & Hf' & He' & Hk' & _), Hs as (l & _ & f & Hf & He & Hk & _).
  apply (cd_distinct HD l' l f' f); try done; [congruence|lia].
Qed.

(** The deeper levels do not have the key. *)
Lemma base_no_entry l f e : base_of (user := user) v level u = true → level + 1 < l → f ∈ level_files v l → e ∈ entries_of tables f → e_key e = u → False.
Proof using HD HU Vu.
  intros Hb Hl Hf He Hk. unfold base_of in Hb. apply negb_true_iff, not_true_iff_false in Hb. apply Hb. apply List.existsb_exists. exists f.
  split; [|by apply (covers_entry tables u Vu f e); [apply (describes l)|..]]. apply list_elem_of_In, list_elem_of_join. exists (level_files v l). split; [done|].
  destruct level_bounds. unfold level_files in Hf |- *. destruct (files_ v !! Z.to_nat l) as [fs|] eqn:E; [|by apply elem_of_nil in Hf]. cbn [default from_option id].
  apply list_elem_of_lookup. exists (Z.to_nat l - Z.to_nat (level + 2))%nat. rewrite lookup_drop. rewrite <- E. f_equal. lia.
Qed.

(** When the newest entry is a deletion that was dropped, nothing of the key is left. *)
Lemma dropped_gone l f e e' : newest_of seen_before (Some e) → f ∈ inputs_at c l → (l = level ∨ l = level + 1) → f ∈ level_files v l → e ∈ entries_of tables f → e_key e = u →
  base_of (user := user) v level u = true → visible u s kept = None → seen_after e' → False.
Proof using HD HU HK Hsorted Hlevels Vu.
  intros [Hs Hmax] Hf Hl Hfl He Hk Hb Hvis Ha. pose proof (Hmax e' (seen_back e' Ha)) as Hle. destruct Ha as (l' & Hl' & f' & Hf' & He' & Hk' & Hq').
  destruct level_bounds as [Hb1 Hb2].
  destruct (after_entry l' f' e' Hf' ltac:(lia) He') as [(R1 & R2 & R3 & R4)|(_ & Hkept & _)].
  - destruct (Z.lt_trichotomy l' l) as [Hlt|[->|Hgt]].
    + pose proof (v_newer _ _ (cd_version HD) l' l f' f e' e ltac:(lia) ltac:(by left) R3 Hfl R4 He ltac:(congruence)). lia.
    + apply (nosplit l HK Hl f f' e e'); try done. congruence.
    + destruct (decide (l' = level + 1)) as [->|Hne]; [|by apply (base_no_entry l' f' e'); [|lia|..]]. assert (l = level) as -> by lia.
      apply left_files in R2 as [_ R2]; [|done]. apply R2. unfold inputs_at in *. rewrite Z.eqb_refl in Hf. destruct (Z.eqb_spec (level + 1) level); [lia|]. rewrite Z.eqb_refl.
      apply (next_level_taken f f' e e'); try done. congruence.
  - pose proof (visible_None u s kept e' Hvis Hkept Hk'). lia.
Qed.

Lemma after_reads o o' : newest_of seen_before o → newest_of seen_after o' → value_of o' = value_of o.
Proof using HD HU HK Hsorted Hlevels Vu Hsnap.
  intros Ho Ho'. destruct o as [e|]; [|destruct o' as [e'|]; [destruct (Ho e'); by apply seen_back, Ho'|done]].
  pose proof Ho as [(l & Hl & f & Hf & He & Hk & Hq) Hmax]. destruct level_bounds as [Hb1 Hb2]. assert (Hlev : level_ok l) by (unfold level_ok; lia).
  destruct (decide (f ∈ inputs_at c l)) as [Hin|Hout].
  - pose proof (merged_of l f e Hin He) as Hm. assert (Hll : l = level ∨ l = level + 1).
    { unfold inputs_at in Hin. destruct (Z.eqb_spec l level); [by left|]. destruct (Z.eqb_spec l (level + 1)); [by right|]. by apply elem_of_nil in Hin. }
    assert (Hvis : visible u s merged = Some e).
    { destruct (visible u s merged) as [m|] eqn:Ev; [|pose proof (visible_None u s merged e Ev Hm Hk); lia]. f_equal.
      destruct (visible_sorted u s merged m e Vu (cd_merged HD) Ev Hm Hk Hq) as [|Hlt]; [done|]. exfalso.
      destruct (visible_Some u s merged m Ev) as (Hmm & Hmk & Hmq). destruct (merged_from m Hmm) as (lm & fm & Hlm & _ & Hfm & Hem).
      assert (e_seq m <= e_seq e); [|lia]. apply Hmax. exists lm. split; [lia|]. by exists fm. }
    destruct (cd_reads HD u s Vu Hsnap) as [E|(Hb & Hnone & Hdel)].
    + rewrite Hvis in E. destruct (visible_Some u s kept e E) as (Hek & _ & _). destruct (kept_out e Hek) as (o & Hoo & Heo).
      rewrite (still_newest e o' Ho); [done| |done]. exists (level + 1). split; [lia|]. exists (out_meta o). split; [by apply after_out|done].
    + rewrite Hvis in Hdel. rewrite Hdel. destruct o' as [e'|]; [|done]. exfalso. destruct Ho' as [Ha _]. by apply (dropped_gone l f e e').
  - rewrite (still_newest e o' Ho); [done| |done]. exists l. split; [lia|]. assert (Hleft : f ∈ left l) by (by apply left_files).
    exists f. split; [by apply after_left|]. by rewrite (same_entries l f Hf).
Qed.
End After.
End Install.
