(* ===== verification/DbRead.v ===== *)
(** * Reads of the database

    Model of [DBImpl::SUGet] and [DBImpl::RecordReadSample] ([App/integration/db_impl.cpp]) and of
    [Version::UpdateStats] and [Version::RecordReadSample] ([version_set.cpp]).  A read looks in
    the memtable, then in the immutable memtable, then in the current version; a lookup that
    read more than one table is charged to the first, and a file whose seeks are used up becomes
    the file to compact.  [FileMetaData] objects are shared by the versions that hold the file, so
    the charge shows in all of them.  The outer [None] is undefined behaviour. *)
From S2P Require Import Prelude Coding Comparator DbFormat Status MemTable Compaction Iterator Filter Cache TableCache VersionEdit Version VersionBuilder VersionSet CompactionPick CompactionInstall DbWrite.
From stdpp Require Import sorting list gmap.

#[local] Open Scope Z_scope.

(** ** Charging seeks *)

Definition seeked (f : FileMetaData) : FileMetaData :=
  {| refs := refs f; allowed_seeks := allowed_seeks f - 1; number := number f; file_size := file_size f; smallest := smallest f; largest := largest f |}.
Definition charged (f g : FileMetaData) : FileMetaData := if decide (g = f) then seeked g else g.
Definition charge_file (level : Z) (f : FileMetaData) (v : Version) : Version := {| files_ := alter (fmap (charged f)) (Z.to_nat level) (files_ v) |}.
Definition charge_versions (level : Z) (f : FileMetaData) (vl : VersionList) : VersionList :=
  {| live_ := (λ p : Version * Z, (charge_file level f p.1, p.2)) <$> live_ vl; current_id := current_id vl; next_id := next_id vl |}.
Definition charge_hints (level : Z) (f : FileMetaData) (h : Hints) : Hints :=
  {| size_compaction := size_compaction h; compaction_level_ := compaction_level_ h;
     file_to_compact_ := (λ p : FileMetaData * Z, (if p.2 =? level then charged f p.1 else p.1, p.2)) <$> file_to_compact_ h |}.

(** Whether a compaction is due, the hints of the version, and the versions. *)
Definition UpdateStats (stats : GetStats) (h : Hints) (vl : VersionList) : bool * Hints * VersionList :=
  match seek_file stats with
  | Some f =>
      let level := seek_file_level stats in
      let vl := charge_versions level f vl in
      let h := charge_hints level f h in
      if (allowed_seeks (seeked f) <=? 0) && negb (bool_decide (is_Some (file_to_compact_ h))) then
        (true, {| size_compaction := size_compaction h; compaction_level_ := compaction_level_ h; file_to_compact_ := Some (seeked f, level) |}, vl)
      else (false, h, vl)
  | None => (false, h, vl)
  end.

(** [State::Match] of [RecordReadSample]. *)
Definition sample_match (level : Z) (f : FileMetaData) (st : GetStats * Z) : bool * (GetStats * Z) :=
  let '(stats, matches) := st in
  let matches := matches + 1 in
  (matches <? 2, (if matches =? 1 then {| seek_file := Some f; seek_file_level := level |} else stats, matches)).

Section Read.
Context (user : Comparator).

Definition Version_RecordReadSample (internal_key : bytes) (v : Version) (h : Hints) (vl : VersionList) : option (bool * Hints * VersionList) :=
  match ParseInternalKey internal_key with
  | None => Some (false, h, vl)
  | Some ikey =>
      '(stats, matches) ← ForEachOverlapping user v (user_key ikey) internal_key sample_match (GetStats_init, 0);
      Some (if 2 <=? matches then UpdateStats stats h vl else (false, h, vl))
  end.

Definition with_version_list (vl : VersionList) (d : DBImpl) : DBImpl :=
  let vs := db_versions_ d in
  with_versions {| vs_next_file_number := vs_next_file_number vs; vs_manifest_file_number := vs_manifest_file_number vs; vs_last_sequence := vs_last_sequence vs;
                   vs_log_number := vs_log_number vs; vs_prev_log_number := vs_prev_log_number vs; descriptor_log_ := descriptor_log_ vs;
                   versions_ := vl; compact_pointer_ := compact_pointer_ vs |} d.

(** [h] are the hints of the current version. *)
Definition RecordReadSample (key : bytes) (h : Hints) (d : DBImpl) : option (Hints * DBImpl) :=
  v ← current (versions_ (db_versions_ d));
  '(due, h, vl) ← Version_RecordReadSample key v h (versions_ (db_versions_ d));
  let d := with_version_list vl d in
  Some (h, if due : bool then MaybeScheduleCompaction h d else d).

(** ** Reading a key *)

Section Get.
Context {C H : Type} `{!Cache C H TableAndFile}.
Abbreviation TC := (TableCache (C := C)).

(** What a read returns and changes: [r_seq] is [*seq], [r_tw] is [*tw]. *)
Record ReadOut := { r_status : Status; r_value : bytes; r_seq : Z; r_tw : Z; r_proofs : Proofs; r_cache : TC; r_hints : Hints; r_db : DBImpl }.

(** The memtables, in order: whether one had the key. *)
Definition search_memtables (d : DBImpl) (k : LookupKey) (o : GetOut) : option (bool * GetOut) :=
  '(found, o) ← SUGet (mem_ d) k o;
  if found : bool then Some (true, o)
  else match imm_ d with Some m => SUGet m k o | None => Some (false, o) end.

Definition DB_SUGet (verify : bool) (snapshot : option Z) (key value : bytes) (tw : Z) (p : Proofs) (h : Hints) (d : DBImpl) (tc : TC) : option ReadOut :=
  let last := vs_last_sequence (db_versions_ d) in
  let lkey := LookupKey_make key (default last snapshot) in
  v ← current (versions_ (db_versions_ d));
  '(found, o) ← search_memtables d lkey {| out_value := value; out_status := OK; out_seq := tw |};
  p ← push_proof 13 p;
  if found : bool then Some {| r_status := out_status o; r_value := out_value o; r_seq := last; r_tw := out_seq o; r_proofs := p; r_cache := tc; r_hints := h; r_db := d |}
  else
    '(s, g) ← Version_SUGet user verify v lkey (out_value o) (out_seq o) p tc;
    let '(due, h, vl) := UpdateStats (stats_ (g_seek g)) h (versions_ (db_versions_ d)) in
    let d := with_version_list vl d in
    Some {| r_status := s; r_value := g_value g; r_seq := last; r_tw := g_seq g; r_proofs := g_proofs g; r_cache := g_cache g; r_hints := h;
            r_db := if due : bool then MaybeScheduleCompaction h d else d |}.
End Get.
End Read.

(** ** The file a lookup is charged to *)

Definition StatsOk (v : Version) (s : GetStats) : Prop := ∀ f, seek_file s = Some f → f ∈ level_files v (seek_file_level s) ∧ 0 <= seek_file_level s < kNumLevels - 1.

(** The last file read is above [level]. *)
Definition SeekInv (v : Version) (level : Z) (st : SeekState) : Prop :=
  (∀ f, last_file_read st = Some f → f ∈ level_files v (last_file_read_level st) ∧ 0 <= last_file_read_level st < level) ∧ StatsOk v (stats_ st).

Lemma SeekInv_mono v k level st : k <= level → SeekInv v k st → SeekInv v level st.
Proof. intros Hk [H1 H2]. split; [|done]. intros f Hf. destruct (H1 f Hf). split; [done|lia]. Qed.

Lemma charge_seek_ok v k level f st : k <= kNumLevels - 1 → 0 <= level → f ∈ level_files v level → SeekInv v k st → SeekInv v (level + 1) (charge_seek f level st).
Proof.
  intros Hk Hl Hf [H1 H2]. split; cbn [charge_seek last_file_read last_file_read_level stats_].
  - intros g [= <-]. split; [done|lia].
  - destruct (last_file_read st) as [g|] eqn:E; [|done]. destruct (seek_file (stats_ st)) eqn:Es; [done|]. intros h [= <-]. cbn [seek_file_level]. destruct (H1 g eq_refl). split; [done|lia].
Qed.

Section SeekOk.
Context {user : Comparator} {C H : Type} `{!Cache C H TableAndFile}.

Lemma files_to_search_sub v level u ikey fs : files_to_search user v level u ikey = Some fs → (∀ f, f ∈ fs → f ∈ level_files v level) ∧ (level ≠ 0 → (length fs <= 1)%nat).
Proof using Type.
  unfold files_to_search. destruct (level_files v level) as [|f0 files] eqn:E; [intros [= <-]; split; [by intros ? ?%elem_of_nil|simpl; lia]|].
  destruct (Z.eqb_spec level 0) as [->|Hne].
  - intros <-%(inj Some). split; [|done]. intros f Hf. rewrite merge_sort_Permutation in Hf. apply list_elem_of_In, List.filter_In in Hf as [Hf _]. by apply list_elem_of_In.
  - intros Hs. split; [|intros _]; repeat (case_match || simplify_option_eq); try (by intros ? ?%elem_of_nil); try (simpl; lia).
    intros f ->%list_elem_of_singleton. by eapply list_elem_of_lookup_2.
Qed.

(** The files searched are charged in order, up to where the search ends. *)
Lemma search_files_charges verify nf level u ikey files : ∀ (g : GetState (C := C)) o g', search_files user verify nf level u ikey files g = Some (o, g') →
  ∃ k, g_seek g' = foldl (λ st f, charge_seek f level st) (g_seek g) (take k files).
Proof using Type.
  induction files as [|f files IH]; intros g o g'; cbn [search_files]; [intros [= _ <-]; by exists 0%nat|]. intros E.
  destruct (TableCache_SUGet _ _ _ _ _ _ _) as [[[[s saved] p] tc]|]; [|done]. cbn [mbind option_bind] in E. destruct (run_saver _ _ _ _) as [sv|]; [|done]. cbn [mbind option_bind] in E.
  destruct (negb (Status_ok s)); [injection E as _ <-; by exists 1%nat|]. destruct (after_saver _ _); [injection E as _ <-; by exists 1%nat|].
  destruct (IH _ _ _ E) as [k Hk]. exists (S k). exact Hk.
Qed.

Lemma search_level_seek verify v level u ikey nf fs (g : GetState (C := C)) o g' : 0 <= level < kNumLevels → files_to_search user v level u ikey = Some fs →
  search_files user verify nf level u ikey fs g = Some (o, g') → SeekInv v level (g_seek g) → SeekInv v (level + 1) (g_seek g').
Proof using Type.
  intros Hl Hfs [k ->]%search_files_charges HI. destruct (files_to_search_sub v level u ikey fs Hfs) as [Hin Hlen].
  assert (Hsub : ∀ f, f ∈ take k fs → f ∈ level_files v level) by (intros f Hf; apply Hin; apply (elem_of_sublist (take k fs)); [done|apply sublist_take]).
  revert Hsub Hlen. assert (Hlen' : (length (take k fs) <= length fs)%nat) by (rewrite length_take; lia). revert Hlen'. generalize (take k fs) as l. intros l Hll Hsub Hlen. clear Hfs Hin.
  destruct (decide (level = 0)) as [->|Hne].
  - apply (SeekInv_mono v 0 1) in HI; [|lia]. clear Hll Hlen. revert HI. generalize (g_seek g). induction l as [|f l IH]; intros st HI; [done|]. cbn [foldl]. apply IH; [intros; apply Hsub; by right|].
    apply (charge_seek_ok v 1 0); [unfold kNumLevels; lia|lia|apply Hsub; left|done].
  - specialize (Hlen Hne). destruct l as [|f [|? l]]; cbn [foldl length] in *; [apply (SeekInv_mono v level); [lia|done]| |lia].
    apply (charge_seek_ok v level); [lia|lia|apply Hsub; left|done].
Qed.

Lemma search_levels_seek verify v u ikey fuel : ∀ level (g : GetState (C := C)) o g', 0 <= level → level + Z.of_nat fuel <= kNumLevels →
  search_levels user fuel verify v level u ikey g = Some (o, g') → SeekInv v level (g_seek g) → StatsOk v (stats_ (g_seek g')).
Proof using Type.
  induction fuel as [|fuel IH]; intros level g o g' Hl Hf E HI; cbn [search_levels] in E; [injection E as _ <-; apply HI|].
  destruct (files_to_search user v level u ikey) as [fs|] eqn:Efs; [|done]. cbn [mbind option_bind] in E.
  destruct (search_files _ _ _ _ _ _ _ _) as [[r g1]|] eqn:Es; [|done]. cbn [mbind option_bind] in E.
  pose proof (search_level_seek verify v level u ikey _ fs g r g1 ltac:(lia) Efs Es HI) as HI1. destruct r; [injection E as _ <-; apply HI1|]. apply (IH (level + 1) g1 o); [lia|lia|done|done].
Qed.

(** A lookup is charged to a file of the version, and not in the last level. *)
Lemma Version_SUGet_seek verify v k value seq p (tc : TableCache (C := C)) s g : Version_SUGet user verify v k value seq p tc = Some (s, g) → StatsOk v (stats_ (g_seek g)).
Proof using Type.
  unfold Version_SUGet. destruct (search_levels _ _ _ _ _ _ _ _) as [[o g']|] eqn:E; [|done]. intros [= _ <-]. apply (search_levels_seek verify v _ _ _ 0 _ o g') in E; [done|lia|by vm_compute|by split].
Qed.
End SeekOk.

(** ** A charge changes nothing but the counts *)

Definition same_file (f g : FileMetaData) : Prop := number f = number g ∧ file_size f = file_size g ∧ smallest f = smallest g ∧ largest f = largest g.

Lemma charge_level L f v : ∃ c, (∀ l g, same_file (c l g) g) ∧ (∀ l, level_files (charge_file L f v) l = c l <$> level_files v l) ∧
  ∀ l g, 0 <= l → 0 <= L → c l g = if l =? L then charged f g else g.
Proof.
  exists (λ l g, if decide (Z.to_nat l = Z.to_nat L) then charged f g else g). split_and!.
  - intros l g. unfold charged, seeked. repeat case_decide; done.
  - intros l. unfold level_files, charge_file. cbn [files_]. case_decide as E.
    + rewrite E, list_lookup_alter_eq. by destruct (files_ v !! Z.to_nat L).
    + rewrite list_lookup_alter_ne by congruence. by rewrite list_fmap_id.
  - intros l g Hl HL. case_decide; destruct (Z.eqb_spec l L); done || lia.
Qed.

Section Relabel.
Context {valid : bytes → Prop} {user : Comparator} `{HU : !ComparatorOk valid user} (tables : Z → option (Z * list Entry)).
Context (v v' : Version) (c : Z → FileMetaData → FileMetaData) (Hc : ∀ l g, same_file (c l g) g) (Hlev : ∀ l, level_files v' l = c l <$> level_files v l).

Lemma same_file_entries f g : same_file f g → entries_of tables f = entries_of tables g.
Proof using Type. intros (H & _). unfold entries_of. by rewrite H. Qed.

Lemma relabel_elem l f : f ∈ level_files v' l ↔ ∃ g, f = c l g ∧ g ∈ level_files v l.
Proof using Hlev. by rewrite Hlev, list_elem_of_fmap. Qed.

Lemma relabel_ok : length (files_ v') = length (files_ v) → VersionOk (valid := valid) (user := user) tables v → VersionOk (valid := valid) (user := user) tables v'.
Proof using Hc Hlev.
  intros Hlen [H1 H2 H3 H4 H5 H6]. split.
  - by rewrite Hlen.
  - intros l. rewrite Hlev. unfold zlen. rewrite length_fmap. apply H2.
  - intros l f (g & -> & Hg)%relabel_elem. destruct (Hc l g) as (N1 & N2 & N3 & N4). destruct (H3 l g Hg) as [D1 D2 D3 D4].
    split; rewrite ?(same_file_entries _ _ (Hc l g)), ?N1, ?N2, ?N3, ?N4; done.
  - intros l Hl. rewrite Hlev. specialize (H4 l Hl). induction H4 as [|f fs Hs IH Hf]; [constructor|]. cbn [fmap list_fmap]. constructor; [exact IH|]. apply Forall_fmap.
    eapply Forall_impl; [exact Hf|]. intros g Hg. cbn [compose]. destruct (Hc l f) as (_ & _ & _ & ->), (Hc l g) as (_ & _ & -> & _). exact Hg.
  - rewrite Hlev, <- list_fmap_compose. rewrite (list_fmap_ext (number ∘ c 0) number); [done|]. intros i f _. apply Hc.
  - intros l l' f f' e e' Hl Hll (g & -> & Hg)%relabel_elem (g' & -> & Hg')%relabel_elem He He' Hk. rewrite (same_file_entries _ _ (Hc l g)) in He. rewrite (same_file_entries _ _ (Hc l' g')) in He'.
    apply (H6 l l' g g' e e'); try done. destruct Hll as [?|(? & ? & Hn)]; [by left|right]. by rewrite (proj1 (Hc l g)), (proj1 (Hc l' g')) in Hn.
Qed.

Lemma relabel_seen u s e : seen_from tables u s v' 0 e ↔ seen_from tables u s v 0 e.
Proof using Hc Hlev.
  split; intros (l & Hl & f & Hf & He & Hk); exists l; (split; [done|]).
  - apply relabel_elem in Hf as (g & -> & Hg). exists g. by rewrite <- (same_file_entries _ _ (Hc l g)).
  - exists (c l f). rewrite (same_file_entries _ _ (Hc l f)). split; [|done]. apply relabel_elem. by exists f.
Qed.
End Relabel.

(** What a read leaves of the version it searched. *)
Record VersionKept (valid : bytes → Prop) (user : Comparator) (tables : Z → option (Z * list Entry)) (v : Version) (h : Hints) (v' : Version) (h' : Hints) : Prop := {
  vk_ok : VersionOk (valid := valid) (user := user) tables v';
  vk_seen u s e : seen_from tables u s v' 0 e ↔ seen_from tables u s v 0 e;
  vk_hints : HintsOk v h → HintsOk v' h';
}.

Lemma VersionKept_refl (valid : bytes → Prop) (user : Comparator) tables v h : VersionOk (valid := valid) (user := user) tables v → VersionKept valid user tables v h v h.
Proof. intros Hv. split; [done|by intros|by intros]. Qed.

Lemma UpdateStats_ok (valid : bytes → Prop) (user : Comparator) tables v h vl stats due h' vl' : VersionOk (valid := valid) (user := user) tables v → current vl = Some v → StatsOk v stats →
  UpdateStats stats h vl = (due, h', vl') → ∃ v', current vl' = Some v' ∧ VersionKept valid user tables v h v' h' ∧ (due = true → is_Some (file_to_compact_ h')).
Proof.
  intros Hv Hcur Hst. unfold UpdateStats. destruct (seek_file stats) as [f|] eqn:Ef; [|intros [= <- <- <-]; exists v; split; [done|]; split; [by apply VersionKept_refl|done]].
  destruct (Hst f Ef) as [Hf HL]. set (L := seek_file_level stats) in *. destruct (charge_level L f v) as (c & Hc & Hlev & Hval). set (v' := charge_file L f v) in *.
  assert (Hcur' : current (charge_versions L f vl) = Some v').
  { unfold current, charge_versions in *. cbn [live_ current_id]. rewrite lookup_fmap. destruct (live_ vl !! current_id vl) as [[v0 r]|]; [|done]. by injection Hcur as ->. }
  assert (Hok : VersionOk (valid := valid) (user := user) tables v') by (apply (relabel_ok tables v v' c Hc Hlev); [unfold v'; cbn [charge_file files_]; by rewrite length_alter|done]).
  assert (Hseen := relabel_seen tables v v' c Hc Hlev).
  assert (Hsize : HintsOk v h → size_compaction h = true → 0 <= compaction_level_ h < kNumLevels - 1 ∧ level_files v' (compaction_level_ h) ≠ []).
  { intros [Hs _] E. destruct (Hs E) as [? Hne]. split; [done|]. rewrite Hlev. by destruct (level_files v (compaction_level_ h)). }
  destruct (_ && _); intros [= <- <- <-]; exists v'; (split; [done|]); (split; [split; [done|done|]|done]); intros HH; split; cbn [size_compaction compaction_level_ file_to_compact_ charge_hints].
  - by apply Hsize.
  - intros g l [= <- <-]. split; [done|]. apply (relabel_elem v v' c Hlev). exists f. split; [|done]. rewrite Hval, Z.eqb_refl by lia. unfold charged. by rewrite decide_True.
  - by apply Hsize.
  - intros g l. destruct (file_to_compact_ h) as [[g0 l0]|] eqn:E; [|done]. cbn. intros [= <- <-]. destruct (ho_seek _ _ HH g0 l0 E) as [Hl0 Hg0]. split; [done|].
    apply (relabel_elem v v' c Hlev). exists g0. split; [|done]. by rewrite Hval by lia.
Qed.

(** ** Sampled reads *)

(** The matches so far: none, one above [level], or two, the first not in the last level. *)
Definition MatchInv (v : Version) (level : Z) (st : GetStats * Z) : Prop :=
  st.2 = 0 ∨ (st.2 = 1 ∧ ∃ f, seek_file st.1 = Some f ∧ f ∈ level_files v (seek_file_level st.1) ∧ 0 <= seek_file_level st.1 < level).

Lemma sample_match_ok v k level f st : k <= kNumLevels - 1 → 0 <= level → f ∈ level_files v level → MatchInv v k st →
  (∃ st', sample_match level f st = (true, st') ∧ MatchInv v (level + 1) st') ∨ (∃ st', sample_match level f st = (false, st') ∧ StatsOk v st'.1).
Proof.
  intros Hk Hl Hf [H0|(H1 & g & Eg & Hg & Hlg)]; destruct st as [stats n]; cbn [fst snd] in *; subst n; unfold sample_match.
  - left. eexists. split; [done|]. right. split; [done|]. exists f. split; [done|]. split; [done|]. change (0 <= level < level + 1). lia.
  - right. eexists. split; [done|]. intros f' Hf'. change (seek_file stats = Some f') in Hf'. change (f' ∈ level_files v (seek_file_level stats) ∧ 0 <= seek_file_level stats < kNumLevels - 1). rewrite Eg in Hf'. injection Hf' as <-. split; [done|lia].
Qed.

Section SampleOk.
Context {valid : bytes → Prop} {user : Comparator} `{HU : !ComparatorOk valid user} (tables : Z → option (Z * list Entry)).

Lemma visit_files_match v level files : 0 <= level < kNumLevels → (∀ f, f ∈ files → f ∈ level_files v level) → (level ≠ 0 → (length files <= 1)%nat) → ∀ st, MatchInv v level st →
  (∃ st', visit_files sample_match level files st = (true, st') ∧ MatchInv v (level + 1) st') ∨ (∃ st', visit_files sample_match level files st = (false, st') ∧ StatsOk v st'.1).
Proof using Type.
  intros Hl Hin Hlen. destruct (decide (level = 0)) as [->|Hne].
  - assert (Hgen : ∀ st, MatchInv v 1 st → (∃ st', visit_files sample_match 0 files st = (true, st') ∧ MatchInv v (0 + 1) st') ∨ (∃ st', visit_files sample_match 0 files st = (false, st') ∧ StatsOk v st'.1)).
    { clear Hlen. induction files as [|f files IH]; intros st Hst; [left; by exists st|]. cbn [visit_files].
      destruct (sample_match_ok v 1 0 f st) as [(st' & -> & H')|(st' & -> & H')]; [unfold kNumLevels; lia|lia|apply Hin; left|done| |right; by exists st']. apply IH; [intros; apply Hin; by right|done]. }
    intros st [H0|(_ & f & _ & _ & ?)]; [|lia]. apply Hgen. by left.
  - intros st Hst. specialize (Hlen Hne). destruct files as [|f [|? files]]; cbn [visit_files length] in *; [|..|lia].
    + left. exists st. split; [done|]. destruct Hst as [?|(? & f & ? & ? & ?)]; [by left|right]. split; [done|]. exists f. split_and!; try done; lia.
    + destruct (sample_match_ok v level level f st) as [(st' & -> & H')|(st' & -> & H')]; [lia|lia|apply Hin; left|done|left|right]; by exists st'.
Qed.

Lemma visit_levels_match v u ikey : VersionOk (valid := valid) (user := user) tables v → valid u → internal_valid valid ikey → ∀ fuel level st, 0 <= level → level + Z.of_nat fuel <= kNumLevels → MatchInv v level st →
  ∃ st', visit_levels user fuel v level u ikey sample_match st = Some st' ∧ (2 <= st'.2 → StatsOk v st'.1).
Proof using HU.
  intros Hv Hu Hk. induction fuel as [|fuel IH]; intros level st Hl Hf Hst; cbn [visit_levels].
  { exists st. split; [done|]. destruct Hst as [?|(? & _)]; lia. }
  assert (∃ fs, files_to_search user v level u ikey = Some fs) as [fs Efs].
  { unfold files_to_search. destruct (level_files v level) as [|f0 files0] eqn:E; [by eexists|]. destruct (Z.eqb_spec level 0); [by eexists|]. rewrite <- E.
    rewrite (FindFile_spec (valid := valid) (level_files v level) ikey) by (done || by apply (version_LevelOk tables); [done..|lia]). cbn [mbind option_bind].
    destruct (Z.leb_spec (zlen (level_files v level)) (Z.of_nat (lower_bound (InternalKeyComparator user) (level_kvs (level_files v level)) ikey))); [by eexists|].
    rewrite Nat2Z.id. destruct (level_files v level !! _) as [f|] eqn:Ef; cbn [mbind option_bind]; [by destruct (_ <? 0); eexists|].
    apply lookup_ge_None in Ef. unfold zlen in *. lia. }
  destruct (files_to_search_sub v level u ikey fs Efs) as [Hin Hlen]. rewrite Efs. cbn [mbind option_bind].
  destruct (visit_files_match v level fs ltac:(lia) Hin Hlen st Hst) as [(st' & -> & H')|(st' & -> & H')]; [|by exists st'].
  apply IH; [lia|lia|done].
Qed.
End SampleOk.

(** ** The memtables *)

#[export] Instance newest_of_proper : Proper (pointwise_relation Entry iff ==> eq ==> iff) newest_of.
Proof. intros P Q HPQ o ? <-. destruct o as [e|]; cbn [newest_of]; [rewrite (HPQ e)|]; setoid_rewrite HPQ; done. Qed.

Section MemOk.
Context {valid : bytes → Prop} {user : Comparator} `{HU : !ComparatorOk valid user}.

(** [E1] is newer than [E2]. *)
Definition newer_than (E1 : list Entry) (P : Entry → Prop) : Prop := ∀ e e', e ∈ E1 → P e' → e_key e = e_key e' → e_seq e' < e_seq e.

Lemma search_memtables_ok d E1 E2 u s g : MemInv valid user (mem_ d) E1 → match imm_ d with Some m => MemInv valid user m E2 | None => E2 = [] end → newer_than E1 (.∈ E2) →
  valid u → zlen u + 8 < 2 ^ 32 → 0 <= s <= kMaxSequenceNumber →
  ∃ o, newest_of (λ e, e ∈ E1 ++ E2 ∧ e_key e = u ∧ e_seq e <= s) o ∧
    search_memtables d (LookupKey_make u s) g = Some (bool_decide (is_Some o), match o with Some e => outcome true e g | None => g end).
Proof using HU.
  intros H1 H2 Hnew Vu Hl Hs. unfold search_memtables, SUGet. setoid_rewrite elem_of_app.
  destruct (read_spec (mem_ d) E1 u s true g H1 Vu Hl Hs) as [(e & (N1 & N2 & N3 & N4) & ->)|[HN ->]]; cbn [mbind option_bind].
  { exists (Some e). split; [|done]. split; [by auto|]. intros e' ([He'|He'] & Hk' & Hq'); [by apply N4|]. assert (e_seq e' < e_seq e); [|lia]. apply Hnew; congruence || done. }
  destruct (imm_ d) as [m|]; [destruct (read_spec m E2 u s true g H2 Vu Hl Hs) as [(e & (N1 & N2 & N3 & N4) & ->)|[HN2 ->]]|subst E2].
  - exists (Some e). split; [|done]. split; [by auto|]. intros e' ([He'|He'] & Hk' & Hq'); [|by apply N4]. specialize (HN e' He' Hk'). lia.
  - exists None. split; [|done]. intros e ([He|He] & Hk & Hq); [specialize (HN e He Hk)|specialize (HN2 e He Hk)]; lia.
  - exists None. split; [|done]. intros e ([He|He%elem_of_nil] & Hk & Hq); [specialize (HN e He Hk); lia|done].
Qed.

(** The memtables first, then what is below them. *)
Lemma newest_over (P Q : Entry → Prop) o o' : newest_of P o → newest_of Q o' → (∀ e e', P e → Q e' → e_seq e' < e_seq e) →
  newest_of (λ e, P e ∨ Q e) (match o with Some _ => o | None => o' end).
Proof using Type.
  intros H1 H2 Hn. destruct o as [e|]; cbn [newest_of] in *.
  - destruct H1 as [Pe H1]. split; [by left|]. intros e' [He'|He']; [by apply H1|]. specialize (Hn e e' Pe He'). lia.
  - destruct o' as [e|]; cbn [newest_of] in *; [destruct H2 as [Qe H2]; split; [by right|]; intros e' [He'|He']; [by destruct (H1 e')|by apply H2]|]. intros e [He|He]; [by apply (H1 e)|by apply (H2 e)].
Qed.
End MemOk.

(** ** Properties *)

(** The database as a reader sees it: the memtables hold [E1] and [E2], the tables of the
    current version are on disk, and what is searched first is newer. *)
Record DBOk {C H : Type} `{!Cache C H TableAndFile} (CacheInv : C → list (H * TableAndFile) → (bytes → TableAndFile → Prop) → Prop) (valid : bytes → Prop) (user : Comparator)
    (policy : option FilterPolicy) (tables : Z → option (Z * list Entry)) (E1 E2 : list Entry) (v : Version) (d : DBImpl) (tc : TableCache (C := C)) (hs : list (H * TableAndFile)) : Prop := {
  db_mem : MemInv valid user (mem_ d) E1;
  db_imm : match imm_ d with Some m => MemInv valid user m E2 | None => E2 = [] end;
  db_current : current (versions_ (db_versions_ d)) = Some v;
  db_version : VersionOk (valid := valid) (user := user) tables v;
  db_newer : newer_than E1 (.∈ E2) ∧ ∀ u s, newer_than (E1 ++ E2) (seen_from tables u s v 0);
  db_cache : TCInv CacheInv valid user policy (disk tables) tc hs ∧ zlen hs < 2 ^ 31;
  db_last : 0 <= vs_last_sequence (db_versions_ d) <= kMaxSequenceNumber;
}.

(** The entries of [u] that a read at [s] may return. *)
Definition db_sees (tables : Z → option (Z * list Entry)) (E1 E2 : list Entry) (v : Version) (u : bytes) (s : Z) (e : Entry) : Prop :=
  (e ∈ E1 ++ E2 ∧ e_key e = u ∧ e_seq e <= s) ∨ seen_from tables u s v 0 e.

Section ReadOk.
Context {C H : Type} `{!Cache C H TableAndFile} {CacheInv : C → list (H * TableAndFile) → (bytes → TableAndFile → Prop) → Prop} `{HCO : !CacheOk CacheInv}.
Context {valid : bytes → Prop} {user : Comparator} `{HU : !ComparatorOk valid user} {policy : option FilterPolicy}.

(** The database after the seeks of a lookup were charged. *)
Lemma charged_db tables E1 E2 v d (tc tc' : TableCache (C := C)) hs h stats due h' vl' :
  DBOk CacheInv valid user policy tables E1 E2 v d tc hs → TCInv CacheInv valid user policy (disk tables) tc' hs → StatsOk v stats →
  UpdateStats stats h (versions_ (db_versions_ d)) = (due, h', vl') →
  ∃ v', VersionKept valid user tables v h v' h' ∧ DBOk CacheInv valid user policy tables E1 E2 v' (if due : bool then MaybeScheduleCompaction h' (with_version_list vl' d) else with_version_list vl' d) tc' hs.
Proof using Type.
  intros [H1 H2 H3 H4 [H5 H6] [H7 H8] H9] Ht Hst EU. destruct (UpdateStats_ok valid user tables v h _ stats due h' vl' H4 H3 Hst EU) as (v' & Hc' & HK & _). exists v'. split; [done|].
  set (d' := if due then _ else _). assert (E : mem_ d' = mem_ d ∧ imm_ d' = imm_ d ∧ db_versions_ d' = db_versions_ (with_version_list vl' d)).
  { unfold d'. destruct due; [|done]. unfold MaybeScheduleCompaction. by repeat case_match. }
  destruct E as (E1' & E2' & E3'). split; rewrite ?E1', ?E2', ?E3'; try done; [apply HK|]. split; [done|]. intros u s e e' He He'. apply (H6 u s); [done|]. by apply (vk_seen _ _ _ _ _ _ _ HK).
Qed.

(** A sampled read leaves the database as it was, and names a file of the version. *)
Lemma RecordReadSample_ok tables E1 E2 v d (tc : TableCache (C := C)) hs h key : DBOk CacheInv valid user policy tables E1 E2 v d tc hs → internal_valid valid key →
  ∃ h' d' v', RecordReadSample user key h d = Some (h', d') ∧ VersionKept valid user tables v h v' h' ∧ DBOk CacheInv valid user policy tables E1 E2 v' d' tc hs.
Proof using HU.
  intros HD Hk. pose proof HD as [_ _ H3 H4 _ [H7 _] _]. unfold RecordReadSample, Version_RecordReadSample. rewrite H3. cbn [mbind option_bind].
  assert (Hdb : ∀ due h' vl' stats, UpdateStats stats h (versions_ (db_versions_ d)) = (due, h', vl') → StatsOk v stats →
    ∃ v', VersionKept valid user tables v h v' h' ∧ DBOk CacheInv valid user policy tables E1 E2 v' (if due : bool then MaybeScheduleCompaction h' (with_version_list vl' d) else with_version_list vl' d) tc hs).
  { intros due h' vl' stats EU Hst. by apply (charged_db tables E1 E2 v d tc tc hs h stats). }
  destruct (ParseInternalKey key) as [ikey|] eqn:Ep; cbn [mbind option_bind].
  - destruct (visit_levels_match tables v (user_key ikey) key H4) with (fuel := Z.to_nat kNumLevels) (level := 0) (st := (GetStats_init, 0)) as ([stats n] & Ev & Hn); [|done|lia|done|by left|].
    { assert (user_key ikey = ExtractUserKey key) as -> by (unfold ParseInternalKey in Ep; repeat case_match; by simplify_eq). apply Hk. }
    unfold ForEachOverlapping. rewrite Ev. cbn [mbind option_bind]. destruct (Z.leb_spec 2 n) as [H2|H2].
    + destruct (UpdateStats stats h (versions_ (db_versions_ d))) as [[due h'] vl'] eqn:EU. cbn [mbind option_bind]. destruct (Hdb due h' vl' stats EU (Hn H2)) as (v' & HK & HD'). eexists h', _, v'. by split.
    + destruct (Hdb false h (versions_ (db_versions_ d)) GetStats_init eq_refl ltac:(by intros ?)) as (v' & HK & HD'). eexists h, _, v'. by split.
  - destruct (Hdb false h (versions_ (db_versions_ d)) GetStats_init eq_refl ltac:(by intros ?)) as (v' & HK & HD'). eexists h, _, v'. by split.
Qed.
End ReadOk.

(** [C4] A read of the database returns the newest entry of the key that its snapshot sees in
    the memtable, the immutable memtable and the tables: its value and its sequence number, or
    NotFound for a deletion or when there is none, in which case the value is not written.
    [*seq] is the last sequence number.  The read leaves the contents as they were: only
    the seeks of a file are counted down, and the file to compact, when one is named, is a file of
    the version above the last level. *)
Theorem db_read_newest {C H : Type} `{!Cache C H TableAndFile} (CacheInv : C → list (H * TableAndFile) → (bytes → TableAndFile → Prop) → Prop)
    (valid : bytes → Prop) (user : Comparator) (policy : option FilterPolicy) (tables : Z → option (Z * list Entry)) (E1 E2 : list Entry) (v : Version) (d : DBImpl)
    (tc : TableCache (C := C)) (hs : list (H * TableAndFile)) (verify : bool) (snapshot : option Z) (u value : bytes) (tw : Z) (p : Proofs) (h : Hints) :
  CacheOk CacheInv → ComparatorOk valid user → DBOk CacheInv valid user policy tables E1 E2 v d tc hs → valid u → zlen u + 8 < 2 ^ 32 →
  0 <= default 0 snapshot <= kMaxSequenceNumber → 0 <= pf_index p → pf_index p + 1 + zlen (level_files v 0) + kNumLevels <= zlen (pf p) →
  ∃ o r v', newest_of (db_sees tables E1 E2 v u (default (vs_last_sequence (db_versions_ d)) snapshot)) o ∧
    DB_SUGet user verify snapshot u value tw p h d tc = Some r ∧
    r_status r = default (NotFound [] []) (status_of <$> o) ∧ r_value r = (written_for o value tw).1 ∧
    (∀ e, o = Some e → e_type e = kTypeValue → r_tw r = e_seq e) ∧ r_seq r = vs_last_sequence (db_versions_ d) ∧
    VersionKept valid user tables v h v' (r_hints r) ∧ DBOk CacheInv valid user policy tables E1 E2 v' (r_db r) (r_cache r) hs ∧
    pf_index p < pf_index (r_proofs r) <= pf_index p + 1 + zlen (level_files v 0) + kNumLevels.
Proof.
  intros HCO HU HD Vu Hlen Hsnap Hp1 Hp2. pose proof HD as [H1 H2 H3 H4 [H5 H6] [H7 H8] H9]. set (s := default (vs_last_sequence (db_versions_ d)) snapshot).
  assert (Hs : 0 <= s <= kMaxSequenceNumber) by (unfold s; destruct snapshot; done).
  destruct (search_memtables_ok d E1 E2 u s {| out_value := value; out_status := OK; out_seq := tw |} H1 H2 H5 Vu Hlen Hs) as (om & Hom & Em).
  unfold DB_SUGet. fold s. rewrite H3. cbn [mbind option_bind]. rewrite Em. cbn [mbind option_bind].
  assert (∃ p1, push_proof 13 p = Some p1 ∧ pf_index p1 = pf_index p + 1 ∧ zlen (pf p1) = zlen (pf p)) as (p1 & -> & Hi1 & Hz1).
  { unfold push_proof. pose proof (zlen_nonneg (level_files v 0)). replace (_ && _) with true by (unfold kNumLevels in *; lia). eexists. split; [done|]. cbn. unfold zlen. by rewrite length_insert. }
  cbn [mbind option_bind]. destruct om as [e|].
  - rewrite bool_decide_eq_true_2 by done. eexists (Some e), _, v. pose proof (zlen_nonneg (level_files v 0)).
    split; [|split; [done|]]; cbn [r_status r_value r_tw r_seq r_hints r_db r_cache r_proofs].
    + destruct Hom as [(Hin & Hk & Hq) Hmax]. split; [by left|]. intros e' [He'|He']; [by apply Hmax|]. assert (e_seq e' < e_seq e); [|lia]. apply (H6 u s); [done|done|]. destruct He' as (l & _ & f & _ & _ & Hk' & _). congruence.
    + unfold outcome, written_for, status_of. cbn [fmap option_fmap option_map default]. destruct (e_type e) eqn:Et; cbn [out_status out_value out_seq with_seq with_value with_status fst];
        (split_and!; [done|done| |done|by apply VersionKept_refl|done|lia|unfold kNumLevels; lia]); intros e' [= <-]; [by rewrite Et|done].
  - rewrite bool_decide_eq_false_2 by (by intros [? ?]). cbn [out_value out_seq].
    destruct (Version_SUGet_spec CacheInv valid user policy tables v tc hs verify u value s tw p1 HCO HU H4 H7 H8 Vu Hs) as (o & g & Ho & EV & Hw & Ht & Hpf); [lia|lia|].
    rewrite EV. cbn [mbind option_bind]. pose proof (Version_SUGet_seek verify v _ _ _ p1 tc _ g EV) as Hst.
    destruct (UpdateStats (stats_ (g_seek g)) h (versions_ (db_versions_ d))) as [[due h'] vl'] eqn:EU.
    destruct (charged_db tables E1 E2 v d tc (g_cache g) hs h _ due h' vl' HD Ht Hst EU) as (v' & HK & HD').
    eexists o, _, v'. split; [|split; [done|]]; cbn [r_status r_value r_tw r_seq r_hints r_db r_cache r_proofs].
    + apply (newest_over _ _ None o Hom Ho). intros e e' He He'. cbn [newest_of] in Hom. by destruct (Hom e).
    + split_and!; [done|by rewrite <- Hw| |done|done|done|lia|lia]. intros e -> Et. cbn [written_for] in Hw. rewrite Et in Hw. by injection Hw.
Qed.

(** A newer value of [b] in the memtable, over the table of [sample_version]. *)
Definition sample_read_entry : Entry := entry_of [98] 12 kTypeValue [7].
Definition sample_read_db (m : MemTable) : DBImpl :=
  with_mem m (with_version_list {| live_ := {[0%nat := (sample_version, 1)]}; current_id := 0; next_id := 1 |} DbWrite.sample_db).
Definition sample_read_hints : Hints := {| size_compaction := false; compaction_level_ := 0; file_to_compact_ := None |}.

Lemma sample_read_ok m c : MemInv bytes_ok BytewiseComparator m [sample_read_entry] → ShardedInv c [] (λ _ _, False) →
  DBOk ShardedInv bytes_ok BytewiseComparator (Some (NewBloomFilterPolicy 10)) sample_tables [sample_read_entry] [] sample_version (sample_read_db m) (sample_cache c) [].
Proof.
  intros HM Hc. split; [done|done|done|apply sample_version_ok| |split; [by apply sample_cache_ok|done]|by_compute].
  split; [by intros e e' _ ?%elem_of_nil|]. intros u s e e' [->%list_elem_of_singleton|?%elem_of_nil]%elem_of_app; [|done]. intros (l & _ & f & [_ ->]%sample_level & He' & _).
  change (e' ∈ sample_table) in He'. unfold sample_table in He'. rewrite !elem_of_cons, elem_of_nil in He'. destruct He' as [->|[->|[->|[->|[]]]]]; by_compute.
Qed.

Lemma db_read_newest_witness : ∃ m c r, NewLRUCache 100 = Some c ∧
  DB_SUGet BytewiseComparator true (Some 6) [97; 98] [] 0 sample_proofs sample_read_hints (sample_read_db m) (sample_cache c) = Some r ∧ r_status r = OK ∧ r_value r = [2].
Proof.
  destruct (Add_MemInv (valid := bytes_ok) (MemTable_make BytewiseComparator) [] sample_read_entry MemInv_make) as (m & _ & HM); [by_compute|by intros e' ?%not_elem_of_nil|].
  destruct (NewLRUCache_ok (V := TableAndFile) 100) as (c & Ec & Hc); [lia|].
  destruct (db_read_newest ShardedInv bytes_ok BytewiseComparator (Some (NewBloomFilterPolicy 10)) sample_tables [sample_read_entry] [] sample_version (sample_read_db m) (sample_cache c) []
    true (Some 6) [97; 98] [] 0 sample_proofs sample_read_hints) as (o & r & v' & Hn & E & Hs & Hv & _);
    [apply _|apply _|by apply sample_read_ok|by_compute|by_compute|vm_compute; split; intros [=]|done|vm_compute; intros [=]|].
  assert (Ho : o = Some (entry_of [97; 98] 5 kTypeValue [2])).
  { apply sample_newest. revert Hn. apply newest_of_proper; [|done]. intros e. split; [by right|]. intros [([->%list_elem_of_singleton|?%elem_of_nil]%elem_of_app & [=] & _)|He]; done. }
  rewrite Ho in Hs, Hv. exact (ex_intro _ m (ex_intro _ c (ex_intro _ r (conj Ec (conj E (conj Hs Hv)))))).
Defined.
