(* ===== verification/CompactionWork.v ===== *)
(** * Running a compaction

    Model of both versions of [DBImpl::DoCompactionWork], of [SU_flush_data], and of
    [OpenCompactionOutputFile], [FinishCompactionOutputFile] and [FinishCompactionOutputFile1]
    ([App/integration/db_impl.cpp]).  [DoCompactionWork] is the version of the build without
    [VERIFY], which merges on the host; [DoCompactionWork_verify] is that of the build with
    [VERIFY], the default one, where the enclave hands over the merged entries, the variables
    carried from key to key are globals that no compaction resets, and the statuses of
    [SU_flush_data] are ignored.

    The merged entries are those the input iterator yields, each with the status of the iterator
    at that point.  The output files are an interface, [OutputOps]: [OutputOk] states what the
    table builder and the environment promise, every call being allowed to fail, and
    [OutputReliable] that none does.  Flushing the immutable memtable in between, and shutting
    down, are not modelled.  The outer [None] is a failed assertion. *)
From S2P Require Import Prelude Coding Comparator DbFormat Logging Log Status Filename MemTable Compaction Iterator Table VersionEdit Version VersionBuilder VersionSet CompactionPick CompactionInstall.
From stdpp Require Import sorting list gmap.

#[local] Open Scope Z_scope.

(** A table file being written: [TableBuilder] on a [WritableFile]. *)
Record OutputOps (W B : Type) := {
  NewOutput : Z → W → Status * B * W;
  Output_Add : bytes → bytes → B → option B;
  Output_NumEntries : B → Z;
  Output_FileSize : B → Z;
  Output_Finish : Z → B → W → option (Status * Z * W);  (** [Finish] and [FileSize] *)
  Output_Abandon : Z → B → W → Z * W;  (** [Abandon] and [FileSize] *)
  Output_Sync : Z → W → Status * W;  (** [Sync], then [Close] *)
  Output_Usable : Z → Z → W → Status;  (** opening it through the table cache *)
}.
Arguments NewOutput {W B}. Arguments Output_Add {W B}. Arguments Output_NumEntries {W B}. Arguments Output_FileSize {W B}.
Arguments Output_Finish {W B}. Arguments Output_Abandon {W B}. Arguments Output_Sync {W B}. Arguments Output_Usable {W B}.

Record CompactionState (W B : Type) := {
  compaction : Compaction;
  smallest_snapshot : Z;
  outputs : list Output;
  builder : option B;
  total_bytes : Z;
  cs_versions : VersionSet;
  pending_outputs_ : gset Z;
  cs_world : W;
}.
Arguments compaction {W B}. Arguments smallest_snapshot {W B}. Arguments outputs {W B}. Arguments builder {W B}.
Arguments total_bytes {W B}. Arguments cs_versions {W B}. Arguments pending_outputs_ {W B}. Arguments cs_world {W B}.

Section Work.
Context {W B : Type} (ops : OutputOps W B) (user : Comparator) (v : Version).
Abbreviation CS := (CompactionState W B).

Definition with_compaction (c : Compaction) (st : CS) : CS :=
  {| compaction := c; smallest_snapshot := smallest_snapshot st; outputs := outputs st; builder := builder st; total_bytes := total_bytes st;
     cs_versions := cs_versions st; pending_outputs_ := pending_outputs_ st; cs_world := cs_world st |}.
Definition with_output (outs : list Output) (b : option B) (st : CS) : CS :=
  {| compaction := compaction st; smallest_snapshot := smallest_snapshot st; outputs := outs; builder := b; total_bytes := total_bytes st;
     cs_versions := cs_versions st; pending_outputs_ := pending_outputs_ st; cs_world := cs_world st |}.

(** [current_output()], changed by [f]. *)
Fixpoint update_last (f : Output → Output) (outs : list Output) : option (list Output) :=
  match outs with
  | [] => None
  | [o] => Some [f o]
  | o :: outs => outs ← update_last f outs; Some (o :: outs)
  end.

Definition OpenCompactionOutputFile (st : CS) : option (Status * CS) :=
  match builder st with
  | Some _ => None
  | None =>
      let '(file_number, vs) := NewFileNumber (cs_versions st) in
      let out := {| out_number := file_number; out_file_size := 0; out_smallest := []; out_largest := [] |} in
      let '(s, b, w) := NewOutput ops file_number (cs_world st) in
      Some (s, {| compaction := compaction st; smallest_snapshot := smallest_snapshot st; outputs := outputs st ++ [out];
                  builder := if Status_ok s then Some b else None; total_bytes := total_bytes st; cs_versions := vs;
                  pending_outputs_ := {[file_number]} ∪ pending_outputs_ st; cs_world := w |})
  end.

(** [input_status] is the status of the input iterator. *)
Definition FinishCompactionOutputFile (input_status : Status) (st : CS) : option (Status * CS) :=
  b ← builder st;
  out ← last (outputs st);
  if out_number out =? 0 then None
  else
    let current_entries := Output_NumEntries ops b in
    '(s, current_bytes, w) ←
      (if Status_ok input_status then Output_Finish ops (out_number out) b (cs_world st)
       else let '(size, w) := Output_Abandon ops (out_number out) b (cs_world st) in Some (input_status, size, w));
    outs ← update_last (λ o, {| out_number := out_number o; out_file_size := current_bytes; out_smallest := out_smallest o; out_largest := out_largest o |}) (outputs st);
    let '(s, w) := if Status_ok s then Output_Sync ops (out_number out) w else (s, w) in
    let s := if Status_ok s && (0 <? current_entries) then Output_Usable ops (out_number out) current_bytes w else s in
    Some (s, {| compaction := compaction st; smallest_snapshot := smallest_snapshot st; outputs := outs; builder := None;
                total_bytes := total_bytes st + current_bytes; cs_versions := cs_versions st; pending_outputs_ := pending_outputs_ st; cs_world := w |}).
(** The variant that is not given the iterator. *)
Definition FinishCompactionOutputFile1 (st : CS) : option (Status * CS) := FinishCompactionOutputFile OK st.

(** Whether an entry is dropped, asking the compaction about deeper levels. *)
Definition drop_entry_step (smallest : Z) (st : DropState) (key : bytes) (c : Compaction) : bool * DropState * Compaction :=
  match ParseInternalKey key with
  | None => (false, {| current_user_key := []; has_current_user_key := false; last_sequence_for_key := kMaxSequenceNumber |}, c)
  | Some ikey =>
      let st := if negb (has_current_user_key st) || negb (Compare user (user_key ikey) (current_user_key st) =? 0)
                then {| current_user_key := user_key ikey; has_current_user_key := true; last_sequence_for_key := kMaxSequenceNumber |} else st in
      let '(drop, c) :=
        if last_sequence_for_key st <=? smallest then (true, c)
        else if bool_decide (type ikey = kTypeDeletion) && (sequence ikey <=? smallest) then IsBaseLevelForKey user v (user_key ikey) c else (false, c) in
      (drop, {| current_user_key := current_user_key st; has_current_user_key := has_current_user_key st; last_sequence_for_key := sequence ikey |}, c)
  end.

(** Writing an entry that is kept. *)
Definition write_entry (input_status : Status) (key value : bytes) (st : CS) : option (Status * CS) :=
  '(s, st) ← (match builder st with Some _ => Some (OK, st) | None => OpenCompactionOutputFile st end);
  if negb (Status_ok s) then Some (s, st)
  else
    b ← builder st;
    outs ← update_last (λ o, {| out_number := out_number o; out_file_size := out_file_size o;
                                out_smallest := if Output_NumEntries ops b =? 0 then key else out_smallest o; out_largest := key |}) (outputs st);
    b ← Output_Add ops key value b;
    let st := with_output outs (Some b) st in
    if max_output_file_size_ (compaction st) <=? Output_FileSize ops b then FinishCompactionOutputFile input_status st else Some (OK, st).

(** One entry. *)
Definition compact_entry (input_status : Status) (key value : bytes) (st : CS) (d : DropState) : option (Status * CS * DropState) :=
  let '(stop, c) := ShouldStopBefore user key (compaction st) in
  let st := with_compaction c st in
  '(s, st) ← (if stop && bool_decide (is_Some (builder st)) then FinishCompactionOutputFile input_status st else Some (OK, st));
  if negb (Status_ok s) then Some (s, st, d)
  else
    let '(drop, d, c) := drop_entry_step (smallest_snapshot st) d key (compaction st) in
    let st := with_compaction c st in
    if drop : bool then Some (OK, st, d) else '(s, st) ← write_entry input_status key value st; Some (s, st, d).

(** The loop over the merged entries, stopping at the first error. *)
Fixpoint compact_loop (kvs : list (bytes * bytes * Status)) (st : CS) (d : DropState) : option (Status * CS) :=
  match kvs with
  | [] => Some (OK, st)
  | (key, value, input_status) :: kvs =>
      '(s, st, d) ← compact_entry input_status key value st d;
      if Status_ok s then compact_loop kvs st d else Some (s, st)
  end.

(** [DoCompactionWork] of the build without [VERIFY], up to the installation; [input_status] is
    the status of the iterator at the end. *)
Definition DoCompactionWork (kvs : list (bytes * bytes * Status)) (input_status : Status) (st : CS) : option (Status * CS) :=
  '(s, st) ← compact_loop kvs st DropState_init;
  '(s, st) ← (if Status_ok s && bool_decide (is_Some (builder st)) then FinishCompactionOutputFile input_status st else Some (s, st));
  Some (if Status_ok s then input_status else s, st).

Definition SU_flush_data (key value : bytes) (st : CS) (d : DropState) : option (Status * CS * DropState) := compact_entry OK key value st d.

(** The calls of [do_flush_1c], one per merged entry, which ignore the status. *)
Fixpoint flush_all (kvs : list (bytes * bytes)) (st : CS) (d : DropState) : option (CS * DropState) :=
  match kvs with
  | [] => Some (st, d)
  | (key, value) :: kvs => '(_, st, d) ← SU_flush_data key value st d; flush_all kvs st d
  end.

(** [DoCompactionWork] of the build with [VERIFY], up to the installation; [d] are the globals. *)
Definition DoCompactionWork_verify (kvs : list (bytes * bytes)) (st : CS) (d : DropState) : option (Status * CS * DropState) :=
  '(st, d) ← flush_all kvs st d;
  '(s, st) ← (if bool_decide (is_Some (builder st)) then FinishCompactionOutputFile1 st else Some (OK, st));
  Some (s, st, d).

(** [CompactionState::CompactionState], with the oldest snapshot in use. *)
Definition CompactionState_make (c : Compaction) (oldest : option Z) (vs : VersionSet) (pending : gset Z) (w : W) : CS :=
  {| compaction := c; smallest_snapshot := default (vs_last_sequence vs) oldest; outputs := []; builder := None; total_bytes := 0;
     cs_versions := vs; pending_outputs_ := pending; cs_world := w |}.
Definition CleanupCompaction (st : CS) : gset Z := foldl (λ p o, p ∖ {[out_number o]}) (pending_outputs_ st) (outputs st).
End Work.

(** ** What the output files promise *)

(** [tables_of] are the tables on disk and [entries] those added to a builder, [None] once a write
    of its has failed; [fits] says that entries fit in a table.  Every call may fail: what is
    promised is that other tables are left alone, and that a table that was finished and synced
    holds what was added. *)
Class OutputOk {W B : Type} (ops : OutputOps W B) (valid : bytes → Prop) (user : Comparator) (tables_of : W → Z → option (Z * list (bytes * bytes)))
    (entries : B → option (list (bytes * bytes))) (fits : list (bytes * bytes) → Prop) : Prop := {
  oo_new n w s b w' : NewOutput ops n w = (s, b, w') → (Status_ok s = true → entries b = Some []) ∧ ∀ m, m ≠ n → tables_of w' m = tables_of w m;
  oo_add k x b : (∀ l, entries b = Some l → sorted_kvs (internal_valid valid) (InternalKeyComparator user) (l ++ [(k, x)]) ∧ fits (l ++ [(k, x)])) →
    ∃ b', Output_Add ops k x b = Some b' ∧ (entries b' = None ∨ ∃ l, entries b = Some l ∧ entries b' = Some (l ++ [(k, x)]));
  oo_num b l : entries b = Some l → Output_NumEntries ops b = zlen l;
  oo_finish n b w : (∀ l, entries b = Some l → fits l) →
    ∃ s size w', Output_Finish ops n b w = Some (s, size, w') ∧ (∀ m, m ≠ n → tables_of w' m = tables_of w m) ∧
      (Status_ok s = true → is_u 64 size ∧ 0 < size ∧ ∃ l, entries b = Some l ∧
        ∀ s' w'', Output_Sync ops n w' = (s', w'') → Status_ok s' = true → tables_of w'' n = Some (size, l));
  oo_abandon n b w m : m ≠ n → tables_of (Output_Abandon ops n b w).2 m = tables_of w m;
  oo_sync n w m : m ≠ n → tables_of (Output_Sync ops n w).2 m = tables_of w m;
  oo_fits l k : l `sublist_of` k → fits k → fits l;
}.

(** An environment in which the output files can be written and read back. *)
Class OutputReliable {W B : Type} (ops : OutputOps W B) (tables_of : W → Z → option (Z * list (bytes * bytes))) (entries : B → option (list (bytes * bytes))) : Prop := {
  or_new n w : (NewOutput ops n w).1.1 = OK;
  or_add k x b b' : is_Some (entries b) → Output_Add ops k x b = Some b' → is_Some (entries b');
  or_finish n b w s size w' : is_Some (entries b) → Output_Finish ops n b w = Some (s, size, w') → s = OK;
  or_sync n w : (Output_Sync ops n w).1 = OK;
  or_usable n size kvs w : tables_of w n = Some (size, kvs) → Output_Usable ops n size w = OK;
}.

Lemma update_last_snoc (f : Output → Output) outs o : update_last f (outs ++ [o]) = Some (outs ++ [f o]).
Proof.
  induction outs as [|x outs IH]; [done|]. cbn [app update_last]. rewrite IH. destruct (outs ++ [o]) eqn:E; [by destruct outs|]. done.
Qed.

(** What the input iterator yields, with its status each time. *)
Definition yields (ins : list (Entry * Status)) : list (bytes * bytes * Status) := (λ p, (entry_kv p.1, p.2)) <$> ins.
Definition all_ok (ins : list (Entry * Status)) : Prop := Forall (λ p, Status_ok p.2 = true) ins.

Section WorkOk.
Context {W B : Type} {ops : OutputOps W B} {valid : bytes → Prop} {user : Comparator} `{HU : !ComparatorOk valid user}.
Context {tables_of : W → Z → option (Z * list (bytes * bytes))} {entries : B → option (list (bytes * bytes))} {fits : list (bytes * bytes) → Prop}.
Context `{HO : !OutputOk ops valid user tables_of entries fits}.
Context (v : Version) (c0 : Compaction) (smallest n0 : Z) (w0 : W).
Abbreviation icmp := (InternalKeyComparator user).
Abbreviation ivalid := (internal_valid valid).
Abbreviation CS := (CompactionState W B).
Abbreviation sorted l := (sorted_kvs ivalid icmp (entry_kv <$> l)).
Abbreviation reliable := (OutputReliable ops tables_of entries).

(** The ends of an output are its first and last key. *)
Definition ends (o : Output) (g : list Entry) : Prop :=
  (∃ e, head g = Some e ∧ out_smallest o = entry_ikey e) ∧ (∃ e, last g = Some e ∧ out_largest o = entry_ikey e).

Definition Closed (w : W) (o : Output) (g : list Entry) : Prop :=
  ends o g ∧ is_u 64 (out_file_size o) ∧ tables_of w (out_number o) = Some (out_file_size o, entry_kv <$> g).

(** What holds of the state also after an error. *)
Record WorkBase (st : CS) : Prop := {
  wb_plan : same_plan c0 (compaction st);
  wb_snapshot : smallest_snapshot st = smallest;
  wb_numbers : out_number <$> outputs st = seqZ n0 (zlen (outputs st));
  wb_next : vs_next_file_number (cs_versions st) = n0 + zlen (outputs st);
  wb_old m : m < n0 → tables_of (cs_world st) m = tables_of w0 m;
}.

(** The builder [b] holds the entries [cur], the last output has [Q] of them, or a write has failed. *)
Definition Holding (b : B) (cur : list Entry) (Q : Prop) : Prop := (entries b = None ∧ ¬ reliable) ∨ (entries b = Some (entry_kv <$> cur) ∧ Q).

(** The outputs so far hold [groups], and the one being written [cur]. *)
Record WorkInv (st : CS) (groups : list (list Entry)) (cur : list Entry) : Prop := {
  wi_base : WorkBase st;
  wi_files : match builder st with
             | None => cur = [] ∧ Forall2 (Closed (cs_world st)) (outputs st) groups
             | Some b => ∃ os o, outputs st = os ++ [o] ∧ Forall2 (Closed (cs_world st)) os groups ∧ Holding b cur (ends o cur)
             end;
}.

Lemma closed_frame w w' n os groups : Forall2 (Closed w) os groups → (∀ o, o ∈ os → out_number o ≠ n) → (∀ m, m ≠ n → tables_of w' m = tables_of w m) →
  Forall2 (Closed w') os groups.
Proof using Type.
  intros H Hn Hf. induction H as [|o g os groups [H1 [H2 H3]] H IH]; [constructor|]. constructor; [|apply IH; intros x Hx; apply Hn; by right].
  split; [done|]. split; [done|]. rewrite Hf; [done|]. apply Hn. by left.
Qed.

(** The number of an output differs from those before it. *)
Lemma numbers_before os o : out_number <$> os ++ [o] = seqZ n0 (zlen (os ++ [o])) → out_number o = n0 + zlen os ∧ ∀ x, x ∈ os → n0 <= out_number x < out_number o.
Proof using Type.
  intros H. assert (Hat : ∀ i x, (os ++ [o]) !! i = Some x → out_number x = n0 + Z.of_nat i).
  { intros i x Hx. pose proof (f_equal (λ l, l !! i) H) as Hi. cbv beta in Hi. rewrite list_lookup_fmap, Hx in Hi. cbn [fmap option_fmap option_map] in Hi. symmetry in Hi.
    by apply lookup_seqZ in Hi as [-> _]. }
  assert (Ho : out_number o = n0 + zlen os).
  { apply (Hat (length os)). rewrite lookup_app_r by lia. by rewrite Nat.sub_diag. }
  split; [done|]. intros x [i Hi]%list_elem_of_lookup. pose proof (lookup_lt_Some _ _ _ Hi). rewrite (Hat i x); [unfold zlen in *; lia|]. by rewrite lookup_app_l.
Qed.

(** [Finish] or [Abandon], then [Sync] and [Close]: the table holds the entries when all succeed. *)
Lemma close_table ist n b w cur Q : Holding b cur Q → fits (entry_kv <$> cur) →
  ∃ s size w1, (if Status_ok ist then Output_Finish ops n b w else let '(size, w) := Output_Abandon ops n b w in Some (ist, size, w)) = Some (s, size, w1) ∧
    ∀ s' w', (if Status_ok s then Output_Sync ops n w1 else (s, w1)) = (s', w') →
      (∀ m, m ≠ n → tables_of w' m = tables_of w m) ∧
      (Status_ok s' = true → Status_ok ist = true ∧ is_u 64 size ∧ 0 < size ∧ Q ∧ tables_of w' n = Some (size, entry_kv <$> cur)) ∧
      (reliable → Status_ok ist = true → Status_ok s' = true).
Proof using HO.
  intros Hb Hf. destruct (Status_ok ist) eqn:Ei.
  - destruct (oo_finish (ops := ops) n b w) as (s & size & w1 & Ef & Hfr & Hok).
    { intros l El. destruct Hb as [[? _]|[E _]]; congruence. }
    exists s, size, w1. split; [done|]. intros s' w' Es. assert (Hfr' : ∀ m, m ≠ n → tables_of w' m = tables_of w m).
    { intros m Hm. rewrite <- (Hfr m Hm). destruct (Status_ok s); [|by injection Es as <- <-]. pose proof (oo_sync (ops := ops) n w1 m Hm) as H. by rewrite Es in H. }
    split; [done|]. split.
    + destruct (Status_ok s) eqn:E; [|injection Es as <- <-; congruence]. intros Hs'. destruct (Hok eq_refl) as (H1 & H2 & l & El & Ht). destruct Hb as [[? _]|[E' HQ]]; [congruence|].
      split_and!; try done. rewrite (Ht s' w' Es Hs'). congruence.
    + intros HR _. destruct Hb as [[_ ?]|[E' _]]; [done|]. rewrite (or_finish (ops := ops) n b w s size w1) in Es; [|by rewrite E'|done]. cbn [Status_ok OK] in Es.
      pose proof (or_sync (ops := ops) n w1) as H. rewrite Es in H. cbn in H. by rewrite H.
  - pose proof (λ m, oo_abandon (ops := ops) n b w m) as Hfr. destruct (Output_Abandon ops n b w) as [size w1]. exists ist, size, w1. split; [done|]. rewrite Ei. intros s' w' [= <- <-].
    split; [exact Hfr|]. split; [by rewrite Ei|by rewrite Ei].
Qed.

Lemma finish_ok ist st groups cur b : WorkInv st groups cur → builder st = Some b → 0 < n0 → fits (entry_kv <$> cur) →
  ∃ s st', FinishCompactionOutputFile ops ist st = Some (s, st') ∧ WorkBase st' ∧ builder st' = None ∧ zlen (outputs st') = zlen (outputs st) ∧ compaction st' = compaction st ∧
    (Status_ok s = true → Status_ok ist = true ∧ WorkInv st' (groups ++ [cur]) []) ∧ (reliable → Status_ok ist = true → Status_ok s = true).
Proof using HO.
  intros [[I1 I2 I3 I4 I6] I5] Hb Hn0 Hfits. rewrite Hb in I5. destruct I5 as (os & o & Eo & Hcl & Hends). unfold FinishCompactionOutputFile.
  rewrite Hb, Eo, last_snoc. cbn [mbind option_bind]. rewrite Eo in I3, I4. destruct (numbers_before os o I3) as [Hno Hbefore].
  pose proof (zlen_nonneg os). destruct (Z.eqb_spec (out_number o) 0); [lia|].
  destruct (close_table ist (out_number o) b (cs_world st) cur _ Hends Hfits) as (s1 & size & w1 & -> & Hclose). cbn [mbind option_bind]. rewrite update_last_snoc. cbn [mbind option_bind].
  destruct (if Status_ok s1 then Output_Sync ops (out_number o) w1 else (s1, w1)) as [s2 w2]. destruct (Hclose s2 w2 eq_refl) as (Hfr & Hok & Hrel).
  set (o' := {| out_number := out_number o |}). set (s3 := if _ && _ then _ else s2).
  assert (Hs3 : Status_ok s3 = true → Status_ok s2 = true) by (unfold s3; destruct (Status_ok s2) eqn:E2; [done|cbn [andb]; by rewrite E2]).
  assert (HBase : ∀ st', compaction st' = compaction st → smallest_snapshot st' = smallest_snapshot st → outputs st' = os ++ [o'] → cs_versions st' = cs_versions st → cs_world st' = w2 → WorkBase st').
  { intros st' E1 E2 E3 E4 E5. split; rewrite ?E1, ?E2, ?E3, ?E4, ?E5; try done.
    - rewrite fmap_app in I3 |- *. rewrite zlen_app in *. exact I3.
    - rewrite zlen_app in *. exact I4.
    - intros m Hm. rewrite Hfr; [by apply I6|]. lia. }
  eexists _, _. split; [done|]. split; [by apply HBase|]. cbn [builder outputs compaction]. split; [done|]. split; [by rewrite !zlen_app|]. split; [done|]. split.
  - intros Hs. destruct (Hok (Hs3 Hs)) as (Hi & Hz & _ & Hends' & Ht). split; [done|]. split; [by apply HBase|]. cbn [builder outputs cs_world]. split; [done|].
    apply Forall2_app; [apply (closed_frame (cs_world st) w2 (out_number o)); [done| |done]; intros x Hx; specialize (Hbefore x Hx); lia|].
    constructor; [|constructor]. split; [exact Hends'|]. split; [done|]. cbn [out_number out_file_size o']. by rewrite Ht.
  - intros HR Hi. pose proof (Hrel HR Hi) as Hs2. unfold s3. destruct (Hok Hs2) as (_ & _ & _ & _ & Ht). rewrite Hs2. cbn [andb]. rewrite (or_usable (ops := ops) _ _ _ _ Ht). by destruct (_ <? _).
Qed.

(** An output that is open, maybe still empty. *)
Record OpenInv (st : CS) (b : B) (groups : list (list Entry)) (cur : list Entry) : Prop := {
  oi_base : WorkBase st;
  oi_builder : builder st = Some b;
  oi_files : ∃ os o, outputs st = os ++ [o] ∧ Forall2 (Closed (cs_world st)) os groups ∧ Holding b cur (cur ≠ [] → ends o cur);
}.

Lemma open_ok st groups : WorkInv st groups [] → builder st = None → 0 < n0 → n0 + zlen (outputs st) + 1 < 2 ^ 64 →
  ∃ s st', OpenCompactionOutputFile ops st = Some (s, st') ∧ WorkBase st' ∧ zlen (outputs st') = zlen (outputs st) + 1 ∧ compaction st' = compaction st ∧
    (Status_ok s = true → ∃ b, OpenInv st' b groups []) ∧ (reliable → Status_ok s = true).
Proof using HO.
  intros [[I1 I2 I3 I4 I6] I5] Hb Hn0 Hroom. unfold OpenCompactionOutputFile. rewrite Hb in I5 |- *. destruct I5 as [_ Hcl]. unfold NewFileNumber. rewrite I4. cbn [fst snd].
  pose proof (zlen_nonneg (outputs st)). rewrite u64_small by (unfold is_u; lia).
  destruct (NewOutput ops (n0 + zlen (outputs st)) (cs_world st)) as [[s b] w'] eqn:En. destruct (oo_new (ops := ops) _ _ _ _ _ En) as (He & Hfr).
  eexists s, _. split; [done|]. cbn [outputs compaction].
  assert (Hold : ∀ o, o ∈ outputs st → n0 <= out_number o < n0 + zlen (outputs st)).
  { intros o Ho. assert (Hin : out_number o ∈ out_number <$> outputs st) by (by apply list_elem_of_fmap_2). rewrite I3 in Hin. apply elem_of_seqZ in Hin. lia. }
  match goal with |- WorkBase ?st' ∧ _ => assert (HB : WorkBase st') end.
  { split; cbn [compaction smallest_snapshot outputs cs_versions cs_world vs_next_file_number]; [done|done| | |].
    - rewrite fmap_app, I3, zlen_app. change (zlen [_]) with 1. rewrite seqZ_app by lia. done.
    - rewrite zlen_app. change (zlen [_]) with 1. lia.
    - intros m Hm. rewrite Hfr; [by apply I6|lia]. }
  split; [exact HB|]. split; [by rewrite zlen_app|]. split; [done|]. split.
  - intros Hs. exists b. split; [exact HB|cbn [builder]; by rewrite Hs|]. cbn [outputs cs_world]. eexists (outputs st), _. split; [done|]. split; [|right; split; [by apply He|done]].
    apply (closed_frame (cs_world st) w' (n0 + zlen (outputs st))); [done| |done]. intros o Ho. specialize (Hold o Ho). lia.
  - intros HR. pose proof (or_new (ops := ops) (n0 + zlen (outputs st)) (cs_world st)) as Hs. rewrite En in Hs. cbn in Hs. by rewrite Hs.
Qed.

(** Adding an entry, maybe with a failure that only [Finish] reports. *)
Lemma holding_add b cur e o : Holding b cur (cur ≠ [] → ends o cur) → sorted (cur ++ [e]) → fits (entry_kv <$> cur ++ [e]) →
  let o' := {| out_number := out_number o; out_file_size := out_file_size o;
               out_smallest := if Output_NumEntries ops b =? 0 then entry_ikey e else out_smallest o; out_largest := entry_ikey e |} in
  ∃ b', Output_Add ops (entry_ikey e) (e_value e) b = Some b' ∧ Holding b' (cur ++ [e]) (ends o' (cur ++ [e])).
Proof using HO.
  intros Hb Hs Hf o'. rewrite fmap_app in Hs, Hf. destruct (oo_add (ops := ops) (entry_ikey e) (e_value e) b) as (b' & Ea & Hb').
  { intros l El. destruct Hb as [[? _]|[E _]]; [congruence|]. rewrite El in E. injection E as ->. done. }
  exists b'. split; [done|]. destruct Hb as [[E HR]|[E Hends]].
  { left. split; [|done]. destruct Hb' as [?|(l & El & _)]; [done|congruence]. }
  destruct Hb' as [E'|(l & El & E')].
  { left. split; [done|]. intros HR. destruct (or_add (ops := ops) _ _ _ _ ltac:(by rewrite E) Ea) as [l El]. congruence. }
  rewrite E in El. injection El as <-. right. split; [by rewrite E', fmap_app|]. split; [|exists e; by rewrite last_snoc].
  cbn [out_smallest o']. rewrite (oo_num (ops := ops) b _ E). destruct cur as [|e0 cur]; [by exists e|]. destruct (Hends ltac:(done)) as [(x & Hx & Ex) _]. exists x. split; [done|].
  destruct (Z.eqb_spec (zlen (entry_kv <$> e0 :: cur)) 0) as [Hz|]; [|done]. unfold zlen in Hz. simpl in Hz. lia.
Qed.

Lemma add_ok ist st b groups cur e : OpenInv st b groups cur → 0 < n0 → sorted (cur ++ [e]) → fits (entry_kv <$> cur ++ [e]) →
  ∃ s st', (outs ← update_last (λ o, {| out_number := out_number o; out_file_size := out_file_size o;
                                out_smallest := if Output_NumEntries ops b =? 0 then entry_ikey e else out_smallest o; out_largest := entry_ikey e |}) (outputs st);
    b ← Output_Add ops (entry_ikey e) (e_value e) b;
    let st := with_output outs (Some b) st in
    if max_output_file_size_ (compaction st) <=? Output_FileSize ops b then FinishCompactionOutputFile ops ist st else Some (OK, st)) = Some (s, st') ∧
    WorkBase st' ∧ zlen (outputs st') = zlen (outputs st) ∧ compaction st' = compaction st ∧
    (Status_ok s = true → ∃ groups' cur', WorkInv st' groups' cur' ∧ mjoin groups' ++ cur' = mjoin groups ++ cur ++ [e]) ∧ (reliable → Status_ok ist = true → Status_ok s = true).
Proof using HO.
  intros [[I1 I2 I3 I4 I8] I5 (os & o & Eo & Hcl & Hb)] Hn0 Hs Hf. rewrite Eo, update_last_snoc. cbn [mbind option_bind].
  destruct (holding_add b cur e o Hb Hs Hf) as (b' & -> & Hb'). cbn [mbind option_bind].
  set (o' := {| out_number := out_number o; out_largest := entry_ikey e |}) in *.
  assert (HB : WorkBase (with_output (os ++ [o']) (Some b') st)).
  { split; cbn [with_output compaction smallest_snapshot outputs cs_versions cs_world]; [done|done| | |done].
    - rewrite Eo, fmap_app, zlen_app in I3. rewrite fmap_app, zlen_app. exact I3.
    - rewrite Eo, zlen_app in I4. rewrite zlen_app. exact I4. }
  assert (HW : WorkInv (with_output (os ++ [o']) (Some b') st) groups (cur ++ [e])) by (split; [done|]; by exists os, o').
  destruct (_ <=? _).
  - destruct (finish_ok ist _ _ _ b' HW eq_refl Hn0 Hf) as (s & st' & E & HB' & _ & Hz & Hc & Hok & Hrel). exists s, st'. split; [exact E|]. split; [done|]. cbn [with_output outputs compaction] in Hz, Hc.
    split; [by rewrite Hz, !zlen_app|]. split; [done|]. split; [|done]. intros Hst. destruct (Hok Hst) as [_ HW']. exists (groups ++ [cur ++ [e]]), []. split; [done|].
    rewrite join_app. cbn [mjoin list_join]. by rewrite !app_nil_r.
  - eexists OK, _. split; [done|]. split; [exact HB|]. cbn [with_output outputs compaction]. split; [by rewrite !zlen_app|]. split; [done|]. split; [|done]. intros _. by exists groups, (cur ++ [e]).
Qed.

Lemma write_ok ist st groups cur e : WorkInv st groups cur → 0 < n0 → n0 + zlen (outputs st) + 1 < 2 ^ 64 → sorted (cur ++ [e]) → fits (entry_kv <$> cur ++ [e]) →
  ∃ s st', write_entry ops ist (entry_ikey e) (e_value e) st = Some (s, st') ∧ WorkBase st' ∧ zlen (outputs st') <= zlen (outputs st) + 1 ∧ compaction st' = compaction st ∧
    (Status_ok s = true → ∃ groups' cur', WorkInv st' groups' cur' ∧ mjoin groups' ++ cur' = mjoin groups ++ cur ++ [e]) ∧ (reliable → Status_ok ist = true → Status_ok s = true).
Proof using HO.
  intros HW Hn0 Hroom Hs Hf. unfold write_entry. destruct (builder st) as [b|] eqn:Eb.
  - cbn [mbind option_bind Status_ok OK negb]. rewrite Eb. cbn [mbind option_bind].
    assert (HI : OpenInv st b groups cur).
    { destruct HW as [I1 I5]. rewrite Eb in I5. destruct I5 as (os & o & Eo & Hcl & Hb). split; [done|done|]. exists os, o. split; [done|]. split; [done|].
      destruct Hb as [?|[? ?]]; [by left|by right]. }
    destruct (add_ok ist st b groups cur e HI Hn0 Hs Hf) as (s & st' & E & HB & Hz & Hc & Hok & Hrel). exists s, st'. split_and!; [exact E|done|lia|done|done|done].
  - pose proof HW as [_ I5]. rewrite Eb in I5. destruct I5 as [-> _]. destruct (open_ok st groups HW Eb Hn0 Hroom) as (s1 & st1 & -> & HB1 & Hz1 & Hc1 & Hok1 & Hrel1).
    cbn [mbind option_bind]. destruct (Status_ok s1) eqn:Es; cbn [negb].
    2: { exists s1, st1. rewrite Es. split_and!; try done; [lia|]. intros HR. by specialize (Hrel1 HR). }
    destruct (Hok1 eq_refl) as [b HI]. rewrite (oi_builder _ _ _ _ HI). cbn [mbind option_bind].
    destruct (add_ok ist st1 b groups [] e HI Hn0 Hs Hf) as (s & st' & E & HB & Hz & Hc & Hok & Hrel). exists s, st'. split_and!; [exact E|done|lia|congruence|done|done].
Qed.

(** ** One entry *)

Lemma same_plan_trans c c' c'' : same_plan c c' → same_plan c' c'' → same_plan c c''.
Proof using Type. intros (A1 & A2 & A3 & A4) (B1 & B2 & B3 & B4). repeat split; congruence. Qed.

Lemma WorkBase_compaction st c : WorkBase st → same_plan c0 c → WorkBase (with_compaction c st).
Proof using Type. intros [I1 I2 I3 I4 I6] Hc. by split. Qed.

Lemma WorkInv_compaction st groups cur c : WorkInv st groups cur → same_plan c0 c → WorkInv (with_compaction c st) groups cur.
Proof using Type. intros [I1 I5] Hc. split; [by apply WorkBase_compaction|done]. Qed.

Lemma ShouldStopBefore_plan key c : ∃ stop c', ShouldStopBefore user key c = (stop, c') ∧ same_plan c c' ∧ level_ptrs_ c' = level_ptrs_ c.
Proof using Type. unfold ShouldStopBefore. destruct (grandparent_loop _ _ _ _ _ _) as [index overlapped]. eexists _, _. split; [done|]. by repeat split. Qed.

Lemma BasePtrs_plan u c c' : level_ c' = level_ c → level_ptrs_ c' = level_ptrs_ c → BasePtrs (user := user) v u c → BasePtrs (user := user) v u c'.
Proof using Type. intros E1 E2. unfold BasePtrs. by rewrite E1, E2. Qed.

Context (Hlevels : ∀ l, 0 < l → LevelOk (valid := valid) (user := user) (level_files v l)) (Hlevel : 0 <= level_ c0).
Abbreviation base := (base_of (user := user) v (level_ c0)).

Lemma drop_entry_step_ok d e c : same_plan c0 c → state_ok (valid := valid) d → entry_ok valid e → BasePtrs (user := user) v (e_key e) c →
  ∃ c', drop_entry_step user v smallest d (entry_ikey e) c = (drop_entry base smallest d e, c') ∧ same_plan c0 c' ∧ BasePtrs (user := user) v (e_key e) c'.
Proof using HU Hlevels Hlevel.
  intros Hc Hd He Hp. assert (Hse : seq_entry_ok (valid := valid) e) by (split; apply He). pose proof (drop_step_entry (user := user) base smallest d e Hd Hse) as Hds.
  unfold drop_step in Hds. unfold drop_entry_step.
  assert (ParseInternalKey (entry_ikey e) = Some {| user_key := e_key e; sequence := e_seq e; type := e_type e |}) as Ep.
  { by apply (ParseInternalKey_Append {| user_key := e_key e; sequence := e_seq e; type := e_type e |}), He. }
  rewrite Ep in Hds |- *. cbn [user_key sequence type] in Hds |- *. rewrite <- Hds. clear Hds Ep. set (d1 := if _ || _ then _ else d).
  destruct (last_sequence_for_key d1 <=? smallest); [by exists c|]. destruct (bool_decide (e_type e = kTypeDeletion) && (e_seq e <=? smallest)); [|by exists c].
  assert (El : level_ c = level_ c0) by apply Hc.
  destruct (IsBaseLevelForKey_ok (valid := valid) v (e_key e) c Hlevels ltac:(lia) ltac:(apply He) Hp) as (c' & -> & Hp' & Hc'). rewrite El. cbn [andb].
  exists c'. split; [done|]. split; [by apply (same_plan_trans c0 c)|done].
Qed.

Lemma entries_sorted l : StronglySorted (entry_lt (user := user)) l → Forall (entry_ok valid) l → sorted l.
Proof using HU.
  intros Hs Hok. split.
  - apply Forall_fmap. eapply Forall_impl; [exact Hok|]. intros e He. by apply (entry_ikey_valid (user := user)).
  - induction Hs as [|e l Hs IH He]; [constructor|]. apply Forall_cons in Hok as [Ho Hok]. constructor; [by apply IH|]. apply Forall_fmap, Forall_forall. intros e' He'.
    rewrite Forall_forall in He, Hok. cbn [compose]. apply (entry_lt_icmp (valid := valid) (user := user)); auto.
Qed.

(** The file is closed first where the output would overlap too much of the level below. *)
Lemma stop_ok (stop : bool) ist st groups cur e rest : WorkInv st groups cur → 0 < n0 → fits (entry_kv <$> (mjoin groups ++ cur) ++ e :: rest) →
  ∃ s st', (if stop && bool_decide (is_Some (builder st)) then FinishCompactionOutputFile ops ist st else Some (OK, st)) = Some (s, st') ∧ WorkBase st' ∧
    zlen (outputs st') = zlen (outputs st) ∧ compaction st' = compaction st ∧
    (Status_ok s = true → ∃ groups' cur', WorkInv st' groups' cur' ∧ mjoin groups' ++ cur' = mjoin groups ++ cur ∧ (cur' = [] ∨ cur' = cur)) ∧ (reliable → Status_ok ist = true → Status_ok s = true).
Proof using HO.
  intros HW Hn0 Hf. assert (Hsub : cur `sublist_of` (mjoin groups ++ cur) ++ e :: rest) by (rewrite <- app_assoc; apply sublist_inserts_l, sublist_inserts_r; done).
  assert (Hsame : ∃ s st', Some (OK, st) = Some (s, st') ∧ WorkBase st' ∧ zlen (outputs st') = zlen (outputs st) ∧ compaction st' = compaction st ∧
    (Status_ok s = true → ∃ groups' cur', WorkInv st' groups' cur' ∧ mjoin groups' ++ cur' = mjoin groups ++ cur ∧ (cur' = [] ∨ cur' = cur)) ∧ (reliable → Status_ok ist = true → Status_ok s = true)).
  { exists OK, st. split_and!; try done; [apply HW|]. intros _. exists groups, cur. auto. }
  destruct (builder st) as [b|] eqn:Eb; [|rewrite bool_decide_eq_false_2, andb_false_r by (by intros [? [=]]); exact Hsame].
  rewrite bool_decide_eq_true_2 by done. destruct stop; cbn [andb]; [|exact Hsame].
  destruct (finish_ok ist st groups cur b HW Eb Hn0) as (s & st2 & E2 & HB & _ & Hz2 & Hc2 & Hok & Hrel).
  { eapply (oo_fits (ops := ops)); [|exact Hf]. by apply fmap_sublist. }
  exists s, st2. split_and!; try done. intros Hs. destruct (Hok Hs) as [_ HW2]. exists (groups ++ [cur]), []. split; [done|]. split; [|by left]. rewrite join_app. cbn [mjoin list_join]. by rewrite !app_nil_r.
Qed.

Lemma compact_entry_ok ist st d groups cur e rest : WorkInv st groups cur → 0 < n0 → zlen (outputs st) <= zlen (mjoin groups ++ cur) →
  n0 + zlen (mjoin groups ++ cur) + 1 < 2 ^ 64 → StronglySorted (entry_lt (user := user)) ((mjoin groups ++ cur) ++ e :: rest) →
  Forall (entry_ok valid) ((mjoin groups ++ cur) ++ e :: rest) → fits (entry_kv <$> (mjoin groups ++ cur) ++ e :: rest) →
  state_ok (valid := valid) d → BasePtrs (user := user) v (e_key e) (compaction st) →
  ∃ s st' d', compact_entry ops user v ist (entry_ikey e) (e_value e) st d = Some (s, st', d') ∧ WorkBase st' ∧
    (Status_ok s = true → d' = (drop_entry base smallest d e).2 ∧ ∃ groups' cur', WorkInv st' groups' cur' ∧
      mjoin groups' ++ cur' = (mjoin groups ++ cur) ++ (if (drop_entry base smallest d e).1 then [] else [e]) ∧
      zlen (outputs st') <= zlen (mjoin groups' ++ cur') ∧ BasePtrs (user := user) v (e_key e) (compaction st')) ∧
    (reliable → Status_ok ist = true → Status_ok s = true).
Proof using HU HO Hlevels Hlevel.
  intros HW Hn0 Hz Hroom Hs Hok Hf Hd Hp. unfold compact_entry. destruct (ShouldStopBefore_plan (entry_ikey e) (compaction st)) as (stop & c1 & -> & Hc1 & Ep1).
  assert (Hplan1 : same_plan c0 c1) by (apply (same_plan_trans c0 (compaction st)); [apply HW|done]).
  pose proof (WorkInv_compaction st groups cur c1 HW Hplan1) as HW1. set (st1 := with_compaction c1 st) in *.
  destruct (stop_ok stop ist st1 groups cur e rest HW1 Hn0 Hf) as (s2 & st2 & -> & HB2 & Hz2 & Hc2 & Hok2 & Hrel2). change (zlen (outputs st1)) with (zlen (outputs st)) in Hz2. change (compaction st1) with c1 in Hc2.
  cbn [mbind option_bind]. destruct (Status_ok s2) eqn:Es2; cbn [negb]; [|exists s2, st2, d; rewrite Es2; split_and!; try done; intros HR Hi; by specialize (Hrel2 HR Hi)].
  destruct (Hok2 eq_refl) as (groups2 & cur2 & HW2 & Hj2 & Hcur2). clear Hok2 Hrel2. rewrite Hc2, (wb_snapshot _ HB2).
  assert (He : entry_ok valid e) by (apply Forall_app in Hok as [_ Hok]; by apply Forall_cons in Hok as [? _]).
  destruct (drop_entry_step_ok d e c1) as (c2 & -> & Hplan2 & Hp2); [done|done|done|apply (BasePtrs_plan _ (compaction st)); [apply Hc1|done|done]|].
  destruct (drop_entry base smallest d e) as [drop d'] eqn:Ed. cbn [fst snd].
  pose proof (WorkInv_compaction st2 groups2 cur2 c2 HW2 Hplan2) as HW3. destruct drop.
  - eexists OK, _, d'. split; [done|]. split; [apply HW3|]. split; [|done]. intros _. split; [done|]. exists groups2, cur2. split; [exact HW3|]. rewrite app_nil_r, Hj2. cbn [with_compaction outputs compaction]. split_and!; [done|lia|done].
  - assert (Hsub : cur2 ++ [e] `sublist_of` (mjoin groups ++ cur) ++ e :: rest).
    { rewrite <- app_assoc. apply sublist_inserts_l. destruct Hcur2 as [->| ->]; cbn [app].
      - apply sublist_inserts_l. constructor. apply sublist_nil_l.
      - apply sublist_app; [done|]. constructor. apply sublist_nil_l. }
    destruct (write_ok ist (with_compaction c2 st2) groups2 cur2 e HW3 Hn0) as (s3 & st3 & E3 & HB3 & Hz3 & Hc3 & Hok3 & Hrel3).
    + cbn [with_compaction outputs]. lia.
    + apply entries_sorted; [by eapply StronglySorted_sublist_of|]. rewrite Forall_forall in Hok |- *. intros x Hx. apply Hok. by eapply elem_of_sublist.
    + eapply (oo_fits (ops := ops)); [|exact Hf]. by apply fmap_sublist.
    + rewrite E3. cbn [mbind option_bind]. exists s3, st3, d'. split; [done|]. split; [done|]. split; [|done]. intros Hs3. split; [done|]. destruct (Hok3 Hs3) as (groups3 & cur3 & HW4 & Hj3).
      exists groups3, cur3. split; [done|]. rewrite Hj3, app_assoc, Hj2. split; [done|]. rewrite Hc3. cbn [with_compaction compaction outputs] in *. split; [rewrite zlen_app; change (zlen [e]) with 1; lia|done].
Qed.

Lemma compact_loop_ok ins : ∀ st d groups cur, WorkInv st groups cur → 0 < n0 → zlen (outputs st) <= zlen (mjoin groups ++ cur) →
  n0 + zlen ((mjoin groups ++ cur) ++ ins.*1) + 1 < 2 ^ 64 → StronglySorted (entry_lt (user := user)) ((mjoin groups ++ cur) ++ ins.*1) →
  Forall (entry_ok valid) ((mjoin groups ++ cur) ++ ins.*1) → fits (entry_kv <$> (mjoin groups ++ cur) ++ ins.*1) →
  state_ok (valid := valid) d → (∀ e, e ∈ ins.*1 → BasePtrs (user := user) v (e_key e) (compaction st)) →
  ∃ s st', compact_loop ops user v (yields ins) st d = Some (s, st') ∧ WorkBase st' ∧
    (Status_ok s = true → ∃ groups' cur', WorkInv st' groups' cur' ∧ mjoin groups' ++ cur' = (mjoin groups ++ cur) ++ keep base smallest d ins.*1) ∧
    (reliable → all_ok ins → Status_ok s = true).
Proof using HU HO Hlevels Hlevel.
  induction ins as [|[e ist] ins IH]; intros st d groups cur HW Hn0 Hz Hroom Hs Hok Hf Hd Hp.
  { exists OK, st. unfold yields. cbn [keep fmap list_fmap]. split; [done|]. split; [apply HW|]. split; [|done]. intros _. exists groups, cur. by rewrite app_nil_r. }
  unfold yields. cbn [fmap list_fmap compact_loop keep fst snd] in *. fold (yields ins). change (entry_kv e) with (entry_ikey e, e_value e). cbv iota beta. set (rest := fst <$> ins) in *.
  pose proof (zlen_app (mjoin groups ++ cur) (e :: rest)) as Hza. pose proof (zlen_nonneg (e :: rest)).
  destruct (compact_entry_ok ist st d groups cur e rest) as (s1 & st1 & d1 & -> & HB1 & Hok1 & Hrel1); [done|done|done|lia|done|done|done|done|apply Hp; by left|].
  cbn [mbind option_bind]. destruct (Status_ok s1) eqn:Es; [|exists s1, st1; rewrite Es; split_and!; try done; intros HR [Hi _]%Forall_cons; by specialize (Hrel1 HR Hi)].
  destruct (Hok1 eq_refl) as (-> & groups1 & cur1 & HW1 & Hj1 & Hz1 & Hp1). clear Hok1.
  unfold drop_entry in Hj1 |- *. cbn [fst snd] in Hj1 |- *. set (drop := _ || _) in *.
  set (d' := {| current_user_key := e_key e; has_current_user_key := true; last_sequence_for_key := e_seq e |}) in *.
  assert (Hsub : (mjoin groups1 ++ cur1) ++ rest `sublist_of` (mjoin groups ++ cur) ++ e :: rest).
  { rewrite Hj1, <- app_assoc. apply sublist_app; [done|]. destruct drop; cbn [app]; [by apply sublist_cons|done]. }
  apply Forall_app in Hok as Hok'. destruct Hok' as [_ [He Hrest]%Forall_cons].
  destruct (IH st1 d' groups1 cur1) as (s' & st' & E & HB' & Hok2 & Hrel2); [done|done|done| | | | | | |].
  - assert (zlen ((mjoin groups1 ++ cur1) ++ rest) <= zlen ((mjoin groups ++ cur) ++ e :: rest)); [|lia]. unfold zlen. apply inj_le. by apply sublist_length.
  - by eapply StronglySorted_sublist_of.
  - rewrite Forall_forall in Hok |- *. intros x Hx. apply Hok. by eapply elem_of_sublist.
  - eapply (oo_fits (ops := ops)); [|exact Hf]. by apply fmap_sublist.
  - intros _. apply He.
  - intros x Hx. rewrite Forall_forall in Hrest. apply (BasePtrs_mono (valid := valid) v (e_key e)); [done|destruct (wb_plan _ HB1) as [-> _]; done|apply He|apply (Hrest x Hx)| |done].
    assert (Hlt : entry_lt (user := user) e x).
    { assert (Hs' : StronglySorted (entry_lt (user := user)) (e :: rest)) by (eapply StronglySorted_sublist_of; [|exact Hs]; by apply sublist_inserts_l).
      apply StronglySorted_inv in Hs' as [_ Hs']. rewrite Forall_forall in Hs'. by apply Hs'. }
    destruct Hlt as [Hlt|[-> _]]; [lia|]. rewrite (Compare_refl (valid := valid)); [done|]. apply (Hrest x Hx).
  - exists s', st'. split; [exact E|]. split; [done|]. split; [|intros HR [_ Hi]%Forall_cons; auto]. intros Hst. destruct (Hok2 Hst) as (groups' & cur' & HW' & Hj'). exists groups', cur'. split; [done|].
    rewrite Hj', Hj1. destruct drop; cbn [app]; [by rewrite app_nil_r|by rewrite <- app_assoc].
Qed.

(** The whole loop: when it succeeds the outputs hold exactly the entries to keep. *)
Lemma DoCompactionWork_ok ins final st : compaction st = c0 → smallest_snapshot st = smallest → outputs st = [] → builder st = None → cs_world st = w0 →
  vs_next_file_number (cs_versions st) = n0 → 0 < n0 → n0 + zlen ins.*1 + 1 < 2 ^ 64 → StronglySorted (entry_lt (user := user)) ins.*1 → Forall (entry_ok valid) ins.*1 →
  fits (entry_kv <$> ins.*1) → (∀ u, BasePtrs (user := user) v u c0) →
  ∃ s st', DoCompactionWork ops user v (yields ins) final st = Some (s, st') ∧ WorkBase st' ∧
    (Status_ok s = true → Status_ok final = true ∧ builder st' = None ∧ ∃ groups, mjoin groups = keep base smallest DropState_init ins.*1 ∧ Forall2 (Closed (cs_world st')) (outputs st') groups) ∧
    (reliable → all_ok ins → Status_ok final = true → Status_ok s = true).
Proof using HU HO Hlevels Hlevel.
  intros E1 E2 E3 E4 E5 E6 Hn0 Hroom Hs Hok Hf Hp. unfold DoCompactionWork.
  assert (HB : WorkBase st) by (split; [by rewrite E1|done|by rewrite E3|by rewrite E3, E6; unfold zlen; simpl; lia|by rewrite E5]).
  assert (HW : WorkInv st [] []) by (split; [done|]; rewrite E4, E3; split; [done|constructor]).
  destruct (compact_loop_ok ins st DropState_init [] []) as (s1 & st1 & -> & HB1 & Hok1 & Hrel1); [done|done|by rewrite E3|done|done|done|done|done|intros e _; by rewrite E1|].
  cbn [mbind option_bind]. destruct (Status_ok s1) eqn:Es; cbn [andb].
  2: { cbn [mbind option_bind]. rewrite Es. exists s1, st1. rewrite Es. split_and!; try done. intros HR Hi _. by specialize (Hrel1 HR Hi). }
  destruct (Hok1 eq_refl) as (groups & cur & HW1 & Hj). cbn [mjoin list_join app] in Hj. clear Hok1 Hrel1. destruct (builder st1) as [b|] eqn:Eb.
  - rewrite bool_decide_eq_true_2 by done. destruct (finish_ok final st1 groups cur b HW1 Eb Hn0) as (s2 & st2 & -> & HB2 & Eb2 & _ & _ & Hok2 & Hrel2).
    { eapply (oo_fits (ops := ops)); [|exact Hf]. apply fmap_sublist. transitivity (keep base smallest DropState_init ins.*1); [rewrite <- Hj; by apply sublist_inserts_l|apply keep_sub]. }
    cbn [mbind option_bind]. eexists _, st2. split; [done|]. split; [done|]. destruct (Status_ok s2) eqn:Es2; [|rewrite Es2; split; [done|]; intros HR _ Hi; by specialize (Hrel2 HR Hi)].
    split; [|done]. intros Hfin. destruct (Hok2 eq_refl) as [_ [_ I5]]. rewrite Eb2 in I5. split; [done|]. split; [done|]. exists (groups ++ [cur]). split; [|apply I5]. rewrite join_app. cbn [mjoin list_join]. by rewrite app_nil_r.
  - rewrite bool_decide_eq_false_2 by (by intros [? [=]]). cbn [mbind option_bind]. rewrite Es. exists final, st1. split; [done|]. split; [done|]. split; [|done]. intros Hfin. split; [done|]. split; [done|].
    destruct HW1 as [_ I5]. rewrite Eb in I5. destruct I5 as [-> I5]. exists groups. split; [by rewrite app_nil_r in Hj|done].
Qed.
End WorkOk.

(** ** The build with [VERIFY] *)

(** The globals are not in the middle of the user key that comes first. *)
Definition fresh_globals (user : Comparator) (d : DropState) (kvs : list (bytes * bytes)) : Prop :=
  match kvs with
  | (key, _) :: _ => has_current_user_key d = false ∨ ∀ ikey, ParseInternalKey key = Some ikey → Compare user (user_key ikey) (current_user_key d) ≠ 0
  | [] => True
  end.

Section Verify.
Context {W B : Type} (ops : OutputOps W B) (user : Comparator) (v : Version).
Abbreviation host_input := (fmap (λ kv : bytes * bytes, (kv, OK))).

Lemma fresh_drop smallest d key value kvs c : fresh_globals user d ((key, value) :: kvs) → drop_entry_step user v smallest d key c = drop_entry_step user v smallest DropState_init key c.
Proof using Type.
  intros Hf. unfold drop_entry_step. destruct (ParseInternalKey key) as [ikey|] eqn:Ep; [|done]. cbn [DropState_init has_current_user_key negb orb].
  assert (Hc : negb (has_current_user_key d) || negb (Compare user (user_key ikey) (current_user_key d) =? 0) = true).
  { destruct Hf as [->|Hf]; [done|]. specialize (Hf ikey Ep). destruct (Z.eqb_spec (Compare user (user_key ikey) (current_user_key d)) 0); [done|]. by rewrite orb_true_r. }
  by rewrite Hc.
Qed.

Lemma fresh_entry ist d key value kvs st : fresh_globals user d ((key, value) :: kvs) →
  ∀ s st' d', compact_entry ops user v ist key value st DropState_init = Some (s, st', d') → Status_ok s = true → compact_entry ops user v ist key value st d = Some (s, st', d').
Proof using Type.
  intros Hf s st' d'. unfold compact_entry. destruct (ShouldStopBefore user key (compaction st)) as [stop c]. destruct (if _ && _ then _ else _) as [[s1 st1]|]; [|done]. cbn [mbind option_bind].
  destruct (Status_ok s1) eqn:Es; cbn [negb]; [|intros [= -> _ _]; congruence]. by rewrite (fresh_drop _ d key value kvs _ Hf).
Qed.

Lemma flush_all_loop kvs : ∀ st d st', compact_loop ops user v (host_input kvs) st d = Some (OK, st') → ∃ d', flush_all ops user v kvs st d = Some (st', d').
Proof using Type.
  induction kvs as [|[key value] kvs IH]; intros st d st'; cbn [fmap list_fmap compact_loop flush_all]; [intros [= ->]; by exists d|]. unfold SU_flush_data.
  destruct (compact_entry _ _ _ _ _ _ _ _) as [[[s1 st1] d1]|]; [|done]. cbn [mbind option_bind]. destruct (Status_ok s1) eqn:Es; [apply IH|]. intros [= -> _]. done.
Qed.

(** Without failures, and from such globals, both builds do the same with the same merged entries. *)
Lemma verify_same kvs st d st' : fresh_globals user d kvs → DoCompactionWork ops user v (host_input kvs) OK st = Some (OK, st') →
  ∃ d', DoCompactionWork_verify ops user v kvs st d = Some (OK, st', d').
Proof using Type.
  intros Hf. unfold DoCompactionWork, DoCompactionWork_verify. destruct (compact_loop _ _ _ _ _ _) as [[s1 st1]|] eqn:El; [|done]. cbn [mbind option_bind]. intros H.
  assert (s1 = OK) as ->.
  { destruct s1; [|done]. cbn [Status_ok andb mbind option_bind] in H. done. }
  assert (Hall : ∃ d', flush_all ops user v kvs st d = Some (st1, d')).
  { destruct kvs as [|[key value] kvs]; [injection El as ->; by exists d|]. cbn [fmap list_fmap compact_loop flush_all] in El |- *. unfold SU_flush_data.
    destruct (compact_entry ops user v OK key value st DropState_init) as [[[s2 st2] d2]|] eqn:Ec; [|done]. cbn [mbind option_bind] in El. destruct (Status_ok s2) eqn:Es; [|injection El as -> ->; done].
    rewrite (fresh_entry OK d key value kvs st Hf s2 st2 d2 Ec Es). cbn [mbind option_bind]. by apply flush_all_loop. }
  destruct Hall as (d' & ->). cbn [mbind option_bind Status_ok OK andb] in H |- *. exists d'. unfold FinishCompactionOutputFile1.
  destruct (if bool_decide _ then _ else _) as [[s3 st3]|]; [|done]. cbn [mbind option_bind] in H |- *. destruct s3; [done|]. cbn [Status_ok] in H. by injection H as ->.
Qed.
End Verify.

(** ** From the outputs to a version *)

(** The tables with those of the outputs. *)
Definition tables_with (tables : Z → option (Z * list Entry)) (outs : list Output) (groups : list (list Entry)) (n : Z) : option (Z * list Entry) :=
  match (list_to_map (zip_with (λ o g, (out_number o, (out_file_size o, g))) outs groups) : gmap Z (Z * list Entry)) !! n with
  | Some x => Some x
  | None => tables n
  end.

Lemma zip_numbers outs (groups : list (list Entry)) : length outs = length groups →
  (zip_with (λ o g, (out_number o, (out_file_size o, g))) outs groups).*1 = out_number <$> outs.
Proof. revert groups. induction outs as [|o outs IH]; intros [|g groups] H; try done. cbn. f_equal. apply IH. by injection H. Qed.

Lemma tables_with_out tables outs groups i o g : NoDup (out_number <$> outs) → length outs = length groups → outs !! i = Some o → groups !! i = Some g →
  tables_with tables outs groups (out_number o) = Some (out_file_size o, g).
Proof.
  intros Hnd Hlen Ho Hg. unfold tables_with. rewrite (elem_of_list_to_map_1 _ (out_number o) (out_file_size o, g)); [done|by rewrite zip_numbers|].
  apply list_elem_of_lookup. exists i. by rewrite lookup_zip_with, Ho, Hg.
Qed.

Lemma tables_with_other tables outs groups n : length outs = length groups → n ∉ out_number <$> outs → tables_with tables outs groups n = tables n.
Proof. intros Hlen Hn. unfold tables_with. rewrite not_elem_of_list_to_map_1; [done|by rewrite zip_numbers]. Qed.

Section Compose.
Context {valid : bytes → Prop} {user : Comparator} `{HU : !ComparatorOk valid user}.
Context (tables : Z → option (Z * list Entry)) (v : Version) (c : Compaction).
Context (Hv : VersionOk (valid := valid) (user := user) tables v) (Hc : Chosen (user := user) v c).

Lemma name_ok_entry e : entry_ok valid e → name_ok (entry_ikey e).
Proof using Type. intros (_ & _ & H & _). unfold name_ok, entry_ikey. rewrite zlen_ikey. lia. Qed.

Lemma plan_edit_ok : EditOk (edit_ c).
Proof using HU Hv Hc.
  destruct (ch_inputs1 _ _ Hc) as (lo & hi & E & _ & ->). destruct (ch_inputs0 _ _ Hc) as [Hne Hsub].
  assert (Hd : ∀ f, f ∈ inputs0 c → Describes (valid := valid) (user := user) tables f) by (intros f Hf; apply (v_describes _ _ Hv (level_ c)); by apply (elem_of_sublist (inputs0 c))).
  destruct (GetRange_ok (valid := valid) (user := user) (inputs0 c)) as (lo' & hi' & E' & [_ (f & Hf & Ehi) _] & _); [|done|].
  { apply Forall_forall. intros f Hf. by apply (describes_FileOk tables), Hd. }
  rewrite E in E'. injection E' as -> ->. apply (apply_field_ok _ (FPointer _ _)); [apply EditOk_make|]. pose proof (ch_level _ _ Hc). split; [unfold level_ok; lia|].
  destruct (describes_ends tables f (Hd f Hf)) as (_ & e1 & _ & _ & _ & E1 & _ & O1). rewrite Ehi, E1. by apply name_ok_entry.
Qed.

Lemma deletions_ok level files e : EditOk e → level_ok level → Forall (λ f, is_u 64 (number f)) files → EditOk (foldl (λ e f, DeleteFile level (number f) e) e files).
Proof using Type.
  intros He Hl Hf. revert e He. induction Hf as [|f files Hf _ IH]; intros e He; [done|]. cbn [foldl]. apply IH. by apply (apply_field_ok _ (FDeleted _ _)).
Qed.

Definition output_ok (o : Output) : Prop := is_u 64 (out_number o) ∧ is_u 64 (out_file_size o) ∧ name_ok (out_smallest o) ∧ name_ok (out_largest o).

Lemma install_edit_ok outs : (∀ l f, f ∈ level_files v l → is_u 64 (number f)) → Forall output_ok outs → EditOk (InstallCompactionResults_edit c outs).
Proof using HU Hv Hc.
  intros Hn Ho. pose proof (ch_level _ _ Hc). unfold InstallCompactionResults_edit, AddInputDeletions.
  assert (He : EditOk (foldl (λ e f, DeleteFile (level_ c + 1) (number f) e) (foldl (λ e f, DeleteFile (level_ c) (number f) e) (edit_ c) (inputs0 c)) (inputs1 c))).
  { apply deletions_ok; [apply deletions_ok; [apply plan_edit_ok|unfold level_ok; lia|]|unfold level_ok; lia|]; apply Forall_forall; intros f Hf.
    - apply (Hn (level_ c)). apply (elem_of_sublist (inputs0 c)); [done|apply (ch_inputs0 _ _ Hc)].
    - destruct (ch_inputs1 _ _ Hc) as (lo & hi & _ & E & _). apply (Hn (level_ c + 1)). rewrite E in Hf. by apply (elem_of_sublist _ _ _ Hf), sublist_List_filter. }
  revert He. generalize (foldl (λ e f, DeleteFile (level_ c + 1) (number f) e) (foldl (λ e f, DeleteFile (level_ c) (number f) e) (edit_ c) (inputs0 c)) (inputs1 c)).
  induction Ho as [|o outs (O1 & O2 & O3 & O4) _ IH]; intros e He; [done|]. cbn [foldl]. apply IH. apply (apply_field_ok _ (FNew _ _ _ _ _)); [done|]. split_and!; try done; unfold level_ok; lia.
Qed.

(** What a table of the outputs needs to be described. *)
Lemma closed_describes {W : Type} (tables_of : W → Z → option (Z * list (bytes * bytes))) w tables' o g : Closed (tables_of := tables_of) w o g → tables' (out_number o) = Some (out_file_size o, g) →
  StronglySorted (entry_lt (user := user)) g → Forall (entry_ok valid) g → Describes (valid := valid) (user := user) tables' (out_meta o).
Proof using HU.
  intros [[(e0 & H0 & E0) (e1 & H1 & E1)] _] Ht Hs Hok. assert (He : entries_of tables' (out_meta o) = g).
  { unfold entries_of. change (number (out_meta o)) with (out_number o). by rewrite Ht. }
  split; rewrite ?He.
  - exists g. exact Ht.
  - split; [by apply entries_sorted|done].
  - by exists e0.
  - by exists e1.
Qed.
End Compose.

(** ** Properties *)

(** A version and a compaction chosen in it, whose inputs merge to [l]. *)
Record Compacting (valid : bytes → Prop) (user : Comparator) (tables : Z → option (Z * list Entry)) (v : Version) (c : Compaction) (l : list Entry) (next : Z) : Prop := {
  cg_version : VersionOk (valid := valid) (user := user) tables v;
  cg_sorted : VersionSorted (valid := valid) (user := user) v;
  cg_chosen : Chosen (user := user) v c;
  cg_numbers lev : NoDup (number <$> level_files v lev) ∧ ∀ f, f ∈ level_files v lev → 0 <= number f < next;
  cg_next : 0 < next ∧ next + zlen l + 1 < 2 ^ 64;
  cg_distinct lev lev' f f' e e' : f ∈ level_files v lev → f' ∈ level_files v lev' → e ∈ entries_of tables f → e' ∈ entries_of tables f' →
    e_key e = e_key e' → e_seq e = e_seq e' → e = e';
  cg_merged : StronglySorted (entry_lt (user := user)) l;
  cg_inputs e : e ∈ l ↔ ∃ f, f ∈ inputs0 c ++ inputs1 c ∧ e ∈ entries_of tables f;
  cg_room : zlen (level_files v (level_ c + 1)) + zlen l < 2 ^ 31;
}.

(** The entries of [l] a compaction keeps: neither hidden by a newer entry of the same user key
    that every snapshot sees, nor a deletion that every snapshot sees and whose user key lies in
    the range of no file of a deeper level. *)
Definition to_keep (user : Comparator) (v : Version) (c : Compaction) (oldest : Z) (l : list Entry) (e : Entry) : Prop :=
  e ∈ l ∧ ¬ (∃ e', e' ∈ l ∧ e_key e' = e_key e ∧ e_seq e < e_seq e' <= oldest) ∧
  ¬ (e_type e = kTypeDeletion ∧ e_seq e <= oldest ∧
     ∀ lev f, level_ c + 1 < lev → f ∈ level_files v lev →
       Compare user (e_key e) (ExtractUserKey (smallest f)) < 0 ∨ 0 < Compare user (e_key e) (ExtractUserKey (largest f))).

Lemma base_of_spec user v level u : 0 <= level → base_of (user := user) v level u = true ↔
  ∀ lev f, level + 1 < lev → f ∈ level_files v lev → Compare user u (ExtractUserKey (smallest f)) < 0 ∨ 0 < Compare user u (ExtractUserKey (largest f)).
Proof.
  intros Hl. unfold base_of. rewrite negb_true_iff, <- not_true_iff_false, List.existsb_exists. split.
  - intros Hn lev f Hlev Hf. destruct (decide (Compare user u (ExtractUserKey (smallest f)) < 0)) as [|H1]; [by left|]. destruct (decide (0 < Compare user u (ExtractUserKey (largest f)))) as [|H2]; [by right|].
    destruct Hn. exists f. split; [|unfold covers; lia]. apply list_elem_of_In, list_elem_of_join. exists (level_files v lev). split; [done|].
    unfold level_files in Hf |- *. destruct (files_ v !! Z.to_nat lev) as [fs|] eqn:E; [|by apply elem_of_nil in Hf]. cbn [default from_option id].
    apply list_elem_of_lookup. exists (Z.to_nat lev - Z.to_nat (level + 2))%nat. rewrite lookup_drop. rewrite <- E. f_equal. lia.
  - intros H (f & Hf & Hc). apply list_elem_of_In, list_elem_of_join in Hf as (fs & Hf & [i Hi]%list_elem_of_lookup). rewrite lookup_drop in Hi.
    destruct (H (Z.of_nat (Z.to_nat (level + 2) + i)) f) as [?|?]; [lia| |unfold covers in Hc; lia..]. unfold level_files. rewrite Nat2Z.id, Hi. done.
Qed.

Lemma keep_to_keep valid user `{HU : !ComparatorOk valid user} v c oldest l e : 0 <= level_ c → oldest < kMaxSequenceNumber → StronglySorted (entry_lt (user := user)) l → Forall (entry_ok valid) l →
  e ∈ keep (base_of (user := user) v (level_ c)) oldest DropState_init l ↔ to_keep user v c oldest l e.
Proof.
  intros Hl Hmax Hs Hok. rewrite (keep_spec (valid := valid) (user := user) _ oldest l DropState_init e Hmax Hs); [| |done].
  - unfold to_keep, hidden, obsolete, state_hides. cbn [DropState_init has_current_user_key]. rewrite (base_of_spec user v (level_ c) (e_key e) Hl). naive_solver.
  - eapply Forall_impl; [exact Hok|]. intros x Hx. split; apply Hx.
Qed.

Lemma inputs_in_version v c f user : Chosen (user := user) v c → f ∈ inputs0 c ++ inputs1 c → ∃ lev, f ∈ level_files v lev.
Proof.
  intros Hc [Hf|Hf]%elem_of_app.
  - exists (level_ c). apply (elem_of_sublist (inputs0 c)); [done|apply (ch_inputs0 _ _ Hc)].
  - destruct (ch_inputs1 _ _ Hc) as (lo & hi & _ & E & _). exists (level_ c + 1). rewrite E in Hf. by apply (elem_of_sublist _ _ _ Hf), sublist_List_filter.
Qed.

Lemma groups_length {W : Type} (tables_of : W → Z → option (Z * list (bytes * bytes))) w outs groups : Forall2 (Closed (tables_of := tables_of) w) outs groups → zlen outs <= zlen (mjoin groups).
Proof.
  induction 1 as [|o g outs groups [[(e & He & _) _] _] _ IH]; [done|]. change (mjoin (g :: groups)) with (g ++ mjoin groups). rewrite zlen_app, !zlen_cons. destruct g; [done|]. rewrite zlen_cons. pose proof (zlen_nonneg g). lia.
Qed.

(** The outputs of a compaction that has run satisfy what the installation needs. *)
Lemma compacting_done {W : Type} (tables_of : W → Z → option (Z * list (bytes * bytes))) (valid : bytes → Prop) (user : Comparator) `{HU : !ComparatorOk valid user}
    tables v c l next smallest w outs groups : Compacting valid user tables v c l next → smallest < kMaxSequenceNumber →
  mjoin groups = keep (base_of (user := user) v (level_ c)) smallest DropState_init l → Forall2 (Closed (tables_of := tables_of) w) outs groups →
  out_number <$> outs = seqZ next (zlen outs) →
  CompactionDone (valid := valid) (user := user) tables (tables_with tables outs groups) v c outs l (mjoin groups) smallest ∧
  (∀ lev f, f ∈ level_files v lev → tables_with tables outs groups (number f) = tables (number f)) ∧
  ∀ o, o ∈ outs → ∃ g, tables_with tables outs groups (out_number o) = Some (out_file_size o, g) ∧ tables_of w (out_number o) = Some (out_file_size o, entry_kv <$> g).
Proof.
  intros [G1 G2 G3 G4 [G5 G5'] G6 G8 G9 G10] Hmax Hj Hcl Hnum. pose proof (Forall2_length _ _ _ Hcl) as Hlen. pose proof (groups_length tables_of w outs groups Hcl) as Hcount.
  assert (Hsub : mjoin groups `sublist_of` l) by (rewrite Hj; apply keep_sub). assert (Hcount' : zlen outs <= zlen l) by (apply sublist_length in Hsub; unfold zlen in *; lia).
  assert (Hnd : NoDup (out_number <$> outs)) by (rewrite Hnum; apply NoDup_seqZ).
  assert (Hrange : ∀ o, o ∈ outs → next <= out_number o < next + zlen outs).
  { intros o Ho. assert (Hin : out_number o ∈ out_number <$> outs) by (by apply list_elem_of_fmap_2). rewrite Hnum in Hin. apply elem_of_seqZ in Hin. lia. }
  assert (Hold : ∀ lev f, f ∈ level_files v lev → tables_with tables outs groups (number f) = tables (number f)).
  { intros lev f Hf. apply tables_with_other; [done|]. intros (o & Eo & Ho)%list_elem_of_fmap. pose proof (proj2 (G4 lev) f Hf). specialize (Hrange o Ho). lia. }
  assert (Hok : Forall (entry_ok valid) l).
  { apply Forall_forall. intros e (f & Hf & He)%G9. destruct (inputs_in_version v c f user G3 Hf) as [lev Hlev].
    destruct (d_sorted _ _ (v_describes _ _ G1 lev f Hlev)) as [_ Hok]. rewrite Forall_forall in Hok. by apply Hok. }
  assert (Hout : ∀ i o, outs !! i = Some o → ∃ g, groups !! i = Some g ∧ Closed (tables_of := tables_of) w o g ∧ tables_with tables outs groups (out_number o) = Some (out_file_size o, g)).
  { intros i o Ho. destruct (Forall2_lookup_l _ _ _ _ _ Hcl Ho) as (g & Hg & HC). exists g. split; [done|]. split; [done|]. by apply (tables_with_out tables outs groups i). }
  assert (Hgroup : ∀ g, g ∈ groups → g `sublist_of` l).
  { intros g Hg. etransitivity; [|exact Hsub]. clear -Hg. induction groups as [|x groups IH]; [by apply elem_of_nil in Hg|]. cbn [mjoin list_join].
    apply elem_of_cons in Hg as [->|Hg]; [by apply sublist_inserts_r|by apply sublist_inserts_l, IH]. }
  split; [|split; [exact Hold|]].
  2:{ intros o [i Ho]%list_elem_of_lookup. destruct (Hout i o Ho) as (g & _ & (_ & _ & HC) & Ht). by exists g. }
  split; [done|done|done| |done|done|done|done|done| | | | |].
  - intros lev Hlev. rewrite fmap_app. apply NoDup_app. split; [apply G4|]. unfold outs_at. destruct (lev =? level_ c + 1); [|split; [by intros ? ? ?%elem_of_nil|constructor]].
    rewrite <- list_fmap_compose. split.
    + intros n (f & -> & Hf)%list_elem_of_fmap (o & Eo & Ho)%list_elem_of_fmap. pose proof (proj2 (G4 lev) f Hf). specialize (Hrange o Ho). change ((number ∘ out_meta) o) with (out_number o) in Eo. lia.
    + change (number ∘ out_meta) with out_number. done.
  - intros u s Vu Hs. rewrite Hj. apply (keep_reads (valid := valid) (user := user)); try done. eapply Forall_impl; [exact Hok|]. intros e He. split; apply He.
  - apply Forall_forall. intros o [i Ho]%list_elem_of_lookup. destruct (Hout i o Ho) as (g & Hg & HC & Ht). apply (closed_describes (valid := valid) tables_of w _ o g HC Ht).
    + eapply StronglySorted_sublist_of; [|exact G8]. apply Hgroup. by apply list_elem_of_lookup_2 in Hg.
    + rewrite Forall_forall in Hok |- *. intros e He. apply Hok. apply (elem_of_sublist _ _ _ He). apply Hgroup. by apply list_elem_of_lookup_2 in Hg.
  - f_equal. apply list_eq. intros i. rewrite list_lookup_fmap. destruct (outs !! i) as [o|] eqn:Eo.
    + destruct (Hout i o Eo) as (g & Hg & _ & Ht). rewrite Hg. cbn [fmap option_fmap option_map]. unfold entries_of. change (number (out_meta o)) with (out_number o). by rewrite Ht.
    + cbn [fmap option_fmap option_map]. symmetry. apply lookup_ge_None_2. apply lookup_ge_None_1 in Eo. lia.
  - apply (install_edit_ok tables v c G1 G3).
    + intros lev f Hf. pose proof (proj2 (G4 lev) f Hf). pose proof (zlen_nonneg l). unfold is_u. lia.
    + apply Forall_forall. intros o Ho. pose proof (Hrange o Ho) as Hr. apply list_elem_of_lookup in Ho as [i Ho]. destruct (Hout i o Ho) as (g & Hg & ([(e0 & H0 & E0) (e1 & H1 & E1)] & Hsz & _) & _).
      assert (Hin : ∀ e, e ∈ g → entry_ok valid e).
      { intros e He. rewrite Forall_forall in Hok. apply Hok. apply (elem_of_sublist _ _ _ He), Hgroup. by apply list_elem_of_lookup_2 in Hg. }
      split_and!; [unfold is_u; lia|done|rewrite E0; apply (name_ok_entry (valid := valid)), Hin; destruct g; [done|by injection H0 as ->; left]|rewrite E1; apply (name_ok_entry (valid := valid)), Hin; by apply last_Some_elem_of].
  - lia.
Qed.

Lemma compacting_entries valid user tables v c l next : Compacting valid user tables v c l next → Forall (entry_ok valid) l.
Proof.
  intros [G1 _ G3 _ _ _ _ G9 _]. apply Forall_forall. intros e (f & Hf & He)%G9. destruct (inputs_in_version v c f user G3 Hf) as [lev Hlev].
  destruct (d_sorted _ _ (v_describes _ _ G1 lev f Hlev)) as [_ Hok]. rewrite Forall_forall in Hok. by apply Hok.
Qed.

(** What the input iterator may yield of the merged entries [l]: with a status that is OK at the
    end, all of them; with an error, maybe not those of blocks it could not read. *)
Definition InputOf (l : list Entry) (ins : list (Entry * Status)) (final : Status) : Prop :=
  ins.*1 `sublist_of` l ∧ (Status_ok final = true → ins.*1 = l).

Lemma InputOf_all l : InputOf l ((λ e, (e, OK)) <$> l) OK.
Proof. unfold InputOf. rewrite <- list_fmap_compose. cbn [compose fst]. by rewrite list_fmap_id. Qed.

(** Running a compaction, and what the installation of its outputs needs. *)
Lemma compaction_run {W B : Type} {ops : OutputOps W B} {valid : bytes → Prop} {user : Comparator} {tables_of : W → Z → option (Z * list (bytes * bytes))}
    {entries : B → option (list (bytes * bytes))} {fits : list (bytes * bytes) → Prop} `{HU : !ComparatorOk valid user} `{HO : !OutputOk ops valid user tables_of entries fits}
    tables v c l ins final oldest vs pending w : Compacting valid user tables v c l (vs_next_file_number vs) →
  default (vs_last_sequence vs) oldest < kMaxSequenceNumber → fits (entry_kv <$> l) → InputOf l ins final →
  ∃ s st, DoCompactionWork ops user v (yields ins) final (CompactionState_make c oldest vs pending w) = Some (s, st) ∧
    InstallCompactionResults_edit (compaction st) (outputs st) = InstallCompactionResults_edit c (outputs st) ∧
    (∀ m, m < vs_next_file_number vs → tables_of (cs_world st) m = tables_of w m) ∧
    vs_next_file_number (cs_versions st) = vs_next_file_number vs + zlen (outputs st) ∧ out_number <$> outputs st = seqZ (vs_next_file_number vs) (zlen (outputs st)) ∧
    (Status_ok s = true → ∃ groups, mjoin groups = keep (base_of (user := user) v (level_ c)) (default (vs_last_sequence vs) oldest) DropState_init l ∧
      Forall2 (Closed (tables_of := tables_of) (cs_world st)) (outputs st) groups ∧ zlen (outputs st) <= zlen l ∧
      CompactionDone (valid := valid) (user := user) tables (tables_with tables (outputs st) groups) v c (outputs st) l (mjoin groups) (default (vs_last_sequence vs) oldest) ∧
      (∀ lev f, f ∈ level_files v lev → tables_with tables (outputs st) groups (number f) = tables (number f)) ∧
      (∀ o, o ∈ outputs st → ∃ g, tables_with tables (outputs st) groups (out_number o) = Some (out_file_size o, g) ∧ tables_of (cs_world st) (out_number o) = Some (out_file_size o, entry_kv <$> g))) ∧
    (OutputReliable ops tables_of entries → all_ok ins → Status_ok final = true → Status_ok s = true).
Proof.
  intros HC Hmax Hfits [Hin Hall]. pose proof HC as [G1 G2 G3 G4 [G5 G5'] G6 G8 G9 G10]. set (smallest := default (vs_last_sequence vs) oldest) in *. pose proof (compacting_entries _ _ _ _ _ _ _ HC) as Hok.
  pose proof (sublist_length _ _ Hin) as Hlen.
  destruct (DoCompactionWork_ok (ops := ops) (valid := valid) (user := user) (tables_of := tables_of) (entries := entries) (fits := fits) v c smallest (vs_next_file_number vs) w)
    with (ins := ins) (final := final) (st := CompactionState_make (B := B) c oldest vs pending w) as (s & st & E & [(P1 & P2 & P3 & P4) _ Hnum Hnext Hold'] & Hst & Hrel); try done.
  { intros lev Hlev. by apply (version_LevelOk tables). }
  { apply (ch_level _ _ G3). }
  { unfold zlen in *. lia. }
  { by eapply StronglySorted_sublist_of. }
  { rewrite Forall_forall in Hok |- *. intros x Hx. apply Hok. by eapply elem_of_sublist. }
  { eapply (oo_fits (ops := ops)); [|exact Hfits]. by apply fmap_sublist. }
  { intros u. apply (Chosen_ptrs v u c G3). apply (v_levels _ _ G1). }
  exists s, st. split; [exact E|]. split; [unfold InstallCompactionResults_edit, AddInputDeletions; by rewrite P1, P2, P3, P4|]. split; [done|]. split; [done|]. split; [done|]. split; [|done].
  intros Hs. destruct (Hst Hs) as (Hfin & _ & groups & Hj & Hcl). rewrite (Hall Hfin) in Hj.
  destruct (compacting_done tables_of valid user tables v c l _ smallest (cs_world st) (outputs st) groups HC Hmax Hj Hcl Hnum) as (HD & Hold & Hnew).
  exists groups. split_and!; try done.
  pose proof (groups_length tables_of _ _ _ Hcl) as Hc. assert (Hsub : mjoin groups `sublist_of` l) by (rewrite Hj; apply keep_sub). apply sublist_length in Hsub. unfold zlen in *. lia.
Qed.

(** [C7] A compaction keeps the database.  In the build that merges on the host (without [VERIFY]),
    run over the merged entries of inputs that were chosen in the current version, with output
    files and an input iterator any of whose calls may fail, it returns without failing an
    assertion and touches no table with an older number; it succeeds when nothing fails.  When it
    succeeds, the outputs hold, in order, exactly the entries to keep: those neither hidden by a
    newer entry of their user key that every snapshot sees, nor a deletion that every snapshot
    sees and no deeper level needs; the builder installs the edit without failing an assertion,
    with every level below 0 disjoint.  If moreover the inputs do not split a user key, the new
    version is well formed (newer entries above older ones), and at every snapshot not older than
    the oldest in use each user key reads the same value or the same absence as before.  The
    build with [VERIFY], given the same merged entries, without failures, and with the globals
    not in the middle of the first user key, ends in the same state. *)
Theorem compaction_correct {W B : Type} (ops : OutputOps W B) (valid : bytes → Prop) (user : Comparator) (tables_of : W → Z → option (Z * list (bytes * bytes)))
    (entries : B → option (list (bytes * bytes))) (fits : list (bytes * bytes) → Prop) (tables : Z → option (Z * list Entry)) (v : Version) (c : Compaction)
    (l : list Entry) (ins : list (Entry * Status)) (final : Status) (oldest : option Z) (vs : VersionSet) (pending : gset Z) (w : W) :
  ComparatorOk valid user → OutputOk ops valid user tables_of entries fits → Compacting valid user tables v c l (vs_next_file_number vs) →
  default (vs_last_sequence vs) oldest < kMaxSequenceNumber → fits (entry_kv <$> l) → zlen (compact_pointer_ vs) = kNumLevels → InputOf l ins final →
  (∃ s st, DoCompactionWork ops user v (yields ins) final (CompactionState_make c oldest vs pending w) = Some (s, st) ∧
    (∀ m, m < vs_next_file_number vs → tables_of (cs_world st) m = tables_of w m) ∧
    (OutputReliable ops tables_of entries → all_ok ins → Status_ok final = true → s = OK) ∧
    (Status_ok s = true → ∃ groups tables' cp b v',
      Forall2 (λ o g, tables_of (cs_world st) (out_number o) = Some (out_file_size o, entry_kv <$> g) ∧ tables' (out_number o) = Some (out_file_size o, g)) (outputs st) groups ∧
      mjoin groups `sublist_of` l ∧ (∀ e, e ∈ mjoin groups ↔ to_keep user v c (default (vs_last_sequence vs) oldest) l e) ∧
      Apply user (InstallCompactionResults_edit (compaction st) (outputs st)) (compact_pointer_ vs) (Builder_make v) = Some (cp, b) ∧ SaveTo user b = Some v' ∧
      VersionSorted (valid := valid) (user := user) v' ∧ (∀ lev f, f ∈ level_files v lev → tables' (number f) = tables (number f)) ∧
      (KeysTogether tables v c → VersionOk (valid := valid) (user := user) tables' v' ∧
        ∀ u s before after, valid u → default (vs_last_sequence vs) oldest <= s → newest_of (seen_from tables u s v 0) before → newest_of (seen_from tables' u s v' 0) after →
          value_of after = value_of before))) ∧
  (OutputReliable ops tables_of entries → ∀ d, fresh_globals user d (entry_kv <$> l) →
    ∃ st d', DoCompactionWork_verify ops user v (entry_kv <$> l) (CompactionState_make c oldest vs pending w) d = Some (OK, st, d') ∧
      DoCompactionWork ops user v (yields ((λ e, (e, OK)) <$> l)) OK (CompactionState_make c oldest vs pending w) = Some (OK, st)).
Proof.
  intros HU HO HC Hmax Hfits Hcp Hin. split.
  - destruct (compaction_run (ops := ops) (entries := entries) tables v c l ins final oldest vs pending w HC Hmax Hfits Hin) as (s & st & E & Hedit & Hold & _ & Hnum & Hok & Hrel).
    exists s, st. split; [exact E|]. split; [exact Hold|]. split; [intros HR Hi Hf; specialize (Hrel HR Hi Hf); by destruct s|]. intros Hs. destruct (Hok Hs) as (groups & Hj & Hcl & _ & HD & Hsame & Hnew).
    destruct (install_version tables _ v c (outputs st) l _ _ HD (compact_pointer_ vs) Hcp) as (cp & b & v' & EA & ES & Hs' & Hl').
    exists groups, (tables_with tables (outputs st) groups), cp, b, v'. rewrite Hedit. split; [|split; [|split; [|split; [exact EA|split; [exact ES|split; [exact Hs'|split; [exact Hsame|intros HK; split]]]]]]].
    + apply Forall2_same_length_lookup. split; [by apply (Forall2_length _ _ _ Hcl)|]. intros i o g Ho Hg. destruct (Forall2_lookup_lr _ _ _ _ _ _ Hcl Ho Hg) as (_ & _ & Ht). split; [done|].
      apply (tables_with_out tables (outputs st) groups i); [rewrite Hnum; apply NoDup_seqZ|by apply (Forall2_length _ _ _ Hcl)|done|done].
    + rewrite Hj. apply keep_sub.
    + intros e. rewrite Hj. apply (keep_to_keep valid); [done|apply (ch_level _ _ (cg_chosen _ _ _ _ _ _ _ HC))|done|apply (cg_merged _ _ _ _ _ _ _ HC)|by apply (compacting_entries _ _ _ _ _ _ _ HC)].
    + by apply (after_version tables _ v c (outputs st) l (mjoin groups) _ HD HK).
    + intros u q before after Vu Hq. by apply (after_reads tables _ v c (outputs st) l (mjoin groups) _ HD HK v').
  - intros HR d Hd.
    destruct (compaction_run (ops := ops) (entries := entries) tables v c l _ OK oldest vs pending w HC Hmax Hfits (InputOf_all l)) as (s & st & E & _ & _ & _ & _ & _ & Hrel).
    assert (s = OK) as ->. { assert (Hs : Status_ok s = true) by (apply Hrel; [done|by apply Forall_fmap, Forall_true|done]). by destruct s. }
    assert (Hy : yields ((λ e, (e, OK)) <$> l) = (λ kv, (kv, OK)) <$> (entry_kv <$> l)) by (unfold yields; rewrite <- !list_fmap_compose; done).
    rewrite Hy in E |- *. destruct (verify_same ops user v _ _ d st Hd E) as [d' E']. by exists st, d'.
Qed.

(** Entries sorted by their internal keys are determined by which they are. *)
Lemma sorted_entries_unique (valid : bytes → Prop) (user : Comparator) `{HU : !ComparatorOk valid user} (l k : list Entry) :
  sorted_kvs (internal_valid valid) (InternalKeyComparator user) (entry_kv <$> l) → sorted_kvs (internal_valid valid) (InternalKeyComparator user) (entry_kv <$> k) →
  (∀ e, e ∈ l ↔ e ∈ k) → l = k.
Proof.
  set (R e e' := Compare (InternalKeyComparator user) (entry_ikey e) (entry_ikey e') < 0). intros [Vl Sl] [Vk Sk] He.
  assert (Hs : ∀ m, StronglySorted (key_lt (InternalKeyComparator user)) (entry_kv <$> m) → StronglySorted R m).
  { induction m as [|e m IH]; intros Hm; [constructor|]. rewrite fmap_cons in Hm. apply StronglySorted_inv in Hm as [Hm Hx]. constructor; [by apply IH|].
    rewrite Forall_fmap in Hx. eapply Forall_impl; [exact Hx|]. done. }
  assert (Hval : ∀ m e, Forall (λ kv : bytes * bytes, internal_valid valid kv.1) (entry_kv <$> m) → e ∈ m → internal_valid valid (entry_ikey e)).
  { intros m e Hm Hin. rewrite Forall_fmap in Hm. rewrite Forall_forall in Hm. by apply (Hm e). }
  assert (Hirr : ∀ e, internal_valid valid (entry_ikey e) → ¬ R e e) by (intros e Ve; unfold R; rewrite (Compare_refl (valid := internal_valid valid)) by done; lia).
  assert (Hnd : ∀ m, Forall (λ kv : bytes * bytes, internal_valid valid kv.1) (entry_kv <$> m) → StronglySorted R m → NoDup m).
  { intros m Vm. induction 1 as [|e m Hm IH Hx]; [constructor|]. rewrite fmap_cons in Vm. constructor; [|apply IH; by apply Forall_cons in Vm as [_ ?]]. intros Hin. rewrite Forall_forall in Hx.
    apply (Hirr e); [by apply Forall_cons in Vm as [? _]|by apply Hx]. }
  apply (StronglySorted_unique_strong R); [|by apply Hs..|apply NoDup_Permutation; [apply Hnd; auto..|done]].
  intros x y Hx Hy H1 H2. exfalso. apply (Hirr x); [by apply (Hval l)|]. apply (Compare_trans (valid := internal_valid valid) _ (entry_ikey y)); [by apply (Hval l)|by apply (Hval k)|by apply (Hval l)|done|done].
Qed.

Lemma trivial_done (valid : bytes → Prop) (user : Comparator) `{HU : !ComparatorOk valid user} tables v c l next : Compacting valid user tables v c l next → IsTrivialMove c = true →
  (∀ f g, f ∈ inputs0 c → g ∈ level_files v (level_ c + 1) → number f ≠ number g) → (∀ f, f ∈ inputs0 c → is_u 64 (file_size f)) →
  ∃ o f, inputs0 c = [f] ∧ out_number o = number f ∧ trivial_move_edit c = Some (InstallCompactionResults_edit c [o]) ∧ ∀ smallest, CompactionDone (valid := valid) (user := user) tables tables v c [o] l l smallest.
Proof.
  intros HC Ht Hnum Hsize. pose proof HC as [G1 G2 G3 G4 [G5 G5'] G6 G8 G9 G10]. unfold IsTrivialMove in Ht. apply andb_true_iff in Ht as [[H0%Z.eqb_eq H1%Z.eqb_eq]%andb_true_iff _].
  destruct (inputs0 c) as [|f [|]] eqn:E0; try (unfold zlen in H0; simpl in H0; lia). destruct (inputs1 c) as [|] eqn:E1; [|unfold zlen in H1; simpl in H1; lia].
  assert (Hf : f ∈ level_files v (level_ c)) by (apply (elem_of_sublist (inputs0 c)); [rewrite E0; by left|apply (ch_inputs0 _ _ G3)]).
  pose proof (v_describes _ _ G1 _ _ Hf) as Hd. set (o := {| out_number := number f; out_file_size := file_size f; out_smallest := smallest f; out_largest := largest f |}).
  assert (Hent : entries_of tables (out_meta o) = entries_of tables f) by done.
  assert (Hdo : Describes (valid := valid) (user := user) tables (out_meta o)) by (destruct Hd as [D1 D2 D3 D4]; by split).
  assert (Hel : ∀ e, e ∈ l ↔ e ∈ entries_of tables f).
  { intros e. rewrite G9. cbn [app]. split; [by intros (g & ->%list_elem_of_singleton & He)|]. intros He. exists f. split; [by left|done]. }
  destruct (d_sorted _ _ Hd) as [Hs Hok]. assert (Hl : l = entries_of tables f).
  { apply (sorted_entries_unique valid user); [|done|done]. apply (entries_sorted (valid := valid) (user := user)); [done|]. apply Forall_forall. intros e He%Hel. rewrite Forall_forall in Hok. by apply Hok. }
  exists o, f. split; [done|]. split; [done|]. split; [unfold trivial_move_edit, InstallCompactionResults_edit, AddInputDeletions; by rewrite E0, E1|]. intros smallest.
  destruct (describes_ends tables f Hd) as (e0 & e1 & _ & _ & Es & El & O0 & O1).
  split; [done|done|done| |done|done|done| |done|by intros; left| | | |].
  - intros lev Hlev. rewrite fmap_app. apply NoDup_app. split; [apply G4|]. unfold outs_at. destruct (Z.eqb_spec lev (level_ c + 1)) as [->|]; [|split; [by intros ? ? ?%elem_of_nil|constructor]].
    split; [|apply NoDup_singleton]. intros n (g & -> & Hg)%list_elem_of_fmap Hin%list_elem_of_singleton. apply (Hnum f g); [by left|done|]. by rewrite Hin.
  - intros e. by rewrite E0, E1, Hel; cbn [app]; split; [intros He; exists f; split; [by left|done]|intros (g & ->%list_elem_of_singleton & He)].
  - by apply Forall_singleton.
  - cbn [fmap list_fmap mjoin list_join]. by rewrite app_nil_r, Hent.
  - apply (install_edit_ok tables v c G1 G3); [intros lev g Hg; pose proof (proj2 (G4 lev) g Hg); pose proof (zlen_nonneg l); unfold is_u; lia|]. apply Forall_singleton.
    pose proof (proj2 (G4 _) f Hf). pose proof (zlen_nonneg l).
    split_and!; cbn [out_number out_file_size out_smallest out_largest o]; [unfold is_u; lia|apply Hsize; by left|rewrite Es; by apply (name_ok_entry (valid := valid))|rewrite El; by apply (name_ok_entry (valid := valid))].
  - assert (1 <= zlen l); [|unfold zlen in *; simpl; lia]. rewrite Hl. destruct (d_smallest _ _ Hd) as (x & Hx & _). destruct (entries_of tables f); [done|]. rewrite zlen_cons. pose proof (zlen_nonneg l0). lia.
Qed.

(** [C19] A trivial move keeps the database: when the only input has no overlapping file in the
    next level, moving its metadata there gives a well-formed version, and every read at every
    snapshot finds the same value, provided its level does not split a user key. *)
Theorem trivial_move_correct (valid : bytes → Prop) (user : Comparator) (tables : Z → option (Z * list Entry)) (v : Version) (c : Compaction)
    (l : list Entry) (next : Z) (cp0 : list bytes) :
  ComparatorOk valid user → Compacting valid user tables v c l next → KeysTogether tables v c → IsTrivialMove c = true → zlen cp0 = kNumLevels →
  (∀ f g, f ∈ inputs0 c → g ∈ level_files v (level_ c + 1) → number f ≠ number g) → (∀ f, f ∈ inputs0 c → is_u 64 (file_size f)) →
  ∃ e cp b v', trivial_move_edit c = Some e ∧ Apply user e cp0 (Builder_make v) = Some (cp, b) ∧ SaveTo user b = Some v' ∧ VersionOk (valid := valid) (user := user) tables v' ∧
    ∀ u s before after, valid u → newest_of (seen_from tables u s v 0) before → newest_of (seen_from tables u s v' 0) after → value_of after = value_of before.
Proof.
  intros HU HC HK Ht Hcp Hnum Hsize. destruct (trivial_done valid user tables v c l next HC Ht Hnum Hsize) as (o & _ & _ & _ & Ee & HD).
  destruct (install_version tables tables v c [o] l l 0 (HD 0) cp0 Hcp) as (cp & b & v' & EA & ES & Hs' & Hl').
  exists (InstallCompactionResults_edit c [o]), cp, b, v'. split_and!; [done|done|done|by apply (after_version tables tables v c [o] l l 0 (HD 0) HK)|].
  intros u s before after Vu. by apply (after_reads tables tables v c [o] l l s (HD s) HK v').
Qed.

(** ** Samples *)

(** A version set whose current version has one table, in level 1, due for compaction. *)
Definition sample_vs : VersionSet := {|
  vs_next_file_number := 6; vs_manifest_file_number := 2; vs_last_sequence := 9; vs_log_number := 4; vs_prev_log_number := 0; descriptor_log_ := None;
  versions_ := {| live_ := {[0%nat := (sample_version, 1)]}; current_id := 0; next_id := 1 |}; compact_pointer_ := compact_pointer_ VersionSet_make |}.
Definition sample_hints : Hints := {| size_compaction := true; compaction_level_ := 1; file_to_compact_ := None |}.
Definition sample_compaction : Compaction :=
  {| level_ := 1; max_output_file_size_ := kTargetFileSize; input_version_ := Some 0%nat; edit_ := SetCompactPointer 1 (largest sample_meta) VersionEdit_make;
     inputs0 := [sample_meta]; inputs1 := []; grandparents_ := []; grandparent_index_ := 0; seen_key_ := false; overlapped_bytes_ := 0;
     level_ptrs_ := replicate (Z.to_nat kNumLevels) 0%nat |}.

Lemma sample_files_fine : FilesOk (valid := bytes_ok) (user := BytewiseComparator) sample_version.
Proof. intros l. apply Forall_forall. intros f Hf. apply (describes_FileOk sample_tables). by apply (v_describes _ _ sample_version_ok l). Qed.

Lemma sample_pick : ∃ vs', PickCompaction BytewiseComparator sample_hints sample_vs = Some (Some sample_compaction, vs') ∧ Chosen (user := BytewiseComparator) sample_version sample_compaction.
Proof.
  destruct (PickCompaction_ok (valid := bytes_ok) (user := BytewiseComparator) sample_hints sample_version sample_vs) as (oc & vs' & E & _ & _ & Hc).
  - apply sample_files_fine.
  - split; [intros _; split; [by_compute|done]|done].
  - vm_compute. reflexivity.
  - done.
  - assert (E' : ∃ vs'', PickCompaction BytewiseComparator sample_hints sample_vs = Some (Some sample_compaction, vs'')) by (eexists; vm_compute; reflexivity).
    destruct E' as [vs'' E']. rewrite E in E'. injection E' as -> ->. exists vs''. split; [exact E|]. apply Hc.
Qed.

Lemma sample_inputs e : e ∈ sample_table ↔ ∃ f, f ∈ inputs0 sample_compaction ++ inputs1 sample_compaction ∧ e ∈ entries_of sample_tables f.
Proof.
  cbn [sample_compaction inputs0 inputs1 app]. split; [intros He; exists sample_meta; split; [by left|exact He]|]. intros (f & ->%list_elem_of_singleton & He). exact He.
Qed.

Lemma sample_distinct e e' : e ∈ sample_table → e' ∈ sample_table → e_key e = e_key e' → e_seq e = e_seq e' → e = e'.
Proof.
  unfold sample_table. rewrite !elem_of_cons, !elem_of_nil. intros [->|[->|[->|[->|[]]]]] [->|[->|[->|[->|[]]]]]; cbn [entry_of e_key e_seq]; intros; try done; lia.
Qed.

Lemma sample_sorted : VersionSorted (valid := bytes_ok) (user := BytewiseComparator) sample_version.
Proof.
  split; [done|]. apply level_cases. repeat constructor; by_compute.
Qed.

Lemma sample_compacting : Compacting bytes_ok BytewiseComparator sample_tables sample_version sample_compaction sample_table 6.
Proof.
  destruct sample_pick as (vs' & _ & Hc). split; [apply sample_version_ok|apply sample_sorted|exact Hc| |split; [done|by_compute]| | |apply sample_inputs|by_compute].
  - intros l. split; [|intros f [_ ->]%sample_level; by_compute]. destruct (decide (level_ok l)) as [Hl|Hl]; [revert l Hl; apply level_cases; repeat constructor; by_compute|].
    destruct (clip_level sample_version l) as [->|(l0 & Hl0 & -> & _)]; [done|constructor|]. revert l0 Hl0. apply level_cases. repeat constructor; by_compute.
  - intros l l' f f' e e' [_ ->]%sample_level [_ ->]%sample_level He He'. by apply sample_distinct.
  - repeat constructor; first [left; vm_compute; reflexivity|right; split; [reflexivity|vm_compute; reflexivity]].
Qed.

Lemma sample_together : KeysTogether sample_tables sample_version sample_compaction.
Proof.
  split; intros; intros f g e e' Hf Hg; exfalso; (assert (left_at sample_compaction 1 (level_files sample_version 1) = [] ∧ left_at sample_compaction 2 (level_files sample_version 2) = []) as [E1 E2] by (vm_compute; done));
    [change (level_ sample_compaction) with 1 in Hg; rewrite E1 in Hg|change (level_ sample_compaction + 1) with 2 in Hg; rewrite E2 in Hg]; by apply elem_of_nil in Hg.
Qed.

(** Output files in memory; every table is given the size 100. *)
Definition memory_ops : OutputOps (gmap Z (Z * list (bytes * bytes))) (list (bytes * bytes)) := {|
  NewOutput n w := (OK, [], w);
  Output_Add k x b := Some (b ++ [(k, x)]);
  Output_NumEntries b := zlen b;
  Output_FileSize b := 100 * zlen b;
  Output_Finish n b w := Some (OK, 100, <[n := (100, b)]> w);
  Output_Abandon n b w := (0, w);
  Output_Sync n w := (OK, w);
  Output_Usable n size w := match w !! n with Some _ => OK | None => NotFound [] [] end;
|}.

#[local] Instance memory_ops_ok : OutputOk memory_ops bytes_ok BytewiseComparator (λ w n, w !! n) Some (λ _, True).
Proof.
  split; cbn [memory_ops NewOutput Output_Add Output_NumEntries Output_Finish Output_Abandon Output_Sync Output_Usable]; try done.
  - by intros n w s b w' [= <- <- <-].
  - intros k x b _. eexists. split; [done|]. right. by eexists.
  - by intros b l [= ->].
  - intros n b w _. eexists OK, 100, _. split; [done|]. split; [intros m Hm; by rewrite lookup_insert_ne|]. intros _. split; [by_compute|]. split; [done|]. exists b. split; [done|]. intros s' w'' [= <- <-] _. by rewrite lookup_insert_eq.
Qed.

#[local] Instance memory_ops_reliable : OutputReliable memory_ops (λ w n, w !! n) Some.
Proof.
  split; cbn [memory_ops NewOutput Output_Add Output_Finish Output_Sync Output_Usable]; try done.
  - by intros n b w s size w' _ [= <- _ _].
  - by intros n size kvs w ->.
Qed.

(** The snapshot at 8 sees both entries of a key, of which only the newer is kept. *)
Lemma compaction_correct_witness : ∃ st groups, DoCompactionWork memory_ops BytewiseComparator sample_version (yields ((λ e, (e, OK)) <$> sample_table)) OK
    (CompactionState_make sample_compaction (Some 8) sample_vs ∅ ∅) = Some (OK, st) ∧
  Forall2 (λ o g, cs_world st !! out_number o = Some (out_file_size o, entry_kv <$> g)) (outputs st) groups ∧
  ∀ e, e ∈ mjoin groups ↔ to_keep BytewiseComparator sample_version sample_compaction 8 sample_table e.
Proof.
  destruct (compaction_correct memory_ops bytes_ok BytewiseComparator (λ w n, w !! n) Some (λ _, True) sample_tables sample_version sample_compaction sample_table ((λ e, (e, OK)) <$> sample_table) OK (Some 8) sample_vs ∅ ∅)
    as ((s & st & E & _ & Hrel & Hok) & _).
  - apply _.
  - apply memory_ops_ok.
  - apply sample_compacting.
  - by_compute.
  - done.
  - done.
  - apply InputOf_all.
  - assert (s = OK) as -> by (apply Hrel; [apply memory_ops_reliable|by apply Forall_fmap, Forall_true|done]). destruct (Hok eq_refl) as (groups & tables' & cp & b & v' & Hg & _ & Hk & _).
    exists st, groups. split; [exact E|]. split; [|exact Hk]. eapply Forall2_impl; [exact Hg|]. intros o g Hx. exact (proj1 Hx).
Defined.

Lemma trivial_move_correct_witness : ∃ e cp b v', trivial_move_edit sample_compaction = Some e ∧
  Apply BytewiseComparator e (compact_pointer_ sample_vs) (Builder_make sample_version) = Some (cp, b) ∧ SaveTo BytewiseComparator b = Some v' ∧
  VersionOk (valid := bytes_ok) (user := BytewiseComparator) sample_tables v'.
Proof.
  destruct (trivial_move_correct bytes_ok BytewiseComparator sample_tables sample_version sample_compaction sample_table 6 (compact_pointer_ sample_vs))
    as (e & cp & b & v' & E & EA & ES & HV & _).
  - apply _.
  - apply sample_compacting.
  - apply sample_together.
  - vm_compute. reflexivity.
  - done.
  - intros f g _ Hg. change (level_files sample_version (level_ sample_compaction + 1)) with (@nil FileMetaData) in Hg. by apply elem_of_nil in Hg.
  - intros f ->%list_elem_of_singleton. by_compute.
  - exact (ex_intro _ e (ex_intro _ cp (ex_intro _ b (ex_intro _ v' (conj E (conj EA (conj ES HV))))))).
Defined.

(** ** A user key split over two files *)

(** Level 1 ends one file at the newer entry of a user key and starts the next at the older,
    as a compaction that keeps both for a snapshot may leave it. *)
Definition newer_entry : Entry := entry_of [97] 9 kTypeValue [1].
Definition older_entry : Entry := entry_of [97] 5 kTypeValue [2].
Definition split_file (n : Z) (e : Entry) : FileMetaData :=
  {| refs := 1; allowed_seeks := 100; number := n; file_size := 100; smallest := entry_ikey e; largest := entry_ikey e |}.
Definition split_tables (n : Z) : option (Z * list Entry) := if n =? 3 then Some (100, [newer_entry]) else if n =? 4 then Some (100, [older_entry]) else None.
Definition split_version : Version := {| files_ := [[]; [split_file 3 newer_entry; split_file 4 older_entry]; []; []; []; []; []] |}.
Definition split_set : VersionSet := {|
  vs_next_file_number := 6; vs_manifest_file_number := 2; vs_last_sequence := 9; vs_log_number := 5; vs_prev_log_number := 0; descriptor_log_ := None;
  versions_ := {| live_ := {[0%nat := (split_version, 1)]}; current_id := 0; next_id := 1 |}; compact_pointer_ := compact_pointer_ VersionSet_make |}.

Lemma split_level l f : f ∈ level_files split_version l → l = 1 ∧ (f = split_file 3 newer_entry ∨ f = split_file 4 older_entry).
Proof.
  unfold level_files, split_version. cbn [files_]. destruct (Z.to_nat l) as [|[|n]] eqn:E; simpl.
  - by intros ?%not_elem_of_nil.
  - intros [->|[->|[]%elem_of_nil]%elem_of_cons]%elem_of_cons; (split; [lia|auto]).
  - do 5 (destruct n as [|n]; simpl; [by intros ?%not_elem_of_nil|]). destruct n; by intros ?%not_elem_of_nil.
Qed.

Lemma split_version_ok : VersionOk (valid := bytes_ok) (user := BytewiseComparator) split_tables split_version.
Proof.
  assert (Hd : ∀ n e, (n = 3 ∧ e = newer_entry) ∨ (n = 4 ∧ e = older_entry) → Describes (valid := bytes_ok) (user := BytewiseComparator) split_tables (split_file n e)).
  { intros n e [[-> ->]|[-> ->]]; (split; [by eexists| |by eexists|by eexists]); (split; [split; [repeat constructor; by_compute|repeat constructor]|]); repeat constructor; try (vm_compute; congruence); by_compute. }
  split.
  - done.
  - intros l. destruct (clip_level split_version l) as [->|(l0 & Hl0 & -> & _)]; [done|done|]. revert l0 Hl0. apply level_cases. repeat constructor; by_compute.
  - intros l f [_ [->| ->]]%split_level; apply Hd; auto.
  - intros l Hl. destruct (clip_level split_version l) as [->|(l0 & Hl0 & -> & _)]; [done|constructor|]. revert l0 Hl0. apply level_cases. repeat constructor; by_compute.
  - constructor.
  - intros l l' f f' e e' Hl Hlt [-> _]%split_level [-> _]%split_level. lia.
Qed.

(** The compaction [PickCompaction] makes of it: the first file alone. *)
Definition split_compaction : Compaction :=
  {| level_ := 1; max_output_file_size_ := kTargetFileSize; input_version_ := Some 0%nat; edit_ := SetCompactPointer 1 (entry_ikey newer_entry) VersionEdit_make;
     inputs0 := [split_file 3 newer_entry]; inputs1 := []; grandparents_ := []; grandparent_index_ := 0; seen_key_ := false; overlapped_bytes_ := 0;
     level_ptrs_ := replicate (Z.to_nat kNumLevels) 0%nat |}.

Lemma split_picked : ∃ vs', PickCompaction BytewiseComparator sample_hints split_set = Some (Some split_compaction, vs') ∧ Chosen (user := BytewiseComparator) split_version split_compaction.
Proof.
  destruct (PickCompaction_ok (valid := bytes_ok) (user := BytewiseComparator) sample_hints split_version split_set) as (oc & vs' & E & _ & _ & Hc).
  - intros l. apply Forall_forall. intros f Hf. apply (describes_FileOk split_tables). by apply (v_describes _ _ split_version_ok l).
  - split; [intros _; split; [by_compute|done]|done].
  - vm_compute. reflexivity.
  - done.
  - assert (E' : ∃ vs'', PickCompaction BytewiseComparator sample_hints split_set = Some (Some split_compaction, vs'')) by (eexists; vm_compute; reflexivity).
    destruct E' as [vs'' E']. rewrite E in E'. injection E' as -> ->. exists vs''. split; [exact E|]. apply Hc.
Qed.

Lemma split_compacting : Compacting bytes_ok BytewiseComparator split_tables split_version split_compaction [newer_entry] 6.
Proof.
  destruct split_picked as (vs' & _ & Hc). split; [apply split_version_ok| |exact Hc| |split; [done|by_compute]| |repeat constructor| |by_compute].
  - split; [done|]. apply level_cases. repeat constructor; by_compute.
  - intros l. split; [|intros f [_ [->| ->]]%split_level; by_compute]. destruct (clip_level split_version l) as [->|(l0 & Hl0 & -> & _)]; [done|constructor|].
    revert l0 Hl0. apply level_cases. repeat constructor; by_compute.
  - intros l l' f f' e e' [_ [->| ->]]%split_level [_ [->| ->]]%split_level ->%list_elem_of_singleton ->%list_elem_of_singleton _; done.
  - intros e. rewrite list_elem_of_singleton. split; [intros ->; exists (split_file 3 newer_entry); split; by left|]. by intros (f & ->%list_elem_of_singleton & ->%list_elem_of_singleton).
Qed.

(** [C34] Moving a file down can put a newer entry below an older one: when the moved file has an
    entry of a user key of which a file that stays in its level has an older one, the move is
    installed all the same, leaves the older entry in its level and the newer in the next one,
    which a lookup reaches later, and the version, which was well formed, is not any more.
    The witness is such a move that [PickCompaction] chooses. *)
Theorem trivial_move_hides_newer (valid : bytes → Prop) (user : Comparator) (tables : Z → option (Z * list Entry)) (v : Version) (c : Compaction)
    (l : list Entry) (next : Z) (cp0 : list bytes) (f g : FileMetaData) (e e' : Entry) :
  ComparatorOk valid user → Compacting valid user tables v c l next → IsTrivialMove c = true → zlen cp0 = kNumLevels →
  (∀ f g, f ∈ inputs0 c → g ∈ level_files v (level_ c + 1) → number f ≠ number g) → (∀ f, f ∈ inputs0 c → is_u 64 (file_size f)) →
  f ∈ inputs0 c → e ∈ entries_of tables f → g ∈ level_files v (level_ c) → g ∉ inputs0 c → e' ∈ entries_of tables g → e_key e = e_key e' → e_seq e' < e_seq e →
  ∃ edit cp b v' f', trivial_move_edit c = Some edit ∧ Apply user edit cp0 (Builder_make v) = Some (cp, b) ∧ SaveTo user b = Some v' ∧
    g ∈ level_files v' (level_ c) ∧ f' ∈ level_files v' (level_ c + 1) ∧ e ∈ entries_of tables f' ∧
    VersionOk (valid := valid) (user := user) tables v ∧ ¬ VersionOk (valid := valid) (user := user) tables v'.
Proof.
  intros HU HC Ht Hcp Hnum Hsize Hf He Hg Hout He' Hk Hq. destruct (trivial_done valid user tables v c l next HC Ht Hnum Hsize) as (o & f0 & Ei & Eo & Ee & HD).
  destruct (install_version tables tables v c [o] l l 0 (HD 0) cp0 Hcp) as (cp & b & v' & EA & ES & Hs' & Hl').
  assert (f = f0) as -> by (rewrite Ei in Hf; by apply list_elem_of_singleton in Hf).
  destruct (ch_level _ _ (cg_chosen _ _ _ _ _ _ _ HC)) as [Hl0 Hl1].
  assert (Hleft : g ∈ level_files v' (level_ c)).
  { apply (after_left v c [o] v' Hl'); [unfold level_ok; lia|]. apply (left_files tables tables v c [o] l l 0 (HD 0)); [unfold level_ok; lia|].
    split; [done|]. unfold inputs_at. by rewrite Z.eqb_refl. }
  assert (Hdown : out_meta o ∈ level_files v' (level_ c + 1)) by (apply (after_out tables tables v c [o] l l 0 (HD 0) v' Hl'); by left).
  assert (Heo : e ∈ entries_of tables (out_meta o)) by (unfold entries_of; change (number (out_meta o)) with (out_number o); by rewrite Eo).
  exists (InstallCompactionResults_edit c [o]), cp, b, v', (out_meta o). split_and!; try done; [apply (cg_version _ _ _ _ _ _ _ HC)|].
  intros Hv. pose proof (v_newer _ _ Hv (level_ c) (level_ c + 1) g (out_meta o) e' e ltac:(lia) ltac:(left; lia) Hleft Hdown He' Heo ltac:(done)). lia.
Qed.

(** The first of two files that split a key is picked and moved. *)
Lemma trivial_move_hides_newer_witness : ∃ vs' edit cp b v', PickCompaction BytewiseComparator sample_hints split_set = Some (Some split_compaction, vs') ∧
  trivial_move_edit split_compaction = Some edit ∧ Apply BytewiseComparator edit (compact_pointer_ split_set) (Builder_make split_version) = Some (cp, b) ∧ SaveTo BytewiseComparator b = Some v' ∧
  ¬ VersionOk (valid := bytes_ok) (user := BytewiseComparator) split_tables v'.
Proof.
  destruct split_picked as (vs' & EP & _).
  destruct (trivial_move_hides_newer bytes_ok BytewiseComparator split_tables split_version split_compaction [newer_entry] 6 (compact_pointer_ split_set)
    (split_file 3 newer_entry) (split_file 4 older_entry) newer_entry older_entry) as (edit & cp & b & v' & f' & E & EA & ES & _ & _ & _ & _ & Hv).
  - apply _.
  - apply split_compacting.
  - vm_compute. reflexivity.
  - done.
  - intros f g _ Hg. change (level_files split_version (level_ split_compaction + 1)) with (@nil FileMetaData) in Hg. by apply elem_of_nil in Hg.
  - intros f ->%list_elem_of_singleton. by_compute.
  - by left.
  - by left.
  - change (split_file 4 older_entry ∈ [split_file 3 newer_entry; split_file 4 older_entry]). right. by left.
  - intros H%list_elem_of_singleton. apply (f_equal number) in H. vm_compute in H. discriminate H.
  - by left.
  - done.
  - by_compute.
  - exact (ex_intro _ vs' (ex_intro _ edit (ex_intro _ cp (ex_intro _ b (ex_intro _ v' (conj EP (conj E (conj EA (conj ES Hv))))))))).
Defined.
