(* ===== verification/Flush.v ===== *)
(** * Writing memtables to tables

    Model of [BuildTable] ([App/integration/builder.cpp]) and of the function of [db_impl.cpp]
    that turns a memtable into a table file, [WriteLevel0Table].  The table file is written through the interface [OutputOps] of
    [CompactionWork]; [remove] is [Env::DeleteFile] on the name of a table.  The outer [None] is a
    failed assertion. *)
From S2P Require Import Prelude Coding Comparator DbFormat SkipList Logging Log Status Filename MemTable Compaction Iterator Table VersionEdit Version VersionBuilder VersionSet CompactionPick CompactionInstall CompactionWork DbWrite.
From stdpp Require Import sorting list gmap.

#[local] Open Scope Z_scope.

(** ** The entries of a memtable *)

(** [SeekToFirst] and [Next] of [MemTableIterator] up to the end: the keys and values. *)
Fixpoint memtable_iterate (fuel : nat) (m : MemTable) (pos : option nat) : option (list (bytes * bytes)) :=
  match pos with
  | None => Some []
  | Some x =>
      match fuel with
      | O => None
      | S fuel =>
          k ← MemTableIterator_key m x;
          v ← MemTableIterator_value m x;
          l ← memtable_iterate fuel m (Iterator_Next (table_ m) x);
          Some ((k, v) :: l)
      end
  end.
Definition memtable_kvs (m : MemTable) : option (list (bytes * bytes)) :=
  memtable_iterate (length (nodes (table_ m))) m (Iterator_SeekToFirst (table_ m)).

Section Flush.
Context {W B : Type} (ops : OutputOps W B) (remove : Z → W → W) (user : Comparator).

(** ** Building the table *)

Fixpoint build_loop (kvs : list (bytes * bytes)) (largest : bytes) (b : B) : option (bytes * B) :=
  match kvs with
  | [] => Some (largest, b)
  | (key, value) :: kvs => b ← Output_Add ops key value b; build_loop kvs key b
  end.

(** The status, [meta] with its size and ends, and the world; the iterator of a memtable has no
    errors. *)
Definition BuildTable (number : Z) (kvs : list (bytes * bytes)) (w : W) : option (Status * Output * W) :=
  let meta size lo hi := {| out_number := number; out_file_size := size; out_smallest := lo; out_largest := hi |} in
  match kvs with
  | [] => Some (OK, meta 0 [] [], remove number w)
  | (key, _) :: _ =>
      let '(s, b, w) := NewOutput ops number w in
      if negb (Status_ok s) then Some (s, meta 0 [] [], w)
      else
        '(largest, b) ← build_loop kvs [] b;
        '(s, size, w) ← Output_Finish ops number b w;
        let file_size := if Status_ok s then size else 0 in
        if Status_ok s && (file_size <=? 0) then None
        else
          let '(s, w) := if Status_ok s then Output_Sync ops number w else (s, w) in
          let s := if Status_ok s then Output_Usable ops number file_size w else s in
          Some (s, meta file_size key largest, if Status_ok s && (0 <? file_size) then w else remove number w)
  end.

(** ** Adding it to the version *)

(** The status and the edit, with the file numbers used and protected. *)
Definition WriteLevel0Table (m : MemTable) (edit : VersionEdit) (base : option Version) (vs : VersionSet) (pending : gset Z) (w : W) :
    option (Status * VersionEdit * VersionSet * gset Z * W) :=
  let '(number, vs) := NewFileNumber vs in
  let pending := {[number]} ∪ pending in
  kvs ← memtable_kvs m;
  '(s, meta, w) ← BuildTable number kvs w;
  let pending := pending ∖ {[number]} in
  if Status_ok s && (0 <? out_file_size meta) then
    level ← (match base with
             | Some base => PickLevelForMemTableOutput user base (ExtractUserKey (out_smallest meta)) (ExtractUserKey (out_largest meta))
             | None => Some 0
             end);
    Some (s, AddFile level (out_number meta) (out_file_size meta) (out_smallest meta) (out_largest meta) edit, vs, pending, w)
  else Some (s, edit, vs, pending, w).
End Flush.

(** ** What the memtable iterator yields *)

(** Two entries of a key have different sequence numbers. *)
Definition Distinct (E : list Entry) : Prop := ∀ e e', e ∈ E → e' ∈ E → e_key e = e_key e' → e_seq e = e_seq e' → e = e'.

Section Contents.
Context {valid : bytes → Prop} {user : Comparator} `{HU : !ComparatorOk valid user}.

Lemma iterator_value m x e : key_of (table_ m) x = Some (entry_bytes e) → entry_ok valid e → MemTableIterator_value m x = Some (e_value e).
Proof using Type.
  intros Hk He. unfold MemTableIterator_value. rewrite Hk, (entry_bytes_unfold (valid := valid)) by done. destruct He as (_ & _ & Hl & Hv).
  rewrite GetVarint32_at_Encode by (unfold entry_ikey; rewrite zlen_ikey; pose proof (zlen_nonneg (e_key e)); unfold is_u; lia).
  rewrite drop_app_length' by (unfold zlen; lia). rewrite <- (GetLengthPrefixedSlice_ptr_app (e_value e) [] Hv). by rewrite app_nil_r.
Qed.

Lemma memtable_iterate_ok m es : Forall (entry_ok valid) es → ∀ c1 c2, SkipList.Inv (entry_valid (valid := valid)) (table_ m) (c1 ++ c2) →
  keys (table_ m) c2 = entry_bytes <$> es → ∀ fuel, (length c2 <= fuel)%nat → memtable_iterate fuel m (head c2) = Some (entry_kv <$> es).
Proof using HU.
  intros Hok. induction Hok as [|e es He _ IH]; intros c1 c2 HI Hk fuel Hf.
  - destruct c2 as [|x c2]; [by destruct fuel|]. exfalso. destruct (inv_node _ _ _ HI x) as (_ & _ & k & Hx & _); [apply elem_of_app; right; left|]. cbn in Hk. by rewrite Hx in Hk.
  - destruct c2 as [|x c2]; [done|]. destruct fuel as [|fuel]; [simpl in Hf; lia|]. destruct (inv_node _ _ _ HI x) as (_ & _ & k & Hx & _); [apply elem_of_app; right; left|].
    cbn [keys omap list_omap] in Hk. rewrite Hx in Hk. rewrite fmap_cons in Hk. injection Hk as -> Hk. cbn [memtable_iterate head].
    rewrite (Iterator_Next_spec _ _ c1 x c2 HI), (iterator_value m x e Hx He). unfold MemTableIterator_key. rewrite Hx. cbn [mbind option_bind].
    rewrite (entry_bytes_ikey (valid := valid)) by done. cbn [mbind option_bind].
    rewrite (IH (c1 ++ [x]) c2); [done|by rewrite <- app_assoc|exact Hk|simpl in Hf; lia].
Qed.

(** The iterator of a memtable yields its entries in order. *)
Lemma memtable_kvs_ok m E : MemInv valid user m E → Distinct E →
  ∃ es, memtable_kvs m = Some (entry_kv <$> es) ∧ es ≡ₚ E ∧ StronglySorted (entry_lt (user := user)) es ∧ Forall (entry_ok valid) es.
Proof using HU.
  intros (_ & HE & Hc & es & Hp & (HO & c & HI & Hk)) Hd. exists es. assert (Hok : Forall (entry_ok valid) es) by (by rewrite Hp).
  split; [|split; [done|split; [|done]]].
  - unfold memtable_kvs. assert (Iterator_SeekToFirst (table_ m) = head c) as ->.
    { unfold Iterator_SeekToFirst. rewrite (inv_link _ _ _ HI [] head_ c eq_refl 0) by (rewrite (inv_head _ _ _ HI); unfold kMaxHeight; lia).
      apply (first_above_0_B _ _ [] c HI). }
    apply (memtable_iterate_ok m es Hok [] c HI Hk). rewrite (inv_length _ _ _ HI). lia.
  - pose proof (keys_sorted _ _ _ HI) as Hs. rewrite Hk, Hc in Hs. assert (Hsub : ∀ e, e ∈ es → e ∈ E) by (intros e; by rewrite Hp). clear HI Hk Hp HE HO Hc.
    induction Hok as [|e es He Hok IH]; [constructor|]. rewrite fmap_cons in Hs. apply StronglySorted_inv in Hs as [Hs Hx].
    constructor; [apply IH; [done|intros; apply Hsub; by right]|]. rewrite Forall_fmap in Hx. rewrite Forall_forall in Hx, Hok |- *. intros e' He'. specialize (Hx e' He'). simpl in Hx.
    destruct (sorted_after e e' He (Hok e' He') Hx) as [?|[Hkey Hq]]; [by left|right; split; [done|]].
    destruct (decide (e_seq e = e_seq e')) as [Heq|]; [|lia]. exfalso. assert (e = e') as <- by (apply Hd; [apply Hsub; left|apply Hsub; by right|done|done]).
    pose proof (order_swap (valid := entry_valid (valid := valid)) (cmp := KeyComparator user) (entry_bytes e) (entry_bytes e) (entry_bytes_valid e He) (entry_bytes_valid e He)). lia.
Qed.
End Contents.

(** ** A table is built *)

Section BuildOk.
Context {W B : Type} {ops : OutputOps W B} {remove : Z → W → W} {valid : bytes → Prop} {user : Comparator} `{HU : !ComparatorOk valid user}.
Context {tables_of : W → Z → option (Z * list (bytes * bytes))} {entries : B → option (list (bytes * bytes))} {fits : list (bytes * bytes) → Prop}.
Context `{HO : !OutputOk ops valid user tables_of entries fits}.
Abbreviation sorted l := (sorted_kvs (internal_valid valid) (InternalKeyComparator user) (entry_kv <$> l)).
Abbreviation reliable := (OutputReliable ops tables_of entries).

Lemma sorted_prefix (l k : list Entry) : sorted (l ++ k) → sorted l.
Proof using Type.
  rewrite fmap_app. intros [Hv Hs]. apply Forall_app in Hv as [Hv _]. split; [done|]. eapply StronglySorted_sublist_of; [|exact Hs]. by apply sublist_inserts_r.
Qed.

(** The builder has all the entries, or a write has failed. *)
Lemma build_loop_ok es : ∀ pre b largest, Holding (ops := ops) (tables_of := tables_of) (entries := entries) b pre True → sorted (pre ++ es) → fits (entry_kv <$> pre ++ es) →
  ∃ b', build_loop ops (entry_kv <$> es) largest b = Some (from_option entry_ikey largest (last es), b') ∧ Holding (ops := ops) (tables_of := tables_of) (entries := entries) b' (pre ++ es) True.
Proof using HO.
  induction es as [|e es IH]; intros pre b largest He Hs Hf; [exists b; by rewrite app_nil_r|]. cbn [fmap list_fmap build_loop entry_kv].
  replace (pre ++ e :: es) with ((pre ++ [e]) ++ es) in * by (by rewrite <- app_assoc).
  destruct (oo_add (ops := ops) (entry_ikey e) (e_value e) b) as (b' & Ea & He').
  - intros l El. destruct He as [[He _]|[He _]]; [congruence|]. rewrite He in El. injection El as <-. split; [apply sorted_prefix in Hs; by rewrite fmap_app in Hs|].
    eapply oo_fits; [|exact Hf]. rewrite !fmap_app. by apply sublist_inserts_r.
  - rewrite Ea. cbn [mbind option_bind]. destruct (IH (pre ++ [e]) b' (entry_ikey e)) as (b'' & -> & He''); [|done|done|].
    { destruct He as [[He Hn]|[He _]].
      - left. split; [|done]. destruct He' as [?|(l & El & _)]; [done|congruence].
      - destruct He' as [En|(l & El & En)]; [left|right; rewrite He in El; injection El as <-; by rewrite En, fmap_app]. split; [done|]. intros HR.
        destruct (or_add (ops := ops) (tables_of := tables_of) (entries := entries) _ _ b b' ltac:(rewrite He; by eexists) Ea) as [? ?]. congruence. }
    exists b''. split; [|done]. rewrite last_cons. by destruct (last es).
Qed.

(** Building from sorted entries returns; with OK, they are all written, and the ends recorded.
    [P] are the tables that deleting this one leaves. *)
Lemma BuildTable_ok (P : Z → Prop) n es w : es ≠ [] → sorted es → fits (entry_kv <$> es) → (∀ w m, m ≠ n → P m → tables_of (remove n w) m = tables_of w m) →
  ∃ s o w', BuildTable ops remove n (entry_kv <$> es) w = Some (s, o, w') ∧ out_number o = n ∧ (∀ m, m ≠ n → P m → tables_of w' m = tables_of w m) ∧
    (Status_ok s = true → 0 < out_file_size o ∧ Closed (tables_of := tables_of) w' o es) ∧ (reliable → s = OK).
Proof using HO.
  intros Hne Hs Hf Hrem. destruct es as [|e es]; [done|]. unfold BuildTable. cbn [fmap list_fmap entry_kv].
  destruct (NewOutput ops n w) as [[s1 b] w1] eqn:En. destruct (oo_new (ops := ops) (valid := valid) (user := user) (tables_of := tables_of) (entries := entries) (fits := fits) n w s1 b w1 En) as [Hb Hfr].
  assert (Hr1 : reliable → s1 = OK) by (intros HR; pose proof (or_new (ops := ops) n w) as Hx; by rewrite En in Hx).
  destruct (Status_ok s1) eqn:E1; cbn [negb]; [|eexists s1, _, w1; split; [done|]; split; [done|]; split; [by intros; apply Hfr|]; split; [congruence|done]].
  destruct (build_loop_ok (e :: es) [] b []) as (b' & E & Hb'); [right; split; [by apply Hb|done]|done|done|]. cbn [fmap list_fmap entry_kv] in E. rewrite E. cbn [mbind option_bind].
  destruct (oo_finish (ops := ops) n b' w1) as (s2 & size & w2 & Ef & Hfr2 & Hok2).
  { intros l El. destruct Hb' as [[Hb' _]|[Hb' _]]; [congruence|]. rewrite Hb' in El. by injection El as <-. }
  assert (Hr2 : reliable → s2 = OK).
  { intros HR. destruct Hb' as [[_ Hn]|[Hb' _]]; [done|]. apply (or_finish (ops := ops) (tables_of := tables_of) (entries := entries) n b' w1 s2 size w2); [by rewrite Hb'; eexists|done]. }
  rewrite Ef. cbn [mbind option_bind]. destruct (Status_ok s2) eqn:E2; cbn [andb].
  - destruct (Hok2 eq_refl) as (Hz & Hpos & l & El & Hsync). destruct (Z.leb_spec size 0); [lia|]. destruct (Output_Sync ops n w2) as [s3 w3] eqn:E3.
    assert (Hfr3 : ∀ m, m ≠ n → tables_of w3 m = tables_of w m).
    { intros m Hm. pose proof (oo_sync (ops := ops) (valid := valid) (user := user) (tables_of := tables_of) (entries := entries) (fits := fits) n w2 m Hm) as Hx.
      rewrite E3 in Hx. cbn [snd] in Hx. by rewrite Hx, Hfr2, Hfr. }
    assert (Hl : l = entry_kv <$> e :: es) by (destruct Hb' as [[Hb' _]|[Hb' _]]; [congruence|]; rewrite Hb' in El; by injection El as <-).
    set (s4 := if Status_ok s3 then Output_Usable ops n size w3 else s3). assert (H4 : Status_ok s4 = true → Status_ok s3 = true) by (unfold s4; destruct (Status_ok s3) eqn:Ex; [done|congruence]).
    exists s4. rewrite (proj2 (Z.ltb_lt 0 size) Hpos), andb_true_r. eexists _, _. split; [done|]. split; [done|]. split; [intros m Hm Hu; destruct (Status_ok s4); [by apply Hfr3|rewrite Hrem by done; by apply Hfr3]|]. split.
    + intros Hs4. rewrite Hs4. pose proof (Hsync s3 w3 eq_refl (H4 Hs4)) as Ht. split; [done|]. split; [split; cbn [out_smallest out_largest]|split; [done|cbn [out_number out_file_size]; by rewrite Ht, Hl]].
      * by exists e.
      * rewrite last_cons. destruct (last es) as [x|]; [exists x; done|exists e; done].
    + intros HR. pose proof (or_sync (ops := ops) n w2) as Hx. rewrite E3 in Hx. cbn [fst] in Hx. unfold s4. rewrite Hx. cbn [Status_ok OK].
      apply (or_usable (ops := ops) (tables_of := tables_of) n size l). apply (Hsync s3); [done|by rewrite Hx].
  - exists s2. rewrite E2. cbn [andb]. eexists _, _. split; [done|]. split; [done|]. split; [intros m Hm Hu; rewrite E2; cbn [andb]; rewrite Hrem by done; by rewrite Hfr2, Hfr|]. split; [done|]. exact Hr2.
Qed.
End BuildOk.

(** ** The table joins the version *)

Section FlushVersion.
Context {valid : bytes → Prop} {user : Comparator} `{HU : !ComparatorOk valid user}.
Context (tables tables' : Z → option (Z * list Entry)) (v : Version) (es : list Entry) (o : Output) (L : Z).
Abbreviation icmp := (InternalKeyComparator user).
Abbreviation VersionOk := (VersionOk (valid := valid) (user := user)).
Abbreviation Describes := (Describes (valid := valid) (user := user)).

(** The table [o] of the entries [es] was written, and the level [L] chosen for it in [v]. *)
Record Flushed : Prop := {
  fl_version : VersionOk tables v;
  fl_sorted : VersionSorted (valid := valid) (user := user) v;
  fl_numbers l : NoDup (number <$> level_files v l) ∧ ∀ f, f ∈ level_files v l → number f < out_number o;
  fl_same l f : f ∈ level_files v l → tables' (number f) = tables (number f);
  fl_table : tables' (out_number o) = Some (out_file_size o, es);
  fl_describes : Describes tables' (out_meta o);
  fl_newer l f e e' : f ∈ level_files v l → e' ∈ entries_of tables f → e ∈ es → e_key e = e_key e' → e_seq e' < e_seq e;
  fl_level : 0 <= L <= kMaxMemCompactLevel;
  fl_above : 0 < L → ∀ l f, 0 <= l <= L → f ∈ level_files v l →
    AfterFile user (Some (ExtractUserKey (out_smallest o))) f = true ∨ BeforeFile user (Some (ExtractUserKey (out_largest o))) f = true;
  fl_room : zlen (level_files v L) + 1 < 2 ^ 31;
}.
Context (HF : Flushed).
Abbreviation new_at l := (if l =? L then [out_meta o] else []).

Lemma new_entries : entries_of tables' (out_meta o) = es.
Proof using HF. unfold entries_of. change (number (out_meta o)) with (out_number o). by rewrite (fl_table HF). Qed.

Lemma old_entries l f : f ∈ level_files v l → entries_of tables' f = entries_of tables f.
Proof using HF. intros Hf. unfold entries_of. by rewrite (fl_same HF l f Hf). Qed.

Lemma old_described l f : f ∈ level_files v l → Describes tables' f.
Proof using HF.
  intros Hf. destruct (v_describes _ _ (fl_version HF) l f Hf) as [D1 D2 D3 D4]. split; rewrite ?(old_entries l f Hf); try done. by rewrite (fl_same HF l f Hf).
Qed.

(** Below level 0, the files at and above the chosen level are before or after the table. *)
Lemma user_apart l f : 0 < L → 0 <= l <= L → f ∈ level_files v l →
  Compare user (ExtractUserKey (largest f)) (ExtractUserKey (out_smallest o)) < 0 ∨ Compare user (ExtractUserKey (out_largest o)) (ExtractUserKey (smallest f)) < 0.
Proof using HF HU.
  intros HL Hl Hf. destruct (describes_FileOk tables f (v_describes _ _ (fl_version HF) l f Hf)) as [_ (_ & _ & V) _ _ _].
  destruct (describes_FileOk tables' _ (fl_describes HF)) as [(_ & _ & V') _ _ _ _].
  destruct (fl_above HF HL l f Hl Hf) as [H|H]; [left|right; by apply Z.ltb_lt]. cbn [AfterFile] in H. apply Z.ltb_lt in H.
  pose proof (Compare_swap (valid := valid) (c := user) _ _ V V'). change (smallest (out_meta o)) with (out_smallest o) in *. lia.
Qed.

Lemma no_shared_key l f e e' : 0 < L → 0 <= l <= L → f ∈ level_files v l → e' ∈ entries_of tables f → e ∈ es → e_key e ≠ e_key e'.
Proof using HF HU.
  intros HL Hl Hf He' He Hk. destruct (user_le tables f e' (v_describes _ _ (fl_version HF) l f Hf) He') as (V1 & V2 & V3 & H1 & H2).
  destruct (user_le tables' (out_meta o) e (fl_describes HF)) as (V4 & V5 & V6 & H3 & H4); [by rewrite new_entries|]. rewrite Hk in *.
  change (smallest (out_meta o)) with (out_smallest o) in *. change (largest (out_meta o)) with (out_largest o) in *.
  destruct (user_apart l f HL Hl Hf) as [H|H].
  - pose proof (Compare_lt_le (valid := valid) (c := user) _ _ _ V2 V4 V3 H H3). pose proof (Compare_swap (valid := valid) (c := user) _ _ V2 V3). lia.
  - pose proof (Compare_lt_le (valid := valid) (c := user) _ _ _ V5 V1 V3 H H1). pose proof (Compare_swap (valid := valid) (c := user) _ _ V5 V3). lia.
Qed.

Lemma flush_level l F edit : deleted_files_ edit = [] → new_files_ edit = [(L, FileMetaData_make (out_number o) (out_file_size o) (out_smallest o) (out_largest o))] →
  added_at l edit = new_at l ∧ edit_level l F edit = F ++ new_at l.
Proof using Type.
  intros Hd Hn. assert (Ha : added_at l edit = new_at l).
  { unfold added_at. rewrite Hn. cbn [List.filter fst]. rewrite (Z.eqb_sym l L). by destruct (L =? l). }
  split; [done|]. unfold edit_level. rewrite Ha. f_equal. unfold deleted_at. rewrite Hd. induction F as [|f F IH]; [done|]. cbn [List.filter].
  rewrite bool_decide_eq_false_2 by (by intros ?%elem_of_nil). cbn [negb]. by rewrite IH.
Qed.

Lemma flush_apart l : 0 < l < kNumLevels → Apart (valid := valid) (user := user) (level_files v l ++ new_at l).
Proof using HF HU.
  intros Hl. pose proof (v_disjoint _ _ (fl_version HF) l ltac:(lia)) as Hd. split.
  - apply Forall_app. split; [apply Forall_forall; intros f Hf; by apply (describes_FileOk tables), (v_describes _ _ (fl_version HF) l)|].
    destruct (l =? L); [|done]. apply Forall_singleton. apply (describes_FileOk tables'), (fl_describes HF).
  - assert (Hmix : ∀ f g, f ∈ level_files v l → g ∈ new_at l → Compare icmp (largest f) (smallest g) < 0 ∨ Compare icmp (largest g) (smallest f) < 0).
    { intros f g Hf Hg. destruct (Z.eqb_spec l L) as [->|]; [|by apply elem_of_nil in Hg]. apply list_elem_of_singleton in Hg as ->.
      destruct (user_apart L f ltac:(lia) ltac:(lia) Hf) as [H|H]; [left|right]; by apply user_lt_icmp. }
    intros f g Hf Hg Hn. apply elem_of_app in Hf as [Hf|Hf]; apply elem_of_app in Hg as [Hg|Hg].
    + apply (sorted_either _ (level_files v l) f g Hd Hf Hg). by intros ->.
    + by apply Hmix.
    + destruct (Hmix g f Hg Hf); auto.
    + destruct (l =? L); [|by apply elem_of_nil in Hf]. apply list_elem_of_singleton in Hf as ->, Hg as ->. done.
Qed.

Lemma flush_version edit cp : deleted_files_ edit = [] → new_files_ edit = [(L, FileMetaData_make (out_number o) (out_file_size o) (out_smallest o) (out_largest o))] →
  EditOk edit → zlen cp = kNumLevels →
  ∃ cp' b v', Apply user edit cp (Builder_make v) = Some (cp', b) ∧ SaveTo user b = Some v' ∧ VersionSorted (valid := valid) (user := user) v' ∧
    ∀ l, level_ok l → level_files v' l ≡ₚ level_files v l ++ new_at l ∧ ChainOk (user := user) l (level_files v' l).
Proof using HF HU.
  intros Hd Hn He Hcp. assert (Hfresh : NumbersFresh v [edit]).
  { intros l Hl. change (all_added l [edit]) with (added_at l edit ++ []). rewrite app_nil_r, (proj1 (flush_level l [] edit Hd Hn)), fmap_app.
    destruct (fl_numbers HF l) as [N1 N2]. apply NoDup_app. split; [done|]. destruct (l =? L); [|split; [by intros ? ? ?%elem_of_nil|constructor]].
    split; [|apply NoDup_singleton]. intros n (f & -> & Hf)%list_elem_of_fmap Hx%list_elem_of_singleton. specialize (N2 f Hf). change (number (out_meta o)) with (out_number o) in Hx. lia. }
  destruct (Apply_ok (valid := valid) (user := user) edit cp (Builder_make v) v []) as (cp' & b & EA & HB & _); [apply Builder_make_inv|done|done|done| |].
  { rewrite Hn. apply Forall_singleton. by destruct (describes_FileOk tables' _ (fl_describes HF)) as [V _ _ _ _]. }
  destruct (SaveTo_ok b v [edit] HB (fl_sorted HF) Hfresh) as (v' & EV & Hs & Hl').
  { intros l Hl. cbn [edit_levels foldl]. rewrite (proj2 (flush_level l _ edit Hd Hn)). by apply flush_apart. }
  exists cp', b, v'. split_and!; try done. intros l Hl. destruct (Hl' l Hl) as [Hp Hc]. split; [|done]. rewrite Hp. cbn [edit_levels foldl]. by rewrite (proj2 (flush_level l _ edit Hd Hn)).
Qed.

Section After.
Context (v' : Version) (Hsorted : VersionSorted (valid := valid) (user := user) v').
Context (Hlevels : ∀ l, level_ok l → level_files v' l ≡ₚ level_files v l ++ new_at l ∧ ChainOk (user := user) l (level_files v' l)).

Lemma flush_level_ok : level_ok L.
Proof using HF. destruct (fl_level HF). unfold level_ok, kNumLevels, kMaxMemCompactLevel in *. lia. Qed.

Lemma flushed_file l f : level_ok l → f ∈ level_files v' l ↔ f ∈ level_files v l ∨ (l = L ∧ f = out_meta o).
Proof using Hlevels.
  intros Hl. rewrite (proj1 (Hlevels l Hl)), elem_of_app. destruct (Z.eqb_spec l L); rewrite ?list_elem_of_singleton, ?elem_of_nil; naive_solver.
Qed.

Lemma flushed_clip l f : f ∈ level_files v' l → ∃ l0, level_ok l0 ∧ f ∈ level_files v' l0 ∧ (0 <= l → l0 = l).
Proof using Hsorted.
  intros Hf. destruct (clip_level v' l (vs_levels _ Hsorted)) as [E|(l0 & Hl0 & E & Heq)]; rewrite E in Hf; [by apply elem_of_nil in Hf|]. eauto.
Qed.

Lemma flushed_version : VersionOk tables' v'.
Proof using HF HU Hsorted Hlevels.
  pose proof (fl_version HF) as Hv. pose proof Hsorted as [Hlen _]. pose proof flush_level_ok as HL. split.
  - unfold zlen in Hlen. rewrite <- Hlen. by rewrite Nat2Z.id.
  - intros l. destruct (clip_level v' l Hlen) as [->|(l0 & Hl0 & -> & _)]; [done|]. unfold zlen. rewrite (proj1 (Hlevels l0 Hl0)), length_app.
    pose proof (v_size _ _ Hv l0) as Hz. pose proof (fl_room HF) as Hr. unfold zlen in *. destruct (Z.eqb_spec l0 L) as [->|]; simpl; lia.
  - intros l f (l0 & Hl0 & Hf & _)%flushed_clip. apply flushed_file in Hf as [Hf|[_ ->]]; [by apply (old_described l0)|apply (fl_describes HF)|done].
  - intros l Hl. destruct (clip_level v' l Hlen) as [->|(l0 & Hl0 & _ & Heq)]; [constructor|]. rewrite (Heq ltac:(lia)) in Hl0. by apply (proj2 (Hlevels l Hl0)).
  - rewrite (proj1 (Hlevels 0 ltac:(unfold level_ok, kNumLevels; lia))), fmap_app. destruct (fl_numbers HF 0) as [N1 N2]. apply NoDup_app. split; [done|].
    destruct (0 =? L); [|split; [by intros ? ? ?%elem_of_nil|constructor]]. split; [|apply NoDup_singleton].
    intros n (f & -> & Hf)%list_elem_of_fmap Hx%list_elem_of_singleton. specialize (N2 f Hf). change (number (out_meta o)) with (out_number o) in Hx. lia.
  - intros l l' f f' e e' Hl Hll Hf Hf' He He' Hk. assert (Hl' : 0 <= l') by lia.
    apply flushed_clip in Hf as (l0 & Hok & Hf & E). rewrite (E Hl) in *. apply flushed_clip in Hf' as (l1 & Hok' & Hf' & E'). rewrite (E' Hl') in *. clear l0 l1 E E'.
    apply flushed_file in Hf as [Hf|[-> ->]]; [| |done]; (apply flushed_file in Hf' as [Hf'|[-> ->]]; [| |done]).
    + rewrite (old_entries l f Hf) in He. rewrite (old_entries l' f' Hf') in He'. by apply (v_newer _ _ Hv l l' f f').
    + rewrite (old_entries l f Hf) in He. rewrite new_entries in He'. destruct Hll as [Hll|(-> & E & Hn)].
      * by destruct (no_shared_key l f e' e ltac:(lia) ltac:(lia) Hf He He').
      * pose proof (proj2 (fl_numbers HF 0) f Hf). change (number (out_meta o)) with (out_number o) in Hn. lia.
    + rewrite new_entries in He. rewrite (old_entries l' f' Hf') in He'. by apply (fl_newer HF l' f').
    + lia.
Qed.

(** The version shows what it did, and the entries of the memtable. *)
Lemma flushed_seen u s e : seen_from tables' u s v' 0 e ↔ seen_from tables u s v 0 e ∨ (e ∈ es ∧ e_key e = u ∧ e_seq e <= s).
Proof using HF Hlevels.
  pose proof flush_level_ok as HL. split.
  - intros (l & Hl & f & Hf & He & Hk). apply flushed_file in Hf as [Hf|[-> ->]]; [| |done].
    + left. exists l. split; [done|]. exists f. by rewrite <- (old_entries l f Hf).
    + right. by rewrite new_entries in He.
  - intros [(l & Hl & f & Hf & He & Hk)|(He & Hk)].
    + exists l. split; [done|]. exists f. rewrite (old_entries l f Hf). split; [|done]. apply flushed_file; [done|by left].
    + exists L. split; [done|]. exists (out_meta o). rewrite new_entries. split; [|done]. apply flushed_file; [done|by right].
Qed.
End After.
End FlushVersion.

(** ** Writing a memtable of a version *)

(** A version and the entries of a memtable newer than its own; the numbers from [next] on are free. *)
Record Flushing (valid : bytes → Prop) (user : Comparator) (tables : Z → option (Z * list Entry)) (v : Version) (E : list Entry) (next : Z) : Prop := {
  fg_version : VersionOk (valid := valid) (user := user) tables v;
  fg_sorted : VersionSorted (valid := valid) (user := user) v;
  fg_numbers l : NoDup (number <$> level_files v l) ∧ ∀ f, f ∈ level_files v l → 0 <= number f < next;
  fg_next : 0 < next ∧ next + 1 < 2 ^ 64;
  fg_newer l f e e' : f ∈ level_files v l → e' ∈ entries_of tables f → e ∈ E → e_key e = e_key e' → e_seq e' < e_seq e;
  fg_room l : 0 <= l <= kMaxMemCompactLevel → zlen (level_files v l) + 1 < 2 ^ 31;
}.

Section WriteOk.
Context {W B : Type} {ops : OutputOps W B} {remove : Z → W → W} {valid : bytes → Prop} {user : Comparator} `{HU : !ComparatorOk valid user}.
Context {tables_of : W → Z → option (Z * list (bytes * bytes))} {entries : B → option (list (bytes * bytes))} {fits : list (bytes * bytes) → Prop}.
Context `{HO : !OutputOk ops valid user tables_of entries fits}.

(** What a write that succeeded has done. *)
Definition written (tables : Z → option (Z * list Entry)) (v : Version) (E : list Entry) (n : Z) (edit edit' : VersionEdit) (w' : W) : Prop :=
  ∃ es o L, edit' = AddFile L (out_number o) (out_file_size o) (out_smallest o) (out_largest o) edit ∧
    es ≡ₚ E ∧ out_number o = n ∧ Closed (tables_of := tables_of) w' o es ∧ output_ok o ∧ Flushed (valid := valid) (user := user) tables (tables_with tables [o] [es]) v es o L.

Lemma WriteLevel0Table_ok tables v m E edit vs pending w : Flushing valid user tables v E (vs_next_file_number vs) → MemInv valid user m E → Distinct E → E ≠ [] →
  (∀ es, es ≡ₚ E → fits (entry_kv <$> es)) → (∀ w m, m ≠ vs_next_file_number vs → is_u 64 m → tables_of (remove (vs_next_file_number vs) w) m = tables_of w m) →
  ∃ s edit' w', WriteLevel0Table ops remove user m edit (Some v) vs pending w = Some (s, edit', (NewFileNumber vs).2, ({[vs_next_file_number vs]} ∪ pending) ∖ {[vs_next_file_number vs]}, w') ∧
    (∀ n, n ≠ vs_next_file_number vs → is_u 64 n → tables_of w' n = tables_of w n) ∧ (Status_ok s = true → written tables v E (vs_next_file_number vs) edit edit' w') ∧
    (OutputReliable ops tables_of entries → s = OK).
Proof using HU HO.
  intros HF HM Hd Hne Hfits Hrem. destruct (memtable_kvs_ok m E HM Hd) as (es & Ek & Hp & Hs & Hok). pose proof HF as [G1 G2 G3 [G4 G4'] G5 G6].
  assert (Hes : es ≠ []) by (intros ->; apply Hne; by apply Permutation_nil_l in Hp).
  destruct (BuildTable_ok (ops := ops) (remove := remove) (valid := valid) (user := user) (tables_of := tables_of) (entries := entries) (fits := fits) (is_u 64) (vs_next_file_number vs) es w)
    as (s & o & w' & EB & Hn & Hfr & Hs' & Hrel); [done|by apply entries_sorted|by apply Hfits|done|].
  unfold WriteLevel0Table. cbn [NewFileNumber]. rewrite Ek. cbn [mbind option_bind]. rewrite EB. cbn [mbind option_bind].
  destruct (Status_ok s) eqn:Es; cbn [andb]; [|eexists s, edit, w'; split; [done|]; split; [done|]; split; [congruence|done]]. destruct (Hs' eq_refl) as [Hpos Hcl].
  set (tables' := tables_with tables [o] [es]).
  assert (Ht : tables' (out_number o) = Some (out_file_size o, es)) by (apply (tables_with_out tables [o] [es] 0); [apply NoDup_singleton|done..]).
  assert (Hdesc : Describes (valid := valid) (user := user) tables' (out_meta o)) by (by apply (closed_describes tables_of w' tables' o es)).
  destruct (describes_FileOk tables' _ Hdesc) as [(_ & _ & V1) (_ & _ & V2) _ _ _].
  destruct (memtable_level_sound valid user v (ExtractUserKey (out_smallest o)) (ExtractUserKey (out_largest o))) as (L & EL & HL & Habove); [done|by intros l Hl; apply (version_LevelOk tables)|done|done|].
  rewrite (proj2 (Z.ltb_lt _ _) Hpos), EL. cbn [mbind option_bind]. eexists s, _, w'. split; [done|]. split; [done|]. split; [|done]. intros _.
  exists es, o, L. split_and!; try done.
  - pose proof Hcl as [[(e0 & H0 & E0) (e1 & H1 & E1)] [Hsz _]]. rewrite Forall_forall in Hok.
    split_and!; [unfold is_u; lia|done|rewrite E0; apply (name_ok_entry (valid := valid)), Hok; destruct es; [done|by injection H0 as ->; left]|rewrite E1; apply (name_ok_entry (valid := valid)), Hok; by apply last_Some_elem_of].
  - split; try done.
    + intros l. split; [apply G3|]. intros f Hf. rewrite Hn. by apply (G3 l).
    + intros l f Hf. apply tables_with_other; [done|]. cbn [fmap list_fmap]. rewrite list_elem_of_singleton, Hn. pose proof (proj2 (G3 l) f Hf). lia.
    + intros l f e e' Hf He'. rewrite Hp. by apply (G5 l f).
    + apply G6. lia.
Qed.
End WriteOk.
