(* ===== verification/CompactMem.v ===== *)
(** * Compacting the memtable

    Model of [DBImpl::CompactMemTable] ([App/integration/db_impl.cpp]), which writes the
    immutable memtable to a table with [WriteLevel0Table], records it with
    [VersionSet::LogAndApply], drops the memtable and deletes the files no longer needed.  The
    function runs with the mutex held except while the table is built; writers may then add to
    [mem_] and to the log, which it does not read.  [log_error] is what a failing [LogAndApply]
    returns; the outer [None] is a failed assertion. *)
From S2P Require Import Prelude Coding Comparator DbFormat SkipList Logging Log Status Filename MemTable Compaction Iterator Table VersionEdit Version VersionBuilder VersionSet CompactionPick CompactionInstall CompactionWork DbWrite ObsoleteFiles Flush.
From stdpp Require Import sorting list gmap.

#[local] Open Scope Z_scope.

Definition with_imm (m : option MemTable) (d : DBImpl) : DBImpl :=
  {| writers_ := writers_ d; on_stack := on_stack d; tmp_batch_ := tmp_batch_ d; mem_ := mem_ d; imm_ := m; logfile_number_ := logfile_number_ d; log_ := log_ d;
     db_versions_ := db_versions_ d; bg_error_ := bg_error_ d; shutting_down_ := shutting_down_ d;
     bg_compaction_scheduled_ := bg_compaction_scheduled_ d; manual_compaction_ := manual_compaction_ d; scheduled := scheduled d |}.
Definition with_list (vl : VersionList) (vs : VersionSet) : VersionSet :=
  {| vs_next_file_number := vs_next_file_number vs; vs_manifest_file_number := vs_manifest_file_number vs; vs_last_sequence := vs_last_sequence vs;
     vs_log_number := vs_log_number vs; vs_prev_log_number := vs_prev_log_number vs; descriptor_log_ := descriptor_log_ vs;
     versions_ := vl; compact_pointer_ := compact_pointer_ vs |}.

Section CompactMem.
Context {W B : Type} (ops : OutputOps W B) (env : ManifestEnv W) (files : W → gmap bytes bytes) (GetChildren : W → list bytes) (Evict : Z → W → W).
Context (user : Comparator) (comparator_name dbname_ : bytes) (log_error : Status).

(** [Env::DeleteFile] on a table. *)
Definition remove_table (number : Z) (w : W) : W := (Filename.DeleteFile (base_env env) (TableFileName dbname_ number) w).2.

(** Writing the memtable with the current version referenced. *)
Definition write_imm (m : MemTable) (vs : VersionSet) (pending : gset Z) (w : W) : option (Status * VersionEdit * VersionSet * gset Z * W) :=
  let id := current_id (versions_ vs) in
  base ← current (versions_ vs);
  vl ← Version_Ref id (versions_ vs);
  '(s, edit, vs, pending, w) ← WriteLevel0Table ops remove_table user m VersionEdit_make (Some base) (with_list vl vs) pending w;
  vl ← Version_Unref id (versions_ vs);
  Some (s, edit, with_list vl vs, pending, w).

Definition CompactMemTable (d : DBImpl) (pending : gset Z) (w : W) : option (DBImpl * gset Z * W) :=
  m ← imm_ d;
  '(s, edit, vs, pending, w) ← write_imm m (db_versions_ d) pending w;
  let s := if Status_ok s && shutting_down_ d then IOError (str "Deleting DB during memtable compaction") [] else s in
  '(s, vs, w) ← (if Status_ok s then
      '(ok, _, vs, w) ← LogAndApply env files user comparator_name dbname_ (SetLogNumber (logfile_number_ d) (SetPrevLogNumber 0 edit)) vs w;
      Some (if (ok : bool) then OK else log_error, vs, w)
    else Some (s, vs, w));
  let d := with_versions vs d in
  if Status_ok s then
    let d := with_imm None d in
    Some (d, pending, DeleteObsoleteFiles (base_env env) GetChildren Evict dbname_ (bg_error_ d) pending vs w)
  else Some (RecordBackgroundError s d, pending, w).
End CompactMem.

(** ** Tables and the other files *)

(** What [env.h] promises of the tables: a call that names another file leaves them. *)
Class TablesLocal {W T : Type} (env : ManifestEnv W) (dbname : bytes) (Evict : Z → W → W) (tables_of : W → Z → T) : Prop := {
  tl_new f w n : f ≠ TableFileName dbname n → tables_of (NewWritableFile (base_env env) f w).2 n = tables_of w n;
  tl_append f x w n : f ≠ TableFileName dbname n → tables_of (File_Append (base_env env) f x w).2 n = tables_of w n;
  tl_flush f w n : f ≠ TableFileName dbname n → tables_of (File_Flush env f w).2 n = tables_of w n;
  tl_sync f w n : f ≠ TableFileName dbname n → tables_of (File_Sync (base_env env) f w).2 n = tables_of w n;
  tl_close f w n : f ≠ TableFileName dbname n → tables_of (File_Close (base_env env) f w).2 n = tables_of w n;
  tl_delete f w n : f ≠ TableFileName dbname n → tables_of (Filename.DeleteFile (base_env env) f w).2 n = tables_of w n;
  tl_rename f t w n : f ≠ TableFileName dbname n → t ≠ TableFileName dbname n → tables_of (RenameFile (base_env env) f t w).2 n = tables_of w n;
  tl_evict m w n : tables_of (Evict m w) n = tables_of w n;
}.

Section Local.
Context {W T : Type} {env : ManifestEnv W} {files : W → gmap bytes bytes} {dbname : bytes} {Evict : Z → W → W} {tables_of : W → Z → T}.
Context `{HT : !TablesLocal env dbname Evict tables_of}.

Lemma other_names k n : is_u 64 k → is_u 64 n →
  DescriptorFileName dbname k ≠ TableFileName dbname n ∧ TempFileName dbname k ≠ TableFileName dbname n ∧ CurrentFileName dbname ≠ TableFileName dbname n.
Proof using Type.
  intros Hk Hn. destruct (names_ok dbname k Hk) as ((_ & N1) & (_ & _ & N2) & N3 & _). destruct (names_ok dbname n Hn) as (_ & (N4 & _) & _).
  destruct N1 as [_ P1], N2 as [_ P2], N3 as [_ P3], N4 as [_ P4]. split_and!; intros H; rewrite H in *; congruence.
Qed.

Lemma add_record_tables name r o w n : name ≠ TableFileName dbname n → tables_of (add_record env files name r o w).2 n = tables_of w n.
Proof using HT.
  intros Hn. unfold add_record.
  pose proof (@AddRecord_preserves W (descriptor_file env files name) (λ x, tables_of x n = tables_of w n) {| dest_ := w; block_offset_ := o |} r) as Hp.
  destruct (AddRecord _ r) as [ok wr]. cbn [snd dest_]. simpl in Hp. apply Hp; [| |done].
  - intros f x <-. pose proof (tl_append (env := env) (tables_of := tables_of) name x f n Hn). by destruct (File_Append (base_env env) name x f).
  - intros f <-. pose proof (tl_flush (env := env) (tables_of := tables_of) name f n Hn). by destruct (File_Flush env name f).
Qed.

(** A file is deleted when writing it failed. *)
Lemma failed_tables f s w n : f ≠ TableFileName dbname n → tables_of (if negb (Status_ok s) then (s, (Filename.DeleteFile (base_env env) f w).2) else (s, w)).2 n = tables_of w n.
Proof using HT. intros Hf. destruct (Status_ok s); [done|]. apply (tl_delete (env := env) (tables_of := tables_of) _ w n Hf). Qed.

Lemma WriteString_tables x f w n : f ≠ TableFileName dbname n → tables_of (WriteStringToFileSync (base_env env) x f w).2 n = tables_of w n.
Proof using HT.
  intros Hf. unfold WriteStringToFileSync, DoWriteStringToFile. pose proof (tl_new (env := env) (tables_of := tables_of) f w n Hf) as H1.
  destruct (NewWritableFile _ _ w) as [s1 w1]. simpl in H1. destruct (Status_ok s1); cbn [negb]; [|done].
  pose proof (tl_append (env := env) (tables_of := tables_of) f x w1 n Hf) as H2. destruct (File_Append _ _ x w1) as [s2 w2]. simpl in H2.
  pose proof (tl_sync (env := env) (tables_of := tables_of) f w2 n Hf) as H3. destruct (File_Sync _ _ w2) as [s3 w3]. simpl in H3.
  assert (Hc : ∀ s w, tables_of (let '(s, w) := if Status_ok s then File_Close (base_env env) f w else (s, w) in
    if negb (Status_ok s) then (s, (Filename.DeleteFile (base_env env) f w).2) else (s, w)).2 n = tables_of w n).
  { intros s w5. destruct (Status_ok s); [|by apply failed_tables]. pose proof (tl_close (env := env) (tables_of := tables_of) f w5 n Hf) as H6.
    destruct (File_Close _ _ w5) as [s6 w6]. simpl in H6. by rewrite failed_tables. }
  destruct (Status_ok s2 && true); rewrite Hc; congruence.
Qed.

Lemma SetCurrentFile_tables k w n : is_u 64 k → is_u 64 n → tables_of (SetCurrentFile (base_env env) dbname k w).2 n = tables_of w n.
Proof using HT.
  intros Hk Hn. destruct (other_names k n Hk Hn) as (_ & N1 & N2). unfold SetCurrentFile. set (x := _ ++ [10]).
  pose proof (WriteString_tables x _ w n N1) as Hw. destruct (WriteStringToFileSync _ x _ w) as [s1 w1]. simpl in Hw.
  destruct (Status_ok s1); [|by rewrite failed_tables]. pose proof (tl_rename (env := env) (tables_of := tables_of) _ _ w1 n N1 N2) as H2.
  destruct (RenameFile _ _ _ w1) as [s2 w2]. simpl in H2. rewrite failed_tables by done. congruence.
Qed.

(** ** Every path through [LogAndApply] *)

Context {user : Comparator} {comparator_name : bytes}.

Lemma LogAndApply_outcome e e' vs w base r cp b v' : fill_edit e vs = Some e' → live_ (versions_ vs) !! current_id (versions_ vs) = Some (base, r) → 1 <= r →
  Apply user e' (compact_pointer_ vs) (Builder_make base) = Some (cp, b) → SaveTo user b = Some v' → is_u 64 (vs_manifest_file_number vs) →
  ∃ ok vs' w', LogAndApply env files user comparator_name dbname e vs w = Some (ok, e', vs', w') ∧ (∀ n, is_u 64 n → tables_of w' n = tables_of w n) ∧
    vs_next_file_number vs' = vs_next_file_number vs ∧ vs_last_sequence vs' = vs_last_sequence vs ∧
    (∀ o, ManifestEnvOk env files → descriptor_log_ vs = Some o → 0 <= o <= kBlockSize → ok = true) ∧
    (if ok : bool then current (versions_ vs') = Some v' ∧ vs_log_number vs' = log_number_ e' ∧ AppendVersion v' (versions_ vs) = Some (versions_ vs')
     else versions_ vs' = versions_ vs ∧ vs_log_number vs' = vs_log_number vs).
Proof using HT.
  intros Ef Hlive Hr EA ES Hm. unfold LogAndApply. rewrite Ef. cbn [mbind option_bind]. unfold current at 1. rewrite Hlive. cbn [fmap option_fmap option_map fst mbind option_bind].
  rewrite EA. cbn [mbind option_bind]. rewrite ES. cbn [mbind option_bind]. set (name := DescriptorFileName dbname _).
  set (P x := ∀ n, is_u 64 n → tables_of x n = tables_of w n). assert (Hname : ∀ n, is_u 64 n → name ≠ TableFileName dbname n) by (intros n Hn; by apply other_names).
  set (Q (x : bool) := ∀ o, ManifestEnvOk env files → descriptor_log_ vs = Some o → 0 <= o <= kBlockSize → x = true).
  match goal with |- context [match ?p with (_, _) => _ end] => set (p1 := p) end.
  assert (Q1 : ∀ o, descriptor_log_ vs = Some o → p1 = (true, Some o, w)) by (intros o Ho; unfold p1; by rewrite Ho). assert (H1 : P p1.2).
  { unfold p1. destruct (descriptor_log_ vs); [done|]. intros n Hn. pose proof (tl_new (env := env) (tables_of := tables_of) name w n (Hname n Hn)) as Hw.
    destruct (NewWritableFile _ name w) as [s0 w0]. simpl in Hw. destruct (Status_ok s0); [|done]. unfold WriteSnapshot.
    pose proof (add_record_tables name (EncodeTo (snapshot_edit comparator_name base cp) []) 0 w0 n (Hname n Hn)) as Ha. destruct (add_record _ _ _ _ _ w0) as [[ok o] wa]. simpl in *. congruence. }
  clearbody p1. destruct p1 as [[ok1 log1] w1]. cbn [snd] in H1.
  match goal with |- context [match ?p with (_, _) => _ end] => set (p2 := p) end.
  assert (Q2 : Q p2.1.1).
  { intros o HE Ho Hr'. unfold p2. injection (Q1 o Ho) as -> -> ->. unfold add_record.
    destruct (@AddRecord_spec W (descriptor_file env files name) (descriptor_reliable env files name) {| dest_ := w; block_offset_ := o |} (EncodeTo e' []) Hr') as (wr & -> & _).
    pose proof (me_sync (env := env) (files := files) name (dest_ wr)) as Hs. destruct (File_Sync _ name (dest_ wr)). simpl in *. by rewrite Hs. }
  assert (H2 : P p2.2).
  { unfold p2. destruct log1 as [o|]; [|done]. destruct ok1; [|done]. intros n Hn. rewrite <- (H1 n Hn).
    pose proof (add_record_tables name (EncodeTo e' []) o w1 n (Hname n Hn)) as Ha. destruct (add_record _ _ _ _ _ w1) as [[ok o'] wa]. cbn [snd] in Ha. destruct ok; [|done].
    pose proof (tl_sync (env := env) (tables_of := tables_of) name wa n (Hname n Hn)) as Hs. destruct (File_Sync _ name wa) as [s0 w0]. simpl in *. congruence. }
  clearbody p2. clear H1. destruct p2 as [[ok2 log2] w2]. cbn [fst snd] in H2, Q2.
  match goal with |- context [match ?p with (_, _) => _ end] => set (p3 := p) end.
  assert (Q3 : Q p3.1).
  { intros o HE Ho Hr'. unfold p3. rewrite (Q2 o HE Ho Hr'), Ho. rewrite bool_decide_eq_true_2 by done. done. }
  assert (H3 : P p3.2).
  { unfold p3. destruct (ok2 && _); [|done]. intros n Hn. rewrite <- (H2 n Hn). pose proof (SetCurrentFile_tables (vs_manifest_file_number vs) w2 n Hm Hn) as Hs.
    destruct (SetCurrentFile _ _ _ w2) as [s0 w0]. done. }
  clearbody p3. clear H2. destruct p3 as [ok3 w3]. cbn [fst snd] in H3, Q3. destruct ok3.
  - unfold AppendVersion, Version_Unref. cbn [with_manifest versions_]. rewrite Hlive. cbn [mbind option_bind]. destruct (Z.ltb_spec r 1); [lia|]. cbn [mbind option_bind].
    eexists true, _, w3. split; [done|]. split; [exact H3|]. cbn [install with_manifest vs_next_file_number vs_last_sequence versions_ vs_log_number]. split_and!; [done|done|exact Q3| |done|done].
    unfold current. cbn [live_ current_id]. by rewrite lookup_insert_eq.
  - destruct (negb _).
    + eexists false, _, _. split; [done|]. split; [|done]. intros n Hn. rewrite (tl_delete (env := env) (tables_of := tables_of) name w3 n (Hname n Hn)). by apply H3.
    + eexists false, _, w3. split; [done|]. split; [exact H3|done].
Qed.
End Local.

(** ** The memtable is compacted *)

Lemma ref_unref vl v r : live_ vl !! current_id vl = Some (v, r) → 1 <= r → ∃ vl', Version_Ref (current_id vl) vl = Some vl' ∧ Version_Unref (current_id vl) vl' = Some vl.
Proof.
  intros Hl Hr. unfold Version_Ref, Version_Unref. rewrite Hl. cbn [mbind option_bind]. eexists. split; [done|]. cbn [live_ current_id next_id]. rewrite lookup_insert_eq. cbn [mbind option_bind].
  destruct (Z.ltb_spec (r + 1) 1); [lia|]. destruct (Z.eqb_spec (r + 1 - 1) 0); [lia|]. rewrite insert_insert_eq, Z.add_simpl_r, insert_id by done. by destruct vl.
Qed.

(** The edit of a memtable compaction, as [LogAndApply] completes it. *)
Lemma flush_edit_filled L o log vs : level_ok L → output_ok o → 0 <= vs_log_number vs <= log → log < vs_next_file_number vs → is_u 64 (vs_next_file_number vs) → is_u 64 (vs_last_sequence vs) →
  ∃ e, fill_edit (SetLogNumber log (SetPrevLogNumber 0 (AddFile L (out_number o) (out_file_size o) (out_smallest o) (out_largest o) VersionEdit_make))) vs = Some e ∧ EditOk e ∧
    deleted_files_ e = [] ∧ new_files_ e = [(L, FileMetaData_make (out_number o) (out_file_size o) (out_smallest o) (out_largest o))] ∧ log_number_ e = log.
Proof.
  intros HL (O1 & O2 & O3 & O4) Hlog Hnext Hn Hs. unfold fill_edit. cbn [has_log_number_ SetLogNumber log_number_]. replace ((_ <=? _) && _) with true by lia. cbn [mbind option_bind has_prev_log_number_ SetLogNumber SetPrevLogNumber].
  eexists. split; [done|]. split; [|done].
  apply (apply_field_ok _ (FLast _)); [|done]. apply (apply_field_ok _ (FNext _)); [|done]. apply (apply_field_ok _ (FLog _)); [|unfold field_ok, is_u in *; lia].
  apply (apply_field_ok _ (FPrevLog _)); [|unfold field_ok, is_u; lia]. apply (apply_field_ok _ (FNew _ _ _ _ _)); [apply EditOk_make|done].
Qed.

(** The tables of a version are on disk. *)
Definition on_disk {W : Type} (tables_of : W → Z → option (Z * list (bytes * bytes))) (w : W) (tables : Z → option (Z * list Entry)) (v : Version) : Prop :=
  ∀ l f, f ∈ level_files v l → tables_of w (number f) = (λ p : Z * list Entry, (p.1, entry_kv <$> p.2)) <$> tables (number f).

(** What the compaction of the memtable [m] with entries [E] starts from. *)
Record FlushStart {W : Type} (valid : bytes → Prop) (user : Comparator) (tables_of : W → Z → option (Z * list (bytes * bytes))) (fits : list (bytes * bytes) → Prop)
    (tables : Z → option (Z * list Entry)) (v : Version) (m : MemTable) (E : list Entry) (d : DBImpl) (w : W) : Prop := {
  fs_imm : imm_ d = Some m ∧ MemInv valid user m E ∧ Distinct E ∧ E ≠ [];
  fs_fits es : es ≡ₚ E → fits (entry_kv <$> es);
  fs_current : ∃ r, live_ (versions_ (db_versions_ d)) !! current_id (versions_ (db_versions_ d)) = Some (v, r) ∧ 1 <= r;
  fs_version : Flushing valid user tables v E (vs_next_file_number (db_versions_ d));
  fs_disk : on_disk tables_of w tables v;
  fs_log : 0 <= vs_log_number (db_versions_ d) <= logfile_number_ d ∧ logfile_number_ d < vs_next_file_number (db_versions_ d);
  fs_widths : is_u 64 (vs_last_sequence (db_versions_ d)) ∧ is_u 64 (vs_manifest_file_number (db_versions_ d)) ∧ zlen (compact_pointer_ (db_versions_ d)) = kNumLevels;
}.

Section CompactOk.
Context {W B : Type} {ops : OutputOps W B} {env : ManifestEnv W} {files : W → gmap bytes bytes} {GetChildren : W → list bytes} {Evict : Z → W → W}.
Context {valid : bytes → Prop} {user : Comparator} `{HU : !ComparatorOk valid user} {comparator_name dbname : bytes} {log_error : Status}.
Context {tables_of : W → Z → option (Z * list (bytes * bytes))} {entries : B → option (list (bytes * bytes))} {fits : list (bytes * bytes) → Prop}.
Context `{HO : !OutputOk ops valid user tables_of entries fits} `{HT : !TablesLocal env dbname Evict tables_of}.

Lemma remove_table_other n w m : m ≠ n → is_u 64 n → is_u 64 m → tables_of (remove_table env dbname n w) m = tables_of w m.
Proof using HT.
  intros Hne Hn Hm. unfold remove_table. apply (tl_delete (env := env) (dbname := dbname) (Evict := Evict)). intros Heq.
  destruct (names_ok dbname n Hn) as (_ & ([_ N1] & _) & _), (names_ok dbname m Hm) as (_ & ([_ N2] & _) & _). rewrite Heq in N1. congruence.
Qed.

Lemma write_imm_ok tables v m E d pending w : FlushStart valid user tables_of fits tables v m E d w →
  let vs := db_versions_ d in
  ∃ s edit w', write_imm ops env user dbname m vs pending w = Some (s, edit, (NewFileNumber vs).2, ({[vs_next_file_number vs]} ∪ pending) ∖ {[vs_next_file_number vs]}, w') ∧
    (∀ n, n ≠ vs_next_file_number vs → is_u 64 n → tables_of w' n = tables_of w n) ∧
    (Status_ok s = true → written (valid := valid) (user := user) (tables_of := tables_of) tables v E (vs_next_file_number vs) VersionEdit_make edit w') ∧
    (OutputReliable ops tables_of entries → s = OK).
Proof using HU HO HT.
  intros [(_ & HM & Hd & Hne) Hfits (r & Hlive & Hr) HF _ _ _] vs. destruct (ref_unref (versions_ vs) v r Hlive Hr) as (vl & E1 & E2). unfold write_imm.
  unfold current. fold vs. fold vs in Hlive. rewrite Hlive. cbn [fmap option_fmap option_map fst mbind option_bind]. rewrite E1. cbn [mbind option_bind].
  destruct (WriteLevel0Table_ok (ops := ops) (remove := remove_table env dbname) (valid := valid) (user := user) (tables_of := tables_of) (entries := entries) (fits := fits)
    tables v m E VersionEdit_make (with_list vl vs) pending w HF HM Hd Hne Hfits) as (s & edit & w' & EW & H1 & H2 & H3).
  { intros w0 n Hn Hu. apply remove_table_other; [done| |done]. pose proof (fg_next _ _ _ _ _ _ HF). cbn [with_list vs_next_file_number]. unfold is_u. fold vs in H. lia. }
  rewrite EW. cbn [mbind option_bind NewFileNumber snd with_list versions_]. rewrite E2. exists s, edit, w'. by split_and!.
Qed.

(** Deleting obsolete files leaves the tables of the versions in use. *)
Lemma delete_obsolete_tables bg pending vs w v id r l f : live_ (versions_ vs) !! id = Some (v, r) → f ∈ level_files v l → is_u 64 (number f) →
  tables_of (DeleteObsoleteFiles (base_env env) GetChildren Evict dbname bg pending vs w) (number f) = tables_of w (number f).
Proof using HT.
  intros Hv Hf Hn. unfold DeleteObsoleteFiles. destruct (Status_ok bg); [|done]. cbn [negb]. set (live := AddLiveFiles _ _).
  apply (delete_loop_frame (base_env env) Evict dbname (λ w', tables_of w' (number f) = tables_of w (number f))); [intros n w' <-; apply (tl_evict (env := env) (dbname := dbname))| |done].
  intros g w' Hg <-. apply (tl_delete (env := env) (dbname := dbname) (Evict := Evict)). intros Heq. destruct (names_ok dbname _ Hn) as (_ & ([N1 N2] & _) & _).
  rewrite <- N1 in Heq. apply (inj (in_dir dbname)) in Heq. subst g. unfold kept_name in Hg. rewrite N2 in Hg. cbn [keep_file] in Hg. apply bool_decide_eq_false in Hg.
  apply Hg. apply AddLiveFiles_elem. right. unfold level_files in Hf. destruct (files_ v !! Z.to_nat l) as [fs|] eqn:E; [|by apply elem_of_nil in Hf].
  exists id, v, r, fs, f. split_and!; [done|by apply list_elem_of_lookup_2 in E|done|done].
Qed.
End CompactOk.

(** ** Properties *)

(** What the rest of the database may rely on while the memtable is compacted. *)
Definition keeps_rest (d d' : DBImpl) : Prop :=
  (writers_ d' = writers_ d ∧ on_stack d' = on_stack d ∧ tmp_batch_ d' = tmp_batch_ d) ∧ mem_ d' = mem_ d ∧ (imm_ d' = imm_ d ∨ imm_ d' = None) ∧
  (logfile_number_ d' = logfile_number_ d ∧ log_ d' = log_ d) ∧ vs_last_sequence (db_versions_ d') = vs_last_sequence (db_versions_ d) ∧
  vs_next_file_number (db_versions_ d) <= vs_next_file_number (db_versions_ d').

Lemma keeps_rest_background {W : Type} (files : W → gmap bytes bytes) dbname d d' w w' : keeps_rest d d' →
  files w' !! LogFileName dbname (logfile_number_ d) = files w !! LogFileName dbname (logfile_number_ d) → background files dbname d w d' w'.
Proof. intros (H1 & H2 & H3 & H4 & H5 & H6) Hf. by split. Qed.

Lemma keeps_rest_error s vs d : vs_last_sequence vs = vs_last_sequence (db_versions_ d) → vs_next_file_number (db_versions_ d) <= vs_next_file_number vs →
  keeps_rest d (RecordBackgroundError s (with_versions vs d)) ∧ keeps_rest d (with_imm None (with_versions vs d)).
Proof. intros H1 H2. unfold RecordBackgroundError, keeps_rest. destruct (Status_ok _); cbn; auto 20. Qed.

(** The two ways it ends. *)
Definition flush_done {W : Type} (valid : bytes → Prop) (user : Comparator) (tables_of : W → Z → option (Z * list (bytes * bytes))) (tables : Z → option (Z * list Entry))
    (v : Version) (E : list Entry) (d d' : DBImpl) (w' : W) : Prop :=
  imm_ d' = None ∧ bg_error_ d' = bg_error_ d ∧ vs_log_number (db_versions_ d') = logfile_number_ d ∧
  ∃ tables' v', current (versions_ (db_versions_ d')) = Some v' ∧ VersionOk (valid := valid) (user := user) tables' v' ∧ VersionSorted (valid := valid) (user := user) v' ∧
    on_disk tables_of w' tables' v' ∧
    ∀ u s e, seen_from tables' u s v' 0 e ↔ seen_from tables u s v 0 e ∨ (e ∈ E ∧ e_key e = u ∧ e_seq e <= s).
Definition flush_failed {W : Type} (tables_of : W → Z → option (Z * list (bytes * bytes))) (tables : Z → option (Z * list Entry))
    (v : Version) (d d' : DBImpl) (w' : W) : Prop :=
  imm_ d' = imm_ d ∧ Status_ok (bg_error_ d') = false ∧ vs_log_number (db_versions_ d') = vs_log_number (db_versions_ d) ∧
  current (versions_ (db_versions_ d')) = Some v ∧ on_disk tables_of w' tables v.

Section Outcome.
Context {W : Type} {valid : bytes → Prop} {user : Comparator} `{HU : !ComparatorOk valid user}.
Context {tables_of : W → Z → option (Z * list (bytes * bytes))} (tables : Z → option (Z * list Entry)) (v : Version) (E : list Entry) (d : DBImpl) (w : W).
Context (Hlive : current (versions_ (db_versions_ d)) = Some v) (HF : Flushing valid user tables v E (vs_next_file_number (db_versions_ d))) (Hdisk : on_disk tables_of w tables v).

Lemma number_u64 l f : f ∈ level_files v l → is_u 64 (number f) ∧ number f ≠ vs_next_file_number (db_versions_ d).
Proof using HF. intros Hf. pose proof (proj2 (fg_numbers _ _ _ _ _ _ HF l) f Hf). destruct (fg_next _ _ _ _ _ _ HF). unfold is_u. lia. Qed.

Lemma failed_ok s vs w' : Status_ok s = false → versions_ vs = versions_ (db_versions_ d) → vs_log_number vs = vs_log_number (db_versions_ d) →
  (∀ n, is_u 64 n → n ≠ vs_next_file_number (db_versions_ d) → tables_of w' n = tables_of w n) →
  flush_failed tables_of tables v d (RecordBackgroundError s (with_versions vs d)) w'.
Proof using HF Hlive Hdisk.
  intros Hs Hvs Hlog Ht. assert (Hd : on_disk tables_of w' tables v).
  { intros l f Hf. destruct (number_u64 l f Hf). rewrite Ht by done. by apply (Hdisk l). }
  unfold flush_failed, RecordBackgroundError. cbn [with_versions bg_error_]. destruct (Status_ok (bg_error_ d)) eqn:Eb;
    cbn [imm_ bg_error_ db_versions_ with_versions]; rewrite Hvs; by split_and!.
Qed.

Lemma done_ok es o L v' vs w1 w' : Flushed (valid := valid) (user := user) tables (tables_with tables [o] [es]) v es o L → es ≡ₚ E → out_number o = vs_next_file_number (db_versions_ d) →
  Closed (tables_of := tables_of) w1 o es → (∀ n, n ≠ vs_next_file_number (db_versions_ d) → is_u 64 n → tables_of w1 n = tables_of w n) →
  VersionSorted (valid := valid) (user := user) v' →
  (∀ l, level_ok l → level_files v' l ≡ₚ level_files v l ++ (if l =? L then [out_meta o] else []) ∧ ChainOk (user := user) l (level_files v' l)) →
  current (versions_ vs) = Some v' → vs_log_number vs = logfile_number_ d →
  (∀ l f, f ∈ level_files v' l → is_u 64 (number f) → tables_of w' (number f) = tables_of w1 (number f)) →
  flush_done valid user tables_of tables v E d (with_imm None (with_versions vs d)) w'.
Proof using HF HU Hdisk.
  intros HFl Hp Hno (_ & _ & Hcl) Hfr Hs' Hl' Hc' Hlog Ht. split; [done|]. split; [done|]. split; [done|]. exists (tables_with tables [o] [es]), v'. split_and!; [done| |done| |].
  - by apply (flushed_version tables _ v es o L HFl v').
  - intros l f Hf. destruct (flushed_clip v' Hs' l f Hf) as (l0 & Hl0 & Hf0 & _). apply (flushed_file v o L v' Hl' l0 f Hl0) in Hf0 as [Hf0|[-> ->]].
    + destruct (number_u64 l0 f Hf0) as [Hu Hne]. rewrite (Ht l f Hf Hu), (Hfr _ Hne Hu), (fl_same _ _ _ _ _ _ HFl l0 f Hf0). by apply (Hdisk l0).
    + rewrite (Ht l (out_meta o) Hf); change (number (out_meta o)) with (out_number o); [by rewrite Hcl, (fl_table _ _ _ _ _ _ HFl)|].
      rewrite Hno. destruct (fg_next _ _ _ _ _ _ HF). unfold is_u. lia.
  - intros u s e. rewrite (flushed_seen tables _ v es o L HFl v' Hl'). by rewrite Hp.
Qed.
End Outcome.

Lemma CompactMemTable_ok {W B : Type} (ops : OutputOps W B) (env : ManifestEnv W) (files : W → gmap bytes bytes) (GetChildren : W → list bytes) (Evict : Z → W → W)
    (valid : bytes → Prop) (user : Comparator) (comparator_name dbname : bytes) (log_error : Status) (tables_of : W → Z → option (Z * list (bytes * bytes)))
    (entries : B → option (list (bytes * bytes))) (fits : list (bytes * bytes) → Prop) (tables : Z → option (Z * list Entry)) (v : Version) (m : MemTable) (E : list Entry)
    (d : DBImpl) (pending : gset Z) (w : W) :
  ComparatorOk valid user → OutputOk ops valid user tables_of entries fits → TablesLocal env dbname Evict tables_of → Status_ok log_error = false →
  FlushStart valid user tables_of fits tables v m E d w →
  ∃ d' pending' w', CompactMemTable ops env files GetChildren Evict user comparator_name dbname log_error d pending w = Some (d', pending', w') ∧
    keeps_rest d d' ∧ pending' ⊆ pending ∧
    (flush_done valid user tables_of tables v E d d' w' ∨ flush_failed tables_of tables v d d' w') ∧
    (∀ o, OutputReliable ops tables_of entries → ManifestEnvOk env files → shutting_down_ d = false → descriptor_log_ (db_versions_ d) = Some o → 0 <= o <= kBlockSize → flush_done valid user tables_of tables v E d d' w').
Proof.
  intros HU HO HT Hlog HS. destruct (write_imm_ok (ops := ops) (env := env) (dbname := dbname) (entries := entries) tables v m E d pending w HS) as (s & edit & w1 & EW & Hfr & Hwr & Hrel).
  pose proof HS as [(Him & _) _ (r & Hlive & Hr) HF Hdisk [Hl1 Hl2] (Hw1 & Hw2 & Hw3)].
  assert (Hcur : current (versions_ (db_versions_ d)) = Some v) by (unfold current; by rewrite Hlive).
  unfold CompactMemTable. rewrite Him. cbn [mbind option_bind]. rewrite EW. cbn [mbind option_bind]. set (vs1 := (NewFileNumber (db_versions_ d)).2) in *.
  destruct (fg_next _ _ _ _ _ _ HF) as [Hn1 Hn2]. assert (Hnext : vs_next_file_number vs1 = vs_next_file_number (db_versions_ d) + 1) by (unfold vs1; cbn; apply u64_small; unfold is_u; lia).
  assert (Hpend : ({[vs_next_file_number (db_versions_ d)]} ∪ pending) ∖ {[vs_next_file_number (db_versions_ d)]} ⊆ pending) by set_solver.
  set (s1 := if Status_ok s && shutting_down_ d then _ else s). destruct (Status_ok s1) eqn:Es1.
  2:{ cbn [mbind option_bind]. rewrite Es1. eexists _, _, w1. split; [done|]. split; [apply keeps_rest_error; [done|lia]|]. split; [done|]. split; [right|].
    - apply (failed_ok (valid := valid) (user := user) tables v E d w); try done. intros n Hu Hne. by apply Hfr.
    - intros o HR _ Hsd. exfalso. revert Es1. unfold s1. rewrite Hsd, andb_false_r, (Hrel HR). done. }
  assert (Hs : Status_ok s = true) by (revert Es1; unfold s1; destruct (Status_ok s) eqn:Ex; [done|cbn [andb]; by rewrite Ex]).
  destruct (Hwr Hs) as (es & o & L & -> & Hp & Hno & Hcl & Hout & HFl).
  destruct (flush_edit_filled L o (logfile_number_ d) vs1) as (e & Ee & He & Hdel & Hnew & Hlogn); [by apply (flush_level_ok _ _ _ _ _ _ HFl)|done|done|lia|unfold is_u; lia|done|].
  destruct (flush_version tables _ v es o L HFl e (compact_pointer_ vs1) Hdel Hnew He Hw3) as (cp & b & v' & EA & ES & Hs' & Hl').
  destruct (LogAndApply_outcome (env := env) (files := files) (tables_of := tables_of) (user := user) (comparator_name := comparator_name) _ e vs1 w1 v r cp b v' Ee Hlive Hr EA ES Hw2)
    as (ok & vs2 & w2 & EL & Ht2 & Hn' & Hseq & Hok & Hres).
  rewrite EL. cbn [mbind option_bind]. destruct ok; cbn [Status_ok OK].
  - destruct Hres as (Hc' & Hlg & _). assert (Hdone : flush_done valid user tables_of tables v E d (with_imm None (with_versions vs2 d))
      (DeleteObsoleteFiles (base_env env) GetChildren Evict dbname (bg_error_ (with_imm None (with_versions vs2 d)))
        (({[vs_next_file_number (db_versions_ d)]} ∪ pending) ∖ {[vs_next_file_number (db_versions_ d)]}) vs2 w2)).
    { apply (done_ok (tables_of := tables_of) tables v E d w HF Hdisk es o L v' vs2 w1); try done; [by rewrite Hlg|]. intros l f Hf Hu. unfold current in Hc'.
      destruct (live_ (versions_ vs2) !! current_id (versions_ vs2)) as [[v2 r2]|] eqn:E2; [|done]. injection Hc' as ->.
      rewrite (delete_obsolete_tables (env := env) _ _ vs2 w2 v' _ r2 l f E2 Hf Hu). by apply Ht2. }
    eexists _, _, _. split; [done|]. split; [apply (keeps_rest_error OK); [done|lia]|]. split; [done|]. split; [by left|by intros].
  - rewrite Hlog. eexists _, _, w2. split; [done|]. split; [apply keeps_rest_error; [done|lia]|]. split; [done|]. split; [right|].
    + destruct Hres as [Hv Hlg]. apply (failed_ok (valid := valid) (user := user) tables v E d w); try done. intros n Hu Hne. by rewrite Ht2, Hfr.
    + intros o' _ HE _ Ho' Hr'. by specialize (Hok o' HE Ho' Hr').
Qed.

(** [C9] Compacting the memtable keeps every entry: for a database whose current version is on
    disk and whose immutable memtable holds newer entries, and whatever calls of the environment
    fail while the table and the manifest are written, the function returns without failing
    an assertion, and the write path may go on meanwhile.  Either the memtable is dropped, and the new current
    version is well formed, lies on disk after the obsolete files are deleted, shows
    exactly the entries of the old version and of the memtable to every read, and the old log is released;
    or a background error is recorded and the memtable, the version, its files and the log number are kept.
    The first happens whenever the table and the manifest can be written and the database is not closing. *)
Theorem memtable_compaction_correct {W B : Type} (ops : OutputOps W B) (env : ManifestEnv W) (files : W → gmap bytes bytes) (GetChildren : W → list bytes) (Evict : Z → W → W)
    (valid : bytes → Prop) (user : Comparator) (comparator_name dbname : bytes) (log_error : Status) (tables_of : W → Z → option (Z * list (bytes * bytes)))
    (entries : B → option (list (bytes * bytes))) (fits : list (bytes * bytes) → Prop) (tables : Z → option (Z * list Entry)) (v : Version) (m : MemTable) (E : list Entry)
    (d : DBImpl) (pending : gset Z) (w : W) :
  ComparatorOk valid user → OutputOk ops valid user tables_of entries fits → TablesLocal env dbname Evict tables_of → Status_ok log_error = false →
  FlushStart valid user tables_of fits tables v m E d w →
  ∃ d' pending' w', CompactMemTable ops env files GetChildren Evict user comparator_name dbname log_error d pending w = Some (d', pending', w') ∧
    keeps_rest d d' ∧ pending' ⊆ pending ∧
    (flush_done valid user tables_of tables v E d d' w' ∨ flush_failed tables_of tables v d d' w') ∧
    (∀ o, OutputReliable ops tables_of entries → ManifestEnvOk env files → shutting_down_ d = false → descriptor_log_ (db_versions_ d) = Some o → 0 <= o <= kBlockSize → flush_done valid user tables_of tables v E d d' w').
Proof. apply CompactMemTable_ok. Qed.

(** ** Sample *)

(** Files and tables in memory. *)
Abbreviation MemoryWorld := (gmap bytes bytes * gmap Z (Z * list (bytes * bytes)))%type.
Definition on_files {A : Type} (op : gmap bytes bytes → A * gmap bytes bytes) (w : MemoryWorld) : A * MemoryWorld := let '(a, f) := op w.1 in (a, (f, w.2)).
Definition sample_flush_env : ManifestEnv MemoryWorld := {|
  base_env := {|
    NewWritableFile f := on_files (NewWritableFile (base_env sample_env) f);
    File_Append f x := on_files (File_Append (base_env sample_env) f x);
    File_Sync f := on_files (File_Sync (base_env sample_env) f);
    File_Close f := on_files (File_Close (base_env sample_env) f);
    Filename.DeleteFile f := on_files (Filename.DeleteFile (base_env sample_env) f);
    RenameFile f t := on_files (RenameFile (base_env sample_env) f t);
  |};
  File_Flush f := on_files (File_Flush sample_env f);
  NewSequentialFile f w := NewSequentialFile sample_env f w.1;
  read_error := read_error sample_env;
|}.
Definition sample_flush_ops : OutputOps MemoryWorld (list (bytes * bytes)) := {|
  NewOutput n w := (OK, [], w);
  Output_Add k x b := Some (b ++ [(k, x)]);
  Output_NumEntries b := zlen b;
  Output_FileSize b := 100 * zlen b;
  Output_Finish n b w := Some (OK, 100, (w.1, <[n := (100, b)]> w.2));
  Output_Abandon n b w := (0, w);
  Output_Sync n w := (OK, w);
  Output_Usable n size w := match w.2 !! n with Some _ => OK | None => NotFound [] [] end;
|}.
Definition sample_flush_children (w : MemoryWorld) : list bytes := base_name (str "db") <$> (map_to_list w.1).*1.

#[local] Instance sample_flush_ops_ok : OutputOk sample_flush_ops bytes_ok BytewiseComparator (λ w n, w.2 !! n) Some (λ _, True).
Proof.
  split; cbn [sample_flush_ops NewOutput Output_Add Output_NumEntries Output_Finish Output_Abandon Output_Sync Output_Usable]; try done.
  - by intros n w s b w' [= <- <- <-].
  - intros k x b _. eexists. split; [done|]. right. by eexists.
  - by intros b l [= ->].
  - intros n b w _. eexists OK, 100, _. split; [done|]. split; [intros m Hm; cbn [snd]; by rewrite lookup_insert_ne|]. intros _. split; [by_compute|]. split; [done|]. exists b. split; [done|].
    intros s' w'' [= <- <-] _. cbn [snd]. by rewrite lookup_insert_eq.
Qed.
#[local] Instance sample_flush_reliable : OutputReliable sample_flush_ops (λ w n, w.2 !! n) Some.
Proof.
  split; cbn [sample_flush_ops NewOutput Output_Add Output_Finish Output_Sync Output_Usable]; try done.
  - by intros n b w s size w' _ [= <- _ _].
  - by intros n size kvs w ->.
Qed.

#[local] Instance sample_flush_local : TablesLocal sample_flush_env (str "db") (λ _ w, w) (λ w n, w.2 !! n).
Proof. by split. Qed.

#[local] Instance sample_flush_env_ok : ManifestEnvOk sample_flush_env fst.
Proof.
  destruct sample_env_ok as [[H1 H2 H3 H4 H5 H6 H7 H8 H9 H10] H11 H12 H13 H14 H15 H16 H17]. split; [split|..].
  - exact (λ f w, H1 f w.1).
  - exact (λ f w, H2 f w.1).
  - exact (λ f x w, H3 f x w.1).
  - exact (λ f x w, H4 f x w.1).
  - exact (λ f w, H5 f w.1).
  - exact (λ f w, H6 f w.1).
  - exact (λ f w, H7 f w.1).
  - exact (λ f t w, H8 f t w.1).
  - exact (λ f t w, H9 f t w.1).
  - exact (λ f t w, H10 f t w.1).
  - exact (λ f w, H11 f w.1).
  - exact (λ f x w, H12 f x w.1).
  - exact (λ f w, H13 f w.1).
  - exact (λ f w, H14 f w.1).
  - exact (λ f w, H15 f w.1).
  - exact (λ f t w, H16 f t w.1).
  - exact (λ f w, H17 f w.1).
Qed.

(** The table of [sample_version], and a memtable with a newer value of one of its keys. *)
Definition sample_flush_entry : Entry := entry_of [98] 12 kTypeValue [7].
Definition sample_flush_vs : VersionSet := with_manifest (Some 0) (compact_pointer_ VersionSet_make) CompactionWork.sample_vs.
Definition sample_flush_db (m : MemTable) : DBImpl := with_imm (Some m) (with_versions sample_flush_vs sample_db).
Definition sample_flush_world : MemoryWorld := (∅, {[5 := (zlen Table.sample_file, entry_kv <$> sample_table)]}).

#[local] Opaque Table.sample_file.
Lemma sample_flush_start m : MemInv bytes_ok BytewiseComparator m [sample_flush_entry] →
  FlushStart bytes_ok BytewiseComparator (λ (w : MemoryWorld) n, w.2 !! n) (λ _, True) sample_tables sample_version m [sample_flush_entry] (sample_flush_db m) sample_flush_world.
Proof.
  intros HM. destruct sample_compacting as [G1 G2 G3 G4 _ _ _ _ _]. split.
  - split; [done|]. split; [done|]. split; [|done]. by intros e e' ->%list_elem_of_singleton ->%list_elem_of_singleton.
  - done.
  - by exists 1.
  - split; [done|done|exact G4|by_compute| |].
    + intros l f e e' [_ ->]%sample_level He' ->%list_elem_of_singleton. change (e' ∈ sample_table) in He'. unfold sample_table in He'. rewrite !elem_of_cons, elem_of_nil in He'.
      destruct He' as [->|[->|[->|[->|[]]]]]; by_compute.
    + intros l Hl. unfold kMaxMemCompactLevel in Hl. assert (l = 0 ∨ l = 1 ∨ l = 2) as [->|[->| ->]] by lia; by_compute.
  - intros l f [_ ->]%sample_level. done.
  - by_compute.
  - by_compute.
Qed.

Lemma memtable_compaction_correct_witness : ∃ m d' pending' w',
  CompactMemTable sample_flush_ops sample_flush_env fst sample_flush_children (λ _ w, w) BytewiseComparator sample_name (str "db") (IOError [] []) (sample_flush_db m) ∅ sample_flush_world = Some (d', pending', w') ∧
  imm_ d' = None ∧ flush_done bytes_ok BytewiseComparator (λ w n, w.2 !! n) sample_tables sample_version [sample_flush_entry] (sample_flush_db m) d' w'.
Proof.
  destruct (Add_MemInv (valid := bytes_ok) (MemTable_make BytewiseComparator) [] sample_flush_entry MemInv_make) as (m & _ & HM); [by_compute|by intros e' ?%not_elem_of_nil|].
  destruct (memtable_compaction_correct sample_flush_ops sample_flush_env fst sample_flush_children (λ _ w, w) bytes_ok BytewiseComparator sample_name (str "db") (IOError [] [])
    (λ w n, w.2 !! n) Some (λ _, True) sample_tables sample_version m [sample_flush_entry] (sample_flush_db m) ∅ sample_flush_world) as (d' & p' & w' & E & _ & _ & _ & Hd).
  - apply BytewiseComparator_ok.
  - apply sample_flush_ops_ok.
  - apply sample_flush_local.
  - done.
  - by apply sample_flush_start.
  - assert (Hdone := Hd 0 sample_flush_reliable sample_flush_env_ok eq_refl eq_refl ltac:(by_compute)).
    exact (ex_intro _ m (ex_intro _ d' (ex_intro _ p' (ex_intro _ w' (conj E (conj (proj1 Hdone) Hdone)))))).
Defined.
