(* ===== verification/DbScan.v ===== *)
(** * Scans and merged inputs

    Model of the iterators that range over many sources: [MemTableIterator]
    ([App/integration/memtable.cpp]); [GetFileIterator], [NewConcatenatingIterator],
    [AddIterators], [SU_PrepareInputs] and [MakeInputIterator] ([version_set.cpp]);
    [NewInternalIterator], [CleanupIteratorState] and [NewIterator] ([db_impl.cpp]).

    A concatenating iterator opens a table when it gets there: [late] is what
    [TableCache::NewIterator] returns then, in whatever state the cache is in.  A memtable is
    iterated over as it is when the iterator is made; what is added later is newer than the
    snapshot.  [None] is a failed assertion. *)
From S2P Require Import Prelude Coding Comparator DbFormat Random Logging Log Status Filename WriteBatch Block Filter Format TableBuilder Table Cache TableCache SkipList MemTable Compaction Iterator Merger TwoLevelIterator VersionEdit Version VersionBuilder VersionSet CompactionPick CompactionInstall CompactionWork DbIter DbWrite Flush CompactMem DbRead.
From stdpp Require Import sorting list gmap.

#[local] Open Scope Z_scope.

(** ** The memtable iterator *)

Record MemTableIterator := { mi_mem : MemTable; mi_node : option nat }.
Definition MemTableIterator_make (m : MemTable) : MemTableIterator := {| mi_mem := m; mi_node := None |}.
Definition at_node (x : option nat) (s : MemTableIterator) : MemTableIterator := {| mi_mem := mi_mem s; mi_node := x |}.

#[export] Instance MemTableIterator_Iterator : Iterator MemTableIterator := {
  Valid s := bool_decide (is_Some (mi_node s));
  SeekToFirst s := Some (at_node (Iterator_SeekToFirst (table_ (mi_mem s))) s);
  SeekToLast s := x ← Iterator_SeekToLast (table_ (mi_mem s)); Some (at_node x s);
  Seek k s := x ← MemTableIterator_Seek (mi_mem s) k; Some (at_node x s);
  Next s := x ← mi_node s; Some (at_node (Iterator_Next (table_ (mi_mem s)) x) s);
  Prev s := x ← mi_node s; y ← Iterator_Prev (table_ (mi_mem s)) x; Some (at_node y s);
  key s := x ← mi_node s; MemTableIterator_key (mi_mem s) x;
  value s := x ← mi_node s; MemTableIterator_value (mi_mem s) x;
  status _ := OK;
}.

(** ** The iterators of a version, a compaction and the database *)

Section Scan.
Context {C H : Type} `{!Cache C H TableAndFile} (user : Comparator) (verify : bool) (late : Z → Z → EmptyIterator + TableIterator).
Abbreviation icmp := (InternalKeyComparator user).
Abbreviation TC := (TableCache (C := C)).
#[local] Instance level_iterator : Iterator LevelFileNumIterator := LevelFileNumIterator_Iterator user.

Definition GetFileIterator (file_value : bytes) : EmptyIterator + TableIterator :=
  if negb (zlen file_value =? 16) then inl (NewErrorIterator (Corruption (str "FileReader invoked with unexpected value") []))
  else late (DecodeFixed64 file_value) (DecodeFixed64 (drop 8 file_value)).

Definition ConcatIterator : Type := TwoLevelIterator LevelFileNumIterator (EmptyIterator + TableIterator).
#[local] Instance concat_iterator : Iterator ConcatIterator := TwoLevelIterator_Iterator.

Definition concatenating (files : list FileMetaData) : option ConcatIterator :=
  NewTwoLevelIterator (S (length files)) (LevelFileNumIterator_make files) GetFileIterator.
Definition NewConcatenatingIterator (v : Version) (level : Z) : option ConcatIterator := concatenating (level_files v level).

(** A child of a merging iterator: a memtable, a table, or a level. *)
Definition Child : Type := MemTableIterator + ((EmptyIterator + TableIterator) + ConcatIterator).
#[local] Instance child_iterator : Iterator Child := sum_Iterator.

(** An iterator per table, with the handles they hold in the cache. *)
Fixpoint table_iterators (files : list FileMetaData) (tc : TC) : option (list Child * list H * TC) :=
  match files with
  | [] => Some ([], [], tc)
  | f :: files =>
      '(it, _, h, tc) ← TableCache_NewIterator verify (number f) (file_size f) tc;
      '(its, hs, tc) ← table_iterators files tc;
      Some (inr (inl it) :: its, option_list h ++ hs, tc)
  end.

(** The levels from [level] on. *)
Fixpoint level_iterators (fuel : nat) (v : Version) (level : Z) : option (list Child) :=
  match fuel with
  | O => Some []
  | S fuel =>
      its ← level_iterators fuel v (level + 1);
      match level_files v level with
      | [] => Some its
      | _ :: _ => it ← NewConcatenatingIterator v level; Some (inr (inr it) :: its)
      end
  end.

Definition AddIterators (v : Version) (tc : TC) : option (list Child * list H * TC) :=
  '(its, hs, tc) ← table_iterators (level_files v 0) tc;
  its' ← level_iterators (Z.to_nat (kNumLevels - 1)) v 1;
  Some (its ++ its', hs, tc).

Definition input_iterators (level : Z) (files : list FileMetaData) (tc : TC) : option (list Child * list H * TC) :=
  match files with
  | [] => Some ([], [], tc)
  | _ :: _ => if level =? 0 then table_iterators files tc else it ← concatenating files; Some ([inr (inr it)], [], tc)
  end.

Definition SU_PrepareInputs (c : Compaction) (tc : TC) : option (list Child * list H * TC) :=
  let space := if level_ c =? 0 then zlen (inputs0 c) + 1 else 2 in
  '(its, hs, tc) ← input_iterators (level_ c) (inputs0 c) tc;
  '(its', hs', tc) ← input_iterators (level_ c + 1) (inputs1 c) tc;
  if space <? zlen (its ++ its') then None else Some (its ++ its', hs ++ hs', tc).

Definition MergedIterator : Type := EmptyIterator + (Child + MergingIterator Child).
#[local] Instance merged_iterator : Iterator MergedIterator := sum_Iterator.

Definition MakeInputIterator (c : Compaction) (tc : TC) : option (MergedIterator * list H * TC) :=
  '(its, hs, tc) ← SU_PrepareInputs c tc;
  it ← NewMergingIterator icmp its;
  Some (it, hs, tc).

(** What the cleanup function of an iterator gives back. *)
Record IterState := { state_version : nat; state_mem : MemTable; state_imm : option MemTable }.
Definition CleanupIteratorState (st : IterState) (vl : VersionList) : option (option MemTable * option MemTable * VersionList) :=
  vl ← Version_Unref (state_version st) vl; Some (MemTable_Unref (state_mem st), state_imm st ≫= MemTable_Unref, vl).

(** An iterator of the database with its snapshot, the seed and what it holds. *)
Record Opened (I : Type) := { op_iter : I; op_latest : Z; op_seed : Z; op_state : IterState; op_handles : list H; op_db : DBImpl; op_cache : TC }.
Arguments op_iter {I}. Arguments op_latest {I}. Arguments op_seed {I}. Arguments op_state {I}. Arguments op_handles {I}. Arguments op_db {I}. Arguments op_cache {I}.

(** [mem_->NewIterator()] *)
Definition MemTable_NewIterator (m : MemTable) : Child := inl (MemTableIterator_make m).

Definition NewInternalIterator (seed_ : Z) (d : DBImpl) (tc : TC) : option (Opened MergedIterator) :=
  let latest_snapshot := vs_last_sequence (db_versions_ d) in
  let mem := MemTable_Ref (mem_ d) in
  let imm := MemTable_Ref <$> imm_ d in
  let d := with_imm imm (with_mem mem d) in
  v ← current (versions_ (db_versions_ d));
  '(its, hs, tc) ← AddIterators v tc;
  it ← NewMergingIterator icmp (MemTable_NewIterator mem :: option_list (MemTable_NewIterator <$> imm) ++ its);
  let id := current_id (versions_ (db_versions_ d)) in
  vl ← Version_Ref id (versions_ (db_versions_ d));
  Some {| op_iter := it; op_latest := latest_snapshot; op_seed := u32 (seed_ + 1); op_state := {| state_version := id; state_mem := mem; state_imm := imm |};
          op_handles := hs; op_db := with_versions (with_list vl (db_versions_ d)) d; op_cache := tc |}.

(** [fuel] bounds the scans of the iterator made. *)
Definition NewIterator (fuel : nat) (snapshot : option Z) (seed_ : Z) (d : DBImpl) (tc : TC) : option (Opened (DBIter MergedIterator)) :=
  o ← NewInternalIterator seed_ d tc;
  Some {| op_iter := NewDBIterator fuel (op_iter o) (default (op_latest o) snapshot) (op_seed o); op_latest := op_latest o; op_seed := op_seed o; op_state := op_state o;
          op_handles := op_handles o; op_db := op_db o; op_cache := op_cache o |}.
End Scan.
Arguments op_iter {C H I}. Arguments op_latest {C H I}. Arguments op_seed {C H I}. Arguments op_state {C H I}. Arguments op_handles {C H I}. Arguments op_db {C H I}. Arguments op_cache {C H I}.

(** ** Keys that fit in a memtable *)

(** The length of a key in a memtable has 32 bits. *)
Definition short_key (valid : bytes → Prop) (k : bytes) : Prop := internal_valid valid k ∧ zlen k < 2 ^ 32.

Section Short.
Context {valid : bytes → Prop} {user : Comparator} `{HU : !ComparatorOk valid user}.
Abbreviation icmp := (InternalKeyComparator user).

Lemma user_key_length k : (8 <= length k)%nat → zlen (ExtractUserKey k) = zlen k - 8.
Proof using Type. intros Hk. unfold ExtractUserKey, zlen. rewrite length_take. lia. Qed.

(** A shortened key is no longer than the key. *)
#[export] Instance short_key_comparator : ComparatorOk (short_key valid) icmp.
Proof using HU.
  destruct (InternalKeyComparator_ok (valid := valid) (user := user)) as [H1 H2 H3 H4 H5 H6 H7 H8 H9 H10 H11].
  assert (Hput : ∀ tmp x, zlen (PutFixed64 tmp x) = zlen tmp + 8) by (intros tmp x; unfold PutFixed64; rewrite zlen_app; unfold zlen; rewrite EncodeFixed64_length; lia).
  split; unfold short_key.
  - intros a [Ha _]. eauto.
  - intros a [Ha _]. eauto.
  - intros a b [Ha _] [Hb _]. eauto.
  - intros a b [Ha _] [Hb _]. eauto.
  - intros x y z [Hx _] [Hy _] [Hz _]. eauto.
  - intros s l [Hs Hz] [Hl _]. split; [eauto|]. cbn [FindShortestSeparator InternalKeyComparator]. unfold InternalKeyComparator_FindShortestSeparator. destruct (_ && _) eqn:E; [|done].
    apply andb_true_iff in E as [E%Z.ltb_lt _]. rewrite Hput. rewrite (user_key_length s) in E by apply Hs. lia.
  - intros s l [Hs _] [Hl _]. eauto.
  - intros s l [Hs _] [Hl _]. eauto.
  - intros s l [Hs _] [Hl _]. eauto.
  - intros k [Hk Hz]. split; [eauto|]. cbn [FindShortSuccessor InternalKeyComparator]. unfold InternalKeyComparator_FindShortSuccessor. destruct (_ && _) eqn:E; [|done].
    apply andb_true_iff in E as [E%Z.ltb_lt _]. rewrite Hput. rewrite (user_key_length k) in E by apply Hk. lia.
  - intros k [Hk _]. eauto.
Qed.

Lemma entry_short e : entry_ok valid e → short_key valid (entry_ikey e).
Proof using HU. intros (_ & Hv & Hk & _). split; [by apply (ikey_valid (valid := valid) (user := user))|]. unfold entry_ikey. rewrite zlen_ikey. lia. Qed.

Lemma positioned_short {S} `{!Iterator S} l (it : S) p : positioned (internal_valid valid) icmp l it p → positioned (short_key valid) icmp l it p.
Proof using Type. intros (R & [R1 R2 R3 R4 R5 R6 R7 R8 R9 R10] & HR). exists R. split; [|done]. split; try done. intros t s q [Ht _]. by apply R8. Qed.

Lemma positioned_inl {A B} `{!Iterator A, !Iterator B} vt c l (a : A) p : positioned vt c l a p → positioned vt c l (inl a : A + B) p.
Proof using Type. intros (R & HO & HR). eexists. split; [apply (sum_ok_l _ HO)|done]. Qed.
Lemma positioned_inr {A B} `{!Iterator A, !Iterator B} vt c l (b : B) p : positioned vt c l b p → positioned vt c l (inr b : A + B) p.
Proof using Type. intros (R & HO & HR). eexists. split; [apply (sum_ok_r _ HO)|done]. Qed.
End Short.

(** ** The memtable iterator keeps the interface *)

Section MemIter.
Context {valid : bytes → Prop} {user : Comparator} `{HU : !ComparatorOk valid user}.
Abbreviation icmp := (InternalKeyComparator user).
Context (m : MemTable) (es : list Entry) (chain : list nat).
Context (Hcmp : compare_ (table_ m) = KeyComparator user) (HI : SkipList.Inv (entry_valid (valid := valid)) (table_ m) chain)
  (Hkeys : keys (table_ m) chain = entry_bytes <$> es) (Hes : Forall (entry_ok valid) es).

Lemma chain_nodes : ∀ i, match chain !! i, es !! i with Some x, Some e => key_of (table_ m) x = Some (entry_bytes e) | None, None => True | _, _ => False end.
Proof using HI Hkeys.
  assert (Hgen : ∀ c l, (∀ x, x ∈ c → is_Some (key_of (table_ m) x)) → keys (table_ m) c = entry_bytes <$> l →
    ∀ i, match c !! i, l !! i with Some x, Some e => key_of (table_ m) x = Some (entry_bytes e) | None, None => True | _, _ => False end).
  { induction c as [|x c IH]; intros l Hn Hk i; [by destruct l, i|]. cbn in Hk. destruct (Hn x ltac:(by left)) as [k Hx]. rewrite Hx in Hk. destruct l as [|e l]; [done|]. injection Hk as -> Hk.
    destruct i as [|i]; [done|]. cbn. apply IH; [intros y Hy; apply Hn; by right|done]. }
  apply Hgen; [|done]. intros x Hx. destruct (inv_node _ _ _ HI x Hx) as (_ & _ & k & Hk & _). eauto.
Qed.

Lemma chain_length : length chain = length es.
Proof using HI Hkeys.
  destruct (Nat.lt_trichotomy (length chain) (length es)) as [Hl|[?|Hl]]; [exfalso|done|exfalso].
  - destruct (lookup_lt_is_Some_2 es _ Hl) as [e He]. pose proof (chain_nodes (length chain)) as Hc. by rewrite He, (proj2 (lookup_ge_None chain (length chain))) in Hc.
  - destruct (lookup_lt_is_Some_2 chain _ Hl) as [x Hx]. pose proof (chain_nodes (length es)) as Hc. by rewrite Hx, (proj2 (lookup_ge_None es (length es))) in Hc.
Qed.

Definition MemR (s : MemTableIterator) (p : option nat) : Prop := mi_mem s = m ∧ mi_node s = p ≫= (chain !!.) ∧ ∀ i, p = Some i → (i < length chain)%nat.

Lemma MemR_at s i : mi_mem s = m → MemR (at_node (chain !! i) s) (at_index (entry_kv <$> es) i).
Proof using HI Hkeys.
  intros Hm. unfold at_index. rewrite length_fmap, <- chain_length. case_decide as Hi; (split; [done|]); (split; [|intros j [= <-]; done]); cbn; [done|]. apply lookup_ge_None. lia.
Qed.

Lemma MemR_before s i : mi_mem s = m → (i <= length chain)%nat → MemR (at_node (last (take i chain)) s) (before i).
Proof using Type.
  intros Hm Hi. split; [done|]. destruct i as [|i]; cbn [before]; [done|]. split; [|intros j [= <-]; lia].
  destruct (lookup_lt_is_Some_2 chain i ltac:(lia)) as [x Hx]. cbn. rewrite (take_S_r chain i x Hx), last_snoc. done.
Qed.

Lemma MemR_split s i : MemR s (Some i) → ∃ x e, mi_mem s = m ∧ mi_node s = Some x ∧ chain = take i chain ++ x :: drop (S i) chain ∧ es !! i = Some e ∧ entry_ok valid e ∧ key_of (table_ m) x = Some (entry_bytes e).
Proof using HI Hkeys Hes.
  intros (Hm & Hn & Hi). destruct (lookup_lt_is_Some_2 chain i (Hi i eq_refl)) as [x Hx]. pose proof (chain_nodes i) as Hc. rewrite Hx in Hc. destruct (es !! i) as [e|] eqn:He; [|done].
  exists x, e. cbn in Hn. rewrite Hx in Hn. split_and!; try done; [by rewrite (take_drop_middle chain i x Hx)|by apply (Forall_lookup_1 _ _ _ _ Hes He)].
Qed.

Lemma head_at (A B : list nat) : head B = (A ++ B) !! length A.
Proof using Type. rewrite lookup_app_r, Nat.sub_diag by lia. by destruct B. Qed.

Lemma EncodeKey_valid t : short_key valid t → entry_valid (valid := valid) (EncodeKey t) ∧ GetLengthPrefixedSlice_ptr (EncodeKey t) = Some t.
Proof using Type.
  intros [Ht Hz]. assert (E : EncodeKey t = EncodeVarint32 (zlen t) ++ t ++ []).
  { unfold EncodeKey, PutVarint32. rewrite u32_small by (pose proof (zlen_nonneg t); unfold is_u; lia). by rewrite app_nil_r. }
  rewrite E. split; [by exists t, []|by apply GetLengthPrefixedSlice_ptr_app].
Qed.

Lemma mem_seek t : short_key valid t → MemTableIterator_Seek m t = Some (chain !! lower_bound icmp (entry_kv <$> es) t).
Proof using All.
  intros Ht. destruct (EncodeKey_valid t Ht) as [Hv Hptr]. assert (HOrd : OrderOk (entry_valid (valid := valid)) (compare_ (table_ m))) by (rewrite Hcmp; apply _).
  destruct (sorted_split _ (table_ m) chain (EncodeKey t) HOrd HI Hv) as (A & B & E & HA & HB).
  assert (HI' : SkipList.Inv (entry_valid (valid := valid)) (table_ m) (A ++ B)) by (by rewrite <- E).
  destruct (FindGreaterOrEqual_spec _ (table_ m) A B (EncodeKey t) HI' HA HB) as (prev & HF & _). destruct (split_keys _ (table_ m) A B (EncodeKey t) HI' HA HB) as [KA KB].
  unfold MemTableIterator_Seek, Iterator_Seek. rewrite HF. cbn [fmap option_fmap option_map fst]. f_equal. rewrite (head_at A B), <- E. f_equal. symmetry.
  assert (Hnode : ∀ i x, chain !! i = Some x → ∃ e, es !! i = Some e ∧ key_of (table_ m) x = Some (entry_bytes e) ∧ KeyComparator user (entry_bytes e) (EncodeKey t) = Compare icmp (entry_ikey e) t).
  { intros i x Hx. pose proof (chain_nodes i) as Hc. rewrite Hx in Hc. destruct (es !! i) as [e|] eqn:He; [|done]. exists e. split_and!; try done.
    apply (KeyComparator_entries (valid := valid)); [by apply (Forall_lookup_1 _ _ _ _ Hes He)|done]. }
  apply cut_unique.
  - rewrite length_fmap, <- chain_length, E, length_app. lia.
  - intros i kv Hi Hkv. destruct (lookup_lt_is_Some_2 A i Hi) as [x Hx]. assert (Hx' : chain !! i = Some x) by (rewrite E; by rewrite lookup_app_l).
    destruct (Hnode i x Hx') as (e & He & Hk & Hc). rewrite list_lookup_fmap, He in Hkv. injection Hkv as <-. destruct (KA x ltac:(by eapply list_elem_of_lookup_2)) as (k & Hk' & _ & Hlt).
    rewrite Hk in Hk'. injection Hk' as <-. rewrite Hcmp, Hc in Hlt. by apply Z.ltb_lt.
  - intros kv Hkv. rewrite list_lookup_fmap in Hkv. destruct (es !! length A) as [e|] eqn:He; [|done]. injection Hkv as <-. pose proof (chain_nodes (length A)) as Hc. rewrite He, E in Hc.
    rewrite <- head_at in Hc. destruct B as [|x B]; [done|]. cbn in Hc. destruct (KB x ltac:(by left)) as (k & Hk' & _ & Hge). rewrite Hc in Hk'. injection Hk' as <-.
    rewrite Hcmp, (KeyComparator_entries (valid := valid) e _ t) in Hge; [by apply Z.ltb_ge|by apply (Forall_lookup_1 _ _ _ _ Hes He)|done].
Qed.

Lemma MemTableIterator_ok : IteratorOk (short_key valid) icmp (entry_kv <$> es) MemR.
Proof using All.
  pose proof chain_length as Hlen. assert (HOrd : OrderOk (entry_valid (valid := valid)) (compare_ (table_ m))) by (rewrite Hcmp; apply _).
  split; cbn [Valid SeekToFirst SeekToLast Seek Next Prev key value status MemTableIterator_Iterator].
  - intros s i (_ & _ & Hi). rewrite length_fmap, <- Hlen. by apply Hi.
  - intros s p (_ & Hn & Hi). rewrite Hn. apply bool_decide_ext. destruct p as [i|]; [|done]. cbn. split; [done|]. intros _. apply lookup_lt_is_Some_2. by apply Hi.
  - intros s i kv HR Hkv. destruct (MemR_split s i HR) as (x & e & -> & -> & _ & He & Hok & Hk). rewrite list_lookup_fmap, He in Hkv. injection Hkv as <-. cbn [mbind option_bind].
    unfold MemTableIterator_key. rewrite Hk. cbn [mbind option_bind]. by apply (entry_bytes_ikey (valid := valid)).
  - intros s i kv HR Hkv. destruct (MemR_split s i HR) as (x & e & -> & -> & _ & He & Hok & Hk). rewrite list_lookup_fmap, He in Hkv. injection Hkv as <-. cbn [mbind option_bind].
    by apply (iterator_value (valid := valid)).
  - done.
  - intros s p (Hm & _). eexists. split; [done|]. rewrite Hm, (Iterator_SeekToFirst_spec _ _ _ HI). rewrite (head_at [] chain). by apply MemR_at.
  - intros s p (Hm & _). rewrite Hm, (Iterator_SeekToLast_spec _ _ _ HI). cbn [mbind option_bind]. eexists. split; [done|]. rewrite length_fmap, <- Hlen.
    pose proof (MemR_before s (length chain) Hm ltac:(lia)) as HR. by rewrite firstn_all in HR.
  - intros t s p Ht (Hm & _). rewrite Hm, (mem_seek t Ht). cbn [mbind option_bind]. eexists. split; [done|]. by apply MemR_at.
  - intros s i HR. destruct (MemR_split s i HR) as (x & e & Hm & -> & E & _). rewrite Hm. cbn [mbind option_bind]. eexists. split; [done|].
    assert (HI' : SkipList.Inv (entry_valid (valid := valid)) (table_ m) (take i chain ++ x :: drop (S i) chain)) by (by rewrite <- E). rewrite (Iterator_Next_spec _ _ _ _ _ HI'). rewrite (head_at (take i chain ++ [x])), <- app_assoc. cbn [app]. rewrite <- E.
    assert (length (take i chain ++ [x]) = S i) as ->; [|by apply MemR_at]. rewrite length_app, length_take. destruct HR as (_ & _ & Hi). specialize (Hi i eq_refl). cbn. lia.
  - intros s i HR. destruct (MemR_split s i HR) as (x & e & Hm & -> & E & _). rewrite Hm. cbn [mbind option_bind].
    assert (HI' : SkipList.Inv (entry_valid (valid := valid)) (table_ m) (take i chain ++ x :: drop (S i) chain)) by (by rewrite <- E). rewrite (Iterator_Prev_spec _ _ _ _ _ HOrd HI'). cbn [mbind option_bind]. eexists. split; [done|]. apply MemR_before; [done|]. destruct HR as (_ & _ & Hi). specialize (Hi i eq_refl). lia.
Qed.
End MemIter.

Section Sources.
Context {valid : bytes → Prop} {user : Comparator} `{HU : !ComparatorOk valid user}.
Abbreviation icmp := (InternalKeyComparator user).
Abbreviation sorted es := (sorted_kvs (short_key valid) icmp (entry_kv <$> es)).
Abbreviation at_list it es := (positioned (short_key valid) icmp (entry_kv <$> es) it None).

Lemma sorted_short es : sorted_kvs (internal_valid valid) icmp (entry_kv <$> es) → Forall (entry_ok valid) es → sorted es.
Proof using HU. intros [_ Hs] Hok. split; [|done]. apply Forall_fmap. eapply Forall_impl; [exact Hok|]. intros e He. by apply (entry_short (user := user)). Qed.

Lemma MemTableIterator_make_ok m E : MemInv valid user m E → ∃ es, es ≡ₚ E ∧ Forall (entry_ok valid) es ∧ sorted es ∧ at_list (MemTableIterator_make m) es.
Proof using HU.
  intros (_ & HE & Hc & es & Hp & (HO & c & HI & Hk)). assert (Hok : Forall (entry_ok valid) es) by (by rewrite Hp). exists es. split; [done|]. split; [done|]. split.
  - split; [apply Forall_fmap; eapply Forall_impl; [exact Hok|]; intros e He; by apply (entry_short (user := user))|]. pose proof (keys_sorted _ _ _ HI) as Hs. rewrite Hk, Hc in Hs. clear -Hs Hok HU.
    induction Hok as [|e es He Hok IH]; [constructor|]. rewrite fmap_cons in Hs. rewrite fmap_cons. apply StronglySorted_inv in Hs as [Hs Hx]. constructor; [by apply IH|].
    rewrite Forall_fmap in Hx. rewrite Forall_fmap. rewrite Forall_forall in Hx, Hok |- *. intros e' He'. specialize (Hx e' He'). cbn [compose] in Hx |- *.
    by rewrite (KeyComparator_entries (valid := valid) e _ (entry_ikey e') He (entry_bytes_ikey e' (Hok e' He'))) in Hx.
  - exists (MemR m c). split; [by apply MemTableIterator_ok|]. by split.
Qed.

Context (tables : Z → option (Z * list Entry)) (late : Z → Z → EmptyIterator + TableIterator).
Abbreviation entries_of := (entries_of tables).
Abbreviation Describes := (Describes (valid := valid) (user := user) tables).

(** The files of a level, or some of them: in order, and opened when needed. *)
Record LevelFiles (files : list FileMetaData) : Prop := {
  lf_ok : LevelOk (valid := valid) (user := user) files;
  lf_describes f : f ∈ files → Describes f;
  lf_widths f : f ∈ files → is_u 64 (number f) ∧ is_u 64 (file_size f);
  lf_opens f : f ∈ files → ∃ p, positioned (short_key valid) icmp (entry_kv <$> entries_of f) (late (number f) (file_size f)) p;
}.

Lemma level_entries_sorted files : LevelOk (valid := valid) (user := user) files → (∀ f, f ∈ files → Describes f) → sorted (mjoin (entries_of <$> files)).
Proof using HU.
  intros [_ Hs _] Hd. assert (Hok : ∀ f, f ∈ files → Forall (entry_ok valid) (entries_of f)) by (intros f Hf; apply (d_sorted _ _ (Hd f Hf))).
  apply sorted_short; [|apply Forall_forall; intros e (l & He & (f & -> & Hf)%list_elem_of_fmap)%list_elem_of_join; by apply (proj1 (Forall_forall _ _) (Hok f Hf))].
  induction Hs as [|f files Hs IH Hf]; [by split; constructor|]. rewrite fmap_cons. change (mjoin (entries_of f :: (entries_of <$> files))) with (entries_of f ++ mjoin (entries_of <$> files)).
  rewrite fmap_app. destruct (d_sorted _ _ (Hd f ltac:(by left))) as [[S1 S2] _]. destruct IH as [I1 I2]; [intros; apply Hd; by right|intros; apply Hok; by right|].
  split; [by apply Forall_app|]. apply StronglySorted_app. split; [|done]. intros kv kv' (e & -> & He)%list_elem_of_fmap (e' & -> & (l & He' & (g & -> & Hg)%list_elem_of_fmap)%list_elem_of_join)%list_elem_of_fmap.
  rewrite Forall_forall in Hf. destruct (table_bounds tables f e (Hd f ltac:(by left)) He) as [_ B1]. destruct (table_bounds tables g e' (Hd g ltac:(by right)) He') as [B2 _].
  destruct (describes_FileOk tables f (Hd f ltac:(by left))) as [_ V1 _ _ _]. destruct (describes_FileOk tables g (Hd g ltac:(by right))) as [V2 _ _ _ _].
  assert (W : ∀ x h, x ∈ entries_of h → h ∈ f :: files → internal_valid valid (entry_ikey x)) by (intros x h Hx Hh; apply (entry_short (user := user)); by apply (proj1 (Forall_forall _ _) (Hok h Hh))).
  unfold key_lt. cbn [fst entry_kv]. apply (Compare_le_lt (valid := internal_valid valid) _ (largest f)); [by apply (W _ f); [|left]|done|by apply (W _ g); [|right]|done|].
  apply (Compare_lt_le (valid := internal_valid valid) _ (smallest g)); [done|done|by apply (W _ g); [|right]|by apply Hf|done].
Qed.

Definition block_at (h : bytes) : list (bytes * bytes) := match tables (DecodeFixed64 h) with Some (_, es) => entry_kv <$> es | None => [] end.

Lemma file_value_decodes f : is_u 64 (number f) → is_u 64 (file_size f) →
  zlen (file_kv f).2 = 16 ∧ DecodeFixed64 (file_kv f).2 = number f ∧ DecodeFixed64 (drop 8 (file_kv f).2) = file_size f.
Proof using Type.
  intros Hn Hz. cbn [file_kv snd]. split_and!.
  - unfold zlen. rewrite length_app, !EncodeFixed64_length. done.
  - by rewrite DecodeEncodeFixed64, u64_small.
  - rewrite drop_app_length' by (by rewrite EncodeFixed64_length). rewrite <- (app_nil_r (EncodeFixed64 (file_size f))). by rewrite DecodeEncodeFixed64, u64_small.
Qed.

Lemma block_at_file f : is_u 64 (number f) → is_u 64 (file_size f) → block_at (file_kv f).2 = entry_kv <$> entries_of f.
Proof using Type. intros Hn Hz. unfold block_at. destruct (file_value_decodes f Hn Hz) as (_ & -> & _). unfold Version.entries_of. by destruct (tables (number f)) as [[? es]|]. Qed.

Lemma join_kvs (files : list FileMetaData) : (∀ f, f ∈ files → is_u 64 (number f) ∧ is_u 64 (file_size f)) →
  mjoin (block_at ∘ snd <$> level_kvs files) = entry_kv <$> mjoin (entries_of <$> files).
Proof using Type.
  induction files as [|f files IH]; intros Hw; [done|]. unfold level_kvs. rewrite !fmap_cons. change (mjoin (entries_of f :: (entries_of <$> files))) with (entries_of f ++ mjoin (entries_of <$> files)).
  rewrite fmap_app. cbn [compose]. destruct (Hw f ltac:(by left)). rewrite <- (block_at_file f) by done. rewrite <- IH by (intros; apply Hw; by right). done.
Qed.

Lemma concatenating_ok files : LevelFiles files → ∃ it, concatenating user late files = Some it ∧
  positioned (Iterator0 := TwoLevelIterator_Iterator (Iterator0 := LevelFileNumIterator_Iterator user)) (short_key valid) icmp (entry_kv <$> mjoin (entries_of <$> files)) it None.
Proof using HU.
  intros [HL Hd Hw Ho]. pose proof (level_entries_sorted files HL Hd) as Hs. rewrite <- (join_kvs files Hw) in Hs |- *.
  assert (Hin : ∀ i kh, level_kvs files !! i = Some kh → ∃ f, f ∈ files ∧ files !! i = Some f ∧ kh = file_kv f ∧ block_at kh.2 = entry_kv <$> entries_of f).
  { intros i kh Hi. unfold level_kvs in Hi. rewrite list_lookup_fmap in Hi. destruct (files !! i) as [f|] eqn:Ef; [|done]. injection Hi as <-. assert (Hf : f ∈ files) by (by eapply list_elem_of_lookup_2).
    exists f. split_and!; try done. by apply block_at_file; apply Hw. }
  apply (NewTwoLevelIterator_ok (X := LevelFileNumIterator) (short_key valid) icmp (level_kvs files) block_at).
  - apply _.
  - split; [|done|..].
    + destruct (level_kvs_sorted files HL) as [_ S2]. split; [|done]. apply Forall_fmap, Forall_forall. intros f Hf. cbn. destruct (describes_ends tables f (Hd f Hf)) as (_ & e & _ & _ & _ & -> & _ & He). by apply (entry_short (user := user)).
    + intros i kh x Hi Hx. destruct (Hin i kh Hi) as (f & Hf & _ & -> & Eb). rewrite Eb in Hx. apply list_elem_of_fmap in Hx as (e & -> & He). apply (table_bounds tables f e (Hd f Hf) He).
    + intros i j kh kh' x Hij Hi Hj Hx. destruct (Hin i kh Hi) as (f & Hf & Lf & -> & _), (Hin j kh' Hj) as (g & Hg & Lg & -> & Eb). rewrite Eb in Hx. apply list_elem_of_fmap in Hx as (e & -> & He).
      destruct (table_bounds tables g e (Hd g Hg) He) as [B _]. pose proof (StronglySorted_lookup_lt _ _ i j f g (level_disjoint _ HL) Hij Lf Lg) as Hlt.
      destruct (describes_FileOk tables f (Hd f Hf)) as [_ V1 _ _ _]. destruct (describes_FileOk tables g (Hd g Hg)) as [V2 _ _ _ _]. cbn [fst entry_kv file_kv].
      apply (Compare_lt_le (valid := internal_valid valid) _ (smallest g)); try done. apply (entry_short (user := user)). by apply (proj1 (Forall_forall _ _) (proj2 (d_sorted _ _ (Hd g Hg)))).
  - exists None. apply positioned_short. exists (LevelR files). split; [by apply LevelFileNumIterator_ok|]. split; [done|]. split; [|done]. cbn. rewrite u32_small; [done|].
    pose proof (level_size _ HL). pose proof (zlen_nonneg files). unfold is_u. lia.
  - intros kh (f & -> & Hf)%list_elem_of_fmap. destruct (Hw f Hf) as [W1 W2]. destruct (file_value_decodes f W1 W2) as (D1 & D2 & D3). rewrite (block_at_file f W1 W2).
    unfold GetFileIterator. rewrite D1, D2, D3. cbn [Z.eqb negb]. by apply Ho.
  - unfold level_kvs. rewrite length_fmap. lia.
Qed.

(** ** Children *)

#[local] Existing Instances concat_iterator child_iterator merged_iterator.

(** A child that ranges over [es]. *)
Definition source (it : Child) (es : list Entry) : Prop :=
  sorted es ∧ Forall (entry_ok valid) es ∧ ∃ p, positioned (Iterator0 := child_iterator user) (short_key valid) icmp (entry_kv <$> es) it p.

Lemma level_ok files : LevelFiles files → ∃ it, concatenating user late files = Some it ∧ source (inr (inr it)) (mjoin (entries_of <$> files)).
Proof using HU.
  intros HL. destruct (concatenating_ok files HL) as (it & E & Hp). exists it. split; [done|]. split; [by apply level_entries_sorted; apply HL|]. split.
  - apply Forall_forall. intros e (l & He & (f & -> & Hf)%list_elem_of_fmap)%list_elem_of_join. by apply (proj1 (Forall_forall _ _) (proj2 (d_sorted _ _ (lf_describes _ HL f Hf)))).
  - exists None. by apply positioned_inr, positioned_inr.
Qed.

Lemma level_iterators_ok v fuel : ∀ level, (∀ l, level <= l < level + Z.of_nat fuel → LevelFiles (level_files v l)) →
  ∃ its ess, level_iterators user late fuel v level = Some its ∧ Forall2 source its ess ∧ mjoin ess = mjoin ((λ l, mjoin (entries_of <$> level_files v l)) <$> seqZ level (Z.of_nat fuel)).
Proof using HU.
  induction fuel as [|fuel IH]; intros level HL; [by exists [], []|]. destruct (IH (level + 1)) as (its & ess & E & HF & Hj); [intros l Hl; apply HL; lia|].
  rewrite seqZ_cons by lia. replace (Z.pred (Z.of_nat (S fuel))) with (Z.of_nat fuel) by lia. change (Z.succ level) with (level + 1). rewrite fmap_cons. cbn [level_iterators]. rewrite E. cbn [mbind option_bind].
  change (mjoin (mjoin (entries_of <$> level_files v level) :: ?l)) with (mjoin (entries_of <$> level_files v level) ++ mjoin l). rewrite <- Hj.
  destruct (level_ok (level_files v level)) as (it & E' & Hs); [apply HL; lia|]. unfold NewConcatenatingIterator. destruct (level_files v level) as [|f files] eqn:Ef.
  - by exists its, ess.
  - rewrite E'. cbn [mbind option_bind]. exists (inr (inr it) :: its), (mjoin (entries_of <$> f :: files) :: ess). split; [done|]. split; [by constructor|done].
Qed.

(** The iterators of children merge into one over all their entries. *)
Lemma merged_ok its ess E : Forall2 source its ess → sorted E → E ≡ₚ mjoin ess →
  ∃ it p, NewMergingIterator (Iterator0 := child_iterator user) icmp its = Some it ∧ positioned (Iterator0 := merged_iterator user) (short_key valid) icmp (entry_kv <$> E) it p.
Proof using HU.
  intros HF HE Hp. destruct (NewMergingIterator_ok (Iterator0 := child_iterator user) (short_key valid) icmp ((λ es : list Entry, entry_kv <$> es) <$> ess) (entry_kv <$> E) its) as (it & p & E' & Hpos & _).
  - apply _.
  - apply Forall_fmap. clear Hp. induction HF as [|i l its ess (Hs & _) HF IH]; constructor; done.
  - done.
  - rewrite Hp. clear. induction ess as [|l ess IH]; [done|]. change (mjoin (l :: ess)) with (l ++ mjoin ess). rewrite fmap_app, IH. done.
  - rewrite length_fmap. by apply Forall2_length in HF.
  - intros i s l Hi Hl. rewrite list_lookup_fmap in Hl. destruct (ess !! i) as [es|] eqn:Ee; [|done]. injection Hl as <-. by destruct (Forall2_lookup_lr _ _ _ _ _ _ HF Hi Ee) as (_ & _ & Hq).
  - by exists it, p.
Qed.

(** Tables opened through the cache. *)
Section Opening.
Context {C H : Type} `{!Cache C H TableAndFile} {CacheInv : C → list (H * TableAndFile) → (bytes → TableAndFile → Prop) → Prop} `{HCO : !CacheOk CacheInv} {policy : option FilterPolicy} (verify : bool).
Abbreviation TCInv := (TCInv CacheInv valid user policy (disk tables)).

Lemma describes_disk f : Describes f → disk tables (number f) = Some (file_size f, entry_kv <$> entries_of f).
Proof using Type. intros [(es & E) _ _ _]. unfold disk, Version.entries_of. by rewrite E. Qed.

Lemma describes_widths f (tc : TableCache (C := C)) hs : Describes f → TCInv tc hs → is_u 64 (number f) ∧ is_u 64 (file_size f).
Proof using Type.
  intros Hd (_ & _ & Hf & _). destruct (Hf _ _ _ (describes_disk f Hd)) as (Hn & file & data & _ & _ & -> & (_ & _ & _ & _ & Hz & _)). split; [done|]. pose proof (zlen_nonneg data). unfold is_u. lia.
Qed.

Lemma describes_opens f (tc : TableCache (C := C)) hs : Describes f → TCInv tc hs → zlen hs < 2 ^ 31 →
  ∃ it table h tf tc', TableCache_NewIterator verify (number f) (file_size f) tc = Some (it, Some table, Some h, tc') ∧ TCInv tc' ((h, tf) :: hs) ∧
    positioned (short_key valid) icmp (entry_kv <$> entries_of f) it None.
Proof using HCO HU.
  intros Hd HT Hz. destruct (TableCache_NewIterator_ok CacheInv valid user policy (disk tables) tc hs _ _ _ verify HT Hz (describes_disk f Hd)) as (it & table & h & tf & tc' & E & HT' & Hp).
  exists (inr it), table, h, tf, tc'. split; [done|]. split; [done|]. by apply positioned_inr, positioned_short.
Qed.

Lemma table_iterators_ok files : (∀ f, f ∈ files → Describes f) → ∀ (tc : TableCache (C := C)) hs, TCInv tc hs → zlen hs + zlen files < 2 ^ 31 →
  ∃ its held tc', table_iterators verify files tc = Some (its, reverse held.*1, tc') ∧ TCInv tc' (held ++ hs) ∧ zlen held = zlen files ∧ Forall2 source its (entries_of <$> files).
Proof using HCO HU.
  induction files as [|f files IH]; intros Hd tc hs HT Hz; [by exists [], [], tc|]. rewrite zlen_cons in Hz. pose proof (zlen_nonneg files). pose proof (zlen_nonneg hs).
  destruct (describes_opens f tc hs (Hd f ltac:(by left)) HT ltac:(lia)) as (it & table & h & tf & tc1 & E1 & HT1 & Hp).
  destruct (IH ltac:(intros; apply Hd; by right) tc1 ((h, tf) :: hs) HT1) as (its & held & tc2 & E2 & HT2 & Hl & HF); [rewrite zlen_cons; lia|].
  cbn [table_iterators]. rewrite E1. cbn [mbind option_bind]. rewrite E2. cbn [mbind option_bind option_list]. exists (inr (inl it) :: its), (held ++ [(h, tf)]), tc2.
  rewrite fmap_app, reverse_app. split; [done|]. split; [by rewrite <- app_assoc|]. split; [rewrite zlen_app, zlen_cons; unfold zlen in *; cbn; lia|]. constructor; [|done].
  split; [|split].
  - apply sorted_short; apply (d_sorted _ _ (Hd f ltac:(by left))).
  - apply (d_sorted _ _ (Hd f ltac:(by left))).
  - exists None. by apply positioned_inr, positioned_inl.
Qed.

(** Whenever a table is opened, the cache is in a good state. *)
Definition opened_late : Prop := ∀ n sz kvs, disk tables n = Some (sz, kvs) → ∃ (tc : TableCache (C := C)) hs table h tc',
  TCInv tc hs ∧ zlen hs < 2 ^ 31 ∧ TableCache_NewIterator verify n sz tc = Some (late n sz, table, h, tc').

Lemma level_files_ok files (tc : TableCache (C := C)) hs : opened_late → TCInv tc hs → LevelOk (valid := valid) (user := user) files → (∀ f, f ∈ files → Describes f) → LevelFiles files.
Proof using HCO HU.
  intros Hlate HT HL Hd. split; [done|done|intros f Hf; by apply (describes_widths f tc hs); [apply Hd|]|]. intros f Hf. exists None.
  destruct (Hlate _ _ _ (describes_disk f (Hd f Hf))) as (tc0 & hs0 & table & h & tc' & HT0 & Hz & E).
  destruct (describes_opens f tc0 hs0 (Hd f Hf) HT0 Hz) as (it & table' & h' & tf & tc'' & E' & _ & Hp). rewrite E in E'. by injection E' as <- _ _ _.
Qed.
End Opening.

(** ** All entries in order *)

Lemma ikey_parts e e' : entry_ok valid e → entry_ok valid e' → entry_ikey e = entry_ikey e' → e_key e = e_key e' ∧ e_seq e = e_seq e'.
Proof using HU.
  intros He He' E. apply (entry_ikey_inj (valid := valid) (user := user)); [done|done|]. rewrite E. apply (icmp_refl (valid := valid)). by apply (entry_short (user := user)).
Qed.

(** Entries of a user key: newer first, and a value before a deletion with its number. *)
Lemma ikey_order e e' : entry_ok valid e → entry_ok valid e' → Compare icmp (entry_ikey e) (entry_ikey e') < 0 → e_key e = e_key e' →
  e_seq e' < e_seq e ∨ (e_seq e' = e_seq e ∧ e_type e = kTypeValue ∧ e_type e' = kTypeDeletion).
Proof using HU.
  intros (S1 & V1 & _) (S2 & V2 & _) Hlt Hk. cbn [InternalKeyComparator Compare] in Hlt. unfold entry_ikey in Hlt.
  apply (icmp_lt (valid := valid)) in Hlt; [|by apply (ikey_valid (valid := valid) (user := user))..].
  rewrite !InternalKey_unfold, !ExtractUserKey_app, !internal_trailer_app, !u64_small, !Pack_sum in Hlt by (done || by apply Pack_range).
  destruct Hlt as [Hlt|[_ Hlt]]; [rewrite Hk, (Compare_refl (valid := valid)) in Hlt by done; lia|]. destruct (Z.lt_ge_cases (e_seq e') (e_seq e)); [by left|right]. destruct (e_type e), (e_type e'); simpl in Hlt; split_and!; done || lia.
Qed.

Lemma sorted_ikeys es : sorted es → NoDup (entry_ikey <$> es).
Proof using HU.
  intros [Hv Hs]. induction es as [|e es IH]; [constructor|]. rewrite fmap_cons in Hs, Hv. rewrite fmap_cons. apply StronglySorted_inv in Hs as [Hs Hx]. apply Forall_cons in Hv as [He Hv]. constructor; [|by apply IH].
  intros (e' & E & He')%list_elem_of_fmap. rewrite Forall_fmap in Hx. rewrite Forall_forall in Hx. specialize (Hx e' He'). unfold key_lt in Hx. cbn [fst entry_kv compose] in Hx. rewrite <- E in Hx.
  cbn [fst entry_kv] in He. rewrite (Compare_refl (valid := short_key valid) (c := icmp)) in Hx by done. lia.
Qed.

Lemma sort_exists E : Forall (entry_ok valid) E → NoDup (entry_ikey <$> E) → ∃ E', E' ≡ₚ E ∧ sorted E'.
Proof using HU.
  induction E as [|e E IH]; intros Hok Hnd; [exists []; split; [done|by split; constructor]|]. apply Forall_cons in Hok as [He Hok]. rewrite fmap_cons in Hnd. apply NoDup_cons in Hnd as [Hn Hnd].
  destruct (IH Hok Hnd) as (E' & Hp & Hv & Hs). set (P := λ x : Entry, Compare icmp (entry_ikey x) (entry_ikey e) < 0).
  exists (filter P E' ++ e :: filter (λ x, ¬ P x) E'). split; [by rewrite <- Permutation_middle, filter_app_complement, Hp|].
  assert (HV : ∀ x, x ∈ E' → short_key valid (entry_ikey x)) by (intros x Hx; by apply (proj1 (Forall_forall _ _) Hv (entry_kv x)), list_elem_of_fmap_2).
  assert (Hve : short_key valid (entry_ikey e)) by (by apply (entry_short (user := user))).
  assert (Hgt : ∀ x, x ∈ E' → ¬ P x → Compare icmp (entry_ikey e) (entry_ikey x) < 0).
  { intros x Hx Hnp. destruct (Z.lt_trichotomy (Compare icmp (entry_ikey x) (entry_ikey e)) 0) as [?|[H0|H0]]; [done| |by apply (Compare_swap (valid := short_key valid)); [|by apply HV|]].
    apply (Compare_eq (valid := short_key valid)) in H0; [|by apply HV|done]. exfalso. apply Hn. rewrite <- H0, <- Hp. by apply list_elem_of_fmap_2. }
  assert (Hsub : ∀ Q `{!∀ x, Decision (Q x)}, StronglySorted (key_lt icmp) (entry_kv <$> filter Q E')) by (intros Q ?; eapply StronglySorted_sublist_of; [|exact Hs]; apply fmap_sublist, sublist_filter).
  assert (Hcons : StronglySorted (key_lt icmp) (entry_kv <$> e :: filter (λ x, ¬ P x) E')).
  { rewrite fmap_cons. constructor; [apply Hsub|]. apply Forall_fmap, Forall_forall. intros x [Hx1 Hx2]%list_elem_of_filter. by apply Hgt. }
  rewrite fmap_app. split.
  - apply Forall_app. split; [|rewrite fmap_cons; constructor; [done|]]; apply Forall_fmap, Forall_forall; intros x [_ Hx]%list_elem_of_filter; by apply HV.
  - apply StronglySorted_app. split; [|split; [apply Hsub|exact Hcons]]. intros a b (x & -> & [Px Hx]%list_elem_of_filter)%list_elem_of_fmap (y & -> & [->|[Py Hy]%list_elem_of_filter]%elem_of_cons)%list_elem_of_fmap; [exact Px|].
    apply (Compare_trans (valid := short_key valid) (c := icmp) _ (entry_ikey e)); [by apply HV|done|by apply HV|exact Px|by apply Hgt].
Qed.

(** The first visible entry of a sorted list is the newest one. *)
Lemma first_visible_newest E u s x : sorted E → Forall (entry_ok valid) E →
  value_of (visible u s E) = Some x ↔ ∃ e, newest_of (λ e, e ∈ E ∧ e_key e = u ∧ e_seq e <= s) (Some e) ∧ e_type e = kTypeValue ∧ e_value e = x.
Proof using HU.
  intros [_ Hs] Hok. rewrite Forall_forall in Hok.
  assert (Hfirst : ∀ i j a b, (i < j)%nat → E !! i = Some a → E !! j = Some b → e_key a = e_key b → e_seq b < e_seq a ∨ (e_seq b = e_seq a ∧ e_type a = kTypeValue ∧ e_type b = kTypeDeletion)).
  { intros i j a b Hij Ha Hb. apply ikey_order; [by apply Hok; eapply list_elem_of_lookup_2..|].
    by apply (StronglySorted_lookup_lt _ _ i j (entry_kv a) (entry_kv b) Hs Hij); rewrite list_lookup_fmap, ?Ha, ?Hb. }
  assert (Hvis : ∀ e, visible u s E = Some e ↔ ∃ i, E !! i = Some e ∧ (e_key e = u ∧ e_seq e <= s) ∧ ∀ c y, (c < i)%nat → E !! c = Some y → ¬ (e_key y = u ∧ e_seq y <= s)).
  { intros e. unfold visible. rewrite find_Some_iff. apply exist_proper. intros i. rewrite andb_true_iff, bool_decide_eq_true, Z.leb_le.
    assert (Hb : ∀ y, bool_decide (e_key y = u) && (e_seq y <=? s) = false ↔ ¬ (e_key y = u ∧ e_seq y <= s)) by (intros y; rewrite <- not_true_iff_false, andb_true_iff, bool_decide_eq_true, Z.leb_le; done).
    setoid_rewrite Hb. done. }
  split.
  - destruct (visible u s E) as [e|]; [|done]. destruct (proj1 (Hvis e) eq_refl) as (i & He & Hu & Hn). simpl. destruct (e_type e) eqn:Et; [done|]. intros [= <-]. exists e. split; [|done].
    split; [by split; [eapply list_elem_of_lookup_2|]|]. intros e' ([j Hj]%list_elem_of_lookup & Hk' & Hq'). destruct (Nat.lt_trichotomy i j) as [Hij|[<-|Hij]]; [|by simplify_eq|by destruct (Hn j e' Hij Hj)].
    destruct (Hfirst i j e e' Hij He Hj) as [?|(? & _)]; [destruct Hu; congruence|lia..].
  - intros (e & [([i He]%list_elem_of_lookup & Hk & Hq) Hmax] & Ht & <-). assert (visible u s E = Some e) as ->; [|cbn; by rewrite Ht]. apply Hvis. exists i. split; [done|]. split; [done|].
    intros j y Hj Hy [Hky Hqy]. pose proof (Hmax y (conj (list_elem_of_lookup_2 _ _ _ Hy) (conj Hky Hqy))). destruct (Hfirst j i y e Hj Hy He) as [?|(_ & _ & ?)]; [congruence|lia|congruence].
Qed.

Lemma NoDup_join {A} (g : A → list Entry) (l : list A) : (∀ x, x ∈ l → NoDup (entry_ikey <$> g x)) →
  (∀ i j x y e e', (i < j)%nat → l !! i = Some x → l !! j = Some y → e ∈ g x → e' ∈ g y → entry_ikey e ≠ entry_ikey e') → NoDup (entry_ikey <$> mjoin (g <$> l)).
Proof using Type.
  induction l as [|x l IH]; intros H1 H2; [constructor|]. rewrite fmap_cons. change (mjoin (g x :: (g <$> l))) with (g x ++ mjoin (g <$> l)). rewrite fmap_app. apply NoDup_app. split; [apply H1; by left|]. split.
  - intros k (e & -> & He)%list_elem_of_fmap (e' & E & (m & He' & (y & -> & [j Hj]%list_elem_of_lookup)%list_elem_of_fmap)%list_elem_of_join)%list_elem_of_fmap.
    by apply (H2 0%nat (S j) x y e e' ltac:(lia) eq_refl Hj He He').
  - apply IH; [intros y Hy; apply H1; by right|]. intros i j y z e e' Hij Hi Hj. apply (H2 (S i) (S j)); [lia|done|done].
Qed.

(** The entries of a version, in the order its iterators are added. *)
Definition version_entries (v : Version) : list Entry :=
  mjoin (entries_of <$> level_files v 0) ++ mjoin ((λ l, mjoin (entries_of <$> level_files v l)) <$> seqZ 1 (kNumLevels - 1)).

Lemma elem_of_level v l e : e ∈ mjoin (entries_of <$> level_files v l) ↔ ∃ f, f ∈ level_files v l ∧ e ∈ entries_of f.
Proof using Type. rewrite list_elem_of_join. split; [intros (m & He & (f & -> & Hf)%list_elem_of_fmap); eauto|intros (f & Hf & He); exists (entries_of f); split; [done|by apply list_elem_of_fmap_2]]. Qed.

Lemma elem_of_version v e : e ∈ version_entries v ↔ ∃ l f, 0 <= l < kNumLevels ∧ f ∈ level_files v l ∧ e ∈ entries_of f.
Proof using Type.
  unfold version_entries. rewrite elem_of_app, elem_of_level. split.
  - intros [(f & Hf & He)|(m & He & (l & -> & Hl%elem_of_seqZ)%list_elem_of_fmap)%list_elem_of_join]; [exists 0, f; split; [done|done]|]. apply elem_of_level in He as (f & Hf & He). exists l, f. split; [lia|done].
  - intros (l & f & Hl & Hf & He). destruct (decide (l = 0)) as [->|Hne]; [left; eauto|right]. apply list_elem_of_join. exists (mjoin (entries_of <$> level_files v l)). split; [apply elem_of_level; eauto|].
    apply (list_elem_of_fmap_2 (λ l, mjoin (entries_of <$> level_files v l))), elem_of_seqZ. lia.
Qed.

Section Tree.
Context (v : Version) (Hv : VersionOk (valid := valid) (user := user) tables v).

Lemma version_entry_ok e : e ∈ version_entries v → entry_ok valid e.
Proof using Hv. intros (l & f & _ & Hf & He)%elem_of_version. by apply (proj1 (Forall_forall _ _) (proj2 (d_sorted _ _ (v_describes _ _ Hv l f Hf)))). Qed.

Lemma file_entry_ok l f e : f ∈ level_files v l → e ∈ entries_of f → entry_ok valid e.
Proof using Hv. intros Hf He. by apply (proj1 (Forall_forall _ _) (proj2 (d_sorted _ _ (v_describes _ _ Hv l f Hf)))). Qed.

(** Entries of files searched one after the other differ. *)
Lemma newer_differs l l' f f' e e' : 0 <= l → l < l' ∨ (l = 0 ∧ l' = 0 ∧ number f' < number f) → f ∈ level_files v l → f' ∈ level_files v l' → e ∈ entries_of f → e' ∈ entries_of f' →
  entry_ikey e ≠ entry_ikey e'.
Proof using Hv HU.
  intros Hl Hll Hf Hf' He He' E. destruct (ikey_parts e e' (file_entry_ok l f e Hf He) (file_entry_ok l' f' e' Hf' He') E) as [Ek Es].
  pose proof (v_newer _ _ Hv l l' f f' e e' Hl Hll Hf Hf' He He' Ek). lia.
Qed.

Lemma level_distinct l : 0 <= l → NoDup (entry_ikey <$> mjoin (entries_of <$> level_files v l)).
Proof using Hv HU.
  intros Hl. destruct (decide (l = 0)) as [->|Hne]; [|apply sorted_ikeys, level_entries_sorted; [by apply (version_LevelOk tables); [|lia]|apply (v_describes _ _ Hv l)]].
  apply NoDup_join; [intros f Hf; apply sorted_ikeys, sorted_short; apply (d_sorted _ _ (v_describes _ _ Hv 0 f Hf))|]. intros i j f g e e' Hij Hi Hj He He'.
  assert (Hf : f ∈ level_files v 0) by (by eapply list_elem_of_lookup_2). assert (Hg : g ∈ level_files v 0) by (by eapply list_elem_of_lookup_2).
  assert (Hne : number f ≠ number g). { intros E. assert (i = j); [|lia]. apply (NoDup_lookup _ _ _ (number f) (v_numbers _ _ Hv)); rewrite list_lookup_fmap, ?Hi, ?Hj; cbn; congruence. }
  destruct (Z.lt_gt_cases (number f) (number g)) as [[Hlt|Hgt] _]; [done|..].
  - intros E. by apply (newer_differs 0 0 g f e' e); try done; right.
  - apply (newer_differs 0 0 f g e e'); try done. by right.
Qed.

Lemma version_distinct : NoDup (entry_ikey <$> version_entries v).
Proof using Hv HU.
  unfold version_entries. rewrite fmap_app. apply NoDup_app. split; [by apply level_distinct|split].
  - intros k (e & -> & (f & Hf & He)%elem_of_level)%list_elem_of_fmap (e' & E & (m & He' & (l & -> & Hl%elem_of_seqZ)%list_elem_of_fmap)%list_elem_of_join)%list_elem_of_fmap.
    apply elem_of_level in He' as (g & Hg & He'). apply (newer_differs 0 l f g e e'); try done; lia.
  - apply NoDup_join; [intros l Hl%elem_of_seqZ; apply level_distinct; lia|].
    intros i j l l' e e' Hij Hi Hj (f & Hf & He)%elem_of_level (g & Hg & He')%elem_of_level. apply lookup_seqZ in Hi as [-> _], Hj as [-> _]. apply (newer_differs (1 + Z.of_nat i) (1 + Z.of_nat j) f g e e'); try done; lia.
Qed.

Lemma sublist_entries fs gs : fs `sublist_of` gs → mjoin (entries_of <$> fs) `sublist_of` mjoin (entries_of <$> gs).
Proof using Type.
  induction 1 as [|f fs gs _ IH|f fs gs _ IH]; [done|..]; rewrite ?fmap_cons; change (mjoin (entries_of ?x :: ?y)) with (entries_of x ++ mjoin y); [by apply sublist_app|by apply sublist_inserts_l].
Qed.

(** Files of two levels one below the other. *)
Lemma inputs_distinct l fs gs : 0 <= l → fs `sublist_of` level_files v l → gs `sublist_of` level_files v (l + 1) → NoDup (mjoin (entries_of <$> fs) ++ mjoin (entries_of <$> gs)).
Proof using Hv HU.
  intros Hl Hf Hg. apply (NoDup_fmap_1 entry_ikey). rewrite fmap_app. apply NoDup_app. split; [|split].
  - eapply sublist_NoDup; [apply (level_distinct l Hl)|by apply fmap_sublist, sublist_entries].
  - intros k (e & -> & He)%list_elem_of_fmap (e' & E & He')%list_elem_of_fmap. apply (elem_of_sublist _ (mjoin (entries_of <$> level_files v l))) in He; [|by apply sublist_entries].
    apply (elem_of_sublist _ (mjoin (entries_of <$> level_files v (l + 1)))) in He'; [|by apply sublist_entries]. apply elem_of_level in He as (f & ? & ?), He' as (g & ? & ?).
    apply (newer_differs l (l + 1) f g e e'); try done; lia.
  - eapply sublist_NoDup; [apply (level_distinct (l + 1)); lia|by apply fmap_sublist, sublist_entries].
Qed.

(** With memtables on top that hold newer entries. *)
Lemma tree_sorted es1 es2 : Forall (entry_ok valid) es1 → Forall (entry_ok valid) es2 → sorted es1 → sorted es2 → newer_than es1 (.∈ es2) → newer_than (es1 ++ es2) (.∈ version_entries v) →
  ∃ E, E ≡ₚ es1 ++ es2 ++ version_entries v ∧ sorted E ∧ Forall (entry_ok valid) E.
Proof using Hv HU.
  intros O1 O2 S1 S2 N1 N2. assert (O3 : Forall (entry_ok valid) (version_entries v)) by (apply Forall_forall, version_entry_ok).
  assert (Hd : ∀ a b e e', Forall (entry_ok valid) a → Forall (entry_ok valid) b → newer_than a (.∈ b) → e ∈ a → e' ∈ b → entry_ikey e ≠ entry_ikey e').
  { intros a b e e' Oa Ob Hn He He' E. rewrite Forall_forall in Oa, Ob. destruct (ikey_parts e e' (Oa e He) (Ob e' He') E) as [Ek Es]. specialize (Hn e e' He He' Ek). lia. }
  assert (O : Forall (entry_ok valid) (es1 ++ es2 ++ version_entries v)) by (by rewrite !Forall_app).
  destruct (sort_exists (es1 ++ es2 ++ version_entries v) O) as (E & Hp & Hs); [|exists E; split; [done|]; split; [done|by rewrite Hp]].
  rewrite app_assoc, fmap_app. apply NoDup_app. split; [rewrite fmap_app; apply NoDup_app; split; [by apply sorted_ikeys|]; split; [|by apply sorted_ikeys]|split; [|apply version_distinct]].
  - intros k (e & -> & He)%list_elem_of_fmap (e' & E & He')%list_elem_of_fmap. by apply (Hd es1 es2 e e').
  - intros k (e & -> & He)%list_elem_of_fmap (e' & E & He')%list_elem_of_fmap. apply (Hd (es1 ++ es2) (version_entries v) e e'); try done. by rewrite Forall_app.
Qed.
End Tree.

(** ** The merged iterators *)

Section Merged.
Context {C H : Type} `{!Cache C H TableAndFile} {CacheInv : C → list (H * TableAndFile) → (bytes → TableAndFile → Prop) → Prop} `{HCO : !CacheOk CacheInv} {policy : option FilterPolicy} (verify : bool).
Abbreviation TCInv := (TCInv CacheInv valid user policy (disk tables)).
Context (Hlate : opened_late (CacheInv := CacheInv) (policy := policy) verify).
Implicit Types tc : TableCache (C := C).

Lemma AddIterators_ok v tc hs : VersionOk (valid := valid) (user := user) tables v → TCInv tc hs → zlen hs + zlen (level_files v 0) < 2 ^ 31 →
  ∃ its ess held tc', AddIterators user verify late v tc = Some (its, reverse held.*1, tc') ∧ TCInv tc' (held ++ hs) ∧ zlen held = zlen (level_files v 0) ∧ Forall2 source its ess ∧
    mjoin ess = version_entries v.
Proof using HCO HU Hlate.
  intros Hv HT Hz. destruct (table_iterators_ok verify (level_files v 0) (v_describes _ _ Hv 0) tc hs HT Hz) as (its & held & tc' & E & HT' & Hl & HF).
  destruct (level_iterators_ok v (Z.to_nat (kNumLevels - 1)) 1) as (its2 & ess2 & E2 & HF2 & Hj2).
  { intros l Hl'. apply (level_files_ok verify _ tc hs Hlate HT); [by apply (version_LevelOk tables); [|lia]|apply (v_describes _ _ Hv l)]. }
  unfold AddIterators. rewrite E. cbn [mbind option_bind]. rewrite E2. cbn [mbind option_bind]. exists (its ++ its2), ((entries_of <$> level_files v 0) ++ ess2), held, tc'.
  split; [done|]. split; [done|]. split; [done|]. split; [by apply Forall2_app|]. rewrite join_app, Hj2. done.
Qed.

Lemma input_iterators_ok level files tc hs : (level ≠ 0 → LevelOk (valid := valid) (user := user) files) → (∀ f, f ∈ files → Describes f) → TCInv tc hs → zlen hs + zlen files < 2 ^ 31 →
  ∃ its ess held tc', input_iterators user verify late level files tc = Some (its, reverse held.*1, tc') ∧ TCInv tc' (held ++ hs) ∧ zlen held <= zlen files ∧ Forall2 source its ess ∧
    mjoin ess = mjoin (entries_of <$> files) ∧ zlen its <= (if level =? 0 then zlen files else 1).
Proof using HCO HU Hlate.
  intros HL Hd HT Hz. unfold input_iterators. destruct files as [|f files]; [exists [], [], [], tc; split_and!; try done; by destruct (level =? 0)|]. destruct (Z.eqb_spec level 0) as [->|Hne].
  - destruct (table_iterators_ok verify (f :: files) Hd tc hs HT Hz) as (its & held & tc' & E & HT' & Hl & HF). exists its, (entries_of <$> f :: files), held, tc'. split_and!; try done; [lia|].
    apply Forall2_length in HF. rewrite length_fmap in HF. unfold zlen. lia.
  - destruct (level_ok (f :: files)) as (it & E & Hs); [by apply (level_files_ok verify _ tc hs Hlate HT); [apply HL|]|]. rewrite E. cbn [mbind option_bind]. exists [inr (inr it)], [mjoin (entries_of <$> f :: files)], [], tc.
    split_and!; try done; [by constructor|]. cbn [mjoin list_join]. by rewrite app_nil_r.
Qed.
End Merged.
End Sources.

(** ** Reading an iterator to its end *)

Fixpoint drain {S : Type} `{!Iterator S} (fuel : nat) (s : S) : option (list (bytes * bytes) * S) :=
  if Valid s then
    match fuel with
    | O => None
    | Datatypes.S fuel => k ← key s; x ← value s; s ← Next s; '(l, s) ← drain fuel s; Some ((k, x) :: l, s)
    end
  else Some ([], s).
Definition read_all {S : Type} `{!Iterator S} (fuel : nat) (s : S) : option (list (bytes * bytes) * Status) :=
  s ← SeekToFirst s; '(l, s) ← drain fuel s; Some (l, status s).

Lemma read_all_ok {S : Type} `{!Iterator S} vt c l (s : S) p fuel : positioned vt c l s p → (length l <= fuel)%nat → read_all fuel s = Some (l, OK).
Proof.
  intros (R & HO & HR) Hf. unfold read_all. destruct (SeekToFirst_ok s p HR) as (s0 & -> & H0). cbn [mbind option_bind].
  assert (Hloop : ∀ fuel i s, (length l - i <= fuel)%nat → (i <= length l)%nat → R s (at_index l i) → ∃ s', drain fuel s = Some (drop i l, s') ∧ R s' None).
  { clear s p HR s0 H0 Hf fuel. induction fuel as [|fuel IH]; intros i s Hf Hi HR; (destruct (decide (i < length l)%nat) as [Hlt|Hge]; [rewrite at_index_Some in HR by done|rewrite at_index_None in HR by lia]);
      cbn [drain]; rewrite (Valid_ok s _ HR); [lia| | |].
    - rewrite bool_decide_eq_false_2 by (by intros [? ?]). exists s. by rewrite drop_ge by lia.
    - rewrite bool_decide_eq_true_2 by eauto. destruct (lookup_lt_is_Some_2 l i Hlt) as [[k x] Hkx]. rewrite (key_ok s i _ HR Hkx), (value_ok s i _ HR Hkx). cbn [mbind option_bind fst snd].
      destruct (Next_ok s i HR) as (s1 & -> & H1). cbn [mbind option_bind]. destruct (IH (Datatypes.S i) s1) as (s' & -> & H'); [lia|lia|done|]. cbn [mbind option_bind]. exists s'. by rewrite <- (drop_S l (k, x) i Hkx).
    - rewrite bool_decide_eq_false_2 by (by intros [? ?]). exists s. by rewrite drop_ge by lia. }
  destruct (Hloop fuel 0%nat s0) as (s' & -> & H'); [lia|lia|done|]. cbn [mbind option_bind]. by rewrite (status_is_ok s' None H').
Qed.

Section Results.
Context {C H : Type} `{!Cache C H TableAndFile} {CacheInv : C → list (H * TableAndFile) → (bytes → TableAndFile → Prop) → Prop} `{HCO : !CacheOk CacheInv}.
Context {valid : bytes → Prop} {user : Comparator} `{HU : !ComparatorOk valid user} {policy : option FilterPolicy} (tables : Z → option (Z * list Entry)) (verify : bool) (late : Z → Z → EmptyIterator + TableIterator).
Context (Hlate : opened_late (valid := valid) (user := user) tables late (CacheInv := CacheInv) (policy := policy) verify).
Abbreviation TCInv := (TCInv CacheInv valid user policy (disk tables)).
Implicit Types tc : TableCache (C := C).

Lemma LevelOk_sublist fs gs : fs `sublist_of` gs → LevelOk (valid := valid) (user := user) gs → LevelOk (valid := valid) (user := user) fs.
Proof using Type.
  intros Hs [H1 H2 H3]. split; [|by eapply StronglySorted_sublist_of|apply sublist_length in Hs; unfold zlen in *; lia]. apply Forall_forall. intros f Hf. apply (proj1 (Forall_forall _ _) H1). by apply (elem_of_sublist fs).
Qed.

Lemma MakeInputIterator_ok v c l next tc hs : Compacting valid user tables v c l next → TCInv tc hs → zlen hs + zlen (inputs0 c) + zlen (inputs1 c) < 2 ^ 31 →
  ∃ it p held tc', MakeInputIterator user verify late c tc = Some (it, reverse held.*1, tc') ∧ TCInv tc' (held ++ hs) ∧
    positioned (Iterator0 := merged_iterator user) (short_key valid) (InternalKeyComparator user) (entry_kv <$> l) it p.
Proof using HCO HU Hlate.
  intros HC HT Hz. pose proof (cg_chosen _ _ _ _ _ _ _ HC) as Hch. pose proof (ch_level _ _ Hch) as Hlev. destruct (ch_inputs0 _ _ Hch) as [_ Hs0]. pose proof (cg_version _ _ _ _ _ _ _ HC) as Hv.
  assert (Hs1 : inputs1 c `sublist_of` level_files v (level_ c + 1)) by (destruct (ch_inputs1 _ _ Hch) as (lo & hi & _ & -> & _); apply sublist_List_filter).
  destruct (input_iterators_ok tables late verify Hlate (level_ c) (inputs0 c) tc hs) as (its & ess & held & tc1 & E1 & HT1 & Hh1 & HF1 & Hj1 & Hl1); [..|].
  { intros Hne. apply (LevelOk_sublist _ _ Hs0), (version_LevelOk tables); [done|lia]. }
  { intros f Hf. apply (v_describes _ _ Hv (level_ c)). by apply (elem_of_sublist (inputs0 c)). }
  { done. }
  { pose proof (zlen_nonneg (inputs1 c)). lia. }
  destruct (input_iterators_ok tables late verify Hlate (level_ c + 1) (inputs1 c) tc1 (held ++ hs)) as (its' & ess' & held' & tc2 & E2 & HT2 & Hh2 & HF2 & Hj2 & Hl2); [..|].
  { intros _. apply (LevelOk_sublist _ _ Hs1), (version_LevelOk tables); [done|lia]. }
  { intros f Hf. apply (v_describes _ _ Hv (level_ c + 1)). by apply (elem_of_sublist (inputs1 c)). }
  { done. }
  { rewrite zlen_app. lia. }
  assert (Hok : Forall (entry_ok valid) l).
  { apply Forall_forall. intros e (f & Hf & He)%(cg_inputs _ _ _ _ _ _ _ HC). destruct (inputs_in_version v c f user Hch Hf) as [lev Hl]. by apply (file_entry_ok (user := user) tables v Hv lev f e). }
  assert (Hsort : sorted_kvs (short_key valid) (InternalKeyComparator user) (entry_kv <$> l)) by (apply sorted_short; [apply (entries_sorted (valid := valid)); [apply HC|done]|done]).
  destruct (merged_ok (its ++ its') (ess ++ ess') l) as (it & p & EM & Hp); [by apply Forall2_app|done| |].
  { rewrite join_app, Hj1, Hj2. apply NoDup_Permutation; [apply (NoDup_fmap_1 entry_ikey), (sorted_ikeys (valid := valid) (user := user) l Hsort)|by apply (inputs_distinct tables v Hv (level_ c)); [lia|..]|].
    intros e. rewrite (cg_inputs _ _ _ _ _ _ _ HC), elem_of_app, !list_elem_of_join. setoid_rewrite elem_of_app. split.
    - intros (f & [Hf|Hf] & He); [left|right]; (eexists; split; [exact He|by apply list_elem_of_fmap_2]).
    - intros [(m & He & (f & -> & Hf)%list_elem_of_fmap)|(m & He & (f & -> & Hf)%list_elem_of_fmap)]; eauto. }
  unfold MakeInputIterator, SU_PrepareInputs. rewrite E1. cbn [mbind option_bind]. rewrite E2. cbn [mbind option_bind].
  destruct (Z.ltb_spec (if level_ c =? 0 then zlen (inputs0 c) + 1 else 2) (zlen (its ++ its'))) as [Hlt|_].
  { rewrite zlen_app in Hlt. destruct (Z.eqb_spec (level_ c + 1) 0); [lia|]. destruct (level_ c =? 0); lia. }
  cbn [mbind option_bind]. rewrite EM. cbn [mbind option_bind]. exists it, p, (held' ++ held), tc2. rewrite fmap_app, reverse_app. split; [done|]. split; [by rewrite <- app_assoc|done].
Qed.

(** What [newer_than] says of the tables. *)
Lemma newer_tables E v : (∀ u s, newer_than E (seen_from tables u s v 0)) → newer_than E (.∈ version_entries tables v).
Proof using Type.
  intros Hn e e' He (l & f & Hl & Hf & He')%elem_of_version Hk. apply (Hn (e_key e') (e_seq e') e e' He); [|done]. exists l. split; [done|]. exists f. split_and!; done || lia.
Qed.

Lemma tree_sees E1 E2 v u s e : (e ∈ E1 ++ E2 ++ version_entries tables v ∧ e_key e = u ∧ e_seq e <= s) ↔ db_sees tables E1 E2 v u s e.
Proof using Type.
  unfold db_sees. rewrite !elem_of_app, elem_of_version. split.
  - intros ([He|[He|(l & f & Hl & Hf & He)]] & Hk & Hq); [left; auto|left; auto|right]. exists l. split; [done|]. by exists f.
  - intros [([He|He] & Hk & Hq)|(l & Hl & f & Hf & He & Hk & Hq)]; [auto|auto|]. split; [right; right; eauto 10|done].
Qed.

(** The database with the references of an iterator. *)
Lemma referenced_db E1 E2 v d tc hs tc' hs' vl : DBOk CacheInv valid user policy tables E1 E2 v d tc hs → TCInv tc' hs' → zlen hs' < 2 ^ 31 →
  Version_Ref (current_id (versions_ (db_versions_ d))) (versions_ (db_versions_ d)) = Some vl →
  DBOk CacheInv valid user policy tables E1 E2 v (with_versions (with_list vl (db_versions_ d)) (with_imm (MemTable_Ref <$> imm_ d) (with_mem (MemTable_Ref (mem_ d)) d))) tc' hs'.
Proof using Type.
  intros [H1 H2 H3 H4 H5 _ H7] HT Hz Href. split; try done.
  - cbn. destruct (imm_ d); done.
  - cbn. unfold Version_Ref in Href. unfold current in H3 |- *. destruct (live_ (versions_ (db_versions_ d)) !! current_id (versions_ (db_versions_ d))) as [[v0 r]|]; [|done]. cbn in Href. injection Href as <-. cbn.
    rewrite lookup_insert_eq. done.
Qed.

Lemma NewInternalIterator_ok E1 E2 v d tc hs seed_ : DBOk CacheInv valid user policy tables E1 E2 v d tc hs → zlen hs + zlen (level_files v 0) < 2 ^ 31 →
  ∃ o E held p, NewInternalIterator user verify late seed_ d tc = Some o ∧ E ≡ₚ E1 ++ E2 ++ version_entries tables v ∧ Forall (entry_ok valid) E ∧
    sorted_kvs (internal_valid valid) (InternalKeyComparator user) (entry_kv <$> E) ∧
    positioned (Iterator0 := merged_iterator user) (short_key valid) (InternalKeyComparator user) (entry_kv <$> E) (op_iter o) p ∧
    op_latest o = vs_last_sequence (db_versions_ d) ∧ op_handles o = reverse held.*1 ∧ DBOk CacheInv valid user policy tables E1 E2 v (op_db o) (op_cache o) (held ++ hs) ∧
    op_state o = {| state_version := current_id (versions_ (db_versions_ d)); state_mem := mem_ (op_db o); state_imm := imm_ (op_db o) |} ∧
    (mem_ (op_db o) = MemTable_Ref (mem_ d) ∧ imm_ (op_db o) = MemTable_Ref <$> imm_ d) ∧
    Version_Ref (current_id (versions_ (db_versions_ d))) (versions_ (db_versions_ d)) = Some (versions_ (db_versions_ (op_db o))).
Proof using HCO HU Hlate.
  intros HD Hz. pose proof HD as [H1 H2 H3 H4 [H5 H6] [H7 H8] H9]. destruct (MemTableIterator_make_ok (MemTable_Ref (mem_ d)) E1 H1) as (es1 & P1 & O1 & S1 & A1).
  assert (Himm : ∃ its2 ess2 es2, option_list (MemTable_NewIterator <$> (MemTable_Ref <$> imm_ d)) = its2 ∧ Forall2 (source (valid := valid) (user := user)) its2 ess2 ∧ mjoin ess2 = es2 ∧
    es2 ≡ₚ E2 ∧ Forall (entry_ok valid) es2 ∧ sorted_kvs (short_key valid) (InternalKeyComparator user) (entry_kv <$> es2)).
  { destruct (imm_ d) as [m|]; [|subst E2; exists [], [], []; split; [done|]; split; [constructor|]; split; [done|]; split; [done|]; split; [constructor|split; constructor]]. destruct (MemTableIterator_make_ok (MemTable_Ref m) E2 H2) as (es2 & P2 & O2 & S2 & A2). eexists _, [es2], es2.
    split; [done|]. split; [constructor; [|constructor]; split; [done|]; split; [done|]; exists None; by apply positioned_inl|]. split; [cbn; by rewrite app_nil_r|done]. }
  destruct Himm as (its2 & ess2 & es2 & Ei & F2 & J2 & P2 & O2 & S2).
  destruct (AddIterators_ok tables late verify Hlate v tc hs H4 H7 Hz) as (its & ess & held & tc' & EA & HT & Hl & HF & Hj).
  destruct (tree_sorted (valid := valid) (user := user) tables v H4 es1 es2 O1 O2 S1 S2) as (E & HP & HS & HO).
  { intros e e' He He'. apply H5; [by rewrite <- P1|by rewrite <- P2]. }
  { intros e e' He. apply (newer_tables _ _ H6). by rewrite <- P1, <- P2. }
  destruct (merged_ok (valid := valid) (user := user) (MemTable_NewIterator (MemTable_Ref (mem_ d)) :: its2 ++ its) (es1 :: ess2 ++ ess) E) as (it & p & EM & Hp).
  { constructor; [|by apply Forall2_app]. split; [done|]. split; [done|]. exists None. by apply positioned_inl. }
  { done. }
  { change (mjoin (es1 :: ess2 ++ ess)) with (es1 ++ mjoin (ess2 ++ ess)). by rewrite join_app, J2, Hj. }
  assert (∃ vl, Version_Ref (current_id (versions_ (db_versions_ d))) (versions_ (db_versions_ d)) = Some vl) as [vl Hvl].
  { unfold current in H3. unfold Version_Ref. destruct (live_ _ !! _) as [[v0 r]|]; [by eexists|done]. }
  unfold NewInternalIterator. cbn [db_versions_ with_imm with_mem]. rewrite H3. cbn [mbind option_bind]. rewrite EA. cbn [mbind option_bind]. rewrite Ei, EM. cbn [mbind option_bind]. rewrite Hvl. cbn [mbind option_bind].
  eexists _, E, held, p. split; [done|]. cbn [op_iter op_latest op_handles op_db op_cache op_state state_version]. split; [by rewrite HP, P1, P2|]. split; [done|]. split; [|split; [done|split; [done|split; [done|split; [|split; [done|split; done]]]]]].
  - destruct HS as [Hv Hs]. split; [|done]. eapply Forall_impl; [exact Hv|]. by intros kv [? _].
  - apply (referenced_db E1 E2 v d tc hs); [done|done| |done]. rewrite zlen_app. lia.
Qed.
End Results.

(** ** Properties *)

Lemma unref_ref m : 1 <= refs_ m → MemTable_Unref (MemTable_Ref m) = Some m.
Proof. intros H. unfold MemTable_Unref, MemTable_Ref. cbn. destruct (Z.leb_spec (refs_ m + 1 - 1) 0); [lia|]. rewrite Z.add_simpl_r. by destruct m. Qed.

Lemma newest_of_ext (P Q : Entry → Prop) o : (∀ e, P e ↔ Q e) → newest_of P o ↔ newest_of Q o.
Proof. intros HPQ. by apply newest_of_proper. Qed.


(** [C8] The inputs of a compaction are merged completely and in order: for chosen inputs
    of a well-formed version, [MakeInputIterator] returns without failing an assertion, and reading
    the iterator from the first to the last entry yields exactly the entries of the input
    files, each once, sorted by internal key, with status OK.  The level-0 inputs stay pinned in the table cache. *)
Theorem compaction_input_correct {C H : Type} `{!Cache C H TableAndFile} (CacheInv : C → list (H * TableAndFile) → (bytes → TableAndFile → Prop) → Prop)
    (valid : bytes → Prop) (user : Comparator) (policy : option FilterPolicy) (tables : Z → option (Z * list Entry)) (v : Version) (c : Compaction) (l : list Entry) (next : Z)
    (tc : TableCache (C := C)) (hs : list (H * TableAndFile)) (verify : bool) (late : Z → Z → EmptyIterator + TableIterator) (fuel : nat) :
  CacheOk CacheInv → ComparatorOk valid user → Compacting valid user tables v c l next → TCInv CacheInv valid user policy (disk tables) tc hs →
  opened_late (valid := valid) (user := user) tables late (CacheInv := CacheInv) (policy := policy) verify →
  zlen hs + zlen (inputs0 c) + zlen (inputs1 c) < 2 ^ 31 → (length l <= fuel)%nat →
  ∃ it held tc', MakeInputIterator user verify late c tc = Some (it, reverse held.*1, tc') ∧ read_all (Iterator0 := merged_iterator user) fuel it = Some (entry_kv <$> l, OK) ∧
    TCInv CacheInv valid user policy (disk tables) tc' (held ++ hs).
Proof.
  intros HCO HU HC HT Hlate Hz Hf. destruct (MakeInputIterator_ok tables verify late Hlate v c l next tc hs HC HT Hz) as (it & p & held & tc' & E & HT' & Hp).
  exists it, held, tc'. split; [done|]. split; [|done]. apply (read_all_ok (Iterator0 := merged_iterator user) _ _ _ it p fuel Hp). by rewrite length_fmap.
Qed.

(** ** Samples *)

(** Tables are opened in the state of the cache at the start. *)
Definition open_in {C H : Type} `{!Cache C H TableAndFile} (tc : TableCache (C := C)) (n sz : Z) : EmptyIterator + TableIterator :=
  match TableCache_NewIterator true n sz tc with Some (it, _, _, _) => it | None => inl NewEmptyIterator end.

Lemma open_in_late {C H : Type} `{!Cache C H TableAndFile} (CacheInv : C → list (H * TableAndFile) → (bytes → TableAndFile → Prop) → Prop) (valid : bytes → Prop) (user : Comparator)
    (policy : option FilterPolicy) (tables : Z → option (Z * list Entry)) (tc : TableCache (C := C)) (hs : list (H * TableAndFile)) :
  CacheOk CacheInv → ComparatorOk valid user → TCInv CacheInv valid user policy (disk tables) tc hs → zlen hs < 2 ^ 31 →
  opened_late (valid := valid) (user := user) tables (open_in tc) (CacheInv := CacheInv) (policy := policy) true.
Proof.
  intros HCO HU HT Hz n sz kvs E. destruct (TableCache_NewIterator_ok CacheInv valid user policy (disk tables) tc hs n sz kvs true HT Hz E) as (it & table & h & tf & tc' & EN & _ & _).
  exists tc, hs, (Some table), (Some h), tc'. split; [done|]. split; [done|]. unfold open_in. by rewrite EN.
Qed.


Lemma compaction_input_correct_witness : ∃ c it held tc', NewLRUCache 100 = Some c ∧
  MakeInputIterator BytewiseComparator true (open_in (sample_cache c)) sample_compaction (sample_cache c) = Some (it, held, tc') ∧
  read_all (Iterator0 := merged_iterator BytewiseComparator) 10 it = Some (entry_kv <$> sample_table, OK).
Proof.
  destruct (NewLRUCache_ok (V := TableAndFile) 100) as (c & Ec & Hc); [lia|]. pose proof (sample_cache_ok c Hc) as HT.
  destruct (compaction_input_correct ShardedInv bytes_ok BytewiseComparator (Some (NewBloomFilterPolicy 10)) sample_tables sample_version sample_compaction sample_table 6 (sample_cache c) []
    true (open_in (sample_cache c)) 10) as (it & held & tc' & E & Hr & _).
  - apply _.
  - apply _.
  - apply sample_compacting.
  - exact HT.
  - apply (open_in_late ShardedInv bytes_ok BytewiseComparator _ sample_tables (sample_cache c) []); [apply _|apply _|exact HT|done].
  - by_compute.
  - by_compute.
  - exact (ex_intro _ c (ex_intro _ it (ex_intro _ (reverse held.*1) (ex_intro _ tc' (conj Ec (conj E Hr)))))).
Defined.
