(* ===== verification/DbRecover.v ===== *)
(** * Recovering the write-ahead logs

    Model of [DBImpl::RecoverLogFile], of the part of [DBImpl::Recover] after the manifest is
    read, and of [DBImpl::MaybeIgnoreError] ([App/integration/db_impl.cpp]): the records of each
    log, in the order of the logs, are inserted into memtables that are written to level-0
    tables.  The table files are written through the interface [OutputOps]; [remove] is
    [Env::DeleteFile] on a table.  The outer [None] is a failed assertion, or a loop out of fuel. *)
From S2P Require Import Prelude Coding Comparator DbFormat SkipList Logging Log Status Filename MemTable Arena WriteBatch Compaction Iterator Table VersionEdit Version VersionBuilder VersionSet CompactionPick CompactionInstall CompactionWork DbWrite Flush CompactMem.
From stdpp Require Import sorting list gmap.

#[local] Open Scope Z_scope.

Section Recover.
Context {W B : Type} (ops : OutputOps W B) (remove : Z → W → W) (env : ManifestEnv W) (user : Comparator) (dbname_ : bytes).
Context (paranoid_checks : bool) (write_buffer_size : Z).

Definition MaybeIgnoreError (s : Status) : Status := if Status_ok s || paranoid_checks then s else OK.

(** [LogReporter::Corruption], for what the reader reported and for records that are too small. *)
Definition log_reported (s : Status) (r : Reader) : Status := if paranoid_checks then reported env s r else s.
Definition report_small (s : Status) : Status := if paranoid_checks && Status_ok s then Corruption (str "log record too small") [] else s.

(** What recovery changes: the edit, the largest sequence number, the file numbers and the files. *)
Record Recovering := { rv_edit : VersionEdit; rv_max : Z; rv_versions : VersionSet; rv_pending : gset Z; rv_world : W }.

Definition write_recovered (m : MemTable) (st : Recovering) : option (Status * Recovering) :=
  '(s, edit, vs, pending, w) ← WriteLevel0Table ops remove user m (rv_edit st) None (rv_versions st) (rv_pending st) (rv_world st);
  Some (s, {| rv_edit := edit; rv_max := rv_max st; rv_versions := vs; rv_pending := pending; rv_world := w |}).

Definition note_sequence (b : WriteBatch) (st : Recovering) : Recovering :=
  let last_seq := u64 (Sequence b + Count b - 1) in
  {| rv_edit := rv_edit st; rv_max := if rv_max st <? last_seq then last_seq else rv_max st;
     rv_versions := rv_versions st; rv_pending := rv_pending st; rv_world := rv_world st |}.

(** The records of a log; [None] in the result is a null [mem]. *)
Fixpoint recover_records (fuel : nat) (s : Status) (r : Reader) (mem : option MemTable) (st : Recovering) : option (Status * option MemTable * Recovering) :=
  match fuel with
  | O => None
  | S fuel =>
      match ReadRecord r with
      | (None, r) => Some (log_reported s r, mem, st)
      | (Some record, r) =>
          let s := log_reported s r in
          if negb (Status_ok s) then Some (s, mem, st)
          else if zlen record <? 12 then recover_records fuel (report_small s) r mem st
          else
            let batch := SetContents record in
            let m := default (MemTable_Ref (MemTable_make user)) mem in
            '(s, (_, m)) ← InsertInto batch m;
            m ← m;
            let s := MaybeIgnoreError s in
            if negb (Status_ok s) then Some (s, Some m, st)
            else
              let st := note_sequence batch st in
              usage ← ApproximateMemoryUsage m;
              if write_buffer_size <? usage then
                '(s, st) ← write_recovered m st;
                if Status_ok s then recover_records fuel s r None st else Some (s, Some m, st)
              else recover_records fuel s r (Some m) st
      end
  end.

Definition RecoverLogFile (log_number : Z) (st : Recovering) : option (Status * Recovering) :=
  let '(s, f) := NewSequentialFile env (LogFileName dbname_ log_number) (rv_world st) in
  if negb (Status_ok s) then Some (MaybeIgnoreError s, st)
  else
    '(s, mem, st) ← recover_records (S (S (length (sf_rest f)))) s (Reader_make f true true 0) None st;
    match mem with
    | Some m => if Status_ok s then write_recovered m st else Some (s, st)
    | None => Some (s, st)
    end.

(** ** All the logs *)

Definition with_rv_versions (vs : VersionSet) (st : Recovering) : Recovering :=
  {| rv_edit := rv_edit st; rv_max := rv_max st; rv_versions := vs; rv_pending := rv_pending st; rv_world := rv_world st |}.

(** The loop over the sorted logs; the status of a log replaces that of the logs before. *)
Fixpoint recover_logs (s : Status) (logs : list Z) (st : Recovering) : option (Status * Recovering) :=
  match logs with
  | [] => Some (s, st)
  | n :: logs =>
      '(s, st) ← RecoverLogFile n st;
      recover_logs s logs (with_rv_versions (MarkFileNumberUsed n (rv_versions st)) st)
  end.

(** The listing: the numbers that are there, and the logs to recover. *)
Fixpoint list_logs (min_log prev_log : Z) (filenames : list bytes) (expected : gset Z) (logs : list Z) : gset Z * list Z :=
  match filenames with
  | [] => (expected, logs)
  | f :: filenames =>
      match ParseFileName f with
      | Some (number, type) =>
          list_logs min_log prev_log filenames (expected ∖ {[number]})
            (match type with
             | kLogFile => if (min_log <=? number) || (number =? prev_log) then logs ++ [number] else logs
             | _ => logs
             end)
      | None => list_logs min_log prev_log filenames expected logs
      end
  end.

(** [Recover] after [versions_->Recover()] succeeded; the numbers in the message about missing files are left out. *)
Definition recover_after_manifest (children : Status * list bytes) (st : Recovering) : option (Status * Recovering) :=
  let vs := rv_versions st in
  let '(s, filenames) := children in
  if negb (Status_ok s) then Some (s, st)
  else
    let '(expected, logs) := list_logs (vs_log_number vs) (vs_prev_log_number vs) filenames (AddLiveFiles (versions_ vs) ∅) [] in
    if negb (bool_decide (expected = ∅)) then Some (Corruption (str " missing files; e.g.") [], st)
    else
      '(s, st) ← recover_logs s (merge_sort Z.le logs) st;
      if Status_ok s && (vs_last_sequence (rv_versions st) <? rv_max st) then
        vs ← VersionSet_SetLastSequence (rv_max st) (rv_versions st);
        Some (s, with_rv_versions vs st)
      else Some (s, st).
End Recover.

(** ** The memory of a memtable can always be measured *)

Section Usage.
Context {valid : bytes → Prop} {user : Comparator} `{HU : !ComparatorOk valid user}.

Lemma allocate_nodes_ok nds : Forall (λ nd : Node bytes, 0 < zlen (node_key nd) < 2 ^ 34 ∧ (1 <= length (next_ nd) <= kMaxHeight)%nat) nds → ∀ a regs, ArenaInv a regs →
  Arena.total (blocks_ a) + Z.of_nat (length nds) * 2 ^ 35 < 2 ^ 63 → is_Some (allocate_nodes nds a).
Proof using Type.
  induction 1 as [|nd nds [Hk Hh] _ IH]; intros a regs HA Hb; cbn [allocate_nodes]; [by eexists|]. cbn [length] in Hb.
  assert (Hn : 16 <= node_bytes (length (next_ nd)) < 2 ^ 34) by (unfold node_bytes, kMaxHeight in *; lia).
  destruct (request_inv false (zlen (node_key nd)) a regs HA) as (p1 & a1 & E1 & HA1 & Ht1 & _); [lia|unfold Arena.kBlockSize; lia|]. cbn [request] in E1. rewrite E1. cbn [mbind option_bind].
  destruct (request_inv true (node_bytes (length (next_ nd))) a1 _ HA1) as (p2 & a2 & E2 & HA2 & Ht2 & _); [lia|unfold Arena.kBlockSize in *; lia|]. cbn [request] in E2. rewrite E2. cbn [mbind option_bind].
  eapply IH; [exact HA2|]. unfold Arena.kBlockSize in *. lia.
Qed.

Lemma varint32_short x : is_u 32 x → 0 <= zlen (EncodeVarint32 x) <= 5.
Proof using Type. intros Hx. destruct (varint_roundtrip x 0 [] Hx ltac:(unfold is_u; lia)) as (_ & _ & _ & _ & H & _). unfold zlen. lia. Qed.

(** Every node of a skip list but the head is on its chain. *)
Lemma nodes_on_chain {K} (kvalid : K → Prop) (s : SkipList K) c i : SkipList.Inv kvalid s c → (i < length (nodes s))%nat → i = head_ ∨ i ∈ c.
Proof using Type.
  intros HI Hi. pose proof (inv_nodup _ _ _ HI) as Hnd. rewrite (inv_length _ _ _ HI) in Hi.
  assert (Hp : head_ :: c ≡ₚ seq 0 (S (length c))).
  { apply submseteq_length_Permutation; [|rewrite length_seq; cbn [length]; lia]. apply NoDup_submseteq; [done|]. intros x [->|Hx]%elem_of_cons; apply elem_of_seq; [unfold head_; lia|].
    destruct (inv_node _ _ _ HI x Hx) as (_ & _ & k & Hk & _). unfold key_of in Hk. destruct (nodes s !! x) eqn:E; [|done]. apply lookup_lt_Some in E. rewrite (inv_length _ _ _ HI) in E. lia. }
  assert (Hin : i ∈ head_ :: c) by (rewrite Hp; apply elem_of_seq; lia). by apply elem_of_cons in Hin.
Qed.

Lemma memtable_usage m E : MemInv valid user m E → Z.of_nat (length E) < 2 ^ 27 → is_Some (ApproximateMemoryUsage m).
Proof using HU.
  intros (_ & HE & Hc & es & Hp & (HO & c & HI & Hk)) Hlen. unfold ApproximateMemoryUsage. apply fmap_is_Some. unfold memtable_arena.
  assert (Hlc : length c = length E).
  { rewrite <- Hp. transitivity (length (keys (table_ m) c)); [|by rewrite Hk, length_fmap]. unfold keys. assert (Hall : ∀ x, x ∈ c → is_Some (key_of (table_ m) x)).
    { intros x Hx. destruct (inv_node _ _ _ HI x Hx) as (_ & _ & k & Hkx & _). by exists k. } clear -Hall. induction c as [|x c IH]; [done|]. cbn [omap list_omap length].
    destruct (Hall x) as [k ->]; [left|]. cbn [length]. f_equal. apply IH. intros y Hy. apply Hall. by right. }
  pose proof (inv_length _ _ _ HI) as Hn. pose proof (inv_head _ _ _ HI) as Hh. destruct (nodes (table_ m)) as [|hd nds] eqn:En; [done|]. cbn [length] in Hn.
  unfold height, head_ in Hh. rewrite En in Hh. cbn in Hh.
  destruct (request_inv true (node_bytes (length (next_ hd))) Arena_make [] ArenaInv_make) as (p & a & Er & HA & Ht & _);
    [unfold node_bytes, kMaxHeight in *; lia|unfold node_bytes, kMaxHeight, Arena.kBlockSize in *; simpl; lia|]. cbn [request] in Er. rewrite Er. cbn [mbind option_bind].
  eapply (allocate_nodes_ok nds); [|exact HA|unfold node_bytes, kMaxHeight, Arena.kBlockSize in *; simpl in Ht; lia].
  apply Forall_forall. intros nd [i Hi]%list_elem_of_lookup. destruct (nodes_on_chain _ (table_ m) c (S i) HI) as [?|Hin]; [rewrite En; apply lookup_lt_Some in Hi; cbn [length]; lia|done|].
  destruct (inv_node _ _ _ HI (S i) Hin) as (_ & Hht & k & Hkx & _). pose proof (inv_max _ _ _ HI) as Hmax. unfold height in Hht. unfold key_of in Hkx. rewrite En in Hht, Hkx. change ((hd :: nds) !! S i) with (nds !! i) in Hht, Hkx. rewrite Hi in Hht, Hkx.
  cbn in Hht, Hkx. injection Hkx as Ek. split; [|lia].
  assert (Hink : k ∈ keys (table_ m) c) by (unfold keys; apply list_elem_of_omap; exists (S i); split; [done|]; unfold key_of; rewrite En; change ((hd :: nds) !! S i) with (nds !! i); rewrite Hi; cbn; by rewrite Ek).
  rewrite Hk in Hink. apply list_elem_of_fmap in Hink as (e & -> & He). rewrite Hp in He. rewrite Forall_forall in HE. destruct (HE e He) as (_ & _ & H1 & H2).
  rewrite Ek, (entry_bytes_unfold (valid := valid)) by (by apply HE). rewrite !zlen_app. unfold entry_ikey. rewrite zlen_ikey.
  pose proof (zlen_nonneg (e_key e)). pose proof (zlen_nonneg (e_value e)).
  pose proof (varint32_short (zlen (e_key e) + 8) ltac:(unfold is_u; lia)). pose proof (varint32_short (zlen (e_value e)) ltac:(unfold is_u; lia)). lia.
Qed.
End Usage.

(** ** Tables written during recovery *)

Definition add_level0 (e : VersionEdit) (o : Output) : VersionEdit := AddFile 0 (out_number o) (out_file_size o) (out_smallest o) (out_largest o) e.

Section Written.
Context {W : Type} (tables_of : W → Z → option (Z * list (bytes * bytes))).
Abbreviation next st := (vs_next_file_number (rv_versions st)).

(** From [st] to [st'], the tables [outs] with the entries [groups] were written. *)
Record Recovered (user : Comparator) (st st' : Recovering (W := W)) (outs : list Output) (groups : list (list Entry)) : Prop := {
  rc_edit : rv_edit st' = foldl add_level0 (rv_edit st) outs;
  rc_closed : Forall2 (λ o g, Closed (tables_of := tables_of) (rv_world st') o g ∧ StronglySorted (entry_lt (user := user)) g) outs groups;
  rc_numbers : Forall (λ o, next st <= out_number o < next st') outs ∧ StronglySorted Z.lt (out_number <$> outs);
  rc_versions : rv_versions st' = with_next_file (next st') (rv_versions st) ∧ next st <= next st';
  rc_old n : n < next st → tables_of (rv_world st') n = tables_of (rv_world st) n;
}.

Lemma Recovered_refl user st : Recovered user st st [] [].
Proof using Type. split; try done; [by split; [constructor|constructor]|]. split; [by destruct (rv_versions st)|done]. Qed.

Lemma Recovered_trans user st st1 st2 o1 g1 o2 g2 : Recovered user st st1 o1 g1 → Recovered user st1 st2 o2 g2 → Recovered user st st2 (o1 ++ o2) (g1 ++ g2).
Proof using Type.
  intros [E1 C1 [N1 D1] [V1 L1] O1] [E2 C2 [N2 D2] [V2 L2] O2]. split.
  - by rewrite E2, E1, foldl_app.
  - apply Forall2_app; [|done]. clear E1 E2 D1. revert N1. induction C1 as [|o g o1 g1 [[H1 [H2 H3]] Hs] _ IH]; intros N1; [constructor|]. apply Forall_cons in N1 as [Hn N1].
    constructor; [|by apply IH]. split; [|done]. split; [done|]. split; [done|]. rewrite O2 by lia. done.
  - split.
    + apply Forall_app. split; (eapply Forall_impl; [eassumption|]); intros x Hx; cbn in *; lia.
    + rewrite fmap_app. apply StronglySorted_app_2; [|done..]. intros n m (a & -> & Ha)%list_elem_of_fmap (b & -> & Hb)%list_elem_of_fmap. rewrite Forall_forall in N1, N2. specialize (N1 a Ha). specialize (N2 b Hb). lia.
  - split; [|lia]. rewrite V2, V1. by destruct (rv_versions st).
  - intros n Hn. rewrite O2 by lia. by apply O1.
Qed.
End Written.

Lemma length_batch_entries us : ∀ seq, length (batch_entries seq us) = length us.
Proof. induction us as [|u us IH]; intros seq; cbn [batch_entries length]; [done|]. rewrite length_app, IH. cbn. lia. Qed.

(** Every entry of [g] is older than those of [g']. *)
Definition Before (g g' : list Entry) : Prop := ∀ e e', e ∈ g → e' ∈ g' → e_seq e < e_seq e'.

Lemma Before_app g1 g2 : StronglySorted Before g1 → StronglySorted Before g2 → Before (mjoin g1) (mjoin g2) → StronglySorted Before (g1 ++ g2).
Proof. intros H1 H2 Hb. apply StronglySorted_app_2; [|done..]. intros a b Ha Hb' e e' He He'. apply Hb; apply list_elem_of_join; eauto. Qed.

Section WriteRecovered.
Context {W B : Type} {ops : OutputOps W B} {remove : Z → W → W} {valid : bytes → Prop} {user : Comparator} `{HU : !ComparatorOk valid user}.
Context {tables_of : W → Z → option (Z * list (bytes * bytes))} {entries : B → option (list (bytes * bytes))} {fits : list (bytes * bytes) → Prop}.
Context `{HO : !OutputOk ops valid user tables_of entries fits} (Hremove : ∀ n m w, m ≠ n → tables_of (remove n w) m = tables_of w m).

(** The table is written, or an error returned and the edit left as it is. *)
Lemma write_recovered_ok m E st : MemInv valid user m E → Distinct E → (∀ es, es ≡ₚ E → fits (entry_kv <$> es)) →
  0 < vs_next_file_number (rv_versions st) → vs_next_file_number (rv_versions st) + 1 < 2 ^ 64 →
  ∃ s st' outs groups, write_recovered ops remove user m st = Some (s, st') ∧ rv_max st' = rv_max st ∧ Recovered tables_of user st st' outs groups ∧
    (if Status_ok s then mjoin groups ≡ₚ E else groups = []) ∧
    vs_next_file_number (rv_versions st') = vs_next_file_number (rv_versions st) + 1 ∧ StronglySorted Before groups ∧ (OutputReliable ops tables_of entries → s = OK).
Proof using HU HO Hremove.
  intros HM Hd Hfits Hn Hn'. destruct (memtable_kvs_ok m E HM Hd) as (es & Ek & Hp & Hs & Hok). set (n := vs_next_file_number (rv_versions st)) in *.
  assert (Hu : u64 (n + 1) = n + 1) by (apply u64_small; unfold is_u; lia).
  unfold write_recovered, WriteLevel0Table. cbn [NewFileNumber]. fold n. rewrite Ek. cbn [mbind option_bind]. destruct es as [|e es].
  - cbn [fmap list_fmap BuildTable mbind option_bind Status_ok OK andb]. cbn [out_file_size Z.ltb Z.compare]. eexists OK, _, [], []. split; [done|]. split; [done|]. cbn [rv_versions vs_next_file_number Status_ok OK]. rewrite Hu.
    split; [|split; [by rewrite <- Hp|split; [done|split; [constructor|done]]]]. split; cbn [rv_edit rv_versions rv_world]; rewrite ?Hu; try done; [by split; constructor|split; [done|cbn; fold n; lia]|].
    intros k Hk. apply Hremove. fold n in Hk. lia.
  - destruct (BuildTable_ok (ops := ops) (remove := remove) (valid := valid) (user := user) (tables_of := tables_of) (entries := entries) (fits := fits) (λ _, True) n (e :: es) (rv_world st))
      as (s & o & w' & EB & Hno & Hfr & Hcl & Hrel); [done|by apply entries_sorted|by apply Hfits|by intros w k Hk _; apply Hremove|].
    rewrite EB. cbn [mbind option_bind]. destruct (Status_ok s) eqn:Es; cbn [andb].
    + destruct (Hcl eq_refl) as [Hpos Hc]. rewrite (proj2 (Z.ltb_lt _ _) Hpos). cbn [mbind option_bind]. eexists s, _, [o], [e :: es]. split; [done|]. split; [done|].
      cbn [rv_versions vs_next_file_number]. rewrite Hu, Es. split; [|split; [by rewrite <- Hp; cbn; rewrite app_nil_r|split; [done|split; [by repeat constructor|done]]]].
      split; cbn [rv_edit rv_versions rv_world]; rewrite ?Hu; try done.
      * by constructor; [|constructor].
      * split; [|by repeat constructor]. apply Forall_singleton. cbn. fold n. lia.
      * split; [done|]. cbn. fold n. lia.
      * intros k Hk. apply Hfr; [|done]. fold n in Hk. lia.
    + eexists s, _, [], []. split; [done|]. split; [done|]. cbn [rv_versions vs_next_file_number]. rewrite Hu, Es. split; [|split; [done|split; [done|split; [constructor|done]]]].
      split; cbn [rv_edit rv_versions rv_world]; rewrite ?Hu; try done; [by split; constructor|split; [done|cbn; fold n; lia]|].
      intros k Hk. apply Hfr; [|done]. fold n in Hk. lia.
Qed.
End WriteRecovered.

Lemma batch_entries_distinct us : ∀ seq e e', e ∈ batch_entries seq us → e' ∈ batch_entries seq us → e_seq e = e_seq e' → e = e'.
Proof.
  induction us as [|u us IH]; intros seq e e' He He' Hq; cbn [batch_entries] in *; [by apply elem_of_nil in He|].
  assert (Hu : e_seq (update_entry seq u) = seq) by (by destruct u).
  apply elem_of_app in He as [He| ->%list_elem_of_singleton]; apply elem_of_app in He' as [He'| ->%list_elem_of_singleton]; [by apply (IH (seq + 1))|..|done].
  - apply batch_entries_seq in He. lia.
  - apply batch_entries_seq in He'. lia.
Qed.

Lemma Distinct_batch seq us E : Distinct E → (∀ e, e ∈ E → e_seq e < seq) → Distinct (batch_entries seq us ++ E).
Proof.
  intros Hd Hlt e e' [He|He]%elem_of_app [He'|He']%elem_of_app Hk Hq; [by apply (batch_entries_distinct us seq)|..|by apply Hd].
  - apply batch_entries_seq in He. specialize (Hlt e' He'). lia.
  - apply batch_entries_seq in He'. specialize (Hlt e He). lia.
Qed.

Section Records.
Context {W B : Type} {ops : OutputOps W B} {remove : Z → W → W} {env : ManifestEnv W} {valid : bytes → Prop} {user : Comparator} `{HU : !ComparatorOk valid user}.
Context {tables_of : W → Z → option (Z * list (bytes * bytes))} {entries : B → option (list (bytes * bytes))} {fits : list (bytes * bytes) → Prop}.
Context `{HO : !OutputOk ops valid user tables_of entries fits} (Hremove : ∀ n m w, m ≠ n → tables_of (remove n w) m = tables_of w m).
Context (paranoid : bool) (wbs : Z).
Abbreviation next st := (vs_next_file_number (rv_versions st)).

(** The memtable being filled holds [E], all numbered below [seq]. *)
Definition Filling (seq : Z) (mem : option MemTable) (E : list Entry) : Prop :=
  match mem with Some m => MemInv valid user m E | None => E = [] end ∧ Distinct E ∧ ∀ e, e ∈ E → e_seq e < seq.

Lemma Filling_empty seq : Filling seq None [].
Proof using Type. split; [done|]. split; [by intros ? ? ?%elem_of_nil|by intros ? ?%elem_of_nil]. Qed.

Lemma insert_record b seq us mem E : holds b seq us → Forall (insertable valid) us → seq + Z.of_nat (length us) <= kMaxSequenceNumber + 1 → Filling seq mem E →
  ∃ m, InsertInto b (default (MemTable_Ref (MemTable_make user)) mem) = Some (OK, (seq + Z.of_nat (length us), Some m)) ∧
    Filling (seq + Z.of_nat (length us)) (Some m) (batch_entries seq us ++ E).
Proof using HU.
  intros Hb Hus Hmax (HM & Hd & Hlt). assert (HM' : MemInv valid user (default (MemTable_Ref (MemTable_make user)) mem) E).
  { destruct mem as [m|]; [done|]. subst E. apply MemInv_make. }
  destruct (write_batch_insert_into valid user b seq us _ E HU Hb Hus HM' Hlt Hmax) as (m & -> & Hm). exists m. split; [done|]. split; [done|]. split; [by apply Distinct_batch|].
  intros e [He|He]%elem_of_app; [apply batch_entries_seq in He; lia|]. specialize (Hlt e He). lia.
Qed.

Lemma log_reported_ok r : reports r = [] → log_reported env paranoid OK r = OK.
Proof using Type. intros Hr. unfold log_reported, reported. rewrite Hr. by destruct paranoid. Qed.

Lemma note_sequence_ok b seq us (st : Recovering (W := W)) : holds b seq us → 1 <= seq → seq + Z.of_nat (length us) <= kMaxSequenceNumber + 1 →
  note_sequence b st = {| rv_edit := rv_edit st; rv_max := Z.max (rv_max st) (seq + Z.of_nat (length us) - 1); rv_versions := rv_versions st; rv_pending := rv_pending st; rv_world := rv_world st |}.
Proof using Type.
  intros Hb H1 Hmax. pose proof Hb as (_ & Hs & Hl & _). apply holds_header in Hb as ->. destruct (batch_header_fields seq (Z.of_nat (length us)) (mjoin (update_bytes <$> us)) Hs ltac:(lia)) as (E1 & E2 & _).
  unfold note_sequence. rewrite E1, E2. unfold kMaxSequenceNumber in Hmax. rewrite Z.shiftl_1_l in Hmax. rewrite u64_small by (unfold is_u; lia). f_equal. destruct (Z.ltb_spec (rv_max st) (seq + Z.of_nat (length us) - 1)); lia.
Qed.

(** After the first [k] records, which hold the updates [us']: what is in no table yet is [E']. *)
Record Replayed (seq : Z) (rs : list bytes) (us : list WriteBatch.Update) (E : list Entry) (st : Recovering) (k : nat) (us' : list WriteBatch.Update) (mem' : option MemTable) (E' : list Entry)
    (st' : Recovering (W := W)) (outs : list Output) (groups : list (list Entry)) : Prop := {
  rp_records : (k <= length rs)%nat ∧ records_hold seq (take k rs) us' ∧ us' `prefix_of` us;
  rp_memtable : Filling (seq + Z.of_nat (length us')) mem' E';
  rp_tables : Recovered tables_of user st st' outs groups;
  rp_entries : mjoin groups ++ E' ≡ₚ batch_entries seq us' ++ E;
  rp_order : StronglySorted Before groups ∧ Before (mjoin groups) E';
  rp_next : next st' <= next st + Z.of_nat k;
  rp_max : rv_max st' = if (k =? 0)%nat then rv_max st else Z.max (rv_max st) (seq + Z.of_nat (length us') - 1);
}.

Lemma Replayed_none seq rs us E st mem : Filling seq mem E → Replayed seq rs us E st 0 [] mem E st [] [].
Proof using Type.
  intros HF. split; [|by rewrite Z.add_0_r|apply Recovered_refl|done|split; [constructor|by intros e e' ?%elem_of_nil]|lia|done]. split; [lia|]. split; [done|apply prefix_nil].
Qed.

(** One record and what follows. *)
Lemma Replayed_cons seq r rs us1 us2 E E1 st st1 st2 k us' mem' E' o1 g1 o2 g2 : holds (SetContents r) seq us1 →
  Recovered tables_of user st st1 o1 g1 → mjoin g1 ++ E1 ≡ₚ batch_entries seq us1 ++ E → StronglySorted Before g1 →
  (∀ e, e ∈ mjoin g1 → e_seq e < seq + Z.of_nat (length us1)) → (g1 = [] ∨ E1 = []) → next st1 <= next st + 1 → rv_max st1 = Z.max (rv_max st) (seq + Z.of_nat (length us1) - 1) →
  Replayed (seq + Z.of_nat (length us1)) rs us2 E1 st1 k us' mem' E' st2 o2 g2 →
  Replayed seq (r :: rs) (us1 ++ us2) E st (S k) (us1 ++ us') mem' E' st2 (o1 ++ o2) (g1 ++ g2).
Proof using Type.
  intros Hb HR Hp Hord Hlt Hempty Hn Hm [(K1 & K2 & K3) HF HR' Hp' [Ho1 Ho2] Hn' Hm'].
  assert (Hafter : Before (mjoin g1) (mjoin g2 ++ E')).
  { intros e e' He He'. destruct Hempty as [->| ->]; [by apply elem_of_nil in He|]. rewrite Hp', app_nil_r in He'. apply batch_entries_seq in He'. specialize (Hlt e He). lia. }
  rewrite <- Z.add_assoc, <- Nat2Z.inj_add, <- length_app in HF. split; try done.
  - split; [cbn [length]; lia|]. split; [|by apply prefix_app]. cbn [take records_hold]. by exists us1, us'.
  - by apply (Recovered_trans tables_of user st st1).
  - rewrite join_app, <- app_assoc, Hp', batch_entries_app. rewrite (Permutation_app_swap_app (mjoin g1)), Hp, app_assoc. done.
  - split; [apply Before_app; [done|done|]|].
    + intros e e' He He'. apply Hafter; [done|]. apply elem_of_app. by left.
    + intros e e'. rewrite join_app, elem_of_app. intros [He|He] He'; [|by apply Ho2]. apply Hafter; [done|]. apply elem_of_app. by right.
  - lia.
  - rewrite Hm'. cbn [Nat.eqb]. rewrite length_app. destruct (Nat.eqb_spec k 0) as [->|]; [|lia]. change (us' = []) in K2. rewrite K2, Hm. cbn [length]. lia.
Qed.

(** What the updates still to come and the entries [E] may need. *)
Record Room (seq : Z) (rs : list bytes) (us : list WriteBatch.Update) (E : list Entry) (st : Recovering (W := W)) : Prop := {
  ro_insertable : Forall (insertable valid) us;
  ro_sequence : 1 <= seq ∧ seq + Z.of_nat (length us) <= kMaxSequenceNumber + 1;
  ro_memory : Z.of_nat (length us) + Z.of_nat (length E) < 2 ^ 27;
  ro_fits es : es ⊆+ batch_entries seq us ++ E → fits (entry_kv <$> es);
  ro_numbers : 0 < next st ∧ next st + Z.of_nat (length rs) + 1 < 2 ^ 64;
}.

(** One record: inserted, and the memtable written when it is full. *)
Lemma recover_record_step seq r rs us1 us2 mem E st : holds (SetContents r) seq us1 → Filling seq mem E → Room seq (r :: rs) (us1 ++ us2) E st →
  ∃ m s st1 mem1 E1 o1 g1, InsertInto (SetContents r) (default (MemTable_Ref (MemTable_make user)) mem) = Some (OK, (seq + Z.of_nat (length us1), Some m)) ∧
    (∃ usage, ApproximateMemoryUsage m = Some usage ∧
      ((wbs <? usage = true ∧ write_recovered ops remove user m (note_sequence (SetContents r) st) = Some (s, st1) ∧ mem1 = (if Status_ok s then None else Some m)) ∨
       (wbs <? usage = false ∧ st1 = note_sequence (SetContents r) st ∧ mem1 = Some m ∧ s = OK))) ∧
    Filling (seq + Z.of_nat (length us1)) mem1 E1 ∧ Recovered tables_of user st st1 o1 g1 ∧ mjoin g1 ++ E1 ≡ₚ batch_entries seq us1 ++ E ∧
    (StronglySorted Before g1 ∧ (∀ e, e ∈ mjoin g1 → e_seq e < seq + Z.of_nat (length us1)) ∧ (g1 = [] ∨ E1 = [])) ∧
    next st1 <= next st + 1 ∧ rv_max st1 = Z.max (rv_max st) (seq + Z.of_nat (length us1) - 1) ∧ Room (seq + Z.of_nat (length us1)) rs us2 E1 st1 ∧
    (OutputReliable ops tables_of entries → s = OK).
Proof using HU HO Hremove.
  intros Hb HF [R1 [R2 R3] R4 R5 [R6 R7]]. rewrite length_app in R3, R4. apply Forall_app in R1 as [Hu1 Hu2]. cbn [length] in R7.
  destruct (insert_record (SetContents r) seq us1 mem E Hb Hu1 ltac:(lia) HF) as (m & EI & HF'). exists m.
  destruct (memtable_usage m (batch_entries seq us1 ++ E)) as [usage EU]; [apply HF'|rewrite length_app, length_batch_entries; lia|].
  rewrite (note_sequence_ok (SetContents r) seq us1 st Hb R2 ltac:(lia)). set (st0 := {| rv_edit := rv_edit st |}).
  assert (HR0 : Recovered tables_of user st st0 [] []) by (destruct (Recovered_refl tables_of user st); by split).
  rewrite batch_entries_app in R5.
  assert (Hroom : ∀ st1, 0 < next st1 → next st1 <= next st + 1 → Room (seq + Z.of_nat (length us1)) rs us2 (batch_entries seq us1 ++ E) st1).
  { intros st1 H0 H1. split; [done|split; lia|rewrite length_app, length_batch_entries; lia| |split; lia]. intros es Hes. apply R5. by rewrite <- app_assoc. }
  destruct (wbs <? usage) eqn:Eu.
  - destruct (write_recovered_ok (ops := ops) (entries := entries) (fits := fits) Hremove m (batch_entries seq us1 ++ E) st0) as (s & st1 & outs & groups & EW & Hm & HR & Hp & Hn & Hord & Hrel); [apply HF'|apply HF'| |exact R6|cbn; lia|].
    { intros es Hes. apply R5. rewrite Hes, <- app_assoc. by apply submseteq_inserts_l. }
    change (next st0) with (next st) in Hn. pose proof (Recovered_trans tables_of user st st0 st1 [] [] outs groups HR0 HR) as HR1. cbn [app] in HR1.
    destruct (Status_ok s) eqn:Es.
    + exists s, st1, None, [], outs, groups. split; [done|]. split; [exists usage; split; [done|left; by rewrite Es]|]. split; [apply Filling_empty|].
      split; [exact HR1|]. split; [by rewrite app_nil_r|].
      split; [split; [done|]; split; [intros e; rewrite Hp; apply HF'|by right]|]. split; [lia|]. split; [done|]. split; [|done].
      split; [done|split; lia|cbn [length]; lia| |split; lia]. intros es Hes. apply R5. rewrite app_nil_r in Hes. rewrite Hes, <- app_assoc. by apply submseteq_inserts_r.
    + subst groups. exists s, st1, (Some m), (batch_entries seq us1 ++ E), outs, []. split; [done|]. split; [exists usage; split; [done|left; by rewrite Es]|]. split; [done|].
      split; [exact HR1|]. split; [done|]. split; [split; [constructor|]; split; [by intros e ?%elem_of_nil|by left]|]. split; [lia|]. split; [done|]. split; [apply Hroom; lia|done].
  - exists OK, st0, (Some m), (batch_entries seq us1 ++ E), [], []. split; [done|]. split; [exists usage; split; [done|by right]|]. split; [done|]. split; [done|]. split; [done|].
    split; [split; [constructor|]; split; [by intros e ?%elem_of_nil|by left]|]. split; [cbn; lia|]. split; [done|]. split; [apply Hroom; cbn; lia|done].
Qed.

(** The records of a log: all that survive, or those up to a table that could not be written. *)
Lemma recover_records_ok rs : ∀ fuel r o data tail us seq mem E st, aligned r o data → reports r = [] → Forall bytes_ok rs → data ++ tail = layout o (log_cut o rs) → (length data < fuel)%nat →
  records_hold seq rs us → Filling seq mem E → Room seq rs us E st →
  ∃ s k us' mem' E' st' outs groups, recover_records ops remove env user paranoid wbs fuel OK r mem st = Some (s, mem', st') ∧
    Replayed seq rs us E st k us' mem' E' st' outs groups ∧ Room (seq + Z.of_nat (length us')) (drop k rs) (drop (length us') us) E' st' ∧
    (Status_ok s = true → (k < length rs)%nat → zlen data < zlen (layout o (log_cut o (take (S k) rs)))) ∧ (OutputReliable ops tables_of entries → s = OK).
Proof using HU HO Hremove.
  induction rs as [|r rs IH]; intros fuel rd o data tail us seq mem E st Hal Hrep Hok Hd Hf Hh HF HR; (destruct fuel as [|fuel]; [lia|]); cbn [recover_records].
  - cbn [log_cut layout] in Hd. apply app_eq_nil in Hd as [-> ->]. destruct (ReadRecord_end rd o Hal) as (rd' & -> & Hr). rewrite log_reported_ok by congruence.
    exists OK, 0%nat, [], mem, E, st, [], []. split; [done|]. split; [by apply Replayed_none|]. split; [|split; [cbn; lia|done]]. cbn [length drop]. by rewrite Z.add_0_r.
  - cbn [records_hold] in Hh. destruct Hh as (us1 & us2 & -> & Hb & Hh). apply Forall_cons in Hok as [Hr Hrs]. cbn [log_cut] in Hd. rewrite layout_app in Hd.
    destruct (ReadRecord_record rd o r data tail _ Hal Hr Hd) as (res & rd1 & -> & Hr1 & Hcase). pose proof (record_cut_nonempty o r) as H7.
    destruct Hcase as [(data' & -> & Hdata & Hal' & Hmore)|[-> Hlt]].
    + rewrite log_reported_ok by congruence. cbn [Status_ok OK negb].
      assert (Hsize : zlen r <? 12 = false).
      { apply Z.ltb_ge. destruct Hb as (Hrep' & _). change (rep_ (SetContents r)) with r in Hrep'. rewrite Hrep'. unfold zlen. rewrite !length_app, EncodeFixed64_length, EncodeFixed32_length. lia. }
      rewrite Hsize. destruct (recover_record_step seq r rs us1 us2 mem E st Hb HF HR) as (m & s1 & st1 & mem1 & E1 & o1 & g1 & EI & (usage & EU & ES) & HF1 & HR1 & Hp1 & (Hq1 & Hq2 & Hq3) & Hn1 & Hm1 & HRoom & Hrel1).
      rewrite EI. cbn [mbind option_bind MaybeIgnoreError Status_ok OK orb negb]. rewrite EU. cbn [mbind option_bind]. destruct (Status_ok s1) eqn:Es1.
      * destruct (IH fuel rd1 _ data' tail us2 (seq + Z.of_nat (length us1)) mem1 E1 st1 Hal' ltac:(congruence) Hrs) as (s & k & us' & mem' & E' & st' & o2 & g2 & EL & HP & HRoom' & Hmax & Hrel); [by rewrite Hmore| |done|done|done|].
        { rewrite Hdata, length_app in Hf. unfold zlen in H7. lia. }
        assert (s1 = OK) as -> by (by destruct s1).
        exists s, (S k), (us1 ++ us'), mem', E', st', (o1 ++ o2), (g1 ++ g2).
        split; [destruct ES as [(-> & -> & ->)|(-> & -> & -> & _)]; [cbn [mbind option_bind Status_ok OK]|]; exact EL|].
        split; [by apply (Replayed_cons seq r rs us1 us2 E E1 st st1)|].
        split; [rewrite length_app, Nat2Z.inj_add, Z.add_assoc; cbn [drop]; by rewrite drop_app_add|]. split; [|done].
        intros Hs Hk. cbn [take log_cut length] in *. rewrite layout_app, Hdata, !zlen_app. apply Z.add_lt_mono_l, Hmax; [done|lia].
      * destruct ES as [(-> & -> & ->)|(_ & _ & _ & ->)]; [|done]. cbn [mbind option_bind]. rewrite Es1.
        exists s1, 1%nat, (us1 ++ []), (Some m), E1, st1, (o1 ++ []), (g1 ++ []). split; [done|].
        split; [apply (Replayed_cons seq r rs us1 us2 E E1 st st1); try done; by apply Replayed_none|].
        split; [rewrite app_nil_r; cbn [drop]; by rewrite drop_0, drop_app_length|]. split; [congruence|done].
    + rewrite log_reported_ok by congruence. exists OK, 0%nat, [], mem, E, st, [], []. split; [done|]. split; [by apply Replayed_none|]. split; [cbn [length drop]; by rewrite Z.add_0_r|]. split; [|done].
      intros _ _. cbn [take log_cut]. by rewrite app_nil_r.
Qed.
End Records.

Lemma layout_cons_le r rs o : zlen (layout o (log_cut o rs)) <= zlen (layout o (log_cut o (rs ++ r))).
Proof.
  revert o. induction rs as [|x rs IH]; intros o; cbn [app log_cut]; [apply zlen_nonneg|]. rewrite !layout_app, !zlen_app. specialize (IH (layout_end o (record_cut o x))). lia.
Qed.

Section File.
Context {W B : Type} {ops : OutputOps W B} {remove : Z → W → W} {env : ManifestEnv W} {valid : bytes → Prop} {user : Comparator} `{HU : !ComparatorOk valid user}.
Context {tables_of : W → Z → option (Z * list (bytes * bytes))} {entries : B → option (list (bytes * bytes))} {fits : list (bytes * bytes) → Prop}.
Context `{HO : !OutputOk ops valid user tables_of entries fits} (Hremove : ∀ n m w, m ≠ n → tables_of (remove n w) m = tables_of w m).
Context (dbname : bytes) (paranoid : bool) (wbs : Z).
Abbreviation Room := (Room (valid := valid) (fits := fits)).

(** Every path of [RecoverLogFile] over a log that may have lost its end; [lost] are the entries
    read that are in no table. *)
Lemma RecoverLogFile_ok n data tail rs us seq st : NewSequentialFile env (LogFileName dbname n) (rv_world st) = (OK, {| sf_rest := data; sf_error := false |}) →
  Forall bytes_ok rs → data ++ tail = layout 0 (log_cut 0 rs) → records_hold seq rs us → Room seq rs us [] st →
  ∃ s k us' lost st' outs groups, RecoverLogFile ops remove env user dbname paranoid wbs n st = Some (s, st') ∧
    (k <= length rs)%nat ∧ records_hold seq (take k rs) us' ∧ us' `prefix_of` us ∧
    (Status_ok s = true → lost = [] ∧ ((k < length rs)%nat → zlen data < zlen (layout 0 (log_cut 0 (take (S k) rs))))) ∧
    Recovered tables_of user st st' outs groups ∧ mjoin groups ++ lost ≡ₚ batch_entries seq us' ∧ StronglySorted Before groups ∧
    vs_next_file_number (rv_versions st') <= vs_next_file_number (rv_versions st) + Z.of_nat k + 1 ∧
    rv_max st' = (if (k =? 0)%nat then rv_max st else Z.max (rv_max st) (seq + Z.of_nat (length us') - 1)) ∧ (OutputReliable ops tables_of entries → s = OK).
Proof using HU HO Hremove.
  intros Hopen Hrs Hd Hh HR. unfold RecoverLogFile. rewrite Hopen. cbn [Status_ok OK negb sf_rest].
  destruct (recover_records_ok (ops := ops) (env := env) (entries := entries) Hremove paranoid wbs rs (S (S (length data))) (Reader_make {| sf_rest := data; sf_error := false |} true true 0) Log.kBlockSize
    data tail us seq None [] st) as (s & k & us' & mem & E & st1 & o1 & g1 & EL & [(K1 & K2 & K3) HF HR1 Hp [Ho1 Ho2] Hn Hm] & HRoom & Hmax & Hrel); [by apply (aligned_make {| sf_rest := data; sf_error := false |})|done|done|by rewrite log_cut_start|lia|done|apply Filling_empty|done|].
  rewrite EL. cbn [mbind option_bind]. rewrite log_cut_start in Hmax. rewrite app_nil_r in Hp. destruct HF as (HM & Hdist & _). destruct (Status_ok s) eqn:Es.
  2:{ exists s, k, us', E, st1, o1, g1. split; [by destruct mem|]. split_and!; try done; [congruence|lia]. }
  assert (s = OK) as -> by (by destruct s). destruct mem as [m|].
  - pose proof HRoom as [_ _ _ Hfits [N1 N2]].
    destruct (write_recovered_ok (ops := ops) (entries := entries) (fits := fits) Hremove m E st1 HM Hdist) as (s & st2 & o2 & g2 & EW & Hm2 & HR2 & Hp2 & Hn2 & Ho3 & Hrel2); [|done|lia|].
    { intros es Hes. apply Hfits. rewrite Hes. by apply submseteq_inserts_l. }
    pose proof (Recovered_trans tables_of user st st1 st2 o1 g1 o2 g2 HR1 HR2) as HR3. destruct (Status_ok s) eqn:Es2.
    + exists s, k, us', [], st2, (o1 ++ o2), (g1 ++ g2). split; [exact EW|]. split_and!; try done; [split; [done|by apply Hmax]|by rewrite app_nil_r, join_app, Hp2| |lia|congruence].
      apply Before_app; [done|done|]. intros e e' He. rewrite Hp2. by apply Ho2.
    + subst g2. exists s, k, us', E, st2, (o1 ++ o2), (g1 ++ []). split; [exact EW|]. split_and!; try done; [congruence|by rewrite app_nil_r|by rewrite app_nil_r|lia|congruence].
  - subst E. exists OK, k, us', [], st1, o1, g1. split_and!; try done; [split; [done|by apply Hmax]|lia].
Qed.
End File.

(** ** The other logs stay as they are *)

(** What [env.h] promises of the logs: writing or deleting a table leaves them. *)
Class LogsLocal {W B : Type} (ops : OutputOps W B) (remove : Z → W → W) (env : ManifestEnv W) (dbname : bytes) : Prop := {
  ll_new n w k : NewSequentialFile env (LogFileName dbname k) (NewOutput ops n w).2 = NewSequentialFile env (LogFileName dbname k) w;
  ll_finish n b w s size w' k : Output_Finish ops n b w = Some (s, size, w') → NewSequentialFile env (LogFileName dbname k) w' = NewSequentialFile env (LogFileName dbname k) w;
  ll_sync n w k : NewSequentialFile env (LogFileName dbname k) (Output_Sync ops n w).2 = NewSequentialFile env (LogFileName dbname k) w;
  ll_remove n w k : NewSequentialFile env (LogFileName dbname k) (remove n w) = NewSequentialFile env (LogFileName dbname k) w;
}.

Section OtherLogs.
Context {W B : Type} {ops : OutputOps W B} {remove : Z → W → W} {env : ManifestEnv W} {dbname : bytes} `{HL : !LogsLocal ops remove env dbname}.
Context (user : Comparator) (paranoid : bool) (wbs : Z).
Abbreviation opens k w := (NewSequentialFile env (LogFileName dbname k) w).

Lemma BuildTable_logs n kvs w s o w' k : BuildTable ops remove n kvs w = Some (s, o, w') → opens k w' = opens k w.
Proof using HL.
  unfold BuildTable. destruct kvs as [|[key v] kvs]; [intros [= _ _ <-]; apply (ll_remove (ops := ops))|]. pose proof (ll_new (ops := ops) (remove := remove) n w k) as Hn.
  destruct (NewOutput ops n w) as [[s0 b] w0]. cbn [snd] in Hn. destruct (negb _); [by intros [= _ _ <-]|]. destruct (build_loop _ _ _ _) as [[lg b']|]; [|done]. cbn [mbind option_bind].
  destruct (Output_Finish ops n b' w0) as [[[s1 z] w1]|] eqn:Ef; [|done]. apply (ll_finish (remove := remove) n b' w0 s1 z w1 k) in Ef. cbn [mbind option_bind].
  destruct (Status_ok s1 && _); [done|]. destruct (if Status_ok s1 then Output_Sync ops n w1 else (s1, w1)) as [s2 w2] eqn:E2.
  assert (H2 : opens k w2 = opens k w1) by (destruct (Status_ok s1); [pose proof (ll_sync (ops := ops) (remove := remove) n w1 k) as Hx; by rewrite E2 in Hx|by injection E2 as _ <-]).
  intros [= _ _ <-]. destruct (_ && _); [congruence|]. rewrite (ll_remove (ops := ops)). congruence.
Qed.

Lemma write_recovered_logs m st s st' k : write_recovered ops remove user m st = Some (s, st') → opens k (rv_world st') = opens k (rv_world st).
Proof using HL.
  unfold write_recovered, WriteLevel0Table. cbn [NewFileNumber]. destruct (memtable_kvs m) as [kvs|]; [|done]. cbn [mbind option_bind].
  destruct (BuildTable _ _ _ _ _) as [[[s0 o] w0]|] eqn:EB; [|done]. apply (BuildTable_logs _ _ _ _ _ _ k) in EB. cbn [mbind option_bind]. destruct (_ && _); intros [= _ <-]; exact EB.
Qed.

Lemma recover_records_logs k fuel : ∀ s r mem st s' mem' st', recover_records ops remove env user paranoid wbs fuel s r mem st = Some (s', mem', st') → opens k (rv_world st') = opens k (rv_world st).
Proof using HL.
  induction fuel as [|fuel IH]; intros s r mem st s' mem' st'; cbn [recover_records]; [done|]. destruct (ReadRecord r) as [[record|] r']; [|by intros [= _ _ <-]].
  destruct (negb _); [by intros [= _ _ <-]|]. destruct (zlen record <? 12); [apply IH|]. destruct (InsertInto _ _) as [[s1 [q m]]|]; [|done]. cbn [mbind option_bind]. destruct m as [m|]; [|done]. cbn [mbind option_bind].
  destruct (negb _); [by intros [= _ _ <-]|]. destruct (ApproximateMemoryUsage m) as [usage|]; [|done]. cbn [mbind option_bind]. destruct (wbs <? usage); [|intros ER%IH; exact ER].
  destruct (write_recovered _ _ _ _ _) as [[s2 st2]|] eqn:EW; [|done]. apply (write_recovered_logs _ _ _ _ k) in EW. cbn [mbind option_bind]. destruct (Status_ok s2); [intros ER%IH; rewrite ER; exact EW|intros [= _ _ <-]; exact EW].
Qed.

Lemma RecoverLogFile_logs k n st s st' : RecoverLogFile ops remove env user dbname paranoid wbs n st = Some (s, st') → opens k (rv_world st') = opens k (rv_world st).
Proof using HL.
  unfold RecoverLogFile. destruct (NewSequentialFile _ _ _) as [s0 f]. destruct (negb _); [by intros [= _ <-]|].
  destruct (recover_records _ _ _ _ _ _ _ _ _ _ _) as [[[s1 mem] st1]|] eqn:ER; [|done]. apply (recover_records_logs k) in ER. cbn [mbind option_bind].
  destruct mem as [m|]; [destruct (Status_ok s1)|]; [|by intros [= _ <-]..]. intros EW. apply (write_recovered_logs _ _ _ _ k) in EW. congruence.
Qed.
End OtherLogs.

(** ** All the logs *)

(** A log on disk: its number, the bytes that survive and those that were lost, the records
    written to it, and the updates they hold from [lf_seq] on. *)
Record LogFile := { lf_number : Z; lf_data : bytes; lf_lost : bytes; lf_records : list bytes; lf_seq : Z; lf_updates : list WriteBatch.Update }.

Record LogOk {W : Type} (valid : bytes → Prop) (fits : list (bytes * bytes) → Prop) (env : ManifestEnv W) (dbname : bytes) (w : W) (l : LogFile) : Prop := {
  lo_number : 0 <= lf_number l;
  lo_opens : NewSequentialFile env (LogFileName dbname (lf_number l)) w = (OK, {| sf_rest := lf_data l; sf_error := false |});
  lo_bytes : Forall bytes_ok (lf_records l) ∧ lf_data l ++ lf_lost l = layout 0 (log_cut 0 (lf_records l));
  lo_holds : records_hold (lf_seq l) (lf_records l) (lf_updates l);
  lo_insertable : Forall (insertable valid) (lf_updates l);
  lo_sequence : 1 <= lf_seq l ∧ lf_seq l + Z.of_nat (length (lf_updates l)) <= kMaxSequenceNumber + 1;
  lo_memory : Z.of_nat (length (lf_updates l)) < 2 ^ 27;
  lo_fits es : es ⊆+ batch_entries (lf_seq l) (lf_updates l) → fits (entry_kv <$> es);
}.

(** [us] are the updates of the records of [l] that survive in full. *)
Definition Survives (l : LogFile) (us : list WriteBatch.Update) : Prop :=
  ∃ k, (k <= length (lf_records l))%nat ∧ records_hold (lf_seq l) (take k (lf_records l)) us ∧ us `prefix_of` lf_updates l ∧
    ((k < length (lf_records l))%nat → zlen (lf_data l) < zlen (layout 0 (log_cut 0 (take (S k) (lf_records l))))).

Lemma holds_length b s s' us us' : holds b s us → holds b s' us' → length us = length us'.
Proof.
  intros H H'. pose proof H as (_ & Hs & Hl & _). pose proof H' as (_ & Hs' & Hl' & _). apply holds_header in H as E, H' as E'. rewrite E in E'. clear E H H'.
  destruct (batch_header_fields s (Z.of_nat (length us)) (mjoin (update_bytes <$> us)) Hs ltac:(lia)) as (_ & C & _).
  destruct (batch_header_fields s' (Z.of_nat (length us')) (mjoin (update_bytes <$> us')) Hs' ltac:(lia)) as (_ & C' & _). rewrite E', C' in C. lia.
Qed.

Lemma records_hold_length rs : ∀ s s' us us', records_hold s rs us → records_hold s' rs us' → length us = length us'.
Proof.
  induction rs as [|r rs IH]; intros s s' us us' H H'; cbn [records_hold] in *; [congruence|]. destruct H as (a & b & -> & Ha & Hb), H' as (a' & b' & -> & Ha' & Hb').
  rewrite !length_app, (holds_length _ _ _ a a' Ha Ha'). f_equal. by eapply IH.
Qed.

(** Of a whole log, everything survives. *)
Lemma Survives_whole l us : lf_lost l = [] → lf_data l ++ lf_lost l = layout 0 (log_cut 0 (lf_records l)) → records_hold (lf_seq l) (lf_records l) (lf_updates l) → Survives l us → us = lf_updates l.
Proof.
  intros -> Hd Hh (k & Hk & Hr & Hp & Hmax). rewrite app_nil_r in Hd. assert (k = length (lf_records l)) as ->.
  { destruct (decide (k = length (lf_records l))) as [|Hne]; [done|]. specialize (Hmax ltac:(lia)). rewrite Hd in Hmax.
    pose proof (layout_cons_le (drop (S k) (lf_records l)) (take (S k) (lf_records l)) 0) as Hle. rewrite take_drop in Hle. lia. }
  rewrite firstn_all in Hr. pose proof (records_hold_length _ _ _ _ _ Hr Hh) as Hlen. destruct Hp as [rest E]. rewrite E in *. rewrite length_app in Hlen. destruct rest; [by rewrite app_nil_r|cbn in Hlen; lia].
Qed.

(** How recovering [l] came out: a status, and the entries of [l] that are now in tables.  With OK, these
    are the entries of all the records that survive in full; with an error, some may be missing. *)
Definition LogOutcome (l : LogFile) (r : Status * list Entry) : Prop :=
  r.2 ⊆+ batch_entries (lf_seq l) (lf_updates l) ∧ (Status_ok r.1 = true → ∃ us, Survives l us ∧ r.2 ≡ₚ batch_entries (lf_seq l) us).

Lemma batch_entries_prefix us us' seq : us' `prefix_of` us → batch_entries seq us' ⊆+ batch_entries seq us.
Proof. intros [rest ->]. rewrite batch_entries_app. by apply submseteq_inserts_l. Qed.

(** The updates of [l] come before those of [l']. *)
Definition log_before (l l' : LogFile) : Prop := lf_seq l + Z.of_nat (length (lf_updates l)) <= lf_seq l'.

Section Logs.
Context {W B : Type} {ops : OutputOps W B} {remove : Z → W → W} {env : ManifestEnv W} {valid : bytes → Prop} {user : Comparator} `{HU : !ComparatorOk valid user}.
Context {tables_of : W → Z → option (Z * list (bytes * bytes))} {entries : B → option (list (bytes * bytes))} {fits : list (bytes * bytes) → Prop} {dbname : bytes}.
Context `{HO : !OutputOk ops valid user tables_of entries fits} `{HL : !LogsLocal ops remove env dbname} (Hremove : ∀ n m w, m ≠ n → tables_of (remove n w) m = tables_of w m).
Context (paranoid : bool) (wbs : Z).
Abbreviation next st := (vs_next_file_number (rv_versions st)).

(** File numbers that recovering the logs may use. *)
Definition cost (logs : list LogFile) : Z := foldr (λ l c, Z.of_nat (length (lf_records l)) + 1 + c) 0 logs.

Lemma outcome_after s logs rec e : Forall (λ l, s <= lf_seq l) logs → Forall2 LogOutcome logs rec → e ∈ mjoin rec.*2 → s <= e_seq e.
Proof using Type.
  intros Hl HS. revert Hl. induction HS as [|l [q es] logs rec [Hes _] HS IH]; intros Hl He; [by apply elem_of_nil in He|]. apply Forall_cons in Hl as [Hl Hls].
  change (mjoin ((q, es) :: rec).*2) with (es ++ mjoin rec.*2) in He. apply elem_of_app in He as [He|He]; [|by apply IH]. eapply elem_of_submseteq in Hes; [|exact He]. apply batch_entries_seq in Hes. lia.
Qed.

Lemma mark_used n (st : Recovering (W := W)) : 0 <= n < 2 ^ 64 - 1 → let st' := with_rv_versions (MarkFileNumberUsed n (rv_versions st)) st in
  Recovered tables_of user st st' [] [] ∧ next st' = Z.max (next st) (n + 1) ∧ rv_max st' = rv_max st ∧ rv_world st' = rv_world st.
Proof using Type.
  intros Hn st'. assert (Hnext : next st' = Z.max (next st) (n + 1) ∧ rv_versions st' = with_next_file (next st') (rv_versions st)).
  { unfold st'. cbn [with_rv_versions rv_versions]. unfold MarkFileNumberUsed. rewrite u64_small by (unfold is_u; lia). destruct (Z.leb_spec (next st) n); cbn; [split; [lia|done]|]. split; [lia|]. by destruct (rv_versions st). }
  destruct Hnext as [Hnext Hv]. split; [|done]. split; try done; [by split; constructor|]. split; [done|lia].
Qed.

Lemma recover_logs_ok logs : ∀ s0 st M, Forall (LogOk valid fits env dbname (rv_world st)) logs → 0 < next st <= M → Forall (λ l, lf_number l < M) logs → M + cost logs + 1 < 2 ^ 64 →
  ∃ s rec st' outs groups, recover_logs ops remove env user dbname paranoid wbs s0 (lf_number <$> logs) st = Some (s, st') ∧ Forall2 LogOutcome logs rec ∧ s = List.last rec.*1 s0 ∧
    Recovered tables_of user st st' outs groups ∧ mjoin groups ≡ₚ mjoin rec.*2 ∧ rv_max st <= rv_max st' ∧ (∀ e, e ∈ mjoin groups → e_seq e <= rv_max st') ∧
    (StronglySorted log_before logs → StronglySorted Before groups) ∧ next st' <= M + cost logs ∧ rv_max st' <= Z.max (rv_max st) kMaxSequenceNumber ∧
    (OutputReliable ops tables_of entries → Forall (λ r, r.1 = OK) rec).
Proof using HU HO HL Hremove.
  induction logs as [|l logs IH]; intros s0 st M Hok HM Hnum Hcost.
  { exists s0, [], st, [], []. split; [done|]. split; [constructor|]. split; [done|]. split; [apply Recovered_refl|]. split_and!; [done|done|by intros e ?%elem_of_nil|constructor|cbn [cost foldr]; lia|lia|constructor]. }
  apply Forall_cons in Hok as [[L1 L2 [L3 L4] L5 L6 L7 L8 L9] Hok]. apply Forall_cons in Hnum as [Hn Hnum]. cbn [cost foldr] in Hcost. fold (cost logs) in Hcost.
  assert (Hc0 : 0 <= cost logs) by (clear; induction logs as [|x logs IH]; cbn [cost foldr]; [done|fold (cost logs); lia]). cbn [fmap list_fmap recover_logs].
  destruct (RecoverLogFile_ok (ops := ops) (entries := entries) (valid := valid) (fits := fits) Hremove dbname paranoid wbs (lf_number l) (lf_data l) (lf_lost l) (lf_records l) (lf_updates l) (lf_seq l) st L2 L3 L4 L5)
    as (s1 & k & us & lost & st1 & o1 & g1 & E1 & K1 & K2 & K3 & K4 & HR1 & Hp1 & Ho1 & Hn1 & Hm1 & Hrel1).
  { split; [done|done|cbn; lia|by rewrite app_nil_r|]. split; lia. }
  pose proof (λ j, RecoverLogFile_logs user paranoid wbs j _ _ _ _ E1) as Hw. rewrite E1. cbn [mbind option_bind].
  destruct (mark_used (lf_number l) st1 ltac:(lia)) as (HR2 & Hn2 & Hm2 & Hw2). set (st2 := with_rv_versions _ st1) in *.
  destruct (IH s1 st2 (M + Z.of_nat (length (lf_records l)) + 1)) as (s & rec & st3 & o2 & g2 & E3 & HS & Hs & HR3 & Hp3 & Hm3 & He3 & Ho3 & Hc3 & Hx3 & Hrel3).
  { eapply Forall_impl; [exact Hok|]. intros x [X1 X2 X3 X4 X5 X6 X7 X8]. split; try done. by rewrite Hw2, Hw. }
  { destruct (rc_versions _ _ _ _ _ _ HR1) as [_ Hle]. lia. } { eapply Forall_impl; [exact Hnum|]. cbn. lia. } { lia. }
  assert (Hsub : mjoin g1 ⊆+ batch_entries (lf_seq l) us) by (rewrite <- Hp1; by apply submseteq_inserts_r).
  exists s, ((s1, mjoin g1) :: rec), st3, (o1 ++ o2), (g1 ++ g2). split; [exact E3|]. split.
  { constructor; [|done]. split; [etransitivity; [exact Hsub|by apply batch_entries_prefix]|]. intros Hs1. destruct (K4 Hs1) as [-> Hmax]. rewrite app_nil_r in Hp1. exists us. split; [by exists k|done]. }
  split; [rewrite Hs; clear; cbn [fmap list_fmap fst]; destruct rec as [|x rec]; [done|]; cbn [fmap list_fmap]; generalize (x.1); generalize (rec.*1); clear; induction l as [|y l IH]; intros a; [done|exact (IH y)]|].
  split; [exact (Recovered_trans _ _ st st1 st3 o1 g1 o2 g2 HR1 (Recovered_trans _ _ st1 st2 st3 [] [] o2 g2 HR2 HR3))|].
  assert (Hm : rv_max st <= rv_max st1) by (rewrite Hm1; destruct (k =? 0)%nat; lia). split; [|split; [lia|split; [|split; [|split; [cbn [cost foldr]; fold (cost logs); lia|split]]]]].
  - change (mjoin ((s1, mjoin g1) :: rec).*2) with (mjoin g1 ++ mjoin rec.*2). by rewrite join_app, Hp3.
  - intros e. rewrite join_app, elem_of_app. intros [He|He]; [|by apply He3]. assert (e_seq e <= rv_max st1); [|lia]. eapply elem_of_submseteq in He; [|exact Hsub]. pose proof (batch_entries_seq _ _ _ He) as Hq. rewrite Hm1.
    destruct (Nat.eqb_spec k 0) as [->|]; [|lia]. change (us = []) in K2. subst us. by apply elem_of_nil in He.
  - intros Hb. inversion Hb as [|? ? Hb' Hl]; subst. apply Before_app; [done|by apply Ho3|]. intros e e' He He'. eapply elem_of_submseteq in He; [|exact Hsub]. apply batch_entries_seq in He. apply prefix_length in K3.
    rewrite Hp3 in He'. apply (outcome_after (lf_seq l + Z.of_nat (length (lf_updates l))) logs) in He'; [lia|done|done].
  - apply prefix_length in K3. assert (rv_max st1 <= Z.max (rv_max st) kMaxSequenceNumber) by (rewrite Hm1; destruct (k =? 0)%nat; lia). lia.
  - intros HR. constructor; [by apply Hrel1|by apply Hrel3].
Qed.
End Logs.

(** ** The directory *)

(** The logs to recover in a listing, and the numbers of its files. *)
Definition listed_log (min_log prev_log : Z) (f : bytes) : option Z :=
  match ParseFileName f with
  | Some (n, kLogFile) => if (min_log <=? n) || (n =? prev_log) then Some n else None
  | _ => None
  end.
Definition listed (names : list bytes) (n : Z) : Prop := ∃ f t, f ∈ names ∧ ParseFileName f = Some (n, t).

Lemma list_logs_ok min prev names : ∀ expected logs, ∃ expected', list_logs min prev names expected logs = (expected', logs ++ omap (listed_log min prev) names) ∧
  ∀ n, n ∈ expected' ↔ n ∈ expected ∧ ¬ listed names n.
Proof.
  induction names as [|f names IH]; intros expected logs; cbn [list_logs omap list_omap].
  { exists expected. rewrite app_nil_r. split; [done|]. intros n. split; [|by intros [? _]]. intros Hn. split; [done|]. by intros (f & t & ?%elem_of_nil & _). }
  unfold listed_log at 1. destruct (ParseFileName f) as [[m t]|] eqn:Ef.
  - destruct (IH (expected ∖ {[m]}) (match t with kLogFile => if (min <=? m) || (m =? prev) then logs ++ [m] else logs | _ => logs end)) as (ex & E & Hx). exists ex. rewrite E. split.
    + f_equal. destruct t; try done. destruct (_ || _); [by rewrite <- app_assoc|done].
    + intros n. rewrite Hx, elem_of_difference, elem_of_singleton. split.
      * intros [[H1 H2] H3]. split; [done|]. intros (g & u & [->|Hg]%elem_of_cons & Hp); [congruence|]. apply H3. by exists g, u.
      * intros [H1 H2]. split; [split; [done|]|]; [intros ->; apply H2; exists f, t; split; [left|done]|]. intros (g & u & Hg & Hp). apply H2. exists g, u. split; [by right|done].
  - destruct (IH expected logs) as (ex & E & Hx). exists ex. rewrite E. split; [done|]. intros n. rewrite Hx. split; intros [H1 H2]; (split; [done|]); intros (g & u & Hg & Hp); apply H2.
    + apply elem_of_cons in Hg as [->|Hg]; [congruence|]. by exists g, u.
    + exists g, u. split; [by right|done].
Qed.

Lemma sort_logs (l k : list Z) : l ≡ₚ k → StronglySorted Z.le k → merge_sort Z.le l = k.
Proof.
  intros Hp Hs. apply (StronglySorted_unique Z.le); [apply (StronglySorted_merge_sort Z.le)|done|]. by rewrite merge_sort_Permutation.
Qed.

(** What recovering the logs did, with the status [s]: [rec] is how each log came out, [outs] are the tables
    written and [groups] their entries. *)
Record LogsRecovered {W : Type} (user : Comparator) (tables_of : W → Z → option (Z * list (bytes * bytes))) (logs : list LogFile) (st st' : Recovering (W := W)) (s : Status)
    (rec : list (Status * list Entry)) (outs : list Output) (groups : list (list Entry)) : Prop := {
  lr_outcome : Forall2 LogOutcome logs rec;
  lr_status : s = List.last rec.*1 OK;
  lr_whole i l r : logs !! i = Some l → rec !! i = Some r → Status_ok r.1 = true → lf_lost l = [] → r.2 ≡ₚ batch_entries (lf_seq l) (lf_updates l);
  lr_edit : rv_edit st' = foldl add_level0 (rv_edit st) outs;
  lr_closed : Forall2 (λ o g, Closed (tables_of := tables_of) (rv_world st') o g ∧ StronglySorted (entry_lt (user := user)) g) outs groups;
  lr_entries : mjoin groups ≡ₚ mjoin rec.*2;
  lr_order : StronglySorted log_before logs → StronglySorted Before groups;
  lr_numbers : StronglySorted Z.lt (out_number <$> outs) ∧ Forall (λ o, vs_next_file_number (rv_versions st) <= out_number o < vs_next_file_number (rv_versions st')) outs;
  lr_old n : n < vs_next_file_number (rv_versions st) → tables_of (rv_world st') n = tables_of (rv_world st) n;
  lr_versions : let vs := rv_versions st in rv_versions st' =
    {| vs_next_file_number := vs_next_file_number (rv_versions st'); vs_manifest_file_number := vs_manifest_file_number vs; vs_last_sequence := vs_last_sequence (rv_versions st');
       vs_log_number := vs_log_number vs; vs_prev_log_number := vs_prev_log_number vs; descriptor_log_ := descriptor_log_ vs;
       versions_ := versions_ vs; compact_pointer_ := compact_pointer_ vs |};
  lr_counters : vs_next_file_number (rv_versions st) <= vs_next_file_number (rv_versions st') ∧ vs_last_sequence (rv_versions st) <= vs_last_sequence (rv_versions st');
  lr_sequence e : Status_ok s = true → e ∈ mjoin groups → e_seq e <= vs_last_sequence (rv_versions st');
}.

Section Directory.
Context {W B : Type} {ops : OutputOps W B} {remove : Z → W → W} {env : ManifestEnv W} {valid : bytes → Prop} {user : Comparator} `{HU : !ComparatorOk valid user}.
Context {tables_of : W → Z → option (Z * list (bytes * bytes))} {entries : B → option (list (bytes * bytes))} {fits : list (bytes * bytes) → Prop} {dbname : bytes}.
Context `{HO : !OutputOk ops valid user tables_of entries fits} `{HL : !LogsLocal ops remove env dbname} (Hremove : ∀ n m w, m ≠ n → tables_of (remove n w) m = tables_of w m).
Context (paranoid : bool) (wbs : Z).

Lemma recover_after_manifest_ok names logs M st : Forall (LogOk valid fits env dbname (rv_world st)) logs → StronglySorted Z.le (lf_number <$> logs) →
  omap (listed_log (vs_log_number (rv_versions st)) (vs_prev_log_number (rv_versions st))) names ≡ₚ lf_number <$> logs →
  0 < vs_next_file_number (rv_versions st) <= M → Forall (λ l, lf_number l < M) logs → M + cost logs + 1 < 2 ^ 64 →
  (∀ n, n ∈ AddLiveFiles (versions_ (rv_versions st)) ∅ → listed names n) →
  ∃ s rec st' outs groups, recover_after_manifest ops remove env user dbname paranoid wbs (OK, names) st = Some (s, st') ∧ LogsRecovered user tables_of logs st st' s rec outs groups ∧
    vs_next_file_number (rv_versions st') <= M + cost logs ∧ vs_last_sequence (rv_versions st') <= Z.max (Z.max (vs_last_sequence (rv_versions st)) (rv_max st)) kMaxSequenceNumber ∧
    (OutputReliable ops tables_of entries → Forall (λ r, r.1 = OK) rec).
Proof using HU HO HL Hremove.
  intros Hlogs Hsort Hp HM Hnum Hcost Hall. unfold recover_after_manifest. cbn [Status_ok OK negb].
  destruct (list_logs_ok (vs_log_number (rv_versions st)) (vs_prev_log_number (rv_versions st)) names (AddLiveFiles (versions_ (rv_versions st)) ∅) []) as (ex & -> & Hex). cbn [app].
  rewrite bool_decide_eq_true_2 by (apply set_eq; intros n; rewrite Hex, elem_of_empty; naive_solver). cbn [negb]. rewrite (sort_logs _ _ Hp Hsort).
  destruct (recover_logs_ok (ops := ops) (entries := entries) (fits := fits) Hremove paranoid wbs logs OK st M Hlogs HM Hnum Hcost)
    as (s & rec & st1 & outs & groups & -> & HS & Hs & [R1 R2 [R3 R4] [R5 R6] R7] & Hg & Hm & He & Ho & Hc & Hx & Hrel).
  cbn [mbind option_bind]. set (last := vs_last_sequence (rv_versions st1)). exists s, rec.
  assert (Hlast : last = vs_last_sequence (rv_versions st)) by (unfold last; by rewrite R5).
  assert (Hfin : ∃ st', (if Status_ok s && (last <? rv_max st1) then vs ← VersionSet_SetLastSequence (rv_max st1) (rv_versions st1); Some (s, with_rv_versions vs st1) else Some (s, st1)) = Some (s, st') ∧
    rv_edit st' = rv_edit st1 ∧ rv_world st' = rv_world st1 ∧ vs_next_file_number (rv_versions st') = vs_next_file_number (rv_versions st1) ∧
    vs_last_sequence (rv_versions st') = (if Status_ok s then Z.max last (rv_max st1) else last) ∧
    rv_versions st' = {| vs_next_file_number := vs_next_file_number (rv_versions st'); vs_manifest_file_number := vs_manifest_file_number (rv_versions st); vs_last_sequence := vs_last_sequence (rv_versions st');
       vs_log_number := vs_log_number (rv_versions st); vs_prev_log_number := vs_prev_log_number (rv_versions st); descriptor_log_ := descriptor_log_ (rv_versions st);
       versions_ := versions_ (rv_versions st); compact_pointer_ := compact_pointer_ (rv_versions st) |}).
  { assert (Hsame : rv_versions st1 = {| vs_next_file_number := vs_next_file_number (rv_versions st1); vs_manifest_file_number := vs_manifest_file_number (rv_versions st); vs_last_sequence := vs_last_sequence (rv_versions st1);
       vs_log_number := vs_log_number (rv_versions st); vs_prev_log_number := vs_prev_log_number (rv_versions st); descriptor_log_ := descriptor_log_ (rv_versions st);
       versions_ := versions_ (rv_versions st); compact_pointer_ := compact_pointer_ (rv_versions st) |}) by (rewrite R5; by destruct (rv_versions st)).
    destruct (Status_ok s); cbn [andb]; [|by exists st1].
    destruct (Z.ltb_spec last (rv_max st1)) as [Hlt|Hge]; [|exists st1; split; [done|]; split_and!; [done|done|done|unfold last in *; lia|done]].
    unfold VersionSet_SetLastSequence. rewrite (proj2 (Z.ltb_ge _ _)) by (unfold last in Hlt; lia). eexists. split; [done|]. split_and!; [done|done|done|cbn; lia|]. cbn. by rewrite R5. }
  destruct Hfin as (st' & -> & F1 & F2 & F3 & F4 & F5). exists st', outs, groups. split; [done|]. split; [split; rewrite ?F1, ?F2, ?F3; try done|split; [|split; [|done]]].
  - intros i l r Hi Hr Hok Hlost. destruct (Forall2_lookup_lr _ _ _ _ _ _ HS Hi Hr) as [_ HSi]. destruct (HSi Hok) as (us & HSu & ->).
    rewrite Forall_forall in Hlogs. pose proof (Hlogs l (list_elem_of_lookup_2 _ _ _ Hi)) as [_ _ [_ Hd] Hh _ _ _ _]. by rewrite (Survives_whole l us).
  - rewrite <- F3. exact F5.
  - rewrite F4. destruct (Status_ok s); lia.
  - intros e Hok Hin. rewrite F4, Hok. specialize (He e Hin). lia.
  - lia.
  - rewrite F4. destruct (Status_ok s); lia.
Qed.
End Directory.

(** ** Properties *)


(** ** Samples *)

Definition sample_record (seq k : Z) : bytes := rep_ (SetSequence seq (sample_batch k)).
Definition sample_log_bytes (rs : list bytes) : bytes := layout 0 (log_cut 0 rs).
Definition drop_table (n : Z) (w : MemoryWorld) : MemoryWorld := (w.1, delete n w.2).
(** A log of two batches that lost its last byte. *)
Definition sample_cut_log : LogFile := {| lf_number := 3; lf_data := take 47 (sample_log_bytes [sample_record 1 97; sample_record 2 98]);
  lf_lost := drop 47 (sample_log_bytes [sample_record 1 97; sample_record 2 98]); lf_records := [sample_record 1 97; sample_record 2 98]; lf_seq := 1; lf_updates := [UPut [97] [120]; UPut [98] [120]] |}.
Definition sample_recovering (files : gmap bytes bytes) : Recovering (W := MemoryWorld) :=
  {| rv_edit := VersionEdit_make; rv_max := 0; rv_versions := VersionSet_make; rv_pending := ∅; rv_world := (files, ∅) |}.

#[local] Instance sample_logs_local : LogsLocal sample_flush_ops drop_table sample_flush_env (str "db").
Proof. split; try done. by intros n b w s size w' k [= _ _ <-]. Qed.

Lemma sample_record_holds seq k : is_u 64 seq → is_byte k → holds (SetContents (sample_record seq k)) seq [UPut [k] [120]].
Proof. intros Hs Hk. split; [done|]. split; [done|]. split; [done|]. by constructor. Qed.

Lemma sample_cut_log_ok : LogOk bytes_ok (λ _, True) sample_flush_env (str "db") ({[LogFileName (str "db") 3 := lf_data sample_cut_log]}, ∅) sample_cut_log.
Proof.
  split; [done| | | | |by_compute|done|done].
  - change (lf_number sample_cut_log) with 3. cbn [sample_flush_env sample_env NewSequentialFile fst]. by rewrite lookup_singleton_eq.
  - split; [by_compute|]. apply take_drop.
  - exists [UPut [97] [120]], [UPut [98] [120]]. split; [done|]. split; [by apply sample_record_holds|]. exists [UPut [98] [120]], []. split; [done|]. split; [by apply sample_record_holds|done].
  - repeat constructor; by_compute.
Qed.


(** Only the last log decides whether recovery failed: with paranoid checks, recovering a log
    whose only record fails its checksum returns an error, but followed by a sound log the
    recovery returns OK, the error and the batch of the first log are lost, and the database
    opens with the second batch alone. *)
Example recovery_hides_failed_log :
  let bad := <[0%nat := 0]> (sample_log_bytes [sample_record 1 97]) in
  let st := sample_recovering {[LogFileName (str "db") 3 := bad; LogFileName (str "db") 5 := sample_log_bytes [sample_record 2 98]]} in
  let recover := recover_after_manifest sample_flush_ops drop_table sample_flush_env BytewiseComparator (str "db") true 65536 in
  (∃ s st', recover (OK, [str "000003.log"]) st = Some (s, st') ∧ IsCorruption s = true ∧ (rv_world st').2 = ∅) ∧
  (∃ st', recover (OK, [str "000003.log"; str "000005.log"]) st = Some (OK, st') ∧ vs_last_sequence (rv_versions st') = 2 ∧
    snd <$> (map_to_list (rv_world st').2).*2 = [[entry_kv (entry_of [98] 2 kTypeValue [120])]]).
Proof. split; [eexists _, _|eexists _]; (split; [vm_compute; reflexivity|]); split; vm_compute; reflexivity. Qed.
