(* ===== verification/DbOpen.v ===== *)
(** * Opening a database

    Model of [DBImpl::NewDB], the whole of [DBImpl::Recover], the constructor of [DBImpl] and
    [DB::Open] ([App/integration/db_impl.cpp]).  The directory is the interface [DirEnv], files
    and tables are those of [CompactMem]; [log_error] is the status of a write to a log that
    fails.  What the destructor gives back after a failed [Open] is memory and the lock, and is
    left out.  The outer [None] is a failed assertion. *)
From S2P Require Import Prelude Coding Comparator DbFormat Logging Log Status Filename MemTable Arena WriteBatch Compaction Table VersionEdit Version VersionBuilder VersionSet CompactionPick ObsoleteFiles CompactionInstall CompactionWork DbWrite Flush CompactMem DbRecover.
From stdpp Require Import sorting list gmap.

#[local] Open Scope Z_scope.

(** The calls on directories and locks. *)
Record DirEnv (W : Type) := {
  CreateDir : bytes → W → Status * W;
  LockFile : bytes → W → Status * W;
  FileExists : bytes → W → bool;
  GetChildren : bytes → W → Status * list bytes;
}.
Arguments CreateDir {W}. Arguments LockFile {W}. Arguments FileExists {W}. Arguments GetChildren {W}.

Section Open.
Context {W B : Type} (ops : OutputOps W B) (env : ManifestEnv W) (dir : DirEnv W) (files : W → gmap bytes bytes) (Evict : Z → W → W).
Context (user : Comparator) (comparator_name dbname_ : bytes) (log_error : Status).
Context (create_if_missing error_if_exists paranoid_checks : bool) (write_buffer_size : Z).

Definition new_db : VersionEdit := SetLastSequence 0 (SetNextFile 2 (SetLogNumber 0 (SetComparatorName comparator_name VersionEdit_make))).

Definition NewDB (w : W) : Status * W :=
  let manifest := DescriptorFileName dbname_ 1 in
  let '(s, w) := NewWritableFile (base_env env) manifest w in
  if negb (Status_ok s) then (s, w)
  else
    let '(ok, _, w) := add_record env files manifest (EncodeTo new_db []) 0 w in
    let '(s, w) := if ok : bool then File_Close (base_env env) manifest w else (log_error, w) in
    if Status_ok s then SetCurrentFile (base_env env) dbname_ 1 w
    else (s, (Filename.DeleteFile (base_env env) manifest w).2).

Definition with_rv_world (w : W) (st : Recovering (W := W)) : Recovering (W := W) :=
  {| rv_edit := rv_edit st; rv_max := rv_max st; rv_versions := rv_versions st; rv_pending := rv_pending st; rv_world := w |}.

(** The lock, and whether the database is there. *)
Definition prepare (w : W) : Status * W :=
  let w := (CreateDir dir dbname_ w).2 in
  let '(s, w) := LockFile dir (LockFileName dbname_) w in
  if negb (Status_ok s) then (s, w)
  else if negb (FileExists dir (CurrentFileName dbname_) w) then
    if create_if_missing then NewDB w
    else (InvalidArgument dbname_ (str "does not exist (create_if_missing is false)"), w)
  else if error_if_exists then (InvalidArgument dbname_ (str "exists (error_if_exists is true)"), w)
  else (OK, w).

(** [DBImpl::Recover]. *)
Definition DB_Recover (st : Recovering (W := W)) : option (Status * Recovering) :=
  let '(s, w) := prepare (rv_world st) in
  let st := with_rv_world w st in
  if negb (Status_ok s) then Some (s, st)
  else
    '(s, vs) ← Recover env user comparator_name dbname_ (rv_versions st) w;
    let st := with_rv_versions vs st in
    if Status_ok s then recover_after_manifest ops (remove_table env dbname_) env user dbname_ paranoid_checks write_buffer_size (GetChildren dir dbname_ w) st
    else Some (s, st).

(** The constructor, with what [Open] sets. *)
Definition DBImpl_make (log_number : Z) (vs : VersionSet) : DBImpl :=
  {| writers_ := []; on_stack := ∅; tmp_batch_ := WriteBatch.Clear; mem_ := MemTable_Ref (MemTable_make user); imm_ := None;
     logfile_number_ := log_number; log_ := 0; db_versions_ := vs; bg_error_ := OK; shutting_down_ := false;
     bg_compaction_scheduled_ := false; manual_compaction_ := false; scheduled := 0 |}.

Definition Recovering_make (w : W) : Recovering :=
  {| rv_edit := VersionEdit_make; rv_max := 0; rv_versions := VersionSet_make; rv_pending := ∅; rv_world := w |}.

(** [h] is what the new version asks to be compacted; no database on an error. *)
Definition Open (h : Hints) (w : W) : option (Status * option DBImpl * W) :=
  '(s, st) ← DB_Recover (Recovering_make w);
  if negb (Status_ok s) then Some (s, None, rv_world st)
  else
    let '(new_log_number, vs) := NewFileNumber (rv_versions st) in
    let '(s, w) := NewWritableFile (base_env env) (LogFileName dbname_ new_log_number) (rv_world st) in
    if negb (Status_ok s) then Some (s, None, w)
    else
      '(ok, _, vs, w) ← LogAndApply env files user comparator_name dbname_ (SetLogNumber new_log_number (rv_edit st)) vs w;
      if ok : bool then
        let w := DeleteObsoleteFiles (base_env env) (λ w, (GetChildren dir dbname_ w).2) Evict dbname_ OK (rv_pending st) vs w in
        Some (OK, Some (MaybeScheduleCompaction h (DBImpl_make new_log_number vs)), w)
      else Some (log_error, None, w).
End Open.

(** ** A new database *)

Section New.
Context {W : Type} {env : ManifestEnv W} {files : W → gmap bytes bytes} `{HE : !ManifestEnvOk env files} {valid : bytes → Prop} {user : Comparator} `{HU : !ComparatorOk valid user}.
Context (comparator_name dbname : bytes) (log_error : Status) (Hname : bytes_ok comparator_name ∧ name_ok comparator_name).

Lemma new_db_ok : EditOk (new_db comparator_name) ∧ EditKeys valid comparator_name (new_db comparator_name) ∧ bytes_ok (EncodeTo (new_db comparator_name) []).
Proof using Hname.
  assert (H1 : EditOk (new_db comparator_name)).
  { unfold new_db. apply (apply_field_ok _ (FLast _)); [|done]. apply (apply_field_ok _ (FNext _)); [|done]. apply (apply_field_ok _ (FLog _)); [|done].
    apply (apply_field_ok _ (FComparator _)); [apply EditOk_make|apply Hname]. }
  assert (H2 : EditKeys valid comparator_name (new_db comparator_name)) by (split; [constructor|constructor|done]).
  split_and!; [done|done|]. by apply (EncodeTo_bytes valid comparator_name).
Qed.

(** The files a new database starts with. *)
Lemma NewDB_ok w : ∃ w', NewDB env files comparator_name dbname log_error w = (OK, w') ∧
  files w' !! DescriptorFileName dbname 1 = Some (layout 0 (log_cut 0 [EncodeTo (new_db comparator_name) []])) ∧
  files w' !! CurrentFileName dbname = Some (str "MANIFEST-" ++ zero_pad 6 (dec 1) ++ [10]) ∧
  ∀ g, g ≠ DescriptorFileName dbname 1 → g ≠ CurrentFileName dbname → g ≠ TempFileName dbname 1 → files w' !! g = files w !! g.
Proof using HE.
  unfold NewDB. set (m := DescriptorFileName dbname 1). set (r := EncodeTo _ []).
  pose proof (me_new (env := env) (files := files) m w) as H1. pose proof (new_ok (env := base_env env) (files := files) m w) as H2.
  pose proof (new_frame (env := base_env env) (files := files) m w) as F1.
  destruct (NewWritableFile (base_env env) m w) as [s1 w1]. cbn [fst snd] in H1, H2, F1. rewrite H1. cbn [negb].
  destruct (add_record_ok env files m r 0 w1 [] (H2 H1) ltac:(unfold Log.kBlockSize; lia)) as (w2 & -> & Hf2 & F2).
  pose proof (me_close (env := env) (files := files) m w2) as H3. pose proof (close_files (env := base_env env) (files := files) m w2) as Hf3.
  destruct (File_Close (base_env env) m w2) as [s3 w3]. cbn [fst snd] in H3, Hf3. rewrite H3.
  pose proof (SetCurrentFile_ok env files dbname 1 w3) as Hc. pose proof (SetCurrentFile_spec (base_env env) files dbname 1 w3 me_env) as Hcs.
  destruct (SetCurrentFile (base_env env) dbname 1 w3) as [s4 w4]. cbn [fst] in Hc. rewrite Hc in Hcs. destruct Hcs as [Hcur Hfr]. destruct s4; [done|].
  exists w4. split; [done|]. destruct (manifest_names dbname 1 1 ltac:(done)) as [N1 N2]. split; [|split; [done|]].
  - rewrite Hfr, Hf3, Hf2 by done. cbn [log_cut]. by rewrite app_nil_r.
  - intros g G1 G2 G3. by rewrite Hfr, Hf3, F2, F1.
Qed.

Lemma empty_sorted : VersionSorted (valid := valid) (user := user) Version_empty.
Proof using Type. split; [done|]. intros l Hl. rewrite level_files_empty by done. split; constructor. Qed.

(** Reading the manifest of a new database. *)
Lemma NewDB_recovers w : files w !! DescriptorFileName dbname 1 = Some (layout 0 (log_cut 0 [EncodeTo (new_db comparator_name) []])) →
  files w !! CurrentFileName dbname = Some (str "MANIFEST-" ++ zero_pad 6 (dec 1) ++ [10]) →
  ∃ vl, AppendVersion Version_empty (versions_ VersionSet_make) = Some vl ∧ Recover env user comparator_name dbname VersionSet_make w = Some (OK,
    {| vs_next_file_number := 3; vs_manifest_file_number := 2; vs_last_sequence := 0; vs_log_number := 0; vs_prev_log_number := 0;
       descriptor_log_ := None; versions_ := vl; compact_pointer_ := compact_pointer_ VersionSet_make |}).
Proof using HE HU Hname.
  intros Hm Hcur. set (data := layout _ _) in Hm. destruct new_db_ok as (E1 & E2 & E3).
  rewrite (Recover_eq env files (valid := valid) comparator_name dbname Hname 1 _ recover_start w Hcur (me_read (env := env) (files := files) _ w _ Hm)) by reflexivity. cbn [sf_rest].
  destruct (recover_loop_ok env (valid := valid) (user := user) comparator_name [new_db comparator_name] (S (S (length data))) (Reader_make {| sf_rest := data; sf_error := false |} true true 0)
    Log.kBlockSize data [] recover_start (compact_pointer_ VersionSet_make) (Builder_make Version_empty)) as (k & cp & b & Hk & EA & EL & Hlt);
    [by apply (aligned_make {| sf_rest := data; sf_error := false |})|done|by constructor|by constructor|by constructor|by rewrite app_nil_r, log_cut_start|lia|done|].
  assert (k = 1%nat) as ->.
  { cbn [length] in *. destruct k as [|[|k]]; [|done|lia]. specialize (Hlt ltac:(lia)). rewrite log_cut_start in Hlt. cbn [take fmap list_fmap] in Hlt. fold data in Hlt. lia. }
  cbn [take] in *. rewrite EL. cbn [mbind option_bind]. assert (cp = compact_pointer_ VersionSet_make ∧ b = Builder_make Version_empty) as [-> ->] by (by injection EA as <- <-).
  destruct (start_append Version_empty) as (vl & EV & Hvl). exists vl. split; [done|]. unfold finish_recovery.
  cbn [Status_ok OK negb noted foldl r_next_file r_log_number r_last_sequence r_prev_log_number r_builder r_pointers new_db note has_log_number_ has_prev_log_number_ has_next_file_number_ has_last_sequence_
    SetLastSequence SetNextFile SetLogNumber SetComparatorName VersionEdit_make recover_start log_number_ next_file_number_ last_sequence_ default from_option id].
  change (SaveTo user (Builder_make Version_empty)) with (Some Version_empty). cbn [mbind option_bind].
  match goal with |- context [AppendVersion Version_empty ?x] => change x with (versions_ VersionSet_make) end. rewrite EV. reflexivity.
Qed.

(** The version set of a new database may start a manifest. *)
Lemma new_start vl : AppendVersion Version_empty (versions_ VersionSet_make) = Some vl → VersionSet.Start (valid := valid) (user := user) comparator_name Version_empty
  {| vs_next_file_number := 3; vs_manifest_file_number := 2; vs_last_sequence := 0; vs_log_number := 0; vs_prev_log_number := 0;
     descriptor_log_ := None; versions_ := vl; compact_pointer_ := compact_pointer_ VersionSet_make |}.
Proof using Hname.
  intros EV. assert (Hlive : live_ vl !! current_id vl = Some (Version_empty, 1)) by (unfold AppendVersion in EV; vm_compute in EV; injection EV as <-; reflexivity).
  split; [|done|unfold current; cbn [versions_]; by rewrite Hlive]. split.
  - split; [apply empty_sorted|]. split; [done|]. intros l f Hl Hf. rewrite level_files_empty in Hf by done. by apply elem_of_nil in Hf.
  - split; constructor.
  - intros l Hl. rewrite level_files_empty by done. constructor.
  - exists Version_empty, 1. split; [done|]. split; [done|]. split; [apply empty_sorted|]. done.
  - done.
  - split; [done|]. apply Forall_replicate. by left.
Qed.
End New.

(** ** The recovered tables join the version *)

Section Join.
Context {W : Type} {valid : bytes → Prop} {user : Comparator} `{HU : !ComparatorOk valid user}.
Context (tables_of : W → Z → option (Z * list (bytes * bytes))) (w : W) (tables : Z → option (Z * list Entry)) (v : Version) (outs : list Output) (groups : list (list Entry)) (next : Z).
Abbreviation tables' := (tables_with tables outs groups).
Abbreviation VersionOk := (VersionOk (valid := valid) (user := user)).
Abbreviation Describes := (Describes (valid := valid) (user := user)).

(** The tables [outs] with numbers from [next] on, each newer than the one before and than the version. *)
Record Joining : Prop := {
  jn_version : VersionOk tables v;
  jn_sorted : VersionSorted (valid := valid) (user := user) v;
  jn_old l : NoDup (number <$> level_files v l) ∧ ∀ f, f ∈ level_files v l → number f < next;
  jn_numbers : StronglySorted Z.lt (out_number <$> outs) ∧ Forall (λ o, next <= out_number o < 2 ^ 64) outs ∧ 0 < next;
  jn_closed : Forall2 (λ o g, Closed (tables_of := tables_of) w o g ∧ StronglySorted (entry_lt (user := user)) g) outs groups;
  jn_entries : Forall (entry_ok valid) (mjoin groups);
  jn_order : StronglySorted Before groups;
  jn_newer l f e e' : f ∈ level_files v l → e' ∈ entries_of tables f → e ∈ mjoin groups → e_key e = e_key e' → e_seq e' < e_seq e;
  jn_room : zlen (level_files v 0) + zlen outs < 2 ^ 31;
}.
Context (HJ : Joining).
Abbreviation new_at l := (if l =? 0 then out_meta <$> outs else []).

Lemma join_numbers : NoDup (out_number <$> outs) ∧ length outs = length groups.
Proof using HJ.
  split; [|by apply (Forall2_length _ _ _ (jn_closed HJ))]. destruct (jn_numbers HJ) as [Hs _]. induction Hs as [|n ns _ IH Hn]; constructor; [|done].
  intros Hin. rewrite Forall_forall in Hn. specialize (Hn n Hin). lia.
Qed.

(** A table written, with what it holds. *)
Lemma join_table i o : outs !! i = Some o → ∃ g, groups !! i = Some g ∧ tables' (out_number o) = Some (out_file_size o, g) ∧ tables_of w (out_number o) = Some (out_file_size o, entry_kv <$> g) ∧
  entries_of tables' (out_meta o) = g ∧ Describes tables' (out_meta o) ∧ output_ok o.
Proof using HJ HU.
  intros Ho. destruct join_numbers as [Hnd Hlen]. destruct (Forall2_lookup_l _ _ _ _ _ (jn_closed HJ) Ho) as (g & Hg & Hcl & Hs).
  pose proof (tables_with_out tables outs groups i o g Hnd Hlen Ho Hg) as Ht. exists g.
  assert (Hok : Forall (entry_ok valid) g).
  { apply Forall_forall. intros e He. pose proof (jn_entries HJ) as Hall. rewrite Forall_forall in Hall. apply Hall, list_elem_of_join. exists g. split; [done|by apply list_elem_of_lookup_2 in Hg]. }
  pose proof Hcl as [[(e0 & H0 & E0) (e1 & H1 & E1)] [Hsz Hd]]. split_and!; try done.
  - unfold entries_of. change (number (out_meta o)) with (out_number o). by rewrite Ht.
  - by apply (closed_describes tables_of w tables' o g).
  - destruct (jn_numbers HJ) as (_ & Hall & Hp). rewrite Forall_forall in Hall. specialize (Hall o (list_elem_of_lookup_2 _ _ _ Ho)). rewrite Forall_forall in Hok.
    split_and!; [unfold is_u; lia|done|rewrite E0; apply (name_ok_entry (valid := valid)), Hok; destruct g; [done|by injection H0 as ->; left]|rewrite E1; apply (name_ok_entry (valid := valid)), Hok; by apply last_Some_elem_of].
Qed.

Lemma join_old l f : f ∈ level_files v l → tables' (number f) = tables (number f).
Proof using HJ.
  intros Hf. destruct join_numbers as [_ Hlen]. apply tables_with_other; [done|]. intros (o & Eo & Ho)%list_elem_of_fmap. pose proof (proj2 (jn_old HJ l) f Hf).
  destruct (jn_numbers HJ) as (_ & Hall & _). rewrite Forall_forall in Hall. specialize (Hall o Ho). lia.
Qed.

Lemma join_old_entries l f : f ∈ level_files v l → entries_of tables' f = entries_of tables f.
Proof using HJ. intros Hf. unfold entries_of. by rewrite (join_old l f Hf). Qed.

Lemma join_old_described l f : f ∈ level_files v l → Describes tables' f.
Proof using HJ.
  intros Hf. destruct (v_describes _ _ (jn_version HJ) l f Hf) as [D1 D2 D3 D4]. split; rewrite ?(join_old_entries l f Hf); try done. by rewrite (join_old l f Hf).
Qed.

(** The files an edit adds. *)
Definition joins (edit : VersionEdit) : Prop := deleted_files_ edit = [] ∧
  new_files_ edit = (λ o, (0, FileMetaData_make (out_number o) (out_file_size o) (out_smallest o) (out_largest o))) <$> outs.

Lemma join_level edit l F : joins edit → added_at l edit = new_at l ∧ edit_level l F edit = F ++ new_at l.
Proof using Type.
  intros [Hd Hn]. assert (Ha : added_at l edit = new_at l).
  { unfold added_at. rewrite Hn. clear. rewrite (Z.eqb_sym l 0). induction outs as [|o os IH]; cbn [fmap list_fmap List.filter fst]; [by destruct (0 =? l)|]. destruct (0 =? l); [|exact IH]. cbn [fmap list_fmap]. by rewrite <- IH. }
  split; [done|]. unfold edit_level. rewrite Ha. f_equal. unfold deleted_at. rewrite Hd. induction F as [|f F IH]; [done|]. cbn [List.filter].
  rewrite bool_decide_eq_false_2 by (by intros ?%elem_of_nil). cbn [negb]. by rewrite IH.
Qed.

Lemma join_fresh edit : joins edit → NumbersFresh v [edit].
Proof using HJ.
  intros He l Hl. change (all_added l [edit]) with (added_at l edit ++ []). rewrite app_nil_r, (proj1 (join_level edit l [] He)), fmap_app. destruct (jn_old HJ l) as [N1 N2]. apply NoDup_app. split; [done|].
  destruct (l =? 0); [|split; [by intros ? ? ?%elem_of_nil|constructor]]. rewrite <- list_fmap_compose. split; [|apply join_numbers].
  intros n (f & -> & Hf)%list_elem_of_fmap (o & Eo & Ho)%list_elem_of_fmap. specialize (N2 f Hf). destruct (jn_numbers HJ) as (_ & Hall & _). rewrite Forall_forall in Hall. specialize (Hall o Ho). cbn in Eo. lia.
Qed.

Lemma join_apart l : 0 < l < kNumLevels → Apart (valid := valid) (user := user) (level_files v l).
Proof using HJ HU.
  intros Hl. split; [apply Forall_forall; intros f Hf; by apply (describes_FileOk tables), (v_describes _ _ (jn_version HJ) l)|].
  intros f g Hf Hg Hn. apply (sorted_either _ (level_files v l) f g (v_disjoint _ _ (jn_version HJ) l ltac:(lia)) Hf Hg). by intros ->.
Qed.

Lemma join_version edit cp : joins edit → EditOk edit → zlen cp = kNumLevels →
  ∃ cp' b v', Apply user edit cp (Builder_make v) = Some (cp', b) ∧ SaveTo user b = Some v' ∧ VersionSorted (valid := valid) (user := user) v' ∧
    ∀ l, level_ok l → level_files v' l ≡ₚ level_files v l ++ new_at l ∧ ChainOk (user := user) l (level_files v' l).
Proof using HJ HU.
  intros Hj He Hcp. pose proof (join_fresh edit Hj) as Hfresh.
  destruct (Apply_ok (valid := valid) (user := user) edit cp (Builder_make v) v []) as (cp' & b & EA & HB & _); [apply Builder_make_inv|done|done|done| |].
  { destruct Hj as [_ ->]. apply Forall_fmap, Forall_forall. intros o [i Ho]%list_elem_of_lookup. destruct (join_table i o Ho) as (g & _ & _ & _ & _ & Hd & _). by destruct (describes_FileOk tables' _ Hd) as [V _ _ _ _]. }
  destruct (SaveTo_ok b v [edit] HB (jn_sorted HJ) Hfresh) as (v' & EV & Hs & Hl').
  { intros l Hl. cbn [edit_levels foldl]. rewrite (proj2 (join_level edit l _ Hj)). destruct (Z.eqb_spec l 0); [lia|]. rewrite app_nil_r. by apply join_apart. }
  exists cp', b, v'. split_and!; try done. intros l Hl. destruct (Hl' l Hl) as [Hp Hc]. split; [|done]. rewrite Hp. cbn [edit_levels foldl]. by rewrite (proj2 (join_level edit l _ Hj)).
Qed.

Section AfterJoin.
Context (v' : Version) (Hsorted : VersionSorted (valid := valid) (user := user) v').
Context (Hlevels : ∀ l, level_ok l → level_files v' l ≡ₚ level_files v l ++ new_at l ∧ ChainOk (user := user) l (level_files v' l)).

Lemma joined_file l f : f ∈ level_files v' l → ∃ l0, level_ok l0 ∧ (0 <= l → l0 = l) ∧ (f ∈ level_files v l0 ∨ (l0 = 0 ∧ ∃ o i, outs !! i = Some o ∧ f = out_meta o)).
Proof using Hsorted Hlevels.
  intros Hf. destruct (clip_level v' l (vs_levels _ Hsorted)) as [E|(l0 & Hl0 & E & Heq)]; rewrite E in Hf; [by apply elem_of_nil in Hf|]. exists l0. split; [done|]. split; [done|].
  rewrite (proj1 (Hlevels l0 Hl0)), elem_of_app in Hf. destruct Hf as [Hf|Hf]; [by left|]. destruct (Z.eqb_spec l0 0) as [E0|]; [|by apply elem_of_nil in Hf].
  apply list_elem_of_fmap in Hf as (o & -> & [i Ho]%list_elem_of_lookup). right. split; [done|]. by exists o, i.
Qed.

Lemma join_groups_older i j gi gj e e' : groups !! i = Some gi → groups !! j = Some gj → (j < i)%nat → e ∈ gi → e' ∈ gj → e_seq e' < e_seq e.
Proof using HJ.
  intros Hi Hj Hlt He He'. pose proof (jn_order HJ) as Hs. rewrite <- (take_drop i groups) in Hs. apply (StronglySorted_app_1_elem_of _ _ _ gj gi) in Hs; [by apply Hs| |].
  - apply list_elem_of_lookup. exists j. by rewrite lookup_take_lt.
  - apply list_elem_of_lookup. exists 0%nat. rewrite lookup_drop, Nat.add_0_r. done.
Qed.

Lemma join_number_order i j o o' : outs !! i = Some o → outs !! j = Some o' → out_number o' < out_number o → (j < i)%nat.
Proof using HJ.
  intros Hi Hj Hn. destruct (jn_numbers HJ) as [Hs _]. destruct (decide (i = j)) as [->|Hne]; [rewrite Hi in Hj; injection Hj as <-; lia|]. destruct (decide (j < i)%nat) as [|Hge]; [done|].
  rewrite <- (take_drop j outs), fmap_app in Hs. apply (StronglySorted_app_1_elem_of _ _ _ (out_number o) (out_number o')) in Hs; [lia| |].
  - apply list_elem_of_fmap_2, list_elem_of_lookup. exists i. rewrite lookup_take_lt by lia. done.
  - apply list_elem_of_fmap_2, list_elem_of_lookup. exists 0%nat. rewrite lookup_drop, Nat.add_0_r. done.
Qed.

Lemma joined_version : VersionOk tables' v'.
Proof using HJ HU Hsorted Hlevels.
  pose proof (jn_version HJ) as Hv. pose proof Hsorted as [Hlen _]. split.
  - unfold zlen in Hlen. rewrite <- Hlen. by rewrite Nat2Z.id.
  - intros l. destruct (clip_level v' l Hlen) as [->|(l0 & Hl0 & -> & _)]; [done|]. unfold zlen. rewrite (proj1 (Hlevels l0 Hl0)), length_app.
    pose proof (v_size _ _ Hv l0) as Hz. pose proof (jn_room HJ) as Hr. unfold zlen in *. destruct (Z.eqb_spec l0 0) as [->|]; rewrite ?length_fmap; simpl; lia.
  - intros l f (l0 & Hl0 & _ & [Hf|(_ & o & i & Ho & ->)])%joined_file; [by apply (join_old_described l0)|]. by destruct (join_table i o Ho) as (g & _ & _ & _ & _ & Hd & _).
  - intros l Hl. destruct (clip_level v' l Hlen) as [->|(l0 & Hl0 & _ & Heq)]; [constructor|]. rewrite (Heq ltac:(lia)) in Hl0. by apply (proj2 (Hlevels l Hl0)).
  - rewrite (proj1 (Hlevels 0 ltac:(unfold level_ok, kNumLevels; lia))), fmap_app. cbn [Z.eqb]. rewrite <- list_fmap_compose. destruct (jn_old HJ 0) as [N1 N2]. apply NoDup_app. split; [done|].
    split; [|apply join_numbers]. intros n (f & -> & Hf)%list_elem_of_fmap (o & Eo & Ho)%list_elem_of_fmap. specialize (N2 f Hf). destruct (jn_numbers HJ) as (_ & Hall & _). rewrite Forall_forall in Hall. specialize (Hall o Ho). cbn in Eo. lia.
  - intros l l' f f' e e' Hl Hll Hf Hf' He He' Hk. assert (Hl' : 0 <= l') by lia.
    apply joined_file in Hf as (l0 & _ & E & Hf). rewrite (E Hl) in Hf. apply joined_file in Hf' as (l1 & _ & E' & Hf'). rewrite (E' Hl') in Hf'. clear l0 l1 E E'.
    destruct Hf as [Hf|(-> & o & i & Ho & ->)], Hf' as [Hf'|(-> & o' & j & Ho' & ->)].
    + rewrite (join_old_entries l f Hf) in He. rewrite (join_old_entries l' f' Hf') in He'. by apply (v_newer _ _ Hv l l' f f').
    + destruct Hll as [|(-> & _ & Hn)]; [lia|]. pose proof (proj2 (jn_old HJ 0) f Hf). destruct (jn_numbers HJ) as (_ & Hall & _). rewrite Forall_forall in Hall.
      specialize (Hall o' (list_elem_of_lookup_2 _ _ _ Ho')). change (number (out_meta o')) with (out_number o') in Hn. lia.
    + rewrite (join_old_entries l' f' Hf') in He'. destruct (join_table i o Ho) as (g & Hg & _ & _ & Eg & _). rewrite Eg in He. apply (jn_newer HJ l' f' e e'); try done.
      apply list_elem_of_join. exists g. split; [done|by apply list_elem_of_lookup_2 in Hg].
    + destruct Hll as [|(_ & _ & Hn)]; [lia|]. destruct (join_table i o Ho) as (g & Hg & _ & _ & Eg & _), (join_table j o' Ho') as (g' & Hg' & _ & _ & Eg' & _). rewrite Eg in He. rewrite Eg' in He'.
      apply (join_groups_older i j g g'); [done|done| |done|done]. by apply (join_number_order i j o o').
Qed.

Lemma joined_seen u s e : seen_from tables' u s v' 0 e ↔ seen_from tables u s v 0 e ∨ (e ∈ mjoin groups ∧ e_key e = u ∧ e_seq e <= s).
Proof using HJ HU Hsorted Hlevels.
  split.
  - intros (l & Hl & f & Hf & He & Hk). apply joined_file in Hf as (l0 & _ & E & Hf). rewrite (E ltac:(lia)) in Hf. destruct Hf as [Hf|(-> & o & i & Ho & ->)].
    + left. exists l. split; [done|]. exists f. by rewrite <- (join_old_entries l f Hf).
    + right. destruct (join_table i o Ho) as (g & Hg & _ & _ & Eg & _). rewrite Eg in He. split; [|done]. apply list_elem_of_join. exists g. split; [done|by apply list_elem_of_lookup_2 in Hg].
  - intros [(l & Hl & f & Hf & He & Hk)|[(g & He & [i Hg]%list_elem_of_lookup)%list_elem_of_join Hk]].
    + exists l. split; [done|]. exists f. rewrite (join_old_entries l f Hf). split; [|done]. rewrite (proj1 (Hlevels l ltac:(unfold level_ok; lia))), elem_of_app. by left.
    + exists 0. split; [unfold kNumLevels; lia|]. destruct (Forall2_lookup_r _ _ _ _ _ (jn_closed HJ) Hg) as (o & Ho & _). exists (out_meta o). destruct (join_table i o Ho) as (g' & Hg' & _ & _ & Eg & _).
      rewrite Hg in Hg'. injection Hg' as <-. rewrite Eg. split; [|done]. rewrite (proj1 (Hlevels 0 ltac:(unfold level_ok, kNumLevels; lia))), elem_of_app. right. cbn [Z.eqb]. apply list_elem_of_fmap_2. by apply list_elem_of_lookup_2 in Ho.
Qed.

(** The tables are there, when the world keeps those of [w] that the version lists. *)
Lemma joined_disk w' : on_disk tables_of w tables v → (∀ l f, f ∈ level_files v' l → tables_of w' (number f) = tables_of w (number f)) → on_disk tables_of w' tables' v'.
Proof using HJ HU Hsorted Hlevels.
  intros Hd Hw l f Hf. rewrite (Hw l f Hf). apply joined_file in Hf as (l0 & _ & _ & [Hf|(_ & o & i & Ho & ->)]).
  - rewrite (join_old l0 f Hf). by apply (Hd l0).
  - destruct (join_table i o Ho) as (g & _ & E1 & E2 & _). change (number (out_meta o)) with (out_number o). by rewrite E1, E2.
Qed.
End AfterJoin.
End Join.

(** ** What the logs hold *)

Definition update_count (logs : list LogFile) : Z := foldr (λ l c, Z.of_nat (length (lf_updates l)) + c) 0 logs.

Lemma batch_entries_ok valid us : ∀ seq, Forall (insertable valid) us → 0 <= seq → seq + Z.of_nat (length us) <= kMaxSequenceNumber + 1 → Forall (entry_ok valid) (batch_entries seq us).
Proof.
  induction us as [|u us IH]; intros seq Hus H0 Hmax; cbn [batch_entries length] in *; [done|]. apply Forall_cons in Hus as [Hu Hus]. apply Forall_app. split; [apply IH; [done|lia|lia]|].
  apply Forall_singleton. apply update_entry_ok; [lia|done].
Qed.

Section Logs.
Context {W : Type} {valid : bytes → Prop} {fits : list (bytes * bytes) → Prop} {env : ManifestEnv W} {dbname : bytes} {w : W}.

Lemma outcome_ok logs rec : Forall (LogOk valid fits env dbname w) logs → Forall2 LogOutcome logs rec → Forall (entry_ok valid) (mjoin rec.*2) ∧ zlen (mjoin rec.*2) <= update_count logs.
Proof using Type.
  intros Hl HS. revert Hl. induction HS as [|l [q es] logs rec [Hsub _] HS IH]; intros Hl; [done|]. apply Forall_cons in Hl as [[_ _ _ _ Hi [Hs Hm] _ _] Hls]. destruct (IH Hls) as [H1 H2].
  change (mjoin ((q, es) :: rec).*2) with (es ++ mjoin rec.*2). cbn [update_count foldr]. fold (update_count logs). cbn [snd] in Hsub. split.
  - apply Forall_app. split; [|exact H1]. pose proof (batch_entries_ok valid (lf_updates l) (lf_seq l) Hi ltac:(lia) Hm) as Hb. rewrite Forall_forall in Hb |- *. intros e He. apply Hb. by eapply elem_of_submseteq.
  - rewrite zlen_app. apply submseteq_length in Hsub. rewrite length_batch_entries in Hsub. unfold zlen in *. lia.
Qed.
End Logs.

(** Tables are not empty, so there are no more of them than entries. *)
Lemma outputs_few {W : Type} (tables_of : W → Z → option (Z * list (bytes * bytes))) (user : Comparator) w outs groups :
  Forall2 (λ o g, Closed (tables_of := tables_of) w o g ∧ StronglySorted (entry_lt (user := user)) g) outs groups → zlen outs <= zlen (mjoin groups).
Proof. intros H. apply (groups_length tables_of w). eapply Forall2_impl; [exact H|]. by intros o g [? _]. Qed.

(** The edit [Open] logs. *)
Lemma open_edit outs log : Forall output_ok outs → is_u 64 log → let e := SetLogNumber log (foldl add_level0 VersionEdit_make outs) in EditOk e ∧ joins outs e ∧ compact_pointers_ e = [] ∧ has_comparator_ e = false.
Proof.
  intros Ho Hlog e. destruct (additions_keep 0 outs VersionEdit_make) as (A1 & A2 & A3). fold add_level0 in A1, A2, A3. unfold e. split_and!; [|done|done|].
  - apply (apply_field_ok _ (FLog _)); [|done]. assert (He : EditOk VersionEdit_make) by apply EditOk_make. revert He. generalize VersionEdit_make.
    clear e A1 A2 A3. induction Ho as [|o outs (O1 & O2 & O3 & O4) _ IH]; intros e He; [done|]. cbn [foldl]. apply IH. by apply (apply_field_ok _ (FNew _ _ _ _ _)).
  - cbn [SetLogNumber has_comparator_]. clear. assert (H : has_comparator_ VersionEdit_make = false) by done. revert H. generalize VersionEdit_make. induction outs as [|o outs IH]; intros e H; [done|]. cbn [foldl]. by apply IH.
Qed.

(** ** Opening an existing database *)

(** The database on disk: its manifest describes the version [v] with the tables [tables], and
    the directory lists its files and the logs, whose updates follow those of the tables. *)
Record OnDisk {W : Type} (env : ManifestEnv W) (dir : DirEnv W) (valid : bytes → Prop) (user : Comparator) (comparator_name dbname : bytes)
    (tables_of : W → Z → option (Z * list (bytes * bytes))) (fits : list (bytes * bytes) → Prop)
    (tables : Z → option (Z * list Entry)) (v : Version) (vs : VersionSet) (logs : list LogFile) (names : list bytes) (M : Z) (w : W) : Prop := {
  od_recover : Recover env user comparator_name dbname VersionSet_make w = Some (OK, vs);
  od_start : VersionSet.Start (valid := valid) (user := user) comparator_name v vs;
  od_version : VersionOk (valid := valid) (user := user) tables v;
  od_numbers l : NoDup (number <$> level_files v l) ∧ ∀ f, f ∈ level_files v l → 0 <= number f < vs_next_file_number vs;
  od_tables : on_disk tables_of w tables v;
  od_listed : GetChildren dir dbname w = (OK, names) ∧ ∀ n, n ∈ AddLiveFiles (versions_ vs) ∅ → listed names n;
  od_logs : Forall (LogOk valid fits env dbname w) logs ∧ StronglySorted Z.le (lf_number <$> logs) ∧ StronglySorted log_before logs ∧
    omap (listed_log (vs_log_number vs) (vs_prev_log_number vs)) names ≡ₚ lf_number <$> logs;
  od_newer l f e : f ∈ level_files v l → e ∈ entries_of tables f → Forall (λ lg, e_seq e < lf_seq lg) logs;
  od_room : zlen (level_files v 0) + update_count logs < 2 ^ 31;
  od_bounds : 0 < vs_next_file_number vs <= M ∧ vs_log_number vs <= vs_next_file_number vs ∧ Forall (λ l, lf_number l < M) logs ∧ M + cost logs + 2 < 2 ^ 64;
}.

Section OpenOk.
Context {W B : Type} {ops : OutputOps W B} {env : ManifestEnv W} {dir : DirEnv W} {files : W → gmap bytes bytes} {Evict : Z → W → W}.
Context {valid : bytes → Prop} {user : Comparator} `{HU : !ComparatorOk valid user} {comparator_name dbname : bytes} {log_error : Status}.
Context {tables_of : W → Z → option (Z * list (bytes * bytes))} {entries : B → option (list (bytes * bytes))} {fits : list (bytes * bytes) → Prop}.
Context `{HO : !OutputOk ops valid user tables_of entries fits} `{HT : !TablesLocal env dbname Evict tables_of} `{HL : !LogsLocal ops (remove_table env dbname) env dbname}.
Context (tables : Z → option (Z * list Entry)) (v : Version) (vs : VersionSet) (logs : list LogFile) (names : list bytes) (M : Z) (w : W).
Context (HD : OnDisk env dir valid user comparator_name dbname tables_of fits tables v vs logs names M w).
Abbreviation next x := (vs_next_file_number x).

Lemma open_current : ∃ r, live_ (versions_ vs) !! current_id (versions_ vs) = Some (v, r) ∧ 1 <= r.
Proof using HD.
  destruct (od_start _ _ _ _ _ _ _ _ _ _ _ _ _ _ _ HD) as [[_ _ _ (v0 & r & Hl & Hr & _) _ _] _ Hc]. exists r. unfold current in Hc. rewrite Hl in Hc. injection Hc as ->. done.
Qed.

(** The recovered tables may join the version. *)
Lemma open_joining st st' q rec outs groups : rv_versions st = vs → LogsRecovered user tables_of logs st st' q rec outs groups → next (rv_versions st') < 2 ^ 64 →
  Joining (valid := valid) (user := user) tables_of (rv_world st') tables v outs groups (next vs).
Proof using HD HU.
  intros Hvs [L1 _ L2 L3 L4 L5 L6 [L7 L8] L9 L10 [L11 L12] L13] Hn. destruct HD as [D1 D2 D3 D4 D5 [D6 D6'] (D7 & D8 & D9 & D10) D11 D12 (D13 & D14 & D15 & D16)]. rewrite Hvs in *.
  destruct (outcome_ok logs rec D7 L1) as [Hok Hcount]. split; try done.
  - by destruct D2 as [[[? _] _ _ _ _ _] _ _].
  - intros l. split; [apply D4|]. intros f Hf. by apply (D4 l).
  - split; [done|]. split; [|lia]. eapply Forall_impl; [exact L8|]. intros o Ho. cbn in *. lia.
  - by rewrite L5.
  - by apply L6.
  - intros l f e e' Hf He' He _. rewrite L5 in He. specialize (D11 l f e' Hf He').
    assert (e_seq e' + 1 <= e_seq e); [|lia]. apply (outcome_after _ logs rec e); [|done|done]. eapply Forall_impl; [exact D11|]. intros lg Hlg. cbn in *. lia.
  - pose proof (outputs_few tables_of user _ _ _ L4) as Hf. unfold zlen in *. rewrite L5 in Hf. lia.
Qed.
(** Outcomes of [Open]: the database shows the version and the entries recovered, or there is none and the tables are still there. *)
Definition opened (rec : list (Status * list Entry)) (r : Status * option DBImpl * W) : Prop :=
  ∃ d w' tables' v', r = (OK, Some d, w') ∧ current (versions_ (db_versions_ d)) = Some v' ∧
    VersionOk (valid := valid) (user := user) tables' v' ∧ VersionSorted (valid := valid) (user := user) v' ∧ on_disk tables_of w' tables' v' ∧
    (∀ u s e, seen_from tables' u s v' 0 e ↔ seen_from tables u s v 0 e ∨ (e ∈ mjoin rec.*2 ∧ e_key e = u ∧ e_seq e <= s)) ∧
    vs_last_sequence vs <= vs_last_sequence (db_versions_ d) ∧ (∀ e, e ∈ mjoin rec.*2 → e_seq e <= vs_last_sequence (db_versions_ d)) ∧
    MemInv valid user (mem_ d) [] ∧ imm_ d = None ∧ writers_ d = [] ∧ bg_error_ d = OK ∧ vs_log_number (db_versions_ d) = logfile_number_ d.
Definition not_opened (r : Status * option DBImpl * W) : Prop := ∃ s w', r = (s, None, w') ∧ Status_ok s = false ∧ on_disk tables_of w' tables v.

Lemma log_name k n : is_u 64 k → is_u 64 n → LogFileName dbname k ≠ TableFileName dbname n.
Proof using Type.
  intros Hk Hn E. destruct (names_ok dbname k Hk) as ((N1 & _) & _). destruct (names_ok dbname n Hn) as (_ & (N2 & _) & _). destruct N1 as [_ P1], N2 as [_ P2]. rewrite E in P1. congruence.
Qed.

Lemma kept_on_disk st' x : (∀ m, m < next vs → tables_of (rv_world st') m = tables_of w m) → (∀ m, is_u 64 m → tables_of x m = tables_of (rv_world st') m) → on_disk tables_of x tables v.
Proof using HD.
  intros H1 H2 l f Hf. pose proof (proj2 (od_numbers _ _ _ _ _ _ _ _ _ _ _ _ _ _ _ HD l) f Hf). destruct (od_bounds _ _ _ _ _ _ _ _ _ _ _ _ _ _ _ HD) as ([? ?] & _ & _ & ?).
  assert (0 <= cost logs) by (clear; induction logs as [|x l IH]; cbn [cost foldr]; [done|fold (cost l); lia]).
  rewrite H2, H1; [by apply (od_tables _ _ _ _ _ _ _ _ _ _ _ _ _ _ _ HD l)|lia|unfold is_u; lia].
Qed.

(** The edit fits the manifest, and completes to one that adds the tables to the version. *)
Lemma open_edit_fits w' outs groups vs1 log : Joining (valid := valid) (user := user) tables_of w' tables v outs groups (next vs) →
  VersionSet.SetInv (valid := valid) (user := user) comparator_name v [] vs1 → vs_log_number vs1 <= log < next vs1 → is_u 64 log → let e := SetLogNumber log (foldl add_level0 VersionEdit_make outs) in
  EditFits (valid := valid) (user := user) comparator_name v [] e ∧ LogFits vs1 e ∧
  ∃ e', fill_edit e vs1 = Some e' ∧ log_number_ e' = log ∧ EditOk e' ∧ joins outs e'.
Proof using HU.
  intros HJ HI Hlog Hu e. assert (Ho : Forall output_ok outs).
  { apply Forall_forall. intros o [i Hi]%list_elem_of_lookup. by destruct (join_table tables_of w' tables v outs groups (next vs) HJ i o Hi) as (? & _ & _ & _ & _ & _ & ?). }
  destruct (open_edit outs log Ho Hu) as (E1 & E2 & E3 & E4). fold e in E1, E2, E3, E4.
  assert (HF : EditFits (valid := valid) (user := user) comparator_name v [] e).
  { split; [done| | |].
    - split; [|by rewrite E3|by rewrite E4]. destruct E2 as [_ ->]. apply Forall_fmap, Forall_forall. intros o [i Hi]%list_elem_of_lookup.
      destruct (join_table tables_of w' tables v outs groups (next vs) HJ i o Hi) as (g & _ & _ & _ & _ & Hd & _). by destruct (describes_FileOk _ _ Hd) as [V1 V2 _ _ _].
    - exact (join_fresh tables_of w' tables v outs groups (next vs) HJ e E2).
    - intros l Hl. cbn [app edit_levels foldl]. rewrite (proj2 (join_level outs e l _ E2)). destruct (Z.eqb_spec l 0); [lia|]. rewrite app_nil_r. exact (join_apart tables_of w' tables v outs groups (next vs) HJ l Hl). }
  assert (HLf : LogFits vs1 e) by (by intros _). split; [done|]. split; [done|].
  destruct (fill_edit_ok comparator_name v [] vs1 e HI HF HLf) as (e' & Ef & (S1 & S2 & S3) & [K1 _ _ _] & _). exists e'. split; [done|]. split; [|split; [done|]].
  - unfold fill_edit in Ef. unfold e in Ef. cbn [has_log_number_ SetLogNumber log_number_] in Ef. destruct (_ && _); [|done]. cbn [mbind option_bind] in Ef. injection Ef as <-. by destruct (has_prev_log_number_ _).
  - destruct E2 as [J1 J2]. split; congruence.
Qed.

(** After the logs: the new log, the edit and the obsolete files. *)
Lemma open_finish h st st' q rec outs groups : Status_ok q = true → rv_versions st = vs → rv_edit st = VersionEdit_make → rv_world st = w → Status_ok log_error = false →
  LogsRecovered user tables_of logs st st' q rec outs groups → next (rv_versions st') + 1 < 2 ^ 64 → is_u 64 (vs_last_sequence (rv_versions st')) →
  ∃ r, (let '(new_log_number, vs) := NewFileNumber (rv_versions st') in
    let '(s, w) := NewWritableFile (base_env env) (LogFileName dbname new_log_number) (rv_world st') in
    if negb (Status_ok s) then Some (s, None, w)
    else
      '(ok, _, vs, w) ← LogAndApply env files user comparator_name dbname (SetLogNumber new_log_number (rv_edit st')) vs w;
      if ok : bool then
        let w := DeleteObsoleteFiles (base_env env) (λ w, (GetChildren dir dbname w).2) Evict dbname OK (rv_pending st') vs w in
        Some (OK, Some (MaybeScheduleCompaction h (DBImpl_make user new_log_number vs)), w)
      else Some (log_error, None, w)) = Some r ∧
    (opened rec r ∨ not_opened r) ∧ (ManifestEnvOk env files → bytes_ok comparator_name ∧ name_ok comparator_name → opened rec r).
Proof using HD HU HT.
  intros Hq Hvs He Hw Hlog HR Hn Hs. pose proof (open_joining st st' q rec outs groups Hvs HR ltac:(lia)) as HJ. destruct open_current as (r & Hlive & Hr).
  pose proof HR as [L1 _ L2 L3 L4 L5 L6 [L7 L8] L9 L10 [L11 L12] L13]. pose proof HD as [D1 D2 D3 D4 D5 _ (D7 & _) _ _ (D13 & D14 & _ & _)]. rewrite Hvs in *. set (n := next (rv_versions st')) in *.
  cbn [NewFileNumber]. fold n. set (vs1 := {| vs_next_file_number := u64 (n + 1) |}). assert (Hn1 : next vs1 = n + 1) by (cbn; apply u64_small; unfold is_u; lia).
  assert (Hvers : versions_ vs1 = versions_ vs ∧ compact_pointer_ vs1 = compact_pointer_ vs ∧ vs_manifest_file_number vs1 = vs_manifest_file_number vs ∧ vs_log_number vs1 = vs_log_number vs ∧
    descriptor_log_ vs1 = descriptor_log_ vs) by (unfold vs1; cbn; rewrite L10; by cbn).
  destruct D2 as [HI Hclosed Hcur]. assert (HI1 : VersionSet.SetInv (valid := valid) (user := user) comparator_name v [] vs1).
  { unfold vs1. rewrite L10. cbn. apply SetInv_counters; [done|rewrite u64_small; unfold is_u; lia|done]. }
  assert (Hun : is_u 64 n) by (unfold is_u; lia). destruct Hvers as (V1 & V2 & V3 & V4 & V5).
  destruct (open_edit_fits _ _ _ vs1 n HJ HI1 ltac:(lia) Hun) as (HF & HLf & e' & Ef & Elog & Eok & Ej). rewrite He in L3. rewrite <- L3 in HF, HLf, Ef. rewrite Hw in L9.
  pose proof (λ m Hm, tl_new (env := env) (Evict := Evict) (tables_of := tables_of) (LogFileName dbname n) (rv_world st') m (log_name n m Hun Hm)) as Ht1.
  pose proof (λ HE : ManifestEnvOk env files, me_new (env := env) (files := files) (LogFileName dbname n) (rv_world st')) as Hnew.
  destruct (NewWritableFile (base_env env) (LogFileName dbname n) (rv_world st')) as [s1 w1]. cbn [fst snd] in Ht1, Hnew. destruct (Status_ok s1) eqn:Es1; cbn [negb].
  2: { eexists. split; [done|]. split; [right; exists s1, w1; split_and!; [done|done|by apply (kept_on_disk st')]|]. intros HE _. by specialize (Hnew HE). }
  pose proof HI1 as [_ _ _ _ (_ & _ & _ & _ & Hman) [Hcp _]].
  destruct (join_version _ _ tables v outs groups (next vs) HJ e' (compact_pointer_ vs1) Ej Eok Hcp) as (cp & b & v' & EA & ES & Hs' & Hl'). rewrite <- V1 in Hlive.
  destruct (LogAndApply_outcome (env := env) (files := files) (tables_of := tables_of) (user := user) (comparator_name := comparator_name) _ e' vs1 w1 v r cp b v' Ef Hlive Hr EA ES Hman)
    as (ok & vs2 & w2 & EL & Ht2 & Hn' & Hseq & _ & Hres).
  rewrite EL. cbn [mbind option_bind]. assert (Hok : ManifestEnvOk env files → bytes_ok comparator_name ∧ name_ok comparator_name → ok = true).
  { intros HE Hname. destruct (LogAndApply_closed env files comparator_name dbname Hname v vs1 w1 (SetLogNumber n (rv_edit st')) HI1) as (e2 & vs3 & w3 & cp0 & E3 & _); [congruence| |done|done|].
    - rewrite V1. exact Hcur.
    - rewrite EL in E3. by injection E3 as ->. }
  destruct ok.
  - destruct Hres as (Hc' & Hlg & _). eexists. split; [done|]. assert (Hop : opened rec (OK, Some (MaybeScheduleCompaction h (DBImpl_make user n vs2)),
      DeleteObsoleteFiles (base_env env) (λ w, (GetChildren dir dbname w).2) Evict dbname OK (rv_pending st') vs2 w2)); [|split; [by left|done]].
    destruct (MaybeSchedule_same h (DBImpl_make user n vs2)) as (M1 & M2 & M3 & M4 & M5 & M6 & M7).
    eexists _, _, (tables_with tables outs groups), v'. split; [done|]. rewrite M7, M1, M4, M5. cbn [DBImpl_make db_versions_ writers_ mem_ logfile_number_]. split; [done|].
    split; [by apply (joined_version _ _ tables v outs groups (next vs) HJ v')|]. split; [done|]. split; [|split; [|split; [|split; [|split; [|split; [|split; [|split]]]]]]].
    + apply (joined_disk tables_of (rv_world st') tables v outs groups (next vs) HJ v' Hs' Hl'); [by apply (kept_on_disk st')|]. intros l f Hf.
      assert (Hu : is_u 64 (number f)).
      { apply (joined_file v outs v' Hs' Hl') in Hf as (l0 & _ & _ & [Hf|(_ & o & i & Ho & ->)]).
        - pose proof (proj2 (D4 l0) f Hf). unfold is_u. lia.
        - by destruct (join_table tables_of _ tables v outs groups (next vs) HJ i o Ho) as (? & _ & _ & _ & _ & _ & ? & _). }
      unfold current in Hc'. destruct (live_ (versions_ vs2) !! current_id (versions_ vs2)) as [[v2 r2]|] eqn:E2; [|done]. injection Hc' as ->.
      rewrite (delete_obsolete_tables (env := env) _ _ vs2 w2 v' _ r2 l f E2 Hf Hu). by rewrite Ht2, Ht1.
    + intros u s e. rewrite (joined_seen _ _ tables v outs groups (next vs) HJ v' Hs' Hl'). by rewrite L5.
    + rewrite Hseq. exact L12.
    + intros e Hin. rewrite Hseq. apply L13; [done|]. by rewrite L5.
    + apply MemInv_make.
    + unfold MaybeScheduleCompaction. by repeat case_match.
    + done.
    + unfold MaybeScheduleCompaction. by repeat case_match.
    + by rewrite Hlg.
  - eexists. split; [done|]. split; [right; exists log_error, w2; split_and!; [done|done|]|].
    + apply (kept_on_disk st'); [done|]. intros m Hm. by rewrite Ht2, Ht1.
    + intros HE Hname. by specialize (Hok HE Hname).
Qed.

(** [Open] once the directory is locked and the manifest found or created, in the world [w]. *)
Lemma open_prepared (create_if_missing error_if_exists paranoid : bool) (wbs : Z) (h : Hints) (w0 : W) : (∀ n m x, m ≠ n → tables_of (remove_table env dbname n x) m = tables_of x m) → Status_ok log_error = false →
  prepare env dir files comparator_name dbname log_error create_if_missing error_if_exists w0 = (OK, w) →
  ∃ rec r, Open ops env dir files Evict user comparator_name dbname log_error create_if_missing error_if_exists paranoid wbs h w0 = Some r ∧
    Forall2 LogOutcome logs rec ∧ (∀ i l o, logs !! i = Some l → rec !! i = Some o → Status_ok o.1 = true → lf_lost l = [] → o.2 ≡ₚ batch_entries (lf_seq l) (lf_updates l)) ∧
    (if Status_ok (List.last rec.*1 OK) then opened rec r ∨ not_opened r else r.1.1 = List.last rec.*1 OK ∧ not_opened r) ∧
    (OutputReliable ops tables_of entries → Forall (λ o, o.1 = OK) rec) ∧
    (OutputReliable ops tables_of entries → ManifestEnvOk env files → bytes_ok comparator_name ∧ name_ok comparator_name → opened rec r).
Proof using HD HU HO HT HL.
  intros Hrem Hlog Hprep. pose proof HD as [D1 D2 D3 D4 D5 [D6 D6'] (D7 & D8 & D9 & D10) D11 D12 (D13 & D14 & D15 & D16)].
  set (st := with_rv_versions vs (with_rv_world w (Recovering_make w0))).
  destruct (recover_after_manifest_ok (ops := ops) (remove := remove_table env dbname) (env := env) (entries := entries) (dbname := dbname) Hrem paranoid wbs names logs M st D7 D8 D10 D13 D15 ltac:(lia) D6')
    as (q & rec & st' & outs & groups & ER & HR & Hn & Hs & Hrel).
  assert (Hseq : is_u 64 (vs_last_sequence (rv_versions st'))).
  { destruct D2 as [[_ _ _ _ (_ & N2 & _) _] _ _]. destruct (lr_counters _ _ _ _ _ _ _ _ _ HR) as [_ Hle]. change (rv_versions st) with vs in Hs, Hle. change (rv_max st) with 0 in Hs.
    unfold kMaxSequenceNumber in Hs. rewrite Z.shiftl_1_l in Hs. unfold is_u in *. lia. }
  pose proof (lr_status _ _ _ _ _ _ _ _ _ HR) as Hq. exists rec. rewrite <- Hq.
  assert (Hqr : OutputReliable ops tables_of entries → Status_ok q = true).
  { intros HR'. specialize (Hrel HR'). rewrite Hq. clear -Hrel. induction Hrel as [|x l Hx Hl IH]; [done|]. cbn [fmap list_fmap List.last]. destruct l; cbn [fmap list_fmap]; [by rewrite Hx|exact IH]. }
  unfold Open, DB_Recover. change (rv_world (Recovering_make w0)) with w0. rewrite Hprep. cbn [Status_ok OK negb]. change (rv_versions (with_rv_world w (Recovering_make w0))) with VersionSet_make. rewrite D1. cbn [mbind option_bind Status_ok OK]. rewrite D6. fold st.
  match type of ER with ?x = _ => match goal with |- context [recover_after_manifest ?a ?b ?c ?d ?e ?f ?g ?i ?j] => change (recover_after_manifest a b c d e f g i j) with x end end.
  rewrite ER. cbn [mbind option_bind]. destruct (Status_ok q) eqn:Eq; cbn [negb].
  - destruct (open_finish h st st' q rec outs groups Eq eq_refl eq_refl eq_refl Hlog HR ltac:(lia) Hseq) as (r & EO & Hout & Hok).
    exists r. split; [exact EO|]. split; [exact (lr_outcome _ _ _ _ _ _ _ _ _ HR)|]. split; [exact (lr_whole _ _ _ _ _ _ _ _ _ HR)|]. split; [done|]. split; [done|]. by intros _.
  - eexists. split; [done|]. split; [exact (lr_outcome _ _ _ _ _ _ _ _ _ HR)|]. split; [exact (lr_whole _ _ _ _ _ _ _ _ _ HR)|]. split; [split; [done|]|split; [done|intros HR'; by specialize (Hqr HR')]].
    exists q, (rv_world st'). split; [done|]. split; [done|]. apply (kept_on_disk st'); [|done]. exact (lr_old _ _ _ _ _ _ _ _ _ HR).
Qed.
End OpenOk.

(** ** Properties *)


(** What is there after a database was created: no files, and the counters of a new one. *)
Lemma created_on_disk {W : Type} (env : ManifestEnv W) (dir : DirEnv W) (valid : bytes → Prop) (user : Comparator) (comparator_name dbname : bytes)
    (tables_of : W → Z → option (Z * list (bytes * bytes))) (fits : list (bytes * bytes) → Prop) vs names w : ComparatorOk valid user →
  Recover env user comparator_name dbname VersionSet_make w = Some (OK, vs) → VersionSet.Start (valid := valid) (user := user) comparator_name Version_empty vs →
  vs_next_file_number vs = 3 → vs_log_number vs = 0 → vs_prev_log_number vs = 0 → AddLiveFiles (versions_ vs) ∅ = ∅ → GetChildren dir dbname w = (OK, names) → omap (listed_log 0 0) names = [] →
  OnDisk env dir valid user comparator_name dbname tables_of fits (λ _, None) Version_empty vs [] names 3 w.
Proof.
  intros HU HR HS H3 H0 Hp Hlive HG Hn.
  assert (H : ∀ l, level_files Version_empty l = []).
  { intros l. destruct (clip_level Version_empty l eq_refl) as [->|(l0 & Hl0 & -> & _)]; [done|]. by apply level_files_empty. }
  assert (Hnone : ∀ l f, f ∈ level_files Version_empty l → False) by (intros l f Hf; rewrite H in Hf; by apply elem_of_nil in Hf).
  split; try done.
  - split; intros; rewrite ?H in *; try done; try constructor; try (by match goal with Hf : _ ∈ [] |- _ => apply elem_of_nil in Hf end).
  - intros l. rewrite H. split; [constructor|]. by intros f ?%elem_of_nil.
  - intros l f Hf. destruct (Hnone _ _ Hf).
  - split; [done|]. intros n. rewrite Hlive. by intros ?%elem_of_empty.
  - split; [constructor|]. split; [constructor|]. split; [constructor|]. rewrite H0, Hp, Hn. done.
  - rewrite H3, H0. split; [lia|]. split; [lia|]. split; [constructor|by vm_compute].
Qed.


(** ** Samples *)

Definition sample_open_dir : DirEnv MemoryWorld := {|
  CreateDir _ w := (OK, w);
  LockFile _ w := (OK, w);
  FileExists f w := bool_decide (is_Some (w.1 !! f));
  GetChildren _ w := (OK, sample_flush_children w);
|}.
(** A directory with nothing but the log of [sample_cut_log], and the same with a new database. *)
Definition sample_open_world : MemoryWorld := ({[LogFileName (str "db") 3 := lf_data sample_cut_log]}, ∅).
Definition sample_new_world : MemoryWorld := (NewDB sample_flush_env fst sample_name (str "db") (IOError [] []) sample_open_world).2.

Lemma empty_version_ok : VersionOk (valid := bytes_ok) (user := BytewiseComparator) (λ _, None) Version_empty.
Proof.
  assert (H : ∀ l, level_files Version_empty l = []).
  { intros l. destruct (clip_level Version_empty l eq_refl) as [->|(l0 & Hl0 & -> & _)]; [done|]. by apply level_files_empty. }
  split; intros; rewrite ?H in *; try done; try constructor; try (by match goal with Hf : _ ∈ [] |- _ => apply elem_of_nil in Hf end).
Qed.

Lemma sample_on_disk : ∃ vs, OnDisk sample_flush_env sample_open_dir bytes_ok BytewiseComparator sample_name (str "db") (λ w n, w.2 !! n) (λ _, True) (λ _, None) Version_empty vs [sample_cut_log]
  (sample_flush_children sample_new_world) 4 sample_new_world.
Proof.
  pose proof sample_flush_env_ok as HE. destruct (NewDB_ok (env := sample_flush_env) (files := fst) sample_name (str "db") (IOError [] []) sample_open_world) as (w' & E & H1 & H2 & _).
  apply (f_equal snd) in E. cbn [snd] in E. fold sample_new_world in E. subst w'.
  destruct (NewDB_recovers (env := sample_flush_env) (files := fst) (valid := bytes_ok) (user := BytewiseComparator) sample_name (str "db") sample_name_ok sample_new_world H1 H2) as (vl & EV & ER).
  assert (Hnone : ∀ l f, f ∈ level_files Version_empty l → False).
  { intros l f Hf. destruct (clip_level Version_empty l eq_refl) as [E0|(l0 & Hl0 & E0 & _)]; rewrite E0 in Hf; [by apply elem_of_nil in Hf|]. rewrite level_files_empty in Hf by done. by apply elem_of_nil in Hf. }
  pose proof (new_start (valid := bytes_ok) (user := BytewiseComparator) sample_name sample_name_ok vl EV) as HS.
  refine (ex_intro _ _ _). refine (Build_OnDisk _ _ _ _ _ _ _ _ _ _ _ _ _ _ _ _ ER HS empty_version_ok _ _ _ _ _ _ _); clear ER HS H1 H2 HE.
  - intros l. split; [|intros f Hf; destruct (Hnone _ _ Hf)]. destruct (level_files Version_empty l) as [|f fs] eqn:E0; [constructor|]. exfalso. apply (Hnone l f). rewrite E0. left.
  - intros l f Hf. destruct (Hnone _ _ Hf).
  - split; [done|]. intros n Hn. exfalso. revert Hn. injection EV as <-. vm_compute. done.
  - split; [|split; [by repeat constructor|split; [by repeat constructor|by vm_compute]]]. constructor; [|constructor]. destruct sample_cut_log_ok as [L1 L2 L3 L4 L5 L6 L7 L8]. split; try done.
  - intros l f e Hf. destruct (Hnone _ _ Hf).
  - by vm_compute.
  - split; [done|]. split; [done|]. split; [by repeat constructor|by vm_compute].
Qed.

#[local] Instance sample_open_logs : LogsLocal sample_flush_ops (remove_table sample_flush_env (str "db")) sample_flush_env (str "db").
Proof.
  split; [done|by intros n b w s size w' k [= _ _ <-]|done|]. intros n w k. assert (Hne : TableFileName (str "db") n ≠ LogFileName (str "db") k).
  { intros H%(f_equal last). unfold TableFileName, LogFileName, MakeFileName in H. rewrite !last_app in H. discriminate H. }
  unfold remove_table. cbn [sample_flush_env base_env Filename.DeleteFile NewSequentialFile sample_env on_files fst snd]. by rewrite lookup_delete_ne.
Qed.


