(* ===== verification/Background.v ===== *)
(** * Background work

    Model of [DBImpl::BackgroundCall], [BackgroundCompaction], the end of [DoCompactionWork],
    [InstallCompactionResults] and [ManualCompaction] ([App/integration/db_impl.cpp], [db_impl.h]):
    one turn of the background thread, which compacts the memtable, moves a file down, or
    compacts files.  [MakeInputIterator] gives the entries the merged input iterator of a
    compaction yields, each with its status there, and its status at the end; [DbScan] proves
    which they are when every block can be read.  [work] is the merge: [DoCompactionWork] of the
    build without [VERIFY], or [verify_work] of the build with it.  [oldest] is the oldest
    snapshot.  The database is not closed and no memtable fills up while files are compacted.
    The outer [None] is a failed assertion. *)
From S2P Require Import Prelude Coding Comparator DbFormat Logging Log Status Filename MemTable WriteBatch Compaction Table VersionEdit Version VersionBuilder VersionSet CompactionPick ObsoleteFiles CompactionInstall CompactionWork DbWrite Flush CompactMem.
From stdpp Require Import sorting list gmap.

#[local] Open Scope Z_scope.

(** A range to compact; [None] is an open end. *)
Record ManualCompaction := { mc_level : Z; mc_done : bool; mc_begin : option bytes; mc_end : option bytes }.

Section Background.
Context {W B : Type} (ops : OutputOps W B) (env : ManifestEnv W) (files : W → gmap bytes bytes) (GetChildren : W → list bytes) (Evict : Z → W → W).
Context (user : Comparator) (comparator_name dbname_ : bytes) (log_error : Status) (MakeInputIterator : Compaction → W → list (bytes * bytes * Status) * Status).
Context (work : Version → list (bytes * bytes * Status) → Status → CompactionState W B → option (Status * CompactionState W B)).

(** The database with what [manual_compaction_] points to, the pending outputs and the files. *)
Record Background := { bg_db : DBImpl; bg_manual : option ManualCompaction; bg_pending : gset Z; bg_world : W }.

Definition log_edit (e : VersionEdit) (vs : VersionSet) (w : W) : option (Status * VersionSet * W) :=
  '(ok, _, vs, w) ← LogAndApply env files user comparator_name dbname_ e vs w;
  Some (if (ok : bool) then OK else log_error, vs, w).

Definition InstallCompactionResults (st : CompactionState W B) : option (Status * VersionSet * W) :=
  log_edit (InstallCompactionResults_edit (compaction st) (outputs st)) (cs_versions st) (cs_world st).

(** The result of background work in the database. *)
Definition note_result (s : Status) (vs : VersionSet) (d : DBImpl) : DBImpl :=
  let d := with_versions vs d in if Status_ok s then d else RecordBackgroundError s d.

(** Giving back the reference on the input version. *)
Definition release (c : Compaction) (d : DBImpl) : option DBImpl :=
  '(_, vl) ← ReleaseInputs c (versions_ (db_versions_ d)); Some (with_versions (with_list vl (db_versions_ d)) d).

(** The branch of a trivial move, with the destructor of the compaction. *)
Definition move_file (c : Compaction) (d : DBImpl) (pending : gset Z) (w : W) : option (Status * DBImpl * gset Z * W) :=
  e ← trivial_move_edit c;
  '(s, vs, w) ← log_edit e (db_versions_ d) w;
  d ← release c (note_result s vs d);
  Some (s, d, pending, w).

(** The branch of [DoCompactionWork], with its installation and the cleanup. *)
Definition compact_files (c : Compaction) (oldest : option Z) (d : DBImpl) (pending : gset Z) (w : W) : option (Status * DBImpl * gset Z * W) :=
  v ← current (versions_ (db_versions_ d));
  n ← NumLevelFiles (level_ c) (db_versions_ d);
  if n <=? 0 then None
  else
    let '(kvs, input_status) := MakeInputIterator c w in
    '(s, st) ← work v kvs input_status (CompactionState_make c oldest (db_versions_ d) pending w);
    '(s, vs, w) ← (if Status_ok s then InstallCompactionResults st else Some (s, cs_versions st, cs_world st));
    let d := note_result s vs d in
    let pending := CleanupCompaction st in
    d ← release (compaction st) d;
    Some (s, d, pending, DeleteObsoleteFiles (base_env env) GetChildren Evict dbname_ (bg_error_ d) pending (db_versions_ d) w).

(** The compaction to run: the one asked for, or the one that is due. *)
Definition choose (h : Hints) (b : Background) : option (option Compaction * VersionSet) :=
  match bg_manual b with
  | Some m => CompactRange user (mc_level m) (mc_begin m) (mc_end m) (db_versions_ (bg_db b))
  | None => PickCompaction user h (db_versions_ (bg_db b))
  end.

(** What is left of the range after a part of it was compacted. *)
Definition manual_rest (m : ManualCompaction) (oc : option Compaction) (s : Status) : option ManualCompaction :=
  match oc with
  | None => Some {| mc_level := mc_level m; mc_done := true; mc_begin := mc_begin m; mc_end := mc_end m |}
  | Some c =>
      f ← last (inputs0 c);
      Some (if Status_ok s then {| mc_level := mc_level m; mc_done := false; mc_begin := Some (largest f); mc_end := mc_end m |}
            else {| mc_level := mc_level m; mc_done := true; mc_begin := mc_begin m; mc_end := mc_end m |})
  end.

Definition with_manual (manual : bool) (d : DBImpl) : DBImpl :=
  {| writers_ := writers_ d; on_stack := on_stack d; tmp_batch_ := tmp_batch_ d; mem_ := mem_ d; imm_ := imm_ d; logfile_number_ := logfile_number_ d; log_ := log_ d;
     db_versions_ := db_versions_ d; bg_error_ := bg_error_ d; shutting_down_ := shutting_down_ d;
     bg_compaction_scheduled_ := bg_compaction_scheduled_ d; manual_compaction_ := manual; scheduled := scheduled d |}.

(** Beside the new state, the manual compaction as its caller finds it. *)
Definition BackgroundCompaction (h : Hints) (oldest : option Z) (b : Background) : option (option ManualCompaction * Background) :=
  match imm_ (bg_db b) with
  | Some _ =>
      '(d, pending, w) ← CompactMemTable ops env files GetChildren Evict user comparator_name dbname_ log_error (bg_db b) (bg_pending b) (bg_world b);
      Some (bg_manual b, {| bg_db := d; bg_manual := bg_manual b; bg_pending := pending; bg_world := w |})
  | None =>
      '(oc, vs) ← choose h b;
      let d := with_versions vs (bg_db b) in
      '(s, d, pending, w) ←
        match oc with
        | None => Some (OK, d, bg_pending b, bg_world b)
        | Some c =>
            if negb (bool_decide (is_Some (bg_manual b))) && IsTrivialMove c then move_file c d (bg_pending b) (bg_world b)
            else compact_files c oldest d (bg_pending b) (bg_world b)
        end;
      match bg_manual b with
      | None => Some (None, {| bg_db := d; bg_manual := None; bg_pending := pending; bg_world := w |})
      | Some m => m ← manual_rest m oc s; Some (Some m, {| bg_db := with_manual false d; bg_manual := None; bg_pending := pending; bg_world := w |})
      end
  end.

Definition with_scheduled (scheduled_ : bool) (d : DBImpl) : DBImpl :=
  {| writers_ := writers_ d; on_stack := on_stack d; tmp_batch_ := tmp_batch_ d; mem_ := mem_ d; imm_ := imm_ d; logfile_number_ := logfile_number_ d; log_ := log_ d;
     db_versions_ := db_versions_ d; bg_error_ := bg_error_ d; shutting_down_ := shutting_down_ d;
     bg_compaction_scheduled_ := scheduled_; manual_compaction_ := manual_compaction_ d; scheduled := scheduled d |}.

(** [h'] is what the version asks for afterwards. *)
Definition BackgroundCall (h h' : Hints) (oldest : option Z) (b : Background) : option (option ManualCompaction * Background) :=
  if negb (bg_compaction_scheduled_ (bg_db b)) then None
  else
    '(m, b) ← (if shutting_down_ (bg_db b) then Some (bg_manual b, b)
               else if negb (Status_ok (bg_error_ (bg_db b))) then Some (bg_manual b, b)
               else BackgroundCompaction h oldest b);
    Some (m, {| bg_db := MaybeScheduleCompaction h' (with_scheduled false (bg_db b)); bg_manual := bg_manual b; bg_pending := bg_pending b; bg_world := bg_world b |}).
End Background.

(** The merge of the build with [VERIFY], with the globals [d]; the enclave hands over the entries. *)
Definition verify_work {W B : Type} (ops : OutputOps W B) (user : Comparator) (d : DropState) (v : Version) (kvs : list (bytes * bytes * Status)) (_ : Status) (st : CompactionState W B) :
    option (Status * CompactionState W B) := fst <$> DoCompactionWork_verify ops user v kvs.*1 st d.

(** ** The reference on the input version *)

Lemma setup_input user v c cp c' cp' : SetupOtherInputs user v c cp = Some (c', cp') → input_version_ c' = input_version_ c.
Proof.
  assert (Hf : ∀ i0 i1 k a z, finish_setup user v c i0 i1 k a z cp = Some (c', cp') → input_version_ c' = input_version_ c).
  { intros i0 i1 k a z. unfold finish_setup. intros H. by simplify_option_eq. }
  unfold SetupOtherInputs. intros H. repeat (case_match || simplify_option_eq); try done; eauto.
Qed.

Lemma reference_of vs vs' v r cp : live_ (versions_ vs) !! current_id (versions_ vs) = Some (v, r) → with_reference cp vs = Some vs' →
  current_id (versions_ vs') = current_id (versions_ vs) ∧ next_id (versions_ vs') = next_id (versions_ vs) ∧
  live_ (versions_ vs') = <[current_id (versions_ vs) := (v, r + 1)]> (live_ (versions_ vs)) ∧
  vs_next_file_number vs' = vs_next_file_number vs ∧ vs_manifest_file_number vs' = vs_manifest_file_number vs ∧ vs_last_sequence vs' = vs_last_sequence vs ∧
  vs_log_number vs' = vs_log_number vs ∧ vs_prev_log_number vs' = vs_prev_log_number vs ∧ descriptor_log_ vs' = descriptor_log_ vs.
Proof. intros Hl. unfold with_reference, Version_Ref. rewrite Hl. cbn [mbind option_bind]. by intros [= <-]. Qed.

Lemma choose_reference {W : Type} user h (b : Background (W := W)) c vs' : choose user h b = Some (Some c, vs') →
  input_version_ c = Some (current_id (versions_ (db_versions_ (bg_db b)))) ∧ ∃ cp, with_reference cp (db_versions_ (bg_db b)) = Some vs'.
Proof.
  unfold choose. destruct (bg_manual b) as [m|].
  - unfold CompactRange. intros H. destruct (current _); [|done]. cbn [mbind option_bind] in H. destruct (GetOverlappingInputs _ _ _ _ _) as [[|f i]|]; [done| |done]. cbn [mbind option_bind] in H.
    destruct (SetupOtherInputs _ _ _ _) as [[c1 cp]|] eqn:ES; [|done]. cbn [mbind option_bind] in H. destruct (with_reference cp _) as [vs1|] eqn:ER; [|done]. injection H as <- <-.
    apply setup_input in ES. eauto.
  - unfold PickCompaction. intros H. destruct (current _); [|done]. cbn [mbind option_bind] in H. destruct (pick_start _ _ _ _) as [[[l f]|]|]; [|done|done]. cbn [mbind option_bind] in H.
    match type of H with (?x ≫= _) = _ => destruct x as [i0|]; [|done] end. cbn [mbind option_bind] in H.
    destruct (SetupOtherInputs _ _ _ _) as [[c1 cp]|] eqn:ES; [|done]. cbn [mbind option_bind] in H. destruct (with_reference cp _) as [vs1|] eqn:ER; [|done]. injection H as <- <-.
    apply setup_input in ES. eauto.
Qed.

(** ** What compacting leaves alone *)

Section Keeps.
Context {W B : Type} (ops : OutputOps W B) (user : Comparator) (v : Version).

(** Only file numbers are taken, and the input version stays. *)
Definition keeps (st st' : CompactionState W B) : Prop :=
  cs_versions st' = with_next_file (vs_next_file_number (cs_versions st')) (cs_versions st) ∧ input_version_ (compaction st') = input_version_ (compaction st).

#[export] Instance keeps_preorder : PreOrder keeps.
Proof using Type.
  split.
  - intros st. split; [by destruct (cs_versions st)|done].
  - intros a b c [H1 H2] [H3 H4]. split; [|congruence]. rewrite H3, H1. by destruct (cs_versions a).
Qed.

Lemma keeps_same st st' : cs_versions st' = cs_versions st → input_version_ (compaction st') = input_version_ (compaction st) → keeps st st'.
Proof using Type. intros H1 H2. split; [|done]. rewrite H1. by destruct (cs_versions st). Qed.

Lemma open_keeps st s st' : OpenCompactionOutputFile ops st = Some (s, st') → keeps st st'.
Proof using Type. unfold OpenCompactionOutputFile. destruct (builder st); [done|]. cbn [NewFileNumber]. destruct (NewOutput _ _ _) as [[s0 b] w]. intros H. injection H as _ <-. split; reflexivity. Qed.

Lemma finish_keeps ist st s st' : FinishCompactionOutputFile ops ist st = Some (s, st') → keeps st st'.
Proof using Type.
  unfold FinishCompactionOutputFile.
  destruct (builder st) as [b|]; [|done]. cbn [mbind option_bind]. destruct (last (outputs st)) as [out|]; [|done]. cbn [mbind option_bind]. destruct (out_number out =? 0); [done|].
  match goal with |- (?x ≫= _) = _ → _ => destruct x as [[[s0 n] w]|]; [|done] end. cbn [mbind option_bind]. destruct (update_last _ _); [|done]. cbn [mbind option_bind].
  destruct (if Status_ok s0 then _ else _) as [s1 w1]. intros H. injection H as _ <-. by apply keeps_same.
Qed.

Lemma write_keeps ist key value st s st' : write_entry ops ist key value st = Some (s, st') → keeps st st'.
Proof using Type.
  unfold write_entry. intros H. match type of H with (?x ≫= _) = _ => destruct x as [[s0 st0]|] eqn:E0; [|done] end. cbn [mbind option_bind] in H.
  assert (H0 : keeps st st0) by (destruct (builder st); [injection E0 as _ <-; reflexivity|by apply open_keeps in E0]). destruct (negb _); [by injection H as _ <-|].
  destruct (builder st0) as [b|]; [|done]. cbn [mbind option_bind] in H. destruct (update_last _ _) as [outs|]; [|done]. cbn [mbind option_bind] in H. destruct (Output_Add _ _ _ _) as [b'|]; [|done]. cbn [mbind option_bind] in H.
  assert (H1 : keeps st0 (with_output outs (Some b') st0)) by (by apply keeps_same). destruct (_ <=? _); [apply finish_keeps in H; etrans; [exact H0|]; by etrans|]. injection H as _ <-. by etrans.
Qed.

Lemma entry_keeps ist key value st ds s st' ds' : compact_entry ops user v ist key value st ds = Some (s, st', ds') → keeps st st'.
Proof using Type.
  unfold compact_entry. destruct (ShouldStopBefore user key (compaction st)) as [stop c] eqn:Ec. assert (H0 : keeps st (with_compaction c st)) by (apply keeps_same; [done|]; unfold ShouldStopBefore in Ec; destruct (grandparent_loop _ _ _ _ _ _); by injection Ec as _ <-).
  match goal with |- (?x ≫= _) = _ → _ => destruct x as [[s0 st0]|] eqn:E0; [|done] end. cbn [mbind option_bind].
  assert (H1 : keeps st st0) by (destruct (_ && _); [apply finish_keeps in E0; by etrans|injection E0 as _ <-; done]). destruct (negb _); [by intros [= _ <- _]|].
  destruct (drop_entry_step _ _ _ _ _) as [[drop d] c'] eqn:Ed. assert (H2 : keeps st0 (with_compaction c' st0)).
  { apply keeps_same; [done|]. cbn [with_compaction compaction]. unfold drop_entry_step, IsBaseLevelForKey in Ed. repeat case_match; simplify_eq; done. }
  destruct drop; [intros [= _ <- _]; by etrans|]. destruct (write_entry _ _ _ _ _) as [[s1 st1]|] eqn:Ew; [|done]. cbn [mbind option_bind]. intros [= _ <- _]. apply write_keeps in Ew. etrans; [exact H1|]. by etrans.
Qed.

Lemma work_keeps kvs final st s st' : DoCompactionWork ops user v kvs final st = Some (s, st') → keeps st st'.
Proof using Type.
  assert (Hloop : ∀ ds s st st', compact_loop ops user v kvs st ds = Some (s, st') → keeps st st').
  { induction kvs as [|[[k x] ist] kvs IH]; intros ds s0 st0 st1; cbn [compact_loop]; [by intros [= _ <-]|]. destruct (compact_entry _ _ _ _ _ _ _ _) as [[[s2 st2] d2]|] eqn:E; [|done]. cbn [mbind option_bind].
    apply entry_keeps in E. destruct (Status_ok s2); [intros HL%IH; by etrans|by intros [= _ <-]]. }
  unfold DoCompactionWork. destruct (compact_loop _ _ _ _ _ _) as [[s0 st0]|] eqn:E; [|done]. apply Hloop in E. cbn [mbind option_bind].
  match goal with |- (?x ≫= _) = _ → _ => destruct x as [[s1 st1]|] eqn:E1; [|done] end. cbn [mbind option_bind]. intros [= _ <-].
  destruct (_ && _); [apply finish_keeps in E1; by etrans|by injection E1 as _ <-].
Qed.
End Keeps.

(** ** Logging the edit of a compaction *)

Lemma Apply_same user e e' cp b : same_lists e e' → Apply user e cp b = Apply user e' cp b.
Proof. intros (H1 & H2 & H3). unfold Apply. by rewrite H1, H2, H3. Qed.

(** Compactions leave the log number to [LogAndApply]. *)
Lemma install_no_log c outs : has_log_number_ (edit_ c) = false → has_log_number_ (InstallCompactionResults_edit c outs) = false.
Proof.
  intros H. unfold InstallCompactionResults_edit, AddInputDeletions.
  assert (Hd : ∀ l fs e, has_log_number_ (foldl (λ e f, VersionEdit.DeleteFile l (number f) e) e fs) = has_log_number_ e) by (intros l fs; induction fs as [|f fs IH]; intros e; [done|]; cbn [foldl]; by rewrite IH).
  assert (Ha : ∀ l os e, has_log_number_ (foldl (λ e o, AddFile l (out_number o) (out_file_size o) (out_smallest o) (out_largest o) e) e os) = has_log_number_ e)
    by (intros l os; induction os as [|o os IH]; intros e; [done|]; cbn [foldl]; by rewrite IH).
  by rewrite Ha, !Hd.
Qed.

Lemma fill_no_log e vs : has_log_number_ e = false → ∃ e', fill_edit e vs = Some e' ∧ same_lists e e' ∧ log_number_ e' = vs_log_number vs.
Proof. intros H. unfold fill_edit. rewrite H. cbn [mbind option_bind]. eexists. split; [done|]. cbn [has_prev_log_number_ SetLogNumber]. by destruct (has_prev_log_number_ e). Qed.

(** A new version is appended while a compaction holds the old one, which is then released. *)
Lemma append_release vl v r v' vl' : live_ vl !! current_id vl = Some (v, r + 1) → 1 <= r → live_ vl !! next_id vl = None → AppendVersion v' vl = Some vl' →
  ∃ vl'', Version_Unref (current_id vl) vl' = Some vl'' ∧ live_ vl'' !! current_id vl'' = Some (v', 1).
Proof.
  intros Hl Hr Hn. unfold AppendVersion, Version_Unref. rewrite Hl. cbn [mbind option_bind]. destruct (Z.ltb_spec (r + 1) 1); [lia|]. cbn [mbind option_bind]. destruct (Z.eqb_spec (r + 1 - 1) 0); [lia|].
  assert (Hne : next_id vl ≠ current_id vl) by congruence. intros [= <-]. cbn [live_ current_id next_id]. rewrite lookup_insert_ne, lookup_insert_eq by done. cbn [mbind option_bind].
  destruct (Z.ltb_spec (r + 1 - 1) 1); [lia|]. eexists. split; [done|]. cbn [live_ current_id]. destruct (_ =? 0); [rewrite lookup_delete_ne by done|rewrite lookup_insert_ne by done]; by rewrite lookup_insert_eq.
Qed.

Lemma just_release vl v r : live_ vl !! current_id vl = Some (v, r + 1) → 1 <= r → ∃ vl', Version_Unref (current_id vl) vl = Some vl' ∧ live_ vl' !! current_id vl' = Some (v, r).
Proof.
  intros Hl Hr. unfold Version_Unref. rewrite Hl. cbn [mbind option_bind]. destruct (Z.ltb_spec (r + 1) 1); [lia|]. destruct (Z.eqb_spec (r + 1 - 1) 0); [lia|]. eexists. split; [done|].
  cbn [live_ current_id]. rewrite lookup_insert_eq. f_equal. f_equal. lia.
Qed.

(** ** Outcomes *)

(** Reads of the two versions agree at the snapshots from [smallest] on. *)
Definition same_reads (valid : bytes → Prop) (tables tables' : Z → option (Z * list Entry)) (v v' : Version) (smallest : Z) : Prop :=
  ∀ u s before after, valid u → smallest <= s → newest_of (seen_from tables u s v 0) before → newest_of (seen_from tables' u s v' 0) after → value_of after = value_of before.

(** The current version of [vl] is one on disk, with disjoint levels, that is well formed and reads like [v] provided
    the compaction [c] does not split a user key. *)
Definition moved_on {W : Type} (valid : bytes → Prop) (user : Comparator) (tables_of : W → Z → option (Z * list (bytes * bytes))) (tables : Z → option (Z * list Entry)) (v : Version)
    (c : Compaction) (smallest : Z) (vl : VersionList) (w : W) : Prop :=
  ∃ tables' v' r, live_ vl !! current_id vl = Some (v', r) ∧ 1 <= r ∧ VersionSorted (valid := valid) (user := user) v' ∧
    on_disk tables_of w tables' v' ∧ (∀ l f, f ∈ level_files v' l → is_u 64 (number f)) ∧
    (KeysTogether tables v c → VersionOk (valid := valid) (user := user) tables' v' ∧ same_reads valid tables tables' v v' smallest).
Definition stayed {W : Type} (tables_of : W → Z → option (Z * list (bytes * bytes))) (tables : Z → option (Z * list Entry)) (v : Version) (vl : VersionList) (w : W) : Prop :=
  (∃ r, live_ vl !! current_id vl = Some (v, r) ∧ 1 <= r) ∧ on_disk tables_of w tables v.

Section Outcome.
Context {W B : Type} {env : ManifestEnv W} {files : W → gmap bytes bytes} {GetChildren : W → list bytes} {Evict : Z → W → W}.
Context {valid : bytes → Prop} {user : Comparator} `{HU : !ComparatorOk valid user} {comparator_name dbname : bytes} {log_error : Status} (Hlog : Status_ok log_error = false).
Context {tables_of : W → Z → option (Z * list (bytes * bytes))} `{HT : !TablesLocal env dbname Evict tables_of}.
Context (tables tables' : Z → option (Z * list Entry)) (v : Version) (c : Compaction) (outs : list Output) (merged kept : list Entry) (smallest : Z).
Context (HD : CompactionDone (valid := valid) (user := user) tables tables' v c outs merged kept smallest).
Abbreviation kvs := (λ p : Z * list Entry, (p.1, entry_kv <$> p.2)).

(** The edit is logged, and the input version released. *)
Lemma log_edit_outcome vs r x : live_ (versions_ vs) !! current_id (versions_ vs) = Some (v, r + 1) → 1 <= r → live_ (versions_ vs) !! next_id (versions_ vs) = None →
  zlen (compact_pointer_ vs) = kNumLevels → is_u 64 (vs_manifest_file_number vs) →
  (∀ l f, f ∈ level_files v l → is_u 64 (number f)) → (∀ o, o ∈ outs → is_u 64 (out_number o) ∧ tables_of x (out_number o) = kvs <$> tables' (out_number o)) → on_disk tables_of x tables v →
  ∃ s vs' w' vl, log_edit env files user comparator_name dbname log_error (InstallCompactionResults_edit c outs) vs x = Some (s, vs', w') ∧
    Version_Unref (current_id (versions_ vs)) (versions_ vs') = Some vl ∧
    vs_next_file_number vs' = vs_next_file_number vs ∧ vs_last_sequence vs' = vs_last_sequence vs ∧ vs_log_number vs' = vs_log_number vs ∧
    ((s = OK ∧ moved_on valid user tables_of tables v c smallest vl w') ∨ (Status_ok s = false ∧ stayed tables_of tables v vl w')) ∧
    (∀ o, ManifestEnvOk env files → descriptor_log_ vs = Some o → 0 <= o <= Log.kBlockSize → s = OK).
Proof using HD HT HU Hlog.
  intros Hlive Hr Hnext Hcp Hman Hold Hnew Hdisk. set (e := InstallCompactionResults_edit c outs).
  assert (Hnl : has_log_number_ e = false) by (apply install_no_log; destruct (ch_inputs1 _ _ (cd_chosen _ _ _ _ _ _ _ _ HD)) as (lo & hi & _ & _ & ->); done).
  destruct (fill_no_log e vs Hnl) as (e' & Ef & Hsame & Elog).
  destruct (install_version tables tables' v c outs merged kept smallest HD (compact_pointer_ vs) Hcp) as (cp & b & v' & EA & ES & Hs' & Hl'). fold e in EA. rewrite (Apply_same user e e' _ _ Hsame) in EA.
  destruct (LogAndApply_outcome (env := env) (files := files) (tables_of := tables_of) (user := user) (comparator_name := comparator_name) e e' vs x v (r + 1) cp b v' Ef Hlive ltac:(lia) EA ES Hman)
    as (ok & vs2 & w2 & EL & Ht2 & Hn' & Hseq & Hok & Hres).
  unfold log_edit. rewrite EL. cbn [mbind option_bind]. destruct ok.
  - destruct Hres as (_ & Hlg & EV). destruct (append_release _ v r v' _ Hlive Hr Hnext EV) as (vl & EU & Hl). exists OK, vs2, w2, vl. split_and!; try done; [congruence|left; split; [done|]].
    assert (Hfile : ∀ l f, f ∈ level_files v' l → (∃ l0, f ∈ level_files v l0) ∨ ∃ o, o ∈ outs ∧ f = out_meta o).
    { intros l f Hf. destruct (clip_level v' l (vs_levels _ Hs')) as [E|(l0 & Hl0 & E & _)]; rewrite E in Hf; [by apply elem_of_nil in Hf|].
      apply (file_after tables tables' v c outs merged kept smallest HD v' Hs' Hl') in Hf as [(_ & _ & Hf)|(_ & Hf)]; [left; eauto|by right|unfold level_ok in Hl0; lia]. }
    exists tables', v', 1. split; [exact Hl|]. split; [lia|]. split; [done|]. split; [|split; [|intros HK; split]].
    + intros l f [[l0 Hf]|(o & Ho & ->)]%Hfile.
      * rewrite (Ht2 _ (Hold l0 f Hf)), (cd_same _ _ _ _ _ _ _ _ HD l0 f Hf). by apply (Hdisk l0).
      * change (number (out_meta o)) with (out_number o). destruct (Hnew o Ho) as [Hu Ho']. by rewrite (Ht2 _ Hu).
    + intros l f [[l0 Hf]|(o & Ho & ->)]%Hfile; [by apply (Hold l0)|]. by apply Hnew.
    + by apply (after_version tables tables' v c outs merged kept smallest HD HK).
    + intros u s before after Vu Hs. by apply (after_reads tables tables' v c outs merged kept smallest HD HK v').
  - destruct Hres as (Hvs & Hlg). destruct (just_release _ v r Hlive Hr) as (vl & EU & Hl). exists log_error, vs2, w2, vl. rewrite Hvs. split_and!; try done.
    + right. split; [done|]. split; [by exists r|]. intros l f Hf. rewrite (Ht2 _ (Hold l f Hf)). by apply (Hdisk l).
    + intros o HE Ho Hr'. by specialize (Hok o HE Ho Hr').
Qed.
End Outcome.

Lemma release_note s vs d c id vl : input_version_ c = Some id → Version_Unref id (versions_ vs) = Some vl →
  release c (note_result s vs d) = Some (with_versions (with_list vl vs) (note_result s vs d)).
Proof.
  intros Hi Hu. assert (Hv : db_versions_ (note_result s vs d) = vs) by (unfold note_result, RecordBackgroundError; destruct (Status_ok s); [done|]; by destruct (Status_ok _)).
  unfold release, ReleaseInputs. rewrite Hv, Hi, Hu. done.
Qed.

Lemma note_result_ok s vs d vl : vs_last_sequence vs = vs_last_sequence (db_versions_ d) → vs_next_file_number (db_versions_ d) <= vs_next_file_number vs →
  let d' := with_versions (with_list vl vs) (note_result s vs d) in
  keeps_rest d d' ∧ imm_ d' = imm_ d ∧ versions_ (db_versions_ d') = vl ∧ vs_log_number (db_versions_ d') = vs_log_number vs ∧
  (Status_ok s = true → bg_error_ d' = bg_error_ d) ∧ (Status_ok s = false → Status_ok (bg_error_ d') = false).
Proof.
  intros H1 H2. unfold note_result, RecordBackgroundError, keeps_rest. destruct (Status_ok s) eqn:Es; [cbn; split_and!; try done; by left|]. cbn [with_versions bg_error_]. destruct (Status_ok (bg_error_ d)) eqn:Eb; cbn; split_and!; try done; by left.
Qed.

(** What a turn that compacts files starts from. *)
Record CompactStart {W : Type} (valid : bytes → Prop) (user : Comparator) (tables_of : W → Z → option (Z * list (bytes * bytes))) (fits : list (bytes * bytes) → Prop)
    (MakeInputIterator : Compaction → W → list (bytes * bytes * Status) * Status) (tables : Z → option (Z * list Entry)) (v : Version) (h : Hints) (oldest : option Z) (b : Background (W := W)) : Prop := {
  ct_current : let vl := versions_ (db_versions_ (bg_db b)) in ∃ r, live_ vl !! current_id vl = Some (v, r) ∧ 1 <= r ∧ live_ vl !! next_id vl = None;
  ct_version : VersionOk (valid := valid) (user := user) tables v;
  ct_disk : on_disk tables_of (bg_world b) tables v;
  ct_hints : HintsOk v h;
  ct_manual m : bg_manual b = Some m → 0 <= mc_level m < kNumLevels - 1 ∧ bound_ok (valid := valid) (ExtractUserKey <$> mc_begin m) ∧ bound_ok (valid := valid) (ExtractUserKey <$> mc_end m);
  ct_widths : is_u 64 (vs_manifest_file_number (db_versions_ (bg_db b))) ∧ zlen (compact_pointer_ (db_versions_ (bg_db b))) = kNumLevels ∧
    default (vs_last_sequence (db_versions_ (bg_db b))) oldest < kMaxSequenceNumber;
  ct_inputs c vs' : choose user h b = Some (Some c, vs') → ∃ l ins final, MakeInputIterator c (bg_world b) = (yields ins, final) ∧ InputOf l ins final ∧
    Compacting valid user tables v c l (vs_next_file_number (db_versions_ (bg_db b))) ∧ fits (entry_kv <$> l) ∧ (∀ f, f ∈ inputs0 c → is_u 64 (file_size f)) ∧
    ∀ f g, f ∈ inputs0 c → g ∈ level_files v (level_ c + 1) → number f ≠ number g;
}.

(** The two ways a branch ends. *)
Definition branch_outcome {W : Type} (valid : bytes → Prop) (user : Comparator) (tables_of : W → Z → option (Z * list (bytes * bytes))) (tables : Z → option (Z * list Entry)) (v : Version)
    (c : Compaction) (smallest : Z) (d d' : DBImpl) (s : Status) (w' : W) : Prop :=
  (s = OK ∧ bg_error_ d' = bg_error_ d ∧ moved_on valid user tables_of tables v c smallest (versions_ (db_versions_ d')) w') ∨
  (Status_ok s = false ∧ Status_ok (bg_error_ d') = false ∧ stayed tables_of tables v (versions_ (db_versions_ d')) w').

Section Branches.
Context {W B : Type} {ops : OutputOps W B} {env : ManifestEnv W} {files : W → gmap bytes bytes} {GetChildren : W → list bytes} {Evict : Z → W → W}.
Context {valid : bytes → Prop} {user : Comparator} `{HU : !ComparatorOk valid user} {comparator_name dbname : bytes} {log_error : Status} (Hlog : Status_ok log_error = false).
Context {tables_of : W → Z → option (Z * list (bytes * bytes))} {entries : B → option (list (bytes * bytes))} {fits : list (bytes * bytes) → Prop} {MakeInputIterator : Compaction → W → list (bytes * bytes * Status) * Status}.
Context `{HO : !OutputOk ops valid user tables_of entries fits} `{HT : !TablesLocal env dbname Evict tables_of}.
Context (tables : Z → option (Z * list Entry)) (v : Version) (c : Compaction) (l : list Entry) (d : DBImpl) (pending : gset Z) (w : W) (r : Z).
Abbreviation vs := (db_versions_ d).
Context (Hlive : live_ (versions_ vs) !! current_id (versions_ vs) = Some (v, r + 1)) (Hr : 1 <= r) (Hfresh : live_ (versions_ vs) !! next_id (versions_ vs) = None).
Context (Hinput : input_version_ c = Some (current_id (versions_ vs))) (Hcp : zlen (compact_pointer_ vs) = kNumLevels) (Hman : is_u 64 (vs_manifest_file_number vs)).
Context (HC : Compacting valid user tables v c l (vs_next_file_number vs)) (Hdisk : on_disk tables_of w tables v).

Lemma compacting_numbers lev f : f ∈ level_files v lev → is_u 64 (number f).
Proof using HC. intros Hf. pose proof (proj2 (cg_numbers _ _ _ _ _ _ _ HC lev) f Hf). destruct (cg_next _ _ _ _ _ _ _ HC). pose proof (zlen_nonneg l). unfold is_u. lia. Qed.

Lemma move_file_ok smallest : IsTrivialMove c = true → (∀ f g, f ∈ inputs0 c → g ∈ level_files v (level_ c + 1) → number f ≠ number g) → (∀ f, f ∈ inputs0 c → is_u 64 (file_size f)) →
  ∃ s d' w', move_file env files user comparator_name dbname log_error c d pending w = Some (s, d', pending, w') ∧ keeps_rest d d' ∧ imm_ d' = imm_ d ∧
    vs_log_number (db_versions_ d') = vs_log_number vs ∧ branch_outcome valid user tables_of tables v c smallest d d' s w' ∧
    (∀ o, ManifestEnvOk env files → descriptor_log_ vs = Some o → 0 <= o <= Log.kBlockSize → s = OK).
Proof using HU HT HC Hdisk Hlive Hr Hfresh Hinput Hcp Hman Hlog.
  intros Ht Hnum Hsize. destruct (trivial_done valid user tables v c l _ HC Ht Hnum Hsize) as (o & f & Ei & Eo & Ee & HD).
  assert (Hf : f ∈ level_files v (level_ c)) by (apply (elem_of_sublist (inputs0 c)); [rewrite Ei; by left|apply (ch_inputs0 _ _ (cg_chosen _ _ _ _ _ _ _ HC))]).
  destruct (log_edit_outcome (env := env) (files := files) (comparator_name := comparator_name) Hlog tables tables v c [o] l l smallest (HD smallest) vs r w Hlive Hr Hfresh Hcp Hman compacting_numbers)
    as (s & vs' & w' & vl & EL & EU & Hn & Hs & Hl & Hres & Hok); [|done|].
  { intros o' ->%list_elem_of_singleton. rewrite Eo. split; [by apply (compacting_numbers (level_ c))|by apply (Hdisk (level_ c))]. }
  unfold move_file. rewrite Ee. cbn [mbind option_bind]. rewrite EL. cbn [mbind option_bind]. rewrite (release_note s vs' d c _ vl Hinput EU). cbn [mbind option_bind].
  destruct (note_result_ok s vs' d vl Hs ltac:(lia)) as (K1 & K2 & K3 & K4 & K5 & K6). eexists s, _, w'. split; [done|]. split; [done|]. split; [done|]. split; [congruence|]. split; [|done].
  unfold branch_outcome. rewrite K3. destruct Hres as [[-> Hm]|[Hs' Hm]]; [left|right]; auto.
Qed.

Lemma compact_files_ok oldest ins final : default (vs_last_sequence vs) oldest < kMaxSequenceNumber → fits (entry_kv <$> l) → MakeInputIterator c w = (yields ins, final) → InputOf l ins final →
  ∃ s d' pending' w', compact_files env files GetChildren Evict user comparator_name dbname log_error MakeInputIterator (DoCompactionWork ops user) c oldest d pending w = Some (s, d', pending', w') ∧
    keeps_rest d d' ∧ imm_ d' = imm_ d ∧ vs_log_number (db_versions_ d') = vs_log_number vs ∧ branch_outcome valid user tables_of tables v c (default (vs_last_sequence vs) oldest) d d' s w' ∧
    (∀ o, OutputReliable ops tables_of entries → all_ok ins → Status_ok final = true → ManifestEnvOk env files → descriptor_log_ vs = Some o → 0 <= o <= Log.kBlockSize → s = OK).
Proof using HU HO HT HC Hdisk Hlive Hr Hfresh Hinput Hcp Hman Hlog.
  intros Hmax Hfits Hin Hins. destruct (compaction_run (ops := ops) (entries := entries) tables v c l ins final oldest vs pending w HC Hmax Hfits Hins) as (q & st & E & Hedit & Hkeep & Hnext & Hnum & Hdone & Hrel).
  destruct (work_keeps ops user v _ _ _ _ _ E) as [Hvs Hci]. cbn [CompactionState_make cs_versions compaction] in Hvs, Hci.
  assert (Hlev : 0 < zlen (level_files v (level_ c))).
  { destruct (cg_chosen _ _ _ _ _ _ _ HC) as [_ [Hne Hsub] _ _ _ _]. apply sublist_length in Hsub. destruct (inputs0 c); [done|]. unfold zlen. cbn [length] in Hsub. lia. }
  assert (Hcur : current (versions_ vs) = Some v) by (unfold current; by rewrite Hlive).
  unfold compact_files, NumLevelFiles. rewrite Hcur. cbn [mbind option_bind]. pose proof (ch_level _ _ (cg_chosen _ _ _ _ _ _ _ HC)) as Hlc. replace ((level_ c <? 0) || (kNumLevels <=? level_ c)) with false by lia.
  cbn [mbind option_bind]. destruct (Z.leb_spec (zlen (level_files v (level_ c))) 0); [lia|]. rewrite Hin, E. cbn [mbind option_bind].
  assert (Hset : versions_ (cs_versions st) = versions_ vs ∧ compact_pointer_ (cs_versions st) = compact_pointer_ vs ∧ vs_manifest_file_number (cs_versions st) = vs_manifest_file_number vs ∧
    vs_last_sequence (cs_versions st) = vs_last_sequence vs ∧ vs_log_number (cs_versions st) = vs_log_number vs ∧ descriptor_log_ (cs_versions st) = descriptor_log_ vs) by (rewrite Hvs; done).
  destruct Hset as (V1 & V2 & V3 & V4 & V5 & V6). rewrite <- Hci in Hinput.
  assert (Hdisk' : on_disk tables_of (cs_world st) tables v).
  { intros lev f Hf. rewrite Hkeep by (by apply (proj2 (cg_numbers _ _ _ _ _ _ _ HC lev) f)). by apply (Hdisk lev). }
  destruct (Status_ok q) eqn:Eq; cbn [mbind option_bind].
  - destruct (Hdone eq_refl) as (groups & _ & _ & Hcount & HD & Hold & Hnew).
    destruct (log_edit_outcome (env := env) (files := files) (comparator_name := comparator_name) Hlog tables _ v c (outputs st) l _ _ HD (cs_versions st) r (cs_world st))
      as (s & vs' & w' & vl & EL & EU & Hn & Hs & Hl & Hres & Hok); [by rewrite V1|done|by rewrite V1|by rewrite V2|by rewrite V3|apply compacting_numbers| |done|].
    { intros o Ho. destruct (Hnew o Ho) as (g & -> & ->). split; [|done]. assert (Hin' : out_number o ∈ out_number <$> outputs st) by (by apply list_elem_of_fmap_2). rewrite Hnum in Hin'. apply elem_of_seqZ in Hin'.
      destruct (cg_next _ _ _ _ _ _ _ HC). unfold is_u. lia. }
    unfold InstallCompactionResults. rewrite Hedit, EL. cbn [mbind option_bind]. rewrite V1 in EU. rewrite (release_note s vs' d (compaction st) _ vl Hinput EU). cbn [mbind option_bind].
    destruct (note_result_ok s vs' d vl ltac:(congruence) ltac:(pose proof (zlen_nonneg (outputs st)); lia)) as (K1 & K2 & K3 & K4 & K5 & K6). set (d' := with_versions _ _) in *.
    eexists s, d', _, _. split; [done|]. split; [done|]. split; [done|]. split; [congruence|]. split; [|intros o _ _ _; rewrite <- V6; apply Hok].
    unfold branch_outcome. rewrite K3. destruct Hres as [[-> (tables' & v' & r' & M1 & M2 & M4 & M5 & M6 & M7)]|[Hs' [M1 M2]]]; [left|right]; (split; [done|]).
    + split; [by apply K5|]. exists tables', v', r'. split_and!; try done. intros lev f Hf.
      rewrite (delete_obsolete_tables (env := env) _ _ (db_versions_ d') w' v' (current_id vl) r' lev f); [by apply (M5 lev)|by rewrite K3|done|by apply (M6 lev)].
    + split; [by apply K6|]. split; [done|]. unfold DeleteObsoleteFiles. rewrite (K6 Hs'). done.
  - destruct (just_release (versions_ vs) v r Hlive Hr) as (vl & EU & Hl). rewrite <- V1 in EU at 2. rewrite (release_note q (cs_versions st) d (compaction st) _ vl Hinput EU). cbn [mbind option_bind].
    destruct (note_result_ok q (cs_versions st) d vl ltac:(congruence) ltac:(pose proof (zlen_nonneg (outputs st)); lia)) as (K1 & K2 & K3 & K4 & K5 & K6). set (d' := with_versions _ _) in *.
    eexists q, d', _, _. split; [done|]. split; [done|]. split; [done|]. split; [congruence|]. split; [|intros o HR Hi Hf _ _ _; by specialize (Hrel HR Hi Hf)].
    right. split; [done|]. split; [by apply K6|]. rewrite K3. split; [by exists r|]. unfold DeleteObsoleteFiles. rewrite (K6 Eq). exact Hdisk'.
Qed.
End Branches.

(** ** The whole turn *)

Lemma reschedule_form h d : ∃ sc n, MaybeScheduleCompaction h (with_scheduled false d) =
    {| writers_ := writers_ d; on_stack := on_stack d; tmp_batch_ := tmp_batch_ d; mem_ := mem_ d; imm_ := imm_ d; logfile_number_ := logfile_number_ d; log_ := log_ d;
       db_versions_ := db_versions_ d; bg_error_ := bg_error_ d; shutting_down_ := shutting_down_ d; bg_compaction_scheduled_ := sc; manual_compaction_ := manual_compaction_ d; scheduled := n |} ∧
  (sc = true → Status_ok (bg_error_ d) = true ∧ shutting_down_ d = false).
Proof.
  unfold MaybeScheduleCompaction, with_scheduled. cbn [bg_compaction_scheduled_ shutting_down_ bg_error_ imm_ manual_compaction_]. destruct (shutting_down_ d); [by eexists _, _|].
  destruct (Status_ok (bg_error_ d)); cbn [negb]; [|by eexists _, _]. destruct (_ && _); by eexists _, _.
Qed.

Lemma keeps_rest_refl d : keeps_rest d d.
Proof. unfold keeps_rest. split; [done|]. split; [done|]. split; [by constructor|]. split; [done|]. split; [done|]. lia. Qed.

(** What the database shows after a turn over files: nothing was to be done, files were compacted or moved, or an error was recorded. *)
Definition turn_outcome {W : Type} (valid : bytes → Prop) (user : Comparator) (tables_of : W → Z → option (Z * list (bytes * bytes))) (tables : Z → option (Z * list Entry)) (v : Version)
    (h : Hints) (smallest : Z) (b : Background (W := W)) (d' : DBImpl) (w' : W) : Prop :=
  imm_ d' = None ∧ vs_log_number (db_versions_ d') = vs_log_number (db_versions_ (bg_db b)) ∧
  match choose user h b with
  | Some (Some c, _) =>
      (bg_error_ d' = bg_error_ (bg_db b) ∧ moved_on valid user tables_of tables v c smallest (versions_ (db_versions_ d')) w') ∨
      (Status_ok (bg_error_ d') = false ∧ stayed tables_of tables v (versions_ (db_versions_ d')) w')
  | _ => bg_error_ d' = bg_error_ (bg_db b) ∧ db_versions_ d' = db_versions_ (bg_db b) ∧ w' = bg_world b
  end.

(** Every block the input iterator of the chosen compaction needs can be read. *)
Definition inputs_readable {W : Type} (user : Comparator) (MakeInputIterator : Compaction → W → list (bytes * bytes * Status) * Status) (h : Hints) (b : Background (W := W)) : Prop :=
  ∀ c vs', choose user h b = Some (Some c, vs') →
    Forall (λ k, Status_ok k.2 = true) (MakeInputIterator c (bg_world b)).1 ∧ Status_ok (MakeInputIterator c (bg_world b)).2 = true.

(** What the caller of a manual compaction finds: it is done, or the rest of the range is left, from the last file compacted on. *)
Definition manual_outcome {W : Type} (user : Comparator) (h : Hints) (b : Background (W := W)) (m' : option ManualCompaction) (d' : DBImpl) : Prop :=
  match bg_manual b with
  | None => m' = None
  | Some m => ∃ m0, m' = Some m0 ∧ mc_level m0 = mc_level m ∧ mc_end m0 = mc_end m ∧ manual_compaction_ d' = false ∧
      (mc_done m0 = false → bg_error_ d' = bg_error_ (bg_db b) ∧ ∃ c vs' f, choose user h b = Some (Some c, vs') ∧ last (inputs0 c) = Some f ∧ mc_begin m0 = Some (largest f)) ∧
      (mc_done m0 = true → Status_ok (bg_error_ d') = true → choose user h b = Some (None, db_versions_ (bg_db b)))
  end.

Section Turn.
Context {W B : Type} {ops : OutputOps W B} {env : ManifestEnv W} {files : W → gmap bytes bytes} {GetChildren : W → list bytes} {Evict : Z → W → W}.
Context {valid : bytes → Prop} {user : Comparator} `{HU : !ComparatorOk valid user} {comparator_name dbname : bytes} {log_error : Status} (Hlog : Status_ok log_error = false).
Context {tables_of : W → Z → option (Z * list (bytes * bytes))} {entries : B → option (list (bytes * bytes))} {fits : list (bytes * bytes) → Prop} {MakeInputIterator : Compaction → W → list (bytes * bytes * Status) * Status}.
Context `{HO : !OutputOk ops valid user tables_of entries fits} `{HT : !TablesLocal env dbname Evict tables_of}.
Context (tables : Z → option (Z * list Entry)) (v : Version) (h : Hints) (oldest : option Z) (b : Background (W := W)).
Abbreviation d := (bg_db b).
Abbreviation vs := (db_versions_ (bg_db b)).
Abbreviation smallest := (default (vs_last_sequence (db_versions_ (bg_db b))) oldest).

Lemma choose_ok : CompactStart valid user tables_of fits MakeInputIterator tables v h oldest b → ∃ oc vs', choose user h b = Some (oc, vs') ∧
  match oc with None => vs' = vs | Some c => inputs0 c ≠ [] ∧ zlen (compact_pointer_ vs') = kNumLevels end.
Proof using HU.
  intros [(r & Hlive & Hr & _) C2 C3 C4 C5 (C6 & C7 & C8) C9]. assert (Hf : FilesOk (valid := valid) (user := user) v).
  { intros l. apply Forall_forall. intros f Hf. apply (describes_FileOk tables). by apply (v_describes _ _ C2 l). }
  assert (Hcur : current (versions_ vs) = Some v) by (unfold current; by rewrite Hlive). destruct (bg_manual b) as [m|] eqn:Em.
  - destruct (C5 m eq_refl) as (M1 & M2 & M3). destruct (CompactRange_ok v vs (mc_level m) (mc_begin m) (mc_end m) Hf Hcur C7 M1 M2 M3) as (oc & vs' & E & _ & H2 & H3).
    exists oc, vs'. unfold choose. rewrite Em. split; [done|]. destruct oc as [c|]; [split; [apply (ch_inputs0 _ _ (proj1 H3))|done]|].
    unfold CompactRange in E. rewrite Hcur in E. cbn [mbind option_bind] in E. rewrite H3 in E. cbn [mbind option_bind] in E. by injection E.
  - destruct (PickCompaction_ok h v vs Hf C4 Hcur C7) as (oc & vs' & E & _ & H2 & H3). exists oc, vs'. unfold choose. rewrite Em. split; [done|]. destruct oc as [c|]; [split; [apply (ch_inputs0 _ _ (proj1 H3))|done]|].
    unfold PickCompaction in E. rewrite Hcur in E. cbn [mbind option_bind] in E. destruct (pick_start _ _ _ _) as [[[lv f]|]|]; [|by injection E|done]. cbn [mbind option_bind] in E. repeat (case_match || simplify_option_eq); done.
Qed.

(** The branch that is taken ends in one of the two ways. *)
Lemma branch_ok c vs' : CompactStart valid user tables_of fits MakeInputIterator tables v h oldest b → choose user h b = Some (Some c, vs') → zlen (compact_pointer_ vs') = kNumLevels →
  ∃ s d' pending' w', (if negb (bool_decide (is_Some (bg_manual b))) && IsTrivialMove c then move_file env files user comparator_name dbname log_error c (with_versions vs' d) (bg_pending b) (bg_world b)
      else compact_files env files GetChildren Evict user comparator_name dbname log_error MakeInputIterator (DoCompactionWork ops user) c oldest (with_versions vs' d) (bg_pending b) (bg_world b)) = Some (s, d', pending', w') ∧
    keeps_rest d d' ∧ imm_ d' = imm_ d ∧ vs_log_number (db_versions_ d') = vs_log_number vs ∧ branch_outcome valid user tables_of tables v c smallest d d' s w' ∧
    (∀ o, OutputReliable ops tables_of entries → inputs_readable user MakeInputIterator h b → ManifestEnvOk env files → descriptor_log_ vs = Some o → 0 <= o <= Log.kBlockSize → s = OK).
Proof using HU HO HT Hlog.
  intros [(r & Hlive & Hr & Hfresh) C2 C3 C4 C5 (C6 & C7 & C8) C9] Hch Hcp. destruct (choose_reference _ _ _ _ _ Hch) as (Hinput & cp & Href).
  destruct (reference_of _ _ _ _ _ Hlive Href) as (R1 & R2 & R3 & R4 & R5 & R6 & R7 & R8 & R9). destruct (C9 c vs' Hch) as (l & ins & final & Hin & Hof & HC & Hfits & Hsize & Hnum).
  assert (Hlive' : live_ (versions_ vs') !! current_id (versions_ vs') = Some (v, r + 1)) by (rewrite R1, R3; by rewrite lookup_insert_eq).
  assert (Hfresh' : live_ (versions_ vs') !! next_id (versions_ vs') = None) by (rewrite R2, R3; rewrite lookup_insert_ne by congruence; done).
  rewrite <- R4 in HC. rewrite <- R1 in Hinput. rewrite <- R5 in C6.
  assert (Hback : ∀ d', keeps_rest (with_versions vs' d) d' → keeps_rest d d') by (intros d'; unfold keeps_rest; cbn [with_versions writers_ on_stack tmp_batch_ mem_ imm_ logfile_number_ log_ db_versions_]; by rewrite R4, R6).
  destruct (negb _ && IsTrivialMove c) eqn:Et.
  - apply andb_true_iff in Et as [_ Et].
    destruct (move_file_ok (env := env) (files := files) (comparator_name := comparator_name) Hlog tables v c l (with_versions vs' d) (bg_pending b) (bg_world b) r Hlive' Hr Hfresh' Hinput Hcp C6 HC C3 smallest Et Hnum Hsize)
      as (s & d' & w' & E & K1 & K2 & K3 & K4 & K5). exists s, d', (bg_pending b), w'. cbn [with_versions imm_ db_versions_] in K2, K3, K5. rewrite R7 in K3. rewrite R9 in K5. split_and!; auto. by intros o _ _; apply K5.
  - rewrite <- R6 in C8.
    destruct (compact_files_ok (ops := ops) (env := env) (files := files) (GetChildren := GetChildren) (comparator_name := comparator_name) (entries := entries) (MakeInputIterator := MakeInputIterator) Hlog
      tables v c l (with_versions vs' d) (bg_pending b) (bg_world b) r Hlive' Hr Hfresh' Hinput Hcp C6 HC C3 oldest ins final C8 Hfits Hin Hof) as (s & d' & p' & w' & E & K1 & K2 & K3 & K4 & K5).
    exists s, d', p', w'. cbn [with_versions imm_ db_versions_] in K2, K3, K4, K5. rewrite R7 in K3. rewrite R9 in K5. rewrite R6 in K4. split_and!; auto.
    intros o HR Hi. destruct (Hi c vs' Hch) as [Hi1 Hi2]. rewrite Hin in Hi1, Hi2. apply K5; [done|by apply Forall_fmap in Hi1|done].
Qed.

Lemma turn_files : imm_ d = None → CompactStart valid user tables_of fits MakeInputIterator tables v h oldest b →
  ∃ m' b', BackgroundCompaction ops env files GetChildren Evict user comparator_name dbname log_error MakeInputIterator (DoCompactionWork ops user) h oldest b = Some (m', b') ∧ bg_manual b' = None ∧ keeps_rest d (bg_db b') ∧
    turn_outcome valid user tables_of tables v h smallest b (bg_db b') (bg_world b') ∧ manual_outcome user h b m' (bg_db b') ∧
    (∀ o, OutputReliable ops tables_of entries → inputs_readable user MakeInputIterator h b → ManifestEnvOk env files → descriptor_log_ vs = Some o → 0 <= o <= Log.kBlockSize → bg_error_ (bg_db b') = bg_error_ d).
Proof using HU HO HT Hlog.
  intros Him HS. destruct (choose_ok HS) as (oc & vs' & Ech & Hoc). unfold BackgroundCompaction, turn_outcome, manual_outcome. rewrite Him, Ech. cbn [mbind option_bind].
  destruct oc as [c|].
  - destruct Hoc as [Hne Hcp]. destruct (branch_ok c vs' HS Ech Hcp) as (s & d' & p' & w' & -> & K1 & K2 & K3 & K4 & K5). cbn [mbind option_bind].
    destruct (last (inputs0 c)) as [f|] eqn:El; [|by apply last_None in El]. rewrite Him in K2.
    assert (Herr : ∀ o, OutputReliable ops tables_of entries → inputs_readable user MakeInputIterator h b → ManifestEnvOk env files → descriptor_log_ vs = Some o → 0 <= o <= Log.kBlockSize → bg_error_ d' = bg_error_ d).
    { intros o HR Hi HE Ho Hr. destruct K4 as [(_ & -> & _)|(Hs & _)]; [done|]. by rewrite (K5 o HR Hi HE Ho Hr) in Hs. }
    assert (Hturn : (bg_error_ d' = bg_error_ d ∧ moved_on valid user tables_of tables v c smallest (versions_ (db_versions_ d')) w') ∨
      (Status_ok (bg_error_ d') = false ∧ stayed tables_of tables v (versions_ (db_versions_ d')) w')) by (destruct K4 as [(_ & H1 & H2)|(_ & H1 & H2)]; auto).
    destruct (bg_manual b) as [m|]; [|by eexists _, _].
    unfold manual_rest. rewrite El. cbn [mbind option_bind]. eexists _, _. split; [done|]. cbn [bg_manual bg_db bg_world with_manual imm_ db_versions_ bg_error_]. split; [done|]. split; [done|]. split; [done|]. split; [|done].
    eexists. split; [done|]. destruct K4 as [(-> & H1 & H2)|(Hs & H1 & H2)]; [cbn [Status_ok OK]|rewrite Hs]; cbn [mc_level mc_end mc_done mc_begin manual_compaction_ with_manual]; split_and!; try done.
    + intros _. split; [done|]. by exists c, vs', f.
    + intros _. by rewrite H1.
  - subst vs'. cbn [mbind option_bind]. pose proof (keeps_rest_refl d) as Hk.
    destruct (bg_manual b) as [m|]; eexists _, _; (split; [done|]); cbn [bg_manual bg_db bg_world with_manual with_versions imm_ db_versions_ bg_error_]; (split; [done|]); (split; [exact Hk|]); (split; [done|]); (split; [|done]); [|done].
    eexists. split; [done|]. cbn. split_and!; try done.
Qed.

(** Without failures, and with the globals not in the middle of the first user key, the merge of the other build does the same. *)
Lemma verify_turn g h' : (imm_ d = None → CompactStart valid user tables_of fits MakeInputIterator tables v h oldest b) → OutputReliable ops tables_of entries → inputs_readable user MakeInputIterator h b →
  (∀ c vs', choose user h b = Some (Some c, vs') → fresh_globals user g (MakeInputIterator c (bg_world b)).1.*1) →
  BackgroundCall ops env files GetChildren Evict user comparator_name dbname log_error MakeInputIterator (verify_work ops user g) h h' oldest b =
  BackgroundCall ops env files GetChildren Evict user comparator_name dbname log_error MakeInputIterator (DoCompactionWork ops user) h h' oldest b.
Proof using HU HO.
  intros HS HR Hi Hg. unfold BackgroundCall, BackgroundCompaction. destruct (imm_ d) eqn:Him; [done|]. specialize (HS eq_refl). destruct (choose user h b) as [[[c|] vs']|] eqn:Hch; [|done..]. cbn [mbind option_bind].
  assert (Hsame : compact_files env files GetChildren Evict user comparator_name dbname log_error MakeInputIterator (verify_work ops user g) c oldest (with_versions vs' d) (bg_pending b) (bg_world b) =
    compact_files env files GetChildren Evict user comparator_name dbname log_error MakeInputIterator (DoCompactionWork ops user) c oldest (with_versions vs' d) (bg_pending b) (bg_world b)); [|by rewrite Hsame].
  destruct HS as [(r & Hlive & Hr & Hfresh) C2 C3 C4 C5 (C6 & C7 & C8) C9]. destruct (choose_reference _ _ _ _ _ Hch) as (Hinput & cp & Href).
  destruct (reference_of _ _ _ _ _ Hlive Href) as (R1 & R2 & R3 & R4 & R5 & R6 & _). destruct (C9 c vs' Hch) as (l & ins & final & Hin & Hof & HC & Hfits & _).
  destruct (Hi c vs' Hch) as [Hi1 Hi2]. specialize (Hg c vs' eq_refl). rewrite Hin in Hi1, Hi2, Hg. cbn [fst snd] in Hi1, Hi2, Hg. apply Forall_fmap in Hi1. change (all_ok ins) in Hi1.
  assert (Hcur : current (versions_ vs') = Some v) by (unfold current; rewrite R1, R3; by rewrite lookup_insert_eq).
  unfold compact_files. cbn [with_versions db_versions_]. rewrite Hcur. cbn [mbind option_bind]. destruct (NumLevelFiles _ _) as [n|]; [|done]. cbn [mbind option_bind]. destruct (n <=? 0); [done|]. rewrite Hin.
  rewrite <- R4 in HC. rewrite <- R6 in C8. destruct (compaction_run (ops := ops) (entries := entries) tables v c l ins final oldest vs' (bg_pending b) (bg_world b) HC C8 Hfits Hof) as (q & st & E & _ & _ & _ & _ & _ & Hrel).
  specialize (Hrel HR Hi1 Hi2). assert (q = OK) as -> by (by destruct q). assert (final = OK) as -> by (by destruct final).
  assert (Hy : yields ins = (λ kv, (kv, OK)) <$> (yields ins).*1).
  { clear -Hi1. unfold yields. induction Hi1 as [|[e q] ins Hq _ IH]; [done|]. cbn [fmap list_fmap fst snd] in *. rewrite IH at 1. destruct q; [done|]. reflexivity. }
  rewrite Hy in E. destruct (verify_same ops user v _ _ g st Hg E) as [g' E']. unfold verify_work. rewrite E', Hy, E. done.
Qed.
End Turn.


(** ** Sample *)

(** A turn for the whole of level 1 of [sample_version], with a snapshot at 8. *)
Definition sample_range : ManualCompaction := {| mc_level := 1; mc_done := false; mc_begin := None; mc_end := None |}.
Definition sample_background : Background (W := MemoryWorld) := {|
  bg_db := {| writers_ := []; on_stack := ∅; tmp_batch_ := tmp_batch_ sample_db; mem_ := mem_ sample_db; imm_ := None; logfile_number_ := 4; log_ := log_ sample_db; db_versions_ := sample_flush_vs;
              bg_error_ := OK; shutting_down_ := false; bg_compaction_scheduled_ := true; manual_compaction_ := true; scheduled := 1 |};
  bg_manual := Some sample_range; bg_pending := ∅; bg_world := sample_flush_world |}.

Lemma sample_choose : ∃ vs', choose BytewiseComparator CompactionWork.sample_hints sample_background = Some (Some sample_compaction, vs').
Proof. eexists. vm_compute. reflexivity. Qed.

(** The whole table is read. *)
Definition sample_input (_ : Compaction) (_ : MemoryWorld) : list (bytes * bytes * Status) * Status := (yields ((λ e, (e, OK)) <$> sample_table), OK).

#[local] Opaque Table.sample_file.
Lemma sample_compact_start : CompactStart bytes_ok BytewiseComparator (λ (w : MemoryWorld) n, w.2 !! n) (λ _, True) sample_input sample_tables sample_version
  CompactionWork.sample_hints (Some 8) sample_background.
Proof.
  split.
  - by exists 1.
  - apply sample_version_ok.
  - intros l f [_ ->]%sample_level. done.
  - split; [intros _; split; [by_compute|done]|done].
  - intros m [= <-]. split; [by_compute|done].
  - by_compute.
  - destruct sample_choose as (vs1 & E). intros c vs'. rewrite E. intros [= <- _]. exists sample_table, ((λ e, (e, OK)) <$> sample_table), OK. split; [reflexivity|].
    split; [exact (InputOf_all sample_table)|]. split; [exact sample_compacting|]. split; [done|]. split.
    + intros f ->%list_elem_of_singleton. by_compute.
    + intros f g _ Hg. change (level_files sample_version (level_ sample_compaction + 1)) with (@nil FileMetaData) in Hg. exact (False_ind _ (not_elem_of_nil g Hg)).
Qed.

Lemma sample_input_readable : inputs_readable BytewiseComparator sample_input CompactionWork.sample_hints sample_background.
Proof. intros c vs' _. split; [|done]. by repeat constructor. Qed.

